(* ===== verification/_CoqProject ===== *)
-Q . S2P
Prelude.v
FileLock.v
Float.v
Text.v
Scan.v
Json.v
Porcelain.v
JsonCodec.v
Secret.v
Credentials.v
Scrub.v
Crypto.v
Blobs.v
Price.v
Envelope.v
Log.v
Authz.v
Capture.v
Tamper.v
Replay.v
Intent.v
Undo.v
ColdTier.v
Serializer.v
Coordination.v
Queue.v
PullRequest.v
Policy.v
Import.v
Fence.v
Union.v
Attempt.v
Bisect.v
Checks.v
Landing.v
Loader.v
Calls.v
Drain.v
Authoring.v
Flake.v
Budget.v
Affected.v
Lease.v
Regen.v
Experiment.v
Ledger.v
Rollup.v
Push.v
Sync.v
Delta.v
Receive.v
Serve.v
TreeDiff.v
History.v
Negotiate.v
Mirror.v
