(* ===== verification/Prelude.v ===== *)
(** * A verification library for hugit

    hugit is a git forge whose source of truth is an append-only, hash-chained
    event log.  Refs are a projection of the log; agents and people submit
    events through a single serialization point; a landing queue decides which
    changes may land together; checks, bisection and budgets serve the queue;
    and a sync engine keeps GitHub as a mirror the forge arbitrates.  The code is
    Rust, under [src/crates]; this library models the parts named below as Rocq
    functions and step relations and proves what makes them correct.

    ** Parts, files and how they fit

    Basis:
    - [Prelude.v] (this file): results and errors, fixed-width arithmetic, byte
      strings, and the list and string lemmas the other files share, with the
      development's tactics and hint databases.
    - [Text.v], [Scan.v]: what the code uses of the language's strings (lines,
      trimming, splitting, lossy decoding, searching, ASCII case).
    - [Json.v], [JsonCodec.v]: the JSON library is a parameter (class
      [SerdeJson], laws [SerdeJsonLaws]); [canonical_json] is the program's.
      [JsonCodec.Codec] is a concrete codec satisfying the laws.
    - [Crypto.v]: SHA-256 and hex are a parameter (class [Crypto], laws
      [CryptoLaws]), with a concrete instance [Toy].  No theorem assumes that
      the hash has no collisions: a statement that would need it produces the
      collision.

    - [Float.v]: binary64 over the Standard Library's [SpecFloat].

    The log and its projections ([hugit-refstore], [hugit-contracts]):
    - [Log.v]: [src/log/mod.rs], [event_record.rs].  [EventRecord], [EventLog],
      the length-prefixed pre-images and the appends.
    - [Authz.v]: [authz/mod.rs].  The matrix and the audited guard of mutations.
    - [Tamper.v]: [src/tamper].  The chain verifier and redaction markers.
    - [Replay.v], [Intent.v], [Undo.v]: the projection to refs, intents and
      their import, undo as a compensating event.
    - [ColdTier.v]: cold tier, compaction and recovery over the classes
      [ColdStore] and [MirrorSource].
    - [Serializer.v]: [src/concurrency/mod.rs] as an interleaving step relation
      over the atomic accesses of the code.
    - [Coordination.v]: [src/coordination.rs], advisory locks over files.

    Landing and budgets ([hugit-queue], [hugit-diag], [hugit-policy]):
    - [Queue.v], [Union.v]: batches, ordered landing, and the diagnosis of a
      union with its probe budget and clock.
    - [Bisect.v]: bisection over the action cache, and diagnosis objects.
    - [FileLock.v], [Attempt.v], [Landing.v]: the landing command
      ([hugit-cli/src/land], [hugit-cli/src/pr/filelock.rs]): the atomic write and
      the advisory lock, the receipts of attempts, and landing a queue as one
      union; every call of the file system can fail.
    - [Budget.v]: tenant budgets, with [Module NoShock] for [budget/no_shock].
    - [Flake.v], [Experiment.v]: flake statistics and quarantine, and the
      promotion experiment with its sealed corpora and reports.
    - [Policy.v]: the gates, the engine, the landing check, policy changes and
      [hugit-cli/src/policy/edit.rs].

    Secrets, envelopes and what is read from them ([hugit-ledger], [hugit-cli]):
    - [Secret.v]: the shape detectors and the redaction engine.
    - [Credentials.v]: what a credential, an address and a digest are, stated on the
      words of a text apart from the scanning code, and that the detectors decide it.
    - [Porcelain.v]: the error value of a command and its rendering.
    - [Scrub.v]: the boundary in front of the log ([hugit-cli/src/porcelain.rs]).
    - [Blobs.v]: the cold blob stores, in memory and in a directory.
    - [Price.v], [Envelope.v]: the price card, the recorder and closing.
    - [Capture.v], [PullRequest.v]: [hugit-cli/src/pr], the verbs on the log and
      the envelopes a settlement captures.
    - [Drain.v]: the receipts of git hooks ([hugit-cli/src/capture]) and their drain
      into the log, with every call able to fail or to be the last.
    - [Calls.v], [Loader.v]: computations whose calls can fail or be the last, and
      the loading of a log from a file.
    - [Authoring.v]: [intent new] over its store and the shared log
      ([hugit-cli/src/intent]).
    - [Ledger.v]: the asked, done, proven projection and the displayed lines.
    - [Rollup.v]: the metric rollups of pull requests and campaigns.

    Checks ([hugit-checks], [hugit-fence]):
    - [Checks.v]: globs, memo keys, the caches and the memoized run.
    - [Affected.v]: affected sets over the build graph, and shadow checks.
    - [Lease.v]: runner leases, dispatch, attestation, re-execution.
    - [Regen.v]: regeneration drivers and the gate that lets a revision land.
    - [Fence.v]: the secrets broker.

    The git side ([hugit-proto], [hugit-mirror]):
    - [Push.v], [Delta.v], [Receive.v]: ordered writes, the delta codec, the
      receive decision and the object store.
    - [Serve.v], [TreeDiff.v], [History.v], [Negotiate.v]: serving fetches, tree
      diffs, file history, negotiation and limits.
    - [Sync.v], [Mirror.v], [Import.v]: forge-arbitrated sync, mirror delivery and
      recovery, and the import of a history.

    [Log] is used by everything; [Tamper] and [Replay] read it; [Undo], [Intent],
    [Serializer], [Push], [Sync], [PullRequest], [Policy] and [Regen] write it,
    through [Authz] where the code does.  [Ledger], [Capture] and [Rollup] read
    what was written.  [PullRequest] enqueues in [Queue], [Union] works on its
    batches, [Checks] gives [Bisect] and [Lease] their keys.  What the code asks
    of another part through a trait is a class here ([ColdBlobStore],
    [ActionCache], [CheckRunner], [SecretStore], [BoxExec], [RunnerTransport],
    [Spawn], ...), with the code's implementations as instances.  A field,
    variant or function keeps its name in the source unless two of them would
    clash; then it carries a prefix from its type.  State that the code mutates
    is passed and returned; a panic is [None] of an option, an error is [Err] of
    [result].

    ** What the theorems show

    - The log ([Log], [Tamper]): every hashed or signed pre-image determines its
      fields; the verifier accepts exactly the chains whose sequence, links and
      contents are right and otherwise reports the first violation; appending
      and redacting keep a log intact; two verified logs with one head hold the
      same history, or exhibit a collision.
    - The projection ([Replay], [Intent], [Undo]): a ref is what the last event
      touching it wrote; the intent view and the machine history have the same
      landings; an import lands once; an accepted undo restores the ref, a
      refused one changes no ref.
    - Storage ([ColdTier], [Blobs]): sealing a prefix and recovering gives the
      original chain and refs; both blob stores refine one map of contents and
      tombstones, and what was erased stays erased.
    - Concurrency ([Serializer], [Coordination], [Push]): every interleaving is
      equivalent to running the critical sections in the order they were
      entered; every call can finish; locks are exclusive and ordered; pushes
      that land on a ref form a chain without lost updates.
    - Landing ([Authz], [Queue], [Union], [Landing], [Attempt], [FileLock],
      [Policy], [Regen]): authorization is the
      matrix; a batch lands in order and in one pass; what a union evaluation
      authorizes was probed green for exactly those inputs; the landing command
      lands exactly that set or leaves the log alone, for the reason it gives, says
      applied only after the log was written, and its receipts tell every attempt
      (for names a record's scrubbing leaves as they are); the house gates pass
      exactly the changes their rules describe, features, fixes and credentials
      being read independently of the gates; a policy edit toggles one gate;
      a regenerated revision lands exactly when it is permitted.
    - Secrets ([Secret], [Credentials], [Scrub], [Envelope], [Fence]): the shape
      detectors are their declarative reading; every text in a scrubbed payload is
      judged by the rule of the key it stands under, and what holds a credential
      there is replaced; what closing an envelope stores is redacted; the broker
      lets only a signature out, into the job's directory.
    - Pull requests and accounts ([PullRequest], [Capture], [Price], [Rollup]):
      the verbs only append their records and are idempotent; a price is exact
      or refused; a record accounts for every attempt once and a campaign for
      every pull request once.
    - The ledger ([Ledger]): every landing on the log has its entry, in order, with
      the landing's own fields, its verdicts and the later landings of the intent;
      a rejection stands until its lens approves.
    - Checks ([Checks], [Bisect], [Affected], [Budget], [Lease]): a glob matches
      its declarative meaning over the bytes of a path, and over its characters
      when the pattern has no question mark or the path is one byte a character; a
      cached answer is one that was run for the same check, or the two requests'
      own pre-images collide; bisection finds the first red tree; the affected set
      is every package for an unknown workspace or a root edit, and otherwise the
      closure of the edit; queued work is never dropped; a leased run whose id the
      client accepts is closed once, last, with its verdict, its metrics being those
      of that answer, and an attested cost was signed.
    - Experiments ([Flake], [Experiment]): a test is quarantined exactly when its
      counts say so; a promotion was earned by the corpus of its report, or a
      collision is at hand.
    - Git ([Delta], [Receive], [Serve], [TreeDiff], [History], [Negotiate]): deltas
      decode what was encoded; an accepted push leaves its target and all below
      it in the store; a fetch serves exactly what is asked; a tree diff of
      trees the source holds completely is the difference of the two file maps, and
      it always ends; the history of a path is its reference.
    - Mirrors ([Sync], [Mirror], [Import]): the protected branch moves only by
      authorized landings; seeding completes only when every unit was verified;
      an import extends the log with byte-identical commits and can be resumed.

    ** Bounds, fuel and widths

    Integers the code keeps in [u32], [u64] or [u128] are [N] with their
    wrap-around, saturation or checked failure written out ([as_u32], [u64_add],
    [u64_sub], [Rollup.add]).  [usize] lengths of collections in memory are [nat].
    The functions that recurse on a counter take it from the data and are proved
    to reach their result with it: [Bisect.narrow] gets the length of the history
    and needs its logarithm; the budget drain gets the number of queued items;
    the closures of [Serve] and [Receive] get a rank of the objects that are
    left; the tree diff needs the rank of its trees and the history walk more
    than the length of the first-parent chain; the delta decoder and the scans
    of [Scan] get the length of their input; scrubbing gets more than the longest
    string of the document, since a document inside a string is shorter; the
    search of [Affected] gets the seeds and the edges of the graph.  The union
    diagnosis follows the code's own probe budget.  Everything else is
    structural.  Entropies, densities and ratios are binary64 ([SpecFloat]).

    ** What is not modelled

    HTTP servers and clients, process execution beyond the classes above,
    argument parsing and the rendering of a command's output, the MCP server, the
    GitHub application,
    the symbol index and the harnesses drive external libraries and hold little
    logic of their own.  Within the modelled files, [Display] texts, accessors
    without use in the logic, clocks read for display, and reports whose only
    content is a floating-point summary are left out.  Debug assertions are
    absent, as in a release build.  Parts with logic that a later extension can
    take up: the campaign commands over [Ledger] and [Rollup], and the recovery of
    the queue's GitHub adapter. *)

From Stdlib Require Export Ascii Strings.Byte NArith.
From Stdlib Require Strings.String.
From Stdlib Require DecimalString DecimalN.
From stdpp Require Export base sorting numbers option gmap strings list.

(** * Scope, results and errors *)

Declare Scope hugit_scope.
Delimit Scope hugit_scope with hugit.
#[global] Open Scope hugit_scope.
#[global] Open Scope N_scope.
#[global] Open Scope stdpp_scope.

(** Rust's [Result<A, E>], with the error type first so that [result E] is a
    monad for stdpp's [x ← e; k] notation (the [?] operator of the code). *)
Inductive result (E A : Type) : Type :=
| Ok (a : A)
| Err (e : E).
Arguments Ok {E A} a.
Arguments Err {E A} e.

#[global] Instance result_ret {E} : MRet (result E) := λ A, @Ok E A.
#[global] Instance result_bind {E} : MBind (result E) :=
  λ A B f r, match r with Ok a => f a | Err e => Err e end.
#[global] Instance result_fmap {E} : FMap (result E) :=
  λ A B f r, match r with Ok a => Ok (f a) | Err e => Err e end.
#[global] Instance result_eq_dec {E A} `{EqDecision E, EqDecision A} :
  EqDecision (result E A).
Proof. solve_decision. Defined.

(** [Result::map_err]: the conversion a [?] applies through [From]. *)
Definition map_err {E F A} (f : E → F) (r : result E A) : result F A :=
  match r with Ok a => Ok a | Err e => Err (f e) end.

(** [Option::ok_or_else]. *)
Definition ok_or {E A} (e : E) (o : option A) : result E A :=
  match o with Some a => Ok a | None => Err e end.

Definition is_ok {E A} (r : result E A) : bool :=
  match r with Ok _ => true | Err _ => false end.

(** * Automation *)

Create HintDb hugit discriminated.

(** Invert every equation between results, options and pairs in the context,
    splitting the matches that block them. *)
Ltac inv_eqs :=
  repeat match goal with
  | H : Ok _ = Ok _ |- _ => injection H as H; try subst
  | H : Err _ = Err _ |- _ => injection H as H; try subst
  | H : Ok _ = Err _ |- _ => discriminate H
  | H : Err _ = Ok _ |- _ => discriminate H
  | H : Some _ = Some _ |- _ => injection H as H; try subst
  | H : Some _ = None |- _ => discriminate H
  | H : None = Some _ |- _ => discriminate H
  | H : (_, _) = (_, _) |- _ => injection H as H; try subst
  | H : true = false |- _ => discriminate H
  | H : false = true |- _ => discriminate H
  end.

(** Step through the [match]es of a hypothesis, keeping the equations. *)
Ltac split_match_in H :=
  match type of H with
  | context [match ?x with _ => _ end] =>
      lazymatch x with
      | context [match _ with _ => _ end] => fail
      | _ => let E := fresh "E" in destruct x eqn:E
      end
  end.
Ltac run H := repeat (split_match_in H; inv_eqs; try done); inv_eqs.

(** Discharge a decidable proposition about closed terms by evaluation. *)
Ltac by_decision :=
  match goal with |- ?P => apply (bool_decide_unpack P); vm_compute; exact I end.

(** * Machine integers *)

(** [u64]/[usize] values are [N]; arithmetic that can overflow is written with
    the wrap of the release profile. *)
Definition u64_max : N := 18446744073709551615.
Definition u64_add (a b : N) : N := (a + b) mod 18446744073709551616.
Definition u64_saturating_add (a b : N) : N := N.min (a + b) u64_max.

(** [u64::checked_add] and [u64::checked_mul]. *)
Definition u64_checked_add (a b : N) : option N := if a + b <=? u64_max then Some (a + b) else None.
Definition u64_checked_mul (a b : N) : option N := if a * b <=? u64_max then Some (a * b) else None.

Lemma u64_checked_add_Some a b c : u64_checked_add a b = Some c ↔ c = a + b ∧ a + b ≤ u64_max.
Proof. unfold u64_checked_add. destruct (N.leb_spec (a + b) u64_max); naive_solver lia. Qed.
Lemma u64_checked_mul_Some a b c : u64_checked_mul a b = Some c ↔ c = a * b ∧ a * b ≤ u64_max.
Proof. unfold u64_checked_mul. destruct (N.leb_spec (a * b) u64_max); naive_solver lia. Qed.

Lemma u64_add_le a b : u64_add a b ≤ u64_max.
Proof.
  unfold u64_add, u64_max. pose proof (N.mod_lt (a + b) 18446744073709551616). lia.
Qed.
Lemma u64_add_0 a : a ≤ u64_max → u64_add a 0 = a.
Proof. unfold u64_add, u64_max. intros. rewrite N.add_0_r, N.mod_small; lia. Qed.
Lemma u64_add_assoc a b c : u64_add (u64_add a b) c = u64_add a (b + c).
Proof. unfold u64_add. rewrite N.Div0.add_mod_idemp_l. f_equal. lia. Qed.

(** [as u32]. *)
Definition as_u32 (n : N) : N := n mod 4294967296.

(** * Bytes *)

#[global] Instance byte_eq_dec : EqDecision byte := Byte.byte_eq_dec.

Definition byte_of_N (n : N) : byte := default x00 (Byte.of_N (n mod 256)).

Lemma to_N_byte_of_N n : Byte.to_N (byte_of_N n) = n mod 256.
Proof.
  unfold byte_of_N. destruct (Byte.of_N (n mod 256)) as [b|] eqn:E; simpl.
  - by apply Byte.to_of_N in E.
  - apply Byte.of_N_None_iff in E.
    pose proof (N.mod_lt n 256). lia.
Qed.

Lemma lor_shift_split n k : N.lor (n mod 2 ^ k) (N.shiftl (n / 2 ^ k) k) = n.
Proof.
  apply N.bits_inj_iff. intros j. rewrite N.lor_spec. destruct (N.lt_ge_cases j k) as [Hj|Hj].
  - rewrite N.mod_pow2_bits_low, N.shiftl_spec_low by done. by rewrite orb_false_r.
  - rewrite N.mod_pow2_bits_high, N.shiftl_spec_high' by done. rewrite N.div_pow2_bits.
    simpl. f_equal. lia.
Qed.

Lemma shiftl_lor_low b a k : a < 2 ^ k → N.lor (N.shiftl b k) a = b * 2 ^ k + a.
Proof.
  intros Ha. pose proof (lor_shift_split (b * 2 ^ k + a) k) as Hs. rewrite N.lor_comm in Hs.
  rewrite N.div_add_l, (N.div_small a), N.add_0_r in Hs by (done || lia).
  by rewrite N.add_comm, N.Div0.mod_add, N.mod_small, (N.add_comm a) in Hs.
Qed.

Lemma byte_of_to_N b : byte_of_N (Byte.to_N b) = b.
Proof.
  unfold byte_of_N. pose proof (Byte.to_N_bounded b). rewrite N.mod_small by lia. by rewrite Byte.of_to_N.
Qed.

(** [{u32,u64}::to_be_bytes]: the [w] low bytes of [n], most significant
    first. *)
Fixpoint be_bytes (w : nat) (n : N) : list byte :=
  match w with
  | O => []
  | S w => be_bytes w (n / 256) ++ [byte_of_N n]
  end.

(** The value read back from big-endian bytes. *)
Definition be_value (bs : list byte) : N :=
  foldl (λ acc b, acc * 256 + Byte.to_N b) 0 bs.

Lemma length_be_bytes w n : length (be_bytes w n) = w.
Proof. revert n; induction w as [|w IH]; intros n; simpl; [done|].
  rewrite length_app, IH. simpl. lia. Qed.

Lemma be_value_snoc bs b : be_value (bs ++ [b]) = be_value bs * 256 + Byte.to_N b.
Proof. unfold be_value. by rewrite foldl_app. Qed.

Lemma be_value_be_bytes w n : be_value (be_bytes w n) = n mod 256 ^ N.of_nat w.
Proof.
  revert n; induction w as [|w IH]; intros n; simpl be_bytes.
  - simpl. by rewrite N.mod_1_r.
  - rewrite be_value_snoc, IH, to_N_byte_of_N, Nat2N.inj_succ, N.pow_succ_r'.
    rewrite (N.Div0.mod_mul_r n 256). lia.
Qed.

Lemma be_bytes_inj w m n :
  m < 256 ^ N.of_nat w → n < 256 ^ N.of_nat w →
  be_bytes w m = be_bytes w n → m = n.
Proof.
  intros Hm Hn Heq. apply (f_equal be_value) in Heq.
  rewrite !be_value_be_bytes in Heq.
  by rewrite !N.mod_small in Heq by done.
Qed.

(** [str::as_bytes] and its inverse. *)
Abbreviation as_bytes := String.list_byte_of_string (only parsing).

Lemma as_bytes_inj s t : as_bytes s = as_bytes t → s = t.
Proof.
  intros H. rewrite <- (String.string_of_list_byte_of_string s), H.
  apply String.string_of_list_byte_of_string.
Qed.

Lemma length_as_bytes s : length (as_bytes s) = String.length s.
Proof.
  unfold String.list_byte_of_string. rewrite length_map.
  induction s; simpl; auto.
Qed.

(** A loop that only appends to its buffer. *)
Lemma foldl_extend {A B} (f : list B → A → list B) (g : A → list B) buf l :
  (∀ buf x, f buf x = buf ++ g x) → foldl f buf l = buf ++ (l ≫= g).
Proof.
  intros Hf. revert buf. induction l as [|x l IH]; intros buf; simpl; [by rewrite app_nil_r|].
  by rewrite IH, Hf, <- (assoc_L (++)).
Qed.

(** * Lists *)

Lemma StronglySorted_snoc {A} (R : relation A) l x :
  StronglySorted R l → Forall (λ y, R y x) l → StronglySorted R (l ++ [x]).
Proof.
  induction 1 as [|a l Hs IH Ha]; intros Hf; simpl; [repeat constructor|].
  inversion Hf; subst. constructor; [by apply IH|]. apply Forall_app. split; [done|by constructor].
Qed.

(** * Prefix codes *)

(** An encoder is a prefix code on [P] when the encoding of a value followed by
    arbitrary bytes determines both the value and the bytes that follow: the
    reading of "unambiguous concatenation" the pre-image format relies on. *)
Definition prefix_code {A} (P : A → Prop) (enc : A → list byte) : Prop :=
  ∀ a b r r', P a → P b → enc a ++ r = enc b ++ r' → a = b ∧ r = r'.

Lemma prefix_code_inj {A} (P : A → Prop) enc a b :
  prefix_code P enc → P a → P b → enc a = enc b → a = b.
Proof.
  intros H Ha Hb Heq. apply (H a b [] []); [done..|]. by rewrite Heq.
Qed.

Lemma prefix_code_fixed {A} (P : A → Prop) enc (w : nat) :
  (∀ a, length (enc a) = w) →
  (∀ a b, P a → P b → enc a = enc b → a = b) →
  prefix_code P enc.
Proof.
  intros Hlen Hinj a b r r' Ha Hb Heq.
  apply app_inj_1 in Heq as [He ->]; [|by rewrite !Hlen].
  split; [by apply Hinj|done].
Qed.

Lemma prefix_code_pair {A B} (P : A → Prop) (Q : B → Prop) encA encB :
  prefix_code P encA → prefix_code Q encB →
  prefix_code (λ x, P x.1 ∧ Q x.2) (λ x, encA x.1 ++ encB x.2).
Proof.
  intros HA HB [a b] [a' b'] r r' [Pa Qb] [Pa' Qb']; simpl in *.
  rewrite <- !(assoc_L (++)). intros Heq.
  apply HA in Heq as [-> Heq]; [|done..].
  by apply HB in Heq as [-> ->].
Qed.

Lemma prefix_code_be w :
  prefix_code (λ n, n < 256 ^ N.of_nat w) (be_bytes w).
Proof.
  eapply prefix_code_fixed; [intros; apply length_be_bytes|].
  intros m n Hm Hn. by apply be_bytes_inj.
Qed.

(** A list whose length is written first is a prefix code as soon as its
    elements are: the count tells how many to read. *)
Lemma prefix_code_concat {A} (P : A → Prop) enc (l l' : list A) r r' :
  prefix_code P enc → Forall P l → Forall P l' → length l = length l' →
  (l ≫= enc) ++ r = (l' ≫= enc) ++ r' → l = l' ∧ r = r'.
Proof.
  intros Henc Hl. revert l' r r'.
  induction Hl as [|a l Pa Hl IH]; intros [|a' l'] r r' Hl' Hlen Heq;
    simplify_eq/=; [done|].
  inversion Hl'; subst.
  rewrite <- !(assoc_L (++)) in Heq.
  apply Henc in Heq as [-> Heq]; [|done..].
  by apply IH in Heq as [-> ->].
Qed.

(** * Strings *)

Lemma length_string_app s t :
  String.length (s +:+ t) = (String.length s + String.length t)%nat.
Proof.
  induction s as [|c s IH]; [done|].
  change (String c s +:+ t) with (String c (s +:+ t)). simpl. by rewrite IH.
Qed.

(** [str::split_once(c)]: around the first occurrence of the character. *)
Fixpoint split_once (c : ascii) (s : string) : option (string * string) :=
  match s with
  | EmptyString => None
  | String d s' =>
      if decide (c = d) then Some (EmptyString, s')
      else '(a, b) ← split_once c s'; Some (String d a, b)
  end.

Fixpoint has_char (c : ascii) (s : string) : bool :=
  match s with
  | EmptyString => false
  | String d s => bool_decide (c = d) || has_char c s
  end.

Lemma split_once_Some c s a b :
  split_once c s = Some (a, b) ↔ s = a +:+ String c b ∧ has_char c a = false.
Proof.
  revert a. induction s as [|d s IH]; intros a; simpl.
  - split; [done|]. intros [Hs _]. destruct a; done.
  - destruct (decide (c = d)) as [->|Hne].
    + split.
      * intros. inv_eqs. done.
      * intros [Hs Ha]. destruct a as [|x a].
        -- change ("" +:+ String d b) with (String d b) in Hs. by simplify_eq.
        -- change (String x a +:+ String d b) with (String x (a +:+ String d b)) in Hs.
           simplify_eq. simpl in Ha. by rewrite bool_decide_true in Ha.
    + split.
      * destruct (split_once c s) as [[a' b']|] eqn:E; simpl; [|done].
        intros ?. inv_eqs. destruct (proj1 (IH a') eq_refl) as [-> Ha]. simpl.
        by rewrite bool_decide_false.
      * intros [Hs Ha]. destruct a as [|x a].
        { change ("" +:+ String c b) with (String c b) in Hs. by simplify_eq. }
        change (String x a +:+ String c b) with (String x (a +:+ String c b)) in Hs.
        simplify_eq. simpl in Ha. apply orb_false_iff in Ha as [_ Ha].
        assert (split_once c (a +:+ String c b) = Some (a, b)) as -> by by apply IH.
        done.
Qed.

(** [str::starts_with] and [str::strip_prefix]. *)
Fixpoint strip_prefix (p s : string) : option string :=
  match p, s with
  | EmptyString, _ => Some s
  | String c p, String d s => if decide (c = d) then strip_prefix p s else None
  | String _ _, EmptyString => None
  end.
Definition starts_with (s p : string) : bool :=
  match strip_prefix p s with Some _ => true | None => false end.

Lemma strip_prefix_Some p s t : strip_prefix p s = Some t ↔ s = p +:+ t.
Proof.
  revert s. induction p as [|c p IH]; intros s; simpl.
  - change ("" +:+ t) with t. split; congruence.
  - change (String c p +:+ t) with (String c (p +:+ t)). destruct s as [|d s]; [done|].
    case_decide as Hd; [subst; rewrite IH|]; split; congruence.
Qed.

Lemma starts_with_true s p : starts_with s p = true ↔ ∃ t, s = p +:+ t.
Proof.
  unfold starts_with. destruct (strip_prefix p s) as [t|] eqn:E.
  - apply strip_prefix_Some in E. naive_solver.
  - split; [done|]. intros [t Ht%strip_prefix_Some]. congruence.
Qed.

(** [{}] of an unsigned integer, and [{:0w}]. *)
Definition decimal (n : N) : string :=
  DecimalString.NilEmpty.string_of_uint (N.to_uint n).

Definition zeros (n : nat) : string := String.concat "" (replicate n "0").
Definition decimal_padded (w : nat) (n : N) : string :=
  zeros (w - String.length (decimal n)) +:+ decimal n.

(** ** Sorted vectors of strings *)

(** [Vec::dedup]. *)
Fixpoint dedup (l : list string) : list string :=
  match l with
  | a :: (b :: _) as l' => if decide (a = b) then dedup l' else a :: dedup l'
  | _ => l
  end.

Lemma dedup_cons a b l :
  dedup (a :: b :: l) = if decide (a = b) then dedup (b :: l) else a :: dedup (b :: l).
Proof. done. Qed.

Lemma elem_of_dedup x l : x ∈ dedup l ↔ x ∈ l.
Proof.
  induction l as [|a [|b l] IH]; [done..|]. rewrite dedup_cons. case_decide as Hab.
  - rewrite IH. subst. set_solver.
  - rewrite elem_of_cons, IH. set_solver.
Qed.

Lemma dedup_NoDup l : StronglySorted String.le l → NoDup (dedup l).
Proof.
  induction 1 as [|a l Hs IH Hall]; [constructor|]. destruct l as [|b l]; [apply NoDup_singleton|].
  rewrite dedup_cons. case_decide as Hab; [done|]. constructor; [|done].
  intros Hin. rewrite elem_of_dedup in Hin. apply Hab. apply (anti_symm String.le).
  - inversion Hall; subst. done.
  - inversion Hs as [|? ? _ Hb]; subst. apply elem_of_cons in Hin as [->|Hin]; [done|].
    rewrite Forall_forall in Hb. by apply Hb.
Qed.

(** ** The width of a printed number *)

Definition digits (n : N) : nat := String.length (decimal n).

Lemma length_string_of_uint d :
  String.length (DecimalString.NilEmpty.string_of_uint d) = Decimal.nb_digits d.
Proof. induction d; simpl; by f_equal. Qed.

Lemma of_uint_acc_bounds d acc :
  (N.pos acc * 10 ^ N.of_nat (Decimal.nb_digits d) ≤ N.pos (Pos.of_uint_acc d acc)
     < (N.pos acc + 1) * 10 ^ N.of_nat (Decimal.nb_digits d)).
Proof.
  revert acc. induction d as [|d IH|d IH|d IH|d IH|d IH|d IH|d IH|d IH|d IH|d IH]; intros acc;
    cbn [Pos.of_uint_acc Decimal.nb_digits]; rewrite ?Nat2N.inj_succ, ?N.pow_succ_r'; [lia|..];
    match goal with |- _ ≤ N.pos (Pos.of_uint_acc _ ?a) < _ => specialize (IH a) end; lia.
Qed.

Lemma decimal_digits n : 0 < n →
  10 ^ (N.of_nat (digits n) - 1) ≤ n < 10 ^ N.of_nat (digits n).
Proof.
  intros Hn. unfold digits, decimal. rewrite length_string_of_uint.
  pose proof (DecimalN.Unsigned.of_to n) as Hof.
  assert (Decimal.unorm (N.to_uint n) = N.to_uint n) as Hu.
  { by rewrite <- DecimalN.Unsigned.to_of, Hof. }
  revert Hof Hu. destruct (N.to_uint n) as [|d|d|d|d|d|d|d|d|d|d];
    cbn [Decimal.nb_digits N.of_uint Pos.of_uint]; [intros <-; lia| |
    intros <- _; rewrite Nat2N.inj_succ, N.pow_succ_r', N.sub_1_r, N.pred_succ;
    match goal with |- context [Pos.of_uint_acc ?d ?a] =>
      pose proof (of_uint_acc_bounds d a);
      pose proof (N.pow_nonzero 10 (N.of_nat (Decimal.nb_digits d)))
    end; lia..].
  intros Hof Hu. exfalso. assert (d ≠ Decimal.Nil) as Hd by (intros ->; simpl in Hof; lia).
  rewrite DecimalFacts.unorm_D0 in Hu. pose proof (DecimalFacts.nb_digits_unorm d Hd) as Hle.
  rewrite Hu in Hle. simpl in Hle. lia.
Qed.

Lemma digits_unique n k : 0 < n → 10 ^ N.of_nat k ≤ n → n < 10 ^ (N.of_nat k + 1) → digits n = S k.
Proof.
  intros Hn Hlo Hhi. destruct (decimal_digits n Hn) as [Hl Hh].
  assert (N.of_nat k < N.of_nat (digits n)) by (apply (N.pow_lt_mono_r_iff 10); lia).
  assert (N.of_nat (digits n) - 1 < N.of_nat k + 1) by (apply (N.pow_lt_mono_r_iff 10); lia).
  lia.
Qed.
