(* ===== verification/FileLock.v ===== *)
(** Writing a shared file of the command line:
    [crates/hugit-cli/src/pr/filelock.rs].

    The directory is a small file system whose calls can each fail, a write after
    any number of bytes; the code is a state and error monad over it.  The
    advisory lock is a step relation: every call the code makes on the lock file
    is one step, and the threads interleave.

    The theorems: a replaced file holds its old bytes or all the new ones, whatever
    fails; the lock is exclusive among acquisitions that never take over, and two
    acquisitions that do can both end up holding it. *)

From S2P Require Import Prelude.

(** * A directory *)

(** How a call fails, and how many bytes a failing write left. *)
Record Fault := { what : string; written : nat }.
(** What is no regular file is a directory or something else, a link for one. *)
Inductive Node := Regular (content : list byte) | Special (is_dir : bool).
#[global] Instance Node_eq_dec : EqDecision Node.
Proof. solve_decision. Defined.
Inductive Place := Missing | NotDirectory | Directory (files : gmap string Node).

(** [io] holds the outcome of each coming call. *)
Record Store := { place : Place; io : list (option Fault) }.
Definition files_of (s : Store) : gmap string Node := match place s with Directory f => f | _ => ∅ end.
Definition set_place (p : Place) (s : Store) : Store := {| place := p; io := io s |}.
Definition set_file (name : string) (n : Node) (s : Store) : Store := set_place (Directory (<[name := n]> (files_of s))) s.

Definition IO (E A : Type) : Type := Store → Store * result E A.
#[global] Instance IO_ret {E} : MRet (IO E) := λ A a s, (s, Ok a).
#[global] Instance IO_bind {E} : MBind (IO E) := λ A B k m s,
  match m s with (s, Ok a) => k a s | (s, Err e) => (s, Err e) end.
Definition of_state {E A} (f : Store → Store * result E A) : IO E A := f.
Definition io_err {E A} (e : E) : IO E A := λ s, (s, Err e).
Definition io_map_err {E F A} (f : E → F) (m : IO E A) : IO F A := λ s, let '(s, r) := m s in (s, map_err f r).
Lemma bindE {E A B} (m : IO E A) (k : A → IO E B) s :
  (m ≫= k) s = match m s with (s, Ok a) => k a s | (s, Err e) => (s, Err e) end.
Proof. done. Qed.
(** [let _ = ...]. *)
Definition ignore {E F A} (m : IO E A) : IO F unit := λ s, ((m s).1, Ok tt).

Definition next_io (s : Store) : option Fault * Store :=
  match io s with [] => (None, s) | f :: io => (f, {| place := place s; io := io |}) end.
Definition call : IO string unit := λ s,
  match next_io s with (Some f, s) => (s, Err (what f)) | (None, s) => (s, Ok tt) end.

Definition fs_stat (name : string) : IO string (option Node) := _ ← call; of_state (λ s, (s, Ok (files_of s !! name))).
Definition fs_create_new (name : string) : IO string unit :=
  _ ← call; of_state (λ s,
  match place s with
  | Directory files => if decide (is_Some (files !! name)) then (s, Err "file exists") else (set_file name (Regular []) s, Ok tt)
  | _ => (s, Err "not found")
  end).
Definition fs_write_all (name : string) (bytes : list byte) : IO string unit := λ s,
  match next_io s with
  | (Some f, s) => (set_file name (Regular (take (written f) bytes)) s, Err (what f))
  | (None, s) => (set_file name (Regular bytes) s, Ok tt)
  end.
Definition fs_sync : IO string unit := call.
Definition fs_rename (from to : string) : IO string unit :=
  _ ← call; of_state (λ s,
  match files_of s !! from with
  | Some n =>
      if decide (files_of s !! to = Some (Special true)) then (s, Err "is a directory")
      else (set_place (Directory (<[to := n]> (delete from (files_of s)))) s, Ok tt)
  | None => (s, Err "not found")
  end).
Definition fs_remove (name : string) : IO string unit :=
  _ ← call; of_state (λ s,
  match files_of s !! name with
  | None => (s, Err "not found")
  | Some (Special true) => (s, Err "is a directory")
  | Some _ => (set_place (Directory (delete name (files_of s))) s, Ok tt)
  end).
(** Create the directory; [fs_create_dir_all] accepts that it is there. *)
Definition fs_create_dir : IO string unit :=
  _ ← call; of_state (λ s, match place s with Missing => (set_place (Directory ∅) s, Ok tt) | _ => (s, Err "file exists") end).
Definition fs_create_dir_all : IO string unit :=
  _ ← call; of_state (λ s, match place s with
    | Missing => (set_place (Directory ∅) s, Ok tt)
    | Directory _ => (s, Ok tt)
    | NotDirectory => (s, Err "file exists")
    end).

(** * The atomic write *)

Inductive LockError := Busy (path : string) | LockIo (action path source : string).
Definition lock_error_text (e : LockError) : string :=
  match e with
  | Busy path => path +:+ " is locked by another hugit verb"
  | LockIo action path source => action +:+ " " +:+ path +:+ ": " +:+ source
  end.

Section AtomicWrite.
Context (dir : string).
Definition in_dir (name : string) : string := dir +:+ "/" +:+ name.

(** [temp] is the name made from the process and the clock. *)
Definition atomic_write_unprepared (temp target : string) (bytes : list byte) : IO LockError unit :=
  _ ← (if decide (dir = EmptyString) then mret tt else ignore fs_create_dir_all);
  _ ← io_map_err (LockIo "create temp file" (in_dir temp)) (fs_create_new temp);
  _ ← io_map_err (LockIo "write temp file" (in_dir temp)) (fs_write_all temp bytes);
  _ ← io_map_err (LockIo "fsync temp file" (in_dir temp)) fs_sync;
  _ ← of_state (λ s, match fs_rename temp target s with
        | (s, Err e) => let '(s, _) := fs_remove temp s in (s, Err (LockIo "rename temp over target" (in_dir target) e))
        | (s, Ok _) => (s, Ok tt)
        end);
  io_map_err (LockIo "fsync parent directory" dir) fs_sync.
End AtomicWrite.

(** * What a call does *)

Lemma call_place s s' r : call s = (s', r) → place s' = place s.
Proof. unfold call, next_io. destruct (io s) as [|[f|] fs]; intros; by inv_eqs. Qed.
Lemma files_same s s' : place s' = place s → files_of s' = files_of s.
Proof. unfold files_of. by intros ->. Qed.

(** Run the leading call of a hypothesis. *)
Ltac io_call H :=
  match type of H with
  | context [call ?s] => let E := fresh "Hcall" in destruct (call s) as [? [?|?]] eqn:E; apply call_place in E; simpl in H
  end.

Lemma fs_create_new_spec n s s' r : fs_create_new n s = (s', r) →
  match r with
  | Ok _ => ∃ files, place s = Directory files ∧ files !! n = None ∧ place s' = Directory (<[n := Regular []]> files)
  | Err _ => place s' = place s
  end.
Proof.
  unfold fs_create_new, mbind, IO_bind, of_state. intros H. io_call H; [|by inv_eqs].
  destruct (place s0) as [| |files] eqn:Hp; [inv_eqs; congruence..|].
  case_decide as Hn; [inv_eqs; congruence|]. inv_eqs. apply eq_None_not_Some in Hn.
  exists files. rewrite <- Hcall. split_and!; [done|done|]. unfold set_file, files_of. simpl. by rewrite Hp.
Qed.
Lemma fs_write_all_spec n bytes s s' r : fs_write_all n bytes s = (s', r) →
  ∃ b, place s' = Directory (<[n := Regular b]> (files_of s)) ∧ (r = Ok tt → b = bytes) ∧ ∃ k, b = take k bytes.
Proof.
  unfold fs_write_all, next_io, set_file, files_of. destruct (io s) as [|[f|] fs]; intros; inv_eqs; simpl; eexists;
    (split; [reflexivity|]); (split; [done|]); [exists (length bytes)|by eexists|exists (length bytes)]; by rewrite firstn_all.
Qed.
Lemma fs_rename_spec a b s s' r : fs_rename a b s = (s', r) →
  match r with
  | Ok _ => ∃ n, files_of s !! a = Some n ∧ place s' = Directory (<[b := n]> (delete a (files_of s)))
  | Err _ => place s' = place s
  end.
Proof.
  unfold fs_rename, mbind, IO_bind, of_state. intros H. io_call H; [|by inv_eqs].
  rewrite (files_same _ _ Hcall) in H. destruct (files_of s !! a) as [n|]; [|by inv_eqs].
  case_decide; inv_eqs; [done|]. by exists n.
Qed.
Lemma fs_remove_spec a s s' r : fs_remove a s = (s', r) → files_of s' = files_of s ∨ files_of s' = delete a (files_of s).
Proof.
  unfold fs_remove, mbind, IO_bind, of_state. intros H. io_call H; [|inv_eqs; left; by apply files_same].
  rewrite (files_same _ _ Hcall) in H.
  destruct (files_of s !! a) as [[b|[]]|]; inv_eqs; [by right|left; by apply files_same|by right|left; by apply files_same].
Qed.
Lemma fs_create_dir_all_spec s s' r : fs_create_dir_all s = (s', r) →
  place s' = place s ∨ place s = Missing ∧ place s' = Directory ∅.
Proof.
  unfold fs_create_dir_all, mbind, IO_bind, of_state. intros H. io_call H; [|inv_eqs; by left].
  destruct (place s0) eqn:Hp; inv_eqs; [right|left..]; simpl; by rewrite <- Hcall.
Qed.
Lemma fs_create_dir_all_files s s' r : fs_create_dir_all s = (s', r) → files_of s' = files_of s.
Proof. intros [H|[H H']]%fs_create_dir_all_spec; [by apply files_same|]. unfold files_of. by rewrite H, H'. Qed.

(** ** The atomic write *)

Lemma atomic_write_mkdir dir s s' r : (if decide (dir = EmptyString) then mret tt else ignore fs_create_dir_all) s = (s', r : result LockError unit) →
  r = Ok tt ∧ files_of s' = files_of s.
Proof.
  case_decide; [by intros [= <- <-]|]. unfold ignore. destruct (fs_create_dir_all s) as [s1 r1] eqn:E. intros [= <- <-].
  by apply fs_create_dir_all_files in E.
Qed.

(** A file is replaced as a whole: after the call, whatever failed, the target has
    its old content or all the new bytes, the latter when the call succeeds; no
    other file changed but the temporary one, and that only if it was not there. *)
Theorem atomic_write_atomic dir temp target bytes s s' r : temp ≠ target →
  atomic_write_unprepared dir temp target bytes s = (s', r) →
  (files_of s' !! target = files_of s !! target ∨ files_of s' !! target = Some (Regular bytes)) ∧
  (r = Ok tt → files_of s' !! target = Some (Regular bytes) ∧ files_of s' !! temp = None) ∧
  (∀ n, n ≠ temp → n ≠ target → files_of s' !! n = files_of s !! n) ∧
  (is_Some (files_of s !! temp) → is_ok r = false ∧ files_of s' = files_of s).
Proof.
  intros Hne. unfold atomic_write_unprepared, io_map_err, of_state. set (mk := if decide _ then _ else _).
  rewrite bindE. destruct (mk s) as [s1 r1] eqn:E1. apply atomic_write_mkdir in E1 as [-> H1].
  rewrite bindE. destruct (fs_create_new temp s1) as [s2 [[]|e]] eqn:E2; apply fs_create_new_spec in E2; simpl;
    [|intros [= <- <-]; rewrite (files_same _ _ E2), H1; by split_and!; [left|..]].
  destruct E2 as (files & Hp1 & Hn & Hp2). assert (files_of s1 = files) as Hf1 by (unfold files_of; by rewrite Hp1).
  rewrite <- H1, Hf1. assert (files_of s2 = <[temp := Regular []]> files) as Hf2 by (unfold files_of; by rewrite Hp2).
  rewrite bindE. destruct (fs_write_all temp bytes s2) as [s3 r3] eqn:E3. apply fs_write_all_spec in E3 as (b & Hp3 & Hb & _).
  assert (files_of s3 = <[temp := Regular b]> files) as Hf3 by (unfold files_of; by rewrite Hp3, Hf2, insert_insert_eq).
  assert (∀ sx, files_of sx = <[temp := Regular b]> files →
    files_of sx !! target = files !! target ∧ ∀ n, n ≠ temp → n ≠ target → files_of sx !! n = files !! n) as Hkeep.
  { intros sx ->. split; [|intros]; by rewrite lookup_insert_ne. }
  assert (∀ o : Prop, is_Some (files !! temp) → o) as Hno by (intros o [? Hx]; by rewrite Hn in Hx).
  destruct r3 as [[]|e]; simpl; [|intros [= <- <-]; destruct (Hkeep s3 Hf3) as [? ?]; split_and!; [by left|done|done|apply Hno]].
  rewrite (Hb eq_refl) in *. clear b Hb.
  rewrite bindE. destruct (fs_sync s3) as [s4 [[]|e]] eqn:E4; apply call_place, files_same in E4; rewrite Hf3 in E4; simpl;
    [|intros [= <- <-]; destruct (Hkeep s4 E4) as [? ?]; split_and!; [by left|done|done|apply Hno]].
  rewrite bindE. destruct (fs_rename temp target s4) as [s5 [[]|e]] eqn:E5; apply fs_rename_spec in E5; simpl.
  - destruct E5 as (n & Hn5 & Hp5). rewrite E4, lookup_insert_eq in Hn5. injection Hn5 as <-.
    assert (files_of s5 = <[target := Regular bytes]> files) as Hf5.
    { unfold files_of at 1. rewrite Hp5, E4. f_equal. by apply delete_insert_id. }
    destruct (fs_sync s5) as [s6 r6] eqn:E6. apply call_place, files_same in E6. simpl. intros [= <- <-].
    rewrite E6, Hf5. rewrite lookup_insert_eq. split_and!; [by right| | |apply Hno].
    + intros _. split; [done|]. by rewrite lookup_insert_ne.
    + intros n H H'. by rewrite lookup_insert_ne.
  - destruct (fs_remove temp s5) as [s6 r6] eqn:E6. apply fs_remove_spec in E6.
    rewrite (files_same _ _ E5), E4 in E6. intros [= <- <-].
    destruct E6 as [E6|E6]; [destruct (Hkeep s6 E6) as [? ?]; split_and!; [by left|done|done|apply Hno]|].
    rewrite E6, delete_insert_id by done. by split_and!; [left| | |apply Hno].
Qed.

(** * The lock *)

Definition STALE_LOCK_SECS : N := 120.

(** Where an acquisition is, and whether it may take over. *)
Inductive Pc := Start | Stamping | Contended | Reclaim | Recreate | Holding | Released | Refused | Crashed.
#[global] Instance Pc_eq_dec : EqDecision Pc.
Proof. solve_decision. Defined.
Record Thread := { pc : Pc; takeover : bool }.
Definition at_pc (p : Pc) (t : Thread) : Thread := {| pc := p; takeover := takeover t |}.

(** The lock file, who made it and when it was last written. *)
Record LockFile := { maker : nat; mtime : N }.
Record World := { lock_file : option LockFile; clock : N; threads : list Thread }.
Definition go (i : nat) (p : Pc) (w : World) : World :=
  {| lock_file := lock_file w; clock := clock w; threads := alter (at_pc p) i (threads w) |}.
Definition set_lock (f : option LockFile) (w : World) : World :=
  {| lock_file := f; clock := clock w; threads := threads w |}.

Definition lock_is_stale (w : World) : bool :=
  match lock_file w with Some f => STALE_LOCK_SECS <=? clock w - mtime f | None => false end.

(** [try_create]: the file is created when it is not there, then stamped.  A
    stamp that fails leaves the file; a stamp of a file that was replaced in
    between is written to no name. *)
Definition try_create (i : nat) (fails : bool) (exists_ : Pc) (w : World) : World :=
  if fails then go i Refused w
  else match lock_file w with
       | Some _ => go i exists_ w
       | None => go i Stamping (set_lock (Some {| maker := i; mtime := clock w |}) w)
       end.
Definition stamp (i : nat) (w : World) : World :=
  match lock_file w with
  | Some f => if decide (maker f = i) then set_lock (Some {| maker := i; mtime := clock w |}) w else w
  | None => w
  end.

(** The next call of thread [i], and whether it fails. *)
Definition lock_step (i : nat) (fails : bool) (w : World) : World :=
  match threads w !! i with
  | None => w
  | Some t =>
      match pc t with
      | Start => try_create i fails Contended w
      | Stamping => if fails then go i Refused w else go i Holding (stamp i w)
      | Contended => if takeover t && lock_is_stale w && negb fails then go i Reclaim w else go i Refused w
      | Reclaim => go i Recreate (if fails then w else set_lock None w)
      | Recreate => try_create i fails Refused w
      | Holding => go i Released (if fails then w else set_lock None w)
      | Released | Refused | Crashed => w
      end
  end.

Inductive Move := Step (i : nat) (fails : bool) | Tick (n : N) | Crash (i : nat) | Arrive (takeover : bool).
Definition play (w : World) (m : Move) : World :=
  match m with
  | Step i fails => lock_step i fails w
  | Tick n => {| lock_file := lock_file w; clock := clock w + n; threads := threads w |}
  | Crash i => go i Crashed w
  | Arrive b => {| lock_file := lock_file w; clock := clock w; threads := threads w ++ [{| pc := Start; takeover := b |}] |}
  end.
(** [acquire_bootstrap] never takes over, [acquire] may. *)
Definition allowed (legacy : bool) (m : Move) : Prop := match m with Arrive true => legacy = true | _ => True end.
Inductive lock_moves (legacy : bool) (w : World) : World → Prop :=
| moves m : allowed legacy m → lock_moves legacy w (play w m).

Definition lock_start : World := {| lock_file := None; clock := 0; threads := [] |}.
Definition reachable (legacy : bool) : World → Prop := rtc (lock_moves legacy) lock_start.
Definition at_point (w : World) (i : nat) (p : Pc) : Prop := pc <$> threads w !! i = Some p.
Definition exclusive (w : World) : Prop := ∀ i j, at_point w i Holding → at_point w j Holding → i = j.

(** * Exclusion *)

(** Who made the lock file and has not released it owns it. *)
Record owned (w : World) : Prop := {
  owner_of i : at_point w i Stamping ∨ at_point w i Holding → maker <$> lock_file w = Some i;
  no_reclaim i : ¬ at_point w i Reclaim;
  no_takeover i t : threads w !! i = Some t → takeover t = false;
}.

Lemma at_point_go w i p j q : at_point (go i p w) j q ↔ if decide (i = j) then p = q ∧ is_Some (threads w !! i) else at_point w j q.
Proof.
  unfold at_point, go. simpl. rewrite list_lookup_alter. case_decide as Hij; [subst j|done].
  destruct (threads w !! i); simpl; unfold is_Some; naive_solver.
Qed.
Lemma go_takeover w i p j t : threads (go i p w) !! j = Some t → ∃ t', threads w !! j = Some t' ∧ takeover t = takeover t'.
Proof.
  unfold go. simpl. rewrite list_lookup_alter. case_decide; [subst|eauto].
  destruct (threads w !! j); simpl; naive_solver.
Qed.

Definition owns (p : Pc) : bool := bool_decide (p = Stamping ∨ p = Holding).

(** Thread [i] goes to [p] and the lock file becomes [f]. *)
Lemma owned_move w i p f : owned w → p ≠ Reclaim →
  (owns p = true → maker <$> f = Some i) →
  (∀ j, j ≠ i → at_point w j Stamping ∨ at_point w j Holding → maker <$> f = Some j) →
  owned (go i p (set_lock f w)).
Proof.
  intros [Ho Hr Ht] Hp Hi Hj. split.
  - intros j. rewrite !at_point_go. simpl. case_decide as Hij; [|by apply Hj].
    subst j. intros [[-> _]|[-> _]]; by apply Hi.
  - intros j. rewrite at_point_go. case_decide; [naive_solver|apply Hr].
  - intros j t Hl. apply go_takeover in Hl as (t' & Hl & ->). by eapply Ht.
Qed.

Lemma owned_idle w i p : owned w → p ≠ Reclaim → owns p = false → owned (go i p w).
Proof.
  intros Hw Hp Hi. replace w with (set_lock (lock_file w) w) by (by destruct w). apply owned_move; [by destruct w|done|congruence|].
  intros j _ Hj. by apply (owner_of w).
Qed.

Lemma owned_create w i fails exists_ : owned w → exists_ ≠ Reclaim → owns exists_ = false → owned (try_create i fails exists_ w).
Proof.
  intros Hw Hp Hi. unfold try_create. destruct fails; [by apply owned_idle|].
  destruct (lock_file w) as [f|] eqn:Hf; [by apply owned_idle|]. apply owned_move; [done..|].
  intros j _ Hj. apply (owner_of w Hw) in Hj. by rewrite Hf in Hj.
Qed.

Lemma owned_step w i fails : owned w → owned (lock_step i fails w).
Proof.
  intros Hw. unfold lock_step. destruct (threads w !! i) as [t|] eqn:Hi; [|done].
  assert (at_point w i (pc t)) as Hat by (unfold at_point; by rewrite Hi).
  destruct (pc t) eqn:Hpc; try done; try by apply owned_create.
  - destruct fails; [by apply owned_idle|]. unfold stamp.
    pose proof (owner_of w Hw i (or_introl Hat)) as Hm.
    destruct (lock_file w) as [f|]; [|done]. injection Hm as Hm. rewrite decide_True by done.
    apply owned_move; [done..|]. intros j Hj Hp. apply (owner_of w Hw) in Hp.
    pose proof (owner_of w Hw i (or_introl Hat)). congruence.
  - rewrite (no_takeover w Hw i t) by done. simpl. by apply owned_idle.
  - by apply (no_reclaim w Hw) in Hat.
  - destruct fails; [by apply owned_idle|]. apply owned_move; [done..|]. intros j Hj Hp.
    apply (owner_of w Hw) in Hp. pose proof (owner_of w Hw i (or_intror Hat)). congruence.
Qed.

Lemma owned_play w m : owned w → allowed false m → owned (play w m).
Proof.
  intros Hw Hm. destruct m as [i fails|n|i|b]; simpl.
  - by apply owned_step.
  - destruct Hw as [Ho Hr Ht]. by split.
  - by apply owned_idle.
  - destruct b; [done|]. destruct Hw as [Ho Hr Ht]. split; unfold at_point in *; simpl.
    + intros i. rewrite lookup_app. destruct (threads w !! i) as [t|] eqn:Hi; [specialize (Ho i); rewrite Hi in Ho; done|].
      intros Hp. exfalso. destruct (i - _)%nat; simpl in Hp; naive_solver.
    + intros i. rewrite lookup_app. destruct (threads w !! i) as [t|] eqn:Hi; [specialize (Hr i); rewrite Hi in Hr; done|].
      intros Hp. destruct (i - _)%nat; simpl in Hp; naive_solver.
    + intros i t. rewrite lookup_app. destruct (threads w !! i) as [t'|] eqn:Hi; [intros [= ->]; by eapply Ht|].
      intros Hp. destruct (i - _)%nat; simpl in Hp; naive_solver.
Qed.

Lemma reachable_owned w : reachable false w → owned w.
Proof.
  unfold reachable. apply (rtc_ind_r owned).
  - split; [by intros i [?|?]|done|done].
  - intros w1 w2 _ Hm Hw. destruct Hm as [m Hm]. by apply owned_play.
Qed.

(** Two reclaimers: the first holder died; both find its file stale, and the second
    removes the file the first one just made. *)
Definition two_reclaimers : list Move :=
  [Arrive true; Step 0 false; Step 0 false; Crash 0; Tick 120; Arrive true; Arrive true;
   Step 1 false; Step 1 false; Step 2 false; Step 2 false;
   Step 1 false; Step 1 false; Step 1 false; Step 2 false; Step 2 false; Step 2 false].

Lemma played_reachable legacy ms w : reachable legacy w → Forall (allowed legacy) ms → reachable legacy (foldl play w ms).
Proof.
  intros Hw Hm. revert w Hw. induction Hm as [|m ms Hm _ IH]; intros w Hw; simpl; [done|].
  apply IH. eapply rtc_r; [done|]. by constructor.
Qed.

(** C36. Acquisitions that never take over hold the lock one at a time, whatever crashes
    or fails in between.  With takeover two of them can hold it together, and both
    have just acquired it: that the file is created only when it is absent does not
    decide between two reclaimers. *)
Theorem lock_exclusive :
  (∀ w, reachable false w → exclusive w) ∧
  ∃ w f, reachable true w ∧ at_point w 1 Holding ∧ at_point w 2 Holding ∧ lock_file w = Some f ∧ mtime f = clock w ∧ maker f = 2%nat.
Proof.
  split.
  - intros w Hw%reachable_owned i j Hi Hj. apply (or_intror (A := at_point w i Stamping)), (owner_of w Hw) in Hi.
    apply (or_intror (A := at_point w j Stamping)), (owner_of w Hw) in Hj. congruence.
  - exists (foldl play lock_start two_reclaimers), {| maker := 2; mtime := 120 |}. split.
    + apply played_reachable; [constructor|]. by repeat constructor.
    + by repeat split.
Qed.
