(* ===== verification/Float.v ===== *)
(** Binary64 as the code uses it, over the Standard Library's [SpecFloat]: the
    conversion of an integer, the arithmetic, the bits of a value and its printing
    without decimals. *)

From S2P Require Import Prelude.
From Stdlib Require Floats.SpecFloat.

Export Floats.SpecFloat.

Definition f64_of_N (n : N) : spec_float := binary_normalize 53 1024 (Z.of_N n) 0 false.
Definition f64_div : spec_float → spec_float → spec_float := SFdiv 53 1024.
Definition f64_mul : spec_float → spec_float → spec_float := SFmul 53 1024.
Definition f64_add : spec_float → spec_float → spec_float := SFadd 53 1024.
Definition f64_zero : spec_float := S754_zero false.
Definition f64_one : spec_float := f64_of_N 1.

(** [f64::to_bits]: sign, biased exponent, mantissa. *)
Definition f64_bits (f : spec_float) : N :=
  let sign (s : bool) := if s then 9223372036854775808 else 0 in
  match f with
  | S754_zero s => sign s
  | S754_infinity s => sign s + 9218868437227405312
  | S754_nan => 9221120237041090560
  | S754_finite s m e =>
      if N.pos m <? 4503599627370496 then sign s + N.pos m
      else sign s + Z.to_N (e + 1075) * 4503599627370496 + (N.pos m - 4503599627370496)
  end.

(** [{:.0}] of a value that is not negative: the nearest integer, ties to even. *)
Definition f64_round (f : spec_float) : N :=
  match f with
  | S754_finite _ m e =>
      if (0 <=? e)%Z then N.pos m * 2 ^ Z.to_N e
      else
        let d := 2 ^ Z.to_N (- e) in let q := N.pos m / d in let r := N.pos m mod d in
        if 2 * r <? d then q else if d <? 2 * r then q + 1 else if N.even q then q else q + 1
  | _ => 0
  end.
