(* ===== verification/Text.v ===== *)
(** The text functions of the standard library the code calls on UTF-8 strings:
    [str::lines], [str::split], [str::trim], [char::is_control] and
    [String::from_utf8_lossy]. *)

From S2P Require Import Prelude.

Definition newline : ascii := ascii_of_nat 10.

(** * Lines *)

(** [split_inclusive('\n')]: the lines with the mark of a terminated one. *)
Fixpoint split_inclusive (s : string) : list (string * bool) :=
  match s with
  | EmptyString => []
  | String c s =>
      if decide (c = newline) then (EmptyString, true) :: split_inclusive s
      else match split_inclusive s with
           | [] => [(String c EmptyString, false)]
           | (l, t) :: ls => (String c l, t) :: ls
           end
  end.

(** [strip_suffix('\r')], when there is one. *)
Fixpoint strip_cr (s : string) : string :=
  match s with
  | EmptyString => EmptyString
  | String c s' =>
      if decide (c = ascii_of_nat 13 ∧ s' = EmptyString) then EmptyString
      else String c (strip_cr s')
  end.

Definition lines (s : string) : list string :=
  (λ '(l, t), if (t : bool) then strip_cr l else l) <$> split_inclusive s.

(** * Characters *)

Definition utf8 (codes : list nat) : string :=
  foldr (λ n s, String (ascii_of_nat n) s) EmptyString codes.

(** The characters of [char::is_whitespace], as their UTF-8 bytes. *)
Definition white_space : list string :=
  utf8 <$> [[9]; [10]; [11]; [12]; [13]; [32]; [194; 133]; [194; 160]; [225; 154; 128];
    [226; 128; 128]; [226; 128; 129]; [226; 128; 130]; [226; 128; 131]; [226; 128; 132];
    [226; 128; 133]; [226; 128; 134]; [226; 128; 135]; [226; 128; 136]; [226; 128; 137];
    [226; 128; 138]; [226; 128; 168]; [226; 128; 169]; [226; 128; 175]; [226; 129; 159];
    [227; 128; 128]]%nat.

(** Drop leading characters of [ws]; every pass consumes at least a byte, so
    the length of the text is enough fuel. *)
Fixpoint trim_front (ws : list string) (fuel : nat) (s : string) : string :=
  match fuel with
  | O => s
  | S fuel =>
      match head (omap (λ w, strip_prefix w s) ws) with
      | Some s' => trim_front ws fuel s'
      | None => s
      end
  end.

Definition trim_start (s : string) : string := trim_front white_space (String.length s) s.
Definition trim_end (s : string) : string :=
  String.rev (trim_front (String.rev <$> white_space) (String.length s) (String.rev s)).
Definition trim (s : string) : string := trim_end (trim_start s).


(** [s.chars().any(char::is_control)]: the C0 codes, DEL, and the C1 codes in
    their two-byte form. *)
Fixpoint any_control (s : string) : bool :=
  match s with
  | EmptyString => false
  | String c s' =>
      let n := N_of_ascii c in
      (n <? 32) || (n =? 127)
      || ((n =? 194) && match s' with
                        | String d _ => (128 <=? N_of_ascii d) && (N_of_ascii d <=? 159)
                        | EmptyString => false
                        end)
      || any_control s'
  end.

(** * Properties *)

Lemma split_inclusive_app s rest :
  split_inclusive (s +:+ String newline rest) =
    split_inclusive (s +:+ String newline "") ++ split_inclusive rest.
Proof.
  induction s as [|c s IH]; [done|].
  change (String c s +:+ ?t) with (String c (s +:+ t)). cbn [split_inclusive].
  case_decide as Hc; [by rewrite IH|]. rewrite IH.
  destruct (split_inclusive (s +:+ String newline "")) as [|[l t] ls] eqn:E; [|done].
  destruct s as [|d s]; [done|]. change (String d s +:+ ?t) with (String d (s +:+ t)) in E.
  cbn [split_inclusive] in E. case_decide; [done|].
  by destruct (split_inclusive (s +:+ String newline "")) as [|[??]].
Qed.

Lemma split_inclusive_single s :
  s ≠ "" → has_char newline s = false → split_inclusive s = [(s, false)].
Proof.
  induction s as [|c s IH]; [done|]. intros _ Hs. simpl in Hs.
  apply orb_false_iff in Hs as [Hc%bool_decide_eq_false Hs]. cbn [split_inclusive].
  rewrite decide_False by congruence. destruct s as [|d s]; [done|].
  by rewrite IH.
Qed.

(** * Splitting and decoding *)

(** [str::split] on a character: one piece more than there are separators. *)
Fixpoint split_char (sep : ascii) (s : string) : list string :=
  match s with
  | EmptyString => [EmptyString]
  | String c s =>
      if decide (c = sep) then EmptyString :: split_char sep s
      else match split_char sep s with
           | [] => [String c EmptyString]
           | l :: ls => String c l :: ls
           end
  end.

(** The pieces with the separator between them. *)
Fixpoint join_char (sep : ascii) (l : list string) : string :=
  match l with
  | [] => EmptyString
  | [x] => x
  | x :: l => x +:+ String sep (join_char sep l)
  end.

Lemma split_char_nonempty sep s : split_char sep s ≠ [].
Proof. destruct s as [|c s]; simpl; [done|]. case_decide; [done|]. by destruct (split_char sep s). Qed.

Lemma join_split sep s : join_char sep (split_char sep s) = s.
Proof.
  induction s as [|c s IH]; [done|]. cbn [split_char]. pose proof (split_char_nonempty sep s).
  case_decide as Hc.
  - subst c. destruct (split_char sep s) as [|l ls]; [done|]. cbn [join_char] in *. by rewrite IH.
  - destruct (split_char sep s) as [|l [|l' ls]]; [done|..]; cbn [join_char] in *; by rewrite <- IH.
Qed.

(** The lead byte of a longer character: the range of the second byte and the
    number of bytes after it. *)
Definition utf8_lead (b : N) : option (N * N * nat) :=
  if (194 <=? b) && (b <=? 223) then Some (128, 191, 0%nat)
  else if b =? 224 then Some (160, 191, 1%nat)
  else if b =? 237 then Some (128, 159, 1%nat)
  else if (225 <=? b) && (b <=? 239) then Some (128, 191, 1%nat)
  else if b =? 240 then Some (144, 191, 2%nat)
  else if (241 <=? b) && (b <=? 243) then Some (128, 191, 2%nat)
  else if b =? 244 then Some (128, 143, 2%nat)
  else None.
Definition in_range (lo hi : N) (c : ascii) : bool := (lo <=? N_of_ascii c) && (N_of_ascii c <=? hi).
Definition replacement (s : string) : string := utf8 [239; 191; 189]%nat +:+ s.

(** [String::from_utf8_lossy]: the longest beginning of a character that goes
    wrong becomes one replacement character. *)
Fixpoint from_utf8_lossy (s : string) : string :=
  match s with
  | EmptyString => EmptyString
  | String c s0 =>
      if N_of_ascii c <? 128 then String c (from_utf8_lossy s0)
      else match utf8_lead (N_of_ascii c) with
      | None => replacement (from_utf8_lossy s0)
      | Some (lo, hi, more) =>
          match s0 with
          | EmptyString => replacement EmptyString
          | String c1 s1 =>
              if negb (in_range lo hi c1) then replacement (from_utf8_lossy s0)
              else match more with
              | O => String c (String c1 (from_utf8_lossy s1))
              | S more =>
                  match s1 with
                  | EmptyString => replacement EmptyString
                  | String c2 s2 =>
                      if negb (in_range 128 191 c2) then replacement (from_utf8_lossy s1)
                      else match more with
                      | O => String c (String c1 (String c2 (from_utf8_lossy s2)))
                      | S _ =>
                          match s2 with
                          | EmptyString => replacement EmptyString
                          | String c3 s3 =>
                              if negb (in_range 128 191 c3) then replacement (from_utf8_lossy s2)
                              else String c (String c1 (String c2 (String c3 (from_utf8_lossy s3))))
                          end
                      end
                  end
              end
          end
      end
  end.

Lemma from_utf8_lossy_nonempty s : s ≠ EmptyString → from_utf8_lossy s ≠ EmptyString.
Proof.
  destruct s as [|c s]; [done|]. intros _. cbn [from_utf8_lossy].
  repeat (case_match; try done).
Qed.

Lemma from_utf8_lossy_ascii s : Forall (λ c, N_of_ascii c < 128) (String.list_ascii_of_string s) → from_utf8_lossy s = s.
Proof.
  induction s as [|c s IH]; [done|]. cbn [String.list_ascii_of_string from_utf8_lossy].
  intros [Hc Hs]%Forall_cons. apply N.ltb_lt in Hc as ->. by rewrite IH.
Qed.

(** A character, an overlong pair, a cut character. *)
Example lossy_character : from_utf8_lossy (utf8 [195; 169; 65]%nat) = utf8 [195; 169; 65]%nat.
Proof. reflexivity. Qed.
Example lossy_overlong : from_utf8_lossy (utf8 [192; 175]%nat) = utf8 [239; 191; 189; 239; 191; 189]%nat.
Proof. reflexivity. Qed.
Example lossy_cut : from_utf8_lossy (utf8 [226; 130; 65]%nat) = utf8 [239; 191; 189; 65]%nat.
Proof. reflexivity. Qed.
