(* ===== verification/Scan.v ===== *)
(** Scanning and parsing of text: the searches, character classes and number
    parsing of the standard library that several components call
    ([str::find], [str::contains], [str::split], [str::split_whitespace],
    [str::parse], [str::from_utf8], [to_ascii_lowercase]). *)

From S2P Require Import Prelude Text.
From Stdlib Require DecimalString DecimalN.

(** * Bytes and numbers *)

(** [slice::iter().position(|&b| b == x)], with the two sides. *)
Fixpoint split_at_byte (x : byte) (l : list byte) : option (list byte * list byte) :=
  match l with
  | [] => None
  | b :: l => if decide (b = x) then Some ([], l) else '(a, c) ← split_at_byte x l; Some (b :: a, c)
  end.

(** [str::parse::<usize>]: an optional plus sign and at least one digit. *)
Definition digit_value (b : byte) : option N :=
  let n := Byte.to_N b in if (48 <=? n) && (n <=? 57) then Some (n - 48) else None.
Fixpoint parse_digits (acc : N) (l : list byte) : option N :=
  match l with
  | [] => Some acc
  | b :: l => d ← digit_value b; let acc := acc * 10 + d in if acc <=? u64_max then parse_digits acc l else None
  end.
Definition parse_usize (l : list byte) : option N :=
  match l with
  | [] => None
  | b :: l' => if decide (b = x2b) then match l' with [] => None | _ => parse_digits 0 l' end
               else parse_digits 0 l
  end.

(** [str::from_utf8]: text that the lossy conversion leaves as it is. *)
Definition from_utf8 (d : list byte) : option string :=
  let s := String.string_of_list_byte d in
  if decide (from_utf8_lossy s = s) then Some s else None.

(** * Characters *)

Definition between (lo hi : N) (c : ascii) : bool := (lo <=? N_of_ascii c) && (N_of_ascii c <=? hi).
Definition is_ascii_digit : ascii → bool := between 48 57.
Definition is_ascii_uppercase : ascii → bool := between 65 90.
Definition is_ascii_lowercase : ascii → bool := between 97 122.
Definition is_ascii_alphanumeric (c : ascii) : bool := is_ascii_digit c || is_ascii_uppercase c || is_ascii_lowercase c.
Definition is_ascii_hexdigit (c : ascii) : bool := is_ascii_digit c || between 65 70 c || between 97 102 c.
Definition one_of (s : string) (c : ascii) : bool := has_char c s.

Definition ascii_lower (c : ascii) : ascii := if is_ascii_uppercase c then ascii_of_N (N_of_ascii c + 32) else c.
Fixpoint to_ascii_lowercase (s : string) : string :=
  match s with
  | EmptyString => EmptyString
  | String c s => String (ascii_lower c) (to_ascii_lowercase s)
  end.

Fixpoint string_forall (p : ascii → bool) (s : string) : bool :=
  match s with EmptyString => true | String c s => p c && string_forall p s end.
Definition string_exists (p : ascii → bool) (s : string) : bool := negb (string_forall (λ c, negb (p c)) s).
Fixpoint take_while (p : ascii → bool) (s : string) : string :=
  match s with EmptyString => EmptyString | String c s => if p c then String c (take_while p s) else EmptyString end.

(** * Searching *)

(** [str::find] of a text: what is before and after its first occurrence. *)
Fixpoint find_str (needle s : string) : option (string * string) :=
  match strip_prefix needle s with
  | Some rest => Some (EmptyString, rest)
  | None =>
      match s with
      | EmptyString => None
      | String c s => '(a, b) ← find_str needle s; Some (String c a, b)
      end
  end.
Definition contains (s needle : string) : bool := bool_decide (is_Some (find_str needle s)).

(** The loop [while let Some(pos) = search.find(needle)] that goes on behind each
    occurrence until a test holds there.  The test sees what is before and after
    the occurrence.  Every round leaves a shorter text, so its length and one is
    enough fuel. *)
Fixpoint scan_loop (needle : string) (test : string → string → bool) (fuel : nat) (pre search : string) : bool :=
  match fuel with
  | O => false
  | S fuel =>
      match find_str needle search with
      | None => false
      | Some (a, after) => test (pre +:+ a) after || scan_loop needle test fuel (pre +:+ a +:+ needle) after
      end
  end.
Definition scan (needle : string) (test : string → string → bool) (s : string) : bool :=
  scan_loop needle test (S (String.length s)) EmptyString s.

(** [str::split] with a set of separators. *)
Fixpoint split_where (p : ascii → bool) (s : string) : list string :=
  match s with
  | EmptyString => [EmptyString]
  | String c s =>
      if p c then EmptyString :: split_where p s
      else match split_where p s with
           | [] => [String c EmptyString]
           | l :: ls => String c l :: ls
           end
  end.

(** [str::split_whitespace]: the pieces between white space that are not empty. *)
Definition flush_word (word : string) : list string :=
  match word with EmptyString => [] | _ => [String.rev word] end.
Fixpoint words_loop (fuel : nat) (word s : string) : list string :=
  match fuel, s with
  | O, _ | _, EmptyString => flush_word word
  | S fuel, String c s' =>
      match head (omap (λ w, strip_prefix w s) white_space) with
      | Some rest => flush_word word ++ words_loop fuel EmptyString rest
      | None => words_loop fuel (String c word) s'
      end
  end.
Definition split_whitespace (s : string) : list string := words_loop (String.length s) EmptyString s.

(** * Lemmas *)

Lemma split_at_byte_app x a c : x ∉ a → split_at_byte x (a ++ x :: c) = Some (a, c).
Proof.
  induction a as [|b a IH]; intros Hx; simpl.
  - by rewrite decide_True.
  - apply not_elem_of_cons in Hx as [Hb Ha]. rewrite decide_False by done. by rewrite IH.
Qed.
Lemma split_at_byte_Some x l a c : split_at_byte x l = Some (a, c) → l = a ++ x :: c.
Proof.
  revert a. induction l as [|b l IH]; intros a; simpl; [done|]. case_decide; [intros; by inv_eqs; subst|].
  destruct (split_at_byte x l) as [[a' c']|]; simpl; [|done]. intros ?. inv_eqs. simpl. f_equal. by apply IH.
Qed.

Definition digit_byte (b : byte) : Prop := 48 ≤ Byte.to_N b ≤ 57.

Lemma string_of_uint_digits d : Forall digit_byte (as_bytes (DecimalString.NilEmpty.string_of_uint d)).
Proof. induction d; simpl; constructor; try done; by vm_compute. Qed.

Lemma parse_digits_digit acc n c s :
  digit_value (byte_of_ascii c) = Some n → acc * 10 + n ≤ u64_max →
  parse_digits acc (as_bytes (String c s)) = parse_digits (acc * 10 + n) (as_bytes s).
Proof.
  intros Hc Hle. change (as_bytes (String c s)) with (byte_of_ascii c :: as_bytes s).
  cbn [parse_digits]. rewrite Hc. cbn [mbind option_bind]. by rewrite (proj2 (N.leb_le _ _)).
Qed.

Lemma parse_digits_acc d acc :
  N.pos (Pos.of_uint_acc d acc) ≤ u64_max →
  parse_digits (N.pos acc) (as_bytes (DecimalString.NilEmpty.string_of_uint d))
    = Some (N.pos (Pos.of_uint_acc d acc)).
Proof.
  revert acc. induction d as [|d IH|d IH|d IH|d IH|d IH|d IH|d IH|d IH|d IH|d IH]; intros acc;
    cbn [Pos.of_uint_acc DecimalString.NilEmpty.string_of_uint]; [done|..];
    match goal with |- N.pos (Pos.of_uint_acc d ?a) ≤ _ → _ =>
      intros Hn; pose proof (of_uint_acc_bounds d a) as [Hb _];
      pose proof (N.pow_nonzero 10 (N.of_nat (Decimal.nb_digits d)) ltac:(done));
      assert (N.pos a ≤ u64_max) by nia; rewrite <- IH by done;
      match goal with |- parse_digits _ (as_bytes (String ?c ?s)) = _ =>
        let n := eval vm_compute in (default 0 (digit_value (byte_of_ascii c))) in
        rewrite (parse_digits_digit _ n c s); [f_equal; lia|done|lia]
      end
    end.
Qed.

Lemma parse_digits_uint d :
  N.of_uint d ≤ u64_max →
  parse_digits 0 (as_bytes (DecimalString.NilEmpty.string_of_uint d)) = Some (N.of_uint d).
Proof.
  induction d as [|d IH|d IH|d IH|d IH|d IH|d IH|d IH|d IH|d IH|d IH];
    cbn [DecimalString.NilEmpty.string_of_uint]; [done| |..]; intros Hn.
  { rewrite (parse_digits_digit 0 0) by done. by apply IH. }
  all: unfold N.of_uint in *; cbn [Pos.of_uint] in *; rewrite <- parse_digits_acc by done;
    match goal with |- parse_digits _ (as_bytes (String ?c ?s)) = _ =>
      let n := eval vm_compute in (default 0 (digit_value (byte_of_ascii c))) in
      by rewrite (parse_digits_digit 0 n c s)
    end.
Qed.

Lemma parse_usize_decimal n : n ≤ u64_max → parse_usize (as_bytes (decimal n)) = Some n.
Proof.
  intros Hn. assert (parse_digits 0 (as_bytes (decimal n)) = Some n) as Hp.
  { unfold decimal. rewrite parse_digits_uint; rewrite DecimalN.Unsigned.of_to; done. }
  pose proof (string_of_uint_digits (N.to_uint n)) as Hd. fold (decimal n) in Hd.
  unfold parse_usize. destruct (as_bytes (decimal n)) as [|b l] eqn:E.
  - exfalso. apply (f_equal length) in E. rewrite length_as_bytes in E. fold (digits n) in E. simpl in E.
    destruct (N.eq_0_gt_0_cases n) as [->|Hpos]; [done|]. pose proof (decimal_digits n Hpos) as [_ Hl].
    rewrite E in Hl. simpl in Hl. lia.
  - apply Forall_cons in Hd as [Hb _]. rewrite decide_False; [done|]. intros ->. by destruct Hb.
Qed.


Lemma string_app_assoc a b c : a +:+ (b +:+ c) = (a +:+ b) +:+ c.
Proof.
  induction a as [|x a IH]; [done|].
  change (String x (a +:+ (b +:+ c)) = String x ((a +:+ b) +:+ c)). by rewrite IH.
Qed.
Lemma string_app_cons x a b : String x a +:+ b = String x (a +:+ b).
Proof. done. Qed.
Lemma has_char_app c s t : has_char c (s +:+ t) = has_char c s || has_char c t.
Proof. induction s as [|d s IH]; [done|]. rewrite string_app_cons. simpl. by rewrite IH, orb_assoc. Qed.
Lemma string_app_nil_r a : a +:+ "" = a.
Proof. induction a as [|x a IH]; [done|]. by rewrite string_app_cons, IH. Qed.
Lemma string_app_inj_l a b c : a +:+ b = a +:+ c → b = c.
Proof. induction a as [|x a IH]; [done|]. rewrite !string_app_cons. intros [= ?]. by apply IH. Qed.

(** Two ways to cut a text. *)
Lemma string_app_eq a b c d : a +:+ b = c +:+ d →
  (∃ k, a = c +:+ k ∧ d = k +:+ b) ∨ (∃ k, c = a +:+ k ∧ b = k +:+ d).
Proof.
  revert c. induction a as [|x a IH]; intros c.
  - change ("" +:+ b) with b. intros ->. right. by exists c.
  - destruct c as [|y c].
    + change ("" +:+ d) with d. intros <-. left. by exists (String x a).
    + rewrite !string_app_cons. intros [= -> Heq]. apply IH in Heq as [(k & -> & ->)|(k & -> & ->)]; [left|right]; by exists k.
Qed.

Lemma find_str_Some needle s a b : find_str needle s = Some (a, b) →
  s = a +:+ needle +:+ b ∧ ∀ a' b', s = a' +:+ needle +:+ b' → (String.length a ≤ String.length a')%nat.
Proof.
  revert a. induction s as [|c s IH]; intros a; cbn [find_str].
  - destruct (strip_prefix needle "") as [rest|] eqn:E; [|done]. intros [= <- <-].
    apply strip_prefix_Some in E. split; [done|]. simpl. lia.
  - destruct (strip_prefix needle (String c s)) as [rest|] eqn:E.
    + intros [= <- <-]. apply strip_prefix_Some in E. split; [done|]. simpl. lia.
    + destruct (find_str needle s) as [[a0 b0]|]; simpl; [|done]. intros [= <- <-].
      destruct (IH a0 eq_refl) as [-> Hmin]. split; [done|]. intros a' b' Heq. destruct a' as [|x a'].
      { change ("" +:+ needle +:+ b') with (needle +:+ b') in Heq. rewrite (proj2 (strip_prefix_Some _ _ _) Heq) in E. done. }
      rewrite string_app_cons in Heq. injection Heq as _ Heq. apply Hmin in Heq. simpl. lia.
Qed.

Lemma find_str_None needle s : find_str needle s = None ↔ ∀ a b, s ≠ a +:+ needle +:+ b.
Proof.
  split.
  - induction s as [|c s IH]; cbn [find_str]; intros Hn a b Heq.
    + destruct (strip_prefix needle "") eqn:E; [done|]. destruct a; [|done].
      change ("" +:+ needle +:+ b) with (needle +:+ b) in Heq. by rewrite (proj2 (strip_prefix_Some _ _ _) Heq) in E.
    + destruct (strip_prefix needle (String c s)) eqn:E; [done|].
      destruct a as [|x a]; [change ("" +:+ needle +:+ b) with (needle +:+ b) in Heq; by rewrite (proj2 (strip_prefix_Some _ _ _) Heq) in E|].
      rewrite string_app_cons in Heq. injection Heq as _ Heq. destruct (find_str needle s) as [[]|]; [done|].
      by apply (IH eq_refl a b).
  - intros Hn. destruct (find_str needle s) as [[a b]|] eqn:E; [|done].
    apply find_str_Some in E as [E _]. by apply Hn in E.
Qed.

Lemma contains_true s needle : contains s needle = true ↔ ∃ a b, s = a +:+ needle +:+ b.
Proof.
  unfold contains. rewrite bool_decide_eq_true. split.
  - intros [[a b] E]. apply find_str_Some in E as [E _]. eauto.
  - intros (a & b & E). destruct (find_str needle s) eqn:F; [done|]. by apply find_str_None with (a := a) (b := b) in F.
Qed.

(** A text that no proper end of itself starts, so that its occurrences do not
    overlap. *)
Fixpoint tails (s : string) : list string := match s with EmptyString => [] | String _ s => s :: tails s end.
Definition no_border (needle : string) : bool :=
  forallb (λ t, bool_decide (t = EmptyString) || negb (starts_with needle t)) (tails needle).

Lemma elem_of_tails x y : x ≠ "" → y ∈ tails (x +:+ y).
Proof.
  induction x as [|c x IH]; [done|]. intros _. rewrite string_app_cons. cbn [tails].
  destruct x as [|d x]; [left|right; by apply IH].
Qed.

Lemma no_border_spec needle x y z : no_border needle = true → needle = x +:+ y → needle = y +:+ z → x ≠ "" → y = "".
Proof.
  intros Hb Hx Hy Hne. unfold no_border in Hb. rewrite forallb_forall in Hb. specialize (Hb y).
  rewrite Hx in Hb at 1. specialize (Hb (proj1 (list_elem_of_In _ _) (elem_of_tails _ _ Hne))).
  destruct (bool_decide_reflect (y = "")) as [|Hye]; [done|]. simpl in Hb.
  rewrite (proj2 (starts_with_true _ _)) in Hb; [done|]. by exists z.
Qed.

(** What a scan decides, for a text without overlaps: whether the test holds at
    some occurrence. *)
Lemma scan_loop_true needle test fuel pre search :
  needle ≠ "" → no_border needle = true → (String.length search < fuel)%nat →
  scan_loop needle test fuel pre search = true ↔
  ∃ a b, search = a +:+ needle +:+ b ∧ test (pre +:+ a) b = true.
Proof.
  intros Hne Hnb. revert pre search. induction fuel as [|fuel IH]; intros pre search Hlen; [lia|]. cbn [scan_loop].
  destruct (find_str needle search) as [[a after]|] eqn:E.
  2: { split; [done|]. intros (a & b & Heq & _). by apply find_str_None with (a := a) (b := b) in E. }
  apply find_str_Some in E as [-> Hmin].
  assert (String.length after < fuel)%nat as Hafter.
  { rewrite !length_string_app in Hlen. destruct needle; [done|]. simpl in Hlen. lia. }
  rewrite orb_true_iff, IH by done. split.
  - intros [Ht|(a' & b & -> & Ht)]; [by exists a, after|].
    exists (a +:+ needle +:+ a'), b. rewrite !string_app_assoc in *. done.
  - intros (a' & b & Heq & Ht). apply Hmin in Heq as Hle.
    apply string_app_eq in Heq as [(k & -> & Hk)|(k & -> & Hk)].
    { rewrite length_string_app in Hle. destruct k; [|simpl in Hle; lia]. rewrite string_app_nil_r in *.
      change ("" +:+ needle +:+ after) with (needle +:+ after) in Hk. apply string_app_inj_l in Hk as ->. by left. }
    destruct (decide (k = "")) as [->|Hkne].
    { rewrite string_app_nil_r in *. change ("" +:+ needle +:+ b) with (needle +:+ b) in Hk.
      apply string_app_inj_l in Hk as ->. by left. }
    right. apply string_app_eq in Hk as [(m & Hm & Hm')|(m & -> & ->)].
    + assert (m = "") as ->.
      { apply string_app_eq in Hm' as [(z & Hz & _)|(z & Hz & _)].
        - by apply (no_border_spec needle k m z).
        - subst m. destruct z as [|c z]; [rewrite string_app_nil_r in Hm; apply (f_equal String.length) in Hm; rewrite length_string_app in Hm; destruct k; [done|simpl in Hm; lia]|].
          apply (f_equal String.length) in Hm. rewrite !length_string_app in Hm. destruct k; [done|]. simpl in Hm. lia. }
      rewrite string_app_nil_r in Hm. subst k. change ("" +:+ after) with after in Hm'. exists "", b.
      rewrite string_app_nil_r. rewrite !string_app_assoc in *. done.
    + exists m, b. rewrite !string_app_assoc in *. done.
Qed.

Lemma scan_true needle test s : needle ≠ "" → no_border needle = true →
  scan needle test s = true ↔ ∃ a b, s = a +:+ needle +:+ b ∧ test a b = true.
Proof. intros Hne Hnb. unfold scan. by rewrite scan_loop_true by (done || lia). Qed.

Lemma string_forall_app p a b : string_forall p (a +:+ b) = string_forall p a && string_forall p b.
Proof. induction a as [|c a IH]; [done|]. rewrite string_app_cons. simpl. by rewrite IH, andb_assoc. Qed.

Lemma string_forall_impl (p q : ascii → bool) s : (∀ c, p c = true → q c = true) → string_forall p s = true → string_forall q s = true.
Proof. intros Hpq. induction s as [|c s IH]; [done|]. simpl. rewrite !andb_true_iff. intros [? ?]. auto. Qed.
