(* ===== verification/Json.v ===== *)
(** Interface to the JSON library the program uses ([serde_json]), and the
    program's own canonical form over it.

    [serde_json] is not part of the repository: its parser and printer are the
    operations of the class [SerdeJson], and what the program relies on is the
    law [from_str_to_string] of [SerdeJsonLaws] (a document whose objects are
    held in key order and whose numbers are [u64] prints to a text that parses
    back to it).  [Value] is the library's documented document type; objects
    are association lists in iteration order, which is key order because
    [serde_json::Map] is a [BTreeMap] in this build (no crate of the workspace
    enables [preserve_order]).

    The file then models [canonicalize_value] and [canonical_json] of
    [crates/hugit-refstore/src/log/mod.rs].  [JsonCodec.Codec] is a concrete
    codec that satisfies the law; the witnesses run on it. *)

From S2P Require Import Prelude.
From Stdlib Require DecimalString DecimalN.

(** * Documents *)

Set Warnings "-register-all".

(** [serde_json::Number]: an unsigned 64-bit integer, or any other number
    (negative or floating point) by its text. *)
Inductive JsonNumber :=
| PosInt (n : N)
| OtherNumber (text : string).

Inductive Value :=
| Null
| Bool (b : bool)
| Number (n : JsonNumber)
| Str (s : string)
| Array (items : list Value)
| Object (map : list (string * Value)).

(** Structural induction through the nested lists. *)
Fixpoint Value_rect' (P : Value → Prop)
    (HNull : P Null) (HBool : ∀ b, P (Bool b)) (HNumber : ∀ n, P (Number n))
    (HStr : ∀ s, P (Str s))
    (HArray : ∀ l, Forall P l → P (Array l))
    (HObject : ∀ m, Forall (λ kv, P kv.2) m → P (Object m))
    (v : Value) {struct v} : P v :=
  let rec := Value_rect' P HNull HBool HNumber HStr HArray HObject in
  match v with
  | Null => HNull
  | Bool b => HBool b
  | Number n => HNumber n
  | Str s => HStr s
  | Array l =>
      HArray l ((fix go (l : list Value) : Forall P l :=
        match l with
        | [] => List.Forall_nil P
        | v :: l => @List.Forall_cons _ P v l (rec v) (go l)
        end) l)
  | Object m =>
      HObject m ((fix go (m : list (string * Value)) : Forall (λ kv, P kv.2) m :=
        match m with
        | [] => List.Forall_nil _
        | (k, v) :: m => @List.Forall_cons _ (λ kv, P kv.2) (k, v) m (rec v) (go m)
        end) m)
  end.

(** * Sorted association lists: the [BTreeMap<String, V>] of a document *)

Definition key_lt : relation string := strict String.le.

Section Obj.
Context {V : Type}.
Implicit Types m : list (string * V).

Fixpoint obj_insert (k : string) (v : V) m : list (string * V) :=
  match m with
  | [] => [(k, v)]
  | (k', v') :: m' =>
      match String.compare k k' with
      | Lt => (k, v) :: m
      | Eq => (k, v) :: m'
      | Gt => (k', v') :: obj_insert k v m'
      end
  end.

Fixpoint obj_get (k : string) m : option V :=
  match m with
  | [] => None
  | (k', v') :: m' => if decide (k = k') then Some v' else obj_get k m'
  end.

(** [iter.collect::<BTreeMap<_, _>>()]: later entries win. *)
Definition obj_of_list (l : list (string * V)) : list (string * V) :=
  fold_left (λ m kv, obj_insert kv.1 kv.2 m) l [].

Definition obj_sorted m : Prop := StronglySorted key_lt m.*1.

#[global] Instance obj_sorted_dec m : Decision (obj_sorted m).
Proof. unfold obj_sorted. apply _. Defined.

Lemma key_lt_compare a b : String.compare a b = Lt ↔ key_lt a b.
Proof.
  unfold key_lt, strict, String.le, String.leb.
  rewrite (String.compare_antisym b a).
  destruct (String.compare a b); simpl; naive_solver.
Qed.

Lemma compare_Gt_key_lt a b : String.compare a b = Gt → key_lt b a.
Proof.
  intros H. apply key_lt_compare. by rewrite String.compare_antisym, H.
Qed.

#[global] Instance key_lt_trans : Transitive key_lt.
Proof. unfold key_lt. apply _. Qed.

Lemma key_lt_ne a b : key_lt a b → a ≠ b.
Proof. intros [? Hn] ->. by apply Hn. Qed.

Lemma obj_get_insert_eq k v m : obj_get k (obj_insert k v m) = Some v.
Proof.
  induction m as [|[k' v'] m IH]; simpl; [by rewrite decide_True|].
  destruct (String.compare k k') eqn:E; simpl; [by rewrite decide_True..|].
  rewrite decide_False; [done|]. intros ->.
  by apply compare_Gt_key_lt, key_lt_ne in E.
Qed.

Lemma obj_get_insert_ne k k' v m :
  k ≠ k' → obj_get k' (obj_insert k v m) = obj_get k' m.
Proof.
  intros Hne. induction m as [|[j w] m IH]; simpl.
  - by rewrite decide_False.
  - destruct (String.compare k j) eqn:E; simpl.
    + apply String.compare_eq_iff in E as ->. by rewrite !(decide_False (P:=k' = j)).
    + by rewrite (decide_False (P:=k' = k)).
    + by rewrite IH.
Qed.

Lemma elem_of_fst_obj_insert j k v m :
  j ∈ (obj_insert k v m).*1 → j = k ∨ j ∈ m.*1.
Proof.
  induction m as [|[k' v'] m IH]; simpl; [set_solver|].
  destruct (String.compare k k'); simpl; set_solver.
Qed.

Lemma obj_sorted_insert k v m : obj_sorted m → obj_sorted (obj_insert k v m).
Proof.
  unfold obj_sorted. induction m as [|[k' v'] m IH]; simpl; intros Hs.
  { repeat constructor. }
  inversion Hs as [|? ? Hs' Hall]; subst.
  destruct (String.compare k k') eqn:E; simpl.
  - apply String.compare_eq_iff in E as ->. by constructor.
  - apply key_lt_compare in E. constructor; [done|].
    constructor; [done|]. eapply Forall_impl; [exact Hall|].
    intros j Hj. by etrans.
  - constructor; [by apply IH|]. apply Forall_forall. intros j Hj.
    apply elem_of_fst_obj_insert in Hj as [->|Hj].
    + by apply compare_Gt_key_lt.
    + by eapply Forall_forall in Hall.
Qed.

Lemma obj_sorted_fold l m :
  obj_sorted m → obj_sorted (fold_left (λ m kv, obj_insert kv.1 kv.2 m) l m).
Proof.
  revert m. induction l as [|[k v] l IH]; intros m Hm; simpl; [done|].
  by apply IH, obj_sorted_insert.
Qed.

Lemma obj_sorted_of_list l : obj_sorted (obj_of_list l).
Proof. apply obj_sorted_fold. constructor. Qed.

Lemma Forall_snd_obj_insert (P : V → Prop) k v m :
  P v → Forall (λ kv, P kv.2) m → Forall (λ kv, P kv.2) (obj_insert k v m).
Proof.
  intros Hv Hm. induction Hm as [|[k' v'] m Hk Hm IH]; simpl; [by repeat constructor|].
  destruct (String.compare k k'); repeat constructor; auto.
Qed.

Lemma Forall_snd_obj_of_list (P : V → Prop) l :
  Forall (λ kv, P kv.2) l → Forall (λ kv, P kv.2) (obj_of_list l).
Proof.
  unfold obj_of_list. assert (Forall (λ kv, P kv.2) ([] : list (string * V))) as H0 by constructor.
  revert H0. generalize ([] : list (string * V)).
  induction l as [|[k v] l IH]; intros m Hm Hl; simpl; [done|].
  inversion Hl; subst. apply IH; [|done]. by apply Forall_snd_obj_insert.
Qed.

Lemma obj_get_None_lt k m : Forall (key_lt k) m.*1 → obj_get k m = None.
Proof.
  induction m as [|[k' v'] m IH]; simpl; intros Hf; [done|].
  inversion Hf; subst. rewrite decide_False; [by apply IH|].
  by apply key_lt_ne.
Qed.

(** Sorted association lists are canonical: equal lookups, equal lists. *)
Lemma obj_ext m1 m2 :
  obj_sorted m1 → obj_sorted m2 →
  (∀ k, obj_get k m1 = obj_get k m2) → m1 = m2.
Proof.
  unfold obj_sorted. revert m2. induction m1 as [|[k1 v1] m1 IH]; intros m2 H1 H2 Hext.
  - destruct m2 as [|[k2 v2] m2]; [done|].
    specialize (Hext k2). simpl in Hext. by rewrite decide_True in Hext.
  - destruct m2 as [|[k2 v2] m2].
    { specialize (Hext k1). simpl in Hext. by rewrite decide_True in Hext. }
    inversion H1 as [|? ? Hs1 Ha1]; inversion H2 as [|? ? Hs2 Ha2]; subst.
    assert (k1 = k2) as ->.
    { destruct (String.compare k1 k2) eqn:E.
      - by apply String.compare_eq_iff.
      - apply key_lt_compare in E. pose proof (Hext k1) as Hk. simpl in Hk.
        rewrite decide_True, decide_False in Hk by (done || by apply key_lt_ne).
        rewrite obj_get_None_lt in Hk; [done|].
        eapply Forall_impl; [exact Ha2|]. intros j Hj. by etrans.
      - apply compare_Gt_key_lt in E. pose proof (Hext k2) as Hk. simpl in Hk.
        rewrite decide_False, decide_True in Hk by (done || by apply key_lt_ne).
        rewrite obj_get_None_lt in Hk; [done|].
        eapply Forall_impl; [exact Ha1|]. intros j Hj. by etrans. }
    pose proof (Hext k2) as Hk. simpl in Hk. rewrite !decide_True in Hk by done.
    simplify_eq. f_equal. apply IH; [done..|]. intros k.
    destruct (decide (k = k2)) as [->|Hne].
    + by rewrite !obj_get_None_lt.
    + specialize (Hext k). simpl in Hext. by rewrite !decide_False in Hext.
Qed.

Lemma obj_get_insert k k' v m :
  obj_get k' (obj_insert k v m) = if decide (k = k') then Some v else obj_get k' m.
Proof.
  destruct (decide (k = k')) as [->|]; [apply obj_get_insert_eq|by apply obj_get_insert_ne].
Qed.

(** With distinct keys the collected map answers as the list does. *)
Lemma obj_get_fold l m k :
  NoDup l.*1 →
  obj_get k (fold_left (λ m kv, obj_insert kv.1 kv.2 m) l m) =
    match obj_get k l with Some v => Some v | None => obj_get k m end.
Proof.
  revert m. induction l as [|[k' v'] l IH]; intros m; simpl; intros Hnd; [done|].
  inversion Hnd as [|? ? Hnin Hnd']; subst.
  rewrite IH by done. rewrite obj_get_insert.
  destruct (decide (k = k')) as [->|Hne].
  - rewrite decide_True by done.
    assert (obj_get k' l = None) as ->; [|done].
    clear -Hnin. induction l as [|[j w] l IHl]; simpl in *; [done|].
    rewrite decide_False by set_solver. apply IHl. set_solver.
  - destruct (obj_get k l); [done|]. by rewrite decide_False by congruence.
Qed.

Lemma obj_get_of_list l k : NoDup l.*1 → obj_get k (obj_of_list l) = obj_get k l.
Proof.
  intros Hnd. unfold obj_of_list. rewrite obj_get_fold by done. by destruct (obj_get k l).
Qed.

Lemma obj_sorted_NoDup m : obj_sorted m → NoDup m.*1.
Proof.
  unfold obj_sorted. induction 1 as [|k ks Hs IH Hall]; constructor; [|done].
  intros Hin. eapply Forall_forall in Hall; [|exact Hin]. by apply key_lt_ne in Hall.
Qed.

Lemma obj_of_list_sorted m : obj_sorted m → obj_of_list m = m.
Proof.
  intros Hs. apply obj_ext; [apply obj_sorted_of_list|done|].
  intros k. by apply obj_get_of_list, obj_sorted_NoDup.
Qed.
End Obj.

(** [obj_get] under a key-preserving map of the entries. *)
Lemma obj_get_map {V W} (f : V → W) (m : list (string * V)) k :
  obj_get k (map (λ kv, (kv.1, f kv.2)) m) = f <$> obj_get k m.
Proof.
  induction m as [|[k' v'] m IH]; simpl; [done|]. by destruct (decide (k = k')).
Qed.

Lemma obj_get_elem_of {V} (m : list (string * V)) k v :
  obj_get k m = Some v → (k, v) ∈ m.
Proof.
  induction m as [|[k' v'] m IH]; simpl; [done|].
  destruct (decide (k = k')) as [->|]; intros; simplify_eq; set_solver.
Qed.

(** * Accessors *)

(** [Value::get(key)]: the member of an object, nothing on any other value. *)
Definition value_get (v : Value) (k : string) : option Value :=
  match v with Object m => obj_get k m | _ => None end.
Definition as_str (v : Value) : option string :=
  match v with Str s => Some s | _ => None end.
Definition as_bool (v : Value) : option bool :=
  match v with Bool b => Some b | _ => None end.
Definition as_u64 (v : Value) : option N :=
  match v with Number (PosInt n) => Some n | _ => None end.

(** The [json!] literal of an object. *)
Definition json_object (kvs : list (string * Value)) : Value :=
  Object (obj_of_list kvs).

(** [v.get(key).and_then(Value::as_str)]: the [field_str] helper that
    [replay/mod.rs] and [intent/model/mod.rs] both define. *)
Definition field_str (v : Value) (key : string) : option string :=
  value_get v key ≫= as_str.

(** * Canonical form *)

Fixpoint canonicalize_value (v : Value) : Value :=
  match v with
  | Object m => Object (obj_of_list (map (λ kv, (kv.1, canonicalize_value kv.2)) m))
  | Array items => Array (map canonicalize_value items)
  | scalar => scalar
  end.

(** Every object of the document is held in key order. *)
Fixpoint sorted_doc (v : Value) : bool :=
  match v with
  | Array l => forallb sorted_doc l
  | Object m => bool_decide (obj_sorted m) && forallb (λ kv, sorted_doc kv.2) m
  | _ => true
  end.

(** Every object in the document has distinct keys, as any parsed document. *)
Fixpoint distinct_keys (v : Value) : bool :=
  match v with
  | Array l => forallb distinct_keys l
  | Object m => bool_decide (NoDup m.*1) && forallb (λ kv, distinct_keys kv.2) m
  | _ => true
  end.

Fixpoint only_u64 (v : Value) : bool :=
  match v with
  | Number (PosInt n) => bool_decide (n ≤ u64_max)
  | Number (OtherNumber _) => false
  | Array l => forallb only_u64 l
  | Object m => forallb (λ kv, only_u64 kv.2) m
  | _ => true
  end.

(** Documents the program itself prints: objects in key order (any [BTreeMap]
    is), numbers unsigned. *)
Definition plain (v : Value) : bool := sorted_doc v && only_u64 v.

(** The parser and printer of the external library, and the law. *)
Class SerdeJson := {
  from_str : string → option Value;
  to_string : Value → string;
}.

Class SerdeJsonLaws `{SerdeJson} := {
  from_str_to_string : ∀ v, plain v = true → from_str (to_string v) = Some v;
}.

Definition canonical_json `{SerdeJson} (input : string) : option string :=
  value ← from_str input;
  let canonical := canonicalize_value value in
  Some (to_string canonical).

(** * Equality of documents up to the order of object members *)

Inductive same_doc : Value → Value → Prop :=
| same_null : same_doc Null Null
| same_bool b : same_doc (Bool b) (Bool b)
| same_number n : same_doc (Number n) (Number n)
| same_str s : same_doc (Str s) (Str s)
| same_array l l' : Forall2 same_doc l l' → same_doc (Array l) (Array l')
| same_object m m' :
    (∀ k, option_Forall2 same_doc (obj_get k m) (obj_get k m')) →
    same_doc (Object m) (Object m').

Lemma fst_map_entries {V W} (f : V → W) (m : list (string * V)) :
  (map (λ kv, (kv.1, f kv.2)) m).*1 = m.*1.
Proof. induction m as [|[k v] m IH]; [done|]. csimpl. by f_equal. Qed.

Lemma forallb_Forall_true {A} (f : A → bool) l :
  forallb f l = true ↔ Forall (λ x, f x = true) l.
Proof.
  induction l as [|x l IH]; simpl; [by repeat constructor|].
  rewrite andb_true_iff, Forall_cons, IH. done.
Qed.

Lemma bool_decide_andb_true P `{Decision P} b :
  bool_decide P && b = true ↔ P ∧ b = true.
Proof. rewrite andb_true_iff, bool_decide_eq_true. done. Qed.

(** What [canonicalize_value] builds has every object in key order. *)
Lemma canonicalize_sorted v : sorted_doc (canonicalize_value v) = true.
Proof.
  induction v as [| | | |l IH|m IH] using Value_rect'; simpl; [done..| |].
  - apply forallb_Forall_true, Forall_map. exact IH.
  - apply bool_decide_andb_true. split; [apply obj_sorted_of_list|].
    apply forallb_Forall_true, (Forall_snd_obj_of_list (λ v, sorted_doc v = true)).
    apply Forall_map. exact IH.
Qed.

Lemma canonicalize_only_u64 v :
  only_u64 v = true → only_u64 (canonicalize_value v) = true.
Proof.
  induction v as [| | | |l IH|m IH] using Value_rect'; simpl; [done..| |];
    rewrite !forallb_Forall_true; intros Hu.
  - apply Forall_map. decompose_Forall. eauto.
  - apply (Forall_snd_obj_of_list (λ v, only_u64 v = true)), Forall_map.
    decompose_Forall. eauto.
Qed.

Lemma canonicalize_plain v :
  only_u64 v = true → plain (canonicalize_value v) = true.
Proof.
  intros H. unfold plain. by rewrite canonicalize_sorted, canonicalize_only_u64.
Qed.

(** A document already in key order is its own canonical form. *)
(** Literals of plain members are plain. *)
Lemma plain_strs l : plain (Array (Str <$> l)) = true.
Proof. unfold plain. apply andb_true_iff. split; cbn; induction l; simpl; auto. Qed.

Lemma plain_members m : obj_sorted m → Forall (λ kv, plain kv.2 = true) m → plain (Object m) = true.
Proof.
  intros Hs Hm. unfold plain. cbn [sorted_doc only_u64]. rewrite bool_decide_true by done. simpl.
  induction Hm as [|kv m Hkv Hm IH]; [done|]. simpl. unfold plain in Hkv. apply andb_true_iff in Hkv as [-> ->]. simpl.
  apply IH. unfold obj_sorted in *. simpl in Hs. by inversion Hs.
Qed.
Lemma plain_object l : Forall (λ kv, plain kv.2 = true) l → plain (json_object l) = true.
Proof.
  intros Hl. apply plain_members; [apply obj_sorted_of_list|].
  by apply (Forall_snd_obj_of_list (λ v, plain v = true)).
Qed.

Lemma canonicalize_sorted_id v : sorted_doc v = true → canonicalize_value v = v.
Proof.
  induction v as [| | | |l IH|m IH] using Value_rect'; simpl; [done..| |].
  - rewrite forallb_Forall_true. intros Hs. f_equal.
    induction Hs as [|v l Hv Hs IHl]; simpl; [done|].
    inversion IH; subst. f_equal; auto.
  - rewrite bool_decide_andb_true, forallb_Forall_true. intros [Hm Hs]. f_equal.
    assert (map (λ kv, (kv.1, canonicalize_value kv.2)) m = m) as ->;
      [|by apply obj_of_list_sorted].
    clear Hm. induction Hs as [|[k v] m Hv Hs IHm]; simpl; [done|].
    inversion IH; subst. simpl in *. f_equal; [f_equal|]; auto.
Qed.

Lemma same_doc_canonicalize v w :
  distinct_keys v = true → distinct_keys w = true →
  same_doc v w → canonicalize_value v = canonicalize_value w.
Proof.
  revert w. induction v as [| | | |l IH|m IH] using Value_rect';
    intros w Hv Hw Hsame; inversion Hsame as [| | | |? l' Hl|? m' Hm]; subst;
    simpl in *; [done..| |].
  - rewrite forallb_Forall_true in Hv, Hw. f_equal.
    clear Hsame. induction Hl as [|x y l l' Hxy Hl IHl]; simpl; [done|].
    inversion IH; inversion Hv; inversion Hw; subst. f_equal; auto.
  - rewrite bool_decide_andb_true, forallb_Forall_true in Hv, Hw.
    destruct Hv as [Hnd Hv], Hw as [Hnd' Hw]. f_equal.
    apply obj_ext; [apply obj_sorted_of_list..|]. intros k.
    rewrite !obj_get_of_list by (by rewrite fst_map_entries).
    rewrite !obj_get_map. specialize (Hm k).
    destruct (obj_get k m) as [x|] eqn:Ex, (obj_get k m') as [y|] eqn:Ey;
      inversion Hm; subst; simpl; [f_equal|done].
    apply obj_get_elem_of in Ex, Ey.
    eapply Forall_forall in IH; [|exact Ex]. eapply Forall_forall in Hv; [|exact Ex].
    eapply Forall_forall in Hw; [|exact Ey]. by apply IH.
Qed.

Lemma canonicalize_same_doc v w :
  distinct_keys v = true → distinct_keys w = true →
  canonicalize_value v = canonicalize_value w → same_doc v w.
Proof.
  revert w. induction v as [| | | |l IH|m IH] using Value_rect';
    intros [| | | |l'|m'] Hv Hw Heq; simpl in *; try discriminate Heq;
    try (injection Heq as ->; constructor); try constructor.
  - rewrite forallb_Forall_true in Hv, Hw. injection Heq as Hmap. revert l' Hw Hmap.
    induction IH as [|v l Hhd Htl IHl]; intros [|w l'] Hw Hmap; simplify_eq/=; [done|].
    inversion Hv; inversion Hw; subst. constructor; auto.
  - rewrite bool_decide_andb_true, forallb_Forall_true in Hv, Hw.
    destruct Hv as [Hnd Hv], Hw as [Hnd' Hw]. intros k.
    assert (canonicalize_value <$> obj_get k m = canonicalize_value <$> obj_get k m') as Hk.
    { rewrite <- !obj_get_map.
      rewrite <- (obj_get_of_list (map _ m)), <- (obj_get_of_list (map _ m'))
        by (by rewrite fst_map_entries).
      injection Heq as Heq. by rewrite Heq. }
    destruct (obj_get k m) as [x|] eqn:Ex, (obj_get k m') as [y|] eqn:Ey;
      simpl in Hk; try discriminate Hk; constructor. injection Hk as Hk.
    apply obj_get_elem_of in Ex, Ey.
    eapply Forall_forall in IH; [|exact Ex]. eapply Forall_forall in Hv; [|exact Ex].
    eapply Forall_forall in Hw; [|exact Ey]. by apply IH.
Qed.

(** * [canonical_json] *)

Section Canonical.
Context `{SerdeJsonLaws}.

Lemma to_string_inj v w :
  plain v = true → plain w = true → to_string v = to_string w → v = w.
Proof.
  intros Hv Hw Heq. apply from_str_to_string in Hv, Hw. congruence.
Qed.

(** Two texts have the same canonical form exactly when they denote the same
    document up to the order of object members (and insignificant space). *)
Theorem canonical_json_same_doc a b v w :
  from_str a = Some v → from_str b = Some w →
  distinct_keys v = true → distinct_keys w = true →
  only_u64 v = true → only_u64 w = true →
  canonical_json a = canonical_json b ↔ same_doc v w.
Proof.
  intros Ha Hb Dv Dw Uv Uw. unfold canonical_json. rewrite Ha, Hb. simpl. split.
  - intros Heq. simplify_eq. apply canonicalize_same_doc; [done..|].
    apply to_string_inj; [by apply canonicalize_plain..|done].
  - intros Hs. by rewrite (same_doc_canonicalize v w).
Qed.

(** Canonicalising a canonical text changes nothing. *)
Theorem canonical_json_idempotent a v :
  from_str a = Some v → only_u64 v = true →
  canonical_json a ≫= canonical_json = canonical_json a.
Proof.
  intros Ha Hu. unfold canonical_json. rewrite Ha. simpl.
  rewrite from_str_to_string by (by apply canonicalize_plain). simpl.
  by rewrite (canonicalize_sorted_id (canonicalize_value v)) by apply canonicalize_sorted.
Qed.
End Canonical.
