(* ===== verification/Porcelain.v ===== *)
(** The error every command reports ([crates/hugit-cli/src/porcelain.rs]): a kind,
    a message, the remedy and a context, rendered with the kind first. *)

From S2P Require Import Prelude Json.

Record PorcelainError := {
  pe_kind : string; pe_message : string; pe_fix : string; pe_context : list (string * Value); pe_internal : bool }.

Definition PorcelainError_new (kind message fix_ : string) : PorcelainError := {|
  pe_kind := kind; pe_message := message; pe_fix := fix_; pe_context := []; pe_internal := false |}.
Definition PorcelainError_internal (message : string) : PorcelainError := {|
  pe_kind := "internal"; pe_message := message;
  pe_fix := "this is an internal hugit bug; report it with the command + inputs"; pe_context := []; pe_internal := true |}.
Definition pe_with_context (e : PorcelainError) (key : string) (v : Value) : PorcelainError := {|
  pe_kind := pe_kind e; pe_message := pe_message e; pe_fix := pe_fix e; pe_context := pe_context e ++ [(key, v)];
  pe_internal := pe_internal e |}.

Definition PORCELAIN_ERROR_EXIT : N := 2.
Definition INTERNAL_FAULT_EXIT : N := 1.
Definition exit_code (e : PorcelainError) : N := if pe_internal e then INTERNAL_FAULT_EXIT else PORCELAIN_ERROR_EXIT.

Section Render.
Context `{SerdeJson}.

Definition quote : string := String (ascii_of_nat 34) EmptyString.
Definition member (key : string) (v : Value) : string := quote +:+ key +:+ quote +:+ ":" +:+ to_string v.
Definition ordered_error_object (kind message fix_ : string) (context : list (string * Value)) : string :=
  "{" +:+ String.concat "," ([member "kind" (Str kind); member "message" (Str message); member "fix" (Str fix_)]
    ++ ((λ kv, to_string (Str kv.1) +:+ ":" +:+ to_string kv.2) <$> context)) +:+ "}".
Definition to_json (e : PorcelainError) : string :=
  "{" +:+ quote +:+ "error" +:+ quote +:+ ":" +:+ ordered_error_object (pe_kind e) (pe_message e) (pe_fix e) (pe_context e) +:+ "}".
End Render.
