(* ===== verification/JsonCodec.v ===== *)
(** A concrete JSON-like printer and parser satisfying the laws of
    [Json.SerdeJson] (compact text, a comma after every member): the instance the concrete examples and witnesses run on.
    It is not a model of [serde_json]; it shows that the interface the other
    files assume can be implemented. *)

From S2P Require Import Prelude Json.
From Stdlib Require DecimalString DecimalN.

Module Codec.

(** * Printer, in continuation style: [print v rest] is the text of [v]
    followed by [rest]. *)

Definition quote : ascii := ascii_of_nat 34.
Definition backslash : ascii := ascii_of_nat 92.

Fixpoint print_chars (s rest : string) : string :=
  match s with
  | EmptyString => String quote rest
  | String c s =>
      if decide (c = quote) then String backslash (String quote (print_chars s rest))
      else if decide (c = backslash)
      then String backslash (String backslash (print_chars s rest))
      else String c (print_chars s rest)
  end.

Fixpoint print (v : Value) (rest : string) : string :=
  match v with
  | Null => String "n" rest
  | Bool true => String "t" rest
  | Bool false => String "f" rest
  | Number (PosInt n) => decimal n +:+ rest
  | Number (OtherNumber t) => String "#" (print_chars t rest)
  | Str s => String quote (print_chars s rest)
  | Array l =>
      String "[" (fold_right (λ v acc, print v (String "," acc)) (String "]" rest) l)
  | Object m =>
      String "{" (fold_right
        (λ kv acc, String quote (print_chars kv.1 (String ":"
                     (print kv.2 (String "," acc))))) (String "}" rest) m)
  end.

(** * Parser, on fuel *)

Fixpoint parse_chars (s : string) : option (string * string) :=
  match s with
  | EmptyString => None
  | String c s' =>
      if decide (c = quote) then Some (EmptyString, s')
      else if decide (c = backslash) then
        match s' with
        | EmptyString => None
        | String c' s'' => '(t, r) ← parse_chars s''; Some (String c' t, r)
        end
      else '(t, r) ← parse_chars s'; Some (String c t, r)
  end.

Definition is_digit (c : ascii) : bool :=
  let n := N_of_ascii c in (48 <=? n) && (n <=? 57).

Fixpoint span_digits (s : string) : string * string :=
  match s with
  | EmptyString => (EmptyString, EmptyString)
  | String c s' =>
      if is_digit c then let '(d, r) := span_digits s' in (String c d, r)
      else (EmptyString, s)
  end.

Fixpoint parse (fuel : nat) (s : string) : option (Value * string) :=
  match fuel, s with
  | O, _ | _, EmptyString => None
  | S fuel, String c r =>
      if is_digit c then
        let '(d, r) := span_digits s in
        u ← DecimalString.NilEmpty.uint_of_string d;
        Some (Number (PosInt (N.of_uint u)), r)
      else if decide (c = "n"%char) then Some (Null, r)
      else if decide (c = "t"%char) then Some (Bool true, r)
      else if decide (c = "f"%char) then Some (Bool false, r)
      else if decide (c = "#"%char) then
        '(t, r) ← parse_chars r; Some (Number (OtherNumber t), r)
      else if decide (c = quote) then '(t, r) ← parse_chars r; Some (Str t, r)
      else if decide (c = "["%char) then '(l, r) ← parse_items fuel r; Some (Array l, r)
      else if decide (c = "{"%char) then '(m, r) ← parse_members fuel r; Some (Object m, r)
      else None
  end
with parse_items (fuel : nat) (s : string) : option (list Value * string) :=
  match fuel, s with
  | O, _ | _, EmptyString => None
  | S fuel, String c r =>
      if decide (c = "]"%char) then Some ([], r)
      else
        '(v, r) ← parse fuel s;
        match r with
        | String _ r => '(l, r) ← parse_items fuel r; Some (v :: l, r)
        | EmptyString => None
        end
  end
with parse_members (fuel : nat) (s : string) : option (list (string * Value) * string) :=
  match fuel, s with
  | O, _ | _, EmptyString => None
  | S fuel, String c r =>
      if decide (c = "}"%char) then Some ([], r)
      else
        '(k, r) ← parse_chars r;
        match r with
        | String _ r =>
            '(v, r) ← parse fuel r;
            match r with
            | String _ r => '(m, r) ← parse_members fuel r; Some ((k, v) :: m, r)
            | EmptyString => None
            end
        | EmptyString => None
        end
  end.

(** The fuel a document needs. *)
Fixpoint weight (v : Value) : nat :=
  match v with
  | Array l => S (S (fold_right (λ v n, S (weight v + n)) 0%nat l))
  | Object m => S (S (fold_right (λ kv n, S (weight kv.2 + n)) 0%nat m))
  | _ => 1%nat
  end.

(** What follows a value must not extend a number. *)
Definition no_digit (s : string) : bool :=
  match s with String c _ => negb (is_digit c) | EmptyString => true end.

(** * Round trip *)

Lemma parse_print_chars s rest : parse_chars (print_chars s rest) = Some (s, rest).
Proof.
  induction s as [|c s IH]; [done|].
  cbn [print_chars]. destruct (decide (c = quote)) as [->|Hq].
  { simpl. by rewrite IH. }
  destruct (decide (c = backslash)) as [->|Hb].
  { simpl. by rewrite IH. }
  cbn [parse_chars]. rewrite !decide_False by done. by rewrite IH.
Qed.

Fixpoint all_digits (s : string) : bool :=
  match s with String c s => is_digit c && all_digits s | EmptyString => true end.

Lemma span_digits_app s rest :
  all_digits s = true → no_digit rest = true → span_digits (s +:+ rest) = (s, rest).
Proof.
  intros Hs Hr. induction s as [|c s IH].
  - change ("" +:+ rest) with rest. destruct rest as [|c r]; [done|].
    simpl in *. by destruct (is_digit c).
  - simpl in Hs. apply andb_true_iff in Hs as [Hc Hs].
    change (String c s +:+ rest) with (String c (s +:+ rest)). simpl.
    by rewrite Hc, IH.
Qed.

Lemma all_digits_uint d : all_digits (DecimalString.NilEmpty.string_of_uint d) = true.
Proof. by induction d. Qed.

Lemma span_digits_uint d rest :
  no_digit rest = true →
  span_digits (DecimalString.NilEmpty.string_of_uint d +:+ rest)
    = (DecimalString.NilEmpty.string_of_uint d, rest).
Proof. intros. by apply span_digits_app; [apply all_digits_uint|]. Qed.

Lemma decimal_digit n : ∃ c r, decimal n = String c r ∧ is_digit c = true.
Proof.
  unfold decimal. pose proof (DecimalN.Unsigned.of_to n) as Hn.
  destruct (N.to_uint n) eqn:E; cbn; try (by eexists _, _).
  simpl in Hn. subst n. done.
Qed.

Lemma parse_number fuel n rest :
  no_digit rest = true →
  parse (S fuel) (decimal n +:+ rest) = Some (Number (PosInt n), rest).
Proof.
  intros Hr. destruct (decimal_digit n) as (c & r & Hd & Hc).
  assert (parse (S fuel) (decimal n +:+ rest) =
    let '(d, r) := span_digits (decimal n +:+ rest) in
    u ← DecimalString.NilEmpty.uint_of_string d;
    Some (Number (PosInt (N.of_uint u)), r)) as ->.
  { rewrite Hd. change (String c r +:+ rest) with (String c (r +:+ rest)).
    cbn [parse]. by rewrite Hc. }
  unfold decimal. rewrite span_digits_uint by done.
  rewrite DecimalString.NilEmpty.usu. simpl. by rewrite DecimalN.Unsigned.of_to.
Qed.

(** The first character of a printed value is never a closing bracket. *)
Definition opens (s : string) : Prop :=
  match s with
  | String c _ => c ≠ "]"%char
  | EmptyString => False
  end.

Lemma print_opens v rest : opens (print v rest).
Proof.
  destruct v as [|[]|[n|t]|s|l|m]; try done.
  simpl. destruct (decimal_digit n) as (c & r & -> & Hc). simpl. by intros ->.
Qed.

Lemma parse_items_print fuel l rest :
  Forall (λ v, ∀ fuel rest, (weight v ≤ fuel)%nat → no_digit rest = true →
            parse fuel (print v rest) = Some (v, rest)) l →
  (S (fold_right (λ v n, S (weight v + n)) 0%nat l) ≤ fuel)%nat →
  parse_items fuel
    (fold_right (λ v acc, print v (String "," acc)) (String "]" rest) l) = Some (l, rest).
Proof.
  intros Hl. revert fuel. induction Hl as [|v l Hv Hl IH]; intros [|fuel] Hf; simpl in *;
    try lia; [done|].
  set (tail := fold_right _ _ l).
  pose proof (print_opens v (String "," tail)) as Ho.
  destruct (print v (String "," tail)) as [|c r] eqn:Ep; [done|].
  rewrite decide_False by done. rewrite <- Ep, Hv by (lia || done). simpl.
  subst tail. by rewrite IH by lia.
Qed.

Lemma parse_members_print fuel m rest :
  Forall (λ kv, ∀ fuel rest, (weight kv.2 ≤ fuel)%nat → no_digit rest = true →
            parse fuel (print kv.2 rest) = Some (kv.2, rest)) m →
  (S (fold_right (λ kv n, S (weight kv.2 + n)) 0%nat m) ≤ fuel)%nat →
  parse_members fuel
    (fold_right (λ kv acc, String quote (print_chars kv.1 (String ":"
        (print kv.2 (String "," acc))))) (String "}" rest) m) = Some (m, rest).
Proof.
  intros Hm. revert fuel. induction Hm as [|[k v] m Hv Hm IH]; intros [|fuel] Hf;
    simpl in *; try lia; [done|].
  rewrite parse_print_chars. simpl. rewrite Hv by (lia || done). simpl.
  by rewrite IH by lia.
Qed.

Lemma parse_print v : ∀ fuel rest,
  (weight v ≤ fuel)%nat → no_digit rest = true →
  parse fuel (print v rest) = Some (v, rest).
Proof.
  induction v as [|[]|[n|t]|s|l IH|m IH] using Value_rect';
    intros [|fuel] rest Hf Hr; simpl in Hf; try lia; try done.
  - by apply parse_number.
  - simpl. by rewrite parse_print_chars.
  - simpl. by rewrite parse_print_chars.
  - simpl. rewrite parse_items_print; [done|done|lia].
  - simpl. rewrite parse_members_print; [done|done|lia].
Qed.

Lemma length_print_chars s rest :
  (String.length s + String.length rest < String.length (print_chars s rest))%nat.
Proof.
  induction s as [|c s IH]; simpl; [lia|].
  destruct (decide (c = quote)), (decide (c = backslash)); simpl; lia.
Qed.

Lemma weight_length v rest :
  (weight v + String.length rest ≤ String.length (print v rest))%nat.
Proof.
  revert rest. induction v as [|[]|[n|t]|s|l IH|m IH] using Value_rect'; intros rest; simpl;
    try lia.
  - destruct (decimal_digit n) as (c & r & -> & _).
    rewrite length_string_app. simpl. lia.
  - pose proof (length_print_chars t rest). lia.
  - pose proof (length_print_chars s rest). lia.
  - apply le_n_S. induction IH as [|v l Hv Hl IHl]; simpl; [lia|].
    specialize (Hv (String "," (fold_right (λ v acc, print v (String "," acc)) (String "]" rest) l))).
    simpl in Hv. lia.
  - apply le_n_S. induction IH as [|[k v] m Hv Hm IHm]; simpl in *; [lia|].
    match goal with |- context [print_chars k ?t] => pose proof (length_print_chars k t) end.
    simpl in *.
    match goal with H : context [String.length (print v ?t)] |- _ => specialize (Hv t) end.
    simpl in *. lia.
Qed.

Definition from_str (s : string) : option Value :=
  match parse (String.length s) s with
  | Some (v, EmptyString) => Some v
  | _ => None
  end.
Definition to_string (v : Value) : string := print v EmptyString.

Lemma from_str_to_string v : from_str (to_string v) = Some v.
Proof.
  unfold from_str, to_string. rewrite parse_print; [done| |done].
  pose proof (weight_length v EmptyString). simpl in *. lia.
Qed.

#[export] Instance codec : SerdeJson := {|
  Json.from_str := from_str; Json.to_string := to_string
|}.
#[export] Instance codec_laws : @SerdeJsonLaws codec.
Proof. constructor. intros v _. apply from_str_to_string. Qed.
End Codec.

(** Two orders of the same members have one canonical form. *)
Lemma canonical_json_same_doc_witness :
  @canonical_json Codec.codec (Codec.to_string (Object [("b", Null); ("a", Bool true)])) =
  @canonical_json Codec.codec (Codec.to_string (Object [("a", Bool true); ("b", Null)])).
Proof.
  apply (@canonical_json_same_doc Codec.codec Codec.codec_laws _ _
    (Object [("b", Null); ("a", Bool true)]) (Object [("a", Bool true); ("b", Null)]));
    [vm_compute; reflexivity..|].
  apply same_object. intros k. simpl. repeat case_decide; subst; try done; repeat constructor.
Defined.
