(* ===== verification/Credentials.v ===== *)
(** What a credential is, said without the loops that look for one: the reading
    the detectors of [Secret.v] are held to, and the proofs that they decide it.

    A credential is a text with one of the listed structures ([structural]) or with
    a dense run: a maximal run of token characters, at least twenty of them, that
    is no content address and reads as key material.  The entropy of a run is the
    number the code computes; everything else is stated of the text. *)

From S2P Require Import Prelude Text Scan Secret.

(** * Trimming twice *)

Lemma trim_front_suffix ws fuel s : ∃ pre, s = pre +:+ trim_front ws fuel s.
Proof.
  revert s. induction fuel as [|fuel IH]; intros s; cbn [trim_front]; [by exists EmptyString|].
  destruct (head (omap _ ws)) as [s'|] eqn:E; [|by exists EmptyString]. apply head_Some_elem_of, list_elem_of_omap in E as (w & _ & Hw).
  apply strip_prefix_Some in Hw as ->. destruct (IH s') as [pre Hpre]. exists (w +:+ pre). rewrite Hpre at 1. by rewrite string_app_assoc.
Qed.
Lemma trim_front_done ws fuel s : Forall (λ w, w ≠ EmptyString) ws → (String.length s ≤ fuel)%nat →
  ∀ w, w ∈ ws → strip_prefix w (trim_front ws fuel s) = None.
Proof.
  intros Hws. revert s. induction fuel as [|fuel IH]; intros s Hf w Hw; cbn [trim_front].
  - destruct s; [|simpl in Hf; lia]. rewrite Forall_forall in Hws. specialize (Hws w Hw). by destruct w.
  - destruct (head (omap _ ws)) as [s'|] eqn:E.
    + apply head_Some_elem_of, list_elem_of_omap in E as (w' & Hin & Hs). apply strip_prefix_Some in Hs as ->.
      apply IH; [|done]. rewrite length_string_app in Hf. rewrite Forall_forall in Hws. specialize (Hws w' Hin). destruct w'; [done|]. simpl in Hf. lia.
    + destruct (strip_prefix w s) as [t|] eqn:Et; [|done]. exfalso.
      assert (t ∈ omap (λ w, strip_prefix w s) ws) as Hin by (apply list_elem_of_omap; eauto).
      destruct (omap _ ws); [by apply not_elem_of_nil in Hin|done].
Qed.
Lemma trim_front_none ws fuel s : (∀ w, w ∈ ws → strip_prefix w s = None) → trim_front ws fuel s = s.
Proof.
  intros Hn. destruct fuel as [|fuel]; [done|]. cbn [trim_front]. destruct (head _) as [t|] eqn:E; [|done].
  apply head_Some_elem_of, list_elem_of_omap in E as (w & Hw & Ht). by rewrite Hn in Ht.
Qed.
Lemma white_space_nonempty : Forall (λ w, w ≠ EmptyString) white_space.
Proof. by repeat constructor. Qed.
Lemma white_space_rev_nonempty : Forall (λ w, w ≠ EmptyString) (String.rev <$> white_space).
Proof. by repeat constructor. Qed.

Lemma length_string_rev s : String.length (String.rev s) = String.length s.
Proof.
  induction s as [|c s IH]; [done|]. change (String c s) with (String c EmptyString +:+ s).
  rewrite string_rev_app, !length_string_app, IH. simpl. lia.
Qed.
Lemma trim_idemp s : trim (trim s) = trim s.
Proof.
  unfold trim. set (t := trim_start s).
  assert (∀ w, w ∈ white_space → strip_prefix w t = None) as Ht by (apply trim_front_done; [apply white_space_nonempty|done]).
  assert (∃ x, t = trim_end t +:+ x) as [x Hx].
  { unfold trim_end. destruct (trim_front_suffix (String.rev <$> white_space) (String.length t) (String.rev t)) as [pre Hpre].
    exists (String.rev pre). rewrite <- (string_rev_rev t) at 1. by rewrite Hpre at 1; rewrite string_rev_app. }
  assert (trim_start (trim_end t) = trim_end t) as ->.
  { apply trim_front_none. intros w Hw. destruct (strip_prefix w (trim_end t)) as [y|] eqn:E; [|done].
    apply strip_prefix_Some in E. rewrite E, <- string_app_assoc in Hx.
    assert (strip_prefix w t = Some (y +:+ x)) as Hs by by apply strip_prefix_Some. by rewrite Ht in Hs. }
  unfold trim_end at 1. unfold trim_end. rewrite string_rev_rev. f_equal. apply trim_front_none.
  apply trim_front_done; [apply white_space_rev_nonempty|]. by rewrite length_string_rev.
Qed.

(** * Digests and addresses *)

Definition hex_digest (s : string) : Prop :=
  (String.length s = 40%nat ∨ String.length s = 64%nat) ∧ string_forall is_ascii_hexdigit s = true.
Definition names_algo (algo : string) : Prop := to_ascii_lowercase algo ∈ DIGEST_ALGOS.
(** What stands after [cas:]: a digest, or lower-case base 32. *)
Definition cas_payload (s : string) : Prop :=
  hex_digest s ∨
  ((32 ≤ String.length s ≤ 64)%nat ∧ string_forall (λ c, is_ascii_lowercase c || between 50 55 c) s = true).
Inductive content_address (s : string) : Prop :=
| by_cas payload : s = "cas:" +:+ payload → cas_payload payload → ¬ structural payload → content_address s
| by_algo algo hex : s = algo +:+ String ":" hex → names_algo algo → hex_digest hex → content_address s.
Definition digest_form (s : string) : Prop := hex_digest s ∨ content_address s.
Definition ulid_form (s : string) : Prop := String.length s = 26%nat ∧ string_forall crockford s = true.

Lemma digest_len_iff n : digest_len n = true ↔ n = 40%nat ∨ n = 64%nat.
Proof. unfold digest_len. rewrite orb_true_iff, !Nat.eqb_eq. done. Qed.
Lemma hex_digest_iff s : is_bare_hex_digest_shape s = true ↔ hex_digest s.
Proof. unfold is_bare_hex_digest_shape, hex_digest. by rewrite andb_true_iff, digest_len_iff. Qed.
Lemma cas_payload_iff s : is_cas_payload_shaped s = true ↔ cas_payload s.
Proof.
  unfold is_cas_payload_shaped, cas_payload, hex_digest.
  rewrite orb_true_iff, !andb_true_iff, digest_len_iff, !Nat.leb_le. tauto.
Qed.
Lemma names_algo_iff algo : is_digest_algo algo = true ↔ names_algo algo.
Proof. apply bool_decide_eq_true. Qed.
Lemma ulid_form_iff s : is_ulid_shaped s = true ↔ ulid_form s.
Proof. unfold is_ulid_shaped, ulid_form. by rewrite andb_true_iff, Nat.eqb_eq. Qed.
Lemma not_structural_iff s : is_structural_secret s = false ↔ ¬ structural s.
Proof. rewrite <- not_true_iff_false. by rewrite structural_iff. Qed.

(** The characters of the names of the digest algorithms. *)
Definition algo_char (c : ascii) : bool := is_ascii_alphanumeric c || one_of "-" c.

Lemma lower_alnum c : is_ascii_alphanumeric (ascii_lower c) = is_ascii_alphanumeric c ∧ (ascii_lower c = "-"%char ↔ c = "-"%char).
Proof. destruct c as [[] [] [] [] [] [] [] []]; by vm_compute. Qed.
Lemma algo_char_lower c : algo_char (ascii_lower c) = algo_char c.
Proof.
  unfold algo_char. destruct (lower_alnum c) as [-> Hd]. f_equal. unfold one_of. simpl.
  f_equal. by apply bool_decide_ext.
Qed.
Lemma names_algo_chars algo : names_algo algo → string_forall algo_char algo = true ∧ algo ≠ "".
Proof.
  intros Ha. assert (string_forall algo_char (to_ascii_lowercase algo) = true ∧ to_ascii_lowercase algo ≠ "") as [Hc Hne].
  { assert (Forall (λ a, string_forall algo_char a = true ∧ a ≠ "") DIGEST_ALGOS) as Hall by by_decision.
    rewrite Forall_forall in Hall. by apply Hall. }
  split; [|by intros ->]. clear Ha Hne. induction algo as [|c algo IH]; [done|]. simpl in *. rewrite algo_char_lower in Hc.
  destruct (algo_char c); [by apply IH|done].
Qed.

Lemma content_address_iff s : is_content_address_ref s = true ↔ content_address s.
Proof.
  unfold is_content_address_ref. destruct (strip_prefix "cas:" s) as [payload|] eqn:Es.
  - apply strip_prefix_Some in Es. rewrite andb_true_iff, negb_true_iff, cas_payload_iff, not_structural_iff. split.
    + intros [Hp Hs]. by eapply by_cas.
    + intros [payload' Heq Hp Hs|algo hex Heq Ha Hh]; rewrite Es in Heq.
      * apply string_app_inj_l in Heq as ->. done.
      * assert (payload = hex) as ->.
        { assert (split_once ":" ("cas:" +:+ payload) = split_once ":" (algo +:+ String ":" hex)) as Hso by by rewrite Heq.
          change ("cas:" +:+ payload) with ("cas" +:+ String ":" payload) in Hso.
          rewrite !split_once_app in Hso; [congruence| |done].
          apply has_char_forall. destruct (names_algo_chars algo Ha) as [Hc _]. clear -Hc.
          induction algo as [|c algo IH]; [done|]. simpl in *. destruct (algo_char c) eqn:E; [|done].
          rewrite bool_decide_false by (by intros <-). by apply IH. }
        split; [by left|]. apply not_structural_iff, (harmless_not_structural is_ascii_hexdigit); [done|apply Hh].
  - assert (∀ p, s ≠ "cas:" +:+ p) as Hno.
    { intros p Hp. apply strip_prefix_Some in Hp. congruence. }
    split.
    + destruct (split_once ":" s) as [[algo hex]|] eqn:Eo; [|done]. rewrite !andb_true_iff, digest_len_iff, names_algo_iff.
      intros [[Ha Hl] Hh]. apply split_once_Some in Eo as [-> _]. by eapply by_algo.
    + intros [payload ->|algo hex -> Ha [Hl Hh]]; [by destruct (Hno payload)|]. rewrite split_once_app.
      * by rewrite (proj2 (names_algo_iff algo) Ha), (proj2 (digest_len_iff _) Hl), Hh.
      * apply has_char_forall. destruct (names_algo_chars algo Ha) as [Hc _]. clear -Hc.
        induction algo as [|c algo IH]; [done|]. simpl in *. destruct (algo_char c) eqn:E; [|done].
        rewrite bool_decide_false by (by intros <-). by apply IH.
Qed.
Lemma digest_form_iff s : is_digest_shaped s = true ↔ digest_form s.
Proof. unfold is_digest_shaped, digest_form. by rewrite orb_true_iff, hex_digest_iff, content_address_iff. Qed.

Section Dense.
Context `{Libm}.

(** A proven address, blanks around it apart: nothing, or a text without the
    structure of a credential that is a digest, a ULID, or a word over the
    characters of identifiers that does not read as key material. *)
Definition address (s : string) : Prop :=
  let t := trim s in
  t = "" ∨ (¬ structural t ∧
    (digest_form t ∨ ulid_form t ∨
     (string_forall identifier_char t = true ∧
      ((String.length t < 20)%nat ∨
       (string_forall is_ascii_hexdigit t = false ∧ f64_ge (shannon_entropy t) IDENT_ENTROPY_THRESHOLD = false))))).

Lemma address_iff s : is_safe_identifier_shape s = true ↔ address s.
Proof.
  unfold is_safe_identifier_shape, address. cbv zeta. case_decide as Ht; [split; [by left|done]|].
  destruct (is_structural_secret (trim s)) eqn:Es; [apply structural_iff in Es; split; [done|tauto]|].
  apply not_structural_iff in Es. destruct (is_digest_shaped (trim s)) eqn:Ed; [apply digest_form_iff in Ed; tauto|].
  assert (¬ digest_form (trim s)) as Hd by (rewrite <- digest_form_iff; congruence).
  destruct (is_ulid_shaped (trim s)) eqn:Eu; [apply ulid_form_iff in Eu; tauto|].
  assert (¬ ulid_form (trim s)) as Hu by (rewrite <- ulid_form_iff; congruence).
  destruct (string_forall identifier_char (trim s)); cbn [negb]; [|split; [done|intros [|(_ & [|[|[? _]]])]; done]].
  change ENTROPY_MIN_LEN with 20%nat. destruct (Nat.leb_spec 20 (String.length (trim s))) as [Hl|Hl]; cbn [andb]; [|tauto].
  assert (¬ (String.length (trim s) < 20)%nat) as Hn by lia.
  destruct (string_forall is_ascii_hexdigit (trim s)), (f64_ge (shannon_entropy (trim s)) IDENT_ENTROPY_THRESHOLD); intuition congruence.
Qed.

(** * Dense runs *)

(** What stands before a run ends in the name of a digest algorithm and a colon;
    the name is the whole of its run of letters, digits and dashes. *)
Definition after_algo (before : string) : Prop :=
  ∃ pre algo, before = pre +:+ algo +:+ ":" ∧ names_algo algo ∧ (∀ c, last_char pre = Some c → algo_char c = false).
(** A run that could be a path or a branch name: letters, digits and the marks of
    paths, a slash or a dash among them. *)
Definition path_like (token : string) : Prop :=
  string_forall (λ c, is_ascii_alphanumeric c || one_of "._/-" c) token = true ∧ string_exists (one_of "/-") token = true.
(** A piece of a path that reads as key material. *)
Definition dense_segment (seg : string) : Prop :=
  seg ≠ "" ∧ (structural seg ∨ hex_digest seg ∨ ((20 ≤ String.length seg)%nat ∧ string_forall is_ascii_hexdigit seg = true) ∨
    f64_ge (shannon_entropy seg) PATH_SEGMENT_ENTROPY_THRESHOLD = true).
(** How a run that is no digest reads as key material: as lower-case hexadecimal,
    as a path whose letters change their kind too often or with a dense piece, or,
    being no path, by its entropy. *)
Inductive dense_word (token : string) : Prop :=
| dense_hex : string_forall (λ c, is_ascii_digit c || between 97 102 c) token = true → dense_word token
| dense_kinds : path_like token → f64_gt (class_transition_density token) PATH_MAX_TRANSITION_DENSITY = true → dense_word token
| dense_piece seg : path_like token → seg ∈ split_where (one_of "._/-") token → dense_segment seg → dense_word token
| dense_entropy : ¬ path_like token → f64_ge (shannon_entropy token) ENTROPY_THRESHOLD = true → dense_word token.
(** A run with what stands before it: a digest is dense unless an algorithm is
    named. *)
Definition dense_run (before token : string) : Prop :=
  (20 ≤ String.length token)%nat ∧ ¬ content_address token ∧
  ((hex_digest token ∧ ¬ after_algo before) ∨ (¬ hex_digest token ∧ dense_word token)).

(** A maximal run of token characters. *)
Definition token_run (before token after : string) : Prop :=
  string_forall is_token_char token = true ∧ token ≠ "" ∧
  (∀ c, last_char before = Some c → is_token_char c = false) ∧
  (∀ c rest, after = String c rest → is_token_char c = false).

(** A text that carries a credential. *)
Definition credential (s : string) : Prop :=
  structural s ∨ ∃ before token after, s = before +:+ token +:+ after ∧ token_run before token after ∧ dense_run before token.

(** ** The verdict on a run *)

Lemma last_char_snoc s c : last_char (s +:+ String c "") = Some c.
Proof. induction s as [|d s IH]; [done|]. rewrite string_app_cons. cbn [last_char]. by rewrite IH. Qed.
Lemma last_char_None s : last_char s = None → s = "".
Proof. destruct s as [|c s]; [done|]. simpl. by destruct (last_char s). Qed.
Lemma last_char_Some s c : last_char s = Some c → ∃ a, s = a +:+ String c "".
Proof.
  induction s as [|d s IH]; [done|]. simpl. destruct (last_char s) as [e|] eqn:E.
  - intros [= ->]. destruct (IH eq_refl) as [a ->]. by exists (String d a).
  - intros [= ->]. apply last_char_None in E as ->. by exists "".
Qed.
Lemma last_char_app s t c : last_char t = Some c → last_char (s +:+ t) = Some c.
Proof. intros (a & ->)%last_char_Some. rewrite string_app_assoc. apply last_char_snoc. Qed.
Lemma string_rev_snoc s c : String.rev (s +:+ String c "") = String c (String.rev s).
Proof. by rewrite string_rev_app. Qed.

Lemma string_rev_cons c s : String.rev (String c s) = String.rev s +:+ String c "".
Proof. change (String c s) with (String c "" +:+ s). by rewrite string_rev_app. Qed.

Lemma after_algo_iff before : preceding_context_is_digest_algo (String.rev before) = true ↔ after_algo before.
Proof.
  unfold after_algo. destruct (last_char before) as [c|] eqn:El.
  2:{ apply last_char_None in El as ->. split; [done|]. intros (pre & algo & Heq & _). destruct pre; [|done]. by destruct algo. }
  apply last_char_Some in El as [a ->]. rewrite string_rev_snoc. cbn [preceding_context_is_digest_algo].
  change (λ c, is_ascii_alphanumeric c || one_of "-" c) with algo_char.
  rewrite !andb_true_iff, bool_decide_eq_true, negb_true_iff, bool_decide_eq_false, names_algo_iff.
  destruct (take_while_split algo_char (String.rev a)) as (rest & Hr & Hrest).
  pose proof (take_while_forall algo_char (String.rev a)) as Hf. set (run := take_while algo_char (String.rev a)) in *.
  apply (f_equal String.rev) in Hr as Ha. rewrite string_rev_rev, string_rev_app in Ha. split.
  - intros (-> & _ & Hn). exists (String.rev rest), (String.rev run). split; [by rewrite Ha, string_app_assoc|]. split; [done|].
    intros c Hc. destruct rest as [|d rest]; [done|]. rewrite string_rev_cons, last_char_snoc in Hc. congruence.
  - intros (pre & algo & Heq & Hn & Hl). destruct (names_algo_chars algo Hn) as [Hc Hne].
    rewrite string_app_assoc in Heq. apply (f_equal String.rev) in Heq. rewrite string_rev_snoc, string_rev_snoc in Heq.
    injection Heq as -> Heq. apply (f_equal String.rev) in Heq. rewrite !string_rev_rev in Heq.
    assert (run = String.rev algo) as Hrun.
    { unfold run. rewrite Heq, string_rev_app, take_while_app by by rewrite string_forall_rev.
      destruct (last_char pre) as [d|] eqn:El; [|apply last_char_None in El as ->; apply string_app_nil_r].
      apply last_char_Some in El as [p ->]. rewrite string_rev_snoc. simpl. rewrite (Hl d) by done. apply string_app_nil_r. }
    rewrite Hrun, string_rev_rev. done.
Qed.

Lemma dense_segment_iff seg : secret_segment seg = true ↔ dense_segment seg.
Proof.
  unfold secret_segment, dense_segment. rewrite andb_true_iff, negb_true_iff, bool_decide_eq_false, !orb_true_iff, andb_true_iff.
  rewrite structural_iff, hex_digest_iff, Nat.leb_le. change ENTROPY_MIN_LEN with 20%nat. tauto.
Qed.

Lemma classify_path_iff token :
  match classify_path_token token with
  | None => ¬ path_like token
  | Some v => path_like token ∧ (v = Redact ↔
      f64_gt (class_transition_density token) PATH_MAX_TRANSITION_DENSITY = true ∨
      ∃ seg, seg ∈ split_where (one_of "._/-") token ∧ dense_segment seg)
  end.
Proof.
  unfold classify_path_token, path_like. destruct (string_forall _ token); cbn [negb]; [|by intros []].
  destruct (string_exists _ token); cbn [negb]; [|by intros []]. destruct (f64_gt _ _) eqn:Eg; [split; [done|tauto]|].
  destruct (existsb secret_segment _) eqn:Ee.
  - split; [done|]. split; [intros _; right|done]. apply existsb_exists in Ee as (seg & Hin & Hs%dense_segment_iff).
    exists seg. by rewrite list_elem_of_In.
  - split; [done|]. split; [done|]. intros [?|(seg & Hin & Hs%dense_segment_iff)]; [done|].
    assert (existsb secret_segment (split_where (one_of "._/-") token) = true) as Ht; [|congruence].
    apply existsb_exists. exists seg. by rewrite <- list_elem_of_In.
Qed.

Lemma secret_token_iff before token : secret_token (String.rev before) token = true ↔ dense_run before token.
Proof.
  unfold secret_token, dense_run. change ENTROPY_MIN_LEN with 20%nat.
  destruct (Nat.ltb_spec (String.length token) 20) as [Hl|Hl]; [split; [done|lia]|].
  destruct (is_content_address_ref token) eqn:Ec; [apply content_address_iff in Ec; split; [done|tauto]|].
  assert (¬ content_address token) as Hc by (rewrite <- content_address_iff; congruence).
  destruct (is_bare_hex_digest_shape token) eqn:Eh.
  { apply hex_digest_iff in Eh. rewrite negb_true_iff, <- not_true_iff_false, after_algo_iff. tauto. }
  assert (¬ hex_digest token) as Hh by (rewrite <- hex_digest_iff; congruence).
  enough ((if long_lower_hex token then true else match classify_path_token token with
    | Some Redact => true | Some Survive => false | None => f64_ge (shannon_entropy token) ENTROPY_THRESHOLD end) = true ↔ dense_word token) as Hw
    by (rewrite Hw; tauto).
  destruct (long_lower_hex token) eqn:Elow.
  { unfold long_lower_hex in Elow. apply andb_true_iff in Elow as [_ Elow]. split; [intros _; by apply dense_hex|done]. }
  assert (¬ string_forall (λ c, is_ascii_digit c || between 97 102 c) token = true) as Hlow.
  { intros Hf. unfold long_lower_hex in Elow. change ENTROPY_MIN_LEN with 20%nat in Elow.
    rewrite Hf, (proj2 (Nat.leb_le _ _) Hl), andb_true_r in Elow. cbn [andb] in Elow. apply negb_false_iff, digest_len_iff in Elow.
    apply Hh. split; [done|]. clear -Hf. induction token as [|c token IH]; [done|]. simpl in *.
    unfold is_ascii_hexdigit.
    destruct (is_ascii_digit c), (between 97 102 c), (between 65 70 c); try done; by apply IH. }
  pose proof (classify_path_iff token) as Hp. destruct (classify_path_token token) as [[]|].
  - destruct Hp as [Hp Hv]. split; [done|]. intros [?|_ Hk|seg _ Hin Hs|Hn _]; [done|..|done]; exfalso;
      assert (Survive = Redact); [apply Hv; by left|done|apply Hv; right; by exists seg|done].
  - destruct Hp as [Hp Hv]. split; [intros _|done]. destruct (proj1 Hv eq_refl) as [Hk|(seg & Hin & Hs)]; [by apply dense_kinds|by eapply dense_piece].
  - split; [intros He; by apply dense_entropy|]. intros [?|? _|seg ? _ _|_ ?]; done.
Qed.
(** ** The scan over runs *)

Lemma string_forall_last p s c : string_forall p s = true → last_char s = Some c → p c = true.
Proof.
  intros Hs (a & ->)%last_char_Some. rewrite string_forall_app in Hs. apply andb_true_iff in Hs as [_ Hs]. simpl in Hs. by destruct (p c).
Qed.
Lemma take_while_maximal p a b : string_forall p a = true → (∀ c rest, b = String c rest → p c = false) → take_while p (a +:+ b) = a.
Proof.
  intros Ha Hb. destruct b as [|c b]; [|by apply take_while_stop, (Hb c b)].
  rewrite take_while_app by done. apply string_app_nil_r.
Qed.

(** A maximal run is the first one, or comes after it. *)
Lemma later_run b token rest before token' after :
  string_forall is_token_char token = true → (∀ c r, rest = String c r → is_token_char c = false) →
  token +:+ rest = before +:+ token' +:+ after → token_run (b +:+ before) token' after →
  (before = "" ∧ token' = token) ∨ ∃ before', before = token +:+ before' ∧ rest = before' +:+ token' +:+ after.
Proof.
  intros Ht Hr Heq (Ht' & Hne & Hbefore & Hafter). apply string_app_eq in Heq as [(x & -> & Hx)|(x & -> & ->)]; [left|right; by exists x].
  rewrite string_forall_app in Ht. apply andb_true_iff in Ht as [Htb Htx].
  destruct (last_char before) as [c|] eqn:El.
  { pose proof (string_forall_last _ _ _ Htb El) as Hc. rewrite (Hbefore c) in Hc; [done|]. by apply last_char_app. }
  apply last_char_None in El as ->. split; [done|]. change ("" +:+ x) with x. apply (f_equal (take_while is_token_char)) in Hx.
  rewrite !take_while_maximal in Hx by done. done.
Qed.

Lemma token_loop_iff fuel b s : (String.length s ≤ fuel)%nat →
  (∀ c, last_char b = Some c → is_token_char c = false) ∨ (∀ c rest, s = String c rest → is_token_char c = false) →
  token_loop fuel (String.rev b) s = true ↔
  ∃ before token after, s = before +:+ token +:+ after ∧ token_run (b +:+ before) token after ∧ dense_run (b +:+ before) token.
Proof.
  revert b s. induction fuel as [|fuel IH]; intros b [|c s] Hf Hb; simpl in Hf; try lia.
  1,2: split; [done|]; intros ([|] & [|] & after & Heq & (_ & Hne & _) & _); done.
  cbn [token_loop]. destruct (is_token_char c) eqn:Ec; cbn [negb].
  - destruct (take_while_split is_token_char (String c s)) as (rest & Hs & Hrest).
    pose proof (take_while_forall is_token_char (String c s)) as Ht.
    assert (take_while is_token_char (String c s) ≠ "") as Hne by (simpl; by rewrite Ec).
    set (token := take_while is_token_char (String c s)) in *.
    assert (∀ d r, rest = String d r → is_token_char d = false) as Hmax by (intros d r ->; done).
    assert (∀ d, last_char b = Some d → is_token_char d = false) as Hlast.
    { destruct Hb as [Hb|Hb]; [done|]. specialize (Hb c s eq_refl). congruence. }
    rewrite Hs. destruct (secret_token (String.rev b) token) eqn:Ed.
    { apply secret_token_iff in Ed. split; [intros _|done]. exists "", token, rest. rewrite string_app_nil_r. by split_and!. }
    assert (¬ dense_run b token) as Hnd by (rewrite <- secret_token_iff; congruence).
    rewrite string_drop_app, <- string_rev_app, IH; [|pose proof (f_equal String.length Hs) as Hl; rewrite length_string_app in Hl;
      simpl in Hl; destruct token; [done|simpl in Hl; lia]|by right]. split.
    + intros (before & token' & after & -> & Hrun & Hdense). exists (token +:+ before), token', after.
      rewrite <- string_app_assoc in Hrun, Hdense. split; [by rewrite <- !string_app_assoc|done].
    + intros (before & token' & after & Heq & Hrun & Hdense).
      destruct (later_run b token rest before token' after) as [[-> ->]|(before' & -> & ->)]; [done..| |].
      * by rewrite string_app_nil_r in Hdense.
      * exists before', token', after. rewrite string_app_assoc in Hrun, Hdense. done.
  - rewrite <- string_rev_snoc, IH; [|lia|left; intros d; rewrite last_char_snoc; by intros [= <-]]. split.
    + intros (before & token & after & -> & Hrun & Hdense). exists (String c before), token, after.
      rewrite <- string_app_assoc in Hrun, Hdense. done.
    + intros ([|d before] & token & after & Heq & Hrun & Hdense).
      * destruct Hrun as (Ht & Hne & _). destruct token as [|d token]; [done|]. injection Heq as -> _. simpl in Ht. by rewrite Ec in Ht.
      * rewrite string_app_cons in Heq. injection Heq as -> ->. exists before, token, after. rewrite <- !string_app_assoc. done.
Qed.

(** The engine decides exactly whether a text carries a credential. *)
Lemma credential_iff s : is_secret s = true ↔ credential s.
Proof.
  unfold is_secret, credential, high_entropy_token. destruct (is_structural_secret s) eqn:Es.
  { apply structural_iff in Es. tauto. }
  apply not_structural_iff in Es. change "" with (String.rev ""). rewrite token_loop_iff by (done || by left). tauto.
Qed.
Lemma not_credential_iff s : is_secret s = false ↔ ¬ credential s.
Proof. rewrite <- not_true_iff_false. by rewrite credential_iff. Qed.
End Dense.
