(* ===== verification/Scrub.v ===== *)
(** The boundary in front of the log: what every command's payload goes through
    before it is appended, from [crates/hugit-cli/src/porcelain.rs] (and
    [crates/hugit-cli/src/redaction.rs]).

    Object keys are kept; every string value is scrubbed by a mode chosen from
    its key: free text through the engine of [Secret.v], an address through the
    identifier door, a digest under a digest key verbatim, and a serialized list
    of policy gates by scrubbing the document inside the string.  Whether a text
    parses as such a list is the derived deserializer's answer, the class
    [GateCodec]. *)

From S2P Require Import Prelude Text Scan Json JsonCodec Secret Credentials.

Set Warnings "-register-all".

(** [serde_json::from_str::<Vec<GateDescriptor>>(s).is_ok()]. *)
Class GateCodec := { is_gate_list : string → bool }.

Section Scrub.
Context `{Libm} `{SerdeJson} `{GateCodec}.

(** [redaction::scrub] and [scrub_all]. *)
Definition scrub (s : string) : string := redact_apply s.
Definition scrub_all (items : list string) : list string := scrub <$> items.

Definition structural_secret_scrub (s : string) : string := if is_safe_identifier_shape s then s else REDACTED.

(** * Keys *)

Inductive ScrubMode := FreeText | Verbatim | Structural | SerializedPolicyGates.

Definition ends_with (s suffix : string) : bool := starts_with (String.rev s) (String.rev suffix).
Definition is_digest_key (key : string) : bool :=
  bool_decide (key ∈ ["memo_key"; "tree_hash"; "commit"; "target"; "from"; "to"; "merged_from"; "shas"; "dock_id"; "hash"])
  || ends_with key "_digest".
Definition is_identifier_key (key : string) : bool :=
  bool_decide (key ∈ ["campaign"; "intent_id"; "pr_id"; "run_id"; "id"; "commit_ids"; "target"; "from"; "to"; "old"; "new";
                      "merged_from"; "local_oid"; "remote_oid"]).

Definition is_digest_value (key value : string) : bool :=
  if decide (key = "shas") then negb (bool_decide (value = "")) && forallb is_digest_shaped (split_whitespace value)
  else is_digest_shaped value.

Definition holds_gates (key : string) (value : Value) : bool :=
  bool_decide (key ∈ ["old"; "new"]) && match value with Str s => is_gate_list s | _ => false end.

Definition scrub_mode (key : string) (value : Value) : ScrubMode :=
  if holds_gates key value then SerializedPolicyGates
  else if is_identifier_key key then Structural
  else if is_digest_key key then
    match value with Str s => if is_digest_value key s then Verbatim else FreeText | _ => FreeText end
  else FreeText.

(** * Values *)

(** [scrub_value].  The fuel counts documents inside strings; running out leaves
    the replacement. *)
Fixpoint scrub_value (fuel : nat) : ScrubMode → Value → Value :=
  fix go (mode : ScrubMode) (v : Value) {struct v} : Value :=
  match v with
  | Str s =>
      match mode with
      | FreeText => Str (scrub s)
      | Structural => Str (structural_secret_scrub s)
      | Verbatim => Str s
      | SerializedPolicyGates =>
          if is_gate_list s then
            match fuel, from_str s with
            | S fuel, Some gates => Str (to_string (scrub_value fuel FreeText gates))
            | _, _ => Str REDACTED
            end
          else Str (scrub s)
      end
  | Array items => Array (map (go mode) items)
  | Object m => Object (map (λ kv, (kv.1, go (scrub_mode kv.1 kv.2) kv.2)) m)
  | v => v
  end.

(** The length of the longest string value: each document inside a string has
    shorter ones. *)
Fixpoint longest (v : Value) : nat :=
  match v with
  | Str s => String.length s
  | Array l => fold_right (λ v n, longest v `max` n)%nat 0%nat l
  | Object m => fold_right (λ kv n, longest kv.2 `max` n)%nat 0%nat m
  | _ => 0
  end.
Definition scrub_payload (v : Value) : Value := scrub_value (S (longest v)) FreeText v.

Definition scrub_to_canonical (v : Value) : string :=
  let compact := to_string (scrub_payload v) in default compact (canonical_json compact).

(** The forensic variant scrubs the keys too, in key order. *)
Fixpoint structural_scrub_json (v : Value) : Value :=
  match v with
  | Str s => Str (structural_secret_scrub s)
  | Array items => Array (map structural_scrub_json items)
  | Object m => Object (foldl (λ m kv, obj_insert (structural_secret_scrub kv.1) kv.2 m) []
                          (map (λ kv, (kv.1, structural_scrub_json kv.2)) m))
  | v => v
  end.
End Scrub.

(** ** The boundary is stable *)

Lemma structural_secret_scrub_idemp `{Libm} s : structural_secret_scrub (structural_secret_scrub s) = structural_secret_scrub s.
Proof.
  unfold structural_secret_scrub at 2 3. destruct (is_safe_identifier_shape s) eqn:E; unfold structural_secret_scrub;
    [by rewrite E|by rewrite redacted_unsafe].
Qed.
Lemma scrub_idemp `{Libm} s : scrub (scrub s) = scrub s.
Proof. apply redact_apply_idemp. Qed.
Lemma scrub_all_idemp `{Libm} l : scrub_all (scrub_all l) = scrub_all l.
Proof. unfold scrub_all. rewrite <- list_fmap_compose. apply list_fmap_ext. intros i s _. apply scrub_idemp. Qed.

(** Two addresses never become one: what the identifier door lets through it
    does not change. *)
Lemma address_kept `{Libm} s : is_bare_hex_digest_shape s = true ∨ is_ulid_shaped s = true → structural_secret_scrub s = s.
Proof. unfold structural_secret_scrub. intros [?|?]; [by rewrite digest_safe|by rewrite ulid_safe]. Qed.

(** ** Printing and reading back *)

Section Printed.
Context `{Libm} `{SerdeJsonLaws} `{GateCodec}.

Lemma scrub_value_Object fuel mode m :
  scrub_value fuel mode (Object m) = Object (map (λ kv, (kv.1, scrub_value fuel (scrub_mode kv.1 kv.2) kv.2)) m).
Proof. by destruct fuel. Qed.
Lemma scrub_value_Array fuel mode l : scrub_value fuel mode (Array l) = Array (map (scrub_value fuel mode) l).
Proof. by destruct fuel. Qed.
Lemma scrub_value_scalar fuel mode v : match v with Str _ | Array _ | Object _ => False | _ => True end →
  scrub_value fuel mode v = v.
Proof. by destruct fuel, v. Qed.
Lemma scrub_value_Str fuel mode s :
  mode ≠ SerializedPolicyGates →
  scrub_value fuel mode (Str s) = Str match mode with FreeText => scrub s | Structural => structural_secret_scrub s | _ => s end.
Proof. by destruct fuel, mode. Qed.

Lemma scrub_value_Str_str fuel mode s : ∃ t, scrub_value fuel mode (Str s) = Str t.
Proof.
  destruct fuel as [|fuel], mode; cbn [scrub_value]; eauto; destruct (is_gate_list s); eauto. destruct (from_str s); eauto.
Qed.

Lemma fst_map_keyed {V W} (f : string * V → W) (m : list (string * V)) : (map (λ kv, (kv.1, f kv)) m).*1 = m.*1.
Proof. induction m; simpl; by f_equal. Qed.

Lemma scrub_value_plain fuel mode v : plain v = true → plain (scrub_value fuel mode v) = true.
Proof.
  unfold plain. rewrite !andb_true_iff. revert mode.
  induction v as [| | |s|l IH|m IH] using Value_rect'; intros mode [Hs Hu];
    try (rewrite scrub_value_scalar by done; done).
  - by destruct (scrub_value_Str_str fuel mode s) as [t ->].
  - rewrite scrub_value_Array. simpl in *. rewrite !forallb_Forall_true in *. rewrite !Forall_map, <- Forall_and.
    assert (Forall (λ v, sorted_doc v = true ∧ only_u64 v = true) l) as Hall by by apply Forall_and.
    clear Hs Hu. induction IH; [done|]. apply Forall_cons in Hall as [? ?]. constructor; auto.
  - rewrite scrub_value_Object. simpl in *. rewrite bool_decide_andb_true in *. destruct Hs as [Hsorted Hs].
    unfold obj_sorted in *. rewrite fst_map_keyed, !forallb_Forall_true in *. rewrite !Forall_map.
    assert (Forall (λ kv, sorted_doc kv.2 = true ∧ only_u64 kv.2 = true) m) as Hall by by apply Forall_and.
    assert (Forall (λ kv, sorted_doc (scrub_value fuel (scrub_mode kv.1 kv.2) kv.2) = true ∧
      only_u64 (scrub_value fuel (scrub_mode kv.1 kv.2) kv.2) = true) m) as Hres.
    { clear -IH Hall. induction IH; [done|]. apply Forall_cons in Hall as [? ?]. constructor; auto. }
    apply Forall_and in Hres as [? ?]. done.
Qed.

(** An appended payload is read back as the scrubbed document. *)
Lemma scrub_to_canonical_read v : plain v = true → from_str (scrub_to_canonical v) = Some (scrub_payload v).
Proof.
  intros Hp. unfold scrub_to_canonical. pose proof (scrub_value_plain (S (longest v)) FreeText v Hp) as Hs.
  fold (scrub_payload v) in Hs. unfold canonical_json. rewrite from_str_to_string by done. cbn [mbind option_bind].
  unfold plain in Hs. apply andb_true_iff in Hs as [Hs Hu].
  rewrite canonicalize_sorted_id by done. simpl. apply from_str_to_string. unfold plain. by rewrite Hs, Hu.
Qed.

Lemma scrub_payload_get m k : value_get (scrub_payload (Object m)) k =
  (λ v, scrub_value (S (longest (Object m))) (scrub_mode k v) v) <$> obj_get k m.
Proof.
  unfold scrub_payload. rewrite scrub_value_Object. cbn [value_get]. generalize (S (longest (Object m))). intros fuel.
  induction m as [|[k' v] m IH]; [done|]. simpl. case_decide; [by subst|]. done.
Qed.
End Printed.

(** ** The fuel is enough *)

(** What is relied on of the parser: a list of gates is a document, and the
    strings of a document are shorter than its text. *)
Class GateCodecLaws `{SerdeJson} `{GateCodec} := {
  gate_list_parses s : is_gate_list s = true → is_Some (from_str s);
  parsed_shorter s v : from_str s = Some v → (longest v < String.length s)%nat;
}.

Section Fuel.
Context `{Libm} `{GateCodecLaws}.

Lemma longest_item v l : v ∈ l → (longest v ≤ longest (Array l))%nat.
Proof. induction 1 as [|v w l Hv IH]; simpl in *; lia. Qed.
Lemma longest_member k v m : (k, v) ∈ m → (longest v ≤ longest (Object m))%nat.
Proof. intros Hv. remember (k, v) as kv eqn:E. induction Hv as [|kv w l Hv IH]; subst; simpl in *; [lia|]. specialize (IH eq_refl). lia. Qed.

Lemma scrub_value_fuel fuel fuel' mode v : (longest v < fuel)%nat → (longest v < fuel')%nat →
  scrub_value fuel mode v = scrub_value fuel' mode v.
Proof.
  revert fuel' mode v. induction fuel as [|fuel IHf]; intros fuel' mode v; [lia|]. destruct fuel' as [|fuel']; [lia|].
  revert mode. induction v as [| | |s|l IH|m IH] using Value_rect'; intros mode Hf Hf'; try done.
  - destruct mode; cbn [scrub_value]; try done. destruct (is_gate_list s) eqn:Eg; [|done].
    destruct (from_str s) as [gates|] eqn:E; [|done]. apply parsed_shorter in E. simpl in Hf, Hf'.
    rewrite (IHf fuel' FreeText gates) by lia. done.
  - rewrite !scrub_value_Array. f_equal. apply map_ext_in. intros v Hv%list_elem_of_In. rewrite Forall_forall in IH.
    apply longest_item in Hv as Hle. apply IH; [done|lia..].
  - rewrite !scrub_value_Object. f_equal. apply map_ext_in. intros [k v] Hv%list_elem_of_In. rewrite Forall_forall in IH.
    apply longest_member in Hv as Hle. cbn [fst snd]. f_equal. apply (IH (k, v)); [done|cbn [snd]; lia..].
Qed.

(** Scrubbing ends on every payload: documents inside strings are scrubbed all
    the way down, and more fuel than the longest string changes nothing. *)
Theorem scrub_payload_complete v fuel : (longest v < fuel)%nat → scrub_value fuel FreeText v = scrub_payload v.
Proof. intros Hf. apply scrub_value_fuel; [done|lia]. Qed.
End Fuel.

(** * What becomes of a string *)

(** Where a string stands: outside every object, as the value of a key, or in a
    list (of lists) that is. *)
Inductive place := Top | Under (key : string) | Inside (key : string).
Definition into_list (pl : place) : place := match pl with Under key => Inside key | _ => pl end.

(** The documented keys. *)
Definition address_key (key : string) : Prop :=
  key ∈ ["campaign"; "intent_id"; "pr_id"; "run_id"; "id"; "commit_ids"; "target"; "from"; "to"; "old"; "new"; "merged_from";
         "local_oid"; "remote_oid"].
Definition digest_key (key : string) : Prop :=
  key ∈ ["memo_key"; "tree_hash"; "commit"; "target"; "from"; "to"; "merged_from"; "shas"; "dock_id"; "hash"] ∨
  ∃ stem, key = stem +:+ "_digest".
Definition address_place (pl : place) : Prop := match pl with Top => False | Under key | Inside key => address_key key end.
(** A digest, or a list of them, where one is expected. *)
Definition digest_at (pl : place) (s : string) : Prop :=
  match pl with
  | Under key => digest_key key ∧ (if decide (key = "shas") then s ≠ "" ∧ Forall digest_form (split_whitespace s) else digest_form s)
  | _ => False
  end.

Section Judged.
Context `{Libm} `{SerdeJson} `{GateCodec}.

(** A serialized list of gates where the policy's old or new gates are expected. *)
Definition gates_at (pl : place) (s : string) : Prop :=
  match pl with Under key => key ∈ ["old"; "new"] ∧ is_gate_list s = true | _ => False end.

(** What becomes of a value at a place: the shape, the keys and everything but the
    strings stay; a string is kept or replaced by its place and by what it is. *)
Inductive judged : place → Value → Value → Prop :=
| kept_address pl s : address_place pl → ¬ gates_at pl s → address s → judged pl (Str s) (Str s)
| replaced_address pl s : address_place pl → ¬ gates_at pl s → ¬ address s → judged pl (Str s) (Str REDACTED)
| kept_digest pl s : ¬ address_place pl → digest_at pl s → judged pl (Str s) (Str s)
| kept_text pl s : ¬ address_place pl → ¬ digest_at pl s → ¬ credential s → judged pl (Str s) (Str s)
| replaced_text pl s : ¬ address_place pl → ¬ digest_at pl s → credential s → judged pl (Str s) (Str REDACTED)
| judged_gates pl s gates gates' : gates_at pl s → from_str s = Some gates → judged Top gates gates' →
    judged pl (Str s) (Str (to_string gates'))
| judged_list pl l l' : Forall2 (judged (into_list pl)) l l' → judged pl (Array l) (Array l')
| judged_object pl m m' : Forall2 (λ kv kv', kv'.1 = kv.1 ∧ judged (Under kv.1) kv.2 kv'.2) m m' → judged pl (Object m) (Object m')
| judged_other pl v : match v with Str _ | Array _ | Object _ => False | _ => True end → judged pl v v.

Lemma address_key_iff key : is_identifier_key key = true ↔ address_key key.
Proof. apply bool_decide_eq_true. Qed.
Lemma digest_key_iff key : is_digest_key key = true ↔ digest_key key.
Proof.
  unfold is_digest_key, digest_key, ends_with. rewrite orb_true_iff, bool_decide_eq_true, starts_with_true.
  split; (intros [Hk|(t & Ht)]; [by left|right]).
  - exists (String.rev t). by rewrite <- (string_rev_rev key), Ht, string_rev_app, string_rev_rev.
  - exists (String.rev t). by rewrite Ht, string_rev_app.
Qed.
Lemma digest_value_iff key s : is_digest_key key && is_digest_value key s = true ↔ digest_at (Under key) s.
Proof.
  unfold digest_at, is_digest_value. rewrite andb_true_iff, digest_key_iff. case_decide; [|by rewrite digest_form_iff].
  rewrite andb_true_iff, negb_true_iff, bool_decide_eq_false, forallb_Forall_true.
  by setoid_rewrite digest_form_iff.
Qed.

(** The mode a place gives to a value. *)
Definition mode_of_place (pl : place) (v : Value) : ScrubMode :=
  match pl with
  | Top => FreeText
  | Under key => scrub_mode key v
  | Inside key => if is_identifier_key key then Structural else FreeText
  end.

Lemma mode_inside pl v l : mode_of_place (into_list pl) v = mode_of_place pl (Array l).
Proof.
  destruct pl as [|key|key]; [done| |done]. cbn [mode_of_place into_list]. unfold scrub_mode, holds_gates. rewrite andb_false_r.
  destruct (is_identifier_key key); [done|]. by destruct (is_digest_key key).
Qed.

Lemma judged_text pl s : ¬ address_place pl → ¬ digest_at pl s → judged pl (Str s) (Str (scrub s)).
Proof.
  intros Ha Hd. unfold scrub, redact_apply. destruct (is_secret s) eqn:E.
  - apply replaced_text; [done..|by apply credential_iff].
  - apply kept_text; [done..|by apply not_credential_iff].
Qed.
Lemma judged_address pl s : address_place pl → ¬ gates_at pl s → judged pl (Str s) (Str (structural_secret_scrub s)).
Proof.
  intros Ha Hg. unfold structural_secret_scrub. destruct (is_safe_identifier_shape s) eqn:E.
  - apply kept_address; [done..|by apply address_iff].
  - apply replaced_address; [done..|]. rewrite <- address_iff. congruence.
Qed.

(** The mode of a string, read as what its place asks for. *)
Lemma mode_of_string pl s :
  match mode_of_place pl (Str s) with
  | SerializedPolicyGates => gates_at pl s
  | Structural => address_place pl ∧ ¬ gates_at pl s
  | Verbatim => ¬ address_place pl ∧ digest_at pl s
  | FreeText => ¬ address_place pl ∧ ¬ digest_at pl s
  end.
Proof.
  destruct pl as [|key|key]; cbn [mode_of_place]; [naive_solver| |].
  2:{ destruct (is_identifier_key key) eqn:Ei; [apply address_key_iff in Ei; naive_solver|]. simpl. rewrite <- address_key_iff. split; [congruence|tauto]. }
  unfold scrub_mode, holds_gates. destruct (bool_decide (key ∈ ["old"; "new"]) && is_gate_list s) eqn:Eg.
  { apply andb_true_iff in Eg as [Hk%bool_decide_eq_true Hg]. done. }
  assert (¬ gates_at (Under key) s) as Hg.
  { intros [Hk Hl]. by rewrite bool_decide_true, Hl in Eg. }
  destruct (is_identifier_key key) eqn:Ei; [by apply address_key_iff in Ei|].
  assert (¬ address_place (Under key)) as Ha by (simpl; rewrite <- address_key_iff; congruence).
  pose proof (digest_value_iff key s) as Hd. destruct (is_digest_key key), (is_digest_value key s); cbn [andb] in Hd;
    rewrite <- Hd; (split; [done|]); done.
Qed.
End Judged.

Section Boundary.
Context `{Libm} `{GateCodecLaws}.

Lemma scrub_value_judged fuel pl v : (longest v < fuel)%nat → judged pl v (scrub_value fuel (mode_of_place pl v) v).
Proof.
  revert pl v. induction fuel as [|fuel IHf]; intros pl v; [lia|]. revert pl.
  induction v as [| | |s|l IH|m IH] using Value_rect'; intros pl Hf; try by apply judged_other.
  - pose proof (mode_of_string pl s) as Hm. destruct (mode_of_place pl (Str s)); cbn [scrub_value].
    + destruct Hm. by apply judged_text.
    + destruct Hm. by apply kept_digest.
    + destruct Hm. by apply judged_address.
    + assert (is_gate_list s = true) as Hg by (destruct pl; [done|apply Hm|done]). rewrite Hg.
      destruct (gate_list_parses s Hg) as [gates Eg]. rewrite Eg. eapply judged_gates; [done..|].
      apply (IHf Top). apply parsed_shorter in Eg. simpl in Hf. lia.
  - rewrite scrub_value_Array. apply judged_list. rewrite Forall_forall in IH. apply Forall2_fmap_r, Forall_Forall2_diag, Forall_forall.
    intros v Hv. rewrite <- (mode_inside pl v l). apply IH; [done|]. apply longest_item in Hv. lia.
  - rewrite scrub_value_Object. apply judged_object. rewrite Forall_forall in IH. apply Forall2_fmap_r, Forall_Forall2_diag, Forall_forall.
    intros [k v] Hv. cbn [fst snd]. split; [done|]. apply (IH (k, v) Hv (Under k)). apply longest_member in Hv. cbn [snd]. lia.
Qed.

(** C17. What [scrub_payload] returns is its argument with every string judged by
    where it stands.  Under a key of an address (in lists too) a string is kept if it
    is a proven address and replaced otherwise; as the value of a digest key, digests
    are kept; every other string is kept if it carries no credential and replaced if
    it does, a bare digest under a key of free text among them; and the gates
    serialized under [old] or [new] are judged as a document of their own.  Keys,
    numbers and the shape stay as they are.  A credential is a text with one of the
    listed structures or a maximal dense run of twenty token characters ([credential]
    of [Credentials.v]).  The claim is about [scrub_payload]: what a command appends
    without it is not covered. *)
Theorem scrub_payload_judged v : judged Top v (scrub_payload v).
Proof. apply (scrub_value_judged _ Top). lia. Qed.
End Boundary.

(** * Examples *)

Module GateList.
Import Codec.

(** A derived deserializer over the parsed text. *)
Definition is_gate (v : Value) : bool :=
  match value_get v "id", value_get v "description", value_get v "enabled" with
  | Some (Str _), Some (Str _), Some (Bool _) => true
  | _, _, _ => false
  end.
#[export] Instance gate_codec : GateCodec :=
  {| is_gate_list s := match Codec.from_str s with Some (Array gates) => forallb is_gate gates | _ => false end |}.

Lemma parse_chars_shorter s t r : parse_chars s = Some (t, r) → (String.length t + String.length r < String.length s)%nat.
Proof.
  remember (String.length s) as n eqn:Hn. revert s Hn t r. induction n as [n IH] using lt_wf_ind. intros s -> t r.
  destruct s as [|c s]; [done|]. cbn [parse_chars]. case_decide; [intros [= <- <-]; simpl; lia|].
  case_decide.
  - destruct s as [|c' s]; [done|]. destruct (parse_chars s) as [[t' r']|] eqn:E; simpl; [|done]. intros [= <- <-].
    apply (IH (String.length s)) in E; [|simpl; lia|done]. simpl. lia.
  - destruct (parse_chars s) as [[t' r']|] eqn:E; simpl; [|done]. intros [= <- <-].
    apply (IH (String.length s)) in E; [|simpl; lia|done]. simpl. lia.
Qed.

Lemma span_digits_shorter s d r : span_digits s = (d, r) → (String.length d + String.length r = String.length s)%nat.
Proof.
  revert d r. induction s as [|c s IH]; intros d r; simpl; [by intros [= <- <-]|].
  destruct (is_digit c); [|by intros [= <- <-]]. destruct (span_digits s) as [d' r'] eqn:E. intros [= <- <-].
  specialize (IH _ _ eq_refl). simpl. lia.
Qed.

Definition all_shorter (l : list Value) (n : nat) : Prop := Forall (λ v, (longest v < n)%nat) l.

Lemma parse_shorter fuel :
  (∀ s v r, parse fuel s = Some (v, r) → (longest v < String.length s ∧ String.length r < String.length s)%nat) ∧
  (∀ s l r, parse_items fuel s = Some (l, r) → all_shorter l (String.length s) ∧ (String.length r < String.length s)%nat) ∧
  (∀ s m r, parse_members fuel s = Some (m, r) → all_shorter m.*2 (String.length s) ∧ (String.length r < String.length s)%nat).
Proof.
  induction fuel as [|fuel (IHv & IHl & IHm)]; [split_and!; intros []; done|]. split_and!.
  - intros [|c s] v r; [done|]. cbn [parse]. destruct (is_digit c) eqn:Ec.
    { destruct (span_digits (String c s)) as [d r'] eqn:E. destruct (DecimalString.NilEmpty.uint_of_string d) eqn:Ed; simpl; [|done].
      intros [= <- <-]. cbn [span_digits] in E. rewrite Ec in E. destruct (span_digits s) as [d' r''] eqn:E'.
      injection E as <- <-. apply span_digits_shorter in E'. simpl. lia. }
    repeat case_decide; try done; try (intros [= <- <-]; simpl; lia).
    + destruct (parse_chars s) as [[t r']|] eqn:E; simpl; [|done]. intros [= <- <-]. apply parse_chars_shorter in E. simpl. lia.
    + destruct (parse_chars s) as [[t r']|] eqn:E; simpl; [|done]. intros [= <- <-]. apply parse_chars_shorter in E. simpl. lia.
    + destruct (parse_items fuel s) as [[l r']|] eqn:E; simpl; [|done]. intros [= <- <-]. apply IHl in E as [Hl Hr].
      split; [|simpl; lia]. clear -Hl. induction Hl; simpl in *; lia.
    + destruct (parse_members fuel s) as [[m r']|] eqn:E; simpl; [|done]. intros [= <- <-]. apply IHm in E as [Hm Hr].
      split; [|simpl; lia]. clear -Hm. induction m as [|[k v] m IH]; simpl in *; [lia|].
      apply Forall_cons in Hm as [? Hm]. simpl in *. specialize (IH Hm). lia.
  - intros [|c s] l r; [done|]. cbn [parse_items]. case_decide; [intros [= <- <-]; split; [constructor|simpl; lia]|].
    destruct (parse fuel (String c s)) as [[v r']|] eqn:E; simpl; [|done]. apply IHv in E as [Hv Hr].
    destruct r' as [|c' r']; [done|]. destruct (parse_items fuel r') as [[l' r'']|] eqn:E'; simpl; [|done]. intros [= <- <-].
    apply IHl in E' as [Hl Hr']. simpl in *. split; [|lia]. constructor; [done|]. eapply Forall_impl; [exact Hl|]. simpl. lia.
  - intros [|c s] m r; [done|]. cbn [parse_members]. case_decide; [intros [= <- <-]; split; [constructor|simpl; lia]|].
    destruct (parse_chars s) as [[k r0]|] eqn:Ek; simpl; [|done]. apply parse_chars_shorter in Ek.
    destruct r0 as [|c0 r0]; [done|]. destruct (parse fuel r0) as [[v r']|] eqn:E; simpl; [|done]. apply IHv in E as [Hv Hr].
    destruct r' as [|c' r']; [done|]. destruct (parse_members fuel r') as [[m' r'']|] eqn:E'; simpl; [|done]. intros [= <- <-].
    apply IHm in E' as [Hm Hr']. simpl in *. split; [|lia]. constructor; simpl; [lia|]. eapply Forall_impl; [exact Hm|]. simpl. lia.
Qed.

#[export] Instance gate_codec_laws : GateCodecLaws.
Proof.
  constructor.
  - intros s. simpl. by destruct (Codec.from_str s).
  - intros s v. simpl. unfold Codec.from_str. destruct (parse (String.length s) s) as [[v' r]|] eqn:E; [|done].
    destruct r; [|done]. intros [= <-]. by apply parse_shorter in E as [? _].
Qed.
End GateList.

Module ScrubExample.
Import Codec Log2 GateList.

Definition gates : Value := Array [json_object [("id", Str "dco"); ("description", Str "was ghp_0123"); ("enabled", Bool true)]].
Definition edit : Value :=
  json_object [("pr_id", Str "xoxb-12-34"); ("reason", Str "token: abc"); ("commit", Str "da39a3ee5e6b4b0d3255bfef95601890afd80709");
               ("tree_hash", Str "ghp_zzz"); ("new", Str (Codec.to_string gates)); ("n", Number (PosInt 3))].

(** A credential under an address key, in free text, behind a digest name and
    inside a serialized gate list is replaced; the digest stays. *)
Example edit_scrubbed : scrub_payload edit =
  json_object [("pr_id", Str REDACTED); ("reason", Str REDACTED); ("commit", Str "da39a3ee5e6b4b0d3255bfef95601890afd80709");
    ("tree_hash", Str REDACTED);
    ("new", Str (Codec.to_string (Array [json_object [("id", Str "dco"); ("description", Str REDACTED); ("enabled", Bool true)]])));
    ("n", Number (PosInt 3))].
Proof. vm_compute. reflexivity. Qed.

(** The reason of the edit is replaced, since it assigns a token. *)
Lemma scrub_payload_judged_witness : judged Top edit (scrub_payload edit).
Proof. apply (scrub_payload_judged edit). Defined.
(** A bare digest is kept under a digest key only: as free text it is a dense run. *)
Example bare_digest_by_key :
  scrub_payload (json_object [("commit", Str "da39a3ee5e6b4b0d3255bfef95601890afd80709"); ("reason", Str "da39a3ee5e6b4b0d3255bfef95601890afd80709")]) =
  json_object [("commit", Str "da39a3ee5e6b4b0d3255bfef95601890afd80709"); ("reason", Str REDACTED)].
Proof. vm_compute. reflexivity. Qed.

Lemma scrub_payload_complete_witness : scrub_value 1000 FreeText edit = scrub_payload edit.
Proof. apply (scrub_payload_complete edit 1000). apply Nat.ltb_lt. vm_compute. reflexivity. Defined.
End ScrubExample.
