(* ===== verification/Crypto.v ===== *)
(** Interface to the hash and hex libraries ([sha2], [hex]).

    Both crates are outside the repository: the digest and the hex printer are
    the operations of the class [Crypto], and their documented shape (a 32-byte
    digest, two characters per byte, an injective printer) is [CryptoLaws].
    Nothing assumes that the digest has no collisions; statements that depend
    on collision freedom produce the colliding inputs instead.

    [Module Toy] is a concrete instance for examples and witnesses. *)

From S2P Require Import Prelude.

Class Crypto := {
  sha256 : list byte → list byte;
  hex_encode : list byte → string;
}.

Class CryptoLaws `{Crypto} := {
  length_sha256 : ∀ b, length (sha256 b) = 32%nat;
  length_hex_encode : ∀ d, String.length (hex_encode d) = (2 * length d)%nat;
  hex_encode_inj : ∀ d d', hex_encode d = hex_encode d' → d = d';
}.

(** [hex::encode(Sha256::digest(buf))]. *)
Definition digest_hex `{Crypto} (buf : list byte) : string := hex_encode (sha256 buf).

(** Two different inputs with one digest. *)
Definition collision `{Crypto} (b b' : list byte) : Prop :=
  b ≠ b' ∧ sha256 b = sha256 b'.

Section Laws.
Context `{CryptoLaws}.

Lemma length_digest_hex b : String.length (digest_hex b) = 64%nat.
Proof. unfold digest_hex. by rewrite length_hex_encode, length_sha256. Qed.

Lemma digest_hex_nonempty b : digest_hex b ≠ "".
Proof. intros Hd. pose proof (length_digest_hex b) as Hl. by rewrite Hd in Hl. Qed.

(** Equal digests: equal inputs, or a collision in hand. *)
Lemma digest_hex_eq b b' : digest_hex b = digest_hex b' → b = b' ∨ collision b b'.
Proof.
  intros Hd%hex_encode_inj. destruct (decide (b = b')) as [->|Hne]; [by left|by right].
Qed.
End Laws.

Module Toy.
Definition hex_digit (n : N) : ascii :=
  ascii_of_N (if n <? 10 then 48 + n else 87 + n).
Fixpoint hex_encode (d : list byte) : string :=
  match d with
  | [] => EmptyString
  | b :: d =>
      String (hex_digit (Byte.to_N b / 16))
        (String (hex_digit (Byte.to_N b mod 16)) (hex_encode d))
  end.
Definition sha256 (b : list byte) : list byte :=
  be_bytes 32 (foldl (λ acc x, acc + Byte.to_N x + 1) 0 b).

Lemma length_hex_encode d : String.length (hex_encode d) = (2 * length d)%nat.
Proof. induction d; simpl; lia. Qed.

Lemma hex_pair_inj (b b' : byte) :
  hex_digit (Byte.to_N b / 16) = hex_digit (Byte.to_N b' / 16) →
  hex_digit (Byte.to_N b mod 16) = hex_digit (Byte.to_N b' mod 16) → b = b'.
Proof.
  assert (∀ m n, m < 16 → n < 16 → hex_digit m = hex_digit n → m = n) as Hd.
  { intros m n Hm Hn Heq. apply (f_equal N_of_ascii) in Heq. unfold hex_digit in Heq.
    destruct (N.ltb_spec m 10), (N.ltb_spec n 10);
      rewrite !N_ascii_embedding in Heq by lia; lia. }
  intros H1 H2. pose proof (Byte.to_N_bounded b). pose proof (Byte.to_N_bounded b').
  assert (Byte.to_N b = Byte.to_N b') as Hn.
  { apply Hd in H1; [|apply N.Div0.div_lt_upper_bound; lia..].
    apply Hd in H2; [|apply N.mod_lt; lia..].
    rewrite (N.div_mod (Byte.to_N b) 16), (N.div_mod (Byte.to_N b') 16) by lia. lia. }
  pose proof (Byte.of_to_N b) as Hb. pose proof (Byte.of_to_N b') as Hb'.
  rewrite Hn in Hb. congruence.
Qed.

Lemma hex_encode_inj d d' : hex_encode d = hex_encode d' → d = d'.
Proof.
  revert d'. induction d as [|b d IH]; intros [|b' d'] Heq; try done.
  cbn [hex_encode] in Heq. injection Heq as H1 H2 H3.
  f_equal; [by apply hex_pair_inj|by apply IH].
Qed.

#[export] Instance toy : Crypto := {|
  Crypto.sha256 := sha256; Crypto.hex_encode := hex_encode
|}.
#[export] Instance toy_laws : @CryptoLaws toy.
Proof.
  constructor; [|apply length_hex_encode|apply hex_encode_inj].
  intros b. apply length_be_bytes.
Qed.
End Toy.
