(* ===== verification/Blobs.v ===== *)
(** The content-addressed blob store with lawful erasure, from
    [crates/hugit-ledger/src/envelope/cold_store.rs]: its interface (the trait
    [ColdBlobStore]), the in-memory store, the store over a directory and the
    unwired store that refuses everything.

    [Spec] is what the trait promises, a map from references to bytes or
    tombstones; both stores are shown to implement it.  A directory is a map
    from file names to contents, and every call of the file system may fail: the
    failures are a list the store consumes.  The tombstone's JSON form is the
    class [TombstoneJson]. *)

From S2P Require Import Prelude Text Scan Crypto.

(** * References and tombstones *)

Definition COLD_REF_PREFIX : string := "cas:".
Definition TOMBSTONE_MARKER : string := "tombstone".
Definition TOMBSTONE_SENTINEL : list byte := as_bytes ("hugit-cold-tombstone-v1" +:+ String newline EmptyString).

Inductive ColdStoreError :=
| NotWired (what : string)
| Io (e : string)
| InvalidRef (what : string)
| DigestMismatch (requested actual : string).

Record TombstoneRecord := { requested_by : string; requested_at_unix : N; policy_ref : string }.
Record Tombstone := { erased_ref : string; record : TombstoneRecord; marker : string }.
Definition Tombstone_new (r : string) (rec : TombstoneRecord) : Tombstone :=
  {| erased_ref := r; record := rec; marker := TOMBSTONE_MARKER |}.
Definition is_tombstone (t : Tombstone) : bool := bool_decide (marker t = TOMBSTONE_MARKER).

(** The derived JSON form of a tombstone. *)
Class TombstoneJson := {
  tombstone_to_vec : Tombstone → list byte;
  tombstone_from_slice : list byte → option Tombstone;
}.
Class TombstoneJsonLaws `{TombstoneJson} := {
  tombstone_roundtrip t : tombstone_from_slice (tombstone_to_vec t) = Some t;
}.
(** The hex printer writes lower-case digits. *)
Definition lower_hex (c : ascii) : bool := is_ascii_hexdigit c && negb (is_ascii_uppercase c).
Class HexLower `{Crypto} := { hex_encode_lower d : string_forall lower_hex (hex_encode d) = true }.

Fixpoint strip_bytes (p l : list byte) : option (list byte) :=
  match p, l with
  | [], _ => Some l
  | b :: p, c :: l => if decide (b = c) then strip_bytes p l else None
  | _ :: _, [] => None
  end.

Definition canonical_bytes `{TombstoneJson} (t : Tombstone) : list byte := TOMBSTONE_SENTINEL ++ tombstone_to_vec t.
Definition from_persisted `{TombstoneJson} (bytes : list byte) : option Tombstone :=
  strip_bytes TOMBSTONE_SENTINEL bytes ≫= tombstone_from_slice.

Definition cold_ref_for `{Crypto} (bytes : list byte) : string := COLD_REF_PREFIX +:+ digest_hex bytes.
Definition tombstone_ref `{Crypto} `{TombstoneJson} (t : Tombstone) : string := cold_ref_for (canonical_bytes t).

Inductive GetOutcome := Present (bytes : list byte) | Erased (t : Tombstone) | Absent.

Definition ref_hash (blob_ref : string) : result ColdStoreError string :=
  match strip_prefix COLD_REF_PREFIX blob_ref with
  | None => Err (InvalidRef "missing 'cas:' prefix")
  | Some hash =>
      if (String.length hash =? 64)%nat && string_forall lower_hex hash then Ok hash
      else Err (InvalidRef ("hash segment must match ^[0-9a-f]{64}$ (got " +:+ decimal (N.of_nat (String.length hash)) +:+ " chars)"))
  end.

(** * The interface *)

Class ColdBlobStore (S : Type) := {
  blob_put : S → list byte → S * result ColdStoreError string;
  blob_get : S → string → S * result ColdStoreError GetOutcome;
  blob_erase : S → string → TombstoneRecord → S * result ColdStoreError Tombstone;
}.

(** ** In memory *)

Record InMemoryColdStore := { blobs : gmap string (list byte); tombstones : gmap string Tombstone }.
Definition InMemoryColdStore_new : InMemoryColdStore := {| blobs := ∅; tombstones := ∅ |}.

Section InMemory.
Context `{Crypto}.

Definition mem_put (s : InMemoryColdStore) (bytes : list byte) : InMemoryColdStore * result ColdStoreError string :=
  let blob_ref := cold_ref_for bytes in
  if decide (is_Some (tombstones s !! blob_ref)) then (s, Ok blob_ref)
  else match blobs s !! blob_ref with
       | Some _ => (s, Ok blob_ref)
       | None => ({| blobs := <[blob_ref := bytes]> (blobs s); tombstones := tombstones s |}, Ok blob_ref)
       end.
Definition mem_get (s : InMemoryColdStore) (blob_ref : string) : result ColdStoreError GetOutcome :=
  _ ← ref_hash blob_ref;
  match blobs s !! blob_ref with
  | Some bytes =>
      let actual := cold_ref_for bytes in
      if decide (actual ≠ blob_ref) then Err (DigestMismatch blob_ref actual) else Ok (Present bytes)
  | None => Ok (match tombstones s !! blob_ref with Some t => Erased t | None => Absent end)
  end.
Definition mem_erase (s : InMemoryColdStore) (blob_ref : string) (rec : TombstoneRecord)
    : InMemoryColdStore * result ColdStoreError Tombstone :=
  match ref_hash blob_ref with
  | Err e => (s, Err e)
  | Ok _ =>
      let tombstone := Tombstone_new blob_ref rec in
      ({| blobs := delete blob_ref (blobs s); tombstones := <[blob_ref := tombstone]> (tombstones s) |}, Ok tombstone)
  end.
#[export] Instance in_memory_store : ColdBlobStore InMemoryColdStore := {|
  blob_put := mem_put; blob_get s r := (s, mem_get s r); blob_erase := mem_erase |}.
End InMemory.

(** ** In a directory *)

(** [io] holds the outcome of each coming call of the file system: nothing for
    success. *)
Record DirColdStore := { files : gmap string (list byte); io : list (option string) }.

Section Dir.
Context `{Crypto} `{TombstoneJson} (root pid : string).

Definition in_root (name : string) : string := root +:+ "/" +:+ name.

Definition next_io (s : DirColdStore) : option string * DirColdStore :=
  match io s with
  | [] => (None, s)
  | e :: io => (e, {| files := files s; io := io |})
  end.
Definition fs_write (s : DirColdStore) (name : string) (bytes : list byte) : DirColdStore * result string unit :=
  match next_io s with
  | (Some e, s) => (s, Err e)
  | (None, s) => ({| files := <[name := bytes]> (files s); io := io s |}, Ok tt)
  end.
Definition fs_rename (s : DirColdStore) (from to : string) : DirColdStore * result string unit :=
  match next_io s with
  | (Some e, s) => (s, Err e)
  | (None, s) =>
      match files s !! from with
      | Some bytes => ({| files := <[to := bytes]> (delete from (files s)); io := io s |}, Ok tt)
      | None => (s, Err "not found")
      end
  end.
Definition fs_read (s : DirColdStore) (name : string) : DirColdStore * result string (option (list byte)) :=
  match next_io s with
  | (Some e, s) => (s, Err e)
  | (None, s) => (s, Ok (files s !! name))
  end.

(** Write to a temporary name, then rename over the target. *)
Definition publish (s : DirColdStore) (tmp path what : string) (bytes : list byte) : DirColdStore * result ColdStoreError unit :=
  match fs_write s tmp bytes with
  | (s, Err e) => (s, Err (Io ("writing " +:+ in_root tmp +:+ ": " +:+ e)))
  | (s, Ok _) =>
      match fs_rename s tmp path with
      | (s, Err e) => (s, Err (Io (what +:+ " " +:+ in_root path +:+ ": " +:+ e)))
      | (s, Ok _) => (s, Ok tt)
      end
  end.

Definition dir_put (s : DirColdStore) (bytes : list byte) : DirColdStore * result ColdStoreError string :=
  let blob_ref := cold_ref_for bytes in
  match ref_hash blob_ref with
  | Err e => (s, Err e)
  | Ok hash =>
      if decide (is_Some (files s !! hash)) then (s, Ok blob_ref)
      else match publish s (hash +:+ ".tmp-" +:+ pid) hash "publishing" bytes with
           | (s, Err e) => (s, Err e)
           | (s, Ok _) => (s, Ok blob_ref)
           end
  end.

Definition dir_get (s : DirColdStore) (blob_ref : string) : DirColdStore * result ColdStoreError GetOutcome :=
  match ref_hash blob_ref with
  | Err e => (s, Err e)
  | Ok hash =>
      match fs_read s hash with
      | (s, Err e) => (s, Err (Io ("reading " +:+ in_root hash +:+ ": " +:+ e)))
      | (s, Ok None) => (s, Ok Absent)
      | (s, Ok (Some bytes)) =>
          match from_persisted bytes with
          | Some ts =>
              (s, if decide (erased_ref ts ≠ blob_ref) then Err (DigestMismatch blob_ref (erased_ref ts)) else Ok (Erased ts))
          | None =>
              let actual := cold_ref_for bytes in
              (s, if decide (actual ≠ blob_ref) then Err (DigestMismatch blob_ref actual) else Ok (Present bytes))
          end
      end
  end.

Definition dir_erase (s : DirColdStore) (blob_ref : string) (rec : TombstoneRecord) : DirColdStore * result ColdStoreError Tombstone :=
  match ref_hash blob_ref with
  | Err e => (s, Err e)
  | Ok hash =>
      let tombstone := Tombstone_new blob_ref rec in
      match publish s (hash +:+ ".tombstone.tmp-" +:+ pid) hash "publishing tombstone" (canonical_bytes tombstone) with
      | (s, Err e) => (s, Err e)
      | (s, Ok _) => (s, Ok tombstone)
      end
  end.
Definition dir_store : ColdBlobStore DirColdStore := {| blob_put := dir_put; blob_get := dir_get; blob_erase := dir_erase |}.
End Dir.

(** ** Not wired *)

Inductive UnwiredColdStore := Unwired.
Definition not_wired : ColdStoreError :=
  NotWired ("live cold object store binding (archive tier behind tier-agnostic cas: refs) is owner-gated provisioning; "
            +:+ "hermetic proofs use InMemoryColdStore/DirColdStore").
#[export] Instance unwired_store : ColdBlobStore UnwiredColdStore := {|
  blob_put s _ := (s, Err not_wired); blob_get s _ := (s, Err not_wired); blob_erase s _ _ := (s, Err not_wired) |}.

(** * What the interface promises *)

Record SpecStore := { content : gmap string (list byte + Tombstone) }.

Section Spec.
Context `{Crypto}.

Definition spec_put (s : SpecStore) (bytes : list byte) : SpecStore * result ColdStoreError string :=
  let r := cold_ref_for bytes in
  (match content s !! r with Some _ => s | None => {| content := <[r := inl bytes]> (content s) |} end, Ok r).
Definition spec_get (s : SpecStore) (r : string) : SpecStore * result ColdStoreError GetOutcome :=
  (s, _ ← ref_hash r;
      Ok match content s !! r with Some (inl b) => Present b | Some (inr t) => Erased t | None => Absent end).
Definition spec_erase (s : SpecStore) (r : string) (rec : TombstoneRecord) : SpecStore * result ColdStoreError Tombstone :=
  match ref_hash r with
  | Err e => (s, Err e)
  | Ok _ => let t := Tombstone_new r rec in ({| content := <[r := inr t]> (content s) |}, Ok t)
  end.
Definition spec_store : ColdBlobStore SpecStore := {| blob_put := spec_put; blob_get := spec_get; blob_erase := spec_erase |}.
End Spec.

Inductive BlobOp := OpPut (bytes : list byte) | OpGet (r : string) | OpErase (r : string) (rec : TombstoneRecord).
Inductive Answer :=
| PutAnswer (res : result ColdStoreError string)
| GetAnswer (res : result ColdStoreError GetOutcome)
| EraseAnswer (res : result ColdStoreError Tombstone).

Section Run.
Context {St} `{ColdBlobStore St}.

Definition blob_step (s : St) (op : BlobOp) : St * Answer :=
  match op with
  | OpPut b => let '(s, res) := blob_put s b in (s, PutAnswer res)
  | OpGet r => let '(s, res) := blob_get s r in (s, GetAnswer res)
  | OpErase r rec => let '(s, res) := blob_erase s r rec in (s, EraseAnswer res)
  end.
Fixpoint blob_run (s : St) (ops : list BlobOp) : St * list Answer :=
  match ops with
  | [] => (s, [])
  | op :: ops => let '(s, a) := blob_step s op in let '(s, l) := blob_run s ops in (s, a :: l)
  end.
End Run.

(** Step by step simulation: equal answers and related states. *)
Lemma run_simulates {A B} `{ColdBlobStore A} `{ColdBlobStore B} (R : A → B → Prop) (ok : BlobOp → Prop) :
  (∀ s t op, ok op → R s t → R (blob_step s op).1 (blob_step t op).1 ∧ (blob_step s op).2 = (blob_step t op).2) →
  ∀ ops s t, Forall ok ops → R s t → R (blob_run s ops).1 (blob_run t ops).1 ∧ (blob_run s ops).2 = (blob_run t ops).2.
Proof.
  intros Hstep. induction ops as [|op ops IH]; intros s t Hok HR; [done|]. apply Forall_cons in Hok as [Hop Hok].
  cbn [blob_run]. destruct (Hstep s t op Hop HR) as [HR' Ha].
  destruct (blob_step s op) as [s' a], (blob_step t op) as [t' b]. simpl in HR', Ha. subst b.
  destruct (IH s' t' Hok HR') as [HR'' Hl]. destruct (blob_run s' ops) as [s'' l], (blob_run t' ops) as [t'' l'].
  simpl in *. by subst.
Qed.

Lemma ref_hash_Ok r h : ref_hash r = Ok h ↔ r = COLD_REF_PREFIX +:+ h ∧ String.length h = 64%nat ∧ string_forall lower_hex h = true.
Proof.
  unfold ref_hash. destruct (strip_prefix COLD_REF_PREFIX r) as [h'|] eqn:E.
  - apply strip_prefix_Some in E as ->. destruct (String.length h' =? 64)%nat eqn:El; simpl.
    + apply Nat.eqb_eq in El. destruct (string_forall lower_hex h') eqn:Eh; split; try done.
      * by intros [= <-].
      * by intros (<-%string_app_inj_l & _).
      * intros (<-%string_app_inj_l & _ & ?). congruence.
    + apply Nat.eqb_neq in El. split; [done|]. by intros (<-%string_app_inj_l & ? & _).
  - split; [done|]. intros (Hr & _). apply strip_prefix_Some in Hr. congruence.
Qed.

Section Refine.
Context `{CryptoLaws} `{!HexLower}.
Existing Instance spec_store.

Lemma cold_ref_valid b : ref_hash (cold_ref_for b) = Ok (digest_hex b).
Proof. apply ref_hash_Ok. split_and!; [done|apply length_digest_hex|apply hex_encode_lower]. Qed.

(** ** The in-memory store implements it *)

Record mem_rel (a : SpecStore) (m : InMemoryColdStore) : Prop := {
  mem_live r b : content a !! r = Some (inl b) ↔ blobs m !! r = Some b;
  mem_dead r t : content a !! r = Some (inr t) ↔ tombstones m !! r = Some t;
  mem_addressed r b : content a !! r = Some (inl b) → cold_ref_for b = r;
}.

Lemma mem_rel_cases a m r : mem_rel a m →
  match content a !! r with
  | Some (inl b) => blobs m !! r = Some b ∧ tombstones m !! r = None ∧ cold_ref_for b = r
  | Some (inr t) => blobs m !! r = None ∧ tombstones m !! r = Some t
  | None => blobs m !! r = None ∧ tombstones m !! r = None
  end.
Proof.
  intros [Hl Hd Ha]. pose proof (Hl r). pose proof (Hd r). pose proof (Ha r).
  destruct (content a !! r) as [[b|t]|], (blobs m !! r), (tombstones m !! r); naive_solver.
Qed.

Lemma mem_step_refines a m op : mem_rel a m →
  mem_rel (blob_step a op).1 (blob_step m op).1 ∧ (blob_step a op).2 = (blob_step m op).2.
Proof.
  intros HR. destruct op as [b|r|r rec]; cbn.
  - pose proof (mem_rel_cases a m (cold_ref_for b) HR) as Hc. unfold mem_put. cbv zeta.
    destruct (content a !! cold_ref_for b) as [[b'|t]|] eqn:E.
    + destruct Hc as (Hb & Ht & _). rewrite Ht, Hb. by rewrite decide_False by (by intros []).
    + destruct Hc as (Hb & Ht). rewrite Ht. by rewrite decide_True by eauto.
    + destruct Hc as (Hb & Ht). rewrite Ht, Hb, decide_False by (by intros []). simpl. split; [|done].
      destruct HR as [Hl Hd Ha]. split; simpl; intros r x.
      * rewrite !lookup_insert. case_decide; subst; [naive_solver|apply Hl].
      * rewrite lookup_insert. case_decide; subst; [|apply Hd]. rewrite Ht. naive_solver.
      * rewrite lookup_insert. case_decide; subst; [|apply Ha]. by intros [= <-].
  - split; [done|]. pose proof (mem_rel_cases a m r HR) as Hc. unfold mem_get. destruct (ref_hash r); cbn [mbind result_bind]; [|done].
    destruct (content a !! r) as [[b|t]|].
    + destruct Hc as (-> & _ & ->). by rewrite decide_False by (by intros Hn; apply Hn).
    + by destruct Hc as (-> & ->).
    + by destruct Hc as (-> & ->).
  - unfold spec_erase, mem_erase. destruct (ref_hash r); [|done]. cbn. split; [|done].
    destruct HR as [Hl Hd Ha]. split; simpl; intros r' x.
    + rewrite lookup_insert, lookup_delete. case_decide; subst; [naive_solver|apply Hl].
    + rewrite !lookup_insert. case_decide; subst; [naive_solver|apply Hd].
    + rewrite lookup_insert. case_decide; [done|apply Ha].
Qed.

(** ** The directory implements it *)

Context `{TombstoneJsonLaws} (root pid : string).
Definition dir : ColdBlobStore DirColdStore := dir_store root pid.
Existing Instance dir.

Definition entry_bytes (x : list byte + Tombstone) : list byte :=
  match x with inl b => b | inr t => canonical_bytes t end.
(** What a file of the directory stands for. *)
Definition stands_for (r : string) (x : list byte + Tombstone) : Prop :=
  match x with
  | inl b => cold_ref_for b = r ∧ from_persisted b = None
  | inr t => erased_ref t = r
  end.
Record dir_rel (a : SpecStore) (d : DirColdStore) : Prop := {
  dir_files h : String.length h = 64%nat → files d !! h = entry_bytes <$> content a !! (COLD_REF_PREFIX +:+ h);
  dir_stands r x : content a !! r = Some x → is_ok (ref_hash r) = true ∧ stands_for r x;
  dir_healthy : Forall (λ e, e = None) (io d);
}.

Lemma strip_bytes_app p l : strip_bytes p (p ++ l) = Some l.
Proof. induction p as [|b p IH]; [done|]. simpl. by rewrite decide_True. Qed.
Lemma from_persisted_canonical t : from_persisted (canonical_bytes t) = Some t.
Proof. unfold from_persisted, canonical_bytes. rewrite strip_bytes_app. apply tombstone_roundtrip. Qed.

Lemma next_io_healthy d : Forall (λ e, e = None) (io d) →
  ∃ io', next_io d = (None, {| files := files d; io := io' |}) ∧ Forall (λ e, e = None) io'.
Proof.
  destruct d as [fs [|e io]]; intros Hio; [by eexists|]. apply Forall_cons in Hio as [-> Hio]. unfold next_io. simpl. eauto.
Qed.

(** Publishing puts the bytes under the name and changes no other name of a
    blob. *)
Lemma publish_healthy d tmp path what bytes :
  Forall (λ e, e = None) (io d) →
  ∃ d', publish root d tmp path what bytes = (d', Ok tt) ∧ Forall (λ e, e = None) (io d') ∧
    files d' = <[path := bytes]> (delete tmp (<[tmp := bytes]> (files d))).
Proof.
  intros Hio. unfold publish, fs_write. destruct (next_io_healthy d Hio) as (io1 & -> & Hio1). cbn [files io].
  unfold fs_rename. destruct (next_io_healthy {| files := <[tmp := bytes]> (files d); io := io1 |} Hio1) as (io2 & -> & Hio2).
  cbn [files io]. rewrite lookup_insert_eq. eexists. split; [done|]. done.
Qed.

Lemma published_lookup (m : gmap string (list byte)) tmp path bytes h :
  (64 < String.length tmp)%nat → String.length h = 64%nat →
  <[path := bytes]> (delete tmp (<[tmp := bytes]> m)) !! h = if decide (path = h) then Some bytes else m !! h.
Proof.
  intros Htmp Hh. rewrite lookup_insert. case_decide; [done|]. rewrite lookup_delete, lookup_insert.
  assert (tmp ≠ h) by (intros ->; lia). by rewrite !decide_False.
Qed.

Lemma dir_read a d h : dir_rel a d → String.length h = 64%nat →
  ∃ d', fs_read d h = (d', Ok (entry_bytes <$> content a !! (COLD_REF_PREFIX +:+ h))) ∧ dir_rel a d'.
Proof.
  intros [Hf Hs Hio] Hh. unfold fs_read. destruct (next_io_healthy d Hio) as (io' & -> & Hio'). cbn [files].
  rewrite Hf by done. eexists. split; [done|]. split; done.
Qed.

Definition no_tombstone_text (op : BlobOp) : Prop := match op with OpPut b => from_persisted b = None | _ => True end.

Lemma dir_published a d tmp h what x :
  dir_rel a d → (64 < String.length tmp)%nat → ref_hash (COLD_REF_PREFIX +:+ h) = Ok h → stands_for (COLD_REF_PREFIX +:+ h) x →
  ∃ d', publish root d tmp h what (entry_bytes x) = (d', Ok tt) ∧
    dir_rel {| content := <[COLD_REF_PREFIX +:+ h := x]> (content a) |} d'.
Proof.
  intros [Hf Hs Hio] Htmp Hh Hx. destruct (publish_healthy d tmp h what (entry_bytes x) Hio) as (d' & Hp & Hio' & Hfiles).
  exists d'. split; [done|]. split; [|intros r y|done].
  - intros h' Hh'. rewrite Hfiles, published_lookup by done. simpl. rewrite lookup_insert. case_decide as Hd.
    + subst h'. by rewrite decide_True.
    + rewrite decide_False by (by intros ->%string_app_inj_l). by apply Hf.
  - simpl. rewrite lookup_insert. case_decide as Hd; [|apply Hs]. intros [= <-]. subst r. by rewrite Hh.
Qed.

Lemma dir_step_refines a d op : no_tombstone_text op → dir_rel a d →
  dir_rel (blob_step a op).1 (blob_step d op).1 ∧ (blob_step a op).2 = (blob_step d op).2.
Proof.
  intros Hop HR. destruct op as [b|r|r rec]; cbn.
  - unfold dir_put. cbv zeta. rewrite cold_ref_valid. change (cold_ref_for b) with (COLD_REF_PREFIX +:+ digest_hex b) in *.
    rewrite (dir_files a d HR) by apply length_digest_hex.
    destruct (content a !! (COLD_REF_PREFIX +:+ digest_hex b)) as [x|] eqn:E; [done|].
    change (entry_bytes <$> None) with (@None (list byte)). rewrite decide_False by (by intros []).
    {
      edestruct (dir_published a d (digest_hex b +:+ ".tmp-" +:+ pid) (digest_hex b) "publishing" (inl b)) as (d' & Hp & HR');
        [done|rewrite length_string_app, length_digest_hex; simpl; lia|apply cold_ref_valid|done|]. simpl in Hp. rewrite Hp. done. }
  - unfold spec_get, dir_get. destruct (ref_hash r) as [h|] eqn:Eh; cbn [mbind result_bind]; [|done].
    pose proof Eh as (-> & Hlen & _)%ref_hash_Ok. destruct (dir_read a d h HR Hlen) as (d' & -> & HR').
    destruct (content a !! (COLD_REF_PREFIX +:+ h)) as [x|] eqn:E; simpl; [|done].
    apply (dir_stands a d HR) in E as [_ Hx]. destruct x as [b|t]; simpl in *.
    + destruct Hx as [Hb ->]. simpl. rewrite Hb. by rewrite decide_False by (by intros Hn; apply Hn).
    + rewrite from_persisted_canonical. simpl. by rewrite decide_False by (by intros Hn; apply Hn).
  - unfold spec_erase, dir_erase. destruct (ref_hash r) as [h|] eqn:Eh; cbn; [|done].
    pose proof Eh as (-> & Hlen & _)%ref_hash_Ok.
    edestruct (dir_published a d (h +:+ ".tombstone.tmp-" +:+ pid) h "publishing tombstone" (inr (Tombstone_new (COLD_REF_PREFIX +:+ h) rec)))
      as (d' & Hp & HR'); [done|rewrite length_string_app, Hlen; simpl; lia|done|done|].
    simpl in Hp. rewrite Hp. done.
Qed.

(** C18. The two stores answer every sequence of calls alike, as the interface
    promises, as long as the file system works and no stored text has itself the
    form of a tombstone. *)
Theorem stores_refine ops d :
  Forall no_tombstone_text ops → files d = ∅ → Forall (λ e, e = None) (io d) →
  let answers := (blob_run {| content := ∅ |} ops).2 in
  (blob_run InMemoryColdStore_new ops).2 = answers ∧ (blob_run d ops).2 = answers.
Proof.
  intros Hops Hd Hio. cbv zeta. split; symmetry.
  - eapply (run_simulates mem_rel (λ _, True)); [intros; by apply mem_step_refines|by apply Forall_true|].
    split; intros r x; simpl; rewrite !lookup_empty; naive_solver.
  - eapply (run_simulates dir_rel no_tombstone_text); [intros; by apply dir_step_refines|done|].
    split; [|intros r x; simpl; by rewrite lookup_empty|done]. intros h _. rewrite Hd. simpl. by rewrite !lookup_empty.
Qed.
End Refine.

(** * Erasure is for ever *)

Section Erasure.
Context `{CryptoLaws}.
Existing Instance spec_store.

(** What an erased reference answers after any further calls. *)
Lemma spec_erased_answer (s : SpecStore) r rec t s' ops :
  blob_erase s r rec = (s', Ok t) → (∀ rec', OpErase r rec' ∉ ops) →
  (blob_get (blob_run s' ops).1 r).2 = Ok (Erased t).
Proof.
  intros He Hno. cbn in He. unfold spec_erase in He. destruct (ref_hash r) as [h|] eqn:Eh; [|done]. cbv zeta in He.
  assert (s' = {| content := <[r := inr t]> (content s) |}) as -> by congruence. clear He.
  set (s' := {| content := _ |}).
  assert (content s' !! r = Some (inr t)) as Hr by (subst s'; simpl; by rewrite lookup_insert_eq).
  assert (content (blob_run s' ops).1 !! r = Some (inr t)) as Ht'; [|cbn; rewrite Eh; cbn [mbind result_bind]; by rewrite Ht'].
  clearbody s'. clear Eh. revert s' Hr. induction ops as [|op ops IH]; intros s' Hr; [done|].
  assert (content (blob_step s' op).1 !! r = Some (inr t)) as Hr1.
  { destruct op as [b|r'|r' rec']; cbn; [|done|].
    - destruct (content s' !! cold_ref_for b) eqn:E; cbn; [done|]. by rewrite lookup_insert_ne by congruence.
    - unfold spec_erase. destruct (ref_hash r'); cbn; [|done]. rewrite lookup_insert_ne; [done|].
      intros ->. by apply (Hno rec'), list_elem_of_here. }
  specialize (IH (λ rec' Hin, Hno rec' (list_elem_of_further _ _ _ Hin)) _ Hr1). cbn [blob_run].
  destruct (blob_step s' op) as [s1 a]. simpl in IH |- *. by destruct (blob_run s1 ops).
Qed.
End Erasure.

Section ErasureMem.
Context `{CryptoLaws} `{!HexLower}.

(** In the in-memory store, after an erasure the reference gives its tombstone
    whatever is stored, read or erased elsewhere next: neither the bytes nor a
    miss, even when the very same bytes are stored again. *)
Theorem erased_for_ever (before after : list BlobOp) (m : InMemoryColdStore) r rec t :
  blob_erase (blob_run InMemoryColdStore_new before).1 r rec = (m, Ok t) →
  (∀ rec', OpErase r rec' ∉ after) →
  (blob_get (blob_run m after).1 r).2 = Ok (Erased t).
Proof.
  intros He Hno.
  assert (∀ ops (a : SpecStore) (m : InMemoryColdStore), mem_rel a m →
    mem_rel (@blob_run _ spec_store a ops).1 (blob_run m ops).1) as Hrun.
  { intros ops a0 m0 HR. eapply (run_simulates mem_rel (λ _, True)); [intros; by apply mem_step_refines|by apply Forall_true|done]. }
  assert (mem_rel {| content := ∅ |} InMemoryColdStore_new) as Hnew
    by (split; intros ? x; simpl; rewrite !lookup_empty; naive_solver).
  specialize (Hrun before _ _ Hnew) as HR. set (a := (@blob_run _ spec_store {| content := ∅ |} before).1) in *.
  destruct (mem_step_refines a _ (OpErase r rec) HR) as [HR' Ha].
  cbn in He, HR', Ha. unfold mem_erase in He, HR', Ha. destruct (ref_hash r) as [h|] eqn:Eh; [|done]. cbv zeta in He.
  unfold spec_erase in HR', Ha. rewrite Eh in HR', Ha. cbn in HR', Ha. injection He as <- <-.
  pose proof (Hrun after _ _ HR') as HR2.
  destruct (mem_step_refines _ _ (OpGet r) HR2) as [_ Hg]. cbn in Hg. injection Hg as Hg. cbn. rewrite <- Hg.
  apply (spec_erased_answer a r rec); [|done]. cbn. unfold spec_erase. by rewrite Eh.
Qed.
End ErasureMem.

Module BlobsExample.
Import Toy.

(** A tombstone as the bits of its number. *)
Fixpoint bits (p : positive) : list byte :=
  match p with xH => [] | xO p => x00 :: bits p | xI p => x01 :: bits p end.
Fixpoint of_bits (l : list byte) : positive :=
  match l with [] => xH | x01 :: l => xI (of_bits l) | _ :: l => xO (of_bits l) end.
Definition fields (t : Tombstone) : string * (string * N * string) * string :=
  (erased_ref t, (requested_by (record t), requested_at_unix (record t), policy_ref (record t)), marker t).
Definition of_fields (f : string * (string * N * string) * string) : Tombstone :=
  let '(r, (by_, at_, p), m) := f in
  {| erased_ref := r; record := {| requested_by := by_; requested_at_unix := at_; policy_ref := p |}; marker := m |}.
#[export] Instance json : TombstoneJson := {|
  tombstone_to_vec t := bits (encode (fields t)); tombstone_from_slice l := of_fields <$> decode (of_bits l) |}.
#[export] Instance json_laws : TombstoneJsonLaws.
Proof.
  split. intros t. simpl. assert (∀ p, of_bits (bits p) = p) as Hb by (induction p; simpl; congruence).
  rewrite Hb, decode_encode. by destruct t as [? [] ?].
Qed.
#[export] Instance hex_lower : HexLower.
Proof.
  split. intros d. change (string_forall lower_hex (Toy.hex_encode d) = true).
  induction d as [|b d IH]; [done|]. cbn [Toy.hex_encode string_forall]. rewrite IH. by destruct b.
Qed.

Definition secret : list byte := as_bytes "transcript".
Definition secret_ref : string := cold_ref_for secret.
Definition request : TombstoneRecord := {| requested_by := "legal"; requested_at_unix := 7; policy_ref := "p" |}.
Definition calls : list BlobOp := [OpPut secret; OpGet secret_ref; OpErase secret_ref request; OpPut secret; OpGet secret_ref; OpGet "x"].
Definition empty_dir : DirColdStore := {| files := ∅; io := [] |}.

Lemma stores_refine_witness :
  (blob_run InMemoryColdStore_new calls).2 = (@blob_run _ (dir "/c" "1") empty_dir calls).2 ∧
  (blob_run InMemoryColdStore_new calls).2 !! 4%nat = Some (GetAnswer (Ok (Erased (Tombstone_new secret_ref request)))).
Proof.
  split; [|vm_compute; reflexivity].
  destruct (stores_refine "/c" "1" calls empty_dir) as [H1 H2]; [|reflexivity|constructor|].
  - repeat constructor; vm_compute; reflexivity.
  - rewrite H1. symmetry. exact H2.
Defined.

Lemma erased_for_ever_witness :
  (blob_get (blob_run (blob_erase (blob_run InMemoryColdStore_new [OpPut secret]).1 secret_ref request).1 [OpPut secret]).1 secret_ref).2
  = Ok (Erased (Tombstone_new secret_ref request)).
Proof.
  apply (erased_for_ever [OpPut secret] [OpPut secret] _ secret_ref request (Tombstone_new secret_ref request)).
  - vm_compute. reflexivity.
  - intros rec' Hin. apply list_elem_of_singleton in Hin. discriminate Hin.
Defined.

(** A stored text that has itself the form of a tombstone: the directory takes
    it for one and refuses the read, the in-memory store gives it back. *)
Definition forged : list byte := canonical_bytes (Tombstone_new "elsewhere" request).
Example forged_tombstone_lost :
  (blob_run InMemoryColdStore_new [OpPut forged; OpGet (cold_ref_for forged)]).2
    = [PutAnswer (Ok (cold_ref_for forged)); GetAnswer (Ok (Present forged))] ∧
  (@blob_run _ (dir "/c" "1") empty_dir [OpPut forged; OpGet (cold_ref_for forged)]).2
    = [PutAnswer (Ok (cold_ref_for forged)); GetAnswer (Err (DigestMismatch (cold_ref_for forged) "elsewhere"))].
Proof. split; vm_compute; reflexivity. Qed.
End BlobsExample.
