(* ===== verification/Price.v ===== *)
(** The price card and the cost of a token count, from
    [crates/hugit-contracts/src/model_price_card.rs], with the token counts of
    [context_envelope.rs].

    Rates are kept in pico-dollars per token so that every published rate is a
    whole number; the cost is accumulated with checked [u64] arithmetic and
    divided down to micro-dollars at the end.  [cost_micros_exact] says what is
    returned, for every card, model and count. *)

From S2P Require Import Prelude.

Record TokenCounts := { input : N; output : N; cache_read : N; cache_write : N; total : N }.
Definition zero_tokens : TokenCounts := {| input := 0; output := 0; cache_read := 0; cache_write := 0; total := 0 |}.
#[export] Instance TokenCounts_eq_dec : EqDecision TokenCounts.
Proof. solve_decision. Defined.

Definition PRICE_CARD_VERSION : string := "pc-2026-07".
Definition PICO_PER_MICRO : N := 1000000.
Definition USD_PER_MTOK_TO_PICO_PER_TOKEN : N := 1000000.

Record PerTokenMicros := { rate_input : N; rate_output : N; rate_cache_read : N; rate_cache_write : N }.

Definition CENTS_TO_PICO : N := USD_PER_MTOK_TO_PICO_PER_TOKEN / 100.
Definition from_cents_per_mtok (input_cents output_cents cache_read_cents cache_write_cents : N) : PerTokenMicros :=
  {| rate_input := input_cents * CENTS_TO_PICO; rate_output := output_cents * CENTS_TO_PICO;
     rate_cache_read := cache_read_cents * CENTS_TO_PICO; rate_cache_write := cache_write_cents * CENTS_TO_PICO |}.

Record ModelPriceCard := { version : string; rates : list (string * PerTokenMicros) }.

Definition rate (card : ModelPriceCard) (model_id : string) : option PerTokenMicros :=
  snd <$> List.find (λ e, bool_decide (e.1 = model_id)) (rates card).

Definition CURRENT : ModelPriceCard := {|
  version := PRICE_CARD_VERSION;
  rates :=
    [("claude-opus-4-8", from_cents_per_mtok 500 2500 50 625);
     ("claude-sonnet-4-6", from_cents_per_mtok 300 1500 30 375);
     ("claude-haiku-4-5-20251001", from_cents_per_mtok 100 500 10 125);
     ("claude-haiku-4-5", from_cents_per_mtok 100 500 10 125);
     ("claude-fable-5", from_cents_per_mtok 1000 5000 100 1250)]
|}.

Definition cost_micros (card : ModelPriceCard) (model_id : string) (tokens : TokenCounts) : option N :=
  rate ← rate card model_id;
  a ← u64_checked_mul (input tokens) (rate_input rate);
  b ← u64_checked_mul (output tokens) (rate_output rate);
  ab ← u64_checked_add a b;
  c ← u64_checked_mul (cache_read tokens) (rate_cache_read rate);
  abc ← u64_checked_add ab c;
  d ← u64_checked_mul (cache_write tokens) (rate_cache_write rate);
  pico ← u64_checked_add abc d;
  Some (pico / PICO_PER_MICRO).

(** * What it costs *)

(** The invoice in pico-dollars, over unbounded integers. *)
Definition pico_cost (r : PerTokenMicros) (t : TokenCounts) : N :=
  input t * rate_input r + output t * rate_output r + cache_read t * rate_cache_read r + cache_write t * rate_cache_write r.

(** Every product and every partial sum is at most the whole sum, so the checks
    pass exactly when the whole sum fits. *)
Lemma cost_micros_Some card m t c : cost_micros card m t = Some c ↔
  ∃ r, rate card m = Some r ∧ pico_cost r t ≤ u64_max ∧ c = pico_cost r t / PICO_PER_MICRO.
Proof.
  unfold cost_micros, pico_cost. split.
  - intros (r & Hr & (a & (-> & Ha)%u64_checked_mul_Some & (b & (-> & Hb)%u64_checked_mul_Some & (ab & (-> & Hab)%u64_checked_add_Some
      & (x & (-> & Hx)%u64_checked_mul_Some & (abx & (-> & Habx)%u64_checked_add_Some & (d & (-> & Hd)%u64_checked_mul_Some
      & (p & (-> & Hp)%u64_checked_add_Some & [= <-])%bind_Some)%bind_Some)%bind_Some)%bind_Some)%bind_Some)%bind_Some)%bind_Some)%bind_Some.
    exists r. done.
  - intros (r & Hr & Hle & ->). rewrite Hr. simpl. unfold u64_checked_mul, u64_checked_add.
    repeat (rewrite (proj2 (N.leb_le _ _)) by lia; simpl). done.
Qed.

Lemma rate_elem card m r : rate card m = Some r → (m, r) ∈ rates card.
Proof.
  unfold rate. intros ((k & r') & Hf & ->)%fmap_Some. apply find_some in Hf as [Hin Heq].
  apply bool_decide_eq_true in Heq. simpl in Heq. subst. by apply list_elem_of_In.
Qed.

(** C40. A cost is given exactly for the models the card lists, by their own name,
    whose whole cost in pico-dollars fits; it is then the exact sum of tokens
    times published rates, rounded down to micro-dollars.  An unknown model and
    an overflow give nothing, never another rate and never a wrapped figure. *)
Theorem cost_micros_exact card m t :
  match cost_micros card m t with
  | Some c => ∃ r, (m, r) ∈ rates card ∧ pico_cost r t ≤ u64_max ∧
      c * PICO_PER_MICRO ≤ pico_cost r t < (c + 1) * PICO_PER_MICRO
  | None => m ∉ (rates card).*1 ∨ ∃ r, (m, r) ∈ rates card ∧ u64_max < pico_cost r t
  end.
Proof.
  destruct (cost_micros card m t) as [c|] eqn:E.
  - apply cost_micros_Some in E as (r & Hr & Hle & ->). exists r. split; [by apply rate_elem|]. split; [done|].
    unfold PICO_PER_MICRO. split; [rewrite N.mul_comm; by apply N.Div0.mul_div_le|].
    rewrite N.mul_comm, N.add_1_r. by apply N.mul_succ_div_gt.
  - destruct (rate card m) as [r|] eqn:Er.
    + right. exists r. split; [by apply rate_elem|]. apply N.nle_gt. intros Hle.
      assert (is_Some (cost_micros card m t)) as [x Hx]; [|congruence]. eexists. by apply cost_micros_Some; eauto.
    + left. intros ((k & r) & -> & Hin)%list_elem_of_fmap. unfold rate in Er. apply fmap_None in Er.
      apply list_elem_of_In in Hin. pose proof (find_none _ _ Er _ Hin) as Hf. by apply bool_decide_eq_false in Hf.
Qed.

(** The rates of the current card are the published dollars per million tokens:
    a million tokens of each sort cost the four prices together. *)
Example a_million_of_each :
  (λ m, cost_micros CURRENT m {| input := 1000000; output := 1000000; cache_read := 1000000; cache_write := 1000000; total := 0 |})
    <$> ["claude-opus-4-8"; "claude-sonnet-4-6"; "claude-haiku-4-5"; "claude-fable-5"; "gpt"]
  = [Some 36750000; Some 22050000; Some 7350000; Some 73500000; None].
Proof. vm_compute. reflexivity. Qed.
