(* ===== verification/Envelope.v ===== *)
(** The context envelope: what is captured when an authored unit closes, from
    [crates/hugit-contracts/src/context_envelope.rs] and
    [crates/hugit-ledger/src/envelope/mod.rs].

    A recorder measures the run; closing gates by the capture level, redacts,
    stores the transcripts and the prompt in a cold blob store, and stores the
    envelope itself under the reference that is handed out.  Closing is written
    against the store interface of [Blobs]; [AddsOnly] is what the redaction
    theorem needs from a store, and every store has it, the directory even while
    its file system fails.  The derived JSON form of the envelope is the class
    [EnvelopeJson]; the clock is an argument. *)

From S2P Require Import Prelude Text Scan Json Crypto Blobs Secret Price.

(** * The record *)

Definition CONTEXT_ENVELOPE_SCHEMA_VERSION : string := "1.2.0".

Inductive Altitude := Intent | Pr | Campaign | Session.
#[export] Instance Altitude_eq_dec : EqDecision Altitude.
Proof. solve_decision. Defined.

Record Spawn := { run_id : string; parent_run_id : option string; born_at : N; died_at : N }.
Record Authorship := {
  model : string; model_digest : string; agent_type : string; spawn : Spawn; operator : string }.
Record Trajectory := {
  raw_transcript_ref : option string; task_transcript_ref : option string; summary : option string;
  journal_ref : option string; redaction_policy : string }.
Record FileRead := { path : string; hash : string }.
Record Snapshot := { files_read : list FileRead; prompt_ref : option string; env_manifest : string }.
Record ToolCount := { tool : string; count : N }.
Record IntentMetrics := {
  tokens : TokenCounts; wall_ms : N; active_ms : N; tool_calls : N; tool_breakdown : list ToolCount;
  model_turns : N; cost_usd_micros : N }.
Record ContextEnvelope := {
  schema_version : string; altitude : Altitude; intent_id : string; commit : string; tree_hash : string;
  authorship : Authorship; charter : string; campaign : option string; constraints : list string;
  acceptance : list string; parent_intents : list string; trajectory : Trajectory; snapshot : Snapshot;
  metrics : IntentMetrics; verdicts_ref : option string }.

Record OrchestrationCost := { o_tokens : N; o_tool_calls : N; o_turns : N; o_cost_usd_micros : N }.
Record WasteCost := { discarded_intents : N; retried_agents : N; tokens_not_landed : N; w_cost_usd_micros : N }.

(** * The recorder *)

(** A [Duration] is a number of nanoseconds; adding past its largest value
    panics. *)
Definition duration_max : N := u64_max * 1000000000 + 999999999.
Definition duration_add (a b : N) : option N := if a + b <=? duration_max then Some (a + b) else None.
Definition millis (ns : N) : N := N.min (ns / 1000000) u64_max.

Record TrajectoryRecorder := {
  r_born_at : N; r_active : N; r_raw : list string; r_task : list string; r_tool_counts : list (string * N);
  r_model_turns : N; r_tokens : TokenCounts }.

Definition recorder_start (now : N) : TrajectoryRecorder := {|
  r_born_at := now; r_active := 0; r_raw := []; r_task := []; r_tool_counts := []; r_model_turns := 0;
  r_tokens := zero_tokens |}.

Definition record_turn (r : TrajectoryRecorder) (raw_event : string) (busy : N) : option TrajectoryRecorder :=
  active ← duration_add (r_active r) busy;
  Some {| r_born_at := r_born_at r; r_active := active; r_raw := r_raw r ++ [raw_event]; r_task := r_task r;
          r_tool_counts := r_tool_counts r; r_model_turns := u64_add (r_model_turns r) 1; r_tokens := r_tokens r |}.

Definition record_tool_call (r : TrajectoryRecorder) (tool raw_event : string) (busy : N) : option TrajectoryRecorder :=
  active ← duration_add (r_active r) busy;
  Some {| r_born_at := r_born_at r; r_active := active; r_raw := r_raw r ++ [raw_event]; r_task := r_task r;
          r_tool_counts := obj_insert tool (u64_add (default 0 (obj_get tool (r_tool_counts r))) 1) (r_tool_counts r);
          r_model_turns := r_model_turns r; r_tokens := r_tokens r |}.

Definition record_task_event (r : TrajectoryRecorder) (event : string) : TrajectoryRecorder := {|
  r_born_at := r_born_at r; r_active := r_active r; r_raw := r_raw r ++ [event]; r_task := r_task r ++ [event];
  r_tool_counts := r_tool_counts r; r_model_turns := r_model_turns r; r_tokens := r_tokens r |}.

Definition add_tokens (r : TrajectoryRecorder) (i o cr cw : N) : TrajectoryRecorder :=
  let t := r_tokens r in {|
  r_born_at := r_born_at r; r_active := r_active r; r_raw := r_raw r; r_task := r_task r;
  r_tool_counts := r_tool_counts r; r_model_turns := r_model_turns r;
  r_tokens := {| input := u64_add (input t) i; output := u64_add (output t) o; cache_read := u64_add (cache_read t) cr;
                 cache_write := u64_add (cache_write t) cw;
                 total := u64_add (total t) (u64_add (u64_add (u64_add i o) cr) cw) |} |}.

Record RecordedTrajectory := {
  t_born_at : N; t_died_at : N; raw_transcript : list string; task_transcript : list string; t_metrics : IntentMetrics }.

Definition finish (r : TrajectoryRecorder) (elapsed cost : N) : RecordedTrajectory := {|
  t_born_at := r_born_at r;
  t_died_at := u64_add (r_born_at r) (millis elapsed);
  raw_transcript := r_raw r; task_transcript := r_task r;
  t_metrics := {|
    tokens := r_tokens r; wall_ms := millis elapsed; active_ms := millis (r_active r);
    tool_calls := foldl u64_add 0 (r_tool_counts r).*2;
    tool_breakdown := (λ '(tool, count), {| tool := tool; count := count |}) <$> r_tool_counts r;
    model_turns := r_model_turns r; cost_usd_micros := cost |} |}.

Inductive RecorderEvent :=
| Turn (raw_event : string) (busy : N)
| ToolCall (tool raw_event : string) (busy : N)
| TaskEvent (event : string)
| Spend (i o cr cw : N).
Definition record_event (r : TrajectoryRecorder) (e : RecorderEvent) : option TrajectoryRecorder :=
  match e with
  | Turn s busy => record_turn r s busy
  | ToolCall t s busy => record_tool_call r t s busy
  | TaskEvent s => Some (record_task_event r s)
  | Spend i o cr cw => Some (add_tokens r i o cr cw)
  end.
Fixpoint record_all (r : TrajectoryRecorder) (l : list RecorderEvent) : option TrajectoryRecorder :=
  match l with [] => Some r | e :: l => r ← record_event r e; record_all r l end.

(** * Closing *)

Definition REDACTION_POLICY_DEFAULT : string := "default-v1".

Inductive CaptureLevel := Off | Metrics | Task | Full.
Definition level_rank (l : CaptureLevel) : nat := match l with Off => 0 | Metrics => 1 | Task => 2 | Full => 3 end.
Definition level_ge (a b : CaptureLevel) : bool := (level_rank b <=? level_rank a)%nat.
Definition level_as_str (l : CaptureLevel) : string :=
  match l with Off => "off" | Metrics => "metrics" | Task => "task" | Full => "full" end.
Definition level_parse (s : string) : option CaptureLevel :=
  if decide (s = "off") then Some Off
  else if decide (s = "metrics") then Some Metrics
  else if decide (s = "task") then Some Task
  else if decide (s = "full") then Some Full
  else None.

Inductive EnvelopeError :=
| Store (e : ColdStoreError)
| NotASessionAltitude (a : Altitude)
| TwoTranscriptViolation (a : Altitude) (missing : string)
| Serialize (msg : string).

Record EnvelopeDraft := {
  d_altitude : Altitude; d_unit_id : string; d_commit : string; d_tree_hash : string; d_authorship : Authorship;
  d_charter : string; d_campaign : option string; d_constraints : list string; d_acceptance : list string;
  d_parent_intents : list string; d_raw_transcript : list string; d_raw_transcript_ref : option string;
  d_task_transcript : list string; d_task_transcript_ref : option string; d_summary : string;
  d_journal_ref : option string; d_files_read : list FileRead; d_prompt : option string; d_env_manifest : string;
  d_metrics : IntentMetrics; d_verdicts_ref : option string }.

Record ClosedEnvelope := { envelope : ContextEnvelope; context_ref : string }.
Record SessionEmission := {
  s_envelope : ContextEnvelope; envelope_ref : string; orchestration : OrchestrationCost; waste : WasteCost }.

(** The derived JSON form of an envelope. *)
Class EnvelopeJson := {
  envelope_to_string : ContextEnvelope → result string string;
  envelope_from_str : string → option ContextEnvelope;
}.
Class EnvelopeJsonLaws `{EnvelopeJson} := {
  envelope_roundtrip e : ∃ s, envelope_to_string e = Ok s ∧ envelope_from_str s = Some e;
}.

Definition zero_metrics : IntentMetrics := {|
  tokens := zero_tokens; wall_ms := 0; active_ms := 0; tool_calls := 0; tool_breakdown := []; model_turns := 0;
  cost_usd_micros := 0 |}.

Section Close.
Context `{Libm} `{EnvelopeJson} {St} `{ColdBlobStore St}.

Definition redact_transcript (lines : list string) : string := join_char newline (redact_apply <$> lines).
Definition redact_each (items : list string) : list string := redact_apply <$> items.

Definition put_text (store : St) (text : string) : St * result EnvelopeError string :=
  let '(store, res) := blob_put store (as_bytes text) in (store, map_err Store res).

(** A transcript reference: the one supplied, or the stored transcript. *)
Definition transcript_ref (store : St) (supplied : option string) (wanted : bool) (lines : list string)
    : St * result EnvelopeError (option string) :=
  match supplied with
  | Some r => (store, Ok (Some r))
  | None =>
      if wanted && negb (bool_decide (lines = [])) then
        let '(store, res) := put_text store (redact_transcript lines) in (store, Some <$> res)
      else (store, Ok None)
  end.

Definition missing_transcripts (raw task : option string) : option string :=
  match raw, task with
  | None, None => Some "raw_transcript_ref and task_transcript_ref"
  | None, Some _ => Some "raw_transcript_ref"
  | Some _, None => Some "task_transcript_ref"
  | Some _, Some _ => None
  end.

Definition build_envelope (draft : EnvelopeDraft) (level : CaptureLevel) (raw task prompt : option string) : ContextEnvelope :=
  let a := d_authorship draft in {|
  schema_version := CONTEXT_ENVELOPE_SCHEMA_VERSION; altitude := d_altitude draft; intent_id := d_unit_id draft;
  commit := d_commit draft; tree_hash := d_tree_hash draft;
  authorship := {| model := model a; model_digest := model_digest a; agent_type := agent_type a; spawn := spawn a;
                   operator := redact_apply (operator a) |};
  charter := redact_apply (d_charter draft); campaign := redact_apply <$> d_campaign draft;
  constraints := redact_each (d_constraints draft); acceptance := redact_each (d_acceptance draft);
  parent_intents := redact_each (d_parent_intents draft);
  trajectory := {|
    raw_transcript_ref := raw; task_transcript_ref := task;
    summary := if level_ge level Task then Some (redact_apply (d_summary draft)) else None;
    journal_ref := d_journal_ref draft; redaction_policy := REDACTION_POLICY_DEFAULT |};
  snapshot := {|
    files_read := (λ f, {| path := redact_apply (path f); hash := hash f |}) <$> d_files_read draft;
    prompt_ref := prompt; env_manifest := redact_apply (d_env_manifest draft) |};
  metrics := if level_ge level Metrics then d_metrics draft else zero_metrics;
  verdicts_ref := d_verdicts_ref draft |}.

Definition close_envelope (draft : EnvelopeDraft) (level : CaptureLevel) (store : St) : St * result EnvelopeError ClosedEnvelope :=
  match transcript_ref store (d_raw_transcript_ref draft) (level_ge level Full) (d_raw_transcript draft) with
  | (store, Err e) => (store, Err e)
  | (store, Ok raw) =>
  match transcript_ref store (d_task_transcript_ref draft) (level_ge level Task) (d_task_transcript draft) with
  | (store, Err e) => (store, Err e)
  | (store, Ok task) =>
  let stored_prompt :=
    match level_ge level Full, d_prompt draft with
    | true, Some p => let '(store, res) := put_text store (redact_apply p) in (store, Some <$> res)
    | _, _ => (store, Ok None)
    end in
  match stored_prompt with
  | (store, Err e) => (store, Err e)
  | (store, Ok prompt) =>
  match (if level_ge level Full then missing_transcripts raw task else None) with
  | Some missing => (store, Err (TwoTranscriptViolation (d_altitude draft) missing))
  | None =>
  let envelope := build_envelope draft level raw task prompt in
  match envelope_to_string envelope with
  | Err e => (store, Err (Serialize e))
  | Ok bytes =>
      let '(store, res) := put_text store bytes in
      (store, (λ context_ref, {| envelope := envelope; context_ref := context_ref |}) <$> res)
  end end end end end.

Definition close_session_envelope (draft : EnvelopeDraft) (level : CaptureLevel) (store : St) (waste : WasteCost)
    : St * result EnvelopeError SessionEmission :=
  if decide (d_altitude draft = Intent) then (store, Err (NotASessionAltitude (d_altitude draft)))
  else
    let '(store, closed) := close_envelope draft level store in
    (store, (λ c,
       let m := metrics (envelope c) in
       {| s_envelope := envelope c; envelope_ref := context_ref c;
          orchestration := {| o_tokens := total (tokens m); o_tool_calls := tool_calls m; o_turns := model_turns m;
                              o_cost_usd_micros := cost_usd_micros m |};
          waste := waste |}) <$> closed).
End Close.

(** * The measured run *)

Definition raw_line (e : RecorderEvent) : option string :=
  match e with Turn s _ | ToolCall _ s _ | TaskEvent s => Some s | Spend _ _ _ _ => None end.
Definition task_line (e : RecorderEvent) : option string := match e with TaskEvent s => Some s | _ => None end.
Definition is_turn (e : RecorderEvent) : bool := match e with Turn _ _ => true | _ => false end.
Definition is_call (e : RecorderEvent) : bool := match e with ToolCall _ _ _ => true | _ => false end.
Definition is_call_of (t : string) (e : RecorderEvent) : bool :=
  match e with ToolCall t' _ _ => bool_decide (t' = t) | _ => false end.
Definition busy_time (e : RecorderEvent) : N := match e with Turn _ b | ToolCall _ _ b => b | _ => 0 end.
Definition spent (e : RecorderEvent) : N := match e with Spend i o cr cw => i + o + cr + cw | _ => 0 end.

Definition how_many (p : RecorderEvent → bool) (l : list RecorderEvent) : N := N.of_nat (length (List.filter p l)).
Definition sum_of (f : RecorderEvent → N) (l : list RecorderEvent) : N := foldr (λ e n, f e + n) 0 l.

(** Reduction to 64 bits. *)
Definition u64 (n : N) : N := n mod 18446744073709551616.

Lemma u64_add_u64_l a b : u64_add (u64 a) b = u64 (a + b).
Proof. apply N.Div0.add_mod_idemp_l. Qed.
Lemma u64_add_u64_r a b : u64_add a (u64 b) = u64 (a + b).
Proof. apply N.Div0.add_mod_idemp_r. Qed.
Lemma u64_add_def a b : u64_add a b = u64 (a + b).
Proof. done. Qed.

Lemma record_all_snoc r l e : record_all r (l ++ [e]) = (r ← record_all r l; record_event r e).
Proof.
  revert r. induction l as [|x l IH]; intros r; simpl.
  - by destruct (record_event r e).
  - destruct (record_event r x); simpl; [apply IH|done].
Qed.

Lemma how_many_snoc p l e : how_many p (l ++ [e]) = how_many p l + (if p e then 1 else 0).
Proof. unfold how_many. rewrite List.filter_app, length_app. simpl. destruct (p e); simpl; lia. Qed.
Lemma sum_of_snoc f l e : sum_of f (l ++ [e]) = sum_of f l + f e.
Proof. induction l as [|x l IH]; simpl; [lia|]. rewrite IH. lia. Qed.

Definition sum_counts (m : list (string * N)) : N := foldl u64_add 0 m.*2.

Lemma foldl_u64_add n l : foldl u64_add (u64 n) l = u64 (n + foldr N.add 0 l).
Proof.
  revert n. induction l as [|x l IH]; intros n; simpl; [by rewrite N.add_0_r|].
  rewrite u64_add_u64_l, IH. f_equal. lia.
Qed.
Lemma sum_counts_def m : sum_counts m = u64 (foldr N.add 0 m.*2).
Proof. apply (foldl_u64_add 0). Qed.

(** Counting one more call of a tool. *)
Lemma sum_counts_insert t m : obj_sorted m →
  sum_counts (obj_insert t (u64_add (default 0 (obj_get t m)) 1) m) = u64_add (sum_counts m) 1.
Proof.
  intros Hs. rewrite !sum_counts_def, u64_add_u64_l.
  induction m as [|[k v] m IH]; [done|]. inversion Hs as [|? ? Hs' Hall]; subst. simpl in *.
  destruct (String.compare t k) eqn:E; simpl.
  - apply String.compare_eq_iff in E as ->. rewrite decide_True by done. simpl.
    rewrite u64_add_def. unfold u64. rewrite N.Div0.add_mod_idemp_l. f_equal. lia.
  - apply key_lt_compare in E. rewrite decide_False by (by apply key_lt_ne).
    rewrite obj_get_None_lt by (eapply Forall_impl; [exact Hall|]; intros; by etrans). simpl.
    rewrite u64_add_def. unfold u64. rewrite N.Div0.add_mod_idemp_l. f_equal. lia.
  - apply compare_Gt_key_lt, key_lt_ne in E. rewrite decide_False by congruence.
    apply (f_equal (u64_add v)) in IH; [|done]. rewrite !u64_add_u64_r in IH. rewrite <- N.add_assoc. exact IH.
Qed.

(** What the recorder holds after the events [l]. *)
Record recorded (now : N) (l : list RecorderEvent) (r : TrajectoryRecorder) : Prop := {
  rec_born : r_born_at r = now;
  rec_active : r_active r = sum_of busy_time l;
  rec_raw : r_raw r = omap raw_line l;
  rec_task : r_task r = omap task_line l;
  rec_sorted : obj_sorted (r_tool_counts r);
  rec_counts t : default 0 (obj_get t (r_tool_counts r)) = u64 (how_many (is_call_of t) l);
  rec_called t : is_Some (obj_get t (r_tool_counts r)) ↔ how_many (is_call_of t) l ≠ 0;
  rec_calls : sum_counts (r_tool_counts r) = u64 (how_many is_call l);
  rec_turns : r_model_turns r = u64 (how_many is_turn l);
  rec_total : total (r_tokens r) = u64 (sum_of spent l);
}.

Lemma omap_snoc {A B} (f : A → option B) l x : omap f (l ++ [x]) = omap f l ++ option_list (f x).
Proof. rewrite omap_app. simpl. by destruct (f x). Qed.

Lemma record_event_recorded now l r e r' : recorded now l r → record_event r e = Some r' → recorded now (l ++ [e]) r'.
Proof.
  intros [Hb Ha Hr Ht Hs Hc Hk Hcs Hm Hto] He.
  destruct e as [s b|t s b|s|i o cr cw]; simpl in He; unfold record_turn, record_tool_call, duration_add in He;
    [destruct (_ <=? _); [|done]..| |]; simpl in He; inv_eqs;
    (split; simpl; intros; rewrite ?omap_snoc, ?how_many_snoc, ?sum_of_snoc, ?app_nil_r; simpl;
     rewrite ?N.add_0_r, ?u64_add_def; try done; try congruence); try (by rewrite Ha); try (by rewrite Hr); try (by rewrite Ht).
  - rewrite Hm. apply u64_add_u64_l.
  - by apply obj_sorted_insert.
  - rewrite obj_get_insert. case_decide; subst.
    + rewrite bool_decide_true by done. simpl. rewrite Hc. unfold u64. by rewrite N.Div0.add_mod_idemp_l.
    + rewrite bool_decide_false by congruence. by rewrite N.add_0_r.
  - rewrite obj_get_insert. case_decide; subst.
    + rewrite bool_decide_true by done. split; [lia|eauto].
    + rewrite bool_decide_false by congruence. by rewrite N.add_0_r.
  - rewrite <- u64_add_def, sum_counts_insert by done. rewrite Hcs. apply u64_add_u64_l.
  - rewrite Hto, <- !u64_add_def, u64_add_u64_l. rewrite (u64_add_def i o), !u64_add_u64_l. unfold u64.
    apply N.Div0.add_mod_idemp_r.
Qed.

Lemma record_all_recorded now l r : record_all (recorder_start now) l = Some r → recorded now l r.
Proof.
  revert r. induction l as [|e l IH] using rev_ind; intros r Hr.
  - simpl in Hr. inv_eqs. split; try done; [constructor|]. intros t. simpl. split; [by intros []|done].
  - rewrite record_all_snoc in Hr. apply bind_Some in Hr as (r0 & H0 & He). eauto using record_event_recorded.
Qed.

(** The bounds within which no counter wraps. *)
Definition run_in_range (l : list RecorderEvent) : Prop :=
  N.of_nat (length l) ≤ u64_max ∧ sum_of spent l ≤ u64_max ∧ sum_of busy_time l ≤ duration_max.

Lemma u64_small n : n ≤ u64_max → u64 n = n.
Proof. unfold u64, u64_max. intros. apply N.mod_small. lia. Qed.
Lemma how_many_le p l : how_many p l ≤ N.of_nat (length l).
Proof. unfold how_many. pose proof (List.filter_length_le p l). lia. Qed.
Lemma how_many_small p l : run_in_range l → u64 (how_many p l) = how_many p l.
Proof. intros [Hl _]. pose proof (how_many_le p l). apply u64_small. lia. Qed.

Lemma record_all_total now l : run_in_range l → is_Some (record_all (recorder_start now) l).
Proof.
  intros (_ & _ & Hb). induction l as [|e l IH] using rev_ind; [by eexists|].
  rewrite sum_of_snoc in Hb. destruct IH as [r Hr]; [lia|]. rewrite record_all_snoc, Hr. simpl.
  pose proof (rec_active _ _ _ (record_all_recorded _ _ _ Hr)) as Ha.
  destruct e; simpl in *; unfold record_turn, record_tool_call, duration_add; rewrite ?Ha; try (by eexists);
    rewrite (proj2 (N.leb_le _ _)) by done; by eexists.
Qed.

Lemma elem_of_obj_get {V} (m : list (string * V)) k v : NoDup m.*1 → (k, v) ∈ m → obj_get k m = Some v.
Proof.
  induction m as [|[k' v'] m IH]; simpl; intros Hnd Hin; [by apply elem_of_nil in Hin|]. apply NoDup_cons in Hnd as [Hk Hnd].
  apply elem_of_cons in Hin as [[= -> ->]|Hin]; [by rewrite decide_True|]. rewrite decide_False; [by apply IH|].
  intros ->. apply Hk, list_elem_of_fmap. by exists (k', v).
Qed.
Lemma task_sublist l : omap task_line l `sublist_of` omap raw_line l.
Proof. induction l as [|[] l IH]; simpl; try by constructor. done. Qed.

(** A run within the bounds is always recorded, and what is reported of it is
    what happened: the raw track is every turn, call and task event in order,
    the task track is contained in it in order, each tool that was called is
    listed once with the number of its calls, and the totals are the sums. *)
Theorem recording_measures now l elapsed cost : run_in_range l →
  ∃ r, record_all (recorder_start now) l = Some r ∧
    let t := finish r elapsed cost in let m := t_metrics t in
    raw_transcript t = omap raw_line l ∧ task_transcript t = omap task_line l ∧
    task_transcript t `sublist_of` raw_transcript t ∧
    tool_calls m = how_many is_call l ∧ model_turns m = how_many is_turn l ∧
    total (tokens m) = sum_of spent l ∧ active_ms m = millis (sum_of busy_time l) ∧
    NoDup (tool <$> tool_breakdown m) ∧
    ∀ name n, {| tool := name; count := n |} ∈ tool_breakdown m ↔ n ≠ 0 ∧ n = how_many (is_call_of name) l.
Proof.
  intros Hl. destruct (record_all_total now l Hl) as [r Hr]. exists r. split; [done|]. cbv zeta.
  apply record_all_recorded in Hr as [_ Ha Hra Ht Hs Hc Hk Hcs Hm Hto]. simpl.
  rewrite Ha, Hra, Ht, Hm, Hto. change (foldl u64_add 0 (r_tool_counts r).*2) with (sum_counts (r_tool_counts r)).
  rewrite Hcs, !how_many_small, u64_small by (done || apply Hl). split_and!; try done; [apply task_sublist| |].
  - apply obj_sorted_NoDup in Hs. by rewrite <- list_fmap_compose, (list_fmap_ext _ fst) by (by intros ? [] _).
  - intros name n. rewrite list_elem_of_fmap. specialize (Hc name). specialize (Hk name). rewrite how_many_small in Hc by done.
    rewrite <- Hc in Hk |- *. split.
    + intros ([k v] & [= -> ->] & Hin). assert (obj_get k (r_tool_counts r) = Some v) as Hg.
      { by apply elem_of_obj_get; [apply obj_sorted_NoDup|]. }
      rewrite Hg in Hk |- *. simpl in *. split; [apply Hk; eauto|done].
    + intros [Hn ->]. exists (name, default 0 (obj_get name (r_tool_counts r))). split; [done|].
      apply Hk in Hn as [v Hv]. rewrite Hv. simpl. by apply obj_get_elem_of.
Qed.

(** * Nothing secret is stored *)

(** The texts of an envelope that come from an author. *)
Definition author_text (e : ContextEnvelope) : list string :=
  operator (authorship e) :: charter e :: env_manifest (snapshot e) ::
  option_list (campaign e) ++ option_list (summary (trajectory e)) ++
  constraints e ++ acceptance e ++ parent_intents e ++ (path <$> files_read (snapshot e)).

(** What closing asks of a store: the bytes at rest after a [put] were there
    before or are those it was given. *)
Class AtRest (St : Type) := { held : St → list byte → Prop }.
Class AddsOnly (St : Type) `{ColdBlobStore St} `{AtRest St} := {
  put_adds_only (s s' : St) b res b' : blob_put s b = (s', res) → held s' b' → held s b' ∨ b' = b;
}.

#[export] Instance mem_at_rest : AtRest InMemoryColdStore := {| held s b := ∃ r, blobs s !! r = Some b |}.
#[export] Instance dir_at_rest : AtRest DirColdStore := {| held s b := ∃ name, files s !! name = Some b |}.
#[export] Instance unwired_at_rest : AtRest UnwiredColdStore := {| held _ _ := False |}.

#[export] Instance mem_adds_only `{Crypto} : AddsOnly InMemoryColdStore.
Proof.
  split. intros s s' b res b' Hp [r Hr]. simpl in Hp. unfold mem_put in Hp. cbv zeta in Hp.
  case_decide; [inv_eqs; left; by exists r|]. destruct (blobs s !! cold_ref_for b); inv_eqs; simpl in *; [left; by exists r|].
  rewrite lookup_insert in Hr. case_decide; inv_eqs; [by right|left; by exists r].
Qed.
#[export] Instance unwired_adds_only : AddsOnly UnwiredColdStore.
Proof. split. by intros s s' b res b' _ []. Qed.

Lemma next_io_files s e s' : next_io s = (e, s') → files s' = files s.
Proof. unfold next_io. destruct (io s); intros; by inv_eqs. Qed.

(** The directory holds nothing else even when a write or a rename fails. *)
Lemma publish_adds root s tmp path what b s' res name b' :
  publish root s tmp path what b = (s', res) → files s' !! name = Some b' → (∃ n, files s !! n = Some b') ∨ b' = b.
Proof.
  intros Hp Hn. unfold publish, fs_write in Hp.
  destruct (next_io s) as [[e|] s1] eqn:E1; pose proof (next_io_files _ _ _ E1) as F1; inv_eqs;
    [rewrite F1 in Hn; left; by exists name|].
  unfold fs_rename in Hp.
  destruct (next_io _) as [[e|] s2] eqn:E2 in Hp; pose proof (next_io_files _ _ _ E2) as F2; simpl in F2; inv_eqs.
  - rewrite F2, lookup_insert in Hn. case_decide; inv_eqs; [by right|]. rewrite F1 in Hn. left. by exists name.
  - rewrite F2, lookup_insert_eq in Hp. inv_eqs. simpl in Hn. rewrite lookup_insert, lookup_delete, lookup_insert in Hn.
    case_decide; inv_eqs; [by right|]. case_decide; inv_eqs. rewrite F1 in Hn. left. by exists name.
Qed.
Lemma dir_adds_only `{Crypto} `{TombstoneJson} root pid : @AddsOnly DirColdStore (dir root pid) _.
Proof.
  split. intros s s' b res b' Hp [name Hn]. simpl in Hp. unfold dir_put in Hp. cbv zeta in Hp.
  destruct (ref_hash (cold_ref_for b)) as [h|]; [|inv_eqs; left; by exists name].
  case_decide; [inv_eqs; left; by exists name|].
  destruct (publish _ _ _ _ _ _) as [s1 [[]|]] eqn:Ep; inv_eqs; by eapply publish_adds.
Qed.

Section Redacted.
Context `{Libm} `{EnvelopeJson} {St} `{AddsOnly St}.
Implicit Types s : St.

Inductive redacted_blob (draft : EnvelopeDraft) (b : list byte) : Prop :=
| blob_transcript lines : Forall (λ l, is_secret l = false) lines →
    lines = redact_each (d_raw_transcript draft) ∨ lines = redact_each (d_task_transcript draft) →
    b = as_bytes (join_char newline lines) → redacted_blob draft b
| blob_prompt text : is_secret text = false → b = as_bytes text → redacted_blob draft b
| blob_envelope e text : Forall (λ t, is_secret t = false) (author_text e) →
    envelope_to_string e = Ok text → b = as_bytes text → redacted_blob draft b.

Definition grows draft s s' : Prop := ∀ b, held s' b → held s b ∨ redacted_blob draft b.
#[local] Instance grows_refl draft : Reflexive (grows draft).
Proof. intros s b. by left. Qed.
#[local] Instance grows_trans draft : Transitive (grows draft).
Proof. intros s1 s2 s3 H12 H23 b Hb. destruct (H23 b Hb) as [Hb2|]; [by apply H12|by right]. Qed.

Lemma redact_each_clean l : Forall (λ t, is_secret t = false) (redact_each l).
Proof. apply Forall_fmap, Forall_true. intros x. apply redact_apply_clean. Qed.

Lemma put_text_grows draft s text s' res : put_text s text = (s', res) → redacted_blob draft (as_bytes text) → grows draft s s'.
Proof.
  unfold put_text. destruct (blob_put s (as_bytes text)) as [s1 r] eqn:E. intros Hp Hr b Hb. inv_eqs.
  destruct (put_adds_only _ _ _ _ _ E Hb) as [ | -> ]; auto.
Qed.
Lemma transcript_ref_grows draft s supplied wanted lines s' res :
  lines = d_raw_transcript draft ∨ lines = d_task_transcript draft →
  transcript_ref s supplied wanted lines = (s', res) → grows draft s s'.
Proof.
  unfold transcript_ref. intros Hlines Ht. destruct supplied; [by inv_eqs|]. destruct (wanted && _); [|by inv_eqs].
  destruct (put_text s _) as [s1 r] eqn:E. inv_eqs. eapply put_text_grows; [exact E|].
  apply (blob_transcript _ _ (redact_each lines)); [apply redact_each_clean| |done].
  by destruct Hlines as [->| ->]; [left|right].
Qed.

Lemma build_envelope_clean draft level raw task prompt :
  Forall (λ t, is_secret t = false) (author_text (build_envelope draft level raw task prompt)).
Proof.
  unfold author_text. simpl. repeat (apply Forall_cons; split; [apply redact_apply_clean|]).
  repeat (apply Forall_app; split); try apply redact_each_clean.
  - destruct (d_campaign draft); simpl; repeat constructor. apply redact_apply_clean.
  - destruct (level_ge level Task); simpl; repeat constructor. apply redact_apply_clean.
  - rewrite <- list_fmap_compose. apply Forall_fmap, Forall_true. intros f. apply redact_apply_clean.
Qed.

(** C19. Whatever the level, the draft and the outcome, errors of the store included:
    every blob at rest after closing was there before, or is a transcript whose
    lines are all redacted, or a redacted prompt, or an envelope whose author
    texts are all redacted; and so are those of the envelope returned. *)
Theorem close_stores_redacted draft level s s' res : close_envelope draft level s = (s', res) →
  (∀ b, held s' b → held s b ∨ redacted_blob draft b) ∧
  ∀ c, res = Ok c → Forall (λ t, is_secret t = false) (author_text (envelope c)).
Proof.
  unfold close_envelope. intros Hc. change (∀ b, held s' b → held s b ∨ redacted_blob draft b) with (grows draft s s').
  destruct (transcript_ref s _ _ _) as [s1 [raw|e]] eqn:E1; apply transcript_ref_grows with (draft := draft) in E1; auto;
    [|inv_eqs; by split].
  destruct (transcript_ref s1 _ _ _) as [s2 [task|e]] eqn:E2; apply transcript_ref_grows with (draft := draft) in E2; auto;
    [|inv_eqs; split; [by etrans|done]].
  cbv zeta in Hc. match type of Hc with match ?m with _ => _ end = _ => destruct m as [s3 p] eqn:E3 end.
  assert (grows draft s2 s3) as G3.
  { destruct (level_ge level Full), (d_prompt draft) as [t|]; inv_eqs; try done.
    destruct (put_text s2 _) as [s4 r] eqn:E. inv_eqs. eapply put_text_grows; [exact E|].
    by eapply blob_prompt; [apply redact_apply_clean|]. }
  assert (grows draft s s3) as G by (by repeat (etrans; [eassumption|])).
  destruct p as [prompt|e]; [|inv_eqs; by split].
  match type of Hc with match ?m with _ => _ end = _ => destruct m; [inv_eqs; by split|] end.
  destruct (envelope_to_string _) as [text|e] eqn:Et; [|inv_eqs; by split].
  destruct (put_text s3 text) as [s4 r] eqn:E4. inv_eqs. split.
  - etrans; [exact G|]. eapply put_text_grows; [exact E4|]. by eapply blob_envelope; [apply build_envelope_clean|exact Et|].
  - intros c Hr. destruct r; simpl in Hr; inv_eqs. simpl. apply build_envelope_clean.
Qed.
End Redacted.

(** * The outcome of closing, and reading it back *)

Section Outcome.
Context `{CryptoLaws} `{!HexLower} `{Libm} `{EnvelopeJsonLaws}.
Implicit Types s : InMemoryColdStore.

(** The reference of a transcript, from the draft and the level alone. *)
Definition expected_ref (supplied : option string) (wanted : bool) (lines : list string) : option string :=
  match supplied with
  | Some r => Some r
  | None => if wanted && negb (bool_decide (lines = [])) then Some (cold_ref_for (as_bytes (redact_transcript lines))) else None
  end.
Definition raw_expected (draft : EnvelopeDraft) (level : CaptureLevel) : option string :=
  expected_ref (d_raw_transcript_ref draft) (level_ge level Full) (d_raw_transcript draft).
Definition task_expected (draft : EnvelopeDraft) (level : CaptureLevel) : option string :=
  expected_ref (d_task_transcript_ref draft) (level_ge level Task) (d_task_transcript draft).

(** The states the store goes through when nothing is erased: every blob sits
    under its own reference. *)
Definition addressed s : Prop := tombstones s = ∅ ∧ ∀ r b, blobs s !! r = Some b → cold_ref_for b = r.

Lemma mem_put_addressed s b : addressed s →
  ∃ s', mem_put s b = (s', Ok (cold_ref_for b)) ∧ addressed s' ∧
    (∃ b', blobs s' !! cold_ref_for b = Some b') ∧ blobs s ⊆ blobs s'.
Proof.
  intros [Ht Ha]. unfold mem_put. cbv zeta. rewrite Ht, lookup_empty, decide_False by (by intros []).
  destruct (blobs s !! cold_ref_for b) as [b'|] eqn:E; [exists s; split_and!; [done|by split|by exists b'|done]|].
  eexists. split; [done|]. split; [split; [done|]|split; [|by apply insert_subseteq]].
  - intros r b'. simpl. rewrite lookup_insert. case_decide; [by intros [= <-]|apply Ha].
  - exists b. simpl. apply lookup_insert_eq.
Qed.
Lemma put_text_addressed s t : addressed s →
  ∃ s', put_text s t = (s', Ok (cold_ref_for (as_bytes t))) ∧ addressed s' ∧
    (∃ b', blobs s' !! cold_ref_for (as_bytes t) = Some b') ∧ blobs s ⊆ blobs s'.
Proof.
  intros Ha. destruct (mem_put_addressed s (as_bytes t) Ha) as (s' & Hp & Hrest). exists s'.
  unfold put_text. simpl. by rewrite Hp.
Qed.
Lemma transcript_ref_addressed s supplied wanted lines : addressed s →
  ∃ s', transcript_ref s supplied wanted lines = (s', Ok (expected_ref supplied wanted lines)) ∧ addressed s' ∧ blobs s ⊆ blobs s'.
Proof.
  intros Ha. unfold transcript_ref, expected_ref. destruct supplied; [by exists s|]. destruct (wanted && _); [|by exists s].
  destruct (put_text_addressed s (redact_transcript lines) Ha) as (s' & -> & Ha' & _ & Hsub). by exists s'.
Qed.

(** The missing transcripts of a full capture. *)
Definition violation (draft : EnvelopeDraft) (level : CaptureLevel) : option string :=
  if level_ge level Full then missing_transcripts (raw_expected draft level) (task_expected draft level) else None.

Lemma close_outcome_eq draft level s : addressed s →
  ∃ s', addressed s' ∧
  match violation draft level with
  | Some m => close_envelope draft level s = (s', Err (TwoTranscriptViolation (d_altitude draft) m))
  | None =>
      ∃ prompt text, let e := build_envelope draft level (raw_expected draft level) (task_expected draft level) prompt in
      envelope_to_string e = Ok text ∧ envelope_from_str text = Some e ∧
      close_envelope draft level s = (s', Ok {| envelope := e; context_ref := cold_ref_for (as_bytes text) |}) ∧
      ∃ b', blobs s' !! cold_ref_for (as_bytes text) = Some b'
  end.
Proof.
  intros Ha. unfold close_envelope.
  destruct (transcript_ref_addressed s (d_raw_transcript_ref draft) (level_ge level Full) (d_raw_transcript draft) Ha) as (s1 & -> & Ha1 & _).
  destruct (transcript_ref_addressed s1 (d_task_transcript_ref draft) (level_ge level Task) (d_task_transcript draft) Ha1) as (s2 & -> & Ha2 & _).
  fold (raw_expected draft level) (task_expected draft level). cbv zeta.
  match goal with |- context [match ?m with (_, _) => _ end] => assert (∃ s3 p, m = (s3, Ok p) ∧ addressed s3) as (s3 & prompt & -> & Ha3) end.
  { destruct (level_ge level Full), (d_prompt draft) as [t|]; try by exists s2, None.
    destruct (put_text_addressed s2 (redact_apply t) Ha2) as (s3 & -> & Ha3 & _). simpl. eauto. }
  fold (violation draft level). destruct (violation draft level) as [m|]; [by exists s3|].
  destruct (envelope_roundtrip (build_envelope draft level (raw_expected draft level) (task_expected draft level) prompt)) as (text & Ht & Hr).
  destruct (put_text_addressed s3 text Ha3) as (s4 & Hp & Ha4 & Hb & _). exists s4. split; [done|]. exists prompt, text. cbv zeta.
  rewrite Ht, Hp. done.
Qed.

(** Closing into memory fails exactly when the capture is full and one of the
    two transcripts is missing; otherwise the envelope carries, at full capture,
    both references, each the one supplied or the address of the redacted
    transcript, and its reference reads back to that very envelope (or exhibits
    two texts with one digest). *)
Theorem close_outcome draft level s : addressed s →
  match close_envelope draft level s with
  | (_, Err e) => level = Full ∧ ∃ m, e = TwoTranscriptViolation (d_altitude draft) m ∧
      (raw_expected draft Full = None ∨ task_expected draft Full = None)
  | (s', Ok c) =>
      let t := trajectory (envelope c) in
      raw_transcript_ref t = raw_expected draft level ∧ task_transcript_ref t = task_expected draft level ∧
      (level = Full → is_Some (raw_transcript_ref t) ∧ is_Some (task_transcript_ref t)) ∧
      ∃ b, mem_get s' (context_ref c) = Ok (Present b) ∧
        (envelope_from_str (String.string_of_list_byte b) = Some (envelope c) ∨ ∃ b', collision b b')
  end.
Proof.
  intros Ha. destruct (close_outcome_eq draft level s Ha) as (s' & Ha' & Hc).
  destruct (violation draft level) as [m|] eqn:Ev.
  - rewrite Hc. unfold violation in Ev. destruct level; try done. split; [done|]. exists m. split; [done|].
    cbn [level_ge level_rank Nat.leb] in Ev. unfold missing_transcripts in Ev.
    destruct (raw_expected draft Full), (task_expected draft Full); auto. done.
  - destruct Hc as (prompt & text & Ht & Hr & Hc & b & Hb). rewrite Hc. cbv zeta. simpl. split_and!; [done..| |].
    + intros ->. unfold violation in Ev. simpl in Ev. destruct (raw_expected _ _), (task_expected _ _); naive_solver.
    + exists b. destruct Ha' as [Htomb Haddr]. pose proof (Haddr _ _ Hb) as Hd. split.
      * unfold mem_get. rewrite cold_ref_valid. cbn [mbind result_bind]. rewrite Hb, decide_False by (intros Hn; by apply Hn). done.
      * unfold cold_ref_for in Hd. apply string_app_inj_l, digest_hex_eq in Hd as [->|Hcol]; [|by eauto].
        left. by rewrite String.string_of_list_byte_of_string.
Qed.
End Outcome.

Module EnvelopeExample.
Import Toy BlobsExample Log2.

(** An envelope as the number of its fields, in binary. *)
Definition alt_code (a : Altitude) : N := match a with Intent => 0 | Pr => 1 | Campaign => 2 | Session => 3 end.
Definition code_alt (n : N) : Altitude := match n with 0 => Intent | 1 => Pr | 2 => Campaign | _ => Session end.
Definition fields (e : ContextEnvelope) :=
  let a := authorship e in let sp := spawn a in let t := trajectory e in let sn := snapshot e in let m := metrics e in
  let k := tokens m in
  ((schema_version e, alt_code (altitude e), intent_id e, commit e, tree_hash e),
   (model a, model_digest a, agent_type a, (run_id sp, parent_run_id sp, born_at sp, died_at sp), operator a),
   (charter e, campaign e, constraints e, acceptance e, parent_intents e),
   (raw_transcript_ref t, task_transcript_ref t, summary t, journal_ref t, redaction_policy t),
   ((λ f, (path f, hash f)) <$> files_read sn, prompt_ref sn, env_manifest sn),
   ((input k, output k, cache_read k, cache_write k, total k), wall_ms m, active_ms m, tool_calls m,
    (λ c, (tool c, count c)) <$> tool_breakdown m, model_turns m, cost_usd_micros m),
   verdicts_ref e).
Definition of_fields (f : ltac:(let T := type of fields in match T with _ → ?R => exact R end)) : ContextEnvelope :=
  let '((sv, al, id, co, tr), (mo, md, at_, (ru, pa, bo, di), op), (ch, ca, cs, ac, pi), (rt, tt_, su, jo, rp),
        (fr, pr, em), ((i, o, cr, cw, to), wa, ac_, tc, tb, mt, cu), ve) := f in
  {| schema_version := sv; altitude := code_alt al; intent_id := id; commit := co; tree_hash := tr;
     authorship := {| model := mo; model_digest := md; agent_type := at_;
                      spawn := {| run_id := ru; parent_run_id := pa; born_at := bo; died_at := di |}; operator := op |};
     charter := ch; campaign := ca; constraints := cs; acceptance := ac; parent_intents := pi;
     trajectory := {| raw_transcript_ref := rt; task_transcript_ref := tt_; summary := su; journal_ref := jo; redaction_policy := rp |};
     snapshot := {| files_read := (λ '(p, h), {| path := p; hash := h |}) <$> fr; prompt_ref := pr; env_manifest := em |};
     metrics := {| tokens := {| input := i; output := o; cache_read := cr; cache_write := cw; total := to |};
                   wall_ms := wa; active_ms := ac_; tool_calls := tc;
                   tool_breakdown := (λ '(t, c), {| tool := t; count := c |}) <$> tb; model_turns := mt; cost_usd_micros := cu |};
     verdicts_ref := ve |}.
Fixpoint digits (p : positive) : string :=
  match p with xH => "" | xO p => String "0" (digits p) | xI p => String "1" (digits p) end.
Fixpoint of_digits (s : string) : positive :=
  match s with EmptyString => xH | String "1" s => xI (of_digits s) | String _ s => xO (of_digits s) end.
#[export] Instance envelope_json : EnvelopeJson := {|
  envelope_to_string e := Ok (digits (encode (fields e)));
  envelope_from_str s := of_fields <$> decode (of_digits s) |}.
#[export] Instance envelope_json_laws : EnvelopeJsonLaws.
Proof.
  split. intros e. eexists. split; [done|]. simpl.
  assert (∀ p, of_digits (digits p) = p) as Hd by (induction p; simpl; congruence).
  rewrite Hd, decode_encode. simpl. f_equal.
  destruct e as [? al ? ? ? [? ? ? [] ?] ? ? ? ? ? [] [fr ? ?] [[] ? ? ? tb ? ?] ?]. simpl. f_equal; [by destruct al|f_equal|f_equal].
  - rewrite <- list_fmap_compose. rewrite <- (list_fmap_id fr) at 2. apply list_fmap_ext. by intros ? [] _.
  - rewrite <- list_fmap_compose. rewrite <- (list_fmap_id tb) at 2. apply list_fmap_ext. by intros ? [] _.
Qed.

Definition draft : EnvelopeDraft := {|
  d_altitude := Pr; d_unit_id := "pr-1"; d_commit := ""; d_tree_hash := "";
  d_authorship := {| model := "m"; model_digest := ""; agent_type := "main";
    spawn := {| run_id := "r"; parent_run_id := None; born_at := 0; died_at := 0 |}; operator := "ghp_0123" |};
  d_charter := "land it"; d_campaign := Some "c"; d_constraints := []; d_acceptance := []; d_parent_intents := [];
  d_raw_transcript := ["plan"; "password=hunter2"]; d_raw_transcript_ref := None; d_task_transcript := ["plan"];
  d_task_transcript_ref := None; d_summary := "done"; d_journal_ref := None; d_files_read := []; d_prompt := Some "go";
  d_env_manifest := ""; d_metrics := zero_metrics; d_verdicts_ref := None |}.

Lemma recording_measures_witness : ∃ r,
  record_all (recorder_start 5) [Turn "a" 2000000; ToolCall "Bash" "b" 1; TaskEvent "c"; Spend 1 2 3 4] = Some r ∧
  tool_calls (t_metrics (finish r 0 0)) = 1 ∧ raw_transcript (finish r 0 0) = ["a"; "b"; "c"].
Proof.
  destruct (recording_measures 5 [Turn "a" 2000000; ToolCall "Bash" "b" 1; TaskEvent "c"; Spend 1 2 3 4] 0 0) as (r & Hr & H1 & _ & _ & H2 & _).
  - split_and!; vm_compute; discriminate.
  - exists r. split; [exact Hr|]. split; [rewrite H2; reflexivity|rewrite H1; reflexivity].
Defined.

Definition transcript_blob : list byte := as_bytes (redact_transcript (d_raw_transcript draft)).
Lemma close_stores_redacted_witness :
  let s := (close_envelope draft Full InMemoryColdStore_new).1 in
  held s transcript_blob ∧ (held InMemoryColdStore_new transcript_blob ∨ redacted_blob draft transcript_blob).
Proof.
  assert (held (close_envelope draft Full InMemoryColdStore_new).1 transcript_blob) as Hh.
  { exists (cold_ref_for transcript_blob). vm_compute. reflexivity. }
  destruct (close_envelope draft Full InMemoryColdStore_new) as [s res] eqn:E. simpl.
  split; [exact Hh|]. exact (proj1 (close_stores_redacted draft Full InMemoryColdStore_new s res E) _ Hh).
Defined.

Lemma new_addressed : addressed InMemoryColdStore_new.
Proof. split; [reflexivity|]. intros r b Hb. simpl in Hb. by rewrite lookup_empty in Hb. Qed.

Lemma close_outcome_witness :
  match close_envelope draft Full InMemoryColdStore_new with
  | (_, Ok c) => is_Some (raw_transcript_ref (trajectory (envelope c))) ∧ operator (authorship (envelope c)) = REDACTED
  | _ => False
  end.
Proof.
  pose proof (close_outcome draft Full InMemoryColdStore_new new_addressed) as Hc.
  assert (match close_envelope draft Full InMemoryColdStore_new with
          | (_, Ok c) => operator (authorship (envelope c)) = REDACTED | _ => False end) as Hok by (vm_compute; reflexivity).
  destruct (close_envelope draft Full InMemoryColdStore_new) as [s [c|e]]; [|exact Hok].
  destruct Hc as (_ & _ & Hb & _). split; [exact (proj1 (Hb eq_refl))|exact Hok].
Defined.

(** A supplied reference is kept at every level, although the documented table
    has no transcript reference below its level. *)
Definition supplied : EnvelopeDraft := {|
  d_altitude := Pr; d_unit_id := "pr-1"; d_commit := ""; d_tree_hash := ""; d_authorship := d_authorship draft;
  d_charter := ""; d_campaign := None; d_constraints := []; d_acceptance := []; d_parent_intents := [];
  d_raw_transcript := []; d_raw_transcript_ref := Some "cas:r"; d_task_transcript := []; d_task_transcript_ref := None;
  d_summary := ""; d_journal_ref := None; d_files_read := []; d_prompt := None; d_env_manifest := "";
  d_metrics := zero_metrics; d_verdicts_ref := None |}.
Example reference_kept_when_off :
  (λ c, raw_transcript_ref (trajectory (envelope c))) <$> (close_envelope supplied Off InMemoryColdStore_new).2 = Ok (Some "cas:r").
Proof. vm_compute. reflexivity. Qed.
End EnvelopeExample.
