(* ===== verification/Log.v ===== *)
(** The append-only, hash-chained event log:
    [crates/hugit-contracts/src/event_record.rs] and
    [crates/hugit-refstore/src/log/mod.rs].

    The length-prefixed field formats, the pre-images hashed or signed over
    them, and the [EventLog] with its append operations (the guarded append is
    in [Authz.v]).  [canonical_json] of the same source file is in [Json.v].

    The theorems: every pre-image format is injective as long as each field and
    each count fits the 32-bit prefix that frames it; appending puts exactly one
    record at the end, linked to the previous head, and changes nothing else;
    [push_record] keeps positions and sequence numbers equal. *)

From S2P Require Import Prelude Json Crypto.

(** * Data *)

Record EventRecord := {
  seq : N;
  prev_hash : string;
  this_hash : string;
  kind : string;
  principal_chain : list string;
  payload : string;
  recorded_at : N;
}.

#[global] Instance EventRecord_eq_dec : EqDecision EventRecord.
Proof. solve_decision. Defined.

Record EventLog := { records : list EventRecord }.

Inductive AppendError :=
| NonMonotonicSeq (expected got : N).

Definition GENESIS_PREV_HASH : string :=
  "0000000000000000000000000000000000000000000000000000000000000000".

(** The closed set of kinds an external-change emitter may append
    ([crates/hugit-refstore/src/intent/model/mod.rs]). *)
Inductive ExternalChangeKind := RefUpdate | RefDelete.

Definition as_kind (k : ExternalChangeKind) : string :=
  match k with
  | RefUpdate => "ref.update"
  | RefDelete => "ref.delete"
  end.

Definition INTENT_LANDED_KIND : string := "intent.landed".

(** * Field formats *)

(** [LP(s)]: a 4-byte big-endian [u32] byte length, then the bytes.  The
    length is cast with [as u32]. *)
Definition push_lp_field (buf : list byte) (field : string) : list byte :=
  let bytes := as_bytes field in
  buf ++ be_bytes 4 (as_u32 (N.of_nat (length bytes))) ++ bytes.

(** [VEC(v)]: a 4-byte big-endian element count, then each element as [LP]. *)
Definition push_vec_field (buf : list byte) (elems : list string) : list byte :=
  foldl push_lp_field
    (buf ++ be_bytes 4 (as_u32 (N.of_nat (length elems)))) elems.

Definition push_u64 (buf : list byte) (n : N) : list byte := buf ++ be_bytes 8 n.

(** * Pre-images *)

Definition this_hash_preimage (prev_hash kind : string) (principal_chain : list string)
    (payload : string) (seq : N) : list byte :=
  let buf := push_lp_field [] prev_hash in
  let buf := push_lp_field buf kind in
  let buf := push_vec_field buf principal_chain in
  let buf := push_lp_field buf payload in
  push_u64 buf seq.

Definition memo_key_preimage (tree_hash def_digest toolchain_digest : string) : list byte :=
  let buf := push_lp_field [] tree_hash in
  let buf := push_lp_field buf def_digest in
  push_lp_field buf toolchain_digest.

Definition attestation_sig_preimage (tree def runner model : string)
    (principal : list string) : list byte :=
  let buf := push_lp_field [] tree in
  let buf := push_lp_field buf def in
  let buf := push_lp_field buf runner in
  let buf := push_lp_field buf model in
  push_vec_field buf principal.

(** [i32::to_be_bytes]: two's complement. *)
Definition i32_be (z : Z) : list byte := be_bytes 4 (Z.to_N (z mod 4294967296)).

Definition result_binding_preimage_v2 (memo_key stdout_ref stderr_ref : string) (exit : Z)
    (artifacts : list (string * string)) : list byte :=
  let buf := push_lp_field [] memo_key in
  let buf := push_lp_field buf stdout_ref in
  let buf := push_lp_field buf stderr_ref in
  let buf := buf ++ i32_be exit in
  let buf := buf ++ be_bytes 4 (as_u32 (N.of_nat (length artifacts))) in
  foldl (λ buf '(path, digest), push_lp_field (push_lp_field buf path) digest)
    buf artifacts.

Definition intent_metrics_preimage (lease_id tenant : string)
    (input output cache_read cache_write total wall_ms active_ms tool_calls : N)
    (tool_breakdown : list (string * N)) (model_turns cost_usd_micros : N) : list byte :=
  let buf := push_lp_field [] lease_id in
  let buf := push_lp_field buf tenant in
  let buf := foldl push_u64 buf
    [input; output; cache_read; cache_write; total; wall_ms; active_ms; tool_calls] in
  let buf := buf ++ be_bytes 4 (as_u32 (N.of_nat (length tool_breakdown))) in
  let buf := foldl (λ buf '(tool, count), push_u64 (push_lp_field buf tool) count)
    buf tool_breakdown in
  let buf := push_u64 buf model_turns in
  push_u64 buf cost_usd_micros.

Definition compute_this_hash `{Crypto} (prev_hash kind : string)
    (principal_chain : list string) (payload : string) (seq : N) : string :=
  digest_hex (this_hash_preimage prev_hash kind principal_chain payload seq).

Definition compute_memo_key `{Crypto} (tree_hash def_digest toolchain_digest : string)
    : string :=
  digest_hex (memo_key_preimage tree_hash def_digest toolchain_digest).

(** The frozen formula on a record's own fields, as the verifier recomputes it. *)
Definition recompute `{Crypto} (r : EventRecord) : string :=
  compute_this_hash (prev_hash r) (kind r) (principal_chain r) (payload r) (seq r).

(** * The log *)

Definition EventLog_new : EventLog := {| records := [] |}.
Definition log_len (log : EventLog) : nat := length (records log).
Definition log_is_empty (log : EventLog) : bool :=
  match records log with [] => true | _ => false end.

Definition head_hash (log : EventLog) : string :=
  match last (records log) with
  | Some r => this_hash r
  | None => GENESIS_PREV_HASH
  end.

(** The record [EventLog::append] builds for a log. *)
Definition next_record `{Crypto} (log : EventLog) (kind : string)
    (principal_chain : list string) (payload : string) (recorded_at : N) : EventRecord :=
  let seq := N.of_nat (log_len log) in
  let prev := head_hash log in
  {| seq := seq;
     prev_hash := prev;
     this_hash := compute_this_hash prev kind principal_chain payload seq;
     kind := kind;
     principal_chain := principal_chain;
     payload := payload;
     recorded_at := recorded_at |}.

Definition append `{Crypto} (log : EventLog) (kind : string) (principal_chain : list string)
    (payload : string) (recorded_at : N) : EventLog * EventRecord :=
  let record := next_record log kind principal_chain payload recorded_at in
  ({| records := records log ++ [record] |}, record).

Definition append_external_change `{Crypto} (log : EventLog) (k : ExternalChangeKind)
    (principal_chain : list string) (payload : string) (recorded_at : N)
    : EventLog * EventRecord :=
  append log (as_kind k) principal_chain payload recorded_at.

Definition push_record (log : EventLog) (record : EventRecord)
    : result AppendError EventLog :=
  let expected := N.of_nat (log_len log) in
  if decide (seq record ≠ expected) then
    Err (NonMonotonicSeq expected (seq record))
  else Ok {| records := records log ++ [record] |}.

(** Rehydration of a persisted chain: [push_record] in order. *)
Fixpoint push_records (log : EventLog) (rs : list EventRecord)
    : result AppendError EventLog :=
  match rs with
  | [] => Ok log
  | r :: rs => log ← push_record log r; push_records log rs
  end.

(** * The formats are injective *)

(** A string whose length fits the [u32] prefix. *)
Definition fits (s : string) : Prop := N.of_nat (String.length s) < 4294967296.
Definition fits_len {A} (l : list A) : Prop := N.of_nat (length l) < 4294967296.

Definition lp (s : string) : list byte :=
  be_bytes 4 (as_u32 (N.of_nat (length (as_bytes s)))) ++ as_bytes s.

Lemma push_lp_field_lp buf s : push_lp_field buf s = buf ++ lp s.
Proof. reflexivity. Qed.

Definition vec (l : list string) : list byte :=
  be_bytes 4 (as_u32 (N.of_nat (length l))) ++ (l ≫= lp).

Lemma push_vec_field_vec buf l : push_vec_field buf l = buf ++ vec l.
Proof.
  unfold push_vec_field, vec.
  by rewrite (foldl_extend _ lp), <- (assoc_L (++)).
Qed.

Lemma as_u32_small n : n < 4294967296 → as_u32 n = n.
Proof. apply N.mod_small. Qed.

Lemma be4_count_inj m n (r r' : list byte) :
  m < 4294967296 → n < 4294967296 →
  be_bytes 4 (as_u32 m) ++ r = be_bytes 4 (as_u32 n) ++ r' → m = n ∧ r = r'.
Proof.
  intros Hm Hn. rewrite !as_u32_small by done. by apply (prefix_code_be 4).
Qed.

Lemma lp_prefix_code : prefix_code fits lp.
Proof.
  intros s t r r' Hs Ht. unfold lp. rewrite <- !(assoc_L (++)).
  unfold fits in *. intros [Hlen Heq]%be4_count_inj; [|by rewrite length_as_bytes..].
  apply app_inj_1 in Heq as [Heq ->]; [|lia]. split; [by apply as_bytes_inj|done].
Qed.

Lemma counted_prefix_code {A} (P : A → Prop) enc :
  prefix_code P enc →
  prefix_code (λ l, fits_len l ∧ Forall P l)
    (λ l, be_bytes 4 (as_u32 (N.of_nat (length l))) ++ (l ≫= enc)).
Proof.
  intros Henc l l' r r' [Hl HP] [Hl' HP']. rewrite <- !(assoc_L (++)).
  intros [Hlen Heq]%be4_count_inj; [|done..].
  eapply prefix_code_concat in Heq; [done..|lia].
Qed.

Lemma vec_prefix_code : prefix_code (λ l, fits_len l ∧ Forall fits l) vec.
Proof. apply counted_prefix_code, lp_prefix_code. Qed.

Lemma i32_be_prefix_code : prefix_code (λ z, (-2147483648 ≤ z < 2147483648)%Z) i32_be.
Proof.
  eapply prefix_code_fixed; [intros; apply length_be_bytes|].
  intros x y Hx Hy Heq. apply be_bytes_inj in Heq.
  - apply (f_equal Z.of_N) in Heq. rewrite !Z2N.id in Heq by (apply Z.mod_pos_bound; lia).
    pose proof (Z.div_mod x 4294967296). pose proof (Z.div_mod y 4294967296).
    pose proof (Z.mod_pos_bound x 4294967296). pose proof (Z.mod_pos_bound y 4294967296). nia.
  - change (256 ^ N.of_nat 4) with 4294967296.
    pose proof (Z.mod_pos_bound x 4294967296). lia.
  - change (256 ^ N.of_nat 4) with 4294967296.
    pose proof (Z.mod_pos_bound y 4294967296). lia.
Qed.

Lemma u64_prefix_code : prefix_code (λ n, n ≤ u64_max) (be_bytes 8).
Proof.
  intros m n r r' Hm Hn. apply prefix_code_be;
    change (256 ^ N.of_nat 8) with 18446744073709551616; unfold u64_max in *; lia.
Qed.

(** Peel one field off both sides of an equation between pre-images. *)
Ltac peel H :=
  lazymatch type of H with
  | lp _ ++ _ = _ => apply lp_prefix_code in H as [? H]; [|assumption..]
  | vec _ ++ _ = _ => apply vec_prefix_code in H as [? H]; [|assumption..]
  | be_bytes 8 _ ++ _ = _ => apply u64_prefix_code in H as [? H]; [|assumption..]
  | i32_be _ ++ _ = _ => apply i32_be_prefix_code in H as [? H]; [|assumption..]
  | lp _ = _ => apply (prefix_code_inj _ _ _ _ lp_prefix_code) in H; [|assumption..]
  | vec _ = _ => apply (prefix_code_inj _ _ _ _ vec_prefix_code) in H; [|assumption..]
  | be_bytes 8 _ = _ =>
      apply (prefix_code_inj _ _ _ _ u64_prefix_code) in H; [|assumption..]
  end.

(** The fields of an event that are framed by 32-bit prefixes fit them, and the
    sequence number is a [u64]. *)
Definition wire_ok (prev kind : string) (pc : list string) (payload : string) (seq : N)
    : Prop :=
  fits prev ∧ fits kind ∧ (fits_len pc ∧ Forall fits pc) ∧ fits payload ∧ seq ≤ u64_max.

#[global] Instance fits_dec s : Decision (fits s).
Proof. unfold fits. apply _. Defined.
#[global] Instance wire_ok_dec prev kind pc payload seq : Decision (wire_ok prev kind pc payload seq).
Proof. unfold wire_ok, fits_len. apply _. Defined.

Lemma this_hash_preimage_eq prev kind pc payload seq :
  this_hash_preimage prev kind pc payload seq =
    lp prev ++ lp kind ++ vec pc ++ lp payload ++ be_bytes 8 seq.
Proof.
  unfold this_hash_preimage, push_u64. rewrite !push_lp_field_lp, push_vec_field_vec.
  by rewrite app_nil_l, <- !(assoc_L (++)).
Qed.

Lemma preimage_fields prev kind pc payload seq prev' kind' pc' payload' seq' :
  wire_ok prev kind pc payload seq → wire_ok prev' kind' pc' payload' seq' →
  this_hash_preimage prev kind pc payload seq =
    this_hash_preimage prev' kind' pc' payload' seq' →
  prev = prev' ∧ kind = kind' ∧ pc = pc' ∧ payload = payload' ∧ seq = seq'.
Proof.
  intros (?&?&?&?&?) (?&?&?&?&?) Heq. rewrite !this_hash_preimage_eq in Heq.
  do 5 peel Heq. auto.
Qed.

(** C3. The five chained inputs are recoverable from the pre-image of [this_hash]:
    as long as every field and count fits its 32-bit prefix, two events hash the
    same bytes only when they have the same fields, so bytes cannot be moved
    from one field to another. *)
Theorem this_hash_preimage_inj prev kind pc payload seq prev' kind' pc' payload' seq' :
  wire_ok prev kind pc payload seq → wire_ok prev' kind' pc' payload' seq' →
  this_hash_preimage prev kind pc payload seq =
    this_hash_preimage prev' kind' pc' payload' seq' →
  prev = prev' ∧ kind = kind' ∧ pc = pc' ∧ payload = payload' ∧ seq = seq'.
Proof. apply preimage_fields. Qed.

(** Distinct memo axes have distinct pre-images. *)
Theorem memo_key_preimage_inj t d c t' d' c' :
  fits t → fits d → fits c → fits t' → fits d' → fits c' →
  memo_key_preimage t d c = memo_key_preimage t' d' c' → t = t' ∧ d = d' ∧ c = c'.
Proof.
  intros ?????? Heq. unfold memo_key_preimage in Heq.
  rewrite !push_lp_field_lp, !app_nil_l, <- !(assoc_L (++)) in Heq.
  do 3 peel Heq. auto.
Qed.

Theorem attestation_sig_preimage_inj t d u m p t' d' u' m' p' :
  fits t → fits d → fits u → fits m → fits_len p ∧ Forall fits p →
  fits t' → fits d' → fits u' → fits m' → fits_len p' ∧ Forall fits p' →
  attestation_sig_preimage t d u m p = attestation_sig_preimage t' d' u' m' p' →
  t = t' ∧ d = d' ∧ u = u' ∧ m = m' ∧ p = p'.
Proof.
  intros ?????????? Heq. unfold attestation_sig_preimage in Heq.
  rewrite !push_lp_field_lp, !push_vec_field_vec, !app_nil_l, <- !(assoc_L (++)) in Heq.
  do 5 peel Heq. auto.
Qed.

Definition lp_pair (x : string * string) : list byte := lp x.1 ++ lp x.2.
Definition fits_pair (x : string * string) : Prop := fits x.1 ∧ fits x.2.

Lemma result_binding_preimage_v2_eq k o e x a :
  result_binding_preimage_v2 k o e x a =
    lp k ++ lp o ++ lp e ++ i32_be x ++
      be_bytes 4 (as_u32 (N.of_nat (length a))) ++ (a ≫= lp_pair).
Proof.
  unfold result_binding_preimage_v2. rewrite (foldl_extend _ lp_pair).
  - rewrite !push_lp_field_lp. by rewrite app_nil_l, <- !(assoc_L (++)).
  - intros buf [q d]. by rewrite !push_lp_field_lp, <- (assoc_L (++)).
Qed.

(** The verdict binding: no two results (exit status and ordered artifacts
    included) share a message. *)
Theorem result_binding_preimage_v2_inj k o e x a k' o' e' x' a' :
  fits k → fits o → fits e → (-2147483648 ≤ x < 2147483648)%Z →
  fits_len a ∧ Forall fits_pair a →
  fits k' → fits o' → fits e' → (-2147483648 ≤ x' < 2147483648)%Z →
  fits_len a' ∧ Forall fits_pair a' →
  result_binding_preimage_v2 k o e x a = result_binding_preimage_v2 k' o' e' x' a' →
  k = k' ∧ o = o' ∧ e = e' ∧ x = x' ∧ a = a'.
Proof.
  intros ????? ????? Heq. rewrite !result_binding_preimage_v2_eq in Heq.
  do 4 peel Heq.
  eapply (prefix_code_inj _ _ a a' (counted_prefix_code _ _
    (prefix_code_pair _ _ _ _ lp_prefix_code lp_prefix_code))) in Heq; auto.
Qed.

Definition lp_count (x : string * N) : list byte := lp x.1 ++ be_bytes 8 x.2.
Definition fits_count (x : string * N) : Prop := fits x.1 ∧ x.2 ≤ u64_max.

Lemma intent_metrics_preimage_eq l t i o cr cw tot w ac tc tb mt c :
  intent_metrics_preimage l t i o cr cw tot w ac tc tb mt c =
    lp l ++ lp t ++ ([i; o; cr; cw; tot; w; ac; tc] ≫= be_bytes 8) ++
      (be_bytes 4 (as_u32 (N.of_nat (length tb))) ++ (tb ≫= lp_count)) ++
      be_bytes 8 mt ++ be_bytes 8 c.
Proof.
  unfold intent_metrics_preimage.
  rewrite (foldl_extend _ lp_count), (foldl_extend push_u64 (be_bytes 8)).
  - unfold push_u64. rewrite !push_lp_field_lp.
    by rewrite app_nil_l, <- !(assoc_L (++)).
  - done.
  - intros buf [q d]. unfold push_u64. by rewrite !push_lp_field_lp, <- (assoc_L (++)).
Qed.

(** The cost attestation: every metric, the lease and the tenant are determined
    by the signed message. *)
Theorem intent_metrics_preimage_inj l t us tb mt c l' t' us' tb' mt' c'
    i o cr cw tot w ac tc i' o' cr' cw' tot' w' ac' tc' :
  us = [i; o; cr; cw; tot; w; ac; tc] → us' = [i'; o'; cr'; cw'; tot'; w'; ac'; tc'] →
  fits l → fits t → Forall (λ n, n ≤ u64_max) us → fits_len tb ∧ Forall fits_count tb →
  mt ≤ u64_max → c ≤ u64_max →
  fits l' → fits t' → Forall (λ n, n ≤ u64_max) us' → fits_len tb' ∧ Forall fits_count tb' →
  mt' ≤ u64_max → c' ≤ u64_max →
  intent_metrics_preimage l t i o cr cw tot w ac tc tb mt c =
    intent_metrics_preimage l' t' i' o' cr' cw' tot' w' ac' tc' tb' mt' c' →
  l = l' ∧ t = t' ∧ us = us' ∧ tb = tb' ∧ mt = mt' ∧ c = c'.
Proof.
  intros -> -> ?? Hus ????? Hus' ??? Heq. rewrite !intent_metrics_preimage_eq in Heq.
  do 2 peel Heq.
  apply (prefix_code_concat _ _ _ _ _ _ u64_prefix_code Hus Hus' eq_refl) in Heq as [? Heq].
  apply (counted_prefix_code _ _
    (prefix_code_pair _ _ _ _ lp_prefix_code u64_prefix_code)) in Heq as [? Heq];
    [|assumption..].
  do 2 peel Heq. by split_and!.
Qed.

(** * The append operations *)

(** Positions and sequence numbers agree. *)
Definition contiguous (rs : list EventRecord) : Prop :=
  ∀ i r, rs !! i = Some r → seq r = N.of_nat i.

Lemma contiguous_snoc rs r :
  contiguous (rs ++ [r]) ↔ contiguous rs ∧ seq r = N.of_nat (length rs).
Proof.
  unfold contiguous. split.
  - intros H. split.
    + intros i r' Hi. apply H. by apply lookup_app_l_Some.
    + apply (H (length rs)). by apply list_lookup_middle.
  - intros [H Hr] i r' Hi. apply lookup_app_Some in Hi as [Hi|[Hle Hi]]; [by apply H|].
    apply list_lookup_singleton_Some in Hi as [Hi ->]. rewrite Hr. f_equal. lia.
Qed.

Lemma contiguous_app_l rs rs' : contiguous (rs ++ rs') → contiguous rs.
Proof. intros H i r Hi. apply H. by apply lookup_app_l_Some. Qed.

Lemma contiguous_nil : contiguous [].
Proof. intros i r Hi. done. Qed.

Section Append.
Context `{Crypto}.

Lemma append_records log k pc p at_ :
  records (append log k pc p at_).1 = records log ++ [(append log k pc p at_).2].
Proof. reflexivity. Qed.

Lemma head_hash_snoc rs r : head_hash {| records := rs ++ [r] |} = this_hash r.
Proof. unfold head_hash. simpl. by rewrite last_snoc. Qed.

(** Appending adds one record at the end, at the next sequence number, linked to
    the head, hashed by the frozen formula; the fields are the caller's and
    nothing before it changes. *)
Theorem append_spec log k pc p at_ log' r :
  append log k pc p at_ = (log', r) →
  records log' = records log ++ [r] ∧
  seq r = N.of_nat (log_len log) ∧ prev_hash r = head_hash log ∧
  this_hash r = recompute r ∧ head_hash log' = this_hash r ∧
  kind r = k ∧ principal_chain r = pc ∧ payload r = p ∧ recorded_at r = at_.
Proof.
  unfold append. intros ?. inv_eqs. split_and!; try done. apply head_hash_snoc.
Qed.

Lemma append_contiguous log k pc p at_ :
  contiguous (records log) → contiguous (records (append log k pc p at_).1).
Proof. intros Hc. apply contiguous_snoc. done. Qed.
End Append.

Lemma push_records_app log rs log' :
  push_records log rs = Ok log' → records log' = records log ++ rs.
Proof.
  revert log. induction rs as [|r rs IH]; intros log Hp; simpl in Hp.
  - inv_eqs. by rewrite app_nil_r.
  - unfold push_record in Hp. case_decide; [done|]. simpl in Hp.
    apply IH in Hp. simpl in Hp. by rewrite Hp, <- (assoc_L (++)).
Qed.

(** Rehydration accepts exactly the record sequences whose sequence numbers are
    their positions, and gives them back unchanged. *)
Theorem push_records_ok rs log :
  push_records EventLog_new rs = Ok log ↔ log = {| records := rs |} ∧ contiguous rs.
Proof.
  assert (∀ pre, contiguous pre →
    push_records {| records := pre |} rs = Ok log ↔
      log = {| records := pre ++ rs |} ∧ contiguous (pre ++ rs)) as Hgen.
  { induction rs as [|r rs IH]; intros pre Hpre; simpl.
    - rewrite app_nil_r. split; [intros; inv_eqs; done|by intros [-> _]].
    - unfold push_record, log_len. simpl. case_decide as Hs; simpl.
      + split; [done|]. intros [_ Hc]. destruct Hs. apply Hc. by apply list_lookup_middle.
      + rewrite IH by (by apply contiguous_snoc).
        by rewrite <- (assoc_L (++)). }
  apply (Hgen []), contiguous_nil.
Qed.

(** A refused rehydration names the first position whose record is out of
    place. *)
Theorem push_records_err rs e :
  push_records EventLog_new rs = Err e →
  ∃ i r, rs !! i = Some r ∧ contiguous (take i rs) ∧ seq r ≠ N.of_nat i ∧
    e = NonMonotonicSeq (N.of_nat i) (seq r).
Proof.
  assert (∀ pre, contiguous pre →
    push_records {| records := pre |} rs = Err e →
    ∃ i r, (pre ++ rs) !! i = Some r ∧ contiguous (take i (pre ++ rs)) ∧
      seq r ≠ N.of_nat i ∧ e = NonMonotonicSeq (N.of_nat i) (seq r)) as Hgen.
  { induction rs as [|r rs IH]; intros pre Hpre; simpl; [done|].
    unfold push_record, log_len. simpl. case_decide as Hs; simpl; intros Hp.
    - inv_eqs. exists (length pre), r. rewrite take_app_length.
      split_and!; [by apply list_lookup_middle|done..].
    - apply IH in Hp; [by rewrite <- (assoc_L (++)) in Hp|].
      by apply contiguous_snoc. }
  apply (Hgen []), contiguous_nil.
Qed.

Lemma this_hash_preimage_inj_witness :
  "ref.update" = "ref.update" ∧ ["user:alice"; "agent:x"] = ["user:alice"; "agent:x"].
Proof.
  destruct (this_hash_preimage_inj GENESIS_PREV_HASH "ref.update" ["user:alice"; "agent:x"] "{}" 7
    GENESIS_PREV_HASH "ref.update" ["user:alice"; "agent:x"] "{}" 7) as (_ & Hk & Hp & _ & _).
  - by_decision.
  - by_decision.
  - reflexivity.
  - split; [exact Hk|exact Hp].
Defined.
