(* ===== verification/Authz.v ===== *)
(** Forge authorization: [crates/hugit-refstore/authz/mod.rs], and the guarded
    append of [crates/hugit-refstore/src/log/mod.rs].

    The permission matrix, the classification of principals, the audited guard
    and [EventLog::append_authorized].  The theorems: authorization is granted
    exactly on the cells of the matrix and to recognised principals; a denial
    always leaves one audit record naming the endpoint and the reason, and never
    the event that was asked for. *)

From S2P Require Import Prelude Json JsonCodec Crypto Log.

(** * Data *)

Inductive Endpoint := Push | Land | Undo | Policy.
Inductive PrincipalClass := Human | Orchestrator | Worker | Model.

Inductive DenyReason :=
| UnrecognizedPrincipal
| NotPermitted (class : PrincipalClass).

(** [Decision] of the source ([Decision] is stdpp's decidability class). *)
Inductive AuthzDecision :=
| Allow
| Deny (reason : DenyReason).

#[global] Instance Endpoint_eq_dec : EqDecision Endpoint.
Proof. solve_decision. Defined.
#[global] Instance PrincipalClass_eq_dec : EqDecision PrincipalClass.
Proof. solve_decision. Defined.
#[global] Instance DenyReason_eq_dec : EqDecision DenyReason.
Proof. solve_decision. Defined.
#[global] Instance AuthzDecision_eq_dec : EqDecision AuthzDecision.
Proof. solve_decision. Defined.

Definition endpoint_as_str (e : Endpoint) : string :=
  match e with
  | Push => "push" | Land => "land" | Undo => "undo" | Policy => "policy"
  end.

Definition class_as_str (c : PrincipalClass) : string :=
  match c with
  | Human => "human" | Orchestrator => "orchestrator"
  | Worker => "worker" | Model => "model"
  end.

Definition is_allowed (d : AuthzDecision) : bool :=
  match d with Allow => true | Deny _ => false end.

Definition reason_code (r : DenyReason) : string :=
  match r with
  | UnrecognizedPrincipal => "unrecognized_principal"
  | NotPermitted _ => "not_permitted"
  end.

Definition AUTHZ_DENIED_KIND : string := "authz.denied".

(** The denial of a guarded append: the reason and the audit record. *)
Record AuthzDenied := { denied_reason : DenyReason; denied_audit : EventRecord }.

(** * Decisions *)

Definition classify (identity : string) : option PrincipalClass :=
  '(prefix, rest) ← split_once ":" identity;
  if decide (rest = "") then None
  else if decide (prefix = "human" ∨ prefix = "user") then Some Human
  else if decide (prefix = "orchestrator" ∨ prefix = "orch") then Some Orchestrator
  else if decide (prefix = "worker" ∨ prefix = "agent") then Some Worker
  else if decide (prefix = "model") then Some Model
  else None.

Definition matrix (class : PrincipalClass) (endpoint : Endpoint) : bool :=
  match class, endpoint with
  | _, Push => true
  | Orchestrator, Land => true
  | _, Land => false
  | Human, Undo => true
  | _, Undo => false
  | Human, Policy => true
  | _, Policy => false
  end.

Definition authorize_class (class : PrincipalClass) (endpoint : Endpoint) : AuthzDecision :=
  if matrix class endpoint then Allow else Deny (NotPermitted class).

Definition authorize (principal_chain : list string) (endpoint : Endpoint) : AuthzDecision :=
  match last principal_chain with
  | None => Deny UnrecognizedPrincipal
  | Some actor =>
      match classify actor with
      | None => Deny UnrecognizedPrincipal
      | Some class => authorize_class class endpoint
      end
  end.

(** * Audited guard *)

Definition denial_payload `{SerdeJson} (endpoint : Endpoint) (reason : DenyReason) : string :=
  match reason with
  | UnrecognizedPrincipal =>
      to_string (json_object
        [("endpoint", Str (endpoint_as_str endpoint)); ("reason", Str (reason_code reason))])
  | NotPermitted class =>
      to_string (json_object
        [("endpoint", Str (endpoint_as_str endpoint)); ("reason", Str (reason_code reason));
         ("class", Str (class_as_str class))])
  end.

(** [AuditedGuard::authorize]: the decision, and the audit record on a denial. *)
Definition guard_authorize `{Crypto} `{SerdeJson} (log : EventLog)
    (principal_chain : list string) (endpoint : Endpoint) (recorded_at : N)
    : EventLog * (AuthzDecision * option EventRecord) :=
  let decision := authorize principal_chain endpoint in
  match decision with
  | Allow => (log, (decision, None))
  | Deny reason =>
      let payload := denial_payload endpoint reason in
      let '(log, record) :=
        append log AUTHZ_DENIED_KIND principal_chain payload recorded_at in
      (log, (decision, Some record))
  end.

(** [EventLog::append_authorized]. *)
Definition append_authorized `{Crypto} `{SerdeJson} (log : EventLog)
    (class : PrincipalClass) (endpoint : Endpoint) (kind : string)
    (principal_chain : list string) (payload : string) (recorded_at : N)
    : EventLog * result AuthzDenied EventRecord :=
  match authorize_class class endpoint with
  | Allow =>
      let '(log, record) := append log kind principal_chain payload recorded_at in
      (log, Ok record)
  | Deny reason =>
      let '(log, audit) :=
        append log AUTHZ_DENIED_KIND principal_chain
          (denial_payload endpoint reason) recorded_at in
      (log, Err {| denied_reason := reason; denied_audit := audit |})
  end.

(** * Properties *)

(** The identity prefixes of each class, as the permission model documents
    them. *)
Definition class_prefixes (c : PrincipalClass) : list string :=
  match c with
  | Human => ["human"; "user"]
  | Orchestrator => ["orchestrator"; "orch"]
  | Worker => ["worker"; "agent"]
  | Model => ["model"]
  end.

Lemma classify_Some id c :
  classify id = Some c ↔
    ∃ p rest, p ∈ class_prefixes c ∧ rest ≠ "" ∧ id = p +:+ ":" +:+ rest.
Proof.
  unfold classify. split.
  - destruct (split_once ":" id) as [[p rest]|] eqn:E; simpl; [|done].
    apply split_once_Some in E as [-> _]. intros Hc. exists p, rest.
    repeat case_decide; inv_eqs; (split_and!; [|done|done]); simpl; set_solver.
  - intros (p & rest & Hp & Hr & ->).
    assert (split_once ":" (p +:+ ":" +:+ rest) = Some (p, rest)) as ->.
    { apply split_once_Some. split; [done|]. destruct c; simpl in Hp;
        repeat (apply elem_of_cons in Hp as [->|Hp]; [done|]); by apply not_elem_of_nil in Hp. }
    simpl. rewrite decide_False by done.
    destruct c; simpl in Hp; set_unfold in Hp; destruct_or?; subst; done.
Qed.

(** The actor at the tail of the chain is recognised and its cell is marked. *)
Definition permitted (pc : list string) (ep : Endpoint) : Prop :=
  ∃ actor class, last pc = Some actor ∧ classify actor = Some class ∧
    match ep with
    | Push => True
    | Land => class = Orchestrator
    | Undo | Policy => class = Human
    end.

Lemma authorize_allow pc ep : authorize pc ep = Allow ↔ permitted pc ep.
Proof.
  unfold authorize, permitted. split.
  - intros Ha. run Ha. eexists _, _. split_and!; [done..|].
    unfold authorize_class, matrix in Ha. by destruct p, ep.
  - intros (actor & class & -> & -> & Hm). unfold authorize_class.
    destruct ep; subst; [by destruct class|done..].
Qed.

(** Authorization is granted exactly to a recognised actor on a marked cell of
    the documented table, every other request is denied, and a denial says
    whether the actor was recognised. *)
Theorem authorize_allow_iff pc ep :
  (authorize pc ep = Allow ↔ permitted pc ep) ∧
  (authorize pc ep = Deny UnrecognizedPrincipal ↔ last pc ≫= classify = None).
Proof.
  split; [apply authorize_allow|]. unfold authorize, authorize_class.
  destruct (last pc) as [a|]; simpl; [|done].
  destruct (classify a) as [c|]; [|done]. by destruct (matrix c ep).
Qed.

Section Guard.
Context `{Crypto} `{SerdeJsonLaws}.

(** What an audit payload says when parsed. *)
Lemma denial_payload_fields ep reason :
  ∃ v, from_str (denial_payload ep reason) = Some v ∧
    field_str v "endpoint" = Some (endpoint_as_str ep) ∧
    field_str v "reason" = Some (reason_code reason) ∧
    field_str v "class" =
      match reason with NotPermitted c => Some (class_as_str c) | _ => None end.
Proof.
  destruct reason; simpl; eexists; (split; [by apply from_str_to_string|done]).
Qed.

(** Every decision is accounted for: an allowed request leaves the log as it
    was; a denied one appends exactly one [authz.denied] record that carries the
    requesting chain and a payload naming the endpoint and the reason. *)
Theorem guard_authorize_audits log pc ep at_ log' d audit :
  guard_authorize log pc ep at_ = (log', (d, audit)) →
  d = authorize pc ep ∧
  match d with
  | Allow => log' = log ∧ audit = None
  | Deny reason =>
      ∃ r v, audit = Some r ∧ records log' = records log ++ [r] ∧
        kind r = AUTHZ_DENIED_KIND ∧ principal_chain r = pc ∧
        from_str (payload r) = Some v ∧
        field_str v "endpoint" = Some (endpoint_as_str ep) ∧
        field_str v "reason" = Some (reason_code reason)
  end.
Proof.
  unfold guard_authorize, append.
  destruct (authorize pc ep) as [|reason]; intros Hg; inv_eqs.
  - done.
  - split; [done|]. destruct (denial_payload_fields ep reason) as (v&?&?&?&?).
    by eexists _, v.
Qed.

(** A guarded append writes the requested event exactly when the asserted
    class holds the endpoint's cell, and otherwise only the audit record. *)
Theorem append_authorized_spec log c ep k pc p at_ log' res :
  append_authorized log c ep k pc p at_ = (log', res) →
  match res with
  | Ok r => matrix c ep = true ∧ append log k pc p at_ = (log', r)
  | Err d =>
      matrix c ep = false ∧ denied_reason d = NotPermitted c ∧
      append log AUTHZ_DENIED_KIND pc (denial_payload ep (NotPermitted c)) at_
        = (log', denied_audit d)
  end.
Proof.
  unfold append_authorized, authorize_class, append.
  destruct (matrix c ep); intros Ha; inv_eqs; done.
Qed.
End Guard.

(** An orchestrator asking for [undo] is denied and audited. *)
Lemma guard_authorize_audits_witness :
  let '(log', (d, audit)) :=
    @guard_authorize Toy.toy Codec.codec EventLog_new ["user:alice"; "orch:lead"] Undo 5 in
  d = Deny (NotPermitted Orchestrator) ∧
  ∃ r v, audit = Some r ∧ records log' = [r] ∧ kind r = AUTHZ_DENIED_KIND ∧
    principal_chain r = ["user:alice"; "orch:lead"] ∧
    @from_str Codec.codec (payload r) = Some v ∧
    field_str v "endpoint" = Some "undo" ∧ field_str v "reason" = Some "not_permitted".
Proof.
  destruct (@guard_authorize_audits Toy.toy Codec.codec Codec.codec_laws EventLog_new
    ["user:alice"; "orch:lead"] Undo 5 _ _ _ eq_refl) as [Hd Hm].
  exact (conj eq_refl Hm).
Defined.
