(* ===== verification/Capture.v ===== *)
(** Pricing the authoring usage of a pull request and capturing its context
    envelopes when it lands, from [crates/hugit-cli/src/pr/capture.rs], with the
    projected pull request of [pr/mod.rs].

    [priced_usage_exact] is the complete-or-nothing rule of the figure;
    [capture_on_land_records] is what a landing appends to the log. *)

From S2P Require Import Prelude Text Scan Json Crypto Blobs Secret Price Envelope Log Authz JsonCodec.

(** * The pull request *)

Definition PR_ENVELOPE_KIND : string := "pr.envelope".
Definition INTENT_ENVELOPE_KIND : string := "intent.envelope".
Definition CTX_USAGE_KIND : string := "ctx.usage".

Inductive AuthorKind := AuthorOrchestrator | AuthorHuman.
#[export] Instance AuthorKind_eq_dec : EqDecision AuthorKind.
Proof. solve_decision. Defined.
Definition author_as_str (k : AuthorKind) : string :=
  match k with AuthorOrchestrator => "orchestrator" | AuthorHuman => "human" end.
Definition author_parse (s : string) : option AuthorKind :=
  if decide (s = "orchestrator") then Some AuthorOrchestrator
  else if decide (s = "human") then Some AuthorHuman
  else None.
Definition author_authz (k : AuthorKind) : PrincipalClass * Endpoint :=
  match k with AuthorOrchestrator => (Orchestrator, Land) | AuthorHuman => (Human, Undo) end.

Record OpenedPr := {
  o_pr_id : string; o_campaign : string; o_author_kind : AuthorKind; o_intent_ids : list string;
  o_commit_ids : list string; o_seq : N }.

(** The records of a kind, and the payloads among them that parse. *)
Definition records_of (k : string) (log : EventLog) : list EventRecord :=
  List.filter (λ r, bool_decide (kind r = k)) (records log).
Definition payloads `{SerdeJson} (k : string) (log : EventLog) : list Value :=
  omap (λ r, from_str (payload r)) (records_of k log).

(** * Priced usage *)

Record PricedUsage := { pu_tokens : TokenCounts; pu_cost_usd_micros : N }.

Section Usage.
Context `{SerdeJson}.

Definition contributes (opened : OpenedPr) (v : Value) : bool :=
  let target_id := default EmptyString (field_str v "target_id") in
  let target_kind := default EmptyString (field_str v "target_kind") in
  (bool_decide (target_kind = "pr") && bool_decide (target_id = o_pr_id opened))
  || (bool_decide (target_kind = "intent") && bool_decide (target_id ∈ o_intent_ids opened)).

Definition usage_record (v : Value) : option (TokenCounts * string) :=
  t ← value_get v "tokens";
  i ← value_get t "input" ≫= as_u64;
  o ← value_get t "output" ≫= as_u64;
  cr ← value_get t "cache_read" ≫= as_u64;
  cw ← value_get t "cache_write" ≫= as_u64;
  Some ({| input := i; output := o; cache_read := cr; cache_write := cw; total := 0 |},
        default EmptyString (field_str v "model")).

Record UsageSum := { contributing : N; usage_cost : N; usage_sum : TokenCounts }.

Definition add_usage (acc : UsageSum) (v : Value) : option UsageSum :=
  '(rec, model) ← usage_record v;
  c ← cost_micros CURRENT model rec;
  cost ← u64_checked_add (usage_cost acc) c;
  i ← u64_checked_add (input (usage_sum acc)) (input rec);
  o ← u64_checked_add (output (usage_sum acc)) (output rec);
  cr ← u64_checked_add (cache_read (usage_sum acc)) (cache_read rec);
  cw ← u64_checked_add (cache_write (usage_sum acc)) (cache_write rec);
  Some {| contributing := u64_add (contributing acc) 1; usage_cost := cost;
          usage_sum := {| input := i; output := o; cache_read := cr; cache_write := cw; total := total (usage_sum acc) |} |}.

Fixpoint usage_loop (opened : OpenedPr) (acc : UsageSum) (vs : list Value) : option UsageSum :=
  match vs with
  | [] => Some acc
  | v :: vs => if contributes opened v then acc ← add_usage acc v; usage_loop opened acc vs else usage_loop opened acc vs
  end.

Definition priced_usage (log : EventLog) (opened : OpenedPr) : option PricedUsage :=
  acc ← usage_loop opened {| contributing := 0; usage_cost := 0; usage_sum := zero_tokens |} (payloads CTX_USAGE_KIND log);
  if contributing acc =? 0 then None
  else
    let s := usage_sum acc in
    a ← u64_checked_add (input s) (output s);
    b ← u64_checked_add a (cache_read s);
    t ← u64_checked_add b (cache_write s);
    Some {| pu_tokens := {| input := input s; output := output s; cache_read := cache_read s; cache_write := cache_write s; total := t |};
            pu_cost_usd_micros := usage_cost acc |}.
End Usage.

(** * Capture on land *)

Definition TOP_LEVEL_AGENT_TYPE : string := "main".

Record EnvelopeMetricsArgs := {
  a_tokens : N; a_cost_usd_micros : N; a_tool_calls : N; a_active_ms : N; a_model_turns : N;
  a_model : option string; a_context_cas : option string; a_compact_transcript_ref : option string;
  a_raw_transcript_ref : option string; a_verdicts_ref : option string; a_full_metrics : option IntentMetrics }.
Definition default_metrics_args : EnvelopeMetricsArgs := {|
  a_tokens := 0; a_cost_usd_micros := 0; a_tool_calls := 0; a_active_ms := 0; a_model_turns := 0; a_model := None;
  a_context_cas := None; a_compact_transcript_ref := None; a_raw_transcript_ref := None; a_verdicts_ref := None;
  a_full_metrics := None |}.

Definition build_metrics (m : EnvelopeMetricsArgs) : IntentMetrics :=
  match a_full_metrics m with
  | Some full => full
  | None => {|
      tokens := {| input := 0; output := 0; cache_read := 0; cache_write := 0; total := a_tokens m |};
      wall_ms := 0; active_ms := a_active_ms m; tool_calls := a_tool_calls m; tool_breakdown := [];
      model_turns := a_model_turns m; cost_usd_micros := a_cost_usd_micros m |}
  end.

Definition land_authorship (opened : OpenedPr) (m : EnvelopeMetricsArgs) : Authorship := {|
  model := default EmptyString (a_model m); model_digest := EmptyString; agent_type := TOP_LEVEL_AGENT_TYPE;
  spawn := {| run_id := "land-" +:+ o_pr_id opened; parent_run_id := None; born_at := 0; died_at := 0 |};
  operator := EmptyString |}.

Definition pr_draft (opened : OpenedPr) (m : EnvelopeMetricsArgs) : EnvelopeDraft := {|
  d_altitude := Pr; d_unit_id := o_pr_id opened; d_commit := default EmptyString (a_context_cas m); d_tree_hash := EmptyString;
  d_authorship := land_authorship opened m;
  d_charter := "land PR " +:+ o_pr_id opened +:+ " (campaign " +:+ o_campaign opened +:+ ")";
  d_campaign := Some (o_campaign opened); d_constraints := []; d_acceptance := []; d_parent_intents := o_intent_ids opened;
  d_raw_transcript := []; d_raw_transcript_ref := a_raw_transcript_ref m; d_task_transcript := [];
  d_task_transcript_ref := a_compact_transcript_ref m; d_summary := EmptyString; d_journal_ref := None; d_files_read := [];
  d_prompt := None; d_env_manifest := EmptyString; d_metrics := build_metrics m; d_verdicts_ref := a_verdicts_ref m |}.

Definition with_env_manifest (d : EnvelopeDraft) (manifest : string) : EnvelopeDraft := {|
  d_altitude := d_altitude d; d_unit_id := d_unit_id d; d_commit := d_commit d; d_tree_hash := d_tree_hash d;
  d_authorship := d_authorship d; d_charter := d_charter d; d_campaign := d_campaign d; d_constraints := d_constraints d;
  d_acceptance := d_acceptance d; d_parent_intents := d_parent_intents d; d_raw_transcript := d_raw_transcript d;
  d_raw_transcript_ref := d_raw_transcript_ref d; d_task_transcript := d_task_transcript d;
  d_task_transcript_ref := d_task_transcript_ref d; d_summary := d_summary d; d_journal_ref := d_journal_ref d;
  d_files_read := d_files_read d; d_prompt := d_prompt d; d_env_manifest := manifest; d_metrics := d_metrics d;
  d_verdicts_ref := d_verdicts_ref d |}.

Definition intent_draft (opened : OpenedPr) (intent_id : string) (m : EnvelopeMetricsArgs) : EnvelopeDraft := {|
  d_altitude := Intent; d_unit_id := intent_id; d_commit := EmptyString; d_tree_hash := EmptyString;
  d_authorship := {|
    model := default EmptyString (a_model m); model_digest := EmptyString; agent_type := "implementer";
    spawn := {| run_id := "land-" +:+ o_pr_id opened +:+ "-" +:+ intent_id;
                parent_run_id := Some ("land-" +:+ o_pr_id opened); born_at := 0; died_at := 0 |};
    operator := EmptyString |};
  d_charter := "intent " +:+ intent_id +:+ " of PR " +:+ o_pr_id opened;
  d_campaign := Some (o_campaign opened); d_constraints := []; d_acceptance := []; d_parent_intents := [];
  d_raw_transcript := []; d_raw_transcript_ref := a_raw_transcript_ref m; d_task_transcript := [];
  d_task_transcript_ref := a_compact_transcript_ref m; d_summary := EmptyString; d_journal_ref := None; d_files_read := [];
  d_prompt := None; d_env_manifest := EmptyString;
  d_metrics := build_metrics {|
    a_tokens := 0; a_cost_usd_micros := 0; a_tool_calls := 0; a_active_ms := 0; a_model_turns := 0; a_model := a_model m;
    a_context_cas := None; a_compact_transcript_ref := None; a_raw_transcript_ref := None; a_verdicts_ref := None;
    a_full_metrics := None |};
  d_verdicts_ref := None |}.

Section Capture.
Context `{Crypto} `{SerdeJson} `{Libm} `{EnvelopeJson}.

(** Close a draft and append the envelope; how many records that made. *)
Definition capture_one (log : EventLog) (store : InMemoryColdStore) (author : AuthorKind) (record_kind : string)
    (draft : EnvelopeDraft) (recorded_at : N) : EventLog * InMemoryColdStore * N :=
  let '(class, endpoint) := author_authz author in
  match close_envelope draft Metrics store with
  | (store, Err _) => (log, store, 0)
  | (store, Ok closed) =>
      match envelope_to_string (envelope closed) with
      | Err _ => (log, store, 0)
      | Ok payload =>
          match append_authorized log class endpoint record_kind [] payload recorded_at with
          | (log, Ok _) => (log, store, 1)
          | (log, Err _) => (log, store, 0)
          end
      end
  end.

Fixpoint capture_intents (log : EventLog) (store : InMemoryColdStore) (opened : OpenedPr) (m : EnvelopeMetricsArgs)
    (recorded_at : N) (ids : list string) (appended : N) : EventLog * InMemoryColdStore * N :=
  match ids with
  | [] => (log, store, appended)
  | intent_id :: ids =>
      let '(log, store, n) :=
        capture_one log store (o_author_kind opened) INTENT_ENVELOPE_KIND (intent_draft opened intent_id m) recorded_at in
      capture_intents log store opened m recorded_at ids (u64_add appended n)
  end.

(** The figures the capture uses: the priced usage where none was supplied. *)
Definition land_priced (log : EventLog) (opened : OpenedPr) (m : EnvelopeMetricsArgs) : option PricedUsage :=
  match a_full_metrics m with
  | None => if (a_tokens m =? 0) && (a_cost_usd_micros m =? 0) then priced_usage log opened else None
  | Some _ => None
  end.
Definition land_metrics (priced : option PricedUsage) (m : EnvelopeMetricsArgs) : EnvelopeMetricsArgs :=
  match priced with
  | None => m
  | Some pu => {|
      a_tokens := a_tokens m; a_cost_usd_micros := a_cost_usd_micros m; a_tool_calls := a_tool_calls m;
      a_active_ms := a_active_ms m; a_model_turns := a_model_turns m; a_model := a_model m; a_context_cas := a_context_cas m;
      a_compact_transcript_ref := a_compact_transcript_ref m; a_raw_transcript_ref := a_raw_transcript_ref m;
      a_verdicts_ref := a_verdicts_ref m;
      a_full_metrics := Some {|
        tokens := pu_tokens pu; wall_ms := 0; active_ms := a_active_ms m; tool_calls := a_tool_calls m;
        tool_breakdown := []; model_turns := a_model_turns m; cost_usd_micros := pu_cost_usd_micros pu |} |}
  end.

Definition capture_on_land (log : EventLog) (opened : OpenedPr) (m : EnvelopeMetricsArgs) (recorded_at : N) : EventLog * N :=
  let priced := land_priced log opened m in
  let m := land_metrics priced m in
  let '(log, store, appended) := capture_intents log InMemoryColdStore_new opened m recorded_at (o_intent_ids opened) 0 in
  let draft := pr_draft opened m in
  let draft := match priced with
               | Some _ => with_env_manifest draft ("price_card=" +:+ PRICE_CARD_VERSION)
               | None => draft
               end in
  let '(log, _, n) := capture_one log store (o_author_kind opened) PR_ENVELOPE_KIND draft recorded_at in
  (log, u64_add appended n).
End Capture.

(** * The figure is complete or absent *)

Lemma length_omap_le {A B} (f : A → option B) l : (length (omap f l) ≤ length l)%nat.
Proof. induction l as [|x l IH]; [done|]. cbn. destruct (f x); cbn; by lia || by apply le_S. Qed.

Section Pricing.
Context `{SerdeJson}.

(** A record read in full and priced by its own model. *)
Definition priced (v : Value) (tc : TokenCounts * N) : Prop :=
  ∃ model, usage_record v = Some (tc.1, model) ∧ cost_micros CURRENT model tc.1 = Some tc.2.
Definition sum_by (f : TokenCounts * N → N) (us : list (TokenCounts * N)) : N := foldr (λ u n, f u + n) 0 us.

Definition split_sum (us : list (TokenCounts * N)) : TokenCounts :=
  let i := sum_by (input ∘ fst) us in let o := sum_by (output ∘ fst) us in
  let cr := sum_by (cache_read ∘ fst) us in let cw := sum_by (cache_write ∘ fst) us in
  {| input := i; output := o; cache_read := cr; cache_write := cw; total := i + o + cr + cw |}.

Definition plus_all (acc : UsageSum) (us : list (TokenCounts * N)) : UsageSum := {|
  contributing := u64_add (contributing acc) (N.of_nat (length us));
  usage_cost := usage_cost acc + sum_by snd us;
  usage_sum := {|
    input := input (usage_sum acc) + sum_by (input ∘ fst) us; output := output (usage_sum acc) + sum_by (output ∘ fst) us;
    cache_read := cache_read (usage_sum acc) + sum_by (cache_read ∘ fst) us;
    cache_write := cache_write (usage_sum acc) + sum_by (cache_write ∘ fst) us; total := total (usage_sum acc) |} |}.
Definition sums_fit (acc : UsageSum) : Prop :=
  let s := usage_sum acc in
  contributing acc ≤ u64_max ∧ usage_cost acc ≤ u64_max ∧ input s ≤ u64_max ∧ output s ≤ u64_max ∧
  cache_read s ≤ u64_max ∧ cache_write s ≤ u64_max.

Lemma add_usage_Some acc v acc' : contributing acc ≤ u64_max →
  add_usage acc v = Some acc' ↔ ∃ u, priced v u ∧ acc' = plus_all acc [u] ∧ sums_fit acc'.
Proof.
  intros Hc. unfold add_usage, priced, plus_all, sums_fit. cbn [sum_by foldr length]. split.
  - destruct (usage_record v) as [[rec model]|] eqn:Er; [|done]. cbn [mbind option_bind].
    intros (c & Ec & (x1 & (-> & B1)%u64_checked_add_Some & (x2 & (-> & B2)%u64_checked_add_Some &
      (x3 & (-> & B3)%u64_checked_add_Some & (x4 & (-> & B4)%u64_checked_add_Some & (x5 & (-> & B5)%u64_checked_add_Some &
      [= <-])%bind_Some)%bind_Some)%bind_Some)%bind_Some)%bind_Some)%bind_Some.
    exists (rec, c). split; [by exists model|]. unfold compose. cbn. rewrite !N.add_0_r. split; [done|].
    split_and!; try done. apply u64_add_le.
  - intros ([rec c] & (model & -> & Ec) & -> & _ & B1 & B2 & B3 & B4 & B5). unfold compose in *. cbn in *. rewrite !N.add_0_r in *.
    rewrite Ec. cbn. unfold u64_checked_add.
    repeat (rewrite (proj2 (N.leb_le _ _)) by done; cbn [mbind option_bind]). done.
Qed.

Lemma plus_all_cons acc u us : plus_all (plus_all acc [u]) us = plus_all acc (u :: us).
Proof.
  unfold plus_all. cbn. rewrite !N.add_0_r. f_equal; [|by rewrite N.add_assoc|f_equal; by rewrite N.add_assoc].
  rewrite u64_add_assoc. f_equal. lia.
Qed.
Lemma plus_all_fit acc us us' : sums_fit (plus_all acc (us ++ us')) → contributing (plus_all acc us) ≤ u64_max → sums_fit (plus_all acc us).
Proof.
  assert (∀ f, sum_by f (us ++ us') = sum_by f us + sum_by f us') as Hs.
  { intros f. induction us as [|u us IH]; simpl; [done|]. rewrite IH. lia. }
  unfold sums_fit. cbn. rewrite !Hs. intros; split_and!; lia.
Qed.

Lemma usage_loop_Some opened vs : ∀ acc acc', sums_fit acc →
  usage_loop opened acc vs = Some acc' ↔
  ∃ us, Forall2 priced (List.filter (contributes opened) vs) us ∧ acc' = plus_all acc us ∧ sums_fit acc'.
Proof.
  induction vs as [|v vs IH]; intros acc acc' Hfit; cbn [usage_loop List.filter].
  - assert (plus_all acc [] = acc) as H0.
    { destruct acc as [c k [i o r w t]]. unfold plus_all. cbn. rewrite !N.add_0_r. destruct Hfit as [Hc _]. cbn in Hc. by rewrite u64_add_0. }
    split; [intros [= <-]; exists []; by rewrite H0|]. by intros (us & ->%Forall2_nil_inv_l & -> & _); rewrite H0.
  - destruct (contributes opened v); [|by apply IH]. split.
    + intros (acc1 & Ha & Hl)%bind_Some. apply add_usage_Some in Ha as (u & Hu & -> & Hf1); [|apply Hfit].
      apply IH in Hl as (us & Hus & -> & Hf); [|done]. exists (u :: us). rewrite plus_all_cons in *. split; [by constructor|done].
    + intros (us & Hus & -> & Hf). inversion Hus as [|? u ? us' Hu Hus']; subst.
      assert (sums_fit (plus_all acc [u])) as Hf1 by (apply (plus_all_fit acc [u] us'); [done|apply u64_add_le]).
      rewrite (proj2 (add_usage_Some acc v (plus_all acc [u]) (proj1 Hfit))) by eauto. simpl.
      apply IH; [done|]. exists us'. by rewrite plus_all_cons.
Qed.

(** Within [u64] many records, a figure is given exactly when some usage record
    names the pull request or one of its intents and every such record can be
    read and priced by its own model, without overflow; it is then the exact sum
    of all their costs and token counts.  Nothing is ever partial. *)
Theorem priced_usage_exact log opened p : N.of_nat (length (records log)) ≤ u64_max →
  priced_usage log opened = Some p ↔
  let mine := List.filter (contributes opened) (payloads CTX_USAGE_KIND log) in
  mine ≠ [] ∧ ∃ us, Forall2 priced mine us ∧
    pu_cost_usd_micros p = sum_by snd us ∧ sum_by snd us ≤ u64_max ∧
    pu_tokens p = split_sum us ∧ total (split_sum us) ≤ u64_max.
Proof.
  intros Hlen. cbv zeta. unfold priced_usage. set (mine := List.filter _ _).
  assert (N.of_nat (length mine) ≤ u64_max) as Hm.
  { subst mine. pose proof (List.filter_length_le (contributes opened) (payloads CTX_USAGE_KIND log)).
    pose proof (List.filter_length_le (λ r, bool_decide (kind r = CTX_USAGE_KIND)) (records log)).
    assert (length (payloads CTX_USAGE_KIND log) ≤ length (records_of CTX_USAGE_KIND log))%nat; [|unfold records_of in *; lia].
    apply length_omap_le. }
  assert (sums_fit {| contributing := 0; usage_cost := 0; usage_sum := zero_tokens |}) as H0 by (by repeat split).
  assert (∀ us, Forall2 priced mine us → u64_add 0 (N.of_nat (length us)) = N.of_nat (length mine)) as Hn.
  { intros us Hus%Forall2_length. rewrite <- Hus, u64_add_def, N.add_0_l. by apply u64_small. }
  split.
  - intros (acc & (us & Hus & -> & Hf)%usage_loop_Some & Hp)%bind_Some; [|done]. cbn in Hp. rewrite (Hn us Hus) in Hp.
    destruct (N.eqb_spec (N.of_nat (length mine)) 0) as [|Hne]; [done|]. split; [intros Hnil; by rewrite Hnil in Hne|].
    apply bind_Some in Hp as (a & (-> & B1)%u64_checked_add_Some & (b & (-> & B2)%u64_checked_add_Some & (t & (-> & B3)%u64_checked_add_Some
      & [= <-])%bind_Some)%bind_Some). exists us. cbn. cbn in *. split_and!; try done. apply Hf.
  - intros (Hne & us & Hus & Hc & Hcf & Ht & Htf). cbn in Htf. apply bind_Some.
    exists (plus_all {| contributing := 0; usage_cost := 0; usage_sum := zero_tokens |} us). split.
    { apply usage_loop_Some; [done|]. exists us. split_and!; [done..|]. unfold sums_fit. cbn. split_and!; try lia. apply u64_add_le. }
    cbn. rewrite (Hn us Hus). destruct (N.eqb_spec (N.of_nat (length mine)) 0) as [E0|_]; [by destruct mine|].
    unfold u64_checked_add. repeat (rewrite (proj2 (N.leb_le _ _)) by lia; cbn [mbind option_bind]).
    f_equal. destruct p as [t c]. cbn in *. by subst.
Qed.
End Pricing.

(** * What a landing records *)

(** [log'] comes from [log] by appending events of the kinds [K]. *)
Inductive appends `{Crypto} (K : list string) (log : EventLog) : EventLog → Prop :=
| appends_nil : appends K log log
| appends_snoc log' k pc p at_ : appends K log log' → k ∈ K → appends K log (append log' k pc p at_).1.

Lemma appends_trans `{Crypto} K log log1 log2 : appends K log log1 → appends K log1 log2 → appends K log log2.
Proof. intros H1. induction 1; [done|]. by constructor. Qed.
Lemma appends_weaken `{Crypto} K K' log log' : K ⊆ K' → appends K log log' → appends K' log log'.
Proof. intros Hk. induction 1; constructor; [done|]. by apply Hk. Qed.
Lemma appends_records `{Crypto} K log log' : appends K log log' →
  ∃ rs, records log' = records log ++ rs ∧ Forall (λ r, kind r ∈ K) rs.
Proof.
  induction 1 as [|log' k pc p at_ _ (rs & Hrs & Hk) Hin]; [exists []; by rewrite app_nil_r|].
  exists (rs ++ [next_record log' k pc p at_]). rewrite append_records, Hrs, <- (assoc_L (++)). split; [done|].
  apply Forall_app. split; [done|]. by constructor.
Qed.

(** Authors always hold the cell their appends are gated on. *)
Lemma append_author `{Crypto} `{SerdeJson} log a k pc p at_ :
  append_authorized log (author_authz a).1 (author_authz a).2 k pc p at_ = ((append log k pc p at_).1, Ok (append log k pc p at_).2).
Proof. unfold append_authorized. destruct a; simpl; by destruct (append log k pc p at_). Qed.

Section Landing.
Context `{CryptoLaws} `{!HexLower} `{SerdeJson} `{Libm} `{EnvelopeJsonLaws}.

(** What is read back from the record of a draft. *)
Definition captured (draft : EnvelopeDraft) (k : string) (r : EventRecord) : Prop :=
  kind r = k ∧ ∃ e, envelope_from_str (payload r) = Some e ∧ altitude e = d_altitude draft ∧ intent_id e = d_unit_id draft ∧
    metrics e = d_metrics draft ∧ Forall (λ t, is_secret t = false) (author_text e).

Lemma capture_one_ok log store a k draft at_ : addressed store →
  ∃ text store', capture_one log store a k draft at_ = ((append log k [] text at_).1, store', 1) ∧ addressed store' ∧
    captured draft k (append log k [] text at_).2.
Proof.
  intros Ha. unfold capture_one. destruct (author_authz a) as [c ep] eqn:Eac.
  destruct (close_outcome_eq draft Metrics store Ha) as (store' & Ha' & prompt & text & Ht & Hr & -> & _). cbn [envelope].
  rewrite Ht. exists text, store'. pose proof (append_author log a k [] text at_) as Happ. rewrite Eac in Happ. cbn in Happ. rewrite Happ.
  split; [done|]. split; [done|]. split; [done|]. eexists. split; [exact Hr|]. split_and!; try done. apply build_envelope_clean.
Qed.

Lemma capture_intents_ok opened m at_ ids : ∀ log store n, addressed store →
  ∃ rs log' store', capture_intents log store opened m at_ ids n = (log', store', u64_add n (N.of_nat (length ids)))
    ∧ addressed store' ∧ records log' = records log ++ rs ∧ appends [INTENT_ENVELOPE_KIND] log log'
    ∧ Forall2 (λ id r, captured (intent_draft opened id m) INTENT_ENVELOPE_KIND r) ids rs
  ∨ u64_max < n.
Proof.
  induction ids as [|id ids IH]; intros log store n Ha; cbn [capture_intents].
  - destruct (N.le_gt_cases n u64_max) as [Hn|Hn]; [|by exists [], log, store; right].
    exists [], log, store. left. rewrite u64_add_0 by done. rewrite app_nil_r. split_and!; try done; constructor.
  - destruct (capture_one_ok log store (o_author_kind opened) INTENT_ENVELOPE_KIND (intent_draft opened id m) at_ Ha)
      as (text & store1 & -> & Ha1 & Hc).
    destruct (IH (append log INTENT_ENVELOPE_KIND [] text at_).1 store1 (u64_add n 1) Ha1)
      as (rs & log' & store' & [(-> & Ha' & Hr & Hap & Hf)|Hbad]); [|pose proof (u64_add_le n 1); lia].
    exists ((append log INTENT_ENVELOPE_KIND [] text at_).2 :: rs), log', store'. left. split_and!; [|done|..].
    + rewrite u64_add_assoc. do 2 f_equal. simpl. lia.
    + rewrite Hr, append_records, <- (assoc_L (++)). done.
    + eapply appends_trans; [|exact Hap]. constructor; [constructor|]. set_solver.
    + by constructor.
Qed.

Lemma capture_on_land_ok log opened m at_ :
  let priced := land_priced log opened m in let m' := land_metrics priced m in
  ∃ rs r log', capture_on_land log opened m at_ = (log', u64_add (N.of_nat (length (o_intent_ids opened))) 1) ∧
    records log' = records log ++ rs ++ [r] ∧ appends [INTENT_ENVELOPE_KIND; PR_ENVELOPE_KIND] log log' ∧
    Forall2 (λ id r, captured (intent_draft opened id m') INTENT_ENVELOPE_KIND r) (o_intent_ids opened) rs ∧
    captured (pr_draft opened m') PR_ENVELOPE_KIND r.
Proof.
  cbv zeta. unfold capture_on_land. set (pr := land_priced log opened m). set (m' := land_metrics pr m).
  assert (addressed InMemoryColdStore_new) as Hnew.
  { split; [done|]. intros r b. simpl. by rewrite lookup_empty. }
  destruct (capture_intents_ok opened m' at_ (o_intent_ids opened) log InMemoryColdStore_new 0 Hnew)
    as (rs & log1 & store1 & [(-> & Ha1 & Hr1 & Hap & Hf)|Hbad]); [|unfold u64_max in Hbad; lia].
  set (draft := match pr with Some _ => _ | None => _ end).
  destruct (capture_one_ok log1 store1 (o_author_kind opened) PR_ENVELOPE_KIND draft at_ Ha1) as (text & store2 & -> & _ & Hc).
  exists rs, (append log1 PR_ENVELOPE_KIND [] text at_).2, (append log1 PR_ENVELOPE_KIND [] text at_).1. split_and!.
  - f_equal. by rewrite u64_add_assoc.
  - rewrite append_records, Hr1, <- (assoc_L (++)). done.
  - constructor; [|set_solver]. eapply appends_weaken; [|exact Hap]. set_solver.
  - exact Hf.
  - destruct Hc as [Hk Hc]. split; [exact Hk|]. subst draft. by destruct pr.
Qed.

(** A landing records one envelope per bundled intent, in order and with zero
    figures, and then the envelope of the pull request with the figures of the
    run: those supplied, or the priced usage when none were and it is complete.
    All are read back from the log, with their author texts redacted, and the
    answer is their number. *)
Theorem capture_on_land_records log opened m at_ : N.of_nat (length (o_intent_ids opened)) < u64_max →
  ∃ rs r log', capture_on_land log opened m at_ = (log', N.of_nat (length rs) + 1) ∧
    records log' = records log ++ rs ++ [r] ∧
    Forall2 (λ id r, kind r = INTENT_ENVELOPE_KIND ∧
      ∃ e, envelope_from_str (payload r) = Some e ∧ altitude e = Intent ∧ intent_id e = id ∧ metrics e = zero_metrics ∧
        Forall (λ t, is_secret t = false) (author_text e)) (o_intent_ids opened) rs ∧
    kind r = PR_ENVELOPE_KIND ∧
    ∃ e, envelope_from_str (payload r) = Some e ∧ altitude e = Pr ∧ intent_id e = o_pr_id opened ∧
      Forall (λ t, is_secret t = false) (author_text e) ∧
      match land_priced log opened m with
      | Some pu => tokens (metrics e) = pu_tokens pu ∧ cost_usd_micros (metrics e) = pu_cost_usd_micros pu
      | None => metrics e = build_metrics m
      end.
Proof.
  intros Hn. destruct (capture_on_land_ok log opened m at_) as (rs & r & log' & Hc & Hr & _ & Hf & Hk & e & He).
  exists rs, r, log'. pose proof (Forall2_length _ _ _ Hf) as Hlen. split_and!; try done.
  - rewrite Hc, <- Hlen. f_equal. apply N.mod_small. unfold u64_max in Hn. lia.
  - exists e. destruct He as (? & ? & ? & Hm & ?). split_and!; try done. rewrite Hm. simpl. by destruct (land_priced log opened m).
Qed.
End Landing.

Module CaptureExample.
Import Toy BlobsExample Log2 EnvelopeExample Codec.

Definition usage (kind_ id model_ : string) (i o : N) : string :=
  Codec.to_string (json_object
    [("target_kind", Str kind_); ("target_id", Str id); ("model", Str model_);
     ("tokens", json_object [("input", Number (PosInt i)); ("output", Number (PosInt o));
                             ("cache_read", Number (PosInt 0)); ("cache_write", Number (PosInt 0))])]).
Definition log3 (model3 : string) : EventLog :=
  let log := (append EventLog_new CTX_USAGE_KIND [] (usage "pr" "pr-1" "claude-opus-4-8" 1000 100) 0).1 in
  let log := (append log CTX_USAGE_KIND [] (usage "pr" "pr-2" "gpt" 7 7) 0).1 in
  (append log CTX_USAGE_KIND [] (usage "intent" "i1" model3 2000 0) 0).1.
Definition pr1 : OpenedPr := {|
  o_pr_id := "pr-1"; o_campaign := "c"; o_author_kind := AuthorHuman; o_intent_ids := ["i1"]; o_commit_ids := []; o_seq := 0 |}.

(** One unknown model among the records and there is no figure. *)
Example unknown_model_no_figure : priced_usage (log3 "gpt") pr1 = None.
Proof. vm_compute. reflexivity. Qed.

Lemma priced_usage_exact_witness : ∃ p, priced_usage (log3 "claude-haiku-4-5") pr1 = Some p ∧ pu_cost_usd_micros p = 9500 ∧
  List.filter (contributes pr1) (payloads CTX_USAGE_KIND (log3 "claude-haiku-4-5")) ≠ [].
Proof.
  eexists. split; [vm_compute; reflexivity|]. split; [reflexivity|].
  refine (proj1 (proj1 (priced_usage_exact (log3 "claude-haiku-4-5") pr1 _ _) _)); [vm_compute; discriminate|vm_compute; reflexivity].
Defined.

Lemma capture_on_land_records_witness : ∃ rs r log',
  capture_on_land (log3 "claude-haiku-4-5") pr1 default_metrics_args 9 = (log', N.of_nat (length rs) + 1) ∧
  records log' = records (log3 "claude-haiku-4-5") ++ rs ++ [r] ∧ kind r = PR_ENVELOPE_KIND.
Proof.
  destruct (capture_on_land_records (log3 "claude-haiku-4-5") pr1 default_metrics_args 9) as (rs & r & log' & Hc & Hr & _ & Hk & _);
    [reflexivity|]. exists rs, r, log'. split; [exact Hc|]. split; [exact Hr|exact Hk].
Defined.
End CaptureExample.
