(* ===== verification/Tamper.v ===== *)
(** Chain verification and redaction:
    [crates/hugit-refstore/src/tamper/mod.rs] and
    [crates/hugit-refstore/src/tamper/redaction.rs].

    [verify_chain] is the loop of the source over the records, with the markers
    collected first.  [chain_ok] is the declarative reading of an intact chain
    (sequence, linkage and content of every position); the theorems show that
    the verifier decides it and reports the first violation, that appending
    keeps a log intact, that redaction with its marker keeps it intact, and what
    a successful verification excludes: two verified logs with one head agree on
    every hashed field unless they exhibit a hash collision, and a verified log
    built from the records of another is one of its prefixes. *)

From S2P Require Import Prelude Json JsonCodec Crypto Log.

(** * Data *)

Inductive TamperError :=
| SeqOutOfOrder (position expected got : N)
| PrevHashMismatch (seq : N) (expected got : string)
| ThisHashMismatch (seq : N) (expected got : string).

#[global] Instance TamperError_eq_dec : EqDecision TamperError.
Proof. solve_decision. Defined.

Definition PROVENANCE_REDACTION_KIND : string := "provenance.redaction".

Record RedactionCommitment := {
  original_this_hash : string;
  redacted_this_hash : string;
}.

(** * Redaction markers *)

Definition to_payload `{SerdeJson} (c : RedactionCommitment) (redacted_seq : N) : string :=
  let v := json_object
    [("redacted_seq", Number (PosInt redacted_seq));
     ("original_this_hash", Str (original_this_hash c));
     ("redacted_this_hash", Str (redacted_this_hash c))] in
  match canonical_json (to_string v) with
  | Some s => s
  | None => to_string v
  end.

Definition parse_commitment `{SerdeJson} (payload : string)
    : option (N * RedactionCommitment) :=
  v ← from_str payload;
  redacted_seq ← value_get v "redacted_seq" ≫= as_u64;
  original ← field_str v "original_this_hash";
  redacted ← field_str v "redacted_this_hash";
  if decide (original = "" ∨ redacted = "") then None
  else Some (redacted_seq,
    {| original_this_hash := original; redacted_this_hash := redacted |}).

Definition redact_record `{Crypto} (record : EventRecord)
    (redacted_principal_chain : list string) (redacted_payload : string)
    : EventRecord * RedactionCommitment :=
  let redacted_hash :=
    compute_this_hash (prev_hash record) (kind record)
      redacted_principal_chain redacted_payload (seq record) in
  ({| seq := seq record; prev_hash := prev_hash record; this_hash := this_hash record;
      kind := kind record; principal_chain := redacted_principal_chain;
      payload := redacted_payload; recorded_at := recorded_at record |},
   {| original_this_hash := this_hash record; redacted_this_hash := redacted_hash |}).

(** One record's contribution to the marker map. *)
Definition collect_step `{SerdeJson} (out : gmap N RedactionCommitment) (r : EventRecord)
    : gmap N RedactionCommitment :=
  if decide (kind r ≠ PROVENANCE_REDACTION_KIND) then out
  else match parse_commitment (payload r) with
       | Some (s, c) => <[s := c]> out
       | None => out
       end.

Definition collect_redactions `{SerdeJson} (rs : list EventRecord)
    : gmap N RedactionCommitment :=
  foldl collect_step ∅ rs.

(** * Verification *)

(** The body of the loop for the record at [position], the predecessor's hash
    being [prev_this]. *)
Definition check_record `{Crypto} (redactions : gmap N RedactionCommitment)
    (position : N) (prev_this : string) (record : EventRecord) : result TamperError unit :=
  if decide (seq record ≠ position) then
    Err (SeqOutOfOrder position position (seq record))
  else if decide (prev_hash record ≠ prev_this) then
    Err (PrevHashMismatch (seq record) prev_this (prev_hash record))
  else
    match redactions !! position with
    | Some commitment =>
        if decide (this_hash record ≠ original_this_hash commitment) then
          Err (ThisHashMismatch (seq record) (original_this_hash commitment)
                 (this_hash record))
        else
          let recomputed_redacted := recompute record in
          if decide (recomputed_redacted ≠ redacted_this_hash commitment) then
            Err (ThisHashMismatch (seq record) (redacted_this_hash commitment)
                   recomputed_redacted)
          else Ok tt
    | None =>
        let recomputed := recompute record in
        if decide (recomputed ≠ this_hash record) then
          Err (ThisHashMismatch (seq record) recomputed (this_hash record))
        else Ok tt
    end.

Fixpoint verify_from `{Crypto} (redactions : gmap N RedactionCommitment)
    (position : N) (prev_this : string) (rs : list EventRecord) : result TamperError unit :=
  match rs with
  | [] => Ok tt
  | record :: rs =>
      _ ← check_record redactions position prev_this record;
      verify_from redactions (position + 1) (this_hash record) rs
  end.

Definition verify_chain `{Crypto} `{SerdeJson} (rs : list EventRecord)
    : result TamperError unit :=
  verify_from (collect_redactions rs) 0 GENESIS_PREV_HASH rs.

(** * The declarative reading *)

(** The predecessor hash expected at position [i]. *)
Definition prev_at (rs : list EventRecord) (i : nat) : string :=
  match i with
  | O => GENESIS_PREV_HASH
  | S j => match rs !! j with Some r => this_hash r | None => GENESIS_PREV_HASH end
  end.

Definition content_ok `{Crypto} (red : gmap N RedactionCommitment) (i : N)
    (r : EventRecord) : Prop :=
  match red !! i with
  | Some c => this_hash r = original_this_hash c ∧ recompute r = redacted_this_hash c
  | None => recompute r = this_hash r
  end.

Definition record_ok `{Crypto} red (rs : list EventRecord) (i : nat) (r : EventRecord) : Prop :=
  seq r = N.of_nat i ∧ prev_hash r = prev_at rs i ∧ content_ok red (N.of_nat i) r.

Definition chain_ok `{Crypto} (red : gmap N RedactionCommitment) (rs : list EventRecord)
    : Prop :=
  ∀ i r, rs !! i = Some r → record_ok red rs i r.

(** The violation an error reports for a record, in the order the verifier
    checks. *)
Definition violation `{Crypto} (red : gmap N RedactionCommitment) (i : N) (prev : string)
    (r : EventRecord) (e : TamperError) : Prop :=
  match e with
  | SeqOutOfOrder pos expected got =>
      pos = i ∧ expected = i ∧ got = seq r ∧ seq r ≠ i
  | PrevHashMismatch s expected got =>
      s = i ∧ seq r = i ∧ expected = prev ∧ got = prev_hash r ∧ prev_hash r ≠ prev
  | ThisHashMismatch s expected got =>
      s = i ∧ seq r = i ∧ prev_hash r = prev ∧ ¬ content_ok red i r ∧
      expected ≠ got ∧ (got = this_hash r ∨ got = recompute r)
  end.

(** The fields of a record that its hash covers ([recorded_at] is not one). *)
Definition same_hashed (r r' : EventRecord) : Prop :=
  seq r = seq r' ∧ prev_hash r = prev_hash r' ∧ this_hash r = this_hash r' ∧
  kind r = kind r' ∧ principal_chain r = principal_chain r' ∧ payload r = payload r'.

(** The bytes a record's hash is taken over. *)
Definition hash_input (r : EventRecord) : list byte :=
  this_hash_preimage (prev_hash r) (kind r) (principal_chain r) (payload r) (seq r).

Definition record_wire_ok (r : EventRecord) : Prop :=
  wire_ok (prev_hash r) (kind r) (principal_chain r) (payload r) (seq r).

(** Markers name earlier positions only, as every marker written by an erasure
    does. *)
Definition markers_past `{SerdeJson} (rs : list EventRecord) : Prop :=
  ∀ s, is_Some (collect_redactions rs !! s) → s < N.of_nat (length rs).

(** The invariant of a log the repository holds. *)
Definition intact `{Crypto} `{SerdeJson} (rs : list EventRecord) : Prop :=
  verify_chain rs = Ok tt ∧ markers_past rs.

(** * The verifier decides the declarative reading *)

Section Verify.
Context `{Crypto}.
Implicit Types red : gmap N RedactionCommitment.

Lemma check_record_ok red i prev r :
  check_record red i prev r = Ok tt ↔
    seq r = i ∧ prev_hash r = prev ∧ content_ok red i r.
Proof.
  unfold check_record, content_ok. split.
  - destruct (red !! i) as [c|]; repeat case_decide; naive_solver.
  - intros (-> & -> & Hc). rewrite !decide_False by naive_solver.
    destruct (red !! i) as [c|]; [destruct Hc as [-> ->]|rewrite Hc];
      by rewrite !decide_False by naive_solver.
Qed.

Lemma check_record_err red i prev r e :
  check_record red i prev r = Err e → violation red i prev r e.
Proof.
  unfold check_record, violation, content_ok.
  destruct (red !! i) as [c|]; repeat case_decide; intros; inv_eqs;
    split_and!; naive_solver.
Qed.

Lemma check_record_unit red i prev r u : check_record red i prev r = Ok u → u = tt.
Proof. by destruct u. Qed.

(** Linkage relative to an arbitrary start, the form the induction needs. *)
Lemma verify_from_ok red i prev rs :
  verify_from red i prev rs = Ok tt ↔
    ∀ j r, rs !! j = Some r →
      seq r = i + N.of_nat j ∧
      prev_hash r = match j with O => prev | S _ => prev_at rs j end ∧
      content_ok red (i + N.of_nat j) r.
Proof.
  revert i prev. induction rs as [|r rs IH]; intros i prev; simpl; [done|].
  destruct (check_record red i prev r) as [[]|e] eqn:E; simpl.
  - apply check_record_ok in E as (Hs & Hp & Hc). rewrite IH. split.
    + intros Hrest [|j] r' Hj; simpl in Hj.
      * inv_eqs. rewrite N.add_0_r. done.
      * destruct (Hrest j r' Hj) as (H1 & H2 & H3).
        replace (i + N.of_nat (S j)) with (i + 1 + N.of_nat j) by lia.
        split_and!; [done| |done]. rewrite H2. by destruct j.
    + intros Hall j r' Hj. destruct (Hall (S j) r' Hj) as (H1 & H2 & H3).
      replace (i + N.of_nat (S j)) with (i + 1 + N.of_nat j) in * by lia.
      split_and!; [done| |done]. rewrite H2. by destruct j.
  - split; [done|]. intros Hall. destruct (Hall 0%nat r eq_refl) as (H1 & H2 & H3).
    rewrite N.add_0_r in *. assert (check_record red i prev r = Ok tt) by (by apply check_record_ok).
    congruence.
Qed.

Lemma verify_from_err red i prev rs e :
  verify_from red i prev rs = Err e →
  ∃ j r, rs !! j = Some r ∧
    verify_from red i prev (take j rs) = Ok tt ∧
    violation red (i + N.of_nat j)
      (match j with O => prev | S _ => prev_at rs j end) r e.
Proof.
  revert i prev. induction rs as [|r rs IH]; intros i prev; simpl; [done|].
  destruct (check_record red i prev r) as [[]|e'] eqn:E; simpl; intros Hv.
  - apply IH in Hv as (j & r' & Hj & Hpre & Hviol).
    exists (S j), r'. split_and!; [done|simpl; by rewrite E|].
    replace (i + N.of_nat (S j)) with (i + 1 + N.of_nat j) by lia.
    by destruct j.
  - inv_eqs. exists 0%nat, r. rewrite N.add_0_r. split_and!; [done..|].
    by apply check_record_err.
Qed.

Lemma chain_ok_verify_from red rs :
  verify_from red 0 GENESIS_PREV_HASH rs = Ok tt ↔ chain_ok red rs.
Proof.
  rewrite verify_from_ok. unfold chain_ok, record_ok.
  split; intros Hall j r Hj; specialize (Hall j r Hj); rewrite N.add_0_l in *;
    by destruct j.
Qed.

Lemma chain_ok_contiguous red rs : chain_ok red rs → contiguous rs.
Proof. intros Hc i r Hi. apply (Hc i r Hi). Qed.

Lemma prev_at_app_l rs rs' i : (i ≤ length rs)%nat → prev_at (rs ++ rs') i = prev_at rs i.
Proof. intros Hi. destruct i as [|i]; [done|]. simpl. by rewrite lookup_app_l by lia. Qed.

Lemma prev_at_length rs : prev_at rs (length rs) = head_hash {| records := rs |}.
Proof.
  unfold head_hash. simpl. destruct rs as [|r rs _] using rev_ind; [done|].
  rewrite length_app, last_snoc. simpl. rewrite Nat.add_1_r. simpl.
  by rewrite list_lookup_middle.
Qed.

(** Appending a record to an intact chain. *)
Lemma chain_ok_snoc red rs r :
  chain_ok red (rs ++ [r]) ↔
    chain_ok red rs ∧
    seq r = N.of_nat (length rs) ∧ prev_hash r = head_hash {| records := rs |} ∧
    content_ok red (N.of_nat (length rs)) r.
Proof.
  unfold chain_ok, record_ok. split.
  - intros Hc. split.
    + intros i r' Hi. pose proof (lookup_lt_Some _ _ _ Hi) as Hlt.
      rewrite <- (prev_at_app_l rs [r]) by lia. apply Hc. by apply lookup_app_l_Some.
    + rewrite <- prev_at_length, <- (prev_at_app_l rs [r]) by lia.
      apply Hc. by apply list_lookup_middle.
  - intros [Hc Hr] i r' Hi. apply lookup_app_Some in Hi as [Hi|[Hle Hi]].
    + pose proof (lookup_lt_Some _ _ _ Hi). rewrite prev_at_app_l by lia. by apply Hc.
    + apply list_lookup_singleton_Some in Hi as [Hi ->].
      assert (i = length rs) as -> by lia.
      by rewrite prev_at_app_l, prev_at_length by lia.
Qed.

Lemma chain_ok_app_l red rs rs' : chain_ok red (rs ++ rs') → chain_ok red rs.
Proof.
  induction rs' as [|r rs' IH] using rev_ind; [by rewrite app_nil_r|].
  rewrite (assoc_L (++)). intros [Hc _]%chain_ok_snoc. by apply IH.
Qed.
End Verify.

(** * Markers *)

Section Markers.
Context `{SerdeJson}.

Lemma collect_redactions_snoc rs r :
  collect_redactions (rs ++ [r]) = collect_step (collect_redactions rs) r.
Proof. unfold collect_redactions. by rewrite foldl_app. Qed.

Lemma collect_step_other out r :
  kind r ≠ PROVENANCE_REDACTION_KIND → collect_step out r = out.
Proof. intros Hk. unfold collect_step. by rewrite decide_True. Qed.

(** Only marker records contribute, so replacing a record that is not a marker
    by another that is not one changes no commitment. *)
Lemma collect_redactions_insert rs i r r' :
  rs !! i = Some r → kind r ≠ PROVENANCE_REDACTION_KIND →
  kind r' ≠ PROVENANCE_REDACTION_KIND →
  collect_redactions (<[i:=r']> rs) = collect_redactions rs.
Proof.
  intros Hi Hk Hk'. rewrite <- (take_drop_middle rs i r Hi) at 2.
  rewrite insert_take_drop by (by eapply lookup_lt_Some).
  unfold collect_redactions. rewrite !foldl_app. simpl.
  by rewrite !collect_step_other.
Qed.

Lemma collect_redactions_none rs :
  Forall (λ r, kind r ≠ PROVENANCE_REDACTION_KIND) rs → collect_redactions rs = ∅.
Proof.
  induction rs as [|r rs IH] using rev_ind; [done|].
  rewrite Forall_app, Forall_singleton. intros [Hrs Hr].
  by rewrite collect_redactions_snoc, collect_step_other, IH.
Qed.

(** Every collected commitment carries non-empty hashes. *)
Lemma collect_redactions_nonempty rs s c :
  collect_redactions rs !! s = Some c → original_this_hash c ≠ "".
Proof.
  induction rs as [|r rs IH] using rev_ind; [done|].
  rewrite collect_redactions_snoc. unfold collect_step.
  case_decide; [done|]. destruct (parse_commitment (payload r)) as [[s' c']|] eqn:E; [|done].
  destruct (decide (s = s')) as [->|Hne].
  - rewrite lookup_insert_eq. intros ?; simplify_eq.
    unfold parse_commitment in E. simplify_option_eq. naive_solver.
  - by rewrite lookup_insert_ne.
Qed.
End Markers.

Section MarkerPayload.
Context `{SerdeJsonLaws}.

(** A marker's payload is read back as the sequence number and commitment it
    was written for. *)
Lemma parse_to_payload c s :
  original_this_hash c ≠ "" → redacted_this_hash c ≠ "" → s ≤ u64_max →
  parse_commitment (to_payload c s) = Some (s, c).
Proof.
  intros Ho Hr Hs. unfold to_payload.
  set (v := json_object _).
  assert (plain v = true) as Hv.
  { unfold plain. simpl. by rewrite bool_decide_true. }
  assert (canonical_json (to_string v) = Some (to_string v)) as ->.
  { unfold canonical_json. rewrite from_str_to_string by done.
    unfold plain in Hv. apply andb_true_iff in Hv as [Hv _].
    cbn [mbind option_bind]. by rewrite (canonicalize_sorted_id v). }
  unfold parse_commitment. rewrite from_str_to_string by done. simpl.
  rewrite decide_False by naive_solver. by destruct c.
Qed.
End MarkerPayload.

(** * Theorems *)

Section Theorems.
Context `{Crypto} `{SerdeJson}.

Lemma verify_chain_ok rs :
  verify_chain rs = Ok tt ↔ chain_ok (collect_redactions rs) rs.
Proof. apply chain_ok_verify_from. Qed.

(** C1. The verifier accepts exactly the intact chains: sequence numbers are
    positions, each record links to its predecessor's hash (the first to
    genesis), and each content hash recomputes, through the commitment when the
    record is redacted. *)
Theorem verify_chain_iff rs :
  verify_chain rs = Ok tt ↔ chain_ok (collect_redactions rs) rs.
Proof. apply verify_chain_ok. Qed.

(** A refusal names the first position that is not intact and what is wrong
    there, everything before it having been verified. *)
Theorem verify_chain_first_violation rs e :
  verify_chain rs = Err e →
  ∃ i r, rs !! i = Some r ∧
    chain_ok (collect_redactions rs) (take i rs) ∧
    violation (collect_redactions rs) (N.of_nat i) (prev_at rs i) r e.
Proof.
  intros (j & r & Hj & Hpre & Hv)%verify_from_err. exists j, r.
  rewrite N.add_0_l in Hv. apply chain_ok_verify_from in Hpre.
  split_and!; [done..|]. by destruct j.
Qed.

Lemma intact_contiguous rs : intact rs → contiguous rs.
Proof. intros [Hv _]. by eapply chain_ok_contiguous, verify_chain_ok. Qed.

Lemma intact_nil : intact [].
Proof. split; [done|]. intros s [c Hc]. done. Qed.

Lemma intact_append log k pc p at_ :
  k ≠ PROVENANCE_REDACTION_KIND →
  intact (records log) → intact (records (append log k pc p at_).1).
Proof.
  intros Hk [Hv Hm]. unfold append. simpl. set (r := next_record log k pc p at_).
  assert (collect_redactions (records log ++ [r]) = collect_redactions (records log)) as Hred.
  { by rewrite collect_redactions_snoc, collect_step_other. }
  split.
  - apply verify_chain_ok. rewrite Hred. apply verify_chain_ok in Hv.
    apply chain_ok_snoc. split_and!; [done|done|by destruct log|].
    unfold content_ok.
    destruct (collect_redactions (records log) !! _) as [c|] eqn:E; [|done].
    assert (N.of_nat (length (records log)) < N.of_nat (length (records log))); [|lia].
    apply Hm. by eexists.
  - intros s Hs. rewrite Hred in Hs. apply Hm in Hs. rewrite length_app. simpl. lia.
Qed.

(** Appending any event that is not itself a redaction marker keeps the log
    intact. *)
Theorem append_intact log k pc p at_ :
  k ≠ PROVENANCE_REDACTION_KIND →
  intact (records log) → intact (records (append log k pc p at_).1).
Proof. apply intact_append. Qed.

(** A verified log whose records all come from another verified log is one of
    its prefixes: records cannot be dropped from the middle, duplicated,
    reordered or spliced in without detection. *)
Theorem verified_subset_is_prefix rs rs' :
  verify_chain rs = Ok tt → verify_chain rs' = Ok tt →
  (∀ r, r ∈ rs' → r ∈ rs) → rs' = take (length rs') rs.
Proof.
  intros Hc%verify_chain_ok%chain_ok_contiguous Hc'%verify_chain_ok%chain_ok_contiguous Hsub.
  apply list_eq. intros i. destruct (rs' !! i) as [r|] eqn:Hi.
  - assert (r ∈ rs) as [j Hj]%list_elem_of_lookup.
    { apply Hsub. apply list_elem_of_lookup. eauto. }
    assert (j = i) as ->.
    { apply Hc in Hj as Hs. apply Hc' in Hi as Hs'. lia. }
    rewrite lookup_take_lt by (by eapply lookup_lt_Some). done.
  - apply lookup_ge_None in Hi. rewrite lookup_take_ge; done.
Qed.

(** Losing a suffix is not detected: every prefix of a verified log without
    redaction markers verifies. *)
Theorem truncation_verifies rs n :
  Forall (λ r, kind r ≠ PROVENANCE_REDACTION_KIND) rs →
  verify_chain rs = Ok tt → verify_chain (take n rs) = Ok tt.
Proof.
  intros Hk Hv%verify_chain_ok. apply verify_chain_ok.
  rewrite collect_redactions_none in Hv by done.
  rewrite collect_redactions_none by (by apply Forall_take).
  rewrite <- (take_drop n rs) in Hv. by apply chain_ok_app_l in Hv.
Qed.
End Theorems.

Section Collision.
Context `{CryptoLaws} `{SerdeJson}.

(** Equal content hashes: equal hashed inputs, or the two hash inputs are a
    collision. *)
Lemma recompute_eq r r' :
  record_wire_ok r → record_wire_ok r' → recompute r = recompute r' →
  (prev_hash r = prev_hash r' ∧ kind r = kind r' ∧ principal_chain r = principal_chain r' ∧
    payload r = payload r' ∧ seq r = seq r') ∨ collision (hash_input r) (hash_input r').
Proof.
  intros Hw Hw' [Hb|Hc]%digest_hex_eq; [left|by right].
  by apply preimage_fields in Hb.
Qed.

(** C2. Two verified logs without redactions that end in the same head hash carry
    the same hashed fields at every position, unless a record of one and a
    record of the other are a collision: different hash inputs, one digest. *)
Theorem same_head_same_history rs rs' :
  collect_redactions rs = ∅ → collect_redactions rs' = ∅ →
  verify_chain rs = Ok tt → verify_chain rs' = Ok tt →
  rs ≠ [] → rs' ≠ [] →
  head_hash {| records := rs |} = head_hash {| records := rs' |} →
  Forall record_wire_ok rs → Forall record_wire_ok rs' →
  Forall2 same_hashed rs rs' ∨
  ∃ r r', r ∈ rs ∧ r' ∈ rs' ∧ collision (hash_input r) (hash_input r').
Proof.
  intros Hr Hr' Hv%verify_chain_ok Hv'%verify_chain_ok. rewrite Hr in Hv. rewrite Hr' in Hv'.
  clear Hr Hr'. revert rs' Hv'.
  induction rs as [|r rs IH] using rev_ind; [done|].
  intros rs' Hv' _ Hne Hhead Hw Hw'.
  destruct rs' as [|r' rs' _] using rev_ind; [done|].
  rewrite !head_hash_snoc in Hhead.
  apply chain_ok_snoc in Hv as (Hv & Hs & Hp & Hc).
  apply chain_ok_snoc in Hv' as (Hv' & Hs' & Hp' & Hc').
  apply Forall_app in Hw as [Hw [Hwr _]%Forall_cons].
  apply Forall_app in Hw' as [Hw' [Hwr' _]%Forall_cons].
  unfold content_ok in Hc, Hc'. rewrite lookup_empty in Hc, Hc'.
  destruct (recompute_eq r r') as [(?&?&?&?&Hseq)|]; [done|done|congruence| |].
  2:{ right. exists r, r'. set_solver. }
  assert (length rs = length rs') as Hlen by lia.
  assert (Forall2 same_hashed rs rs' ∨
    ∃ r r', r ∈ rs ∧ r' ∈ rs' ∧ collision (hash_input r) (hash_input r'))
    as [Hpre|(x & x' & ? & ? & ?)]; [|left|right; exists x, x'; set_solver].
  { destruct rs as [|x rs], rs' as [|x' rs']; try done; [by left|].
    apply IH; [done..| |done|done]. congruence. }
  apply Forall2_app; [done|]. constructor; [|done]. unfold same_hashed. by split_and!.
Qed.

(** A redacted record cannot be changed afterwards: two verified logs that carry
    the same commitment for a position hold the same hashed fields there, unless
    the two records are a collision. *)
Theorem redacted_content_bound rs rs' i c r r' :
  verify_chain rs = Ok tt → verify_chain rs' = Ok tt →
  collect_redactions rs !! N.of_nat i = Some c →
  collect_redactions rs' !! N.of_nat i = Some c →
  rs !! i = Some r → rs' !! i = Some r' → record_wire_ok r → record_wire_ok r' →
  same_hashed r r' ∨ collision (hash_input r) (hash_input r').
Proof.
  intros Hv%verify_chain_ok Hv'%verify_chain_ok Hc Hc' Hi Hi' Hw Hw'.
  destruct (Hv i r Hi) as (? & ? & Hok). destruct (Hv' i r' Hi') as (? & ? & Hok').
  unfold content_ok in *. rewrite Hc in Hok. rewrite Hc' in Hok'.
  destruct Hok as [Ho Hd], Hok' as [Ho' Hd'].
  destruct (recompute_eq r r') as [(?&?&?&?&?)|]; [done|done|congruence| |by right].
  left. unfold same_hashed. split_and!; congruence.
Qed.
End Collision.

Section Redaction.
Context `{CryptoLaws} `{SerdeJsonLaws}.

Lemma intact_this_hash_nonempty rs i r :
  intact rs → rs !! i = Some r → this_hash r ≠ "".
Proof.
  intros [Hv%verify_chain_ok _] Hi. destruct (Hv i r Hi) as (_ & _ & Hc).
  unfold content_ok in Hc.
  destruct (collect_redactions rs !! N.of_nat i) as [c|] eqn:E.
  - destruct Hc as [-> _]. by eapply collect_redactions_nonempty.
  - rewrite <- Hc. apply digest_hex_nonempty.
Qed.

Lemma prev_at_insert_same rs i r r' j :
  rs !! i = Some r → this_hash r' = this_hash r →
  prev_at (<[i:=r']> rs) j = prev_at rs j.
Proof.
  intros Hi Ht. destruct j as [|j]; [done|]. simpl.
  destruct (decide (i = j)) as [->|Hne].
  - rewrite list_lookup_insert_eq by (by eapply lookup_lt_Some). by rewrite Hi.
  - by rewrite list_lookup_insert_ne.
Qed.

(** Scrubbing a record's cleartext and appending its marker leaves the log
    intact: the erasure keeps sequence, linkage and every other record, and the
    redacted content verifies through the commitment. *)
Theorem redaction_intact rs i r pc' p' mpc at_ :
  intact rs → rs !! i = Some r → kind r ≠ PROVENANCE_REDACTION_KIND →
  N.of_nat (length rs) ≤ u64_max →
  let '(r', c) := redact_record r pc' p' in
  intact (records (append {| records := <[i:=r']> rs |} PROVENANCE_REDACTION_KIND mpc
                     (to_payload c (N.of_nat i)) at_).1).
Proof.
  intros Hint Hi Hk Hlen. set (r' := (redact_record r pc' p').1).
  set (c := (redact_record r pc' p').2). change (redact_record r pc' p') with (r', c).
  cbv beta iota. unfold append. cbn [fst records].
  pose proof (lookup_lt_Some _ _ _ Hi) as Hlt.
  pose proof (intact_this_hash_nonempty rs i r Hint Hi) as Hne.
  destruct Hint as [Hv%verify_chain_ok Hm].
  set (m := next_record _ _ _ _ _).
  assert (collect_redactions (<[i:=r']> rs ++ [m])
            = <[N.of_nat i := c]> (collect_redactions rs)) as Hred.
  { rewrite collect_redactions_snoc, (collect_redactions_insert rs i r) by done.
    unfold collect_step. rewrite decide_False by (intros Hx; by destruct Hx). simpl.
    rewrite parse_to_payload; [done|done|apply digest_hex_nonempty|lia]. }
  split.
  - apply verify_chain_ok. rewrite Hred. apply chain_ok_snoc.
    rewrite length_insert. split_and!; [|unfold m; simpl; unfold log_len; simpl; by rewrite length_insert|done|].
    + intros j x Hj. destruct (decide (i = j)) as [->|Hij].
      * rewrite list_lookup_insert_eq in Hj by done. simplify_eq.
        destruct (Hv j r Hi) as (Hs & Hp & _).
        unfold record_ok. rewrite (prev_at_insert_same rs j r) by done.
        unfold content_ok. rewrite lookup_insert_eq.
        split_and!; [done..|]. unfold recompute. simpl. by rewrite Hs.
      * rewrite list_lookup_insert_ne in Hj by done.
        destruct (Hv j x Hj) as (Hs & Hp & Hc).
        unfold record_ok. rewrite (prev_at_insert_same rs i r) by done.
        unfold content_ok in *. rewrite lookup_insert_ne by lia. done.
    + unfold content_ok. rewrite lookup_insert_ne by lia.
      destruct (collect_redactions rs !! N.of_nat (length rs)) as [c'|] eqn:E.
      * assert (N.of_nat (length rs) < N.of_nat (length rs)); [|lia]. apply Hm. by eexists.
      * done.
  - change (markers_past (<[i:=r']> rs ++ [m])). intros s.
    rewrite Hred, length_app, length_insert. simpl. intros Hs.
    destruct (decide (N.of_nat i = s)) as [<-|Hne']; [lia|].
    rewrite lookup_insert_ne in Hs by done. apply Hm in Hs. lia.
Qed.
End Redaction.

(** * Concrete logs *)

Module TamperExample.
#[local] Existing Instance Toy.toy.
#[local] Existing Instance Toy.toy_laws.
#[local] Existing Instance Codec.codec.
#[local] Existing Instance Codec.codec_laws.

Definition log1 : EventLog := (append EventLog_new "ref.update" ["user:alice"] "secret" 1).1.
Definition log2 : EventLog := (append log1 "pr.opened" ["user:alice"; "agent:x"] "p1" 2).1.

(** [log1] with its payload erased, and the marker. *)
Definition erased : EventRecord * RedactionCommitment :=
  redact_record (append EventLog_new "ref.update" ["user:alice"] "secret" 1).2 ["user:alice"] "[redacted]".
Definition log_erased : EventLog :=
  (append {| records := <[0%nat := erased.1]> (records log2) |} PROVENANCE_REDACTION_KIND
     ["user:alice"] (to_payload erased.2 0) 3).1.

(** A record of [log2] whose payload was changed afterwards. *)
Definition forged : list EventRecord :=
  (λ r, if decide (seq r = 1) then
     {| seq := seq r; prev_hash := prev_hash r; this_hash := this_hash r; kind := kind r;
        principal_chain := principal_chain r; payload := "p2"; recorded_at := recorded_at r |}
   else r) <$> records log2.

Lemma append_intact_witness : intact (records (append log1 "pr.opened" ["agent:x"] "p" 3).1).
Proof.
  apply append_intact; [done|]. split; [vm_compute; reflexivity|].
  assert (collect_redactions (records log1) = ∅) as He by (vm_compute; reflexivity).
  intros s. rewrite He, lookup_empty. by intros [? ?].
Defined.

Lemma verify_chain_first_violation_witness :
  ∃ i r, forged !! i = Some r ∧
    chain_ok (collect_redactions forged) (take i forged) ∧
    violation (collect_redactions forged) (N.of_nat i) (prev_at forged i) r
      (ThisHashMismatch 1 (default "" (recompute <$> forged !! 1%nat))
        (default "" (this_hash <$> forged !! 1%nat))).
Proof. apply verify_chain_first_violation. vm_compute. reflexivity. Defined.

Lemma verified_subset_is_prefix_witness :
  records log1 = take (length (records log1)) (records log2).
Proof.
  apply verified_subset_is_prefix; [vm_compute; reflexivity..|].
  intros r Hr. apply elem_of_app. by left.
Defined.

Lemma truncation_verifies_witness : verify_chain (take 1 (records log2)) = Ok tt.
Proof. apply truncation_verifies; [by_decision|vm_compute; reflexivity]. Defined.

Lemma same_head_same_history_witness :
  Forall2 same_hashed (records log2) (records log2) ∨
  ∃ r r', r ∈ records log2 ∧ r' ∈ records log2 ∧ collision (hash_input r) (hash_input r').
Proof.
  apply same_head_same_history;
    [vm_compute; reflexivity|vm_compute; reflexivity|vm_compute; reflexivity|
     vm_compute; reflexivity|done|done|reflexivity|unfold record_wire_ok; by_decision|
     unfold record_wire_ok; by_decision].
Defined.

Lemma redaction_intact_witness :
  let '(r', c) := redact_record (append EventLog_new "ref.update" ["user:alice"] "secret" 1).2
                    ["user:alice"] "[redacted]" in
  intact (records (append {| records := <[0%nat := r']> (records log2) |}
    PROVENANCE_REDACTION_KIND ["user:alice"] (to_payload c (N.of_nat 0)) 3).1).
Proof.
  apply (redaction_intact (records log2) 0); [|reflexivity|done|vm_compute; done].
  split; [vm_compute; reflexivity|].
  assert (collect_redactions (records log2) = ∅) as He by (vm_compute; reflexivity).
  intros s. rewrite He, lookup_empty. by intros [? ?].
Defined.

Lemma redacted_content_bound_witness :
  same_hashed erased.1 erased.1 ∨ collision (hash_input erased.1) (hash_input erased.1).
Proof.
  apply (redacted_content_bound (records log_erased) (records log_erased) 0 erased.2);
    [vm_compute; reflexivity..| |]; unfold record_wire_ok; by_decision.
Defined.
End TamperExample.
