(* ===== verification/Replay.v ===== *)
(** Deterministic projection of the log into a ref state:
    [crates/hugit-refstore/src/replay/mod.rs].

    [RefState] is a finite map from ref names to object ids; [replay] verifies
    the chain and folds the records.  The theorems: the projection of a ref is
    what the last event touching it wrote; a malformed instruction refuses the
    whole projection at its position; the canonical bytes of two states are
    equal only when the states are, for names and targets a line can carry. *)

From S2P Require Import Prelude Text Json JsonCodec Crypto Log Tamper.

(** * Data *)

Record RefState := { refs : gmap string string }.

Inductive ReplayError :=
| ReplayTamper (e : TamperError)
| BadPayload (seq : N) (kind : string).

Definition RefState_new : RefState := {| refs := ∅ |}.
Definition ref_get (st : RefState) (name : string) : option string := refs st !! name.
Definition ref_len (st : RefState) : nat := size (refs st).
Definition ref_is_empty (st : RefState) : bool := bool_decide (refs st = ∅).

(** [RefState::iter]: the bindings in name order. *)
Definition name_le : relation (string * string) := λ a b, String.le a.1 b.1.
#[global] Instance name_le_dec : RelDecision name_le.
Proof. intros a b. unfold name_le. apply _. Defined.
Definition ref_iter (st : RefState) : list (string * string) :=
  merge_sort name_le (map_to_list (refs st)).

(** One line per ref, in name order. *)
Definition canonical_bytes (st : RefState) : string :=
  foldr (λ '(name, target) out,
      name +:+ String " " (target +:+ String newline out)) EmptyString (ref_iter st).

(** * The fold *)

Definition bad (record : EventRecord) : ReplayError := BadPayload (seq record) (kind record).

Definition parse_payload `{SerdeJson} (record : EventRecord) : result ReplayError Value :=
  ok_or (bad record) (from_str (payload record)).

Definition has_key (v : Value) (k : string) : bool :=
  match value_get v k with Some _ => true | None => false end.

(** Captures that observe without moving a ref. *)
Definition inert_capture (v : Value) : bool :=
  has_key v "checkout"
  || bool_decide (value_get v "attempt" ≫= as_bool = Some true)
  || has_key v "merge_kind"
  || has_key v "rewrite"
  || has_key v "reference_transaction"
  || has_key v "reference_transaction_pairing".

Definition replay_step `{SerdeJson} (state : RefState) (record : EventRecord)
    : result ReplayError RefState :=
  if decide (kind record = "ref.update" ∨ kind record = INTENT_LANDED_KIND) then
    v ← parse_payload record;
    if inert_capture v then Ok state
    else
      name ← ok_or (bad record) (field_str v "ref");
      target ← ok_or (bad record) (field_str v "target");
      Ok {| refs := <[name := target]> (refs state) |}
  else if decide (kind record = "ref.delete") then
    v ← parse_payload record;
    name ← ok_or (bad record) (field_str v "ref");
    Ok {| refs := delete name (refs state) |}
  else Ok state.

Fixpoint replay_from `{SerdeJson} (state : RefState) (rs : list EventRecord)
    : result ReplayError RefState :=
  match rs with
  | [] => Ok state
  | r :: rs => state ← replay_step state r; replay_from state rs
  end.

Definition replay_unchecked `{SerdeJson} (rs : list EventRecord)
    : result ReplayError RefState :=
  replay_from RefState_new rs.

Definition replay `{Crypto} `{SerdeJson} (log : EventLog) : result ReplayError RefState :=
  _ ← map_err ReplayTamper (verify_chain (records log));
  replay_unchecked (records log).

(** * What one event does to the refs *)

Inductive Effect :=
| NoEffect
| SetRef (name target : string)
| DelRef (name : string)
| BadInstruction.

Definition effect `{SerdeJson} (r : EventRecord) : Effect :=
  if decide (kind r = "ref.update" ∨ kind r = INTENT_LANDED_KIND) then
    match from_str (payload r) with
    | None => BadInstruction
    | Some v =>
        if inert_capture v then NoEffect
        else match field_str v "ref", field_str v "target" with
             | Some n, Some t => SetRef n t
             | _, _ => BadInstruction
             end
    end
  else if decide (kind r = "ref.delete") then
    match from_str (payload r) ≫= λ v, field_str v "ref" with
    | Some n => DelRef n
    | None => BadInstruction
    end
  else NoEffect.

Definition apply_effect (e : Effect) (m : gmap string string) : gmap string string :=
  match e with
  | SetRef n t => <[n := t]> m
  | DelRef n => delete n m
  | NoEffect | BadInstruction => m
  end.

(** What an event writes to the ref [n]: nothing, or a new value ([None] for a
    deletion). *)
Definition write_to (n : string) (e : Effect) : option (option string) :=
  match e with
  | SetRef m t => if decide (m = n) then Some (Some t) else None
  | DelRef m => if decide (m = n) then Some None else None
  | NoEffect | BadInstruction => None
  end.

Definition touches (n : string) (e : Effect) : bool :=
  match write_to n e with Some _ => true | None => false end.

(** Bindings a canonical line can carry: the first space ends the name, the
    first newline ends the target. *)
Definition line_safe (b : string * string) : Prop :=
  has_char " " b.1 = false ∧ has_char newline b.2 = false.

(** * Properties *)

Lemma canonical_line_inj b b' out out' :
  line_safe b → line_safe b' →
  b.1 +:+ String " " (b.2 +:+ String newline out)
    = b'.1 +:+ String " " (b'.2 +:+ String newline out') →
  b = b' ∧ out = out'.
Proof.
  destruct b as [n t], b' as [n' t']. intros [Hn Ht] [Hn' Ht'] Heq. simpl in *.
  assert (Hs : split_once " " (n +:+ String " " (t +:+ String newline out)) =
    Some (n, t +:+ String newline out)) by by apply split_once_Some.
  rewrite Heq in Hs. apply split_once_Some in Hs as [Hs _].
  assert (Hs' : split_once " " (n' +:+ String " " (t' +:+ String newline out')) =
    Some (n', t' +:+ String newline out')) by by apply split_once_Some.
  rewrite Hs in Hs'. rewrite (proj2 (split_once_Some " " _ n _)) in Hs' by done.
  injection Hs' as <- Htl.
  pose proof (proj2 (split_once_Some newline _ t out) (conj eq_refl Ht)) as Ho.
  rewrite Htl, (proj2 (split_once_Some newline _ t' out') (conj eq_refl Ht')) in Ho.
  by injection Ho as -> ->.
Qed.

Lemma canonical_lines_inj l l' :
  Forall line_safe l → Forall line_safe l' →
  foldr (λ '(name, target) out, name +:+ String " " (target +:+ String newline out)) EmptyString l
  = foldr (λ '(name, target) out, name +:+ String " " (target +:+ String newline out)) EmptyString l' →
  l = l'.
Proof.
  intros Hl. revert l'. induction Hl as [|[n t] l Hb Hl IH]; intros ? [|[n' t'] l' Hb' Hl']; simpl.
  - done.
  - by destruct n'.
  - by destruct n.
  - intros Heq. apply (canonical_line_inj (n, t) (n', t')) in Heq as [-> Heq]; [|done..].
    by rewrite (IH l').
Qed.

(** Two states with the same canonical bytes are the same state, so comparing
    the bytes compares the projections. *)
Theorem canonical_bytes_inj st st' :
  map_Forall (λ n t, line_safe (n, t)) (refs st) →
  map_Forall (λ n t, line_safe (n, t)) (refs st') →
  canonical_bytes st = canonical_bytes st' ↔ st = st'.
Proof.
  intros Hs Hs'. split; [|by intros ->]. unfold canonical_bytes, ref_iter. intros Heq.
  apply canonical_lines_inj in Heq.
  - destruct st as [m], st' as [m']. f_equal. simpl in *. apply map_to_list_inj.
    by rewrite <- (merge_sort_Permutation name_le), Heq, merge_sort_Permutation.
  - rewrite merge_sort_Permutation. apply map_Forall_to_list in Hs.
    eapply Forall_impl; [exact Hs|]. by intros [].
  - rewrite merge_sort_Permutation. apply map_Forall_to_list in Hs'.
    eapply Forall_impl; [exact Hs'|]. by intros [].
Qed.


Section Replay.
Context `{SerdeJson}.

Lemma replay_step_effect st r :
  replay_step st r =
    match effect r with
    | BadInstruction => Err (bad r)
    | e => Ok {| refs := apply_effect e (refs st) |}
    end.
Proof.
  unfold replay_step, effect, parse_payload. destruct st as [m].
  repeat case_decide; try done.
  - destruct (from_str (payload r)) as [v|]; simpl; [|done].
    destruct (inert_capture v); [done|].
    destruct (field_str v "ref"), (field_str v "target"); done.
  - destruct (from_str (payload r)) as [v|]; simpl; [|done].
    destruct (field_str v "ref"); done.
Qed.

Lemma replay_from_app st rs rs' :
  replay_from st (rs ++ rs') = replay_from st rs ≫= λ st', replay_from st' rs'.
Proof.
  revert st. induction rs as [|r rs IH]; intros st; simpl; [done|].
  destruct (replay_step st r); simpl; [apply IH|done].
Qed.

Lemma replay_unchecked_snoc rs r :
  replay_unchecked (rs ++ [r]) = replay_unchecked rs ≫= λ st, replay_step st r.
Proof.
  unfold replay_unchecked. rewrite replay_from_app.
  destruct (replay_from RefState_new rs) as [st|]; simpl; [|done].
  by destruct (replay_step st r).
Qed.

Lemma lookup_apply_effect e m n :
  apply_effect e m !! n = match write_to n e with Some o => o | None => m !! n end.
Proof.
  destruct e as [|k t|k|]; simpl; try done; case_decide; subst;
    by rewrite ?lookup_insert_eq, ?lookup_delete_eq, ?lookup_insert_ne, ?lookup_delete_ne.
Qed.

(** A successful projection means no instruction was malformed. *)
Lemma replay_unchecked_ok_effects rs st :
  replay_unchecked rs = Ok st → Forall (λ r, effect r ≠ BadInstruction) rs.
Proof.
  revert st. induction rs as [|r rs IH] using rev_ind; intros st; [by constructor|].
  rewrite replay_unchecked_snoc. destruct (replay_unchecked rs) as [st'|]; simpl; [|done].
  rewrite replay_step_effect. intros Hs. apply Forall_app. split; [by eapply IH|].
  constructor; [|done]. by destruct (effect r).
Qed.

(** Conversely, well-formed instructions always project. *)
Lemma replay_unchecked_total rs :
  Forall (λ r, effect r ≠ BadInstruction) rs → ∃ st, replay_unchecked rs = Ok st.
Proof.
  induction rs as [|r rs IH] using rev_ind; [by eexists|].
  intros [Hrs [Hr _]%Forall_cons]%Forall_app. destruct (IH Hrs) as [st Hst].
  rewrite replay_unchecked_snoc, Hst. simpl. rewrite replay_step_effect.
  destruct (effect r) eqn:He; [by eexists..|done].
Qed.

(** Splitting "nothing after [i] touches [n]" on the last record. *)
Lemma untouched_snoc n rs r i :
  (∀ j r', (i < j)%nat → (rs ++ [r]) !! j = Some r' → touches n (effect r') = false) ↔
  ((i < length rs)%nat → touches n (effect r) = false) ∧
  ∀ j r', (i < j)%nat → rs !! j = Some r' → touches n (effect r') = false.
Proof.
  split.
  - intros Hall. split.
    + intros Hlt. apply (Hall (length rs)); [done|]. by apply list_lookup_middle.
    + intros j r' Hij Hj. apply (Hall j); [done|]. by apply lookup_app_l_Some.
  - intros [Hr Hrs] j r' Hij [Hj|[Hle Hj]]%lookup_app_Some; [by eapply Hrs|].
    apply list_lookup_singleton_Some in Hj as [? <-]. apply Hr. lia.
Qed.

(** C7. The ref state is the last word of the log on every ref: [n] points at [t]
    exactly when some event wrote [t] to [n] and no later event touches [n]. *)
Theorem replay_last_write rs st n t :
  replay_unchecked rs = Ok st →
  ref_get st n = Some t ↔
    ∃ i r, rs !! i = Some r ∧ effect r = SetRef n t ∧
      ∀ j r', (i < j)%nat → rs !! j = Some r' → touches n (effect r') = false.
Proof.
  revert st. unfold ref_get. induction rs as [|r rs IH] using rev_ind; intros st Hst.
  { unfold replay_unchecked in Hst. simpl in Hst. inv_eqs. simpl. rewrite lookup_empty.
    split; [done|]. intros (i & r & Hi & _). done. }
  rewrite replay_unchecked_snoc in Hst.
  destruct (replay_unchecked rs) as [st0|] eqn:Hst0; simpl in Hst; [|done].
  rewrite replay_step_effect in Hst.
  assert (refs st = apply_effect (effect r) (refs st0)) as ->.
  { destruct (effect r); simpl in Hst; by inv_eqs. }
  rewrite lookup_apply_effect.
  pose proof (untouched_snoc n rs r) as Hsplit.
  unfold touches in Hsplit at 2. destruct (write_to n (effect r)) as [o|] eqn:Ew.
  - split.
    + intros ->. exists (length rs), r. rewrite Hsplit.
      split_and!; [by apply list_lookup_middle| |lia|].
      * destruct (effect r) as [|k u|k|]; simpl in Ew; try done;
          case_decide; by simplify_eq.
      * intros j r' Hij Hj. apply lookup_lt_Some in Hj. lia.
    + intros (i & r' & Hi & He & Hlater). apply Hsplit in Hlater as [Hlt _].
      apply lookup_app_Some in Hi as [Hi|[Hle Hi]].
      * apply lookup_lt_Some in Hi. by apply Hlt in Hi.
      * apply list_lookup_singleton_Some in Hi as [? <-]. rewrite He in Ew. simpl in Ew.
        rewrite decide_True in Ew by done. by simplify_eq.
  - rewrite (IH _ eq_refl). split.
    + intros (i & r' & Hi & He & Hlater). exists i, r'. rewrite Hsplit.
      split_and!; [by apply lookup_app_l_Some|done|done|done].
    + intros (i & r' & Hi & He & Hlater). apply Hsplit in Hlater as [_ Hlater].
      apply lookup_app_Some in Hi as [Hi|[Hle Hi]]; [by exists i, r'|].
      apply list_lookup_singleton_Some in Hi as [? <-]. rewrite He in Ew. simpl in Ew.
      by rewrite decide_True in Ew.
Qed.

(** A refused projection names the first malformed instruction. *)
Theorem replay_first_bad rs e :
  replay_unchecked rs = Err e →
  ∃ i r, rs !! i = Some r ∧ effect r = BadInstruction ∧ e = BadPayload (seq r) (kind r) ∧
    ∃ st, replay_unchecked (take i rs) = Ok st.
Proof.
  revert e. induction rs as [|r rs IH] using rev_ind; intros e; [done|].
  rewrite replay_unchecked_snoc.
  destruct (replay_unchecked rs) as [st|e'] eqn:Hrs; simpl; intros Hst.
  - rewrite replay_step_effect in Hst. exists (length rs), r.
    rewrite take_app_length. destruct (effect r) eqn:He; try done. inv_eqs.
    split_and!; [by apply list_lookup_middle|done..|]. by exists st.
  - inv_eqs. destruct (IH _ eq_refl) as (i & r' & Hi & ? & ? & ?).
    exists i, r'. pose proof (lookup_lt_Some _ _ _ Hi).
    rewrite take_app_le by lia. split_and!; [by apply lookup_app_l_Some|done..].
Qed.
End Replay.

Module ReplayExample.
#[local] Existing Instance Toy.toy.
#[local] Existing Instance Codec.codec.

Definition update (n t : string) : string :=
  to_string (json_object [("ref", Str n); ("target", Str t)]).
Definition log1 : EventLog :=
  (append EventLog_new "ref.update" ["user:alice"] (update "refs/heads/main" "aa") 1).1.
Definition log2 : EventLog :=
  (append log1 "ref.update" ["user:alice"] (update "refs/heads/main" "bb") 2).1.
Definition log_bad : EventLog := (append log2 "ref.update" ["user:alice"] "{" 3).1.

Lemma replay_last_write_witness :
  ∃ i r, records log2 !! i = Some r ∧ effect r = SetRef "refs/heads/main" "bb" ∧
    ∀ j r', (i < j)%nat → records log2 !! j = Some r' → touches "refs/heads/main" (effect r') = false.
Proof.
  apply (replay_last_write (records log2) {| refs := {[ "refs/heads/main" := "bb" ]} |});
    vm_compute; reflexivity.
Defined.

Lemma replay_first_bad_witness :
  ∃ i r, records log_bad !! i = Some r ∧ effect r = BadInstruction ∧
    BadPayload 2 "ref.update" = BadPayload (seq r) (kind r) ∧
    ∃ st, replay_unchecked (take i (records log_bad)) = Ok st.
Proof. apply replay_first_bad. vm_compute. reflexivity. Defined.

Lemma canonical_bytes_inj_witness :
  canonical_bytes {| refs := {[ "a" := "x y"; "b" := "z" ]} |} =
  canonical_bytes {| refs := {[ "b" := "z"; "a" := "x y" ]} |} ↔
  {| refs := {[ "a" := "x y"; "b" := "z" ]} |} = {| refs := {[ "b" := "z"; "a" := "x y" ]} |}.
Proof.
  apply canonical_bytes_inj; simpl;
    repeat (apply map_Forall_insert_2; [done|]); apply map_Forall_empty.
Defined.
End ReplayExample.
