(* ===== verification/Intent.v ===== *)
(** Native intents and their projection to git:
    [crates/hugit-refstore/src/intent/{model,projection,import}/mod.rs] and
    [IntentSidecar] of [crates/hugit-contracts/src/intent_sidecar.rs].

    Both altitudes are folds of the same records: [intents_from_records] keeps
    the landed intents, [project_machine] every ref-mutating event.  The
    theorems: the two folds succeed and fail together, the commits of one are
    the intents of the other, and the recorded consistency check accepts them
    exactly when every generated message gives its id back; an import lands one
    event in the intent namespace and never the same id twice. *)

From S2P Require Import Prelude Text Json JsonCodec Crypto Log Authz Tamper Replay.

(** * The intent altitude *)

Definition RAW_PUSH_KINDS : list string := ["ref.update"; "ref.delete"].

Record Intent := {
  intent_seq : N;
  intent_id : string;
  intent_ref : string;
  intent_target : string;
  charter : string;
  intent_chain : list string;
  intent_recorded_at : N;
}.

Record IntentLog := { intents : list Intent }.

Definition IntentLog_new : IntentLog := {| intents := [] |}.
Definition intent_len (l : IntentLog) : nat := length (intents l).
Definition intent_is_empty (l : IntentLog) : bool := bool_decide (intents l = []).

(** [IntentLog::by_id]: the first intent with the id. *)
Definition by_id (l : IntentLog) (id : string) : option Intent :=
  head (filter (λ i, intent_id i = id) (intents l)).

Definition id_set (l : IntentLog) : gset string := list_to_set (intent_id <$> intents l).

Inductive IntentModelError :=
| BadIntentPayload (seq : N).

Definition parse_intent `{SerdeJson} (record : EventRecord) : result IntentModelError Intent :=
  let bad := BadIntentPayload (seq record) in
  v ← ok_or bad (from_str (payload record));
  id ← ok_or bad (field_str v "intent_id");
  ref_name ← ok_or bad (field_str v "ref");
  target ← ok_or bad (field_str v "target");
  ch ← ok_or bad (field_str v "charter");
  Ok {| intent_seq := seq record; intent_id := id; intent_ref := ref_name;
        intent_target := target; charter := ch;
        intent_chain := principal_chain record;
        intent_recorded_at := recorded_at record |}.

Fixpoint collect_intents `{SerdeJson} (records : list EventRecord)
    : result IntentModelError (list Intent) :=
  match records with
  | [] => Ok []
  | record :: records =>
      if decide (kind record = INTENT_LANDED_KIND) then
        i ← parse_intent record;
        found ← collect_intents records;
        Ok (i :: found)
      else collect_intents records
  end.

Definition intents_from_records `{SerdeJson} (records : list EventRecord)
    : result IntentModelError IntentLog :=
  found ← collect_intents records; Ok {| intents := found |}.

Definition intents_from_log `{SerdeJson} (log : EventLog) : result IntentModelError IntentLog :=
  intents_from_records (records log).

Definition is_raw_push (kind : string) : bool := bool_decide (kind ∈ RAW_PUSH_KINDS).

(** * The machine altitude *)

Record GitCommit := {
  commit_seq : N;
  commit_intent_id : string;
  commit_ref : string;
  commit_target : string;
  message : string;
}.

Definition trailer : string := "Intent-Id: ".
Definition blank_line : string := String newline (String newline EmptyString).

Definition generate_message (intent : Intent) : string :=
  charter intent +:+ blank_line +:+ trailer +:+ intent_id intent.

Definition from_intent (intent : Intent) : GitCommit :=
  {| commit_seq := intent_seq intent; commit_intent_id := intent_id intent;
     commit_ref := intent_ref intent; commit_target := intent_target intent;
     message := generate_message intent |}.

Definition intent_id_from_message (message : string) : option string :=
  trim <$> head (omap (strip_prefix trailer) (lines message)).

Inductive ProjectionRow :=
| IntentRow (c : GitCommit)
| ExternalChange (seq : N) (kind : string) (ref_name target : option string).

Definition row_seq (r : ProjectionRow) : N :=
  match r with IntentRow c => commit_seq c | ExternalChange s _ _ _ => s end.
Definition is_intent (r : ProjectionRow) : bool :=
  match r with IntentRow _ => true | ExternalChange _ _ _ _ => false end.

Record MachineHistory := { rows : list ProjectionRow }.

Definition machine_len (h : MachineHistory) : nat := length (rows h).
Definition machine_is_empty (h : MachineHistory) : bool :=
  match rows h with [] => true | _ => false end.
Definition commits (h : MachineHistory) : list GitCommit :=
  omap (λ r, match r with IntentRow c => Some c | ExternalChange _ _ _ _ => None end) (rows h).
Definition external_changes (h : MachineHistory) : list ProjectionRow :=
  filter (λ r, is_intent r = false) (rows h).

(** One pass over the intents, drawing the commits in step. *)
Fixpoint consistent (cs : list GitCommit) (ints : list Intent) : bool :=
  match ints with
  | [] => match cs with [] => true | _ => false end
  | i :: ints =>
      match cs with
      | [] => false
      | c :: cs =>
          if bool_decide (commit_seq c ≠ intent_seq i)
             || bool_decide (commit_intent_id c ≠ intent_id i)
             || bool_decide (commit_ref c ≠ intent_ref i)
             || bool_decide (commit_target c ≠ intent_target i)
          then false
          else if bool_decide (intent_id_from_message (message c) ≠ Some (intent_id i))
          then false
          else consistent cs ints
      end
  end.

Definition is_consistent_with (h : MachineHistory) (intent_altitude : IntentLog) : bool :=
  consistent (commits h) (intents intent_altitude).

Inductive ProjectionError :=
| ProjectionModel (e : IntentModelError).

Definition project `{SerdeJson} (log : EventLog) : result ProjectionError IntentLog :=
  map_err ProjectionModel (intents_from_records (records log)).

Definition external_change_row `{SerdeJson} (record : EventRecord) : ProjectionRow :=
  let parsed := from_str (payload record) in
  ExternalChange (seq record) (kind record)
    (parsed ≫= λ v, field_str v "ref") (parsed ≫= λ v, field_str v "target").

Fixpoint machine_rows `{SerdeJson} (records : list EventRecord)
    : result IntentModelError (list ProjectionRow) :=
  match records with
  | [] => Ok []
  | record :: records =>
      if decide (kind record = INTENT_LANDED_KIND) then
        intent ← parse_intent record;
        rows ← machine_rows records;
        Ok (IntentRow (from_intent intent) :: rows)
      else if is_raw_push (kind record) then
        rows ← machine_rows records;
        Ok (external_change_row record :: rows)
      else machine_rows records
  end.

Definition project_machine `{SerdeJson} (log : EventLog) : result ProjectionError MachineHistory :=
  rows ← map_err ProjectionModel (machine_rows (records log)); Ok {| rows := rows |}.

(** * Import *)

Record IntentSidecar := {
  sidecar_intent_id : string;
  sidecar_charter : string;
  acceptance : list string;
  context_ref : string;
  authoritative : bool;
}.

Inductive ImportError :=
| EmptyIntentId
| DuplicateIntentId (intent_id : string)
| ProtectedRef (ref_name : string)
| ImportDenied (reason : DenyReason).

Definition is_intent_namespace (ref_name : string) : bool := starts_with ref_name "refs/hugit/".

Definition landed_as `{SerdeJson} (intent_id : string) (r : EventRecord) : bool :=
  bool_decide (kind r = INTENT_LANDED_KIND)
  && bool_decide ((from_str (payload r) ≫= λ v, field_str v "intent_id") = Some intent_id).

Definition already_landed `{SerdeJson} (log : EventLog) (intent_id : string) : bool :=
  existsb (landed_as intent_id) (records log).

Definition import_payload `{SerdeJson} (sidecar : IntentSidecar) (ref_name target : string) : string :=
  to_string (json_object
    [("intent_id", Str (sidecar_intent_id sidecar)); ("ref", Str ref_name);
     ("target", Str target); ("charter", Str (sidecar_charter sidecar))]).

Definition import_sidecar `{Crypto} `{SerdeJson} (log : EventLog) (sidecar : IntentSidecar)
    (ref_name target : string) (principal_chain : list string) (recorded_at : N)
    : EventLog * result ImportError EventRecord :=
  if negb (is_intent_namespace ref_name) then (log, Err (ProtectedRef ref_name))
  else if decide (sidecar_intent_id sidecar = "") then (log, Err EmptyIntentId)
  else if already_landed log (sidecar_intent_id sidecar)
  then (log, Err (DuplicateIntentId (sidecar_intent_id sidecar)))
  else
    let payload := import_payload sidecar ref_name target in
    let actor_class := default Worker (last principal_chain ≫= classify) in
    let '(log, res) :=
      append_authorized log actor_class Push INTENT_LANDED_KIND principal_chain
        payload recorded_at in
    (log, map_err (λ denied, ImportDenied (denied_reason denied)) res).

(** * Messages give the id back *)

Lemma lines_message i :
  has_char newline (intent_id i) = false →
  lines (generate_message i) =
    lines (charter i +:+ String newline "") ++ [""; trailer +:+ intent_id i].
Proof.
  intros Hid. unfold lines, generate_message, blank_line.
  change (String newline (String newline "") +:+ ?t) with (String newline (String newline t)).
  rewrite split_inclusive_app, fmap_app. f_equal.
  cbn [split_inclusive]. rewrite decide_True by done.
  rewrite split_inclusive_single; [done|done|exact Hid].
Qed.

(** An intent whose message carries one trailer, with an id that survives the
    reader's trimming. *)
Definition message_safe (i : Intent) : Prop :=
  Forall (λ l, strip_prefix trailer l = None) (lines (charter i +:+ String newline "")) ∧
  has_char newline (intent_id i) = false ∧ trim (intent_id i) = intent_id i.

Lemma omap_all_none {A B} (f : A → option B) l : Forall (λ x, f x = None) l → omap f l = [].
Proof. induction 1 as [|x l Hx _ IH]; simpl; [done|]. by rewrite Hx. Qed.

Lemma message_gives_id i :
  message_safe i → intent_id_from_message (generate_message i) = Some (intent_id i).
Proof.
  intros (Hc & Hn & Ht). unfold intent_id_from_message.
  rewrite lines_message, omap_app, (omap_all_none _ _ Hc) by done.
  cbn [app omap list_omap].
  assert (strip_prefix trailer "" = None) as -> by done.
  rewrite (proj2 (strip_prefix_Some trailer _ (intent_id i)) eq_refl). simpl. by rewrite Ht.
Qed.

(** * The altitudes *)

Definition message_ok (i : Intent) : Prop :=
  intent_id_from_message (generate_message i) = Some (intent_id i).

Lemma consistent_from_intent l :
  consistent (from_intent <$> l) l = true ↔ Forall message_ok l.
Proof.
  induction l as [|i l IH]; [by split|]. simpl.
  rewrite !(bool_decide_false (_ ≠ _)) by (intros Hn; by apply Hn).
  simpl. rewrite Forall_cons, <- IH. unfold message_ok. case_bool_decide; naive_solver.
Qed.

Section Altitudes.
Context `{SerdeJson}.

Lemma parse_intent_seq r i : parse_intent r = Ok i → intent_seq i = seq r.
Proof.
  unfold parse_intent. destruct (from_str (payload r)) as [v|]; simpl; [|done].
  destruct (field_str v "intent_id"); simpl; [|done].
  destruct (field_str v "ref"); simpl; [|done].
  destruct (field_str v "target"); simpl; [|done].
  destruct (field_str v "charter"); simpl; [|done].
  intros ?. by inv_eqs.
Qed.

Lemma altitudes_align rs :
  match machine_rows rs, collect_intents rs with
  | Ok ps, Ok l => commits {| rows := ps |} = from_intent <$> l
  | Err e, Err e' => e = e'
  | _, _ => False
  end.
Proof.
  unfold commits. simpl rows. induction rs as [|r rs IH]; simpl; [done|]. case_decide.
  - destruct (parse_intent r) as [i|e]; simpl; [|done].
    destruct (machine_rows rs), (collect_intents rs); simpl in *; try done.
    f_equal. exact IH.
  - destruct (is_raw_push (kind r)); [|done].
    destruct (machine_rows rs), (collect_intents rs); simpl in *; done.
Qed.

(** The two altitudes never disagree on which intents landed: they are refused
    together, with the same error, and otherwise the commits of the machine
    history are the generated commits of the intent log in order.  The
    recorded consistency check accepts them exactly when every generated
    message gives its id back, which holds for every intent whose charter has
    no trailer line of its own and whose id is a trimmed line. *)
Theorem altitudes_agree log :
  match project_machine log, project log with
  | Ok h, Ok l =>
      commits h = from_intent <$> intents l ∧
      (is_consistent_with h l = true ↔ Forall message_ok (intents l)) ∧
      (Forall message_safe (intents l) → is_consistent_with h l = true)
  | Err e, Err e' => e = e'
  | _, _ => False
  end.
Proof.
  unfold project_machine, project, intents_from_records.
  pose proof (altitudes_align (records log)) as Ha.
  destruct (machine_rows (records log)) as [ps|], (collect_intents (records log)) as [l|];
    simpl in *; try done; [|by subst].
  unfold is_consistent_with. rewrite Ha. simpl. rewrite consistent_from_intent.
  split_and!; [done|done|]. intros Hs. eapply Forall_impl; [exact Hs|].
  intros i. apply message_gives_id.
Qed.

Definition ref_mutating (r : EventRecord) : Prop :=
  kind r = INTENT_LANDED_KIND ∨ is_raw_push (kind r) = true.
#[local] Instance ref_mutating_dec r : Decision (ref_mutating r).
Proof. unfold ref_mutating. apply _. Defined.

(** The machine history has one row for every ref-mutating event, in log
    order, and a row claims provenance exactly for a landed intent: no raw push
    is ever turned into one. *)
Theorem machine_history_rows log h :
  project_machine log = Ok h →
  (λ p, (row_seq p, is_intent p)) <$> rows h =
  (λ r, (seq r, bool_decide (kind r = INTENT_LANDED_KIND))) <$> filter ref_mutating (records log).
Proof.
  unfold project_machine. destruct (machine_rows (records log)) as [ps|] eqn:E; simpl; [|done].
  intros ?. inv_eqs. simpl. revert ps E.
  induction (records log) as [|r rs IH]; intros ps E; simpl in E; [by inv_eqs|].
  rewrite filter_cons. destruct (decide (kind r = INTENT_LANDED_KIND)) as [Hk|Hk].
  - rewrite decide_True by by left. destruct (parse_intent r) as [i|] eqn:Ei; simpl in E; [|done].
    destruct (machine_rows rs) as [qs|]; simpl in E; [|done]. inv_eqs. simpl.
    rewrite bool_decide_true, (parse_intent_seq r i) by done. f_equal. by apply IH.
  - destruct (is_raw_push (kind r)) eqn:Hp.
    + rewrite decide_True by by right. destruct (machine_rows rs); simpl in E; [|done].
      inv_eqs. simpl. rewrite bool_decide_false by done. f_equal. by apply IH.
    + rewrite decide_False by (intros [?|?]; [done|congruence]). by apply IH.
Qed.
End Altitudes.

(** * Import *)

(** The ids the log's landed intents carry. *)
Definition landed_id `{SerdeJson} (r : EventRecord) : option string :=
  if decide (kind r = INTENT_LANDED_KIND)
  then from_str (payload r) ≫= λ v, field_str v "intent_id" else None.
Definition landed_ids `{SerdeJson} (rs : list EventRecord) : list string := omap landed_id rs.

Section Importing.
Context `{Crypto} `{SerdeJsonLaws}.

Lemma landed_as_id id r : landed_as id r = true ↔ landed_id r = Some id.
Proof.
  unfold landed_as, landed_id. rewrite andb_true_iff, !bool_decide_eq_true.
  case_decide; naive_solver.
Qed.

Lemma already_landed_elem log id : already_landed log id = true ↔ id ∈ landed_ids (records log).
Proof.
  unfold already_landed, landed_ids. rewrite existsb_exists, list_elem_of_omap.
  setoid_rewrite landed_as_id. setoid_rewrite <- list_elem_of_In. done.
Qed.

Lemma import_payload_parses sc n t :
  from_str (import_payload sc n t) = Some (json_object
    [("intent_id", Str (sidecar_intent_id sc)); ("ref", Str n);
     ("target", Str t); ("charter", Str (sidecar_charter sc))]).
Proof. by apply from_str_to_string. Qed.

(** The actor's class never matters to an import: its endpoint is open to all. *)
Lemma import_sidecar_eq log sc n t pc at_ :
  import_sidecar log sc n t pc at_ =
  if negb (is_intent_namespace n) then (log, Err (ProtectedRef n))
  else if decide (sidecar_intent_id sc = "") then (log, Err EmptyIntentId)
  else if decide (sidecar_intent_id sc ∈ landed_ids (records log))
  then (log, Err (DuplicateIntentId (sidecar_intent_id sc)))
  else let '(log', r) := append log INTENT_LANDED_KIND pc (import_payload sc n t) at_ in
       (log', Ok r).
Proof.
  unfold import_sidecar. destruct (negb _); [done|]. case_decide; [done|].
  pose proof (already_landed_elem log (sidecar_intent_id sc)) as Ha.
  destruct (already_landed _ _), (decide (sidecar_intent_id sc ∈ landed_ids (records log)));
    try naive_solver.
  unfold append_authorized, authorize_class. by destruct (default Worker _).
Qed.

(** An accepted import lands exactly one event: it parses back to the sidecar's
    id and charter at the requested ref and target, that ref is in the intent
    namespace, and the projected refs change there and nowhere else. *)
Theorem import_sidecar_lands log sc n t pc at_ log' r :
  import_sidecar log sc n t pc at_ = (log', Ok r) →
  starts_with n "refs/hugit/" = true ∧ records log' = records log ++ [r] ∧
  parse_intent r = Ok {| intent_seq := seq r; intent_id := sidecar_intent_id sc;
    intent_ref := n; intent_target := t; charter := sidecar_charter sc;
    intent_chain := pc; intent_recorded_at := at_ |} ∧
  ∀ st, replay_unchecked (records log) = Ok st →
    replay_unchecked (records log') = Ok {| refs := <[n := t]> (refs st) |}.
Proof.
  rewrite import_sidecar_eq. unfold append, is_intent_namespace.
  destruct (starts_with n "refs/hugit/"); simpl; [|done].
  case_decide; [done|]. case_decide; [done|]. intros ?. inv_eqs. simpl.
  split_and!; [done|done| |].
  - unfold parse_intent. simpl. by rewrite import_payload_parses.
  - intros st Hst. rewrite replay_unchecked_snoc, Hst. simpl.
    unfold replay_step, parse_payload. simpl. by rewrite import_payload_parses.
Qed.

(** A refused import leaves the log untouched and says which rule it broke; the
    rules are tried in the order namespace, empty id, duplicate id, and the
    authorization refusal cannot occur. *)
Theorem import_sidecar_refuses log sc n t pc at_ log' e :
  import_sidecar log sc n t pc at_ = (log', Err e) →
  log' = log ∧
  match e with
  | ProtectedRef n' => n' = n ∧ starts_with n "refs/hugit/" = false
  | EmptyIntentId => starts_with n "refs/hugit/" = true ∧ sidecar_intent_id sc = ""
  | DuplicateIntentId id =>
      starts_with n "refs/hugit/" = true ∧ id = sidecar_intent_id sc ∧ id ≠ "" ∧
      id ∈ landed_ids (records log)
  | ImportDenied _ => False
  end.
Proof.
  rewrite import_sidecar_eq. unfold append, is_intent_namespace.
  destruct (starts_with n "refs/hugit/"); simpl; [|intros ?; by inv_eqs].
  case_decide; [intros ?; by inv_eqs|]. case_decide; intros ?; by inv_eqs.
Qed.

(** One lifecycle, one id: importing keeps the landed ids distinct, whatever
    the request. *)
Theorem import_ids_unique log sc n t pc at_ :
  NoDup (landed_ids (records log)) →
  NoDup (landed_ids (records (import_sidecar log sc n t pc at_).1)).
Proof.
  intros Hnd. rewrite import_sidecar_eq. destruct (negb _); [done|]. case_decide; [done|].
  case_decide as Hid; [done|]. unfold append, landed_ids. simpl. rewrite omap_app. simpl.
  unfold landed_id at 2. simpl. rewrite import_payload_parses. simpl.
  apply NoDup_app. split_and!; [done| |apply NoDup_singleton].
  intros x Hx ->%list_elem_of_singleton. by apply Hid.
Qed.
End Importing.

Module IntentExample.
#[local] Existing Instance Toy.toy.
#[local] Existing Instance Codec.codec.
#[local] Existing Instance Codec.codec_laws.

Definition sidecar (id : string) : IntentSidecar :=
  {| sidecar_intent_id := id; sidecar_charter := "do it"; acceptance := []; context_ref := "cas";
     authoritative := false |}.
Definition imported : EventLog * result ImportError EventRecord :=
  import_sidecar EventLog_new (sidecar "i-1") "refs/hugit/intents" "t1" ["agent:x"] 4.

Lemma import_sidecar_lands_witness :
  ∃ r, imported = (imported.1, Ok r) ∧ records imported.1 = [r] ∧
    replay_unchecked (records imported.1) = Ok {| refs := {[ "refs/hugit/intents" := "t1" ]} |}.
Proof.
  eexists. split; [vm_compute; reflexivity|].
  destruct (import_sidecar_lands EventLog_new (sidecar "i-1") "refs/hugit/intents" "t1"
    ["agent:x"] 4 imported.1 _ eq_refl) as (_ & Hr & _ & Hst).
  split; [exact Hr|]. apply (Hst RefState_new). reflexivity.
Defined.

(** A branch is not in the intent namespace. *)
Lemma import_sidecar_refuses_witness :
  (import_sidecar EventLog_new (sidecar "i-1") "refs/heads/main" "t1" ["orch:lead"] 4).1
    = EventLog_new ∧ "refs/heads/main" = "refs/heads/main" ∧
  starts_with "refs/heads/main" "refs/hugit/" = false.
Proof.
  apply (import_sidecar_refuses EventLog_new (sidecar "i-1") "refs/heads/main" "t1" ["orch:lead"] 4
    _ (ProtectedRef "refs/heads/main")).
  vm_compute. reflexivity.
Defined.

Lemma import_ids_unique_witness :
  NoDup (landed_ids (records
    (import_sidecar imported.1 (sidecar "i-2") "refs/hugit/intents" "t2" ["agent:x"] 5).1)).
Proof. apply import_ids_unique. by_decision. Defined.
End IntentExample.
