(* ===== verification/Undo.v ===== *)
(** Undo as a compensating event: [crates/hugit-refstore/src/undo/mod.rs].

    [compute_compensation] replays the prefix before the target and builds the
    event that restores its ref; [undo] appends it through the audited guard.
    The theorems: an accepted undo restores the ref and touches nothing else
    (when nothing later touched the ref, the state is that of the log with the
    undone event left out); a denied one leaves the refs alone and is audited;
    every other refusal leaves the log unchanged. *)

From S2P Require Import Prelude Json JsonCodec Crypto Log Authz Tamper Replay.

Record Compensation := {
  comp_kind : string;
  comp_payload : string;
  comp_ref : string;
}.

Inductive UndoError :=
| OutOfRange (target len : N)
| NothingToCompensate (target : N) (kind : string)
| BadTargetPayload (target : N) (kind : string)
| UndoTamper (e : TamperError)
| UndoReplay (e : ReplayError)
| UndoDenied (reason : DenyReason).

Definition canonical_update `{SerdeJson} (name target : string) : string :=
  to_string (json_object [("ref", Str name); ("target", Str target)]).
Definition canonical_delete `{SerdeJson} (name : string) : string :=
  to_string (json_object [("ref", Str name)]).

(** The ref the target operation names. *)
Definition target_ref `{SerdeJson} (target : N) (target_rec : EventRecord)
    : result UndoError string :=
  if decide (kind target_rec ∈ ["ref.update"; "ref.delete"; INTENT_LANDED_KIND]) then
    v ← ok_or (BadTargetPayload target (kind target_rec)) (from_str (payload target_rec));
    ok_or (BadTargetPayload target (kind target_rec)) (field_str v "ref")
  else Err (NothingToCompensate target (kind target_rec)).

Definition compute_compensation `{Crypto} `{SerdeJson} (log : EventLog) (target : N)
    : result UndoError Compensation :=
  _ ← map_err UndoTamper (verify_chain (records log));
  match records log !! N.to_nat target with
  | None => Err (OutOfRange target (N.of_nat (length (records log))))
  | Some target_rec =>
      ref_name ← target_ref target target_rec;
      prior ← map_err UndoReplay (replay_unchecked (take (N.to_nat target) (records log)));
      match ref_get prior ref_name with
      | Some prior_target =>
          Ok {| comp_kind := "ref.update";
                comp_payload := canonical_update ref_name prior_target;
                comp_ref := ref_name |}
      | None =>
          Ok {| comp_kind := "ref.delete";
                comp_payload := canonical_delete ref_name;
                comp_ref := ref_name |}
      end
  end.

Definition undo `{Crypto} `{SerdeJson} (log : EventLog) (target : N)
    (principal_chain : list string) (recorded_at : N) : EventLog * result UndoError Compensation :=
  match compute_compensation log target with
  | Err e => (log, Err e)
  | Ok comp =>
      let '(log, (decision, _)) := guard_authorize log principal_chain Undo recorded_at in
      match decision with
      | Allow =>
          let '(log, _) :=
            append log (comp_kind comp) principal_chain (comp_payload comp) recorded_at in
          (log, Ok comp)
      | Deny reason => (log, Err (UndoDenied reason))
      end
  end.

(** * The projection as a fold of effects *)

Definition apply_effects `{SerdeJson} (m : gmap string string) (rs : list EventRecord) :=
  foldl (λ m r, apply_effect (effect r) m) m rs.

Section Effects.
Context `{SerdeJson}.

Lemma replay_effects rs :
  Forall (λ r, effect r ≠ BadInstruction) rs →
  replay_unchecked rs = Ok {| refs := apply_effects ∅ rs |}.
Proof.
  induction rs as [|r rs IH] using rev_ind; [done|].
  intros [Hrs [Hr _]%Forall_cons]%Forall_app.
  rewrite replay_unchecked_snoc, (IH Hrs). simpl. rewrite replay_step_effect.
  unfold apply_effects. rewrite foldl_app. simpl. by destruct (effect r).
Qed.

Lemma replay_ok_iff rs st :
  replay_unchecked rs = Ok st ↔
    Forall (λ r, effect r ≠ BadInstruction) rs ∧ st = {| refs := apply_effects ∅ rs |}.
Proof.
  split.
  - intros Hr. pose proof (replay_unchecked_ok_effects _ _ Hr) as Hf. split; [done|].
    rewrite replay_effects in Hr by done. by inv_eqs.
  - intros [Hf ->]. by apply replay_effects.
Qed.

(** What a ref holds after some events depends on what it held before, and only
    if none of them touches it. *)
Lemma apply_effects_lookup m m' rs n :
  m !! n = m' !! n → apply_effects m rs !! n = apply_effects m' rs !! n.
Proof.
  unfold apply_effects. revert m m'. induction rs as [|r rs IH]; intros m m' Hm; simpl; [done|].
  apply IH. rewrite !lookup_apply_effect. by destruct (write_to n (effect r)).
Qed.

Lemma apply_effects_untouched m rs n :
  Forall (λ r, touches n (effect r) = false) rs → apply_effects m rs !! n = m !! n.
Proof.
  unfold apply_effects. intros Hf. revert m.
  induction Hf as [|r rs Hr _ IH]; intros m; simpl; [done|].
  rewrite IH, lookup_apply_effect. unfold touches in Hr. by destruct (write_to n (effect r)).
Qed.
End Effects.

(** * Properties *)

Section UndoProps.
Context `{Crypto} `{SerdeJsonLaws}.

Lemma canonical_update_effect k pc n t at_ log :
  k = "ref.update" →
  effect (next_record log k pc (canonical_update n t) at_) = SetRef n t.
Proof.
  intros ->. unfold effect. simpl. unfold canonical_update.
  by rewrite from_str_to_string.
Qed.

Lemma canonical_delete_effect k pc n at_ log :
  k = "ref.delete" → effect (next_record log k pc (canonical_delete n) at_) = DelRef n.
Proof.
  intros ->. unfold effect. simpl. unfold canonical_delete.
  by rewrite from_str_to_string.
Qed.

(** What a computed compensation is. *)
Lemma compute_compensation_ok log target comp :
  compute_compensation log target = Ok comp →
  verify_chain (records log) = Ok tt ∧
  ∃ r prior, records log !! N.to_nat target = Some r ∧
    replay_unchecked (take (N.to_nat target) (records log)) = Ok prior ∧
    target_ref target r = Ok (comp_ref comp) ∧
    ∀ log0 pc at_,
      effect (next_record log0 (comp_kind comp) pc (comp_payload comp) at_) =
      match ref_get prior (comp_ref comp) with
      | Some t => SetRef (comp_ref comp) t
      | None => DelRef (comp_ref comp)
      end.
Proof.
  unfold compute_compensation. destruct (verify_chain _) as [[]|]; simpl; [|done].
  destruct (records log !! _) as [r|]; [|done].
  destruct (target_ref target r) as [n|] eqn:Ht; simpl; [|done].
  destruct (replay_unchecked _) as [prior|]; simpl; [|done].
  destruct (ref_get prior n) as [t|] eqn:Hn; intros ?; inv_eqs; (split; [done|]);
    exists r, prior; (split_and!; [done..|]); intros; simpl; rewrite Hn.
  - by apply canonical_update_effect.
  - by apply canonical_delete_effect.
Qed.

(** A ref other than the named one is not touched by the target operation. *)
Lemma target_ref_touches target r n n' :
  target_ref target r = Ok n → n' ≠ n → touches n' (effect r) = false.
Proof.
  unfold target_ref, effect. case_decide as Hk; [|done].
  destruct (from_str (payload r)) as [v|]; simpl; [|done].
  destruct (field_str v "ref") as [m|] eqn:Hm; simpl; [|done]. intros ? Hn'. inv_eqs.
  unfold touches. repeat case_decide; simpl; rewrite ?Hm; simpl.
  - destruct (inert_capture v); [done|]. destruct (field_str v "target"); simpl; [|done].
    by rewrite decide_False.
  - by rewrite decide_False.
  - done.
Qed.

Lemma undo_ok_inv log target pc at_ log' comp :
  undo log target pc at_ = (log', Ok comp) →
  compute_compensation log target = Ok comp ∧ authorize pc Undo = Allow ∧
  log' = (append log (comp_kind comp) pc (comp_payload comp) at_).1.
Proof.
  unfold undo, guard_authorize. destruct (compute_compensation log target) as [c|]; [|done].
  destruct (authorize pc Undo); simpl; [|done]. intros ?. by inv_eqs.
Qed.

(** C8. An accepted undo was issued by a human, keeps the whole history, and gives
    the compensated ref the value it had just before the target operation;
    every other ref keeps its current value. *)
Theorem undo_restores log target pc at_ log' comp st :
  undo log target pc at_ = (log', Ok comp) →
  replay_unchecked (records log) = Ok st →
  permitted pc Undo ∧
  (∃ r, records log' = records log ++ [r]) ∧
  ∃ prior st', replay_unchecked (take (N.to_nat target) (records log)) = Ok prior ∧
    replay_unchecked (records log') = Ok st' ∧
    ref_get st' (comp_ref comp) = ref_get prior (comp_ref comp) ∧
    ∀ n, n ≠ comp_ref comp → ref_get st' n = ref_get st n.
Proof.
  intros (Hc & Ha & ->)%undo_ok_inv Hst.
  apply compute_compensation_ok in Hc as (_ & r & prior & _ & Hp & _ & He).
  split; [by apply authorize_allow|]. split; [by eexists|].
  exists prior. unfold append. simpl. rewrite replay_unchecked_snoc, Hst. simpl.
  rewrite replay_step_effect, He. unfold ref_get in *.
  destruct (refs prior !! comp_ref comp) as [t|] eqn:Ht; eexists; (split_and!; [done|done|..]); simpl.
  - by rewrite lookup_insert_eq.
  - intros n Hn. by rewrite lookup_insert_ne.
  - by rewrite lookup_delete_eq.
  - intros n Hn. by rewrite lookup_delete_ne.
Qed.

(** When nothing later touched the ref, undoing an operation projects to the
    same refs as the log with that operation left out. *)
Theorem undo_as_if_skipped log target pc at_ log' comp st :
  undo log target pc at_ = (log', Ok comp) →
  replay_unchecked (records log) = Ok st →
  Forall (λ r, touches (comp_ref comp) (effect r) = false)
    (drop (S (N.to_nat target)) (records log)) →
  replay_unchecked (records log') =
  replay_unchecked (take (N.to_nat target) (records log) ++
                    drop (S (N.to_nat target)) (records log)).
Proof.
  intros (Hc & _ & ->)%undo_ok_inv [Hok ->]%replay_ok_iff Hlater.
  apply compute_compensation_ok in Hc as (_ & r & prior & Hr & Hp & Ht & He).
  set (a := take _ _) in *. set (b := drop _ _) in *.
  assert (records log = a ++ r :: b) as Hsplit by (symmetry; by apply take_drop_middle).
  rewrite Hsplit in Hok. apply Forall_app in Hok as [Ha [Hrb Hb]%Forall_cons].
  apply replay_ok_iff in Hp as [_ ->]. unfold ref_get in He. simpl in He.
  unfold append. simpl. rewrite !replay_effects; [|by apply Forall_app|].
  - do 2 f_equal. apply map_eq. intros n. unfold apply_effects at 1. rewrite foldl_app. simpl.
    rewrite He, Hsplit. unfold apply_effects in *. rewrite !foldl_app. simpl.
    destruct (decide (n = comp_ref comp)) as [->|Hn].
    + fold (apply_effects ∅ a). fold (apply_effects (apply_effects ∅ a) b).
      rewrite (apply_effects_untouched _ b) by done.
      destruct (apply_effects ∅ a !! comp_ref comp) as [t|] eqn:E; simpl.
      * by rewrite lookup_insert_eq.
      * by rewrite lookup_delete_eq.
    + rewrite lookup_apply_effect.
      assert (∀ o : option string, write_to n (match o with Some t => SetRef (comp_ref comp) t
        | None => DelRef (comp_ref comp) end) = None) as ->.
      { intros []; simpl; by rewrite decide_False. }
      apply apply_effects_lookup. rewrite lookup_apply_effect.
      pose proof (target_ref_touches _ _ _ n Ht Hn) as Htn. unfold touches in Htn.
      by destruct (write_to n (effect r)).
  - apply Forall_app. rewrite Hsplit. split; [apply Forall_app; split; [done|by constructor]|].
    constructor; [|done]. rewrite He. by destruct (_ !! comp_ref comp).
Qed.

(** A refused undo moves no ref: a denial appends exactly one [authz.denied]
    record (which projects to nothing), every other refusal leaves the log as
    it was. *)
Theorem undo_refused log target pc at_ log' e :
  undo log target pc at_ = (log', Err e) →
  replay_unchecked (records log') = replay_unchecked (records log) ∧
  match e with
  | UndoDenied reason =>
      authorize pc Undo = Deny reason ∧
      ∃ r, records log' = records log ++ [r] ∧ kind r = AUTHZ_DENIED_KIND ∧
        principal_chain r = pc
  | _ => log' = log
  end.
Proof.
  unfold undo, guard_authorize. destruct (compute_compensation log target) as [c|e'] eqn:Hc.
  - destruct (authorize pc Undo) as [|reason]; simpl; intros ?; inv_eqs.
    unfold append. simpl. split.
    + rewrite replay_unchecked_snoc. by destruct (replay_unchecked (records log)).
    + split; [done|]. by eexists.
  - intros ?. inv_eqs. split; [done|]. unfold compute_compensation in Hc.
    destruct e; try done. exfalso. revert Hc. unfold target_ref.
    destruct (verify_chain _); simpl; [|done].
    destruct (records log' !! _); [|done]. case_decide; simpl; [|done].
    destruct (from_str _) as [v|]; simpl; [|done].
    destruct (field_str v "ref"); simpl; [|done].
    destruct (replay_unchecked _); simpl; [|done]. by destruct (ref_get _ _).
Qed.

(** An inert capture that names a ref is compensated like a mutation: the undo
    is accepted and appends a ref event, although the capture itself never moved
    the ref. *)
Theorem undo_compensates_inert log target pc at_ r v n prior :
  verify_chain (records log) = Ok tt → records log !! N.to_nat target = Some r →
  kind r = "ref.update" → from_str (payload r) = Some v → inert_capture v = true →
  field_str v "ref" = Some n →
  replay_unchecked (take (N.to_nat target) (records log)) = Ok prior → permitted pc Undo →
  effect r = NoEffect ∧
  ∃ log' comp e, undo log target pc at_ = (log', Ok comp) ∧ records log' = records log ++ [e] ∧
    effect e = match ref_get prior n with Some t => SetRef n t | None => DelRef n end.
Proof.
  intros Hv Hr Hk Hp Hin Hn Hpr Hpc%authorize_allow. split.
  { unfold effect. rewrite decide_True by (by left). by rewrite Hp, Hin. }
  assert (∃ comp, compute_compensation log target = Ok comp ∧ comp_ref comp = n) as (comp & Hc & <-).
  { unfold compute_compensation, target_ref. rewrite Hv. simpl. rewrite Hr.
    rewrite decide_True by (rewrite Hk; set_solver). rewrite Hp. simpl. rewrite Hn. simpl.
    rewrite Hpr. simpl. destruct (ref_get prior n); by eexists. }
  exists (append log (comp_kind comp) pc (comp_payload comp) at_).1, comp.
  exists (next_record log (comp_kind comp) pc (comp_payload comp) at_).
  unfold undo, guard_authorize. rewrite Hc, Hpc. split_and!; [done|done|].
  apply compute_compensation_ok in Hc as (_ & r' & prior' & _ & Hpr' & _ & He).
  assert (prior' = prior) as -> by congruence. apply He.
Qed.
End UndoProps.

Module UndoExample.
#[local] Existing Instance Toy.toy.
#[local] Existing Instance Codec.codec.
#[local] Existing Instance Codec.codec_laws.

Definition log1 : EventLog :=
  (append EventLog_new "ref.update" ["user:alice"] (canonical_update "refs/heads/main" "aa") 1).1.
Definition log2 : EventLog :=
  (append log1 "ref.update" ["user:alice"] (canonical_update "refs/heads/main" "bb") 2).1.
(** A checkout capture between two updates. *)
Definition checkout : string :=
  to_string (json_object [("checkout", Bool true); ("ref", Str "refs/heads/main")]).
Definition log3 : EventLog :=
  (append (append log1 "ref.update" ["user:alice"] checkout 2).1
     "ref.update" ["user:alice"] (canonical_update "refs/heads/main" "bb") 3).1.
Definition comp : Compensation :=
  {| comp_kind := "ref.update"; comp_payload := canonical_update "refs/heads/main" "aa";
     comp_ref := "refs/heads/main" |}.
Definition undone : EventLog := (undo log2 1 ["user:alice"] 9).1.

Lemma undo_restores_witness :
  ∃ prior st', replay_unchecked (take 1 (records log2)) = Ok prior ∧
    replay_unchecked (records undone) = Ok st' ∧
    ref_get st' "refs/heads/main" = ref_get prior "refs/heads/main".
Proof.
  destruct (undo_restores log2 1 ["user:alice"] 9 undone comp
    {| refs := {[ "refs/heads/main" := "bb" ]} |}) as (_ & _ & prior & st' & Hp & Hs & Hr & _);
    [vm_compute; reflexivity..|].
  exists prior, st'. exact (conj Hp (conj Hs Hr)).
Defined.

Lemma undo_as_if_skipped_witness :
  replay_unchecked (records undone) = replay_unchecked (records log1).
Proof.
  apply (undo_as_if_skipped log2 1 ["user:alice"] 9 undone comp
    {| refs := {[ "refs/heads/main" := "bb" ]} |}); [vm_compute; reflexivity..|].
  constructor.
Defined.

Lemma undo_refused_witness :
  let log' := (undo log2 1 ["agent:x"] 9).1 in
  replay_unchecked (records log') = replay_unchecked (records log2) ∧
  authorize ["agent:x"] Undo = Deny (NotPermitted Worker) ∧
  ∃ r, records log' = records log2 ++ [r] ∧ kind r = AUTHZ_DENIED_KIND ∧
    principal_chain r = ["agent:x"].
Proof.
  apply (undo_refused log2 1 ["agent:x"] 9 _ (UndoDenied (NotPermitted Worker))).
  vm_compute. reflexivity.
Defined.

(** Undoing the checkout rewinds the branch past the later update. *)
Lemma undo_compensates_inert_witness :
  ∃ log' c e, undo log3 1 ["user:alice"] 9 = (log', Ok c) ∧ records log' = records log3 ++ [e] ∧
    effect e = SetRef "refs/heads/main" "aa".
Proof.
  destruct (undo_compensates_inert log3 1 ["user:alice"] 9
    (append log1 "ref.update" ["user:alice"] checkout 2).2
    (json_object [("checkout", Bool true); ("ref", Str "refs/heads/main")])
    "refs/heads/main" {| refs := {[ "refs/heads/main" := "aa" ]} |}) as [_ Hu];
    [vm_compute; reflexivity..| |exact Hu].
  by exists "user:alice", Human.
Defined.
End UndoExample.
