(* ===== verification/ColdTier.v ===== *)
(** Cold tier, compaction and recovery:
    [crates/hugit-refstore/src/{coldtier,compaction,recovery}/mod.rs].

    [ColdStore] is the trait the storage backends implement, with its documented
    behaviour as laws; [InMemory] is the implementation of the source and
    discharges them.  The theorems: compaction relocates a prefix verbatim;
    compacting and recovering gives the original chain and ref state whatever
    was sealed before; a refused recovery names the first sequence number no
    source supplies; and the span computation wraps at the last [u64]. *)

From S2P Require Import Prelude Json JsonCodec Crypto Log Tamper Replay.

(** * Cold ranges *)

Record ColdRange := {
  start_seq : N;
  end_seq : N;
  range_records : list EventRecord;
}.

Definition from_records (records : list EventRecord) : ColdRange :=
  let start := default 0 (seq <$> head records) in
  {| start_seq := start;
     end_seq := default start ((λ r, u64_add (seq r) 1) <$> last records);
     range_records := records |}.

Definition range_len (r : ColdRange) : nat := length (range_records r).
Definition range_is_empty (r : ColdRange) : bool :=
  match range_records r with [] => true | _ => false end.

Definition range_key (r : ColdRange) : string :=
  let head := default "genesis" (this_hash <$> last (range_records r)) in
  "coldrange/" +:+ decimal_padded 20 (start_seq r) +:+ "-" +:+
    decimal_padded 20 (end_seq r) +:+ "/" +:+ head.

(** * The store interface *)

Class ColdStore (S : Type) := {
  cold_put : ColdRange → S → S;
  cold_get : string → S → option ColdRange;
  cold_list : S → list string;
}.

Class ColdStoreLaws (S : Type) `{ColdStore S} := {
  cold_get_put r s k :
    cold_get k (cold_put r s) = if decide (k = range_key r) then Some r else cold_get k s;
  cold_list_get s k : k ∈ cold_list s ↔ is_Some (cold_get k s);
}.

Module InMemory.
Record InMemoryColdStore := { objects : gmap string ColdRange }.
Definition new : InMemoryColdStore := {| objects := ∅ |}.
Definition len (s : InMemoryColdStore) : nat := size (objects s).
Definition is_empty (s : InMemoryColdStore) : bool := bool_decide (size (objects s) = 0%nat).

Definition put (range : ColdRange) (s : InMemoryColdStore) : InMemoryColdStore :=
  {| objects := <[range_key range := range]> (objects s) |}.
Definition get (key : string) (s : InMemoryColdStore) : option ColdRange := objects s !! key.
(** The keys of a [BTreeMap], in order. *)
Definition list_keys (s : InMemoryColdStore) : list string :=
  merge_sort String.le (map_to_list (objects s)).*1.

#[export] Instance store : ColdStore InMemoryColdStore := {|
  cold_put := put; cold_get := get; cold_list := list_keys
|}.
#[export] Instance store_laws : ColdStoreLaws InMemoryColdStore.
Proof.
  split.
  - intros r s k. simpl. unfold get, put. simpl. case_decide; subst.
    + by rewrite lookup_insert_eq.
    + by rewrite lookup_insert_ne.
  - intros s k. simpl. unfold list_keys, get.
    rewrite merge_sort_Permutation, list_elem_of_fmap. split.
    + intros ([k' r] & -> & Hk%elem_of_map_to_list). by eexists.
    + intros [r Hr]. exists (k, r). by rewrite elem_of_map_to_list.
Qed.
End InMemory.

(** * Compaction *)

Record HotRemainder := { hot_records : list EventRecord }.
Definition hot_start_seq (h : HotRemainder) : option N := seq <$> head (hot_records h).

Record CompactionReport := {
  sealed_start_seq : N;
  sealed_end_seq : N;
  sealed_count : nat;
  hot : HotRemainder;
}.
Definition is_noop (r : CompactionReport) : bool := bool_decide (sealed_count r = 0%nat).

Inductive CompactionError :=
| CompactionTamper (e : TamperError).

Definition compact `{Crypto} `{SerdeJson} {S} `{ColdStore S} (log : EventLog) (hot_bound : nat)
    (cold : S) : S * result CompactionError CompactionReport :=
  match verify_chain (records log) with
  | Err e => (cold, Err (CompactionTamper e))
  | Ok _ =>
      let total := log_len log in
      let all := records log in
      if decide (total ≤ hot_bound)%nat then
        let tail := N.of_nat total in
        (cold, Ok {| sealed_start_seq := tail; sealed_end_seq := tail; sealed_count := 0;
                     hot := {| hot_records := all |} |})
      else
        let seal_count := (total - hot_bound)%nat in
        let range := from_records (take seal_count all) in
        (cold_put range cold,
         Ok {| sealed_start_seq := start_seq range; sealed_end_seq := end_seq range;
               sealed_count := seal_count;
               hot := {| hot_records := drop seal_count all |} |})
  end.

(** * Recovery *)

(** [MirrorSource::records_in]: the records of a half-open interval. *)
Class MirrorSource (M : Type) := records_in : M → N → N → list EventRecord.

Inductive NoMirror := no_mirror.
#[export] Instance no_mirror_source : MirrorSource NoMirror := λ _ _ _, [].

Inductive RecoverySource := FromColdTier | FromColdTierWithMirror.

Record Recovered := {
  recovered_state : RefState;
  recovered_records : list EventRecord;
  recovered_source : RecoverySource;
}.

Inductive RecoveryError :=
| IncompleteChain (missing_seq : N)
| RecoveryTamper (e : TamperError)
| RecoveryReplay (e : ReplayError).

Abbreviation by_seq_map := (gmap N EventRecord) (only parsing).

(** [insert] for the cold records, [or_insert] for the hot tail. *)
Definition insert_record (m : by_seq_map) (r : EventRecord) : by_seq_map := <[seq r := r]> m.
Definition or_insert_record (m : by_seq_map) (r : EventRecord) : by_seq_map :=
  match m !! seq r with Some _ => m | None => <[seq r := r]> m end.

Definition gather_cold {S} `{ColdStore S} (cold : S) : by_seq_map :=
  foldl (λ m key,
      match cold_get key cold with
      | Some range => foldl insert_record m (range_records range)
      | None => m
      end) ∅ (cold_list cold).

Definition gather_hot (m : by_seq_map) (hot_tail : list EventRecord) : by_seq_map :=
  foldl or_insert_record m hot_tail.

(** [keys().next_back()]. *)
Definition last_key (m : by_seq_map) : option N :=
  match (map_to_list m).*1 with
  | [] => None
  | ks => Some (foldr N.max 0 ks)
  end.

(** [max_seq]: the addition wraps. *)
Definition span (m : by_seq_map) : N := default 0 ((λ s, u64_add s 1) <$> last_key m).

(** The contiguous reach from [reach]: every turn meets another key, so the size
    of the map is enough fuel. *)
Fixpoint reach_from (fuel : nat) (m : by_seq_map) (reach : N) : N :=
  match fuel with
  | O => reach
  | S fuel => match m !! reach with Some _ => reach_from fuel m (reach + 1) | None => reach end
  end.
Definition reach_of (m : by_seq_map) : N := reach_from (S (size m)) m 0.

(** The mirror fills vacant entries; the flag records that it was used. *)
Definition fill_vacant (acc : by_seq_map * bool) (r : EventRecord) : by_seq_map * bool :=
  match acc.1 !! seq r with
  | Some _ => acc
  | None => (<[seq r := r]> acc.1, true)
  end.

Definition fill_from_mirror {M} `{MirrorSource M} (mirror : M) (m : by_seq_map) (max_seq : N)
    : by_seq_map * bool :=
  if 0 <? max_seq then
    let reach := reach_of m in
    if reach <? max_seq then foldl fill_vacant (m, false) (records_in mirror reach max_seq)
    else (m, false)
  else (m, false).

(** [for expected in 0..max_seq], with the number of turns left. *)
Fixpoint assemble (turns : nat) (expected : N) (m : by_seq_map)
    : result RecoveryError (list EventRecord) :=
  match turns with
  | O => Ok []
  | S turns =>
      match m !! expected with
      | Some r =>
          rs ← assemble turns (expected + 1) (delete expected m);
          Ok (r :: rs)
      | None => Err (IncompleteChain expected)
      end
  end.

Definition recover_with_sources `{Crypto} `{SerdeJson} {S M} `{ColdStore S} `{MirrorSource M}
    (cold : S) (mirror : M) (hot_tail : list EventRecord) : result RecoveryError Recovered :=
  let by_seq := gather_hot (gather_cold cold) hot_tail in
  let max_seq := span by_seq in
  let '(by_seq, used_mirror) := fill_from_mirror mirror by_seq max_seq in
  records ← assemble (N.to_nat max_seq) 0 by_seq;
  _ ← map_err RecoveryTamper (verify_chain records);
  state ← map_err RecoveryReplay (replay_unchecked records);
  Ok {| recovered_state := state; recovered_records := records;
        recovered_source := if (used_mirror : bool) then FromColdTierWithMirror else FromColdTier |}.

Definition recover_with_mirror `{Crypto} `{SerdeJson} {S M} `{ColdStore S} `{MirrorSource M}
    (cold : S) (mirror : M) : result RecoveryError Recovered :=
  recover_with_sources cold mirror [].

Definition recover_from_cold `{Crypto} `{SerdeJson} {S} `{ColdStore S} (cold : S)
    : result RecoveryError Recovered :=
  recover_with_mirror cold no_mirror.

(** * Maps keyed by sequence number *)

(** Every entry sits under its own sequence number and satisfies [P]. *)
Definition keyed (P : EventRecord → Prop) (m : by_seq_map) : Prop :=
  ∀ s r, m !! s = Some r → seq r = s ∧ P r.

Lemma keyed_empty P : keyed P ∅.
Proof. intros s r. by rewrite lookup_empty. Qed.

Lemma keyed_insert (P : EventRecord → Prop) m r : keyed P m → P r → keyed P (<[seq r := r]> m).
Proof. intros Hm Hr s r' [[<- <-]|[_ ?]]%lookup_insert_Some; [done|by apply Hm]. Qed.

Lemma keyed_insert_records P m rs : keyed P m → Forall P rs → keyed P (foldl insert_record m rs).
Proof.
  intros Hm Hf. revert m Hm. induction Hf as [|r rs Hr _ IH]; intros m Hm; simpl; [done|].
  apply IH. by apply keyed_insert.
Qed.

Lemma keyed_gather_hot P m rs : keyed P m → Forall P rs → keyed P (gather_hot m rs).
Proof.
  intros Hm Hf. revert m Hm. induction Hf as [|r rs Hr _ IH]; intros m Hm; simpl; [done|].
  apply IH. unfold or_insert_record. case_match; [done|by apply keyed_insert].
Qed.

Lemma keyed_fill P acc rs : keyed P acc.1 → Forall P rs → keyed P (foldl fill_vacant acc rs).1.
Proof.
  intros Hm Hf. revert acc Hm. induction Hf as [|r rs Hr _ IH]; intros acc Hm; simpl; [done|].
  apply IH. unfold fill_vacant. case_match; [done|by apply keyed_insert].
Qed.

Lemma dom_insert_records m rs :
  dom (foldl insert_record m rs) = dom m ∪ list_to_set (C := gset N) (seq <$> rs).
Proof.
  revert m. induction rs as [|r rs IH]; intros m; simpl; [set_solver|].
  rewrite IH. unfold insert_record. rewrite dom_insert_L. set_solver.
Qed.

Lemma dom_gather_hot m rs :
  dom (gather_hot m rs) = dom m ∪ list_to_set (C := gset N) (seq <$> rs).
Proof.
  revert m. induction rs as [|r rs IH]; intros m; simpl; [set_solver|].
  unfold gather_hot in IH. rewrite IH. unfold or_insert_record. case_match eqn:E.
  - apply elem_of_dom_2 in E. set_solver.
  - rewrite dom_insert_L. set_solver.
Qed.

Lemma dom_fill acc rs :
  dom (foldl fill_vacant acc rs).1 = dom acc.1 ∪ list_to_set (C := gset N) (seq <$> rs).
Proof.
  revert acc. induction rs as [|r rs IH]; intros acc; simpl; [set_solver|].
  rewrite IH. unfold fill_vacant. case_match eqn:E.
  - apply elem_of_dom_2 in E. set_solver.
  - simpl. rewrite dom_insert_L. set_solver.
Qed.

(** ** What the cold tier holds *)

Section Stored.
Context {S : Type} `{ColdStoreLaws S}.

Definition stored (cold : S) (r : EventRecord) : Prop :=
  ∃ k range, cold_get k cold = Some range ∧ r ∈ range_records range.

Lemma stored_put cold range r :
  stored (cold_put range cold) r → stored cold r ∨ r ∈ range_records range.
Proof.
  intros (k & rg & Hk & Hr). rewrite cold_get_put in Hk. case_decide; [|left; by exists k, rg].
  simplify_eq. by right.
Qed.

Lemma stored_put_new cold range r : r ∈ range_records range → stored (cold_put range cold) r.
Proof.
  intros Hr. exists (range_key range), range. rewrite cold_get_put, decide_True by done. done.
Qed.

Lemma keyed_gather_cold cold : keyed (stored cold) (gather_cold cold).
Proof.
  unfold gather_cold. assert (∀ ks m, keyed (stored cold) m → keyed (stored cold)
    (foldl (λ m key, match cold_get key cold with
      | Some range => foldl insert_record m (range_records range) | None => m end) m ks)) as Hgen.
  { induction ks as [|k ks IH]; intros m Hm; simpl; [done|]. apply IH.
    destruct (cold_get k cold) as [range|] eqn:E; [|done].
    apply keyed_insert_records; [done|]. apply Forall_forall. intros r Hr. by exists k, range. }
  apply Hgen, keyed_empty.
Qed.

Lemma dom_gather_cold cold s : s ∈ dom (gather_cold cold) ↔ ∃ r, stored cold r ∧ seq r = s.
Proof.
  split.
  - intros [r Hr]%elem_of_dom. exists r. by apply keyed_gather_cold in Hr as [??].
  - intros (r & (k & range & Hk & Hr) & <-). unfold gather_cold.
    assert (∀ ks m, k ∈ ks ∨ seq r ∈ dom m → seq r ∈ dom
      (foldl (λ m key, match cold_get key cold with
        | Some range => foldl insert_record m (range_records range) | None => m end) m ks)) as Hgen.
    { induction ks as [|k' ks IH]; intros m [Hin|Hd]; simpl; [set_solver|done|..].
      - apply IH. apply elem_of_cons in Hin as [<-|]; [|by left]. right.
        rewrite Hk, dom_insert_records, elem_of_union, elem_of_list_to_set, list_elem_of_fmap. eauto.
      - apply IH. right. destruct (cold_get k' cold); [|done].
        rewrite dom_insert_records. set_solver. }
    apply Hgen. left. apply cold_list_get. by eexists.
Qed.
End Stored.

(** ** The span, the reach and the assembly *)

Lemma last_key_max m :
  match last_key m with
  | Some k => is_Some (m !! k) ∧ ∀ j, is_Some (m !! j) → j ≤ k
  | None => m = ∅
  end.
Proof.
  unfold last_key. destruct (map_to_list m).*1 as [|k ks] eqn:E.
  - apply fmap_nil_inv in E. by apply map_to_list_empty_iff in E.
  - assert (∀ j, j ∈ k :: ks ↔ is_Some (m !! j)) as Hin.
    { intros j. rewrite <- E, list_elem_of_fmap. split.
      - intros ([j' r] & -> & Hj%elem_of_map_to_list). by eexists.
      - intros [r Hr]. exists (j, r). by rewrite elem_of_map_to_list. }
    split.
    + apply Hin. clear. revert k. induction ks as [|k' ks IH]; intros k; simpl.
      * rewrite N.max_0_r. set_solver.
      * destruct (N.max_spec k (foldr N.max 0 (k' :: ks))) as [[_ Hm]|[_ Hm]];
          simpl in Hm; rewrite Hm; [|set_solver]. specialize (IH k'). set_solver.
    + intros j Hj%Hin. revert Hj. generalize (k :: ks). clear. intros l.
      induction l as [|x l IH]; simpl; [by intros ?%not_elem_of_nil|].
      intros [->|Hj]%elem_of_cons; [lia|]. apply IH in Hj. lia.
Qed.

Lemma reach_from_spec fuel m r x :
  reach_from fuel m r = x →
  r ≤ x ∧ (∀ y, r ≤ y → y < x → is_Some (m !! y)) ∧
  (m !! x = None ∨ x = r + N.of_nat fuel).
Proof.
  revert r. induction fuel as [|fuel IH]; intros r; simpl.
  - intros <-. split_and!; [lia|intros; lia|right; lia].
  - destruct (m !! r) eqn:E.
    + intros (Hle & Hall & Hx)%IH. split_and!; [lia| |destruct Hx; [by left|right; lia]].
      intros y Hy Hyx. destruct (decide (y = r)) as [->|]; [by eexists|]. apply Hall; lia.
    + intros <-. split_and!; [lia|intros; lia|by left].
Qed.

(** The fuel is enough: the reach stops at the first missing key. *)
Lemma reach_of_spec m :
  m !! reach_of m = None ∧ ∀ y, y < reach_of m → is_Some (m !! y).
Proof.
  destruct (reach_from_spec _ _ _ _ (eq_refl (reach_of m))) as (_ & Hall & Hx).
  split; [|intros y Hy; apply Hall; lia]. destruct Hx as [|Hx]; [done|]. exfalso.
  assert (list_to_set (N.of_nat <$> List.seq 0 (S (size m))) ⊆@{gset N} dom m) as Hsub.
  { intros y. rewrite elem_of_list_to_set, list_elem_of_fmap, elem_of_dom.
    intros (i & -> & Hi%elem_of_seq). apply Hall; lia. }
  apply subseteq_size in Hsub. rewrite size_list_to_set in Hsub.
  - rewrite length_fmap, length_seq, size_dom in Hsub. lia.
  - apply NoDup_fmap; [apply _|apply NoDup_seq].
Qed.

Lemma assemble_spec turns e m :
  match assemble turns e m with
  | Ok rs => length rs = turns ∧ ∀ i r, rs !! i = Some r → m !! (e + N.of_nat i) = Some r
  | Err err => ∃ s, err = IncompleteChain s ∧ m !! s = None ∧ e ≤ s ∧ s < e + N.of_nat turns ∧
      ∀ s', e ≤ s' → s' < s → is_Some (m !! s')
  end.
Proof.
  revert e m. induction turns as [|turns IH]; intros e m; simpl; [done|].
  destruct (m !! e) as [r|] eqn:E.
  - specialize (IH (e + 1) (delete e m)). destruct (assemble turns _ _) as [rs|err]; simpl.
    + destruct IH as [Hlen Hrs]. split; [by f_equal|]. intros [|i] r' Hi; simpl in Hi.
      * simplify_eq. by rewrite N.add_0_r.
      * apply Hrs in Hi. apply lookup_delete_Some in Hi as [_ Hi]. rewrite <- Hi. f_equal. lia.
    + destruct IH as (s & -> & Hs & Hle & Hlt & Hall). exists s.
      rewrite lookup_delete_ne in Hs by lia. split_and!; [done|done|lia|lia|].
      intros s' Hs' Hlt'. destruct (decide (s' = e)) as [->|]; [by eexists|].
      destruct (Hall s') as [r' Hr']; [lia|done|]. apply lookup_delete_Some in Hr' as [??]. by eexists.
  - exists e. split_and!; [done|done|lia|lia|intros; lia].
Qed.

(** * Theorems *)

Section Theorems.
Context `{Crypto} `{SerdeJson} {S : Type} `{ColdStoreLaws S} {M : Type} `{MirrorSource M}.

Lemma verified_contiguous rs : verify_chain rs = Ok tt → contiguous rs.
Proof. intros Hv%chain_ok_verify_from. by eapply chain_ok_contiguous. Qed.

Lemma contiguous_elem rs r :
  contiguous rs → r ∈ rs → rs !! N.to_nat (seq r) = Some r.
Proof.
  intros Hc [i Hi]%list_elem_of_lookup. rewrite (Hc i r Hi). by rewrite Nat2N.id.
Qed.

(** A map that holds exactly a contiguous chain. *)
Lemma keyed_chain rs m :
  contiguous rs → keyed (.∈ rs) m → (∀ r, r ∈ rs → seq r ∈ dom m) →
  ∀ s, m !! s = rs !! N.to_nat s.
Proof.
  intros Hc Hk Hd s. destruct (m !! s) as [r|] eqn:E.
  - apply Hk in E as [<- Hr]. symmetry. by apply contiguous_elem.
  - destruct (rs !! N.to_nat s) as [r|] eqn:Er; [|done]. exfalso.
    assert (seq r ∈ dom m) as Hs by (apply Hd, list_elem_of_lookup; eauto).
    rewrite (Hc _ _ Er), N2Nat.id in Hs. apply elem_of_dom in Hs as [? Hs]. congruence.
Qed.

Lemma span_chain rs m :
  (∀ s, m !! s = rs !! N.to_nat s) → N.of_nat (length rs) ≤ u64_max →
  span m = N.of_nat (length rs).
Proof.
  intros Hm Hlen. unfold span. pose proof (last_key_max m) as Hk.
  destruct (last_key m) as [k|]; simpl.
  - destruct Hk as [Hk Hmax]. rewrite Hm in Hk. apply lookup_lt_is_Some in Hk.
    assert (N.of_nat (length rs) - 1 ≤ k).
    { apply Hmax. rewrite Hm. apply lookup_lt_is_Some. lia. }
    unfold u64_add. unfold u64_max in Hlen. rewrite N.mod_small; lia.
  - destruct rs as [|r rs]; [done|]. specialize (Hm 0). subst. by rewrite lookup_empty in Hm.
Qed.

(** Sources that hold the records of a verified chain and nothing else recover
    it, without the mirror. *)
Lemma recover_complete cold (mirror : M) hot_tail rs st :
  verify_chain rs = Ok tt → N.of_nat (length rs) ≤ u64_max →
  replay_unchecked rs = Ok st →
  (∀ r, r ∈ rs ↔ stored cold r ∨ r ∈ hot_tail) →
  recover_with_sources cold mirror hot_tail =
    Ok {| recovered_state := st; recovered_records := rs; recovered_source := FromColdTier |}.
Proof.
  intros Hv Hlen Hst Hsrc. unfold recover_with_sources.
  set (m := gather_hot (gather_cold cold) hot_tail).
  assert (∀ s, m !! s = rs !! N.to_nat s) as Hm.
  { apply keyed_chain; [by apply verified_contiguous| |].
    - apply keyed_gather_hot; [|apply Forall_forall; intros; apply Hsrc; by right].
      intros s r [??]%keyed_gather_cold. split; [done|]. apply Hsrc. by left.
    - intros r Hr. unfold m. rewrite dom_gather_hot, elem_of_union, dom_gather_cold.
      apply Hsrc in Hr as [Hr|Hr]; [left; eauto|right].
      rewrite elem_of_list_to_set, list_elem_of_fmap. eauto. }
  rewrite (span_chain rs m) by done.
  assert (fill_from_mirror mirror m (N.of_nat (length rs)) = (m, false)) as ->.
  { unfold fill_from_mirror. destruct (reach_of_spec m) as [Hr _].
    rewrite Hm in Hr. apply lookup_ge_None in Hr.
    destruct (N.ltb_spec (reach_of m) (N.of_nat (length rs))) as [Hlt|]; [lia|by destruct (0 <? _)]. }
  rewrite Nat2N.id. pose proof (assemble_spec (length rs) 0 m) as Ha.
  destruct (assemble (length rs) 0 m) as [rs'|err]; simpl.
  - destruct Ha as [Hl Ha]. assert (rs' = rs) as ->.
    { apply list_eq_same_length with (length rs); [done|done|].
      intros i x y _ Hx Hy. apply Ha in Hx. rewrite N.add_0_l, Hm, Nat2N.id in Hx. congruence. }
    rewrite Hv. simpl. by rewrite Hst.
  - destruct Ha as (s & _ & Hs & _ & Hlt & _). rewrite Hm in Hs. apply lookup_ge_None in Hs. lia.
Qed.

(** A compaction pass moves the oldest records to the cold tier in one range
    and keeps the rest hot, both verbatim and split at the bound; a log within
    the bound is left alone and reported as an empty interval at its tail. *)
Theorem compact_relocates log hot_bound cold cold' rep :
  compact log hot_bound cold = (cold', Ok rep) →
  N.of_nat (log_len log) ≤ u64_max →
  let n := sealed_count rep in
  n = (log_len log - hot_bound)%nat ∧
  hot_records (hot rep) = drop n (records log) ∧
  (length (hot_records (hot rep)) ≤ hot_bound)%nat ∧
  if is_noop rep then
    cold' = cold ∧ sealed_start_seq rep = N.of_nat (log_len log) ∧
    sealed_end_seq rep = N.of_nat (log_len log)
  else
    cold' = cold_put (from_records (take n (records log))) cold ∧
    sealed_start_seq rep = 0 ∧ sealed_end_seq rep = N.of_nat n.
Proof.
  unfold compact. destruct (verify_chain (records log)) as [[]|] eqn:Hv; [|done].
  apply verified_contiguous in Hv. unfold log_len. intros Hc Hlen. case_decide; inv_eqs; simpl.
  - split_and!; [lia|done|done..].
  - set (n := (length (records log) - hot_bound)%nat). unfold is_noop. simpl.
    rewrite length_drop, bool_decide_false by lia. split_and!; [done|done|lia|done| |].
    + destruct (records log) as [|r rs]; [simpl in *; lia|]. destruct n as [|n'] eqn:En; [lia|].
      simpl. apply (Hv 0%nat r). done.
    + destruct (lookup_lt_is_Some_2 (records log) (n - 1)) as [r Hr]; [lia|].
      rewrite last_lookup, length_take, Nat.min_l by lia.
      replace (pred n) with (n - 1)%nat by lia.
      rewrite lookup_take_lt, Hr by lia. simpl. rewrite (Hv _ _ Hr).
      unfold u64_add. unfold u64_max in Hlen. rewrite N.mod_small; lia.
Qed.

(** C11. Relocation loses nothing: whatever prefix of the log earlier passes sealed,
    the cold tier together with the hot remainder recovers the original chain
    and the original refs, and the mirror is not consulted. *)
Theorem compact_recover log hot_bound cold cold' rep st (mirror : M) :
  (∀ r, stored cold r → r ∈ records log) →
  compact log hot_bound cold = (cold', Ok rep) →
  N.of_nat (log_len log) ≤ u64_max →
  replay_unchecked (records log) = Ok st →
  recover_with_sources cold' mirror (hot_records (hot rep)) =
    Ok {| recovered_state := st; recovered_records := records log;
          recovered_source := FromColdTier |}.
Proof.
  intros Hcold Hc Hlen Hst. unfold compact in Hc.
  destruct (verify_chain (records log)) as [[]|] eqn:Hv; [|done].
  case_decide; inv_eqs; (apply recover_complete; [done..|]); intros r; simpl.
  - split; [by right|]. intros [Hr|Hr]; [by apply Hcold|done].
  - set (n := (log_len log - hot_bound)%nat).
    rewrite <- (take_drop n (records log)), elem_of_app at 1. split.
    + intros [Hr|Hr]; [left; by apply stored_put_new|by right].
    + intros [[Hr|Hr]%stored_put|Hr]; [|by left|by right].
      apply Hcold in Hr. rewrite <- (take_drop n (records log)) in Hr. by apply elem_of_app in Hr.
Qed.

(** A recovery that succeeds serves a verified chain and its own projection,
    every record of it supplied by one of the three sources. *)
Theorem recovery_sound cold (mirror : M) hot_tail rec :
  recover_with_sources cold mirror hot_tail = Ok rec →
  verify_chain (recovered_records rec) = Ok tt ∧
  replay_unchecked (recovered_records rec) = Ok (recovered_state rec) ∧
  ∀ r, r ∈ recovered_records rec →
    stored cold r ∨ r ∈ hot_tail ∨ ∃ a b, r ∈ records_in mirror a b.
Proof.
  unfold recover_with_sources. set (m := gather_hot (gather_cold cold) hot_tail).
  assert (keyed (λ r, stored cold r ∨ r ∈ hot_tail ∨ ∃ a b, r ∈ records_in mirror a b)
    (fill_from_mirror mirror m (span m)).1) as Hk.
  { assert (keyed (λ r, stored cold r ∨ r ∈ hot_tail ∨ ∃ a b, r ∈ records_in mirror a b) m) as Hm.
    { apply keyed_gather_hot; [|apply Forall_forall; auto].
      intros s r [??]%keyed_gather_cold. auto. }
    unfold fill_from_mirror. destruct (0 <? span m); [|done].
    destruct (reach_of m <? span m); [|done]. apply keyed_fill; [done|].
    apply Forall_forall. eauto. }
  destruct (fill_from_mirror mirror m (span m)) as [m' used]. simpl in Hk.
  pose proof (assemble_spec (N.to_nat (span m)) 0 m') as Ha.
  destruct (assemble _ 0 m') as [rs|]; simpl; [|done].
  destruct (verify_chain rs) as [[]|] eqn:Hv; simpl; [|done].
  destruct (replay_unchecked rs) as [st|] eqn:Hr; simpl; [|done].
  intros ?. inv_eqs. simpl. split_and!; [done..|].
  intros r [i Hi]%list_elem_of_lookup. apply Ha in Hi. by apply Hk in Hi as [_ ?].
Qed.

(** A recovery that reports a gap reports the first one: no cold range, no hot
    record and nothing in the mirror's answer has that sequence number, and
    every smaller one is supplied by one of them. *)
Theorem recovery_first_gap cold (mirror : M) hot_tail s :
  recover_with_sources cold mirror hot_tail = Err (IncompleteChain s) →
  let m := gather_hot (gather_cold cold) hot_tail in
  let source r :=
    stored cold r ∨ r ∈ hot_tail ∨ r ∈ records_in mirror (reach_of m) (span m) in
  (∀ r, source r → seq r ≠ s) ∧ ∀ s', s' < s → ∃ r, source r ∧ seq r = s'.
Proof.
  intros Herr m source. unfold recover_with_sources in Herr.
  assert (∀ t, t ∈ dom m ↔ ∃ r, seq r = t ∧ (stored cold r ∨ r ∈ hot_tail)) as Hdm.
  { intros t. unfold m. rewrite dom_gather_hot, elem_of_union, dom_gather_cold,
      elem_of_list_to_set, list_elem_of_fmap. naive_solver. }
  fold m in Herr. destruct (reach_of_spec m) as [_ Hreach].
  assert (reach_of m < span m → ∀ t, t ∈ dom (fill_from_mirror mirror m (span m)).1 ↔
    ∃ r, source r ∧ seq r = t) as Hdom.
  { intros Hlt t. unfold fill_from_mirror. rewrite (proj2 (N.ltb_lt 0 (span m))) by lia.
    rewrite (proj2 (N.ltb_lt _ _)) by done. rewrite dom_fill, elem_of_union, Hdm.
    rewrite elem_of_list_to_set, list_elem_of_fmap. unfold source. naive_solver. }
  assert (span m ≤ reach_of m → (fill_from_mirror mirror m (span m)).1 = m) as Hfull.
  { intros Hle. unfold fill_from_mirror. destruct (0 <? span m); [|done].
    by rewrite (proj2 (N.ltb_ge _ _) Hle). }
  destruct (fill_from_mirror mirror m (span m)) as [m' used]. simpl in *.
  pose proof (assemble_spec (N.to_nat (span m)) 0 m') as Ha.
  destruct (assemble _ 0 m') as [l|err]; simpl in Herr.
  { destruct (verify_chain l); simpl in Herr; [|done]. by destruct (replay_unchecked l). }
  destruct Ha as (t & -> & Ht & _ & Hts & Hall). inv_eqs.
  destruct (N.le_gt_cases (span m) (reach_of m)) as [Hle|Hlt].
  { rewrite Hfull in Ht by done. destruct (Hreach s) as [? ?]; [lia|congruence]. }
  specialize (Hdom Hlt). apply not_elem_of_dom in Ht. split.
  - intros r Hr Hs. apply Ht, Hdom. eauto.
  - intros s' Hs'. apply Hdom. apply elem_of_dom. apply Hall; [lia|done].
Qed.

(** A source record that carries the last [u64] sequence number makes the span
    wrap to zero: recovery then succeeds with an empty chain and no refs,
    whatever else the sources hold. *)
Theorem recovery_span_wraps cold (mirror : M) hot_tail r :
  (∀ r', stored cold r' ∨ r' ∈ hot_tail → seq r' ≤ u64_max) →
  stored cold r ∨ r ∈ hot_tail → seq r = u64_max →
  recover_with_sources cold mirror hot_tail =
    Ok {| recovered_state := RefState_new; recovered_records := [];
          recovered_source := FromColdTier |}.
Proof.
  intros Hle Hr Hs. unfold recover_with_sources.
  set (m := gather_hot (gather_cold cold) hot_tail).
  assert (keyed (λ r, stored cold r ∨ r ∈ hot_tail) m) as Hk.
  { apply keyed_gather_hot; [|apply Forall_forall; auto].
    intros s r' [??]%keyed_gather_cold. auto. }
  assert (span m = 0) as ->.
  { unfold span. pose proof (last_key_max m) as Hl.
    assert (seq r ∈ dom m) as [x Hx]%elem_of_dom.
    { unfold m. rewrite dom_gather_hot, elem_of_union, dom_gather_cold,
        elem_of_list_to_set, list_elem_of_fmap. destruct Hr; eauto. }
    destruct (last_key m) as [k|]; [|by rewrite Hl, lookup_empty in Hx].
    destruct Hl as [[y Hy] Hmax]. apply Hk in Hy as [Hy Hsrc]. apply Hle in Hsrc.
    assert (k = u64_max) as ->; [|done].
    specialize (Hmax (seq r)). rewrite Hx in Hmax. specialize (Hmax (ex_intro _ x eq_refl)). lia. }
  done.
Qed.
End Theorems.

Module ColdTierExample.
#[local] Existing Instance Toy.toy.
#[local] Existing Instance Codec.codec.
#[local] Existing Instance InMemory.store.
#[local] Existing Instance InMemory.store_laws.

Definition log1 : EventLog :=
  (append EventLog_new "ref.update" ["user:alice"] (ReplayExample.update "refs/heads/main" "aa") 1).1.
Definition log2 : EventLog :=
  (append log1 "ref.update" ["user:alice"] (ReplayExample.update "refs/heads/main" "bb") 2).1.
Definition sealed : InMemory.InMemoryColdStore := (compact log2 1 InMemory.new).1.
Definition last_record : EventRecord :=
  {| seq := u64_max; prev_hash := ""; this_hash := ""; kind := "x"; principal_chain := [];
     payload := ""; recorded_at := 0 |}.

Lemma stored_new r : ¬ stored InMemory.new r.
Proof. intros (k & range & Hk & _). done. Qed.

Lemma compact_recover_witness :
  recover_with_sources sealed no_mirror (drop 1 (records log2)) =
    Ok {| recovered_state := {| refs := {[ "refs/heads/main" := "bb" ]} |};
          recovered_records := records log2; recovered_source := FromColdTier |}.
Proof.
  apply (compact_recover log2 1 InMemory.new sealed
    {| sealed_start_seq := 0; sealed_end_seq := 1; sealed_count := 1;
       hot := {| hot_records := drop 1 (records log2) |} |}
    {| refs := {[ "refs/heads/main" := "bb" ]} |} no_mirror).
  - intros r Hr. by apply stored_new in Hr.
  - vm_compute. reflexivity.
  - vm_compute. done.
  - vm_compute. reflexivity.
Defined.

(** The first record alone is missing. *)
Lemma recovery_first_gap_witness :
  let hot := drop 1 (records log2) in
  let source r := stored InMemory.new r ∨ r ∈ hot ∨
    r ∈ records_in no_mirror (reach_of (gather_hot (gather_cold InMemory.new) hot))
          (span (gather_hot (gather_cold InMemory.new) hot)) in
  (∀ r, source r → seq r ≠ 0) ∧ ∀ s', s' < 0 → ∃ r, source r ∧ seq r = s'.
Proof.
  apply (recovery_first_gap InMemory.new no_mirror (drop 1 (records log2)) 0).
  vm_compute. reflexivity.
Defined.

Lemma recovery_span_wraps_witness :
  recover_with_sources InMemory.new no_mirror (records log2 ++ [last_record]) =
    Ok {| recovered_state := RefState_new; recovered_records := [];
          recovered_source := FromColdTier |}.
Proof.
  apply (recovery_span_wraps InMemory.new no_mirror _ last_record).
  - intros r [Hr|Hr]; [by apply stored_new in Hr|].
    assert (Forall (λ r, seq r ≤ u64_max) (records log2 ++ [last_record])) as Hall by by_decision.
    rewrite Forall_forall in Hall. by apply Hall.
  - right. set_solver.
  - reflexivity.
Defined.
End ColdTierExample.
