(* ===== verification/Serializer.v ===== *)
(** The single serialization point: [crates/hugit-refstore/src/concurrency/mod.rs].

    Submitters are threads of a step relation: each takes a permit with the
    compare-exchange loop of the semaphore, waits for the writer lock, runs its
    critical section, drops the lock and then the permit.  Every atomic access
    is a step of its own, so the relation covers all interleavings, spurious
    compare-exchange failures and panics of a lock holder included.

    The theorems: the permits in use never exceed the capacity and at most one
    thread writes; every execution is equivalent to running the critical
    sections one after the other; each accepted call owns exactly one record of
    the chain; some thread can always move. *)

From S2P Require Import Prelude Json JsonCodec Crypto Log Authz Tamper Replay Intent Undo.

(** * Calls *)

Record Op := {
  op_kind : string;
  op_principal_chain : list string;
  op_payload : string;
  op_recorded_at : N;
}.

Inductive SubmitError :=
| Backpressure (capacity : N)
| WriterPoisoned
| SubmitDenied (reason : string).

Inductive UndoSubmitError :=
| UndoSubmit (e : SubmitError)
| UndoFailed (e : UndoError).

Inductive ImportSubmitError :=
| ImportSubmit (e : SubmitError)
| ImportFailed (e : ImportError).

(** The three append-emitting entry points of [Serializer]. *)
Inductive Call :=
| CallSubmit (op : Op)
| CallUndo (target : N) (principal_chain : list string) (recorded_at : N)
| CallImport (sidecar : IntentSidecar) (ref_name target : string)
    (principal_chain : list string) (recorded_at : N).

Inductive Outcome :=
| SubmitOut (r : result SubmitError EventRecord)
| UndoOut (r : result UndoSubmitError EventRecord)
| ImportOut (r : result ImportSubmitError EventRecord).

(** An admission or lock failure, in the error type of the entry point. *)
Definition refused (call : Call) (e : SubmitError) : Outcome :=
  match call with
  | CallSubmit _ => SubmitOut (Err e)
  | CallUndo _ _ _ => UndoOut (Err (UndoSubmit e))
  | CallImport _ _ _ _ _ => ImportOut (Err (ImportSubmit e))
  end.

(** * Critical sections *)

Definition submit_section `{Crypto} `{SerdeJson} (op : Op) (log : EventLog)
    : EventLog * result SubmitError EventRecord :=
  let '(log, (decision, _)) :=
    guard_authorize log (op_principal_chain op) Push (op_recorded_at op) in
  match decision with
  | Allow =>
      let '(log, record) :=
        append log (op_kind op) (op_principal_chain op) (op_payload op) (op_recorded_at op) in
      (log, Ok record)
  | Deny reason => (log, Err (SubmitDenied (reason_code reason)))
  end.

Definition undo_section `{Crypto} `{SerdeJson} (target : N) (principal_chain : list string)
    (recorded_at : N) (log : EventLog) : EventLog * result UndoSubmitError EventRecord :=
  match compute_compensation log target with
  | Err e => (log, Err (UndoFailed e))
  | Ok comp =>
      let '(log, (decision, _)) := guard_authorize log principal_chain Undo recorded_at in
      match decision with
      | Allow =>
          let '(log, record) :=
            append log (comp_kind comp) principal_chain (comp_payload comp) recorded_at in
          (log, Ok record)
      | Deny reason => (log, Err (UndoFailed (UndoDenied reason)))
      end
  end.

Definition import_section `{Crypto} `{SerdeJson} (sidecar : IntentSidecar)
    (ref_name target : string) (principal_chain : list string) (recorded_at : N)
    (log : EventLog) : EventLog * result ImportSubmitError EventRecord :=
  let '(log, res) := import_sidecar log sidecar ref_name target principal_chain recorded_at in
  (log, map_err ImportFailed res).

Definition critical `{Crypto} `{SerdeJson} (call : Call) (log : EventLog) : EventLog * Outcome :=
  match call with
  | CallSubmit op => let '(log, r) := submit_section op log in (log, SubmitOut r)
  | CallUndo target pc at_ => let '(log, r) := undo_section target pc at_ log in (log, UndoOut r)
  | CallImport sc n t pc at_ =>
      let '(log, r) := import_section sc n t pc at_ log in (log, ImportOut r)
  end.

(** * Threads *)

(** Where a submitter is.  An outcome of [None] is a panic unwinding; the flag
    tells whether the critical section took effect. *)
Inductive Pc :=
| Start
| Acquiring (cur : N)
| Counted (cur : N)
| Entered
| Writing
| Leaving (out : option Outcome) (took_effect : bool)
| Returning (out : option Outcome) (took_effect : bool) (cur : N)
| Finished (out : option Outcome) (took_effect : bool).

(** [Inner], the semaphore's counters inlined, and the submitters. *)
Record State := {
  writer_log : EventLog;
  writer : option nat;
  poisoned : bool;
  in_use : N;
  peak : N;
  capacity : N;
  threads : list (Call * Pc);
}.

(** [Serializer::from_log]: the bound is at least one. *)
Definition from_log (log : EventLog) (cap : N) : State :=
  {| writer_log := log; writer := None; poisoned := false; in_use := 0; peak := 0;
     capacity := N.max cap 1; threads := [] |}.
Definition serializer_new : State := from_log EventLog_new u64_max.
Definition with_capacity (cap : N) : State := from_log EventLog_new (N.max cap 1).

Definition set_pc (i : nat) (pc : Pc) (s : State) : State :=
  {| writer_log := writer_log s; writer := writer s; poisoned := poisoned s; in_use := in_use s;
     peak := peak s; capacity := capacity s;
     threads := alter (λ t, (t.1, pc)) i (threads s) |}.
Definition set_in_use (n : N) (s : State) : State :=
  {| writer_log := writer_log s; writer := writer s; poisoned := poisoned s; in_use := n;
     peak := peak s; capacity := capacity s; threads := threads s |}.
Definition set_peak (n : N) (s : State) : State :=
  {| writer_log := writer_log s; writer := writer s; poisoned := poisoned s;
     in_use := in_use s; peak := n; capacity := capacity s; threads := threads s |}.
Definition set_writer (log : EventLog) (w : option nat) (p : bool) (s : State) : State :=
  {| writer_log := log; writer := w; poisoned := p; in_use := in_use s;
     peak := peak s; capacity := capacity s; threads := threads s |}.

Section Steps.
Context `{Crypto} `{SerdeJson}.

(** One atomic step of thread [i]. *)
Inductive tstep (i : nat) (s : State) : State → Prop :=
| step_load call :
    threads s !! i = Some (call, Start) →
    tstep i s (set_pc i (Acquiring (in_use s)) s)
| step_full call cur :
    threads s !! i = Some (call, Acquiring cur) → capacity s ≤ cur →
    tstep i s (set_pc i (Finished (Some (refused call (Backpressure (capacity s)))) false) s)
| step_cas_ok call cur :
    threads s !! i = Some (call, Acquiring cur) → cur < capacity s → in_use s = cur →
    tstep i s (set_pc i (Counted cur) (set_in_use (cur + 1) s))
| step_cas_fail call cur :
    threads s !! i = Some (call, Acquiring cur) → cur < capacity s →
    tstep i s (set_pc i (Acquiring (in_use s)) s)
| step_peak call cur :
    threads s !! i = Some (call, Counted cur) →
    tstep i s (set_pc i Entered (set_peak (N.max (peak s) (cur + 1)) s))
| step_lock call :
    threads s !! i = Some (call, Entered) → writer s = None → poisoned s = false →
    tstep i s (set_pc i Writing (set_writer (writer_log s) (Some i) false s))
| step_lock_poisoned call :
    threads s !! i = Some (call, Entered) → writer s = None → poisoned s = true →
    tstep i s (set_pc i (Leaving (Some (refused call WriterPoisoned)) false) s)
| step_section call log out :
    threads s !! i = Some (call, Writing) → critical call (writer_log s) = (log, out) →
    tstep i s (set_pc i (Leaving (Some out) true) (set_writer log None (poisoned s) s))
| step_panic_before call :
    threads s !! i = Some (call, Writing) →
    tstep i s (set_pc i (Leaving None false) (set_writer (writer_log s) None true s))
| step_panic_after call log out :
    threads s !! i = Some (call, Writing) → critical call (writer_log s) = (log, out) →
    tstep i s (set_pc i (Leaving None true) (set_writer log None true s))
| step_drop_load call out b :
    threads s !! i = Some (call, Leaving out b) →
    tstep i s (set_pc i (Returning out b (in_use s)) s)
| step_drop_ok call out b cur :
    threads s !! i = Some (call, Returning out b cur) → in_use s = cur →
    tstep i s (set_pc i (Finished out b) (set_in_use (cur - 1) s))
| step_drop_fail call out b cur :
    threads s !! i = Some (call, Returning out b cur) →
    tstep i s (set_pc i (Returning out b (in_use s)) s).

(** A step of some thread, or a new call arriving. *)
Inductive step (s : State) : State → Prop :=
| step_thread i s' : tstep i s s' → step s s'
| step_spawn call :
    step s {| writer_log := writer_log s; writer := writer s; poisoned := poisoned s;
              in_use := in_use s; peak := peak s; capacity := capacity s;
              threads := threads s ++ [(call, Start)] |}.

Definition reachable (s0 s : State) : Prop := rtc step s0 s.
End Steps.

(** * Invariants *)

(** Whether a thread holds a permit, i.e. is counted in [in_use]. *)
Definition holds (pc : Pc) : bool :=
  match pc with
  | Counted _ | Entered | Writing | Leaving _ _ | Returning _ _ _ => true
  | Start | Acquiring _ | Finished _ _ => false
  end.
#[local] Instance writing_dec pc : Decision (pc = Writing).
Proof. destruct pc; first [by left|by right]. Defined.
Definition permits (l : list (Call * Pc)) : nat := length (filter (λ t, holds t.2 = true) l).

Lemma permits_app l l' : permits (l ++ l') = (permits l + permits l')%nat.
Proof. unfold permits. by rewrite filter_app, length_app. Qed.

Lemma permits_alter l i t pc :
  l !! i = Some t →
  (permits (alter (λ t, (t.1, pc)) i l) + Nat.b2n (holds t.2) =
   permits l + Nat.b2n (holds pc))%nat.
Proof.
  unfold permits. revert i. induction l as [|t' l IH]; intros [|i] Hi; simplify_eq/=.
  - rewrite !filter_cons. simpl. destruct (holds pc), (holds t.2); simpl; lia.
  - change (alter _ (S i) (t' :: l)) with (t' :: alter (λ t : Call * Pc, (t.1, pc)) i l).
    rewrite !filter_cons. specialize (IH i Hi). case_decide; simpl; lia.
Qed.

Lemma lookup_alter_pc (l : list (Call * Pc)) i pc j t :
  l !! i = Some t →
  alter (λ t, (t.1, pc)) i l !! j = if decide (j = i) then Some (t.1, pc) else l !! j.
Proof.
  intros Hi. case_decide; subst.
  - by rewrite list_lookup_alter_eq, Hi.
  - by rewrite list_lookup_alter_ne.
Qed.

Record admission (s : State) : Prop := {
  adm_count : in_use s = N.of_nat (permits (threads s));
  adm_bound : in_use s ≤ capacity s;
  adm_peak : peak s ≤ capacity s;
  adm_counted : ∀ i call cur, threads s !! i = Some (call, Counted cur) → cur + 1 ≤ capacity s;
  adm_writer : ∀ i, writer s = Some i ↔ ∃ call, threads s !! i = Some (call, Writing);
}.

Section Invariants.
Context `{Crypto} `{SerdeJson}.

Lemma admission_init log cap : admission (from_log log cap).
Proof. split; simpl; try done; try lia. intros i. split; [done|]. by intros [? ?]. Qed.

Lemma admission_spawn s call :
  admission s →
  admission {| writer_log := writer_log s; writer := writer s; poisoned := poisoned s;
               in_use := in_use s; peak := peak s; capacity := capacity s;
               threads := threads s ++ [(call, Start)] |}.
Proof.
  intros [Hc Hb Hp Hct Hw]. split; simpl; try done.
  - rewrite permits_app, Hc. change (permits [(call, Start)]) with 0%nat. lia.
  - intros i call' cur [?|[? Hi]]%lookup_app_Some; [by eapply Hct|].
    by apply list_lookup_singleton_Some in Hi as [_ ?].
  - intros i. rewrite Hw. split; intros [call' Hi]; exists call'.
    + by apply lookup_app_l_Some.
    + apply lookup_app_Some in Hi as [|[? Hi]]; [done|].
      by apply list_lookup_singleton_Some in Hi as [_ ?].
Qed.

(** What remains to be shown of a thread step once its program counter moved
    from [pc] to [pc']. *)
Lemma admission_move s i call pc pc' n p w log pz :
  threads s !! i = Some (call, pc) → admission s →
  n + N.b2n (holds pc) = in_use s + N.b2n (holds pc') → n ≤ capacity s → p ≤ capacity s →
  (∀ cur, pc' = Counted cur → cur + 1 ≤ capacity s) →
  (pc' = Writing → writer s = None ∧ w = Some i) →
  (pc = Writing → w = None ∧ pc' ≠ Writing) →
  (pc ≠ Writing → pc' ≠ Writing → w = writer s) →
  admission (set_pc i pc' (set_writer log w pz (set_peak p (set_in_use n s)))).
Proof.
  intros Hi [Hc Hb Hp Hct Hw] Hn Hn' Hp' Hcnt Henter Hleave Hsame.
  pose proof (permits_alter _ _ _ pc' Hi) as Hperm. simpl in Hperm.
  assert (∀ b, N.b2n b = N.of_nat (Nat.b2n b)) as Hb2n by (by intros []).
  split; simpl; [rewrite !Hb2n in Hn; lia|done|done|..].
  - intros j call' cur. rewrite (lookup_alter_pc _ i pc' j (call, pc)) by done. case_decide; [|by apply Hct].
    intros ?. simplify_eq. by apply Hcnt.
  - intros j. rewrite (lookup_alter_pc _ i pc' j (call, pc)) by done. simpl.
    destruct (decide (j = i)) as [->|Hji].
    + split.
      * intros ->. destruct (decide (pc = Writing)) as [Hpc|Hpc]; [by destruct (Hleave Hpc)|].
        destruct (decide (pc' = Writing)) as [->|Hpc']; [by eexists|].
        symmetry in Hsame; [|done..]. apply Hw in Hsame as [? Hw']; [|done..]. naive_solver.
      * intros [? ?]. simplify_eq. by destruct (Henter eq_refl).
    + rewrite <- Hw. destruct (decide (pc = Writing)) as [->|Hpc].
      * destruct (Hleave eq_refl) as [-> _]. assert (writer s = Some i) by (apply Hw; eauto).
        naive_solver.
      * destruct (decide (pc' = Writing)) as [Hpc'|Hpc']; [|by rewrite (Hsame Hpc Hpc')].
        destruct (Henter Hpc') as [-> ->]. naive_solver.
Qed.

Ltac move_pc pc pc' n p w log pz :=
  eapply (admission_move _ _ _ pc pc' n p w log pz); simpl; try done; try lia.

Lemma admission_tstep i s s' : tstep i s s' → admission s → admission s'.
Proof.
  intros Ht Hs. pose proof Hs as [Hc Hb Hp Hct Hw]. inversion Ht; subst.
  - move_pc Start (Acquiring (in_use s)) (in_use s) (peak s) (writer s) (writer_log s) (poisoned s).
  - move_pc (Acquiring cur) (Finished (Some (refused call (Backpressure (capacity s)))) false)
      (in_use s) (peak s) (writer s) (writer_log s) (poisoned s).
  - move_pc (Acquiring (in_use s)) (Counted (in_use s)) (in_use s + 1) (peak s) (writer s)
      (writer_log s) (poisoned s). intros cur ?. simplify_eq. lia.
  - move_pc (Acquiring cur) (Acquiring (in_use s)) (in_use s) (peak s) (writer s) (writer_log s)
      (poisoned s).
  - move_pc (Counted cur) Entered (in_use s) (N.max (peak s) (cur + 1)) (writer s) (writer_log s)
      (poisoned s). specialize (Hct _ _ _ H1). lia.
  - move_pc Entered Writing (in_use s) (peak s) (Some i) (writer_log s) false.
  - move_pc Entered (Leaving (Some (refused call WriterPoisoned)) false) (in_use s) (peak s)
      (writer s) (writer_log s) (poisoned s).
  - move_pc Writing (Leaving (Some out) true) (in_use s) (peak s) (@None nat) log (poisoned s).
  - move_pc Writing (Leaving None false) (in_use s) (peak s) (@None nat) (writer_log s) true.
  - move_pc Writing (Leaving None true) (in_use s) (peak s) (@None nat) log true.
  - move_pc (Leaving out b) (Returning out b (in_use s)) (in_use s) (peak s) (writer s)
      (writer_log s) (poisoned s).
  - pose proof (permits_alter _ _ _ (Finished out b) H1) as Hperm. simpl in Hperm.
    move_pc (Returning out b (in_use s)) (Finished out b) (in_use s - 1) (peak s) (writer s)
      (writer_log s) (poisoned s).
  - move_pc (Returning out b cur) (Returning out b (in_use s)) (in_use s) (peak s) (writer s)
      (writer_log s) (poisoned s).
Qed.

Lemma admission_reachable log cap s : reachable (from_log log cap) s → admission s.
Proof.
  intros Hr. pose proof (admission_init log cap) as Hinit. revert Hinit.
  induction Hr as [s|s s' s'' Hs _ IH]; [done|]. intros Hinit. apply IH.
  destruct Hs as [i ? Ht|call]; [by eapply admission_tstep|by apply admission_spawn].
Qed.

(** The admission bound holds at every instant and under every interleaving:
    the counter is exactly the number of threads holding a permit, it never
    exceeds the capacity, neither does its recorded peak, and at most one
    thread is in the critical section. *)
Theorem admission_bounded log cap s :
  reachable (from_log log cap) s →
  in_use s = N.of_nat (permits (threads s)) ∧ in_use s ≤ capacity s ∧ peak s ≤ capacity s ∧
  ∀ i j ci cj, threads s !! i = Some (ci, Writing) → threads s !! j = Some (cj, Writing) → i = j.
Proof.
  intros [Hc Hb Hp _ Hw]%admission_reachable. split_and!; [done..|].
  intros i j ci cj Hi Hj. assert (writer s = Some i) by (apply Hw; eauto).
  assert (writer s = Some j) by (apply Hw; eauto). congruence.
Qed.

(** Threads can always be run to completion. *)
Definition rank (pc : Pc) : nat :=
  match pc with
  | Start => 7
  | Acquiring _ => 6
  | Counted _ => 5
  | Entered => 4
  | Writing => 3
  | Leaving _ _ => 2
  | Returning _ _ _ => 1
  | Finished _ _ => 0
  end.
Definition work (l : list (Call * Pc)) : nat := sum_list ((λ t, rank t.2) <$> l).

Lemma work_alter l i t pc :
  l !! i = Some t →
  (work (alter (λ t, (t.1, pc)) i l) + rank t.2 = work l + rank pc)%nat.
Proof.
  unfold work. revert i. induction l as [|t' l IH]; intros [|i] Hi; simplify_eq/=; [lia|].
  change (alter _ (S i) (t' :: l)) with (t' :: alter (λ t : Call * Pc, (t.1, pc)) i l).
  simpl. specialize (IH i Hi). lia.
Qed.

Definition all_finished (s : State) : Prop :=
  Forall (λ t, ∃ out b, t.2 = Finished out b) (threads s).
Definition runs : relation State := rtc (λ s s', ∃ i, tstep i s s').

(** One useful move of an unfinished thread. *)
Lemma work_decreases s i call pc :
  admission s → threads s !! i = Some (call, pc) → (∀ out b, pc ≠ Finished out b) →
  ∃ s', runs s s' ∧ (work (threads s') < work (threads s))%nat.
Proof.
  intros [_ _ _ _ Hw] Hi Hpc.
  assert (∀ j s' call' pc pc', threads s !! j = Some (call', pc) → tstep j s s' →
    threads s' = alter (λ t, (t.1, pc')) j (threads s) → (rank pc' < rank pc)%nat →
    ∃ s', runs s s' ∧ (work (threads s') < work (threads s))%nat) as Hone.
  { intros j s' call' q q' Hj Hst Hth Hlt. exists s'. split; [apply rtc_once; eauto|].
    pose proof (work_alter _ _ _ q' Hj) as Hwk. rewrite Hth. simpl in Hwk. lia. }
  destruct pc as [|cur|cur| | |out b|out b cur|out b].
  - eapply Hone; [done|by eapply step_load|done|simpl; lia].
  - destruct (N.le_gt_cases (capacity s) cur) as [|Hlt];
      [eapply Hone; [done|by eapply step_full|done|simpl; lia]|].
    set (s1 := set_pc i (Acquiring (in_use s)) s).
    assert (tstep i s s1) as Hst1 by by eapply step_cas_fail.
    assert (threads s1 !! i = Some (call, Acquiring (in_use s1))) as Hi1.
    { simpl. by rewrite (lookup_alter_pc _ _ _ _ _ Hi), decide_True. }
    pose proof (work_alter _ _ _ (Acquiring (in_use s)) Hi) as Hw1.
    assert (∃ s2 pc2, tstep i s1 s2 ∧ threads s2 = alter (λ t, (t.1, pc2)) i (threads s1) ∧
      (rank pc2 < 6)%nat) as (s2 & pc2 & H2 & Ht2 & Hr2).
    { destruct (N.le_gt_cases (capacity s1) (in_use s1)).
      - eexists _, _. split; [by eapply step_full|]. split; [done|simpl; lia].
      - eexists _, _. split; [by eapply step_cas_ok|]. split; [done|simpl; lia]. }
    exists s2. split; [eapply rtc_l; [by exists i|]; apply rtc_once; by exists i|].
    pose proof (work_alter _ _ _ pc2 Hi1) as Hw2. rewrite Ht2. simpl in *. lia.
  - eapply Hone; [done|by eapply step_peak|done|simpl; lia].
  - destruct (writer s) as [j|] eqn:Ew.
    + destruct (proj1 (Hw j) eq_refl) as [call' Hj].
      destruct (critical call' (writer_log s)) as [log' out] eqn:E.
      eapply Hone; [done|by eapply step_section|done|simpl; lia].
    + destruct (poisoned s) eqn:Ep.
      * eapply Hone; [done|by eapply step_lock_poisoned|done|simpl; lia].
      * eapply Hone; [done|by eapply step_lock|done|simpl; lia].
  - destruct (critical call (writer_log s)) as [log' out] eqn:E.
    eapply Hone; [done|by eapply step_section|done|simpl; lia].
  - eapply Hone; [done|by eapply step_drop_load|done|simpl; lia].
  - destruct (decide (in_use s = cur)).
    + eapply Hone; [done|by eapply step_drop_ok|done|simpl; lia].
    + set (s1 := set_pc i (Returning out b (in_use s)) s).
      assert (tstep i s s1) as Hst1 by by eapply step_drop_fail.
      assert (threads s1 !! i = Some (call, Returning out b (in_use s1))) as Hi1.
      { simpl. by rewrite (lookup_alter_pc _ _ _ _ _ Hi), decide_True. }
      eexists. split; [eapply rtc_l; [by exists i|]; apply rtc_once; exists i; by eapply step_drop_ok|].
      pose proof (work_alter _ _ _ (Returning out b (in_use s)) Hi) as Hw1.
      pose proof (work_alter _ _ _ (Finished out b) Hi1) as Hw2. simpl in *. lia.
  - by destruct (Hpc out b).
Qed.

Lemma admission_runs s s' : runs s s' → admission s → admission s'.
Proof.
  induction 1 as [|s s' s'' [i Hst] _ IH]; [done|]. intros Hs. eapply IH, admission_tstep; eauto.
Qed.

(** C35. No schedule is ever stuck: from every reachable state the pending calls can
    all be run to an outcome. *)
Theorem every_call_can_finish log cap s :
  reachable (from_log log cap) s → ∃ s', runs s s' ∧ all_finished s'.
Proof.
  intros Hs%admission_reachable. remember (work (threads s)) as n eqn:Hn.
  revert s Hn Hs. induction (lt_wf n) as [n _ IH]. intros s -> Hs.
  destruct (decide (Forall (λ t, rank t.2 = 0%nat) (threads s))) as [Hf|Hf].
  - exists s. split; [done|]. eapply Forall_impl; [exact Hf|].
    intros [call []]; simpl; try done. intros _. by eexists _, _.
  - apply not_Forall_Exists, Exists_exists in Hf as ([call pc] & Hin & Hr); [|apply _].
    apply list_elem_of_lookup in Hin as [i Hi].
    destruct (work_decreases s i call pc) as (s1 & Hr1 & Hlt); [done|done|intros ?? ->; by apply Hr|].
    destruct (IH _ Hlt s1 eq_refl) as (s2 & Hr2 & Hfin); [by eapply admission_runs|].
    exists s2. split; [by etrans|done].
Qed.
End Invariants.

(** * Linearizability *)

(** The outcome of a thread whose section took effect ([None] inside when it
    panicked afterwards). *)
Definition effected (pc : Pc) : option (option Outcome) :=
  match pc with
  | Leaving out true | Returning out true _ | Finished out true => Some out
  | _ => None
  end.

(** The record an accepted call reports. *)
Definition accepted_record (out : Outcome) : option EventRecord :=
  match out with
  | SubmitOut (Ok r) | UndoOut (Ok r) | ImportOut (Ok r) => Some r
  | _ => None
  end.

(** A call that never ran its section reports no record. *)
Definition unaccepted (pc : Pc) : Prop :=
  match pc with
  | Leaving (Some out) false | Returning (Some out) false _ | Finished (Some out) false =>
      accepted_record out = None
  | _ => True
  end.

Section Linear.
Context `{Crypto} `{SerdeJson}.

(** Critical sections run one after the other, with their outcomes. *)
Fixpoint serial (log : EventLog) (calls : list (nat * Call * Outcome)) (log' : EventLog) : Prop :=
  match calls with
  | [] => log' = log
  | (_, call, out) :: calls => ∃ log1, critical call log = (log1, out) ∧ serial log1 calls log'
  end.

Lemma serial_snoc log calls i call out log1 log2 :
  serial log calls log1 → critical call log1 = (log2, out) →
  serial log (calls ++ [(i, call, out)]) log2.
Proof.
  revert log. induction calls as [|[[j c] o] calls IH]; intros log; simpl.
  - intros -> Hc. by exists log2.
  - intros (log' & Hc & Hs) Hcr. exists log'. split; [done|by apply IH].
Qed.

(** The execution so far is a serial one: its calls are those of the threads
    whose sections took effect, each once and with the outcome it reports. *)
Definition linearized (log0 : EventLog) (s : State) (calls : list (nat * Call * Outcome)) : Prop :=
  NoDup (calls.*1).*1 ∧ serial log0 calls (writer_log s) ∧
  (∀ i, i ∈ (calls.*1).*1 → (i < length (threads s))%nat) ∧
  ∀ i call pc, threads s !! i = Some (call, pc) →
    match effected pc with
    | None => (i ∉ (calls.*1).*1) ∧ unaccepted pc
    | Some o => ∃ out, (i, call, out) ∈ calls ∧ (o = Some out ∨ o = None)
    end.

(** A step that runs no section keeps the serial execution. *)
Lemma linearized_move log0 s calls i call pc pc' s' :
  linearized log0 s calls → threads s !! i = Some (call, pc) →
  threads s' = alter (λ t, (t.1, pc')) i (threads s) → writer_log s' = writer_log s →
  effected pc' = effected pc → (unaccepted pc → unaccepted pc') → linearized log0 s' calls.
Proof.
  intros (Hnd & Hs & Hlt & Ht) Hi Hth Hlog He Hun. split_and!; [done|by rewrite Hlog| |].
  - intros j Hj. rewrite Hth, length_alter. by apply Hlt.
  - intros j call' q Hj. rewrite Hth, (lookup_alter_pc _ _ _ _ _ Hi) in Hj. case_decide as Hji.
    + simplify_eq/=. rewrite He. apply Ht in Hi. destruct (effected pc); naive_solver.
    + by apply Ht.
Qed.

Lemma linearized_section log0 s calls i call log out o s' pc' :
  linearized log0 s calls → threads s !! i = Some (call, Writing) →
  critical call (writer_log s) = (log, out) →
  threads s' = alter (λ t, (t.1, pc')) i (threads s) → writer_log s' = log →
  effected pc' = Some o → (o = Some out ∨ o = None) →
  linearized log0 s' (calls ++ [(i, call, out)]).
Proof.
  intros (Hnd & Hs & Hlt & Ht) Hi Hc Hth Hlog He Ho.
  pose proof (Ht i call Writing Hi) as [Hni _].
  unfold linearized. rewrite !fmap_app. simpl. split_and!.
  - apply NoDup_app. split_and!; [done| |apply NoDup_singleton].
    intros j Hj ->%list_elem_of_singleton. done.
  - rewrite Hlog. by eapply serial_snoc.
  - intros j. rewrite Hth, length_alter, elem_of_app, list_elem_of_singleton.
    intros [Hj| ->]; [by apply Hlt|by eapply lookup_lt_Some].
  - intros j call' q Hj. rewrite Hth, (lookup_alter_pc _ _ _ _ _ Hi) in Hj. case_decide as Hji.
    + simplify_eq/=. rewrite He. exists out. split; [|done]. set_solver.
    + apply Ht in Hj. destruct (effected q).
      * destruct Hj as (out' & Hin & ?). exists out'. split; [set_solver|done].
      * set_solver.
Qed.

Lemma linearized_tstep log0 i s s' calls :
  tstep i s s' → linearized log0 s calls → ∃ calls', linearized log0 s' calls'.
Proof.
  intros Ht Hl. inversion Ht; subst;
    try (eexists; eapply linearized_section; eauto; fail);
    exists calls; (eapply linearized_move; [done|done|done|done|..]); simpl; try done;
    first [by destruct b|by destruct call|by destruct out as [[]|], b].
Qed.

Lemma linearized_spawn log0 s call calls :
  linearized log0 s calls →
  linearized log0 {| writer_log := writer_log s; writer := writer s; poisoned := poisoned s;
    in_use := in_use s; peak := peak s; capacity := capacity s;
    threads := threads s ++ [(call, Start)] |} calls.
Proof.
  intros (Hnd & Hs & Hlt & Ht). split_and!; [done|done| |].
  - intros i Hi. simpl. rewrite length_app. apply Hlt in Hi. lia.
  - intros i call' pc. simpl. intros [Hi|[Hge Hi]]%lookup_app_Some; [by apply Ht|].
    apply list_lookup_singleton_Some in Hi as [? ?]. simplify_eq/=. split; [|done].
    intros Hin%Hlt. lia.
Qed.

Lemma linearized_reachable log0 cap s :
  reachable (from_log log0 cap) s → ∃ calls, linearized log0 s calls.
Proof.
  intros Hr. assert (linearized log0 (from_log log0 cap) []) as Hinit.
  { split_and!; [constructor|done|by intros ? ?%not_elem_of_nil|done]. }
  revert Hinit. generalize (@nil (nat * Call * Outcome)). intros calls.
  revert calls. induction Hr as [s|s s' s'' Hs _ IH]; intros calls Hl; [by eexists|].
  destruct Hs as [i ? Ht|call]; [|by eapply IH, linearized_spawn].
  destruct (linearized_tstep _ _ _ _ _ Ht Hl) as [calls' Hl']. by eapply IH.
Qed.

(** C4. Whatever the interleaving, the log is the one a single caller would have
    produced by running the critical sections that took effect one after the
    other, each once, and every call reports the outcome of its own. *)
Theorem serializer_linearizable log0 cap s :
  reachable (from_log log0 cap) s → ∃ calls, linearized log0 s calls.
Proof. apply linearized_reachable. Qed.

(** One section appends at most one record: the accepted one, or an audit. *)
Lemma critical_appends call log log' out :
  critical call log = (log', out) →
  match accepted_record out with
  | Some r => records log' = records log ++ [r] ∧ seq r = N.of_nat (log_len log)
  | None => log' = log ∨ ∃ a, records log' = records log ++ [a] ∧ kind a = AUTHZ_DENIED_KIND
  end.
Proof.
  assert (∀ lg pc ep at_ lg' d a, guard_authorize lg pc ep at_ = (lg', (d, a)) →
    match d with Allow => lg' = lg | Deny _ =>
      ∃ a, records lg' = records lg ++ [a] ∧ kind a = AUTHZ_DENIED_KIND end) as Hguard.
  { intros lg pc ep at_ lg' d a. unfold guard_authorize, append.
    destruct (authorize pc ep); intros ?; inv_eqs; eauto. }
  destruct call as [op|target pc at_|sc n t pc at_]; simpl.
  - unfold submit_section. destruct (guard_authorize _ _ _ _) as [lg [d a]] eqn:E.
    apply Hguard in E. destruct d; unfold append; intros ?; inv_eqs; simpl; [done|by right].
  - unfold undo_section. destruct (compute_compensation log target); [|intros ?; inv_eqs; by left].
    destruct (guard_authorize _ _ _ _) as [lg [d b]] eqn:E.
    apply Hguard in E. destruct d; unfold append; intros ?; inv_eqs; simpl; [done|by right].
  - unfold import_section, import_sidecar, append_authorized.
    destruct (negb _); [intros ?; inv_eqs; by left|].
    case_decide; [intros ?; inv_eqs; by left|].
    destruct (already_landed _ _); [intros ?; inv_eqs; by left|].
    destruct (authorize_class _ _); unfold append; intros ?; inv_eqs; simpl; [done|eauto].
Qed.

Lemma serial_grows log calls log' :
  serial log calls log' → ∃ l, records log' = records log ++ l.
Proof.
  revert log. induction calls as [|[[i c] o] calls IH]; intros log; simpl.
  - intros ->. exists []. by rewrite app_nil_r.
  - intros (log1 & Hc & (l & Hl)%IH). apply critical_appends in Hc. rewrite Hl.
    destruct (accepted_record o) as [r|].
    + destruct Hc as [-> _]. rewrite <- (assoc_L (++)). eauto.
    + destruct Hc as [-> |(a & -> & _)]; [eauto|rewrite <- (assoc_L (++)); eauto].
Qed.

(** Along a serial execution the accepted records sit at their own positions,
    after everything that was there before, in the order of the calls. *)
Lemma serial_accepted log calls log' k i call out r :
  serial log calls log' → calls !! k = Some (i, call, out) → accepted_record out = Some r →
  records log' !! N.to_nat (seq r) = Some r ∧ N.of_nat (log_len log) ≤ seq r ∧
  ∀ k' i' call' out' r', (k < k')%nat → calls !! k' = Some (i', call', out') →
    accepted_record out' = Some r' → seq r < seq r'.
Proof.
  revert log k i call out r. induction calls as [|[[j c] o] calls IH]; intros log k i call out r; simpl; [done|].
  intros (log1 & Hc & Hs) Hk Hr. destruct k as [|k]; simpl in Hk.
  - simplify_eq. apply critical_appends in Hc. rewrite Hr in Hc. destruct Hc as [Hrec Hseq].
    split_and!; [|lia|].
    + destruct (serial_grows _ _ _ Hs) as [l ->]. rewrite Hrec, Hseq, Nat2N.id.
      apply lookup_app_l_Some. by apply list_lookup_middle.
    + intros [|k'] i' call' out' r' Hlt Hk' Hr'; [lia|]. simpl in Hk'.
      edestruct IH as (_ & Hle & _); [done|done|done|].
      unfold log_len in *. rewrite Hrec, length_app in Hle. simpl in Hle. lia.
  - edestruct IH as (Hl & Hle & Hord); [done|done|done|]. split_and!; [done| |].
    + assert (log_len log ≤ log_len log1)%nat; [|lia]. apply critical_appends in Hc.
      unfold log_len. destruct (accepted_record o) as [ro|].
      * destruct Hc as [-> _]. rewrite length_app. lia.
      * destruct Hc as [-> |(a & -> & _)]; rewrite ?length_app; lia.
    + intros [|k'] i' call' out' r' Hlt Hk' Hr'; [lia|]. simpl in Hk'. eapply Hord; [|done|done]. lia.
Qed.

(** Nothing is lost or duplicated: the record an accepted call reports is on the
    chain at its own sequence number, after the initial log, and no other
    accepted call has that number. *)
Theorem accepted_once log0 cap s i call out b r :
  reachable (from_log log0 cap) s →
  threads s !! i = Some (call, Finished (Some out) b) → accepted_record out = Some r →
  records (writer_log s) !! N.to_nat (seq r) = Some r ∧
  N.of_nat (log_len log0) ≤ seq r ∧
  ∀ j call' out' b' r', j ≠ i → threads s !! j = Some (call', Finished (Some out') b') →
    accepted_record out' = Some r' → seq r' ≠ seq r.
Proof.
  intros (calls & Hnd & Hs & _ & Ht)%linearized_reachable Hi Hr.
  assert (∀ j call out b r, threads s !! j = Some (call, Finished (Some out) b) →
    accepted_record out = Some r → ∃ k, calls !! k = Some (j, call, out)) as Hin.
  { intros j c o b' r0 Hj Hr0. apply Ht in Hj. destruct b'; simpl in Hj.
    - destruct Hj as (o' & Hin & [?|?]); simplify_eq. by apply list_elem_of_lookup.
    - destruct Hj as [_ Hj]. congruence. }
  destruct (Hin _ _ _ _ _ Hi Hr) as [k Hk].
  destruct (serial_accepted _ _ _ _ _ _ _ _ Hs Hk Hr) as (Hl & Hle & Hord).
  split_and!; [done|done|]. intros j call' out' b' r' Hji Hj Hr' Heq.
  destruct (Hin _ _ _ _ _ Hj Hr') as [k' Hk'].
  destruct (serial_accepted _ _ _ _ _ _ _ _ Hs Hk' Hr') as (_ & _ & Hord').
  destruct (lt_eq_lt_dec k k') as [[Hlt| ->]|Hlt].
  - specialize (Hord _ _ _ _ _ Hlt Hk' Hr'). lia.
  - congruence.
  - specialize (Hord' _ _ _ _ _ Hlt Hk Hr). lia.
Qed.
End Linear.

(** * Running a schedule *)

Section Schedule.
Context `{Crypto} `{SerdeJson}.

(** The next step of a thread, without spurious failures and panics. *)
Definition advance (i : nat) (s : State) : option State :=
  match threads s !! i with
  | Some (_, Start) => Some (set_pc i (Acquiring (in_use s)) s)
  | Some (call, Acquiring cur) =>
      if decide (capacity s ≤ cur)
      then Some (set_pc i (Finished (Some (refused call (Backpressure (capacity s)))) false) s)
      else if decide (in_use s = cur)
      then Some (set_pc i (Counted cur) (set_in_use (cur + 1) s))
      else Some (set_pc i (Acquiring (in_use s)) s)
  | Some (_, Counted cur) => Some (set_pc i Entered (set_peak (N.max (peak s) (cur + 1)) s))
  | Some (call, Entered) =>
      match writer s, poisoned s with
      | None, false => Some (set_pc i Writing (set_writer (writer_log s) (Some i) false s))
      | None, true => Some (set_pc i (Leaving (Some (refused call WriterPoisoned)) false) s)
      | Some _, _ => None
      end
  | Some (call, Writing) =>
      let '(log, out) := critical call (writer_log s) in
      Some (set_pc i (Leaving (Some out) true) (set_writer log None (poisoned s) s))
  | Some (_, Leaving out b) => Some (set_pc i (Returning out b (in_use s)) s)
  | Some (_, Returning out b cur) =>
      if decide (in_use s = cur)
      then Some (set_pc i (Finished out b) (set_in_use (cur - 1) s))
      else Some (set_pc i (Returning out b (in_use s)) s)
  | Some (_, Finished _ _) | None => None
  end.

Lemma advance_sound i s s' : advance i s = Some s' → tstep i s s'.
Proof.
  unfold advance. destruct (threads s !! i) as [[call pc]|] eqn:E; [|done].
  destruct pc; simpl.
  - intros. inv_eqs. by eapply step_load.
  - case_decide; [intros; inv_eqs; by eapply step_full|].
    case_decide; intros; inv_eqs; [eapply step_cas_ok|eapply step_cas_fail]; try done; lia.
  - intros. inv_eqs. by eapply step_peak.
  - destruct (writer s) eqn:Ew; [done|].
    destruct (poisoned s) eqn:Ep; intros; inv_eqs; [by eapply step_lock_poisoned|by eapply step_lock].
  - destruct (critical call (writer_log s)) eqn:Ec. intros. inv_eqs. by eapply step_section.
  - intros. inv_eqs. by eapply step_drop_load.
  - case_decide; intros; inv_eqs; [by eapply step_drop_ok|by eapply step_drop_fail].
  - done.
Qed.

(** A schedule: calls arriving ([inl]) and threads moving ([inr]). *)
Fixpoint schedule (evs : list (Call + nat)) (s : State) : option State :=
  match evs with
  | [] => Some s
  | inl call :: evs =>
      schedule evs {| writer_log := writer_log s; writer := writer s; poisoned := poisoned s;
        in_use := in_use s; peak := peak s; capacity := capacity s;
        threads := threads s ++ [(call, Start)] |}
  | inr i :: evs => s' ← advance i s; schedule evs s'
  end.

Lemma schedule_sound evs s s' : schedule evs s = Some s' → reachable s s'.
Proof.
  revert s. induction evs as [|[call|i] evs IH]; intros s; simpl.
  - intros. inv_eqs. apply rtc_refl.
  - intros Hs%IH. eapply rtc_l; [apply step_spawn|done].
  - destruct (advance i s) as [s1|] eqn:E; simpl; [|done]. intros Hs%IH.
    eapply rtc_l; [eapply step_thread, advance_sound, E|done].
Qed.
End Schedule.

Module SerializerExample.
#[local] Existing Instance Toy.toy.
#[local] Existing Instance Codec.codec.

Definition op (who : string) : Call :=
  CallSubmit {| op_kind := "pr.opened"; op_principal_chain := [who]; op_payload := "{}";
                op_recorded_at := 1 |}.
(** Three submitters at capacity two: the second takes the writer first, the
    third is refused. *)
Definition schedule3 : list (Call + nat) :=
  [inl (op "user:a"); inl (op "user:b"); inl (op "user:c");
   inr 0; inr 1; inr 0; inr 1; inr 1; inr 0; inr 2; inr 2; inr 1; inr 1; inr 1; inr 1; inr 1;
   inr 0; inr 0; inr 0; inr 0]%nat.
Definition final : State := default (with_capacity 2) (schedule schedule3 (with_capacity 2)).
(** The same before anybody finished. *)
Definition midway : State := default (with_capacity 2) (schedule (take 12 schedule3) (with_capacity 2)).
Definition first_out : option Outcome :=
  match threads final !! 1%nat with Some (_, Finished out _) => out | _ => None end.

Lemma serializer_linearizable_witness : ∃ calls, linearized EventLog_new final calls.
Proof.
  apply (serializer_linearizable EventLog_new 2). apply (schedule_sound schedule3).
  vm_compute. reflexivity.
Defined.

Lemma accepted_once_witness :
  ∃ r, records (writer_log final) !! N.to_nat (seq r) = Some r ∧ seq r = 0.
Proof.
  destruct first_out as [out|] eqn:Eo; [|by vm_compute in Eo].
  destruct (accepted_record out) as [r|] eqn:Er.
  - destruct (accepted_once EventLog_new 2 final 1 (op "user:b") out true r) as (Hr & _ & _).
    + apply (schedule_sound schedule3). vm_compute. reflexivity.
    + revert Eo. vm_compute. by intros [= <-].
    + exact Er.
    + exists r. split; [exact Hr|]. revert Eo Er. vm_compute. intros [= <-] [= <-]. reflexivity.
  - exfalso. revert Eo Er. vm_compute. by intros [= <-].
Defined.

Lemma admission_bounded_witness :
  in_use midway = N.of_nat (permits (threads midway)) ∧ in_use midway ≤ 2 ∧ peak midway ≤ 2.
Proof.
  destruct (admission_bounded EventLog_new 2 midway) as (Hc & Hu & Hp & _).
  - apply (schedule_sound (take 12 schedule3)). vm_compute. reflexivity.
  - exact (conj Hc (conj Hu Hp)).
Defined.

Lemma every_call_can_finish_witness : ∃ s', runs midway s' ∧ all_finished s'.
Proof.
  apply (every_call_can_finish EventLog_new 2). apply (schedule_sound (take 12 schedule3)).
  vm_compute. reflexivity.
Defined.
End SerializerExample.
