(* ===== verification/Coordination.v ===== *)
(** Experimental native coordination: [crates/hugit-refstore/src/coordination.rs].

    The namespace is a small file system (regular files with their bytes) with a
    table of native file locks; [try_acquire], [release_last] and [try_disable]
    are functions on it, and a step relation interleaves them over any number of
    lock sets.  Only regular files that nobody replaces are modelled, so the
    inode comparison of [validate_opened_file] is not.

    The theorems: a resource is never held twice, each set holds its locks in
    the global order and within its budget; disabling succeeds only when no lock
    is held and is permanent; a torn state file never reads as active. *)

From S2P Require Import Prelude Json.

Definition MAX_HELD_LOCKS : nat := 64.
Definition nl : string := String (ascii_of_nat 10) EmptyString.
Definition MARKER : string := "hugit.coordination/2-experimental-lifecycle1" +:+ nl.
Definition WRITER_STATE_FILE : string := "writer-state".
Definition PROTOCOL_FILE : string := "protocol".
Definition ACTIVE : string := "active" +:+ nl.
Definition DISABLED : string := "disabled" +:+ nl.

Inductive WriterState := Active | Disabled.

Inductive IoError := NotFound | AlreadyExists.

Inductive CoordinationError :=
| UnsupportedPlatform | InvalidNamespace | InvalidKey | InvalidLockFile | InvalidWriterState
| WritersDisabled | OutOfOrder | TooManyLocks | Busy | Io (e : IoError).

(** * Requests and their order *)

Inductive LockClass := InstallationBudget | RepoAdmission | Operation.
#[global] Instance LockClass_eq_dec : EqDecision LockClass.
Proof. solve_decision. Defined.

Definition lock_prefix (c : LockClass) : string :=
  match c with
  | InstallationBudget => "0-installation-budget"
  | RepoAdmission => "1-repo-admission"
  | Operation => "2-operation"
  end.
(** The declaration order. *)
Definition class_rank (c : LockClass) : nat :=
  match c with InstallationBudget => 0 | RepoAdmission => 1 | Operation => 2 end.

Record LockRequest := { lock_class : LockClass; lock_key : string }.

Definition key_char (c : ascii) : bool :=
  let n := N_of_ascii c in
  ((97 <=? n) && (n <=? 122)) || ((48 <=? n) && (n <=? 57)) || (n =? 45) || (n =? 95).
Fixpoint all_chars (f : ascii → bool) (s : string) : bool :=
  match s with EmptyString => true | String c s => f c && all_chars f s end.

Definition LockRequest_new (class : LockClass) (key : string)
    : result CoordinationError LockRequest :=
  if bool_decide (key = "") || (64 <? String.length key)%nat || negb (all_chars key_char key)
  then Err InvalidKey
  else Ok {| lock_class := class; lock_key := key |}.

(** The derived order: class, then key bytes. *)
Definition request_compare (a b : LockRequest) : comparison :=
  match Nat.compare (class_rank (lock_class a)) (class_rank (lock_class b)) with
  | Eq => String.compare (lock_key a) (lock_key b)
  | c => c
  end.
Definition request_lt (a b : LockRequest) : Prop := request_compare a b = Lt.

Definition lock_path (request : LockRequest) : string :=
  lock_prefix (lock_class request) +:+ "-" +:+ lock_key request +:+ ".lock".

(** * Files and native locks *)

Inductive Node := Regular (content : string) | OtherNode.
#[global] Instance Node_eq_dec : EqDecision Node.
Proof. solve_decision. Defined.
Inductive RootKind := RootMissing | RootDirectory | RootOther.
Inductive Lease := Exclusive | SharedBy (n : nat).

Record World := {
  root : RootKind;
  fs : gmap string Node;
  locks : gmap string Lease;
}.
Definition set_fs (f : gmap string Node) (w : World) : World :=
  {| root := root w; fs := f; locks := locks w |}.
Definition set_locks (l : gmap string Lease) (w : World) : World :=
  {| root := root w; fs := fs w; locks := l |}.

(** The opened file is its path; a missing file is created empty when asked. *)
Definition open_stable_file (w : World) (path : string) (create : bool)
    : result CoordinationError World :=
  match fs w !! path with
  | Some (Regular _) => Ok w
  | Some OtherNode => Err InvalidLockFile
  | None => if create then Ok (set_fs (<[path := Regular ""]> (fs w)) w) else Err (Io NotFound)
  end.

Definition lock_handle (w : World) (path : string) (shared : bool)
    : result CoordinationError World :=
  match locks w !! path, shared with
  | None, true => Ok (set_locks (<[path := SharedBy 1]> (locks w)) w)
  | None, false => Ok (set_locks (<[path := Exclusive]> (locks w)) w)
  | Some (SharedBy n), true => Ok (set_locks (<[path := SharedBy (S n)]> (locks w)) w)
  | Some _, _ => Err Busy
  end.

(** Dropping a [NativeLease]. *)
Definition unlock (w : World) (path : string) : World :=
  match locks w !! path with
  | Some (SharedBy (S (S n))) => set_locks (<[path := SharedBy (S n)]> (locks w)) w
  | _ => set_locks (delete path (locks w)) w
  end.

Definition validate_namespace (w : World) : result CoordinationError unit :=
  match root w with
  | RootMissing => Err (Io NotFound)
  | RootOther => Err InvalidNamespace
  | RootDirectory =>
      w ← open_stable_file w PROTOCOL_FILE false;
      if decide (fs w !! PROTOCOL_FILE = Some (Regular MARKER)) then Ok tt
      else Err InvalidNamespace
  end.

(** At most one byte more than the longest value is read. *)
Definition read_writer_state (w : World) : result CoordinationError WriterState :=
  match fs w !! WRITER_STATE_FILE with
  | Some (Regular content) =>
      let bytes := String.substring 0 (String.length DISABLED + 1) content in
      if decide (bytes = ACTIVE) then Ok Active
      else if decide (bytes = DISABLED) then Ok Disabled
      else Err InvalidWriterState
  | _ => Err InvalidLockFile
  end.

(** * The coordinator *)

Definition inspect (w : World) : result CoordinationError WriterState :=
  _ ← validate_namespace w;
  w ← open_stable_file w WRITER_STATE_FILE false;
  read_writer_state w.

Definition coordinator_open (w : World) : result CoordinationError unit :=
  _ ← validate_namespace w;
  w ← open_stable_file w WRITER_STATE_FILE false;
  _ ← read_writer_state w;
  Ok tt.

Definition coordinator_create (w : World) : World * result CoordinationError unit :=
  match root w with
  | RootMissing =>
      let w := {| root := RootDirectory;
                  fs := {[ WRITER_STATE_FILE := Regular ACTIVE; PROTOCOL_FILE := Regular MARKER ]};
                  locks := locks w |} in
      (w, coordinator_open w)
  | _ => (w, Err (Io AlreadyExists))
  end.

(** [rewind] and [write_all] without truncation. *)
Definition overwrite (old new : string) : string :=
  new +:+ String.substring (String.length new) (String.length old) old.

Definition write_state (value : string) (w : World) : World :=
  match fs w !! WRITER_STATE_FILE with
  | Some (Regular old) =>
      set_fs (<[WRITER_STATE_FILE := Regular (overwrite old value)]> (fs w)) w
  | _ => w
  end.

Definition try_disable (w : World) : World * result CoordinationError unit :=
  match (_ ← validate_namespace w; w ← open_stable_file w WRITER_STATE_FILE false;
         lock_handle w WRITER_STATE_FILE false) with
  | Err e => (w, Err e)
  | Ok w1 =>
      match read_writer_state w1 with
      | Err e => (unlock w1 WRITER_STATE_FILE, Err e)
      | Ok Active => (unlock (write_state DISABLED w1) WRITER_STATE_FILE, Ok tt)
      | Ok Disabled => (unlock w1 WRITER_STATE_FILE, Ok tt)
      end
  end.

(** * Lock sets *)

Record LockSet := { held : list LockRequest; admission : bool }.
Definition lock_set : LockSet := {| held := []; admission := false |}.

Definition set_len (s : LockSet) : nat := length (held s).
Definition set_is_empty (s : LockSet) : bool := match held s with [] => true | _ => false end.

(** The temporary admission of a first acquisition, dropped when it fails. *)
Definition take_admission (w : World) (pending : bool) : result CoordinationError World :=
  if pending then
    w ← open_stable_file w WRITER_STATE_FILE false;
    lock_handle w WRITER_STATE_FILE true
  else Ok w.
Definition drop_admission (pending : bool) (w : World) : World :=
  if pending then unlock w WRITER_STATE_FILE else w.

Definition try_acquire (w : World) (s : LockSet) (request : LockRequest)
    : World * LockSet * result CoordinationError unit :=
  if (MAX_HELD_LOCKS <=? length (held s))%nat then (w, s, Err TooManyLocks)
  else if match last (held s) with
          | Some l => match request_compare request l with Gt => false | _ => true end
          | None => false
          end then (w, s, Err OutOfOrder)
  else match validate_namespace w with
  | Err e => (w, s, Err e)
  | Ok _ =>
      let pending := negb (admission s) in
      match take_admission w pending with
      | Err e => (w, s, Err e)
      | Ok w1 =>
          match read_writer_state w1 with
          | Err e => (drop_admission pending w1, s, Err e)
          | Ok Disabled => (drop_admission pending w1, s, Err WritersDisabled)
          | Ok Active =>
              match open_stable_file w1 (lock_path request) true with
              | Err e => (drop_admission pending w1, s, Err e)
              | Ok w2 =>
                  match lock_handle w2 (lock_path request) false with
                  | Err e => (drop_admission pending w2, s, Err e)
                  | Ok w3 => (w3, {| held := held s ++ [request]; admission := true |}, Ok tt)
                  end
              end
          end
      end
  end.

Definition release_last (w : World) (s : LockSet) : World * LockSet * option LockRequest :=
  match last (held s) with
  | None => (w, s, None)
  | Some request =>
      let w := unlock w (lock_path request) in
      let held' := take (length (held s) - 1) (held s) in
      match held' with
      | [] => ((if admission s then unlock w WRITER_STATE_FILE else w),
               {| held := []; admission := false |}, Some request)
      | _ => (w, {| held := held'; admission := admission s |}, Some request)
      end
  end.

(** * Any number of lock sets *)

Record System := { world : World; sets : list LockSet }.

Inductive sys_step (y : System) : System → Prop :=
| sys_new :
    sys_step y {| world := world y; sets := sets y ++ [lock_set] |}
| sys_acquire i s request w' s' r :
    sets y !! i = Some s → try_acquire (world y) s request = (w', s', r) →
    sys_step y {| world := w'; sets := <[i := s']> (sets y) |}
| sys_release i s w' s' r :
    sets y !! i = Some s → release_last (world y) s = (w', s', r) →
    sys_step y {| world := w'; sets := <[i := s']> (sets y) |}
| sys_disable w' r :
    try_disable (world y) = (w', r) →
    sys_step y {| world := w'; sets := sets y |}.

(** A namespace just created, nobody holding anything. *)
Definition fresh_system (w : World) : System :=
  {| world := (coordinator_create w).1; sets := [] |}.

(** * Order and paths *)

Lemma request_lt_iff a b :
  request_lt a b ↔ (class_rank (lock_class a) < class_rank (lock_class b))%nat ∨
    (lock_class a = lock_class b ∧ key_lt (lock_key a) (lock_key b)).
Proof.
  unfold request_lt, request_compare. rewrite <- key_lt_compare.
  destruct (Nat.compare_spec (class_rank (lock_class a)) (class_rank (lock_class b))) as [He|Hl|Hg].
  - assert (lock_class a = lock_class b) by (by destruct (lock_class a), (lock_class b)).
    split; [by right|]. intros [|[_ ?]]; [lia|done].
  - split; [by left|done].
  - split; [done|]. intros [?|[Heq _]]; [lia|]. rewrite Heq in Hg. lia.
Qed.

#[global] Instance request_lt_trans : Transitive request_lt.
Proof.
  intros a b c. rewrite !request_lt_iff. intros [H1|[E1 K1]] [H2|[E2 K2]].
  - left. lia.
  - left. by rewrite <- E2.
  - left. by rewrite E1.
  - right. split; [congruence|by etrans].
Qed.

Lemma request_compare_Gt a b : request_compare a b = Gt → request_lt b a.
Proof.
  unfold request_lt, request_compare. rewrite Nat.compare_antisym, String.compare_antisym.
  by destruct (Nat.compare _ _), (String.compare _ _).
Qed.

Lemma app_string_inj_r a b c : a +:+ c = b +:+ c → a = b.
Proof.
  revert b. induction a as [|x a IH]; intros [|y b] Heq; [done|..].
  - apply (f_equal String.length) in Heq. rewrite !length_string_app in Heq. simpl in Heq. lia.
  - apply (f_equal String.length) in Heq. rewrite !length_string_app in Heq. simpl in Heq. lia.
  - change (String x (a +:+ c) = String y (b +:+ c)) in Heq. injection Heq as -> Heq.
    by rewrite (IH b).
Qed.

#[global] Instance lock_path_inj : Inj (=) (=) lock_path.
Proof.
  intros [c k] [c' k']. unfold lock_path. simpl.
  destruct c, c'; intros Heq; try done; f_equal;
    injection Heq as Heq; by apply (app_string_inj_r _ _ ".lock").
Qed.

Lemma lock_path_not_state r : lock_path r ≠ WRITER_STATE_FILE.
Proof. destruct r as [[] k]; done. Qed.
Lemma lock_path_not_protocol r : lock_path r ≠ PROTOCOL_FILE.
Proof. destruct r as [[] k]; done. Qed.

(** * The lock table *)

(** The table when the resources [ps] are held and [n] sets are admitted. *)
Definition table_ok (l : gmap string Lease) (ps : list string) (n : nat) : Prop :=
  l !! WRITER_STATE_FILE = match n with O => None | S _ => Some (SharedBy n) end ∧
  ∀ p, p ≠ WRITER_STATE_FILE → l !! p = if decide (p ∈ ps) then Some Exclusive else None.

Lemma table_ok_perm l ps ps' n : ps ≡ₚ ps' → table_ok l ps n → table_ok l ps' n.
Proof.
  intros Hp [Hw Ht]. split; [done|]. intros p Hne. rewrite (Ht p Hne).
  repeat case_decide; [done| |..]; try done; by rewrite Hp in *.
Qed.

Lemma table_share w ps n :
  table_ok (locks w) ps n →
  ∃ l, lock_handle w WRITER_STATE_FILE true = Ok (set_locks l w) ∧ table_ok l ps (S n).
Proof.
  intros [Hw Ht]. unfold lock_handle. rewrite Hw.
  destruct n as [|n]; eexists; (split; [done|]); split;
    rewrite ?lookup_insert_eq; try done; intros p Hp; by rewrite lookup_insert_ne, Ht.
Qed.

Lemma table_unshare w ps n :
  table_ok (locks w) ps (S n) →
  ∃ l, unlock w WRITER_STATE_FILE = set_locks l w ∧ table_ok l ps n.
Proof.
  intros [Hw Ht]. unfold unlock. rewrite Hw.
  destruct n as [|n]; eexists; (split; [done|]); split;
    rewrite ?lookup_insert_eq, ?lookup_delete_eq; try done; intros p Hp;
    by rewrite ?lookup_insert_ne, ?lookup_delete_ne, Ht.
Qed.

Lemma table_lock w ps n p w' :
  p ≠ WRITER_STATE_FILE → table_ok (locks w) ps n → lock_handle w p false = Ok w' →
  (p ∉ ps) ∧ ∃ l, w' = set_locks l w ∧ table_ok l (p :: ps) n.
Proof.
  intros Hne [Hw Ht]. unfold lock_handle. rewrite (Ht p Hne). case_decide as Hp; [done|].
  intros ?. inv_eqs. split; [done|]. eexists. split; [done|]. split.
  - by rewrite lookup_insert_ne.
  - intros q Hq. destruct (decide (q = p)) as [->|Hqp].
    + rewrite lookup_insert_eq, decide_True by set_solver. done.
    + rewrite lookup_insert_ne, Ht by done. repeat case_decide; set_solver.
Qed.

Lemma table_unlock w ps n p :
  p ≠ WRITER_STATE_FILE → p ∉ ps → table_ok (locks w) (p :: ps) n →
  ∃ l, unlock w p = set_locks l w ∧ table_ok l ps n.
Proof.
  intros Hne Hp [Hw Ht]. unfold unlock. rewrite (Ht p Hne), decide_True by set_solver.
  eexists. split; [done|]. split.
  - by rewrite lookup_delete_ne.
  - intros q Hq. destruct (decide (q = p)) as [->|Hqp].
    + by rewrite lookup_delete_eq, decide_False.
    + rewrite lookup_delete_ne, Ht by done. repeat case_decide; set_solver.
Qed.

Lemma bind_insert_perm {A B} (f : A → list B) l i x :
  l !! i = Some x → ∃ rest, (l ≫= f) ≡ₚ f x ++ rest ∧ ∀ y, (<[i := y]> l ≫= f) ≡ₚ f y ++ rest.
Proof.
  intros Hi. exists ((take i l ≫= f) ++ (drop (S i) l ≫= f)). split.
  - rewrite <- (take_drop_middle l i x Hi) at 1. rewrite bind_app. simpl.
    rewrite !(assoc_L (++)). by rewrite (comm (++) (f x)).
  - intros y. rewrite insert_take_drop by (by eapply lookup_lt_Some). rewrite bind_app. simpl.
    rewrite !(assoc_L (++)). by rewrite (comm (++) (f y)).
Qed.

(** * The operations against the table *)

(** The parts of the world other writers rely on. *)
Definition same_state (w w' : World) : Prop :=
  root w' = root w ∧ fs w' !! WRITER_STATE_FILE = fs w !! WRITER_STATE_FILE ∧
  fs w' !! PROTOCOL_FILE = fs w !! PROTOCOL_FILE.

Lemma take_admission_ok w s ps n w1 :
  table_ok (locks w) ps n → take_admission w (negb (admission s)) = Ok w1 →
  fs w1 = fs w ∧ root w1 = root w ∧
  table_ok (locks w1) ps (if admission s then n else S n).
Proof.
  intros Ht. unfold take_admission. destruct (admission s); simpl; [intros; by inv_eqs|].
  unfold open_stable_file. destruct (fs w !! WRITER_STATE_FILE) as [[]|]; simpl; try done.
  destruct (table_share _ _ _ Ht) as (l & -> & ?). intros. by inv_eqs.
Qed.

Lemma drop_admission_ok w s ps n :
  table_ok (locks w) ps (if admission s then n else S n) →
  ∃ l, drop_admission (negb (admission s)) w = set_locks l w ∧ table_ok l ps n.
Proof.
  destruct (admission s); simpl.
  - intros Ht. exists (locks w). split; [by destruct w|done].
  - apply table_unshare.
Qed.

Lemma open_resource_ok w req w2 :
  open_stable_file w (lock_path req) true = Ok w2 → same_state w w2 ∧ locks w2 = locks w.
Proof.
  unfold open_stable_file. destruct (fs w !! lock_path req) as [[]|]; intros; inv_eqs; [done|].
  pose proof (lock_path_not_state req). pose proof (lock_path_not_protocol req).
  split; [|done]. split_and!; simpl; [done|..]; by rewrite lookup_insert_ne.
Qed.

(** An acquisition either adds exactly the requested lock (and the admission of
    a first one), or changes neither the set nor the table. *)
Lemma try_acquire_spec w s req ps n w' s' r :
  table_ok (locks w) ps n → try_acquire w s req = (w', s', r) →
  same_state w w' ∧
  match r with
  | Ok _ =>
      table_ok (locks w') (lock_path req :: ps) (if admission s then n else S n) ∧
      (lock_path req ∉ ps) ∧ s' = {| held := held s ++ [req]; admission := true |} ∧
      (length (held s) < MAX_HELD_LOCKS)%nat ∧
      (∀ l, last (held s) = Some l → request_lt l req) ∧ read_writer_state w = Ok Active
  | Err _ => table_ok (locks w') ps n ∧ s' = s
  end.
Proof.
  intros Ht. unfold try_acquire.
  destruct (Nat.leb_spec MAX_HELD_LOCKS (length (held s))); [intros; by inv_eqs|].
  destruct (match last (held s) with
    | Some l => match request_compare req l with Gt => false | _ => true end
    | None => false end) eqn:Hord; [intros; by inv_eqs|].
  destruct (validate_namespace w); [|intros; by inv_eqs].
  destruct (take_admission w (negb (admission s))) as [w1|] eqn:Ha; [|intros; by inv_eqs].
  apply (take_admission_ok w s ps n) in Ha as (Hfs & Hroot & Ht1); [|done].
  assert (same_state w w1) as Hss by (by unfold same_state; rewrite Hfs, Hroot).
  assert (read_writer_state w1 = read_writer_state w) as Hrd by (by unfold read_writer_state; rewrite Hfs).
  assert (∀ w2 e, same_state w w2 → locks w2 = locks w1 →
    (drop_admission (negb (admission s)) w2, s, Err e) = (w', s', r) →
    same_state w w' ∧ match r with Ok _ => False | Err _ => table_ok (locks w') ps n ∧ s' = s end) as Hfail.
  { intros w2 e Hs2 Hl2 ?. rewrite <- Hl2 in Ht1.
    destruct (drop_admission_ok w2 s ps n Ht1) as (l & Hd & Htl). inv_eqs. by rewrite Hd. }
  destruct (read_writer_state w1) as [[]|e] eqn:Er;
    [|intros [? Hx]%Hfail; [by destruct r|done|done]|intros [? Hx]%Hfail; [by destruct r|done|done]].
  destruct (open_stable_file w1 (lock_path req) true) as [w2|e] eqn:Ho;
    [|intros [? Hx]%Hfail; [by destruct r|done|done]].
  apply open_resource_ok in Ho as [Hs2 Hl2].
  assert (same_state w w2) as Hss2.
  { destruct Hss as (?&?&?), Hs2 as (?&?&?). split_and!; congruence. }
  destruct (lock_handle w2 (lock_path req) false) as [w3|e] eqn:Hl;
    [|intros [? Hx]%Hfail; [by destruct r|done|done]].
  apply (table_lock w2 ps (if admission s then n else S n)) in Hl as (Hni & l & -> & Htl);
    [|apply lock_path_not_state|by rewrite Hl2].
  intros. inv_eqs. split; [done|]. split_and!; try done.
  intros l' Hl'. rewrite Hl' in Hord. apply request_compare_Gt. by destruct (request_compare req l').
Qed.

Lemma release_last_spec w s ps rest n w' s' r :
  ps ≡ₚ (lock_path <$> held s) ++ rest → NoDup ps →
  table_ok (locks w) ps (if admission s then S n else n) →
  (admission s = true ↔ held s ≠ []) →
  release_last w s = (w', s', r) →
  same_state w w' ∧ held s' = take (length (held s) - 1) (held s) ∧
  (admission s' = true ↔ held s' ≠ []) ∧
  table_ok (locks w') ((lock_path <$> held s') ++ rest) (if admission s' then S n else n).
Proof.
  intros Hps Hnd Ht Hadm. unfold release_last. destruct (last (held s)) as [req|] eqn:Hl.
  - apply last_Some in Hl as [h Hh]. rewrite Hh in *. clear Hh.
    assert (admission s = true) as Ha by (apply Hadm; by destruct h). rewrite Ha in *.
    rewrite length_app, Nat.add_sub, take_app_length.
    rewrite fmap_app in Hps. simpl in Hps.
    assert (ps ≡ₚ lock_path req :: (lock_path <$> h) ++ rest) as Hps'.
    { rewrite Hps, <- (assoc_L (++)). simpl. symmetry. apply Permutation_middle. }
    rewrite Hps' in Hnd. apply NoDup_cons in Hnd as [Hni _].
    apply (table_ok_perm _ _ _ _ Hps') in Ht.
    apply table_unlock in Ht as (l & Hu & Ht); [|apply lock_path_not_state|done].
    rewrite Hu. destruct h as [|x h].
    + destruct (table_unshare (set_locks l w) _ _ Ht) as (l' & Hu' & Ht').
      intros. inv_eqs. rewrite Hu'. done.
    + intros. inv_eqs. done.
  - apply last_None in Hl. rewrite Hl in *. intros. inv_eqs. rewrite Hl. split_and!; [done|done..|].
    by eapply table_ok_perm.
Qed.

Lemma try_disable_spec w ps n w' r :
  table_ok (locks w) ps n → try_disable w = (w', r) →
  root w' = root w ∧ fs w' !! PROTOCOL_FILE = fs w !! PROTOCOL_FILE ∧ table_ok (locks w') ps n ∧
  match r with
  | Ok _ => n = 0%nat ∧ is_Some (fs w !! WRITER_STATE_FILE) ∧
      ((read_writer_state w = Ok Active ∧
        fs w' !! WRITER_STATE_FILE = fs (write_state DISABLED w) !! WRITER_STATE_FILE) ∨
       (read_writer_state w = Ok Disabled ∧ fs w' = fs w))
  | Err _ => fs w' = fs w
  end.
Proof.
  intros [Hw Ht]. unfold try_disable.
  destruct (validate_namespace w); simpl; [|intros; by inv_eqs].
  unfold open_stable_file, lock_handle.
  destruct (fs w !! WRITER_STATE_FILE) as [[c|]|] eqn:Hf; simpl; [|intros; by inv_eqs..].
  rewrite Hw. destruct n as [|n]; simpl; [|intros; by inv_eqs].
  set (w1 := set_locks _ w).
  assert (read_writer_state w1 = read_writer_state w) as -> by done.
  assert (∀ v, locks v = locks w1 → root v = root w →
    root (unlock v WRITER_STATE_FILE) = root w ∧ fs (unlock v WRITER_STATE_FILE) = fs v ∧
    table_ok (locks (unlock v WRITER_STATE_FILE)) ps 0) as Hu.
  { intros v Hv Hr. unfold unlock. rewrite Hv. simpl. rewrite lookup_insert_eq. simpl.
    split_and!; [done|done|]. split; simpl; [by rewrite lookup_delete_eq|].
    intros p Hp. by rewrite lookup_delete_ne, lookup_insert_ne, Ht. }
  destruct (Hu w1) as (Hr1 & Hfs1 & Ht1); [done..|].
  destruct (Hu (write_state DISABLED w1)) as (Hr2 & Hfs2 & Ht2);
    [unfold write_state; simpl; by rewrite Hf..|].
  destruct (read_writer_state w) as [[]|e] eqn:Er; intros; inv_eqs.
  - rewrite Hr2, Hfs2. split_and!; [done| |done|done|by eexists|].
    + unfold write_state. simpl. rewrite Hf. simpl. by rewrite lookup_insert_ne.
    + left. split; [done|]. unfold write_state. simpl. by rewrite Hf.
  - rewrite Hr1, Hfs1. split_and!; try done. by right.
  - by rewrite Hr1, Hfs1.
Qed.

(** * Invariants of a namespace *)

Definition set_ok (s : LockSet) : Prop :=
  StronglySorted request_lt (held s) ∧ (length (held s) ≤ MAX_HELD_LOCKS)%nat ∧
  (admission s = true ↔ held s ≠ []).
Definition all_held (y : System) : list LockRequest := sets y ≫= held.
Definition admissions (s : LockSet) : list unit := if admission s then [tt] else [].
Definition admitted (y : System) : nat := length (sets y ≫= admissions).

Record coordinated (y : System) : Prop := {
  co_sets : Forall set_ok (sets y);
  co_table : table_ok (locks (world y)) (lock_path <$> all_held y) (admitted y);
  co_nodup : NoDup (lock_path <$> all_held y);
}.

Lemma coordinated_new y :
  coordinated y → coordinated {| world := world y; sets := sets y ++ [lock_set] |}.
Proof.
  intros [Hs Ht Hn]. split; unfold all_held, admitted in *; simpl; rewrite ?bind_app; simpl;
    rewrite ?app_nil_r; try done.
  apply Forall_app. split; [done|]. constructor; [|done]. split_and!; simpl; [constructor|lia|done].
Qed.

Lemma held_sorted_snoc (l : list LockRequest) x :
  StronglySorted request_lt l → (∀ y, last l = Some y → request_lt y x) →
  StronglySorted request_lt (l ++ [x]).
Proof.
  induction 1 as [|a l Hs IH Ha]; intros Hl; simpl; [repeat constructor|].
  constructor.
  - apply IH. intros y Hy. apply Hl. destruct l; [done|exact Hy].
  - apply Forall_app. split; [done|]. constructor; [|done].
    destruct (last l) as [b|] eqn:Hb.
    + etrans; [|apply Hl; rewrite last_cons, Hb; done].
      apply last_Some in Hb as [l' ->]. apply Forall_app in Ha as [_ Ha]. by inversion Ha.
    + apply last_None in Hb as ->. by apply Hl.
Qed.

(** Replacing one set's contribution. *)
Lemma coordinated_replace y i s s' w' rest rest' :
  coordinated y → sets y !! i = Some s → set_ok s' →
  all_held y ≡ₚ held s ++ rest → (sets y ≫= admissions) ≡ₚ admissions s ++ rest' →
  NoDup (lock_path <$> held s' ++ rest) →
  table_ok (locks w') (lock_path <$> held s' ++ rest) (length (admissions s') + length rest') →
  (∀ z, (<[i := z]> (sets y) ≫= held) ≡ₚ held z ++ rest) →
  (∀ z, (<[i := z]> (sets y) ≫= admissions) ≡ₚ admissions z ++ rest') →
  coordinated {| world := w'; sets := <[i := s']> (sets y) |}.
Proof.
  intros [Hs Ht Hn] Hi Hok _ _ Hnd Htab Hheld Hadm. split; unfold all_held, admitted; simpl.
  - by apply Forall_insert.
  - rewrite (Permutation_length (Hadm s')), length_app.
    eapply table_ok_perm; [|exact Htab]. by rewrite Hheld.
  - by rewrite Hheld.
Qed.

Lemma coordinated_acquire y i s req w' s' r :
  coordinated y → sets y !! i = Some s → try_acquire (world y) s req = (w', s', r) →
  coordinated {| world := w'; sets := <[i := s']> (sets y) |}.
Proof.
  intros Hc Hi Ha. pose proof Hc as [Hs Ht Hn].
  apply (try_acquire_spec _ _ _ _ _ _ _ _ Ht) in Ha as [_ Ha].
  destruct (Forall_lookup_1 _ _ _ _ Hs Hi) as (Hsort & Hlen & Hadm).
  destruct (bind_insert_perm held _ _ _ Hi) as (rest & Hh & Hh').
  destruct (bind_insert_perm admissions _ _ _ Hi) as (rest' & Had & Had').
  unfold all_held, admitted in *. rewrite (Permutation_length Had), length_app in Ha, Ht.
  destruct r as [|e].
  - destruct Ha as (Htab & Hni & -> & Hlt & Hlast & _).
    assert (lock_path req :: (lock_path <$> (sets y ≫= held)) ≡ₚ
      lock_path <$> (held s ++ [req]) ++ rest) as Hperm.
    { rewrite Hh, !fmap_app, <- (assoc_L (++)). simpl. apply Permutation_middle. }
    eapply (coordinated_replace y i s _ w' rest rest'); eauto; simpl.
    + unfold set_ok. simpl. split_and!; [by apply held_sorted_snoc|rewrite length_app; simpl; lia|].
      split; [intros _; by destruct (held s)|done].
    + rewrite <- Hperm. by constructor.
    + eapply table_ok_perm; [exact Hperm|]. unfold admissions in Htab.
      by destruct (admission s).
  - destruct Ha as [Htab ->]. eapply (coordinated_replace y i s s w' rest rest'); eauto.
    + done.
    + by rewrite <- Hh.
    + eapply table_ok_perm; [|exact Htab]. by rewrite Hh.
Qed.

Lemma coordinated_release y i s w' s' r :
  coordinated y → sets y !! i = Some s → release_last (world y) s = (w', s', r) →
  coordinated {| world := w'; sets := <[i := s']> (sets y) |}.
Proof.
  intros Hc Hi Hr. pose proof Hc as [Hs Ht Hn].
  destruct (Forall_lookup_1 _ _ _ _ Hs Hi) as (Hsort & Hlen & Hadm).
  destruct (bind_insert_perm held _ _ _ Hi) as (rest & Hh & Hh').
  destruct (bind_insert_perm admissions _ _ _ Hi) as (rest' & Had & Had').
  unfold all_held, admitted in *. rewrite (Permutation_length Had), length_app in Ht.
  apply (release_last_spec _ _ (lock_path <$> (sets y ≫= held)) (lock_path <$> rest) (length rest')) in Hr
    as (_ & Hheld & Hadm' & Htab); [|by rewrite Hh, fmap_app|done| |done].
  - assert (∃ tl, held s = held s' ++ tl) as [tl Htl].
    { exists (drop (length (held s) - 1) (held s)). by rewrite Hheld, take_drop. }
    eapply (coordinated_replace y i s s' w' rest rest'); eauto.
    + split_and!; [|rewrite Hheld, length_take; lia|done].
      rewrite Htl in Hsort. by apply StronglySorted_app_1_l in Hsort.
    + rewrite Hh, Htl, !fmap_app in Hn. rewrite fmap_app.
      apply NoDup_app in Hn as (H1 & H2 & H3). apply NoDup_app in H1 as (H4 & _ & _).
      apply NoDup_app. split_and!; [done| |done]. intros x Hx. apply H2. set_solver.
    + rewrite fmap_app. unfold admissions. by destruct (admission s').
  - unfold admissions in Ht. by destruct (admission s).
Qed.

Lemma coordinated_step y y' : sys_step y y' → coordinated y → coordinated y'.
Proof.
  intros [|i s req w' s' r Hi Ha|i s w' s' r Hi Hr|w' r Hd] Hc.
  - by apply coordinated_new.
  - by eapply coordinated_acquire.
  - by eapply coordinated_release.
  - destruct Hc as [Hs Ht Hn]. apply (try_disable_spec _ _ _ _ _ Ht) in Hd as (_ & _ & Hd & _).
    by split.
Qed.

Lemma coordinated_fresh w : locks w = ∅ → coordinated (fresh_system w).
Proof.
  intros Hl. split; [constructor| |constructor]. unfold fresh_system, coordinator_create, table_ok.
  destruct (root w); simpl; by rewrite Hl.
Qed.

Lemma coordinated_reachable w y :
  locks w = ∅ → rtc sys_step (fresh_system w) y → coordinated y.
Proof.
  intros Hl Hr. pose proof (coordinated_fresh w Hl) as Hc. revert Hc.
  induction Hr as [|y y' y'' Hs _ IH]; [done|]. intros Hc. by eapply IH, coordinated_step.
Qed.

Lemma NoDup_bind_index {A B} (f : A → list B) l i j x y b :
  NoDup (l ≫= f) → l !! i = Some x → l !! j = Some y → b ∈ f x → b ∈ f y → i = j.
Proof.
  intros Hnd Hi Hj Hx Hy. destruct (decide (i = j)) as [|Hne]; [done|]. exfalso.
  rewrite <- (take_drop_middle l i x Hi), bind_app in Hnd. simpl in Hnd.
  apply NoDup_app in Hnd as (_ & H1 & Hnd). apply NoDup_app in Hnd as (_ & H2 & _).
  destruct (Nat.lt_total j i) as [Hlt|[?|Hlt]]; [|done|].
  - apply (H1 b); [|set_solver]. apply list_elem_of_bind. exists y. split; [done|].
    apply list_elem_of_lookup. exists j. by rewrite lookup_take_lt.
  - apply (H2 b); [done|]. apply list_elem_of_bind. exists y. split; [done|].
    apply list_elem_of_lookup. exists (j - S i)%nat. rewrite lookup_drop. rewrite <- Hj. f_equal. lia.
Qed.

(** No resource is ever held twice, whatever the interleaving of acquisitions,
    releases and disabling; and every set holds its locks in the global
    acquisition order, within its budget. *)
Theorem locks_exclusive_ordered w y :
  locks w = ∅ → rtc sys_step (fresh_system w) y →
  (∀ i j si sj req, sets y !! i = Some si → sets y !! j = Some sj →
    req ∈ held si → req ∈ held sj → i = j) ∧
  ∀ i s, sets y !! i = Some s →
    StronglySorted request_lt (held s) ∧ (length (held s) ≤ MAX_HELD_LOCKS)%nat.
Proof.
  intros Hl [Hs _ Hn]%coordinated_reachable; [|done]. split.
  - intros i j si sj req Hi Hj. eapply NoDup_bind_index; [|done|done].
    by apply NoDup_fmap_1 in Hn.
  - intros i s Hi. destruct (Forall_lookup_1 _ _ _ _ Hs Hi) as (?&?&_). done.
Qed.

(** ** Disabling *)

Lemma substring_short n s t :
  String.substring 0 n s = t → (String.length t < n)%nat → s = t.
Proof.
  revert n t. induction s as [|c s IH]; intros [|n] t Ht Hl; simpl in *; subst; try done.
  - simpl in Hl. lia.
  - simpl in Hl. f_equal. apply (IH n); [done|lia].
Qed.

Lemma disable_writes w :
  read_writer_state w = Ok Active →
  fs (write_state DISABLED w) !! WRITER_STATE_FILE = Some (Regular DISABLED).
Proof.
  unfold read_writer_state, write_state.
  destruct (fs w !! WRITER_STATE_FILE) as [[c|]|] eqn:E; [|done..].
  case_decide as Hc; [|by case_decide]. apply substring_short in Hc; [|simpl; lia]. subst.
  intros _. simpl. by rewrite lookup_insert_eq.
Qed.

Lemma disabled_content w :
  read_writer_state w = Ok Disabled ↔ fs w !! WRITER_STATE_FILE = Some (Regular DISABLED).
Proof.
  unfold read_writer_state. split; [|by intros ->].
  destruct (fs w !! WRITER_STATE_FILE) as [[c|]|] eqn:E; [|done..].
  case_decide; [done|]. case_decide as Hc; [|done].
  apply substring_short in Hc; [|simpl; lia]. by subst.
Qed.

(** Nothing held and the state disabled: stable under every step. *)
Definition retired (y : System) : Prop :=
  read_writer_state (world y) = Ok Disabled ∧ Forall (λ s, held s = []) (sets y).

Lemma retired_step y y' : sys_step y y' → coordinated y → retired y → retired y'.
Proof.
  intros [|i s req w' s' r Hi Ha|i s w' s' r Hi Hr|w' r Hd] [Hs Ht Hn] [Hd' Hh]; split; simpl.
  - done.
  - apply Forall_app. by split; [|constructor].
  - apply (try_acquire_spec _ _ _ _ _ _ _ _ Ht) in Ha as [(_ & Hf & _) _].
    apply disabled_content. rewrite Hf. by apply disabled_content.
  - apply (try_acquire_spec _ _ _ _ _ _ _ _ Ht) in Ha as [_ Ha].
    apply Forall_insert; [done|]. destruct r; [destruct Ha as (_&_&_&_&_&?); congruence|].
    destruct Ha as [_ ->]. exact (Forall_lookup_1 _ _ _ _ Hh Hi).
  - pose proof (Forall_lookup_1 _ _ _ _ Hh Hi) as Hnil. unfold release_last in Hr.
    rewrite Hnil in Hr. simpl in Hr. by inv_eqs.
  - apply Forall_insert; [done|]. pose proof (Forall_lookup_1 _ _ _ _ Hh Hi) as Hnil.
    unfold release_last in Hr. rewrite Hnil in Hr. simpl in Hr. by inv_eqs.
  - apply (try_disable_spec _ _ _ _ _ Ht) in Hd as (_ & _ & _ & Hd). apply disabled_content.
    apply disabled_content in Hd' as Hd''. destruct r; [|by rewrite Hd].
    destruct Hd as (_ & _ & [[? ?]|[_ Hf]]); [congruence|by rewrite Hf].
  - done.
Qed.

(** Disabling succeeds only when nobody holds a lock, and from then on the
    namespace stays disabled and no lock is ever acquired in it again. *)
Theorem disable_is_permanent w y w' :
  locks w = ∅ → rtc sys_step (fresh_system w) y → try_disable (world y) = (w', Ok tt) →
  all_held y = [] ∧
  ∀ y', rtc sys_step {| world := w'; sets := sets y |} y' →
    read_writer_state (world y') = Ok Disabled ∧ all_held y' = [].
Proof.
  intros Hl Hr Hd. apply (coordinated_reachable w y Hl) in Hr as Hc.
  pose proof Hc as [Hs Ht Hn]. apply (try_disable_spec _ _ _ _ _ Ht) in Hd as Hd'.
  destruct Hd' as (_ & _ & _ & Hz & _ & Hst).
  assert (∀ y, Forall (λ s, held s = []) (sets y) → all_held y = []) as Hall.
  { intros z Hf. unfold all_held. induction Hf as [|s l Hs' _ IH]; [done|]. simpl. by rewrite Hs'. }
  assert (Forall (λ s, held s = []) (sets y)) as Hnil.
  { apply Forall_lookup. intros i s Hi. destruct (Forall_lookup_1 _ _ _ _ Hs Hi) as (_ & _ & Ha).
    destruct (held s) as [|x h] eqn:Eh; [done|]. exfalso. assert (admission s = true) as Ha' by by apply Ha.
    destruct (bind_insert_perm admissions _ _ _ Hi) as (rest & Hp & _).
    unfold admitted in Hz. rewrite Hp in Hz. unfold admissions in Hz. by rewrite Ha' in Hz. }
  split; [by apply Hall|]. intros y' Hy'.
  assert (coordinated {| world := w'; sets := sets y |}) as Hc'.
  { eapply coordinated_step; [|exact Hc]. by eapply sys_disable. }
  assert (retired {| world := w'; sets := sets y |}) as Hret.
  { split; [|done]. apply disabled_content. simpl. destruct Hst as [[Ha Hf]|[Hdis Hf]].
    - rewrite Hf. by apply disable_writes.
    - rewrite Hf. by apply disabled_content. }
  revert Hc' Hret. induction Hy' as [z|z z' z'' Hz' _ IH].
  - intros _ [? ?]. split; [done|by apply Hall].
  - intros Hcz Hrz. apply IH; [by eapply coordinated_step|by eapply retired_step].
Qed.

(** The state file after a crash part way through the write of [DISABLED]. *)
Definition torn (k : nat) : World :=
  {| root := RootDirectory; locks := ∅;
     fs := {[ WRITER_STATE_FILE :=
       Regular (overwrite ACTIVE (String.substring 0 k DISABLED)) ]} |}.

(** A torn write of the disabled state is never read as active: the state is
    active only before the first byte, disabled only after the last one, and
    invalid, which blocks writers, in between. *)
Theorem torn_state_blocks k :
  read_writer_state (torn k) =
    if (k =? 0)%nat then Ok Active
    else if (k <? String.length DISABLED)%nat then Err InvalidWriterState else Ok Disabled.
Proof.
  do 10 (destruct k as [|k]; [reflexivity|]). unfold torn.
  assert (∀ n s, (String.length s ≤ n)%nat → String.substring 0 n s = s) as Hall.
  { intros n s. revert n. induction s as [|c s IH]; intros [|n] Hn; simpl in *; try done; [lia|].
    rewrite IH; [done|lia]. }
  rewrite Hall by (simpl; lia). reflexivity.
Qed.

(** * Running a schedule *)

Inductive Event := New | Acquire (i : nat) (request : LockRequest) | Release (i : nat) | Disable.

Definition perform (ev : Event) (y : System) : option System :=
  match ev with
  | New => Some {| world := world y; sets := sets y ++ [lock_set] |}
  | Acquire i request =>
      s ← sets y !! i;
      let '(w, s', _) := try_acquire (world y) s request in
      Some {| world := w; sets := <[i := s']> (sets y) |}
  | Release i =>
      s ← sets y !! i;
      let '(w, s', _) := release_last (world y) s in
      Some {| world := w; sets := <[i := s']> (sets y) |}
  | Disable => Some {| world := (try_disable (world y)).1; sets := sets y |}
  end.
Fixpoint perform_all (evs : list Event) (y : System) : option System :=
  match evs with [] => Some y | ev :: evs => y' ← perform ev y; perform_all evs y' end.

Lemma perform_sound ev y y' : perform ev y = Some y' → sys_step y y'.
Proof.
  destruct ev as [|i req|i|]; simpl.
  - intros. inv_eqs. constructor.
  - destruct (sets y !! i) as [s|] eqn:Ei; simpl; [|done].
    destruct (try_acquire (world y) s req) as [[w s'] r] eqn:Ea. intros. inv_eqs. by eapply sys_acquire.
  - destruct (sets y !! i) as [s|] eqn:Ei; simpl; [|done].
    destruct (release_last (world y) s) as [[w s'] r] eqn:Ea. intros. inv_eqs. by eapply sys_release.
  - destruct (try_disable (world y)) as [w r] eqn:Ed. intros. inv_eqs. by eapply sys_disable.
Qed.

Lemma perform_all_sound evs y y' : perform_all evs y = Some y' → rtc sys_step y y'.
Proof.
  revert y. induction evs as [|ev evs IH]; intros y; simpl; [intros; inv_eqs; apply rtc_refl|].
  destruct (perform ev y) as [y1|] eqn:E; simpl; [|done]. intros Hr%IH.
  eapply rtc_l; [by eapply perform_sound|done].
Qed.

Module CoordinationExample.
Definition nowhere : World := {| root := RootMissing; fs := ∅; locks := ∅ |}.
Definition budget : LockRequest := {| lock_class := InstallationBudget; lock_key := "main" |}.
Definition operation : LockRequest := {| lock_class := Operation; lock_key := "op-1" |}.
(** Two sets: the second wants a lock the first holds and gets another one. *)
Definition contend : list Event :=
  [New; New; Acquire 0 budget; Acquire 0 operation; Acquire 1 operation; Acquire 1 budget;
   Disable; Release 0; Acquire 1 operation].
Definition contended : System := default (fresh_system nowhere) (perform_all contend (fresh_system nowhere)).
(** Everybody leaves, and the namespace can be disabled. *)
Definition quiet : System :=
  default (fresh_system nowhere) (perform_all (contend ++ [Release 0; Release 1]) (fresh_system nowhere)).

Lemma locks_exclusive_ordered_witness :
  held <$> sets contended = [[budget]; [operation]] ∧
  (∀ i j si sj req, sets contended !! i = Some si → sets contended !! j = Some sj →
    req ∈ held si → req ∈ held sj → i = j).
Proof.
  split; [vm_compute; reflexivity|]. apply (locks_exclusive_ordered nowhere); [reflexivity|].
  apply (perform_all_sound contend). vm_compute. reflexivity.
Defined.

Lemma disable_is_permanent_witness :
  all_held quiet = [] ∧
  ∀ y', rtc sys_step {| world := (try_disable (world quiet)).1; sets := sets quiet |} y' →
    read_writer_state (world y') = Ok Disabled ∧ all_held y' = [].
Proof.
  apply (disable_is_permanent nowhere); [reflexivity| |vm_compute; reflexivity].
  apply (perform_all_sound (contend ++ [Release 0; Release 1])). vm_compute. reflexivity.
Defined.
End CoordinationExample.
