(* ===== verification/Queue.v ===== *)
(** The landing queue's data and ordered landing:
    [crates/hugit-queue/src/core/{affected,batch,state,order}.rs] and the queue
    types of [crates/hugit-contracts/src/queue_api.rs].

    The theorems: a constructed batch is the input sorted into strict queue
    order, and is refused exactly on a repeated position; the landing driver
    settles every entry in one pass, never lands out of order, never refuses a
    transition, and is idempotent. *)

From S2P Require Import Prelude.

(** * Affected sets *)

Record AffectedSet := { keys_set : gset string }.
#[global] Instance AffectedSet_eq_dec : EqDecision AffectedSet.
Proof. solve_decision. Defined.

Definition AffectedSet_new (keys : list string) : AffectedSet := {| keys_set := list_to_set keys |}.
Definition affected_keys (a : AffectedSet) : list string :=
  merge_sort String.le (elements (keys_set a)).
Definition is_disjoint (a b : AffectedSet) : bool := bool_decide (keys_set a ## keys_set b).
Definition affected_len (a : AffectedSet) : nat := size (keys_set a).
Definition affected_is_empty (a : AffectedSet) : bool := bool_decide (keys_set a = ∅).

(** * Entries and their state machine *)

Record LandableEntry := {
  item_id : string;
  entry_intent_id : string;
  tree_hash : string;
  order_index : N;
}.
#[global] Instance LandableEntry_eq_dec : EqDecision LandableEntry.
Proof. solve_decision. Defined.

Record MinimalFailingPair := { item_a : string; item_b : string }.

Inductive EntryState := Landable | Landed | UnionFail.
#[global] Instance EntryState_eq_dec : EqDecision EntryState.
Proof. solve_decision. Defined.

Definition is_terminal (s : EntryState) : bool :=
  match s with Landed | UnionFail => true | Landable => false end.

Inductive UnionOutcome := Green | FailingPairMember.

Inductive TransitionError := AlreadyTerminal | PredecessorNotLanded.

Definition transition (current : EntryState) (outcome : UnionOutcome)
    (predecessors_settled : bool) : result TransitionError EntryState :=
  if is_terminal current then Err AlreadyTerminal
  else match outcome with
       | FailingPairMember => Ok UnionFail
       | Green => if predecessors_settled then Ok Landed else Err PredecessorNotLanded
       end.

(** * Batches *)

Record BatchEntry := {
  landable : LandableEntry;
  affected : AffectedSet;
  state : EntryState;
}.

Definition BatchEntry_new (l : LandableEntry) (a : AffectedSet) : BatchEntry :=
  {| landable := l; affected := a; state := Landable |}.
Definition entry_order (e : BatchEntry) : N := order_index (landable e).
Definition entry_id (e : BatchEntry) : string := item_id (landable e).
Definition set_state (e : BatchEntry) (s : EntryState) : BatchEntry :=
  {| landable := landable e; affected := affected e; state := s |}.

Record Batch := { batch_id : string; entries : list BatchEntry }.

Definition Batch_new (id : string) : Batch := {| batch_id := id; entries := [] |}.
Definition batch_len (b : Batch) : nat := length (entries b).
Definition batch_is_empty (b : Batch) : bool := match entries b with [] => true | _ => false end.

Inductive BatchError := DuplicateOrderIndex (i : N).

(** The scan for a repeated index, with the indices seen so far. *)
Fixpoint duplicate_index (seen : gset N) (es : list BatchEntry) : option N :=
  match es with
  | [] => None
  | e :: es =>
      if decide (entry_order e ∈ seen) then Some (entry_order e)
      else duplicate_index ({[ entry_order e ]} ∪ seen) es
  end.

Definition order_le : relation BatchEntry := λ a b, entry_order a ≤ entry_order b.
#[global] Instance order_le_dec : RelDecision order_le.
Proof. intros a b. unfold order_le. apply _. Defined.

Definition try_from_entries (id : string) (es : list (LandableEntry * AffectedSet))
    : result BatchError Batch :=
  let es := (λ la, BatchEntry_new la.1 la.2) <$> es in
  match duplicate_index ∅ es with
  | Some i => Err (DuplicateOrderIndex i)
  | None => Ok {| batch_id := id; entries := merge_sort order_le es |}
  end.

(** [from_entries]: [None] is the panic. *)
Definition from_entries (id : string) (es : list (LandableEntry * AffectedSet)) : option Batch :=
  match try_from_entries id es with Ok b => Some b | Err _ => None end.

(** The windows of two. *)
Fixpoint ordered_windows (es : list BatchEntry) : bool :=
  match es with
  | a :: (b :: _) as es' => (entry_order a <? entry_order b) && ordered_windows es'
  | _ => true
  end.
Definition is_queue_ordered (b : Batch) : bool := ordered_windows (entries b).

(** * Ordered landing *)

Record LandingStep := { step_item : string; step_state : EntryState }.

Inductive LandingError :=
| MissingOutcome (id : string)
| Refused (id : string) (e : TransitionError).

(** [collect] into a map: the last outcome of an id wins. *)
Definition outcome_map (outcomes : list (string * UnionOutcome)) : gmap string UnionOutcome :=
  foldl (λ m kv, <[kv.1 := kv.2]> m) ∅ outcomes.

(** The outcomes in queue order, or the first entry without one. *)
Fixpoint ordered_outcomes (m : gmap string UnionOutcome) (es : list BatchEntry)
    : result LandingError (list UnionOutcome) :=
  match es with
  | [] => Ok []
  | e :: es =>
      o ← ok_or (MissingOutcome (entry_id e)) (m !! entry_id e);
      os ← ordered_outcomes m es;
      Ok (o :: os)
  end.

(** The landing pass: the entries after it (a refusal leaves the rest as they
    were) and the steps. *)
Fixpoint land_pass (all_settled : bool) (es : list BatchEntry) (os : list UnionOutcome)
    : list BatchEntry * result LandingError (list LandingStep) :=
  match es, os with
  | e :: es, o :: os =>
      if is_terminal (state e) then
        let '(es', r) := land_pass all_settled es os in
        (e :: es', steps ← r; Ok ({| step_item := entry_id e; step_state := state e |} :: steps))
      else
        match transition (state e) o all_settled with
        | Err err => (e :: es, Err (Refused (entry_id e) err))
        | Ok next =>
            let all_settled := if negb (is_terminal next) then false else all_settled in
            let '(es', r) := land_pass all_settled es os in
            (set_state e next :: es',
             steps ← r; Ok ({| step_item := entry_id e; step_state := next |} :: steps))
        end
  | _, _ => (es, Ok [])
  end.

Definition land_in_order (b : Batch) (outcomes : list (string * UnionOutcome))
    : Batch * result LandingError (list LandingStep) :=
  match ordered_outcomes (outcome_map outcomes) (entries b) with
  | Err e => (b, Err e)
  | Ok os =>
      let '(es, r) := land_pass true (entries b) os in
      ({| batch_id := batch_id b; entries := es |}, r)
  end.

Definition landed_in_order (b : Batch) : list string :=
  entry_id <$> filter (λ e, state e = Landed) (entries b).

(** * Batches are in strict queue order *)

#[global] Instance order_le_total : Total order_le.
Proof. intros a b. unfold order_le. lia. Qed.
#[global] Instance order_le_trans : Transitive order_le.
Proof. intros a b c. unfold order_le. lia. Qed.

Definition order_lt : relation BatchEntry := λ a b, entry_order a < entry_order b.

Lemma duplicate_index_spec seen es :
  match duplicate_index seen es with
  | None => NoDup (entry_order <$> es) ∧ ∀ i, i ∈ entry_order <$> es → i ∉ seen
  | Some i => ∃ k e, es !! k = Some e ∧ entry_order e = i ∧
      NoDup (entry_order <$> take k es) ∧ (∀ j, j ∈ entry_order <$> take k es → j ∉ seen) ∧
      (i ∈ seen ∨ i ∈ entry_order <$> take k es)
  end.
Proof.
  revert seen. induction es as [|e es IH]; intros seen; simpl.
  { split; [constructor|]. by intros ? ?%not_elem_of_nil. }
  case_decide as Hs.
  - exists 0%nat, e. split_and!; [done|done|constructor|by intros ? ?%not_elem_of_nil|by left].
  - specialize (IH ({[entry_order e]} ∪ seen)). destruct (duplicate_index _ es) as [i|].
    + destruct IH as (k & e' & Hk & He & Hnd & Hpre & Hin).
      exists (S k), e'. simpl. split_and!; [done|done|constructor; [|done]|..].
      * intros Hc%Hpre. set_solver.
      * intros j [->|Hj]%elem_of_cons; [done|]. apply Hpre in Hj. set_solver.
      * set_solver.
    + destruct IH as [Hnd Hall]. split; [constructor; [|done]; intros Hc%Hall; set_solver|].
      intros i. rewrite elem_of_cons. intros [->|Hi]; [done|]. apply Hall in Hi. set_solver.
Qed.

Lemma Sorted_distinct es :
  StronglySorted order_le es → NoDup (entry_order <$> es) → StronglySorted order_lt es.
Proof.
  induction 1 as [|e es Hs IH Hall]; simpl; [constructor|].
  intros [Hni Hnd]%NoDup_cons. constructor; [by apply IH|].
  apply Forall_forall. intros x Hx. rewrite Forall_forall in Hall. specialize (Hall x Hx).
  unfold order_lt, order_le in *. assert (entry_order e ≠ entry_order x); [|lia].
  intros Heq. apply Hni. rewrite Heq. apply list_elem_of_fmap. eauto.
Qed.

Lemma ordered_windows_sorted es : ordered_windows es = true ↔ StronglySorted order_lt es.
Proof.
  assert (Transitive order_lt) by (intros a b c; unfold order_lt; lia).
  split.
  - intros Ho. apply Sorted_StronglySorted; [done|].
    induction es as [|a [|b es] IH]; [constructor|repeat constructor|].
    simpl in Ho. apply andb_true_iff in Ho as [Hab Ho]. apply N.ltb_lt in Hab.
    constructor; [by apply IH|by constructor].
  - induction 1 as [|a es Hs IH Hall]; [done|]. destruct es as [|b es]; [done|].
    simpl. inversion Hall; subst. rewrite (proj2 (N.ltb_lt _ _)) by done. exact IH.
Qed.

Lemma try_from_entries_ok id es b :
  try_from_entries id es = Ok b →
  NoDup (entry_order <$> entries b) ∧
  batch_id b = id ∧ entries b ≡ₚ (λ la, BatchEntry_new la.1 la.2) <$> es ∧
  StronglySorted order_lt (entries b) ∧ is_queue_ordered b = true.
Proof.
  unfold try_from_entries. set (l := _ <$> es).
  pose proof (duplicate_index_spec ∅ l) as Hd.
  destruct (duplicate_index ∅ l); [done|]. destruct Hd as [Hnd _]. intros ?. inv_eqs. simpl.
  assert (StronglySorted order_lt (merge_sort order_le l)) as Hs.
  { apply Sorted_distinct; [apply StronglySorted_merge_sort; apply _|].
    by rewrite (merge_sort_Permutation order_le l). }
  split_and!; [by rewrite (merge_sort_Permutation order_le l)|done|apply merge_sort_Permutation|done|
    by apply ordered_windows_sorted].
Qed.

(** A repetition inside a prefix without repetitions. *)
Lemma dup_in_prefix {A B} (f : A → B) l k k' x :
  (k < k')%nat → l !! k = Some x → f x ∈ f <$> take k l → ¬ NoDup (f <$> take k' l).
Proof.
  intros Hlt Hk Hin Hnd.
  assert (take k' l !! k = Some x) as Hk' by (by rewrite lookup_take_lt).
  rewrite <- (take_drop_middle _ _ _ Hk'), fmap_app, take_take, Nat.min_l in Hnd by lia.
  apply NoDup_app in Hnd as (_ & Hx & _). apply (Hx (f x) Hin). set_solver.
Qed.

Lemma try_from_entries_err id es i :
  try_from_entries id es = Err (DuplicateOrderIndex i) ↔
  ∃ k la, es !! k = Some la ∧ order_index la.1 = i ∧
    i ∈ (λ la, order_index la.1) <$> take k es ∧
    NoDup ((λ la, order_index la.1) <$> take k es).
Proof.
  unfold try_from_entries. set (f := λ la : LandableEntry * AffectedSet, BatchEntry_new la.1 la.2).
  assert (∀ l : list _, entry_order <$> (f <$> l) = (λ la, order_index la.1) <$> l) as Hf.
  { intros l. rewrite <- list_fmap_compose. done. }
  pose proof (duplicate_index_spec ∅ (f <$> es)) as Hd.
  destruct (duplicate_index ∅ (f <$> es)) as [i'|].
  - destruct Hd as (k & e & Hk & He & Hnd & _ & [?|Hin]); [set_solver|].
    rewrite <- fmap_take, Hf in Hnd, Hin.
    apply list_lookup_fmap_Some in Hk as (la & -> & Hla).
    change (order_index la.1 = i') in He.
    split; [intros; inv_eqs; by exists k, la|].
    intros (k' & la' & Hk' & Hi' & Hin' & Hnd'). f_equal. f_equal.
    destruct (Nat.lt_total k k') as [Hlt|[->|Hlt]].
    + exfalso. rewrite <- He in Hin. by apply (dup_in_prefix _ es k k' la Hlt Hla Hin).
    + by simplify_eq.
    + exfalso. rewrite <- Hi' in Hin'. by apply (dup_in_prefix _ es k' k la' Hlt Hk' Hin').
  - destruct Hd as [Hnd _]. split; [done|].
    intros (k & la & Hk & Hi & Hin & _). exfalso. rewrite Hf in Hnd.
    rewrite <- (take_drop_middle es k la Hk), fmap_app in Hnd. simpl in Hnd.
    apply NoDup_app in Hnd as (_ & Hx & _). apply (Hx i Hin). rewrite Hi. set_solver.
Qed.

(** A batch is built exactly when no position repeats; it holds the given
    entries, all landable, in strictly increasing queue order.  A refusal names
    the first position that repeats an earlier one. *)
Theorem try_from_entries_correct id es :
  let positions := (λ la, order_index la.1) <$> es in
  match try_from_entries id es with
  | Ok b =>
      NoDup positions ∧ batch_id b = id ∧
      entries b ≡ₚ (λ la, BatchEntry_new la.1 la.2) <$> es ∧
      StronglySorted order_lt (entries b) ∧ is_queue_ordered b = true
  | Err (DuplicateOrderIndex i) =>
      ∃ k, positions !! k = Some i ∧ i ∈ take k positions ∧ NoDup (take k positions)
  end.
Proof.
  intros positions. destruct (try_from_entries id es) as [b|[i]] eqn:E.
  - apply try_from_entries_ok in E as (Hnd & Hid & Hp & Hs & Hq). split_and!; [|done..].
    assert (positions = entry_order <$> ((λ la, BatchEntry_new la.1 la.2) <$> es)) as ->.
    { by rewrite <- list_fmap_compose. }
    by rewrite <- Hp.
  - apply try_from_entries_err in E as (k & la & Hk & Hi & Hin & Hnd). exists k. subst positions.
    rewrite <- fmap_take, list_lookup_fmap, Hk, <- Hi. by subst.
Qed.

(** * Landing *)

Definition outcome_state (o : UnionOutcome) : EntryState :=
  match o with Green => Landed | FailingPairMember => UnionFail end.

(** What a pass does to one entry: a terminal one is left alone. *)
Definition settle (m : gmap string UnionOutcome) (e : BatchEntry) : BatchEntry :=
  if is_terminal (state e) then e
  else match m !! entry_id e with Some o => set_state e (outcome_state o) | None => e end.
Definition step_of (e : BatchEntry) : LandingStep :=
  {| step_item := entry_id e; step_state := state e |}.
Definition covered (m : gmap string UnionOutcome) (e : BatchEntry) : Prop :=
  is_Some (m !! entry_id e).

Lemma settle_id m e : entry_id (settle m e) = entry_id e ∧ entry_order (settle m e) = entry_order e.
Proof. unfold settle. by destruct (is_terminal _); [|destruct (m !! _)]. Qed.

Lemma settle_terminal m e : covered m e → is_terminal (state (settle m e)) = true.
Proof.
  intros [o Ho]. unfold settle. destruct (is_terminal (state e)) eqn:E; [done|].
  rewrite Ho. by destruct o.
Qed.

Lemma settle_idemp m e : covered m e → settle m (settle m e) = settle m e.
Proof. intros Hc. unfold settle at 1. by rewrite settle_terminal. Qed.

Lemma ordered_outcomes_spec m es :
  match ordered_outcomes m es with
  | Ok os => Forall2 (λ e o, m !! entry_id e = Some o) es os
  | Err err => ∃ k e, es !! k = Some e ∧ err = MissingOutcome (entry_id e) ∧
      m !! entry_id e = None ∧ Forall (covered m) (take k es)
  end.
Proof.
  induction es as [|e es IH]; simpl; [constructor|].
  destruct (m !! entry_id e) as [o|] eqn:E; simpl; [|by exists 0%nat, e].
  destruct (ordered_outcomes m es) as [os|err]; simpl; [by constructor|].
  destruct IH as (k & e' & ? & ? & ? & ?). exists (S k), e'. split_and!; [done..|].
  constructor; [by eexists|done].
Qed.

Lemma land_pass_eq m es os :
  Forall2 (λ e o, m !! entry_id e = Some o) es os →
  land_pass true es os = (settle m <$> es, Ok (step_of <$> (settle m <$> es))).
Proof.
  induction 1 as [|e o es os Ho _ IH]; simpl; [done|].
  assert (settle m e = if is_terminal (state e) then e else set_state e (outcome_state o)) as ->.
  { unfold settle. by rewrite Ho. }
  unfold transition. destruct (is_terminal (state e)); [by rewrite IH|].
  destruct o; simpl; by rewrite IH.
Qed.

Lemma land_in_order_eq b outs :
  Forall (covered (outcome_map outs)) (entries b) →
  land_in_order b outs =
    let es := settle (outcome_map outs) <$> entries b in
    ({| batch_id := batch_id b; entries := es |}, Ok (step_of <$> es)).
Proof.
  intros Hc. unfold land_in_order. pose proof (ordered_outcomes_spec (outcome_map outs) (entries b)) as Ho.
  destruct (ordered_outcomes _ _) as [os|err].
  - by rewrite (land_pass_eq (outcome_map outs)).
  - destruct Ho as (k & e & Hk & _ & Hn & _).
    destruct (Forall_lookup_1 _ _ _ _ Hc Hk) as [? ?]. congruence.
Qed.

Lemma land_in_order_ok b outs b' steps :
  land_in_order b outs = (b', Ok steps) → Forall (covered (outcome_map outs)) (entries b).
Proof.
  unfold land_in_order. pose proof (ordered_outcomes_spec (outcome_map outs) (entries b)) as Ho.
  destruct (ordered_outcomes _ _) as [os|err]; [|done]. intros _.
  induction Ho; constructor; [by eexists|done].
Qed.

(** A landing pass settles the whole batch in queue order or names the first
    entry without an outcome and changes nothing; a transition is never
    refused.  A landable entry lands when its outcome is green and is excluded
    otherwise, whatever happened to the entries before it, and entries already
    settled are only reported again. *)
Theorem land_in_order_settles b outs :
  match land_in_order b outs with
  | (b', Ok steps) =>
      batch_id b' = batch_id b ∧ entries b' = settle (outcome_map outs) <$> entries b ∧
      Forall (λ e, is_terminal (state e) = true) (entries b') ∧
      (StronglySorted order_lt (entries b) → StronglySorted order_lt (entries b')) ∧
      steps = step_of <$> entries b'
  | (b', Err err) =>
      b' = b ∧ ∃ k e, entries b !! k = Some e ∧ err = MissingOutcome (entry_id e) ∧
        outcome_map outs !! entry_id e = None ∧
        Forall (covered (outcome_map outs)) (take k (entries b))
  end.
Proof.
  destruct (land_in_order b outs) as [b' [steps|err]] eqn:E.
  - pose proof (land_in_order_ok _ _ _ _ E) as Hc. rewrite land_in_order_eq in E by done.
    simpl in E. inv_eqs. simpl. split_and!; [done|done| | |done].
    + apply Forall_fmap. eapply Forall_impl; [exact Hc|]. intros e. apply settle_terminal.
    + induction 1 as [|e es Hs IH Hall]; simpl in *; [constructor|].
      inversion Hc; subst. constructor; [by apply IH|].
      apply Forall_fmap. eapply Forall_impl; [exact Hall|]. intros x Hx. unfold order_lt, compose in *.
      by rewrite !(proj2 (settle_id _ _)).
  - unfold land_in_order in E. pose proof (ordered_outcomes_spec (outcome_map outs) (entries b)) as Ho.
    destruct (ordered_outcomes _ _) as [os|e'].
    + rewrite (land_pass_eq (outcome_map outs)) in E by done. inv_eqs.
    + inv_eqs. done.
Qed.

(** Replay is harmless: a batch of which any prefix was already settled by an
    interrupted pass (none of it, or all of it) ends in the same state and
    reports the same steps as the uninterrupted pass. *)
Theorem landing_resumes b outs b' steps k :
  land_in_order b outs = (b', Ok steps) →
  land_in_order {| batch_id := batch_id b; entries := take k (entries b') ++ drop k (entries b) |} outs
    = (b', Ok steps).
Proof.
  intros E. pose proof (land_in_order_ok _ _ _ _ E) as Hc. rewrite land_in_order_eq in E by done.
  simpl in E. inv_eqs. simpl. set (m := outcome_map outs) in *.
  assert (settle m <$> (take k (settle m <$> entries b) ++ drop k (entries b)) = settle m <$> entries b) as Hs.
  { rewrite fmap_app, <- fmap_take. rewrite <- list_fmap_compose.
    rewrite <- (take_drop k (entries b)) at 3. rewrite fmap_app. f_equal.
    apply list_fmap_ext. intros i e He. apply settle_idemp.
    eapply (Forall_lookup_1 (covered m)); [by apply Forall_take|exact He]. }
  rewrite land_in_order_eq; simpl; fold m; [by rewrite Hs|].
  apply Forall_app. split; [|by apply Forall_drop].
  rewrite <- fmap_take. apply Forall_fmap. eapply Forall_impl; [by apply Forall_take|].
  intros e He. unfold compose, covered. by rewrite (proj1 (settle_id m e)).
Qed.

Module QueueExample.
Definition landable_at (id : string) (i : N) : LandableEntry :=
  {| item_id := id; entry_intent_id := "intent"; tree_hash := "t" +:+ id; order_index := i |}.
Definition given : list (LandableEntry * AffectedSet) :=
  [(landable_at "c" 30, AffectedSet_new ["lib"]); (landable_at "a" 10, AffectedSet_new ["app"]);
   (landable_at "b" 20, AffectedSet_new ["app"; "lib"])].
Definition built : Batch := default (Batch_new "q") (from_entries "q" given).
Definition outs : list (string * UnionOutcome) :=
  [("b", FailingPairMember); ("a", Green); ("c", Green)].

(** Interrupted after the first entry. *)
Lemma landing_resumes_witness :
  land_in_order {| batch_id := "q"; entries :=
      take 1 (entries (land_in_order built outs).1) ++ drop 1 (entries built) |} outs
  = land_in_order built outs.
Proof.
  apply (landing_resumes built outs (land_in_order built outs).1
    [{| step_item := "a"; step_state := Landed |}; {| step_item := "b"; step_state := UnionFail |};
     {| step_item := "c"; step_state := Landed |}] 1).
  vm_compute. reflexivity.
Defined.
End QueueExample.
