(* ===== verification/PullRequest.v ===== *)
(** The pull-request verbs, from [crates/hugit-cli/src/pr/mod.rs]: [open],
    [land], [settle], [abandon] and [list], each a function of the event log and
    its arguments, with the projections they share.

    Every verb scrubs its identifiers, reads the log, and appends at most its own
    event (and, for a settlement, the captured envelopes) through the guarded
    append of [Authz].  [PrVerb] is the command and [run_verb] its execution; the
    theorems are about any verb on any log.  [show] adds the floating-point cost
    rollup to the same projections and is left out. *)

From S2P Require Import Prelude Text Scan Json JsonCodec Crypto Secret Scrub Blobs Price Envelope Log Authz Tamper Replay Capture Queue.

Definition PR_OPENED_KIND : string := "pr.opened".
Definition PR_QUEUED_KIND : string := "pr.queued".
Definition PR_ABANDONED_KIND : string := "pr.abandoned".
Definition PR_LANDED_KIND : string := "pr.landed".
Definition CAMPAIGN_OPENED_KIND : string := "campaign.opened".
Definition REF_UPDATE_KIND : string := "ref.update".
Definition LANDING_MODE : string := "union".

Inductive PrError :=
| SubagentAuthor (got : string)
| CampaignMismatch (pr_id existing attempted : string)
| UnknownPr (pr_id : string)
| EmptyPr (pr_id : string)
| QueueRefused (pr_id reason : string)
| MissingIntents (pr_id : string) (missing : list string)
| MissingAuthorBinding (author_kind : AuthorKind)
| MissingCommits (pr_id : string) (missing : list string)
| UnknownCampaign (pr_id campaign : string)
| AbandonUnknownPr (pr_id : string)
| AbandonLanded (pr_id : string)
| SettleNotQueued (pr_id : string)
| Internal (message : string).

Record QueuedPr := { q_pr_id : string; q_item_id : string; q_order_index : N }.

(** [Iterator::rfind]. *)
Definition rfind {A} (p : A → bool) (l : list A) : option A := last (List.filter p l).

Definition as_array (v : Value) : option (list Value) := match v with Array l => Some l | _ => None end.
Definition str_items (l : list Value) : list string := omap as_str l.
Definition str_array (l : list string) : Value := Array (Str <$> l).

(** The messages of faults that cannot happen. *)
Definition dash : string := utf8 [32; 226; 128; 148; 32]%nat.
Definition lost_open (pr : string) : string :=
  "pr.opened for '" +:+ pr +:+ "' not found after a successful append" +:+ dash
  +:+ "the payload round-tripped through canonical_json into a form that "
  +:+ "parse_opened could not project back; this is a hugit internal bug".
Definition lost_item (item : string) : string :=
  "item_id '" +:+ item +:+ "' not found in the Batch after being pushed" +:+ dash
  +:+ "the queue engine reordered or dropped the entry; this is a hugit internal bug".

(** * Projections *)

Section Projections.
Context `{SerdeJson}.

Definition opened_of (v : Value) (seq : N) : option OpenedPr :=
  pr_id ← field_str v "pr_id";
  campaign ← field_str v "campaign";
  author_kind ← field_str v "author_kind" ≫= author_parse;
  intents ← value_get v "intent_ids" ≫= as_array;
  Some {| o_pr_id := pr_id; o_campaign := campaign; o_author_kind := author_kind; o_intent_ids := str_items intents;
          o_commit_ids := default [] (str_items <$> (value_get v "commit_ids" ≫= as_array)); o_seq := seq |}.
Definition parse_opened (r : EventRecord) : option OpenedPr := v ← from_str (payload r); opened_of v (seq r).

Definition queued_of (v : Value) : option QueuedPr :=
  pr_id ← field_str v "pr_id";
  item_id ← field_str v "item_id";
  order_index ← value_get v "order_index" ≫= as_u64;
  Some {| q_pr_id := pr_id; q_item_id := item_id; q_order_index := order_index |}.
Definition parse_queued (r : EventRecord) : option QueuedPr := from_str (payload r) ≫= queued_of.

Definition names_pr (pr_id : string) (v : Value) : bool := bool_decide (field_str v "pr_id" = Some pr_id).

Definition find_pr_opened (log : EventLog) (pr_id : string) : option OpenedPr :=
  rfind (λ o, bool_decide (o_pr_id o = pr_id)) (omap parse_opened (records_of PR_OPENED_KIND log)).
Definition pr_is_landed (log : EventLog) (pr_id : string) : bool := existsb (names_pr pr_id) (payloads PR_LANDED_KIND log).
Definition all_pr_queued (log : EventLog) : list QueuedPr :=
  List.filter (λ q, negb (pr_is_landed log (q_pr_id q))) (omap parse_queued (records_of PR_QUEUED_KIND log)).
Definition find_pr_queued (log : EventLog) (pr_id : string) : option QueuedPr :=
  List.find (λ q, bool_decide (q_pr_id q = pr_id)) (all_pr_queued log).
Definition landed_pr_order_index (log : EventLog) (pr_id : string) : Value :=
  match rfind (λ q, bool_decide (q_pr_id q = pr_id)) (omap parse_queued (records_of PR_QUEUED_KIND log)) with
  | Some q => Number (PosInt (q_order_index q))
  | None => Null
  end.
Definition find_pr_abandoned_reason (log : EventLog) (pr_id : string) : option string :=
  last (omap (λ v, field_str v "reason") (List.filter (names_pr pr_id) (payloads PR_ABANDONED_KIND log))).

(** ** Captured commits *)

Definition push_updates_contain (payload : Value) (oid : string) : bool :=
  match value_get payload "updates" ≫= as_array with
  | Some updates =>
      bool_decide (value_get payload "attempt" ≫= as_bool = Some true)
      && existsb (λ update, bool_decide (field_str update "local_oid" = Some oid)) updates
  | None => false
  end.
Definition commit_ref_target_on_log (log : EventLog) (oid : string) : bool :=
  existsb (λ v, bool_decide (field_str v "target" = Some oid) || push_updates_contain v oid) (payloads REF_UPDATE_KIND log).
Definition commit_ref_target_for_ref (log : EventLog) (ref_name : string) : option string :=
  last (omap (λ v, field_str v "target")
          (List.filter (λ v, bool_decide (field_str v "ref" = Some ref_name)) (payloads REF_UPDATE_KIND log))).
End Projections.

(** * Opening *)

Record OpenArgs := {
  pr_id : string; campaign : string; author_kind : AuthorKind; run_id : option string; principal : option string;
  intent_ids : list string; commit_ids : list string; at_ms : N }.
Record LandArgs := { land_pr_id : string; land_at : N }.
Record SettleArgs := { settle_pr_id : string; settle_at : N; envelope_metrics : EnvelopeMetricsArgs }.
Record AbandonArgs := { abandon_pr_id : string; reason : string; abandon_at : N }.
Record ListArgs := { list_campaign : option string; list_state : option string }.

Definition opt_str (o : option string) : Value := match o with Some s => Str s | None => Null end.
Definition num (n : N) : Value := Number (PosInt n).
Definition count_of (l : list string) : Value := num (N.of_nat (length l)).

Section Verbs.
Context `{Crypto} `{SerdeJson} `{Libm} `{GateCodec} `{EnvelopeJson}.

Definition validate_author_binding (kind : AuthorKind) (run_id principal : option string) : result PrError unit :=
  let bound := match kind with AuthorOrchestrator => run_id | AuthorHuman => principal end in
  match bound with
  | Some (String _ _) => Ok tt
  | _ => Err (MissingAuthorBinding kind)
  end.

Definition log_has_campaign_vocabulary (log : EventLog) : bool := negb (bool_decide (records_of CAMPAIGN_OPENED_KIND log = [])).
Definition campaign_exists (log : EventLog) (campaign : string) : bool :=
  existsb (λ v, bool_decide (field_str v "campaign" = Some campaign)) (payloads CAMPAIGN_OPENED_KIND log).
Definition validate_campaign (log : EventLog) (pr_id campaign : string) : result PrError unit :=
  if log_has_campaign_vocabulary log && negb (campaign_exists log campaign) then Err (UnknownCampaign pr_id campaign) else Ok tt.

Definition log_has_intent_vocabulary (log : EventLog) : bool := negb (bool_decide (records_of INTENT_LANDED_KIND log = [])).
Definition intent_landed_on_log (log : EventLog) (intent_id : string) : bool :=
  existsb (λ v, bool_decide (field_str v "intent_id" = Some intent_id)) (payloads INTENT_LANDED_KIND log).
Definition validate_intents (log : EventLog) (args : OpenArgs) : result PrError unit :=
  if negb (log_has_intent_vocabulary log) then Ok tt
  else match List.filter (λ id, negb (intent_landed_on_log log id)) (intent_ids args) with
       | [] => Ok tt
       | missing => Err (MissingIntents (pr_id args) missing)
       end.
Definition validate_commits (log : EventLog) (args : OpenArgs) : result PrError unit :=
  match List.filter (λ oid, negb (commit_ref_target_on_log log oid)) (commit_ids args) with
  | [] => Ok tt
  | missing => Err (MissingCommits (pr_id args) missing)
  end.

Definition author_principal_chain (kind : AuthorKind) (run_id principal : option string) : list string :=
  option_list match kind with AuthorHuman => principal | AuthorOrchestrator => run_id end.

Definition scrub_open_args (args : OpenArgs) : OpenArgs := {|
  pr_id := structural_secret_scrub (pr_id args); campaign := structural_secret_scrub (campaign args);
  author_kind := author_kind args; run_id := structural_secret_scrub <$> run_id args;
  principal := structural_secret_scrub <$> principal args; intent_ids := scrub_all (intent_ids args);
  commit_ids := structural_secret_scrub <$> commit_ids args; at_ms := at_ms args |}.

Definition open_payload (args : OpenArgs) : Value := json_object
  [("author_kind", Str (author_as_str (author_kind args))); ("campaign", Str (campaign args));
   ("commit_ids", str_array (structural_secret_scrub <$> commit_ids args)); ("intent_ids", str_array (intent_ids args));
   ("pr_id", Str (pr_id args)); ("principal", opt_str (principal args)); ("run_id", opt_str (run_id args))].
Definition canonical_open_payload (args : OpenArgs) : string := scrub_to_canonical (open_payload args).

Definition open_json (opened : OpenedPr) (already_exists : bool) : Value := json_object
  [("pr_id", Str (o_pr_id opened)); ("campaign", Str (o_campaign opened));
   ("author_kind", Str (author_as_str (o_author_kind opened))); ("intent_ids", str_array (o_intent_ids opened));
   ("intent_count", count_of (o_intent_ids opened)); ("commit_ids", str_array (o_commit_ids opened));
   ("commit_count", count_of (o_commit_ids opened)); ("state", Str "proposed"); ("already_exists", Bool already_exists)].

Definition open (log : EventLog) (args0 : OpenArgs) : EventLog * result PrError Value :=
  let args := scrub_open_args args0 in
  match find_pr_opened log (pr_id args) with
  | Some existing =>
      (log, if decide (o_campaign existing ≠ campaign args)
            then Err (CampaignMismatch (pr_id args) (o_campaign existing) (campaign args))
            else Ok (open_json existing true))
  | None =>
      match (_ ← validate_author_binding (author_kind args) (run_id args) (principal args);
             _ ← validate_campaign log (pr_id args) (campaign args);
             _ ← validate_intents log args; validate_commits log args) with
      | Err e => (log, Err e)
      | Ok _ =>
          let chain := author_principal_chain (author_kind args) (run_id args) (principal args) in
          let payload := canonical_open_payload args in
          let '(class, endpoint) := author_authz (author_kind args) in
          match append_authorized log class endpoint PR_OPENED_KIND chain payload (at_ms args) with
          | (log, Err denied) => (log, Err (SubagentAuthor (reason_code (denied_reason denied))))
          | (log, Ok _) =>
              (log, match find_pr_opened log (pr_id args) with
                    | Some opened => Ok (open_json opened false)
                    | None => Err (Internal (lost_open (pr_id args)))
                    end)
          end
      end
  end.

(** * Landing *)

Definition refusal (e : BatchError) : string :=
  match e with DuplicateOrderIndex i => "duplicate order_index " +:+ decimal i +:+ dash +:+ "queue order would be ambiguous" end.

Definition no_keys : AffectedSet := AffectedSet_new [].
Definition queue_entry (item pr : string) (index : N) : LandableEntry * AffectedSet :=
  ({| item_id := item; entry_intent_id := pr; Queue.tree_hash := EmptyString; order_index := index |}, no_keys).

Fixpoint position_of (item : string) (es : list BatchEntry) : option nat :=
  match es with
  | [] => None
  | e :: es => if decide (entry_id e = item) then Some 0%nat else S <$> position_of item es
  end.

Definition landed_json (pr : string) (position : Value) : Value := json_object
  [("queued", Bool true); ("already_queued", Bool true); ("already_landed", Bool true); ("pr_id", Str pr);
   ("position", position); ("mode", Str LANDING_MODE)].
Definition queued_json (pr : string) (already : bool) (position : N) : Value := json_object
  [("queued", Bool true); ("already_queued", Bool already); ("pr_id", Str pr); ("position", num position); ("mode", Str LANDING_MODE)].
Definition queued_payload (item pr : string) (index : N) : Value := json_object
  [("item_id", Str item); ("mode", Str LANDING_MODE); ("order_index", num index); ("pr_id", Str pr)].

Definition land (log : EventLog) (args0 : LandArgs) : EventLog * result PrError Value :=
  let pr := structural_secret_scrub (land_pr_id args0) in
  match find_pr_opened log pr with
  | None => (log, Err (UnknownPr pr))
  | Some opened =>
      if pr_is_landed log pr then (log, Ok (landed_json pr (landed_pr_order_index log pr)))
      else if bool_decide (o_intent_ids opened = []) && bool_decide (o_commit_ids opened = []) then (log, Err (EmptyPr pr))
      else match find_pr_queued log pr with
      | Some existing => (log, Ok (queued_json pr true (q_order_index existing)))
      | None =>
          let queued := all_pr_queued log in
          let index := N.of_nat (length queued) in
          let item := pr +:+ "#" +:+ decimal index in
          let entries := ((λ q, queue_entry (q_item_id q) (q_pr_id q) (q_order_index q)) <$> queued) ++ [queue_entry item pr index] in
          match try_from_entries ("land-" +:+ pr) entries with
          | Err e => (log, Err (QueueRefused pr (refusal e)))
          | Ok batch =>
              match position_of item (Queue.entries batch) with
              | None => (log, Err (Internal (lost_item item)))
              | Some position =>
                  let payload := scrub_to_canonical (queued_payload item pr index) in
                  let '(class, endpoint) := author_authz (o_author_kind opened) in
                  match append_authorized log class endpoint PR_QUEUED_KIND [] payload (land_at args0) with
                  | (log, Err denied) => (log, Err (QueueRefused pr (reason_code (denied_reason denied))))
                  | (log, Ok _) => (log, Ok (queued_json pr false (N.of_nat position)))
                  end
              end
          end
      end
  end.

(** * Settling *)

Definition settle_json_captured (pr campaign : string) (already : bool) (captured : N) : Value := json_object
  [("pr_id", Str pr); ("campaign", Str campaign); ("landed", Bool true); ("already_landed", Bool already);
   ("state", Str "landed"); ("envelopes_captured", num captured)].
Definition settle_json (pr campaign : string) (already : bool) : Value := settle_json_captured pr campaign already 0.
Definition landed_payload (campaign pr : string) : Value := json_object [("campaign", Str campaign); ("pr_id", Str pr)].

Definition settle (log : EventLog) (args0 : SettleArgs) : EventLog * result PrError Value :=
  let pr := structural_secret_scrub (settle_pr_id args0) in
  match find_pr_opened log pr with
  | None => (log, Err (UnknownPr pr))
  | Some opened =>
      if pr_is_landed log pr then (log, Ok (settle_json pr (o_campaign opened) true))
      else match find_pr_queued log pr with
      | None => (log, Err (SettleNotQueued pr))
      | Some _ =>
          let payload := scrub_to_canonical (landed_payload (o_campaign opened) pr) in
          let '(class, endpoint) := author_authz (o_author_kind opened) in
          match append_authorized log class endpoint PR_LANDED_KIND [] payload (settle_at args0) with
          | (log, Err denied) => (log, Err (QueueRefused pr (reason_code (denied_reason denied))))
          | (log, Ok _) =>
              let '(log, captured) := capture_on_land log opened (envelope_metrics args0) (settle_at args0) in
              (log, Ok (settle_json_captured pr (o_campaign opened) false captured))
          end
      end
  end.

(** * Abandoning *)

Definition abandon_json (pr reason : string) (already : bool) : Value := json_object
  [("pr_id", Str pr); ("abandoned", Bool true); ("already_abandoned", Bool already); ("reason", Str reason)].
Definition abandoned_payload (pr reason : string) : Value := json_object [("pr_id", Str pr); ("reason", Str reason)].

Definition abandon (log : EventLog) (args0 : AbandonArgs) : EventLog * result PrError Value :=
  let pr := structural_secret_scrub (abandon_pr_id args0) in
  let reason := scrub (reason args0) in
  match find_pr_opened log pr with
  | None => (log, Err (AbandonUnknownPr pr))
  | Some opened =>
      if pr_is_landed log pr then (log, Err (AbandonLanded pr))
      else match find_pr_abandoned_reason log pr with
      | Some existing_reason => (log, Ok (abandon_json pr existing_reason true))
      | None =>
          let payload := scrub_to_canonical (abandoned_payload pr reason) in
          let '(class, endpoint) := author_authz (o_author_kind opened) in
          match append_authorized log class endpoint PR_ABANDONED_KIND [] payload (abandon_at args0) with
          | (log, Err denied) => (log, Err (QueueRefused pr (reason_code (denied_reason denied))))
          | (log, Ok _) => (log, Ok (abandon_json pr reason false))
          end
      end
  end.

(** * Listing *)

Definition pr_state (log : EventLog) (opened : OpenedPr) : string :=
  if pr_is_landed log (o_pr_id opened) then "landed"
  else if bool_decide (is_Some (find_pr_abandoned_reason log (o_pr_id opened))) then "abandoned"
  else if bool_decide (is_Some (find_pr_queued log (o_pr_id opened))) then "queued"
  else "proposed".

Fixpoint list_loop (log : EventLog) (seen : gset string) (os : list OpenedPr) : list OpenedPr :=
  match os with
  | [] => []
  | o :: os =>
      if decide (o_pr_id o ∈ seen) then list_loop log seen os
      else option_list (find_pr_opened log (o_pr_id o)) ++ list_loop log ({[o_pr_id o]} ∪ seen) os
  end.

Definition list_row (log : EventLog) (o : OpenedPr) : Value := json_object
  [("pr_id", Str (o_pr_id o)); ("campaign", Str (o_campaign o)); ("author_kind", Str (author_as_str (o_author_kind o)));
   ("intent_ids", str_array (o_intent_ids o)); ("intent_count", count_of (o_intent_ids o));
   ("commit_ids", str_array (o_commit_ids o)); ("commit_count", count_of (o_commit_ids o));
   ("state", Str (pr_state log o));
   ("position", match find_pr_queued log (o_pr_id o) with Some q => num (q_order_index q) | None => Null end)].
Definition list_ordered (log : EventLog) : list OpenedPr := list_loop log ∅ (omap parse_opened (records_of PR_OPENED_KIND log)).
Definition listed (log : EventLog) (args : ListArgs) (o : OpenedPr) : bool :=
  match list_campaign args with Some c => bool_decide (o_campaign o = c) | None => true end
  && match list_state args with Some want => bool_decide (want = pr_state log o) | None => true end.
Definition list_prs (log : EventLog) (args : ListArgs) : Value :=
  let ordered := list_ordered log in
  let rows := list_row log <$> List.filter (listed log args) ordered in
  json_object [("prs", Array rows); ("count", num (N.of_nat (length ordered))); ("shown", num (N.of_nat (length rows)))].

(** * The verbs as commands *)

Inductive PrVerb := VOpen (a : OpenArgs) | VLand (a : LandArgs) | VSettle (a : SettleArgs) | VAbandon (a : AbandonArgs).
Definition run_verb (log : EventLog) (c : PrVerb) : EventLog * result PrError Value :=
  match c with VOpen a => open log a | VLand a => land log a | VSettle a => settle log a | VAbandon a => abandon log a end.
End Verbs.

(** * Reading the log after an append *)

Lemma records_of_snoc `{Crypto} k log k' pc p at_ :
  records_of k (append log k' pc p at_).1
  = records_of k log ++ (if decide (k' = k) then [next_record log k' pc p at_] else []).
Proof.
  unfold records_of. rewrite append_records, List.filter_app. f_equal. simpl.
  destruct (decide (k' = k)); [by rewrite bool_decide_true|by rewrite bool_decide_false].
Qed.
Lemma records_of_appends `{Crypto} K log log' k : appends K log log' → k ∉ K → records_of k log' = records_of k log.
Proof.
  intros Ha Hk. induction Ha as [|log' k' pc p at_ _ IH Hin]; [done|].
  rewrite records_of_snoc, IH, decide_False by (by intros ->). by rewrite app_nil_r.
Qed.
Lemma payloads_appends `{Crypto} `{SerdeJson} K log log' k : appends K log log' → k ∉ K → payloads k log' = payloads k log.
Proof. intros Ha Hk. unfold payloads. by erewrite records_of_appends. Qed.

Lemma rfind_snoc {A} (p : A → bool) l x : p x = true → rfind p (l ++ [x]) = Some x.
Proof. intros Hp. unfold rfind. rewrite List.filter_app. simpl. rewrite Hp. apply last_snoc. Qed.
Lemma rfind_Some {A} (p : A → bool) l x : rfind p l = Some x → p x = true ∧ x ∈ l.
Proof.
  unfold rfind. intros Hl. apply last_Some in Hl as [l' Hl]. assert (In x (List.filter p l)) as Hin by (rewrite Hl; apply in_app_iff; right; by left).
  apply filter_In in Hin as [Hin Hp]. split; [done|]. by apply list_elem_of_In.
Qed.

(** What the projections read. *)
Section Frame.
Context `{Crypto} `{SerdeJson} (K : list string) (log log' : EventLog) (Ha : appends K log log').

Lemma find_pr_opened_frame pr : PR_OPENED_KIND ∉ K → find_pr_opened log' pr = find_pr_opened log pr.
Proof. intros. unfold find_pr_opened. by erewrite records_of_appends. Qed.
Lemma pr_is_landed_frame pr : PR_LANDED_KIND ∉ K → pr_is_landed log' pr = pr_is_landed log pr.
Proof. intros. unfold pr_is_landed. by erewrite payloads_appends. Qed.
Lemma all_pr_queued_frame : PR_LANDED_KIND ∉ K → PR_QUEUED_KIND ∉ K → all_pr_queued log' = all_pr_queued log.
Proof.
  intros Hl Hq. unfold all_pr_queued. erewrite (records_of_appends K log log' PR_QUEUED_KIND) by done.
  apply List.filter_ext. intros q. by rewrite pr_is_landed_frame.
Qed.
Lemma find_pr_abandoned_frame pr : PR_ABANDONED_KIND ∉ K → find_pr_abandoned_reason log' pr = find_pr_abandoned_reason log pr.
Proof. intros. unfold find_pr_abandoned_reason. by erewrite payloads_appends. Qed.
End Frame.

(** * What is read back from the payloads *)

Section ReadBack.
Context `{Crypto} `{SerdeJsonLaws} `{Libm} `{GateCodec}.

Lemma scrub_mode_id k v : k ∈ ["pr_id"; "campaign"; "commit_ids"] → scrub_mode k v = Structural.
Proof. intros Hk. repeat (apply elem_of_cons in Hk as [->|Hk]; [reflexivity|]). by apply elem_of_nil in Hk. Qed.
Lemma scrub_mode_text k v : k ∈ ["author_kind"; "intent_ids"; "item_id"; "reason"; "order_index"] → scrub_mode k v = FreeText.
Proof. intros Hk. repeat (apply elem_of_cons in Hk as [->|Hk]; [reflexivity|]). by apply elem_of_nil in Hk. Qed.

Lemma scrub_author k : scrub (author_as_str k) = author_as_str k.
Proof. by destruct k. Qed.
Lemma author_parse_as_str k : author_parse (author_as_str k) = Some k.
Proof. by destruct k. Qed.

Lemma str_items_scrubbed fuel f mode l : (∀ s, scrub_value fuel mode (Str s) = Str (f s)) →
  str_items (map (scrub_value fuel mode) (Str <$> l)) = f <$> l.
Proof. intros Hf. unfold str_items. induction l as [|s l IH]; [done|]. cbn [fmap list_fmap map]. rewrite Hf. cbn. by f_equal. Qed.

(** A payload of our own is read back as its scrubbed members. *)
Lemma read_payload l : Forall (λ kv, plain kv.2 = true) l →
  ∃ fuel, ∀ v, from_str (scrub_to_canonical (json_object l)) = Some v →
    ∀ k, value_get v k = (λ x, scrub_value fuel (scrub_mode k x) x) <$> obj_get k (obj_of_list l).
Proof.
  intros Hl. eexists. intros v. rewrite scrub_to_canonical_read by (by apply plain_object). intros [= <-] k.
  apply scrub_payload_get.
Qed.
Lemma payload_reads l : Forall (λ kv, plain kv.2 = true) l → is_Some (from_str (scrub_to_canonical (json_object l))).
Proof. intros Hl. rewrite scrub_to_canonical_read by (by apply plain_object). eauto. Qed.

Lemma opened_of_payload a0 seq : let a := scrub_open_args a0 in
  from_str (canonical_open_payload a) ≫= (λ v, opened_of v seq) = Some {|
    o_pr_id := pr_id a; o_campaign := campaign a; o_author_kind := author_kind a; o_intent_ids := intent_ids a;
    o_commit_ids := commit_ids a; o_seq := seq |}.
Proof.
  intros a. unfold canonical_open_payload, open_payload. set (l := _ :: _).
  assert (Forall (λ kv, plain kv.2 = true) l) as Hl.
  { subst l. repeat constructor; cbn [snd]; try apply plain_strs; try done; [by destruct (principal a)|by destruct (run_id a)]. }
  destruct (payload_reads l Hl) as [v Hv]. destruct (read_payload l Hl) as [fuel Hread]. specialize (Hread v Hv). rewrite Hv.
  cbn [mbind option_bind]. unfold opened_of, field_str. rewrite !Hread.
  replace (obj_get "pr_id" (obj_of_list l)) with (Some (Str (pr_id a))) by reflexivity.
  replace (obj_get "campaign" (obj_of_list l)) with (Some (Str (campaign a))) by reflexivity.
  replace (obj_get "author_kind" (obj_of_list l)) with (Some (Str (author_as_str (author_kind a)))) by reflexivity.
  replace (obj_get "intent_ids" (obj_of_list l)) with (Some (str_array (intent_ids a))) by reflexivity.
  replace (obj_get "commit_ids" (obj_of_list l)) with (Some (str_array (structural_secret_scrub <$> commit_ids a))) by reflexivity.
  cbn [fmap option_fmap option_map]. rewrite !scrub_mode_id, !scrub_mode_text by set_solver. unfold str_array.
  rewrite !scrub_value_Array, !scrub_value_Str by done. cbn [mbind option_bind as_str as_array default from_option].
  rewrite scrub_author, author_parse_as_str. cbn [mbind option_bind].
  rewrite (str_items_scrubbed fuel scrub) by (intros; by rewrite scrub_value_Str by done).
  cbn [fmap option_fmap option_map default]. rewrite (str_items_scrubbed fuel structural_secret_scrub) by (intros; by rewrite scrub_value_Str by done).
  subst a. cbn [scrub_open_args pr_id campaign intent_ids commit_ids author_kind].
  rewrite !structural_secret_scrub_idemp. fold (scrub_all (scrub_all (intent_ids a0))). rewrite scrub_all_idemp. do 2 f_equal.
  rewrite <- !list_fmap_compose. apply list_fmap_ext. intros ? s _. cbn. by rewrite !structural_secret_scrub_idemp.
Qed.
End ReadBack.

(** * The verbs *)

Section Spec.
Context `{CryptoLaws} `{!HexLower} `{SerdeJsonLaws} `{Libm} `{GateCodec} `{EnvelopeJsonLaws}.

(** The record [open] makes of its scrubbed arguments. *)
Definition opened_by (a : OpenArgs) (seq : N) : OpenedPr := {|
  o_pr_id := pr_id a; o_campaign := campaign a; o_author_kind := author_kind a; o_intent_ids := intent_ids a;
  o_commit_ids := commit_ids a; o_seq := seq |}.
Definition open_checks (log : EventLog) (a : OpenArgs) : result PrError unit :=
  _ ← validate_author_binding (author_kind a) (run_id a) (principal a);
  _ ← validate_campaign log (pr_id a) (campaign a); _ ← validate_intents log a; validate_commits log a.

Lemma open_eq log a0 : let a := scrub_open_args a0 in
  match find_pr_opened log (pr_id a) with
  | Some o => open log a0 = (log, if decide (o_campaign o ≠ campaign a) then Err (CampaignMismatch (pr_id a) (o_campaign o) (campaign a))
                                  else Ok (open_json o true))
  | None =>
      match open_checks log a with
      | Err e => open log a0 = (log, Err e)
      | Ok _ => ∃ pc p, let log' := (append log PR_OPENED_KIND pc p (at_ms a)).1 in
          open log a0 = (log', Ok (open_json (opened_by a (N.of_nat (log_len log))) false)) ∧
          find_pr_opened log' (pr_id a) = Some (opened_by a (N.of_nat (log_len log)))
      end
  end.
Proof.
  intros a. unfold open. fold a. cbv zeta. destruct (find_pr_opened log (pr_id a)) as [o|] eqn:Ef; [done|].
  fold (open_checks log a). destruct (open_checks log a) as [[]|e]; [|done].
  set (pc := author_principal_chain _ _ _). exists pc, (canonical_open_payload a).
  assert (find_pr_opened (append log PR_OPENED_KIND pc (canonical_open_payload a) (at_ms a)).1 (pr_id a)
          = Some (opened_by a (N.of_nat (log_len log)))) as Hfound.
  { unfold find_pr_opened. rewrite records_of_snoc, decide_True, omap_app by done.
    assert (omap parse_opened [next_record log PR_OPENED_KIND pc (canonical_open_payload a) (at_ms a)]
            = [opened_by a (N.of_nat (log_len log))]) as ->.
    { cbn [omap list_omap]. unfold parse_opened. cbn [payload seq next_record]. subst a.
      rewrite (opened_of_payload a0 (N.of_nat (log_len log))). done. }
    apply rfind_snoc. by apply bool_decide_eq_true. }
  split; [|done]. destruct (author_authz (author_kind a)) as [c ep] eqn:Eac.
  pose proof (append_author log (author_kind a) PR_OPENED_KIND pc (canonical_open_payload a) (at_ms a)) as Happ.
  rewrite Eac in Happ. cbn [fst snd] in Happ. rewrite Happ, Hfound. done.
Qed.

(** Opening either finds the pull request as recorded and leaves the log as it
    is, or appends one event from which the pull request is then read back with
    exactly the scrubbed arguments; every refusal leaves the log alone and is a
    conflict of campaigns or a failed check, so the internal fault of a record
    that cannot be found again never happens. *)
Theorem open_found log a0 log' res : open log a0 = (log', res) →
  let a := scrub_open_args a0 in
  match res with
  | Ok v => ∃ o, find_pr_opened log' (pr_id a) = Some o ∧ o_campaign o = campaign a ∧
      (v = open_json o true ∧ log' = log ∨
       v = open_json o false ∧ find_pr_opened log (pr_id a) = None ∧ o_author_kind o = author_kind a ∧
       o_intent_ids o = intent_ids a ∧ o_commit_ids o = commit_ids a ∧
       ∃ r, records log' = records log ++ [r] ∧ kind r = PR_OPENED_KIND)
  | Err e => log' = log ∧
      ((∃ o, find_pr_opened log (pr_id a) = Some o ∧ o_campaign o ≠ campaign a ∧
         e = CampaignMismatch (pr_id a) (o_campaign o) (campaign a)) ∨
       find_pr_opened log (pr_id a) = None ∧ open_checks log a = Err e)
  end.
Proof.
  intros Ho a. pose proof (open_eq log a0) as Heq. cbv zeta in Heq. fold a in Heq.
  destruct (find_pr_opened log (pr_id a)) as [o|] eqn:Ef.
  - rewrite Heq in Ho. destruct (decide (o_campaign o ≠ campaign a)) as [Hc|Hc]; inv_eqs; [split; [done|]; left; by exists o|].
    apply dec_stable in Hc. exists o. by auto.
  - destruct (open_checks log a) as [[]|e] eqn:Ec; [|rewrite Heq in Ho; inv_eqs; by auto].
    destruct Heq as (pc & p & Heq & Hf). rewrite Heq in Ho. inv_eqs. eexists. split; [exact Hf|]. split; [done|]. right.
    split_and!; try done. eexists. split; [apply append_records|done].
Qed.

(** ** Landing *)

Definition log_fits (log : EventLog) : Prop := N.of_nat (length (records log)) ≤ u64_max.

Lemma queue_short log : (length (all_pr_queued log) ≤ length (records log))%nat.
Proof.
  unfold all_pr_queued. etrans; [apply List.filter_length_le|]. etrans; [apply length_omap_le|]. apply List.filter_length_le.
Qed.

Lemma queued_of_payload item pr0 index : index ≤ u64_max → let pr := structural_secret_scrub pr0 in
  from_str (scrub_to_canonical (queued_payload item pr index)) ≫= queued_of = Some {|
    q_pr_id := pr; q_item_id := scrub item; q_order_index := index |}.
Proof.
  intros Hi pr. unfold queued_payload. set (l := _ :: _).
  assert (Forall (λ kv, plain kv.2 = true) l) as Hl.
  { subst l. repeat constructor. unfold plain. simpl. by apply bool_decide_eq_true. }
  destruct (payload_reads l Hl) as [v Hv]. destruct (read_payload l Hl) as [fuel Hread]. specialize (Hread v Hv). rewrite Hv.
  cbn [mbind option_bind]. unfold queued_of, field_str. rewrite !Hread.
  replace (obj_get "pr_id" (obj_of_list l)) with (Some (Str pr)) by reflexivity.
  replace (obj_get "item_id" (obj_of_list l)) with (Some (Str item)) by reflexivity.
  replace (obj_get "order_index" (obj_of_list l)) with (Some (num index)) by reflexivity.
  cbn [fmap option_fmap option_map]. rewrite (scrub_mode_id "pr_id"), (scrub_mode_text "item_id"), (scrub_mode_text "order_index") by by_decision.
  rewrite !scrub_value_Str by done. rewrite scrub_value_scalar by done. cbn. subst pr. by rewrite structural_secret_scrub_idemp.
Qed.

Lemma position_of_Some item es : item ∈ entry_id <$> es → is_Some (position_of item es).
Proof.
  induction es as [|e es IH]; [by intros ?%elem_of_nil|]. intros Hin. simpl. destruct (decide (entry_id e = item)) as [|Hne]; [by eexists|].
  apply fmap_is_Some, IH. apply elem_of_cons in Hin as [->|]; done.
Qed.

Lemma all_pr_queued_land log p at_ q : from_str p ≫= queued_of = Some q → pr_is_landed log (q_pr_id q) = false →
  all_pr_queued (append log PR_QUEUED_KIND [] p at_).1 = all_pr_queued log ++ [q].
Proof.
  intros Hq Hl. set (log' := (append log PR_QUEUED_KIND [] p at_).1).
  assert (appends [PR_QUEUED_KIND] log log') as Ha by (constructor; [constructor|set_solver]).
  unfold all_pr_queued at 1. unfold log' at 2. rewrite records_of_snoc, decide_True, omap_app by done.
  assert (omap parse_queued [next_record log PR_QUEUED_KIND [] p at_] = [q]) as ->.
  { cbn [omap list_omap]. unfold parse_queued. cbn [payload next_record]. by rewrite Hq. }
  assert (∀ pr, pr_is_landed log' pr = pr_is_landed log pr) as Hf by (intros; eapply pr_is_landed_frame; [exact Ha|by_decision]).
  rewrite List.filter_app. f_equal; [apply List.filter_ext; intros; by rewrite Hf|]. simpl. by rewrite Hf, Hl.
Qed.

(** The conditions under which [land] enqueues, and what it enqueues. *)
Definition land_item (pr : string) (index : N) : string := pr +:+ "#" +:+ decimal index.
Definition indexes (l : list QueuedPr) : list N := q_order_index <$> l.

Lemma land_eq log a0 : log_fits log → let pr := structural_secret_scrub (land_pr_id a0) in
  match find_pr_opened log pr with
  | None => land log a0 = (log, Err (UnknownPr pr))
  | Some o =>
      if pr_is_landed log pr then ∃ v, land log a0 = (log, Ok v)
      else if bool_decide (o_intent_ids o = []) && bool_decide (o_commit_ids o = []) then land log a0 = (log, Err (EmptyPr pr))
      else match find_pr_queued log pr with
      | Some q => land log a0 = (log, Ok (queued_json pr true (q_order_index q)))
      | None =>
          let queued := all_pr_queued log in let index := N.of_nat (length queued) in
          if bool_decide (NoDup (indexes queued ++ [index])) then
            ∃ p position, let log' := (append log PR_QUEUED_KIND [] p (land_at a0)).1 in
              land log a0 = (log', Ok (queued_json pr false (N.of_nat position))) ∧
              all_pr_queued log' = queued ++ [{| q_pr_id := pr; q_item_id := scrub (land_item pr index); q_order_index := index |}]
          else ∃ e, land log a0 = (log, Err (QueueRefused pr (refusal e)))
      end
  end.
Proof.
  intros Hfit pr. unfold land. fold pr. cbv zeta. destruct (find_pr_opened log pr) as [o|] eqn:Eo; [|done].
  destruct (pr_is_landed log pr) eqn:El; [by eexists|]. destruct (_ && _); [done|].
  destruct (find_pr_queued log pr) as [q|] eqn:Eq; [done|].
  set (queued := all_pr_queued log). set (index := N.of_nat (length queued)). fold (land_item pr index). set (item := land_item pr index).
  set (entries := _ ++ [queue_entry item pr index]).
  assert ((λ la : LandableEntry * AffectedSet, order_index la.1) <$> entries = indexes queued ++ [index]) as Hix.
  { subst entries. rewrite fmap_app. f_equal. unfold indexes. by rewrite <- list_fmap_compose. }
  pose proof (try_from_entries_correct ("land-" +:+ pr) entries) as Ht. cbv zeta in Ht. rewrite Hix in Ht.
  destruct (try_from_entries ("land-" +:+ pr) entries) as [batch|e].
  - destruct Ht as (Hnd & _ & Hperm & _). rewrite bool_decide_true by done.
    assert (is_Some (position_of item (Queue.entries batch))) as [position Hpos].
    { apply position_of_Some. rewrite Hperm. subst entries. rewrite !fmap_app. apply elem_of_app. right. simpl. by left. }
    rewrite Hpos. exists (scrub_to_canonical (queued_payload item pr index)), position.
    destruct (author_authz (o_author_kind o)) as [c ep] eqn:Eac.
    pose proof (append_author log (o_author_kind o) PR_QUEUED_KIND [] (scrub_to_canonical (queued_payload item pr index)) (land_at a0)) as Happ.
    rewrite Eac in Happ. cbn [fst snd] in Happ. rewrite Happ. split; [done|].
    apply all_pr_queued_land; [|done]. apply queued_of_payload. unfold index, queued, log_fits in *. pose proof (queue_short log). lia.
  - destruct e as [i]. rewrite bool_decide_false; [by eexists|]. intros Hnd. destruct Ht as (k & Hk & Hin & _).
    apply list_elem_of_lookup in Hin as [j Hj]. apply lookup_take_Some in Hj as [Hj Hlt].
    pose proof (NoDup_lookup _ _ _ _ Hnd Hj Hk). lia.
Qed.

(** ** Settling and abandoning *)

Lemma names_pr_payload pr0 l : let pr := structural_secret_scrub pr0 in
  Forall (λ kv, plain kv.2 = true) l → obj_get "pr_id" (obj_of_list l) = Some (Str pr) →
  ∃ v, from_str (scrub_to_canonical (json_object l)) = Some v ∧ field_str v "pr_id" = Some pr ∧
    ∀ s, obj_get "reason" (obj_of_list l) = Some (Str s) → field_str v "reason" = Some (scrub s).
Proof.
  intros pr Hl Hpr. destruct (payload_reads l Hl) as [v Hv]. destruct (read_payload l Hl) as [fuel Hread]. specialize (Hread v Hv).
  exists v. split; [done|]. unfold field_str. rewrite !Hread, Hpr. cbn [fmap option_fmap option_map].
  rewrite (scrub_mode_id "pr_id"), scrub_value_Str by (done || by_decision). split; [cbn; subst pr; by rewrite structural_secret_scrub_idemp|].
  intros s ->. cbn [fmap option_fmap option_map]. by rewrite (scrub_mode_text "reason"), scrub_value_Str by (done || by_decision).
Qed.

Lemma payloads_snoc k log k' pc p at_ : payloads k (append log k' pc p at_).1
  = payloads k log ++ (if decide (k' = k) then option_list (from_str p) else []).
Proof.
  unfold payloads. rewrite records_of_snoc. destruct (decide (k' = k)); [|by rewrite !app_nil_r].
  rewrite omap_app. done.
Qed.

Lemma settle_eq log a0 : let pr := structural_secret_scrub (settle_pr_id a0) in
  match find_pr_opened log pr with
  | None => settle log a0 = (log, Err (UnknownPr pr))
  | Some o =>
      if pr_is_landed log pr then settle log a0 = (log, Ok (settle_json pr (o_campaign o) true))
      else match find_pr_queued log pr with
      | None => settle log a0 = (log, Err (SettleNotQueued pr))
      | Some _ =>
          ∃ p log' n, let log1 := (append log PR_LANDED_KIND [] p (settle_at a0)).1 in
            settle log a0 = (log', Ok (settle_json_captured pr (o_campaign o) false n)) ∧
            capture_on_land log1 o (envelope_metrics a0) (settle_at a0) = (log', n) ∧
            appends [INTENT_ENVELOPE_KIND; PR_ENVELOPE_KIND] log1 log' ∧
            ∀ x, pr_is_landed log' x = pr_is_landed log x || bool_decide (pr = x)
      end
  end.
Proof.
  intros pr. unfold settle. fold pr. cbv zeta. destruct (find_pr_opened log pr) as [o|]; [|done].
  destruct (pr_is_landed log pr) eqn:El; [done|]. destruct (find_pr_queued log pr); [|done].
  set (p := scrub_to_canonical _). destruct (author_authz (o_author_kind o)) as [c ep] eqn:Eac.
  pose proof (append_author log (o_author_kind o) PR_LANDED_KIND [] p (settle_at a0)) as Happ. rewrite Eac in Happ. cbn [fst snd] in Happ.
  rewrite Happ. set (log1 := (append log PR_LANDED_KIND [] p (settle_at a0)).1).
  destruct (capture_on_land_ok log1 o (envelope_metrics a0) (settle_at a0)) as (rs & r & log' & Hc & _ & Ha & _). rewrite Hc.
  eexists p, log', _. split_and!; [done|exact Hc|exact Ha|]. intros x.
  rewrite (pr_is_landed_frame _ log1 log' Ha) by by_decision. unfold pr_is_landed, log1. rewrite payloads_snoc, decide_True by done.
  destruct (names_pr_payload (settle_pr_id a0) [("campaign", Str (o_campaign o)); ("pr_id", Str pr)]) as (v & Hv & Hpr & _);
    [by repeat constructor|done|]. fold pr in Hpr. change (from_str p = Some v) in Hv. rewrite Hv, existsb_app. f_equal. simpl.
  rewrite orb_false_r. unfold names_pr. rewrite Hpr. apply bool_decide_ext. naive_solver.
Qed.

Lemma abandon_eq log a0 : let pr := structural_secret_scrub (abandon_pr_id a0) in
  match find_pr_opened log pr with
  | None => abandon log a0 = (log, Err (AbandonUnknownPr pr))
  | Some o =>
      if pr_is_landed log pr then abandon log a0 = (log, Err (AbandonLanded pr))
      else match find_pr_abandoned_reason log pr with
      | Some r => abandon log a0 = (log, Ok (abandon_json pr r true))
      | None =>
          ∃ p, let log' := (append log PR_ABANDONED_KIND [] p (abandon_at a0)).1 in
            abandon log a0 = (log', Ok (abandon_json pr (scrub (reason a0)) false)) ∧
            find_pr_abandoned_reason log' pr = Some (scrub (reason a0))
      end
  end.
Proof.
  intros pr. unfold abandon. fold pr. cbv zeta. destruct (find_pr_opened log pr) as [o|]; [|done].
  destruct (pr_is_landed log pr) eqn:El; [done|]. destruct (find_pr_abandoned_reason log pr); [done|].
  set (p := scrub_to_canonical _). destruct (author_authz (o_author_kind o)) as [c ep] eqn:Eac.
  pose proof (append_author log (o_author_kind o) PR_ABANDONED_KIND [] p (abandon_at a0)) as Happ. rewrite Eac in Happ. cbn [fst snd] in Happ.
  rewrite Happ. exists p. split; [done|]. unfold find_pr_abandoned_reason. rewrite payloads_snoc, decide_True by done.
  destruct (names_pr_payload (abandon_pr_id a0) [("pr_id", Str pr); ("reason", Str (scrub (reason a0)))]) as (v & Hv & Hpr & Hre);
    [by repeat constructor|done|]. fold pr in Hpr. change (from_str p = Some v) in Hv. rewrite Hv, List.filter_app. simpl.
  unfold names_pr at 2. rewrite Hpr, bool_decide_true by done. rewrite omap_app. cbn [omap list_omap].
  rewrite (Hre (scrub (reason a0)) eq_refl), scrub_idemp. apply last_snoc.
Qed.

(** ** Effects of any verb *)

Definition PR_KINDS : list string :=
  [PR_OPENED_KIND; PR_QUEUED_KIND; PR_LANDED_KIND; PR_ABANDONED_KIND; INTENT_ENVELOPE_KIND; PR_ENVELOPE_KIND].

Lemma appends_one log k pc p at_ : k ∈ PR_KINDS → appends PR_KINDS log (append log k pc p at_).1.
Proof. intros Hk. constructor; [constructor|done]. Qed.

(** The verb left the log as it was. *)
Ltac unchanged := match goal with H : (_, _) = (_, _) |- _ => injection H as -> _; split; [apply appends_nil|done] end.

Lemma verb_appends log c log' res : log_fits log → run_verb log c = (log', res) →
  appends PR_KINDS log log' ∧ ∀ e, res = Err e → log' = log.
Proof.
  intros Hfit Hr. destruct c as [a|a|a|a]; cbn [run_verb] in Hr.
  - pose proof (open_eq log a) as Heq. cbv zeta in Heq. rewrite Hr in Heq.
    destruct (find_pr_opened log _); [unchanged|].
    destruct (open_checks log _); [|unchanged].
    destruct Heq as (pc & p & Heq & _). inv_eqs. split; [apply appends_one; by_decision|done].
  - pose proof (land_eq log a Hfit) as Heq. cbv zeta in Heq. rewrite Hr in Heq.
    destruct (find_pr_opened log _) as [o|]; [|unchanged].
    destruct (pr_is_landed log _); [destruct Heq as [? Heq]; unchanged|].
    destruct (_ && _); [unchanged|].
    destruct (find_pr_queued log _); [unchanged|].
    destruct (bool_decide _); [|destruct Heq as [? Heq]; unchanged].
    destruct Heq as (p & n & Heq & _). inv_eqs. split; [apply appends_one; by_decision|done].
  - pose proof (settle_eq log a) as Heq. cbv zeta in Heq. rewrite Hr in Heq.
    destruct (find_pr_opened log _) as [o|]; [|unchanged].
    destruct (pr_is_landed log _); [unchanged|].
    destruct (find_pr_queued log _); [|unchanged].
    destruct Heq as (p & log2 & n & Heq & _ & Ha & _). inv_eqs. split; [|done].
    eapply appends_trans; [apply appends_one|eapply appends_weaken; [|exact Ha]]; by_decision.
  - pose proof (abandon_eq log a) as Heq. cbv zeta in Heq. rewrite Hr in Heq.
    destruct (find_pr_opened log _) as [o|]; [|unchanged].
    destruct (pr_is_landed log _); [unchanged|].
    destruct (find_pr_abandoned_reason log _); [unchanged|].
    destruct Heq as (p & Heq & _). inv_eqs. split; [apply appends_one; by_decision|done].
Qed.

Lemma appends_intact K log log' : PROVENANCE_REDACTION_KIND ∉ K → appends K log log' → intact (records log) → intact (records log').
Proof. intros Hk. induction 1 as [|log' k pc p at_ _ IH Hin]; [done|]. intros Hi. apply intact_append; [by intros ->|by apply IH]. Qed.

Lemma replay_inert K log log' : "ref.update" ∉ K → INTENT_LANDED_KIND ∉ K → "ref.delete" ∉ K → appends K log log' →
  replay_unchecked (records log') = replay_unchecked (records log).
Proof.
  intros Hu Hl Hd. induction 1 as [|log' k pc p at_ _ IH Hin]; [done|].
  unfold replay_unchecked in *. rewrite append_records, replay_from_app, IH.
  destruct (replay_from RefState_new (records log)); cbn [mbind result_bind]; [|done].
  cbn [replay_from]. unfold replay_step. cbn [kind next_record].
  rewrite decide_False by (intros [Hx|Hx]; cbn in Hx; by subst k). by rewrite decide_False by (intros Hx; cbn in Hx; by subst k).
Qed.

(** Whatever the verb, its arguments and its outcome: the log only grows, by
    events of the pull-request kinds, an intact log stays intact and no ref
    moves; a refused verb writes nothing at all. *)
Theorem verbs_only_record log c log' res : log_fits log → run_verb log c = (log', res) →
  (∃ rs, records log' = records log ++ rs ∧ Forall (λ r, kind r ∈ PR_KINDS) rs) ∧
  (intact (records log) → intact (records log')) ∧
  replay_unchecked (records log') = replay_unchecked (records log) ∧
  ∀ e, res = Err e → log' = log.
Proof.
  intros Hfit Hr. destruct (verb_appends log c log' res Hfit Hr) as [Ha He]. split_and!; [|..|done].
  - by apply appends_records.
  - eapply appends_intact; [|exact Ha]. by_decision.
  - eapply replay_inert; [..|exact Ha]; by_decision.
Qed.

(** ** Retrying *)

Lemma find_pr_queued_snoc log log' q : all_pr_queued log' = all_pr_queued log ++ [q] →
  find_pr_queued log (q_pr_id q) = None → find_pr_queued log' (q_pr_id q) = Some q.
Proof.
  intros Hq Hn. unfold find_pr_queued in *. rewrite Hq. clear Hq. revert Hn.
  generalize (all_pr_queued log). intros l. induction l as [|x l IH]; simpl; intros Hn; [by rewrite bool_decide_true|].
  destruct (bool_decide (q_pr_id x = q_pr_id q)); [done|by apply IH].
Qed.

Lemma retry_open log a log' v : open log a = (log', Ok v) → ∃ v', open log' a = (log', Ok v').
Proof.
  intros Hr. pose proof (open_eq log a) as Heq. cbv zeta in Heq. rewrite Hr in Heq. set (a' := scrub_open_args a) in *.
  destruct (find_pr_opened log _) eqn:Ef; [injection Heq as -> _; by eexists|].
  destruct (open_checks log _); [|done]. destruct Heq as (pc & p & Heq & Hf).
  assert (log' = (append log PR_OPENED_KIND pc p (at_ms a')).1) as Hlog by congruence. rewrite <- Hlog in Hf.
  pose proof (open_eq log' a) as Heq'. cbv zeta in Heq'. fold a' in Heq'. rewrite Hf in Heq'.
  rewrite decide_False in Heq' by (by intros Hn). by eexists.
Qed.

Lemma retry_land log a log' v : log_fits log → log_fits log' → land log a = (log', Ok v) → ∃ v', land log' a = (log', Ok v').
Proof.
  intros Hfit Hfit' Hr. pose proof (land_eq log a Hfit) as Heq. cbv zeta in Heq. rewrite Hr in Heq.
  destruct (find_pr_opened log _) as [o|] eqn:Eo; [|done].
  destruct (pr_is_landed log _) eqn:El; [destruct Heq as [? Heq]; injection Heq as -> _; by eexists|].
  destruct (_ && _) eqn:Ee; [done|]. destruct (find_pr_queued log _) eqn:Eq; [injection Heq as -> _; by eexists|].
  destruct (bool_decide _) in Heq; [|by destruct Heq]. destruct Heq as (p & n & Heq & Hq).
  set (pr := structural_secret_scrub (land_pr_id a)) in *.
  assert (log' = (append log PR_QUEUED_KIND [] p (land_at a)).1) as Hlog by congruence. rewrite <- Hlog in Hq.
  assert (appends [PR_QUEUED_KIND] log log') as Ha by (rewrite Hlog; constructor; [constructor|by_decision]).
  pose proof (land_eq log' a Hfit') as Heq'. cbv zeta in Heq'. fold pr in Heq'.
  rewrite (find_pr_opened_frame _ _ _ Ha), Eo, (pr_is_landed_frame _ _ _ Ha), El, Ee in Heq' by by_decision.
  pose proof (find_pr_queued_snoc _ _ _ Hq Eq) as Hf. cbn [q_pr_id] in Hf. rewrite Hf in Heq'. by eexists.
Qed.

Lemma retry_settle log a log' v : settle log a = (log', Ok v) → ∃ v', settle log' a = (log', Ok v').
Proof.
  intros Hr. pose proof (settle_eq log a) as Heq. cbv zeta in Heq. rewrite Hr in Heq. set (pr := structural_secret_scrub (settle_pr_id a)) in *.
  destruct (find_pr_opened log _) as [o|] eqn:Eo; [|done].
  destruct (pr_is_landed log _) eqn:El; [injection Heq as -> _; by eexists|].
  destruct (find_pr_queued log _); [|done]. destruct Heq as (p & log2 & n & Heq & _ & Ha & Hl). injection Heq as -> _.
  assert (appends [PR_LANDED_KIND; INTENT_ENVELOPE_KIND; PR_ENVELOPE_KIND] log log2) as Ha'.
  { eapply appends_trans; [constructor; [constructor|]|eapply appends_weaken; [|exact Ha]]; by_decision. }
  pose proof (settle_eq log2 a) as Heq'. cbv zeta in Heq'. fold pr in Heq'.
  rewrite (find_pr_opened_frame _ _ _ Ha'), Eo, Hl, El, bool_decide_true in Heq' by (done || by_decision). cbn [orb] in Heq'. by eexists.
Qed.

Lemma retry_abandon log a log' v : abandon log a = (log', Ok v) → ∃ v', abandon log' a = (log', Ok v').
Proof.
  intros Hr. pose proof (abandon_eq log a) as Heq. cbv zeta in Heq. rewrite Hr in Heq. set (pr := structural_secret_scrub (abandon_pr_id a)) in *.
  destruct (find_pr_opened log _) as [o|] eqn:Eo; [|done]. destruct (pr_is_landed log _) eqn:El; [done|].
  destruct (find_pr_abandoned_reason log _) eqn:Er; [injection Heq as -> _; by eexists|].
  destruct Heq as (p & Heq & Hf). assert (log' = (append log PR_ABANDONED_KIND [] p (abandon_at a)).1) as Hlog by congruence.
  assert (appends [PR_ABANDONED_KIND] log log') as Ha by (rewrite Hlog; constructor; [constructor|by_decision]).
  rewrite <- Hlog in Hf. pose proof (abandon_eq log' a) as Heq'. cbv zeta in Heq'. fold pr in Heq'.
  rewrite (find_pr_opened_frame _ _ _ Ha), Eo, (pr_is_landed_frame _ _ _ Ha), El, Hf in Heq' by by_decision. by eexists.
Qed.

(** Retrying is safe: a verb that succeeded succeeds again at once, with the same
    arguments, and appends nothing the second time. *)
Theorem verbs_idempotent log c log' v : log_fits log → log_fits log' → run_verb log c = (log', Ok v) →
  ∃ v', run_verb log' c = (log', Ok v').
Proof.
  intros Hfit Hfit' Hr. destruct c; cbn [run_verb] in *;
    eauto using retry_open, retry_land, retry_settle, retry_abandon.
Qed.

(** ** The active queue *)

Record queue_ok (log : EventLog) : Prop := {
  queue_indexes : NoDup (indexes (all_pr_queued log));
  queue_prs : NoDup (q_pr_id <$> all_pr_queued log);
}.

Lemma find_pr_queued_None log pr : find_pr_queued log pr = None → pr ∉ q_pr_id <$> all_pr_queued log.
Proof.
  unfold find_pr_queued. intros Hf (q & -> & Hin)%list_elem_of_fmap. apply list_elem_of_In in Hin.
  pose proof (List.find_none _ _ Hf q Hin) as Hn. by apply bool_decide_eq_false in Hn.
Qed.

Lemma NoDup_fmap_filter {A B} (f : A → B) (p : A → bool) l : NoDup (f <$> l) → NoDup (f <$> List.filter p l).
Proof.
  induction l as [|x l IH]; [done|]. simpl. rewrite NoDup_cons. intros [Hx Hl].
  destruct (p x); [|by apply IH]. simpl. apply NoDup_cons. split; [|by apply IH].
  intros (y & Hy & Hin)%list_elem_of_fmap. apply Hx, list_elem_of_fmap. exists y. split; [done|].
  apply list_elem_of_In, List.filter_In in Hin as [Hin _]. by apply list_elem_of_In.
Qed.

(** After a settlement the pull request is gone from the queue and the others
    are as before. *)
Lemma all_pr_queued_settle log log' pr : records_of PR_QUEUED_KIND log' = records_of PR_QUEUED_KIND log →
  (∀ x, pr_is_landed log' x = pr_is_landed log x || bool_decide (pr = x)) →
  all_pr_queued log' = List.filter (λ q, negb (bool_decide (pr = q_pr_id q))) (all_pr_queued log).
Proof.
  intros Hr Hl. unfold all_pr_queued. rewrite Hr. induction (omap parse_queued _) as [|q l IH]; [done|]. simpl. rewrite Hl.
  destruct (pr_is_landed log (q_pr_id q)); simpl; [done|]. destruct (bool_decide (pr = q_pr_id q)) eqn:E; simpl; rewrite ?E; simpl; by rewrite IH.
Qed.

(** The log of an outcome. *)
Ltac take_log H := apply (f_equal fst) in H; cbn [fst] in H; subst.

(** No verb ever gives two active pull requests one position, or one pull request
    two. *)
Theorem queue_stays_distinct log c log' res : log_fits log → run_verb log c = (log', res) → queue_ok log → queue_ok log'.
Proof.
  intros Hfit Hr [Hi Hp].
  assert (all_pr_queued log' = all_pr_queued log → queue_ok log') as Hsame by (intros Hs; split; by rewrite Hs).
  destruct (verb_appends log c log' res Hfit Hr) as [_ Herr]. destruct res as [v|e]; [|by rewrite (Herr e)]. clear Herr.
  destruct c as [a|a|a|a]; cbn [run_verb] in Hr.
  - apply Hsame. pose proof (open_eq log a) as Heq. cbv zeta in Heq. rewrite Hr in Heq.
    destruct (find_pr_opened log _); [by injection Heq as ->|]. destruct (open_checks log _); [|done].
    destruct Heq as (pc & p & Heq & _). take_log Heq.
    eapply (all_pr_queued_frame [PR_OPENED_KIND]); [apply appends_snoc; [apply appends_nil|apply list_elem_of_here]|by_decision..].
  - pose proof (land_eq log a Hfit) as Heq. cbv zeta in Heq. rewrite Hr in Heq.
    destruct (find_pr_opened log _) as [o|]; [|done]. destruct (pr_is_landed log _); [destruct Heq as [? Heq]; by injection Heq as ->|].
    destruct (_ && _); [done|]. destruct (find_pr_queued log _) eqn:Eq; [by injection Heq as ->|].
    destruct (bool_decide _) eqn:Eb in Heq; [|by destruct Heq]. destruct Heq as (p & n & Heq & Hq). take_log Heq.
    apply bool_decide_eq_true in Eb. apply find_pr_queued_None in Eq. split; rewrite Hq; unfold indexes; rewrite fmap_app; [done|].
    apply NoDup_app. split; [done|]. split; [|apply NoDup_singleton]. intros x Hx Hx'. apply list_elem_of_singleton in Hx'. by subst.
  - pose proof (settle_eq log a) as Heq. cbv zeta in Heq. rewrite Hr in Heq.
    destruct (find_pr_opened log _) as [o|]; [|done]. destruct (pr_is_landed log _); [by injection Heq as ->|].
    destruct (find_pr_queued log _); [|done]. destruct Heq as (p & log2 & n & Heq & _ & Ha & Hl). take_log Heq.
    assert (all_pr_queued log2 = List.filter (λ q, negb (bool_decide (structural_secret_scrub (settle_pr_id a) = q_pr_id q))) (all_pr_queued log)) as Hq.
    { apply all_pr_queued_settle; [|done]. rewrite (records_of_appends _ _ _ _ Ha) by by_decision. rewrite records_of_snoc. by rewrite app_nil_r. }
    split; rewrite Hq; by apply NoDup_fmap_filter.
  - apply Hsame. pose proof (abandon_eq log a) as Heq. cbv zeta in Heq. rewrite Hr in Heq.
    destruct (find_pr_opened log _) as [o|]; [|done]. destruct (pr_is_landed log _); [done|].
    destruct (find_pr_abandoned_reason log _); [by injection Heq as ->|]. destruct Heq as (p & Heq & _). take_log Heq.
    eapply (all_pr_queued_frame [PR_ABANDONED_KIND]); [apply appends_snoc; [apply appends_nil|apply list_elem_of_here]|by_decision..].
Qed.
End Spec.

(** * Examples *)

Module PullRequestExample.
Import Toy BlobsExample Codec GateList Log2 EnvelopeExample.

Definition open_args (pr : string) : OpenArgs := {|
  pr_id := pr; campaign := "c"; author_kind := AuthorHuman; run_id := None; principal := Some "human:ann";
  intent_ids := ["i1"]; commit_ids := []; at_ms := 1 |}.
Definition v_open (pr : string) : PrVerb := VOpen (open_args pr).
Definition v_land (pr : string) : PrVerb := VLand {| land_pr_id := pr; land_at := 2 |}.
Definition v_settle (pr : string) : PrVerb := VSettle {| settle_pr_id := pr; settle_at := 3; envelope_metrics := default_metrics_args |}.
Definition v_abandon (pr : string) : PrVerb := VAbandon {| abandon_pr_id := pr; reason := "late"; abandon_at := 4 |}.
Definition run_all (l : list PrVerb) : EventLog := foldl (λ log c, (run_verb log c).1) EventLog_new l.

(** Positions are handed out in order. *)
Example two_queued : indexes (all_pr_queued (run_all [v_open "p1"; v_open "p2"; v_land "p1"; v_land "p2"])) = [0; 1].
Proof. vm_compute. reflexivity. Qed.

(** The next position is the number of pull requests still queued, so after the
    first of two has settled the third is given the position of the second and
    is refused. *)
Example landing_collides :
  (run_verb (run_all [v_open "p1"; v_open "p2"; v_open "p3"; v_land "p1"; v_land "p2"; v_settle "p1"]) (v_land "p3")).2
  = Err (QueueRefused "p3" (refusal (DuplicateOrderIndex 1))).
Proof. vm_compute. reflexivity. Qed.

(** An abandoned pull request stays in the queue and can be settled as landed. *)
Example abandoned_still_queued :
  let log := run_all [v_open "p1"; v_land "p1"; v_abandon "p1"] in
  (q_pr_id <$> all_pr_queued log) = ["p1"] ∧
  pr_state (run_verb log (v_settle "p1")).1 (opened_by (open_args "p1") 0) = "landed".
Proof. split; vm_compute; reflexivity. Qed.

(** The queue items of two pull requests named by commit digests are both
    recorded as the redaction marker. *)
Example items_collapse :
  let a := "0123456789abcdef0123456789abcdef01234567" in let b := "89abcdef0123456789abcdef0123456789abcdef" in
  (q_item_id <$> all_pr_queued (run_all [v_open a; v_open b; v_land a; v_land b])) = [REDACTED; REDACTED].
Proof. vm_compute. reflexivity. Qed.

(** The model name a settlement is given reaches the log as it is. *)
Definition leaky : EnvelopeMetricsArgs := {|
  a_tokens := 0; a_cost_usd_micros := 0; a_tool_calls := 0; a_active_ms := 0; a_model_turns := 0; a_model := Some "ghp_0123";
  a_context_cas := None; a_compact_transcript_ref := None; a_raw_transcript_ref := None; a_verdicts_ref := None;
  a_full_metrics := None |}.
Example model_unscrubbed :
  let log := (run_verb (run_all [v_open "p1"; v_land "p1"])
                (VSettle {| settle_pr_id := "p1"; settle_at := 3; envelope_metrics := leaky |})).1 in
  ((λ r, (λ e, model (authorship e)) <$> envelope_from_str (payload r)) <$> records_of PR_ENVELOPE_KIND log) = [Some "ghp_0123"]
  ∧ is_secret "ghp_0123" = true.
Proof. split; vm_compute; reflexivity. Qed.

Lemma open_found_witness : let a := scrub_open_args (open_args "p1") in
  ∃ o, find_pr_opened (open EventLog_new (open_args "p1")).1 (pr_id a) = Some o ∧ o_campaign o = campaign a.
Proof.
  intros a. destruct (open EventLog_new (open_args "p1")) as [log' res] eqn:E.
  pose proof (open_found EventLog_new (open_args "p1") log' res E) as Ho.
  assert (is_ok (open EventLog_new (open_args "p1")).2 = true) as Hok by (vm_compute; reflexivity). rewrite E in Hok.
  destruct res as [v|e]; [|discriminate Hok]. destruct Ho as (o & Hf & Hc & _). exists o. split; [exact Hf|exact Hc].
Defined.

Definition before : EventLog := run_all [v_open "p1"; v_open "p2"; v_land "p1"; v_land "p2"].

Lemma verbs_only_record_witness : replay_unchecked (records (run_verb before (v_settle "p1")).1) = replay_unchecked (records before).
Proof.
  destruct (run_verb before (v_settle "p1")) as [log' res] eqn:E. cbn [fst].
  apply (verbs_only_record before (v_settle "p1") log' res); [vm_compute; discriminate|exact E].
Defined.

Lemma verbs_idempotent_witness : ∃ v, run_verb before (v_land "p2") = (before, Ok v).
Proof.
  apply (verbs_idempotent (run_all [v_open "p1"; v_open "p2"; v_land "p1"]) (v_land "p2") before
           (queued_json "p2" false 1)); [vm_compute; discriminate..|vm_compute; reflexivity].
Defined.

Lemma queue_stays_distinct_witness : queue_ok before.
Proof.
  apply (queue_stays_distinct (run_all [v_open "p1"; v_open "p2"; v_land "p1"]) (v_land "p2") before (Ok (queued_json "p2" false 1)));
    [vm_compute; discriminate|vm_compute; reflexivity|]. split; by_decision.
Defined.
End PullRequestExample.
