(* ===== verification/Policy.v ===== *)
(** The policy engine: the gates of a landing and their evaluation
    ([crates/hugit-policy/src/lib.rs], [gates/{dco,changelog,secrets}.rs]), the
    emission of a policy change, and the command that toggles a gate
    ([crates/hugit-cli/src/policy/edit.rs]).

    The typed deserializer of a gate list is the class [GatesJson].  The gates are
    related to a reading of commits, change log and files in terms of lines and of
    the credentials of [Credentials.v]; the edit is related to the gate set folded from the log. *)

From S2P Require Import Prelude Text Scan Json JsonCodec Crypto Secret Credentials Scrub Log Authz Tamper.

(** * Contexts and outcomes *)

Record EvalContext := {
  commit_messages : list string;
  commit_parent_counts : list N;
  changed_files : list string;
  file_contents : gmap string string;
  metadata : gmap string string;
}.
Definition EvalContext_new : EvalContext := {|
  commit_messages := []; commit_parent_counts := []; changed_files := []; file_contents := ∅; metadata := ∅ |}.

Inductive GateOutcome := GPass | GFail (reason : string) | GBlocked (reason : string).
Definition is_pass (o : GateOutcome) : bool := match o with GPass => true | _ => false end.
Definition blocks_landing (o : GateOutcome) : bool := negb (is_pass o).

Record GateDescriptor := { gate_id : string; description : string; enabled : bool }.

(** * The gates *)

Definition comma_join (sep : string) (l : list string) : string :=
  match l with [] => EmptyString | x :: l => foldl (λ acc y, acc +:+ sep +:+ y) x l end.
(** [{:?}] of a [Vec<usize>]. *)
Definition debug_indices (l : list nat) : string :=
  "[" +:+ comma_join ", " ((λ n, decimal (N.of_nat n)) <$> l) +:+ "]".

Definition signed_off (msg : string) : bool := existsb (λ l, starts_with l "Signed-off-by:") (lines msg).
Definition dco_missing (ctx : EvalContext) : list nat :=
  fst <$> List.filter (λ im,
    negb (2 <=? default 1 (commit_parent_counts ctx !! im.1)) && negb (signed_off im.2))
    (imap pair (commit_messages ctx)).
Definition dco_eval (ctx : EvalContext) : GateOutcome :=
  match dco_missing ctx with
  | [] => GPass
  | missing => GFail ("DCO: " +:+ decimal (N.of_nat (length missing))
      +:+ " commit(s) missing Signed-off-by: trailer (indices: " +:+ debug_indices missing +:+ ")")
  end.

Definition delimiter (c : option ascii) : bool :=
  match c with Some c => bool_decide (c ∈ ["("; ":"; "!"]%char) | None => false end.
Definition is_feat_or_fix (subject : string) : bool :=
  let s := trim subject in
  if starts_with s "feat" then delimiter (String.get 4 s)
  else if starts_with s "fix" then delimiter (String.get 3 s)
  else false.

Fixpoint unreleased_loop (in_section : bool) (ls : list string) : bool :=
  match ls with
  | [] => false
  | line :: ls =>
      if starts_with line "## [Unreleased]" then unreleased_loop true ls
      else if in_section then
        if starts_with line "## " then false
        else if decide (trim line = EmptyString) then unreleased_loop in_section ls
        else true
      else unreleased_loop in_section ls
  end.
Definition has_nonempty_unreleased (content : string) : bool := unreleased_loop false (lines content).

Definition subject_of (msg : string) : string := trim (default EmptyString (head (lines msg))).
Definition changelog_eval (ctx : EvalContext) : GateOutcome :=
  if negb (existsb (λ msg, is_feat_or_fix (subject_of msg)) (commit_messages ctx)) then GPass
  else if negb (existsb (λ f, bool_decide (f = "CHANGELOG.md")) (changed_files ctx)) then
    GFail "changelog: feat/fix commit(s) present but CHANGELOG.md was not updated; add an entry under ## [Unreleased]"
  else match file_contents ctx !! "CHANGELOG.md" with
  | None => GFail "changelog: CHANGELOG.md content not provided in eval context"
  | Some content =>
      if has_nonempty_unreleased content then GPass
      else GFail "changelog: ## [Unreleased] section is empty; add at least one entry"
  end.

Section Engine.
Context `{Libm}.

(** The two lists of [secrets::eval]: the files with a hit and the files without
    content. *)
Definition secrets_scan (ctx : EvalContext) : list string * list string :=
  foldl (λ '(hits, missing) path,
    match file_contents ctx !! path with
    | Some content =>
        (if decide (redact_apply content ≠ content) then hits ++ [path +:+ ": matched secret pattern"] else hits, missing)
    | None => (hits, missing ++ [path])
    end) ([], []) (changed_files ctx).
Definition secrets_eval (ctx : EvalContext) : GateOutcome :=
  let '(hits, missing) := secrets_scan ctx in
  match missing with
  | _ :: _ => GBlocked ("secrets: " +:+ decimal (N.of_nat (length missing))
      +:+ " changed file(s) have no content in eval context (cannot scan — fail-closed): " +:+ comma_join ", " missing)
  | [] =>
      match hits with
      | [] => GPass
      | _ => GFail ("secrets: " +:+ decimal (N.of_nat (length hits))
          +:+ " file(s) contain suspected secret patterns: " +:+ comma_join "; " hits)
      end
  end.

(** * The engine *)

Definition house_gates : list GateDescriptor := [
  {| gate_id := "dco"; description := "Every non-merge commit must carry a Signed-off-by: trailer (DCO)."; enabled := true |};
  {| gate_id := "changelog"; description := "feat/fix commits require a non-empty ## [Unreleased] section in CHANGELOG.md."; enabled := true |};
  {| gate_id := "secrets"; description := "No commit may introduce obvious secret patterns (API keys, tokens, passwords)."; enabled := true |} ].

Record Engine := { gates : list GateDescriptor; registry : gmap string (EvalContext → GateOutcome) }.
Definition house : Engine := {|
  gates := house_gates;
  registry := <["secrets" := secrets_eval]> (<["changelog" := changelog_eval]> (<["dco" := dco_eval]> ∅)) |}.

Definition eval (e : Engine) (ctx : EvalContext) : list (string * GateOutcome) :=
  (λ g, (gate_id g, match registry e !! gate_id g with
    | Some f => f ctx
    | None => GBlocked ("gate '" +:+ gate_id g +:+ "' has no registered evaluator (fail-closed)")
    end)) <$> List.filter enabled (gates e).
Definition eval_closed (gate_ids : list string) : list (string * GateOutcome) :=
  (λ id, (id, GBlocked "policy engine unavailable (fail-closed)")) <$> gate_ids.
Definition all_pass (outcomes : list (string * GateOutcome)) : bool := forallb (λ o, is_pass o.2) outcomes.
Definition any_blocks (outcomes : list (string * GateOutcome)) : bool := existsb (λ o, blocks_landing o.2) outcomes.
Definition landing_gate_check (engine : option Engine) (ctx : EvalContext) (known : list string)
    : list (string * GateOutcome) :=
  match engine with Some e => eval e ctx | None => eval_closed known end.
End Engine.

(** * Policy changes *)

Definition POLICY_CHANGE_KIND : string := "policy.change".
Inductive PolicyEmitError := PolicyDenied (reason : DenyReason) | BadPriorChain.

(** The error every campaign and policy command reports. *)
Record CampaignError := {
  err_kind : string; err_message : string; err_fix : string; err_context : list (string * Value);
  err_internal : bool }.
Definition CampaignError_new (kind message fix_ : string) : CampaignError := {|
  err_kind := kind; err_message := message; err_fix := fix_; err_context := []; err_internal := false |}.
Definition with_context (e : CampaignError) (key : string) (v : Value) : CampaignError := {|
  err_kind := err_kind e; err_message := err_message e; err_fix := err_fix e;
  err_context := err_context e ++ [(key, v)]; err_internal := err_internal e |}.

(** The derived printer and reader of a gate list. *)
Class GatesJson := {
  gates_to_string : list GateDescriptor → string;
  gates_from_str : string → option (list GateDescriptor);
}.
#[export] Instance gates_codec `{GatesJson} : GateCodec := {|
  is_gate_list s := bool_decide (is_Some (gates_from_str s)) |}.

Section Changes.
Context `{Crypto} `{SerdeJson} `{Libm} `{GatesJson}.

Definition emit_policy_change (log : list EventRecord) (class : PrincipalClass)
    (principal old_gates_json new_gates_json : string) : list EventRecord * result PolicyEmitError EventRecord :=
  let payload_raw := to_string (json_object [("old", Str old_gates_json); ("new", Str new_gates_json)]) in
  let payload := default payload_raw (canonical_json payload_raw) in
  match push_records EventLog_new log with
  | Err _ => (log, Err BadPriorChain)
  | Ok event_log =>
      match (append_authorized event_log class Policy POLICY_CHANGE_KIND [principal] payload 0).2 with
      | Ok event => (log ++ [event], Ok event)
      | Err denied => (log ++ [denied_audit denied], Err (PolicyDenied (denied_reason denied)))
      end
  end.

(** The gate set of a log: the house set under the changes recorded since. *)
Definition change_gates (current : list GateDescriptor) (r : EventRecord) : list GateDescriptor :=
  if decide (kind r = POLICY_CHANGE_KIND) then
    default current (v ← from_str (payload r); new_str ← field_str v "new"; gates_from_str new_str)
  else current.
Definition current_gates (log : EventLog) : list GateDescriptor := foldl change_gates house_gates (records log).

Record EditArgs := { gate : string; enable : bool; disable : bool; principal : option string }.

Definition set_enabled (g : GateDescriptor) (b : bool) : GateDescriptor := {|
  gate_id := gate_id g; description := description g; enabled := b |}.
Definition edit_report (gate : string) (target changed : bool) (seq : option N) : Value :=
  json_object ([("gate", Str gate); ("enabled", Bool target); ("changed", Bool changed)]
    ++ match seq with Some n => [("seq", Number (PosInt n))] | None => [] end).

(** The edit to a target state, on the log the lock of the command protects; the
    log is written back when the report says the gate set changed. *)
Definition edit_to (log : EventLog) (args : EditArgs) (target : bool) : EventLog * result CampaignError Value :=
  let who := default "user:cli" (scrub <$> principal args) in
  if decide (classify who ≠ Some Human) then
    (log, Err (CampaignError_new "authz_denied"
      "policy.edit denied: policy is Human-only and the given principal is not a human"
      "policy edits must be issued by a human (`--principal user:<name>` or `human:<name>`); an orchestrator/agent/model principal is refused fail-closed"))
  else
    let current := current_gates log in
    match list_find (λ g, gate_id g = gate args) current with
    | None =>
        (log, Err (with_context (CampaignError_new "unknown_gate"
          ("'" +:+ scrub (gate args) +:+ "' is not a house gate") "the house gate set is dco | changelog | secrets")
          "known_gates" (Array (Str <$> (gate_id <$> current)))))
    | Some (idx, g) =>
        if decide (enabled g = target) then (log, Ok (edit_report (gate args) target false None))
        else
          let new := <[idx := set_enabled g target]> current in
          let payload := scrub_to_canonical
            (json_object [("old", Str (gates_to_string current)); ("new", Str (gates_to_string new))]) in
          match append_authorized log Human Policy POLICY_CHANGE_KIND [who] payload 0 with
          | (log, Ok record) => (log, Ok (edit_report (gate args) target true (Some (seq record))))
          | (_, Err denied) =>
              (log, Err (CampaignError_new "authz_denied"
                ("policy.change denied by D14 guard: " +:+ reason_code (denied_reason denied) +:+ " (policy is Human-only)")
                "policy edits must be made by a human (`--principal user:<name>` or `human:<name>`); an orchestrator/agent/model principal is refused"))
          end
    end.

Definition policy_edit (log : EventLog) (args : EditArgs) : EventLog * result CampaignError Value :=
  match enable args, disable args with
  | true, false => edit_to log args true
  | false, true => edit_to log args false
  | _, _ => (log, Err (CampaignError_new "invalid_argument" "pass exactly one of --enable or --disable"
      "e.g. `hugit policy edit --log L --gate dco --disable`"))
  end.
End Changes.

(** * What the house gates ask of a change *)

Definition headed (p line : string) : Prop := ∃ rest, line = p +:+ rest.
Definition heading (line : string) : Prop := headed "## [Unreleased]" line.

Definition merge_commit (ctx : EvalContext) (i : nat) : Prop := ∃ n, commit_parent_counts ctx !! i = Some n ∧ 2 ≤ n.
(** Every commit that is not a merge has a sign-off line. *)
Definition signed (ctx : EvalContext) : Prop := ∀ i msg, commit_messages ctx !! i = Some msg →
  merge_commit ctx i ∨ ∃ line, line ∈ lines msg ∧ headed "Signed-off-by:" line.

(** The first unreleased section has an entry: a line that is not blank, before the
    next heading of the second level.  A heading of a lower level is such a line, as
    it is for the script the gate mirrors. *)
Definition has_entry (ls : list string) : Prop := ∃ mid line post, ls = mid ++ line :: post ∧
  Forall (λ l, heading l ∨ ¬ headed "## " l) mid ∧ ¬ headed "## " line ∧ trim line ≠ EmptyString.
Definition unreleased_entry (content : string) : Prop := ∃ pre h body, lines content = pre ++ h :: body ∧
  Forall (λ l, ¬ heading l) pre ∧ heading h ∧ has_entry body.

(** A commit whose subject, the first line without the blanks around it, is [feat]
    or [fix] and then a parenthesis, a colon or an exclamation mark. *)
Definition feature_or_fix (msg : string) : Prop := ∃ first more word mark title, lines msg = first :: more ∧
  trim first = word +:+ String mark title ∧ (word = "feat" ∨ word = "fix") ∧ mark ∈ ["("; ":"; "!"]%char.

(** A change with a feature or a fix updates the change log. *)
Definition logged (ctx : EvalContext) : Prop :=
  (∃ msg, msg ∈ commit_messages ctx ∧ feature_or_fix msg) →
  "CHANGELOG.md" ∈ changed_files ctx ∧
  ∃ content, file_contents ctx !! "CHANGELOG.md" = Some content ∧ unreleased_entry content.

Lemma delimiter_at word s : (starts_with s word = true ∧ delimiter (String.get (String.length word) s) = true) ↔
  ∃ mark title, s = word +:+ String mark title ∧ mark ∈ ["("; ":"; "!"]%char.
Proof.
  assert (∀ t, String.get (String.length word) (word +:+ t) = String.get 0 t) as Hget.
  { intros t. induction word as [|c word IH]; [done|]. rewrite string_app_cons. apply IH. }
  rewrite starts_with_true. split.
  - intros [[t ->] Hd]. rewrite Hget in Hd. destruct t as [|mark title]; [done|]. apply bool_decide_eq_true in Hd. by exists mark, title.
  - intros (mark & title & -> & Hm). rewrite Hget. split; [by exists (String mark title)|]. by apply bool_decide_eq_true.
Qed.
Lemma feature_or_fix_iff msg : is_feat_or_fix (subject_of msg) = true ↔ feature_or_fix msg.
Proof.
  unfold feature_or_fix, subject_of. destruct (lines msg) as [|first more].
  { split; [done|]. by intros (? & ? & ? & ? & ? & ? & _). }
  unfold is_feat_or_fix. cbn [head default from_option id]. rewrite trim_idemp.
  pose proof (delimiter_at "feat" (trim first)) as Hfeat. pose proof (delimiter_at "fix" (trim first)) as Hfix.
  cbn [String.length] in Hfeat, Hfix. destruct (starts_with (trim first) "feat") eqn:Ef.
  - split.
    + intros Hd. destruct (proj1 Hfeat (conj eq_refl Hd)) as (mark & title & Ht & Hm). exists first, more, "feat", mark, title. auto.
    + intros (? & ? & word & mark & title & [= <- <-] & Ht & [->| ->] & Hm); [apply Hfeat; eauto|].
      rewrite Ht in Ef. by vm_compute in Ef.
  - destruct (starts_with (trim first) "fix") eqn:Ex.
    + split.
      * intros Hd. destruct (proj1 Hfix (conj eq_refl Hd)) as (mark & title & Ht & Hm). exists first, more, "fix", mark, title. auto.
      * intros (? & ? & word & mark & title & [= <- <-] & Ht & [->| ->] & Hm); [|apply Hfix; eauto].
        destruct (proj2 Hfeat) as [? _]; [eauto|congruence].
    + split; [done|]. intros (? & ? & word & mark & title & [= <- <-] & Ht & [->| ->] & Hm);
        [destruct (proj2 Hfeat) as [? _]|destruct (proj2 Hfix) as [? _]]; eauto; congruence.
Qed.

Lemma heading_section line : heading line → headed "## " line.
Proof. intros [rest ->]. by exists ("[Unreleased]" +:+ rest). Qed.

Lemma starts_headed p line : starts_with line p = true ↔ headed p line.
Proof. apply starts_with_true. Qed.
Lemma starts_headed_false p line : starts_with line p = false ↔ ¬ headed p line.
Proof. rewrite <- starts_headed. by destruct (starts_with line p). Qed.

Lemma has_entry_cons line ls : (heading line ∨ ¬ headed "## " line) → has_entry ls → has_entry (line :: ls).
Proof.
  intros Hl (mid & l & post & -> & Hm & Hs & Ht). exists (line :: mid), l, post. split_and!; try done. by constructor.
Qed.

Lemma unreleased_in_section ls : unreleased_loop true ls = true ↔ has_entry ls.
Proof.
  induction ls as [|line ls IH]; simpl.
  { split; [done|]. by intros ([|] & ? & ? & ? & _). }
  destruct (starts_with line "## [Unreleased]") eqn:Hu.
  - apply starts_headed in Hu. rewrite IH. split; [apply has_entry_cons; auto|].
    intros ([|l mid] & line' & post & [= <- ->] & Hm & Hs & Ht); [by destruct Hs; apply heading_section|].
    apply Forall_cons in Hm as [_ Hm]. exists mid, line', post. done.
  - destruct (starts_with line "## ") eqn:Hs.
    + apply starts_headed in Hs. apply starts_headed_false in Hu. split; [done|].
      intros ([|l mid] & line' & post & [= <- ->] & Hm & Hs' & Ht); [done|].
      apply Forall_cons in Hm as [[?|?] _]; done.
    + apply starts_headed_false in Hs. case_decide as Ht; [|split; [|done]].
      * rewrite IH. split; [apply has_entry_cons; auto|].
        intros ([|l mid] & line' & post & [= <- ->] & Hm & Hs' & Ht'); [done|].
        apply Forall_cons in Hm as [_ Hm]. exists mid, line', post. done.
      * intros _. exists [], line, ls. by split_and!.
Qed.

Lemma has_nonempty_unreleased_iff content : has_nonempty_unreleased content = true ↔ unreleased_entry content.
Proof.
  unfold has_nonempty_unreleased, unreleased_entry. induction (lines content) as [|line ls IH]; simpl.
  { split; [done|]. by intros ([|] & ? & ? & ? & _). }
  destruct (starts_with line "## [Unreleased]") eqn:Hu.
  - apply starts_headed in Hu. rewrite unreleased_in_section. split.
    + intros He. exists [], line, ls. by split_and!.
    + intros ([|l pre] & h & body & [= <- ->] & Hp & Hh & He); [done|]. by apply Forall_cons in Hp as [? _].
  - apply starts_headed_false in Hu. rewrite IH. split.
    + intros (pre & h & body & -> & Hp & Hh & He). exists (line :: pre), h, body. split_and!; try done. by constructor.
    + intros ([|l pre] & h & body & [= <- ->] & Hp & Hh & He); [done|].
      apply Forall_cons in Hp as [_ Hp]. by exists pre, h, body.
Qed.

Lemma existsb_elem {A} (p : A → bool) l : existsb p l = true ↔ ∃ x, x ∈ l ∧ p x = true.
Proof. rewrite existsb_exists. by setoid_rewrite <- list_elem_of_In. Qed.

Lemma signed_off_iff msg : signed_off msg = true ↔ ∃ line, line ∈ lines msg ∧ headed "Signed-off-by:" line.
Proof. unfold signed_off. rewrite existsb_elem. by setoid_rewrite starts_headed. Qed.

Lemma merge_commit_dec ctx i : merge_commit ctx i ∨ ¬ merge_commit ctx i.
Proof.
  unfold merge_commit. destruct (commit_parent_counts ctx !! i) as [n|]; [|right; by intros (? & ? & _)].
  destruct (decide (2 ≤ n)); [left; eauto|right]. by intros (? & [= <-] & ?).
Qed.

Lemma dco_missing_elem ctx i : i ∈ dco_missing ctx ↔ ∃ msg, commit_messages ctx !! i = Some msg ∧
  ¬ merge_commit ctx i ∧ signed_off msg = false.
Proof.
  unfold dco_missing. rewrite list_elem_of_fmap. split.
  - intros ([j msg] & -> & Hin). apply list_elem_of_In, filter_In in Hin as [Hin%list_elem_of_In Hp]. simpl in *.
    apply list_elem_of_lookup in Hin as [k Hk]. apply list_lookup_imap_Some in Hk as (m & Hm & [= -> ->]).
    apply andb_true_iff in Hp as [Hp%negb_true_iff%N.leb_gt Hs%negb_true_iff].
    exists m. split_and!; try done. intros (n & Hn & ?). rewrite Hn in Hp. simpl in Hp. lia.
  - intros (msg & Hm & Hc & Hs). exists (i, msg). split; [done|]. apply list_elem_of_In, filter_In. split.
    + apply list_elem_of_In, list_elem_of_lookup. exists i. apply list_lookup_imap_Some. eauto.
    + simpl. rewrite Hs. apply andb_true_iff. split; [|done]. apply negb_true_iff, N.leb_gt.
      destruct (commit_parent_counts ctx !! i) as [n|] eqn:Hn; simpl; [|lia].
      destruct (decide (2 ≤ n)); [|lia]. by destruct Hc; exists n.
Qed.

Lemma dco_pass_iff ctx : is_pass (dco_eval ctx) = true ↔ signed ctx.
Proof.
  transitivity (dco_missing ctx = []); [unfold dco_eval; by destruct (dco_missing ctx)|]. split.
  - intros He i msg Hm. destruct (merge_commit_dec ctx i) as [|Hc]; [by left|].
    right. apply signed_off_iff. destruct (signed_off msg) eqn:Hs; [done|].
    assert (i ∈ dco_missing ctx) as Hin by (apply dco_missing_elem; eauto). rewrite He in Hin. by apply not_elem_of_nil in Hin.
  - intros Hs. destruct (dco_missing ctx) as [|i l] eqn:He; [done|].
    assert (i ∈ dco_missing ctx) as (msg & Hm & Hc & Hn)%dco_missing_elem by (rewrite He; left).
    destruct (Hs i msg Hm) as [?|Hl%signed_off_iff]; [done|congruence].
Qed.

Lemma changelog_pass_iff ctx : is_pass (changelog_eval ctx) = true ↔ logged ctx.
Proof.
  unfold changelog_eval, logged. destruct (existsb _ (commit_messages ctx)) eqn:Hf; simpl.
  2: { split; [|done]. intros _ Hm. apply not_true_iff_false in Hf. destruct Hf. apply existsb_elem.
       by setoid_rewrite feature_or_fix_iff. }
  apply existsb_elem in Hf. setoid_rewrite feature_or_fix_iff in Hf. destruct (existsb _ (changed_files ctx)) eqn:Hc; simpl.
  2: { split; [done|]. intros Hl. destruct (Hl Hf) as [Hin _]. apply not_true_iff_false in Hc. destruct Hc.
       apply existsb_elem. exists "CHANGELOG.md". split; [done|]. by apply bool_decide_eq_true. }
  apply existsb_elem in Hc as (f & Hc & ->%bool_decide_eq_true).
  destruct (file_contents ctx !! "CHANGELOG.md") as [content|] eqn:Hg; simpl.
  - destruct (has_nonempty_unreleased content) eqn:He; simpl.
    + apply has_nonempty_unreleased_iff in He. split; [eauto|done].
    + split; [done|]. intros Hl. destruct (Hl Hf) as (_ & ? & [= <-] & He'%has_nonempty_unreleased_iff). congruence.
  - split; [done|]. intros Hl. by destruct (Hl Hf) as (_ & ? & ? & _).
Qed.

Section House.
Context `{Libm}.

(** Every changed file is given, and carries no credential. *)
Definition secret_free (ctx : EvalContext) : Prop := ∀ path, path ∈ changed_files ctx →
  ∃ content, file_contents ctx !! path = Some content ∧ ¬ credential content.

Lemma redact_apply_same s : redact_apply s = s ↔ ¬ credential s.
Proof.
  rewrite <- not_credential_iff. split; [|intros Hs; unfold redact_apply; by rewrite Hs]. intros <-. apply redact_apply_clean.
Qed.

Lemma secrets_scan_clean ctx hits missing :
  foldl (λ '(hits, missing) path,
    match file_contents ctx !! path with
    | Some content =>
        (if decide (redact_apply content ≠ content) then hits ++ [path +:+ ": matched secret pattern"] else hits, missing)
    | None => (hits, missing ++ [path])
    end) (hits, missing) (changed_files ctx) = ([], []) ↔ hits = [] ∧ missing = [] ∧ secret_free ctx.
Proof.
  unfold secret_free. revert hits missing. induction (changed_files ctx) as [|p ps IH]; intros hits missing; simpl.
  { split; [intros [= -> ->]; set_solver|by intros (-> & -> & _)]. }
  destruct (file_contents ctx !! p) as [c|] eqn:Hp; rewrite IH.
  - case_decide as Hr; rewrite redact_apply_same in Hr.
    + split; [by intros ([_ ?]%app_nil & _)|]. intros (_ & _ & Hs). destruct Hr.
      destruct (Hs p) as (? & [= <-]%(eq_trans (eq_sym Hp)) & ?); [left|done].
    + split; intros (-> & -> & Hs); (split_and!; [done..|]).
      * intros q [->|Hq]%elem_of_cons; [|by apply Hs]. exists c. split; [done|]. by destruct (is_secret c).
      * intros q Hq. apply Hs. by right.
  - split; [by intros (_ & [_ ?]%app_nil & _)|]. intros (_ & _ & Hs).
    destruct (Hs p) as (? & Hc & _); [left|congruence].
Qed.

Lemma secrets_pass_iff ctx : is_pass (secrets_eval ctx) = true ↔ secret_free ctx.
Proof.
  transitivity (secrets_scan ctx = ([], [])).
  - unfold secrets_eval. destruct (secrets_scan ctx) as [[|h hits] [|m missing]]; by split.
  - unfold secrets_scan. rewrite secrets_scan_clean. naive_solver.
Qed.

(** C33. The house engine lets a change land exactly when every commit that is not known
    to be a merge has a sign-off line; when, should the subject of a commit be
    [feat] or [fix] and one of the three marks, the change log is among the changed
    files and its first unreleased section has a line that is not blank before the
    next heading of the second level (a lower heading is such a line); and when the
    content of every changed file was given and carries no credential: none of the
    listed structures and no dense run ([credential] of [Credentials.v]). *)
Theorem house_allows_iff ctx : all_pass (eval house ctx) = true ↔ signed ctx ∧ logged ctx ∧ secret_free ctx.
Proof.
  rewrite <- dco_pass_iff, <- changelog_pass_iff, <- secrets_pass_iff.
  unfold all_pass, eval. simpl. rewrite !andb_true_iff. naive_solver.
Qed.

(** The landing check fails closed: with an engine, every enabled gate has an
    evaluator and it passes; without one, nothing passes that names a gate. *)
Theorem landing_allows_iff engine ctx known :
  all_pass (landing_gate_check engine ctx known) = true ↔
  match engine with
  | Some e => ∀ g, g ∈ gates e → enabled g = true → ∃ f, registry e !! gate_id g = Some f ∧ f ctx = GPass
  | None => known = []
  end.
Proof.
  unfold all_pass, landing_gate_check. destruct engine as [e|]; rewrite forallb_forall; setoid_rewrite <- list_elem_of_In.
  - unfold eval. setoid_rewrite list_elem_of_fmap. split.
    + intros Ha g Hg He. specialize (Ha (gate_id g, match registry e !! gate_id g with
        | Some f => f ctx | None => GBlocked ("gate '" +:+ gate_id g +:+ "' has no registered evaluator (fail-closed)") end)).
      destruct (registry e !! gate_id g) as [f|] eqn:Hf.
      * exists f. split; [done|]. assert (is_pass (f ctx) = true); [|by destruct (f ctx)]. apply Ha.
        exists g. rewrite Hf. split; [done|]. apply list_elem_of_In, filter_In. by rewrite <- list_elem_of_In.
      * enough (false = true) by done. apply Ha. exists g. rewrite Hf. split; [done|].
        apply list_elem_of_In, filter_In. by rewrite <- list_elem_of_In.
    + intros Ha x (g & -> & Hg). apply list_elem_of_In, filter_In in Hg as [Hg%list_elem_of_In He].
      destruct (Ha g Hg He) as (f & -> & Hf). simpl. by rewrite Hf.
  - unfold eval_closed. destruct known as [|id known]; [split; [done|set_solver]|]. split; [|done].
    intros Ha. enough (false = true) by done. apply (Ha (id, GBlocked "policy engine unavailable (fail-closed)")). left.
Qed.
End House.

(** * Changes of the policy *)

Section Emission.
Context `{Crypto} `{SerdeJsonLaws}.

Definition change_doc (old new : string) : Value := json_object [("old", Str old); ("new", Str new)].
Lemma change_doc_plain old new : plain (change_doc old new) = true.
Proof. apply plain_object. by repeat constructor. Qed.

Lemma canonical_read v : plain v = true → from_str (default (to_string v) (canonical_json (to_string v))) = Some v.
Proof.
  intros Hp. unfold canonical_json. rewrite from_str_to_string by done. simpl.
  unfold plain in Hp. apply andb_true_iff in Hp as [Hs Hu].
  rewrite canonicalize_sorted_id by done. apply from_str_to_string. unfold plain. by rewrite Hs, Hu.
Qed.

(** A policy change is recorded for a human and for nobody else.  On a log whose
    positions are its sequence numbers one record is added: the change with the
    two gate lists, or the denial of it; an intact log stays intact.  Any other log
    is refused and left alone. *)
Theorem policy_change_guarded log class who old new :
  let '(log', res) := emit_policy_change log class who old new in
  (contiguous log → ∃ r, log' = log ++ [r] ∧ principal_chain r = [who] ∧ (intact log → intact log') ∧
     if decide (class = Human)
     then res = Ok r ∧ kind r = POLICY_CHANGE_KIND ∧ from_str (payload r) = Some (change_doc old new)
     else res = Err (PolicyDenied (NotPermitted class)) ∧ kind r = AUTHZ_DENIED_KIND) ∧
  (¬ contiguous log → log' = log ∧ res = Err BadPriorChain).
Proof.
  unfold emit_policy_change. destruct (push_records EventLog_new log) as [l|e] eqn:Hp.
  - apply push_records_ok in Hp as [-> Hc]. fold (change_doc old new).
    set (p := default _ _). assert (from_str p = Some (change_doc old new)) as Hr by apply canonical_read, change_doc_plain.
    destruct class; cbn; (split; [|done]); intros _; eexists; (split; [reflexivity|]); (split; [reflexivity|]);
      (split; [intros Hi; apply (intact_append {| records := log |}); [by_decision|done]|]); by repeat split.
  - split; [|done]. intros Hc.
    assert (push_records EventLog_new log = Ok {| records := log |}) by (by apply push_records_ok). congruence.
Qed.
End Emission.

(** * The edit *)

Definition gate_value (g : GateDescriptor) : Value :=
  json_object [("id", Str (gate_id g)); ("description", Str (description g)); ("enabled", Bool (enabled g))].
Definition gates_value (gs : list GateDescriptor) : Value := Array (gate_value <$> gs).

(** What is relied on of the derived codec: it prints a list as the document of its
    fields, and reads that document in any layout. *)
Class GatesJsonLaws `{SerdeJson} `{GatesJson} := {
  gates_printed gs : from_str (gates_to_string gs) = Some (gates_value gs);
  gates_read s gs : from_str s = Some (gates_value gs) → gates_from_str s = Some gs;
}.

Section Edit.
Context `{Crypto} `{SerdeJsonLaws} `{Libm} `{GatesJson} `{!GatesJsonLaws}.

(** A gate the scrubbing of a payload leaves as it is. *)
Definition kept (g : GateDescriptor) : Prop :=
  is_safe_identifier_shape (gate_id g) = true ∧ is_secret (description g) = false.

Lemma set_enabled_kept g b : kept g → kept (set_enabled g b).
Proof. done. Qed.

Lemma gates_value_plain gs : plain (gates_value gs) = true.
Proof.
  unfold plain, gates_value. apply andb_true_iff. cbn [sorted_doc only_u64].
  split; induction gs as [|g gs IH]; simpl; [done..|]; done.
Qed.

Lemma scrub_gate_value fuel g : kept g → scrub_value fuel FreeText (gate_value g) = gate_value g.
Proof.
  intros [Hi Hd]. unfold gate_value. cbn [json_object obj_of_list fold_left obj_insert fst snd].
  change (json_object _) with (Object [("description", Str (description g)); ("enabled", Bool (enabled g)); ("id", Str (gate_id g))]).
  rewrite scrub_value_Object. cbn [map fst snd].
  change (scrub_mode "description" (Str (description g))) with FreeText.
  change (scrub_mode "enabled" (Bool (enabled g))) with FreeText.
  change (scrub_mode "id" (Str (gate_id g))) with Structural.
  rewrite !scrub_value_Str, scrub_value_scalar by done. unfold scrub, redact_apply, structural_secret_scrub.
  by rewrite Hi, Hd.
Qed.

Lemma scrub_gates_value fuel gs : Forall kept gs → scrub_value fuel FreeText (gates_value gs) = gates_value gs.
Proof.
  intros Hk. unfold gates_value. rewrite scrub_value_Array. apply (f_equal Array).
  induction Hk as [|g gs Hg Hk IH]; [done|]. cbn [fmap list_fmap map]. rewrite scrub_gate_value by done. by f_equal.
Qed.

Lemma change_payload_read old new : Forall kept new →
  ∃ v, from_str (scrub_to_canonical (change_doc (gates_to_string old) (gates_to_string new))) = Some v ∧
    field_str v "new" ≫= gates_from_str = Some new.
Proof.
  intros Hk. eexists. split; [apply scrub_to_canonical_read, change_doc_plain|].
  unfold change_doc. change (json_object _) with (Object [("new", Str (gates_to_string new)); ("old", Str (gates_to_string old))]).
  unfold field_str. rewrite scrub_payload_get. cbn [obj_get]. rewrite decide_True by done. cbn [fmap option_fmap option_map].
  assert (gates_from_str (gates_to_string new) = Some new) as Hr by apply gates_read, gates_printed.
  assert (is_gate_list (gates_to_string new) = true) as Hl.
  { unfold is_gate_list. simpl. rewrite Hr. by apply bool_decide_eq_true. }
  assert (scrub_mode "new" (Str (gates_to_string new)) = SerializedPolicyGates) as ->.
  { unfold scrub_mode, holds_gates. by rewrite Hl. }
  generalize (longest (Object [("new", Str (gates_to_string new)); ("old", Str (gates_to_string old))])). intros fuel.
  cbn [scrub_value]. rewrite Hl, gates_printed, scrub_gates_value by done. cbn [as_str mbind option_bind].
  apply gates_read, from_str_to_string, gates_value_plain.
Qed.

Lemma list_find_set_enabled id gs idx g b : list_find (λ g, gate_id g = id) gs = Some (idx, g) →
  list_find (λ g, gate_id g = id) (<[idx := set_enabled g b]> gs) = Some (idx, set_enabled g b).
Proof.
  rewrite !list_find_Some. intros (Hg & Hid & Hf). split_and!; [|done|].
  - apply list_lookup_insert_eq. by eapply lookup_lt_Some.
  - intros j y Hj Hlt. rewrite list_lookup_insert_ne in Hj by lia. by eapply Hf.
Qed.

(** What an edit did: the named gate is in the requested state and every other is
    as before, by one record of a human unless it was there already. *)
Definition toggled (log : EventLog) (id : string) (target : bool) (log' : EventLog) : Prop := ∃ idx g,
  list_find (λ g, gate_id g = id) (current_gates log) = Some (idx, g) ∧
  current_gates log' = <[idx := set_enabled g target]> (current_gates log) ∧
  if decide (enabled g = target) then log' = log
  else ∃ r who, records log' = records log ++ [r] ∧ kind r = POLICY_CHANGE_KIND ∧
    principal_chain r = [who] ∧ classify who = Some Human.

Lemma edit_to_toggles log args target log' report : Forall kept (current_gates log) →
  edit_to log args target = (log', Ok report) →
  toggled log (gate args) target log' ∧ (intact (records log) → intact (records log')) ∧
  (edit_to log' args target).1 = log'.
Proof.
  intros Hk. unfold edit_to at 1. set (who := default "user:cli" _).
  case_decide as Hw; [done|]. 
  destruct (list_find _ (current_gates log)) as [[idx g]|] eqn:Hf; [|done]. pose proof Hf as (Hg & Hid & _)%list_find_Some.
  case_decide as He.
  - intros [= <- <-]. split_and!; [|done|].
    + exists idx, g. rewrite decide_True by done. split_and!; [done| |done].
      symmetry. apply list_insert_id. rewrite Hg. f_equal. destruct g. simpl in *. by subst.
    + unfold edit_to. fold who. rewrite (decide_False (P := classify who ≠ Some Human)) by (intros Hn; by apply Hn). rewrite Hf. by rewrite decide_True.
  - fold (change_doc (gates_to_string (current_gates log)) (gates_to_string (<[idx := set_enabled g target]> (current_gates log)))).
    unfold append_authorized. change (authorize_class Human Policy) with Allow. cbn [append].
    set (p := scrub_to_canonical _). set (r := next_record log POLICY_CHANGE_KIND [who] p 0). intros [= <- _].
    assert (current_gates {| records := records log ++ [r] |} = <[idx := set_enabled g target]> (current_gates log)) as Hcur.
    { unfold current_gates at 1. simpl. rewrite foldl_snoc. fold (current_gates log). unfold change_gates. rewrite decide_True by done.
      destruct (change_payload_read (current_gates log) (<[idx := set_enabled g target]> (current_gates log))) as (v & Hv & Hn).
      - apply Forall_insert; [done|]. apply set_enabled_kept. by eapply Forall_lookup_1.
      - change (payload r) with p. unfold p. rewrite Hv. by apply (f_equal (default (current_gates log))) in Hn. }
    split_and!.
    + exists idx, g. rewrite decide_False by done. split_and!; [done..|]. exists r, who. by split_and!.
    + intros Hi. by apply (intact_append log POLICY_CHANGE_KIND [who] p 0).
    + unfold edit_to. fold who. rewrite (decide_False (P := classify who ≠ Some Human)) by (intros Hn; by apply Hn). rewrite Hcur.
      rewrite (list_find_set_enabled _ _ _ _ _ Hf). by rewrite decide_True.
Qed.

(** An accepted edit of the policy leaves the folded gate set with the named gate
    in the requested state and nothing else changed; it is recorded once, by a
    human, in a log that stays intact, and repeating it changes nothing. *)
Theorem policy_edit_toggles log args log' report : Forall kept (current_gates log) →
  policy_edit log args = (log', Ok report) →
  disable args = negb (enable args) ∧ toggled log (gate args) (enable args) log' ∧
  (intact (records log) → intact (records log')) ∧ (policy_edit log' args).1 = log'.
Proof.
  intros Hk. unfold policy_edit. destruct (enable args), (disable args); intros Hr; try done;
    (split; [done|]); by apply edit_to_toggles in Hr.
Qed.
End Edit.

Module PolicyExample.
Import Toy Log2 TamperExample.
#[local] Existing Instance Codec.codec.
#[local] Existing Instance Codec.codec_laws.

Definition gate_of_value (v : Value) : option GateDescriptor :=
  id ← field_str v "id"; d ← field_str v "description"; e ← value_get v "enabled" ≫= as_bool;
  Some {| gate_id := id; description := d; enabled := e |}.
Definition gates_of_value (v : Value) : option (list GateDescriptor) :=
  match v with Array l => mapM gate_of_value l | _ => None end.
#[export] Instance gates_json : GatesJson := {|
  gates_to_string gs := to_string (gates_value gs);
  gates_from_str s := from_str s ≫= gates_of_value |}.
#[export] Instance gates_json_laws : GatesJsonLaws.
Proof.
  split.
  - intros gs. apply from_str_to_string, gates_value_plain.
  - intros s gs Hs. change (gates_from_str s) with (from_str s ≫= gates_of_value). rewrite Hs. clear Hs.
    change (mapM gate_of_value (gate_value <$> gs) = Some gs).
    apply mapM_Some_2. induction gs as [|[i d e] gs IH]; [constructor|]. cbn [fmap list_fmap]. by constructor.
Qed.

Definition off : EditArgs := {| gate := "dco"; enable := false; disable := true; principal := Some "user:alice" |}.
Lemma policy_edit_toggles_witness :
  toggled EventLog_new "dco" false (policy_edit EventLog_new off).1.
Proof.
  refine (proj1 (proj2 (policy_edit_toggles EventLog_new off (policy_edit EventLog_new off).1
    (edit_report "dco" false true (Some 0)) _ _))).
  - repeat constructor; vm_compute; reflexivity.
  - vm_compute. reflexivity.
Defined.

(** The engine of the landing path and of [policy test] is the house set, whatever
    was edited: a gate that was disabled is still enforced. *)
Definition unsigned : EvalContext := {|
  commit_messages := ["docs: x"]; commit_parent_counts := []; changed_files := []; file_contents := ∅; metadata := ∅ |}.
Example edit_not_enforced :
  enabled <$> current_gates (policy_edit EventLog_new off).1 = [false; true; true] ∧
  all_pass (eval house unsigned) = false.
Proof. split; vm_compute; reflexivity. Qed.

(** Without an engine and without a known gate the landing is not blocked. *)
Example no_engine_no_gate : any_blocks (landing_gate_check None unsigned []) = false.
Proof. reflexivity. Qed.
Example empty_heading_passes :
  unreleased_loop false ["## [Unreleased]"; "### Added"; "## [0.1.0]"] = true.
Proof. vm_compute. reflexivity. Qed.
End PolicyExample.
