(* ===== verification/Import.v ===== *)
(** Importing a repository's history, from [crates/hugit-mirror/src/import]:
    the commit importer ([history/mod.rs], [history/object_hash.rs]), its
    resumption cursor ([resume/mod.rs]) and large-file materialization
    ([lfs/mod.rs]).

    The git process, SHA-1 and the HTTP transport are classes; the clock is an
    argument.  Error values keep the branch that failed instead of its message
    text.  The theorems: imported events extend a log as appending them would;
    importing in batches with a cursor is importing at once; what git prints of
    an object is read back exactly; a materialized object has the digest and the
    size of its pointer, whatever the transport answers. *)

From S2P Require Import Prelude Text Scan Json JsonCodec Crypto Secret Scrub Blobs Log Tamper Replay.

(** * History *)

Definition COMMIT_EVENT_KIND : string := "git.commit".

Record CommitMeta := {
  meta_oid : string; meta_author : string; meta_message : string; meta_timestamp : N; meta_parents : list string;
  meta_tree_oid : string }.
Record ImportObject := { io_oid : string; io_kind : string; io_bytes : list byte }.

(** Why a [git] command is reported as failed. *)
Inductive GitFault :=
| TypeSpawn (e : string)
| WrongKind (expected got : string)
| BatchSpawn (e : string)
| BatchStdin (e : string)
| BatchOutput (e : string)
| BatchFailed
| NoHeader
| HeaderNotUtf8
| MalformedHeader (header : string)
| MissingSize (header : string)
| TrailingFields (header : string)
| HeaderOid (got : string)
| HeaderType (got : string)
| InvalidSize (text : string)
| SizeOverflow
| TruncatedBody (have need : N).
Inductive ImportError :=
| ByteIdentityMismatch (source_oid recomputed_oid : string)
| GitCommand (oid : string) (what : GitFault)
| ObjectNotFound (oid : string)
| PayloadSerialize (what : string).

Class Sha1 := { sha1 : list byte → list byte }.

(** [git cat-file -t] and [git cat-file --batch] with one oid on their input. *)
Record ProcessOutput := { success : bool; stdout : list byte }.
Inductive BatchRun :=
| SpawnFailed (e : string) | StdinFailed (e : string) | OutputFailed (e : string) | Ran (out : ProcessOutput).
Class CatFile := {
  cat_file_type : string → result string ProcessOutput;
  cat_file_batch : string → BatchRun;
}.

Definition compute_git_oid `{Crypto} `{Sha1} (kind : string) (raw_bytes : list byte) : string :=
  hex_encode (sha1 (as_bytes (kind +:+ " " +:+ decimal (N.of_nat (length raw_bytes)) +:+ utf8 [0]%nat) ++ raw_bytes)).

Definition verify_byte_identity `{Crypto} `{Sha1} (kind : string) (raw_bytes : list byte) (expected_oid : string)
    : result ImportError unit :=
  let recomputed := compute_git_oid kind raw_bytes in
  if decide (recomputed ≠ expected_oid) then Err (ByteIdentityMismatch expected_oid recomputed) else Ok tt.

(** The batch output: a header line, then exactly as many bytes as it says. *)
Definition parse_batch (oid kind : string) (output : list byte) : result ImportError ImportObject :=
  let fault what := Err (GitCommand oid what) in
  match split_at_byte x0a output with
  | None => fault NoHeader
  | Some (header_bytes, _) =>
      match from_utf8 header_bytes with
      | None => fault HeaderNotUtf8
      | Some header =>
          if ends_with header " missing" || bool_decide (header = "missing") then Err (ObjectNotFound oid)
          else match split_char " " header with
          | [] | [_] => fault (MalformedHeader header)
          | [_; _] => fault (MissingSize header)
          | [hdr_oid; hdr_type; hdr_size] =>
              if decide (hdr_oid ≠ oid) then fault (HeaderOid hdr_oid)
              else if decide (hdr_type ≠ kind) then fault (HeaderType hdr_type)
              else match parse_usize (as_bytes hdr_size) with
              | None => fault (InvalidSize hdr_size)
              | Some size =>
                  let body_start := N.of_nat (length header_bytes) + 1 in
                  match u64_checked_add body_start size with
                  | None => fault SizeOverflow
                  | Some body_end =>
                      if N.of_nat (length output) <? body_end then fault (TruncatedBody (N.of_nat (length output)) body_end)
                      else Ok {| io_oid := oid; io_kind := kind;
                                 io_bytes := take (N.to_nat size) (drop (N.to_nat body_start) output) |}
                  end
              end
          | _ => fault (TrailingFields header)
          end
      end
  end.

Definition read_git_object `{CatFile} (oid expected_kind : string) : result ImportError ImportObject :=
  match cat_file_type oid with
  | Err e => Err (GitCommand oid (TypeSpawn e))
  | Ok type_out =>
      if negb (success type_out) then Err (ObjectNotFound oid)
      else
        let kind := trim (from_utf8_lossy (String.string_of_list_byte (stdout type_out))) in
        if decide (kind ≠ expected_kind) then Err (GitCommand oid (WrongKind expected_kind kind))
        else match cat_file_batch oid with
        | SpawnFailed e => Err (GitCommand oid (BatchSpawn e))
        | StdinFailed e => Err (GitCommand oid (BatchStdin e))
        | OutputFailed e => Err (GitCommand oid (BatchOutput e))
        | Ran out => if negb (success out) then Err (GitCommand oid BatchFailed) else parse_batch oid kind (stdout out)
        end
  end.

(** The loop over the lines of a commit. *)
Record MetaLoop := {
  l_tree : string; l_parents : list string; l_author : string; l_timestamp : N; l_message : string; in_header : bool }.
Definition MetaLoop_start : MetaLoop := {|
  l_tree := EmptyString; l_parents := []; l_author := EmptyString; l_timestamp := 0; l_message := EmptyString; in_header := true |}.

(** The field before the last of the author line, when it is a number. *)
Definition author_timestamp (a : string) : option N :=
  let parts := split_whitespace a in
  if (2 <=? length parts)%nat then parts !! (length parts - 2)%nat ≫= λ s, parse_usize (as_bytes s) else None.

Definition meta_line (st : MetaLoop) (line : string) : MetaLoop :=
  if in_header st then
    if decide (line = EmptyString) then {|
      l_tree := l_tree st; l_parents := l_parents st; l_author := l_author st; l_timestamp := l_timestamp st;
      l_message := l_message st; in_header := false |}
    else match strip_prefix "tree " line with
    | Some t => {|
        l_tree := trim t; l_parents := l_parents st; l_author := l_author st; l_timestamp := l_timestamp st;
        l_message := l_message st; in_header := true |}
    | None =>
    match strip_prefix "parent " line with
    | Some p => {|
        l_tree := l_tree st; l_parents := l_parents st ++ [trim p]; l_author := l_author st; l_timestamp := l_timestamp st;
        l_message := l_message st; in_header := true |}
    | None =>
    match strip_prefix "author " line with
    | Some a => {|
        l_tree := l_tree st; l_parents := l_parents st; l_author := a;
        l_timestamp := default (l_timestamp st) (author_timestamp a); l_message := l_message st; in_header := true |}
    | None => st
    end end end
  else {|
    l_tree := l_tree st; l_parents := l_parents st; l_author := l_author st; l_timestamp := l_timestamp st;
    l_message := (if decide (l_message st = EmptyString) then line else l_message st +:+ String newline line);
    in_header := false |}.

Definition parse_commit_meta (oid : string) (bytes : list byte) : CommitMeta :=
  let st := foldl meta_line MetaLoop_start (lines (from_utf8_lossy (String.string_of_list_byte bytes))) in
  {| meta_oid := oid; meta_author := l_author st; meta_message := l_message st; meta_timestamp := l_timestamp st;
     meta_parents := l_parents st; meta_tree_oid := l_tree st |}.

Section History.
Context `{Crypto} `{Sha1} `{SerdeJson} `{CatFile}.

Definition commit_payload (c : CommitMeta) : Value := json_object
  [("oid", Str (meta_oid c)); ("author", Str (meta_author c)); ("message", Str (meta_message c));
   ("timestamp", Number (PosInt (meta_timestamp c))); ("parents", Array (Str <$> meta_parents c));
   ("tree_oid", Str (meta_tree_oid c))].

Definition project_commit_to_event (c : CommitMeta) (seq : N) (prev_hash principal : string) (now : N)
    : result ImportError EventRecord :=
  payload ← ok_or (PayloadSerialize "payload is not valid JSON") (canonical_json (to_string (commit_payload c)));
  let principal_chain := [principal] in
  Ok {| seq := seq; prev_hash := prev_hash;
        this_hash := compute_this_hash prev_hash COMMIT_EVENT_KIND principal_chain payload seq;
        kind := COMMIT_EVENT_KIND; principal_chain := principal_chain; payload := payload; recorded_at := now |}.

(** One commit of the batch; [now] is the clock at its sequence number. *)
Definition import_commit (principal : string) (now : N → N) (oid : string) (seq : N) (prev_hash : string)
    : result ImportError EventRecord :=
  obj ← read_git_object oid "commit";
  _ ← verify_byte_identity "commit" (io_bytes obj) oid;
  project_commit_to_event (parse_commit_meta oid (io_bytes obj)) seq prev_hash principal (now seq).

Fixpoint import_loop (principal : string) (now : N → N) (start_seq : N) (i : N) (prev_hash : string) (oids : list string)
    : result ImportError (list EventRecord) :=
  match oids with
  | [] => Ok []
  | oid :: oids =>
      event ← import_commit principal now oid (u64_add start_seq i) prev_hash;
      events ← import_loop principal now start_seq (i + 1) (this_hash event) oids;
      Ok (event :: events)
  end.
Definition import_commits (principal : string) (now : N → N) (oids : list string) (start_seq : N) (start_prev_hash : string)
    : result ImportError (list EventRecord) :=
  import_loop principal now start_seq 0 start_prev_hash oids.
End History.

(** * Resumption *)

Record ImportCursor := {
  cur_repo : string; cur_ref : string; last_imported_oid : string; next_seq : N; last_event_hash : string; updated_at : N }.
Definition ImportCursor_new (repo ref_name start_prev_hash : string) (now : N) : ImportCursor := {|
  cur_repo := repo; cur_ref := ref_name; last_imported_oid := EmptyString; next_seq := 0; last_event_hash := start_prev_hash;
  updated_at := now |}.
Definition advance (c : ImportCursor) (last_oid : string) (seq : N) (event_hash : string) (now : N) : ImportCursor := {|
  cur_repo := cur_repo c; cur_ref := cur_ref c; last_imported_oid := last_oid; next_seq := seq; last_event_hash := event_hash;
  updated_at := now |}.
Definition already_imported (c : ImportCursor) (oid : string) : bool := bool_decide (last_imported_oid c = oid).

Inductive IdempotencyOutcome :=
| NoOp | IncrementalSync (new_oids : list string) | FirstImport (all_oids : list string).

(** What follows the first occurrence. *)
Fixpoint after_oid (oid : string) (oids : list string) : option (list string) :=
  match oids with
  | [] => None
  | o :: oids => if decide (o = oid) then Some oids else after_oid oid oids
  end.
Definition compute_idempotency (c : ImportCursor) (source_oids : list string) : IdempotencyOutcome :=
  if decide (last_imported_oid c = EmptyString) then FirstImport source_oids
  else match after_oid (last_imported_oid c) source_oids with
       | Some [] => NoOp
       | Some remaining => IncrementalSync remaining
       | None => FirstImport source_oids
       end.

Record InMemoryCursorStore := { cursors : gmap string ImportCursor }.
Definition cursor_key (repo ref_name : string) : string := repo +:+ ":" +:+ ref_name.
Definition cursor_load (s : InMemoryCursorStore) (repo ref_name : string) : option ImportCursor := cursors s !! cursor_key repo ref_name.
Definition cursor_save (s : InMemoryCursorStore) (c : ImportCursor) : InMemoryCursorStore :=
  {| cursors := <[cursor_key (cur_repo c) (cur_ref c) := c]> (cursors s) |}.

(** * Large files *)

Record LfsPointer := { lfs_oid : string; lfs_size : N; lfs_sha256 : string }.
Inductive LfsError :=
| NotAPointer
| MalformedPointer (what : string)
| FetchFailed (oid message : string)
| Sha256Mismatch (pointer_sha256 actual_sha256 : string)
| SizeMismatch (pointer_size actual_size : N)
| CredentialsAbsent (repo : string).

Definition LFS_VERSION : string := "version https://git-lfs.github.com/spec/v1".
Definition is_lfs_pointer (blob : list byte) : bool := starts_with (String.string_of_list_byte blob) LFS_VERSION.

Fixpoint lfs_loop (oid : option string) (size : option N) (ls : list string) : result LfsError (option string * option N) :=
  match ls with
  | [] => Ok (oid, size)
  | line :: ls =>
      match strip_prefix "oid " line with
      | Some o => lfs_loop (Some (trim o)) size ls
      | None =>
          match strip_prefix "size " line with
          | Some s =>
              match parse_usize (as_bytes (trim s)) with
              | Some n => lfs_loop oid (Some n) ls
              | None => Err (MalformedPointer "invalid size")
              end
          | None => lfs_loop oid size ls
          end
      end
  end.
Definition parse_lfs_pointer (blob : list byte) : result LfsError LfsPointer :=
  if negb (is_lfs_pointer blob) then Err NotAPointer
  else match from_utf8 blob with
  | None => Err (MalformedPointer "invalid UTF-8")
  | Some text =>
      '(oid, size) ← lfs_loop None None (lines text);
      oid ← ok_or (MalformedPointer "missing oid field") oid;
      size ← ok_or (MalformedPointer "missing size field") size;
      sha ← ok_or (MalformedPointer "oid must have sha256: prefix") (strip_prefix "sha256:" oid);
      if negb (String.length sha =? 64)%nat || negb (string_forall is_ascii_hexdigit sha)
      then Err (MalformedPointer ("invalid sha256 hex: " +:+ sha))
      else Ok {| lfs_oid := oid; lfs_size := size; lfs_sha256 := sha |}
  end.

Record MaterializedLfsObject := { lfs_pointer : LfsPointer; lfs_bytes : list byte }.

Class LfsTransport (T : Type) := {
  post_batch : T → string → list byte → result LfsError (list byte);
  lfs_get : T → string → result LfsError (list byte);
}.
Record BatchDownloadAction := { act_sha256 : string; act_size : N; act_href : string }.

Section Lfs.
Context `{Crypto} `{SerdeJson}.

Definition verify_lfs_object (p : LfsPointer) (bytes : list byte) : result LfsError unit :=
  let actual_size := N.of_nat (length bytes) in
  if decide (actual_size ≠ lfs_size p) then Err (SizeMismatch (lfs_size p) actual_size)
  else
    let actual := digest_hex bytes in
    if decide (actual ≠ lfs_sha256 p) then Err (Sha256Mismatch (lfs_sha256 p) actual) else Ok tt.

Definition materialize_lfs_from_fixture (p : LfsPointer) (store : gmap string (list byte)) : result LfsError MaterializedLfsObject :=
  bytes ← ok_or (FetchFailed (lfs_oid p) ("sha256 " +:+ lfs_sha256 p +:+ " not found in fixture store")) (store !! lfs_sha256 p);
  _ ← verify_lfs_object p bytes;
  Ok {| lfs_pointer := p; lfs_bytes := bytes |}.

Definition build_batch_download_request (pointers : list LfsPointer) : list byte :=
  as_bytes (to_string (json_object
    [("operation", Str "download"); ("transfers", Array [Str "basic"]);
     ("objects", Array ((λ p, json_object [("oid", Str (lfs_sha256 p)); ("size", Number (PosInt (lfs_size p)))]) <$> pointers))])).

Definition parse_batch_object (obj : Value) : result LfsError BatchDownloadAction :=
  let oid := default EmptyString (field_str obj "oid") in
  match value_get obj "error" with
  | Some err => Err (FetchFailed oid ("batch object error: " +:+ default "unknown LFS batch error" (field_str err "message")))
  | None =>
      size ← ok_or (FetchFailed oid "batch object missing size") (value_get obj "size" ≫= as_u64);
      href ← ok_or (FetchFailed oid "batch object missing download action href")
               (a ← value_get obj "actions"; d ← value_get a "download"; field_str d "href");
      Ok {| act_sha256 := oid; act_size := size; act_href := href |}
  end.
Fixpoint parse_batch_objects (objs : list Value) : result LfsError (list BatchDownloadAction) :=
  match objs with
  | [] => Ok []
  | o :: objs => a ← parse_batch_object o; l ← parse_batch_objects objs; Ok (a :: l)
  end.
Definition parse_batch_response (response : list byte) : result LfsError (list BatchDownloadAction) :=
  v ← ok_or (FetchFailed "<batch>" "malformed batch response JSON") (from_utf8 response ≫= from_str);
  objects ← ok_or (FetchFailed "<batch>" "batch response missing `objects` array")
              (match value_get v "objects" with Some (Array l) => Some l | _ => None end);
  parse_batch_objects objects.

Definition materialize_lfs_via_batch {T} `{LfsTransport T} (p : LfsPointer) (endpoint : string) (transport : T)
    : result LfsError MaterializedLfsObject :=
  response ← post_batch transport endpoint (build_batch_download_request [p]);
  actions ← parse_batch_response response;
  action ← ok_or (FetchFailed (lfs_oid p) ("batch response had no action for " +:+ lfs_sha256 p))
             (List.find (λ a, bool_decide (act_sha256 a = lfs_sha256 p)) actions);
  bytes ← lfs_get transport (act_href action);
  _ ← verify_lfs_object p bytes;
  Ok {| lfs_pointer := p; lfs_bytes := bytes |}.
End Lfs.

(** * Imported events extend the log *)

Section HistorySpec.
Context `{Crypto} `{Sha1} `{SerdeJsonLaws} `{CatFile} (principal : string) (now : N → N).

Lemma import_loop_app start prev a b : ∀ i,
  import_loop principal now start i prev (a ++ b) =
  (x ← import_loop principal now start i prev a;
   y ← import_loop principal now start (i + N.of_nat (length a)) (default prev (this_hash <$> last x)) b;
   Ok (x ++ y)).
Proof.
  revert prev. induction a as [|oid a IH]; intros prev i; cbn [app import_loop mbind result_bind length].
  - rewrite N.add_0_r. simpl. by destruct (import_loop principal now start i prev b).
  - destruct (import_commit principal now oid (u64_add start i) prev) as [e|]; cbn [mbind result_bind]; [|done]. rewrite IH.
    destruct (import_loop principal now start (i + 1) (this_hash e) a) as [x|]; cbn [mbind result_bind]; [|done].
    replace (i + N.of_nat (S (length a))) with (i + 1 + N.of_nat (length a)) by lia.
    assert (default prev (this_hash <$> last (e :: x)) = default (this_hash e) (this_hash <$> last x)) as ->.
    { destruct x as [|y x]; [done|]. rewrite last_cons_cons. destruct (last (y :: x)) eqn:E; [done|]. by apply last_None in E. }
    by destruct (import_loop principal now start _ _ b).
Qed.

Lemma import_loop_shift start i prev oids j :
  import_loop principal now start (i + j) prev oids = import_loop principal now (u64_add start i) j prev oids.
Proof.
  revert prev j. induction oids as [|oid oids IH]; intros prev j; [done|]. cbn [import_loop].
  rewrite (u64_add_assoc start i j). destruct (import_commit _ _ _ _ _); cbn [mbind result_bind]; [|done].
  rewrite <- IH. by rewrite N.add_assoc.
Qed.

Lemma import_commits_app_eq a b start prev :
  import_commits principal now (a ++ b) start prev =
  (x ← import_commits principal now a start prev;
   y ← import_commits principal now b (u64_add start (N.of_nat (length a))) (default prev (this_hash <$> last x));
   Ok (x ++ y)).
Proof.
  unfold import_commits. rewrite import_loop_app. destruct (import_loop principal now start 0 prev a) as [x|]; [|done].
  cbn [mbind result_bind]. rewrite N.add_0_l. rewrite <- (N.add_0_r (N.of_nat (length a))) at 1. by rewrite import_loop_shift.
Qed.

(** What one event says: it is the next record of the log, and the commit it
    names was read with bytes whose git digest is that name. *)
Definition imported (log : EventLog) (oid : string) (e : EventRecord) : Prop :=
  ∃ payload bytes, e = next_record log COMMIT_EVENT_KIND [principal] payload (recorded_at e) ∧
    compute_git_oid "commit" bytes = oid ∧
    canonical_json (to_string (commit_payload (parse_commit_meta oid bytes))) = Some payload.

Lemma import_commit_next log oid e : N.of_nat (log_len log) ≤ u64_max →
  import_commit principal now oid (N.of_nat (log_len log)) (head_hash log) = Ok e → imported log oid e.
Proof.
  intros Hlen He. unfold import_commit in He. destruct (read_git_object oid "commit") as [obj|]; cbn [mbind result_bind] in He; [|done].
  unfold verify_byte_identity in He. case_decide as Hd; cbn [mbind result_bind] in He; [done|].
  unfold project_commit_to_event in He. destruct (canonical_json _) as [p|] eqn:Ep; cbn [ok_or mbind result_bind] in He; [|done].
  injection He as <-. exists p, (io_bytes obj). done.
Qed.

Lemma import_loop_extends oids : ∀ log i start events,
  u64_add start i = N.of_nat (log_len log) → N.of_nat (log_len log) + N.of_nat (length oids) ≤ u64_max →
  import_loop principal now start i (head_hash log) oids = Ok events →
  length events = length oids ∧
  ∀ k oid e, oids !! k = Some oid → events !! k = Some e → imported {| records := records log ++ take k events |} oid e.
Proof.
  induction oids as [|oid oids IH]; intros log i start events Hseq Hlen Hi; cbn [import_loop] in Hi; [by inv_eqs|].
  rewrite Hseq in Hi. destruct (import_commit principal now oid _ _) as [e|] eqn:Ee; cbn [mbind result_bind] in Hi; [|done].
  apply import_commit_next in Ee as Himp; [|simpl in Hlen; lia]. destruct (import_loop _ _ _ _ _ _) as [es|] eqn:El; [|done]. simpl in Hi. inv_eqs.
  set (log1 := {| records := records log ++ [e] |}).
  assert (head_hash log1 = this_hash e) as Hh by apply head_hash_snoc. rewrite <- Hh in El.
  assert (log_len log1 = S (log_len log)) as Hl1 by (unfold log_len; simpl; rewrite length_app; simpl; lia).
  apply (IH log1) in El as [Hle Hes].
  - split; [by simpl; rewrite Hle|]. intros [|k] oid' e' Ho He'; simpl in *.
    + inv_eqs. rewrite app_nil_r. by destruct log.
    + specialize (Hes k oid' e' Ho He'). by rewrite <- (assoc_L (++)) in Hes.
  - rewrite <- u64_add_assoc, Hseq, Hl1. simpl in Hlen. unfold u64_add, u64_max in *. rewrite N.mod_small; lia.
  - simpl in Hlen. lia.
Qed.

Lemma parse_digits_le l : ∀ acc n, acc ≤ u64_max → parse_digits acc l = Some n → n ≤ u64_max.
Proof.
  induction l as [|b l IH]; intros acc n Ha Hp; simpl in Hp; [by inv_eqs|]. destruct (digit_value b); simpl in Hp; [|done].
  destruct (N.leb_spec (acc * 10 + n0) u64_max); [|done]. by eapply IH.
Qed.
Lemma parse_usize_le l n : parse_usize l = Some n → n ≤ u64_max.
Proof.
  unfold parse_usize. destruct l as [|b l]; [done|]. case_decide; [destruct l as [|b' l]; [done|]|]; by apply parse_digits_le.
Qed.
Lemma meta_line_timestamp st line : l_timestamp st ≤ u64_max → l_timestamp (meta_line st line) ≤ u64_max.
Proof.
  intros Ht. unfold meta_line. destruct (in_header st); [|done]. case_decide; [done|].
  repeat (destruct (strip_prefix _ line) as [a|]; [try done|]); [|done]. cbn. unfold author_timestamp.
  destruct (_ <=? _)%nat; [|done]. destruct (split_whitespace a !! _) as [t|]; [|done]. cbn.
  destruct (parse_usize (as_bytes t)) eqn:E; [|done]. by apply parse_usize_le in E.
Qed.
Lemma meta_timestamp_le oid bytes : meta_timestamp (parse_commit_meta oid bytes) ≤ u64_max.
Proof.
  unfold parse_commit_meta. cbn. generalize (lines (from_utf8_lossy (String.string_of_list_byte bytes))). intros ls.
  assert (l_timestamp MetaLoop_start ≤ u64_max) as Hst by done. revert Hst. generalize MetaLoop_start.
  induction ls as [|l ls IH]; intros st Hs; [done|]. simpl. by apply IH, meta_line_timestamp.
Qed.
Lemma commit_payload_plain oid bytes : plain (commit_payload (parse_commit_meta oid bytes)) = true.
Proof.
  apply plain_object. repeat constructor; cbn [snd]; [|apply plain_strs].
  unfold plain. cbn [sorted_doc only_u64 andb]. apply bool_decide_eq_true, meta_timestamp_le.
Qed.

(** The records appended one after another. *)
Fixpoint append_all (log : EventLog) (es : list EventRecord) : EventLog :=
  match es with
  | [] => log
  | e :: es => append_all (append log (kind e) (principal_chain e) (payload e) (recorded_at e)).1 es
  end.

Lemma imported_append log oid e : imported log oid e →
  (append log (kind e) (principal_chain e) (payload e) (recorded_at e)).1 = {| records := records log ++ [e] |}.
Proof. intros (p & b & -> & _). done. Qed.

Lemma import_append_all log events :
  (∀ k e, events !! k = Some e → ∃ oid, imported {| records := records log ++ take k events |} oid e) →
  append_all log events = {| records := records log ++ events |}.
Proof.
  revert log. induction events as [|e es IH]; intros log Hk; cbn [append_all]; [rewrite app_nil_r; by destruct log|].
  destruct (Hk 0%nat e eq_refl) as [oid Hi]. simpl in Hi. rewrite app_nil_r in Hi.
  replace {| records := records log |} with log in Hi by (by destruct log).
  rewrite (imported_append _ _ _ Hi), IH; simpl; [by rewrite <- (assoc_L (++))|].
  intros k e' He'. destruct (Hk (S k) e' He') as [oid' Hi']. exists oid'. by rewrite <- (assoc_L (++)).
Qed.

Lemma append_all_intact log es : Forall (λ e, kind e ≠ PROVENANCE_REDACTION_KIND) es →
  intact (records log) → intact (records (append_all log es)).
Proof.
  intros Hk. revert log. induction Hk as [|e es Hne Hk IH]; intros log Hi; [done|]. simpl. by apply IH, intact_append.
Qed.

(** C37. The events imported at the end of a log are what appending them there gives:
    an intact log stays intact, there is one event per commit, in order, each of
    the commit kind and so inert for every ref, and each commit was read with
    bytes whose git digest is its name. *)
Theorem import_extends_log log oids events :
  N.of_nat (log_len log) + N.of_nat (length oids) ≤ u64_max →
  import_commits principal now oids (N.of_nat (log_len log)) (head_hash log) = Ok events →
  let log' := append_all log events in
  records log' = records log ++ events ∧ (intact (records log) → intact (records log')) ∧
  replay_unchecked (records log') = replay_unchecked (records log) ∧
  Forall2 (λ oid e, kind e = COMMIT_EVENT_KIND ∧ ∃ bytes,
    compute_git_oid "commit" bytes = oid ∧ from_str (payload e) = Some (commit_payload (parse_commit_meta oid bytes))) oids events.
Proof.
  intros Hlen Hi. unfold import_commits in Hi. apply (import_loop_extends oids log) in Hi as [Hl Hev]; [..|done].
  2: { unfold u64_add. rewrite N.add_0_r, N.mod_small; [done|]. unfold u64_max in Hlen. lia. }
  assert (append_all log events = {| records := records log ++ events |}) as Hall.
  { apply import_append_all. intros k e He. apply lookup_lt_Some in He as Hlt. rewrite Hl in Hlt.
    apply lookup_lt_is_Some in Hlt as [oid Ho]. eauto. }
  assert (Forall (λ e, kind e = COMMIT_EVENT_KIND) events) as Hkind.
  { apply Forall_forall. intros e [k He]%list_elem_of_lookup. apply lookup_lt_Some in He as Hlt. rewrite Hl in Hlt.
    apply lookup_lt_is_Some in Hlt as [oid Ho]. destruct (Hev k oid e Ho He) as (p & b & -> & _). done. }
  cbv zeta. split_and!.
  - by rewrite Hall.
  - apply append_all_intact. eapply Forall_impl; [exact Hkind|]. intros e ->. done.
  - rewrite Hall. cbn [records]. unfold replay_unchecked. rewrite replay_from_app.
    destruct (replay_from RefState_new (records log)) as [st|]; cbn [mbind result_bind]; [|done]. clear -Hkind.
    induction Hkind as [|e es He Hk IH]; [done|]. cbn [replay_from]. unfold replay_step. rewrite He. done.
  - apply Forall2_same_length_lookup. split; [done|]. intros k oid e Ho He. destruct (Hev k oid e Ho He) as (p & b & Heq & Hoid & Hp).
    split; [by rewrite Heq|]. exists b. split; [done|]. rewrite Heq. cbn [payload next_record].
    unfold canonical_json in Hp. rewrite from_str_to_string in Hp by apply commit_payload_plain. cbn [mbind option_bind] in Hp.
    assert (p = to_string (canonicalize_value (commit_payload (parse_commit_meta oid b)))) as -> by congruence. clear Hp.
    pose proof (commit_payload_plain oid b) as Hpl. pose proof Hpl as [Hs _]%andb_true_iff.
    rewrite canonicalize_sorted_id by done. by apply from_str_to_string.
Qed.
End HistorySpec.

(** * Resuming is importing at once *)

Lemma after_oid_Some oid l r : after_oid oid l = Some r ↔ ∃ pre, l = pre ++ oid :: r ∧ oid ∉ pre.
Proof.
  induction l as [|o l IH]; simpl; [split; [done|by intros ([|] & ? & _)]|]. case_decide as Hd.
  - subst o. split; [intros [= ->]; exists []; split; [done|apply not_elem_of_nil]|].
    intros ([|x pre] & Heq & Hn); simpl in Heq; [by inv Heq|]. inv Heq. set_solver.
  - rewrite IH. split.
    + intros (pre & -> & Hn). exists (o :: pre). split; [done|]. set_solver.
    + intros ([|x pre] & Heq & Hn); simpl in Heq; [by inv Heq|]. inv Heq. exists pre. split; [done|]. set_solver.
Qed.
Lemma after_oid_None oid l : after_oid oid l = None ↔ oid ∉ l.
Proof.
  induction l as [|o l IH]; simpl; [split; [intros _; apply not_elem_of_nil|done]|]. case_decide as Hd; [subst; set_solver|].
  rewrite IH. set_solver.
Qed.

Section Resume.
Context `{Crypto} `{Sha1} `{SerdeJson} `{CatFile} (principal : string) (now : N → N).

(** After a first batch [a] the cursor holds its last commit, the next sequence
    number and the last hash. *)
Definition cursor_after (c : ImportCursor) (a : list string) (x : list EventRecord) (t : N) : ImportCursor :=
  advance c (default EmptyString (last a)) (u64_add (next_seq c) (N.of_nat (length a)))
    (default (last_event_hash c) (this_hash <$> last x)) t.

(** From the cursor after a batch, the commits still to import are exactly the
    rest of the source, none of those imported before among them; importing them
    from the cursor's position completes the very events that importing the whole
    source at once gives, and fails exactly when that fails. *)
Theorem resume_is_whole c a b x t : NoDup (a ++ b) → a ≠ [] → EmptyString ∉ a →
  import_commits principal now a (next_seq c) (last_event_hash c) = Ok x →
  let c' := cursor_after c a x t in
  compute_idempotency c' (a ++ b) = match b with [] => NoOp | _ => IncrementalSync b end ∧
  (∀ oid, oid ∈ b → oid ∉ a) ∧
  import_commits principal now (a ++ b) (next_seq c) (last_event_hash c) =
    (y ← import_commits principal now b (next_seq c') (last_event_hash c'); Ok (x ++ y)).
Proof.
  intros Hnd Ha He Hx c'. split_and!.
  - destruct (exists_last Ha) as (pre & o & ->). unfold compute_idempotency, c', cursor_after. cbn [last_imported_oid advance].
    rewrite last_snoc. change (default EmptyString (Some o)) with o. rewrite decide_False by (intros ->; apply He; set_solver).
    assert (after_oid o ((pre ++ [o]) ++ b) = Some b) as ->; [|by destruct b].
    apply after_oid_Some. exists pre. rewrite <- (assoc_L (++)). split; [done|].
    rewrite <- (assoc_L (++)) in Hnd. apply NoDup_app in Hnd as (_ & Hn & _). intros Hin. apply (Hn o Hin). set_solver.
  - apply NoDup_app in Hnd as (_ & Hn & _). intros oid Hb Hin. by apply (Hn oid).
  - rewrite import_commits_app_eq, Hx. done.
Qed.
End Resume.

(** ** The cursor store *)

Lemma cursor_key_inj repo ref repo' ref' : has_char ":" repo = false → has_char ":" repo' = false →
  cursor_key repo ref = cursor_key repo' ref' → repo = repo' ∧ ref = ref'.
Proof.
  intros Hr Hr' Hk. assert (split_once ":" (cursor_key repo ref) = Some (repo, ref)) as H1.
  { apply split_once_Some. by split. }
  rewrite Hk in H1. assert (split_once ":" (cursor_key repo' ref') = Some (repo', ref')) as H2 by (apply split_once_Some; by split).
  rewrite H1 in H2. by inv H2.
Qed.
Lemma cursor_load_save s c repo ref : has_char ":" repo = false → has_char ":" (cur_repo c) = false →
  cursor_load (cursor_save s c) repo ref = if decide (cur_repo c = repo ∧ cur_ref c = ref) then Some c else cursor_load s repo ref.
Proof.
  intros Hr Hc. unfold cursor_load, cursor_save. cbn. destruct (decide (cur_repo c = repo ∧ cur_ref c = ref)) as [[-> ->]|Hk].
  - apply lookup_insert_eq.
  - apply lookup_insert_ne. intros Heq. by apply Hk, cursor_key_inj.
Qed.

(** * Reading what git prints *)

Section Framing.
Context `{CatFile}.

(** The names git prints have no space and no newline. *)
Definition hex_name (s : string) : bool := string_forall is_ascii_hexdigit s.
Definition batch_header (oid kind : string) (size : N) : string := oid +:+ " " +:+ kind +:+ " " +:+ decimal size.
Definition batch_text (oid kind : string) (bytes : list byte) : list byte :=
  as_bytes (batch_header oid kind (N.of_nat (length bytes))) ++ x0a :: bytes ++ [x0a].

Definition KINDS : list string := ["commit"; "tree"; "blob"; "tag"].
Definition plain_char (c : ascii) : bool := is_ascii_alphanumeric c.

Lemma decimal_plain n : string_forall plain_char (decimal n) = true.
Proof.
  unfold decimal. generalize (N.to_uint n). intros d.
  assert (string_forall plain_char (DecimalString.NilEmpty.string_of_uint d) = true) as Hd by (induction d; simpl; auto).
  by destruct d.
Qed.
Lemma plain_no_char p c s : string_forall p s = true → p c = false → has_char c s = false.
Proof.
  intros Hs Hc. induction s as [|d s IH]; [done|]. simpl in *. apply andb_true_iff in Hs as [Hd Hs].
  rewrite IH by done. rewrite orb_false_r. apply bool_decide_eq_false. intros ->. congruence.
Qed.

Lemma split_char_single sep s : has_char sep s = false → split_char sep s = [s].
Proof.
  induction s as [|c s IH]; [done|]. simpl. intros [Hc Hs]%orb_false_iff. apply bool_decide_eq_false in Hc.
  rewrite decide_False by congruence. by rewrite IH.
Qed.
Lemma split_char_app sep a b : has_char sep a = false → split_char sep (a +:+ String sep b) = a :: split_char sep b.
Proof.
  induction a as [|c a IH]; intros Ha; [change (EmptyString +:+ String sep b) with (String sep b); cbn [split_char]; by case_decide|]. simpl in Ha. apply orb_false_iff in Ha as [Hc Ha].
  apply bool_decide_eq_false in Hc. rewrite string_app_cons. cbn [split_char]. rewrite decide_False by congruence. by rewrite IH.
Qed.

Definition header_char (c : ascii) : bool := is_ascii_alphanumeric c || bool_decide (c = " "%char).

Lemma header_chars oid kind n : hex_name oid = true → kind ∈ KINDS → string_forall header_char (batch_header oid kind n) = true.
Proof.
  intros Ho Hk. unfold batch_header. rewrite !string_forall_app. apply andb_true_iff. split.
  - eapply string_forall_impl; [|exact Ho]. intros c Hc. destruct c as [[] [] [] [] [] [] [] []]; vm_compute in Hc |- *; done.
  - rewrite (string_forall_impl plain_char header_char (decimal n)) by (try apply decimal_plain; unfold header_char, plain_char; intros c Hc; by rewrite Hc).
    repeat (apply elem_of_cons in Hk as [->|Hk]; [done|]). by apply elem_of_nil in Hk.
Qed.

Lemma chars_ascii p s : (∀ c, p c = true → N_of_ascii c < 128) → string_forall p s = true →
  Forall (λ c, N_of_ascii c < 128) (String.list_ascii_of_string s).
Proof.
  intros Hp. induction s as [|c s IH]; simpl; [constructor|]. intros [Hc Hs]%andb_true_iff. constructor; [by apply Hp|by apply IH].
Qed.
Lemma as_bytes_no b s p : (∀ c, p c = true → byte_of_ascii c ≠ b) → string_forall p s = true → b ∉ as_bytes s.
Proof.
  intros Hp Hs Hin. unfold String.list_byte_of_string in Hin. apply list_elem_of_In, in_map_iff in Hin as (c & Hc & Hin).
  apply (Hp c); [|done]. clear Hc. induction s as [|d s IH]; [done|]. simpl in *. apply andb_true_iff in Hs as [Hd Hs].
  destruct Hin as [->|Hin]; [done|by apply IH].
Qed.

(** A decimal number does not end in "missing". *)
Lemma header_not_missing oid kind n : ends_with (batch_header oid kind n) " missing" = false.
Proof.
  unfold ends_with, batch_header. rewrite !string_rev_app.
  assert (∃ c r, String.rev (decimal n) = String c r ∧ is_ascii_digit c = true) as (c & r & -> & Hc).
  { assert (string_forall is_ascii_digit (decimal n) = true) as Hd.
    { unfold decimal. generalize (N.to_uint n). intros d.
      assert (string_forall is_ascii_digit (DecimalString.NilEmpty.string_of_uint d) = true) as Hn by (induction d; simpl; auto).
      by destruct d. }
    rewrite <- string_forall_rev in Hd. destruct (String.rev (decimal n)) as [|c r] eqn:E; [|simpl in Hd; apply andb_true_iff in Hd as [Hc _]; eauto].
    exfalso. assert (decimal n = EmptyString) as Hn by (by rewrite <- (string_rev_rev (decimal n)), E).
    destruct (JsonCodec.Codec.decimal_digit n) as (d & r & Hd' & _). congruence. }
  rewrite !string_app_cons. unfold starts_with. change (String.rev " missing") with "gnissim ". cbn [strip_prefix].
  rewrite decide_False; [done|]. by intros <-.
Qed.

Lemma parse_batch_text oid kind bytes : hex_name oid = true → kind ∈ KINDS →
  N.of_nat (length (batch_text oid kind bytes)) ≤ u64_max →
  parse_batch oid kind (batch_text oid kind bytes) = Ok {| io_oid := oid; io_kind := kind; io_bytes := bytes |}.
Proof.
  intros Ho Hk Hlen. unfold parse_batch, batch_text in *. cbv zeta. set (h := batch_header oid kind (N.of_nat (length bytes))) in *.
  pose proof (header_chars oid kind (N.of_nat (length bytes)) Ho Hk) as Hh. fold h in Hh.
  rewrite length_app in Hlen. simpl in Hlen. rewrite length_app in Hlen. simpl in Hlen.
  rewrite split_at_byte_app.
  2: { eapply as_bytes_no; [|exact Hh]. intros c Hc. by destruct c as [[] [] [] [] [] [] [] []]. }
  unfold from_utf8. rewrite String.string_of_list_byte_of_string.
  rewrite decide_True.
  2: { apply from_utf8_lossy_ascii. eapply chars_ascii; [|exact Hh]. intros c. by destruct c as [[] [] [] [] [] [] [] []]. }
  assert (ends_with h " missing" = false) as -> by apply header_not_missing.
  assert (split_char " " h = [oid; kind; decimal (N.of_nat (length bytes))]) as Hs.
  { subst h. unfold batch_header. generalize (decimal_plain (N.of_nat (length bytes))).
    generalize (decimal (N.of_nat (length bytes))). intros d Hd.
    change (split_char " " (oid +:+ String " " (kind +:+ String " " d)) = [oid; kind; d]). rewrite split_char_app, split_char_app, split_char_single; [done|..].
    - by eapply plain_no_char.
    - repeat (apply elem_of_cons in Hk as [->|Hk]; [done|]). by apply elem_of_nil in Hk.
    - by eapply plain_no_char. }
  rewrite bool_decide_false by (intros Hm; rewrite Hm in Hs; by vm_compute in Hs). cbn [orb]. rewrite Hs.
  rewrite !decide_False by (intros Hn; by apply Hn). rewrite parse_usize_decimal by lia.
  unfold u64_checked_add. rewrite (proj2 (N.leb_le _ _)) by lia.
  rewrite (proj2 (N.ltb_ge _ _)) by (rewrite length_app; simpl; rewrite length_app; simpl; lia).
  do 2 f_equal. rewrite N2Nat.inj_add, !Nat2N.id. change (N.to_nat 1) with 1%nat.
  rewrite drop_app_add' by done. simpl.
  by rewrite drop_0, take_app_length.
Qed.

(** What git prints of an object is read back as that object, and the bytes are
    exactly those the header announces. *)
Theorem read_git_object_framed oid kind bytes : hex_name oid = true → kind ∈ KINDS →
  cat_file_type oid = Ok {| success := true; stdout := as_bytes (kind +:+ String newline EmptyString) |} →
  cat_file_batch oid = Ran {| success := true; stdout := batch_text oid kind bytes |} →
  N.of_nat (length (batch_text oid kind bytes)) ≤ u64_max →
  read_git_object oid kind = Ok {| io_oid := oid; io_kind := kind; io_bytes := bytes |}.
Proof.
  intros Ho Hk Ht Hb Hlen. unfold read_git_object. rewrite Ht. cbn [success stdout negb]. rewrite String.string_of_list_byte_of_string.
  assert (trim (from_utf8_lossy (kind +:+ String newline EmptyString)) = kind) as ->.
  { clear - Hk. repeat (apply elem_of_cons in Hk as [->|Hk]; [vm_compute; reflexivity|]). by apply elem_of_nil in Hk. }
  rewrite decide_False by (intros Hn; by apply Hn). rewrite Hb. cbn [success stdout negb]. by apply parse_batch_text.
Qed.
End Framing.

(** * Large files come back *)

Section LfsSpec.
Context `{CryptoLaws} `{!HexLower} `{SerdeJson} {T : Type} `{LfsTransport T}.

(** The pointer file git-lfs writes for a content. *)
Definition pointer_text (content : list byte) : string :=
  LFS_VERSION +:+ String newline ("oid sha256:" +:+ digest_hex content +:+ String newline
    ("size " +:+ decimal (N.of_nat (length content)) +:+ String newline EmptyString)).
Definition pointer_of (content : list byte) : LfsPointer := {|
  lfs_oid := "sha256:" +:+ digest_hex content; lfs_size := N.of_nat (length content); lfs_sha256 := digest_hex content |}.

(** A batch answer with one object to download. *)
Definition download_answer (p : LfsPointer) (href : string) : Value := json_object
  [("objects", Array [json_object [("oid", Str (lfs_sha256 p)); ("size", Number (PosInt (lfs_size p)));
     ("actions", json_object [("download", json_object [("href", Str href)])])]])].

Lemma lines_cons l s : has_char newline l = false → has_char (ascii_of_nat 13) l = false →
  lines (l +:+ String newline s) = l :: lines s.
Proof.
  intros Hn Hc. unfold lines. assert (split_inclusive (l +:+ String newline s) = (l, true) :: split_inclusive s) as ->.
  { clear Hc. induction l as [|c l IH]; [change (EmptyString +:+ String newline s) with (String newline s); cbn [split_inclusive]; by case_decide|].
    simpl in Hn. apply orb_false_iff in Hn as [Hc Hn]. apply bool_decide_eq_false in Hc. rewrite string_app_cons.
    cbn [split_inclusive]. rewrite decide_False by congruence. by rewrite IH. }
  cbn [fmap list_fmap]. f_equal. clear Hn. induction l as [|c l IH]; [done|]. simpl in Hc. apply orb_false_iff in Hc as [Hd Hc].
  apply bool_decide_eq_false in Hd. cbn [strip_cr]. rewrite decide_False by (intros [-> _]; done). by rewrite IH.
Qed.

Lemma digest_hexdigits content : string_forall is_ascii_hexdigit (digest_hex content) = true.
Proof.
  eapply string_forall_impl; [|apply hex_encode_lower]. intros c [Hc _]%andb_true_iff. done.
Qed.

(** Characters of a pointer file: ASCII. *)
Definition low_char (c : ascii) : bool := N_of_ascii c <? 128.
Lemma pointer_text_ascii content : string_forall low_char (pointer_text content) = true.
Proof.
  unfold pointer_text. rewrite !string_forall_app. cbn [string_forall]. rewrite !string_forall_app. cbn [string_forall].
  rewrite !string_forall_app. rewrite (string_forall_impl is_ascii_hexdigit low_char (digest_hex content)); cycle 1.
  { intros c Hc. by destruct c as [[] [] [] [] [] [] [] []]. }
  { apply digest_hexdigits. }
  rewrite (string_forall_impl plain_char low_char (decimal _)); [done| |apply decimal_plain].
  intros c Hc. by destruct c as [[] [] [] [] [] [] [] []].
Qed.

Lemma parse_pointer_text content : N.of_nat (length content) ≤ u64_max →
  parse_lfs_pointer (as_bytes (pointer_text content)) = Ok (pointer_of content).
Proof.
  intros Hlen. unfold parse_lfs_pointer, is_lfs_pointer. rewrite String.string_of_list_byte_of_string.
  assert (starts_with (pointer_text content) LFS_VERSION = true) as -> by (apply starts_with_true; by eexists). cbn [negb].
  unfold from_utf8. rewrite String.string_of_list_byte_of_string, decide_True; cycle 1.
  { apply from_utf8_lossy_ascii. eapply chars_ascii; [|apply pointer_text_ascii]. intros c Hc. by apply N.ltb_lt. }
  set (d := digest_hex content). set (n := decimal (N.of_nat (length content))).
  assert (lines (pointer_text content) = [LFS_VERSION; "oid sha256:" +:+ d; "size " +:+ n]) as ->.
  { unfold pointer_text. fold d n. rewrite lines_cons by done.
    change ("oid sha256:" +:+ d +:+ ?t) with (("oid sha256:" +:+ d) +:+ t).
    rewrite lines_cons.
    2,3: rewrite has_char_app; cbn -[d]; eapply plain_no_char; [apply digest_hexdigits|done].
    change ("size " +:+ n +:+ ?t) with (("size " +:+ n) +:+ t). rewrite lines_cons; [done|..].
    all: rewrite has_char_app; cbn -[n]; eapply plain_no_char; [apply decimal_plain|done]. }
  cbn [lfs_loop].
  assert (strip_prefix "oid " LFS_VERSION = None) as -> by done. assert (strip_prefix "size " LFS_VERSION = None) as -> by done.
  assert (strip_prefix "oid " ("oid sha256:" +:+ d) = Some ("sha256:" +:+ d)) as -> by (by apply strip_prefix_Some).
  assert (strip_prefix "oid " ("size " +:+ n) = None) as -> by done.
  assert (strip_prefix "size " ("size " +:+ n) = Some n) as -> by (by apply strip_prefix_Some).
  rewrite (trim_id plain_char n) by (done || apply decimal_plain). unfold n. rewrite parse_usize_decimal by done.
  rewrite (trim_id (λ c, is_ascii_hexdigit c || bool_decide (c ∈ ["s"%char; "h"%char; ":"%char])) ("sha256:" +:+ d)); cycle 1.
  { done. }
  { rewrite string_forall_app. cbn -[d]. eapply string_forall_impl; [|apply digest_hexdigits]. intros c ->. done. }
  cbn [mbind result_bind ok_or].
  assert (strip_prefix "sha256:" ("sha256:" +:+ d) = Some d) as -> by (by apply strip_prefix_Some). cbn [mbind result_bind ok_or].
  unfold d. rewrite length_digest_hex, digest_hexdigits. done.
Qed.

Lemma verify_lfs_object_Ok p bytes : verify_lfs_object p bytes = Ok tt ↔ N.of_nat (length bytes) = lfs_size p ∧ digest_hex bytes = lfs_sha256 p.
Proof.
  unfold verify_lfs_object. case_decide; [split; [done|by intros []]|]. case_decide; [split; [done|by intros []]|]. split; [|done].
  intros _. by split; [destruct (decide (N.of_nat (length bytes) = lfs_size p))|destruct (decide (digest_hex bytes = lfs_sha256 p))].
Qed.

(** The pointer file of a content is read as its pointer.  Whatever the transport
    answers, an object materialized for that pointer is the content itself, or a
    digest collision with it; and a server that answers the batch request with a
    download link under which it serves the content gives it back. *)
Theorem lfs_content_restored content endpoint (transport : T) : N.of_nat (length content) ≤ u64_max →
  let p := pointer_of content in
  parse_lfs_pointer (as_bytes (pointer_text content)) = Ok p ∧
  (∀ m, materialize_lfs_via_batch p endpoint transport = Ok m →
     lfs_pointer m = p ∧ length (lfs_bytes m) = length content ∧ (lfs_bytes m = content ∨ collision (lfs_bytes m) content)) ∧
  (∀ response href, post_batch transport endpoint (build_batch_download_request [p]) = Ok response →
     from_utf8 response ≫= from_str = Some (download_answer p href) → lfs_get transport href = Ok content →
     materialize_lfs_via_batch p endpoint transport = Ok {| lfs_pointer := p; lfs_bytes := content |}).
Proof.
  intros Hlen p. split_and!; [by apply parse_pointer_text|..].
  - intros m Hm. unfold materialize_lfs_via_batch in Hm.
    destruct (post_batch _ _ _) as [r|]; cbn [mbind result_bind] in Hm; [|done].
    destruct (parse_batch_response r) as [acts|]; cbn [mbind result_bind] in Hm; [|done].
    destruct (List.find _ acts) as [act|]; cbn [ok_or mbind result_bind] in Hm; [|done].
    destruct (lfs_get _ _) as [bytes|]; cbn [mbind result_bind] in Hm; [|done].
    destruct (verify_lfs_object p bytes) as [[]|] eqn:Ev; cbn [mbind result_bind] in Hm; [|done].
    apply verify_lfs_object_Ok in Ev as [Hl Hd]. injection Hm as <-. cbn. split_and!; [done|by apply Nat2N.inj|by apply digest_hex_eq].
  - intros response href Hp Hr Hg. unfold materialize_lfs_via_batch. rewrite Hp. cbn [mbind result_bind].
    unfold parse_batch_response. rewrite Hr. cbn [ok_or mbind result_bind].
    assert (value_get (download_answer p href) "objects" = Some (Array [json_object [("oid", Str (lfs_sha256 p)); ("size", Number (PosInt (lfs_size p)));
      ("actions", json_object [("download", json_object [("href", Str href)])])]])) as -> by done.
    cbn [ok_or mbind result_bind parse_batch_objects].
    assert (parse_batch_object (json_object [("oid", Str (lfs_sha256 p)); ("size", Number (PosInt (lfs_size p)));
      ("actions", json_object [("download", json_object [("href", Str href)])])]) =
      Ok {| act_sha256 := lfs_sha256 p; act_size := lfs_size p; act_href := href |}) as -> by done.
    cbn [mbind result_bind List.find act_sha256]. rewrite bool_decide_true by done. cbn [ok_or mbind result_bind act_href]. rewrite Hg.
    cbn [mbind result_bind]. by rewrite (proj2 (verify_lfs_object_Ok p content)).
Qed.
End LfsSpec.

Module ImportExample.
Import Toy BlobsExample.
#[local] Existing Instance Codec.codec.
#[local] Existing Instance Codec.codec_laws.

#[export] Instance toy_sha1 : Sha1 := {| sha1 b := be_bytes 20 (foldl (λ acc x, acc * 3 + Byte.to_N x + 1) 0 b) |}.

Definition line (s : string) : string := s +:+ String newline EmptyString.
Definition commit_text (author message : string) : list byte :=
  as_bytes (line "tree aa" +:+ line ("author " +:+ author +:+ " 7 +0000") +:+ line EmptyString +:+ message).
Definition text1 : list byte := commit_text "ann" "first".
Definition text2 : list byte := commit_text "bob" "second".
Definition oid1 : string := compute_git_oid "commit" text1.
Definition oid2 : string := compute_git_oid "commit" text2.
Definition objects : list (string * list byte) := [(oid1, text1); (oid2, text2)].
Definition find_object (oid : string) : option (list byte) :=
  snd <$> List.find (λ o, bool_decide (o.1 = oid)) objects.
#[export] Instance git : CatFile := {|
  cat_file_type oid := Ok (match find_object oid with
    | Some _ => {| success := true; stdout := as_bytes (line "commit") |}
    | None => {| success := false; stdout := [] |} end);
  cat_file_batch oid := Ran {| success := true; stdout := match find_object oid with
    | Some b => batch_text oid "commit" b
    | None => as_bytes (line (oid +:+ " missing")) end |} |}.

Definition at_seq (seq : N) : N := 100 + seq.
Definition events_of (oids : list string) : list EventRecord :=
  match import_commits "user:ann" at_seq oids 0 (head_hash EventLog_new) with Ok l => l | Err _ => [] end.

Lemma import_extends_log_witness :
  let log' := append_all EventLog_new (events_of [oid1; oid2]) in
  records log' = events_of [oid1; oid2] ∧ (intact [] → intact (records log')) ∧
  replay_unchecked (records log') = replay_unchecked [] ∧
  Forall2 (λ oid e, kind e = COMMIT_EVENT_KIND ∧ ∃ bytes,
    compute_git_oid "commit" bytes = oid ∧ from_str (payload e) = Some (commit_payload (parse_commit_meta oid bytes)))
    [oid1; oid2] (events_of [oid1; oid2]).
Proof. apply (import_extends_log "user:ann" at_seq EventLog_new); [done|vm_compute; reflexivity]. Defined.

Definition start : ImportCursor := ImportCursor_new "r" "refs/heads/main" (head_hash EventLog_new) 0.
Lemma resume_is_whole_witness :
  let c' := cursor_after start [oid1] (events_of [oid1]) 9 in
  compute_idempotency c' [oid1; oid2] = IncrementalSync [oid2] ∧ (∀ oid, oid ∈ [oid2] → oid ∉ [oid1]) ∧
  import_commits "user:ann" at_seq [oid1; oid2] 0 (head_hash EventLog_new) =
    (y ← import_commits "user:ann" at_seq [oid2] (next_seq c') (last_event_hash c'); Ok (events_of [oid1] ++ y)).
Proof.
  apply (resume_is_whole "user:ann" at_seq start [oid1] [oid2] (events_of [oid1]) 9).
  - by_decision.
  - done.
  - by_decision.
  - vm_compute. reflexivity.
Defined.

Lemma read_git_object_framed_witness :
  read_git_object oid1 "commit" = Ok {| io_oid := oid1; io_kind := "commit"; io_bytes := text1 |}.
Proof. apply read_git_object_framed; try (vm_compute; reflexivity); by_decision. Defined.

(** A commit git does not have. *)
Example absent : read_git_object "00" "commit" = Err (ObjectNotFound "00").
Proof. vm_compute. reflexivity. Qed.

(** The empty lines a message starts with are dropped. *)
Example leading_lines_lost :
  meta_message (parse_commit_meta "x" (commit_text "ann" (line EmptyString +:+ "body"))) = "body".
Proof. vm_compute. reflexivity. Qed.

(** Two repository and ref pairs with one cursor. *)
Example cursor_shared :
  cursor_load (cursor_save {| cursors := ∅ |} (ImportCursor_new "a:b" "c" "h" 0)) "a" "b:c"
  = Some (ImportCursor_new "a:b" "c" "h" 0).
Proof. vm_compute. reflexivity. Qed.

(** A server of one file. *)
Definition stored : list byte := as_bytes "large file".
#[export] Instance server : LfsTransport unit := {|
  post_batch _ _ _ := Ok (as_bytes (to_string (download_answer (pointer_of stored) "https://store/1")));
  lfs_get _ href := if decide (href = "https://store/1") then Ok stored else Err NotAPointer |}.

Lemma lfs_content_restored_witness :
  materialize_lfs_via_batch (pointer_of stored) "https://lfs" tt = Ok {| lfs_pointer := pointer_of stored; lfs_bytes := stored |}.
Proof.
  apply (lfs_content_restored stored "https://lfs" tt ltac:(done))
    with (response := as_bytes (to_string (download_answer (pointer_of stored) "https://store/1"))) (href := "https://store/1");
    vm_compute; reflexivity.
Defined.

(** A pointer with an upper-case digest is accepted and can never be verified:
    a computed digest is in lower case. *)
Definition upper : LfsPointer := {| lfs_oid := EmptyString; lfs_size := 10; lfs_sha256 := String "A" (String.string_of_list_byte (replicate 63 x30)) |}.
Example upper_case_accepted :
  parse_lfs_pointer (as_bytes (line LFS_VERSION +:+ line ("oid sha256:" +:+ lfs_sha256 upper) +:+ line "size 10"))
  = Ok {| lfs_oid := "sha256:" +:+ lfs_sha256 upper; lfs_size := 10; lfs_sha256 := lfs_sha256 upper |}.
Proof. vm_compute. reflexivity. Qed.
End ImportExample.
