(* ===== verification/Fence.v ===== *)
(** The secrets broker, from [crates/hugit-fence/src/broker/mod.rs], with its
    helpers ([util.rs]), the seam to the machine that runs the job ([seam.rs])
    and the lease it acts under ([hugit-contracts/src/runner_lease.rs]).

    SHA-256 is the class [Crypto], the secret store and the command transport are
    classes with the operations of the traits; the store the code provides is an
    instance.  A transport call changes the state of the box, so the commands that
    ran are visible in it.  The reference notions are a reader of shell words, a
    resolver of slash-separated paths and a base64 decoder. *)

From S2P Require Import Prelude Text Scan Crypto Secret.

(** * Utilities *)

Definition slash_char : ascii := "/"%char.

Fixpoint normalize_segments (segs : list string) : option (list string) :=
  match segs with
  | [] => Some []
  | seg :: segs =>
      if decide (seg = EmptyString ∨ seg = ".") then normalize_segments segs
      else if decide (seg = "..") then None
      else (cons seg) <$> normalize_segments segs
  end.
Definition normalize_path (path : string) : option (list string) :=
  if starts_with path "/" then None else normalize_segments (split_char slash_char path).

Definition single_quote : ascii := ascii_of_nat 39.
Definition backslash : ascii := ascii_of_nat 92.

(** [s.replace] of a quote by quote, backslash, quote, quote. *)
Fixpoint escape_quotes (s : string) : string :=
  match s with
  | EmptyString => EmptyString
  | String c s =>
      if decide (c = single_quote)
      then String single_quote (String backslash (String single_quote (String single_quote (escape_quotes s))))
      else String c (escape_quotes s)
  end.
Definition shell_quote (s : string) : string :=
  String single_quote (escape_quotes s +:+ String single_quote EmptyString).

Definition BASE64_ALPHABET : string := "ABCDEFGHIJKLMNOPQRSTUVWXYZabcdefghijklmnopqrstuvwxyz0123456789+/".
Definition base64_char (n : N) : ascii := default "="%char (String.get (N.to_nat (N.land n 63)) BASE64_ALPHABET).
Definition chunk_value (b0 b1 b2 : N) : N := N.lor (N.lor (N.shiftl b0 16) (N.shiftl b1 8)) b2.
Fixpoint base64_encode (bytes : list byte) : string :=
  match bytes with
  | [] => EmptyString
  | [b0] =>
      let n := chunk_value (Byte.to_N b0) 0 0 in
      String (base64_char (N.shiftr n 18)) (String (base64_char (N.shiftr n 12)) "==")
  | [b0; b1] =>
      let n := chunk_value (Byte.to_N b0) (Byte.to_N b1) 0 in
      String (base64_char (N.shiftr n 18)) (String (base64_char (N.shiftr n 12)) (String (base64_char (N.shiftr n 6)) "="))
  | b0 :: b1 :: b2 :: rest =>
      let n := chunk_value (Byte.to_N b0) (Byte.to_N b1) (Byte.to_N b2) in
      String (base64_char (N.shiftr n 18)) (String (base64_char (N.shiftr n 12))
        (String (base64_char (N.shiftr n 6)) (String (base64_char n) (base64_encode rest))))
  end.

(** [trim_start_matches] and [trim_end_matches] of a text, and [rsplit_once]. *)
Definition trim_start_matches (w s : string) : string := trim_front [w] (String.length s) s.
Definition trim_end_matches (w s : string) : string :=
  String.rev (trim_front [String.rev w] (String.length s) (String.rev s)).
Definition rsplit_once (c : ascii) (s : string) : option (string * string) :=
  '(b, a) ← split_once c (String.rev s); Some (String.rev a, String.rev b).

(** * Leases, requests and answers *)

Inductive RunnerState := Held | Expired | Crashed | Released.
#[export] Instance RunnerState_eq_dec : EqDecision RunnerState.
Proof. solve_decision. Defined.
Record RunnerLease := {
  lease_id : string; lease_principals : list string; path_set : list string; expiry : N; net_policy : string; tmp_root : string;
  state : RunnerState }.

Record SecretRef := { secret_name : string }.
Inductive BrokerOp := Sign (secret : SecretRef) (message : list byte).
Definition secret_ref (op : BrokerOp) : SecretRef := let 'Sign s _ := op in s.
Definition verb (op : BrokerOp) : string := "sign".
Record BrokerRequest := { lease : RunnerLease; op : BrokerOp }.

Inductive AuditOutcome := Completed | FailedClosed.
Record AuditRecord := {
  audit_lease : string; audit_principals : list string; audit_op : string; audit_secret : string; audit_outcome : AuditOutcome }.
Definition outcome_debug (o : AuditOutcome) : string := match o with Completed => "Completed" | FailedClosed => "FailedClosed" end.
Definition to_log_line (a : AuditRecord) : string :=
  "broker.audit lease=" +:+ audit_lease a +:+ " principals=[" +:+ join_char ">" (audit_principals a) +:+ "] op=" +:+ audit_op a
  +:+ " secret=" +:+ audit_secret a +:+ " outcome=" +:+ outcome_debug (audit_outcome a).
Record BrokerResponse := { output : string; audit_of : AuditRecord }.

Inductive BrokerError :=
| BrokerDown (name reason : string)
| UnknownSecret (name : string)
| BoxFailed (what : string)
| ResultPathEscapes (result_path : string)
| LeaseNotHeld (id : string).
Definition is_broker_down (e : BrokerError) : bool := match e with BrokerDown _ _ => true | _ => false end.

Class SecretStore (S : Type) := { resolve : S → string → result string (option (list byte)) }.

Record InMemoryStore := { secrets : gmap string (list byte); down : bool }.
Definition store_new (secrets : gmap string (list byte)) : InMemoryStore := {| secrets := secrets; down := false |}.
Definition store_down : InMemoryStore := {| secrets := ∅; down := true |}.
#[export] Instance in_memory_secrets : SecretStore InMemoryStore := {|
  resolve s name := if down s then Err "store marked down" else Ok (secrets s !! name) |}.

Record CmdOutput := { code : option Z; cmd_stdout : string; cmd_stderr : string }.
Definition cmd_ok (o : CmdOutput) : bool := bool_decide (code o = Some 0%Z).
Record RunningContainer := { container_name : string }.
Class BoxExec (B : Type) := { box_run : B → list string → B * result string CmdOutput }.

(** * Signing *)

Definition byte_xor (a b : byte) : byte := byte_of_N (N.lxor (Byte.to_N a) (Byte.to_N b)).
Definition hex_digit (n : N) : ascii := ascii_of_N (if n <? 10 then 48 + n else 87 + n).
Definition hex02 (b : byte) : string := String (hex_digit (Byte.to_N b / 16)) (String (hex_digit (Byte.to_N b mod 16)) EmptyString).
Definition BLOCK : nat := 64.

(** The key as one block, padded with zeros. *)
Definition key_block `{Crypto} (key : list byte) : list byte :=
  let k := if (BLOCK <? length key)%nat then sha256 key else key in
  k ++ replicate (BLOCK - length k) x00.
Definition sign_hmac_sha256 `{Crypto} (key message : list byte) : string :=
  let k := key_block key in
  let ipad := zip_with byte_xor (replicate BLOCK x36) k in
  let opad := zip_with byte_xor (replicate BLOCK x5c) k in
  let inner := sha256 (ipad ++ message) in
  let mac := sha256 (opad ++ inner) in
  foldr (λ b s, hex02 b +:+ s) EmptyString mac.

(** * The broker *)

Section Broker.
Context `{Crypto} {S : Type} `{SecretStore S} {B : Type} `{BoxExec B}.

Definition audit (req : BrokerRequest) (outcome : AuditOutcome) : AuditRecord := {|
  audit_lease := lease_id (lease req); audit_principals := lease_principals (lease req); audit_op := verb (op req);
  audit_secret := secret_name (secret_ref (op req)); audit_outcome := outcome |}.
Definition fail_closed_audit (req : BrokerRequest) : AuditRecord := audit req FailedClosed.

Definition execute (store : S) (req : BrokerRequest) : result BrokerError BrokerResponse :=
  if decide (state (lease req) ≠ Held) then Err (LeaseNotHeld (lease_id (lease req)))
  else
    let name := secret_name (secret_ref (op req)) in
    match resolve store name with
    | Ok (Some material) =>
        let 'Sign _ message := op req in
        Ok {| output := sign_hmac_sha256 material message; audit_of := audit req Completed |}
    | Ok None => Err (UnknownSecret name)
    | Err reason => Err (BrokerDown name reason)
    end.

Definition result_path_escapes (p : string) : bool := bool_decide (normalize_path p = None).

(** The script that writes the result. *)
Definition delivery_script (dir out full : string) : string :=
  "mkdir -p " +:+ shell_quote dir +:+ " && printf %s " +:+ shell_quote out +:+ " > " +:+ shell_quote full.

Definition execute_into_container (store : S) (box : B) (container : RunningContainer) (workspace_root result_rel : string)
    (req : BrokerRequest) : B * result BrokerError BrokerResponse :=
  if result_path_escapes result_rel then (box, Err (ResultPathEscapes result_rel))
  else
    let rel := trim_start_matches "/" (trim_start_matches "./" result_rel) in
    if decide (rel = EmptyString) then (box, Err (ResultPathEscapes result_rel))
    else
      let root := trim_end_matches "/" workspace_root in
      let full := root +:+ "/" +:+ rel in
      match execute store req with
      | Err e => (box, Err e)
      | Ok resp =>
          let dir := match rsplit_once slash_char full with Some (d, _) => d | None => root end in
          let '(box, out) := box_run box
            ["docker"; "exec"; container_name container; "sh"; "-c"; delivery_script dir (output resp) full] in
          match out with
          | Err e => (box, Err (BoxFailed e))
          | Ok out =>
              if negb (cmd_ok out)
              then (box, Err (BoxFailed ("delivering broker result into " +:+ container_name container +:+ " failed: " +:+ trim (cmd_stderr out))))
              else (box, Ok resp)
          end
      end.

(** * Scanning for the credential *)

Record CredentialScan := { found : bool; report : string }.
Definition is_clean (s : CredentialScan) : bool := negb (found s).

Fixpoint report_loop (env proc disk : bool) (count : nat) (toks : list string) : bool :=
  match toks with
  | [] => (count =? 3)%nat && env && proc && disk
  | tok :: toks =>
      match split_once "=" tok with
      | None => false
      | Some (k, v) =>
          match parse_usize (as_bytes v) with
          | None => false
          | Some n =>
              if negb (n =? 0) then false
              else if decide (k = "env") then report_loop true proc disk (count + 1) toks
              else if decide (k = "proc") then report_loop env true disk (count + 1) toks
              else if decide (k = "disk") then report_loop env proc true (count + 1) toks
              else false
          end
      end
  end.
Definition report_is_clean (report : string) : bool := report_loop false false false 0 (split_whitespace report).

Definition quoted (s : string) : string := String (ascii_of_nat 34) (s +:+ String (ascii_of_nat 34) EmptyString).
Definition zero_byte_text : string := String single_quote (String backslash ("0" +:+ String single_quote EmptyString)).
Definition blank_text : string := String single_quote (" " +:+ String single_quote EmptyString).
Definition counts_text : string := String single_quote ("env=%s proc=%s disk=%s" +:+ String single_quote EmptyString).
Definition scan_script (b64 root : string) : string :=
  "td=$(mktemp -d); pf=$td/p; printf %s " +:+ shell_quote b64 +:+ " | base64 -d > $pf; "
  +:+ "env_hit=$(env | grep -Fc -f $pf || true); "
  +:+ "proc_hit=$(for d in /proc/[0-9]*; do "
  +:+ "[ " +:+ quoted "$d" +:+ " = " +:+ quoted "/proc/$$" +:+ " ] && continue; "
  +:+ "tr " +:+ zero_byte_text +:+ " " +:+ blank_text +:+ " < $d/cmdline 2>/dev/null; echo; "
  +:+ "done | grep -Fc -f $pf || true); "
  +:+ "disk_hit=$(grep -rFl -f $pf " +:+ shell_quote root +:+ " 2>/dev/null | grep -c . || true); "
  +:+ "rm -rf $td; "
  +:+ "printf " +:+ counts_text +:+ " " +:+ quoted "$env_hit" +:+ " " +:+ quoted "$proc_hit" +:+ " " +:+ quoted "$disk_hit".

Definition scan_credential_absent (box : B) (container : RunningContainer) (workspace_root : string) (needle : list byte)
    : B * result string CredentialScan :=
  let b64 := base64_encode needle in
  let root := trim_end_matches "/" workspace_root in
  let '(box, out) := box_run box ["docker"; "exec"; container_name container; "sh"; "-c"; scan_script b64 root] in
  match out with
  | Err e => (box, Err ("scanning " +:+ container_name container +:+ " for credential: " +:+ e))
  | Ok out =>
      if negb (cmd_ok out) then (box, Err ("credential scan shell failed in " +:+ container_name container))
      else let report := trim (cmd_stdout out) in (box, Ok {| found := negb (report_is_clean report); report := report |})
  end.
End Broker.

(** * Reading a script as a shell does *)

(** Words and operators of a simple command line: blanks end a word, a backslash
    outside quotes takes the next character as it is, and between single quotes
    every character but the quote is itself.  Any other character with a meaning
    to the shell is refused. *)
Inductive ShellToken := Word (s : string) | AndIf | RedirectTo.

Definition shell_plain (c : ascii) : bool :=
  is_ascii_alphanumeric c || bool_decide (c ∈ ["-"; "%"; "_"; "."; "/"; ":"; "+"; "="; ","; "@"]%char).
Definition snoc_char (w : string) (c : ascii) : string := w +:+ String c EmptyString.
Definition emit (w : option string) : list ShellToken := match w with Some w => [Word w] | None => [] end.
Fixpoint shell_read (quote : bool) (w : option string) (s : string) : option (list ShellToken) :=
  match s with
  | EmptyString => if quote then None else Some (emit w)
  | String c s =>
      if quote then
        if decide (c = single_quote) then shell_read false w s
        else shell_read true (Some (snoc_char (default EmptyString w) c)) s
      else if decide (c = single_quote) then shell_read true (Some (default EmptyString w)) s
      else if decide (c = backslash) then
        match s with
        | EmptyString => None
        | String d s => shell_read false (Some (snoc_char (default EmptyString w) d)) s
        end
      else if decide (c = " "%char) then app (emit w) <$> shell_read false None s
      else if decide (c = ">"%char) then (λ l, emit w ++ RedirectTo :: l) <$> shell_read false None s
      else if decide (c = "&"%char) then
        match s with
        | String d s => if decide (d = "&"%char) then (λ l, emit w ++ AndIf :: l) <$> shell_read false None s else None
        | EmptyString => None
        end
      else if shell_plain c then shell_read false (Some (snoc_char (default EmptyString w) c)) s
      else None
  end.
Definition shell_tokens (script : string) : option (list ShellToken) := shell_read false None script.

Lemma snoc_app w c s : snoc_char w c +:+ s = w +:+ String c s.
Proof. unfold snoc_char. rewrite <- string_app_assoc. done. Qed.

(** Inside quotes, an escaped text adds itself to the word and ends outside. *)
Lemma read_escaped s w rest :
  shell_read true (Some w) (escape_quotes s +:+ String single_quote rest) = shell_read false (Some (w +:+ s)) rest.
Proof.
  revert w. induction s as [|c s IH]; intros w.
  - rewrite string_app_nil_r. done.
  - cbn [escape_quotes]. case_decide as Hc.
    + subst c. rewrite <- (snoc_app w). etransitivity; [|apply IH]. done.
    + rewrite string_app_cons. cbn [shell_read]. rewrite decide_False by done. cbn [default]. by rewrite IH, snoc_app.
Qed.
Lemma read_quoted s rest : shell_read false None (shell_quote s +:+ rest) = shell_read false (Some s) rest.
Proof.
  unfold shell_quote. rewrite string_app_cons. cbn [shell_read]. rewrite decide_True by done. cbn [default].
  rewrite <- string_app_assoc. change (String single_quote EmptyString +:+ rest) with (String single_quote rest).
  by rewrite read_escaped.
Qed.

(** The script of a delivery, read by the shell: make one directory, print one
    word into one file, whatever characters the three texts have. *)
Lemma delivery_script_tokens dir out full :
  shell_tokens (delivery_script dir out full) =
  Some [Word "mkdir"; Word "-p"; Word dir; AndIf; Word "printf"; Word "%s"; Word out; RedirectTo; Word full].
Proof.
  unfold shell_tokens, delivery_script.
  change (shell_read false None ("mkdir -p " +:+ ?t)) with
    (app [Word "mkdir"] <$> (app [Word "-p"] <$> shell_read false None t)).
  rewrite read_quoted.
  change (shell_read false (Some dir) (" && printf %s " +:+ ?t)) with
    (app [Word dir] <$> ((λ l, AndIf :: l) <$> shell_read false None (" printf %s " +:+ t))).
  change (shell_read false None (" printf %s " +:+ ?t)) with
    (app [] <$> (app [Word "printf"] <$> (app [Word "%s"] <$> shell_read false None t))).
  rewrite read_quoted.
  change (shell_read false (Some out) (" > " +:+ ?t)) with
    (app [Word out] <$> ((λ l, RedirectTo :: l) <$> (app [] <$> shell_read false None t))).
  rewrite <- (string_app_nil_r (shell_quote full)), read_quoted. done.
Qed.

(** * Resolving paths *)

(** The directory names a path goes through, from some directory: empty names
    and dots stay, two dots go up. *)
Definition walk_name (at_ : list string) (seg : string) : list string :=
  if decide (seg = EmptyString ∨ seg = ".") then at_
  else if decide (seg = "..") then removelast at_ else at_ ++ [seg].
Definition walk_path (at_ : list string) (path : string) : list string := foldl walk_name at_ (split_char slash_char path).

Lemma split_char_app_all sep a b : split_char sep (a +:+ String sep b) = split_char sep a ++ split_char sep b.
Proof.
  induction a as [|c a IH].
  - change (EmptyString +:+ String sep b) with (String sep b). cbn [split_char]. by case_decide.
  - rewrite string_app_cons. cbn [split_char]. rewrite IH. pose proof (split_char_nonempty sep a).
    case_decide; [done|]. by destruct (split_char sep a).
Qed.

Lemma walk_normal segs at_ l : normalize_segments segs = Some l → foldl walk_name at_ segs = at_ ++ l.
Proof.
  revert at_ l. induction segs as [|seg segs IH]; intros at_ l Hn; cbn [normalize_segments] in Hn; simpl.
  - inv_eqs. by rewrite app_nil_r.
  - unfold walk_name at 2. case_decide; [by apply IH|]. case_decide; [done|].
    destruct (normalize_segments segs) as [l'|] eqn:E; simpl in Hn; [|done]. inv_eqs. rewrite (IH _ l') by done.
    by rewrite <- (assoc_L (++)).
Qed.

(** Going to [root/rel] is going to [root] and then through the names of [rel],
    none of which is an empty one, a dot or two dots. *)
Lemma walk_under_root at_ root rel l : normalize_segments (split_char slash_char rel) = Some l →
  walk_path at_ (root +:+ "/" +:+ rel) = walk_path at_ root ++ l.
Proof.
  intros Hl. unfold walk_path. change (root +:+ "/" +:+ rel) with (root +:+ String slash_char rel).
  rewrite split_char_app_all, foldl_app. by apply walk_normal.
Qed.

Lemma trim_front_keeps (p : string → Prop) w fuel s : (∀ t, p (w +:+ t) → p t) → p s → p (trim_front [w] fuel s).
Proof.
  intros Hw. revert s. induction fuel as [|fuel IH]; intros s Hs; cbn [trim_front omap list_omap]; [done|].
  destruct (strip_prefix w s) as [t|] eqn:E; cbn; [|done]. apply strip_prefix_Some in E as ->. by apply IH, Hw.
Qed.

Lemma trimmed_names s l : normalize_path s = Some l →
  normalize_segments (split_char slash_char (trim_start_matches "/" (trim_start_matches "./" s))) = Some l.
Proof.
  unfold normalize_path. destruct (starts_with s "/"); [done|]. intros Hl. unfold trim_start_matches.
  apply (trim_front_keeps (λ s, normalize_segments (split_char slash_char s) = Some l)); [by intros t|].
  apply (trim_front_keeps (λ s, normalize_segments (split_char slash_char s) = Some l)); [by intros t|done].
Qed.

Lemma walk_trim_end at_ root : walk_path at_ (trim_end_matches "/" root) = walk_path at_ root.
Proof.
  unfold trim_end_matches. change (String.rev "/") with "/".
  assert (∀ fuel s, walk_path at_ (String.rev (trim_front ["/"] fuel s)) = walk_path at_ (String.rev s)) as Hf.
  { induction fuel as [|fuel IH]; intros s; cbn [trim_front omap list_omap]; [done|].
    destruct (strip_prefix "/" s) as [t|] eqn:E; cbn [head]; [|done]. apply strip_prefix_Some in E as ->. rewrite IH.
    rewrite string_rev_app. unfold walk_path. change (String.rev "/") with (String slash_char EmptyString).
    by rewrite split_char_app_all, foldl_app. }
  by rewrite Hf, string_rev_rev.
Qed.

Lemma rsplit_once_slash root rel : ∃ d b, rsplit_once slash_char (root +:+ "/" +:+ rel) = Some (d, b) ∧
  root +:+ "/" +:+ rel = d +:+ String slash_char b ∧ has_char slash_char b = false.
Proof.
  unfold rsplit_once. set (full := root +:+ "/" +:+ rel).
  assert (∃ a b, split_once slash_char (String.rev full) = Some (a, b)) as (a & b & Hs).
  { subst full. rewrite string_rev_app. change ("/" +:+ rel) with (String slash_char rel).
    replace (String slash_char rel) with (String slash_char EmptyString +:+ rel) by done. rewrite string_rev_app, <- string_app_assoc.
    change (String.rev (String slash_char EmptyString) +:+ String.rev root) with (String slash_char (String.rev root)).
    generalize (String.rev rel), (String.rev root). intros x y. induction x as [|c x (a & b & IH)].
    - exists EmptyString, y. done.
    - rewrite string_app_cons. cbn [split_once]. case_decide; [by eexists _, _|]. rewrite IH. by eexists _, _. }
  rewrite Hs. cbn [mbind option_bind]. eexists _, _. split; [done|]. apply split_once_Some in Hs as [Hf Ha]. split.
  - rewrite <- (string_rev_rev full), Hf. rewrite string_rev_app.
    replace (String slash_char b) with (String slash_char EmptyString +:+ b) by done. rewrite string_rev_app, <- string_app_assoc. done.
  - clear -Ha. induction a as [|c a IH]; [done|]. simpl in Ha. apply orb_false_iff in Ha as [Hc Ha].
    change (String c a) with (String c EmptyString +:+ a). rewrite string_rev_app, has_char_app, IH by done. simpl. by rewrite Hc.
Qed.

(** * What reaches the job *)

Section Delivery.
Context `{Crypto} {S : Type} `{SecretStore S} {B : Type} `{BoxExec B}.

(** A name that stays in its directory. *)
Definition proper_name (n : string) : Prop := n ≠ EmptyString ∧ n ≠ "." ∧ n ≠ "..".
Lemma normalize_proper p l : normalize_path p = Some l → Forall proper_name l.
Proof.
  unfold normalize_path. destruct (starts_with p "/"); [done|]. generalize (split_char slash_char p). intros segs.
  revert l. induction segs as [|seg segs IH]; intros l Hl; cbn [normalize_segments] in Hl; [by inv_eqs|].
  case_decide as Hd; [by apply IH|]. case_decide; [done|]. destruct (normalize_segments segs); simpl in Hl; [|done]. inv_eqs.
  constructor; [|by apply IH]. unfold proper_name. tauto.
Qed.

Lemma execute_Ok store req resp : execute store req = Ok resp ↔
  state (lease req) = Held ∧ ∃ secret message material, op req = Sign secret message ∧
  resolve store (secret_name secret) = Ok (Some material) ∧
  resp = {| output := sign_hmac_sha256 material message; audit_of := audit req Completed |}.
Proof.
  unfold execute. case_decide as Hs; [split; [done|by intros [? _]]|]. destruct (op req) as [secret message]. cbn [secret_ref]. split.
  - destruct (resolve store (secret_name secret)) as [[m|]|] eqn:Er; [|done..]. intros Heq. split; [by destruct (decide (state (lease req) = Held))|].
    exists secret, message, m. split_and!; [done..|congruence].
  - intros [_ (s & m & mat & [= <- <-] & -> & ->)]. done.
Qed.

(** C27. Delivery runs no command at all, or exactly one.  It runs only under a held
    lease, for a secret the store has and a relative path without a step up; the
    command makes the directory and prints the signature, and nothing else, into
    the file that lies below the workspace root along the names of that path. *)
Theorem delivery_confined store box container root result_rel req box' res :
  execute_into_container store box container root result_rel req = (box', res) →
  (box' = box ∧ ∃ e, res = Err e) ∨
  ∃ secret message material names dir full script,
    state (lease req) = Held ∧ op req = Sign secret message ∧ resolve store (secret_name secret) = Ok (Some material) ∧
    normalize_path result_rel = Some names ∧ Forall proper_name names ∧ (∀ at_, walk_path at_ full = walk_path at_ root ++ names) ∧
    shell_tokens script = Some [Word "mkdir"; Word "-p"; Word dir; AndIf; Word "printf"; Word "%s";
      Word (sign_hmac_sha256 material message); RedirectTo; Word full] ∧
    (∃ base, full = dir +:+ "/" +:+ base ∧ has_char slash_char base = false) ∧
    box' = (box_run box ["docker"; "exec"; container_name container; "sh"; "-c"; script]).1 ∧
    (res = Ok {| output := sign_hmac_sha256 material message; audit_of := audit req Completed |} ∨ ∃ what, res = Err (BoxFailed what)).
Proof.
  unfold execute_into_container, result_path_escapes. case_bool_decide as Hn; [intros [= <- <-]; left; eauto|].
  destruct (normalize_path result_rel) as [names|] eqn:En; [|done]. cbv zeta. set (rel := trim_start_matches "/" _).
  case_decide; [intros [= <- <-]; left; eauto|]. set (r := trim_end_matches "/" root).
  destruct (execute store req) as [resp|e] eqn:Ex; [|intros [= <- <-]; left; eauto].
  apply execute_Ok in Ex as (Hheld & secret & message & material & Hop & Hres & ->). cbn [output].
  destruct (rsplit_once_slash r rel) as (dir & base & -> & Hfull & Hbase). intros Hrun. right.
  exists secret, message, material, names, dir, (r +:+ "/" +:+ rel), (delivery_script dir (sign_hmac_sha256 material message) (r +:+ "/" +:+ rel)).
  split_and!; try done.
  - by eapply normalize_proper.
  - intros at_. rewrite (walk_under_root _ _ _ names) by (by apply trimmed_names). subst r. by rewrite walk_trim_end.
  - apply delivery_script_tokens.
  - exists base. by rewrite Hfull.
  - destruct (box_run box _) as [b out]. simpl. destruct out as [out|]; [destruct (negb (cmd_ok out))|]; congruence.
  - destruct (box_run box _) as [b out]. destruct out as [out|]; [destruct (negb (cmd_ok out))|]; injection Hrun as _ <-; eauto.
Qed.
End Delivery.

(** ** The secret shows in its signature only *)

Section Secrecy.
Context `{Crypto} {S S' : Type} `{SecretStore S} `{SecretStore S'} {B : Type} `{BoxExec B}.

(** Two answers of a store that differ in the material only, and not in its
    signature of the message. *)
Definition same_signature (message : list byte) (a b : result string (option (list byte))) : Prop :=
  match a, b with
  | Ok (Some m), Ok (Some m') => sign_hmac_sha256 m message = sign_hmac_sha256 m' message
  | Ok None, Ok None => True
  | Err r, Err r' => r = r'
  | _, _ => False
  end.

(** Commands, answer, audit record and error are those of any other secret with
    the same signature: nothing else of the material reaches the job. *)
Theorem only_signature_leaves (store : S) (store' : S') (box : B) container root rel req :
  (let 'Sign secret message := op req in
   same_signature message (resolve store (secret_name secret)) (resolve store' (secret_name secret))) →
  execute_into_container store box container root rel req = execute_into_container store' box container root rel req.
Proof.
  intros Hsame. unfold execute_into_container. assert (execute store req = execute store' req) as ->; [|done].
  unfold execute. destruct (op req) as [secret message]. cbn [secret_ref]. case_decide; [done|].
  destruct (resolve store _) as [[m|]|r], (resolve store' _) as [[m'|]|r']; simpl in Hsame; try done; by rewrite Hsame.
Qed.
End Secrecy.

(** * The scan report *)

Definition zero_count (v : string) : Prop := parse_usize (as_bytes v) = Some 0.
Definition counts (ve vp vd : string) : list string := ["env=" +:+ ve; "proc=" +:+ vp; "disk=" +:+ vd].


(** Every token is one of the three names with a count of zero. *)
Definition count_token (k tok : string) : Prop := ∃ v, tok = k +:+ "=" +:+ v ∧ zero_count v.
Definition count_names : list string := ["env"; "proc"; "disk"].

Lemma count_token_split k tok : has_char "=" k = false →
  count_token k tok ↔ ∃ v, split_once "=" tok = Some (k, v) ∧ parse_usize (as_bytes v) = Some 0.
Proof.
  intros Hk. split; intros (v & Hv & Hz); exists v; (split; [|done]).
  - subst tok. apply split_once_Some. by split.
  - by apply split_once_Some in Hv as [-> _].
Qed.

Lemma report_loop_true env proc disk count toks : report_loop env proc disk count toks = true ↔
  (count + length toks)%nat = 3%nat ∧ Forall (λ t, ∃ k, k ∈ count_names ∧ count_token k t) toks ∧
  (env = true ∨ Exists (count_token "env") toks) ∧ (proc = true ∨ Exists (count_token "proc") toks) ∧
  (disk = true ∨ Exists (count_token "disk") toks).
Proof.
  revert env proc disk count. induction toks as [|tok toks IH]; intros env proc disk count.
  - simpl. rewrite !andb_true_iff, Nat.eqb_eq, Nat.add_0_r, !Exists_nil. naive_solver.
  - cbn [report_loop length]. rewrite Forall_cons, !Exists_cons.
    assert (∀ k, k ∈ count_names → has_char "=" k = false) as Hname.
    { intros k Hk. repeat (apply elem_of_cons in Hk as [->|Hk]; [done|]). by apply elem_of_nil in Hk. }
    destruct (split_once "=" tok) as [[k v]|] eqn:Es.
    2: { split; [done|]. intros (_ & [(k & Hk & Ht) _] & _). apply count_token_split in Ht as (v & Hv & _); [|by apply Hname]. congruence. }
    destruct (parse_usize (as_bytes v)) as [n|] eqn:Ep.
    2: { split; [done|]. intros (_ & [(k' & Hk & Ht) _] & _). apply count_token_split in Ht as (v' & Hv & Hz); [|by apply Hname]. congruence. }
    assert (∀ k', has_char "=" k' = false → count_token k' tok ↔ k' = k ∧ n = 0) as Htok.
    { intros k' Hk'. rewrite count_token_split, Es by done. naive_solver. }
    assert ((∃ k', k' ∈ count_names ∧ count_token k' tok) ↔ k ∈ count_names ∧ n = 0) as ->.
    { split; [intros (k' & Hk & Ht); apply Htok in Ht as [-> ->]; [done|by apply Hname]|].
      intros [Hk Hn]. exists k. split; [done|]. apply Htok; [by apply Hname|done]. }
    rewrite !Htok by done. destruct (N.eqb_spec n 0) as [->|Hn]; cbn [negb]; [|naive_solver].
    replace (count + S (length toks))%nat with (count + 1 + length toks)%nat by lia.
    repeat case_decide; subst; rewrite ?IH; unfold count_names; set_solver.
Qed.


Lemma count_token_inj k k' t : k ∈ count_names → k' ∈ count_names → count_token k t → count_token k' t → k = k'.
Proof.
  intros Hk Hk' (v & -> & _) (v' & Heq & _).
  repeat (apply elem_of_cons in Hk as [->|Hk]); try (by apply elem_of_nil in Hk);
  repeat (apply elem_of_cons in Hk' as [->|Hk']); try (by apply elem_of_nil in Hk'); done.
Qed.

Lemma take_token k l : Exists (count_token k) l → ∃ v l', zero_count v ∧ l ≡ₚ (k +:+ "=" +:+ v) :: l'.
Proof.
  intros (t & [l' Hl]%elem_of_Permutation & v & -> & Hz)%Exists_exists. eauto.
Qed.
Lemma other_token k k' v l : k ∈ count_names → k' ∈ count_names → k ≠ k' → zero_count v →
  Exists (count_token k') ((k +:+ "=" +:+ v) :: l) → Exists (count_token k') l.
Proof.
  intros Hk Hk' Hne Hz. rewrite Exists_cons. intros [Ht|]; [|done]. exfalso. apply Hne. apply (count_token_inj _ _ (k +:+ "=" +:+ v)); try done.
  by exists v.
Qed.

(** A report is clean exactly when it is the three counts, in any order, and all
    of them are zero: anything cut short, repeated or unreadable is a hit. *)
Theorem report_is_clean_iff report : report_is_clean report = true ↔
  ∃ ve vp vd, zero_count ve ∧ zero_count vp ∧ zero_count vd ∧ split_whitespace report ≡ₚ counts ve vp vd.
Proof.
  unfold report_is_clean. rewrite report_loop_true. generalize (split_whitespace report). intros toks. cbn [Nat.add].
  assert ("env" ∈ count_names ∧ "proc" ∈ count_names ∧ "disk" ∈ count_names) as (He & Hp & Hd) by (split_and!; by_decision). split.
  - intros (Hlen & _ & [|Ee] & [|Ep] & [|Ed]); try done.
    apply take_token in Ee as (ve & l1 & Hve & H1). rewrite H1 in Ep, Ed, Hlen.
    apply other_token in Ep, Ed; try done. apply take_token in Ep as (vp & l2 & Hvp & H2). rewrite H2 in Ed, Hlen.
    apply other_token in Ed; try done. apply take_token in Ed as (vd & l3 & Hvd & H3). rewrite H3 in Hlen.
    destruct l3; [|simpl in Hlen; lia]. exists ve, vp, vd. split_and!; [done..|]. by rewrite H1, H2, H3.
  - intros (ve & vp & vd & Hve & Hvp & Hvd & Heq). split_and!; [by rewrite Heq|rewrite Heq|right; rewrite Heq..].
    + unfold counts. rewrite !Forall_cons, Forall_nil. split_and!; [exists "env"|exists "proc"|exists "disk"|done]; (split; [done|by eexists]).
    + by left; exists ve.
    + by right; left; exists vp.
    + by right; right; left; exists vd.
Qed.

(** * Base64 gives the bytes back *)

(** RFC 4648: four characters for three bytes, padded with equals signs. *)
Fixpoint index_of (c : ascii) (s : string) : option N :=
  match s with
  | EmptyString => None
  | String d s => if decide (c = d) then Some 0 else N.succ <$> index_of c s
  end.
Definition base64_value (c : ascii) : option N := index_of c BASE64_ALPHABET.
Fixpoint base64_decode (s : string) : option (list byte) :=
  match s with
  | EmptyString => Some []
  | String c0 (String c1 (String c2 (String c3 rest))) =>
      v0 ← base64_value c0; v1 ← base64_value c1;
      if decide (c2 = "="%char) then
        (if decide (c3 = "="%char ∧ rest = EmptyString) then Some [byte_of_N (v0 * 4 + v1 / 16)] else None)
      else
        v2 ← base64_value c2;
        if decide (c3 = "="%char) then
          (if decide (rest = EmptyString) then Some [byte_of_N (v0 * 4 + v1 / 16); byte_of_N (v1 * 16 + v2 / 4)] else None)
        else
          v3 ← base64_value c3; l ← base64_decode rest;
          Some (byte_of_N (v0 * 4 + v1 / 16) :: byte_of_N (v1 * 16 + v2 / 4) :: byte_of_N (v2 * 64 + v3) :: l)
  | _ => None
  end.

Lemma base64_char_value n : base64_value (base64_char n) = Some (n mod 64) ∧ base64_char n ≠ "="%char.
Proof.
  unfold base64_char. change 63 with (N.ones 6). rewrite N.land_ones. change (2 ^ 6) with 64.
  pose proof (N.mod_lt n 64 ltac:(done)) as Hlt. revert Hlt. generalize (n mod 64). clear n. intros n Hn.
  assert (n ∈ N.of_nat <$> seq 0 64) as Hin.
  { apply list_elem_of_fmap. exists (N.to_nat n). split; [lia|]. apply elem_of_seq. lia. }
  clear Hn. vm_compute in Hin. repeat (apply elem_of_cons in Hin as [->|Hin]; [vm_compute; done|]). by apply elem_of_nil in Hin.
Qed.

Lemma chunk_value_sum b0 b1 b2 : b1 < 256 → b2 < 256 → chunk_value b0 b1 b2 = b0 * 65536 + b1 * 256 + b2.
Proof.
  intros H1 H2. unfold chunk_value. change 16 with (8 + 8). rewrite <- N.shiftl_shiftl, <- N.shiftl_lor, !shiftl_lor_low by done. lia.
Qed.

Ltac chunk := rewrite chunk_value_sum by lia; rewrite !N.shiftr_div_pow2;
  change (2 ^ 18) with 262144; change (2 ^ 12) with 4096; change (2 ^ 6) with 64.

(** The bytes of a chunk from its four digits. *)
Lemma chunk_bytes b0 b1 b2 : b0 < 256 → b1 < 256 → b2 < 256 → let n := chunk_value b0 b1 b2 in
  N.shiftr n 18 mod 64 * 4 + N.shiftr n 12 mod 64 / 16 = b0 ∧
  (N.shiftr n 12 mod 64 * 16 + N.shiftr n 6 mod 64 / 4) mod 256 = b1 ∧
  (N.shiftr n 6 mod 64 * 64 + n mod 64) mod 256 = b2.
Proof. intros H0 H1 H2. cbv zeta. chunk. split_and!; zify; Z.to_euclidean_division_equations; lia. Qed.

Lemma byte_of_mod n b : n mod 256 = Byte.to_N b → byte_of_N n = b.
Proof. intros Hn. unfold byte_of_N. by rewrite Hn, Byte.of_to_N. Qed.

(** What the scan ships is what a decoder gives back. *)
Theorem base64_roundtrip bytes : base64_decode (base64_encode bytes) = Some bytes.
Proof.
  induction bytes as [bytes IH] using (induction_ltof1 _ length). unfold ltof in IH.
  destruct bytes as [|b0 [|b1 [|b2 rest]]]; [done|..]; cbn [base64_encode base64_decode]; cbv zeta;
    rewrite !(proj1 (base64_char_value _)); cbn [mbind option_bind].
  - pose proof (Byte.to_N_bounded b0). destruct (chunk_bytes (Byte.to_N b0) 0 0) as (Hc0 & _ & _); try lia.
    rewrite decide_True, decide_True by done. do 2 f_equal. apply byte_of_mod. rewrite Hc0. apply N.mod_small. lia.
  - pose proof (Byte.to_N_bounded b0). pose proof (Byte.to_N_bounded b1).
    destruct (chunk_bytes (Byte.to_N b0) (Byte.to_N b1) 0) as (Hc0 & Hc1 & _); try lia.
    rewrite decide_False by apply base64_char_value. rewrite decide_True, decide_True by done.
    do 2 f_equal; [|f_equal]; apply byte_of_mod; [rewrite Hc0; apply N.mod_small; lia|done].
  - pose proof (Byte.to_N_bounded b0). pose proof (Byte.to_N_bounded b1). pose proof (Byte.to_N_bounded b2).
    destruct (chunk_bytes (Byte.to_N b0) (Byte.to_N b1) (Byte.to_N b2)) as (Hc0 & Hc1 & Hc2); try lia.
    rewrite !decide_False by apply base64_char_value. rewrite IH by (simpl; lia). cbn [mbind option_bind].
    do 2 f_equal; [|f_equal; [|f_equal]]; try apply byte_of_mod; [rewrite Hc0; apply N.mod_small; lia|done..].
Qed.

Module FenceExample.
Import Toy.

(** A box that keeps the commands it ran. *)
#[export] Instance log_box : BoxExec (list (list string)) := {|
  box_run l argv := (l ++ [argv], Ok {| code := Some 0%Z; cmd_stdout := "env=0 proc=0 disk=0"; cmd_stderr := EmptyString |}) |}.

Definition held : RunnerLease := {|
  lease_id := "lease/1"; lease_principals := ["user:owner"; "agent:7"]; path_set := ["src/"]; expiry := 0; net_policy := "none";
  tmp_root := "/work/tmp"; state := Held |}.
Definition request : BrokerRequest := {| lease := held; op := Sign {| secret_name := "k" |} (as_bytes "release") |}.
Definition store (key : list byte) : InMemoryStore := store_new {[ "k" := key ]}.
Definition job : RunningContainer := {| container_name := "job" |}.
Definition key : list byte := as_bytes "secret".

Lemma delivery_confined_witness : ∃ names full at_,
  normalize_path "./out/sig.hex" = Some names ∧ walk_path at_ full = walk_path at_ "/job-ws/" ++ names.
Proof.
  destruct (delivery_confined (store key) ([] : list (list string)) job "/job-ws/" "./out/sig.hex" request _ _ (surjective_pairing _))
    as [[Hb _]|(secret & message & material & names & dir & full & script & _ & _ & _ & Hn & _ & Hw & _)].
  - exfalso. vm_compute in Hb. done.
  - exists names, full, []. split; [done|apply Hw].
Defined.

(** A key and the key with a zero byte behind it sign alike. *)
Lemma only_signature_leaves_witness :
  execute_into_container (store key) ([] : list (list string)) job "/job-ws" "sig" request =
  execute_into_container (store (key ++ [x00])) [] job "/job-ws" "sig" request.
Proof. apply only_signature_leaves. vm_compute. reflexivity. Defined.

(** A path out of the workspace is refused before anything runs. *)
Example escape_refused : execute_into_container (store key) ([] : list (list string)) job "/job-ws" "a/../../x" request
  = ([], Err (ResultPathEscapes "a/../../x")).
Proof. vm_compute. reflexivity. Qed.

(** A call that fails answers with an error alone: no audit record is made. *)
Example failure_not_audited : execute store_down request = Err (BrokerDown "k" "store marked down").
Proof. vm_compute. reflexivity. Qed.

(** Delivered straight below the file-system root, the directory to make is the
    empty name, which [mkdir] refuses. *)
Example root_has_no_name : shell_tokens (delivery_script EmptyString "s" "/sig") =
  Some [Word "mkdir"; Word "-p"; Word EmptyString; AndIf; Word "printf"; Word "%s"; Word "s"; RedirectTo; Word "/sig"] ∧
  fst <$> rsplit_once slash_char (trim_end_matches "/" "/" +:+ "/" +:+ "sig") = Some EmptyString.
Proof. split; vm_compute; reflexivity. Qed.

Example base64_vectors : base64_encode (as_bytes "foobar") = "Zm9vYmFy" ∧ base64_encode (as_bytes "f") = "Zg==".
Proof. split; vm_compute; reflexivity. Qed.
End FenceExample.
