(* ===== verification/Union.v ===== *)
(** Bounded diagnosis of a union and the authorization it grants:
    [crates/hugit-queue/src/core/union.rs].

    The check oracle is a parameter (the [MemoCheck] trait), and so is the
    clock: the [n]-th reading of [Instant::now] is [now n], and every reading
    the code makes is made here, in the same place.  Instants and durations are
    natural numbers; [instant_max] is the last representable instant.

    The theorems: what a context-bound result authorizes was itself probed
    green, exactly as a set, and what it excludes was probed red (a pair only
    when each of its members is green alone); a result partitions the batch;
    the probes stay within the budget; a result that stopped, expired, was
    invalidated or is presented with other inputs authorizes nothing; lanes are
    pairwise disjoint and partition the batch in queue order. *)

From S2P Require Import Prelude Text Queue.

(** * Verdicts and limits *)

Module Verdict.
Inductive UnionVerdict := Green | Red | Unknown | InfrastructureFailure.
#[global] Instance UnionVerdict_eq_dec : EqDecision UnionVerdict.
Proof. solve_decision. Defined.
Definition as_str (v : UnionVerdict) : string :=
  match v with
  | Green => "green"
  | Red => "red"
  | Unknown => "unknown"
  | InfrastructureFailure => "infrastructure_failure"
  end.
End Verdict.
Export Verdict (UnionVerdict).

Inductive CheckSource := Hit | Executed.
#[global] Instance CheckSource_eq_dec : EqDecision CheckSource.
Proof. solve_decision. Defined.

Module Stop.
Inductive EvaluationStop :=
| ProbeBudgetExhausted | DeadlineExceeded | Unknown | InfrastructureFailure
| InvalidBatch | InvalidLimits | InvalidContext | Invalidated.
#[global] Instance EvaluationStop_eq_dec : EqDecision EvaluationStop.
Proof. solve_decision. Defined.
Definition as_str (s : EvaluationStop) : string :=
  match s with
  | ProbeBudgetExhausted => "probe_budget_exhausted"
  | DeadlineExceeded => "deadline_exceeded"
  | Unknown => "unknown"
  | InfrastructureFailure => "infrastructure_failure"
  | InvalidBatch => "invalid_batch"
  | InvalidLimits => "invalid_limits"
  | InvalidContext => "invalid_context"
  | Invalidated => "invalidated"
  end.
End Stop.
Export Stop (EvaluationStop).

Record EvaluationLimits := { max_probes : nat; timeout : N }.
Definition DEFAULT_MAX_PROBES : nat := 64.
(** Thirty seconds, in nanoseconds. *)
Definition DEFAULT_EVALUATION_TIMEOUT : N := 30000000000.
Definition default_limits : EvaluationLimits :=
  {| max_probes := DEFAULT_MAX_PROBES; timeout := DEFAULT_EVALUATION_TIMEOUT |}.

Inductive FailureLocus :=
| Pair (p : MinimalFailingPair)
| SingleItem (id : string)
| Unlocalised.

(** * Contexts and snapshots *)

Record EvaluationContext := {
  operation_id : string;
  base_id : string;
  config_id : string;
  scope : string;
}.
#[global] Instance EvaluationContext_eq_dec : EqDecision EvaluationContext.
Proof. solve_decision. Defined.

Definition label_ok (s : string) : bool :=
  bool_decide (trim s ≠ "") && (String.length s <=? 512)%nat && negb (any_control s).
Definition context_is_valid (c : EvaluationContext) : bool :=
  forallb label_ok [operation_id c; base_id c; config_id c; scope c].

Record MemberSnapshot := {
  snap_item : string;
  snap_intent : string;
  snap_tree : string;
  snap_order : N;
  snap_affected : list string;
  snap_state : string;
}.
#[global] Instance MemberSnapshot_eq_dec : EqDecision MemberSnapshot.
Proof. solve_decision. Defined.
Record BatchSnapshot := { snap_batch : string; members : list MemberSnapshot }.
#[global] Instance BatchSnapshot_eq_dec : EqDecision BatchSnapshot.
Proof. solve_decision. Defined.

(** The derived [Debug] text of a state. *)
Definition state_text (s : EntryState) : string :=
  match s with Landable => "Landable" | Landed => "Landed" | UnionFail => "UnionFail" end.

Definition capture (b : Batch) : BatchSnapshot :=
  {| snap_batch := batch_id b;
     members := (λ e, {| snap_item := entry_id e; snap_intent := entry_intent_id (landable e);
       snap_tree := tree_hash (landable e); snap_order := entry_order e;
       snap_affected := affected_keys (affected e); snap_state := state_text (state e) |})
       <$> entries b |}.

Record ProbeObservation := {
  probe_members : list string;
  returned_verdict : UnionVerdict;
  sources : list CheckSource;
}.

Record EvaluationBinding := {
  binding_context : EvaluationContext;
  binding_batch : BatchSnapshot;
  binding_probes : list ProbeObservation;
}.

(** * The oracle *)

(** The oracle is threaded as a state: a call returns the next one.  The last
    argument of [evaluate_before] is the absolute deadline. *)
Class MemoCheck (M : Type) := {
  evaluate_before : M → list string → N → M * (UnionVerdict * list CheckSource);
  evaluate_in_context : M → list string → N → EvaluationContext →
    M * (UnionVerdict * list CheckSource);
}.

(** [Scoped]: forwards the context and records every answer. *)
Record Scoped (M : Type) := {
  scoped_oracle : M;
  scoped_context : EvaluationContext;
  observations : list ProbeObservation;
}.
Arguments scoped_oracle {M}. Arguments scoped_context {M}. Arguments observations {M}.

Definition scoped_evaluate {M} `{MemoCheck M} (s : Scoped M) (ids : list string) (deadline : N)
    : Scoped M * (UnionVerdict * list CheckSource) :=
  let '(oracle, (verdict, srcs)) :=
    evaluate_in_context (scoped_oracle s) ids deadline (scoped_context s) in
  ({| scoped_oracle := oracle; scoped_context := scoped_context s;
      observations := observations s ++
        [{| probe_members := ids; returned_verdict := verdict; sources := srcs |}] |},
   (verdict, srcs)).

#[global] Instance scoped_memo {M} `{MemoCheck M} : MemoCheck (Scoped M) := {|
  evaluate_before := scoped_evaluate;
  evaluate_in_context := λ s ids deadline _, scoped_evaluate s ids deadline;
|}.

(** * The probe budget *)

(** The oracle, the budget's counters and the number of clock readings made. *)
Record Probing (M : Type) := {
  oracle : M;
  ticks : nat;
  probes : nat;
  executed : N;
  count_complete : bool;
}.
Arguments oracle {M}. Arguments ticks {M}. Arguments probes {M}. Arguments executed {M}.
Arguments count_complete {M}.

Definition executed_of (srcs : list CheckSource) : N :=
  N.of_nat (length (filter (λ s, s = Executed) srcs)).

Section Probe.
Context {M : Type} `{MemoCheck M} (now : nat → N) (limit : nat) (deadline : N).

Definition probe (p : Probing M) (ids : list string)
    : Probing M * result EvaluationStop UnionVerdict :=
  let t1 := now (ticks p) in
  let p := {| oracle := oracle p; ticks := S (ticks p); probes := probes p;
              executed := executed p; count_complete := count_complete p |} in
  if deadline <=? t1 then (p, Err Stop.DeadlineExceeded)
  else if (limit <=? probes p)%nat then (p, Err Stop.ProbeBudgetExhausted)
  else
    let '(o, (verdict, srcs)) := evaluate_before (oracle p) ids deadline in
    let t2 := now (ticks p) in
    let done complete :=
      {| oracle := o; ticks := S (ticks p); probes := S (probes p);
         executed := u64_saturating_add (executed p) (executed_of srcs);
         count_complete := complete |} in
    if deadline <=? t2 then (done false, Err Stop.DeadlineExceeded)
    else match verdict with
         | Verdict.Green | Verdict.Red => (done (count_complete p), Ok verdict)
         | Verdict.Unknown => (done false, Err Stop.Unknown)
         | Verdict.InfrastructureFailure => (done false, Err Stop.InfrastructureFailure)
         end.

(** The three loops of [bisect_failure]: members alone, then pairs. *)
Fixpoint probe_singles (p : Probing M) (ids : list string)
    : Probing M * result EvaluationStop (option string) :=
  match ids with
  | [] => (p, Ok None)
  | id :: ids =>
      match probe p [id] with
      | (p, Err s) => (p, Err s)
      | (p, Ok v) => if decide (v = Verdict.Red) then (p, Ok (Some id)) else probe_singles p ids
      end
  end.

Fixpoint probe_row (p : Probing M) (a : string) (ids : list string)
    : Probing M * result EvaluationStop (option MinimalFailingPair) :=
  match ids with
  | [] => (p, Ok None)
  | b :: ids =>
      match probe p [a; b] with
      | (p, Err s) => (p, Err s)
      | (p, Ok v) =>
          if decide (v = Verdict.Red) then (p, Ok (Some {| item_a := a; item_b := b |}))
          else probe_row p a ids
      end
  end.

Fixpoint probe_pairs (p : Probing M) (ids : list string)
    : Probing M * result EvaluationStop (option MinimalFailingPair) :=
  match ids with
  | [] => (p, Ok None)
  | a :: ids =>
      match probe_row p a ids with
      | (p, Ok None) => probe_pairs p ids
      | r => r
      end
  end.

Definition bisect_failure (p : Probing M) (ids : list string)
    : Probing M * result EvaluationStop FailureLocus :=
  match probe_singles p ids with
  | (p, Err s) => (p, Err s)
  | (p, Ok (Some id)) => (p, Ok (SingleItem id))
  | (p, Ok None) =>
      match probe_pairs p ids with
      | (p, Err s) => (p, Err s)
      | (p, Ok (Some fp)) => (p, Ok (Pair fp))
      | (p, Ok None) => (p, Ok Unlocalised)
      end
  end.
End Probe.

(** * Evaluation *)

Record UnionEvaluation := {
  verdict : UnionVerdict;
  minimal_failing_pair : option MinimalFailingPair;
  failure : option FailureLocus;
  proceeding : list string;
  executed_count : N;
  execution_count_complete : bool;
  held : list string;
  remainder_verdict : option UnionVerdict;
  stop_reason : option EvaluationStop;
  probe_count : nat;
  ev_max_probes : nat;
  elapsed : N;
  ev_timeout : N;
  evaluated_members : list string;
  validated_members : list string;
  excluded_members : list string;
  valid_until : option N;
  revoked : bool;
  binding : option EvaluationBinding;
}.

(** The fields the diagnosis writes. *)
Record Diagnosis := {
  d_verdict : UnionVerdict;
  d_failure : option FailureLocus;
  d_proceeding : list string;
  d_held : list string;
  d_remainder : option UnionVerdict;
  d_excluded : list string;
}.

Definition locus_excluded (l : FailureLocus) : option (list string) :=
  match l with
  | Pair p => Some [item_a p; item_b p]
  | SingleItem id => Some [id]
  | Unlocalised => None
  end.

(** The closure of [evaluate_union_with_clock]; on an early return the fields
    written so far are kept. *)
Definition diagnose {M} `{MemoCheck M} (now : nat → N) (limit : nat) (deadline : N)
    (batch : Batch) (ids : list string) (p : Probing M)
    : Diagnosis * Probing M * result EvaluationStop unit :=
  let d0 := {| d_verdict := Verdict.Unknown; d_failure := None; d_proceeding := [];
               d_held := ids; d_remainder := None; d_excluded := [] |} in
  if negb (is_queue_ordered batch) || bool_decide (¬ NoDup ids) || bool_decide ("" ∈ ids)
  then (d0, p, Err Stop.InvalidBatch)
  else if decide (ids = []) then
    ({| d_verdict := Verdict.Green; d_failure := None; d_proceeding := [];
        d_held := []; d_remainder := None; d_excluded := [] |}, p, Ok tt)
  else match probe now limit deadline p ids with
  | (p, Err s) => (d0, p, Err s)
  | (p, Ok v) =>
      if decide (v = Verdict.Green) then
        ({| d_verdict := v; d_failure := None; d_proceeding := ids;
            d_held := []; d_remainder := None; d_excluded := [] |}, p, Ok tt)
      else
        let d1 locus := {| d_verdict := v; d_failure := locus; d_proceeding := [];
                           d_held := ids; d_remainder := None; d_excluded := [] |} in
        match bisect_failure now limit deadline p ids with
        | (p, Err s) => (d1 None, p, Err s)
        | (p, Ok locus) =>
            match locus_excluded locus with
            | None => (d1 (Some locus), p, Ok tt)
            | Some excluded =>
                let remainder := filter (λ id, id ∉ excluded) ids in
                if decide (remainder = []) then
                  ({| d_verdict := v; d_failure := Some locus; d_proceeding := [];
                      d_held := []; d_remainder := None; d_excluded := excluded |}, p, Ok tt)
                else match probe now limit deadline p remainder with
                | (p, Err s) => (d1 (Some locus), p, Err s)
                | (p, Ok rv) =>
                    if decide (rv = Verdict.Green) then
                      ({| d_verdict := v; d_failure := Some locus; d_proceeding := remainder;
                          d_held := []; d_remainder := Some rv; d_excluded := excluded |}, p, Ok tt)
                    else
                      ({| d_verdict := v; d_failure := Some locus; d_proceeding := [];
                          d_held := remainder; d_remainder := Some rv;
                          d_excluded := excluded |}, p, Ok tt)
                end
            end
        end
  end.

Section Evaluate.
Context (instant_max : N).

Definition checked_add (a b : N) : option N :=
  if a + b <=? instant_max then Some (a + b) else None.

Definition pair_of (l : option FailureLocus) : option MinimalFailingPair :=
  match l with Some (Pair p) => Some p | _ => None end.

(** The result of a diagnosis, before the late deadline check. *)
Definition conclude (limits : EvaluationLimits) (ids : list string) (deadline : N)
    (d : Diagnosis) (stop : option EvaluationStop) (probe_count : nat) (executed_count : N)
    (complete : bool) (elapsed : N) : UnionEvaluation :=
  let stopped := match stop with Some _ => true | None => false end in
  let proceeding := if stopped then [] else d_proceeding d in
  {| verdict :=
       if bool_decide (d_verdict d = Verdict.Unknown)
          && bool_decide (stop = Some Stop.InfrastructureFailure)
       then Verdict.InfrastructureFailure else d_verdict d;
     minimal_failing_pair := pair_of (d_failure d);
     failure := d_failure d;
     proceeding := proceeding;
     executed_count := executed_count;
     execution_count_complete := complete;
     held := if stopped then ids else d_held d;
     remainder_verdict := d_remainder d;
     stop_reason := stop;
     probe_count := probe_count;
     ev_max_probes := max_probes limits;
     elapsed := elapsed;
     ev_timeout := timeout limits;
     evaluated_members := ids;
     validated_members := proceeding;
     excluded_members := if stopped then [] else d_excluded d;
     valid_until := Some deadline;
     revoked := stopped;
     binding := None |}.

(** A result constructed too late is stopped as well. *)
Definition expire (ev : UnionEvaluation) : UnionEvaluation :=
  {| verdict := verdict ev; minimal_failing_pair := minimal_failing_pair ev;
     failure := failure ev; proceeding := []; executed_count := executed_count ev;
     execution_count_complete := execution_count_complete ev;
     held := evaluated_members ev; remainder_verdict := remainder_verdict ev;
     stop_reason := Some Stop.DeadlineExceeded; probe_count := probe_count ev;
     ev_max_probes := ev_max_probes ev; elapsed := elapsed ev; ev_timeout := ev_timeout ev;
     evaluated_members := evaluated_members ev; validated_members := [];
     excluded_members := []; valid_until := valid_until ev; revoked := true;
     binding := binding ev |}.

(** [deadline] did not fit: nothing is evaluated. *)
Definition invalid_limits (limits : EvaluationLimits) (ids : list string) : UnionEvaluation :=
  {| verdict := Verdict.Unknown; minimal_failing_pair := None; failure := None;
     proceeding := []; executed_count := 0; execution_count_complete := true;
     held := ids; remainder_verdict := None; stop_reason := Some Stop.InvalidLimits;
     probe_count := 0; ev_max_probes := max_probes limits; elapsed := 0;
     ev_timeout := timeout limits; evaluated_members := ids; validated_members := [];
     excluded_members := []; valid_until := None; revoked := true; binding := None |}.

Definition evaluate_union_with_clock {M} `{MemoCheck M} (batch : Batch) (o : M)
    (limits : EvaluationLimits) (now : nat → N) : M * UnionEvaluation :=
  let start := now 0%nat in
  let ids := entry_id <$> entries batch in
  match checked_add start (timeout limits) with
  | None => (o, invalid_limits limits ids)
  | Some deadline =>
      let p := {| oracle := o; ticks := 1; probes := 0; executed := 0; count_complete := true |} in
      let '(d, p, r) := diagnose now (max_probes limits) deadline batch ids p in
      let stop := match r with Ok _ => None | Err s => Some s end in
      let ev := conclude limits ids deadline d stop (probes p) (executed p) (count_complete p)
                  (now (ticks p) - start) in
      (oracle p,
       if bool_decide (stop = None) && bool_decide (ids ≠ [])
          && (deadline <=? now (S (ticks p)))
       then expire ev else ev)
  end.

Definition set_binding (b : EvaluationBinding) (ev : UnionEvaluation) : UnionEvaluation :=
  {| verdict := verdict ev; minimal_failing_pair := minimal_failing_pair ev;
     failure := failure ev; proceeding := proceeding ev; executed_count := executed_count ev;
     execution_count_complete := execution_count_complete ev;
     held := held ev; remainder_verdict := remainder_verdict ev;
     stop_reason := stop_reason ev; probe_count := probe_count ev;
     ev_max_probes := ev_max_probes ev; elapsed := elapsed ev; ev_timeout := ev_timeout ev;
     evaluated_members := evaluated_members ev; validated_members := validated_members ev;
     excluded_members := excluded_members ev; valid_until := valid_until ev;
     revoked := revoked ev; binding := Some b |}.

Definition reject_context (ev : UnionEvaluation) : UnionEvaluation :=
  {| verdict := Verdict.Unknown; minimal_failing_pair := minimal_failing_pair ev;
     failure := failure ev; proceeding := proceeding ev; executed_count := executed_count ev;
     execution_count_complete := execution_count_complete ev;
     held := held ev; remainder_verdict := remainder_verdict ev;
     stop_reason := Some Stop.InvalidContext; probe_count := probe_count ev;
     ev_max_probes := ev_max_probes ev; elapsed := elapsed ev; ev_timeout := ev_timeout ev;
     evaluated_members := evaluated_members ev; validated_members := validated_members ev;
     excluded_members := excluded_members ev; valid_until := valid_until ev;
     revoked := true; binding := binding ev |}.

(** [Instant::now] is the clock of the unbounded entry points. *)
Definition evaluate_union_with_limits {M} `{MemoCheck M} (now : nat → N) (batch : Batch) (o : M)
    (limits : EvaluationLimits) : M * UnionEvaluation :=
  evaluate_union_with_clock batch o limits now.

Definition evaluate_union {M} `{MemoCheck M} (now : nat → N) (batch : Batch) (o : M)
    : M * UnionEvaluation :=
  evaluate_union_with_limits now batch o default_limits.

Definition evaluate_union_in_context {M} `{MemoCheck M} (now : nat → N) (batch : Batch) (o : M)
    (limits : EvaluationLimits) (context : EvaluationContext) : M * UnionEvaluation :=
  let snapshot := capture batch in
  if context_is_valid context then
    let '(s, ev) := evaluate_union_with_limits now batch
      {| scoped_oracle := o; scoped_context := context; observations := [] |} limits in
    (scoped_oracle s,
     set_binding {| binding_context := context; binding_batch := snapshot;
                    binding_probes := observations s |} ev)
  else
    let '(o, ev) := evaluate_union_with_limits now batch o {| max_probes := 0; timeout := 0 |} in
    (o, set_binding {| binding_context := context; binding_batch := snapshot;
                       binding_probes := [] |} (reject_context ev)).
End Evaluate.

(** * Authorization *)

(** The revocation flag is shared by the clones of a result: [invalidated] is
    whether one of them has been invalidated by the time of the load. *)
Definition authorization_live (ev : UnionEvaluation) (invalidated : bool) (t : N) : bool :=
  negb (revoked ev || invalidated)
  && match valid_until ev with Some until => t <? until | None => false end.

Record BoundAuthorization := { auth_proceeding : list string; auth_excluded : list string }.

(** The liveness is read before and after the comparison: [(i1, t1)] and
    [(i2, t2)] are the two readings. *)
Definition authorize_for (ev : UnionEvaluation) (batch : Batch) (context : EvaluationContext)
    (i1 : bool) (t1 : N) (i2 : bool) (t2 : N) : option BoundAuthorization :=
  b ← binding ev;
  if negb (authorization_live ev i1 t1)
     || bool_decide (binding_context b ≠ context)
     || bool_decide (binding_batch b ≠ capture batch)
  then None
  else if authorization_live ev i2 t2
  then Some {| auth_proceeding := validated_members ev; auth_excluded := excluded_members ev |}
  else None.

Definition deadline_exceeded (ev : UnionEvaluation) (t : N) : bool :=
  match valid_until ev with Some until => until <=? t | None => true end.

Definition validated_proceeding (ev : UnionEvaluation) (invalidated : bool) (t : N) : list string :=
  if bool_decide (is_Some (binding ev)) then []
  else if authorization_live ev invalidated t then validated_members ev else [].
Definition validated_excluded (ev : UnionEvaluation) (invalidated : bool) (t : N) : list string :=
  if bool_decide (is_Some (binding ev)) then []
  else if authorization_live ev invalidated t then excluded_members ev else [].

(** [invalidate]: the fields of this clone; the shared flag is the caller's
    [invalidated] from then on. *)
Definition invalidate (ev : UnionEvaluation) : UnionEvaluation :=
  {| verdict := verdict ev; minimal_failing_pair := minimal_failing_pair ev;
     failure := failure ev; proceeding := []; executed_count := executed_count ev;
     execution_count_complete := execution_count_complete ev;
     held := evaluated_members ev; remainder_verdict := remainder_verdict ev;
     stop_reason := Some Stop.Invalidated; probe_count := probe_count ev;
     ev_max_probes := ev_max_probes ev; elapsed := elapsed ev; ev_timeout := ev_timeout ev;
     evaluated_members := evaluated_members ev; validated_members := validated_members ev;
     excluded_members := excluded_members ev; valid_until := valid_until ev; revoked := true;
     binding := binding ev |}.

Definition outcomes_for_landing (ev : UnionEvaluation) (invalidated : bool) (t : N)
    (ids : list string) : list (string * UnionOutcome) :=
  if bool_decide (is_Some (binding ev)) || negb (authorization_live ev invalidated t)
     || bool_decide (ids ≠ evaluated_members ev)
  then []
  else omap (λ id,
    if decide (id ∈ validated_members ev) then Some (id, Green)
    else if decide (id ∈ excluded_members ev) then Some (id, FailingPairMember)
    else None) ids.

(** * Lanes *)

(** Place an entry in the first lane it is disjoint with. *)
Fixpoint place (es : list BatchEntry) (idx : nat) (entry : BatchEntry) (lanes : list (list nat))
    : list (list nat) :=
  match lanes with
  | [] => [[idx]]
  | lane :: lanes =>
      if forallb (λ k, match es !! k with
                       | Some e => is_disjoint (affected e) (affected entry)
                       | None => true
                       end) lane
      then (lane ++ [idx]) :: lanes
      else lane :: place es idx entry lanes
  end.

Definition lane_indices (es : list BatchEntry) : list (list nat) :=
  foldl (λ lanes '(idx, entry), place es idx entry lanes) [] (imap pair es).

Definition disjoint_lanes (b : Batch) : list (list string) :=
  (λ lane : list nat, omap (λ k, entry_id <$> (entries b !! k : option BatchEntry)) lane)
    <$> lane_indices (entries b).

(** * Diagnoses as sequences of probes *)

Section Relational.
Context {M : Type} `{MemoCheck M} (now : nat → N) (limit : nat) (deadline : N).
Context (R : relation (Probing M)) `{!PreOrder R}.
Context (HR : ∀ p ids p' r, probe now limit deadline p ids = (p', r) → R p p').

Lemma probe_singles_rel p ids p' r : probe_singles now limit deadline p ids = (p', r) → R p p'.
Proof.
  revert p. induction ids as [|id ids IH]; intros p; simpl; [intros; by inv_eqs|].
  destruct (probe now limit deadline p [id]) as [p1 [v|s]] eqn:E; apply HR in E.
  - case_decide; [intros; by inv_eqs|]. intros ?%IH. by etrans.
  - intros. by inv_eqs.
Qed.

Lemma probe_row_rel p a ids p' r : probe_row now limit deadline p a ids = (p', r) → R p p'.
Proof.
  revert p. induction ids as [|b ids IH]; intros p; simpl; [intros; by inv_eqs|].
  destruct (probe now limit deadline p [a; b]) as [p1 [v|s]] eqn:E; apply HR in E.
  - case_decide; [intros; by inv_eqs|]. intros ?%IH. by etrans.
  - intros. by inv_eqs.
Qed.

Lemma probe_pairs_rel p ids p' r : probe_pairs now limit deadline p ids = (p', r) → R p p'.
Proof.
  revert p. induction ids as [|a ids IH]; intros p; simpl; [intros; by inv_eqs|].
  destruct (probe_row now limit deadline p a ids) as [p1 [[fp|]|s]] eqn:E; apply probe_row_rel in E;
    [intros; by inv_eqs| |intros; by inv_eqs].
  intros ?%IH. by etrans.
Qed.

Lemma bisect_failure_rel p ids p' r : bisect_failure now limit deadline p ids = (p', r) → R p p'.
Proof.
  unfold bisect_failure.
  destruct (probe_singles now limit deadline p ids) as [p1 [[id|]|s]] eqn:E1;
    apply probe_singles_rel in E1; [intros; by inv_eqs| |intros; by inv_eqs].
  destruct (probe_pairs now limit deadline p1 ids) as [p2 [[fp|]|s]] eqn:E2;
    apply probe_pairs_rel in E2; intros; inv_eqs; by etrans.
Qed.

Lemma diagnose_rel batch ids p d p' r :
  diagnose now limit deadline batch ids p = (d, p', r) → R p p'.
Proof.
  unfold diagnose. destruct (_ || _); [intros; by inv_eqs|].
  case_decide; [intros; by inv_eqs|].
  destruct (probe now limit deadline p ids) as [p1 [v|s]] eqn:E1; apply HR in E1;
    [|intros; by inv_eqs].
  case_decide; [intros; by inv_eqs|].
  destruct (bisect_failure now limit deadline p1 ids) as [p2 [l|s]] eqn:E2;
    apply bisect_failure_rel in E2; [|intros; inv_eqs; by etrans].
  destruct (locus_excluded l) as [ex|]; [|intros; inv_eqs; by etrans].
  case_decide; [intros; inv_eqs; by etrans|].
  destruct (probe now limit deadline p2 _) as [p3 [rv|s]] eqn:E3; apply HR in E3;
    [|intros; inv_eqs; by do 2 etrans].
  case_decide; intros; inv_eqs; by do 2 etrans.
Qed.
End Relational.

(** * The budget *)

Definition within {M} (limit : nat) (p p' : Probing M) : Prop :=
  (probes p ≤ limit)%nat → (probes p' ≤ limit)%nat.
#[global] Instance within_preorder {M} limit : PreOrder (@within M limit).
Proof. unfold within. split; [by intros ?|]. intros ? ? ? ? ?. auto. Qed.

Lemma probe_within {M} `{MemoCheck M} now limit deadline (p : Probing M) ids p' r :
  probe now limit deadline p ids = (p', r) → within limit p p'.
Proof.
  unfold probe, within. simpl. destruct (deadline <=? _); [intros; by inv_eqs|].
  destruct (Nat.leb_spec limit (probes p)); [intros; by inv_eqs|].
  destruct (evaluate_before _ _ _) as [o [v srcs]].
  destruct (deadline <=? _); [intros; inv_eqs; simpl; lia|].
  destruct v; intros; inv_eqs; simpl; lia.
Qed.

(** * What was observed *)

Definition observed (obs : list ProbeObservation) (ms : list string) (v : UnionVerdict) : Prop :=
  ∃ srcs, {| probe_members := ms; returned_verdict := v; sources := srcs |} ∈ obs.

Lemma observed_mono obs obs' ms v : obs `prefix_of` obs' → observed obs ms v → observed obs' ms v.
Proof. intros [l ->] [srcs Hs]. exists srcs. apply elem_of_app. by left. Qed.

Section ScopedProbes.
Context {M : Type} `{MemoCheck M} (now : nat → N) (limit : nat) (deadline : N).

Definition obs (p : Probing (Scoped M)) : list ProbeObservation := observations (oracle p).

(** Probing only adds observations, one per counted probe. *)
Definition extends (p p' : Probing (Scoped M)) : Prop :=
  obs p `prefix_of` obs p' ∧ (probes p = length (obs p) → probes p' = length (obs p')).
#[global] Instance extends_preorder : PreOrder extends.
Proof.
  split; [by split|]. intros a b c [H1 H2] [H3 H4]. split; [by etrans|auto].
Qed.

Lemma probe_spec (p : Probing (Scoped M)) ids p' r :
  probe now limit deadline p ids = (p', r) →
  extends p p' ∧
  ∀ v, r = Ok v → observed (obs p') ids v ∧ (v = Verdict.Green ∨ v = Verdict.Red).
Proof.
  unfold probe. simpl. destruct (deadline <=? _); [intros; by inv_eqs|].
  destruct (limit <=? probes p)%nat; [intros; by inv_eqs|].
  unfold scoped_evaluate. destruct (evaluate_in_context _ _ _ _) as [o [v srcs]].
  set (new := {| probe_members := ids; returned_verdict := v; sources := srcs |}).
  set (s' := Build_Scoped _ _ _ _).
  assert (∀ c, extends p {| oracle := s'; ticks := S (S (ticks p)); probes := S (probes p);
    executed := u64_saturating_add (executed p) (executed_of srcs); count_complete := c |}) as He.
  { intros c. split; unfold obs; simpl; [by eexists|]. rewrite length_app. simpl. lia. }
  assert (observed (observations s') ids v) as Ho.
  { exists srcs. simpl. apply elem_of_app. right. by apply list_elem_of_singleton. }
  destruct (deadline <=? _); [intros; by inv_eqs|].
  destruct v; intros; inv_eqs; (split; [done|]); intros; inv_eqs; auto.
Qed.

Lemma probe_extends (p : Probing (Scoped M)) ids p' r :
  probe now limit deadline p ids = (p', r) → extends p p'.
Proof. by intros [? _]%probe_spec. Qed.

Lemma probe_singles_spec (p : Probing (Scoped M)) ids p' r :
  probe_singles now limit deadline p ids = (p', Ok r) →
  match r with
  | Some id => id ∈ ids ∧ observed (obs p') [id] Verdict.Red
  | None => ∀ id, id ∈ ids → observed (obs p') [id] Verdict.Green
  end.
Proof.
  revert p. induction ids as [|id ids IH]; intros p; simpl.
  { intros; inv_eqs. by intros ? ?%not_elem_of_nil. }
  destruct (probe now limit deadline p [id]) as [p1 [v|s]] eqn:E; [|done].
  apply probe_spec in E as [_ Hv]. specialize (Hv v eq_refl) as [Hobs Hv]. case_decide.
  - subst. intros. inv_eqs. split; [set_solver|done].
  - destruct Hv as [->|]; [|done]. intros Hs. pose proof (IH _ Hs) as IH'.
    apply (probe_singles_rel now limit deadline extends probe_extends) in Hs as [Hp _].
    destruct r; [destruct IH'; split; [set_solver|done]|].
    intros x [->|Hx]%elem_of_cons; [by eapply observed_mono|by apply IH'].
Qed.

Lemma probe_row_spec (p : Probing (Scoped M)) a ids p' r :
  probe_row now limit deadline p a ids = (p', Ok r) →
  match r with
  | Some fp => item_a fp = a ∧ item_b fp ∈ ids ∧ observed (obs p') [a; item_b fp] Verdict.Red
  | None => ∀ b, b ∈ ids → observed (obs p') [a; b] Verdict.Green
  end.
Proof.
  revert p. induction ids as [|b ids IH]; intros p; simpl.
  { intros; inv_eqs. by intros ? ?%not_elem_of_nil. }
  destruct (probe now limit deadline p [a; b]) as [p1 [v|s]] eqn:E; [|done].
  apply probe_spec in E as [_ Hv]. specialize (Hv v eq_refl) as [Hobs Hv]. case_decide.
  - subst. intros. inv_eqs. simpl. split_and!; [done|set_solver|done].
  - destruct Hv as [->|]; [|done]. intros Hs. pose proof (IH _ Hs) as IH'.
    apply (probe_row_rel now limit deadline extends probe_extends) in Hs as [Hp _].
    destruct r; [destruct IH' as (?&?&?); split_and!; [done|set_solver|done]|].
    intros x [->|Hx]%elem_of_cons; [by eapply observed_mono|by apply IH'].
Qed.

Lemma probe_pairs_spec (p : Probing (Scoped M)) ids p' r :
  probe_pairs now limit deadline p ids = (p', Ok r) →
  match r with
  | Some fp => [item_a fp; item_b fp] `sublist_of` ids ∧
      observed (obs p') [item_a fp; item_b fp] Verdict.Red
  | None => ∀ a b, [a; b] `sublist_of` ids → observed (obs p') [a; b] Verdict.Green
  end.
Proof.
  revert p. induction ids as [|a ids IH]; intros p; simpl.
  { intros; inv_eqs. intros a b Hs. by apply sublist_nil_r in Hs. }
  destruct (probe_row now limit deadline p a ids) as [p1 [[fp|]|s]] eqn:E; [| |done].
  - apply probe_row_spec in E as (<- & Hin & Hobs). intros. inv_eqs. split; [|done].
    apply sublist_skip. by apply singleton_sublist_l.
  - apply probe_row_spec in E. intros Hs. pose proof (IH _ Hs) as IH'.
    apply (probe_pairs_rel now limit deadline extends probe_extends) in Hs as [Hp _].
    destruct r; [destruct IH'; split; [by apply sublist_cons|done]|].
    intros x b Hsub. inversion Hsub; subst.
    + eapply observed_mono; [done|]. apply E. by apply singleton_sublist_l.
    + by apply IH'.
Qed.

Lemma bisect_failure_spec (p : Probing (Scoped M)) ids p' l :
  bisect_failure now limit deadline p ids = (p', Ok l) →
  match l with
  | SingleItem id => id ∈ ids ∧ observed (obs p') [id] Verdict.Red
  | Pair fp => [item_a fp; item_b fp] `sublist_of` ids ∧
      observed (obs p') [item_a fp; item_b fp] Verdict.Red ∧
      ∀ id, id ∈ ids → observed (obs p') [id] Verdict.Green
  | Unlocalised => (∀ id, id ∈ ids → observed (obs p') [id] Verdict.Green) ∧
      ∀ a b, [a; b] `sublist_of` ids → observed (obs p') [a; b] Verdict.Green
  end.
Proof.
  unfold bisect_failure.
  destruct (probe_singles now limit deadline p ids) as [p1 [[id|]|s]] eqn:E1; [| |done].
  { apply probe_singles_spec in E1. intros. by inv_eqs. }
  apply probe_singles_spec in E1.
  destruct (probe_pairs now limit deadline p1 ids) as [p2 [[fp|]|s]] eqn:E2; [| |done];
    pose proof (probe_pairs_rel now limit deadline extends probe_extends _ _ _ _ E2) as [Hp _];
    apply probe_pairs_spec in E2; intros; inv_eqs.
  - destruct E2. split_and!; [done|done|]. intros. eapply observed_mono; eauto.
  - split; [|done]. intros. eapply observed_mono; eauto.
Qed.
End ScopedProbes.

(** The oracle is asked at most as often as the limits allow, whatever the
    batch, its verdicts and the clock, and the reported count is the number of
    answers the recording oracle has seen. *)
Theorem probes_bounded {M} `{MemoCheck M} instant_max batch (o : M) ctx limits now o' ev :
  evaluate_union_with_clock instant_max batch
    {| scoped_oracle := o; scoped_context := ctx; observations := [] |} limits now = (o', ev) →
  probe_count ev = length (observations o') ∧ (probe_count ev ≤ max_probes limits)%nat.
Proof.
  unfold evaluate_union_with_clock.
  destruct (checked_add _ _ _) as [dl|]; [|intros; inv_eqs; simpl; lia].
  destruct (diagnose _ _ _ _ _ _) as [[d p] r] eqn:E.
  pose proof (diagnose_rel now _ dl extends (probe_extends now _ dl) _ _ _ _ _ _ E) as [_ Hcount].
  apply (diagnose_rel now (max_probes limits) dl (within (max_probes limits))) in E;
    [|apply probe_within].
  simpl in Hcount. specialize (Hcount eq_refl).
  intros. inv_eqs. destruct (_ && _); simpl; (split; [done|apply E; simpl; lia]).
Qed.

(** * What a diagnosis establishes *)

Lemma filter_excluded_perm (ids ex : list string) :
  NoDup ids → NoDup ex → ex ⊆ ids → filter (λ id, id ∉ ex) ids ++ ex ≡ₚ ids.
Proof.
  intros Hids Hex Hsub. apply NoDup_Permutation; [|done|].
  - apply NoDup_app. split_and!; [by apply NoDup_filter| |done].
    intros x [? _]%list_elem_of_filter. done.
  - intros x. rewrite elem_of_app, list_elem_of_filter. destruct (decide (x ∈ ex)); set_solver.
Qed.

(** The evidence behind a locus. *)
Definition located (o : list ProbeObservation) (ids : list string) (l : FailureLocus) : Prop :=
  observed o ids Verdict.Red ∧
  match l with
  | SingleItem id => id ∈ ids ∧ observed o [id] Verdict.Red
  | Pair fp => [item_a fp; item_b fp] `sublist_of` ids ∧
      observed o [item_a fp; item_b fp] Verdict.Red ∧
      ∀ id, id ∈ ids → observed o [id] Verdict.Green
  | Unlocalised => (∀ id, id ∈ ids → observed o [id] Verdict.Green) ∧
      ∀ a b, [a; b] `sublist_of` ids → observed o [a; b] Verdict.Green
  end.

Definition diagnosis_sound (o : list ProbeObservation) (ids : list string) (d : Diagnosis) : Prop :=
  (d_proceeding d ≠ [] → observed o (d_proceeding d) Verdict.Green) ∧
  d_proceeding d ++ d_excluded d ++ d_held d ≡ₚ ids ∧
  match d_failure d with
  | None => d_verdict d = Verdict.Green ∧ d_proceeding d = ids
  | Some l => d_verdict d = Verdict.Red ∧ located o ids l ∧
      d_excluded d = default [] (locus_excluded l)
  end.

Lemma located_mono o o' ids l : o `prefix_of` o' → located o ids l → located o' ids l.
Proof.
  intros Hp [Hr Hl]. split; [by eapply observed_mono|].
  destruct l; destruct_and?; split_and?; intros; eauto using observed_mono.
Qed.

Lemma located_excluded o ids l ex :
  NoDup ids → located o ids l → locus_excluded l = Some ex → NoDup ex ∧ ex ⊆ ids.
Proof.
  intros Hnd [_ Hl] Hex. destruct l as [fp|id|]; simpl in Hex; inv_eqs.
  - destruct Hl as (Hs & _). split; [by eapply sublist_NoDup|].
    intros x. by apply sublist_subseteq.
  - destruct Hl as [Hin _]. split; [apply NoDup_singleton|]. set_solver.
Qed.

Section Sound.
Context {M : Type} `{MemoCheck M} (now : nat → N) (limit : nat) (deadline : N).

Lemma diagnose_spec batch ids (p : Probing (Scoped M)) d p' :
  diagnose now limit deadline batch ids p = (d, p', Ok tt) →
  NoDup ids ∧ diagnosis_sound (obs p') ids d.
Proof.
  unfold diagnose. destruct (negb (is_queue_ordered batch)); [done|]. simpl.
  case_bool_decide as Hnd; [done|]. simpl.
  case_bool_decide; [done|]. simpl. intros Hd. split; [done|]. revert Hd.
  case_decide as Hids; [intros; inv_eqs; by split_and!|].
  destruct (probe now limit deadline p ids) as [p1 [v|s]] eqn:E1; [|done].
  apply probe_spec in E1 as [_ Hv]. specialize (Hv v eq_refl) as [Hobs Hv].
  case_decide as Hg.
  { intros. inv_eqs. unfold diagnosis_sound. simpl. by rewrite app_nil_r. }
  destruct Hv as [-> | ->]; [done|].
  destruct (bisect_failure now limit deadline p1 ids) as [p2 [l|s]] eqn:E2; [|done].
  pose proof (bisect_failure_rel now limit deadline extends (probe_extends now limit deadline) _ _ _ _ E2)
    as [Hp2 _].
  assert (located (obs p2) ids l) as Hl.
  { split; [by eapply observed_mono|]. by apply bisect_failure_spec in E2. }
  destruct (locus_excluded l) as [ex|] eqn:Eex.
  - destruct (located_excluded _ _ _ _ Hnd Hl Eex) as [Hex Hsub].
    pose proof (filter_excluded_perm ids ex Hnd Hex Hsub) as Hperm.
    set (rm := filter (λ id, id ∉ ex) ids) in *. case_decide as Hrm.
    { intros. inv_eqs. unfold diagnosis_sound. simpl. rewrite Eex, app_nil_r.
      rewrite Hrm in Hperm. done. }
    destruct (probe now limit deadline p2 rm) as [p3 [rv|s]] eqn:E3; [|done].
    apply probe_spec in E3 as [[Hp3 _] Hrv]. specialize (Hrv rv eq_refl) as [Hobs3 Hrv].
    apply (located_mono _ _ _ _ Hp3) in Hl.
    case_decide as Hg'; intros; inv_eqs; unfold diagnosis_sound; simpl; rewrite Eex; simpl.
    + split_and!; [done|by rewrite app_nil_r|done..].
    + split_and!; [done| |done..]. by rewrite (comm (++)).
  - intros. inv_eqs. unfold diagnosis_sound. simpl. by rewrite Eex.
Qed.
End Sound.

(** The evidence behind an authorization. *)
Lemma authorization_evidence {M} `{MemoCheck M} instant_max now batch (o o' : M) limits ctx ev
    batch' ctx' i1 t1 i2 t2 auth :
  evaluate_union_in_context instant_max now batch o limits ctx = (o', ev) →
  authorize_for ev batch' ctx' i1 t1 i2 t2 = Some auth →
  ctx' = ctx ∧ capture batch' = capture batch ∧ context_is_valid ctx = true ∧
  stop_reason ev = None ∧ i1 = false ∧ i2 = false ∧ deadline_exceeded ev t2 = false ∧
  ∃ b, binding ev = Some b ∧
    let ids := entry_id <$> entries batch in
    let seen := binding_probes b in
    probe_count ev = length seen ∧ NoDup ids ∧
    (auth_proceeding auth ≠ [] → observed seen (auth_proceeding auth) Verdict.Green) ∧
    auth_proceeding auth ++ auth_excluded auth ++ held ev ≡ₚ ids ∧
    match failure ev with
    | None => auth_proceeding auth = ids
    | Some l => located seen ids l ∧ auth_excluded auth = default [] (locus_excluded l)
    end.
Proof.
  unfold evaluate_union_in_context, evaluate_union_with_limits, evaluate_union_with_clock.
  destruct (context_is_valid ctx) eqn:Hctx.
  - destruct (checked_add _ _ _) as [dl|]; [|intros; by inv_eqs].
    destruct (diagnose _ _ _ _ _ _) as [[d p] r] eqn:E.
    pose proof (diagnose_rel now _ dl extends (probe_extends now _ dl) _ _ _ _ _ _ E) as [_ Hcount].
    simpl in Hcount. specialize (Hcount eq_refl).
    intros He Ha. unfold authorize_for, authorization_live in Ha.
    destruct r as [[]|s]; [|simpl in He; inv_eqs; simpl in Ha; done].
    apply diagnose_spec in E as [Hnd (Hpr & Hperm & Hf)].
    simpl in He. destruct (_ && _) in He; inv_eqs; simpl in Ha; [done|].
    destruct i1; simpl in Ha; [done|]. destruct (t1 <? dl); simpl in Ha; [|done].
    case_bool_decide; simpl in Ha; [done|]. case_bool_decide; simpl in Ha; [done|].
    destruct i2; simpl in Ha; [done|]. destruct (N.ltb_spec t2 dl); [|done]. inv_eqs.
    split_and!; try done; [by apply N.leb_gt|]. eexists. split; [done|]. simpl.
    split_and!; [done|done|done|done|]. destruct (d_failure d); naive_solver.
  - intros He Ha. unfold authorize_for, authorization_live in Ha.
    destruct (checked_add _ _ _) as [dl|]; [|inv_eqs; simpl in Ha; done].
    destruct (diagnose _ _ _ _ _ _) as [[d p] r] eqn:E. simpl in He. inv_eqs. simpl in Ha. done.
Qed.

(** A diagnosis that was not stopped: it is green or names the failure of a red
    batch, and it authorizes until its deadline. *)
Lemma evaluation_live {M} `{MemoCheck M} instant_max now batch (o o' : M) limits ctx ev :
  evaluate_union_in_context instant_max now batch o limits ctx = (o', ev) → stop_reason ev = None →
  verdict ev = match failure ev with None => Verdict.Green | Some _ => Verdict.Red end ∧
  ∀ t1 t2, authorize_for ev batch ctx false t1 false t2 =
    if deadline_exceeded ev t1 || deadline_exceeded ev t2 then None
    else Some {| auth_proceeding := validated_members ev; auth_excluded := excluded_members ev |}.
Proof.
  unfold evaluate_union_in_context, evaluate_union_with_limits, evaluate_union_with_clock.
  destruct (context_is_valid ctx) eqn:Hctx.
  - destruct (checked_add _ _ _) as [dl|]; [|intros; by inv_eqs].
    destruct (diagnose _ _ _ _ _ _) as [[d p] r] eqn:E. destruct r as [[]|s]; [|simpl; intros; inv_eqs; simpl in *; done].
    apply diagnose_spec in E as [_ (_ & _ & Hf)]. 
    simpl. intros He. destruct (_ && _) in He; inv_eqs; simpl; [done|]. intros _.
    split; [rewrite andb_false_r; by destruct (d_failure d), Hf as [Hv _]|]. intros t1 t2. unfold authorize_for, authorization_live, deadline_exceeded. simpl.
    rewrite !bool_decide_false by naive_solver. rewrite !N.leb_antisym.
    by destruct (t1 <? dl), (t2 <? dl).
  - destruct (checked_add _ _ _) as [dl|]; [destruct (diagnose _ _ _ _ _ _) as [[d p] r]|]; intros; inv_eqs; simpl in *; done.
Qed.

(** C5. What a context-bound evaluation authorizes, and for whom: the batch and the
    context are the evaluated ones and the context is valid; the diagnosis was
    not stopped, no clone was invalidated and the deadline has not passed; the
    proceeding
    set, unless empty, was itself probed green; the excluded members were
    probed red (alone, or as a pair whose members are each green alone) and the
    whole batch was red; and proceeding, excluded and held members together are
    the batch, each once. *)
Theorem authorized_was_probed {M} `{MemoCheck M} instant_max now batch (o o' : M) limits ctx ev
    batch' ctx' i1 t1 i2 t2 auth :
  evaluate_union_in_context instant_max now batch o limits ctx = (o', ev) →
  authorize_for ev batch' ctx' i1 t1 i2 t2 = Some auth →
  ctx' = ctx ∧ capture batch' = capture batch ∧ context_is_valid ctx = true ∧
  stop_reason ev = None ∧ i1 = false ∧ i2 = false ∧ deadline_exceeded ev t2 = false ∧
  ∃ b, binding ev = Some b ∧
    let ids := entry_id <$> entries batch in
    let seen := binding_probes b in
    probe_count ev = length seen ∧ NoDup ids ∧
    (auth_proceeding auth ≠ [] → observed seen (auth_proceeding auth) Verdict.Green) ∧
    auth_proceeding auth ++ auth_excluded auth ++ held ev ≡ₚ ids ∧
    match failure ev with
    | None => auth_proceeding auth = ids
    | Some l => located seen ids l ∧ auth_excluded auth = default [] (locus_excluded l)
    end.
Proof. apply authorization_evidence. Qed.

(** ** What the oracle answered *)

Section Answers.
Context {M : Type} `{MemoCheck M} (I : M → Prop) (Q : list string → UnionVerdict → Prop).
Context (answers : ∀ o ids deadline ctx o' v srcs, I o → evaluate_in_context o ids deadline ctx = (o', (v, srcs)) → I o' ∧ Q ids v).

Definition answered (obs : list ProbeObservation) : Prop := Forall (λ p, Q (probe_members p) (returned_verdict p)) obs.
Definition keeps_answers (p p' : Probing (Scoped M)) : Prop :=
  I (scoped_oracle (oracle p)) ∧ answered (obs p) → I (scoped_oracle (oracle p')) ∧ answered (obs p').
#[local] Instance keeps_answers_preorder : PreOrder keeps_answers.
Proof. unfold keeps_answers. split; [by intros ?|]. intros ? ? ? ? ?. auto. Qed.

Lemma probe_answers now limit deadline (p : Probing (Scoped M)) ids p' r :
  probe now limit deadline p ids = (p', r) → keeps_answers p p'.
Proof.
  unfold probe, keeps_answers, obs. simpl. destruct (deadline <=? _); [intros; by inv_eqs|].
  destruct (limit <=? probes p)%nat; [intros; by inv_eqs|]. unfold scoped_evaluate.
  destruct (evaluate_in_context (scoped_oracle (oracle p)) ids deadline _) as [o [v srcs]] eqn:E. intros Hp [HI HQ].
  destruct (answers _ _ _ _ _ _ _ HI E) as [HI' Hv].
  assert (answered (observations (oracle p) ++ [{| probe_members := ids; returned_verdict := v; sources := srcs |}])) as HQ'.
  { apply Forall_app. split; [done|]. by constructor. }
  destruct (deadline <=? _); [by inv_eqs|]. destruct v; by inv_eqs.
Qed.

Lemma evaluation_answers instant_max now batch o limits ctx o' ev b :
  evaluate_union_in_context instant_max now batch o limits ctx = (o', ev) → I o → binding ev = Some b → answered (binding_probes b).
Proof.
  unfold evaluate_union_in_context, evaluate_union_with_limits, evaluate_union_with_clock. intros He HI Hb.
  destruct (context_is_valid ctx).
  - destruct (checked_add _ _ _) as [dl|]; [|inv_eqs; simpl in Hb; inv_eqs; constructor].
    destruct (diagnose _ _ _ _ _ _) as [[d p] r] eqn:E.
    apply (diagnose_rel now _ dl keeps_answers (probe_answers now _ dl)) in E. unfold keeps_answers in E.
    destruct E as [_ HQ]; [split; [done|constructor]|].
    simpl in He. destruct (_ && _) in He; inv_eqs; simpl in Hb; by inv_eqs.
  - destruct (checked_add _ _ _) as [dl|]; [destruct (diagnose _ _ _ _ _ _) as [[d p] r]|]; inv_eqs; simpl in Hb; inv_eqs; constructor.
Qed.
End Answers.

(** * Lanes *)

(** An earlier index whose entry is disjoint from the later one's. *)
Definition lane_lt (es : list BatchEntry) (i j : nat) : Prop :=
  (i < j)%nat ∧
  ∀ a b, es !! i = Some a → es !! j = Some b → is_disjoint (affected a) (affected b) = true.

Lemma place_spec es idx e lanes :
  es !! idx = Some e →
  Forall (λ i, (i < idx)%nat) (concat lanes) → Forall (StronglySorted (lane_lt es)) lanes →
  concat (place es idx e lanes) ≡ₚ idx :: concat lanes ∧
  Forall (StronglySorted (lane_lt es)) (place es idx e lanes).
Proof.
  intros He. induction lanes as [|lane lanes IH]; simpl.
  { intros _ _. split; [done|]. repeat constructor. }
  intros [Hlt Hlt']%Forall_app [Hs Hs']%Forall_cons.
  destruct (forallb _ lane) eqn:Ef; simpl.
  - split; [rewrite <- (assoc_L (++)); simpl; symmetry; apply Permutation_middle|]. constructor; [|done].
    apply StronglySorted_snoc; [done|]. apply Forall_forall. intros i Hi.
    rewrite Forall_forall in Hlt. split; [by apply Hlt|]. intros a b Ha Hb.
    rewrite forallb_forall in Ef. apply list_elem_of_In, Ef in Hi. rewrite Ha in Hi. congruence.
  - destruct (IH Hlt' Hs') as [Hp Hf]. split; [by rewrite Hp, Permutation_middle|by constructor].
Qed.

Lemma lane_indices_spec es l :
  l `prefix_of` es →
  let lanes := foldl (λ lanes '(idx, entry), place es idx entry lanes) [] (imap pair l) in
  concat lanes ≡ₚ seq 0 (length l) ∧ Forall (StronglySorted (lane_lt es)) lanes.
Proof.
  induction l as [|e l IH] using rev_ind; intros Hp lanes.
  { subst lanes. simpl. by split. }
  subst lanes. rewrite imap_app, foldl_app. simpl. rewrite Nat.add_0_r.
  destruct IH as [IHp IHf]; [etrans; [|exact Hp]; by eexists|].
  destruct Hp as [tl Htl]. destruct (place_spec es (length l) e
    (foldl (λ lanes '(idx, entry), place es idx entry lanes) [] (imap pair l))) as [Hp Hf].
  - rewrite Htl, <- (assoc_L (++)). by apply list_lookup_middle.
  - rewrite IHp. apply Forall_forall. intros i ?%elem_of_seq. lia.
  - done.
  - split; [|done]. rewrite Hp, IHp, length_app, Nat.add_1_r, seq_S.
    simpl. by rewrite (comm (++) _ [_]).
Qed.

Lemma pick_sublist {A} (l : list A) n (idx : list nat) :
  StronglySorted lt idx → Forall (λ i, (n ≤ i)%nat) idx →
  omap (l !!.) idx `sublist_of` drop n l.
Proof.
  intros Hs. revert n. induction Hs as [|i idx Hs IH Hall]; intros n Hn; simpl.
  { apply sublist_nil_l. }
  inversion Hn as [|? ? Hni _]; subst.
  assert (omap (l !!.) idx `sublist_of` drop (S i) l) as Hsub.
  { apply IH. eapply Forall_impl; [exact Hall|]. lia. }
  assert (drop i l `sublist_of` drop n l) as Hd.
  { replace i with (n + (i - n))%nat by lia. rewrite <- drop_drop. apply sublist_drop. }
  destruct (l !! i) as [x|] eqn:E.
  - etrans; [|exact Hd]. rewrite (drop_S _ _ _ E). by apply sublist_skip.
  - etrans; [exact Hsub|]. etrans; [|exact Hd]. rewrite <- Nat.add_1_r, <- drop_drop. apply sublist_drop.
Qed.

Lemma omap_seq_lookup {A} (l : list A) : omap (l !!.) (seq 0 (length l)) = l.
Proof.
  induction l as [|x l IH] using rev_ind; [done|].
  rewrite length_app, Nat.add_1_r, seq_S, omap_app. simpl.
  rewrite (list_lookup_middle l [] x) by done. f_equal. rewrite <- IH at 2.
  apply list_omap_ext. apply Forall2_same_length_lookup. split; [done|].
  intros i j k [Hj Hjk]%lookup_seq [-> _]%lookup_seq. subst. simpl.
  by rewrite lookup_app_l.
Qed.

(** Lanes partition the batch; each is a subsequence of the queue whose entries
    have pairwise disjoint affected sets. *)
Theorem disjoint_lanes_partition b :
  concat (disjoint_lanes b) ≡ₚ entry_id <$> entries b ∧
  Forall (λ lane, ∃ es, es `sublist_of` entries b ∧ lane = entry_id <$> es ∧
    StronglySorted (λ x y, is_disjoint (affected x) (affected y) = true) es) (disjoint_lanes b).
Proof.
  destruct (lane_indices_spec (entries b) (entries b)) as [Hp Hf]; [done|].
  fold (lane_indices (entries b)) in Hp, Hf. unfold disjoint_lanes. set (es := entries b) in *.
  assert (∀ lane : list nat, omap (λ k, entry_id <$> (es !! k : option BatchEntry)) lane =
    entry_id <$> omap (es !!.) lane) as Hom.
  { induction lane as [|i lane IH]; simpl; [done|]. destruct (es !! i); simpl; [f_equal|]; exact IH. }
  split.
  - assert (∀ L : list (list nat), concat ((λ lane : list nat,
        omap (λ k, entry_id <$> (es !! k : option BatchEntry)) lane) <$> L)
      = omap (λ k, entry_id <$> (es !! k : option BatchEntry)) (concat L)) as ->.
    { induction L as [|x L IH]; [done|]. cbn [concat]. rewrite omap_app, <- IH. done. }
    rewrite Hp, Hom, omap_seq_lookup. done.
  - apply Forall_fmap. eapply Forall_impl; [exact Hf|]. intros lane Hs. unfold compose.
    exists (omap (es !!.) lane). split_and!; [|apply Hom|].
    + apply (pick_sublist es 0); [|apply Forall_true; lia].
      clear -Hs. induction Hs as [|i lane Hs IH Hall]; constructor; [done|].
      eapply Forall_impl; [exact Hall|]. by intros ? [? _].
    + clear -Hs. induction Hs as [|i lane Hs IH Hall]; simpl; [constructor|].
      destruct (es !! i) as [x|] eqn:E; [|done]. constructor; [done|].
      apply Forall_forall. intros y (j & Hj & Hy)%list_elem_of_omap.
      rewrite Forall_forall in Hall. by apply (Hall j Hj).
Qed.

(** * A diagnosis with enough budget and time completes *)

(** The probes of a worst-case diagnosis: the whole batch, every member, every
    pair and the remainder. *)
Fixpoint pair_probes (n : nat) : nat := match n with O => 0 | S n => n + pair_probes n end.
Definition worst_case_probes (n : nat) : nat := 1 + n + pair_probes n + 1.

Lemma pair_probes_eq n : (2 * pair_probes n = n * (n - 1))%nat.
Proof. induction n as [|[|n] IH]; simpl in *; lia. Qed.

Section Complete.
Context {M : Type} `{MemoCheck M} (now : nat → N) (limit : nat) (deadline : N).
Context (in_time : ∀ n, now n < deadline).
Context (decisive : ∀ m ids dl,
  (evaluate_before m ids dl).2.1 = Verdict.Green ∨ (evaluate_before m ids dl).2.1 = Verdict.Red).

(** [n] more probes fit. *)
Definition fits (n : nat) (p : Probing M) : Prop := (probes p + n ≤ limit)%nat.

Lemma fits_le n n' p : (n' ≤ n)%nat → fits n p → fits n' p.
Proof. unfold fits. lia. Qed.

Lemma probe_completes p ids n :
  fits (S n) p → ∃ p' v, probe now limit deadline p ids = (p', Ok v) ∧ fits n p'.
Proof.
  intros Hf. unfold fits in *. unfold probe. simpl.
  destruct (N.leb_spec deadline (now (ticks p))) as [Hle|_]; [specialize (in_time (ticks p)); lia|].
  destruct (Nat.leb_spec limit (probes p)); [lia|].
  pose proof (decisive (oracle p) ids deadline) as Hv.
  destruct (evaluate_before _ _ _) as [o [v srcs]]. simpl in *.
  destruct (N.leb_spec deadline (now (S (ticks p)))) as [Hle|_]; [specialize (in_time (S (ticks p))); lia|].
  destruct Hv as [-> | ->]; do 2 eexists; (split; [done|simpl; lia]).
Qed.

Lemma probe_singles_completes ids p n :
  fits (length ids + n) p →
  ∃ p' r, probe_singles now limit deadline p ids = (p', Ok r) ∧ fits n p'.
Proof.
  revert p. induction ids as [|id ids IH]; intros p Hf; simpl; [by do 2 eexists|].
  destruct (probe_completes p [id] _ Hf) as (p1 & v & -> & Hf1).
  case_decide; [do 2 eexists; split; [done|]; by eapply fits_le; [apply Nat.le_add_l|]|by apply IH].
Qed.

Lemma probe_row_completes a ids p n :
  fits (length ids + n) p →
  ∃ p' r, probe_row now limit deadline p a ids = (p', Ok r) ∧ fits n p'.
Proof.
  revert p. induction ids as [|b ids IH]; intros p Hf; simpl; [by do 2 eexists|].
  destruct (probe_completes p [a; b] _ Hf) as (p1 & v & -> & Hf1).
  case_decide; [do 2 eexists; split; [done|]; by eapply fits_le; [apply Nat.le_add_l|]|by apply IH].
Qed.

Lemma probe_pairs_completes ids p n :
  fits (pair_probes (length ids) + n) p →
  ∃ p' r, probe_pairs now limit deadline p ids = (p', Ok r) ∧ fits n p'.
Proof.
  revert p. induction ids as [|a ids IH]; intros p Hf; simpl; [by do 2 eexists|].
  simpl in Hf. rewrite <- Nat.add_assoc in Hf.
  destruct (probe_row_completes a ids p _ Hf) as (p1 & [fp|] & -> & Hf1); [|by apply IH].
  do 2 eexists. split; [done|]. eapply fits_le; [|exact Hf1]. lia.
Qed.

Lemma bisect_failure_completes ids p n :
  fits (length ids + (pair_probes (length ids) + n)) p →
  ∃ p' l, bisect_failure now limit deadline p ids = (p', Ok l) ∧ fits n p'.
Proof.
  intros Hf. unfold bisect_failure.
  destruct (probe_singles_completes ids p _ Hf) as (p1 & [id|] & -> & Hf1).
  - do 2 eexists. split; [done|]. eapply fits_le; [|exact Hf1]. lia.
  - destruct (probe_pairs_completes ids p1 n Hf1) as (p2 & [fp|] & -> & Hf2); by do 2 eexists.
Qed.

Lemma diagnose_completes batch ids p :
  is_queue_ordered batch = true → NoDup ids → "" ∉ ids →
  fits (worst_case_probes (length ids)) p →
  ∃ d p', diagnose now limit deadline batch ids p = (d, p', Ok tt).
Proof.
  intros Ho Hnd He Hf. unfold diagnose. rewrite Ho, !bool_decide_false by naive_solver. simpl.
  case_decide; [by do 2 eexists|]. unfold worst_case_probes in Hf.
  destruct (probe_completes p ids (length ids + (pair_probes (length ids) + 1))) as (p1 & v & -> & Hf1).
  { eapply fits_le; [|exact Hf]. lia. }
  case_decide; [by do 2 eexists|].
  destruct (bisect_failure_completes ids p1 1 Hf1) as (p2 & l & -> & Hf2).
  destruct (locus_excluded l) as [ex|]; [|by do 2 eexists].
  case_decide; [by do 2 eexists|].
  destruct (probe_completes p2 (filter (λ id, id ∉ ex) ids) 0 Hf2) as (p3 & rv & -> & _).
  case_decide; by do 2 eexists.
Qed.
End Complete.

Lemma probe_decides {M} `{MemoCheck M} now limit deadline (p : Probing M) ids p' v :
  probe now limit deadline p ids = (p', Ok v) → v = Verdict.Green ∨ v = Verdict.Red.
Proof.
  unfold probe. simpl. destruct (deadline <=? _); [done|]. destruct (limit <=? _)%nat; [done|].
  destruct (evaluate_before _ _ _) as [o [w srcs]]. destruct (deadline <=? _); [done|].
  destruct w; intros; inv_eqs; auto.
Qed.

Lemma diagnose_verdict {M} `{MemoCheck M} now limit deadline batch ids (p : Probing M) d p' :
  diagnose now limit deadline batch ids p = (d, p', Ok tt) →
  d_verdict d = Verdict.Green ∨ d_verdict d = Verdict.Red.
Proof.
  unfold diagnose. destruct (_ || _); [done|]. case_decide; [intros; inv_eqs; by left|].
  destruct (probe now limit deadline p ids) as [p1 [v|s]] eqn:E; [|done].
  apply probe_decides in E. case_decide; [intros; inv_eqs; by left|].
  destruct E as [->|E]; [done|].
  destruct (bisect_failure _ _ _ _ _) as [p2 [l|s]]; [|done].
  destruct (locus_excluded l); [|intros; inv_eqs; by right].
  case_decide; [intros; inv_eqs; by right|].
  destruct (probe _ _ _ p2 _) as [p3 [rv|s]]; [|done].
  case_decide; intros; inv_eqs; by right.
Qed.

(** A well-formed batch is diagnosed to the end, never stopped, when the oracle
    answers green or red, the clock stays before the deadline and the limit
    covers the worst case: one probe for the batch, one per member, one per pair
    and one for the remainder. *)
Theorem evaluation_completes {M} `{MemoCheck M} instant_max now batch (o : M) limits :
  (∀ m ids dl, (evaluate_before m ids dl).2.1 = Verdict.Green ∨
               (evaluate_before m ids dl).2.1 = Verdict.Red) →
  (∀ n, now n < now 0%nat + timeout limits ≤ instant_max) →
  is_queue_ordered batch = true → NoDup (entry_id <$> entries batch) →
  "" ∉ entry_id <$> entries batch →
  (worst_case_probes (batch_len batch) ≤ max_probes limits)%nat →
  let ev := (evaluate_union_with_clock instant_max batch o limits now).2 in
  stop_reason ev = None ∧ revoked ev = false ∧
  (verdict ev = Verdict.Green ∨ verdict ev = Verdict.Red).
Proof.
  intros Hdec Hnow Ho Hnd He Hlim. unfold evaluate_union_with_clock, checked_add.
  destruct (N.leb_spec (now 0%nat + timeout limits) instant_max); [|specialize (Hnow 0%nat); lia].
  destruct (diagnose_completes now (max_probes limits) (now 0%nat + timeout limits)
    (λ n, proj1 (Hnow n)) Hdec batch (entry_id <$> entries batch)
    {| oracle := o; ticks := 1; probes := 0; executed := 0; count_complete := true |})
    as (d & p & Hd); [done..| |].
  { unfold fits. simpl. by rewrite length_fmap. }
  pose proof (diagnose_verdict _ _ _ _ _ _ _ _ Hd) as Hv. rewrite Hd. simpl.
  destruct (N.leb_spec (now 0%nat + timeout limits) (now (S (ticks p)))) as [Hle|_].
  { specialize (Hnow (S (ticks p))). lia. }
  rewrite andb_false_r. simpl. split_and!; [done|done|]. by destruct Hv as [-> | ->]; [left|right].
Qed.

Module UnionExample.
(** Checks that pass alone and fail together when "a" meets "b". *)
Definition clash (ids : list string) : UnionVerdict :=
  if bool_decide ("a" ∈ ids ∧ "b" ∈ ids) then Verdict.Red else Verdict.Green.
#[local] Instance clash_check : MemoCheck unit := {|
  evaluate_before := λ m ids _, (m, (clash ids, [Executed]));
  evaluate_in_context := λ m ids _ _, (m, (clash ids, [Executed]));
|}.
Definition member (id : string) (i : N) : LandableEntry * AffectedSet :=
  ({| item_id := id; entry_intent_id := "intent"; tree_hash := "t" +:+ id; order_index := i |},
   AffectedSet_new [id]).
Definition three : Batch :=
  default (Batch_new "q") (from_entries "q" [member "a" 1; member "b" 2; member "c" 3]).
Definition context : EvaluationContext :=
  {| operation_id := "op"; base_id := "base"; config_id := "cfg"; scope := "repo" |}.
Definition clock (n : nat) : N := N.of_nat n `min` 50.
Definition limits100 : EvaluationLimits := {| max_probes := 64; timeout := 100 |}.

Lemma probes_bounded_witness :
  let r := evaluate_union_with_clock 1000 three
    {| scoped_oracle := tt; scoped_context := context; observations := [] |}
    {| max_probes := 4; timeout := 100 |} clock in
  stop_reason r.2 = Some Stop.ProbeBudgetExhausted ∧ probe_count r.2 = length (observations r.1) ∧
  (probe_count r.2 ≤ 4)%nat.
Proof.
  intros r. split; [vm_compute; reflexivity|].
  apply (probes_bounded 1000 three tt context {| max_probes := 4; timeout := 100 |} clock).
  apply surjective_pairing.
Defined.

Lemma authorized_was_probed_witness :
  let ev := (evaluate_union_in_context 1000 clock three tt limits100 context).2 in
  authorize_for ev three context false 60 false 61
    = Some {| auth_proceeding := ["c"]; auth_excluded := ["a"; "b"] |} ∧
  ∃ b, binding ev = Some b ∧ observed (binding_probes b) ["c"] Verdict.Green.
Proof.
  intros ev. split; [vm_compute; reflexivity|].
  destruct (authorized_was_probed 1000 clock three tt tt limits100 context ev three context
    false 60 false 61 {| auth_proceeding := ["c"]; auth_excluded := ["a"; "b"] |})
    as (_ & _ & _ & _ & _ & _ & _ & b & Hb & _ & _ & Hg & _);
    [vm_compute; reflexivity|vm_compute; reflexivity|].
  exists b. split; [exact Hb|]. apply Hg. discriminate.
Defined.

Lemma evaluation_completes_witness :
  let ev := (evaluate_union_with_clock 1000 three tt limits100 clock).2 in
  stop_reason ev = None ∧ revoked ev = false.
Proof.
  destruct (evaluation_completes 1000 clock three tt limits100) as (Hs & Hr & _).
  - intros m ids dl. simpl. unfold clash. case_bool_decide; [by right|by left].
  - intros n. unfold clock. simpl. lia.
  - vm_compute. reflexivity.
  - by_decision.
  - by_decision.
  - vm_compute. lia.
  - exact (conj Hs Hr).
Defined.
End UnionExample.
