(* ===== verification/Attempt.v ===== *)
(** The receipts of queue attempts
    ([crates/hugit-cli/src/land/attempt_journal.rs]), in the directory next to the
    log.  The derived readers and writers of the four receipts are the class
    [Receipt]; every call of the file system can fail, as in [FileLock].

    The theorems: receipts are never overwritten; an attempt is admitted only after
    its start and the fate of the one before are on disk; and after any sequence
    of attempts, interrupted or failing anywhere, the journal tells every admitted
    attempt in order, each fate backed by the receipt that says so. *)

From S2P Require Import Prelude Text Scan Json JsonCodec Union Porcelain FileLock.

Definition SCHEMA : string := "hugit.queue-attempt/1".
Definition MAX_RECORD_BYTES : N := 8192.

Inductive Outcome := Applied | Held | Failed.
Record Previous := { prev_operation_id : string; disposition : string }.
Record Started := {
  st_schema : string; st_operation_id : string; st_base_id : string; st_config_id : string; st_scope : string;
  previous : option Previous }.
Record Current := { cu_schema : string; cu_operation_id : string }.
Record Finished := { fi_schema : string; fi_operation_id : string; outcome : Outcome }.
Record Invalidated := { in_schema : string; in_operation_id : string; in_reason : string; prior_effects : string }.

(** The derived [Serialize] and [Deserialize] of a receipt. *)
Class Receipt (T : Type) := {
  receipt_to_vec : T → option (list byte);
  receipt_from_slice : list byte → option T;
}.

Definition journal_error (message : string) : PorcelainError := PorcelainError_new "queue_journal_error" message
  "preserve the attempt receipts and current corpus; resolve the I/O or corruption before retrying; do not replay old results".

Definition valid_id (id : string) : bool :=
  match strip_prefix "queue-" id with
  | Some suffix => (String.length suffix =? 32)%nat && string_forall (λ c, is_ascii_hexdigit c && negb (is_ascii_uppercase c)) suffix
  | None => false
  end.
Definition valid_identity (value : string) : bool := label_ok value.

Definition record_name (id kind : string) : string := id +:+ "." +:+ kind +:+ ".json".
Definition record_path (id kind : string) : result PorcelainError string :=
  if valid_id id then Ok (record_name id kind) else Err (journal_error "invalid operation ID in queue attempt receipt").
Definition CURRENT : string := "current.json".

Abbreviation JIO := (IO PorcelainError).
Definition jfail {A} (message : string) : JIO A := io_err (journal_error message).
Definition jcall {A} (message : string) (m : IO string A) : JIO A := io_map_err (λ e, journal_error (message +:+ e)) m.
Definition lift {A} (r : result PorcelainError A) : JIO A := λ s, (s, r).

(** The file that is opened is the one inspected: the caller holds the lock of the
    log, so the checks on the opened file repeat the first. *)
Definition read_record (T : Type) `{Receipt T} (name : string) : JIO (option T) :=
  node ← jcall "cannot inspect queue receipt: " (fs_stat name);
  match node with
  | None => mret None
  | Some (Special _) => jfail "queue receipt is not a bounded regular file"
  | Some (Regular bytes) =>
      if MAX_RECORD_BYTES <? N.of_nat (length bytes) then jfail "queue receipt is not a bounded regular file"
      else
        _ ← jcall "cannot read queue receipt: " call;
        _ ← jcall "" call;
        _ ← jcall "cannot read queue receipt: " call;
        match receipt_from_slice bytes with
        | Some v => mret (Some v)
        | None => jfail "invalid queue attempt receipt; no new evaluation admitted"
        end
  end.

Definition sync_dir : JIO unit := jcall "cannot sync queue receipt directory: " fs_sync.
Definition encode {T : Type} `{Receipt T} (value : T) : result PorcelainError (list byte) :=
  match receipt_to_vec value with
  | None => Err (journal_error "cannot encode queue receipt")
  | Some bytes =>
      if MAX_RECORD_BYTES <? N.of_nat (length bytes) then Err (journal_error "queue receipt exceeds its write limit") else Ok bytes
  end.
Definition create_record {T : Type} `{Receipt T} (name : string) (value : T) : JIO unit :=
  bytes ← lift (encode value);
  _ ← jcall "cannot create queue receipt: " (fs_create_new name);
  _ ← jcall "cannot persist queue receipt: " (fs_write_all name bytes);
  _ ← jcall "cannot persist queue receipt: " fs_sync;
  sync_dir.

Section Journal.
Context `{Receipt Started} `{Receipt Current} `{Receipt Finished} `{Receipt Invalidated}.
Context (dir temp : string).

(** The journal of one attempt is its operation. *)
Record AttemptJournal := { journal_operation : string }.

Definition context_admissible (context : EvaluationContext) : bool :=
  valid_id (operation_id context) && bool_decide (scope context = "simulation_only")
  && valid_identity (base_id context) && valid_identity (config_id context).

(** Whether the directory was created. *)
Definition open_journal : JIO bool :=
  _ ← jcall "cannot inspect queue journal: " call;
  of_state (λ s, match place s with
    | Directory _ => (s, Ok false)
    | NotDirectory => (s, Err (journal_error "queue attempt journal is not a real directory"))
    | Missing => (_ ← jcall "cannot create queue journal: " fs_create_dir; _ ← sync_dir; mret true) s
    end).

Definition invalidation (id : string) : Invalidated := {|
  in_schema := SCHEMA; in_operation_id := id; in_reason := "interrupted_attempt_never_replayed";
  prior_effects := "unknown_preserve_current_corpus" |}.
Definition disposition_of (o : Outcome) : string := match o with Applied => "applied" | Held => "held" | Failed => "failed" end.

Definition started_matches (id : string) (started : Started) : bool :=
  bool_decide (st_schema started = SCHEMA) && bool_decide (st_operation_id started = id)
  && bool_decide (st_scope started = "simulation_only") && valid_identity (st_base_id started) && valid_identity (st_config_id started).

(** What became of the attempt the pointer names; an interrupted one is
    invalidated. *)
Definition settle_previous (id : string) : JIO string :=
  name ← lift (record_path id "finished");
  finished ← read_record Finished name;
  invalidated_name ← lift (record_path id "invalidated");
  invalidated ← read_record Invalidated invalidated_name;
  match finished with
  | Some finished =>
      if bool_decide (fi_schema finished ≠ SCHEMA) || bool_decide (fi_operation_id finished ≠ id) || bool_decide (is_Some invalidated)
      then jfail "conflicting queue terminal receipts"
      else mret (disposition_of (outcome finished))
  | None =>
      match invalidated with
      | Some observed =>
          a ← lift (encode observed);
          b ← lift (encode (invalidation id));
          if decide (a ≠ b) then jfail "conflicting queue invalidation receipt" else mret "invalidated"
      | None => _ ← create_record invalidated_name (invalidation id); mret "invalidated"
      end
  end.

Definition previous_attempt (created : bool) (operation : string) : JIO (option Previous) :=
  current ← read_record Current CURRENT;
  match current with
  | None => if created then mret None else jfail "existing queue journal is missing its current pointer"
  | Some current =>
      if bool_decide (cu_schema current ≠ SCHEMA) || bool_decide (cu_operation_id current = operation)
      then jfail "invalid or reused queue attempt identity"
      else
        name ← lift (record_path (cu_operation_id current) "started");
        started ← read_record Started name;
        match started with
        | None => jfail "current queue attempt is missing its start receipt"
        | Some started =>
            if started_matches (cu_operation_id current) started then
              d ← settle_previous (cu_operation_id current);
              mret (Some {| prev_operation_id := cu_operation_id current; disposition := d |})
            else jfail "current queue attempt does not match its start receipt"
        end
  end.

Definition begin_attempt (context : EvaluationContext) : JIO AttemptJournal :=
  if negb (context_admissible context) then jfail "invalid live queue attempt context"
  else
    created ← open_journal;
    previous ← previous_attempt created (operation_id context);
    name ← lift (record_path (operation_id context) "started");
    _ ← create_record name {| st_schema := SCHEMA; st_operation_id := operation_id context; st_base_id := base_id context;
          st_config_id := config_id context; st_scope := scope context; previous := previous |};
    pointer ← lift (encode {| cu_schema := SCHEMA; cu_operation_id := operation_id context |});
    _ ← io_map_err (λ e, journal_error ("cannot publish current queue attempt: " +:+ lock_error_text e))
          (atomic_write_unprepared dir temp CURRENT pointer);
    mret {| journal_operation := operation_id context |}.

Definition finish_attempt (j : AttemptJournal) (o : Outcome) : JIO unit :=
  name ← lift (record_path (journal_operation j) "finished");
  create_record name {| fi_schema := SCHEMA; fi_operation_id := journal_operation j; outcome := o |}.
End Journal.

(** * What is relied on *)

Class ReceiptLaws (T : Type) `{Receipt T} := {
  receipt_read (v : T) bytes : receipt_to_vec v = Some bytes → receipt_from_slice bytes = Some v }.

(** * What a step leaves alone *)

(** Every file stays as it is, and no pointer appears. *)
Definition grows (s s' : Store) : Prop :=
  (∀ n x, files_of s !! n = Some x → files_of s' !! n = Some x) ∧ files_of s' !! CURRENT = files_of s !! CURRENT.
#[export] Instance grows_preorder : PreOrder grows.
Proof. split; [by split|]. intros a b c [H1 H2] [H3 H4]. split; [auto|congruence]. Qed.
Lemma grows_same s s' : files_of s' = files_of s → grows s s'.
Proof. unfold grows. by intros ->. Qed.

Definition frames {E A} (m : IO E A) : Prop := ∀ s s' r, m s = (s', r) → grows s s'.
Lemma frames_bind {E A B} (m : IO E A) (k : A → IO E B) : frames m → (∀ a, frames (k a)) → frames (m ≫= k).
Proof.
  intros Hm Hk s s' r. rewrite bindE. destruct (m s) as [s1 [a|e]] eqn:E1; intros Hr.
  - transitivity s1; [by eapply Hm|by eapply Hk].
  - inv_eqs. by eapply Hm.
Qed.
Lemma frames_ret {E A} (a : A) : frames (mret a : IO E A).
Proof. intros s s' r [= <- <-]. reflexivity. Qed.
Lemma frames_lift {A} (r : result PorcelainError A) : frames (lift r).
Proof. intros s s' r' [= <- <-]. reflexivity. Qed.
Lemma frames_fail {A} m : frames (jfail m : JIO A).
Proof. intros s s' r [= <- <-]. reflexivity. Qed.
Lemma frames_map {E F A} (f : E → F) (m : IO E A) : frames m → frames (io_map_err f m).
Proof. unfold io_map_err. intros Hm s s' r. destruct (m s) as [s1 r1] eqn:E1. intros [= <- <-]. by eapply Hm. Qed.
Lemma frames_call : frames call.
Proof. intros s s' r ->%call_place%files_same%grows_same. done. Qed.
Lemma frames_stat n : frames (fs_stat n).
Proof. apply frames_bind; [apply frames_call|]. intros _ s s' r [= <- <-]. reflexivity. Qed.
#[export] Hint Resolve frames_bind frames_ret frames_lift frames_fail frames_map frames_call frames_stat : hugit.

Lemma frames_sync_dir : frames sync_dir.
Proof. unfold sync_dir, jcall, fs_sync. auto with hugit. Qed.
#[export] Hint Resolve frames_sync_dir : hugit.
Lemma frames_read_record (T : Type) `{Receipt T} name : frames (read_record T name).
Proof.
  unfold read_record, jcall. apply frames_bind; [auto with hugit|]. intros [[b|d]|]; auto with hugit.
  case_match; auto with hugit. repeat (apply frames_bind; [auto with hugit|intros []]). case_match; auto with hugit.
Qed.
#[export] Hint Resolve frames_read_record : hugit.

Lemma create_record_spec {T : Type} `{ReceiptLaws T} name (v : T) s s' r : name ≠ CURRENT →
  create_record name v s = (s', r) →
  grows s s' ∧ (r = Ok tt → files_of s !! name = None ∧
    ∃ b, files_of s' !! name = Some (Regular b) ∧ receipt_from_slice b = Some v).
Proof.
  intros Hc. unfold create_record, jcall, io_map_err, encode, lift. rewrite bindE.
  destruct (receipt_to_vec v) as [b|] eqn:Hv; [|simpl; intros; inv_eqs; by split].
  destruct (MAX_RECORD_BYTES <? _); [simpl; intros; inv_eqs; by split|]. cbn [mbind]. rewrite bindE.
  destruct (fs_create_new name s) as [s1 [[]|e]] eqn:E1; apply fs_create_new_spec in E1; simpl;
    [|intros; inv_eqs; by split; [apply grows_same, files_same|]].
  destruct E1 as (files & Hp & Hn & Hp1). rewrite bindE.
  destruct (fs_write_all name b s1) as [s2 r2] eqn:E2. apply fs_write_all_spec in E2 as (b' & Hp2 & Hb & _).
  assert (files_of s = files) as Hf by (unfold files_of; by rewrite Hp).
  assert (files_of s2 = <[name := Regular b']> files) as Hf2.
  { unfold files_of at 1. rewrite Hp2. unfold files_of. by rewrite Hp1, insert_insert_eq. }
  assert (grows s s2) as Hg.
  { unfold grows. rewrite Hf, Hf2. split; [|by rewrite lookup_insert_ne].
    intros n x Hx. rewrite lookup_insert_ne; [done|]. intros ->. congruence. }
  destruct r2 as [[]|e]; simpl; [|intros; inv_eqs; by split]. rewrite (Hb eq_refl) in *. rewrite bindE.
  destruct (fs_sync s2) as [s3 r3] eqn:E3; apply call_place, files_same in E3.
  assert (grows s s3) as Hg3 by (etrans; [done|by apply grows_same]).
  destruct r3 as [[]|e]; simpl; [|intros; inv_eqs; by split]. 
  destruct (sync_dir s3) as [s4 r4] eqn:E4. intros [= <- <-]. unfold sync_dir, jcall, io_map_err in E4.
  destruct (fs_sync s3) as [s5 r5] eqn:E5. injection E4 as <- <-. apply call_place, files_same in E5.
  split; [etrans; [done|by apply grows_same]|]. intros _. rewrite Hf, E5, E3, Hf2, lookup_insert_eq.
  split; [done|]. eexists. split; [done|]. by apply receipt_read.
Qed.

(** * The story a journal tells *)

Section Story.
Context `{ReceiptLaws Started} `{ReceiptLaws Current} `{ReceiptLaws Finished} `{ReceiptLaws Invalidated}.

(** The receipt under a name reads as [v]. *)
Definition recorded {T : Type} `{Receipt T} (files : gmap string Node) (name : string) (v : T) : Prop :=
  ∃ b, files !! name = Some (Regular b) ∧ receipt_from_slice b = Some v.

(** A fate is what the terminal receipt of the attempt says, or the receipt of its
    invalidation. *)
Definition backed (files : gmap string Node) (id d : string) : Prop :=
  (∃ o, d = disposition_of o ∧ recorded files (record_name id "finished") {| fi_schema := SCHEMA; fi_operation_id := id; outcome := o |})
  ∨ d = "invalidated" ∧ recorded files (record_name id "invalidated") (invalidation id).

(** The attempts before one, latest first, each with its fate. *)
Inductive told (files : gmap string Node) : option Previous → list (string * string) → Prop :=
| told_first : told files None []
| told_after id d st rest : valid_id id = true → recorded files (record_name id "started") st → st_operation_id st = id →
    backed files id d → told files (previous st) rest →
    told files (Some {| prev_operation_id := id; disposition := d |}) ((id, d) :: rest).

(** The journal tells the attempts [hist], latest first. *)
Definition tells (s : Store) (hist : list string) : Prop :=
  match hist with
  | [] => files_of s !! CURRENT = None
  | id :: ids => ∃ st rest, valid_id id = true ∧
      recorded (files_of s) CURRENT {| cu_schema := SCHEMA; cu_operation_id := id |} ∧
      recorded (files_of s) (record_name id "started") st ∧ st_operation_id st = id ∧
      told (files_of s) (previous st) rest ∧ rest.*1 = ids
  end.

Lemma record_name_current id kind : valid_id id = true → record_name id kind ≠ CURRENT.
Proof.
  unfold valid_id. destruct (strip_prefix "queue-" id) as [t|] eqn:E; [|done]. apply strip_prefix_Some in E as ->. done.
Qed.
Lemma record_name_temp id kind t : valid_id id = true → record_name id kind ≠ "." +:+ t.
Proof.
  unfold valid_id. destruct (strip_prefix "queue-" id) as [u|] eqn:E; [|done]. apply strip_prefix_Some in E as ->. done.
Qed.

(** Every receipt of a valid operation stays. *)
Definition keeps_receipts (f f' : gmap string Node) : Prop :=
  ∀ id kind x, valid_id id = true → f !! record_name id kind = Some x → f' !! record_name id kind = Some x.
Lemma grows_keeps s s' : grows s s' → keeps_receipts (files_of s) (files_of s').
Proof. intros [Hg _] id kind x _. apply Hg. Qed.

Lemma recorded_keeps {T : Type} `{Receipt T} f f' id kind (v : T) : keeps_receipts f f' → valid_id id = true →
  recorded f (record_name id kind) v → recorded f' (record_name id kind) v.
Proof. intros Hk Hv (b & Hb & Hr). exists b. split; [by apply Hk|done]. Qed.
Lemma backed_keeps f f' id d : keeps_receipts f f' → valid_id id = true → backed f id d → backed f' id d.
Proof. intros Hk Hv [(o & -> & Hr)|[-> Hr]]; [left; exists o|right]; (split; [done|]); by eapply recorded_keeps. Qed.
Lemma told_keeps f f' p hist : keeps_receipts f f' → told f p hist → told f' p hist.
Proof.
  intros Hk. induction 1 as [|id d st rest Hv Hst Hid Hb _ IH]; [constructor|].
  econstructor; [done|by eapply recorded_keeps|done|by eapply backed_keeps|done].
Qed.
Lemma recorded_same {T : Type} `{Receipt T} f f' name (v : T) : f' !! name = f !! name → recorded f name v → recorded f' name v.
Proof. unfold recorded. by intros ->. Qed.
Lemma recorded_inj {T : Type} `{Receipt T} f name (v w : T) : recorded f name v → recorded f name w → v = w.
Proof. intros (b & Hb & Hv) (c & Hc & Hw). congruence. Qed.

Lemma tells_grows s s' hist : grows s s' → tells s hist → tells s' hist.
Proof.
  intros Hg. pose proof (grows_keeps _ _ Hg) as Hk. destruct Hg as [_ Hc]. destruct hist as [|id ids]; simpl; [by rewrite Hc|].
  intros (st & rest & Hv & Hcur & Hst & Hid & Ht & Hr). exists st, rest.
  split_and!; [done|by eapply recorded_same|by eapply recorded_keeps|done|by eapply told_keeps|done].
Qed.

Lemma read_record_spec (T : Type) `{Receipt T} name s s' v : read_record T name s = (s', Ok v) →
  files_of s' = files_of s ∧ match v with Some v => recorded (files_of s) name v | None => files_of s !! name = None end.
Proof.
  unfold read_record, jcall, io_map_err. rewrite bindE. unfold fs_stat at 1. rewrite bindE.
  destruct (call s) as [s1 [[]|e]] eqn:E1; [|done]. apply call_place, files_same in E1. simpl. rewrite E1.
  destruct (files_of s !! name) as [[b|d]|] eqn:Hn; [|done|intros [= <- <-]; by split].
  destruct (MAX_RECORD_BYTES <? _); [done|]. rewrite bindE.
  destruct (call s1) as [s2 [[]|e]] eqn:E2; [|done]. apply call_place, files_same in E2. simpl. rewrite bindE.
  destruct (call s2) as [s3 [[]|e]] eqn:E3; [|done]. apply call_place, files_same in E3. simpl. rewrite bindE.
  destruct (call s3) as [s4 [[]|e]] eqn:E4; [|done]. apply call_place, files_same in E4. simpl.
  destruct (receipt_from_slice b) as [w|] eqn:Hw; [|done]. intros [= <- <-].
  split; [congruence|]. by exists b.
Qed.

Lemma lift_bind {A B} (r : result PorcelainError A) (k : A → JIO B) s :
  (lift r ≫= k) s = match r with Ok a => k a s | Err e => (s, Err e) end.
Proof. by destruct r. Qed.
Lemma record_path_valid id kind : valid_id id = true → record_path id kind = Ok (record_name id kind).
Proof. unfold record_path. by intros ->. Qed.
Lemma record_path_Ok id kind name : record_path id kind = Ok name → valid_id id = true ∧ name = record_name id kind.
Proof. unfold record_path. destruct (valid_id id); intros; by inv_eqs. Qed.

Lemma encode_inj {T : Type} `{ReceiptLaws T} (v w : T) a : encode v = Ok a → encode w = Ok a → v = w.
Proof.
  unfold encode. destruct (receipt_to_vec v) as [b|] eqn:Hv; [|done]. destruct (receipt_to_vec w) as [c|] eqn:Hw; [|done].
  do 2 case_match; intros; inv_eqs. apply receipt_read in Hv, Hw. congruence.
Qed.

Lemma frames_settle id : frames (settle_previous id).
Proof.
  unfold settle_previous. intros s s' r. rewrite lift_bind. destruct (record_path id "finished") as [n|e] eqn:En; [|intros; by inv_eqs].
  apply record_path_Ok in En as [Hv ->]. rewrite (record_path_valid _ _ Hv). revert s s' r.
  apply frames_bind; [auto with hugit|]. intros fin s s' r. rewrite lift_bind. revert s s' r.
  apply frames_bind; [auto with hugit|]. intros inv. destruct fin as [fin|]; [case_match; auto with hugit|].
  destruct inv as [inv|].
  - apply frames_bind; [auto with hugit|]. intros a. apply frames_bind; [auto with hugit|]. intros b. case_decide; auto with hugit.
  - apply frames_bind; [|auto with hugit]. intros s s' r Hc.
    by apply create_record_spec in Hc as [Hg _]; [|apply record_name_current].
Qed.

Lemma settle_previous_backed id s s' d : settle_previous id s = (s', Ok d) → valid_id id = true ∧ backed (files_of s') id d.
Proof.
  intros Hs. pose proof (frames_settle id _ _ _ Hs) as Hg. revert Hs. unfold settle_previous. rewrite lift_bind.
  destruct (record_path id "finished") as [n|e] eqn:En; [|done]. apply record_path_Ok in En as [Hv ->].
  rewrite (record_path_valid _ _ Hv), bindE.
  destruct (read_record Finished (record_name id "finished") s) as [s1 [fin|e]] eqn:E1; [|done]. apply read_record_spec in E1 as [Hf1 Hfin].
  rewrite lift_bind, bindE.
  destruct (read_record Invalidated (record_name id "invalidated") s1) as [s2 [inv|e]] eqn:E2; [|done].
  apply read_record_spec in E2 as [Hf2 Hinv]. intros Hs. split; [done|].
  destruct fin as [fin|].
  - destruct (bool_decide_reflect (fi_schema fin ≠ SCHEMA)) as [|Hsc]; [done|].
    destruct (bool_decide_reflect (fi_operation_id fin ≠ id)) as [|Hid]; [done|]. simpl in Hs.
    destruct (bool_decide (is_Some inv)); [done|]. apply dec_stable in Hsc, Hid. injection Hs as <- <-. left. exists (outcome fin). split; [done|].
    rewrite Hf2, Hf1. destruct fin as [sc oid o]. simpl in *. by subst.
  - destruct inv as [inv|].
    + rewrite lift_bind in Hs. destruct (encode inv) as [a|] eqn:Ea; [|done]. rewrite lift_bind in Hs.
      destruct (encode (invalidation id)) as [b|] eqn:Eb; [|done]. case_decide as Hab; [done|]. subst b.
      injection Hs as <- <-. right. split; [done|]. rewrite (encode_inj _ _ _ Ea Eb) in Hinv. rewrite Hf2. done.
    + rewrite bindE in Hs. destruct (create_record _ _ s2) as [s3 [[]|e]] eqn:E3; [|done].
      apply create_record_spec in E3 as [_ Hc]; [|by apply record_name_current]. injection Hs as <- <-. right.
      split; [done|]. destruct (Hc eq_refl) as (_ & b & Hb & Hr). by exists b.
Qed.

Lemma frames_previous created op : frames (previous_attempt created op).
Proof.
  unfold previous_attempt. apply frames_bind; [auto with hugit|]. intros [cur|]; [|destruct created; auto with hugit].
  case_match; [auto with hugit|]. apply frames_bind; [auto with hugit|]. intros name.
  apply frames_bind; [auto with hugit|]. intros [st|]; [|auto with hugit]. case_match; [|auto with hugit].
  apply frames_bind; [apply frames_settle|auto with hugit].
Qed.

(** The attempt before, as the journal tells it. *)
Lemma previous_attempt_told created op s s' p hist : previous_attempt created op s = (s', Ok p) → tells s hist →
  ∃ rest, told (files_of s') p rest ∧ rest.*1 = hist.
Proof.
  intros Hs Ht. pose proof (frames_previous created op _ _ _ Hs) as Hg. apply (tells_grows _ _ _ Hg) in Ht as Ht'.
  revert Hs. unfold previous_attempt. rewrite bindE.
  destruct (read_record Current CURRENT s) as [s1 [[cur|]|e]] eqn:E1; [|destruct created; [|done]|done];
    apply read_record_spec in E1 as [Hf1 Hcur].
  - destruct (bool_decide_reflect (cu_schema cur ≠ SCHEMA)) as [|Hsc]; [done|].
    destruct (bool_decide_reflect (cu_operation_id cur = op)) as [|Hop]; [done|]. apply dec_stable in Hsc. simpl.
    destruct hist as [|id ids]; simpl in Ht; [destruct Hcur as (b & Hb & _); congruence|].
    destruct Ht as (_ & _ & _ & Hcur2 & _). pose proof (recorded_inj _ _ _ _ Hcur Hcur2) as ->. simpl in *.
    destruct Ht' as (st & rest & Hv & _ & Hst & Hid & Htold & Hr).
    rewrite lift_bind, (record_path_valid _ _ Hv), bindE.
    destruct (read_record Started _ s1) as [s2 [st2|e]] eqn:E2; [|done]. destruct st2 as [st2|]; [|done].
    destruct (started_matches id st2); [|done]. rewrite bindE.
    destruct (settle_previous id s2) as [s3 [d|e]] eqn:E3; [|done]. apply settle_previous_backed in E3 as [_ Hb].
    intros [= <- <-]. exists ((id, d) :: rest). split; [by econstructor|]. exact (f_equal (cons id) Hr).
  - intros [= <- <-]. exists []. split; [constructor|]. destruct hist as [|id ids]; [done|]. simpl in Ht.
    destruct Ht as (_ & _ & _ & (b & Hb & _) & _). congruence.
Qed.

Lemma frames_open : frames open_journal.
Proof.
  unfold open_journal. apply frames_bind; [unfold jcall; auto with hugit|]. intros [] s s' r. unfold of_state.
  destruct (place s) as [| |files] eqn:Hp; [|intros; by inv_eqs..]. rewrite bindE. unfold jcall, io_map_err.
  destruct (fs_create_dir s) as [s1 r1] eqn:E1. intros Hr.
  assert (files_of s1 = files_of s) as Hf1.
  { unfold fs_create_dir, of_state in E1. rewrite bindE in E1. destruct (call s) as [s2 [[]|e]] eqn:E2; apply call_place in E2.
    - rewrite E2, Hp in E1. injection E1 as <- <-. unfold files_of. simpl. by rewrite Hp.
    - injection E1 as <- <-. by apply files_same. }
  transitivity s1; [by apply grows_same|]. destruct r1 as [[]|e]; simpl in Hr; [|inv_eqs; reflexivity].
  revert Hr. apply frames_bind; auto with hugit.
Qed.

Lemma told_started f p hist id : told f p hist → id ∈ hist.*1 → is_Some (f !! record_name id "started").
Proof.
  induction 1 as [|id' d st rest Hv (b & Hb & _) Hid Hbk _ IH]; [by intros ?%elem_of_nil|].
  rewrite fmap_cons, elem_of_cons. intros [->|Hin]; [eauto|auto].
Qed.
Lemma tells_started s hist id : tells s hist → id ∈ hist → is_Some (files_of s !! record_name id "started").
Proof.
  destruct hist as [|id' ids]; [by intros _ ?%elem_of_nil|]. intros (st & rest & _ & _ & (b & Hb & _) & _ & Ht & <-).
  rewrite elem_of_cons. intros [->|Hin]; [eauto|by eapply told_started].
Qed.

(** What an attempt does to the story: it is added at the front when its pointer is
    published, which it is when the attempt is admitted. *)
Lemma begin_tells dir t ctx s s' r hist : begin_attempt dir ("." +:+ t) ctx s = (s', r) → tells s hist →
  ∃ hist', tells s' hist' ∧ (is_ok r = true → hist' = operation_id ctx :: hist) ∧
    (hist' = hist ∨ hist' = operation_id ctx :: hist ∧ operation_id ctx ∉ hist).
Proof.
  intros Hs Ht. revert Hs. unfold begin_attempt. destruct (context_admissible ctx) eqn:Hadm; simpl; [|intros [= <- <-]; exists hist; split_and!; [done|done|by left]].
  assert (valid_id (operation_id ctx) = true) as Hv by (unfold context_admissible in Hadm; by destruct (valid_id _)).
  set (op := operation_id ctx) in *. rewrite bindE.
  destruct (open_journal s) as [s1 [created|e]] eqn:E1; apply frames_open in E1; apply (tells_grows _ _ _ E1) in Ht as Ht1;
    [|intros [= <- <-]; exists hist; split_and!; [done|done|by left]].
  rewrite bindE. destruct (previous_attempt created op s1) as [s2 [prev|e]] eqn:E2; pose proof (frames_previous _ _ _ _ _ E2) as Hg2;
    apply (tells_grows _ _ _ Hg2) in Ht1 as Ht2; [|intros [= <- <-]; exists hist; split_and!; [done|done|by left]].
  destruct (previous_attempt_told _ _ _ _ _ _ E2 Ht1) as (rest & Htold & Hr).
  rewrite lift_bind, (record_path_valid _ _ Hv), bindE.
  set (started := {| st_schema := SCHEMA |}).
  destruct (create_record (record_name op "started") started s2) as [s3 r3] eqn:E3.
  apply create_record_spec in E3 as [Hg3 Hcr]; [|by apply record_name_current].
  apply (tells_grows _ _ _ Hg3) in Ht2 as Ht3. destruct r3 as [[]|e]; [|intros [= <- <-]; exists hist; split_and!; [done|done|by left]].
  destruct (Hcr eq_refl) as (Hnew & Hst). rewrite lift_bind.
  destruct (encode {| cu_schema := SCHEMA; cu_operation_id := op |}) as [pointer|e] eqn:Ep; [|intros [= <- <-]; exists hist; split_and!; [done|done|by left]].
  rewrite bindE. unfold io_map_err at 1.
  destruct (atomic_write_unprepared dir ("." +:+ t) CURRENT pointer s3) as [s4 r4] eqn:E4.
  apply atomic_write_atomic in E4 as (Hcur & Hok & Hothers & _); [|done]. intros Hres.
  assert (s4 = s' ∧ (is_ok r = true → r4 = Ok tt)) as [-> Hrok].
  { destruct r4 as [[]|e]; simpl in Hres; injection Hres as <- <-; by split. }
  assert (keeps_receipts (files_of s3) (files_of s')) as Hk.
  { intros id kind x Hid Hx. rewrite Hothers; [done|by apply record_name_temp|by apply record_name_current]. }
  assert (op ∉ hist) as Hfresh.
  { intros Hin. destruct (tells_started _ _ _ Ht2 Hin) as [x Hx]. congruence. }
  assert (files_of s' !! CURRENT = Some (Regular pointer) → tells s' (op :: hist)) as Hpub.
  { intros Hc. assert (recorded (files_of s3) (record_name op "started") started) as Hst3 by done.
    exists started, rest. split_and!; [done| |by eapply recorded_keeps|done| |done].
    - exists pointer. split; [done|]. unfold encode in Ep. destruct (receipt_to_vec _) as [b|] eqn:Eb; [|done].
      destruct (MAX_RECORD_BYTES <? _); [done|]. injection Ep as <-. by apply receipt_read.
    - eapply told_keeps; [exact Hk|]. eapply told_keeps; [by apply grows_keeps|]. done. }
  destruct Hcur as [Hcur|Hcur].
  - destruct (is_ok r) eqn:Er.
    + exists (op :: hist). split_and!; [apply Hpub, Hok; by apply Hrok|done|by right].
    + exists hist. split_and!; [|done|by left]. destruct hist as [|id ids]; simpl in *; [by rewrite Hcur|].
      destruct Ht3 as (st & rest3 & Hv3 & Hcu3 & Hst3 & Hid3 & Htold3 & Hr3). exists st, rest3.
      split_and!; [done|by eapply recorded_same|by eapply recorded_keeps|done|by eapply told_keeps|done].
  - exists (op :: hist). split_and!; [by apply Hpub|done|by right].
Qed.

Lemma finish_grows j o s s' r : finish_attempt j o s = (s', r) → grows s s'.
Proof.
  unfold finish_attempt. rewrite lift_bind. destruct (record_path _ _) as [n|e] eqn:En; [|intros; by inv_eqs].
  apply record_path_Ok in En as [Hv ->]. intros Hc. by apply create_record_spec in Hc as [Hg _]; [|apply record_name_current].
Qed.

(** ** Sessions *)

(** Attempts and results, in the order of the lock; the process may have been
    stopped before its result was recorded. *)
Inductive JournalEvent :=
| Begin (ctx : EvaluationContext) (t : string)
| Finish (id : string) (o : Outcome).
(** The directory after an event, and the operation that was admitted. *)
Definition journal_step (dir : string) (s : Store) (e : JournalEvent) : Store * list string :=
  match e with
  | Begin ctx t => let '(s, r) := begin_attempt dir ("." +:+ t) ctx s in
      (s, match r with Ok j => [journal_operation j] | Err _ => [] end)
  | Finish id o => ((finish_attempt {| journal_operation := id |} o s).1, [])
  end.
Definition journal_run (dir : string) (s : Store) (es : list JournalEvent) : Store * list string :=
  foldl (λ '(s, admitted) e, let '(s, more) := journal_step dir s e in (s, more ++ admitted)) (s, []) es.

Lemma begin_operation dir temp ctx s s' j : begin_attempt dir temp ctx s = (s', Ok j) → journal_operation j = operation_id ctx.
Proof.
  unfold begin_attempt. destruct (context_admissible ctx); simpl; [|done]. rewrite bindE.
  destruct (open_journal s) as [s1 [c|]]; [|done]. rewrite bindE. destruct (previous_attempt _ _ _) as [s2 [p|]]; [|done].
  rewrite lift_bind. destruct (record_path _ _); [|done]. rewrite bindE. destruct (create_record _ _ _) as [s3 [[]|]]; [|done].
  rewrite lift_bind. destruct (encode _); [|done]. rewrite bindE. destruct (io_map_err _ _ _) as [s4 [[]|]]; [|done].
  by intros [= <- <-].
Qed.

(** C21. Started from no journal, whatever calls fail and wherever a process is stopped,
    the journal tells a list of distinct attempts: every admitted one is in it, in
    the order of admission, and the fate it gives each finished or interrupted
    attempt is the one its receipt records. *)
Theorem journal_told dir es s s' admitted : place s = Missing → journal_run dir s es = (s', admitted) →
  ∃ hist, tells s' hist ∧ NoDup hist ∧ admitted `sublist_of` hist.
Proof.
  intros Hp. unfold journal_run. revert s' admitted. induction es as [|e es IH] using rev_ind; intros s' admitted.
  - intros [= <- <-]. exists []. split_and!; [|constructor|constructor]. unfold tells, files_of. by rewrite Hp.
  - rewrite foldl_app. simpl. destruct (foldl _ _ es) as [s1 adm1]. destruct (IH s1 adm1 eq_refl) as (hist & Ht & Hnd & Hsub).
    destruct e as [ctx t|id o]; simpl.
    + destruct (begin_attempt dir ("." +:+ t) ctx s1) as [s2 r] eqn:Eb. intros [= <- <-].
      destruct (begin_tells _ _ _ _ _ _ _ Eb Ht) as (hist' & Ht' & Hok & Hcase). exists hist'. split; [done|].
      destruct r as [j|e]; simpl.
      * apply begin_operation in Eb as ->. rewrite (Hok eq_refl) in *. destruct Hcase as [Hc|[_ Hc]].
        { apply (f_equal length) in Hc. simpl in Hc. lia. }
        split; [by constructor|by constructor].
      * destruct Hcase as [->|[-> Hc]]; [done|]. split; [by constructor|by constructor].
    + destruct (finish_attempt _ o s1) as [s2 r] eqn:Ef. intros [= <- <-]. exists hist. split_and!; [|done|done].
      by eapply tells_grows; [eapply finish_grows|].
Qed.
End Story.

Module AttemptExample.
#[local] Existing Instance Codec.codec.
#[local] Existing Instance Codec.codec_laws.

(** Receipts as documents. *)
Class Document (T : Type) := {
  to_doc : T → list (string * Value);
  of_doc : Value → option T;
  doc_plain v : Forall (λ kv, plain kv.2 = true) (to_doc v);
  doc_read v : of_doc (json_object (to_doc v)) = Some v;
}.
#[export] Instance document_receipt {T} `{Document T} : Receipt T := {|
  receipt_to_vec v := Some (as_bytes (to_string (json_object (to_doc v))));
  receipt_from_slice b := from_str (String.string_of_list_byte b) ≫= of_doc |}.
#[export] Instance document_laws {T} `{Document T} : ReceiptLaws T.
Proof.
  split. intros v bytes Hb. apply (inj Some) in Hb as <-. unfold receipt_from_slice, document_receipt. rewrite String.string_of_list_byte_of_string, from_str_to_string; [apply doc_read|].
  apply plain_object, doc_plain.
Qed.

#[export, refine] Instance current_doc : Document Current := {|
  to_doc c := [("schema", Str (cu_schema c)); ("operation_id", Str (cu_operation_id c))];
  of_doc v := a ← field_str v "schema"; b ← field_str v "operation_id"; Some {| cu_schema := a; cu_operation_id := b |} |}.
Proof. - intros []. by repeat constructor. - by intros []. Defined.
#[export, refine] Instance invalidated_doc : Document Invalidated := {|
  to_doc c := [("schema", Str (in_schema c)); ("operation_id", Str (in_operation_id c)); ("reason", Str (in_reason c));
               ("prior_effects", Str (prior_effects c))];
  of_doc v := a ← field_str v "schema"; b ← field_str v "operation_id"; c ← field_str v "reason"; d ← field_str v "prior_effects";
    Some {| in_schema := a; in_operation_id := b; in_reason := c; prior_effects := d |} |}.
Proof. - intros []. by repeat constructor. - by intros []. Defined.
Definition outcome_of (s : string) : option Outcome :=
  if decide (s = "applied") then Some Applied else if decide (s = "held") then Some Held
  else if decide (s = "failed") then Some Failed else None.
#[export, refine] Instance finished_doc : Document Finished := {|
  to_doc c := [("schema", Str (fi_schema c)); ("operation_id", Str (fi_operation_id c)); ("outcome", Str (disposition_of (outcome c)))];
  of_doc v := a ← field_str v "schema"; b ← field_str v "operation_id"; c ← field_str v "outcome" ≫= outcome_of;
    Some {| fi_schema := a; fi_operation_id := b; outcome := c |} |}.
Proof. - intros []. by repeat constructor. - by intros [?? []]. Defined.
Definition previous_doc (p : Previous) : Value :=
  json_object [("operation_id", Str (prev_operation_id p)); ("disposition", Str (disposition p))].
Definition previous_of (v : Value) : option (option Previous) :=
  match v with
  | Null => Some None
  | _ => a ← field_str v "operation_id"; b ← field_str v "disposition"; Some (Some {| prev_operation_id := a; disposition := b |})
  end.
#[export, refine] Instance started_doc : Document Started := {|
  to_doc c := [("schema", Str (st_schema c)); ("operation_id", Str (st_operation_id c)); ("base_id", Str (st_base_id c));
               ("config_id", Str (st_config_id c)); ("scope", Str (st_scope c));
               ("previous", match previous c with Some p => previous_doc p | None => Null end)];
  of_doc v := a ← field_str v "schema"; b ← field_str v "operation_id"; c ← field_str v "base_id"; d ← field_str v "config_id";
    e ← field_str v "scope"; p ← value_get v "previous" ≫= previous_of;
    Some {| st_schema := a; st_operation_id := b; st_base_id := c; st_config_id := d; st_scope := e; previous := p |} |}.
Proof. - intros [????? []]; by repeat constructor. - by intros [????? [[]|]]. Defined.

Definition op (n : string) : string := "queue-0000000000000000000000000000000" +:+ n.
Definition live (n : string) : EvaluationContext := {|
  operation_id := op n; base_id := "event-log-sha256:input"; config_id := "simulation-config-sha256:config"; scope := "simulation_only" |}.
(** The first attempt is interrupted, a call of the second fails, the third is
    applied and the fourth admitted. *)
Definition start : Store := {| place := Missing;
  io := replicate 11 None ++ replicate 13 None ++ [Some {| what := "disk"; written := 0 |}] |}.
Definition events : list JournalEvent :=
  [Begin (live "1") "a"; Begin (live "2") "b"; Begin (live "3") "c"; Finish (op "3") Applied; Begin (live "4") "d"].

Lemma journal_told_witness : ∃ hist, tells (journal_run "j" start events).1 hist ∧ NoDup hist ∧
  [op "4"; op "3"; op "1"] `sublist_of` hist.
Proof.
  assert ((journal_run "j" start events).2 = [op "4"; op "3"; op "1"]) as Ha by (vm_compute; reflexivity).
  destruct (journal_run "j" start events) as [s admitted] eqn:E. simpl in Ha. subst admitted.
  exact (journal_told "j" events start s [op "4"; op "3"; op "1"] eq_refl E).
Defined.

(** The fates the fourth start tells: the third was applied. *)
Example fate_of_third : ((files_of (journal_run "j" start events).1 !! record_name (op "4") "started")
    ≫= (λ n, match n with Regular b => receipt_from_slice b | _ => None end)) ≫= previous
  = Some {| prev_operation_id := op "3"; disposition := "applied" |}.
Proof. vm_compute. reflexivity. Qed.
(** A directory left without its pointer admits nothing any more. *)
Example missing_pointer_refused :
  is_ok (begin_attempt "j" ".t" (live "1") {| place := Directory ∅; io := [] |}).2 = false.
Proof. vm_compute. reflexivity. Qed.
End AttemptExample.
