(* ===== verification/Bisect.v ===== *)
(** Automatic bisection over memoized checks and the bounded diagnosis:
    [crates/hugit-diag/src/bisect/{oracle,engine,trigger}.rs], with the action
    cache interface of [crates/hugit-checks/src/client/ac.rs] it asks and the
    [CheckResult] and [DiagnosisObject] of [crates/hugit-contracts/src].

    The oracle is a class with its state threaded (the code's counters are
    [Cell]s); the memoized oracle is an instance over any action cache.  The
    cache is not written during a search.  The JSON text of a diagnosis is a
    parameter, of which only the width of its [size_bytes] number is used.

    The theorems: the search finds the first red tree of a history that stays
    red once it is red, within the binary logarithm of its length; on any
    history its culprit was probed red and follows a tree probed green (or the
    baseline); the stamped size is the exact serialized size; a cache hit is a
    result for the requested inputs. *)

From S2P Require Import Prelude Json JsonCodec Crypto Log.

(** * Checks and their cache *)

Record Artifact := { path : string; digest : string }.

Record CheckResult := {
  memo_key : string;
  res_tree_hash : string;
  res_def_digest : string;
  res_toolchain_digest : string;
  exit : Z;
  artifacts : list Artifact;
  stdout_ref : string;
  stderr_ref : string;
  duration_ms : N;
  runner_ref : string;
  produced_at : N;
}.

Inductive AcError :=
| NotWired (endpoint : string)
| Transport (e : string)
| Busy (detail : string)
| NotConfigured (what : string)
| Status (code : N)
| Decode (e : string)
| DigestMismatch (requested returned : string)
| InvalidKey (what : string).

Class ActionCache (A : Type) := {
  ac_lookup : A → string → result AcError (option CheckResult);
}.

Definition verify_hit `{Crypto} (requested : string) (r : CheckResult) : result AcError unit :=
  let recomputed :=
    compute_memo_key (res_tree_hash r) (res_def_digest r) (res_toolchain_digest r) in
  if decide (recomputed ≠ requested ∨ memo_key r ≠ requested)
  then Err (DigestMismatch requested recomputed)
  else Ok tt.

Record InMemoryAc := { store : gmap string CheckResult }.
#[global] Instance in_memory_cache `{Crypto} : ActionCache InMemoryAc := {|
  ac_lookup := λ ac key,
    match store ac !! key with
    | Some r => _ ← verify_hit key r; Ok (Some r)
    | None => Ok None
    end;
|}.

(** * Oracles *)

Record History := {
  trees : list string;
  def_digest : string;
  toolchain_digest : string;
}.
Definition history_len (h : History) : nat := length (trees h).
Definition history_is_empty (h : History) : bool := bool_decide (trees h = []).

(** [trees[index]]: the search only indexes inside the history. *)
Definition tree_at (h : History) (index : nat) : string := default "" (trees h !! index).
Definition memo_key_at `{Crypto} (h : History) (index : nat) : string :=
  compute_memo_key (tree_at h index) (def_digest h) (toolchain_digest h).

Inductive ProbeVerdict := Green | Red.
#[global] Instance ProbeVerdict_eq_dec : EqDecision ProbeVerdict.
Proof. solve_decision. Defined.
Record ProbeOutcome := { verdict : ProbeVerdict; was_real_execution : bool }.

Class CheckOracle (O : Type) := {
  probe : O → History → nat → O * ProbeOutcome;
  probe_count : O → N;
  real_execution_count : O → N;
}.

Record MemoizedCheckOracle (A : Type) := {
  ac : A;
  probes : N;
  real_execs : N;
}.
Arguments ac {A}. Arguments probes {A}. Arguments real_execs {A}.

Definition memoized_new {A} (cache : A) : MemoizedCheckOracle A :=
  {| ac := cache; probes := 0; real_execs := 0 |}.

Definition memoized_probe `{Crypto} {A} `{ActionCache A} (o : MemoizedCheckOracle A)
    (h : History) (index : nat) : MemoizedCheckOracle A * ProbeOutcome :=
  let probes := u64_add (probes o) 1 in
  match ac_lookup (ac o) (memo_key_at h index) with
  | Ok (Some r) =>
      ({| ac := ac o; probes := probes; real_execs := real_execs o |},
       {| verdict := if (exit r =? 0)%Z then Green else Red; was_real_execution := false |})
  | Ok None | Err _ =>
      ({| ac := ac o; probes := probes; real_execs := u64_add (real_execs o) 1 |},
       {| verdict := Red; was_real_execution := true |})
  end.

#[global] Instance memoized_oracle `{Crypto} {A} `{ActionCache A}
    : CheckOracle (MemoizedCheckOracle A) := {|
  probe := memoized_probe;
  probe_count := probes;
  real_execution_count := real_execs;
|}.

(** * The search *)

Inductive BisectError := NoRedTip | DiagnosisTooLarge.
#[global] Instance BisectError_eq_dec : EqDecision BisectError.
Proof. solve_decision. Defined.

Record BisectOutcome := {
  culprit_index : nat;
  culprit_ref : string;
  last_green_index : option nat;
  executions : N;
  real_executions : N;
  probed_trees : list string;
}.

(** The difference of two counters. *)
Definition u64_sub (a b : N) : N := (a + 18446744073709551616 - b) mod 18446744073709551616.

Section Search.
Context {W : Type} `{CheckOracle W}.

(** The loop; every turn shrinks the window, so its width is enough fuel. *)
Fixpoint narrow (fuel : nat) (o : W) (h : History) (probed : list string) (lo hi : nat)
    : W * list string * nat :=
  match fuel with
  | O => (o, probed, lo)
  | S fuel =>
      if (lo <? hi)%nat then
        let mid := (lo + (hi - lo) / 2)%nat in
        let probed := probed ++ [tree_at h mid] in
        let '(o, r) := probe o h mid in
        match verdict r with
        | Green => narrow fuel o h probed (mid + 1) hi
        | Red => narrow fuel o h probed lo mid
        end
      else (o, probed, lo)
  end.

Definition find_culprit (o : W) (h : History) : W * result BisectError BisectOutcome :=
  let n := history_len h in
  if (n =? 0)%nat then (o, Err NoRedTip)
  else
    let probes_before := probe_count o in
    let real_before := real_execution_count o in
    let '(o, probed_trees, lo) := narrow (n - 1) o h [] 1 n in
    if (lo =? n)%nat then (o, Err NoRedTip)
    else
      (o, Ok {| culprit_index := lo; culprit_ref := tree_at h lo;
                last_green_index := if (1 <=? lo)%nat then Some (lo - 1)%nat else None;
                executions := u64_sub (probe_count o) probes_before;
                real_executions := u64_sub (real_execution_count o) real_before;
                probed_trees := probed_trees |}).
End Search.

(** * The diagnosis *)

Record DiagnosisObject := {
  diag_culprit_ref : string;
  diff_vs_green_ref : string;
  suspect_targets : list string;
  bisect_path : list string;
  size_bytes : N;
}.
Definition stamp (d : DiagnosisObject) (n : N) : DiagnosisObject :=
  {| diag_culprit_ref := diag_culprit_ref d; diff_vs_green_ref := diff_vs_green_ref d;
     suspect_targets := suspect_targets d; bisect_path := bisect_path d; size_bytes := n |}.

Definition DIAGNOSIS_SIZE_BOUND : N := 8192.
Definition MAX_ITERS : nat := 8.

(** [chars]: a byte followed by its continuation bytes. *)
Definition continuation (c : ascii) : bool :=
  let n := N_of_ascii c in (128 <=? n) && (n <? 192).
Fixpoint chars (s : string) : list string :=
  match s with
  | EmptyString => []
  | String c s =>
      match chars s with
      | String d ch :: rest =>
          if continuation d then String c (String d ch) :: rest
          else String c EmptyString :: String d ch :: rest
      | rest => String c EmptyString :: rest
      end
  end.

Definition derive_suspect_targets (culprit : string) : list string :=
  let fp := String.concat "" (take 8 (rev (chars culprit))) in
  ["//pkg/" +:+ fp +:+ ":build"; "//pkg/" +:+ fp +:+ ":test"].

(** The library's serialization of the derived [Serialize]. *)
Class DiagnosisJson := { to_vec : DiagnosisObject → list byte }.

Section Diagnose.
Context `{DiagnosisJson}.

Definition serialized_len (d : DiagnosisObject) : N := N.of_nat (length (to_vec d)).

(** The loop of [exact_serialized_size]; [turns] is what is left of
    [MAX_ITERS]. *)
Fixpoint measure (turns : nat) (d : DiagnosisObject) (stamped : N) : N :=
  let measured := serialized_len (stamp d stamped) in
  if measured =? stamped then measured
  else match turns with
       | O | 1%nat => measured
       | S turns => measure turns d measured
       end.
Definition exact_serialized_size (d : DiagnosisObject) : N := measure MAX_ITERS d 0.

Definition try_diagnose_with_suspects (h : History) (outcome : BisectOutcome)
    (suspects : list string) : result BisectError DiagnosisObject :=
  let diff :=
    match last_green_index outcome with
    | Some g => "cas:diff:" +:+ tree_at h g +:+ ".." +:+ culprit_ref outcome
    | None => "cas:diff:GENESIS.." +:+ culprit_ref outcome
    end in
  let diag := {| diag_culprit_ref := culprit_ref outcome; diff_vs_green_ref := diff;
                 suspect_targets := dedup (merge_sort String.le suspects);
                 bisect_path := probed_trees outcome; size_bytes := 0 |} in
  let diag := stamp diag (exact_serialized_size diag) in
  if DIAGNOSIS_SIZE_BOUND <? size_bytes diag then Err DiagnosisTooLarge else Ok diag.

(** [None] is the panic of its [expect]. *)
Definition diagnose (h : History) (outcome : BisectOutcome) : option DiagnosisObject :=
  match try_diagnose_with_suspects h outcome (derive_suspect_targets (culprit_ref outcome)) with
  | Ok d => Some d
  | Err _ => None
  end.

Record RedSignal := { signal_history : History }.

(** The outer option is the panic. *)
Definition on_red_signal {W} `{CheckOracle W} (o : W) (signal : RedSignal)
    : W * option (result BisectError (option DiagnosisObject)) :=
  match find_culprit o (signal_history signal) with
  | (o, Ok outcome) => (o, d ← diagnose (signal_history signal) outcome; Some (Ok (Some d)))
  | (o, Err NoRedTip) => (o, Some (Ok None))
  | (o, Err e) => (o, Some (Err e))
  end.
End Diagnose.

(** * The search finds the culprit *)

Lemma log2_up_halve w : (1 ≤ w)%nat → S (Nat.log2_up (S (w / 2))) = Nat.log2_up (S w).
Proof.
  intros Hw. rewrite (Nat.log2_up_eqn (S w)), Nat.pred_succ by lia. f_equal.
  pose proof (Nat.div_mod_eq w 2) as Hd. pose proof (Nat.mod_upper_bound w 2).
  set (a := (w / 2)%nat) in *. destruct (decide (a = 0%nat)) as [Ha|Ha].
  { assert (w = 1%nat) as -> by lia. done. }
  rewrite (Nat.log2_up_eqn (S a)), Nat.pred_succ by lia.
  assert (w mod 2 = 0 ∨ w mod 2 = 1)%nat as [Hm|Hm] by lia; rewrite Hm in Hd; rewrite Hd.
  - by rewrite Nat.add_0_r, Nat.log2_double by lia.
  - by rewrite Nat.log2_succ_double by lia.
Qed.

Section Correct.
Context {W : Type} `{CheckOracle W} (h : History) (truth : nat → ProbeVerdict).
(** In the states the search goes through, the oracle answers the same for a
    tree at every probe, and counts. *)
Context (good : W → Prop).
Context (stays : ∀ o i, good o → good (probe o h i).1).
Context (answers : ∀ o i, good o → verdict (probe o h i).2 = truth i).
Context (counts : ∀ o i, good o → probe_count (probe o h i).1 = u64_add (probe_count o) 1).

Lemma narrow_spec fuel o probed lo hi o' probed' r :
  good o → (hi - lo ≤ fuel)%nat → (lo ≤ hi)%nat →
  narrow fuel o h probed lo hi = (o', probed', r) →
  (lo ≤ r ≤ hi)%nat ∧ ((r < hi)%nat → truth r = Red) ∧
  ((lo < r)%nat → truth (r - 1)%nat = Green) ∧
  ∃ k, length probed' = (length probed + k)%nat ∧ (k ≤ Nat.log2_up (S (hi - lo)))%nat ∧
    (probe_count o ≤ u64_max → probe_count o' = u64_add (probe_count o) (N.of_nat k)).
Proof.
  revert o probed lo hi. induction fuel as [|fuel IH]; intros o probed lo hi Hgood Hf Hle; cbn [narrow].
  - intros. inv_eqs. assert (r = hi) as -> by lia. split_and!; [lia..|].
    exists 0%nat. split_and!; [lia|lia|]. intros. by rewrite u64_add_0.
  - destruct (Nat.ltb_spec lo hi) as [Hlt|Hge].
    2:{ intros. inv_eqs. assert (r = hi) as -> by lia. split_and!; [lia..|].
        exists 0%nat. split_and!; [lia|lia|]. intros. by rewrite u64_add_0. }
    pose proof (log2_up_halve (hi - lo)) as Hlog.
    pose proof (Nat.div_mod_eq (hi - lo) 2). pose proof (Nat.mod_upper_bound (hi - lo) 2).
    set (half := ((hi - lo) / 2)%nat) in *. set (mid := (lo + half)%nat) in *.
    assert (lo ≤ mid < hi)%nat as Hmid by lia.
    pose proof (answers o mid Hgood) as Ha. pose proof (counts o mid Hgood) as Hc.
    pose proof (stays o mid Hgood) as Hgood1.
    destruct (probe o h mid) as [o1 out]. simpl in Ha, Hc, Hgood1. cbv beta iota zeta. rewrite Ha.
    assert (∀ w k, (k ≤ Nat.log2_up (S w))%nat → (w ≤ half)%nat →
      (S k ≤ Nat.log2_up (S (hi - lo)))%nat) as Hstep.
    { intros w k Hk Hw. rewrite <- Hlog by lia. apply le_n_S. etrans; [exact Hk|].
      apply Nat.log2_up_le_mono. lia. }
    assert (∀ k c, (probe_count o1 ≤ u64_max → c = u64_add (probe_count o1) (N.of_nat k)) →
      c = u64_add (probe_count o) (N.of_nat (S k))) as Hcount.
    { intros k c ->; rewrite Hc; [|apply u64_add_le]. rewrite u64_add_assoc. f_equal. lia. }
    destruct (truth mid) eqn:Et; (intros Hn; apply IH in Hn; [|done|lia|lia]);
      destruct Hn as (Hr & Hred & Hgreen & k & Hk & Hkl & Hkc); rewrite length_app in Hk; simpl in Hk.
    + split_and!; [lia|lia|done| |].
      * intros _. destruct (decide (r = mid + 1)%nat) as [->|]; [|apply Hgreen; lia].
        by rewrite Nat.add_sub.
      * exists (S k). split_and!; [lia|eapply Hstep; [exact Hkl|lia]|by intros _; apply Hcount].
    + split_and!; [lia|lia| |done|].
      * intros _. destruct (decide (r = mid)) as [->|]; [done|apply Hred; lia].
      * exists (S k). split_and!; [lia|eapply Hstep; [exact Hkl|lia]|by intros _; apply Hcount].
Qed.

Lemma u64_sub_add c k : c ≤ u64_max → k ≤ u64_max → u64_sub (u64_add c k) c = k.
Proof.
  unfold u64_sub, u64_add, u64_max. intros.
  destruct (N.lt_ge_cases (c + k) 18446744073709551616).
  - rewrite (N.mod_small (c + k)) by lia.
    replace (c + k + 18446744073709551616 - c) with (k + 1 * 18446744073709551616) by lia.
    rewrite N.Div0.mod_add, N.mod_small; lia.
  - replace (c + k) with (c + k - 18446744073709551616 + 1 * 18446744073709551616) by lia.
    rewrite N.Div0.mod_add, (N.mod_small (c + k - _)), N.mod_small; lia.
Qed.

(** A history that stays red once it is red. *)
Definition monotone : Prop :=
  ∀ i j, (1 ≤ i ≤ j)%nat → (j < history_len h)%nat → truth i = Red → truth j = Red.

(** C12. The search ends with the first red tree after the baseline, within the
    binary logarithm of the length of the history, and reports that no tip is
    red exactly when the tip is green (or there is only the baseline).  On a
    history that is not monotone the culprit is still red and follows a tree
    that is green or the baseline. *)
Theorem find_culprit_correct o :
  good o → probe_count o ≤ u64_max → N.of_nat (history_len h) ≤ u64_max →
  match (find_culprit o h).2 with
  | Ok out =>
      let i := culprit_index out in
      (1 ≤ i < history_len h)%nat ∧ trees h !! i = Some (culprit_ref out) ∧
      last_green_index out = Some (i - 1)%nat ∧
      truth i = Red ∧ (i = 1%nat ∨ truth (i - 1)%nat = Green) ∧
      executions out = N.of_nat (length (probed_trees out)) ∧
      (length (probed_trees out) ≤ Nat.log2_up (history_len h))%nat ∧
      (monotone → ∀ j, (1 ≤ j < history_len h)%nat → truth j = Red ↔ (i ≤ j)%nat)
  | Err e =>
      e = NoRedTip ∧ ((history_len h ≤ 1)%nat ∨ truth (history_len h - 1)%nat = Green) ∧
      (monotone → ∀ j, (1 ≤ j < history_len h)%nat → truth j = Green)
  end.
Proof.
  intros Hgood Hc Hn. unfold find_culprit. set (n := history_len h) in *.
  assert (∀ r, monotone → (1 < r → truth (r - 1)%nat = Green)%nat → (r ≤ n)%nat →
    ∀ j, (1 ≤ j < r)%nat → truth j = Green) as Hpre.
  { intros r Hm Hg Hr j Hj. destruct (truth j) eqn:Ej; [done|].
    assert (truth (r - 1)%nat = Red) as Hx; [|rewrite Hg in Hx by lia; done].
    apply (Hm j); [lia| |done]. fold n. lia. }
  destruct (Nat.eqb_spec n 0) as [|Hn0]; simpl; [split_and!; [done|lia|lia]|].
  destruct (narrow _ _ _ _ _ _) as [[o' probed] r] eqn:E.
  apply narrow_spec in E as (Hr & Hred & Hgreen & k & Hk & Hkl & Hkc); [|done|lia|lia].
  simpl in Hk. assert (S (n - 1) = n) as Hsn by lia. rewrite Hsn in Hkl.
  destruct (Nat.eqb_spec r n) as [->|Hrn]; simpl.
  - split_and!; [done| |by intros; eapply Hpre].
    destruct (decide (n ≤ 1)%nat); [by left|right]. apply Hgreen. lia.
  - assert (r < length (trees h))%nat as Hlt by (fold n; unfold n, history_len in *; lia).
    destruct (lookup_lt_is_Some_2 (trees h) r Hlt) as [t Ht].
    split_and!.
    + lia.
    + lia.
    + unfold tree_at. by rewrite Ht.
    + destruct r; [lia|done].
    + apply Hred. lia.
    + destruct (decide (r = 1%nat)); [by left|right]. apply Hgreen. lia.
    + rewrite Hkc, u64_sub_add by (try lia; pose proof (Nat.log2_up_le_lin n); lia). by rewrite Hk.
    + by rewrite Hk.
    + intros Hm j Hj. split.
      * intros Hjr. destruct (decide (r ≤ j)%nat); [done|]. rewrite (Hpre r Hm) in Hjr; [done|done|lia..].
      * intros Hle. apply (Hm r); [lia|fold n; lia|]. apply Hred. lia.
Qed.
End Correct.

(** * The stamped size is exact *)

(** Printing the size is all that depends on it: the text is as much longer as
    the number is wider. *)
Class DiagnosisJsonLaws `{DiagnosisJson} :=
  serialized_width : ∀ d n,
    serialized_len (stamp d n) + 1 = serialized_len (stamp d 0) + N.of_nat (digits n).

Section Size.
Context `{DiagnosisJsonLaws}.

(** The width after two measurements is the final one. *)
Lemma digits_settle b m1 m2 m3 :
  m1 = b + 1 → m2 = b + N.of_nat (digits m1) → m3 = b + N.of_nat (digits m2) →
  digits m3 = digits m2.
Proof.
  intros E1 E2 E3. destruct (decimal_digits m1) as [Hl Hh]; [lia|].
  destruct (digits m1) as [|a] eqn:Ea; [simpl in Hh; lia|].
  replace (N.of_nat (S a) - 1) with (N.of_nat a) in Hl by lia. rewrite Nat2N.inj_succ in Hh, E2.
  rewrite <- N.add_1_r in Hh, E2.
  pose proof (N.pow_gt_lin_r 10 (N.of_nat a + 1)) as Hlin.
  assert (10 ^ (N.of_nat a + 1 + 1) = 10 * 10 ^ (N.of_nat a + 1)) as Hp.
  { rewrite (N.add_1_r (N.of_nat a + 1)), N.pow_succ_r'. done. }
  destruct (N.lt_ge_cases m2 (10 ^ (N.of_nat a + 1))) as [Hlt|Hge].
  - assert (digits m2 = S a) as E by (apply digits_unique; lia). rewrite E in E3.
    f_equal. lia.
  - assert (digits m2 = S (S a)) as E by (apply digits_unique; rewrite ?Nat2N.inj_succ, <- ?N.add_1_r; lia).
    rewrite E in *. apply digits_unique; rewrite ?Nat2N.inj_succ, <- ?N.add_1_r; lia.
Qed.

Lemma measure_fixed turns d v :
  serialized_len (stamp d v) = v → measure turns d v = v.
Proof. intros Hv. destruct turns; cbn [measure]; by rewrite Hv, N.eqb_refl. Qed.

(** One turn of the loop. *)
Lemma measure_step turns d v :
  measure (S (S turns)) d v =
    let m := serialized_len (stamp d v) in if m =? v then m else measure (S turns) d m.
Proof. done. Qed.

Lemma exact_serialized_size_exact d :
  serialized_len (stamp d (exact_serialized_size d)) = exact_serialized_size d.
Proof.
  unfold exact_serialized_size, MAX_ITERS. rewrite measure_step. cbv zeta.
  set (m1 := serialized_len (stamp d 0)). destruct (N.eqb_spec m1 0) as [E0|E0]; [by rewrite E0|].
  pose proof (serialized_width d) as Hw. fold m1 in Hw.
  set (m2 := serialized_len (stamp d m1)). set (m3 := serialized_len (stamp d m2)).
  assert (serialized_len (stamp d m3) = m3) as H3.
  { pose proof (Hw m3). pose proof (Hw m2) as W2. fold m3 in W2. pose proof (Hw m1) as W1. fold m2 in W1.
    assert (digits m3 = digits m2) as Hd by (apply (digits_settle (m1 - 1) m1); lia). lia. }
  rewrite measure_step. cbv zeta. fold m2. destruct (N.eqb_spec m2 m1) as [E1|E1].
  { by rewrite E1 at 1. }
  rewrite measure_step. cbv zeta. fold m3. destruct (N.eqb_spec m3 m2) as [E2|E2].
  { by rewrite E2 at 1. }
  by rewrite measure_fixed.
Qed.
End Size.

Section Bounded.
Context `{DiagnosisJsonLaws}.

(** A diagnosis states its own exact size, stays within the bound, names each
    suspect once and the diff from the last green tree; an oversized one is
    refused. *)
Theorem diagnosis_bounded h outcome suspects :
  match try_diagnose_with_suspects h outcome suspects with
  | Ok d =>
      size_bytes d = serialized_len d ∧ size_bytes d ≤ DIAGNOSIS_SIZE_BOUND ∧
      NoDup (suspect_targets d) ∧ (∀ t, t ∈ suspect_targets d ↔ t ∈ suspects) ∧
      diag_culprit_ref d = culprit_ref outcome ∧ bisect_path d = probed_trees outcome
  | Err e =>
      e = DiagnosisTooLarge ∧
      ∃ d, bisect_path d = probed_trees outcome ∧ size_bytes d = serialized_len d ∧
        DIAGNOSIS_SIZE_BOUND < serialized_len d
  end.
Proof.
  unfold try_diagnose_with_suspects. set (d := {| diag_culprit_ref := _ |}).
  cbv zeta. pose proof (exact_serialized_size_exact d) as Hex.
  set (v := exact_serialized_size d) in *. change (size_bytes (stamp d v)) with v.
  destruct (N.ltb_spec DIAGNOSIS_SIZE_BOUND v).
  - split; [done|]. exists (stamp d v). rewrite Hex. done.
  - rewrite Hex. split_and!; [done|done| | |done|done].
    + apply dedup_NoDup, StronglySorted_merge_sort; apply _.
    + intros t. change (suspect_targets (stamp d v)) with (dedup (merge_sort String.le suspects)).
      by rewrite elem_of_dedup, (merge_sort_Permutation String.le suspects).
Qed.
End Bounded.

(** * Cache hits *)

Section Hits.
Context `{CryptoLaws}.

(** What the cache serves for a tree of the history is a result of that check
    on that tree, or two different check inputs have one digest. *)
Theorem hit_is_for_request c tree def tool r :
  fits tree → fits def → fits tool →
  fits (res_tree_hash r) → fits (res_def_digest r) → fits (res_toolchain_digest r) →
  ac_lookup (c : InMemoryAc) (compute_memo_key tree def tool) = Ok (Some r) →
  (res_tree_hash r = tree ∧ res_def_digest r = def ∧ res_toolchain_digest r = tool) ∨
  collision (memo_key_preimage (res_tree_hash r) (res_def_digest r) (res_toolchain_digest r))
    (memo_key_preimage tree def tool).
Proof.
  intros ?????? Hl. simpl in Hl. destruct (store c !! _) as [r'|]; [|done].
  unfold verify_hit in Hl. case_decide as Hd; simpl in Hl; [done|]. inv_eqs.
  assert (compute_memo_key (res_tree_hash r) (res_def_digest r) (res_toolchain_digest r)
    = compute_memo_key tree def tool) as Heq by (apply dec_stable; tauto).
  unfold compute_memo_key in Heq. apply digest_hex_eq in Heq as [Heq|]; [left|by right].
  by apply memo_key_preimage_inj in Heq.
Qed.
End Hits.

(** * The memoized oracle *)

Section Memoized.
Context `{Crypto} {A : Type} `{ActionCache A}.

(** What the cache says about a tree. *)
Definition cached_verdict (cache : A) (h : History) (i : nat) : ProbeVerdict :=
  match ac_lookup cache (memo_key_at h i) with
  | Ok (Some r) => if (exit r =? 0)%Z then Green else Red
  | _ => Red
  end.

Lemma memoized_answers (o : MemoizedCheckOracle A) h i :
  verdict (probe o h i).2 = cached_verdict (ac o) h i ∧ ac (probe o h i).1 = ac o ∧
  probe_count (probe o h i).1 = u64_add (probe_count o) 1.
Proof.
  unfold cached_verdict. simpl. unfold memoized_probe.
  by destruct (ac_lookup (ac o) (memo_key_at h i)) as [[r|]|].
Qed.
End Memoized.

Module BisectExample.
#[local] Existing Instance Toy.toy.
#[local] Existing Instance Toy.toy_laws.

(** The fields before the size, then the size. *)
Definition before_size (d : DiagnosisObject) : Value :=
  Object [("culprit_ref", Str (diag_culprit_ref d)); ("diff_vs_green_ref", Str (diff_vs_green_ref d));
          ("suspect_targets", Array (Str <$> suspect_targets d));
          ("bisect_path", Array (Str <$> bisect_path d))].
#[local] Instance printed : DiagnosisJson := {|
  to_vec := λ d, as_bytes (Codec.to_string (before_size d) +:+ decimal (size_bytes d))
|}.
#[local] Instance printed_laws : DiagnosisJsonLaws.
Proof.
  intros d n. unfold serialized_len, to_vec, printed. rewrite !length_as_bytes, !length_string_app.
  change (before_size (stamp d n)) with (before_size (stamp d 0)).
  change (size_bytes (stamp d ?k)) with k. unfold digits. change (String.length (decimal 0)) with 1%nat.
  lia.
Qed.

(** Five trees, the last two of them failing. *)
Definition result_of (tree : string) (code : Z) : CheckResult :=
  {| memo_key := compute_memo_key tree "def" "tool"; res_tree_hash := tree; res_def_digest := "def";
     res_toolchain_digest := "tool"; exit := code; artifacts := []; stdout_ref := ""; stderr_ref := "";
     duration_ms := 0; runner_ref := ""; produced_at := 0 |}.
Definition history5 : History :=
  {| trees := ["t0"; "t1"; "t2"; "t3"; "t4"]; def_digest := "def"; toolchain_digest := "tool" |}.
Definition cache5 : InMemoryAc :=
  {| store := list_to_map ((λ tc : string * Z, (memo_key (result_of tc.1 tc.2), result_of tc.1 tc.2)) <$>
       [("t0", 0%Z); ("t1", 0%Z); ("t2", 0%Z); ("t3", 1%Z); ("t4", 1%Z)]) |}.
Definition outcome5 : option BisectOutcome :=
  match (find_culprit (memoized_new cache5) history5).2 with Ok out => Some out | Err _ => None end.

Lemma find_culprit_correct_witness :
  ∃ out, (find_culprit (memoized_new cache5) history5).2 = Ok out ∧ culprit_index out = 3%nat ∧
    culprit_ref out = "t3" ∧ last_green_index out = Some 2%nat ∧
    (length (probed_trees out) ≤ 3)%nat.
Proof.
  pose proof (find_culprit_correct history5 (cached_verdict cache5 history5) (λ o, ac o = cache5)) as Hc.
  specialize (Hc ltac:(intros o i <-; apply memoized_answers)).
  specialize (Hc ltac:(intros o i <-; apply memoized_answers)).
  specialize (Hc ltac:(intros o i _; apply memoized_answers)).
  specialize (Hc (memoized_new cache5) eq_refl ltac:(by_decision) ltac:(by_decision)).
  destruct (find_culprit (memoized_new cache5) history5).2 as [out|e] eqn:E.
  - exists out. destruct Hc as (_ & _ & _ & _ & _ & _ & Hp & _).
    assert (culprit_index out = 3%nat ∧ culprit_ref out = "t3" ∧ last_green_index out = Some 2%nat)
      as (? & ? & ?).
    { revert E. vm_compute. by intros [= <-]. }
    split_and!; [done..|]. exact Hp.
  - exfalso. revert E. vm_compute. done.
Defined.

Lemma diagnosis_bounded_witness :
  ∃ d, try_diagnose_with_suspects history5
      {| culprit_index := 3; culprit_ref := "t3"; last_green_index := Some 2%nat; executions := 2;
         real_executions := 0; probed_trees := ["t3"; "t2"] |} ["//b"; "//a"; "//b"] = Ok d ∧
    suspect_targets d = ["//a"; "//b"] ∧ size_bytes d = serialized_len d.
Proof.
  pose proof (diagnosis_bounded history5
    {| culprit_index := 3; culprit_ref := "t3"; last_green_index := Some 2%nat; executions := 2;
       real_executions := 0; probed_trees := ["t3"; "t2"] |} ["//b"; "//a"; "//b"]) as Hd.
  destruct (try_diagnose_with_suspects _ _ _) as [d|e] eqn:E.
  - exists d. destruct Hd as (Hsize & _). split_and!; [done| |exact Hsize].
    revert E. vm_compute. by intros [= <-].
  - exfalso. revert E. vm_compute. done.
Defined.

Lemma hit_is_for_request_witness :
  ac_lookup cache5 (compute_memo_key "t3" "def" "tool") = Ok (Some (result_of "t3" 1)) ∧
  (res_tree_hash (result_of "t3" 1) = "t3" ∨
   collision (memo_key_preimage "t3" "def" "tool") (memo_key_preimage "t3" "def" "tool")).
Proof.
  split; [vm_compute; reflexivity|].
  destruct (hit_is_for_request cache5 "t3" "def" "tool" (result_of "t3" 1)) as [(Ht & _ & _)|Hc];
    [by_decision..|vm_compute; reflexivity|left; exact Ht|right; exact Hc].
Defined.

(** A diagnosis is not small by construction: with a long enough tree name the
    size bound is exceeded and the [expect] of [diagnose] panics. *)
Example diagnose_can_panic :
  let name := String.concat "" (replicate 900 "0123456789") in
  diagnose {| trees := ["t0"; name]; def_digest := "def"; toolchain_digest := "tool" |}
    {| culprit_index := 1; culprit_ref := name; last_green_index := Some 0%nat; executions := 1;
       real_executions := 0; probed_trees := [name] |} = None.
Proof. vm_compute. reflexivity. Qed.
End BisectExample.
