(* ===== verification/Checks.v ===== *)
(** The check client, from [crates/hugit-checks/src/client]: the glob matcher
    ([glob.rs]), the memo key with its scoped tree root ([memo_key.rs]), check
    definitions ([parser.rs] and [hugit-contracts/src/check_def.rs]), the cache
    guards and the remote cache client ([ac.rs]) and the memoized run
    ([executor.rs]).

    A check runner, the HTTP transport and the JSON text of a result are classes.
    The runner's class keeps its state, and its law is the contract of the trait:
    a result carries the key and the axes it was asked for.  The theorems: the
    matcher decides the documented pattern language over bytes, and over characters
    wherever a question mark meets one-byte characters only; one memo key means one
    definition, one set of scoped files and one toolchain, or a collision of the
    pre-images of the two requests; so a cached answer was computed by a run of the
    same check on the same inputs. *)

From S2P Require Import Prelude Text Scan Json Crypto Secret Log Blobs Bisect.

(** * Globs *)

Definition STAR : byte := x2a.
Definition QUESTION : byte := x3f.
Definition SLASH : byte := x2f.

(** The two loops over how much of the text a star takes, the shortest first. *)
Fixpoint some_suffix (f : list byte → bool) (text : list byte) : bool :=
  f text || match text with [] => false | _ :: text => some_suffix f text end.
Fixpoint some_suffix_in_segment (f : list byte → bool) (text : list byte) : bool :=
  f text || match text with
            | [] => false
            | c :: text => if decide (c = SLASH) then false else some_suffix_in_segment f text
            end.

Fixpoint matches_at (pat text : list byte) {struct pat} : bool :=
  match pat with
  | [] => bool_decide (text = [])
  | c :: pat1 =>
      if decide (c = STAR) then
        match pat1 with
        | c2 :: rest =>
            if decide (c2 = STAR) then
              match rest with
              | c3 :: pat3 => bool_decide (c3 = SLASH) && matches_at pat3 text
              | [] => false
              end || some_suffix (matches_at rest) text
            else some_suffix_in_segment (matches_at pat1) text
        | [] => some_suffix_in_segment (matches_at pat1) text
        end
      else if decide (c = QUESTION) then
        match text with d :: tail => negb (bool_decide (d = SLASH)) && matches_at pat1 tail | [] => false end
      else match text with d :: tail => bool_decide (d = c) && matches_at pat1 tail | [] => false end
  end.
Definition glob_match (pattern path : string) : bool := matches_at (as_bytes pattern) (as_bytes path).
Definition matches_any (glob_set : list string) (path : string) : bool := existsb (λ p, glob_match p path) glob_set.

(** * Definitions and their digests *)

Record CheckDef := {
  def_digest : string; command : string; inputs : list string; toolchain_ref : string; env_manifest : string; glob_set : list string }.

Abbreviation FileContent := (list byte).
Definition MODE_TAG : list byte := x00 :: as_bytes "hugit-fmode" ++ [x00].

Definition push_lp (buf bytes : list byte) : list byte := buf ++ be_bytes 4 (as_u32 (N.of_nat (length bytes))) ++ bytes.
Definition push_vec (buf : list byte) (items : list string) : list byte :=
  foldl (λ buf item, push_lp buf (as_bytes item)) (buf ++ be_bytes 4 (as_u32 (N.of_nat (length items)))) items.

Definition frame_file_with_mode (mode : N) (content : list byte) : FileContent :=
  push_lp (push_lp MODE_TAG (rev (be_bytes 4 mode))) content.

(** The files of a check, the last content of each path. *)
Definition matched (glob_set : list string) (files : list (string * FileContent)) : gmap string FileContent :=
  foldl (λ m '(path, content), <[path := content]> m) ∅ (List.filter (λ f, matches_any glob_set f.1) files).
Definition path_le : relation (string * FileContent) := λ a b, String.le a.1 b.1.
#[global] Instance path_le_dec : RelDecision path_le.
Proof. intros a b. unfold path_le. apply _. Defined.
Definition in_order (m : gmap string FileContent) : list (string * FileContent) := merge_sort path_le (map_to_list m).
Definition tree_preimage (m : gmap string FileContent) : list byte :=
  foldl (λ buf '(path, content), push_lp (push_lp buf (as_bytes path)) content)
    (be_bytes 4 (as_u32 (N.of_nat (size m)))) (in_order m).

Section Keys.
Context `{Crypto}.

Definition scoped_tree_root (glob_set : list string) (files : list (string * FileContent)) : string :=
  digest_hex (tree_preimage (matched glob_set files)).

Definition def_preimage (def : CheckDef) : list byte :=
  let buf := push_lp [] (as_bytes (command def)) in
  let buf := push_vec buf (inputs def) in
  let buf := push_lp buf (as_bytes (toolchain_ref def)) in
  let buf := push_lp buf (as_bytes (env_manifest def)) in
  push_vec buf (glob_set def).
Definition compute_def_digest (def : CheckDef) : string := digest_hex (def_preimage def).
Definition with_canonical_def_digest (def : CheckDef) : CheckDef := {|
  def_digest := compute_def_digest def; command := command def; inputs := inputs def; toolchain_ref := toolchain_ref def;
  env_manifest := env_manifest def; glob_set := glob_set def |}.

Definition derive_memo_key (def : CheckDef) (files : list (string * FileContent)) (toolchain_digest : string) : string :=
  compute_memo_key (scoped_tree_root (glob_set def) files) (compute_def_digest def) toolchain_digest.

(** ** Parsing *)

Inductive ParseError := JsonError (what : string) | EmptyField (field : string) | DefDigestMismatch (expected got : string).

Definition validate (def : CheckDef) : result ParseError CheckDef :=
  if decide (trim (command def) = EmptyString) then Err (EmptyField "command")
  else if decide (trim (toolchain_ref def) = EmptyString) then Err (EmptyField "toolchain_ref")
  else
    let canonical := compute_def_digest def in
    if decide (def_digest def ≠ EmptyString ∧ def_digest def ≠ canonical) then Err (DefDigestMismatch canonical (def_digest def))
    else Ok (with_canonical_def_digest def).
End Keys.

Class CheckDefJson := { check_def_from_str : string → result string CheckDef }.
Definition parse_check_def `{Crypto} `{CheckDefJson} (json : string) : result ParseError CheckDef :=
  def ← map_err JsonError (check_def_from_str json); validate def.

(** ** The check of this repository *)

Definition HUGIT_CI_TOOLCHAIN_REF : string := "4e3da22efe8c5ee8a6b57820ca93f4c772e972e9021db2dd05e73a5f611cc6c8".
Definition HUGIT_CI_GATE_COMMAND : string :=
  "PATH=/toolchain/bin:$PATH cargo fmt --all --check && cargo clippy --workspace --all-targets --locked -- -D warnings && cargo test --workspace --locked && cargo-deny check && cargo-audit audit --deny warnings".
Definition hugit_gate_check_def `{Crypto} : CheckDef := with_canonical_def_digest {|
  def_digest := EmptyString; command := HUGIT_CI_GATE_COMMAND; inputs := []; toolchain_ref := HUGIT_CI_TOOLCHAIN_REF;
  env_manifest := EmptyString; glob_set := ["crates/**"; "Cargo.toml"; "Cargo.lock"; "rust-toolchain.toml"] |}.

(** * The action cache *)

Class AcStore (A : Type) := { ac_store : A → CheckResult → A * result AcError unit }.

Definition validate_memo_key (memo_key : string) : result AcError unit :=
  if (String.length memo_key =? 64)%nat && string_forall lower_hex memo_key then Ok tt
  else Err (InvalidKey ("memo key must match ^[0-9a-f]{64}$ (got " +:+ decimal (N.of_nat (String.length memo_key)) +:+ " chars)")).

Definition is_lower_alnum (c : ascii) : bool := is_ascii_digit c || is_ascii_lowercase c.
Definition is_valid_tenant_slug (tenant : string) : bool :=
  match tenant with
  | EmptyString => false
  | String c rest =>
      negb (63 <? String.length tenant)%nat && is_lower_alnum c
      && string_forall (λ b, is_lower_alnum b || bool_decide (b = "-"%char)) rest
  end.

Section Cache.
Context `{Crypto} `{Libm}.

(** The first axis that is no safe identifier is named. *)
Definition axis_refusal (field : string) : AcError := Transport
  ("AC store refused: memo axis `" +:+ field +:+ "` carries a structural-secret shape " +:+ utf8 [226; 128; 148]%nat
   +:+ " an axis is a content-address stored unredacted, so a credential in it cannot be persisted "
   +:+ "(it would also be unscrubbable without busting the cache key)").
Definition guard_axes_not_secret (r : CheckResult) : result AcError unit :=
  match List.find (λ f, negb (is_safe_identifier_shape f.2))
          [("tree_hash", res_tree_hash r); ("def_digest", res_def_digest r); ("toolchain_digest", res_toolchain_digest r)] with
  | Some (field, _) => Err (axis_refusal field)
  | None => Ok tt
  end.

#[global] Instance in_memory_ac_store : AcStore InMemoryAc := {|
  ac_store ac r :=
    match guard_axes_not_secret r with
    | Err e => (ac, Err e)
    | Ok _ => ({| store := <[memo_key r := r]> (store ac) |}, Ok tt)
    end |}.

(** ** The remote cache *)

Class HttpTransport (T : Type) := {
  http_get : T → string → string → T * result AcError (N * list byte);
  http_put : T → string → string → list byte → T * result AcError N;
}.
Class CheckResultJson := {
  result_to_vec : CheckResult → result string (list byte);
  result_from_slice : list byte → result string CheckResult;
}.

Record AcConfig := { base_url : string; tenant : string; pat : string }.
Definition AcConfig_new (base_url tenant pat : string) : result AcError AcConfig :=
  if decide (trim base_url = EmptyString) then Err (NotConfigured "base URL is empty")
  else if decide (trim tenant = EmptyString) then Err (NotConfigured "tenant is empty")
  else if negb (is_valid_tenant_slug tenant) then Err (NotConfigured "tenant slug must match ^[a-z0-9][a-z0-9-]{0,62}$")
  else if decide (trim pat = EmptyString) then Err (NotConfigured "PAT is empty")
  else Ok {| base_url := base_url; tenant := tenant; pat := pat |}.
Definition bearer (c : AcConfig) : string := "Bearer " +:+ pat c.
Definition trim_slashes (s : string) : string := String.rev (trim_front ["/"] (String.length s) (String.rev s)).
Definition endpoint (c : AcConfig) (memo_key : string) : result AcError string :=
  _ ← validate_memo_key memo_key;
  Ok (trim_slashes (base_url c) +:+ "/v1/ac/" +:+ tenant c +:+ "/" +:+ memo_key).

Definition parse_hit `{CheckResultJson} (requested : string) (body : list byte) : result AcError CheckResult :=
  r ← map_err Decode (result_from_slice body); _ ← verify_hit requested r; Ok r.
Definition store_body `{CheckResultJson} (r : CheckResult) : result AcError (list byte) := map_err Decode (result_to_vec r).

Record HttpAcClient (T : Type) := { seam_url : string; config : option AcConfig; transport : T }.
#[global] Arguments seam_url {T}.
#[global] Arguments config {T}.
#[global] Arguments transport {T}.
Definition set_transport {T} (c : HttpAcClient T) (t : T) : HttpAcClient T :=
  {| seam_url := seam_url c; config := config c; transport := t |}.

Definition http_lookup {T} `{HttpTransport T} `{CheckResultJson} (c : HttpAcClient T) (memo_key : string)
    : HttpAcClient T * result AcError (option CheckResult) :=
  match config c with
  | None => (c, Err (NotWired ("GET " +:+ trim_slashes (seam_url c) +:+ "/v1/ac/" +:+ memo_key)))
  | Some cfg =>
      match endpoint cfg memo_key with
      | Err e => (c, Err e)
      | Ok url =>
          let '(t, answer) := http_get (transport c) url (bearer cfg) in
          (set_transport c t,
           '(status, body) ← answer;
           if decide (status = 200) then (r ← parse_hit memo_key body; Ok (Some r))
           else if decide (status = 404) then Ok None
           else if decide (status = 429 ∨ status = 503) then Err (Busy ("AC GET returned HTTP " +:+ decimal status))
           else Err (Status status))
      end
  end.

Definition http_store {T} `{HttpTransport T} `{CheckResultJson} (c : HttpAcClient T) (r : CheckResult)
    : HttpAcClient T * result AcError unit :=
  match guard_axes_not_secret r with
  | Err e => (c, Err e)
  | Ok _ =>
      match config c with
      | None => (c, Err (NotWired ("PUT " +:+ trim_slashes (seam_url c) +:+ "/v1/ac/" +:+ memo_key r)))
      | Some cfg =>
          match (url ← endpoint cfg (memo_key r); body ← store_body r; Ok (url, body)) with
          | Err e => (c, Err e)
          | Ok (url, body) =>
              let '(t, answer) := http_put (transport c) url (bearer cfg) body in
              (set_transport c t,
               status ← answer;
               if decide (status = 200 ∨ status = 201) then Ok tt
               else if decide (status = 429 ∨ status = 503) then Err (Busy ("AC PUT returned HTTP " +:+ decimal status))
               else Err (Status status))
          end
      end
  end.
End Cache.

(** * Memoized runs *)

Inductive ExecError := ExecAc (e : AcError) | ExecRun (what : string) | ExecTimeout (secs : N).
Record CheckOutcome := { out_result : CheckResult; from_cache : bool; local_executions : N }.

Class CheckRunner (R : Type) := {
  run_check : R → CheckDef → string → string → string → string → R * result ExecError CheckResult }.

Definition run_memoized `{Crypto} {A R} `{ActionCache A} `{AcStore A} `{CheckRunner R} (ac : A) (runner : R) (def : CheckDef)
    (files : list (string * FileContent)) (toolchain_digest : string) : A * R * result ExecError CheckOutcome :=
  let tree_root := scoped_tree_root (glob_set def) files in
  let def_digest := compute_def_digest def in
  let key := compute_memo_key tree_root def_digest toolchain_digest in
  match ac_lookup ac key with
  | Err e => (ac, runner, Err (ExecAc e))
  | Ok (Some r) => (ac, runner, Ok {| out_result := r; from_cache := true; local_executions := 0 |})
  | Ok None =>
      let '(runner, ran) := run_check runner def key tree_root def_digest toolchain_digest in
      match ran with
      | Err e => (ac, runner, Err e)
      | Ok r =>
          let '(ac, stored) := ac_store ac r in
          match stored with
          | Err e => (ac, runner, Err (ExecAc e))
          | Ok _ => (ac, runner, Ok {| out_result := r; from_cache := false; local_executions := 1 |})
          end
      end
  end.

(** * The pattern language *)

(** The documented language over an alphabet, of bytes or of characters: a star
    takes a run without a slash, two stars any run, two stars and a slash also
    nothing at all; a question mark takes one letter that is no slash; everything
    else stands for itself. *)
Section Language.
Context {A : Type} (star question slash : A).

Inductive glob : list A → list A → Prop :=
| glob_end : glob [] []
| glob_no_dirs p t : glob p t → glob (star :: star :: slash :: p) t
| glob_any p u t : glob p t → glob (star :: star :: p) (u ++ t)
| glob_segment p u t : head p ≠ Some star → slash ∉ u → glob p t → glob (star :: p) (u ++ t)
| glob_one p c t : c ≠ slash → glob p t → glob (question :: p) (c :: t)
| glob_literal c p t : c ≠ star → c ≠ question → glob p t → glob (c :: p) (c :: t).
End Language.

(** A character as its UTF-8 bytes: a leading byte, which tells how many
    continuation bytes follow, and these. *)
Definition continuation (b : byte) : bool := (128 <=? Byte.to_N b) && (Byte.to_N b <? 192).
Definition following (lead : byte) : nat :=
  if Byte.to_N lead <? 128 then 0 else if Byte.to_N lead <? 224 then 1 else if Byte.to_N lead <? 240 then 2 else 3.
Definition is_char (c : list byte) : Prop :=
  ∃ lead tail, c = lead :: tail ∧ continuation lead = false ∧ length tail = following lead ∧ Forall (λ b, continuation b) tail.
(** The characters of a text, which Rust guarantees to be UTF-8. *)
Definition chars_of (s : string) (cs : list (list byte)) : Prop := as_bytes s = concat cs ∧ Forall is_char cs.

Abbreviation byte_glob := (glob STAR QUESTION SLASH).
Abbreviation char_glob := (glob [STAR] [QUESTION] [SLASH]).

Lemma some_suffix_true f text : some_suffix f text = true ↔ ∃ u t, text = u ++ t ∧ f t = true.
Proof.
  induction text as [|c text IH]; cbn [some_suffix]; rewrite orb_true_iff.
  - split; [intros [Hf|]; [by exists [], []|done]|]. intros (u & t & Heq & Hf). symmetry in Heq. apply app_nil in Heq as [-> ->]. by left.
  - rewrite IH. split.
    + intros [Hf|(u & t & -> & Hf)]; [by exists [], (c :: text)|by exists (c :: u), t].
    + intros ([|d u] & t & Heq & Hf); simpl in Heq; [subst; by left|]. inv Heq. right. eauto.
Qed.
Lemma some_suffix_in_segment_true f text :
  some_suffix_in_segment f text = true ↔ ∃ u t, text = u ++ t ∧ (SLASH ∉ u) ∧ f t = true.
Proof.
  induction text as [|c text IH]; cbn [some_suffix_in_segment]; rewrite orb_true_iff.
  - split; [intros [Hf|]; [exists [], []; split_and!; [done|apply not_elem_of_nil|done]|done]|].
    intros (u & t & Heq & _ & Hf). symmetry in Heq. apply app_nil in Heq as [-> ->]. by left.
  - split.
    + intros [Hf|Hr]; [exists [], (c :: text); split_and!; [done|apply not_elem_of_nil|done]|].
      case_decide as Hc; [done|]. apply IH in Hr as (u & t & -> & Hu & Hf). exists (c :: u), t. split_and!; [done|set_solver|done].
    + intros ([|d u] & t & Heq & Hu & Hf); simpl in Heq; [subst; by left|]. inv Heq. right.
      rewrite decide_False by set_solver. apply IH. exists u, t. split_and!; [done|set_solver|done].
Qed.

Lemma matches_at_glob pat text : matches_at pat text = true → byte_glob pat text.
Proof.
  revert text. induction pat as [pat IH] using (induction_ltof1 _ length). unfold ltof in IH. intros text.
  destruct pat as [|c pat1]; cbn [matches_at]; [intros ->%bool_decide_eq_true; constructor|].
  case_decide as Hstar; [subst c|case_decide as Hq; [subst c|]].
  - assert (head pat1 ≠ Some STAR → some_suffix_in_segment (matches_at pat1) text = true → byte_glob (STAR :: pat1) text) as Hseg.
    { intros Hh (u & t & -> & Hu & Ht)%some_suffix_in_segment_true. apply glob_segment; [done..|]. by apply IH; [simpl; lia|]. }
    destruct pat1 as [|c2 rest]; [by apply Hseg|]. case_decide as Hc2; [subst c2|apply Hseg; simpl; congruence].
    rewrite orb_true_iff. intros [Hd|(u & t & -> & Ht)%some_suffix_true].
    + destruct rest as [|c3 pat3]; [done|]. apply andb_true_iff in Hd as [->%bool_decide_eq_true Ht].
      apply glob_no_dirs, IH; [simpl; lia|done].
    + apply glob_any, IH; [simpl; lia|done].
  - destruct text as [|d tail]; [done|]. rewrite andb_true_iff, negb_true_iff, bool_decide_eq_false. intros [Hd Ht].
    apply glob_one; [done|]. by apply IH; [simpl; lia|].
  - destruct text as [|d tail]; [done|]. rewrite andb_true_iff, bool_decide_eq_true. intros [-> Ht].
    apply glob_literal; [done..|]. by apply IH; [simpl; lia|].
Qed.
Lemma glob_matches_at pat text : byte_glob pat text → matches_at pat text = true.
Proof.
  induction 1 as [|p t _ IH|p u t _ IH|p u t Hh Hu _ IH|p c t Hc _ IH|c p t Hs Hq _ IH]; cbn [matches_at].
  - done.
  - rewrite !decide_True by done. rewrite bool_decide_true by done. by rewrite IH.
  - rewrite !decide_True by done. apply orb_true_iff. right. apply some_suffix_true. eauto.
  - rewrite decide_True by done.
    assert (some_suffix_in_segment (matches_at p) (u ++ t) = true) as Hseg by (apply some_suffix_in_segment_true; eauto).
    destruct p as [|c2 rest]; [done|]. rewrite decide_False; [done|]. intros ->. by apply Hh.
  - rewrite decide_False, decide_True by done. by rewrite bool_decide_false.
  - rewrite !decide_False by done. by rewrite bool_decide_true.
Qed.

(** ** Bytes and characters *)

Lemma concat_ascii b p j P : b :: p = j ++ concat P → continuation b = false → following b = 0%nat →
  Forall (λ b, continuation b) j → Forall is_char P → j = [] ∧ ∃ P', P = [b] :: P' ∧ p = concat P' ∧ Forall is_char P'.
Proof.
  intros Heq Hb Hf Hj HP. destruct j as [|x j']; [|injection Heq as -> _; apply Forall_cons in Hj as [Hx _]; by rewrite Hb in Hx].
  split; [done|]. destruct P as [|ch P']; [done|]. apply Forall_cons in HP as [(lead & tail & -> & _ & Hl & _) HP].
  cbn [concat app] in Heq. injection Heq as <- ->. rewrite Hf in Hl. apply nil_length_inv in Hl as ->. by exists P'.
Qed.
Lemma concat_lead b p P : b :: p = concat P → Forall is_char P →
  ∃ tail P', P = (b :: tail) :: P' ∧ p = tail ++ concat P' ∧ continuation b = false ∧ length tail = following b ∧
    Forall (λ b, continuation b) tail ∧ Forall is_char P'.
Proof.
  intros Heq HP. destruct P as [|ch P']; [done|]. apply Forall_cons in HP as [(lead & tail & -> & Hc & Hl & Ht) HP].
  cbn [concat app] in Heq. injection Heq as <- ->. by exists tail, P'.
Qed.

(** The bytes of a character that is not the star, say, do not hold the star. *)
Lemma is_char_ascii c b : is_char c → continuation b = false → following b = 0%nat → b ∈ c → c = [b].
Proof.
  intros (lead & tail & -> & Hc & Hl & Ht) Hb Hf [->|Hin]%elem_of_cons.
  - rewrite Hf in Hl. by apply nil_length_inv in Hl as ->.
  - rewrite Forall_forall in Ht. apply Ht in Hin. by rewrite Hb in Hin.
Qed.
Lemma concat_ascii_in b cs : Forall is_char cs → continuation b = false → following b = 0%nat → b ∈ concat cs → [b] ∈ cs.
Proof.
  induction 1 as [|c cs Hc _ IH]; intros Hb Hf; cbn [concat]; [by intros ?%elem_of_nil|].
  intros [Hin|Hin]%elem_of_app; [rewrite (is_char_ascii c b) by done; by left|right; by apply IH].
Qed.

Lemma literal_bytes c p t : STAR ∉ c → QUESTION ∉ c → byte_glob p t → byte_glob (c ++ p) (c ++ t).
Proof.
  induction c as [|b c IH]; intros Hs Hq Hg; [done|]. rewrite not_elem_of_cons in Hs, Hq. simpl.
  apply glob_literal; [naive_solver..|]. apply IH; tauto.
Qed.

(** Where a question mark meets only one-byte characters, what the characters
    match the bytes match. *)
Lemma char_byte_glob P T : char_glob P T → Forall is_char P → Forall is_char T →
  [QUESTION] ∉ P ∨ Forall (λ c, length c = 1%nat) T → byte_glob (concat P) (concat T).
Proof.
  induction 1 as [|p t _ IH|p u t _ IH|p u t Hh Hu _ IH|p c t Hc _ IH|c p t Hs Hq _ IH]; intros HP HT Hor;
    rewrite ?Forall_cons, ?Forall_app in HP; rewrite ?Forall_cons, ?Forall_app in HT;
    rewrite ?Forall_cons, ?Forall_app in Hor; rewrite ?concat_app; cbn [concat app].
  - constructor.
  - apply glob_no_dirs, IH; [tauto..|set_solver].
  - apply glob_any, IH; [tauto..|set_solver].
  - apply glob_segment; [| |apply IH; [tauto..|set_solver]].
    + destruct p as [|ch p]; [done|]. destruct HP as (_ & (Hch & _)%Forall_cons).
      intros Hhd. assert (ch = [STAR]) as ->; [|by apply Hh]. apply is_char_ascii; [done..|].
      destruct Hch as (? & ? & -> & _). cbn in Hhd. injection Hhd as ->. by left.
    + intros Hin. apply Hu, concat_ascii_in; [tauto|done..].
  - destruct Hor as [Hor|[Hlen Hall]]; [destruct Hor; by left|]. destruct c as [|b [|]]; [done| |done]. cbn [app].
    apply glob_one; [congruence|]. apply IH; [tauto..|]. by right.
  - apply literal_bytes; [..|apply IH; [tauto..|set_solver]]; intros Hin; [apply Hs|apply Hq]; apply is_char_ascii; tauto.
Qed.

(** A run of the text, cut anywhere, is a run of characters and what the cut
    leaves of the last one. *)
Lemma cut_run T : ∀ u t k, u ++ t = k ++ concat T → Forall (λ b, continuation b) k → Forall is_char T →
  ∃ T1 k2 T2, t = k2 ++ concat T2 ∧ Forall (λ b, continuation b) k2 ∧ T = T1 ++ T2 ∧ (SLASH ∉ u → [SLASH] ∉ T1) ∧
    (k = [] → Forall (λ c, length c = 1%nat) T → k2 = []).
Proof.
  induction T as [|c T IH]; intros u t k Heq Hk HT; apply app_eq_inv in Heq as [(u' & -> & Heq)|(k2 & -> & ->)].
  2,4: apply Forall_app in Hk as [_ Hk]; eexists [], k2, _; split_and!; [done..|intros _; by apply not_elem_of_nil|];
    by intros [_ ->]%app_nil.
  - cbn [concat] in Heq. symmetry in Heq. apply app_nil in Heq as [-> ->]. exists [], [], [].
    split_and!; [done..|intros _; by apply not_elem_of_nil|done].
  - destruct u' as [|b u'].
    { exists [], [], (c :: T). split_and!; [done..|intros _; by apply not_elem_of_nil|done]. }
    apply Forall_cons in HT as [(lead & tail & -> & Hc & Hl & Ht) HT]. simpl in Heq.
    injection Heq as <- Heq. destruct (IH _ _ _ (eq_sym Heq) Ht HT) as (T1 & k2 & T2 & -> & Hk2 & -> & Hsl & Hone).
    exists ((lead :: tail) :: T1), k2, T2. split_and!; [done..| |].
    + rewrite !not_elem_of_app, !not_elem_of_cons. intros (_ & Hb & Hu). split; [congruence|by apply Hsl].
    + intros _ [Hlen Hall]%Forall_cons. apply Hone; [|done]. by destruct tail.
Qed.

(** What the bytes match the characters match, a rest [j] of the pattern's first
    character against the same rest of the text's. *)
Lemma byte_char_glob p b : byte_glob p b → ∀ j P k T, p = j ++ concat P → b = k ++ concat T →
  Forall (λ b, continuation b) j → Forall (λ b, continuation b) k → Forall is_char P → Forall is_char T →
  [QUESTION] ∉ P ∨ (Forall (λ c, length c = 1%nat) T ∧ k = []) →
  ∃ k2, k = j ++ k2 ∧ char_glob P T ∧ (k2 ≠ [] → head P = Some [STAR]).
Proof.
  induction 1 as [|p t _ IH|p u t _ IH|p u t Hh Hu _ IH|p c t Hc _ IH|c p t Hs Hq _ IH]; intros j P k T Hp Hb Hj Hk HP HT Hor.
  - symmetry in Hp, Hb. apply app_nil in Hp as [-> Hp], Hb as [-> Hb]. exists []. split; [done|].
    destruct HP as [|? ? (? & ? & -> & _)]; [|done]. destruct HT as [|? ? (? & ? & -> & _)]; [|done]. split; [constructor|done].
  - apply concat_ascii in Hp as (-> & P1 & -> & Hp & HP1); [|done..].
    apply (concat_ascii _ _ []) in Hp as (_ & P2 & -> & Hp & HP2); [|done..].
    apply (concat_ascii _ _ []) in Hp as (_ & P3 & -> & -> & HP3); [|done..].
    destruct (IH [] P3 k T) as (k2 & -> & Hg & _); [done..|set_solver|]. exists k2. split_and!; [done|by apply glob_no_dirs|done].
  - apply concat_ascii in Hp as (-> & P1 & -> & Hp & HP1); [|done..].
    apply (concat_ascii _ _ []) in Hp as (_ & P2 & -> & -> & HP2); [|done..].
    destruct (cut_run _ _ _ _ Hb Hk HT) as (T1 & k2 & T2 & -> & Hk2 & -> & _ & Hone). apply Forall_app in HT as [_ HT2].
    destruct (IH [] P2 k2 T2) as (_ & _ & Hg & _); [done..| |].
    { destruct Hor as [|[Hall ->]]; [left; set_solver|right]. split; [by apply Forall_app in Hall as [_ ?]|by apply Hone]. }
    exists k. split_and!; [done|by apply glob_any|done].
  - apply concat_ascii in Hp as (-> & P1 & -> & -> & HP1); [|done..].
    destruct (cut_run _ _ _ _ Hb Hk HT) as (T1 & k2 & T2 & -> & Hk2 & -> & Hsl & Hone). apply Forall_app in HT as [_ HT2].
    destruct (IH [] P1 k2 T2) as (_ & _ & Hg & _); [done..| |].
    { destruct Hor as [|[Hall ->]]; [left; set_solver|right]. split; [by apply Forall_app in Hall as [_ ?]|by apply Hone]. }
    exists k. split_and!; [done|apply glob_segment; [|by apply Hsl|done]|done].
    intros Hhd. apply Hh. destruct P1 as [|ch P1]; [done|]. by injection Hhd as ->.
  - apply concat_ascii in Hp as (-> & P1 & -> & -> & HP1); [|done..]. destruct Hor as [Hor|[Hall ->]]; [destruct Hor; by left|].
    apply (concat_lead _ _ T) in Hb as (tail & T' & -> & -> & _ & _ & _ & HT'); [|done]. apply Forall_cons in Hall as [Hlen Hall].
    destruct tail; [|done]. destruct (IH [] P1 [] T') as (_ & _ & Hg & _); [done..|by right|]. exists []. split_and!; [done| |done].
    apply glob_one; [congruence|done].
  - destruct j as [|x j].
    + apply concat_lead in Hp as (tail & P1 & -> & -> & Hcont & Hl & Ht & HP1); [|done].
      destruct Hk as [|x k Hx]; [|simpl in Hb; injection Hb as -> _; by rewrite Hcont in Hx].
      apply concat_lead in Hb as (tail' & T1 & -> & -> & _ & Hl' & Ht' & HT1); [|done].
      destruct (IH tail P1 tail' T1) as (k2 & -> & Hg & _); [done..| |].
      { destruct Hor as [|[[Hlen Hall]%Forall_cons _]]; [left; set_solver|right]. by destruct tail'. }
      rewrite length_app in Hl'. assert (k2 = []) as -> by (apply nil_length_inv; lia). rewrite app_nil_r.
      exists []. split_and!; [done|apply glob_literal; [congruence..|done]|done].
    + simpl in Hp. injection Hp as <- ->. apply Forall_cons in Hj as [Hx Hj].
      destruct Hk as [|y k Hy Hk].
      { apply concat_lead in Hb as (? & ? & _ & _ & Hcont & _); [|done]. by rewrite Hcont in Hx. }
      simpl in Hb. injection Hb as <- ->. destruct Hor as [Hor|[_ ?]]; [|done].
      destruct (IH j P k T) as (k2 & -> & Hg & Hh2); [done..|by left|]. by exists k2.
Qed.

(** C39. The matcher decides the documented language read over bytes, whatever the
    pattern and the path.  Over characters, as the documentation has it, it decides
    the language for every pattern without a question mark and for every path of
    one-byte characters; a question mark takes one byte of a longer character, not
    the character. *)
Theorem glob_match_iff pattern path :
  (glob_match pattern path = true ↔ glob STAR QUESTION SLASH (as_bytes pattern) (as_bytes path)) ∧
  ∀ P T, chars_of pattern P → chars_of path T → [QUESTION] ∉ P ∨ Forall (λ c, length c = 1%nat) T →
    (glob_match pattern path = true ↔ glob [STAR] [QUESTION] [SLASH] P T).
Proof.
  assert (glob_match pattern path = true ↔ byte_glob (as_bytes pattern) (as_bytes path)) as Hiff
    by (split; [apply matches_at_glob|apply glob_matches_at]).
  split; [done|]. intros P T [HP HPc] [HT HTc] Hor. rewrite Hiff, HP, HT. split; [|intros Hg; by apply char_byte_glob].
  intros Hg. destruct (byte_char_glob _ _ Hg [] P [] T) as (_ & _ & Hc & _); [done..| |done]. tauto.
Qed.

(** * One key, one check *)

Definition fits_bytes (b : list byte) : Prop := N.of_nat (length b) < 4294967296.
Definition lpb (b : list byte) : list byte := be_bytes 4 (as_u32 (N.of_nat (length b))) ++ b.

Lemma lpb_prefix_code : prefix_code fits_bytes lpb.
Proof.
  intros s t r r' Hs Ht. unfold lpb, fits_bytes in *. rewrite <- !(assoc_L (++)).
  intros [Hlen Heq]%be4_count_inj; [|done..]. apply app_inj_1 in Heq as [-> ->]; [done|lia].
Qed.
Lemma push_lp_lpb buf b : push_lp buf b = buf ++ lpb b.
Proof. done. Qed.
Lemma push_lp_lp buf s : push_lp buf (as_bytes s) = buf ++ lp s.
Proof. done. Qed.
Lemma push_vec_vec buf l : push_vec buf l = buf ++ vec l.
Proof. unfold push_vec, vec. by rewrite (foldl_extend _ lp), <- (assoc_L (++)). Qed.

(** What a definition says, its reported digest apart. *)
Definition def_body (d : CheckDef) : string * list string * string * string * list string :=
  (command d, inputs d, toolchain_ref d, env_manifest d, glob_set d).
Definition def_fits (d : CheckDef) : Prop :=
  fits (command d) ∧ (fits_len (inputs d) ∧ Forall fits (inputs d)) ∧ fits (toolchain_ref d) ∧ fits (env_manifest d) ∧
  (fits_len (glob_set d) ∧ Forall fits (glob_set d)).

Lemma def_preimage_inj d d' : def_fits d → def_fits d' → def_preimage d = def_preimage d' → def_body d = def_body d'.
Proof.
  intros (?&?&?&?&?) (?&?&?&?&?) Heq. unfold def_preimage in Heq. cbv zeta in Heq.
  rewrite !push_vec_vec, !push_lp_lp, !app_nil_l, <- !(assoc_L (++)) in Heq.
  do 5 peel Heq. unfold def_body. congruence.
Qed.

Definition lp_file (f : string * FileContent) : list byte := lp f.1 ++ lpb f.2.
Definition file_fits (f : string * FileContent) : Prop := fits f.1 ∧ fits_bytes f.2.
Definition files_fit (m : gmap string FileContent) : Prop := N.of_nat (size m) < 4294967296 ∧ map_Forall (λ p c, file_fits (p, c)) m.

Lemma lp_file_prefix_code : prefix_code file_fits lp_file.
Proof.
  intros [p c] [p' c'] r r' [Hp Hc] [Hp' Hc']. unfold lp_file. cbn [fst snd] in *. rewrite <- !(assoc_L (++)).
  intros [-> Heq]%lp_prefix_code; [|done..]. apply lpb_prefix_code in Heq as [-> ->]; done.
Qed.

Lemma in_order_perm m : in_order m ≡ₚ map_to_list m.
Proof. apply merge_sort_Permutation. Qed.
Lemma length_in_order m : length (in_order m) = size m.
Proof. by rewrite (Permutation_length (in_order_perm m)), length_map_to_list. Qed.
Lemma tree_preimage_eq m : tree_preimage m = be_bytes 4 (as_u32 (N.of_nat (length (in_order m)))) ++ (in_order m ≫= lp_file).
Proof.
  unfold tree_preimage. rewrite length_in_order, (foldl_extend _ lp_file); [done|].
  intros buf [p c]. rewrite push_lp_lpb, push_lp_lp. unfold lp_file. by rewrite <- (assoc_L (++)).
Qed.
Lemma tree_preimage_inj m m' : files_fit m → files_fit m' → tree_preimage m = tree_preimage m' → m = m'.
Proof.
  intros [Hl Hf] [Hl' Hf'] Heq. rewrite !tree_preimage_eq in Heq.
  apply (prefix_code_inj _ _ _ _ (counted_prefix_code _ _ lp_file_prefix_code)) in Heq.
  - rewrite <- (list_to_map_to_list m), <- (list_to_map_to_list m'). apply list_to_map_proper; [apply NoDup_fst_map_to_list|].
    by rewrite <- !in_order_perm, Heq.
  - split; [unfold fits_len; by rewrite length_in_order|]. rewrite in_order_perm.
    apply Forall_forall. intros [p c] Hin%elem_of_map_to_list. by apply Hf in Hin.
  - split; [unfold fits_len; by rewrite length_in_order|]. rewrite in_order_perm.
    apply Forall_forall. intros [p c] Hin%elem_of_map_to_list. by apply Hf' in Hin.
Qed.

(** A request for a check. *)
Record Request := { req_def : CheckDef; req_files : list (string * FileContent); req_toolchain : string }.
Definition req_key `{Crypto} (q : Request) : string := derive_memo_key (req_def q) (req_files q) (req_toolchain q).
Definition scoped (q : Request) : gmap string FileContent := matched (glob_set (req_def q)) (req_files q).
Definition req_fits (q : Request) : Prop := def_fits (req_def q) ∧ files_fit (scoped q) ∧ fits (req_toolchain q).
(** The same check of the same inputs: definition, files under its globs and
    toolchain. *)
Definition same_check (q q' : Request) : Prop :=
  def_body (req_def q) = def_body (req_def q') ∧ scoped q = scoped q' ∧ req_toolchain q = req_toolchain q'.

Section OneKey.
Context `{CryptoLaws}.

Lemma digest_hex_fits b : fits (digest_hex b).
Proof. unfold fits. by rewrite length_digest_hex. Qed.

(** The byte string whose digest the key of a request is. *)
Definition key_preimage (q : Request) : list byte :=
  memo_key_preimage (scoped_tree_root (glob_set (req_def q)) (req_files q)) (compute_def_digest (req_def q)) (req_toolchain q).
(** The pre-images of two requests collide: those of their keys, of the roots of
    their scoped files, or of the digests of their definitions. *)
Definition requests_collide (q q' : Request) : Prop :=
  collision (key_preimage q) (key_preimage q') ∨
  collision (tree_preimage (scoped q)) (tree_preimage (scoped q')) ∨
  collision (def_preimage (req_def q)) (def_preimage (req_def q')).

Lemma key_binds q q' : req_fits q → req_fits q' → req_key q = req_key q' → same_check q q' ∨ requests_collide q q'.
Proof.
  intros (Hd & Hf & Ht) (Hd' & Hf' & Ht') Hk. unfold req_key, derive_memo_key, compute_memo_key, requests_collide in *.
  apply digest_hex_eq in Hk as [Hk|]; [|by right; left].
  apply memo_key_preimage_inj in Hk as (Hroot & Hdef & Htool); [|apply digest_hex_fits || done..].
  apply digest_hex_eq in Hroot as [Hroot|]; [|by right; right; left].
  apply digest_hex_eq in Hdef as [Hdef|]; [|by right; right; right]. left.
  split_and!; [by apply def_preimage_inj|by apply tree_preimage_inj|done].
Qed.

(** Files outside the globs, and the digest a definition reports of itself, are
    no part of the key. *)
Lemma key_scoped q q' : same_check q q' → req_key q = req_key q'.
Proof.
  intros (Hd & Hf & Ht). unfold req_key, derive_memo_key, scoped_tree_root. unfold scoped in Hf. rewrite Hf, Ht. f_equal.
  unfold compute_def_digest, def_preimage. unfold def_body in Hd. injection Hd as -> -> -> -> ->. done.
Qed.

(** Two requests have one memo key exactly when they are the same check of the
    same inputs, unless pre-images of the two collide. *)
Theorem memo_key_exact q q' : req_fits q → req_fits q' →
  (same_check q q' → req_key q = req_key q') ∧ (req_key q = req_key q' → same_check q q' ∨ requests_collide q q').
Proof. intros Hq Hq'. split; [apply key_scoped|by apply key_binds]. Qed.
End OneKey.

(** * Answers from the cache *)

(** The contract of a runner: its result carries the key and the axes. *)
Class CheckRunnerLaws {R} `{CheckRunner R} := {
  run_stamps ρ def key tree dd tool ρ' r : run_check ρ def key tree dd tool = (ρ', Ok r) →
    memo_key r = key ∧ res_tree_hash r = tree ∧ res_def_digest r = dd ∧ res_toolchain_digest r = tool }.

Section Session.
Context `{CryptoLaws} `{Libm} {R : Type} `{CheckRunnerLaws R}.

Definition answer (s : InMemoryAc * R) (q : Request) : InMemoryAc * R * result ExecError CheckOutcome :=
  run_memoized s.1 s.2 (req_def q) (req_files q) (req_toolchain q).
Definition session (ρ : R) (qs : list Request) : InMemoryAc * R :=
  foldl (λ s q, (answer s q).1) ({| store := ∅ |}, ρ) qs.

(** A request of the session was answered with this result by a run: of the
    request's own definition, from the state the earlier requests had left. *)
Definition ran_in (ρ : R) (qs : list Request) (q : Request) (r : CheckResult) : Prop :=
  ∃ before after ρ', qs = before ++ q :: after ∧
    run_check (session ρ before).2 (req_def q) (req_key q) (scoped_tree_root (glob_set (req_def q)) (req_files q))
      (compute_def_digest (req_def q)) (req_toolchain q) = (ρ', Ok r) ∧
    (answer (session ρ before) q).1.2 = ρ' ∧
    (answer (session ρ before) q).2 = Ok {| out_result := r; from_cache := false; local_executions := 1 |}.
(** Whatever is stored was produced by a run for one of the requests, and is
    stored under its key. *)
Definition cache_ok (ρ : R) (qs : list Request) (ac : InMemoryAc) : Prop :=
  map_Forall (λ key r, ∃ q, q ∈ qs ∧ ran_in ρ qs q r ∧ key = req_key q) (store ac).

Lemma cache_ok_snoc ρ qs q ac : cache_ok ρ qs ac → cache_ok ρ (qs ++ [q]) ac.
Proof.
  intros Hac k r Hk. destruct (Hac k r Hk) as (q' & Hq & (before & after & ρ' & -> & Hran) & ->).
  exists q'. split_and!; [set_solver| |done]. exists before, (after ++ [q]), ρ'. split; [by rewrite <- (assoc_L (++))|done].
Qed.

Lemma session_snoc ρ qs q : session ρ (qs ++ [q]) = (answer (session ρ qs) q).1.
Proof. unfold session. by rewrite foldl_snoc. Qed.

Lemma session_ok ρ qs : cache_ok ρ qs (session ρ qs).1.
Proof.
  induction qs as [|q qs Hac] using rev_ind; [apply map_Forall_empty|]. rewrite session_snoc.
  apply (cache_ok_snoc _ _ q) in Hac as Hmono. pose proof (eq_refl (answer (session ρ qs) q)) as Ha. revert Ha.
  unfold answer at 1 3, run_memoized. destruct (ac_lookup (session ρ qs).1 _) as [[r|]|]; [done| |done].
  destruct (run_check (session ρ qs).2 _ _ _ _ _) as [ρ' [r|]] eqn:Er; [|done]. cbn [ac_store in_memory_ac_store].
  destruct (guard_axes_not_secret r); [|done]. intros Ha k r' Hk. simpl in Hk.
  apply lookup_insert_Some in Hk as [[<- <-]|[_ Hk]]; [|by apply Hmono].
  exists q. split_and!; [set_solver| |by apply run_stamps in Er as [-> _]].
  exists qs, [], ρ'. rewrite <- Ha. by split_and!.
Qed.

Lemma memory_hit ac key r : ac_lookup ac key = Ok (Some r) → store ac !! key = Some r.
Proof.
  cbn. destruct (store ac !! key) as [r'|]; [|done]. unfold verify_hit. case_decide; [done|]. cbn [mbind result_bind]. congruence.
Qed.

(** C24. An answer from the cache runs nothing and changes nothing.  Its result is the
    one an earlier request of the session was answered with after a run, and that
    request was for the same check: the same definition (its reported digest apart),
    the same files under its globs and the same toolchain; or else pre-images of
    that request and this one collide: of their keys, of the roots of their files,
    or of the digests of their definitions.  (Lengths fit the 32-bit prefixes of the
    hash inputs, and a runner stamps its result as its contract says.) *)
Theorem cached_answer_sound ρ qs q s' out : Forall req_fits (q :: qs) → answer (session ρ qs) q = (s', Ok out) →
  from_cache out = true → s' = session ρ qs ∧ local_executions out = 0 ∧
  ∃ q', q' ∈ qs ∧ ran_in ρ qs q' (out_result out) ∧ (same_check q' q ∨ requests_collide q' q).
Proof.
  intros [Hq Hqs]%Forall_cons Ha Hc. pose proof (session_ok ρ qs) as Hok. destruct (session ρ qs) as [ac ρ'] eqn:Es. cbn [fst] in Hok.
  unfold answer, run_memoized in Ha. cbn [fst snd] in Ha.
  destruct (ac_lookup ac _) as [[r|]|] eqn:El; [|..|done].
  - injection Ha as <- <-. cbn. split_and!; [done..|]. apply memory_hit in El. destruct (Hok _ _ El) as (q' & Hin & Hran & Hkey).
    exists q'. split_and!; [done..|]. rewrite Forall_forall in Hqs. apply key_binds; [by apply Hqs|done|by rewrite <- Hkey].
  - destruct (run_check _ _ _ _ _ _) as [ρ'' [r|]]; [|done]. destruct (ac_store ac r) as [ac' [[]|]]; [|done].
    injection Ha as <- <-. done.
Qed.

(** What has run is not run again: after an answer, the same check of the same
    inputs is answered from the cache with the same result. *)
Theorem second_answer_cached s q q' s' out : same_check q q' → answer s q = (s', Ok out) →
  answer s' q' = (s', Ok {| out_result := out_result out; from_cache := true; local_executions := 0 |}).
Proof.
  intros Hsame Ha. pose proof (key_scoped q q' Hsame) as Hkey. unfold req_key, derive_memo_key in Hkey.
  unfold answer, run_memoized in *. rewrite <- Hkey. clear Hkey Hsame. destruct s as [ac ρ]. cbn [fst snd] in Ha.
  set (key := compute_memo_key _ _ _) in *. destruct (ac_lookup ac key) as [[r|]|] eqn:El; [|..|done].
  - injection Ha as <- <-. cbn [fst snd out_result]. by rewrite El.
  - destruct (run_check _ _ _ _ _ _) as [ρ'' [r|]] eqn:Er; [|done]. cbn [ac_store in_memory_ac_store] in Ha.
    destruct (guard_axes_not_secret r); [|done]. injection Ha as <- <-. cbn [fst snd out_result].
    apply run_stamps in Er as (Hk & Ht & Hd & Hc). cbn [ac_lookup in_memory_cache store]. rewrite Hk, lookup_insert_eq.
    unfold verify_hit. rewrite Ht, Hd, Hc. fold key. rewrite decide_False by (intros [|]; congruence). done.
Qed.
End Session.

(** * The remote cache asks and answers for one key *)

Section Remote.
Context `{Crypto} `{Libm} {T : Type} `{HttpTransport T} `{CheckResultJson}.

Lemma verify_hit_Ok key r : verify_hit key r = Ok tt ↔
  memo_key r = key ∧ compute_memo_key (res_tree_hash r) (res_def_digest r) (res_toolchain_digest r) = key.
Proof.
  unfold verify_hit. case_decide as Hd; split; try done; [intros [Hk Hc]; by destruct Hd|]. intros _.
  split; [destruct (decide (memo_key r = key))|destruct (decide (compute_memo_key (res_tree_hash r) (res_def_digest r) (res_toolchain_digest r) = key))];
    [done|tauto|done|tauto].
Qed.

(** A lookup sends nothing, or exactly one request, to the tenant's path and the
    64 hexadecimal digits of the key; whatever the server answers, a hit carries
    that key and its own axes hash to it. *)
Theorem remote_lookup_guarded (c c' : HttpAcClient T) key res : http_lookup c key = (c', res) →
  (c' = c ∧ ∃ e, res = Err e) ∨
  ∃ cfg, config c = Some cfg ∧ String.length key = 64%nat ∧ string_forall lower_hex key = true ∧
    c' = set_transport c
      (http_get (transport c) (trim_slashes (base_url cfg) +:+ "/v1/ac/" +:+ tenant cfg +:+ "/" +:+ key) (bearer cfg)).1 ∧
    ∀ r, res = Ok (Some r) →
      memo_key r = key ∧ compute_memo_key (res_tree_hash r) (res_def_digest r) (res_toolchain_digest r) = key.
Proof.
  unfold http_lookup, endpoint, validate_memo_key. destruct (config c) as [cfg|]; [|intros [= <- <-]; left; eauto].
  destruct ((String.length key =? 64)%nat) eqn:El; cbn [andb mbind result_bind]; [|intros [= <- <-]; left; eauto].
  destruct (string_forall lower_hex key) eqn:Eh; cbn [mbind result_bind]; [|intros [= <- <-]; left; eauto].
  destruct (http_get _ _ _) as [t ans] eqn:Eg. intros [= <- <-]. right. exists cfg. rewrite Eg. cbn [fst].
  split_and!; [done|by apply Nat.eqb_eq|done..|].
  intros r Hr. destruct ans as [[status body]|]; cbn [mbind result_bind] in Hr; [|done]. case_decide.
  - unfold parse_hit in Hr. destruct (map_err Decode (result_from_slice body)) as [r'|]; cbn [mbind result_bind] in Hr; [|done].
    destruct (verify_hit key r') as [[]|] eqn:Ev; cbn [mbind result_bind] in Hr; [|done]. injection Hr as <-. by apply verify_hit_Ok.
  - repeat case_decide; done.
Qed.
End Remote.

Module ChecksExample.
Import Toy Log2.

(** A runner that stamps what it is given and counts its runs. *)
#[export] Instance counting_runner : CheckRunner N := {|
  run_check n def key tree dd tool := (n + 1, Ok {|
    memo_key := key; res_tree_hash := tree; res_def_digest := dd; res_toolchain_digest := tool; exit := 0%Z; artifacts := [];
    stdout_ref := EmptyString; stderr_ref := EmptyString; duration_ms := 0; runner_ref := "local"; produced_at := n |}) |}.
#[export] Instance counting_runner_laws : CheckRunnerLaws.
Proof. split. intros ρ def key tree dd tool ρ' r Hr. by injection Hr as _ <-. Qed.

Definition lint (reported : string) : CheckDef := {|
  def_digest := reported; command := "lint"; inputs := []; toolchain_ref := "t"; env_manifest := EmptyString; glob_set := ["src/**/*.rs"] |}.
Definition ask (outside : string) : Request := {|
  req_def := lint EmptyString; req_files := [("src/a.rs", as_bytes "a"); ("README", as_bytes outside)]; req_toolchain := "rust-1" |}.

Lemma ask_fits outside : req_fits (ask outside).
Proof.
  assert (def_fits (lint EmptyString)) as Hd by (split_and!; by repeat constructor).
  split_and!; [done| |done]. assert (scoped (ask outside) = {[ "src/a.rs" := as_bytes "a" ]}) as -> by done.
  split; [done|]. by apply map_Forall_singleton.
Qed.

Lemma memo_key_exact_witness : req_key (ask "one") = req_key (ask "two").
Proof. apply (memo_key_exact (ask "one") (ask "two") (ask_fits _) (ask_fits _)). split_and!; vm_compute; reflexivity. Defined.

Definition after_one : InMemoryAc * N := session 0 [ask "one"].
Lemma cached_answer_sound_witness :
  ∃ q', q' ∈ [ask "one"] ∧ (same_check q' (ask "two") ∨ requests_collide q' (ask "two")).
Proof.
  destruct (cached_answer_sound 0 [ask "one"] (ask "two") (answer after_one (ask "two")).1
    {| out_result := match (answer after_one (ask "two")).2 with Ok o => out_result o | Err _ => {|
         memo_key := EmptyString; res_tree_hash := EmptyString; res_def_digest := EmptyString; res_toolchain_digest := EmptyString; exit := 0%Z;
         artifacts := []; stdout_ref := EmptyString; stderr_ref := EmptyString; duration_ms := 0; runner_ref := EmptyString; produced_at := 0 |} end;
       from_cache := true; local_executions := 0 |}) as (_ & _ & q' & Hin & _ & Hs).
  - constructor; [apply ask_fits|constructor; [apply ask_fits|constructor]].
  - vm_compute. reflexivity.
  - reflexivity.
  - by exists q'.
Defined.

(** A star over a two-byte letter: the characters and the bytes agree. *)
Lemma glob_match_iff_witness : glob [STAR] [QUESTION] [SLASH] [[STAR]; [x2e]; [x63]] [[xc3; xa9]; [x2e]; [x63]].
Proof.
  destruct (glob_match_iff "*.c" (utf8 [195; 169; 46; 99]%nat)) as [_ Hc].
  apply (Hc [[STAR]; [x2e]; [x63]] [[xc3; xa9]; [x2e]; [x63]]).
  - split; [reflexivity|]. repeat constructor; eexists _, _; split_and!; try reflexivity; repeat constructor.
  - split; [reflexivity|]. repeat constructor; eexists _, _; split_and!; try reflexivity; repeat constructor.
  - left. intros Hin. repeat apply elem_of_cons in Hin as [Hin|Hin]; [done..|by apply elem_of_nil in Hin].
  - vm_compute. reflexivity.
Defined.

Lemma second_answer_cached_witness : ∃ r, answer after_one (ask "two") =
  (after_one, Ok {| out_result := r; from_cache := true; local_executions := 0 |}).
Proof.
  eexists. refine (second_answer_cached ({| store := ∅ |}, 0) (ask "one") (ask "two") after_one {| out_result := _; from_cache := false; local_executions := 1 |} _ _).
  - split_and!; vm_compute; reflexivity.
  - vm_compute. reflexivity.
Defined.

(** Patterns. *)
Example double_star : glob_match "src/**/*.rs" "src/a.rs" = true ∧ glob_match "src/*.rs" "src/x/a.rs" = false.
Proof. split; vm_compute; reflexivity. Qed.
(** A question mark takes one byte: a letter of two bytes needs two. *)
Example question_mark_is_a_byte : glob_match "?" (utf8 [195; 169]%nat) = false ∧ glob_match "??" (utf8 [195; 169]%nat) = true.
Proof. split; vm_compute; reflexivity. Qed.

(** A remote cache that answers with the stored record. *)
Definition hit : CheckResult := default {|
    memo_key := EmptyString; res_tree_hash := EmptyString; res_def_digest := EmptyString; res_toolchain_digest := EmptyString; exit := 0%Z;
    artifacts := []; stdout_ref := EmptyString; stderr_ref := EmptyString; duration_ms := 0; runner_ref := EmptyString; produced_at := 0 |}
  (store after_one.1 !! req_key (ask "one")).
#[export] Instance one_result : CheckResultJson := {| result_to_vec _ := Ok []; result_from_slice _ := Ok hit |}.
#[export] Instance always_ok : HttpTransport (list string) := {|
  http_get l url _ := (l ++ [url], Ok (200, [])); http_put l url _ _ := (l ++ [url], Ok 201) |}.
Definition remote : HttpAcClient (list string) := {|
  seam_url := "https://cache/"; config := Some {| base_url := "https://cache/"; tenant := "acme"; pat := "p" |}; transport := [] |}.

Lemma remote_lookup_guarded_witness : memo_key hit = req_key (ask "one").
Proof.
  destruct (remote_lookup_guarded remote (http_lookup remote (req_key (ask "one"))).1 (req_key (ask "one")) (http_lookup remote (req_key (ask "one"))).2
    (surjective_pairing _)) as [[Hc _]|(cfg & _ & _ & _ & _ & Hr)].
  - exfalso. vm_compute in Hc. done.
  - apply (Hr hit). vm_compute. reflexivity.
Defined.
End ChecksExample.
