(* ===== verification/Landing.v ===== *)
(** Landing a queue as one union: [crates/hugit-cli/src/land/mod.rs].

    The queued pull requests of the log become a batch, the evaluation of [Union]
    probes it through an oracle that runs a memoized check per member over the
    action cache and adds the declared conflicts, and what the evaluation
    authorizes is appended to a copy of the log that replaces it at the end.  The
    command around it keeps the receipts of [Attempt].

    The clock is read by the evaluation ([now]), by the oracle ([oracle_now]) and
    after the evaluation ([late]); the operation's random bytes are an argument.

    The theorems: a landing has one of three ends ([land_outcome]), read off the
    evaluation of the queue: nothing was queued; the members are held because the
    evaluation was stopped or late; or exactly the validated set is landed, which
    was probed green as that very set and holds no two conflicting members, each
    landing recorded once, in queue order, and nothing else but the diagnosed
    failure.  The command changes the log by such a landing only, and its receipt
    says applied only after the log was written.  Names that the scrubbing of a
    record would alter are excluded ([kept_name]). *)

From S2P Require Import Prelude Text Scan Json JsonCodec Crypto Secret Scrub Blobs Envelope Log Authz Tamper Capture Queue Bisect PullRequest Checks Union Porcelain FileLock Attempt.

Definition QUEUE_UNION_FAIL_KIND : string := "queue.union_fail".
Definition LOCAL_TOOLCHAIN_DIGEST : string := "local-union-test-v1".

(** * The oracle *)

Section Oracle.
Context `{Crypto} {A : Type} `{ActionCache A} `{AcStore A} (oracle_now : nat → N).

Definition local_check_def : CheckDef := with_canonical_def_digest {|
  def_digest := EmptyString; command := "hugit union-test"; inputs := []; toolchain_ref := "local"; env_manifest := EmptyString;
  glob_set := ["**"] |}.

(** The runner of one pull request: it always passes. *)
Record LocalRunner := { runner_pr : string }.
#[export] Instance local_runner : CheckRunner LocalRunner := {|
  run_check r _ key tree def toolchain := (r, Ok {|
    memo_key := key; res_tree_hash := tree; res_def_digest := def; res_toolchain_digest := toolchain; exit := 0;
    artifacts := []; stdout_ref := "local-stdout-" +:+ runner_pr r; stderr_ref := EmptyString; duration_ms := 1;
    runner_ref := "local-union-test"; produced_at := 0 |}) |}.

(** The cache is shared with the next runs; [ticks] counts the readings of the
    clock. *)
Record LogMemoOracle := {
  ac : A; content : gmap string (list string); conflicts : gset (string * string); check_def : CheckDef; oracle_ticks : nat }.
Definition set_ac (o : LogMemoOracle) (a : A) : LogMemoOracle := {|
  ac := a; content := content o; conflicts := conflicts o; check_def := check_def o; oracle_ticks := oracle_ticks o |}.
Definition tick (o : LogMemoOracle) : LogMemoOracle := {|
  ac := ac o; content := content o; conflicts := conflicts o; check_def := check_def o; oracle_ticks := S (oracle_ticks o) |}.

Definition files_of_pr (pr_id : string) (intents : list string) : list (string * FileContent) :=
  match intents with
  | [] => [("src/" +:+ pr_id +:+ ".txt", as_bytes pr_id)]
  | _ => (λ i, ("src/" +:+ pr_id +:+ "/" +:+ i +:+ ".txt", as_bytes i)) <$> intents
  end.

(** The members in turn: an early verdict, or whether one of them was red. *)
Fixpoint evaluate_members (o : LogMemoOracle) (deadline : option N) (ids : list string) (any_red : bool) (srcs : list CheckSource)
    : LogMemoOracle * list CheckSource * (UnionVerdict + bool) :=
  match ids with
  | [] => (o, srcs, inr any_red)
  | pr_id :: ids =>
      let late := match deadline with Some until => until <=? oracle_now (oracle_ticks o) | None => false end in
      let o := match deadline with Some _ => tick o | None => o end in
      if late then (o, srcs, inl Verdict.Unknown)
      else match content o !! pr_id with
      | None => (o, srcs, inl Verdict.Unknown)
      | Some intents =>
          let '(a, _, outcome) :=
            run_memoized (ac o) {| runner_pr := pr_id |} (check_def o) (files_of_pr pr_id intents) LOCAL_TOOLCHAIN_DIGEST in
          let o := set_ac o a in
          match outcome with
          | Err _ => (o, srcs, inl Verdict.InfrastructureFailure)
          | Ok outcome =>
              evaluate_members o deadline ids (any_red || bool_decide (exit (out_result outcome) ≠ 0%Z))
                (srcs ++ [if from_cache outcome then Hit else Executed])
          end
      end
  end.

Definition present_pair (ids : list string) (p : string * string) : bool := bool_decide (p.1 ∈ ids ∧ p.2 ∈ ids).
Definition evaluate_until (o : LogMemoOracle) (ids : list string) (deadline : option N)
    : LogMemoOracle * (UnionVerdict * list CheckSource) :=
  match evaluate_members o deadline ids false [] with
  | (o, srcs, inl v) => (o, (v, srcs))
  | (o, srcs, inr any_red) =>
      (o, (if any_red || existsb (present_pair ids) (elements (conflicts o)) then Verdict.Red else Verdict.Green, srcs))
  end.

#[export] Instance log_memo_oracle : MemoCheck LogMemoOracle := {|
  evaluate_before o ids deadline := evaluate_until o ids (Some deadline);
  evaluate_in_context o ids deadline _ := evaluate_until o ids (Some deadline) |}.
End Oracle.
#[global] Arguments LogMemoOracle A : clear implicits.

(** A pair is kept in the order of its names. *)
Definition conflict_pair (content : gmap string (list string)) (pr_id intent : string) : option (string * string) :=
  other ← strip_prefix "conflicts-with:" intent;
  if bool_decide (is_Some (content !! other)) && bool_decide (other ≠ pr_id)
  then Some (if decide (String.le pr_id other) then (pr_id, other) else (other, pr_id)) else None.
Definition conflict_pairs (content : gmap string (list string)) : gset (string * string) :=
  list_to_set (map_to_list content ≫= λ '(pr_id, intents), omap (conflict_pair content pr_id) intents).

(** * The report *)

Definition opt_value {A} (f : A → Value) (o : option A) : Value := match o with Some a => f a | None => Null end.
Definition millis (nanos : N) : N := nanos / 1000000.

Definition context_value (c : EvaluationContext) : Value := json_object
  [("operation_id", Str (operation_id c)); ("base_id", Str (base_id c)); ("config_id", Str (config_id c)); ("scope", Str (scope c))].
Definition member_value (m : MemberSnapshot) : Value := json_object
  [("item_id", Str (snap_item m)); ("intent_id", Str (snap_intent m)); ("tree_hash", Str (snap_tree m));
   ("order_index", num (snap_order m)); ("affected", str_array (snap_affected m)); ("state", Str (snap_state m))].
Definition probe_value (p : ProbeObservation) : Value := json_object
  [("members", str_array (probe_members p)); ("returned_verdict", Str (Verdict.as_str (returned_verdict p)));
   ("sources", str_array ((λ s, match s with Hit => "hit" | Executed => "executed" end) <$> sources p))].
Definition binding_value (b : EvaluationBinding) : Value := json_object
  [("context", context_value (binding_context b));
   ("batch", json_object [("batch_id", Str (snap_batch (binding_batch b)));
                          ("members", Array (member_value <$> members (binding_batch b)))]);
   ("probes", Array (probe_value <$> binding_probes b))].

Definition failing_pair_to_json (pair : option MinimalFailingPair) : Value :=
  opt_value (λ p, json_object [("item_a", Str (item_a p)); ("item_b", Str (item_b p))]) pair.
Definition locus_name (l : FailureLocus) : string :=
  match l with Pair _ => "pair" | SingleItem _ => "single" | Unlocalised => "unlocalised" end.
Definition locus_kind (ev : UnionEvaluation) : Value := opt_value (λ l, Str (locus_name l)) (failure ev).
Definition evaluation_budget (ev : UnionEvaluation) : Value := json_object
  [("max_probes", num (N.of_nat (ev_max_probes ev))); ("timeout_ms", num (millis (ev_timeout ev)));
   ("elapsed_ms", num (millis (elapsed ev))); ("deadline_enforcement", Str "cooperative_in_process")].

Definition held_summary (ev : UnionEvaluation) (campaign : option string) (ids : list string) (reason : EvaluationStop) : Value :=
  json_object
  [("queued", count_of ids); ("campaign", opt_str campaign); ("mode", Str LANDING_MODE);
   ("verdict", Str (Verdict.as_str (verdict ev))); ("landed", Array []); ("excluded", Array []); ("held", str_array ids);
   ("remainder_verdict", opt_value (λ v, Str (Verdict.as_str v)) (remainder_verdict ev));
   ("failing_pair", failing_pair_to_json (minimal_failing_pair ev)); ("locus", locus_kind ev);
   ("stop_reason", Str (Stop.as_str reason)); ("executed_count", num (executed_count ev));
   ("execution_count_complete", Bool (execution_count_complete ev)); ("probe_count", num (N.of_nat (probe_count ev)));
   ("evaluation_budget", evaluation_budget ev); ("validation_scope", Str "simulation_only"); ("git_tree_verified", Bool false);
   ("evaluation_context", opt_value (λ b, context_value (binding_context b)) (binding ev));
   ("evaluation_binding", opt_value binding_value (binding ev))].
Definition empty_summary (campaign : option string) (limits : EvaluationLimits) (context : EvaluationContext) : Value := json_object
  [("queued", num 0); ("campaign", opt_str campaign); ("mode", Str LANDING_MODE); ("verdict", Str "green");
   ("landed", Array []); ("excluded", Array []); ("held", Array []); ("validation_scope", Str "simulation_only");
   ("git_tree_verified", Bool false); ("remainder_verdict", Null); ("failing_pair", Null); ("executed_count", num 0);
   ("execution_count_complete", Bool true); ("probe_count", num 0); ("stop_reason", Null);
   ("evaluation_budget", json_object [("max_probes", num (N.of_nat (max_probes limits))); ("timeout_ms", num (millis (timeout limits)));
                                      ("deadline_enforcement", Str "cooperative_in_process")]);
   ("evaluation_context", context_value context); ("evaluation_binding", Null);
   ("note", Str "no queued PRs to batch-land (empty queue or campaign scope matched nothing)")].
Definition landed_summary (ev : UnionEvaluation) (campaign : option string) (queued : nat) (landed excluded : list string)
    (failing_pair : Value) (context : EvaluationContext) : Value := json_object
  [("queued", num (N.of_nat queued)); ("campaign", opt_str campaign); ("mode", Str LANDING_MODE);
   ("verdict", Str (Verdict.as_str (verdict ev))); ("landed", str_array landed); ("excluded", str_array excluded);
   ("held", str_array (held ev)); ("validation_scope", Str "simulation_only"); ("git_tree_verified", Bool false);
   ("remainder_verdict", opt_value (λ v, Str (Verdict.as_str v)) (remainder_verdict ev)); ("failing_pair", failing_pair);
   ("locus", locus_kind ev); ("executed_count", num (executed_count ev));
   ("execution_count_complete", Bool (execution_count_complete ev)); ("probe_count", num (N.of_nat (probe_count ev)));
   ("stop_reason", Null); ("evaluation_budget", evaluation_budget ev); ("evaluation_context", context_value context);
   ("evaluation_binding", opt_value binding_value (binding ev))].

(** * Landing *)

Definition queued_le : relation QueuedPr := λ a b, q_order_index a ≤ q_order_index b.
#[global] Instance queued_le_dec : RelDecision queued_le.
Proof. intros a b. unfold queued_le. apply _. Defined.

Section Land.
Context `{Crypto} `{SerdeJson} `{Libm} `{GateCodec} {A : Type} `{ActionCache A} `{AcStore A}.

Definition in_scope (campaign : option string) (o : OpenedPr) : bool :=
  match campaign with Some c => bool_decide (o_campaign o = c) | None => true end.
(** The queue in order, each with the record that opened it. *)
Definition queue_members (log : EventLog) (campaign : option string) : list (QueuedPr * OpenedPr) :=
  List.filter (λ m, in_scope campaign m.2)
    (omap (λ q, (λ o, (q, o)) <$> find_pr_opened log (q_pr_id q)) (merge_sort queued_le (all_pr_queued log))).

(** The first intent, else the first commit. *)
Definition member_intent (o : OpenedPr) : string :=
  match head (o_intent_ids o) with Some i => i | None => default EmptyString (head (o_commit_ids o)) end.
Definition member_entry (m : QueuedPr * OpenedPr) : LandableEntry * AffectedSet :=
  ({| item_id := q_pr_id m.1; entry_intent_id := member_intent m.2; tree_hash := EmptyString; order_index := q_order_index m.1 |},
   AffectedSet_new []).
Definition member_content (ms : list (QueuedPr * OpenedPr)) : gmap string (list string) :=
  foldl (λ c m, <[o_pr_id m.2 := o_intent_ids m.2 ++ o_commit_ids m.2]> c) ∅ ms.

Definition pr_landing_record (opened : OpenedPr) : string := scrub_to_canonical (landed_payload (o_campaign opened) (o_pr_id opened)).
Definition denied_error (message : string) (denied : AuthzDenied) (fix_ : string) : PorcelainError :=
  PorcelainError_new "authz_denied" (message +:+ " denied: " +:+ reason_code (denied_reason denied)) fix_.
Definition land_one (log : EventLog) (opened : OpenedPr) (recorded_at : N) : EventLog * result PorcelainError unit :=
  if pr_is_landed log (o_pr_id opened) then (log, Ok tt)
  else
    let '(class, endpoint) := author_authz (o_author_kind opened) in
    match append_authorized log class endpoint PR_LANDED_KIND [] (pr_landing_record opened) recorded_at with
    | (log, Ok _) => (log, Ok tt)
    | (log, Err denied) => (log, Err (denied_error ("landing pr '" +:+ o_pr_id opened +:+ "'") denied
        "a pr.landed is authored by the opened PR's author class (orchestrator/human)"))
    end.

Fixpoint land_members (log : EventLog) (proceeding : list string) (ms : list (QueuedPr * OpenedPr)) (recorded_at : N)
    : EventLog * result PorcelainError (list string) :=
  match ms with
  | [] => (log, Ok [])
  | (q, o) :: ms =>
      if decide (q_pr_id q ∈ proceeding) then
        match land_one log o recorded_at with
        | (log, Err e) => (log, Err e)
        | (log, Ok _) => let '(log, landed) := land_members log proceeding ms recorded_at in (log, cons (q_pr_id q) <$> landed)
        end
      else land_members log proceeding ms recorded_at
  end.

Definition union_fail_payload (campaign : option string) (l : FailureLocus) (excluded proceeding held : list string) : Value :=
  let '(a, b) := match l with Pair p => (Some (item_a p), Some (item_b p)) | SingleItem id => (Some id, None) | Unlocalised => (None, None) end in
  json_object [("campaign", opt_str campaign); ("mode", Str LANDING_MODE); ("locus", Str (locus_name l)); ("item_a", opt_str a);
    ("item_b", opt_str b); ("excluded", str_array excluded); ("proceeding", str_array proceeding); ("held", str_array held);
    ("validation_scope", Str "simulation_only")].
Definition record_union_fail (log : EventLog) (campaign : option string) (l : FailureLocus) (excluded proceeding held : list string)
    (recorded_at : N) : EventLog * result PorcelainError unit :=
  match append_authorized log Orchestrator Land QUEUE_UNION_FAIL_KIND ["orchestrator:hugit"]
          (scrub_to_canonical (union_fail_payload campaign l excluded proceeding held)) recorded_at with
  | (log, Ok _) => (log, Ok tt)
  | (log, Err denied) => (log, Err (denied_error "recording union-fail" denied "a queue.union_fail is orchestrator/CI provenance"))
  end.

Context (instant_max : N) (now oracle_now late : nat → N).

(** [None] is the panic of a batch with two equal positions.  The result has the
    cache as the probes left it. *)
Definition batch_land_in_context (log : EventLog) (ac : A) (campaign : option string) (recorded_at : N) (limits : EvaluationLimits)
    (context : EvaluationContext) : option (EventLog * A * result PorcelainError Value) :=
  let ms := queue_members log campaign in
  if decide (ms = []) then Some (log, ac, Ok (empty_summary campaign limits context))
  else
    batch ← from_entries "land-queue" (member_entry <$> ms);
    let content := member_content ms in
    let oracle := {| Landing.ac := ac; content := content; conflicts := conflict_pairs content; check_def := local_check_def;
                     oracle_ticks := 0 |} in
    let '(oracle, ev) := @evaluate_union_in_context instant_max _ (log_memo_oracle oracle_now) now batch oracle limits context in
    let ids := (λ m, q_pr_id m.1) <$> ms in
    let held reason := (log, Landing.ac oracle, Ok (held_summary ev campaign ids reason)) in
    Some match stop_reason ev with
    | Some reason => held reason
    | None =>
        if deadline_exceeded ev (late 0%nat) then held Stop.DeadlineExceeded
        else match authorize_for ev batch context false (late 1%nat) false (late 2%nat) with
        | None => held Stop.Invalidated
        | Some authorization =>
            match land_members log (auth_proceeding authorization) ms recorded_at with
            | (_, Err e) => (log, Landing.ac oracle, Err e)
            | (staged, Ok landed) =>
                let excluded := auth_excluded authorization in
                let '(staged, recorded) := match verdict ev, failure ev with
                  | Verdict.Red, Some l =>
                      let '(staged, r) := record_union_fail staged campaign l excluded landed (Union.held ev) recorded_at in
                      (staged, (λ _, failing_pair_to_json (minimal_failing_pair ev)) <$> r)
                  | _, _ => (staged, Ok Null)
                  end in
                match recorded with
                | Err e => (log, Landing.ac oracle, Err e)
                | Ok failing_pair =>
                    if deadline_exceeded ev (late 3%nat) then held Stop.DeadlineExceeded
                    else match authorize_for ev batch context false (late 4%nat) false (late 5%nat) with
                    | None => held Stop.Invalidated
                    | Some _ =>
                        (staged, Landing.ac oracle,
                         Ok (landed_summary ev campaign (length ms) landed excluded failing_pair context))
                    end
                end
            end
        end
    end.

(** ** The identity of an evaluation *)

Definition log_record_value (r : EventRecord) : Value := json_object
  [("seq", num (seq r)); ("prev_hash", Str (prev_hash r)); ("this_hash", Str (this_hash r)); ("kind", Str (kind r));
   ("principal_chain", str_array (principal_chain r)); ("payload", Str (payload r)); ("recorded_at", num (recorded_at r))].
Definition value_digest (v : Value) : string := digest_hex (as_bytes (to_string v)).
Definition simulation_config (campaign : option string) (limits : EvaluationLimits) : Value := json_object
  [("schema", Str "hugit.queue-simulation-config/1"); ("algorithm", Str "bounded-remainder/2");
   ("check_def_digest", Str (compute_def_digest local_check_def)); ("toolchain", Str LOCAL_TOOLCHAIN_DIGEST);
   ("campaign", opt_str campaign); ("max_probes", num (N.of_nat (max_probes limits))); ("timeout_ms", num (millis (timeout limits)))].
(** [entropy] is what the system's generator gives: sixteen bytes or nothing. *)
Definition simulation_context (entropy : option (list byte)) (log : EventLog) (campaign : option string) (limits : EvaluationLimits)
    : result PorcelainError EvaluationContext :=
  match entropy with
  | None => Err (PorcelainError_new "entropy_unavailable" "cannot identify a new queue evaluation"
              "restore OS randomness availability; no evaluation was started")
  | Some bytes => Ok {|
      operation_id := "queue-" +:+ hex_encode bytes;
      base_id := "event-log-sha256:" +:+ value_digest (Array (log_record_value <$> records log));
      config_id := "simulation-config-sha256:" +:+ value_digest (simulation_config campaign limits);
      scope := "simulation_only" |}
  end.

Definition batch_land_with_limits (entropy : option (list byte)) (log : EventLog) (ac : A) (campaign : option string) (recorded_at : N)
    (limits : EvaluationLimits) : option (EventLog * A * result PorcelainError Value) :=
  if u64_max <? millis (timeout limits) then
    Some (log, ac, Err (PorcelainError_new "invalid_argument" "evaluation timeout exceeds the report range"
      "use a bounded timeout representable as u64 milliseconds"))
  else match simulation_context entropy log campaign limits with
  | Err e => Some (log, ac, Err e)
  | Ok context => batch_land_in_context log ac campaign recorded_at limits context
  end.
Definition batch_land (entropy : option (list byte)) (log : EventLog) (ac : A) (campaign : option string) (recorded_at : N)
    : option (EventLog * A * result PorcelainError Value) :=
  batch_land_with_limits entropy log ac campaign recorded_at default_limits.

(** ** The command *)

Context `{Receipt Started} `{Receipt Current} `{Receipt Finished} `{Receipt Invalidated}.

(** The log on disk, the directory of its receipts and the cache. *)
Record LandWorld := { disk_log : EventLog; receipts : Store; cache : A }.
Record QueueLandArgs := { land_campaign : option string; land_recorded_at : N; land_limits : EvaluationLimits }.

(** How the write of the log ends: it may have replaced the file although it
    reports an error. *)
Inductive WriteEnd := Written | WriteFailed (replaced : bool) (what : string).

Definition stopped (v : Value) : bool :=
  match value_get v "stop_reason" with Some Null | None => false | Some _ => true end.
Definition log_write_error (log_path what : string) : PorcelainError :=
  PorcelainError_new "io_error" ("write log " +:+ log_path +:+ ": " +:+ what)
    "preserve the current corpus and attempt receipts; retry evaluates current inputs without replaying the old result".

(** With the lock of the log held and the log loaded. *)
Definition run_queue_land (dir temp log_path : string) (entropy : option (list byte)) (write : WriteEnd) (w : LandWorld) (a : QueueLandArgs)
    : option (LandWorld * result PorcelainError Value) :=
  let log := disk_log w in
  match simulation_context entropy log (land_campaign a) (land_limits a) with
  | Err e => Some (w, Err e)
  | Ok context =>
      match begin_attempt dir temp context (receipts w) with
      | (s, Err e) => Some ({| disk_log := log; receipts := s; cache := cache w |}, Err e)
      | (s, Ok journal) =>
          '(log', ac, res) ← batch_land_in_context log (cache w) (land_campaign a) (land_recorded_at a) (land_limits a) context;
          let finish o s log answer :=
            let '(s, r) := finish_attempt journal o s in
            ({| disk_log := log; receipts := s; cache := ac |}, match r with Ok _ => answer | Err e => Err e end) in
          Some match res with
          | Err e =>
              let '(s, r) := finish_attempt journal Failed s in
              ({| disk_log := log; receipts := s; cache := ac |},
               Err (match r with Ok _ => e | Err j => pe_with_context j "evaluation_error" (Str (to_json e)) end))
          | Ok value =>
              if stopped value then
                finish Held s log (Err (pe_with_context (PorcelainError_new "evaluation_held" "queue evaluation is inconclusive"
                  "inspect evaluation.stop_reason; retry as a new evaluation after resolving the cause") "evaluation" value))
              else match write with
              | WriteFailed replaced what =>
                  ({| disk_log := if replaced then log' else log; receipts := s; cache := ac |}, Err (log_write_error log_path what))
              | Written =>
                  let '(s, r) := finish_attempt journal Applied s in
                  ({| disk_log := log'; receipts := s; cache := ac |},
                   match r with Ok _ => Ok value | Err e => Err (pe_with_context e "corpus_write_returned_success" (Bool true)) end)
              end
          end
      end
  end.
End Land.
#[global] Arguments LandWorld A : clear implicits.

(** * What the oracle's green means *)

Section Meaning.
Context `{Crypto} {A : Type} `{ActionCache A} `{AcStore A} (oracle_now : nat → N).

(** [a] names [b] as conflicting. *)
Definition declares (K : gmap string (list string)) (a b : string) : Prop :=
  ∃ intents, K !! a = Some intents ∧ ("conflicts-with:" +:+ b) ∈ intents ∧ is_Some (K !! b) ∧ b ≠ a.

Lemma declared_pair K a b : declares K a b → ∃ p, p ∈ conflict_pairs K ∧ (p = (a, b) ∨ p = (b, a)).
Proof.
  intros (intents & Ha & Hin & Hb & Hne). exists (if decide (String.le a b) then (a, b) else (b, a)).
  split; [|case_decide; auto]. unfold conflict_pairs. apply elem_of_list_to_set, list_elem_of_bind.
  exists (a, intents). split; [|by apply elem_of_map_to_list]. apply list_elem_of_omap. eexists. split; [exact Hin|].
  unfold conflict_pair. assert (strip_prefix "conflicts-with:" ("conflicts-with:" +:+ b) = Some b) as -> by by apply strip_prefix_Some.
  cbn [mbind option_bind]. by rewrite !bool_decide_true.
Qed.

(** A member passed: its memoized check answered with exit zero. *)
Definition passed (K : gmap string (list string)) (id : string) : Prop :=
  ∃ (a a' : A) intents r out, K !! id = Some intents ∧
    run_memoized a {| runner_pr := id |} local_check_def (files_of_pr id intents) LOCAL_TOOLCHAIN_DIGEST = (a', r, Ok out) ∧
    exit (out_result out) = 0%Z.

Definition about (K : gmap string (list string)) (o : LogMemoOracle A) : Prop :=
  content o = K ∧ conflicts o = conflict_pairs K ∧ check_def o = local_check_def.
Definition green_means (K : gmap string (list string)) (ids : list string) (v : UnionVerdict) : Prop :=
  v = Verdict.Green → Forall (passed K) ids ∧ ∀ a b, a ∈ ids → b ∈ ids → ¬ declares K a b.

Lemma evaluate_members_passed K deadline o ids any_red srcs o' srcs' r :
  evaluate_members oracle_now o deadline ids any_red srcs = (o', srcs', r) → about K o →
  about K o' ∧ r ≠ inl Verdict.Green ∧ (r = inr false → any_red = false ∧ Forall (passed K) ids).
Proof.
  revert o any_red srcs. induction ids as [|id ids IH]; intros o any_red srcs; cbn [evaluate_members].
  { intros [= <- <- <-] Ho. split_and!; [done|done|]. by intros [= ->]. }
  set (late := match deadline with Some _ => _ | None => false end). set (o1 := match deadline with Some _ => tick o | None => o end).
  intros Hr Ho. assert (about K o1) as Ho1 by (subst o1; by destruct deadline). clearbody late o1.
  destruct late; [by inv_eqs|]. destruct (content o1 !! id) as [intents|] eqn:Hc; [|by inv_eqs].
  destruct (run_memoized _ _ _ _ _) as [[a rr] [out|e]] eqn:Er; [|by inv_eqs].
  apply IH in Hr as (Ho' & Hng & Hf); [|done]. split_and!; [done|done|]. intros ->. destruct (Hf eq_refl) as [[-> Hz]%orb_false_iff Hids].
  split; [done|]. constructor; [|done]. destruct Ho1 as (<- & _ & Hd). rewrite Hd in Er.
  apply bool_decide_eq_false, dec_stable in Hz. unfold passed. eauto 8.
Qed.

Lemma oracle_answers K (o : LogMemoOracle A) ids deadline (ctx : EvaluationContext) o' v srcs : about K o →
  @evaluate_in_context _ (log_memo_oracle oracle_now) o ids deadline ctx = (o', (v, srcs)) → about K o' ∧ green_means K ids v.
Proof.
  cbn [evaluate_in_context log_memo_oracle]. unfold evaluate_until.
  destruct (evaluate_members _ _ _ _ _ _) as [[o1 srcs1] r] eqn:E. intros Ho.
  apply evaluate_members_passed with (K := K) in E as (Ho1 & Hng & Hr); [|done].
  destruct r as [w|any_red].
  - intros [= <- <- <-]. split; [done|]. by intros ->.
  - intros [= <- <- <-]. split; [done|]. intros Hg.
    destruct (any_red || existsb (present_pair ids) (elements (conflicts o1))) eqn:Hred; [done|].
    apply orb_false_iff in Hred as [-> Hp]. destruct (Hr eq_refl) as [_ Hids]. split; [done|]. intros a b Ha Hb Hd.
    apply declared_pair in Hd as (p & Hin & Hpab). destruct Ho1 as (_ & Hconf & _). rewrite Hconf in Hp.
    enough (existsb (present_pair ids) (elements (conflict_pairs K)) = true) by congruence.
    apply existsb_exists. exists p. split; [by apply list_elem_of_In, elem_of_elements|].
    unfold present_pair. apply bool_decide_eq_true. by destruct Hpab as [-> | ->].
Qed.
End Meaning.

(** * What is landed *)

Section Spec.
Context `{CryptoLaws} `{!HexLower} `{SerdeJsonLaws} `{Libm} `{GateCodec} `{EnvelopeJsonLaws}.
Context {A : Type} `{ActionCache A} `{AcStore A}.

Abbreviation pr_name m := (q_pr_id (fst m)).

Lemma queue_members_spec log campaign m : m ∈ queue_members log campaign →
  find_pr_opened log (pr_name m) = Some m.2 ∧ o_pr_id m.2 = pr_name m ∧ m.1 ∈ all_pr_queued log ∧ pr_is_landed log (pr_name m) = false.
Proof.
  unfold queue_members. intros [Hm _]%list_elem_of_In%filter_In. apply list_elem_of_In, list_elem_of_omap in Hm as (q & Hq & Hm).
  destruct (find_pr_opened log (q_pr_id q)) as [o|] eqn:Ho; [|done]. injection Hm as <-. simpl.
  rewrite merge_sort_Permutation in Hq. split_and!; [done| |done|].
  - by apply rfind_Some in Ho as [?%bool_decide_eq_true _].
  - unfold all_pr_queued in Hq. apply list_elem_of_In, filter_In in Hq as [_ Hq]. by apply negb_true_iff in Hq.
Qed.

(** The landings of some pull requests, in their order. *)
Definition record_landing (at_ : N) (log : EventLog) (o : OpenedPr) : EventLog :=
  (append log PR_LANDED_KIND [] (pr_landing_record o) at_).1.
Definition record_landings (at_ : N) (log : EventLog) (os : list OpenedPr) : EventLog := foldl (record_landing at_) log os.

(** A name the scrubbing of a payload leaves as it is. *)
Definition kept_name (s : string) : Prop := structural_secret_scrub s = s.
Lemma scrubbed_name_kept s : kept_name (structural_secret_scrub s).
Proof. apply structural_secret_scrub_idemp. Qed.
#[export] Instance kept_name_dec s : Decision (kept_name s).
Proof. unfold kept_name. apply _. Defined.

Lemma record_landing_landed at_ log o x : kept_name (o_pr_id o) →
  pr_is_landed (record_landing at_ log o) x = pr_is_landed log x || bool_decide (o_pr_id o = x).
Proof.
  intros Hk. unfold pr_is_landed, record_landing. rewrite payloads_snoc, decide_True by done.
  destruct (names_pr_payload (o_pr_id o) [("campaign", Str (o_campaign o)); ("pr_id", Str (o_pr_id o))]) as (v & Hv & Hpr & _);
    [by repeat constructor|by rewrite Hk|]. rewrite Hk in Hpr. change (from_str (pr_landing_record o) = Some v) in Hv.
  rewrite Hv, existsb_app. f_equal. simpl. rewrite orb_false_r. unfold names_pr. rewrite Hpr. apply bool_decide_ext. naive_solver.
Qed.
Lemma record_landings_landed at_ log os x : Forall (λ o, kept_name (o_pr_id o)) os →
  pr_is_landed (record_landings at_ log os) x = pr_is_landed log x || bool_decide (x ∈ o_pr_id <$> os).
Proof.
  intros Hk. revert log. induction Hk as [|o os Ho _ IH]; intros log; simpl; [by rewrite orb_false_r|].
  rewrite IH, record_landing_landed, <- orb_assoc by done. f_equal. rewrite <- bool_decide_or. apply bool_decide_ext.
  rewrite elem_of_cons. naive_solver.
Qed.
Lemma record_landings_appends at_ log os : appends [PR_LANDED_KIND] log (record_landings at_ log os).
Proof.
  revert log. induction os as [|o os IH]; intros log; [constructor|]. simpl. eapply appends_trans; [|apply IH].
  unfold record_landing. constructor; [constructor|set_solver].
Qed.

Lemma land_one_ok log o at_ : pr_is_landed log (o_pr_id o) = false → land_one log o at_ = (record_landing at_ log o, Ok tt).
Proof.
  intros Hl. unfold land_one. rewrite Hl. destruct (author_authz (o_author_kind o)) as [c ep] eqn:Eac.
  pose proof (append_author log (o_author_kind o) PR_LANDED_KIND [] (pr_landing_record o) at_) as Happ. rewrite Eac in Happ.
  cbn [fst snd] in Happ. by rewrite Happ.
Qed.

Definition chosen (proceeding : list string) (ms : list (QueuedPr * OpenedPr)) : list (QueuedPr * OpenedPr) :=
  List.filter (λ m, bool_decide (pr_name m ∈ proceeding)) ms.

Lemma land_members_ok at_ proceeding ms log : NoDup ((λ m, pr_name m) <$> ms) →
  Forall (λ m, o_pr_id m.2 = pr_name m ∧ kept_name (pr_name m) ∧ pr_is_landed log (pr_name m) = false) ms →
  land_members log proceeding ms at_ =
    (record_landings at_ log (snd <$> chosen proceeding ms), Ok ((λ m, pr_name m) <$> chosen proceeding ms)).
Proof.
  revert log. induction ms as [|[q o] ms IH]; intros log Hnd Hms; [done|].
  apply NoDup_cons in Hnd as [Hq Hnd]. apply Forall_cons in Hms as [(Ho & Hk & Hl) Hms]. cbn in Ho, Hk, Hl.
  cbn [land_members chosen List.filter fst]. case_decide as Hp.
  - rewrite bool_decide_true by done. rewrite land_one_ok by (by rewrite Ho). rewrite IH; [done|done|].
    rewrite Forall_forall in *. intros m Hm. destruct (Hms m Hm) as (? & ? & ?). split_and!; [done..|].
    rewrite record_landing_landed by (by rewrite Ho). rewrite Ho. apply orb_false_iff. split; [done|].
    apply bool_decide_eq_false. intros Heq. apply Hq. cbn [fst]. rewrite Heq. apply list_elem_of_fmap. by exists m.
  - rewrite bool_decide_false by done. by apply IH.
Qed.

(** A diagnosed failure is recorded by one event. *)
Definition record_failure (at_ : N) (campaign : option string) (l : FailureLocus) (excluded landed held : list string) (log : EventLog) : EventLog :=
  (append log QUEUE_UNION_FAIL_KIND ["orchestrator:hugit"] (scrub_to_canonical (union_fail_payload campaign l excluded landed held)) at_).1.
Lemma record_union_fail_ok log campaign l excluded proceeding held at_ :
  record_union_fail log campaign l excluded proceeding held at_ = (record_failure at_ campaign l excluded proceeding held log, Ok tt).
Proof. unfold record_union_fail, append_authorized. change (authorize_class Orchestrator Land) with Allow. cbn [append]. reflexivity. Qed.

Lemma member_content_lookup ms m : NoDup ((λ m, o_pr_id m.2) <$> ms) → m ∈ ms →
  member_content ms !! o_pr_id m.2 = Some (o_intent_ids m.2 ++ o_commit_ids m.2).
Proof.
  unfold member_content. induction ms as [|x ms IH] using rev_ind; [by intros _ ?%elem_of_nil|].
  rewrite fmap_app, foldl_app. intros (Hnd & Hd & _)%NoDup_app. rewrite elem_of_app. simpl. intros [Hm|Hm]; [|apply list_elem_of_singleton in Hm as ->].
  - rewrite lookup_insert_ne; [by apply IH|]. intros Heq. eapply Hd; [by apply list_elem_of_fmap_2, Hm|]. simpl. rewrite Heq. by left.
  - apply lookup_insert_eq.
Qed.

(** The first names the second as conflicting. *)
Definition conflicting (o o' : OpenedPr) : Prop := ("conflicts-with:" +:+ o_pr_id o') ∈ o_intent_ids o ++ o_commit_ids o.

Context (instant_max : N) (now oracle_now late : nat → N).
Abbreviation land_in_context := (batch_land_in_context instant_max now oracle_now late).

Lemma queue_members_sub log campaign : NoDup ((λ m, pr_name m) <$> queue_members log campaign) →
  Forall (λ m, kept_name (pr_name m)) (queue_members log campaign) →
  Forall (λ m, o_pr_id m.2 = pr_name m ∧ kept_name (pr_name m) ∧ pr_is_landed log (pr_name m) = false) (queue_members log campaign).
Proof.
  intros _. rewrite !Forall_forall. intros Hk m Hm. destruct (queue_members_spec _ _ _ Hm) as (_ & Ho & _ & Hl).
  split_and!; [done|by apply Hk|done].
Qed.

(** How the landing of a queue reads its evaluation. *)
Definition start_oracle (ac : A) (ms : list (QueuedPr * OpenedPr)) : LogMemoOracle A := {|
  Landing.ac := ac; content := member_content ms; conflicts := conflict_pairs (member_content ms); check_def := local_check_def;
  oracle_ticks := 0 |}.
(** The queue as a batch, and what the evaluation makes of it. *)
Definition evaluated (ms : list (QueuedPr * OpenedPr)) (ac : A) (limits : EvaluationLimits) (ctx : EvaluationContext)
    (batch : Batch) (o : LogMemoOracle A) (ev : UnionEvaluation) : Prop :=
  from_entries "land-queue" (member_entry <$> ms) = Some batch ∧
  @evaluate_union_in_context instant_max _ (log_memo_oracle oracle_now) now batch (start_oracle ac ms) limits ctx = (o, ev).

(** What the probes of an evaluation showed: the set to land, unless empty, was
    probed green as that very set; and a red batch has its failure located by the
    probes, the members it names being the excluded ones. *)
Definition probed (ids : list string) (ev : UnionEvaluation) : Prop :=
  ∃ b, binding ev = Some b ∧
    (validated_members ev ≠ [] → observed (binding_probes b) (validated_members ev) Verdict.Green) ∧
    match failure ev with
    | None => verdict ev = Verdict.Green ∧ validated_members ev = ids
    | Some l => verdict ev = Verdict.Red ∧ located (binding_probes b) ids l ∧ excluded_members ev = default [] (locus_excluded l)
    end.

(** What a landing did to the log: [landed] is the queued members, in queue order, of
    exactly the set the evaluation validated, which was probed; with the excluded
    and the held ones they are the whole queue, each once.  Each landed member
    passed and no two of them conflict.  Each is recorded once, after which it has
    left the queue, and besides only the diagnosed failure is recorded. *)
Record landed_by (log : EventLog) (campaign : option string) (at_ : N) (ev : UnionEvaluation)
    (landed : list (QueuedPr * OpenedPr)) (log' : EventLog) : Prop := {
  landed_queued : landed `sublist_of` queue_members log campaign;
  landed_whole : (λ m, pr_name m) <$> landed ≡ₚ validated_members ev;
  landed_parted : NoDup (validated_members ev ++ excluded_members ev ++ Union.held ev) ∧
    validated_members ev ++ excluded_members ev ++ Union.held ev ≡ₚ (λ m, pr_name m) <$> queue_members log campaign;
  landed_probed : ∃ ids, ids ≡ₚ (λ m, pr_name m) <$> queue_members log campaign ∧ probed ids ev;
  landed_passed : ∀ m, m ∈ landed → ∃ (a a' : A) r out,
    run_memoized a {| runner_pr := pr_name m |} local_check_def (files_of_pr (pr_name m) (o_intent_ids m.2 ++ o_commit_ids m.2))
      LOCAL_TOOLCHAIN_DIGEST = (a', r, Ok out) ∧ exit (out_result out) = 0%Z;
  landed_apart : ∀ m m', m ∈ landed → m' ∈ landed → pr_name m ≠ pr_name m' → ¬ conflicting m.2 m'.2;
  landed_left : all_pr_queued log' = List.filter (λ q, negb (bool_decide (q_pr_id q ∈ (λ m, pr_name m) <$> landed))) (all_pr_queued log);
  landed_recorded : log' = match failure ev with
    | None => record_landings at_ log (snd <$> landed)
    | Some l => record_failure at_ campaign l (excluded_members ev) ((λ m, pr_name m) <$> landed) (Union.held ev)
        (record_landings at_ log (snd <$> landed))
    end;
}.

(** The readings of the clock after the evaluation: the deadline has passed at one. *)
Definition too_late (ev : UnionEvaluation) (reason : EvaluationStop) : Prop :=
  ∃ i, (i ≤ 5)%nat ∧ deadline_exceeded ev (late i) = true ∧
    reason = if decide (i ∈ [0; 3]%nat) then Stop.DeadlineExceeded else Stop.Invalidated.

(** How the landing of a queue ends, with the log, the cache and the answer; [false]
    when the members are held. *)
Inductive land_outcome (log : EventLog) (ac : A) (campaign : option string) (at_ : N) (limits : EvaluationLimits) (ctx : EvaluationContext)
    : bool → EventLog → A → Value → Prop :=
| nothing_queued : queue_members log campaign = [] →
    land_outcome log ac campaign at_ limits ctx true log ac (empty_summary campaign limits ctx)
| held_back batch o ev reason : queue_members log campaign ≠ [] →
    evaluated (queue_members log campaign) ac limits ctx batch o ev →
    stop_reason ev = Some reason ∨ stop_reason ev = None ∧ too_late ev reason →
    land_outcome log ac campaign at_ limits ctx false log (Landing.ac o)
      (held_summary ev campaign ((λ m, pr_name m) <$> queue_members log campaign) reason)
| set_landed batch o ev landed log' : queue_members log campaign ≠ [] →
    evaluated (queue_members log campaign) ac limits ctx batch o ev →
    stop_reason ev = None → (∀ i, (i ≤ 5)%nat → deadline_exceeded ev (late i) = false) →
    landed_by log campaign at_ ev landed log' →
    land_outcome log ac campaign at_ limits ctx true log' (Landing.ac o)
      (landed_summary ev campaign (length (queue_members log campaign)) ((λ m, pr_name m) <$> landed) (excluded_members ev)
        (match failure ev with Some _ => failing_pair_to_json (minimal_failing_pair ev) | None => Null end) ctx).

Lemma filter_twice {B} (f g : B → bool) l : List.filter f (List.filter g l) = List.filter (λ x, g x && f x) l.
Proof. induction l as [|x l IH]; [done|]. simpl. destruct (g x); simpl; [|done]. destruct (f x); [by f_equal|done]. Qed.

Lemma landed_queue at_ log os log' : Forall (λ o, kept_name (o_pr_id o)) os →
  appends [QUEUE_UNION_FAIL_KIND] (record_landings at_ log os) log' →
  all_pr_queued log' = List.filter (λ q, negb (bool_decide (q_pr_id q ∈ o_pr_id <$> os))) (all_pr_queued log).
Proof.
  intros Hk Ha. rewrite (all_pr_queued_frame _ _ _ Ha) by by_decision. unfold all_pr_queued.
  rewrite (records_of_appends [PR_LANDED_KIND] log) by (apply record_landings_appends || by_decision).
  rewrite filter_twice. apply List.filter_ext. intros q. rewrite record_landings_landed by done. by rewrite negb_orb.
Qed.

Lemma fmap_names ms : Forall (λ m, o_pr_id m.2 = pr_name m) ms → o_pr_id <$> (snd <$> ms) = (λ m, pr_name m) <$> ms.
Proof. intros Hm. rewrite <- list_fmap_compose. induction Hm as [|m ms Hm _ IH]; [done|]. simpl. by f_equal. Qed.

Lemma chosen_sublist P ms : chosen P ms `sublist_of` ms.
Proof. unfold chosen. induction ms as [|m ms IH]; simpl; [constructor|]. case_bool_decide; by constructor. Qed.

Lemma chosen_in P ms m : m ∈ chosen P ms ↔ m ∈ ms ∧ pr_name m ∈ P.
Proof. unfold chosen. by rewrite list_elem_of_In, filter_In, bool_decide_eq_true, <- list_elem_of_In. Qed.
Lemma chosen_whole P ms : NoDup ((λ m, pr_name m) <$> ms) → NoDup P → P ⊆ ((λ m, pr_name m) <$> ms) →
  (λ m, pr_name m) <$> chosen P ms ≡ₚ P.
Proof.
  intros Hms HP Hsub. apply NoDup_Permutation; [|done|].
  - eapply sublist_NoDup; [exact Hms|]. apply fmap_sublist, chosen_sublist.
  - intros x. rewrite list_elem_of_fmap. split.
    + by intros (m & -> & [_ Hm]%chosen_in).
    + intros Hx. destruct (proj1 (list_elem_of_fmap _ _ _) (Hsub x Hx)) as (m & -> & Hm). exists m. by rewrite chosen_in.
Qed.

Lemma batch_ids ms batch : from_entries "land-queue" (member_entry <$> ms) = Some batch → entry_id <$> entries batch ≡ₚ (λ m, pr_name m) <$> ms.
Proof.
  intros Hb. pose proof (try_from_entries_correct "land-queue" (member_entry <$> ms)) as Ht. unfold from_entries in Hb.
  destruct (try_from_entries _ _) as [b|]; [|done]. injection Hb as ->. destruct Ht as (_ & _ & Hp & _).
  by rewrite Hp, <- !list_fmap_compose.
Qed.
(** The batch of a queue exists when no two positions are equal. *)
Lemma batch_exists ms : is_Some (from_entries "land-queue" (member_entry <$> ms)) ↔ NoDup ((λ m, q_order_index m.1) <$> ms).
Proof.
  pose proof (try_from_entries_correct "land-queue" (member_entry <$> ms)) as Ht. unfold from_entries.
  assert ((λ la, order_index la.1) <$> (member_entry <$> ms) = (λ m, q_order_index m.1) <$> ms) as Heq by by rewrite <- list_fmap_compose.
  destruct (try_from_entries _ _) as [b|[i]]; simpl in Ht; rewrite Heq in Ht.
  - split; [by destruct Ht|by eexists].
  - split; [by intros []|]. destruct Ht as (k & Hk & Hin & _). intros Hnd. apply list_elem_of_lookup in Hin as [j Hj].
    apply lookup_take_Some in Hj as [Hj Hlt]. pose proof (NoDup_lookup _ _ _ _ Hnd Hk Hj). lia.
Qed.

(** An evaluation that was not stopped, read in time. *)
Lemma evaluated_probed ms ac limits ctx batch o ev t1 t2 : evaluated ms ac limits ctx batch o ev →
  stop_reason ev = None → deadline_exceeded ev t1 || deadline_exceeded ev t2 = false →
  NoDup (entry_id <$> entries batch) ∧ probed (entry_id <$> entries batch) ev ∧
  validated_members ev ++ excluded_members ev ++ Union.held ev ≡ₚ entry_id <$> entries batch ∧
  (validated_members ev ≠ [] → green_means (A:=A) (member_content ms) (validated_members ev) Verdict.Green).
Proof.
  intros [Hb He] Hs Ht. destruct (@evaluation_live _ (log_memo_oracle oracle_now) _ _ _ _ _ _ _ _ He Hs) as [Hv Ha].
  specialize (Ha t1 t2). rewrite Ht in Ha.
  pose proof (@authorization_evidence _ (log_memo_oracle oracle_now) _ _ _ _ _ _ _ _ _ _ _ _ _ _ _ He Ha) as
    (_ & _ & _ & _ & _ & _ & _ & b & Hbind & _ & Hnd & Hgreen & Hperm & Hf). simpl in Hgreen, Hperm, Hf.
  pose proof (@evaluation_answers _ (log_memo_oracle oracle_now) (about (member_content ms)) (green_means (A:=A) (member_content ms))
    (oracle_answers oracle_now (member_content ms)) _ _ _ _ _ _ _ _ _ He ltac:(done) Hbind) as Hans.
  split_and!; [done| |done|].
  - exists b. split_and!; [done|done|]. by destruct (failure ev).
  - intros Hne. destruct (Hgreen Hne) as [srcs Hobs]. unfold answered in Hans. rewrite Forall_forall in Hans. by specialize (Hans _ Hobs).
Qed.

(** The staged log of such an evaluation. *)
Lemma staged_landed log ac campaign at_ limits ctx batch o ev t1 t2 :
  let ms := queue_members log campaign in
  let landed := chosen (validated_members ev) ms in
  let staged := record_landings at_ log (snd <$> landed) in
  Forall (λ m, kept_name (pr_name m)) ms → evaluated ms ac limits ctx batch o ev →
  stop_reason ev = None → deadline_exceeded ev t1 || deadline_exceeded ev t2 = false →
  land_members log (validated_members ev) ms at_ = (staged, Ok ((λ m, pr_name m) <$> landed)) ∧
  landed_by log campaign at_ ev landed match failure ev with
    | None => staged
    | Some l => record_failure at_ campaign l (excluded_members ev) ((λ m, pr_name m) <$> landed) (Union.held ev) staged
    end.
Proof.
  intros ms landed staged Hk He Hs Ht. destruct (evaluated_probed _ _ _ _ _ _ _ _ _ He Hs Ht) as (Hnd & Hprobed & Hperm & Hmeans).
  pose proof (batch_ids _ _ (proj1 He)) as Hids.
  assert (NoDup ((λ m, pr_name m) <$> ms)) as Hndm by (by rewrite <- Hids).
  assert (Forall (λ m, o_pr_id m.2 = pr_name m) ms) as Hname.
  { apply Forall_forall. intros m Hm. by apply queue_members_spec in Hm as (_ & ? & _). }
  split; [apply land_members_ok; [done|by apply queue_members_sub]|].
  assert (∀ m, m ∈ landed → m ∈ ms ∧ pr_name m ∈ validated_members ev) as Hin by (intros m; apply chosen_in).
  assert (∀ m, m ∈ ms → member_content ms !! pr_name m = Some (o_intent_ids m.2 ++ o_commit_ids m.2)) as HK.
  { intros m Hm. rewrite Forall_forall in Hname. rewrite <- (Hname m Hm). apply member_content_lookup; [|done].
    replace ((λ m, o_pr_id m.2) <$> ms) with ((λ m, pr_name m) <$> ms); [done|]. apply list_fmap_ext.
    intros i x Hx%list_elem_of_lookup_2. symmetry. by apply Hname. }
  assert (∀ m, m ∈ landed → green_means (A:=A) (member_content ms) (validated_members ev) Verdict.Green) as Hg.
  { intros m [_ Hm]%Hin. apply Hmeans. intros Hp. rewrite Hp in Hm. by apply elem_of_nil in Hm. }
  assert (NoDup (validated_members ev ++ excluded_members ev ++ Union.held ev)) as Hnd' by (by rewrite Hperm).
  rewrite Forall_forall in Hname. split.
  - apply chosen_sublist.
  - apply chosen_whole; [done|by apply NoDup_app in Hnd' as []|]. rewrite <- Hids, <- Hperm. set_solver.
  - split; [done|by rewrite Hperm].
  - eauto.
  - intros m Hm. destruct (Hg m Hm eq_refl) as [Hpass _]. destruct (Hin m Hm) as [Hms Hp]. rewrite Forall_forall in Hpass.
    destruct (Hpass _ Hp) as (a & a' & intents & r & out & Hint & Hrun & Hexit). rewrite HK in Hint by done. injection Hint as <-. eauto 6.
  - intros m m' Hm Hm' Hne Hc. destruct (Hg m Hm eq_refl) as [_ Hap]. destruct (Hin m Hm) as [Hms Hp], (Hin m' Hm') as [Hms' Hp'].
    apply (Hap _ _ Hp Hp'). eexists. split; [by apply HK|]. unfold conflicting in Hc.
    rewrite (Hname m' Hms') in Hc. rewrite (HK m') by done. by split_and!; [|eauto|].
  - rewrite <- (fmap_names landed) by (apply Forall_forall; intros m [Hm _]%Hin; by apply Hname).
    apply (landed_queue at_).
    + apply Forall_fmap, Forall_forall. intros m [Hm _]%Hin. rewrite Forall_forall in Hk. simpl. rewrite (Hname m) by done. by apply Hk.
    + destruct (failure ev); [|constructor]. constructor; [constructor|set_solver].
  - done.
Qed.

(** What [late] reads in time. *)
Lemma never_late ev : deadline_exceeded ev (late 0%nat) = false → deadline_exceeded ev (late 1%nat) || deadline_exceeded ev (late 2%nat) = false →
  deadline_exceeded ev (late 3%nat) = false → deadline_exceeded ev (late 4%nat) || deadline_exceeded ev (late 5%nat) = false →
  ∀ i, (i ≤ 5)%nat → deadline_exceeded ev (late i) = false.
Proof. intros ? [? ?]%orb_false_iff ? [? ?]%orb_false_iff i Hi. do 6 (destruct i as [|i]; [done|]). lia. Qed.
Lemma late_at ev i j reason : deadline_exceeded ev (late i) || deadline_exceeded ev (late j) = true → (i ≤ 5)%nat → (j ≤ 5)%nat →
  (∀ k, k ∈ [i; j] → reason = if decide (k ∈ [0; 3]%nat) then Stop.DeadlineExceeded else Stop.Invalidated) → too_late ev reason.
Proof. intros [Hl|Hl]%orb_true_iff Hi Hj Hr; [exists i|exists j]; (split_and!; [done|done|apply Hr; set_solver]). Qed.

(** Landing a queue: the log is as it was, or the validated set is landed on it. *)
Lemma batch_landing log ac campaign at_ limits ctx :
  Forall (λ m, kept_name (pr_name m)) (queue_members log campaign) →
  match land_in_context log ac campaign at_ limits ctx with
  | None => ¬ NoDup ((λ m, q_order_index m.1) <$> queue_members log campaign)
  | Some (log', ac', res) =>
      NoDup ((λ m, q_order_index m.1) <$> queue_members log campaign) ∧
      ∃ concluded v, res = Ok v ∧ land_outcome log ac campaign at_ limits ctx concluded log' ac' v
  end.
Proof.
  intros Hk. unfold batch_land_in_context. case_decide as Hms.
  { rewrite Hms. split; [constructor|]. do 2 eexists. split; [done|by constructor]. }
  pose proof (batch_exists (queue_members log campaign)) as Hbe.
  destruct (from_entries _ _) as [batch|] eqn:Hb; cbn [mbind option_bind]; [|intros Hnd; by apply Hbe in Hnd as []].
  change {| Landing.ac := ac |} with (start_oracle ac (queue_members log campaign)).
  destruct (@evaluate_union_in_context _ _ _ _ _ _ _ _) as [o ev] eqn:He.
  assert (evaluated (queue_members log campaign) ac limits ctx batch o ev) as Hev by done.
  assert (NoDup ((λ m, q_order_index m.1) <$> queue_members log campaign)) as Hnd by by apply Hbe. clear Hbe.
  destruct (stop_reason ev) as [reason|] eqn:Hs; [split; [done|]; do 2 eexists; split; [done|]; eapply held_back; eauto|].
  assert (∀ reason, too_late ev reason → ∃ concluded v,
    Ok (E:=PorcelainError) (held_summary ev campaign ((λ m, pr_name m) <$> queue_members log campaign) reason) = Ok v ∧
    land_outcome log ac campaign at_ limits ctx concluded log (Landing.ac o) v) as Hheld.
  { intros reason Hr. do 2 eexists. split; [done|]. eapply held_back; [done|exact Hev|by right]. }
  destruct (@evaluation_live _ (log_memo_oracle oracle_now) _ _ _ _ _ _ _ _ He Hs) as [Hv Ha].
  destruct (deadline_exceeded ev (late 0%nat)) eqn:L0; [split; [done|]; apply Hheld; exists 0%nat; split_and!; [lia|done|done]|].
  rewrite Ha. destruct (deadline_exceeded ev (late 1%nat) || deadline_exceeded ev (late 2%nat)) eqn:L12; [split; [done|]; apply Hheld, (late_at _ 1 2); [done|lia|lia|]|].
  { intros k Hin. rewrite decide_False; [done|]. set_solver. }
  destruct (staged_landed log ac campaign at_ limits ctx batch o ev _ _ Hk Hev Hs L12) as [Hl Hby].
  cbn [auth_proceeding auth_excluded]. rewrite Hl, Hv. rewrite Ha.
  set (final := match failure ev with None => _ | Some _ => _ end) in Hby.
  set (fp := match failure ev with Some _ => failing_pair_to_json (minimal_failing_pair ev) | None => Null end).
  match goal with |- context [match ?m with (staged, recorded) => _ end] => assert (m = (final, Ok fp)) as -> end.
  { subst final fp. destruct (failure ev); [|done]. by rewrite record_union_fail_ok. }
  destruct (deadline_exceeded ev (late 3%nat)) eqn:L3; [split; [done|]; apply Hheld; exists 3%nat; split_and!; [lia|done|done]|].
  destruct (deadline_exceeded ev (late 4%nat) || deadline_exceeded ev (late 5%nat)) eqn:L45; [split; [done|]; apply Hheld, (late_at _ 4 5); [done|lia|lia|]|].
  { intros k Hin. rewrite decide_False; [done|]. set_solver. }
  split; [done|]. do 2 eexists. split; [done|]. eapply set_landed; eauto using never_late.
Qed.

Lemma outcome_intact log ac campaign at_ limits ctx concluded log' ac' v :
  land_outcome log ac campaign at_ limits ctx concluded log' ac' v → intact (records log) → intact (records log').
Proof.
  destruct 1 as [|batch o ev reason _ _ _|batch o ev landed log' _ _ _ _ Hl]; [done..|].
  apply (appends_intact [PR_LANDED_KIND; QUEUE_UNION_FAIL_KIND]); [by_decision|]. rewrite (landed_recorded _ _ _ _ _ _ Hl).
  assert (appends [PR_LANDED_KIND; QUEUE_UNION_FAIL_KIND] log (record_landings at_ log (snd <$> landed))) as Hap.
  { eapply appends_weaken; [|apply record_landings_appends]. set_solver. }
  destruct (failure ev); [|done]. constructor; [done|set_solver].
Qed.

Lemma outcome_stopped log ac campaign at_ limits ctx concluded log' ac' v :
  land_outcome log ac campaign at_ limits ctx concluded log' ac' v → stopped v = negb concluded.
Proof. by destruct 1. Qed.
Lemma outcome_held log ac campaign at_ limits ctx log' ac' v : land_outcome log ac campaign at_ limits ctx false log' ac' v → log' = log.
Proof. by inversion 1. Qed.

(** C6. Landing the queue, for queued names that the scrubbing of the records leaves
    as they are (those read back from a record this program wrote are such:
    [scrubbed_name_kept]).  It panics exactly when two queued members have the
    same position, and otherwise returns an answer, one of three.  The queue is
    empty: nothing happens.  The evaluation of the queue was stopped, or its
    deadline had passed at one of the six readings of the clock after it: the log
    is untouched and the members are held, with the reason.  Otherwise exactly the
    set the evaluation validated is landed, and this set was probed green as such,
    the excluded members being those of the failure its probes located: the log
    is the old one with one landing per member in queue order, then the diagnosed
    failure if there is one, and the landed members have left the queue. *)
Theorem batch_land_sound log ac campaign at_ limits ctx :
  Forall (λ m, kept_name (pr_name m)) (queue_members log campaign) →
  match land_in_context log ac campaign at_ limits ctx with
  | None => ¬ NoDup ((λ m, q_order_index m.1) <$> queue_members log campaign)
  | Some (log', ac', res) =>
      NoDup ((λ m, q_order_index m.1) <$> queue_members log campaign) ∧
      (∃ concluded v, res = Ok v ∧ land_outcome log ac campaign at_ limits ctx concluded log' ac' v) ∧
      (intact (records log) → intact (records log'))
  end.
Proof.
  intros Hk. pose proof (batch_landing log ac campaign at_ limits ctx Hk) as Hl.
  destruct (land_in_context _ _ _ _ _ _) as [[[log' ac'] res]|]; [|done]. destruct Hl as (Hnd & c & v & -> & Ho). eauto 7 using outcome_intact.
Qed.

Context `{ReceiptLaws Started} `{ReceiptLaws Current} `{ReceiptLaws Finished} `{ReceiptLaws Invalidated}.

Lemma finish_attempt_recorded j o s s' r : finish_attempt j o s = (s', r) →
  grows s s' ∧ (r = Ok tt → recorded (files_of s') (record_name (journal_operation j) "finished")
    {| fi_schema := SCHEMA; fi_operation_id := journal_operation j; outcome := o |}).
Proof.
  intros Hf. split; [by eapply finish_grows|]. revert Hf. unfold finish_attempt. rewrite lift_bind.
  destruct (record_path _ _) as [n|e] eqn:En; [|by intros [= <- <-]]. apply record_path_Ok in En as [Hv ->].
  intros Hc Hr. apply create_record_spec in Hc as [_ Hc]; [|by apply record_name_current]. by apply Hc.
Qed.

(** C20. The command, whatever fails in it, for queued names that the scrubbing of the
    records leaves as they are.  It panics only when two queued members have the
    same position.  Otherwise the receipts go on telling a story; the log on disk
    is the old one, or the one a landing concluded with ([land_outcome]: the whole
    validated set landed) under the operation of this call.  Success is reported
    only when the landing concluded, the log was written and the receipt of this
    operation says applied; an error only when there is no operation, the attempt
    was not admitted, the members are held (which the receipt says, unless its
    writing failed), the write of the log failed, or the receipt's did. *)
Theorem queue_land_honest dir t log_path entropy write w a hist :
  let log := disk_log w in
  let context := simulation_context entropy log (land_campaign a) (land_limits a) in
  let outcome ctx concluded w' v :=
    land_outcome log (cache w) (land_campaign a) (land_recorded_at a) (land_limits a) ctx concluded (disk_log w') (cache w') v in
  let says w' ctx o := recorded (files_of (receipts w')) (record_name (operation_id ctx) "finished")
    {| fi_schema := SCHEMA; fi_operation_id := operation_id ctx; outcome := o |} in
  let begun ctx := begin_attempt dir ("." +:+ t) ctx (receipts w) in
  let unsaid ctx o := is_ok (finish_attempt {| journal_operation := operation_id ctx |} o (begun ctx).1).2 = false in
  Forall (λ m, kept_name (pr_name m)) (queue_members log (land_campaign a)) → tells (receipts w) hist →
  match run_queue_land instant_max now oracle_now late dir ("." +:+ t) log_path entropy write w a with
  | None => ¬ NoDup ((λ m, q_order_index m.1) <$> queue_members log (land_campaign a))
  | Some (w', res) =>
      (∃ hist', tells (receipts w') hist' ∧ hist `suffix_of` hist') ∧
      (disk_log w' = log ∨ ∃ ctx v, context = Ok ctx ∧ outcome ctx true w' v) ∧
      (intact (records log) → intact (records (disk_log w'))) ∧
      match res with
      | Ok v => write = Written ∧ ∃ ctx, context = Ok ctx ∧ outcome ctx true w' v ∧ says w' ctx Applied
      | Err _ => entropy = None ∨ ∃ ctx, context = Ok ctx ∧
          (is_ok (begun ctx).2 = false ∨ (∃ v, outcome ctx false w' v) ∧ (says w' ctx Held ∨ unsaid ctx Held) ∨
           write ≠ Written ∨ unsaid ctx Applied)
      end
  end.
Proof.
  intros log context outc says begun unsaid Hk Ht. unfold run_queue_land. fold log context.
  destruct context as [ctx|e] eqn:Hctx; [|split_and!; [by exists hist|by left|done|left; subst context; by destruct entropy]].
  pose proof (eq_refl (begun ctx)) as Hbegun. unfold begun at 1 in Hbegun.
  destruct (begin_attempt dir ("." +:+ t) ctx (receipts w)) as [s rb] eqn:Eb.
  destruct (begin_tells _ _ _ _ _ _ _ Eb Ht) as (hist' & Ht' & _ & Hcase).
  assert (hist `suffix_of` hist') as Hsuf by (destruct Hcase as [->|[-> _]]; [done|by apply suffix_cons_r]).
  destruct rb as [j|e]; [|split_and!; [by exists hist'|by left|done|right; exists ctx; split; [done|left; by rewrite <- Hbegun]]].
  apply begin_operation in Eb as Hj. destruct j as [op]. simpl in Hj. subst op.
  pose proof (batch_landing log (cache w) (land_campaign a) (land_recorded_at a) (land_limits a) ctx Hk) as Hl.
  destruct (batch_land_in_context _ _ _ _ _ _ _ _ _) as [[[log' ac'] r]|] eqn:El; [|done]. cbn [mbind option_bind].
  destruct Hl as (_ & concluded & v & -> & Ho). pose proof (outcome_intact _ _ _ _ _ _ _ _ _ _ Ho) as Hint.
  rewrite (outcome_stopped _ _ _ _ _ _ _ _ _ _ Ho).
  assert (∀ o s' r', finish_attempt {| journal_operation := operation_id ctx |} o s = (s', r') →
    (∃ hist', tells s' hist' ∧ hist `suffix_of` hist') ∧
    (r' = Ok tt → recorded (files_of s') (record_name (operation_id ctx) "finished")
      {| fi_schema := SCHEMA; fi_operation_id := operation_id ctx; outcome := o |}) ∧ (∀ e, r' = Err e → unsaid ctx o)) as Hfin.
  { intros o s' r' Hf. split_and!.
    - exists hist'. split; [|done]. eapply tells_grows; [by eapply finish_grows|done].
    - by apply finish_attempt_recorded in Hf as [_ ?].
    - intros e ->. unfold unsaid. rewrite <- Hbegun. simpl. by rewrite Hf. }
  destruct concluded; cbn [negb].
  - destruct write as [|replaced what].
    + destruct (finish_attempt _ Applied s) as [s' r'] eqn:Ef. destruct (Hfin _ _ _ Ef) as (Hst & Hrec & Hbad).
      split_and!; [done|right; by eauto|done|]. destruct r' as [[]|e].
      * split; [done|]. exists ctx. split_and!; [done|done|by apply Hrec].
      * right. exists ctx. split; [done|]. do 3 right. by eapply Hbad.
    + split_and!; [by exists hist'|destruct replaced; [right; by eauto|by left]|by destruct replaced|].
      right. exists ctx. split; [done|]. right. right. by left.
  - apply outcome_held in Ho as Hsame. subst log'.
    destruct (finish_attempt _ Held s) as [s' r'] eqn:Ef. destruct (Hfin _ _ _ Ef) as (Hst & Hrec & Hbad).
    split_and!; [done|by left|done|]. destruct r' as [[]|e]; right; exists ctx; (split; [done|]); right; left;
      (split; [by eexists|]); [left; by apply Hrec|right; by eapply Hbad].
Qed.
End Spec.

Module LandingExample.
Import Toy BlobsExample GateList Log2 EnvelopeExample PullRequestExample AttemptExample.
#[local] Existing Instance Codec.codec.
#[local] Existing Instance Codec.codec_laws.

Definition opens (pr intent : string) : PrVerb := VOpen {|
  pr_id := pr; campaign := "c"; author_kind := AuthorHuman; run_id := None; principal := Some "human:ann";
  intent_ids := [intent]; commit_ids := []; at_ms := 1 |}.
Definition corpus : EventLog := run_all
  [opens "p1" "conflicts-with:p2"; opens "p2" "i2"; opens "p3" "i3"; v_land "p1"; v_land "p2"; v_land "p3"].
Definition still (_ : nat) : N := 0.
Definition empty_ac : InMemoryAc := {| store := ∅ |}.
Definition ctx : EvaluationContext := live "1".
Definition landed_corpus : EventLog :=
  match batch_land_in_context u64_max still still still corpus empty_ac None 9 default_limits ctx with
  | Some (log, _, _) => log | None => corpus end.

(** The conflicting pair is held back and the rest lands. *)
Example pair_held : (q_pr_id <$> all_pr_queued landed_corpus) = ["p1"; "p2"] ∧
  (kind <$> drop 6 (records landed_corpus)) = [PR_LANDED_KIND; QUEUE_UNION_FAIL_KIND].
Proof. split; vm_compute; reflexivity. Qed.
(** Without probes nothing is decided and nothing is written. *)
Example no_probes_held : (λ r, (r.1.1, is_ok r.2)) <$>
  batch_land_in_context u64_max still still still corpus empty_ac None 9 {| max_probes := 0; timeout := 1 |} ctx = Some (corpus, true).
Proof. vm_compute. reflexivity. Qed.

Lemma corpus_names : Forall (λ m, kept_name (q_pr_id m.1)) (queue_members corpus None).
Proof. by_decision. Qed.

Lemma something_recorded : length (records landed_corpus) ≠ length (records corpus).
Proof. vm_compute. discriminate. Qed.
Lemma batch_land_sound_witness : ∃ ev landed, landed_by corpus None 9 ev landed landed_corpus.
Proof.
  assert (landed_corpus = corpus ∨ ∃ ev landed, landed_by corpus None 9 ev landed landed_corpus) as [Heq|Hl].
  - unfold landed_corpus.
    pose proof (batch_land_sound u64_max still still still corpus empty_ac None 9 default_limits ctx corpus_names) as Hs.
    destruct (batch_land_in_context u64_max still still still corpus empty_ac None 9 default_limits ctx) as [[[log' ac'] res]|]; [|by left].
    destruct Hs as (_ & (c & v & _ & Ho) & _). destruct Ho; [by left|by left|right; by do 2 eexists].
  - destruct something_recorded. by rewrite Heq.
  - exact Hl.
Defined.
Definition world (io : list (option Fault)) : LandWorld InMemoryAc := {|
  disk_log := corpus; receipts := {| place := Missing; io := io |}; cache := empty_ac |}.
Definition land_args : QueueLandArgs := {| land_campaign := None; land_recorded_at := 9; land_limits := default_limits |}.
Abbreviation run io write := (run_queue_land u64_max still still still "log.queue-attempts" ("." +:+ "t") "log"
  (Some (replicate 16 x01)) write (world io) land_args).

(** A write that replaced the file and then failed leaves no terminal receipt. *)
Example uncertain_write : (λ r, (is_ok r.2, length (records (disk_log r.1)), (map_to_list (files_of (receipts r.1))).*1)) <$> run [] (WriteFailed true "fsync")
  = Some (false, 8%nat, ["current.json"; "queue-01010101010101010101010101010101.started.json"]).
Proof. vm_compute. reflexivity. Qed.

Lemma world_names : Forall (λ m, kept_name (q_pr_id m.1)) (queue_members (disk_log (world [])) (land_campaign land_args)).
Proof. exact corpus_names. Qed.
Lemma no_story : tells (receipts (world [])) [].
Proof. reflexivity. Qed.
Lemma run_succeeds : match run [] Written with Some (_, Ok _) => True | _ => False end.
Proof. vm_compute. exact I. Qed.
Lemma queue_land_honest_witness : match run [] Written with
  | Some (w, Ok _) => ∃ ctx, simulation_context (Some (replicate 16 x01)) corpus None default_limits = Ok ctx ∧
      recorded (files_of (receipts w)) (record_name (operation_id ctx) "finished")
        {| fi_schema := SCHEMA; fi_operation_id := operation_id ctx; outcome := Applied |}
  | _ => False end.
Proof.
  pose proof run_succeeds as Hok.
  pose proof (queue_land_honest u64_max still still still "log.queue-attempts" "t" "log" (Some (replicate 16 x01)) Written (world []) land_args []
    world_names no_story) as Hs.
  destruct (run [] Written) as [[w' [v|e]]|]; [|destruct Hok..].
  destruct Hs as (_ & _ & _ & _ & ctx & Hctx & _ & Hr). exists ctx. split; [exact Hctx|exact Hr].
Defined.
End LandingExample.
