(* ===== verification/Loader.v ===== *)
(** Loading a log from a file ([crates/hugit-cli/src/checks/mod.rs]): the one place
    that rehydrates and verifies the records it read. *)

From S2P Require Import Prelude Json JsonCodec Crypto Log Tamper Porcelain.

(** The texts of the errors. *)
Definition append_error_text (e : AppendError) : string :=
  match e with NonMonotonicSeq expected got =>
    "non-monotonic seq: expected " +:+ decimal expected +:+ ", got " +:+ decimal got +:+ " (log is append-only)" end.
Definition tamper_text (e : TamperError) : string :=
  match e with
  | SeqOutOfOrder position expected got => "tamper: seq out of order at position " +:+ decimal position
      +:+ " (expected " +:+ decimal expected +:+ ", got " +:+ decimal got +:+ ")"
  | PrevHashMismatch seq expected got => "tamper: prev_hash break at seq " +:+ decimal seq
      +:+ " (expected " +:+ expected +:+ ", got " +:+ got +:+ ")"
  | ThisHashMismatch seq expected got => "tamper: this_hash mismatch at seq " +:+ decimal seq
      +:+ " (expected " +:+ expected +:+ ", got " +:+ got +:+ ")"
  end.

Inductive ChainLoadFault := Rehydrate (e : string) | ChainBroken (e : string).

Section Loader.
Context `{CryptoLaws} `{SerdeJson}.

Definition rehydrate_and_verify (rs : list EventRecord) : result ChainLoadFault EventLog :=
  log ← map_err (λ e, Rehydrate (append_error_text e)) (push_records EventLog_new rs);
  _ ← map_err (λ e, ChainBroken (tamper_text e)) (verify_chain (records log));
  Ok log.

(** [load_event_log_from_bytes], after the parse. *)
Definition load_verified (source : string) (rs : list EventRecord) : result PorcelainError EventLog :=
  map_err (λ fault, match fault with
    | Rehydrate e => PorcelainError_internal ("rehydrate log " +:+ source +:+ ": " +:+ e)
    | ChainBroken e => PorcelainError_new "chain_broken" ("log " +:+ source +:+ " failed integrity verification: " +:+ e)
        "the --log file's hash chain is tampered or corrupt"
    end) (rehydrate_and_verify rs).

(** A loaded log holds the records that were read, verified. *)
Lemma rehydrated rs log : rehydrate_and_verify rs = Ok log → records log = rs ∧ verify_chain rs = Ok tt.
Proof.
  unfold rehydrate_and_verify. destruct (push_records EventLog_new rs) as [l|e] eqn:E; [|done].
  apply push_records_app in E. simpl in E. simpl. destruct (verify_chain (records l)) as [[]|e] eqn:Ev; [|done].
  intros [= <-]. rewrite E in Ev. done.
Qed.
(** An intact log loads. *)
Lemma rehydrate_intact rs : intact rs → rehydrate_and_verify rs = Ok {| records := rs |}.
Proof.
  intros Hi. unfold rehydrate_and_verify. rewrite (proj2 (push_records_ok rs _) (conj eq_refl (intact_contiguous _ Hi))).
  simpl. destruct Hi as [-> _]. done.
Qed.
Lemma loaded source rs log : load_verified source rs = Ok log → records log = rs ∧ verify_chain rs = Ok tt.
Proof.
  unfold load_verified. destruct (rehydrate_and_verify rs) as [l|] eqn:E; [|done]. intros [= <-]. by apply rehydrated.
Qed.
End Loader.
