(* ===== verification/Calls.v ===== *)
(** Computations over a state whose calls can fail or be the last of the process:
    the monad of the commands that work on files others share. *)

From S2P Require Import Prelude.

Create HintDb calls.

(** How a call of the file system ends. *)
Inductive End := Fine | Fails (what : string) | Dies.

(** A computation ends with an answer, or the process is gone: killed, or
    panicking. *)
Definition Work (S E A : Type) : Type := S → S * option (result E A).

Section Work.
Context {S : Type}.

#[global] Instance Work_ret {E} : MRet (Work S E) := λ A a s, (s, Some (Ok a)).
#[global] Instance Work_bind {E} : MBind (Work S E) := λ A B k m s,
  match m s with
  | (s, Some (Ok a)) => k a s
  | (s, Some (Err e)) => (s, Some (Err e))
  | (s, None) => (s, None)
  end.
Definition wfail {E A} (e : E) : Work S E A := λ s, (s, Some (Err e)).
Definition panic {E A} : Work S E A := λ s, (s, None).
Definition wget {E A} (f : S → A) : Work S E A := λ s, (s, Some (Ok (f s))).
Definition wset {E} (f : S → S) : Work S E unit := λ s, (f s, Some (Ok tt)).
Definition wlift {E A} (r : result E A) : Work S E A := λ s, (s, Some r).
Definition wmap_err {E F A} (f : E → F) (m : Work S E A) : Work S F A := λ s,
  match m s with
  | (s, Some (Ok a)) => (s, Some (Ok a)) | (s, Some (Err e)) => (s, Some (Err (f e))) | (s, None) => (s, None)
  end.
(** [match m { Ok(a) => .., Err(e) => .. }]. *)
Definition attempt {E F A} (m : Work S E A) : Work S F (result E A) := λ s,
  match m s with (s, Some r) => (s, Some (Ok r)) | (s, None) => (s, None) end.
(** One call, with the function that says how it ends. *)
Definition wcall (next : S → End * S) : Work S string unit := λ s,
  match next s with
  | (Fine, s) => (s, Some (Ok tt)) | (Fails w, s) => (s, Some (Err w)) | (Dies, s) => (s, None)
  end.

Lemma bind_run {E A B} (m : Work S E A) (k : A → Work S E B) s :
  (m ≫= k) s = match m s with
    | (s, Some (Ok a)) => k a s | (s, Some (Err e)) => (s, Some (Err e)) | (s, None) => (s, None) end.
Proof. done. Qed.
Lemma bind_ok {E A B} (m : Work S E A) (k : A → Work S E B) s s' b :
  (m ≫= k) s = (s', Some (Ok b)) → ∃ s1 a, m s = (s1, Some (Ok a)) ∧ k a s1 = (s', Some (Ok b)).
Proof. rewrite bind_run. destruct (m s) as [s1 [[a|e]|]]; intros; by eauto. Qed.
End Work.

(** ** Relations every computation of a command keeps

    [within R m]: however [m] ends, the state it leaves is in [R] with the one it
    met. *)
Section Within.
Context {S : Type} (R : relation S) `{!PreOrder R}.
Definition within {E A} (m : Work S E A) : Prop := ∀ s s' r, m s = (s', r) → R s s'.

Lemma within_bind {E A B} (m : Work S E A) (k : A → Work S E B) : within m → (∀ a, within (k a)) → within (m ≫= k).
Proof.
  intros Hm Hk s s' r. rewrite bind_run. destruct (m s) as [s1 [[a|e]|]] eqn:E1; intros Hr.
  - etrans; [by eapply Hm|by eapply Hk].
  - injection Hr as <- <-. by eapply Hm.
  - injection Hr as <- <-. by eapply Hm.
Qed.
Lemma within_ret {E A} (a : A) : within (mret a : Work S E A).
Proof. intros s s' r [= <- <-]. reflexivity. Qed.
Lemma within_fail {E A} (e : E) : within (wfail e : Work S E A).
Proof. intros s s' r [= <- <-]. reflexivity. Qed.
Lemma within_panic {E A} : within (panic : Work S E A).
Proof. intros s s' r [= <- <-]. reflexivity. Qed.
Lemma within_get {E A} (f : S → A) : within (wget f : Work S E A).
Proof. intros s s' r [= <- <-]. reflexivity. Qed.
Lemma within_lift {E A} (x : result E A) : within (wlift x).
Proof. intros s s' r [= <- <-]. reflexivity. Qed.
Lemma within_set {E} (f : S → S) : (∀ s, R s (f s)) → within (wset f : Work S E unit).
Proof. intros Hf s s' r [= <- <-]. apply Hf. Qed.
Lemma within_map {E F A} (f : E → F) (m : Work S E A) : within m → within (wmap_err f m).
Proof. unfold wmap_err. intros Hm s s' r. destruct (m s) as [s1 [[a|e]|]] eqn:E1; intros [= <- <-]; by eapply Hm. Qed.
Lemma within_attempt {E F A} (m : Work S E A) : within m → within (attempt (F := F) m).
Proof. unfold attempt. intros Hm s s' r. destruct (m s) as [s1 [[a|e]|]] eqn:E1; intros [= <- <-]; by eapply Hm. Qed.
Lemma within_call next : (∀ s, R s (next s).2) → within (wcall next).
Proof. unfold wcall. intros Hn s s' r. specialize (Hn s). destruct (next s) as [[| |] s1]; intros [= <- <-]; exact Hn. Qed.
End Within.
#[export] Hint Resolve within_ret within_fail within_panic within_get within_lift within_map within_attempt : calls.
