(* ===== verification/Drain.v ===== *)
(** The receipts of git hooks and their drain
    ([crates/hugit-cli/src/capture/receipt.rs], [capture/drain.rs] and
    [bind_legacy_prefix] of [runtime_store.rs]).

    A hook publishes a receipt; a worker claims it, appends its event to the log
    unless the log has it, and marks it complete, or keeps a dead letter; sources
    and markers are then removed.  Every call of the file system can fail or be
    the last of the process, and between two calls others can do anything to the
    receipt directory.  The bytes under an inode never change.

    The theorems: however a drain ends, the log grew by one event per receipt it
    did not have; and no receipt was removed before its event was in the log or its
    dead letter was written.  The pairing of transactions does not depend on the
    order of the log.

    The lock of the log excludes other writers of the log, the markers and the dead
    letters.  Checking the inode of a claimed name and unlinking it count as one
    call, and so do the calls that open, check and read a file, or that write a
    temporary one.  Owners, modes and links are one flag of an entry; names are
    UTF-8; the log file is there.  Starting the worker, reading the status back and the preparation of the
    runtime directory ([prepare_runtime_log], [repository_id]) are not modelled:
    the drain takes the repository id they give. *)

From S2P Require Import Prelude Text Scan Json JsonCodec Secret Scrub Crypto Log Authz Tamper Porcelain Loader Calls.

Create HintDb drain.

(** * Receipts *)

Record ReceiptV1 := {
  rc_version : N; repo_id : string; invocation_id : string; receipt_id : string; rc_kind : string; rc_principal : string;
  rc_payload : Value; rc_recorded_at : N }.
Record DrainFailure := { code : string; message : string }.
Record DrainStatus := { drained : nat; pending : nat; dead_letters : nat; last_error : option DrainFailure }.
Definition DrainStatus_default : DrainStatus := {| drained := 0; pending := 0; dead_letters := 0; last_error := None |}.
Inductive DrainError := Invalid (reason : string) | Retry (reason : string).

Record CompletionMarkerV1 := { mk_version : N; mk_receipt_id : string; mk_receipt_sha256 : string }.
Inductive DeadLetterReceiptMetadataV1 :=
| Parsed (version : N) (repo_id invocation_id receipt_id kind principal : string) (payload : Value) (recorded_at : N)
| InvalidJson (byte_len : N) (parse_error : string).
Record DeadLetterV1 := {
  dl_version : N; dl_receipt_sha256 : string; dl_reason : string; dl_receipt : DeadLetterReceiptMetadataV1 }.

(** The derived readers and writers, and the reader of a log file. *)
Class ReceiptSerde := {
  receipt_from_slice : list byte → result string ReceiptV1;
  receipt_to_vec : ReceiptV1 → list byte;
  marker_to_vec : CompletionMarkerV1 → list byte;
  letter_to_vec : DeadLetterV1 → list byte;
  records_from_slice : list byte → option (list EventRecord);
}.

(** Every object of a parsed document is in key order; a letter is read by what it
    says. *)
Class ReceiptSerdeLaws `{ReceiptSerde} := {
  parsed_sorted b r : receipt_from_slice b = Ok r → sorted_doc (rc_payload r) = true;
  marker_to_vec_inj m m' : marker_to_vec m = marker_to_vec m' → m = m';
}.

Definition RECEIPT_DOMAIN : string := "hugit-receipt-v1".
Definition nul : ascii := ascii_of_nat 0.
Definition LEGACY_PREFIX_KIND : string := "runtime.legacy_prefix".
Definition COMPLETION_CLEANUP_LIMIT : nat := 64.
Definition LOCK_ATTEMPTS : nat := 500.

Definition valid_repo_id (value : string) : bool :=
  (String.length value =? 64)%nat && string_forall (λ c, between 48 57 c || between 97 102 c) value.
Definition claim_prefix : string := ".claim-".
(** The name behind the token of a claim. *)
Definition claimed_original_name (name : string) : option string :=
  rest ← strip_prefix claim_prefix name;
  let token := String.substring 0 64 rest in
  tail ← strip_prefix "-" (String.substring 64 (String.length rest - 64) rest);
  if valid_repo_id token && negb (bool_decide (tail = EmptyString)) then Some tail else None.
Definition is_receipt_entry (name : string) : bool :=
  ends_with name ".json" || bool_decide (is_Some (claimed_original_name name)).

Fixpoint strip_suffix (s suffix : string) : option string :=
  if decide (s = suffix) then Some EmptyString
  else match s with EmptyString => None | String c s => String c <$> strip_suffix s suffix end.

Lemma string_app_inj_r a b c : a +:+ c = b +:+ c → a = b.
Proof.
  revert b. induction a as [|x a IH]; intros [|y b] Heq; [done| | |injection Heq as -> Heq; by rewrite (IH b)];
    apply (f_equal String.length) in Heq; rewrite !length_string_app in Heq; simpl in Heq; lia.
Qed.

Section ReceiptId.
Context `{Crypto}.
Definition receipt_id_preimage (repo invocation : string) : list byte :=
  as_bytes (RECEIPT_DOMAIN +:+ String nul EmptyString) ++ as_bytes repo ++ as_bytes (String nul EmptyString) ++ as_bytes invocation.
Definition receipt_id_of (repo invocation : string) : string := digest_hex (receipt_id_preimage repo invocation).
Definition sha256_hex (bytes : list byte) : string := digest_hex bytes.
Definition receipt_identity (r : ReceiptV1) : bool :=
  (rc_version r =? 1) && valid_repo_id (repo_id r) && valid_repo_id (invocation_id r)
  && bool_decide (receipt_id r = receipt_id_of (repo_id r) (invocation_id r)).
End ReceiptId.

(** * The runtime directory *)

Record Node := { ino : N; is_private : bool }.
(** What others do to the receipts before a call, and how the call ends. *)
Record Event := { outside : gmap string Node → gmap string Node; ends : End }.

(** [removed] is what the drain unlinked among the receipts, with its bytes. *)
Record Runtime := {
  disk_log : EventLog; snapshot : option (list byte); metadata : option (list byte);
  receipts : gmap string Node; completed : gmap string (list byte); dead : gmap string (list byte);
  status_file : option DrainStatus; removed : list (string * list byte); script : list Event }.

Definition set_disk_log (l : EventLog) (s : Runtime) : Runtime := {|
  disk_log := l; snapshot := snapshot s; metadata := metadata s; receipts := receipts s; completed := completed s;
  dead := dead s; status_file := status_file s; removed := removed s; script := script s |}.
Definition set_metadata (m : list byte) (s : Runtime) : Runtime := {|
  disk_log := disk_log s; snapshot := snapshot s; metadata := Some m; receipts := receipts s; completed := completed s;
  dead := dead s; status_file := status_file s; removed := removed s; script := script s |}.
Definition set_completed (c : gmap string (list byte)) (s : Runtime) : Runtime := {|
  disk_log := disk_log s; snapshot := snapshot s; metadata := metadata s; receipts := receipts s; completed := c;
  dead := dead s; status_file := status_file s; removed := removed s; script := script s |}.
Definition set_dead (d : gmap string (list byte)) (s : Runtime) : Runtime := {|
  disk_log := disk_log s; snapshot := snapshot s; metadata := metadata s; receipts := receipts s; completed := completed s;
  dead := d; status_file := status_file s; removed := removed s; script := script s |}.
Definition set_status (st : DrainStatus) (s : Runtime) : Runtime := {|
  disk_log := disk_log s; snapshot := snapshot s; metadata := metadata s; receipts := receipts s; completed := completed s;
  dead := dead s; status_file := Some st; removed := removed s; script := script s |}.
Definition set_receipts (r : gmap string Node) (s : Runtime) : Runtime := {|
  disk_log := disk_log s; snapshot := snapshot s; metadata := metadata s; receipts := r; completed := completed s;
  dead := dead s; status_file := status_file s; removed := removed s; script := script s |}.
Definition unlink (name : string) (bytes : list byte) (s : Runtime) : Runtime := {|
  disk_log := disk_log s; snapshot := snapshot s; metadata := metadata s; receipts := delete name (receipts s);
  completed := completed s; dead := dead s; status_file := status_file s; removed := removed s ++ [(name, bytes)];
  script := script s |}.
Definition next_event (s : Runtime) : End * Runtime :=
  match script s with
  | [] => (Fine, s)
  | ev :: rest => (ends ev, {|
      disk_log := disk_log s; snapshot := snapshot s; metadata := metadata s; receipts := outside ev (receipts s);
      completed := completed s; dead := dead s; status_file := status_file s; removed := removed s; script := rest |})
  end.
(** The same with nobody else acting. *)
Definition next_alone (s : Runtime) : End * Runtime :=
  match script s with
  | [] => (Fine, s)
  | ev :: rest => (ends ev, {|
      disk_log := disk_log s; snapshot := snapshot s; metadata := metadata s; receipts := receipts s;
      completed := completed s; dead := dead s; status_file := status_file s; removed := removed s; script := rest |})
  end.

#[local] Abbreviation Work := (Calls.Work Runtime).
Definition call : Work string unit := wcall next_event.
Definition call_alone : Work string unit := wcall next_alone.
Definition step (message : string) : Work string unit := wmap_err (λ w, message +:+ w) call.

(** * Private files *)

Section Drain.
Context `{CryptoLaws} `{SerdeJsonLaws} `{Libm} `{GateCodec} `{ReceiptSerdeLaws}.
Context (content_of : N → list byte).

(** Open, check and read a file of the receipts. *)
Definition read_receipt_bytes (name : string) : Work string (list byte) :=
  _ ← step "open receipt safely: ";
  n ← wget (λ s, receipts s !! name);
  match n with
  | None => wfail "open receipt safely: not found"
  | Some n => if is_private n then mret (content_of (ino n)) else wfail "receipt ownership, type, or mode is unsafe"
  end.
(** The same for the two directories only the drain writes. *)
Definition read_bytes_in (dir : Runtime → gmap string (list byte)) (name : string) : Work string (list byte) :=
  _ ← step "open receipt safely: ";
  b ← wget (λ s, dir s !! name);
  match b with None => wfail "open receipt safely: not found" | Some b => mret b end.

(** [atomic_create_immutable]: the temporary file, the link, the sync. *)
Definition atomic_create_immutable (dir : Runtime → gmap string (list byte))
    (set_dir : gmap string (list byte) → Runtime → Runtime) (name : string) (bytes : list byte) : Work string unit :=
  _ ← step "write temporary receipt: ";
  _ ← step "publish receipt: ";
  there ← wget (λ s, bool_decide (is_Some (dir s !! name)));
  if there : bool then wfail "already exists"
  else
    _ ← wset (λ s, set_dir (<[name := bytes]> (dir s)) s);
    step "fsync receipt directory: ".
Definition atomic_replace_status (st : DrainStatus) : Work string unit :=
  _ ← step "write temporary diagnostic: ";
  _ ← step "publish diagnostic: ";
  _ ← wset (set_status st);
  step "fsync receipt directory: ".
Definition ensure_private_dir : Work string unit := step "create receipt directory: ".

Record ClaimedReceipt := { claim_bytes : list byte; original_name : string; claim_name : string; claim_ino : N }.
Definition claim_receipt (name : string) : Work string ClaimedReceipt :=
  _ ← step "open receipt safely: ";
  n ← wget (λ s, receipts s !! name);
  match n with
  | None => wfail "open receipt safely: not found"
  | Some n =>
      if is_private n then mret {| claim_bytes := content_of (ino n); original_name := default name (claimed_original_name name);
                                   claim_name := name; claim_ino := ino n |}
      else wfail "receipt ownership, type, or mode is unsafe"
  end.
Definition claimed (c : ClaimedReceipt) : result string ReceiptV1 :=
  map_err (λ e, "parse receipt: " +:+ e) (receipt_from_slice (claim_bytes c)).
Definition remove_if_unchanged (c : ClaimedReceipt) : Work string unit :=
  _ ← step "revalidate claimed receipt: ";
  n ← wget (λ s, receipts s !! claim_name c);
  match n with
  | None => wfail "revalidate claimed receipt: not found"
  | Some n =>
      if decide (ino n ≠ claim_ino c) then wfail "claimed receipt was replaced; retained for recovery"
      else
        _ ← wmap_err (λ w, "remove claimed receipt: " +:+ w) call_alone;
        _ ← wset (unlink (claim_name c) (content_of (ino n)));
        step "fsync receipt directory: "
  end.

(** Publication, with the inode the new file gets. *)
Definition publish (new_ino : N) (r : ReceiptV1) : Work string unit :=
  if negb (receipt_identity r) then wfail "invalid receipt identity"
  else
    let name := receipt_id r +:+ ".json" in
    _ ← ensure_private_dir;
    _ ← step "write temporary receipt: ";
    _ ← step "publish receipt: ";
    there ← wget (λ s, bool_decide (is_Some (receipts s !! name)));
    if there : bool then
      b ← read_receipt_bytes name;
      if decide (b = receipt_to_vec r) then mret tt else wfail "receipt id collision has different immutable bytes"
    else
      _ ← wset (λ s, set_receipts (<[name := {| ino := new_ino; is_private := true |}]> (receipts s)) s);
      step "fsync receipt directory: ".

(** * The log *)

Context (log_path : string).
Definition io_error (action e : string) : PorcelainError := PorcelainError_new "io" (action +:+ " " +:+ log_path +:+ ": " +:+ e)
  "check the --log path exists and is readable/writable".
Definition load_event_log : Work PorcelainError EventLog :=
  _ ← wmap_err (io_error "read log") call;
  log ← wget disk_log;
  wlift (load_verified log_path (records log)).

(** The bytes of the whole log replace the file; an error after that leaves the new
    file. *)
Definition write_log (log : EventLog) : Work string unit :=
  _ ← step ("write temp file " +:+ log_path +:+ ": ");
  _ ← wset (set_disk_log log);
  step "fsync parent directory: ".

(** ** The legacy prefix *)

Definition value_from_slice (b : list byte) : option Value := from_utf8 b ≫= from_str.
Definition prefix_digest (v : Value) : option string := value_get v "migration" ≫= λ m, field_str m "legacy_prefix_sha256".
Definition prefix_payload (digest : string) : string := to_string (json_object [("legacy_prefix_sha256", Str digest)]).
Definition recovered_metadata (digest : string) : Value := json_object
  [("version", Number (PosInt 1));
   ("migration", json_object [("legacy_source", Null); ("legacy_prefix_sha256", Str digest)])].

Definition bound_prefix (digest : string) (first : EventRecord) : bool :=
  bool_decide (kind first = LEGACY_PREFIX_KIND)
  && bool_decide ((from_str (payload first) ≫= λ v, field_str v "legacy_prefix_sha256") = Some digest).
Definition deny_debug (r : DenyReason) : string :=
  match r with
  | UnrecognizedPrincipal => "UnrecognizedPrincipal"
  | NotPermitted c => "NotPermitted { class: " +:+ (match c with Human => "Human" | Orchestrator => "Orchestrator" | Worker => "Worker" | Model => "Model" end) +:+ " }"
  end.

(** Append the prefix to an empty log, or find it in front. *)
Definition bind_prefix (digest : string) (log : EventLog) : result string EventLog :=
  match records log with
  | [] =>
      match append_authorized log Orchestrator Push LEGACY_PREFIX_KIND ["orchestrator:hugit-runtime"] (prefix_payload digest) 0 with
      | (_, Err d) => Err ("prefix authorization denied: " +:+ deny_debug (denied_reason d))
      | (log, Ok _) => Ok log
      end
  | first :: _ =>
      if bound_prefix digest first then Ok log else Err "canonical log lacks immutable legacy-prefix binding"
  end.
Definition bind_legacy_prefix (log : EventLog) : Work string EventLog :=
  snap ← wget snapshot;
  meta ← wget metadata;
  match snap, meta with
  | None, None => mret log
  | _, _ =>
      m ← match meta with
          | Some b =>
              _ ← step "read runtime metadata: ";
              match value_from_slice b with Some v => mret v | None => wfail "runtime metadata is invalid" end
          | None =>
              _ ← step "read immutable legacy snapshot: ";
              mret (recovered_metadata (sha256_hex (default [] snap)))
          end;
      match prefix_digest m with
      | None => mret log
      | Some expected =>
          _ ← step "read immutable legacy snapshot: ";
          match snap with
          | None => wfail "read immutable legacy snapshot: not found"
          | Some b =>
              match records_from_slice b ≫= λ rs, match load_verified "legacy-log.json" rs with Ok l => Some l | Err _ => None end with
              | None => wfail "legacy snapshot chain is invalid"
              | Some _ =>
                  let digest := sha256_hex b in
                  if decide (expected ≠ digest) then wfail "runtime metadata does not bind immutable legacy snapshot"
                  else
                    _ ← match meta with
                        | Some _ => mret tt
                        | None =>
                            _ ← step "persist recovered runtime metadata: ";
                            wset (set_metadata (as_bytes (to_string m)))
                        end;
                    wlift (bind_prefix digest log)
              end
          end
      end
  end.

(** * One receipt *)

Definition record_receipt_id (r : EventRecord) : option string := from_str (payload r) ≫= λ v, field_str v "receipt_id".
Definition is_duplicate (log : EventLog) (id : string) : bool :=
  existsb (λ r, bool_decide (record_receipt_id r = Some id)) (records log).

(** [payload[key] = value]: [None] is the panic on anything but an object or
    null. *)
Definition value_set (v : Value) (k : string) (x : Value) : option Value :=
  match v with
  | Object m => Some (Object (obj_insert k x m))
  | Null => Some (Object [(k, x)])
  | _ => None
  end.
Definition STRUCTURAL_KEYS : list string := ["target"; "from"; "to"; "old"; "new"; "ref"; "branch"; "shas"; "merged_from"].
Definition structural_step (raw : Value) (payload : option Value) (key : string) : option Value :=
  p ← payload;
  match field_str raw key with Some value => value_set p key (Str (structural_secret_scrub value)) | None => Some p end.
Definition capture_payload (r : ReceiptV1) : option Value :=
  p ← foldl (structural_step (rc_payload r)) (Some (scrub_payload (rc_payload r))) STRUCTURAL_KEYS;
  value_set p "receipt_id" (Str (receipt_id r)).
Definition canonical_text (v : Value) : string := default (to_string v) (canonical_json (to_string v)).

Definition drain_one (c : ClaimedReceipt) (expected_repo_id : string) : Work DrainError unit :=
  r ← wlift (map_err Invalid (claimed c));
  if negb (rc_version r =? 1) || bool_decide (repo_id r ≠ expected_repo_id) || negb (valid_repo_id (repo_id r))
     || negb (valid_repo_id (invocation_id r)) || bool_decide (receipt_id r ≠ receipt_id_of (repo_id r) (invocation_id r))
     || bool_decide (original_name c ≠ receipt_id r +:+ ".json")
  then wfail (Invalid "invalid receipt identity")
  else
    log ← wmap_err (λ e, Retry (to_json e)) load_event_log;
    log ← wmap_err Retry (bind_legacy_prefix log);
    if is_duplicate log (receipt_id r) then mret tt
    else
      match capture_payload r with
      | None => panic
      | Some p =>
          match append_authorized log Orchestrator Push (rc_kind r) [structural_secret_scrub (rc_principal r)] (canonical_text p)
                  (rc_recorded_at r) with
          | (_, Err d) => wfail (Invalid ("authz denied: " +:+ deny_debug (denied_reason d)))
          | (log, Ok _) => wmap_err Retry (write_log log)
          end
      end.

(** ** Dead letters *)

Definition letter_of (c : ClaimedReceipt) (reason : string) : DeadLetterV1 := {|
  dl_version := 1; dl_receipt_sha256 := sha256_hex (claim_bytes c); dl_reason := scrub reason;
  dl_receipt := match claimed c with
    | Ok r => Parsed (rc_version r) (structural_secret_scrub (repo_id r)) (structural_secret_scrub (invocation_id r))
        (structural_secret_scrub (receipt_id r)) (structural_secret_scrub (rc_kind r)) (structural_secret_scrub (rc_principal r))
        (structural_scrub_json (scrub_payload (rc_payload r))) (rc_recorded_at r)
    | Err e => InvalidJson (N.of_nat (length (claim_bytes c))) (scrub e)
    end |}.
Definition dead_letter_name (c : ClaimedReceipt) : string :=
  if match strip_suffix (original_name c) ".json" with Some stem => valid_repo_id stem | None => false end
  then original_name c else sha256_hex (claim_bytes c) +:+ ".json".

(** [write_immutable] and the marker are created alike: a file that is there must
    hold the same bytes. *)
Definition create_same (dir : Runtime → gmap string (list byte)) (set_dir : gmap string (list byte) → Runtime → Runtime)
    (collision failure name : string) (bytes : list byte) : Work string unit :=
  r ← attempt (atomic_create_immutable dir set_dir name bytes);
  match r with
  | Ok _ => mret tt
  | Err e =>
      if decide (e = "already exists") then
        b ← read_bytes_in dir name;
        if decide (b = bytes) then mret tt else wfail collision
      else wfail (failure +:+ e)
  end.
Definition dead_letter (c : ClaimedReceipt) (reason : string) : Work string unit :=
  _ ← ensure_private_dir;
  create_same dead set_dead "dead-letter id collision has different immutable bytes" "create dead letter: "
    (dead_letter_name c) (letter_to_vec (letter_of c reason)).

(** ** Completion *)

Definition marker_bytes (id : string) (receipt_bytes : list byte) : list byte :=
  marker_to_vec {| mk_version := 1; mk_receipt_id := id; mk_receipt_sha256 := sha256_hex receipt_bytes |}.
Definition marker_matches (marker : list byte) (id : string) (receipt_bytes : list byte) : bool :=
  bool_decide (marker = marker_bytes id receipt_bytes).
Definition mark_completed (c : ClaimedReceipt) : Work string unit :=
  r ← wlift (claimed c);
  create_same completed set_completed "completed receipt id collision has different immutable bytes" "mark receipt complete: "
    (receipt_id r +:+ ".done") (marker_bytes (receipt_id r) (claim_bytes c)).

Definition completed_name (name : string) : option string := (λ id, id +:+ ".done") <$> strip_suffix name ".json".
Definition is_completed (name : string) : Work string bool :=
  match completed_name name with
  | None => mret false
  | Some done_ =>
      b ← attempt (E := string) (read_receipt_bytes name);
      match b with
      | Err _ => mret false
      | Ok b =>
          match receipt_from_slice b with
          | Err _ => mret false
          | Ok r =>
              if negb (receipt_identity r) || bool_decide (done_ ≠ receipt_id r +:+ ".done") then mret false
              else
                m ← attempt (E := string) (read_bytes_in completed done_);
                mret (marker_matches (match m with Ok m => m | Err _ => [] end) (receipt_id r) b)
          end
      end
  end.

Definition remove_immutable_if_matches (name : string) (expected : list byte) : Work string unit :=
  b ← read_bytes_in completed name;
  if decide (b ≠ expected) then wfail "completed receipt marker was replaced; retained for recovery"
  else
    _ ← step "open receipt safely: ";
    _ ← step "remove completion marker: ";
    _ ← wset (λ s, set_completed (delete name (completed s)) s);
    step "fsync completed receipt directory: ".

(** The names a directory listing gives: some of them, in any order. *)
Context (listing : list string → list string).
Definition names_in {A} (dir : gmap string A) : list string := listing (map_to_list dir).*1.

(** The receipt of a marker: removed where its bytes are the marker's. *)
Definition cleanup_source (id : string) (marker : list byte) (c : result string ClaimedReceipt) : Work string unit :=
  match c with
  | Ok c =>
      if bool_decide (original_name c = id +:+ ".json")
         && match claimed c with Ok r => bool_decide (receipt_id r = id) | Err _ => false end
         && marker_matches marker id (claim_bytes c)
      then remove_if_unchanged c else mret tt
  | Err _ => mret tt
  end.
Definition cleanup_one (marker_name : string) : Work string unit :=
  marker ← read_bytes_in completed marker_name;
  match strip_suffix marker_name ".done" with
  | None => mret tt
  | Some id =>
      c ← attempt (E := string) (claim_receipt (id +:+ ".json"));
      _ ← cleanup_source id marker c;
      remove_immutable_if_matches marker_name marker
  end.
Fixpoint each {A} (f : A → Work string unit) (l : list A) : Work string unit :=
  match l with [] => mret tt | x :: l => _ ← f x; each f l end.
(** The extension is [done]; a name that is all extension has none. *)
Definition is_marker_name (n : string) : bool := ends_with n ".done" && negb (bool_decide (n = ".done")).
Definition cleanup_completed : Work string unit :=
  _ ← step "read completed receipts: ";
  names ← wget (λ s, take COMPLETION_CLEANUP_LIMIT (List.filter is_marker_name (names_in (completed s))));
  each cleanup_one names.

(** * The pairing of transactions *)

Definition transaction_of (r : EventRecord) : option Value := from_str (payload r) ≫= λ v, value_get v "reference_transaction".
Definition transaction_fingerprint (r : EventRecord) : option string := transaction_of r ≫= λ t, field_str t "fingerprint".
Definition count_phase (fp : string) (phases : list string) (rs : list EventRecord) : nat :=
  length (List.filter (λ r,
    match transaction_of r with
    | Some t => bool_decide (field_str t "fingerprint" = Some fp)
                && match field_str t "phase" with Some p => bool_decide (p ∈ phases) | None => false end
    | None => false
    end) rs).
Definition reference_transaction_pairing (rs : list EventRecord) (fp : string) : string :=
  match count_phase fp ["prepared"] rs, count_phase fp ["committed"; "aborted"] rs with
  | 1%nat, 1%nat => "paired"
  | 0%nat, 0%nat | 1%nat, 0%nat => "pending"
  | 0%nat, 1%nat => "unpaired"
  | _, _ => "ambiguous"
  end.
Definition sort_strings (l : list string) : list string := merge_sort String.le l.
Definition fingerprints (rs : list EventRecord) : list string := sort_strings (remove_dups (omap transaction_fingerprint rs)).
Definition sources_of (rs : list EventRecord) (fp : string) : list string :=
  sort_strings (omap (λ r, if decide (transaction_fingerprint r = Some fp) then record_receipt_id r else None) rs).
Definition projection_value (rs : list EventRecord) (fp : string) : Value := json_object
  [("fingerprint", Str fp); ("state", Str (reference_transaction_pairing rs fp));
   ("source_receipt_ids", Array (Str <$> sources_of rs fp))].
Definition reference_transaction_projections (rs : list EventRecord) : list Value := projection_value rs <$> fingerprints rs.

Definition pairing_text (projection : Value) : string :=
  canonical_text (json_object [("reference_transaction_pairing", projection)]).
(** The log in memory and the file, one projection after the other. *)
Fixpoint append_projections (log : EventLog) (ps : list Value) : Work string unit :=
  match ps with
  | [] => mret tt
  | p :: ps =>
      let text := pairing_text p in
      if existsb (λ r, bool_decide (payload r = text)) (records log) then append_projections log ps
      else
        match append_authorized log Orchestrator Push "ref.update" ["orchestrator:hugit-hook"] text 0 with
        | (_, Err d) => wfail ("append transaction pairing: " +:+ deny_debug (denied_reason d))
        | (log, Ok _) => _ ← write_log log; append_projections log ps
        end
  end.
Definition append_pairing_projection (log : EventLog) : Work string unit :=
  append_projections log (reference_transaction_projections (records log)).
Definition reconcile_pairing_projection : Work string unit :=
  log ← wmap_err to_json load_event_log;
  log ← bind_legacy_prefix log;
  append_pairing_projection log.

(** * The drain *)

Definition fail_with (st : DrainStatus) (c m : string) : DrainStatus := {|
  drained := drained st; pending := pending st; dead_letters := dead_letters st;
  last_error := Some {| code := c; message := m |} |}.
Definition count_drained (st : DrainStatus) : DrainStatus := {|
  drained := S (drained st); pending := pending st; dead_letters := dead_letters st; last_error := last_error st |}.

Definition drain_entry (expected_repo_id : string) (st : DrainStatus) (name : string) : Work string DrainStatus :=
  c ← attempt (E := string) (claim_receipt name);
  match c with
  | Err e => mret (fail_with st "receipt_claim_failed" e)
  | Ok c =>
      r ← attempt (E := DrainError) (drain_one c expected_repo_id);
      match r with
      | Ok _ =>
          m ← attempt (E := string) (mark_completed c);
          mret match m with Ok _ => count_drained st | Err e => fail_with st "drained_receipt_retained" e end
      | Err (Invalid reason) =>
          d ← attempt (E := string) (dead_letter c reason);
          match d with
          | Err e => mret (fail_with st "invalid_receipt_retained" e)
          | Ok _ =>
              x ← attempt (E := string) (remove_if_unchanged c);
              mret match x with Ok _ => st | Err e => fail_with st "dead_lettered_receipt_retained" e end
          end
      | Err (Retry reason) => mret (fail_with st "retryable_drain_failure" reason)
      end
  end.
Fixpoint drain_entries (expected_repo_id : string) (st : DrainStatus) (names : list string) : Work string DrainStatus :=
  match names with
  | [] => mret st
  | n :: names => st ← drain_entry expected_repo_id st n; drain_entries expected_repo_id st names
  end.
(** The entries that are not complete. *)
Fixpoint incomplete (names : list string) : Work string (list string) :=
  match names with
  | [] => mret []
  | n :: names => b ← is_completed n; ns ← incomplete names; mret (if b : bool then ns else n :: ns)
  end.

Definition write_current_status (st : DrainStatus) : Work string DrainStatus :=
  _ ← step "read receipts: ";
  names ← wget (λ s, List.filter is_receipt_entry (names_in (receipts s)));
  waiting ← incomplete names;
  _ ← step "read dead letters: ";
  letters ← wget (λ s, length (List.filter is_receipt_entry (names_in (dead s))));
  let st := {| drained := drained st; pending := length waiting; dead_letters := letters; last_error := last_error st |} in
  _ ← atomic_replace_status st;
  mret st.

Fixpoint acquire_drain_lock (attempts : nat) (last : string) : Work string unit :=
  match attempts with
  | O => wfail ("canonical log busy: " +:+ last)
  | S attempts =>
      r ← attempt (E := string) call;
      match r with Ok _ => mret tt | Err e => acquire_drain_lock attempts e end
  end.

Definition drain (repository_id : string) (limit : nat) : Work string DrainStatus :=
  _ ← step "prepare runtime log: ";
  _ ← ensure_private_dir; _ ← ensure_private_dir; _ ← ensure_private_dir; _ ← ensure_private_dir;
  lock ← attempt (E := string) (acquire_drain_lock LOCK_ATTEMPTS EmptyString);
  match lock with
  | Err e => write_current_status (fail_with DrainStatus_default "log_busy" e)
  | Ok _ =>
      _ ← cleanup_completed;
      _ ← step "read receipts: ";
      names ← wget (λ s, List.filter is_receipt_entry (names_in (receipts s)));
      waiting ← incomplete names;
      let paths := sort_strings waiting in
      _ ← step "read repository id: ";
      st ← drain_entries repository_id DrainStatus_default (take limit paths);
      _ ← reconcile_pairing_projection;
      _ ← cleanup_completed;
      write_current_status st
  end.

(** * What every step keeps *)

Definition receipt_ids (log : EventLog) : list string := omap record_receipt_id (records log).
Definition logged (log : EventLog) (id : string) : Prop := id ∈ receipt_ids log.

(** A kind the drain appends under. *)
Definition drained_kind (k : string) : Prop :=
  k ∈ [LEGACY_PREFIX_KIND; "ref.update"] ∨ ∃ i r, receipt_from_slice (content_of i) = Ok r ∧ rc_kind r = k.
(** The log grows by events of these kinds; none repeats a receipt. *)
Inductive grows (log : EventLog) : EventLog → Prop :=
| grows_nil : grows log log
| grows_snoc log' k pc p at_ : grows log log' → drained_kind k →
    (∀ id, record_receipt_id (next_record log' k pc p at_) = Some id → ¬ logged log' id) →
    grows log (append log' k pc p at_).1.

Lemma grows_trans log log1 log2 : grows log log1 → grows log1 log2 → grows log log2.
Proof. intros Ha Hb. induction Hb; [done|]. by constructor. Qed.

Lemma receipt_ids_append log k pc p at_ :
  receipt_ids (append log k pc p at_).1
  = receipt_ids log ++ (match record_receipt_id (next_record log k pc p at_) with Some id => [id] | None => [] end).
Proof. unfold receipt_ids. rewrite append_records, omap_app. simpl. by destruct (record_receipt_id _). Qed.
Lemma grows_ids log log' : grows log log' → ∃ new, receipt_ids log' = receipt_ids log ++ new ∧ NoDup new ∧
  (∀ id, id ∈ new → ¬ logged log id).
Proof.
  induction 1 as [|log' k pc p at_ _ (new & Hn & Hnd & Hf) _ Hid]; [exists []; rewrite app_nil_r; split_and!; [done|constructor|set_solver]|].
  rewrite receipt_ids_append, Hn. destruct (record_receipt_id (next_record log' k pc p at_)) as [id|] eqn:E.
  - exists (new ++ [id]). rewrite (assoc_L (++)). specialize (Hid id eq_refl). unfold logged in Hid. rewrite Hn in Hid.
    split_and!; [done| |].
    + apply NoDup_app. split_and!; [done|set_solver|apply NoDup_singleton].
    + intros id' [Hi|Hi]%elem_of_app; [by apply Hf|]. apply list_elem_of_singleton in Hi as ->. unfold logged. set_solver.
  - exists new. rewrite app_nil_r. done.
Qed.
Lemma grows_logged log log' id : grows log log' → logged log id → logged log' id.
Proof. intros (new & Hn & _)%grows_ids. unfold logged. rewrite Hn. set_solver. Qed.
Lemma grows_prefix log log' : grows log log' → records log `prefix_of` records log'.
Proof. induction 1; [done|]. rewrite append_records. by apply prefix_app_r. Qed.
Lemma grows_intact log log' : (∀ i r, receipt_from_slice (content_of i) = Ok r → rc_kind r ≠ PROVENANCE_REDACTION_KIND) →
  grows log log' → intact (records log) → intact (records log').
Proof.
  intros Hk. induction 1 as [|log' k pc p at_ _ IH Hd _]; [done|]. intros Hi. apply intact_append; [|by apply IH].
  destruct Hd as [Hd|(i & r & Hr & <-)]; [set_solver|by eapply Hk].
Qed.

(** The bytes of a receipt are settled when its event is in the log or a letter is
    kept. *)
Definition settled (s : Runtime) (b : list byte) : Prop :=
  (∃ r, receipt_from_slice b = Ok r ∧ logged (disk_log s) (receipt_id r)) ∨
  (∃ name l, dead s !! name = Some (letter_to_vec l) ∧ dl_receipt_sha256 l = sha256_hex b).
(** A marker that binds a receipt says its event is in the log. *)
Definition honest (s : Runtime) : Prop :=
  ∀ id b, completed s !! (id +:+ ".done") = Some (marker_bytes id b) → logged (disk_log s) id.

Definition good (s s' : Runtime) : Prop :=
  grows (disk_log s) (disk_log s') ∧ dead s ⊆ dead s' ∧
  ∃ rm, removed s' = removed s ++ rm ∧ Forall (λ x, settled s' x.2) rm.

Lemma settled_mono s s' b : grows (disk_log s) (disk_log s') → dead s ⊆ dead s' → settled s b → settled s' b.
Proof.
  intros Hg Hd [(r & Hr & Hl)|(n & l & Hn & Hs)]; [left|right].
  - exists r. split; [done|by eapply grows_logged].
  - exists n, l. split; [by eapply lookup_weaken|done].
Qed.
#[local] Instance good_preorder : PreOrder good.
Proof.
  split.
  - intros s. split_and!; [constructor|done|exists []; by rewrite app_nil_r].
  - intros a b c (G1 & D1 & rm1 & R1 & S1) (G2 & D2 & rm2 & R2 & S2).
    split_and!; [by eapply grows_trans|by etrans|]. exists (rm1 ++ rm2). rewrite R2, R1, (assoc_L (++)). split; [done|].
    apply Forall_app. split; [|done]. eapply Forall_impl; [exact S1|]. intros x. by apply settled_mono.
Qed.

Definition keeps {E A} (m : Work E A) : Prop := ∀ s s' r, m s = (s', r) → honest s → good s s' ∧ honest s'.
(** A computation that touches only what the invariants do not read. *)
Definition same (s s' : Runtime) : Prop :=
  disk_log s' = disk_log s ∧ dead s' = dead s ∧ removed s' = removed s ∧ completed s' = completed s.
#[local] Instance same_preorder : PreOrder same.
Proof. split; [by intros ?|]. intros a b c (? & ? & ? & ?) (? & ? & ? & ?). split_and!; congruence. Qed.
#[local] Abbreviation quiet := (within same).
Lemma same_good s s' : same s s' → good s s' ∧ (honest s → honest s').
Proof.
  intros (Hl & Hd & Hr & Hc). unfold honest. rewrite Hc, Hl. split; [|done]. unfold good. rewrite Hl, Hd, Hr.
  split_and!; [constructor|done|exists []; by rewrite app_nil_r].
Qed.
Lemma quiet_keeps {E A} (m : Work E A) : quiet m → keeps m.
Proof. intros Hq s s' r Hm Hh. apply Hq, same_good in Hm as [Hg Hh']. split; [done|by apply Hh']. Qed.

Lemma keeps_bind {E A B} (m : Work E A) (k : A → Work E B) : keeps m → (∀ a, keeps (k a)) → keeps (m ≫= k).
Proof.
  intros Hm Hk s s' r. rewrite bind_run. destruct (m s) as [s1 [[a|e]|]] eqn:E1; intros Hr Hh.
  - destruct (Hm _ _ _ E1 Hh) as [Hg1 Hh1], (Hk a _ _ _ Hr Hh1) as [Hg2 Hh2]. split; [by etrans|done].
  - inv_eqs. by eapply Hm.
  - inv_eqs. by eapply Hm.
Qed.
Lemma keeps_attempt {E F A} (m : Work E A) : keeps m → keeps (attempt (F := F) m).
Proof. unfold attempt. intros Hm s s' r. destruct (m s) as [s1 [[a|e]|]] eqn:E1; intros; inv_eqs; by eapply Hm. Qed.
Lemma quiet_call : quiet call.
Proof. apply within_call. intros s. unfold next_event. destruct (script s); by split_and!. Qed.
Lemma quiet_call_alone : quiet call_alone.
Proof. apply within_call. intros s. unfold next_alone. destruct (script s); by split_and!. Qed.
Lemma quiet_step m : quiet (step m).
Proof. apply within_map, quiet_call. Qed.
Lemma quiet_status st : quiet (wset (set_status st) : Work string unit).
Proof. by apply within_set. Qed.
Lemma quiet_metadata b : quiet (wset (set_metadata b) : Work string unit).
Proof. by apply within_set. Qed.
#[local] Hint Resolve quiet_call quiet_call_alone quiet_step quiet_status quiet_metadata : drain.
(** Through a computation made of quiet parts. *)
Ltac quietly := repeat first [apply within_bind; [apply _| |intros ?] | progress auto with calls drain typeclass_instances | case_match].

Lemma quiet_read name : quiet (read_receipt_bytes name).
Proof. unfold read_receipt_bytes. quietly. Qed.
Lemma quiet_read_in dir name : quiet (read_bytes_in dir name).
Proof. unfold read_bytes_in. quietly. Qed.
Lemma quiet_claim name : quiet (claim_receipt name).
Proof. unfold claim_receipt. quietly. Qed.
#[local] Hint Resolve quiet_read quiet_read_in quiet_claim : drain.
Lemma quiet_load : quiet load_event_log.
Proof. unfold load_event_log. quietly. Qed.
Lemma quiet_bind_prefix log : quiet (bind_legacy_prefix log).
Proof. unfold bind_legacy_prefix. quietly. Qed.
Lemma quiet_is_completed name : quiet (is_completed name).
Proof. unfold is_completed. quietly. Qed.
#[local] Hint Resolve quiet_load quiet_bind_prefix quiet_is_completed : drain.
Lemma quiet_incomplete names : quiet (incomplete names).
Proof. induction names; cbn [incomplete]; quietly. Qed.
#[local] Hint Resolve quiet_incomplete : drain.
Lemma quiet_write_status st : quiet (write_current_status st).
Proof. unfold write_current_status, atomic_replace_status. quietly. Qed.
Lemma quiet_lock n last : quiet (acquire_drain_lock n last).
Proof. revert last. induction n as [|n IH]; intros last; cbn [acquire_drain_lock]; quietly. Qed.
#[local] Hint Resolve quiet_write_status quiet_lock : drain.

(** * The event of a receipt *)

Lemma load_event_log_spec s s' log : load_event_log s = (s', Some (Ok log)) → log = disk_log s ∧ same s s'.
Proof.
  intros Hl. pose proof (quiet_load _ _ _ Hl) as Hs. revert Hl. unfold load_event_log. rewrite bind_run.
  destruct (wmap_err _ _ s) as [s1 [[[]|e]|]] eqn:E1; [|done..]. rewrite bind_run. cbn [wget]. intros [= <- Hlog].
  apply loaded in Hlog as [Hlog _]. split; [|done]. destruct Hs as (Hs & _). rewrite Hs in Hlog.
  destruct log, (disk_log s). cbn in Hlog. by subst.
Qed.

(** What the prefix adds is no receipt. *)
Definition binds (log log' : EventLog) : Prop := grows log log' ∧ receipt_ids log' = receipt_ids log.
Lemma prefix_no_receipt log digest : record_receipt_id
  (next_record log LEGACY_PREFIX_KIND ["orchestrator:hugit-runtime"] (prefix_payload digest) 0) = None.
Proof.
  unfold record_receipt_id. cbn [payload next_record]. unfold prefix_payload. rewrite from_str_to_string; [reflexivity|].
  apply plain_object. by repeat constructor.
Qed.
Lemma append_orchestrator log k pc p at_ :
  append_authorized log Orchestrator Push k pc p at_ = ((append log k pc p at_).1, Ok (append log k pc p at_).2).
Proof. reflexivity. Qed.
Lemma bind_prefix_binds digest log log' : bind_prefix digest log = Ok log' → binds log log'.
Proof.
  unfold bind_prefix. destruct (records log) as [|first rest] eqn:El.
  - rewrite append_orchestrator. intros Hb.
    assert (log' = (append log LEGACY_PREFIX_KIND ["orchestrator:hugit-runtime"] (prefix_payload digest) 0).1) as -> by congruence.
    split.
    + apply (grows_snoc log log); [constructor|left; set_solver|]. intros id. by rewrite prefix_no_receipt.
    + by rewrite (receipt_ids_append log), prefix_no_receipt, app_nil_r.
  - case_match; [|done]. intros [= <-]. split; [constructor|done].
Qed.
Lemma bind_legacy_prefix_spec log s s' log' : bind_legacy_prefix log s = (s', Some (Ok log')) → binds log log'.
Proof.
  assert (binds log log) as Hrefl by (split; [constructor|done]).
  unfold bind_legacy_prefix. rewrite bind_run. cbn [wget]. rewrite bind_run. cbn [wget].
  destruct (snapshot s) as [b|], (metadata s) as [b'|]; [| | |by intros [= <- <-]];
    intros (s1 & m & _ & Hr)%bind_ok; (destruct (prefix_digest m); [|by injection Hr as _ <-]);
    apply bind_ok in Hr as (s2 & _ & _ & Hr); try done;
    (destruct (records_from_slice b ≫= _); [|done]); (case_decide; [done|]);
    apply bind_ok in Hr as (s3 & _ & _ & Hr); injection Hr as _ Hr; by eapply bind_prefix_binds.
Qed.

Lemma value_set_spec v k x v' : value_set v k x = Some v' → plain v = true → plain x = true →
  plain v' = true ∧ value_get v' k = Some x.
Proof.
  unfold value_set. intros Hs Hv Hx. destruct v; try done; injection Hs as <-.
  - split; [|cbn; by rewrite decide_True]. apply (plain_object [(k, x)]). by repeat constructor.
  - split; [|cbn; apply obj_get_insert_eq]. unfold plain in Hv. apply andb_true_iff in Hv as [Hs Hu]. cbn in Hs, Hu.
    apply bool_decide_andb_true in Hs as [Hm Hs]. rewrite forallb_Forall_true in Hs, Hu.
    apply plain_members; [by apply obj_sorted_insert|].
    apply (Forall_snd_obj_insert (λ v, plain v = true)); [done|]. unfold plain.
    rewrite Forall_forall in Hs, Hu |- *. intros kv Hkv. by rewrite (Hs kv Hkv), (Hu kv Hkv).
Qed.
Lemma structural_steps_plain raw keys p p' : foldl (structural_step raw) (Some p) keys = Some p' → plain p = true → plain p' = true.
Proof.
  revert p. induction keys as [|k keys IH]; intros p; cbn [foldl]; [by intros [= <-]|].
  unfold structural_step at 2. cbn [mbind option_bind]. destruct (field_str raw k) as [v|]; [|apply IH].
  destruct (value_set p k _) as [q|] eqn:E; [|intros Hf; exfalso; clear -Hf; by induction keys].
  intros Hf Hp. eapply IH; [exact Hf|]. by eapply value_set_spec in E as [? _].
Qed.
Lemma capture_payload_spec r p : plain (rc_payload r) = true → capture_payload r = Some p →
  plain p = true ∧ field_str p "receipt_id" = Some (receipt_id r).
Proof.
  intros Hr. unfold capture_payload. destruct (foldl _ _ _) as [q|] eqn:E; [|done]. cbn [mbind option_bind]. intros Hv.
  apply value_set_spec in Hv as [Hp Hg]; [|eapply structural_steps_plain; [exact E|by apply scrub_value_plain]|done].
  split; [done|]. unfold field_str. by rewrite Hg.
Qed.
Lemma canonical_text_read p : plain p = true → from_str (canonical_text p) = Some p.
Proof.
  intros Hp. unfold canonical_text, canonical_json. rewrite from_str_to_string by done. cbn.
  pose proof Hp as Hs. unfold plain in Hs. apply andb_true_iff in Hs as [Hs _].
  rewrite canonicalize_sorted_id by done. by apply from_str_to_string.
Qed.

Lemma is_duplicate_spec log id : is_duplicate log id = true ↔ logged log id.
Proof.
  unfold is_duplicate, logged, receipt_ids. rewrite existsb_exists, list_elem_of_omap.
  setoid_rewrite bool_decide_eq_true. by setoid_rewrite list_elem_of_In.
Qed.

Lemma write_log_spec log s s' r : write_log log s = (s', r) →
  dead s' = dead s ∧ removed s' = removed s ∧ completed s' = completed s ∧
  (disk_log s' = disk_log s ∧ r ≠ Some (Ok tt) ∨ disk_log s' = log).
Proof.
  unfold write_log. rewrite bind_run. destruct (step _ s) as [s1 [[[]|e]|]] eqn:E1; apply quiet_step in E1 as (Hl & Hd & Hr & Hc).
  - rewrite bind_run. cbn [wset]. intros E2%quiet_step. destruct E2 as (Hl2 & Hd2 & Hr2 & Hc2). cbn in *.
    split_and!; [congruence..|by right].
  - intros [= <- <-]. split_and!; [done..|left; by split].
  - intros [= <- <-]. split_and!; [done..|left; by split].
Qed.

(** The receipts carry unsigned numbers only, as the hooks write them. *)
Context (unsigned : ∀ i r, receipt_from_slice (content_of i) = Ok r → only_u64 (rc_payload r) = true).

(** A claim holds the bytes of its inode. *)
Definition from_inode (c : ClaimedReceipt) : Prop := claim_bytes c = content_of (claim_ino c).
Lemma claimed_Ok c r : claimed c = Ok r → receipt_from_slice (claim_bytes c) = Ok r.
Proof. unfold claimed. by destruct (receipt_from_slice _); intros; inv_eqs. Qed.
Lemma claimed_plain c r : from_inode c → claimed c = Ok r → plain (rc_payload r) = true.
Proof.
  intros Hi Hr%claimed_Ok. unfold plain. rewrite (parsed_sorted _ _ Hr). rewrite Hi in Hr. by rewrite (unsigned _ _ Hr).
Qed.
Lemma claim_receipt_spec name s s' c : claim_receipt name s = (s', Some (Ok c)) → from_inode c ∧ claim_name c = name.
Proof.
  unfold claim_receipt. intros (s1 & _ & _ & Hr)%bind_ok. apply bind_ok in Hr as (s2 & n & _ & Hr).
  destruct n as [n|]; [|done]. destruct (is_private n); [|done]. by injection Hr as _ <-.
Qed.

Lemma good_log s s' : grows (disk_log s) (disk_log s') → dead s' = dead s → removed s' = removed s → good s s'.
Proof. intros Hg Hd Hr. unfold good. rewrite Hd, Hr. split_and!; [done|done|exists []; by rewrite app_nil_r]. Qed.
Lemma honest_log s s' : grows (disk_log s) (disk_log s') → completed s' = completed s → honest s → honest s'.
Proof. intros Hg Hc Hh id b. rewrite Hc. intros Hm. eapply grows_logged; [done|]. by eapply Hh. Qed.

(** Appending to a log grown silently from the file. *)
Lemma write_keeps base log k pc p at_ s s' r : disk_log s = base → binds base log → drained_kind k →
  (∀ id, record_receipt_id (next_record log k pc p at_) = Some id → ¬ logged log id) →
  write_log (append log k pc p at_).1 s = (s', r) → honest s → good s s' ∧ honest s'.
Proof.
  intros Hb [Hg _] Hk Hid (Hd & Hr & Hc & Hl)%write_log_spec Hh.
  assert (grows (disk_log s) (disk_log s')) as Hgs.
  { destruct Hl as [[Hl _]|Hl]; rewrite Hl; [constructor|]. rewrite Hb. by constructor. }
  split; [by apply good_log|by eapply honest_log].
Qed.

Lemma drain_one_spec c repo s s' r : from_inode c → drain_one c repo s = (s', r) → honest s →
  (good s s' ∧ honest s') ∧ (r = Some (Ok tt) → settled s' (claim_bytes c) ∧ ∃ rc, claimed c = Ok rc ∧ logged (disk_log s') (receipt_id rc)).
Proof.
  intros Hi. unfold drain_one. destruct (claimed c) as [rc|e] eqn:Hc.
  2:{ intros [= <- <-] Hh. split; [split; [reflexivity|done]|done]. }
  rewrite bind_run. cbn [wlift map_err]. case_match; [intros [= <- <-] Hh; split; [split; [reflexivity|done]|done]|].
  rewrite bind_run. unfold wmap_err at 1. destruct (load_event_log s) as [s1 [[log|e]|]] eqn:E1;
    [|intros [= <- <-] Hh; apply quiet_load, same_good in E1 as [Hg Hh']; split; [split; [done|by apply Hh']|done]..].
  apply load_event_log_spec in E1 as [-> Hs1].
  rewrite bind_run. unfold wmap_err at 1. destruct (bind_legacy_prefix (disk_log s) s1) as [s2 [[log|e]|]] eqn:E2;
    [|intros [= <- <-] Hh; apply quiet_bind_prefix in E2; assert (same s s2) as [Hg Hh']%same_good by (by etrans);
      split; [split; [done|by apply Hh']|done]..].
  pose proof (quiet_bind_prefix _ _ _ _ E2) as Hs2. assert (same s s2) as Hs by (by etrans).
  apply bind_legacy_prefix_spec in E2 as Hbind.
  assert (∀ s', logged (disk_log s') (receipt_id rc) → settled s' (claim_bytes c) ∧ ∃ rc', Ok (E := string) rc = Ok rc' ∧ logged (disk_log s') (receipt_id rc')) as Hset.
  { intros sx Hl. split; [|by exists rc]. left. exists rc. split; [by apply claimed_Ok|done]. }
  destruct (is_duplicate log (receipt_id rc)) eqn:Edup.
  - intros [= <- <-] Hh. apply same_good in Hs as HH. destruct HH as [Hg Hh']. split; [split; [done|by apply Hh']|]. intros _.
    apply is_duplicate_spec in Edup. unfold logged in Edup. destruct Hbind as [_ Hids]. rewrite Hids in Edup.
    destruct Hs as (Hl & _). apply Hset. unfold logged. by rewrite Hl.
  - destruct (capture_payload rc) as [p|] eqn:Ep;
      [|intros [= <- <-] Hh; apply same_good in Hs as [Hg Hh']; split; [split; [done|by apply Hh']|done]].
    apply capture_payload_spec in Ep as [Hp Hid]; [|by eapply claimed_plain]. rewrite append_orchestrator.
    set (pc := [structural_secret_scrub _]). set (text := canonical_text p).
    assert (record_receipt_id (next_record log (rc_kind rc) pc text (rc_recorded_at rc)) = Some (receipt_id rc)) as Hrec.
    { unfold record_receipt_id. cbn [payload next_record]. unfold text. by rewrite canonical_text_read. }
    assert (drained_kind (rc_kind rc)) as Hk.
    { right. exists (claim_ino c), rc. split; [|done]. rewrite <- Hi. by apply claimed_Ok. }
    assert (∀ id, record_receipt_id (next_record log (rc_kind rc) pc text (rc_recorded_at rc)) = Some id → ¬ logged log id) as Hfresh.
    { intros id. rewrite Hrec. intros [= <-] Hl%is_duplicate_spec. congruence. }
    unfold wmap_err. destruct (write_log _ s2) as [s3 r3] eqn:E3. intros Hr Hh.
    assert (good s s3 ∧ honest s3) as HH.
    { apply same_good in Hs as Hgh. destruct Hgh as [Hg Hh']. destruct Hs as (Hl & _).
      destruct (write_keeps (disk_log s) log (rc_kind rc) pc text (rc_recorded_at rc) s2 s3 r3 Hl Hbind Hk Hfresh E3 (Hh' Hh)) as [Hg3 Hh3].
      split; [by etrans|done]. }
    pose proof (write_log_spec _ _ _ _ E3) as (_ & _ & _ & Hw).
    destruct r3 as [[[]|e]|]; injection Hr as <- <-; (split; [exact HH|]); [|done..]. intros _.
    destruct Hw as [[_ Hw]|Hw]; [done|]. apply Hset. unfold logged. rewrite Hw, receipt_ids_append, Hrec. set_solver.
Qed.

Lemma create_spec dir set_dir name bytes s s' r :
  (∀ s s', same s s' → dir s' = dir s) → (∀ d s, dir (set_dir d s) = d) →
  atomic_create_immutable dir set_dir name bytes s = (s', r) →
  (same s s' ∧ r ≠ Some (Ok tt)) ∨
  ∃ s1 s2, same s s1 ∧ dir s !! name = None ∧ s2 = set_dir (<[name := bytes]> (dir s)) s1 ∧ same s2 s'.
Proof.
  intros Hsame Hset. unfold atomic_create_immutable. rewrite bind_run.
  destruct (step _ s) as [s1 [[[]|e]|]] eqn:E1; apply quiet_step in E1; [|intros [= <- <-]; by left..].
  rewrite bind_run. destruct (step _ s1) as [s2 [[[]|e]|]] eqn:E2; apply quiet_step in E2;
    [|intros [= <- <-]; left; (split; [by etrans|done])..].
  assert (same s s2) as Hs by by etrans. rewrite bind_run. cbn [wget]. rewrite (Hsame _ _ Hs).
  destruct (dir s !! name) eqn:Hn; cbn [is_Some bool_decide].
  - rewrite bool_decide_true by done. intros [= <- <-]. by left.
  - rewrite bool_decide_false by (by intros [? ?]). rewrite bind_run. cbn [wset]. rewrite (Hsame _ _ Hs).
    intros E3%quiet_step. right. exists s2. eexists. by split_and!.
Qed.

(** A file created once: nothing changes, or it appears; and it is there when the
    call succeeds. *)
Lemma create_same_spec dir set_dir collision failure name bytes s s' r :
  (∀ s s', same s s' → dir s' = dir s) → (∀ d s, dir (set_dir d s) = d) →
  create_same dir set_dir collision failure name bytes s = (s', r) →
  (same s s' ∧ (r = Some (Ok tt) → dir s !! name = Some bytes)) ∨
  ∃ s1 s2, same s s1 ∧ dir s !! name = None ∧ s2 = set_dir (<[name := bytes]> (dir s)) s1 ∧ same s2 s'.
Proof.
  intros Hsame Hset. unfold create_same. rewrite bind_run. unfold attempt at 1.
  destruct (atomic_create_immutable _ _ _ _ s) as [s1 [r1|]] eqn:E1; apply create_spec in E1; [|done|done| |done|done].
  - destruct r1 as [[]|e].
    + intros [= <- <-]. destruct E1 as [[_ E1]|E1]; [done|by right].
    + case_decide as He.
      2:{ intros [= <- <-]. destruct E1 as [[E1 _]|E1]; [left; by split|by right]. }
      rewrite bind_run. destruct (read_bytes_in dir name s1) as [s2 r2] eqn:E2. pose proof (quiet_read_in _ _ _ _ _ E2) as Hs2.
      intros Hr. assert (same s1 s') as Hs1'.
      { destruct r2 as [[b|]|]; [case_decide|..]; by injection Hr as <- <-. }
      destruct E1 as [[E1 _]|(t1 & t2 & Ht1 & Hn & Ht2 & E1)].
      * left. split; [by etrans|]. intros ->. destruct r2 as [[b|]|]; [|done..]. case_decide as Hb; [|done]. subst b.
        unfold read_bytes_in in E2. apply bind_ok in E2 as (t & [] & Et & E2). apply quiet_step in Et.
        apply bind_ok in E2 as (t' & ob & Eo & E2). cbn in Eo. injection Eo as <- <-.
        destruct (dir t !! name) as [b|] eqn:Ed; [|done]. injection E2 as _ ->.
        rewrite (Hsame s t) in Ed by (by etrans). done.
      * right. exists t1, t2. split_and!; [done..|by etrans].
  - intros [= <- <-]. destruct E1 as [[E1 _]|E1]; [left; by split|by right].
Qed.

Lemma mark_completed_keeps c s s' r : (∀ rc, claimed c = Ok rc → logged (disk_log s) (receipt_id rc)) →
  mark_completed c s = (s', r) → honest s → good s s' ∧ honest s'.
Proof.
  intros Hl. unfold mark_completed. rewrite bind_run. cbn [wlift]. destruct (claimed c) as [rc|e];
    [|intros [= <- <-] Hh; by split].
  intros Hr Hh. apply create_same_spec in Hr; [|by intros ? ? (? & ? & ? & ?)|done].
  destruct Hr as [[Hs _]|(s1 & s2 & (Hl1 & Hd1 & Hr1 & Hc1) & Hn & -> & Hl2 & Hd2 & Hr2 & Hc2)].
  { apply same_good in Hs as [Hg Hh']. split; [done|by apply Hh']. }
  cbn in *. split.
  - apply good_log; [|congruence..]. rewrite Hl2, Hl1. constructor.
  - intros id b. rewrite Hc2, Hl2, Hl1, lookup_insert_Some. intros [[Hid _]|[_ Hm]].
    + apply string_app_inj_r in Hid as <-. by apply Hl.
    + by eapply Hh.
Qed.

Lemma dead_letter_spec c reason s s' r : dead_letter c reason s = (s', r) → honest s →
  (good s s' ∧ honest s') ∧ (r = Some (Ok tt) → settled s' (claim_bytes c)).
Proof.
  unfold dead_letter. rewrite bind_run. destruct (ensure_private_dir s) as [s0 [[[]|e]|]] eqn:E0; apply quiet_step in E0;
    [|intros [= <- <-] Hh; apply same_good in E0 as [Hg Hh']; (split; [split; [done|by apply Hh']|done])..].
  intros Hr Hh. apply create_same_spec in Hr; [|by intros ? ? (? & ? & ? & ?)|done].
  destruct Hr as [[Hs Hok]|(s1 & s2 & (Hl1 & Hd1 & Hr1 & Hc1) & Hn & -> & Hl2 & Hd2 & Hr2 & Hc2)].
  - assert (same s s') as Hss by by etrans. pose proof (same_good _ _ Hss) as [Hg Hh']. split; [split; [done|by apply Hh']|].
    intros Hr. right. exists (dead_letter_name c), (letter_of c reason). destruct Hs as (_ & -> & _). by rewrite Hok.
  - destruct E0 as (Hl0 & Hd0 & Hr0 & Hc0). cbn in *. split; [split|].
    + split_and!; [rewrite Hl2, Hl1, Hl0; constructor|rewrite Hd2, <- Hd0; by apply insert_subseteq|].
      exists []. rewrite app_nil_r. split; [congruence|constructor].
    + eapply honest_log; [|rewrite Hc2, Hc1; exact Hc0|done]. rewrite Hl2, Hl1, Hl0. constructor.
    + intros _. right. exists (dead_letter_name c), (letter_of c reason). split; [|done]. rewrite Hd2. apply lookup_insert_eq.
Qed.

Lemma remove_keeps c s s' r : from_inode c → settled s (claim_bytes c) → remove_if_unchanged c s = (s', r) → honest s →
  good s s' ∧ honest s'.
Proof.
  intros Hi Hset. unfold remove_if_unchanged. intros Hr Hh.
  assert (∀ t, same s t → good s t ∧ honest t) as Hq by (intros t [Hg Hh']%same_good; split; [done|by apply Hh']).
  rewrite bind_run in Hr. destruct (step _ s) as [s1 [[[]|e]|]] eqn:E1; apply quiet_step in E1; [|injection Hr as <- <-; by apply Hq..].
  rewrite bind_run in Hr. cbn [wget] in Hr. destruct (receipts s1 !! claim_name c) as [n|]; [|injection Hr as <- <-; by apply Hq].
  case_decide as Hino; [injection Hr as <- <-; by apply Hq|].
  rewrite bind_run in Hr. destruct (wmap_err _ call_alone s1) as [s2 [[[]|e]|]] eqn:E2;
    apply (within_map _ _ _ quiet_call_alone) in E2; [|injection Hr as <- <-; apply Hq; by etrans..].
  assert (same s s2) as (Hl & Hd & Hrm & Hc) by by etrans.
  rewrite bind_run in Hr. cbn [wset] in Hr. apply quiet_step in Hr as (Hl' & Hd' & Hrm' & Hc'). cbn in *.
  split; [|apply (honest_log s s'); [|congruence|done]; rewrite Hl', Hl; constructor].
  split_and!; [rewrite Hl', Hl; constructor|by rewrite Hd', Hd|]. eexists. rewrite Hrm', Hrm. split; [done|].
  apply Forall_singleton. cbn. rewrite Hino, <- Hi. eapply settled_mono; [..|exact Hset]; [rewrite Hl', Hl; constructor|by rewrite Hd', Hd].
Qed.

Lemma strip_suffix_Some s suffix x : strip_suffix s suffix = Some x → s = x +:+ suffix.
Proof.
  revert x. induction s as [|c s IH]; intros x; cbn [strip_suffix]; (case_decide as Hd; [intros [= <-]; exact Hd|]); [done|].
  destruct (strip_suffix s suffix) as [y|] eqn:E; [|done]. intros [= <-]. cbn. by rewrite (IH y).
Qed.

Lemma keeps_same s s' : same s s' → honest s → good s s' ∧ honest s'.
Proof. intros [Hg Hh']%same_good Hh. split; [done|by apply Hh']. Qed.

Lemma remove_marker_keeps name expected : keeps (remove_immutable_if_matches name expected).
Proof.
  unfold remove_immutable_if_matches. apply keeps_bind; [apply quiet_keeps, quiet_read_in|]. intros b.
  case_decide; [apply quiet_keeps, (within_fail same)|].
  do 2 (apply keeps_bind; [apply quiet_keeps, quiet_step|]; intros []).
  apply keeps_bind; [|intros []; apply quiet_keeps, quiet_step]. intros s s' r [= <- <-] Hh. split.
  - apply good_log; [constructor|done..].
  - intros id m. cbn. rewrite lookup_delete_Some. intros [_ Hm]. by eapply Hh.
Qed.

Lemma cleanup_source_keeps id marker rc s s' r : (∀ c, rc = Ok c → from_inode c) → completed s !! (id +:+ ".done") = Some marker →
  cleanup_source id marker rc s = (s', r) → honest s → good s s' ∧ honest s'.
Proof.
  intros Hi Hm. destruct rc as [c|e]; cbn [cleanup_source]; [|intros [= <- <-]; by split].
  destruct (_ && _ && _) eqn:Eb; [|intros [= <- <-]; by split]. apply andb_true_iff in Eb as [[_ Hc]%andb_true_iff Hmm].
  destruct (claimed c) as [r0|] eqn:Ec; [|done]. apply bool_decide_eq_true in Hc, Hmm.
  intros Hrun Hh. eapply remove_keeps; [by apply Hi| |done|done]. left. exists r0. split; [by apply claimed_Ok|].
  rewrite Hc. eapply Hh. rewrite <- Hmm. exact Hm.
Qed.

Lemma cleanup_one_keeps name : keeps (cleanup_one name).
Proof.
  unfold cleanup_one. intros s s' r Hr Hh. rewrite bind_run in Hr.
  destruct (read_bytes_in completed name s) as [s1 [[marker|e]|]] eqn:E1;
    [|injection Hr as <- <-; apply quiet_read_in in E1; by apply keeps_same..].
  assert (completed s1 !! name = Some marker) as Hm.
  { unfold read_bytes_in in E1. apply bind_ok in E1 as (t & [] & Et & E1). apply bind_ok in E1 as (t' & ob & Eo & E1).
    cbn in Eo. injection Eo as <- <-. destruct (completed t !! name) as [b|] eqn:Ed; [|done]. injection E1 as -> ->. done. }
  apply quiet_read_in in E1. destruct (keeps_same _ _ E1 Hh) as [Hg1 Hh1]. clear E1.
  destruct (strip_suffix name ".done") as [id|] eqn:Eid; [|injection Hr as <- <-; by split].
  apply strip_suffix_Some in Eid as ->. rewrite bind_run in Hr. unfold attempt at 1 in Hr.
  destruct (claim_receipt (id +:+ ".json") s1) as [s2 [rc|]] eqn:E2;
    [|injection Hr as <- <-; apply quiet_claim, keeps_same in E2 as [? ?]; [split; [by etrans|done]|done]].
  pose proof (quiet_claim _ _ _ _ E2) as Hs2. destruct (keeps_same _ _ Hs2 Hh1) as [Hg2 Hh2].
  rewrite bind_run in Hr. destruct (cleanup_source id marker rc s2) as [s3 r3] eqn:E3.
  apply cleanup_source_keeps in E3 as [Hg3 Hh3]; [|intros c ->; by apply claim_receipt_spec in E2 as [Hi _]| |done].
  2: { destruct Hs2 as (_ & _ & _ & ->). done. }
  assert (good s s3) as Hg by (trans s1; [done|by trans s2]).
  destruct r3 as [[[]|e]|]; [|injection Hr as <- <-; by split..].
  pose proof (remove_marker_keeps _ _ _ _ _ Hr Hh3) as [Hg4 Hh4]. split; [by trans s3|done].
Qed.
Lemma each_keeps {A} (f : A → Work string unit) l : (∀ x, keeps (f x)) → keeps (each f l).
Proof. intros Hf. induction l as [|x l IH]; cbn [each]; [apply quiet_keeps, (within_ret same)|]. by apply keeps_bind. Qed.
Lemma cleanup_keeps : keeps cleanup_completed.
Proof.
  unfold cleanup_completed. apply keeps_bind; [apply quiet_keeps, quiet_step|]. intros [].
  apply keeps_bind; [apply quiet_keeps, (within_get same)|]. intros names. apply each_keeps, cleanup_one_keeps.
Qed.

(** ** The projections *)

Lemma projection_plain rs fp : plain (projection_value rs fp) = true.
Proof. apply plain_object. repeat constructor. cbn. apply plain_strs. Qed.
Lemma projection_no_receipt log p pc : plain p = true → record_receipt_id (next_record log "ref.update" pc (pairing_text p) 0) = None.
Proof.
  intros Hp. unfold record_receipt_id. cbn [payload next_record]. unfold pairing_text.
  rewrite canonical_text_read by (apply plain_object; by repeat constructor). reflexivity.
Qed.
Lemma append_projections_keeps ps log s s' r : Forall (λ p, plain p = true) ps → binds (disk_log s) log →
  append_projections log ps s = (s', r) → honest s → good s s' ∧ honest s'.
Proof.
  intros Hps. revert log s. induction Hps as [|p ps Hp Hps IH]; intros log s Hb; cbn [append_projections].
  { intros [= <- <-] Hh. by split. }
  destruct (existsb _ _); [by apply IH|]. rewrite append_orchestrator, bind_run.
  destruct (write_log _ s) as [s1 r1] eqn:E1. intros Hr Hh.
  set (log1 := (append log "ref.update" ["orchestrator:hugit-hook"] (pairing_text p) 0).1) in *.
  assert (good s s1 ∧ honest s1) as [Hg1 Hh1].
  { eapply (write_keeps (disk_log s) log); [done|done|left; by apply list_elem_of_further, list_elem_of_here| |exact E1|done]. intros id. by rewrite projection_no_receipt. }
  destruct r1 as [[[]|e]|]; [|injection Hr as <- <-; by split..].
  apply write_log_spec in E1 as (_ & _ & _ & [[_ Hl]|Hl]); [done|]. apply IH in Hr as [Hg2 Hh2]; [|rewrite Hl; split; [constructor|done]|done].
  split; [by etrans|done].
Qed.
Lemma reconcile_keeps : keeps reconcile_pairing_projection.
Proof.
  unfold reconcile_pairing_projection, append_pairing_projection. intros s s' r Hr Hh. rewrite bind_run in Hr. unfold wmap_err at 1 in Hr.
  destruct (load_event_log s) as [s1 [[log|e]|]] eqn:E1; [|injection Hr as <- <-; apply quiet_load in E1; by apply keeps_same..].
  apply load_event_log_spec in E1 as [-> Hs1]. destruct (keeps_same _ _ Hs1 Hh) as [Hg1 Hh1]. rewrite bind_run in Hr.
  destruct (bind_legacy_prefix (disk_log s) s1) as [s2 [[log|e]|]] eqn:E2;
    [|injection Hr as <- <-; apply quiet_bind_prefix, keeps_same in E2 as [? ?]; [split; [by etrans|done]|done]..].
  apply bind_legacy_prefix_spec in E2 as Hb. apply quiet_bind_prefix in E2. destruct (keeps_same _ _ E2 Hh1) as [Hg2 Hh2].
  apply append_projections_keeps in Hr as [Hg3 Hh3]; [split; [by trans s1; [done|trans s2]|done]| | |done].
  - apply Forall_fmap, Forall_forall. intros fp _. apply projection_plain.
  - destruct E2 as (-> & _), Hs1 as (-> & _). done.
Qed.

(** ** The drain *)

Lemma drain_entry_keeps repo st name : keeps (drain_entry repo st name).
Proof.
  unfold drain_entry. intros s s' r Hr Hh. rewrite bind_run in Hr. unfold attempt at 1 in Hr.
  destruct (claim_receipt name s) as [s1 [rc|]] eqn:E1; [|injection Hr as <- <-; apply quiet_claim in E1; by apply keeps_same].
  pose proof (quiet_claim _ _ _ _ E1) as Hs1. destruct (keeps_same _ _ Hs1 Hh) as [Hg1 Hh1].
  destruct rc as [c|e]; [|injection Hr as <- <-; by split]. apply claim_receipt_spec in E1 as [Hi _].
  rewrite bind_run in Hr. unfold attempt at 1 in Hr. destruct (drain_one c repo s1) as [s2 rd] eqn:E2.
  apply drain_one_spec in E2 as [[Hg2 Hh2] Hset]; [|done|done]. assert (good s s2) as Hg by by etrans.
  destruct rd as [[[]|[reason|reason]]|]; [..|injection Hr as <- <-; by split]; [| |injection Hr as <- <-; done].
  - destruct (Hset eq_refl) as [_ (rc & Hrc & Hl)]. rewrite bind_run in Hr. unfold attempt at 1 in Hr.
    destruct (mark_completed c s2) as [s3 rm] eqn:E3. apply mark_completed_keeps in E3 as [Hg3 Hh3];
      [|intros rc' Hrc'; rewrite Hrc in Hrc'; by injection Hrc' as <-|done].
    destruct rm as [rm|]; injection Hr as <- <-; (split; [by etrans|done]).
  - rewrite bind_run in Hr. unfold attempt at 1 in Hr. destruct (dead_letter c reason s2) as [s3 rl] eqn:E3.
    apply dead_letter_spec in E3 as [[Hg3 Hh3] Hdl]; [|done]. assert (good s s3) as Hg' by by etrans.
    destruct rl as [[[]|e]|]; [|injection Hr as <- <-; by split..]. rewrite bind_run in Hr. unfold attempt at 1 in Hr.
    destruct (remove_if_unchanged c s3) as [s4 rx] eqn:E4. apply remove_keeps in E4 as [Hg4 Hh4]; [|done|by apply Hdl|done].
    destruct rx as [rx|]; injection Hr as <- <-; (split; [by etrans|done]).
Qed.
Lemma drain_entries_keeps repo st names : keeps (drain_entries repo st names).
Proof.
  revert st. induction names as [|n names IH]; intros st; cbn [drain_entries]; [apply quiet_keeps, (within_ret same)|].
  apply keeps_bind; [apply drain_entry_keeps|done].
Qed.
Lemma drain_keeps repo limit : keeps (drain repo limit).
Proof.
  unfold drain, ensure_private_dir. do 5 (apply keeps_bind; [apply quiet_keeps, quiet_step|]; intros []).
  apply keeps_bind; [apply keeps_attempt, quiet_keeps, quiet_lock|]. intros [[]|e]; [|apply quiet_keeps, quiet_write_status].
  apply keeps_bind; [apply cleanup_keeps|]. intros [].
  apply keeps_bind; [apply quiet_keeps, quiet_step|]. intros []. apply keeps_bind; [apply quiet_keeps, (within_get same)|]. intros names.
  apply keeps_bind; [apply quiet_keeps, quiet_incomplete|]. intros waiting.
  apply keeps_bind; [apply quiet_keeps, quiet_step|]. intros []. apply keeps_bind; [apply drain_entries_keeps|]. intros st.
  apply keeps_bind; [apply reconcile_keeps|]. intros [].
  apply keeps_bind; [apply cleanup_keeps|]. intros []. apply quiet_keeps, quiet_write_status.
Qed.

(** Drains one after the other, each with the files and the failures it meets:
    others have changed the receipts in between. *)
Record Visit := { visit_receipts : gmap string Node; visit_script : list Event; visit_limit : nat }.
Definition arrive (v : Visit) (s : Runtime) : Runtime := {|
  disk_log := disk_log s; snapshot := snapshot s; metadata := metadata s; receipts := visit_receipts v; completed := completed s;
  dead := dead s; status_file := status_file s; removed := removed s; script := visit_script v |}.
Definition visit (repo : string) (s : Runtime) (v : Visit) : Runtime := (drain repo (visit_limit v) (arrive v s)).1.

(** C22. Drains from a runtime without markers, whatever they meet and wherever they
    stop: the log grows by events of the receipts, each receipt at most once, and
    the receipts' kinds allowing stays intact; and whatever a drain removed among
    the receipts has its event in the log or a dead letter with its digest. *)
Theorem drains_lose_nothing repo s vs : completed s = ∅ → removed s = [] →
  let s' := foldl (visit repo) s vs in
  records (disk_log s) `prefix_of` records (disk_log s') ∧
  (∃ new, receipt_ids (disk_log s') = receipt_ids (disk_log s) ++ new ∧ NoDup new ∧ (∀ id, id ∈ new → ¬ logged (disk_log s) id)) ∧
  ((∀ i r, receipt_from_slice (content_of i) = Ok r → rc_kind r ≠ PROVENANCE_REDACTION_KIND) →
   intact (records (disk_log s)) → intact (records (disk_log s'))) ∧
  Forall (λ x, settled s' x.2) (removed s').
Proof.
  intros Hc Hr s'. assert (honest s) as Hh by (intros id b; by rewrite Hc, lookup_empty).
  assert (good s s') as (Hg & _ & rm & Hrm & Hset).
  { subst s'. clear Hc Hr. revert s Hh. induction vs as [|v vs IH]; intros s Hh; [reflexivity|]. cbn [foldl].
    unfold visit at 2. destruct (drain repo (visit_limit v) (arrive v s)) as [s1 r1] eqn:E1.
    pose proof (drain_keeps _ _ _ _ _ E1) as [Hg1 Hh1]; [exact Hh|].
    trans s1; [exact Hg1|]. cbn. by apply IH. }
  rewrite Hr in Hrm. cbn in Hrm. split_and!; [by apply grows_prefix|by apply grows_ids| |by rewrite Hrm].
  intros Hk. by apply grows_intact.
Qed.

(** ** The pairing does not depend on the order of the log *)

Lemma sort_strings_perm l l' : l ≡ₚ l' → sort_strings l = sort_strings l'.
Proof.
  intros Hp. unfold sort_strings. apply (Sorted_unique String.le); [apply (Sorted_merge_sort _)..|].
  by rewrite !merge_sort_Permutation.
Qed.
#[local] Instance count_phase_proper fp phases : Proper (Permutation ==> eq) (count_phase fp phases).
Proof.
  intros rs rs' Hp. unfold count_phase. induction Hp; cbn [List.filter]; [done| | |congruence].
  - case_match; cbn; congruence.
  - repeat case_match; done.
Qed.
#[local] Instance pairing_proper : Proper (Permutation ==> eq ==> eq) reference_transaction_pairing.
Proof. intros rs rs' Hp fp _ <-. unfold reference_transaction_pairing. by rewrite !(count_phase_proper _ _ _ _ Hp). Qed.

(** However the events of the log are ordered, the projections are the same: the
    same fingerprints, states and sources. *)
Theorem projections_unordered rs rs' : rs ≡ₚ rs' → reference_transaction_projections rs = reference_transaction_projections rs'.
Proof.
  intros Hp. unfold reference_transaction_projections.
  replace (fingerprints rs') with (fingerprints rs).
  2: { apply sort_strings_perm, NoDup_Permutation; [apply NoDup_remove_dups..|]. intros fp. rewrite !elem_of_remove_dups. by rewrite Hp. }
  apply list_fmap_ext. intros _ fp _. unfold projection_value. rewrite (pairing_proper _ _ Hp fp fp eq_refl).
  assert (sources_of rs fp = sources_of rs' fp) as ->; [|done]. apply sort_strings_perm. by rewrite Hp.
Qed.

End Drain.

Module DrainExample.
Import Toy GateList Log2.
#[local] Existing Instance Codec.codec.
#[local] Existing Instance Codec.codec_laws.

(** Letters as numbers in binary. *)
Fixpoint bits (p : positive) : list byte :=
  match p with xH => [] | xO p => Byte.x00 :: bits p | xI p => Byte.x01 :: bits p end.
Lemma bits_inj p q : bits p = bits q → p = q.
Proof. revert q. induction p as [p IH|p IH|]; intros [q|q|] [=]; try done; f_equal; by apply IH. Qed.
Definition marker_key (m : CompletionMarkerV1) : N * string * string := (mk_version m, mk_receipt_id m, mk_receipt_sha256 m).

Definition repo : string := hex_encode (sha256 []).
Definition invocation (n : N) : string := hex_encode (sha256 (as_bytes (String (ascii_of_N n) EmptyString))).
Definition receipt (n : N) (payload : Value) : ReceiptV1 := {|
  rc_version := 1; repo_id := repo; invocation_id := invocation n; receipt_id := receipt_id_of repo (invocation n);
  rc_kind := "commit.made"; rc_principal := "human:ann"; rc_payload := payload; rc_recorded_at := 7 |}.
Definition payloads : list Value := [json_object [("target", Str "main")]; Array []; json_object [("note", Str "n")]].
(** The file of a receipt is its number; the others are not receipts. *)
#[export] Instance receipt_serde : ReceiptSerde := {|
  receipt_from_slice b := match b with
    | [c] => match payloads !! N.to_nat (Byte.to_N c) with Some p => Ok (receipt (Byte.to_N c) p) | None => Err "eof" end
    | _ => Err "eof" end;
  receipt_to_vec r := bits (encode (receipt_id r)); marker_to_vec m := bits (encode (marker_key m));
  letter_to_vec l := as_bytes (dl_reason l); records_from_slice _ := None |}.
#[export] Instance receipt_serde_laws : ReceiptSerdeLaws.
Proof.
  split.
  - intros [|c [|? ?]] r; [done| |done]. cbn. destruct (payloads !! _) as [p|] eqn:E; [|done]. intros [= <-]. cbn.
    apply list_elem_of_lookup_2 in E. revert p E. rewrite <- Forall_forall. by repeat constructor.
  - intros [v i h] [v' i' h'] Heq%bits_inj%(inj encode). by injection Heq as -> -> ->.
Qed.

Definition content (i : N) : list byte := match Byte.of_N i with Some c => [c] | None => [] end.
Lemma content_unsigned i r : receipt_from_slice (content i) = Ok r → only_u64 (rc_payload r) = true.
Proof.
  unfold content. destruct (Byte.of_N i) as [c|]; [|done]. cbn. destruct (payloads !! _) as [p|] eqn:E; [|done]. intros [= <-]. cbn.
  apply list_elem_of_lookup_2 in E. revert p E. rewrite <- Forall_forall. by repeat constructor.
Qed.
Definition file (n : N) : string := receipt_id_of repo (invocation n) +:+ ".json".
Definition node (n : N) : Node := {| ino := n; is_private := true |}.
Definition start (files : gmap string Node) (markers : gmap string (list byte)) : Runtime := {|
  disk_log := EventLog_new; snapshot := None; metadata := None; receipts := files; completed := markers; dead := ∅;
  status_file := None; removed := []; script := [] |}.
Definition comes (script : list Event) (files : gmap string Node) : Visit := {|
  visit_receipts := files; visit_script := script; visit_limit := 9 |}.
Definition run : Runtime → list Visit → Runtime := foldl (visit content "log.json" (λ l, l) repo).
Definition told (s : Runtime) : list (option string) * list string := (record_receipt_id <$> records (disk_log s), (removed s).*1).

(** The first drain dies after the log took the first receipt, before its marker;
    the next meets both receipts and a file that is none. *)
Definition both : gmap string Node := {[ file 0 := node 0; file 2 := node 2 ]}.
Definition deadly : list Event := replicate 17 {| outside := id; ends := Fine |} ++ [{| outside := id; ends := Dies |}].
Definition visits : list Visit := [comes deadly both; comes [] (<["bad.json" := node 5]> both)].
Example each_once :
  told (run (start ∅ ∅) (take 1 visits)) = ([Some (receipt_id_of repo (invocation 0))], []) ∧
  told (run (start ∅ ∅) visits) = ([Some (receipt_id_of repo (invocation 0)); Some (receipt_id_of repo (invocation 2))], ["bad.json"; file 2; file 0]).
Proof. split; vm_compute; reflexivity. Qed.

(** A receipt whose payload is an array ends the process, and so do the drains that
    follow: the receipts behind it stay. *)
Example array_payload_jams :
  let s := run (start ∅ ∅) (replicate 3 (comes [] {[ file 1 := node 1; file 2 := node 2 ]})) in
  records (disk_log s) = [] ∧ removed s = [] ∧ dead s = ∅.
Proof. vm_compute. done. Qed.
(** A marker written by others removes a receipt the log does not have. *)
Example forged_marker_skips : told (run (start ∅ {[ receipt_id_of repo (invocation 0) +:+ ".done" :=
  marker_bytes (receipt_id_of repo (invocation 0)) (content 0) ]}) [comes [] both])
  = ([Some (receipt_id_of repo (invocation 2))], [file 0; file 2]).
Proof. vm_compute. reflexivity. Qed.

Lemma drains_lose_nothing_witness : let s := run (start ∅ ∅) visits in
  records (disk_log s) ≠ [] ∧ NoDup (receipt_ids (disk_log s)) ∧ Forall (λ x, settled s x.2) (removed s).
Proof.
  destruct (drains_lose_nothing content "log.json" (λ l, l) content_unsigned repo (start ∅ ∅) visits eq_refl eq_refl)
    as (_ & (new & Hn & Hd & _) & _ & Hs).
  split; [by vm_compute|]. split; [|exact Hs]. exact (eq_ind_r NoDup Hd Hn).
Defined.
End DrainExample.
