(* ===== verification/Authoring.v ===== *)
(** Authoring an intent: [intent new] over a store and a shared log
    ([crates/hugit-cli/src/intent/new.rs], [canonical_log.rs], [store.rs],
    [error.rs], [ident.rs] and [campaign/seal_guard.rs]).

    The command writes two files, the log first: every call can fail or be the last
    of the process, and others append to the log whenever its lock is free.

    The theorems: however runs end, the store never holds an intent the log does
    not have; a run that succeeds leaves the intent in both files and the store
    with all the log had; a sealed campaign takes no intent.

    A file holds a parsed document, or bytes that do not parse.  The store's lock
    excludes other writers of the store.  Writing and renaming a temporary file
    count as one call.  The files are outside the runtime directory, whose
    preparation is in front of both calls. *)

From S2P Require Import Prelude Text Scan Json JsonCodec Crypto Secret Credentials Scrub Log Authz Tamper Replay Intent Porcelain Loader FileLock Calls.

(** * Identifiers *)

Definition SECRET_HINT : string :=
  "identifiers are addresses, not secrets — they are stored unredacted; do not put a credential in --campaign/--pr/--id/--run-id/--owner; use a non-secret short name or content-hash instead".
Definition validate_identifier `{Libm} (value field_name : string) : result PorcelainError unit :=
  if decide (trim value = "") then
    Err (PorcelainError_new "invalid_argument" (field_name +:+ " is empty") "pass a non-empty identifier value")
  else if decide (structural_secret_scrub (trim value) ≠ trim value) then
    Err (PorcelainError_new "secret_in_identifier"
      (field_name +:+ " looks like a credential (it trips the redaction engine's structural-secret detector): identifiers are stored unredacted in the forever-log")
      SECRET_HINT)
  else Ok tt.

(** What the door admits is stored as it is, or is the mark of a redaction. *)
Lemma validated_kept `{Libm} value field : validate_identifier value field = Ok tt →
  structural_secret_scrub value = value ∨ trim value = REDACTED.
Proof.
  unfold validate_identifier. case_decide; [done|]. case_decide as Hs; [done|]. intros _.
  unfold structural_secret_scrub in *. assert (is_safe_identifier_shape (trim value) = is_safe_identifier_shape value) as Heq.
  { unfold is_safe_identifier_shape. cbv zeta. by rewrite trim_idemp. }
  rewrite Heq in Hs. destruct (is_safe_identifier_shape value); [by left|by right].
Qed.

(** * The seal of a campaign *)

Definition KIND_CAMPAIGN_CLOSED : string := "campaign.closed".
Definition SEALED_KIND : string := "campaign_sealed".
Definition seal_message (campaign : string) : string :=
  "campaign '" +:+ campaign +:+ "' is sealed (campaign.closed on log): a sealed campaign is terminal — no further appends (intent, pr, or verdict) are allowed".
Definition seal_fix : string :=
  "open or create a new campaign for further work; a closed campaign is an immutable audit-trail fact and cannot be mutated".
Definition seals `{SerdeJson} (key : string) (r : EventRecord) : bool :=
  bool_decide (kind r = KIND_CAMPAIGN_CLOSED)
  && bool_decide ((from_str (payload r) ≫= λ v, field_str v "campaign") = Some key).
Definition campaign_is_sealed `{SerdeJson} (log : EventLog) (key : string) : bool := existsb (seals key) (records log).
(** [guard_not_sealed], with the error its callers make of it. *)
Definition seal_refusal (campaign shown : string) : PorcelainError :=
  pe_with_context (PorcelainError_new SEALED_KIND (seal_message campaign) seal_fix) "campaign" (Str shown).

(** * The files *)

Inductive File (A : Type) := Absent | Corrupt (why : string) | Holds (a : A).
Arguments Absent {A}.
Arguments Corrupt {A} why.
Arguments Holds {A} a.

Record Verdict := { lens : string; decision : string; rationale : option string }.
Record IntentStoreFile := {
  events : list EventRecord; sf_sidecars : list IntentSidecar; sf_envelopes : gmap string string;
  sf_verdicts : gmap string Verdict; sf_source_logs : gmap string string }.
Definition IntentStoreFile_default : IntentStoreFile :=
  {| events := []; sf_sidecars := []; sf_envelopes := ∅; sf_verdicts := ∅; sf_source_logs := ∅ |}.
Record IntentStore := {
  store_log : EventLog; sidecars : gmap string IntentSidecar; envelopes : gmap string string;
  verdicts : gmap string Verdict; source_logs : gmap string string }.

Inductive StoreError :=
| SNotFound (path : string) | SRead (path source : string) | SParse (path msg : string)
| SRehydrate (m : string) | SChainBroken (m : string) | SWrite (path source : string) | SSerialize (m : string)
| SBusy (path : string).
Definition store_error_text (e : StoreError) : string :=
  match e with
  | SNotFound path => "--store file does not exist: " +:+ path
  | SRead path source => "read store " +:+ path +:+ ": " +:+ source
  | SParse path msg => "parse store " +:+ path +:+ ": " +:+ msg
  | SRehydrate m => "rehydrate event log: " +:+ m
  | SChainBroken m => "store chain failed verification: " +:+ m
  | SWrite path source => "write store " +:+ path +:+ ": " +:+ source
  | SSerialize m => "serialize store: " +:+ m
  | SBusy path => "store " +:+ path +:+ " is locked by another hugit verb"
  end.
Definition from_store (e : StoreError) : PorcelainError :=
  let fix_ := match e with
    | SNotFound _ => "create the store first (`hugit intent new --store <path> …` bootstraps it) or point --store at an existing intent store"
    | SRead _ _ | SWrite _ _ => "check the --store path is writable and on an existing directory"
    | SParse _ _ | SRehydrate _ | SChainBroken _ => "the --store file is corrupt or tampered; point --store at a clean store"
    | SSerialize _ => "internal: the store could not be serialised"
    | SBusy _ => "another `hugit` process holds the store lock; retry once it releases (a stale lock is auto-reclaimed after a short window)"
    end in
  let kind := match e with SNotFound _ => "store_not_found" | SBusy _ => "store_busy" | _ => "store_error" end in
  let err := PorcelainError_new kind (store_error_text e) fix_ in
  match e with SNotFound path => pe_with_context err "path" (Str path) | _ => err end.
Definition store_lock_error (path : string) (e : LockError) : StoreError :=
  match e with Busy _ => SBusy path | LockIo _ _ _ => SWrite path (lock_error_text e) end.
Definition lock_porcelain_error (e : LockError) : PorcelainError :=
  match e with
  | Busy path => PorcelainError_new "log_busy" ("the --log file " +:+ path +:+ " is locked by another hugit verb")
      "another `hugit` process holds the log lock; retry once it releases (a stale lock is auto-reclaimed after a short window)"
  | LockIo _ _ _ => PorcelainError_new "io" (lock_error_text e) "check the --log path is on a writable directory"
  end.
Definition intent_model_text (e : IntentModelError) : string :=
  match e with BadIntentPayload n => "malformed intent.landed payload at seq " +:+ decimal n end.
Definition deny_code (r : DenyReason) : string :=
  match r with UnrecognizedPrincipal => "unrecognized_principal" | NotPermitted _ => "not_permitted" end.
Definition import_error_text (e : ImportError) : string :=
  match e with
  | EmptyIntentId => "sidecar has an empty intent_id"
  | DuplicateIntentId id => "intent_id " +:+ id +:+ " already landed on the log"
  | ProtectedRef n => "import_sidecar cannot advance a protected ref '" +:+ n
      +:+ "': intent.landed via import is restricted to refs/hugit/**; advancing a branch ref requires the Land-gated path"
  | ImportDenied reason => "intent import denied by D14 guard: " +:+ deny_code reason
  end.

(** ** The world of a run *)

(** What others append before a call, whether they hold the lock the call wants,
    and how the call ends. *)
Record Entry := { e_kind : string; e_chain : list string; e_payload : string; e_at : N }.
Record Event := { others : list Entry; held : bool; ends : End }.
Record World := { log_file : File (list EventRecord); store_file : File IntentStoreFile; script : list Event }.
#[local] Abbreviation Work := (Calls.Work World).

Definition set_log_file (f : File (list EventRecord)) (w : World) : World :=
  {| log_file := f; store_file := store_file w; script := script w |}.
Definition set_store_file (f : File IntentStoreFile) (w : World) : World :=
  {| log_file := log_file w; store_file := f; script := script w |}.
Definition pop (w : World) : World := {| log_file := log_file w; store_file := store_file w; script := tail (script w) |}.
Definition next_alone (w : World) : End * World := (match script w with [] => Fine | ev :: _ => ends ev end, pop w).
Definition next_held (w : World) : bool := match script w with [] => false | ev :: _ => held ev end.

Section Authoring.
Context `{CryptoLaws} `{SerdeJsonLaws} `{Libm} `{GateCodec}.

Definition push_entry (log : EventLog) (e : Entry) : EventLog := (append log (e_kind e) (e_chain e) (e_payload e) (e_at e)).1.
Definition push_others (es : list Entry) (f : File (list EventRecord)) : File (list EventRecord) :=
  match f, es with
  | Corrupt why, _ => Corrupt why
  | f, [] => f
  | Absent, es => Holds (records (foldl push_entry EventLog_new es))
  | Holds rs, es => Holds (records (foldl push_entry {| records := rs |} es))
  end.
Definition next_event (w : World) : End * World :=
  next_alone match script w with [] => w | ev :: _ => set_log_file (push_others (others ev) (log_file w)) w end.

(** A call while the log's lock is free, and one under it. *)
Definition call : Work string unit := wcall next_event.
Definition call_alone : Work string unit := wcall next_alone.

Definition acquire (path : string) : Work LockError unit :=
  busy ← wget next_held;
  _ ← wmap_err (LockIo "create lock" (path +:+ ".lock")) call;
  if busy : bool then wfail (Busy path) else mret tt.
Definition atomic_write (c : Work string unit) (path : string) (write : World → World) : Work LockError unit :=
  _ ← wmap_err (LockIo "rename temp over target" path) c;
  _ ← wset write;
  wmap_err (LockIo "fsync parent directory" path) c.

(** ** The store *)

Definition keyed (l : list IntentSidecar) : gmap string IntentSidecar :=
  foldl (λ m sc, <[sidecar_intent_id sc := sc]> m) ∅ l.
Definition read_store_file (path : string) (f : File IntentStoreFile) : result StoreError IntentStoreFile :=
  match f with Absent => Ok IntentStoreFile_default | Corrupt why => Err (SParse path why) | Holds x => Ok x end.
Definition store_of (file : IntentStoreFile) : result StoreError IntentStore :=
  log ← map_err (λ e, SRehydrate (append_error_text e)) (push_records EventLog_new (events file));
  _ ← map_err (λ e, SChainBroken (tamper_text e)) (verify_chain (records log));
  Ok {| store_log := log; sidecars := keyed (sf_sidecars file); envelopes := sf_envelopes file; verdicts := sf_verdicts file;
        source_logs := sf_source_logs file |}.
Definition store_load (path : string) : Work StoreError IntentStore :=
  _ ← wmap_err (SRead path) call;
  f ← wget store_file;
  file ← wlift (read_store_file path f);
  wlift (store_of file).
Definition intent_for (s : IntentStore) (id : string) : result StoreError (option Intent) :=
  ints ← map_err (λ e, SChainBroken (intent_model_text e)) (intents_from_log (store_log s));
  Ok (by_id ints id).
Definition lock_and_load (path : string) : Work StoreError IntentStore :=
  _ ← wmap_err (store_lock_error path) (acquire path);
  store_load path.
Definition file_of (s : IntentStore) : IntentStoreFile := {|
  events := records (store_log s);
  sf_sidecars := merge_sort (λ a b, String.le (sidecar_intent_id a) (sidecar_intent_id b)) (map_to_list (sidecars s)).*2;
  sf_envelopes := envelopes s; sf_verdicts := verdicts s; sf_source_logs := source_logs s |}.
Definition save_locked (path : string) (s : IntentStore) : Work StoreError unit :=
  wmap_err (store_lock_error path) (atomic_write call path (set_store_file (Holds (file_of s)))).

(** ** The log *)

Definition AUTHORED_REF : string := "refs/hugit/intents".
Definition authored_target (intent_id : string) : string := "authored:" +:+ intent_id.

(** The two loaders differ in what they call the file. *)
Definition load_records (name path : string) (f : File (list EventRecord)) : result PorcelainError EventLog :=
  match f with
  | Absent => Ok EventLog_new
  | Corrupt why => Err (PorcelainError_new "parse" ("parse " +:+ name +:+ " " +:+ path +:+ ": " +:+ why)
      ("the --log file must be a canonical JSON [EventRecord, …] array"
       +:+ if decide (name = "log") then " (the engine's EventLog shape, shared by every porcelain verb)" else EmptyString))
  | Holds rs => map_err (λ fault, match fault with
      | Rehydrate e => PorcelainError_new "rehydrate" ("rehydrate " +:+ name +:+ " " +:+ path +:+ ": " +:+ e)
          "the --log file's records must form a gap-free, monotonic chain"
      | ChainBroken e => PorcelainError_new "chain_broken" (name +:+ " " +:+ path +:+ " failed integrity verification: " +:+ e)
          "the --log file's hash chain is tampered or corrupt"
      end) (rehydrate_and_verify rs)
  end.
Definition load (c : Work string unit) (name path : string) : Work PorcelainError EventLog :=
  _ ← wmap_err (λ e, PorcelainError_new "io" ("read " +:+ name +:+ " " +:+ path +:+ ": " +:+ e)
    "check the --log path exists and is readable") c;
  f ← wget log_file;
  wlift (load_records name path f).

Definition chain_campaign (chain : list string) : string := default EmptyString (head (omap (strip_prefix "campaign:") chain)).
Definition landed_payload (sc : IntentSidecar) (ref_name target campaign : string) : Value :=
  let base := [("intent_id", Str (sidecar_intent_id sc)); ("ref", Str ref_name); ("target", Str target);
               ("charter", Str (sidecar_charter sc))] in
  json_object (if decide (campaign = EmptyString) then base else base ++ [("campaign", Str campaign)]).
Definition denied_text (d : AuthzDenied) : string :=
  "authorization denied (" +:+ deny_code (denied_reason d) +:+ "): the mutation was not appended (audited as " +:+ AUTHZ_DENIED_KIND +:+ ")".
Definition import_sidecar_authorized (log : EventLog) (sc : IntentSidecar) (ref_name target : string) (chain : list string) (at_ : N)
    : result PorcelainError EventLog :=
  if decide (sidecar_intent_id sc = EmptyString) then
    Err (PorcelainError_new "invalid_intent" "sidecar has an empty intent_id"
      "ensure --charter is set and the intent id is non-empty")
  else
    let actor_class := default Worker (last chain ≫= classify) in
    let payload := scrub_to_canonical (landed_payload sc ref_name target (chain_campaign chain)) in
    match append_authorized log actor_class Push INTENT_LANDED_KIND chain payload at_ with
    | (log, Ok _) => Ok log
    | (_, Err d) => Err (PorcelainError_new "authz_denied" (denied_text d)
        "the acting principal is not permitted to author intents at this altitude")
    end.
Definition persist (path : string) (log : EventLog) : Work PorcelainError unit :=
  wmap_err lock_porcelain_error (atomic_write call_alone path (set_log_file (Holds (records log)))).
(** Locked from the first call to the last. *)
Definition land_intent (path : string) (sc : IntentSidecar) (chain : list string) (at_ : N) : Work PorcelainError unit :=
  _ ← wmap_err lock_porcelain_error (acquire path);
  log ← load call_alone "log" path;
  let key := chain_campaign chain in
  if negb (bool_decide (key = EmptyString)) && campaign_is_sealed log key then wfail (seal_refusal key (scrub key))
  else
    let already := match intents_from_log log with Ok p => bool_decide (is_Some (by_id p (sidecar_intent_id sc))) | Err _ => false end in
    if already then mret tt
    else
      log ← wlift (import_sidecar_authorized log sc AUTHORED_REF (authored_target (sidecar_intent_id sc)) chain at_);
      persist path log.

(** ** Healing the store from the log *)

(** [std::fs::canonicalize] or the path itself, and the parent of a path. *)
Context (canonical parent : string → string).

Definition with_intent (s : IntentStore) (log : EventLog) (sc : IntentSidecar) (key : string) : IntentStore := {|
  store_log := log; sidecars := <[sidecar_intent_id sc := sc]> (sidecars s); envelopes := envelopes s; verdicts := verdicts s;
  source_logs := <[sidecar_intent_id sc := key]> (source_logs s) |}.
(** What the log knows of an intent. *)
Definition healed_sidecar (i : Intent) : IntentSidecar := {|
  sidecar_intent_id := intent_id i; sidecar_charter := charter i; acceptance := []; context_ref := EmptyString; authoritative := false |}.
Definition heal_error (e : ImportError) : PorcelainError :=
  PorcelainError_new "store_error" ("reconcile store from --log: " +:+ import_error_text e)
    "the --log and --store could not be reconciled; inspect both files".
Fixpoint heal (key : string) (ids : gset string) (s : IntentStore) (ints : list Intent) : result PorcelainError IntentStore :=
  match ints with
  | [] => Ok s
  | i :: ints =>
      if decide (intent_id i ∈ ids) then heal key ids s ints
      else
        match import_sidecar (store_log s) (healed_sidecar i) AUTHORED_REF (authored_target (intent_id i)) (intent_chain i)
                (intent_recorded_at i) with
        | (_, Err e) => Err (heal_error e)
        | (log, Ok _) => heal key ({[ intent_id i ]} ∪ ids) (with_intent s log (healed_sidecar i) key) ints
        end
  end.
Definition reconcile_store_from_log (s : IntentStore) (store_path log_path : string) : Work PorcelainError IntentStore :=
  log ← load call "--log" log_path;
  log_intents ← wlift (map_err (λ e, PorcelainError_new "chain_broken" ("project intents from --log: " +:+ intent_model_text e)
    "the --log file's intent records must be well-formed") (intents_from_log log));
  store_intents ← wlift (map_err (λ e, from_store (SChainBroken (intent_model_text e))) (intents_from_log (store_log s)));
  let ids := id_set store_intents in
  if forallb (λ i, bool_decide (intent_id i ∈ ids)) (intents log_intents) then mret s
  else
    s ← wlift (heal (canonical log_path) ids s (intents log_intents));
    _ ← wmap_err from_store (save_locked store_path s);
    mret s.

(** * The command *)

Definition DEFAULT_AGENT : string := "main".
Record NewIntent := {
  ni_charter : string; ni_campaign : string; ni_acceptance : list string; ni_id : option string; ni_agent : option string;
  ni_context_ref : option string; ni_log : option string }.
Record NewResult := { nr_intent_id : string; already_exists : bool; nr_campaign : string; nr_agent : string }.

Definition id_field (s : string) : list byte := be_bytes 8 (N.of_nat (String.length s)) ++ as_bytes s.
Definition intent_id_preimage (charter campaign : string) (acceptance : list string) (agent : string) : list byte :=
  id_field charter ++ id_field campaign ++ id_field agent ++ be_bytes 8 (N.of_nat (length acceptance)) ++ (acceptance ≫= id_field).
Definition derive_intent_id (charter campaign : string) (acceptance : list string) (agent : string) : string :=
  "intent-" +:+ String.substring 0 16 (digest_hex (intent_id_preimage charter campaign acceptance agent)).

(** [default_log] is the log the repository's default resolves to, where it exists
    and loads. *)
Definition admit_input (input : NewIntent) (default_log : result PorcelainError (option EventLog)) : result PorcelainError unit :=
  if decide (trim (ni_charter input) = EmptyString) then
    Err (PorcelainError_new "invalid_argument" "charter is empty" "pass a non-empty --charter describing what the intent does")
  else
    _ ← validate_identifier (ni_campaign input) "--campaign";
    log ← default_log;
    if match log with Some log => campaign_is_sealed log (ni_campaign input) | None => false end
    then Err (seal_refusal (ni_campaign input) (ni_campaign input))
    else match ni_id input with Some id => validate_identifier id "--id" | None => Ok tt end.

(** What is written: every free text scrubbed. *)
Definition authored (input : NewIntent) : IntentSidecar * list string * NewResult :=
  let charter := scrub (ni_charter input) in
  let campaign := scrub (ni_campaign input) in
  let acceptance := scrub_all (ni_acceptance input) in
  let agent := scrub (default DEFAULT_AGENT (ni_agent input)) in
  let id := default (derive_intent_id charter campaign acceptance agent) (ni_id input) in
  ({| sidecar_intent_id := id; sidecar_charter := charter; acceptance := acceptance;
      context_ref := scrub (default EmptyString (ni_context_ref input)); authoritative := false |},
   ["campaign:" +:+ campaign; "agent:" +:+ agent],
   {| nr_intent_id := id; already_exists := false; nr_campaign := campaign; nr_agent := agent |}).

Definition land_on (log : option string) (sc : IntentSidecar) (chain : list string) (at_ : N) : Work PorcelainError unit :=
  match log with Some path => land_intent path sc chain at_ | None => mret tt end.
Definition insert_intent (s : IntentStore) (log : EventLog) (sc : IntentSidecar) (source : option string) : IntentStore := {|
  store_log := log; sidecars := <[sidecar_intent_id sc := sc]> (sidecars s);
  envelopes := if decide (context_ref sc = EmptyString) then envelopes s else <[sidecar_intent_id sc := context_ref sc]> (envelopes s);
  verdicts := verdicts s;
  source_logs := match source with Some path => <[sidecar_intent_id sc := canonical path]> (source_logs s) | None => source_logs s end |}.
Definition import_refusal (e : ImportError) : PorcelainError :=
  PorcelainError_new "invalid_intent" (import_error_text e) "ensure --charter is set and the intent id is non-empty".
Definition ensure_store_parent (store_path : string) : Work PorcelainError unit :=
  if decide (parent store_path = EmptyString) then mret tt
  else wmap_err (λ e, PorcelainError_new "store_error" ("create store directory " +:+ parent store_path +:+ ": " +:+ e)
         "ensure the --store path's parent directory is creatable") call.

(** From the reconciled store on. *)
Definition author (s : IntentStore) (log : option string) (sc : IntentSidecar) (chain : list string) (done_ : NewResult)
    (store_path : string) (now : N) : Work PorcelainError NewResult :=
  there ← wlift (map_err from_store (intent_for s (sidecar_intent_id sc)));
  match there with
  | Some _ =>
      _ ← land_on log sc chain now;
      mret {| nr_intent_id := nr_intent_id done_; already_exists := true; nr_campaign := nr_campaign done_; nr_agent := nr_agent done_ |}
  | None =>
      slog ← wlift (match import_sidecar (store_log s) sc AUTHORED_REF (authored_target (sidecar_intent_id sc)) chain now with
                    | (slog, Ok _) => Ok slog | (_, Err e) => Err (import_refusal e) end);
      _ ← land_on log sc chain now;
      _ ← wmap_err from_store (save_locked store_path (insert_intent s slog sc log));
      mret done_
  end.
Definition run (input : NewIntent) (store_path : string) (default_log : result PorcelainError (option EventLog)) (now : N)
    : Work PorcelainError NewResult :=
  _ ← wlift (admit_input input default_log);
  let '(sc, chain, done_) := authored input in
  _ ← ensure_store_parent store_path;
  s ← wmap_err from_store (lock_and_load store_path);
  s ← match ni_log input with Some path => reconcile_store_from_log s store_path path | None => mret s end;
  author s (ni_log input) sc chain done_ store_path now.

(** * What the files hold *)

Definition log_of (w : World) : list EventRecord := match log_file w with Holds rs => rs | _ => [] end.
Definition store_of_file (w : World) : list EventRecord := match store_file w with Holds f => events f | _ => [] end.
Definition store_ids (w : World) : list string := landed_ids (store_of_file w).

(** An id is backed when a record of the log has it, or what the boundary makes of
    it. *)
Definition backed (rs : list EventRecord) (id : string) : Prop :=
  id ∈ landed_ids rs ∨ structural_secret_scrub id ∈ landed_ids rs.
Definition no_phantom (w : World) : Prop := ∀ id, id ∈ store_ids w → backed (log_of w) id.

Lemma landed_ids_mono rs rs' id : rs `prefix_of` rs' → id ∈ landed_ids rs → id ∈ landed_ids rs'.
Proof. intros [k ->]. unfold landed_ids. rewrite omap_app. set_solver. Qed.
Lemma backed_mono rs rs' id : rs `prefix_of` rs' → backed rs id → backed rs' id.
Proof. unfold backed. intros Hp [?|?]; [left|right]; by eapply landed_ids_mono. Qed.

Lemma collected_ids rs l : collect_intents rs = Ok l → intent_id <$> l = landed_ids rs.
Proof.
  revert l. induction rs as [|r rs IH]; intros l; cbn [collect_intents]; [by intros [= <-]|].
  unfold landed_ids. simpl. unfold landed_id at 1. case_decide as Hk; [|by apply IH].
  unfold parse_intent. destruct (from_str (payload r)) as [v|]; [|done]. simpl.
  destruct (field_str v "intent_id") as [id|]; [|done]. simpl. destruct (field_str v "ref"); [|done]. simpl.
  destruct (field_str v "target"); [|done]. simpl. destruct (field_str v "charter"); [|done]. simpl.
  destruct (collect_intents rs) as [l'|]; [|done]. intros [= <-]. simpl. f_equal. by apply IH.
Qed.
Lemma projected_ids log p : intents_from_log log = Ok p → intent_id <$> intents p = landed_ids (records log).
Proof.
  unfold intents_from_log, intents_from_records. destruct (collect_intents (records log)) as [l|] eqn:E; [|done].
  intros [= <-]. by apply collected_ids.
Qed.
Lemma by_id_landed log p id : intents_from_log log = Ok p → (is_Some (by_id p id) ↔ id ∈ landed_ids (records log)).
Proof.
  intros Hp. rewrite <- (projected_ids _ _ Hp). unfold by_id. split.
  - intros [i Hi]. assert (i ∈ filter (λ i, intent_id i = id) (intents p)) as [<- Hin]%list_elem_of_filter.
    { destruct (filter _ (intents p)) as [|j l] eqn:E; [discriminate Hi|]. injection Hi as ->. left. }
    apply list_elem_of_fmap. eauto.
  - intros (i & -> & Hi)%list_elem_of_fmap.
    assert (i ∈ filter (λ j, intent_id j = intent_id i) (intents p)) as Hf by by apply list_elem_of_filter.
    destruct (filter _ (intents p)) as [|j l]; [by apply not_elem_of_nil in Hf|]. by eexists.
Qed.
Lemma landed_ids_snoc rs r id : landed_id r = Some id → landed_ids (rs ++ [r]) = landed_ids rs ++ [id].
Proof. intros Hr. unfold landed_ids. rewrite omap_app. simpl. by rewrite Hr. Qed.
Lemma imported_ids log sc n t pc at_ log' r : import_sidecar log sc n t pc at_ = (log', Ok r) →
  landed_ids (records log') = landed_ids (records log) ++ [sidecar_intent_id sc] ∧
  ¬ (sidecar_intent_id sc ∈ landed_ids (records log)) ∧ (intact (records log) → intact (records log')).
Proof.
  rewrite import_sidecar_eq. destruct (negb _); [done|]. case_decide; [done|]. case_decide as Hid; [done|].
  intros [= <- _]. split_and!; [|done|].
  - apply landed_ids_snoc. unfold landed_id. cbn [kind payload next_record]. rewrite decide_True by done. by rewrite import_payload_parses.
  - by apply intact_append.
Qed.

(** ** Calls *)

(** Others append, nobody writes the store; and not even that. *)
Definition calm (w w' : World) : Prop := log_of w `prefix_of` log_of w' ∧ store_file w' = store_file w.
Definition still (w w' : World) : Prop := log_file w' = log_file w ∧ store_file w' = store_file w.
#[local] Instance calm_preorder : PreOrder calm.
Proof. split; [by intros ?|]. intros ??? [? ?] [? ?]. split; [by etrans|congruence]. Qed.
#[local] Instance still_preorder : PreOrder still.
Proof. split; [by intros ?|]. intros ??? [? ?] [? ?]. split; congruence. Qed.
Lemma still_calm w w' : still w w' → calm w w'.
Proof. intros [Hl Hs]. unfold calm, log_of. by rewrite Hl. Qed.

Lemma push_entries_prefix es log : records log `prefix_of` records (foldl push_entry log es).
Proof.
  revert log. induction es as [|e es IH]; intros log; [done|]. simpl. etrans; [|apply IH].
  unfold push_entry. rewrite append_records. by apply prefix_app_r.
Qed.
Lemma calm_call : within calm call.
Proof.
  apply within_call. intros w. unfold next_event, next_alone, calm, log_of. destruct (script w) as [|ev sc]; simpl; [done|].
  split; [|done]. destruct (log_file w) as [|why|rs]; destruct (others ev) as [|e es]; simpl; try done; [apply prefix_nil|].
  apply (push_entries_prefix (e :: es) {| records := rs |}).
Qed.
Lemma still_alone : within still call_alone.
Proof. by apply within_call. Qed.
Lemma calm_acquire path : within calm (acquire path).
Proof.
  unfold acquire. apply within_bind; [apply _|apply within_get, _|]. intros b.
  apply within_bind; [apply _|apply within_map, calm_call|]. intros []. destruct b; [apply within_fail|apply within_ret]; apply _.
Qed.
Lemma calm_load name path : within calm (load call name path).
Proof.
  unfold load. apply within_bind; [apply _|apply within_map, calm_call|]. intros [].
  apply within_bind; [apply _|apply within_get, _|]. intros f. apply within_lift, _.
Qed.

(** ** Reading and writing *)

Lemma load_Ok c name path w w' log : load c name path w = (w', Some (Ok log)) → records log = log_of w'.
Proof.
  unfold load. intros (w1 & [] & _ & Hl)%bind_ok. apply bind_ok in Hl as (w2 & f & Hf & Hl).
  injection Hf as <- <-. injection Hl as <- Hl. unfold load_records in Hl. unfold log_of.
  destruct (log_file w1) as [|why|rs]; [by injection Hl as <-|done|].
  destruct (rehydrate_and_verify rs) as [l|] eqn:E; [|done]. injection Hl as <-. by apply rehydrated in E as [-> _].
Qed.
Lemma store_of_spec file s : store_of file = Ok s → records (store_log s) = events file.
Proof.
  unfold store_of. destruct (push_records EventLog_new (events file)) as [l|] eqn:E; [|done]. simpl.
  destruct (verify_chain (records l)); [|done]. intros [= <-]. by apply push_records_app in E.
Qed.
Lemma lock_and_load_spec path w w' r : lock_and_load path w = (w', r) →
  calm w w' ∧ (∀ s, r = Some (Ok s) → records (store_log s) = store_of_file w).
Proof.
  intros Hr. assert (within calm (lock_and_load path)) as Hc.
  { unfold lock_and_load, store_load. apply within_bind; [apply _|apply within_map, calm_acquire|]. intros [].
    apply within_bind; [apply _|apply within_map, calm_call|]. intros []. apply within_bind; [apply _|apply within_get, _|]. intros f.
    apply within_bind; [apply _|apply within_lift, _|]. intros file. apply within_lift, _. }
  pose proof (Hc _ _ _ Hr) as [Hl Hs]. split; [done|]. intros s ->. unfold lock_and_load, store_load in Hr.
  apply bind_ok in Hr as (w1 & [] & _ & Hr). apply bind_ok in Hr as (w2 & [] & _ & Hr). apply bind_ok in Hr as (w3 & f & Hf & Hr).
  apply bind_ok in Hr as (w4 & file & Hfile & Hr). injection Hf as <- <-. injection Hfile as <- Hfile. injection Hr as <- Hr.
  apply store_of_spec in Hr as ->. unfold store_of_file. rewrite <- Hs. unfold read_store_file in Hfile.
  destruct (store_file _) as [| |x]; [by injection Hfile as <-|done|by injection Hfile as <-].
Qed.

Lemma atomic_write_spec R `{!PreOrder R} c path f w w' r : within R c → atomic_write c path f w = (w', r) →
  (R w w' ∧ r ≠ Some (Ok tt)) ∨ ∃ w1, R w w1 ∧ R (f w1) w'.
Proof.
  intros Hc. unfold atomic_write. rewrite bind_run.
  destruct (wmap_err (LockIo "rename temp over target" path) c w) as [w1 [[[]|e]|]] eqn:E1; apply (within_map R _ _ Hc) in E1;
    [|intros [= <- <-]; by left..].
  rewrite bind_run. cbn [wset]. intros Hr. right. exists w1. split; [done|]. by eapply (within_map R _ _ Hc).
Qed.
Lemma persist_spec path log w w' r : persist path log w = (w', r) →
  store_file w' = store_file w ∧ (log_file w' = log_file w ∨ log_file w' = Holds (records log)) ∧
  (r = Some (Ok tt) → log_file w' = Holds (records log)).
Proof.
  unfold persist, wmap_err. destruct (atomic_write _ _ _ w) as [w1 r1] eqn:E1.
  apply (atomic_write_spec still _ _ _ _ _ _ still_alone) in E1.
  assert (store_file w1 = store_file w ∧ (log_file w1 = log_file w ∨ log_file w1 = Holds (records log)) ∧
    (r1 = Some (Ok tt) → log_file w1 = Holds (records log))) as Hw.
  { destruct E1 as [[[Hl Hs] Hn]|(w2 & [Hl1 Hs1] & [Hl2 Hs2])]; [split_and!; [done|by left|by intros ?]|].
    cbn in Hl2, Hs2. split_and!; [congruence|by right|done]. }
  destruct r1 as [[[]|e]|]; intros [= <- <-]; naive_solver.
Qed.
(** The store is replaced by [s], or stays. *)
Lemma save_locked_spec path s w w' r : save_locked path s w = (w', r) →
  log_of w `prefix_of` log_of w' ∧ (store_of_file w' = store_of_file w ∨ store_of_file w' = records (store_log s)) ∧
  (r = Some (Ok tt) → store_of_file w' = records (store_log s)).
Proof.
  unfold save_locked, wmap_err. destruct (atomic_write _ _ _ w) as [w1 r1] eqn:E1.
  apply (atomic_write_spec calm _ _ _ _ _ _ calm_call) in E1.
  assert (log_of w `prefix_of` log_of w1 ∧ (store_of_file w1 = store_of_file w ∨ store_of_file w1 = records (store_log s)) ∧
    (r1 = Some (Ok tt) → store_of_file w1 = records (store_log s))) as Hw.
  { unfold store_of_file. destruct E1 as [[[Hl Hs] Hn]|(w2 & [Hl1 Hs1] & [Hl2 Hs2])].
    - rewrite Hs. split_and!; [done|by left|by intros ?].
    - cbn in Hl2, Hs2. rewrite Hs2. split_and!; [by etrans|by right|done]. }
  destruct r1 as [[[]|e]|]; intros [= <- <-]; naive_solver.
Qed.

(** ** Landing on the log *)

Lemma landed_payload_plain sc n t c : plain (landed_payload sc n t c) = true.
Proof. apply plain_object. case_decide; by repeat constructor. Qed.
(** The record reads back with the id the boundary keeps. *)
Lemma landed_payload_id log chain sc n t c at_ :
  landed_id (next_record log INTENT_LANDED_KIND chain (scrub_to_canonical (landed_payload sc n t c)) at_)
  = Some (structural_secret_scrub (sidecar_intent_id sc)).
Proof.
  unfold landed_id. cbn [kind payload next_record]. rewrite decide_True by done.
  rewrite scrub_to_canonical_read by apply landed_payload_plain. cbn [mbind option_bind]. unfold field_str, landed_payload, json_object.
  rewrite scrub_payload_get. set (fields := if decide (c = EmptyString) then _ else _).
  replace (obj_get "intent_id" (obj_of_list fields)) with (Some (Str (sidecar_intent_id sc))) by (subst fields; case_decide; reflexivity).
  cbn [fmap option_fmap option_map]. change (scrub_mode "intent_id" (Str (sidecar_intent_id sc))) with Structural.
  by rewrite scrub_value_Str.
Qed.

Lemma authorized_import log sc n t chain at_ log' : import_sidecar_authorized log sc n t chain at_ = Ok log' →
  records log `prefix_of` records log' ∧ structural_secret_scrub (sidecar_intent_id sc) ∈ landed_ids (records log').
Proof.
  unfold import_sidecar_authorized. case_decide; [done|]. unfold append_authorized, authorize_class.
  destruct (default Worker (last chain ≫= classify)); cbn; intros [= <-]; cbn [records];
    (split; [by apply prefix_app_r|rewrite (landed_ids_snoc _ _ _ (landed_payload_id _ _ _ _ _ _ _)); set_solver]).
Qed.
Lemma sealed_mono rs rs' key : rs `prefix_of` rs' →
  campaign_is_sealed {| records := rs |} key = true → campaign_is_sealed {| records := rs' |} key = true.
Proof. intros [k ->]. unfold campaign_is_sealed. cbn [records]. by rewrite existsb_app, orb_true_iff; left. Qed.

(** Whatever happens, the log only grows and the store stays; a landing that
    succeeds leaves the id on the log, and the campaign was open. *)
Lemma land_intent_spec path sc chain at_ w w' r : land_intent path sc chain at_ w = (w', r) →
  calm w w' ∧ (r = Some (Ok tt) → backed (log_of w') (sidecar_intent_id sc) ∧
    (chain_campaign chain ≠ EmptyString → campaign_is_sealed {| records := log_of w |} (chain_campaign chain) = false)).
Proof.
  unfold land_intent. rewrite bind_run.
  destruct (wmap_err lock_porcelain_error (acquire path) w) as [w1 [[[]|e]|]] eqn:E1; apply (within_map calm _ _ (calm_acquire path)) in E1;
    [|intros [= <- <-]; done..].
  rewrite bind_run. destruct (load call_alone "log" path w1) as [w2 r2] eqn:E2.
  assert (still w1 w2) as Hst.
  { revert E2. unfold load. revert w1 w2 r2 E1. intros w1 w2 r2 _. apply (within_bind still); [apply (within_map still), still_alone|]. intros [].
    apply (within_bind still); [apply (within_get still)|]. intros f. apply (within_lift still). }
  destruct r2 as [[log|e]|]; [|intros [= <- <-]; (split; [trans w1; [done|by apply still_calm]|done])..].
  apply load_Ok in E2. assert (calm w w2) as Hc by (trans w1; [done|by apply still_calm]).
  destruct (negb _ && _) eqn:Eseal; [intros [= <- <-]; done|].
  assert (chain_campaign chain ≠ EmptyString → campaign_is_sealed {| records := log_of w |} (chain_campaign chain) = false) as Hopen.
  { intros Hne. apply not_true_iff_false. intros Hs. apply (sealed_mono _ (log_of w2)) in Hs; [|apply Hc].
    rewrite bool_decide_eq_false_2 in Eseal by done. cbn in Eseal. destruct log as [rs]. cbn in E2. subst rs. congruence. }
  destruct (match intents_from_log log with Ok p => _ | Err _ => false end) eqn:Ea.
  { intros [= <- <-]. split; [done|]. intros _. split; [|done]. left. rewrite <- E2.
    destruct (intents_from_log log) as [p|] eqn:Ep; [|done]. apply bool_decide_eq_true in Ea. by apply (by_id_landed _ _ _ Ep). }
  rewrite bind_run. cbn [wlift]. destruct (import_sidecar_authorized _ _ _ _ _ _) as [log'|e] eqn:Ei; [|intros [= <- <-]; done].
  apply authorized_import in Ei as [Hp Hid]. intros (Hs & Hl & Hok)%persist_spec. split.
  - trans w2; [done|]. split; [|done]. unfold log_of at 2. destruct Hl as [->| ->]; [done|]. by rewrite <- E2.
  - intros Hr. split; [|done]. right. unfold log_of. by rewrite Hok.
Qed.

(** ** Healing *)

Definition log_ids (log : EventLog) : list string := landed_ids (records log).
(** The store's log grew by intents; its ids stay distinct and its chain intact. *)
Definition store_grows (l l' : EventLog) : Prop :=
  log_ids l ⊆ log_ids l' ∧ (NoDup (log_ids l) → NoDup (log_ids l')) ∧ (intact (records l) → intact (records l')).
#[local] Instance store_grows_preorder : PreOrder store_grows.
Proof. split; [by intros ?; split_and!|]. intros ??? (? & ? & ?) (? & ? & ?). split_and!; [by etrans|auto..]. Qed.

Lemma imported_grows log sc n t pc at_ log' r : import_sidecar log sc n t pc at_ = (log', Ok r) →
  store_grows log log' ∧ ∀ id, id ∈ log_ids log' ↔ id ∈ log_ids log ∨ id = sidecar_intent_id sc.
Proof.
  intros (Hl & Hn & Hi)%imported_ids. unfold store_grows, log_ids. rewrite Hl. split_and!; [set_solver| |done|set_solver].
  intros Hnd. apply NoDup_app. split_and!; [done|set_solver|apply NoDup_singleton].
Qed.
Lemma heal_spec key ids s ints s' : heal key ids s ints = Ok s' →
  store_grows (store_log s) (store_log s') ∧
  (∀ id, id ∈ log_ids (store_log s') → id ∈ log_ids (store_log s) ∨ id ∈ intent_id <$> ints) ∧
  (∀ id, id ∈ intent_id <$> ints → id ∈ ids ∨ id ∈ log_ids (store_log s')).
Proof.
  revert ids s. induction ints as [|i ints IH]; intros ids s; cbn [heal].
  { intros [= <-]. split_and!; [reflexivity|by left|by intros ? ?%not_elem_of_nil]. }
  case_decide as Hin.
  { intros (Hg & Hf & Ht)%IH. split_and!; [done| |]; intros id.
    - rewrite fmap_cons. intros [?|?]%Hf; [by left|right; by right].
    - rewrite fmap_cons, elem_of_cons. intros [->|?]; [by left|by apply Ht]. }
  destruct (import_sidecar _ _ _ _ _ _) as [log [r|e]] eqn:Ei; [|done]. apply imported_grows in Ei as [Hg1 Hids].
  cbn [sidecar_intent_id healed_sidecar] in Hids. intros (Hg & Hf & Ht)%IH. cbn [store_log with_intent] in *. split_and!; [by etrans| |]; intros id.
  - rewrite fmap_cons, elem_of_cons. intros [Hid|?]%Hf; [|by right; right]. apply Hids in Hid as [?| ->]; [by left|by right; left].
  - rewrite fmap_cons, elem_of_cons. intros [->|Hid]; [right; apply Hg, Hids; by right|].
    apply Ht in Hid as [[->%elem_of_singleton|?]%elem_of_union|?]; [right; apply Hg, Hids; by right|by left|by right].
Qed.

(** Where a run stands: the log grew, and the store file is what it was or a store
    that grew from it, all its new ids backed. *)
Definition heals (w w' : World) : Prop :=
  log_of w `prefix_of` log_of w' ∧ store_grows {| records := store_of_file w |} {| records := store_of_file w' |} ∧
  (∀ id, id ∈ store_ids w' → id ∈ store_ids w ∨ backed (log_of w') id).
#[local] Instance heals_preorder : PreOrder heals.
Proof.
  split; [intros w; split_and!; [done|reflexivity|by left]|]. intros a b c (La & Ga & Ba) (Lb & Gb & Bb).
  split_and!; [by etrans..|]. intros id [Hid|?]%Bb; [|by right]. apply Ba in Hid as [?|?]; [by left|right; by eapply backed_mono].
Qed.
Lemma calm_heals w w' : calm w w' → heals w w'.
Proof. intros [Hl Hs]. unfold heals, store_ids, store_of_file. rewrite Hs. split_and!; [done|reflexivity|by left]. Qed.
Lemma heals_no_phantom w w' : heals w w' → no_phantom w → no_phantom w'.
Proof. intros (Hl & _ & Hb) Hn id [Hid|?]%Hb; [|done]. eapply backed_mono; [exact Hl|by apply Hn]. Qed.

(** Saving a store that grew from the file by backed ids. *)
Lemma save_heals path s w w' r : store_grows {| records := store_of_file w |} (store_log s) →
  (∀ id, id ∈ log_ids (store_log s) → id ∈ store_ids w ∨ backed (log_of w) id) →
  save_locked path s w = (w', r) →
  heals w w' ∧ (r = Some (Ok tt) → store_of_file w' = records (store_log s)).
Proof.
  intros Hg Hb (Hl & Hs & Hok)%save_locked_spec. split; [|done]. unfold heals, store_ids in *.
  destruct Hs as [-> | ->]; [split_and!; [done|reflexivity|by left]|]. split_and!; [done|by destruct (store_log s)|].
  intros id [?|?]%Hb; [by left|right; by eapply backed_mono].
Qed.
Lemma reconcile_spec s sp path w w' r : records (store_log s) = store_of_file w →
  reconcile_store_from_log s sp path w = (w', r) →
  heals w w' ∧ ∀ s', r = Some (Ok s') → records (store_log s') = store_of_file w' ∧ landed_ids (log_of w) ⊆ store_ids w'.
Proof.
  intros Hs. unfold reconcile_store_from_log. rewrite bind_run.
  destruct (load call "--log" path w) as [w1 r1] eqn:E1. pose proof (calm_load _ _ _ _ _ E1) as Hc.
  destruct r1 as [[log|e]|]; [|intros [= <- <-]; (split; [by apply calm_heals|done])..]. apply load_Ok in E1.
  rewrite bind_run. cbn [wlift]. destruct (intents_from_log log) as [p|e] eqn:Ep; [|intros [= <- <-]; (split; [by apply calm_heals|done])].
  cbn [map_err]. rewrite bind_run. cbn [wlift]. destruct (intents_from_log (store_log s)) as [q|e] eqn:Eq;
    [|intros [= <- <-]; (split; [by apply calm_heals|done])]. cbn [map_err].
  apply projected_ids in Ep as Hp. apply projected_ids in Eq as Hq. rewrite E1 in Hp. rewrite Hs in Hq.
  assert (store_of_file w1 = store_of_file w) as Hsf by (unfold store_of_file; by rewrite (proj2 Hc)).
  assert (landed_ids (log_of w) ⊆ landed_ids (log_of w1)) as Hsub by (intros id; apply landed_ids_mono, Hc).
  assert (∀ id, id ∈ id_set q ↔ id ∈ store_ids w1) as Hset.
  { intros id. unfold id_set, store_ids. by rewrite elem_of_list_to_set, Hq, Hsf. }
  destruct (forallb _ _) eqn:Eall.
  { intros [= <- <-]. split; [by apply calm_heals|]. intros s' [= <-]. split; [congruence|]. etrans; [exact Hsub|].
    rewrite <- Hp. intros id (i & -> & Hi)%list_elem_of_fmap. rewrite forallb_forall in Eall. apply Hset.
    eapply bool_decide_eq_true, Eall. by apply list_elem_of_In. }
  rewrite bind_run. cbn [wlift]. destruct (heal _ _ _ _) as [s2|e] eqn:Eh; [|intros [= <- <-]; (split; [by apply calm_heals|done])].
  apply heal_spec in Eh as (Hg & Hf & Ht). rewrite Hp in Hf, Ht. rewrite bind_run. unfold wmap_err.
  destruct (save_locked sp s2 w1) as [w2 r2] eqn:Ew. apply save_heals in Ew as [Hh Hok].
  - assert (heals w w2) as Hh' by (trans w1; [by apply calm_heals|done]).
    destruct r2 as [[[]|e]|]; intros [= <- <-]; (split; [done|]); [|done..]. intros s' [= <-]. rewrite (Hok eq_refl). split; [done|].
    etrans; [exact Hsub|]. intros id Hid. unfold store_ids. rewrite (Hok eq_refl).
    apply Ht in Hid as [Hid|?]; [|done]. apply (proj1 Hg). unfold log_ids. rewrite Hs, <- Hsf. by apply Hset.
  - destruct (store_log s) as [rs] eqn:El. cbn in Hs. by rewrite Hsf, <- Hs.
  - intros id [Hid|?]%Hf; [left|right; by left]. unfold log_ids, store_ids in *. by rewrite Hsf, <- Hs.
Qed.

(** ** A run *)

Lemma calm_ensure sp : within calm (ensure_store_parent sp).
Proof. unfold ensure_store_parent. case_decide; [apply (within_ret calm)|apply (within_map calm), calm_call]. Qed.

(** What a run that succeeds says: the intent is in both files, and the store has
    all the log had. *)
Definition settled (w w' : World) (res : NewResult) : Prop :=
  nr_intent_id res ∈ store_ids w' ∧ backed (log_of w') (nr_intent_id res) ∧ landed_ids (log_of w) ⊆ store_ids w'.
Lemma authored_ids input sc chain res : authored input = (sc, chain, res) →
  sidecar_intent_id sc = nr_intent_id res ∧ chain_campaign chain = scrub (ni_campaign input).
Proof. unfold authored. intros [= <- <- <-]. done. Qed.

(** A landing after the store was healed. *)
Lemma land_from path sc chain at_ w w3 w4 r : heals w w3 → land_intent path sc chain at_ w3 = (w4, r) →
  heals w w4 ∧ store_of_file w4 = store_of_file w3 ∧ (r = Some (Ok tt) → backed (log_of w4) (sidecar_intent_id sc) ∧
    (chain_campaign chain ≠ EmptyString → campaign_is_sealed {| records := log_of w |} (chain_campaign chain) = false)).
Proof.
  intros Hh [Hc Hok]%land_intent_spec. split_and!; [trans w3; [done|by apply calm_heals]|unfold store_of_file; by rewrite (proj2 Hc)|].
  intros Hr. destruct (Hok Hr) as [Hb Hopen]. split; [done|]. intros Hne. apply not_true_iff_false. intros Hs.
  apply (sealed_mono _ (log_of w3)) in Hs; [|apply Hh]. by rewrite Hopen in Hs.
Qed.
Lemma author_spec w w3 s path sc chain res0 sp now w' r : heals w w3 → records (store_log s) = store_of_file w3 →
  landed_ids (log_of w) ⊆ store_ids w3 → sidecar_intent_id sc = nr_intent_id res0 →
  author s (Some path) sc chain res0 sp now w3 = (w', r) →
  heals w w' ∧ (∀ res, r = Some (Ok res) → settled w w' res ∧ nr_intent_id res = nr_intent_id res0 ∧
    (chain_campaign chain ≠ EmptyString → campaign_is_sealed {| records := log_of w |} (chain_campaign chain) = false)).
Proof.
  intros Hh Hs Hall Hid. unfold author. rewrite bind_run. cbn [wlift].
  destruct (map_err from_store (intent_for s (sidecar_intent_id sc))) as [there|e] eqn:Et; [|intros [= <- <-]; done].
  assert (is_Some there ↔ nr_intent_id res0 ∈ store_ids w3) as Hthere.
  { unfold intent_for in Et. destruct (intents_from_log (store_log s)) as [p|] eqn:Ep; [|done]. cbn in Et. injection Et as <-.
    rewrite (by_id_landed _ _ _ Ep), Hs, Hid. done. }
  destruct there as [i|].
  - rewrite bind_run. cbn [land_on]. destruct (land_intent path sc chain now w3) as [w4 r4] eqn:E4.
    apply (land_from _ _ _ _ w) in E4 as (Hw4 & Hs4 & Hok); [|done].
    destruct r4 as [[[]|e]|]; intros [= <- <-]; (split; [done|]); [|done..]. intros res [= <-]. destruct (Hok eq_refl) as [Hb Hopen].
    rewrite Hid in Hb. unfold settled, store_ids in *. cbn [nr_intent_id]. rewrite Hs4. split; [split_and!; [by apply Hthere|done|done]|done].
  - rewrite bind_run. cbn [wlift]. destruct (import_sidecar _ _ _ _ _ _) as [slog [rec|e]] eqn:Ei; [|intros [= <- <-]; done].
    apply imported_grows in Ei as [Hg Hids]. rewrite bind_run. cbn [land_on].
    destruct (land_intent path sc chain now w3) as [w4 r4] eqn:E4. apply (land_from _ _ _ _ w) in E4 as (Hw4 & Hs4 & Hok); [|done].
    destruct r4 as [[[]|e]|]; [|intros [= <- <-]; done..]. destruct (Hok eq_refl) as [Hb Hopen].
    rewrite bind_run. unfold wmap_err. destruct (save_locked sp _ w4) as [w5 r5] eqn:E5.
    apply save_heals in E5 as [Hh5 Hok5]; cbn [store_log insert_intent] in *.
    + assert (heals w w5) as Hw5 by (by trans w4).
      destruct r5 as [[[]|e]|]; intros [= <- <-]; (split; [done|]); [|done..]. intros res [= <-].
      assert (∀ id, id ∈ store_ids w5 ↔ id ∈ store_ids w3 ∨ id = nr_intent_id res0) as Hi5.
      { intros id. unfold store_ids. rewrite (Hok5 eq_refl), <- Hs, <- Hid. apply Hids. }
      split; [|done]. split_and!; [apply Hi5; by right|rewrite <- Hid; eapply backed_mono; [apply Hh5|done]|].
      intros id Hi. apply Hi5. left. by apply Hall.
    + rewrite Hs4, <- Hs. by destruct (store_log s).
    + intros id [Hi| ->]%Hids; [left|by right]. unfold store_ids. rewrite Hs4, <- Hs. exact Hi.
Qed.
Lemma admitted_id input dl id : admit_input input dl = Ok tt → ni_id input = Some id → validate_identifier id "--id" = Ok tt.
Proof.
  unfold admit_input. case_decide; [done|]. destruct (validate_identifier (ni_campaign input) _); [|done]. cbn.
  destruct dl as [log|]; [|done]. cbn. destruct (match log with Some _ => _ | None => _ end); [done|]. intros Ha Hid. by rewrite Hid in Ha.
Qed.
Lemma run_spec input sp dl now w w' r path : ni_log input = Some path → run input sp dl now w = (w', r) →
  heals w w' ∧ (∀ res, r = Some (Ok res) → settled w w' res ∧
    (∀ id, ni_id input = Some id → nr_intent_id res = id ∧ validate_identifier id "--id" = Ok tt) ∧
    (scrub (ni_campaign input) ≠ EmptyString → campaign_is_sealed {| records := log_of w |} (scrub (ni_campaign input)) = false)).
Proof.
  intros Hlog. unfold run. rewrite bind_run. cbn [wlift].
  destruct (admit_input input dl) as [[]|e] eqn:Eadm; [|intros [= <- <-]; (split; [reflexivity|done])].
  destruct (authored input) as [[sc chain] res0] eqn:Ea. pose proof (authored_ids _ _ _ _ Ea) as [Hid Hcamp].
  rewrite bind_run. destruct (ensure_store_parent sp w) as [w1 [[[]|e]|]] eqn:E1; apply calm_ensure in E1;
    [|intros [= <- <-]; (split; [by apply calm_heals|done])..].
  rewrite bind_run. unfold wmap_err at 1. destruct (lock_and_load sp w1) as [w2 r2] eqn:E2. apply lock_and_load_spec in E2 as [Hc2 Hld].
  assert (calm w w2) as Hc by (by trans w1).
  destruct r2 as [[s|e]|]; [|intros [= <- <-]; (split; [by apply calm_heals|done])..]. specialize (Hld _ eq_refl).
  assert (records (store_log s) = store_of_file w2) as Hs by (rewrite Hld; unfold store_of_file; by rewrite (proj2 Hc2)).
  rewrite bind_run, Hlog. destruct (reconcile_store_from_log s sp path w2) as [w3 r3] eqn:E3. apply reconcile_spec in E3 as [Hh Hok]; [|done].
  assert (heals w w3) as Hw3 by (trans w2; [by apply calm_heals|done]).
  destruct r3 as [[s3|e]|]; [|intros [= <- <-]; done..]. destruct (Hok _ eq_refl) as [Hs3 Hall].
  rewrite <- Hcamp. intros Hr. apply (author_spec w) in Hr as [Hw' Hres]; [|done..| |done].
  - split; [done|]. intros res Hr. destruct (Hres _ Hr) as (Hset & Hnr & Hopen). split_and!; [done| |done].
    intros id Hgiven. rewrite Hnr. split; [|by eapply admitted_id].
    unfold authored in Ea. injection Ea as <- <- <-. cbn. by rewrite Hgiven.
  - intros id Hi. apply Hall. eapply landed_ids_mono; [apply Hc|done].
Qed.

(** Runs one after the other, each with its input, clock and the ends of its
    calls. *)
Record Attempt := {
  at_input : NewIntent; at_default : result PorcelainError (option EventLog); at_now : N; at_script : list Event }.
Definition attempt_run (sp : string) (w : World) (a : Attempt) : World * option (result PorcelainError NewResult) :=
  run (at_input a) sp (at_default a) (at_now a) {| log_file := log_file w; store_file := store_file w; script := at_script a |}.
Definition attempts (sp : string) : World → list Attempt → World := foldl (λ w a, (attempt_run sp w a).1).

Lemma attempts_heal sp path w l : Forall (λ a, ni_log (at_input a) = Some path) l → heals w (attempts sp w l).
Proof.
  intros Hl. revert w. induction Hl as [|a l Ha Hl IH]; intros w; [reflexivity|]. cbn [attempts foldl]. etrans; [|apply IH].
  unfold attempt_run. destruct (run _ _ _ _ _) as [w1 r1] eqn:E. apply (run_spec _ _ _ _ _ _ _ _ Ha) in E as [Hh _]. exact Hh.
Qed.

(** C23. Runs over one log and one store, each cut short anywhere, others appending in
    between: when the store held no intent the log lacks, it never does; nothing is
    lost from either file, no intent is stored twice, and an intact store stays
    intact.  A run that then succeeds has its intent in both files, under the id it
    was given, and every intent of the log in the store. *)
Theorem store_never_ahead sp path w l a w' res : no_phantom w →
  Forall (λ a, ni_log (at_input a) = Some path) (l ++ [a]) →
  let before := attempts sp w l in
  attempt_run sp before a = (w', res) →
  (no_phantom before ∧ log_of w `prefix_of` log_of before ∧
   store_grows {| records := store_of_file w |} {| records := store_of_file before |}) ∧
  (∀ done_, res = Some (Ok done_) → settled before w' done_ ∧ no_phantom w' ∧
    ∀ id, ni_id (at_input a) = Some id → trim id ≠ REDACTED → id ∈ store_ids w' ∧ id ∈ landed_ids (log_of w')).
Proof.
  intros Hn [Hl [Ha _]%Forall_cons]%Forall_app before Hr. pose proof (attempts_heal sp path w l Hl) as Hh. fold before in Hh.
  assert (no_phantom before) as Hb by (eapply heals_no_phantom; [exact Hh|done]).
  split; [split_and!; [done|apply Hh..]|]. intros done_ ->. unfold attempt_run in Hr. apply (run_spec _ _ _ _ _ _ _ _ Ha) in Hr as [Hw Hok].
  destruct (Hok _ eq_refl) as ((Hst & Hlog & Hall) & Hid & _). split_and!; [done|eapply heals_no_phantom; [exact Hw|exact Hb]|].
  intros id Hgiven Hmark. apply Hid in Hgiven as [<- Hv]. split; [done|].
  apply validated_kept in Hv as [Hv|]; [|done]. unfold backed in Hlog. rewrite Hv in Hlog. by destruct Hlog.
Qed.

(** A campaign the log has sealed, under the name it is written with, takes no
    intent. *)
Theorem sealed_refuses input sp dl now w w' r path : ni_log input = Some path → scrub (ni_campaign input) ≠ EmptyString →
  campaign_is_sealed {| records := log_of w |} (scrub (ni_campaign input)) = true →
  run input sp dl now w = (w', r) → ∀ res, r ≠ Some (Ok res).
Proof.
  intros Hlog Hne Hs Hr res ->. apply (run_spec _ _ _ _ _ _ _ _ Hlog) in Hr as [_ Hok].
  destruct (Hok _ eq_refl) as (_ & _ & Ho). by rewrite (Ho Hne) in Hs.
Qed.

(** ** Derived ids *)

Definition fits64 (s : string) : Prop := N.of_nat (String.length s) ≤ u64_max.
Lemma id_field_code : prefix_code fits64 id_field.
Proof.
  intros s t r r' Hs Ht. unfold id_field. rewrite <- !(assoc_L (++)). intros [Hlen Heq]%u64_prefix_code; [|done..].
  apply app_inj_1 in Heq as [Heq ->]; [|rewrite !length_as_bytes; lia]. split; [by apply as_bytes_inj|done].
Qed.
(** The bytes an id is derived from determine the charter, the campaign, the agent
    and every item of the acceptance. *)
Theorem intent_id_preimage_inj c k l a c' k' l' a' : Forall fits64 (c :: k :: a :: l) → Forall fits64 (c' :: k' :: a' :: l') →
  N.of_nat (length l) ≤ u64_max → N.of_nat (length l') ≤ u64_max →
  intent_id_preimage c k l a = intent_id_preimage c' k' l' a' → c = c' ∧ k = k' ∧ l = l' ∧ a = a'.
Proof.
  rewrite !Forall_cons. intros (Hc & Hk & Ha & Hl) (Hc' & Hk' & Ha' & Hl') Hn Hn'. unfold intent_id_preimage.
  intros [-> Heq]%id_field_code; [|done..]. apply id_field_code in Heq as [-> Heq]; [|done..].
  apply id_field_code in Heq as [-> Heq]; [|done..]. apply u64_prefix_code in Heq as [Hlen Heq]; [|done..].
  rewrite <- (app_nil_r (l ≫= id_field)), <- (app_nil_r (l' ≫= id_field)) in Heq.
  apply (prefix_code_concat _ _ _ _ _ _ id_field_code Hl Hl') in Heq as [-> _]; [done|lia].
Qed.
End Authoring.

Module AuthoringExample.
Import Toy GateList Log2.
#[local] Existing Instance Codec.codec.
#[local] Existing Instance Codec.codec_laws.

Definition intent_input (campaign : string) (id : option string) (log : option string) : NewIntent := {|
  ni_charter := "sort the index"; ni_campaign := campaign; ni_acceptance := ["tests pass"]; ni_id := id; ni_agent := Some "codex";
  ni_context_ref := None; ni_log := log |}.
Definition try_with (script : list Event) (input : NewIntent) : Attempt := {|
  at_input := input; at_default := Ok None; at_now := 5; at_script := script |}.
Definition empty : World := {| log_file := Absent; store_file := Absent; script := [] |}.
Definition go_on (w : World) (a : Attempt) : World * option (result PorcelainError NewResult) :=
  attempt_run (λ p, p) (λ _, EmptyString) "store.json" w a.
Definition fine : Event := {| others := []; held := false; ends := Fine |}.
Definition dies : Event := {| others := []; held := false; ends := Dies |}.
Definition one : NewIntent := intent_input "c1" (Some "i1") (Some "log.json").
(** The run dies between the log and the store, and is run again. *)
Definition cut : World := (go_on empty (try_with (replicate 7 fine ++ [dies]) one)).1.
Definition again : World * option (result PorcelainError NewResult) := go_on cut (try_with [] one).

Example cut_is_log_ahead : store_ids cut = [] ∧ landed_ids (log_of cut) = ["i1"].
Proof. split; vm_compute; reflexivity. Qed.
(** The second run finds the intent healed and reports it as there; the
    acceptance it was given again is not kept. *)
Example acceptance_lost : again.2 = Some (Ok {| nr_intent_id := "i1"; already_exists := true; nr_campaign := "c1"; nr_agent := "codex" |}) ∧
  match store_file again.1 with Holds f => acceptance <$> sf_sidecars f | _ => [] end = [[]].
Proof. split; vm_compute; reflexivity. Qed.

(** A campaign named by a ULID is written under the mark of a redaction, so the
    seal of its name is not found. *)
Definition ulid : string := "01HQXW8ZK4M9P2N7R3T5V6Y8BC".
Definition closed (campaign : string) : Event := {|
  others := [{| e_kind := KIND_CAMPAIGN_CLOSED; e_chain := ["user:owner"];
                e_payload := Codec.to_string (json_object [("campaign", Str campaign)]); e_at := 1 |}]; held := false; ends := Fine |}.
Example sealed_ulid_accepts :
  (go_on empty (try_with [closed "c1"] one)).2 = Some (Err (seal_refusal "c1" "c1")) ∧
  (go_on empty (try_with [closed ulid] (intent_input ulid (Some "i1") (Some "log.json")))).2
  = Some (Ok {| nr_intent_id := "i1"; already_exists := false; nr_campaign := REDACTED; nr_agent := "codex" |}).
Proof. split; vm_compute; reflexivity. Qed.

Lemma store_never_ahead_witness : no_phantom cut ∧ settled cut again.1 {|
  nr_intent_id := "i1"; already_exists := true; nr_campaign := "c1"; nr_agent := "codex" |} ∧ landed_ids (log_of again.1) = ["i1"].
Proof.
  destruct (store_never_ahead (λ p, p) (λ _, EmptyString) "store.json" "log.json" empty [try_with (replicate 7 fine ++ [dies]) one]
    (try_with [] one) again.1 again.2) as [(Hb & _) Hok].
  - intros id Hid. by apply not_elem_of_nil in Hid.
  - by repeat constructor.
  - vm_compute. reflexivity.
  - split; [exact Hb|]. split; [|vm_compute; reflexivity]. apply Hok. vm_compute. reflexivity.
Defined.
End AuthoringExample.
