(* ===== verification/Flake.v ===== *)
(** Flake statistics and the quarantine list ([crates/hugit-diag/src/flake]).

    A collector counts the executions of each test by its memo key; the detector
    classifies a test from its counts; the quarantine list annotates the tests
    classified flaky and nothing else.  The failure rate is binary64, as in the
    source, and the counters are [u64].  The theorem: after any sequence of
    results, the tests on the list are those with at least [MIN_RUNS_FLAKY] runs,
    a pass and a failure, whatever order the map yields its entries in, and no
    annotation gates. *)

From S2P Require Import Prelude Float Crypto Bisect.

(** * Statistics *)

Record TestStats := { run_count : N; pass_count : N; fail_count : N }.
Definition TestStats_default : TestStats := {| run_count := 0; pass_count := 0; fail_count := 0 |}.

Definition stats_record (s : TestStats) (exit_ : Z) : TestStats :=
  let run := u64_add (run_count s) 1 in
  if decide (exit_ = 0%Z)
  then {| run_count := run; pass_count := u64_add (pass_count s) 1; fail_count := fail_count s |}
  else {| run_count := run; pass_count := pass_count s; fail_count := u64_add (fail_count s) 1 |}.

Definition fail_rate (s : TestStats) : spec_float :=
  if run_count s =? 0 then f64_zero else f64_div (f64_of_N (fail_count s)) (f64_of_N (run_count s)).

(** * The detector *)

Definition MIN_RUNS_FLAKY : N := 5.
Definition MIN_RUNS_REAL : N := 3.

Inductive Classification := Flaky | Real | Unknown.
#[export] Instance Classification_eq_dec : EqDecision Classification.
Proof. solve_decision. Defined.

Definition classify_from_stats (s : TestStats) : Classification :=
  if run_count s =? 0 then Unknown
  else
    let rate := fail_rate s in
    if SFeqb rate f64_one && (MIN_RUNS_REAL <=? run_count s) then Real
    else if SFltb f64_zero rate && SFltb rate f64_one && (MIN_RUNS_FLAKY <=? run_count s) then Flaky
    else Unknown.

(** * The quarantine list *)

Record QuarantineAnnotation := { test_id : string; note : string; gates : bool }.
Record QuarantineList := { annotations : list QuarantineAnnotation }.
(** [AutoActMechanism]: an enum with no variant. *)
Inductive AutoActMechanism : Set :=.

Definition QuarantineList_default : QuarantineList := {| annotations := [] |}.
Definition quarantine_add (l : QuarantineList) (id note_ : string) : QuarantineList :=
  {| annotations := annotations l ++ [{| test_id := id; note := note_; gates := false |}] |}.
Definition annotation_for (l : QuarantineList) (id : string) : option QuarantineAnnotation :=
  snd <$> list_find (λ a, test_id a = id) (annotations l).

(** * The collector *)

Record FlakeCollector := { stats : gmap string TestStats }.
Definition FlakeCollector_new : FlakeCollector := {| stats := ∅ |}.

Definition collector_record (c : FlakeCollector) (r : CheckResult) : FlakeCollector :=
  let s := default TestStats_default (stats c !! memo_key r) in
  {| stats := <[memo_key r := stats_record s (exit r)]> (stats c) |}.
Definition feed_result : FlakeCollector → CheckResult → FlakeCollector := collector_record.

Definition stats_for (c : FlakeCollector) (id : string) : option TestStats := stats c !! id.
Definition collector_classify (c : FlakeCollector) (id : string) : option Classification :=
  classify_from_stats <$> stats c !! id.

Definition quarantine_note (s : TestStats) : string :=
  "detected flaky: " +:+ decimal (fail_count s) +:+ "/" +:+ decimal (run_count s) +:+ " executions failed ("
  +:+ decimal (f64_round (f64_mul (fail_rate s) (f64_of_N 100))) +:+ "% fail rate)".

(** The list over the entries in the order [entries] gives them: the order of a
    [HashMap] is not specified. *)
Definition quarantine_entries (entries : list (string * TestStats)) : QuarantineList :=
  foldl (λ l e,
    if decide (classify_from_stats e.2 = Flaky) then quarantine_add l e.1 (quarantine_note e.2) else l)
    QuarantineList_default entries.
Definition quarantine_list (c : FlakeCollector) : QuarantineList :=
  quarantine_entries (map_to_list (stats c)).

(** * What the counts say *)

(** The runs of test [id] among [rs], and those that failed. *)
Definition runs_of (id : string) (rs : list CheckResult) : list CheckResult :=
  filter (λ r, memo_key r = id) rs.
Definition count_runs (id : string) (rs : list CheckResult) : N := N.of_nat (length (runs_of id rs)).
Definition count_fails (id : string) (rs : list CheckResult) : N :=
  N.of_nat (length (filter (λ r, exit r ≠ 0%Z) (runs_of id rs))).

(** The classification by the counts alone. *)
Definition classify_counts (runs fails : N) : Classification :=
  if (fails =? runs) && (MIN_RUNS_REAL <=? runs) then Real
  else if (0 <? fails) && (fails <? runs) && (MIN_RUNS_FLAKY <=? runs) then Flaky
  else Unknown.

(** The bound up to which the division is compared with the counts, by evaluation
    of every pair. *)
Definition MAX_RUNS : N := 128.

Definition agrees_at (runs fails : N) : bool :=
  bool_decide (classify_from_stats {| run_count := runs; pass_count := runs - fails; fail_count := fails |}
               = classify_counts runs fails).
Lemma classified_by_counts :
  forallb (λ r, forallb (λ f, agrees_at (N.of_nat r) (N.of_nat f)) (seq 0 (S r))) (seq 0 129) = true.
Proof. vm_compute. reflexivity. Qed.

Lemma classify_from_stats_counts s :
  run_count s ≤ MAX_RUNS → fail_count s ≤ run_count s →
  classify_from_stats s = classify_counts (run_count s) (fail_count s).
Proof.
  intros Hr Hf. unfold MAX_RUNS in Hr. pose proof classified_by_counts as Hc. rewrite forallb_forall in Hc.
  specialize (Hc (N.to_nat (run_count s))). rewrite in_seq in Hc. specialize (Hc ltac:(lia)).
  rewrite forallb_forall in Hc. specialize (Hc (N.to_nat (fail_count s))). rewrite in_seq in Hc.
  specialize (Hc ltac:(lia)). unfold agrees_at in Hc. apply bool_decide_eq_true in Hc.
  rewrite !N2Nat.id in Hc. rewrite <- Hc. by destruct s.
Qed.

(** * The statistics of a history *)

Definition stats_of (id : string) (rs : list CheckResult) : TestStats := {|
  run_count := count_runs id rs; pass_count := count_runs id rs - count_fails id rs;
  fail_count := count_fails id rs |}.

Lemma count_fails_le id rs : count_fails id rs ≤ count_runs id rs.
Proof.
  unfold count_fails, count_runs. pose proof (length_filter (λ r, exit r ≠ 0%Z) (runs_of id rs)). lia.
Qed.

Lemma runs_of_snoc id rs r :
  runs_of id (rs ++ [r]) = runs_of id rs ++ (if decide (memo_key r = id) then [r] else []).
Proof. unfold runs_of. rewrite filter_app, filter_cons, filter_nil. done. Qed.

Lemma counts_snoc_other id rs r : memo_key r ≠ id →
  count_runs id (rs ++ [r]) = count_runs id rs ∧ count_fails id (rs ++ [r]) = count_fails id rs.
Proof.
  intros Hne. unfold count_runs, count_fails. rewrite runs_of_snoc, decide_False by done.
  by rewrite app_nil_r.
Qed.
Lemma counts_snoc_same rs r :
  count_runs (memo_key r) (rs ++ [r]) = count_runs (memo_key r) rs + 1 ∧
  count_fails (memo_key r) (rs ++ [r])
  = count_fails (memo_key r) rs + (if decide (exit r = 0%Z) then 0 else 1).
Proof.
  unfold count_runs, count_fails. rewrite runs_of_snoc, decide_True by done.
  rewrite filter_app, !length_app, filter_cons, filter_nil. cbn [length].
  destruct (decide (exit r = 0%Z)) as [Hz|Hz].
  - rewrite decide_False by tauto. cbn [length]. lia.
  - rewrite decide_True by done. cbn [length]. lia.
Qed.

(** The collector holds, for every test, exactly the counts of its history, as
    long as they are [u64] values. *)
Definition tracks (rs : list CheckResult) (c : FlakeCollector) : Prop :=
  ∀ id, stats c !! id = if decide (runs_of id rs = []) then None else Some (stats_of id rs).

Lemma stats_record_spec rs r : N.of_nat (length rs) < u64_max →
  stats_record (stats_of (memo_key r) rs) (exit r) = stats_of (memo_key r) (rs ++ [r]).
Proof.
  intros Hb. pose proof (counts_snoc_same rs r) as [Hr Hf].
  assert (count_runs (memo_key r) rs ≤ N.of_nat (length rs)) as Hle.
  { unfold count_runs, runs_of. pose proof (length_filter (λ x, memo_key x = memo_key r) rs). lia. }
  pose proof (count_fails_le (memo_key r) rs) as Hfr.
  unfold stats_record, stats_of, u64_add. cbn [run_count pass_count fail_count]. rewrite Hr, Hf.
  assert (∀ n, n < u64_max → (n + 1) mod 18446744073709551616 = n + 1) as Hmod
    by (intros n Hn; apply N.mod_small; unfold u64_max in Hn; lia).
  destruct (decide (exit r = 0%Z)); f_equal;
    rewrite ?Hmod by lia; lia.
Qed.

Lemma tracks_nil : tracks [] FlakeCollector_new.
Proof. intros id. cbn. rewrite lookup_empty. done. Qed.

Lemma tracks_snoc rs c r : N.of_nat (length rs) < u64_max → tracks rs c → tracks (rs ++ [r]) (feed_result c r).
Proof.
  intros Hb Ht id. unfold feed_result, collector_record. cbn [stats].
  destruct (decide (memo_key r = id)) as [<-|Hne].
  - rewrite lookup_insert, decide_True by done.
    rewrite decide_False.
    2:{ rewrite runs_of_snoc, decide_True by done. destruct (runs_of (memo_key r) rs); discriminate. }
    f_equal. rewrite <- stats_record_spec by done. f_equal. rewrite (Ht (memo_key r)).
    case_decide as Hnil; [|done]. cbn. unfold stats_of, count_fails, count_runs. by rewrite Hnil.
  - rewrite lookup_insert_ne by done. rewrite (Ht id).
    rewrite runs_of_snoc, (decide_False (P := memo_key r = id)) by done. rewrite app_nil_r.
    case_decide; [done|]. f_equal. unfold stats_of.
    by destruct (counts_snoc_other id rs r Hne) as [-> ->].
Qed.

Definition feed (rs : list CheckResult) : FlakeCollector := foldl feed_result FlakeCollector_new rs.
Lemma tracks_feed rs : N.of_nat (length rs) ≤ u64_max → tracks rs (feed rs).
Proof.
  unfold feed. induction rs as [|r rs IH] using rev_ind; intros Hb; [apply tracks_nil|].
  rewrite foldl_app. cbn [foldl]. rewrite length_app in Hb. cbn [length] in Hb.
  apply tracks_snoc; [lia|]. apply IH. lia.
Qed.

(** * The list of any order of entries *)

Lemma quarantine_entries_spec entries l :
  annotations (foldl (λ l e,
    if decide (classify_from_stats e.2 = Flaky) then quarantine_add l e.1 (quarantine_note e.2) else l) l entries)
  = annotations l ++ ((λ e, {| test_id := e.1; note := quarantine_note e.2; gates := false |})
      <$> filter (λ e, classify_from_stats e.2 = Flaky) entries).
Proof.
  revert l. induction entries as [|e entries IH]; intros l; cbn [foldl].
  - by rewrite app_nil_r.
  - rewrite IH. rewrite filter_cons. case_decide; [|done]. cbn. by rewrite <- (assoc_L (++)).
Qed.

Lemma annotation_for_spec entries id a : NoDup entries.*1 →
  annotation_for (quarantine_entries entries) id = Some a ↔
  ∃ s, (id, s) ∈ entries ∧ classify_from_stats s = Flaky
       ∧ a = {| test_id := id; note := quarantine_note s; gates := false |}.
Proof.
  intros Hnd. unfold annotation_for, quarantine_entries. rewrite quarantine_entries_spec. cbn [annotations app QuarantineList_default].
  set (l := _ <$> filter _ entries).
  assert (∀ b, b ∈ l ↔ ∃ e, e ∈ entries ∧ classify_from_stats e.2 = Flaky ∧
            b = {| test_id := e.1; note := quarantine_note e.2; gates := false |}) as Hl.
  { intros b. unfold l. rewrite list_elem_of_fmap. setoid_rewrite list_elem_of_filter. naive_solver. }
  rewrite fmap_Some. split.
  - intros [[i b] [Hf Heq]]. cbn in Heq. subst a. apply list_find_Some in Hf as (Hi & Hid & _).
    apply list_elem_of_lookup_2, Hl in Hi as ([id' s] & He & Hc & ->). cbn in *. subst id'. by exists s.
  - intros (s & He & Hc & ->).
    destruct (list_find (λ a, test_id a = id) l) as [[i b]|] eqn:Hf.
    + exists (i, b). split; [done|]. cbn. apply list_find_Some in Hf as (Hi & Hid & _).
      apply list_elem_of_lookup_2, Hl in Hi as ([id' s'] & He' & Hc' & ->). cbn in *. subst id'.
      f_equal. f_equal. symmetry. apply list_elem_of_lookup in He as [j Hj], He' as [k Hk].
      assert (entries.*1 !! j = Some id) as Hj1 by (rewrite list_lookup_fmap, Hj; done).
      assert (entries.*1 !! k = Some id) as Hk1 by (rewrite list_lookup_fmap, Hk; done).
      assert (j = k) as -> by (eapply NoDup_lookup; done). congruence.
    + apply list_find_None in Hf. rewrite Forall_forall in Hf. exfalso.
      eapply (Hf {| test_id := id; note := quarantine_note s; gates := false |}); [|done].
      apply Hl. by exists (id, s).
Qed.

(** The quarantine list, in whatever order the map yields its entries, annotates
    a test exactly when its history of at most [MAX_RUNS] runs has five runs or
    more with a pass and a failure among them; a test that always failed, or
    always passed, or was never run, is not on it; no annotation gates. *)
Theorem quarantine_exact (rs : list CheckResult) (entries : list (string * TestStats)) id :
  N.of_nat (length rs) ≤ u64_max → count_runs id rs ≤ MAX_RUNS → entries ≡ₚ map_to_list (stats (feed rs)) →
  (is_Some (annotation_for (quarantine_entries entries) id)
   ↔ MIN_RUNS_FLAKY ≤ count_runs id rs ∧ 0 < count_fails id rs < count_runs id rs) ∧
  (∀ a, annotation_for (quarantine_entries entries) id = Some a → gates a = false ∧ test_id a = id) ∧
  collector_classify (feed rs) id
  = (if decide (runs_of id rs = []) then None else Some (classify_counts (count_runs id rs) (count_fails id rs))).
Proof.
  intros Hb Hm Hp. pose proof (tracks_feed rs Hb id) as Ht.
  assert (classify_from_stats (stats_of id rs) = classify_counts (count_runs id rs) (count_fails id rs)) as Hc
    by (apply classify_from_stats_counts; [done|apply count_fails_le]).
  assert (∀ a, annotation_for (quarantine_entries entries) id = Some a ↔
            ∃ s, stats (feed rs) !! id = Some s ∧ classify_from_stats s = Flaky
              ∧ a = {| test_id := id; note := quarantine_note s; gates := false |}) as Ha.
  { intros a. rewrite annotation_for_spec by (rewrite Hp; apply NoDup_fst_map_to_list).
    setoid_rewrite Hp. by setoid_rewrite elem_of_map_to_list. }
  split_and!.
  - transitivity (∃ s, stats (feed rs) !! id = Some s ∧ classify_from_stats s = Flaky).
    { unfold is_Some. setoid_rewrite Ha. naive_solver. }
    rewrite Ht. case_decide as Hnil.
    + unfold count_runs. rewrite Hnil. cbn. unfold MIN_RUNS_FLAKY. split; [intros (? & ? & _); done|lia].
    + transitivity (classify_from_stats (stats_of id rs) = Flaky); [naive_solver|]. rewrite Hc.
      unfold classify_counts, MIN_RUNS_REAL, MIN_RUNS_FLAKY.
      destruct (N.eqb_spec (count_fails id rs) (count_runs id rs)), (N.leb_spec 3 (count_runs id rs)),
        (N.ltb_spec 0 (count_fails id rs)), (N.ltb_spec (count_fails id rs) (count_runs id rs)),
        (N.leb_spec 5 (count_runs id rs)); cbn; split; intros; try done; try lia.
  - intros a (s & _ & _ & ->)%Ha. done.
  - unfold collector_classify. rewrite Ht. case_decide; [done|]. cbn. by rewrite Hc.
Qed.

Module FlakeExample.
Definition ran (key : string) (code : Z) : CheckResult := {|
  memo_key := key; res_tree_hash := "t"; res_def_digest := "d"; res_toolchain_digest := "c"; exit := code;
  artifacts := []; stdout_ref := "o"; stderr_ref := "e"; duration_ms := 1; runner_ref := "r"; produced_at := 0 |}.
(** One failure in five; three failures in three; four passes. *)
Definition history : list CheckResult :=
  [ran "flaky" 0; ran "real" 1; ran "flaky" 0; ran "flaky" 0; ran "real" 101; ran "flaky" 0; ran "flaky" 1;
   ran "real" 1; ran "green" 0; ran "green" 0; ran "green" 0; ran "green" 0].
Example listed :
  (test_id <$> annotations (quarantine_list (feed history)), note <$> annotations (quarantine_list (feed history)))
  = (["flaky"], ["detected flaky: 1/5 executions failed (20% fail rate)"]).
Proof. vm_compute. reflexivity. Qed.
Lemma quarantine_exact_witness : annotation_for (quarantine_list (feed history)) "real" = None.
Proof.
  destruct (annotation_for (quarantine_list (feed history)) "real") as [a|] eqn:Ha; [|done].
  pose proof (quarantine_exact history (map_to_list (stats (feed history))) "real") as Hq.
  destruct Hq as [[Hq _] _]; [by vm_compute|by vm_compute|done|].
  assert (MIN_RUNS_FLAKY ≤ count_runs "real" history ∧ 0 < count_fails "real" history < count_runs "real" history) as Hc
    by (apply Hq; unfold quarantine_list in Ha; rewrite Ha; done).
  vm_compute in Hc. destruct Hc as [Hc _]. exfalso. by apply Hc.
Defined.
End FlakeExample.
