(* ===== verification/Budget.v ===== *)
(** Tenant budgets and fair draining, and the no-shock guard:
    [crates/hugit-queue/budget/mod.rs] and
    [crates/hugit-queue/budget/no_shock/mod.rs].

    Hash maps are finite maps: the only iteration over one takes the minimum of
    a key without ties, so its order does not matter.  The warn threshold is
    computed in binary64 with the Standard Library's [SpecFloat].  The
    floating-point reports ([p95_wait_ticks], [throughput_share],
    [metering_error]) are not modelled.

    The theorems: queued work is never dropped and leaves each tenant's queue in
    order; a drain ends with no tenant that has both work and budget, and serves
    tenants in turn; a surface warns once, never degrades without a warning and
    never charges overage. *)

From S2P Require Import Prelude Json.
From Stdlib Require Floats.SpecFloat.

(** * Budgets *)

Inductive BudgetStatus := Available | Exhausted | Queued.
#[global] Instance BudgetStatus_eq_dec : EqDecision BudgetStatus.
Proof. solve_decision. Defined.

Inductive BudgetEvent :=
| BudgetExhausted (tenant_id item_id : string)
| QueuedItemDispatched (tenant_id item_id : string)
| MeterRecord (tenant_id item_id : string) (actual accounted : N).

Record TenantBudget := {
  remaining : N;
  actual_consumed : N;
  accounted_consumed : N;
  queued_items : list string;
}.

Definition TenantBudget_new (capacity : N) : TenantBudget :=
  {| remaining := capacity; actual_consumed := 0; accounted_consumed := 0; queued_items := [] |}.
Definition is_exhausted (b : TenantBudget) : bool := remaining b =? 0.

Definition set_remaining (n : N) (b : TenantBudget) : TenantBudget :=
  {| remaining := n; actual_consumed := actual_consumed b;
     accounted_consumed := accounted_consumed b; queued_items := queued_items b |}.
Definition set_queue (q : list string) (b : TenantBudget) : TenantBudget :=
  {| remaining := remaining b; actual_consumed := actual_consumed b;
     accounted_consumed := accounted_consumed b; queued_items := q |}.

Definition try_consume (b : TenantBudget) (units : N) : TenantBudget * BudgetStatus :=
  if units <=? remaining b then (set_remaining (remaining b - units) b, Available)
  else (b, Exhausted).

Definition tenant_record_metering (b : TenantBudget) (actual accounted : N) : TenantBudget :=
  {| remaining := remaining b; actual_consumed := u64_add (actual_consumed b) actual;
     accounted_consumed := u64_add (accounted_consumed b) accounted;
     queued_items := queued_items b |}.

(** * The manager *)

Record WaitRecord := { wait_tenant : string; enqueue_tick : N; dispatch_tick : N }.
Definition wait_ticks (r : WaitRecord) : N := dispatch_tick r - enqueue_tick r.

Record BudgetManager := {
  tenants : gmap string TenantBudget;
  dispatched_count : gmap string N;
  wait_records : list WaitRecord;
}.
Definition BudgetManager_default : BudgetManager :=
  {| tenants := ∅; dispatched_count := ∅; wait_records := [] |}.

Definition register_tenant (m : BudgetManager) (id : string) (capacity : N) : BudgetManager :=
  {| tenants := <[id := TenantBudget_new capacity]> (tenants m);
     dispatched_count := <[id := 0]> (dispatched_count m); wait_records := wait_records m |}.

Definition try_dispatch (m : BudgetManager) (tenant_id item : string) (units tick : N)
    (events : list BudgetEvent) : BudgetManager * list BudgetEvent * BudgetStatus :=
  let budget := default (TenantBudget_new 0) (tenants m !! tenant_id) in
  let '(budget, status) := try_consume budget units in
  if decide (status = Exhausted) then
    ({| tenants := <[tenant_id := set_queue (queued_items budget ++ [item]) budget]> (tenants m);
        dispatched_count := dispatched_count m;
        wait_records := wait_records m ++
          [{| wait_tenant := tenant_id; enqueue_tick := tick; dispatch_tick := 0 |}] |},
     events ++ [BudgetExhausted tenant_id item], status)
  else
    ({| tenants := <[tenant_id := budget]> (tenants m);
        dispatched_count := dispatched_count m; wait_records := wait_records m |}, events, status).

(** ** The fair drain *)

Definition count_of (m : BudgetManager) (id : string) : N := default 0 (dispatched_count m !! id).
Definition eligible_budget (b : TenantBudget) : bool :=
  bool_decide (queued_items b ≠ []) && (0 <? remaining b).

(** The keys of [min_by_key]. *)
Definition drain_le : relation (N * string) := λ a b,
  a.1 < b.1 ∨ a.1 = b.1 ∧ String.le a.2 b.2.
#[global] Instance drain_le_dec : RelDecision drain_le.
Proof. intros a b. unfold drain_le. apply _. Defined.

Definition candidates (m : BudgetManager) : list (N * string) :=
  (λ ib, (count_of m ib.1, ib.1)) <$>
    filter (λ ib, eligible_budget ib.2 = true) (map_to_list (tenants m)).
Definition candidate (m : BudgetManager) : option string :=
  snd <$> head (merge_sort drain_le (candidates m)).

(** The first matching record of a list. *)
Fixpoint fill_first (tid : string) (now_tick : N) (l : list WaitRecord) : list WaitRecord :=
  match l with
  | [] => []
  | r :: l =>
      if decide (wait_tenant r = tid ∧ dispatch_tick r = 0)
      then {| wait_tenant := wait_tenant r; enqueue_tick := enqueue_tick r;
              dispatch_tick := now_tick |} :: l
      else r :: fill_first tid now_tick l
  end.

(** One turn of the loop; [None] is its end. *)
Definition drain_turn (now_tick : N) (m : BudgetManager) : option (BudgetManager * BudgetEvent) :=
  tid ← candidate m;
  b ← tenants m !! tid;
  match queued_items b with
  | [] => None
  | item :: queue =>
      let b := set_queue queue b in
      let b := if 0 <? remaining b then set_remaining (remaining b - 1) b else b in
      Some ({| tenants := <[tid := b]> (tenants m);
               dispatched_count := <[tid := u64_add (count_of m tid) 1]> (dispatched_count m);
               wait_records := rev (fill_first tid now_tick (rev (wait_records m))) |},
            QueuedItemDispatched tid item)
  end.

(** Every turn dispatches an item: the number of queued items is enough fuel. *)
Definition queued_total (m : BudgetManager) : nat :=
  sum_list_with (λ ib : string * TenantBudget, length (queued_items ib.2)) (map_to_list (tenants m)).

Fixpoint drain (fuel : nat) (now_tick : N) (m : BudgetManager) (events : list BudgetEvent)
    : BudgetManager * list BudgetEvent :=
  match fuel with
  | O => (m, events)
  | S fuel =>
      match drain_turn now_tick m with
      | None => (m, events)
      | Some (m, ev) => drain fuel now_tick m (events ++ [ev])
      end
  end.
Definition drain_fair (now_tick : N) (m : BudgetManager) (events : list BudgetEvent)
    : BudgetManager * list BudgetEvent := drain (queued_total m) now_tick m events.

Definition replenish_and_drain (m : BudgetManager) (tenant_id : string) (units now_tick : N)
    (events : list BudgetEvent) : BudgetManager * list BudgetEvent :=
  let m := match tenants m !! tenant_id with
           | Some b => {| tenants := <[tenant_id := set_remaining
                            (u64_saturating_add (remaining b) units) b]> (tenants m);
                          dispatched_count := dispatched_count m; wait_records := wait_records m |}
           | None => m
           end in
  drain_fair now_tick m events.

Definition record_metering (m : BudgetManager) (tenant_id item_id : string) (actual accounted : N)
    (events : list BudgetEvent) : BudgetManager * list BudgetEvent :=
  ((match tenants m !! tenant_id with
    | Some b => {| tenants := <[tenant_id := tenant_record_metering b actual accounted]> (tenants m);
                   dispatched_count := dispatched_count m; wait_records := wait_records m |}
    | None => m
    end), events ++ [MeterRecord tenant_id item_id actual accounted]).

(** * Choosing the next tenant *)

#[global] Instance drain_le_total : Total drain_le.
Proof.
  intros [c s] [d t]. unfold drain_le. simpl.
  destruct (N.lt_total c d) as [|[->|]]; [by left; left| |by right; left].
  destruct (total String.le s t); [left|right]; by right.
Qed.
#[global] Instance drain_le_trans : Transitive drain_le.
Proof.
  intros [c s] [d t] [e u]. unfold drain_le. simpl.
  intros [?|[-> ?]] [?|[-> ?]]; [left; lia|by left|by left|right]. split; [done|by etrans].
Qed.

Definition eligible (m : BudgetManager) (t : string) : Prop :=
  ∃ b, tenants m !! t = Some b ∧ eligible_budget b = true.

Lemma elem_of_candidates m c t :
  (c, t) ∈ candidates m ↔ c = count_of m t ∧ eligible m t.
Proof.
  unfold candidates. rewrite list_elem_of_fmap. split.
  - intros ([t' b] & [= -> ->] & Hin). apply list_elem_of_filter in Hin as [He Hin].
    apply elem_of_map_to_list in Hin. split; [done|]. by exists b.
  - intros [-> (b & Hb & He)]. exists (t, b). split; [done|].
    apply list_elem_of_filter. split; [done|]. by apply elem_of_map_to_list.
Qed.

(** The candidate is eligible and no eligible tenant has been served less. *)
Lemma candidate_spec m :
  match candidate m with
  | Some t => eligible m t ∧ ∀ u, eligible m u → count_of m t ≤ count_of m u
  | None => ∀ u, ¬ eligible m u
  end.
Proof.
  unfold candidate.
  pose proof (merge_sort_Permutation drain_le (candidates m)) as Hp.
  assert (StronglySorted drain_le (merge_sort drain_le (candidates m))) as Hs
    by (apply StronglySorted_merge_sort; apply _).
  destruct (merge_sort drain_le (candidates m)) as [|[c t] l]; simpl.
  - intros u Hu. assert ((count_of m u, u) ∈ @nil (N * string)) as Hin; [|by apply not_elem_of_nil in Hin].
    rewrite Hp. by apply elem_of_candidates.
  - assert ((c, t) ∈ candidates m) as Hin by (rewrite <- Hp; apply list_elem_of_here).
    apply elem_of_candidates in Hin as [-> He]. split; [done|].
    intros u Hu. inversion Hs as [|? ? _ Hall]; subst.
    assert ((count_of m u, u) ∈ (count_of m t, t) :: l) as Hin by (rewrite Hp; by apply elem_of_candidates).
    apply elem_of_cons in Hin as [[= -> ->]|Hin]; [done|].
    rewrite Forall_forall in Hall. apply Hall in Hin as [?|[? _]]; simpl in *; lia.
Qed.

(** What a turn does. *)
Lemma drain_turn_spec now m :
  match drain_turn now m with
  | Some (m', ev) =>
      ∃ t b item q, candidate m = Some t ∧ tenants m !! t = Some b ∧
        queued_items b = item :: q ∧ 0 < remaining b ∧ ev = QueuedItemDispatched t item ∧
        tenants m' = <[t := set_remaining (remaining b - 1) (set_queue q b)]> (tenants m) ∧
        dispatched_count m' = <[t := u64_add (count_of m t) 1]> (dispatched_count m)
  | None => ∀ u, ¬ eligible m u
  end.
Proof.
  unfold drain_turn. pose proof (candidate_spec m) as Hc.
  destruct (candidate m) as [t|]; simpl; [|done]. destruct Hc as [(b & Hb & He) _].
  rewrite Hb. simpl. unfold eligible_budget in He. apply andb_true_iff in He as [Hq Hr].
  apply bool_decide_eq_true in Hq. apply N.ltb_lt in Hr as Hr'.
  destruct (queued_items b) as [|item q] eqn:Eq; [done|]. exists t, b, item, q. simpl. rewrite Hr.
  by split_and!.
Qed.

(** * Draining ends with nothing left to serve *)

Lemma queued_total_insert m t b b' :
  tenants m !! t = Some b →
  ∀ m', tenants m' = <[t := b']> (tenants m) →
  (queued_total m' + length (queued_items b) = queued_total m + length (queued_items b'))%nat.
Proof.
  intros Hb m' Hm'. unfold queued_total. rewrite Hm'.
  assert (map_to_list (tenants m) ≡ₚ (t, b) :: map_to_list (delete t (tenants m))) as ->.
  { rewrite <- map_to_list_insert by apply lookup_delete_eq. by rewrite insert_delete_id. }
  rewrite <- insert_delete_eq, map_to_list_insert by apply lookup_delete_eq. simpl. lia.
Qed.

Lemma drain_turn_total now m m' ev :
  drain_turn now m = Some (m', ev) → queued_total m = S (queued_total m').
Proof.
  intros E. pose proof (drain_turn_spec now m) as Hs. rewrite E in Hs.
  destruct Hs as (t & b & item & q & _ & Hb & Hq & _ & _ & Ht & _).
  pose proof (queued_total_insert _ _ _ _ Hb _ Ht) as Hl. rewrite Hq in Hl. simpl in Hl. lia.
Qed.

Definition drain_step (m m' : BudgetManager) : Prop := ∃ now ev, drain_turn now m = Some (m', ev).

Lemma drain_runs fuel now m events m' events' :
  (queued_total m ≤ fuel)%nat → drain fuel now m events = (m', events') →
  rtc drain_step m m' ∧ ∀ u, ¬ eligible m' u.
Proof.
  revert m events. induction fuel as [|fuel IH]; intros m events Hf; simpl.
  - intros. inv_eqs. split; [apply rtc_refl|]. intros u Hu.
    pose proof (drain_turn_spec now m') as Hs.
    destruct (drain_turn now m') as [[m2 ev]|] eqn:E; [|by apply (Hs u)].
    apply drain_turn_total in E. lia.
  - pose proof (drain_turn_spec now m) as Hs.
    destruct (drain_turn now m) as [[m1 ev]|] eqn:E.
    + intros Hd. apply IH in Hd as [Hr He]; [|apply drain_turn_total in E; lia].
      split; [|done]. eapply rtc_l; [by exists now, ev|done].
    + intros. inv_eqs. split; [apply rtc_refl|done].
Qed.

(** Tenants that can be served have been served equally often, up to one. *)
Definition balanced (m : BudgetManager) : Prop :=
  ∀ t u, eligible m t → eligible m u → count_of m t ≤ count_of m u + 1.
(** The counters do not overflow before everything queued is served. *)
Definition counters_fit (m : BudgetManager) : Prop :=
  ∀ t, count_of m t + N.of_nat (queued_total m) ≤ u64_max.

Lemma drain_step_balanced m m' :
  drain_step m m' → balanced m → counters_fit m → balanced m' ∧ counters_fit m'.
Proof.
  intros (now & ev & E) Hb Hf. pose proof (drain_turn_total _ _ _ _ E) as Htot.
  pose proof (drain_turn_spec now m) as Hs. rewrite E in Hs.
  destruct Hs as (t & b & item & q & Hc & Ht & _ & _ & _ & Hm & Hd).
  pose proof (candidate_spec m) as Hmin. rewrite Hc in Hmin. destruct Hmin as [Het Hmin].
  assert (∀ u, count_of m' u = if decide (u = t) then count_of m t + 1 else count_of m u) as Hcount.
  { intros u. unfold count_of at 1. rewrite Hd. specialize (Hf t).
    case_decide; [subst; rewrite lookup_insert_eq|rewrite lookup_insert_ne by congruence; done].
    simpl. unfold u64_add, u64_max in *. rewrite N.mod_small; lia. }
  assert (∀ u, eligible m' u → eligible m u) as Hel.
  { intros u (b' & Hb' & He). destruct (decide (u = t)) as [->|Hne]; [done|].
    exists b'. by rewrite Hm, lookup_insert_ne in Hb'. }
  split.
  - intros u v Hu%Hel Hv%Hel. rewrite !Hcount. pose proof (Hmin u Hu). pose proof (Hmin v Hv).
    pose proof (Hb u v Hu Hv). pose proof (Hb u t Hu Het). repeat case_decide; subst; lia.
  - intros u. rewrite Hcount. pose proof (Hf u). pose proof (Hf t). case_decide; lia.
Qed.

(** A drain ends, with no tenant left that has both queued work and budget, and
    serves tenants in turn: if those that can be served have been served equally
    often, up to one, then so they have at every point of the drain. *)
Theorem drain_fair_serves_in_turn now m events m' events' :
  balanced m → counters_fit m → drain_fair now m events = (m', events') →
  (∀ t b, tenants m' !! t = Some b → queued_items b = [] ∨ remaining b = 0) ∧
  rtc drain_step m m' ∧ ∀ mid, rtc drain_step m mid → balanced mid.
Proof.
  intros Hb Hf Hd. apply drain_runs in Hd as [Hr He]; [|done]. split_and!; [|done|].
  - intros t b Ht. destruct (queued_items b) as [|item q] eqn:Eq; [by left|right].
    destruct (N.eq_0_gt_0_cases (remaining b)) as [|Hpos]; [done|]. exfalso. apply (He t).
    exists b. split; [done|]. unfold eligible_budget. rewrite Eq. simpl. by apply N.ltb_lt.
  - clear Hr He. intros mid Hmid. revert Hb Hf. induction Hmid as [|m1 m2 m3 Hs _ IH]; [done|].
    intros Hb Hf. destruct (drain_step_balanced _ _ Hs Hb Hf). by apply IH.
Qed.

(** * Queued work is never dropped *)

Inductive BudgetOp :=
| OpDispatch (tenant item : string) (units tick : N)
| OpReplenish (tenant : string) (units now_tick : N)
| OpMeter (tenant item : string) (actual accounted : N).

Definition perform_op (me : BudgetManager * list BudgetEvent) (op : BudgetOp)
    : BudgetManager * list BudgetEvent :=
  match op with
  | OpDispatch t item units tick => (try_dispatch me.1 t item units tick me.2).1
  | OpReplenish t units now => replenish_and_drain me.1 t units now me.2
  | OpMeter t item actual accounted => record_metering me.1 t item actual accounted me.2
  end.

Definition exhausted_of (t : string) (events : list BudgetEvent) : list string :=
  omap (λ ev, match ev with
              | BudgetExhausted u item => if decide (u = t) then Some item else None
              | _ => None
              end) events.
Definition dispatched_of (t : string) (events : list BudgetEvent) : list string :=
  omap (λ ev, match ev with
              | QueuedItemDispatched u item => if decide (u = t) then Some item else None
              | _ => None
              end) events.
Definition queue_of (m : BudgetManager) (t : string) : list string :=
  default [] (queued_items <$> tenants m !! t).

Definition accounted_for (m : BudgetManager) (events : list BudgetEvent) : Prop :=
  ∀ t, exhausted_of t events = dispatched_of t events ++ queue_of m t.

Lemma queue_of_insert m m' t b u :
  tenants m' = <[t := b]> (tenants m) →
  queue_of m' u = if decide (u = t) then queued_items b else queue_of m u.
Proof.
  intros Hm. unfold queue_of. rewrite Hm. case_decide; [subst; by rewrite lookup_insert_eq|].
  by rewrite lookup_insert_ne by congruence.
Qed.

(** An update of a tenant that keeps its queue. *)
Lemma accounted_for_keep m m' events t b :
  accounted_for m events → tenants m' = <[t := b]> (tenants m) → queued_items b = queue_of m t →
  accounted_for m' events.
Proof.
  intros Ha Hm Hb u. rewrite Ha, (queue_of_insert _ _ _ _ _ Hm).
  case_decide; [subst; by rewrite Hb|done].
Qed.

Lemma accounted_for_dispatch m events t item units tick :
  accounted_for m events →
  let '(m', events', _) := try_dispatch m t item units tick events in accounted_for m' events'.
Proof.
  intros Ha. unfold try_dispatch, try_consume. set (b := default _ _).
  assert (queued_items b = queue_of m t) as Hb.
  { subst b. unfold queue_of. by destruct (tenants m !! t). }
  destruct (units <=? remaining b); simpl.
  - by eapply accounted_for_keep.
  - intros u. unfold exhausted_of, dispatched_of. rewrite !omap_app.
    erewrite queue_of_insert by done. specialize (Ha u). unfold exhausted_of, dispatched_of in Ha.
    rewrite Ha. simpl. case_decide as Hu.
    + subst u. rewrite decide_True by done. simpl. by rewrite Hb, !app_nil_r, (assoc_L (++)).
    + rewrite decide_False by congruence. by rewrite !app_nil_r.
Qed.

Lemma accounted_for_drain fuel now m events m' events' :
  accounted_for m events → drain fuel now m events = (m', events') → accounted_for m' events'.
Proof.
  revert m events. induction fuel as [|fuel IH]; intros m events Ha; simpl; [intros; by inv_eqs|].
  pose proof (drain_turn_spec now m) as Hs.
  destruct (drain_turn now m) as [[m1 ev]|]; [|intros; by inv_eqs].
  destruct Hs as (t & b & item & q & _ & Hb & Hq & _ & -> & Ht & _). apply IH. intros u.
  unfold exhausted_of, dispatched_of. rewrite !omap_app, (queue_of_insert _ _ _ _ _ Ht).
  specialize (Ha u). unfold exhausted_of, dispatched_of in Ha. rewrite Ha. simpl.
  case_decide as Hu.
  - subst u. rewrite decide_True by done. unfold queue_of. rewrite Hb. simpl.
    by rewrite Hq, app_nil_r, <- (assoc_L (++)).
  - rewrite decide_False by congruence. by rewrite !app_nil_r.
Qed.

Lemma accounted_for_op m events op :
  accounted_for m events → accounted_for (perform_op (m, events) op).1 (perform_op (m, events) op).2.
Proof.
  intros Ha. destruct op as [t item units tick|t units now|t item a c]; simpl.
  - pose proof (accounted_for_dispatch m events t item units tick Ha) as Hd.
    by destruct (try_dispatch _ _ _ _ _ _) as [[m' ev'] st].
  - unfold replenish_and_drain, drain_fair.
    destruct (tenants m !! t) as [b|] eqn:E.
    + set (m1 := {| tenants := _; dispatched_count := _; wait_records := _ |}).
      destruct (drain _ _ m1 events) as [m' ev'] eqn:Ed.
      eapply accounted_for_drain, Ed. eapply accounted_for_keep; [done|done|].
      unfold queue_of. by rewrite E.
    + destruct (drain _ _ m events) as [m' ev'] eqn:Ed. by eapply accounted_for_drain, Ed.
  - assert (accounted_for m (events ++ [MeterRecord t item a c])) as Ha'.
    { intros u. specialize (Ha u). unfold exhausted_of, dispatched_of in *.
      rewrite !omap_app. simpl. by rewrite !app_nil_r. }
    destruct (tenants m !! t) as [b|] eqn:E; [|done].
    eapply accounted_for_keep; [done|done|]. unfold queue_of. by rewrite E.
Qed.

(** Registered once each, before anything is dispatched. *)
Definition registered (caps : list (string * N)) : BudgetManager :=
  foldl (λ m tc, register_tenant m tc.1 tc.2) BudgetManager_default caps.

Lemma registered_queue caps t : queue_of (registered caps) t = [].
Proof.
  unfold registered. assert (∀ u, queue_of BudgetManager_default u = []) as Hq by done. revert Hq.
  generalize BudgetManager_default. induction caps as [|[u c] caps IH]; intros m Hm; simpl; [done|].
  apply IH. intros v. erewrite queue_of_insert by done. by case_decide.
Qed.

(** Whatever tenants do after registration, every item turned away for lack of
    budget is either dispatched later or still queued, in the order it was
    turned away, tenant by tenant, and nothing else is ever dispatched. *)
Theorem queued_never_dropped caps ops :
  let '(m, events) := foldl perform_op (registered caps, []) ops in
  ∀ t, exhausted_of t events = dispatched_of t events ++ queue_of m t.
Proof.
  assert (accounted_for (registered caps, @nil BudgetEvent).1 (registered caps, @nil BudgetEvent).2) as Ha.
  { intros t. simpl. by rewrite registered_queue. }
  revert Ha. generalize (registered caps, @nil BudgetEvent).
  induction ops as [|op ops IH]; intros [m events] Ha; simpl; [exact Ha|].
  apply IH. by apply accounted_for_op.
Qed.

(** Registering a tenant again discards what it had queued. *)
Theorem register_discards_queue m t capacity :
  queue_of (register_tenant m t capacity) t = [].
Proof. unfold queue_of, register_tenant. simpl. by rewrite lookup_insert_eq. Qed.

(** * The no-shock guard *)

Module NoShock.
Inductive MeteredSurface := RunnerMinutes | ShadowSpend | Storage.
#[global] Instance MeteredSurface_eq_dec : EqDecision MeteredSurface.
Proof. solve_decision. Defined.
#[global] Instance MeteredSurface_countable : Countable MeteredSurface.
Proof.
  refine (inj_countable' (λ s, match s with RunnerMinutes => 0 | ShadowSpend => 1 | Storage => 2 end)
    (λ n : nat, match n with 0 => RunnerMinutes | 1 => ShadowSpend | _ => Storage end) _)%nat.
  by intros [].
Defined.

Inductive GuardAction := Pause | Fallback.

Record NoShockWarning := {
  warn_tenant : string;
  warn_surface : MeteredSurface;
  warn_remaining : N;
  warn_capacity : N;
}.
Record CapDegrade := {
  cap_tenant : string;
  cap_surface : MeteredSurface;
  cap_action : GuardAction;
  cap_item : string;
}.

Record BillingFixture := {
  flat_charge : N;
  overage_charge : N;
  cap_degrade_events : N;
  warning_events : N;
}.
Definition record_cap_degrade (b : BillingFixture) : BillingFixture :=
  {| flat_charge := flat_charge b; overage_charge := overage_charge b;
     cap_degrade_events := u64_add (cap_degrade_events b) 1; warning_events := warning_events b |}.
Definition record_warning (b : BillingFixture) : BillingFixture :=
  {| flat_charge := flat_charge b; overage_charge := overage_charge b;
     cap_degrade_events := cap_degrade_events b; warning_events := u64_add (warning_events b) 1 |}.
Definition is_zero_overage (b : BillingFixture) : bool := overage_charge b =? 0.

Record SurfaceBudget := { capacity : N; left : N; warning_emitted : bool }.
Definition SurfaceBudget_new (capacity : N) : SurfaceBudget :=
  {| capacity := capacity; left := capacity; warning_emitted := false |}.
Definition surface_exhausted (b : SurfaceBudget) : bool := left b =? 0.

(** ** The threshold, in binary64 *)

Import Floats.SpecFloat.
(** The double nearest to 0.20. *)
Definition WARN_THRESHOLD_FRACTION : spec_float := S754_finite false 7205759403792794 (-55).
(** [as f64] of a [u64]. *)
Definition f64_of_u64 (n : N) : spec_float := binary_normalize 53 1024 (Z.of_N n) 0 false.
(** [ceil] followed by [as u64]. *)
Definition ceil_u64 (f : spec_float) : N :=
  match f with
  | S754_finite false m e =>
      N.min u64_max (Z.to_N (if (0 <=? e)%Z then Z.pos m * 2 ^ e
                             else - (- Z.pos m / 2 ^ (- e)))%Z)
  | S754_infinity false => u64_max
  | _ => 0
  end.
Definition warn_threshold (capacity : N) : N :=
  ceil_u64 (SFmul 53 1024 (f64_of_u64 capacity) WARN_THRESHOLD_FRACTION).

Definition should_warn (b : SurfaceBudget) : bool :=
  if warning_emitted b || (left b =? 0) then false
  else left b <=? warn_threshold (capacity b).

Definition surface_consume (b : SurfaceBudget) (units : N) : SurfaceBudget :=
  {| capacity := capacity b; left := left b - units; warning_emitted := warning_emitted b |}.
Definition emitted (b : SurfaceBudget) : SurfaceBudget :=
  {| capacity := capacity b; left := left b; warning_emitted := true |}.

(** ** The guard *)

Record NoShockGuard := {
  budgets : gmap string (gmap MeteredSurface SurfaceBudget);
  billing : BillingFixture;
}.
Definition NoShockGuard_default : NoShockGuard :=
  {| budgets := ∅;
     billing := {| flat_charge := 0; overage_charge := 0; cap_degrade_events := 0; warning_events := 0 |} |}.

Definition register_surfaces (g : NoShockGuard) (id : string) (runner_minutes shadow_spend storage : N)
    : NoShockGuard :=
  {| budgets := <[id := {[ RunnerMinutes := SurfaceBudget_new runner_minutes;
                           ShadowSpend := SurfaceBudget_new shadow_spend;
                           Storage := SurfaceBudget_new storage ]}]> (budgets g);
     billing := billing g |}.

Definition action_for (surface : MeteredSurface) : GuardAction :=
  match surface with RunnerMinutes => Pause | ShadowSpend => Fallback | Storage => Pause end.

Definition consume (g : NoShockGuard) (tenant_id item : string) (surface : MeteredSurface) (units : N)
    : NoShockGuard * (BudgetStatus * list NoShockWarning * list CapDegrade) :=
  let surfaces := default ∅ (budgets g !! tenant_id) in
  let budget := default (SurfaceBudget_new 0) (surfaces !! surface) in
  let warn remaining := {| warn_tenant := tenant_id; warn_surface := surface;
                           warn_remaining := remaining; warn_capacity := capacity budget |} in
  let early := should_warn budget in
  let warnings := if early then [warn (left budget)] else [] in
  let bill := if early then record_warning (billing g) else billing g in
  let budget := if early then emitted budget else budget in
  let budget := surface_consume budget units in
  let store b bill := {| budgets := <[tenant_id := <[surface := b]> surfaces]> (budgets g);
                         billing := bill |} in
  if surface_exhausted budget then
    let late := negb (warning_emitted budget) in
    let warnings := if late then warnings ++ [warn 0] else warnings in
    let bill := if late then record_warning bill else bill in
    let budget := if late then emitted budget else budget in
    (store budget (record_cap_degrade bill),
     (Exhausted, warnings, [{| cap_tenant := tenant_id; cap_surface := surface;
                               cap_action := action_for surface; cap_item := item |}]))
  else (store budget bill, (Available, warnings, [])).

Definition surface_budget (g : NoShockGuard) (tenant_id : string) (surface : MeteredSurface)
    : option SurfaceBudget :=
  surfaces ← budgets g !! tenant_id; surfaces !! surface.

(** [0..=capacity] turns, stopping at the first cap. *)
Fixpoint drive (turns : nat) (i : N) (g : NoShockGuard) (tenant_id : string) (surface : MeteredSurface)
    : NoShockGuard * (list NoShockWarning * list CapDegrade) :=
  match turns with
  | O => (g, ([], []))
  | S turns =>
      let '(g, (_, ws, cs)) := consume g tenant_id ("item-exhaust-" +:+ decimal i) surface 1 in
      if decide (cs = []) then
        let '(g, (ws', cs')) := drive turns (i + 1) g tenant_id surface in (g, (ws ++ ws', cs'))
      else (g, (ws, cs))
  end.
Definition drive_to_exhaustion (g : NoShockGuard) (tenant_id : string) (surface : MeteredSurface)
    (capacity : N) : NoShockGuard * (list NoShockWarning * list CapDegrade) :=
  drive (S (N.to_nat capacity)) 0 g tenant_id surface.

(** ** What the guard promises *)

Record Use := { use_tenant : string; use_item : string; use_surface : MeteredSurface; use_units : N }.
Fixpoint consume_all (g : NoShockGuard) (uses : list Use)
    : NoShockGuard * (list NoShockWarning * list CapDegrade) :=
  match uses with
  | [] => (g, ([], []))
  | u :: uses =>
      let '(g, (_, ws, cs)) := consume g (use_tenant u) (use_item u) (use_surface u) (use_units u) in
      let '(g, (ws', cs')) := consume_all g uses in
      (g, (ws ++ ws', cs ++ cs'))
  end.

Definition on (t : string) (s : MeteredSurface) (t' : string) (s' : MeteredSurface) : bool :=
  bool_decide (t' = t ∧ s' = s).
Definition warnings_on t s (ws : list NoShockWarning) : list NoShockWarning :=
  filter (λ w, on t s (warn_tenant w) (warn_surface w) = true) ws.
Definition caps_on t s (cs : list CapDegrade) : list CapDegrade :=
  filter (λ c, on t s (cap_tenant c) (cap_surface c) = true) cs.
Definition uses_on t s (us : list Use) : list Use :=
  filter (λ u, on t s (use_tenant u) (use_surface u) = true) us.
Definition units_on t s (us : list Use) : N := foldr N.add 0 (use_units <$> uses_on t s us).
Definition flag (b : bool) : nat := if b then 1 else 0.

(** One use of the surface itself. *)
Lemma consume_same g t item s units g' st ws cs b :
  consume g t item s units = (g', (st, ws, cs)) → surface_budget g t s = Some b →
  overage_charge (billing g') = overage_charge (billing g) ∧
  warnings_on t s ws = ws ∧ caps_on t s cs = cs ∧
  ∃ b', surface_budget g' t s = Some b' ∧ capacity b' = capacity b ∧ left b' = left b - units ∧
    (flag (warning_emitted b) + length ws = flag (warning_emitted b'))%nat ∧
    (cs ≠ [] ↔ left b' = 0) ∧ (cs ≠ [] → warning_emitted b' = true).
Proof.
  intros Hc Hb. unfold surface_budget in Hb.
  destruct (budgets g !! t) as [ss|] eqn:Et; simpl in Hb; [|done].
  unfold consume in Hc. rewrite Et in Hc. simpl in Hc. rewrite Hb in Hc. simpl in Hc.
  assert (∀ x y, on t s x y = true ↔ x = t ∧ y = s) as Hon by (intros; apply bool_decide_eq_true).
  assert (∀ b' bill, surface_budget {| budgets := <[t := <[s := b']> ss]> (budgets g); billing := bill |} t s
    = Some b') as Hst.
  { intros b' bill. unfold surface_budget. simpl. rewrite lookup_insert_eq. simpl. by rewrite lookup_insert_eq. }
  assert (should_warn b = true → warning_emitted b = false) as Hw.
  { unfold should_warn. by destruct (warning_emitted b). }
  unfold surface_exhausted in Hc.
  destruct (should_warn b) eqn:Ew; [rewrite (Hw eq_refl)|]; simpl in Hc;
    destruct (N.eqb_spec (left b - units) 0); [| |destruct (warning_emitted b) eqn:Ee|]; simpl in Hc;
    inv_eqs; rewrite Hst; unfold warnings_on, caps_on;
    rewrite ?filter_cons_True, ?filter_nil by (by apply Hon); simpl;
    (split_and!; [done..|]); eexists;
    (split_and!; simpl; first [done|by rewrite Ee|lia|by split|split; [done|lia]|unfold surface_consume; simpl; by rewrite Ee]).
Qed.

(** A use of another surface. *)
Lemma consume_other g t item s units g' st ws cs t' s' :
  consume g t item s units = (g', (st, ws, cs)) → ¬ (t = t' ∧ s = s') →
  overage_charge (billing g') = overage_charge (billing g) ∧
  warnings_on t' s' ws = [] ∧ caps_on t' s' cs = [] ∧ surface_budget g' t' s' = surface_budget g t' s'.
Proof.
  intros Hc Hne. unfold consume in Hc. set (ss := default ∅ (budgets g !! t)) in *.
  set (b := default _ (ss !! s)) in *.
  assert (∀ b' bill, surface_budget {| budgets := <[t := <[s := b']> ss]> (budgets g); billing := bill |} t' s'
    = surface_budget g t' s') as Hst.
  { intros b' bill. unfold surface_budget. simpl. destruct (decide (t = t')) as [<-|Ht].
    - rewrite lookup_insert_eq. simpl. rewrite lookup_insert_ne by naive_solver.
      subst ss. by destruct (budgets g !! t); simpl; rewrite ?lookup_empty.
    - by rewrite lookup_insert_ne. }
  assert (on t' s' t s = false) as Hon by (by apply bool_decide_eq_false).
  destruct (surface_exhausted _) in Hc; inv_eqs; simpl; rewrite Hst;
    destruct (should_warn b); simpl; try destruct (warning_emitted b); simpl;
    unfold warnings_on, caps_on;
    rewrite ?filter_cons_False, ?filter_nil by (simpl; congruence); done.
Qed.

(** Flat pricing without shock: whatever tenants use, no overage is ever charged;
    a surface loses exactly what is used on it, down to zero; it warns at most
    once, caps exactly when a use leaves nothing, and never caps without having
    warned. *)
Theorem no_shock g uses t s b :
  surface_budget g t s = Some b →
  let '(g', (ws, cs)) := consume_all g uses in
  overage_charge (billing g') = overage_charge (billing g) ∧
  ∃ b', surface_budget g' t s = Some b' ∧ capacity b' = capacity b ∧
    left b' = left b - units_on t s uses ∧
    (flag (warning_emitted b) + length (warnings_on t s ws) = flag (warning_emitted b'))%nat ∧
    (caps_on t s cs ≠ [] → left b' = 0 ∧ warning_emitted b' = true) ∧
    (uses_on t s uses ≠ [] → left b' = 0 → caps_on t s cs ≠ []).
Proof.
  revert g b. induction uses as [|u uses IH]; intros g b Hb; simpl.
  { split; [done|]. exists b. unfold units_on. simpl. split_and!; [done|done|lia|done|done|done]. }
  destruct (consume g _ _ _ _) as [g1 [[st ws] cs]] eqn:Ec.
  destruct (decide (use_tenant u = t ∧ use_surface u = s)) as [[<- <-]|Hne].
  - destruct (consume_same _ _ _ _ _ _ _ _ _ _ Ec Hb) as (Ho & Hws & Hcs & b1 & Hb1 & Hcap & Hl & Hf & Hc & He).
    specialize (IH g1 b1 Hb1). destruct (consume_all g1 uses) as [g' [ws' cs']].
    destruct IH as (Ho' & b' & Hb' & Hcap' & Hl' & Hf' & Hc' & Hu').
    split; [congruence|]. exists b'. unfold units_on, uses_on, warnings_on, caps_on in *.
    rewrite !filter_app, Hws, Hcs, length_app, filter_cons_True by (by apply bool_decide_eq_true). rewrite fmap_cons. cbn [foldr].
    split_and!; [done|congruence|rewrite Hl', Hl; lia|lia| |].
    + intros Happ. destruct cs as [|c cs]; [by apply Hc'|]. split; [|destruct (warning_emitted b1) eqn:E1].
      * assert (left b1 = 0) by (by apply Hc). lia.
      * destruct (warning_emitted b'); [done|]. simpl in Hf'. lia.
      * by specialize (He ltac:(done)).
    + intros _ Hz Happ. apply app_nil in Happ as [-> Hn].
      destruct (filter _ uses) eqn:Eu; [|by apply Hu'].
      simpl in Hl'. assert (left b1 = 0) as Hz1 by lia. by apply Hc in Hz1.
  - destruct (consume_other _ _ _ _ _ _ _ _ _ t s Ec Hne) as (Ho & Hws & Hcs & Hg).
    rewrite Hb in Hg. specialize (IH g1 b Hg). destruct (consume_all g1 uses) as [g' [ws' cs']].
    destruct IH as (Ho' & b' & Hb' & IH). split; [congruence|]. exists b'. split; [done|].
    unfold units_on, uses_on, warnings_on, caps_on in *.
    rewrite !filter_app, Hws, Hcs, !app_nil_l, filter_cons_False; [exact IH|].
    unfold on. rewrite bool_decide_eq_true. done.
Qed.
End NoShock.

Module BudgetExample.
(** Two tenants out of budget, three and one items queued; then both get some. *)
Definition setup : list BudgetOp :=
  [OpDispatch "a" "a1" 5 1; OpDispatch "a" "a2" 5 2; OpDispatch "a" "a3" 5 3;
   OpDispatch "b" "b1" 5 4].
Definition start : BudgetManager * list BudgetEvent :=
  foldl perform_op (registered [("a", 0); ("b", 0)], []) setup.
Definition funded : BudgetManager :=
  {| tenants := set_remaining 9 <$> tenants start.1; dispatched_count := dispatched_count start.1;
     wait_records := wait_records start.1 |}.

Lemma funded_count t : count_of funded t = 0.
Proof.
  unfold count_of.
  assert (map_Forall (λ _ n, n = 0) (dispatched_count funded)) as Hall by by_decision.
  change (default 0 (dispatched_count funded !! t) = 0).
  destruct (dispatched_count funded !! t) as [n|] eqn:E; [|done]. exact (Hall t n E).
Qed.

Lemma drain_fair_serves_in_turn_witness :
  (drain_fair 9 funded []).2 =
    [QueuedItemDispatched "a" "a1"; QueuedItemDispatched "b" "b1"; QueuedItemDispatched "a" "a2";
     QueuedItemDispatched "a" "a3"] ∧
  ∀ t b, tenants (drain_fair 9 funded []).1 !! t = Some b → queued_items b = [] ∨ remaining b = 0.
Proof.
  split; [vm_compute; reflexivity|].
  apply (drain_fair_serves_in_turn 9 funded [] _ (drain_fair 9 funded []).2).
  - intros t u _ _. rewrite !funded_count. lia.
  - intros t. rewrite funded_count. vm_compute. discriminate.
  - apply surjective_pairing.
Defined.

(** Two items of one tenant, queued at ticks 10 and 20 and dispatched in that
    order at 30 and 40: each waited 20 ticks, the records say 30 and 10. *)
Example waits_are_crossed :
  wait_ticks <$> wait_records (foldl perform_op (registered [("a", 0)], [])
    [OpDispatch "a" "first" 1 10; OpDispatch "a" "second" 1 20;
     OpReplenish "a" 1 30; OpReplenish "a" 1 40]).1 = [30; 10].
Proof. vm_compute. reflexivity. Qed.

(** A queued item of five units is dispatched for one. *)
Example queued_costs_one :
  let m := (foldl perform_op (registered [("a", 0)], [])
    [OpDispatch "a" "big" 5 10; OpReplenish "a" 1 30]).1 in
  queue_of m "a" = [] ∧ remaining <$> tenants m !! "a" = Some 0.
Proof. vm_compute. split; reflexivity. Qed.

Definition guard : NoShock.NoShockGuard :=
  NoShock.register_surfaces NoShock.NoShockGuard_default "a" 10 10 10.
Definition uses : list NoShock.Use :=
  [{| NoShock.use_tenant := "a"; NoShock.use_item := "x"; NoShock.use_surface := NoShock.Storage;
      NoShock.use_units := 9 |};
   {| NoShock.use_tenant := "a"; NoShock.use_item := "y"; NoShock.use_surface := NoShock.Storage;
      NoShock.use_units := 4 |}].

Lemma no_shock_witness :
  let '(g', (ws, cs)) := NoShock.consume_all guard uses in
  NoShock.overage_charge (NoShock.billing g') = 0 ∧ length ws = 1%nat ∧ length cs = 1%nat ∧
  ∃ b', NoShock.surface_budget g' "a" NoShock.Storage = Some b' ∧ NoShock.left b' = 0.
Proof.
  pose proof (NoShock.no_shock guard uses "a" NoShock.Storage (NoShock.SurfaceBudget_new 10) eq_refl) as Hn.
  destruct (NoShock.consume_all guard uses) as [g' [ws cs]] eqn:E.
  destruct Hn as (Ho & b' & Hb & _ & Hl & _). split_and!.
  - exact Ho.
  - revert E. vm_compute. by intros [= _ <- _].
  - revert E. vm_compute. by intros [= _ _ <-].
  - exists b'. split; [exact Hb|]. rewrite Hl. reflexivity.
Defined.

(** From full to nothing in one use: the only warning comes with the wall. *)
Example warned_at_the_wall :
  let '(_, (_, ws, cs)) := NoShock.consume guard "a" "x" NoShock.Storage 10 in
  NoShock.warn_remaining <$> ws = [0] ∧ length cs = 1%nat.
Proof. vm_compute. split; reflexivity. Qed.
End BudgetExample.
