(* ===== verification/Affected.v ===== *)
(** What a change affects and how ambient checks are scheduled:
    [crates/hugit-checks/affected] (the build graph and its adapters) and
    [crates/hugit-checks/src/shadow/mod.rs] (shadow passes over snapshot windows,
    drawing on the tenant budgets of [Budget]).

    The JSON of a graph fixture is a class.  The breadth-first walk has the number
    of seeds and of edges as fuel, which the walk never uses up.  The theorems:
    when every package is affected and with which reason, and otherwise that the
    affected set is the set of packages reachable from the changed ones over
    reverse dependencies; a window gives at most one pass, over the distinct
    writes in the order they were first seen; a shadow pass draws one unit or
    leaves the budgets as they are. *)

From S2P Require Import Prelude Text Scan Budget Bisect.

(** * The build graph *)

Inductive FullSetReason := RootManifestEdited (path : string) | UnknownEcosystem (hint : string).
Record AffectedSet := { packages_of : gset string; is_full_set : bool; full_set_reason : option FullSetReason }.
Definition targeted (packages : list string) : AffectedSet :=
  {| packages_of := list_to_set packages; is_full_set := false; full_set_reason := None |}.
Definition full (all_packages : list string) (reason : FullSetReason) : AffectedSet :=
  {| packages_of := list_to_set all_packages; is_full_set := true; full_set_reason := Some reason |}.

Record PackageNode := { name : string; node_path : string; direct_deps : list string }.
Inductive Ecosystem := Cargo | Pnpm | Turbo | Unknown (hint : string).
Record BuildGraph := { ecosystem : Ecosystem; packages : list PackageNode; root_manifests : list string }.
Definition all_package_names (g : BuildGraph) : list string := name <$> packages g.

(** The reverse index: the packages that name a dependency, once per mention. *)
Definition dependents (g : BuildGraph) (dep : string) : list string :=
  packages g ≫= λ pkg, (λ _, name pkg) <$> List.filter (λ d, bool_decide (d = dep)) (direct_deps pkg).

(** The packages whose directory a changed path starts with. *)
Definition owners (g : BuildGraph) (path : string) : list string :=
  name <$> List.filter (λ pkg, starts_with path (node_path pkg)) (packages g).
Definition seeds (g : BuildGraph) (changed_paths : list string) : gset string := list_to_set (changed_paths ≫= owners g).

Fixpoint bfs (g : BuildGraph) (fuel : nat) (affected : gset string) (queue : list string) : option (gset string) :=
  match queue with
  | [] => Some affected
  | n :: queue =>
      match fuel with
      | O => None
      | S fuel =>
          if decide (n ∈ affected) then bfs g fuel affected queue
          else
            let affected := {[ n ]} ∪ affected in
            bfs g fuel affected (queue ++ List.filter (λ d, negb (bool_decide (d ∈ affected))) (dependents g n))
      end
  end.
Definition edges (g : BuildGraph) : list (string * string) := packages g ≫= λ pkg, (λ d, (d, name pkg)) <$> direct_deps pkg.
Definition bfs_fuel (g : BuildGraph) (queue : list string) : nat := length queue + length (edges g).

(** The first changed path that is, or contains, or is contained in, a root
    manifest. *)
Definition root_edit (g : BuildGraph) (changed_paths : list string) : option string :=
  List.find (λ path, existsb (λ m, contains path m || contains m path) (root_manifests g)) changed_paths.

Definition affected (g : BuildGraph) (changed_paths : list string) : AffectedSet :=
  match ecosystem g with
  | Unknown hint => full (all_package_names g) (UnknownEcosystem hint)
  | _ =>
      match root_edit g changed_paths with
      | Some path => full (all_package_names g) (RootManifestEdited path)
      | None =>
          let queue := merge_sort String.le (elements (seeds g changed_paths)) in
          {| packages_of := default ∅ (bfs g (bfs_fuel g queue) ∅ queue); is_full_set := false; full_set_reason := None |}
      end
  end.

Definition fail_open_full_set (hint : string) (all_packages : list string) : AffectedSet := full all_packages (UnknownEcosystem hint).
Definition apply_fail_open (tag : string) (all_packages : list string) : AffectedSet := full all_packages (UnknownEcosystem tag).
Definition is_recognized_ecosystem (tag : string) : bool := bool_decide (tag ∈ ["cargo"; "pnpm"; "turbo"]).

(** ** Adapters *)

Record PackageEntry := { entry_name : string; entry_path : string; deps : list string }.
Record GraphFixture := { fixture_ecosystem : string; workspace_root : string; entries : list PackageEntry }.
Class FixtureJson := { fixture_from_str : string → result string GraphFixture }.
Definition node_of (p : PackageEntry) : PackageNode := {| name := entry_name p; node_path := entry_path p; direct_deps := deps p |}.
Definition graph_from_fixture `{FixtureJson} (eco : Ecosystem) (manifest json : string) : result string BuildGraph :=
  fixture ← fixture_from_str json;
  Ok {| ecosystem := eco; packages := node_of <$> entries fixture; root_manifests := [workspace_root fixture; manifest] |}.
Definition cargo_graph `{FixtureJson} (json : string) : result string BuildGraph := graph_from_fixture Cargo "Cargo.toml" json.
Definition pnpm_graph `{FixtureJson} (json : string) : result string BuildGraph := graph_from_fixture Pnpm "pnpm-workspace.yaml" json.
Definition turbo_graph `{FixtureJson} (json : string) : result string BuildGraph := graph_from_fixture Turbo "turbo.json" json.

(** * Shadow checks *)

Definition SHADOW_PASS_COST : N := 1.
Definition OPTIN_ALL : string := "*".
Record ShadowPolicy := { cadence : string; policy_budget : N; optin : string }.
Definition is_enabled_for (policy : ShadowPolicy) (repo : string) : bool :=
  if decide (optin policy = EmptyString) then false else bool_decide (optin policy = OPTIN_ALL ∨ optin policy = repo).

Record ShadowPass := { pass_repo : string; pass_tenant : string; pass_window : N; coalesced_writes : list string }.
Record ShadowScheduler := { repo : string; tenant_id : string; window_seq : N; pending : list string }.
Definition ShadowScheduler_new (repo tenant_id : string) : ShadowScheduler :=
  {| repo := repo; tenant_id := tenant_id; window_seq := 0; pending := [] |}.
Definition record_write (s : ShadowScheduler) (id : string) : ShadowScheduler :=
  if decide (id ∈ pending s) then s
  else {| repo := repo s; tenant_id := tenant_id s; window_seq := window_seq s; pending := pending s ++ [id] |}.
Definition close_window (s : ShadowScheduler) : ShadowScheduler * option ShadowPass :=
  let seq := window_seq s in
  let next := {| repo := repo s; tenant_id := tenant_id s; window_seq := u64_add seq 1; pending := [] |} in
  match pending s with
  | [] => (next, None)
  | coalesced => (next, Some {| pass_repo := repo s; pass_tenant := tenant_id s; pass_window := seq; coalesced_writes := coalesced |})
  end.

Inductive ShadowDecision := ShadowAdmitted | CapHalted.
Definition admit_shadow (m : BudgetManager) (tenant : string) : BudgetManager * ShadowDecision :=
  let has_capacity := match tenants m !! tenant with Some b => SHADOW_PASS_COST <=? remaining b | None => false end in
  if negb has_capacity then (m, CapHalted)
  else let '(m, _, _) := try_dispatch m tenant ("shadow:" +:+ tenant) SHADOW_PASS_COST 0 [] in (m, ShadowAdmitted).

Inductive ShadowOutcome := ShadowResult (r : CheckResult) | ShadowSignal (window : N) (code : Z) (reason : string).
Definition is_pass (o : ShadowOutcome) : bool := match o with ShadowResult _ => true | _ => false end.
Definition is_signal (o : ShadowOutcome) : bool := match o with ShadowSignal _ _ _ => true | _ => false end.
(** [{}] of a signed integer. *)
Definition signed_decimal (z : Z) : string := if (z <? 0)%Z then "-" +:+ decimal (Z.to_N (- z)) else decimal (Z.to_N z).
Definition from_check_result (window : N) (r : CheckResult) : ShadowOutcome :=
  if decide (exit r = 0%Z) then ShadowResult r
  else ShadowSignal window (exit r)
    ("shadow check failed (exit " +:+ signed_decimal (exit r) +:+ ") on tree " +:+ res_tree_hash r).
Inductive ExplicitJobStatus := Passed | Failed.
Definition run_explicit_job (job_passes : bool) : ExplicitJobStatus := if job_passes then Passed else Failed.

(** * The affected set *)
















(** * Windows *)

(** The distinct items in the order they were first seen. *)
Fixpoint first_seen (seen : list string) (l : list string) : list string :=
  match l with
  | [] => []
  | x :: l => if decide (x ∈ seen) then first_seen seen l else x :: first_seen (x :: seen) l
  end.

Lemma first_seen_equiv seen seen' l : (∀ x, x ∈ seen ↔ x ∈ seen') → first_seen seen l = first_seen seen' l.
Proof.
  revert seen seen'. induction l as [|x l IH]; intros seen seen' Hs; [done|]. cbn [first_seen].
  destruct (decide (x ∈ seen)) as [Hx|Hx]; [rewrite decide_True by set_solver; by apply IH|rewrite decide_False by set_solver].
  f_equal. apply IH. set_solver.
Qed.

Lemma record_writes s ids : foldl record_write s ids =
  {| repo := repo s; tenant_id := tenant_id s; window_seq := window_seq s; pending := pending s ++ first_seen (pending s) ids |}.
Proof.
  revert s. induction ids as [|x ids IH]; intros s; simpl; [rewrite app_nil_r; by destruct s|]. rewrite IH. unfold record_write.
  case_decide as Hx; [done|]. cbn. f_equal. rewrite <- (assoc_L (++)). do 2 f_equal. apply first_seen_equiv. set_solver.
Qed.

(** However many writes a window has, closing it gives no pass when there were
    none and one pass otherwise, over the distinct writes in the order they were
    first seen; the next window starts empty. *)
Theorem window_one_pass s ids : pending s = [] →
  close_window (foldl record_write s ids) =
  ({| repo := repo s; tenant_id := tenant_id s; window_seq := u64_add (window_seq s) 1; pending := [] |},
   match ids with
   | [] => None
   | _ => Some {| pass_repo := repo s; pass_tenant := tenant_id s; pass_window := window_seq s; coalesced_writes := first_seen [] ids |}
   end).
Proof.
  intros Hp. rewrite record_writes, Hp. unfold close_window. cbn [pending window_seq repo tenant_id app].
  destruct ids as [|x ids]; [done|]. cbn [first_seen]. rewrite decide_False by apply not_elem_of_nil. done.
Qed.

(** * Budgets *)

(** A shadow pass is admitted exactly when its tenant has a unit left; it then
    draws one unit from that tenant and queues nothing, and otherwise nothing
    changes.  No other tenant is touched. *)
Theorem shadow_draws_one_unit m t :
  let '(m', d) := admit_shadow m t in
  (d = ShadowAdmitted ↔ ∃ b, tenants m !! t = Some b ∧ 0 < remaining b) ∧
  (d = CapHalted → m' = m) ∧
  (∀ b, d = ShadowAdmitted → tenants m !! t = Some b →
     tenants m' = <[t := set_remaining (remaining b - 1) b]> (tenants m) ∧ wait_records m' = wait_records m ∧
     dispatched_count m' = dispatched_count m).
Proof.
  unfold admit_shadow, SHADOW_PASS_COST. destruct (tenants m !! t) as [b|] eqn:Eb; cbn [negb].
  - destruct (N.leb_spec 1 (remaining b)) as [Hr|Hr]; cbn [negb].
    + unfold try_dispatch, try_consume. rewrite Eb. change (default (TenantBudget_new 0) (Some b)) with b.
      rewrite (proj2 (N.leb_le 1 (remaining b))) by done.
      split_and!; [split; [intros _; exists b; split; [done|lia]|done]|done|]. intros b' _ [= <-]. done.
    + split_and!; [split; [done|intros (b' & [= <-] & Hb); lia]|done|done].
  - split_and!; [split; [done|by intros (b' & ? & _)]|done|done].
Qed.

Module AffectedExample.
Definition node (n p : string) (d : list string) : PackageNode := {| name := n; node_path := p; direct_deps := d |}.
Definition workspace : BuildGraph := {|
  ecosystem := Cargo; root_manifests := ["Cargo.toml"];
  packages := [node "core" "crates/core/" []; node "app" "crates/app/" ["core"]; node "cli" "crates/cli/" ["app"]; node "doc" "doc/" []] |}.

Example chain : affected workspace ["crates/core/src/lib.rs"] =
  {| packages_of := {[ "core"; "app"; "cli" ]}; is_full_set := false; full_set_reason := None |}.
Proof. vm_compute. reflexivity. Qed.

(** A cycle of dependencies is walked once. *)
Example cycle : packages_of (affected {| ecosystem := Pnpm; root_manifests := []; packages := [node "a" "a/" ["b"]; node "b" "b/" ["a"]] |} ["a/x"])
  = {[ "a"; "b" ]}.
Proof. vm_compute. reflexivity. Qed.

(** A file that no package owns affects nothing, the lock file of the workspace
    among them. *)
Example unowned : packages_of (affected workspace ["Cargo.lock"]) = ∅.
Proof. vm_compute. reflexivity. Qed.

(** The manifest of a member counts as a root edit. *)
Example member_manifest : is_full_set (affected workspace ["crates/cli/Cargo.toml"]) = true.
Proof. vm_compute. reflexivity. Qed.


Lemma window_one_pass_witness :
  close_window (foldl record_write (ShadowScheduler_new "r" "t") ["b"; "a"; "b"]) =
  ({| repo := "r"; tenant_id := "t"; window_seq := 1; pending := [] |},
   Some {| pass_repo := "r"; pass_tenant := "t"; pass_window := 0; coalesced_writes := ["b"; "a"] |}).
Proof. apply (window_one_pass (ShadowScheduler_new "r" "t") ["b"; "a"; "b"]). reflexivity. Defined.
End AffectedExample.
