(* ===== verification/Lease.v ===== *)
(** Runner leases and the attested cost of a run, from
    [crates/hugit-checks/src/runner] ([lease_client.rs], [metrics.rs],
    [lease_exec.rs], [dispatch.rs], [reexec.rs]) and [crates/hugit-checks/src]
    ([attest_v2.rs], [attest_keyset.rs], [cost_attest.rs]).

    The HTTP transport, the JSON of the wire types and Ed25519 with its base64
    decoding are classes.  A transport call changes the transport's state, so the
    requests that were sent are visible in it; [Call] and [run_calls] describe
    them.  Messages of configuration errors are shortened to the piece they name.
    The theorems: which requests a dispatch sends, with which credential and to
    which path; that a lease whose id the client accepts is closed by the last
    request, with the verdict of the run (one whose id it refuses is not closed);
    that an attested cost is one the fabric signed for that lease and tenant. *)

From S2P Require Import Prelude Text Scan Json Crypto Secret Log Bisect Checks Fence Price Envelope.

(** * Wire types *)

Inductive RunnerError :=
| RTransport (e : string) | RBusy (detail : string) | RNotConfigured (what : string) | RStatus (code : N) | RDecode (e : string)
| InvalidLeaseId (what : string) | InvalidIngestPath (what : string).

Record AcquireLeaseRequest := { image_digest : string; acq_net_policy : string; acq_tmp_root : string; expiry_ms : N }.
Record EnvelopeIngest := { ingest_path : string; credential : string }.
Record AcquireResponse := { acq_lease : RunnerLease; exec_endpoint : string; envelope_ingest : option EnvelopeIngest }.
Record IngestUsage := { u_input : N; u_output : N; u_cache_read : N; u_cache_write : N }.
Record IngestEvent := { ev_kind : string; bytes_b64 : string; ev_tool : option string; ev_usage : option IngestUsage; busy_ms : N }.
Record ExecAck := { ack_lease : string; accepted : bool }.
Inductive CloseStatus := Succeeded | CloseFailed.
Definition as_wire (s : CloseStatus) : string := match s with Succeeded => "succeeded" | CloseFailed => "failed" end.
Record CloseRequest := { close_status : string; close_cost : option N }.

Record RunnerTokenCounts := { r_input : N; r_output : N; r_cache_read : N; r_cache_write : N; r_total : N }.
Record RunnerToolCount := { r_tool : string; r_count : N }.
Record RunnerJobMetrics := {
  r_tokens : RunnerTokenCounts; r_wall_ms : N; r_active_ms : N; r_tool_calls : N; r_tool_breakdown : list RunnerToolCount;
  r_model_turns : N; r_cost_usd_micros : N }.
Record CloseResponse := {
  closed_lease : string; released : bool; capture_incomplete : bool; close_metrics : RunnerJobMetrics;
  close_sig : option string; close_key_id : option string }.
Record RunnerResultEnvelope := {
  env_exit : Z; env_artifacts : list Artifact; env_stdout : string; env_stderr : string; env_duration : N; env_runner : string;
  env_produced_at : N; env_metrics : RunnerJobMetrics }.

Definition token_counts_of (t : RunnerTokenCounts) : TokenCounts := {|
  input := r_input t; output := r_output t; cache_read := r_cache_read t; cache_write := r_cache_write t; total := r_total t |}.
Definition tool_count_of (t : RunnerToolCount) : ToolCount := {| tool := r_tool t; count := r_count t |}.
Definition into_intent_metrics (m : RunnerJobMetrics) : IntentMetrics := {|
  tokens := token_counts_of (r_tokens m); wall_ms := r_wall_ms m; active_ms := r_active_ms m; tool_calls := r_tool_calls m;
  tool_breakdown := tool_count_of <$> r_tool_breakdown m; model_turns := r_model_turns m; cost_usd_micros := r_cost_usd_micros m |}.
Definition runner_tokens_of (t : TokenCounts) : RunnerTokenCounts := {|
  r_input := input t; r_output := output t; r_cache_read := cache_read t; r_cache_write := cache_write t; r_total := total t |}.
Definition runner_tool_of (t : ToolCount) : RunnerToolCount := {| r_tool := tool t; r_count := count t |}.
Definition into_runner_metrics (m : IntentMetrics) : RunnerJobMetrics := {|
  r_tokens := runner_tokens_of (tokens m); r_wall_ms := wall_ms m; r_active_ms := active_ms m; r_tool_calls := tool_calls m;
  r_tool_breakdown := runner_tool_of <$> tool_breakdown m; r_model_turns := model_turns m; r_cost_usd_micros := cost_usd_micros m |}.

Class LeaseJson := {
  acquire_to_vec : AcquireLeaseRequest → result string (list byte);
  acquire_from_slice : list byte → result string AcquireResponse;
  events_to_vec : list IngestEvent → result string (list byte);
  def_to_vec : CheckDef → result string (list byte);
  exec_ack_from_slice : list byte → result string ExecAck;
  value_from_slice : list byte → result string Value;
  envelope_from_value : Value → result string RunnerResultEnvelope;
  metrics_from_value : Value → result string RunnerJobMetrics;
  close_to_vec : CloseRequest → result string (list byte);
  close_from_slice : list byte → result string CloseResponse;
}.

(** * Guards and configuration *)

Definition lease_char (c : ascii) : bool := is_ascii_alphanumeric c || bool_decide (c = "-"%char ∨ c = "_"%char).
Definition validate_lease_id (lease_id : string) : result RunnerError unit :=
  if (1 <=? String.length lease_id)%nat && (String.length lease_id <=? 128)%nat && string_forall lease_char lease_id then Ok tt
  else Err (InvalidLeaseId ("lease id must match ^[A-Za-z0-9_-]{1,128}$ (got " +:+ decimal (N.of_nat (String.length lease_id)) +:+ " chars)")).

(** A backslash, white space (tab, line feed, form feed, return, space) or a
    control character. *)
Definition bad_path_char (c : ascii) : bool :=
  bool_decide (c = backslash) || (N_of_ascii c <? 33) || bool_decide (N_of_ascii c = 127).
Definition validate_ingest_path (p : string) : result RunnerError unit :=
  if starts_with p "/" && negb (starts_with p "//") && (String.length p <=? 512)%nat && negb (string_exists bad_path_char p) then Ok tt
  else Err (InvalidIngestPath
    ("ingest_path must be a single-leading-slash absolute path with no `//`/whitespace/control/backslash (got "
     +:+ decimal (N.of_nat (String.length p)) +:+ " chars)")).

Record RunnerConfig := { host : string; runner_pat : string }.
Definition RunnerConfig_new (host pat : string) : result RunnerError RunnerConfig :=
  if decide (trim host = EmptyString) then Err (RNotConfigured "runner host is empty")
  else if decide (trim pat = EmptyString) then Err (RNotConfigured "PAT is empty")
  else Ok {| host := host; runner_pat := pat |}.
Definition runner_bearer (c : RunnerConfig) : string := "Bearer " +:+ runner_pat c.
Definition base (c : RunnerConfig) : string := trim_slashes (host c).

(** What reading the secret file gives, with the mode of the file. *)
Inductive PatFile := PatText (contents : string) (mode : result string N) | PatAbsent | PatUnreadable (kind : string).
Definition read_pat (file : PatFile) (env_pat : option string) : result RunnerError string :=
  match file with
  | PatText _ (Err _) => Err (RNotConfigured "PAT: cannot stat secret file")
  | PatText contents (Ok mode) =>
      if negb (N.land mode 63 =? 0) then Err (RNotConfigured "PAT: insecure permissions")
      else let pat := trim_end contents in
        if decide (pat = EmptyString) then Err (RNotConfigured "PAT: secret file is empty") else Ok pat
  | PatAbsent =>
      match env_pat with
      | Some v => if decide (trim v = EmptyString) then Err (RNotConfigured "PAT: absent") else Ok v
      | None => Err (RNotConfigured "PAT: absent")
      end
  | PatUnreadable _ => Err (RNotConfigured "PAT: cannot read secret file")
  end.
(** The path of the secret file: the override, or the default below the home. *)
Definition resolve_pat_file (override home : option string) : result RunnerError string :=
  match override with
  | Some p => if decide (trim p ≠ EmptyString) then Ok p
              else h ← ok_or (RNotConfigured "PAT: HOME is unset") home; Ok (h +:+ "/.hugit/secrets/runner/pat")
  | None => h ← ok_or (RNotConfigured "PAT: HOME is unset") home; Ok (h +:+ "/.hugit/secrets/runner/pat")
  end.
Definition runner_from_env (host override home env_pat : option string) (read : string → PatFile) : result RunnerError RunnerConfig :=
  match host with
  | Some h =>
      if decide (trim h = EmptyString) then Err (RNotConfigured "host unset/empty")
      else
        pat_file ← resolve_pat_file override home;
        pat ← read_pat (read pat_file) env_pat;
        RunnerConfig_new h pat
  | None => Err (RNotConfigured "host unset/empty")
  end.

(** * The client *)

Class RunnerTransport (T : Type) := {
  rt_post : T → string → string → list byte → T * result RunnerError (N * list byte);
  rt_get : T → string → string → T * result RunnerError (N * list byte);
}.

Section Client.
Context `{LeaseJson} {T : Type} `{RunnerTransport T} (cfg : RunnerConfig).

Definition busy (what : string) (status : N) : RunnerError := RBusy (what +:+ " returned HTTP " +:+ decimal status).
Definition refused {A} (what : string) (status : N) : result RunnerError A :=
  if decide (status = 429 ∨ status = 503) then Err (busy what status) else Err (RStatus status).

Definition acquire (t : T) (req : AcquireLeaseRequest) : T * result RunnerError AcquireResponse :=
  match map_err RDecode (acquire_to_vec req) with
  | Err e => (t, Err e)
  | Ok body =>
      let '(t, ans) := rt_post t (base cfg +:+ "/v1/leases") (runner_bearer cfg) body in
      (t, '(status, resp) ← ans;
          if decide (status = 200 ∨ status = 201) then map_err RDecode (acquire_from_slice resp) else refused "acquire" status)
  end.

Definition submit_envelope (t : T) (path cred : string) (events : list IngestEvent) : T * result RunnerError unit :=
  match (_ ← validate_ingest_path path; map_err RDecode (events_to_vec events)) with
  | Err e => (t, Err e)
  | Ok body =>
      let '(t, ans) := rt_post t (base cfg +:+ path) ("Bearer " +:+ cred) body in
      (t, '(status, _) ← ans;
          if decide (status = 200 ∨ status = 201 ∨ status = 202 ∨ status = 204) then Ok tt else refused "submit_envelope" status)
  end.

Definition lease_url (lease_id route : string) : string := base cfg +:+ "/v1/leases/" +:+ lease_id +:+ route.

Definition exec (t : T) (lease_id : string) (def : CheckDef) : T * result RunnerError ExecAck :=
  match (_ ← validate_lease_id lease_id; map_err RDecode (def_to_vec def)) with
  | Err e => (t, Err e)
  | Ok body =>
      let '(t, ans) := rt_post t (lease_url lease_id "/exec") (runner_bearer cfg) body in
      (t, '(status, resp) ← ans;
          if decide (status = 200 ∨ status = 202) then map_err RDecode (exec_ack_from_slice resp) else refused "exec" status)
  end.

Definition poll_meta (t : T) (lease_id : string) : T * result RunnerError Value :=
  match validate_lease_id lease_id with
  | Err e => (t, Err e)
  | Ok _ =>
      let '(t, ans) := rt_get t (lease_url lease_id "/envelope/meta") (runner_bearer cfg) in
      (t, '(status, resp) ← ans;
          if decide (status = 200) then map_err RDecode (value_from_slice resp) else refused "poll_meta" status)
  end.
Definition poll_events (t : T) (lease_id : string) : T * result RunnerError (list byte) :=
  match validate_lease_id lease_id with
  | Err e => (t, Err e)
  | Ok _ =>
      let '(t, ans) := rt_get t (lease_url lease_id "/envelope/events") (runner_bearer cfg) in
      (t, '(status, resp) ← ans; if decide (status = 200) then Ok resp else refused "poll_events" status)
  end.
Definition poll_metrics (t : T) (lease_id : string) : T * result RunnerError IntentMetrics :=
  let '(t, raw) := poll_meta t lease_id in
  (t, raw ← raw; m ← map_err RDecode (metrics_from_value raw); Ok (into_intent_metrics m)).

Definition close (t : T) (lease_id : string) (status : CloseStatus) (cost : option N) : T * result RunnerError CloseResponse :=
  match (_ ← validate_lease_id lease_id; map_err RDecode (close_to_vec {| close_status := as_wire status; close_cost := cost |})) with
  | Err e => (t, Err e)
  | Ok body =>
      let '(t, ans) := rt_post t (lease_url lease_id "/close") (runner_bearer cfg) body in
      (t, '(code, resp) ← ans;
          if decide (code = 200) then map_err RDecode (close_from_slice resp) else refused "close" code)
  end.

(** * Running under a lease *)

Inductive RunnerExecError :=
| ExecLeaseNotHeld (s : RunnerState) | ExecRunFailed (e : string) | BoxNotWired (host : string) | NoEnvelopeIngest (what : string)
| ExecLease (e : RunnerError).
Record DispatchOutcome := {
  result_of : CheckResult; metrics_of : IntentMetrics; outcome_lease : string; intent_metrics_sig : option string;
  fabric_key_id : option string }.

(** The memo key and the three axes. *)
Record Axes := { ax_key : string; ax_tree : string; ax_def : string; ax_toolchain : string }.

Definition exec_and_collect (t : T) (lease : RunnerLease) (def : CheckDef) (ax : Axes) : T * result RunnerExecError DispatchOutcome :=
  if decide (state lease ≠ Held) then (t, Err (ExecLeaseNotHeld (state lease)))
  else
    let '(t, ack) := exec t (lease_id lease) def in
    match ack with
    | Err e => (t, Err (ExecLease e))
    | Ok ack =>
        if negb (accepted ack) then (t, Err (ExecRunFailed "runner refused the exec (accepted=false)"))
        else
          let '(t, meta) := poll_meta t (lease_id lease) in
          (t, meta ← map_err ExecLease meta;
              env ← map_err (λ e, ExecRunFailed ("result-envelope meta decode failed: " +:+ e)) (envelope_from_value meta);
              Ok {| result_of := {|
                      memo_key := ax_key ax; res_tree_hash := ax_tree ax; res_def_digest := ax_def ax;
                      res_toolchain_digest := ax_toolchain ax; exit := env_exit env; artifacts := env_artifacts env;
                      stdout_ref := env_stdout env; stderr_ref := env_stderr env; duration_ms := env_duration env;
                      runner_ref := env_runner env; produced_at := env_produced_at env |};
                    metrics_of := into_intent_metrics (env_metrics env); outcome_lease := lease_id lease;
                    intent_metrics_sig := None; fabric_key_id := None |})
    end.

Definition verdict_status (outcome : result RunnerExecError DispatchOutcome) : CloseStatus :=
  match outcome with
  | Ok o => if decide (exit (result_of o) = 0%Z) then Succeeded else CloseFailed
  | Err _ => CloseFailed
  end.

Definition dispatch_check (t : T) (req : AcquireLeaseRequest) (def : CheckDef) (ax : Axes) : T * result RunnerExecError DispatchOutcome :=
  let '(t, acquired) := acquire t req in
  match acquired with
  | Err e => (t, Err (ExecLease e))
  | Ok acquired =>
      let lease := acq_lease acquired in
      let '(t, outcome) := exec_and_collect t lease def ax in
      let '(t, closed) := close t (lease_id lease) (verdict_status outcome) None in
      (t, o ← outcome; _ ← map_err ExecLease closed; Ok o)
  end.

(** ** The run off the box *)

Definition MAX_PROJECTED_PER_KIND : N := 10000.
Definition tool_event (tool : string) : IngestEvent :=
  {| ev_kind := "tool_call"; bytes_b64 := EmptyString; ev_tool := Some tool; ev_usage := None; busy_ms := 0 |}.
Definition turn_event (usage : option IngestUsage) (busy_ms : N) : IngestEvent :=
  {| ev_kind := "model_turn"; bytes_b64 := EmptyString; ev_tool := None; ev_usage := usage; busy_ms := busy_ms |}.
Definition usage_of (t : TokenCounts) : IngestUsage :=
  {| u_input := input t; u_output := output t; u_cache_read := cache_read t; u_cache_write := cache_write t |}.
Definition clamp (lo hi n : N) : N := N.min hi (N.max lo n).
Definition project_intent_metrics (m : IntentMetrics) : list IngestEvent :=
  (tool_breakdown m ≫= λ tc, replicate (N.to_nat (N.min (count tc) MAX_PROJECTED_PER_KIND)) (tool_event (tool tc))) ++
  ((λ i, if decide (i = 0%nat) then turn_event (Some (usage_of (tokens m))) (active_ms m) else turn_event None 0)
     <$> List.seq 0 (N.to_nat (clamp 1 MAX_PROJECTED_PER_KIND (model_turns m)))).

Definition attest_and_collect (t : T) (acquired : AcquireResponse) (measured : IntentMetrics) (ax : Axes) (exit_code : Z)
    : T * result RunnerExecError DispatchOutcome :=
  let lease := acq_lease acquired in
  if decide (state lease ≠ Held) then (t, Err (ExecLeaseNotHeld (state lease)))
  else match envelope_ingest acquired with
  | None => (t, Err (NoEnvelopeIngest ("acquire response carried no envelope_ingest (runner lease, or " +:+ utf8 [194; 167]%nat +:+ "13 off)")))
  | Some ingest =>
      let '(t, sent) := submit_envelope t (ingest_path ingest) (credential ingest) (project_intent_metrics measured) in
      (t, _ ← map_err ExecLease sent;
          Ok {| result_of := {|
                  memo_key := ax_key ax; res_tree_hash := ax_tree ax; res_def_digest := ax_def ax; res_toolchain_digest := ax_toolchain ax;
                  exit := exit_code; artifacts := []; stdout_ref := EmptyString; stderr_ref := EmptyString;
                  duration_ms := wall_ms measured; runner_ref := "offbox:" +:+ lease_id lease; produced_at := 0 |};
                metrics_of := measured; outcome_lease := lease_id lease; intent_metrics_sig := None; fabric_key_id := None |})
  end.

Definition dispatch_attest_offbox (t : T) (req : AcquireLeaseRequest) (measured : IntentMetrics) (ax : Axes) (cost : option N) (exit_code : Z)
    : T * result RunnerExecError DispatchOutcome :=
  let '(t, acquired) := acquire t req in
  match acquired with
  | Err e => (t, Err (ExecLease e))
  | Ok acquired =>
      let id := lease_id (acq_lease acquired) in
      let '(t, collected) := attest_and_collect t acquired measured ax exit_code in
      let '(t, closed) := close t id (verdict_status collected) cost in
      (t, o ← collected; c ← map_err ExecLease closed;
          Ok {| result_of := result_of o; metrics_of := into_intent_metrics (close_metrics c); outcome_lease := id;
                intent_metrics_sig := close_sig c; fabric_key_id := close_key_id c |})
  end.
End Client.

(** * Executors *)

Class RunnerExecutor (E : Type) := {
  executor_run : E → RunnerLease → CheckDef → Axes → E * result RunnerExecError CheckResult }.

Definition execute_on_lease {E} `{RunnerExecutor E} (e : E) (lease : RunnerLease) (def : CheckDef) (ax : Axes)
    : E * result RunnerExecError CheckResult :=
  if decide (state lease ≠ Held) then (e, Err (ExecLeaseNotHeld (state lease))) else executor_run e lease def ax.

Definition artifact_digest `{Crypto} (content : list byte) : string := digest_hex content.

(** An executor in this process, with the bytes its entropy source gives next. *)
Record InProcessRunnerExecutor := { in_process_ref : string; entropy : list (list byte) }.
Definition artifact_content (def : CheckDef) (ax : Axes) (entropy : list byte) : list byte :=
  as_bytes (command def) ++ [x0a] ++ as_bytes (ax_tree ax) ++ [x0a] ++ as_bytes (ax_def ax) ++ [x0a] ++ as_bytes (ax_toolchain ax)
  ++ (if decide (entropy = []) then [] else [x0a] ++ entropy).
#[export] Instance in_process_executor `{Crypto} : RunnerExecutor InProcessRunnerExecutor := {|
  executor_run e _ def ax :=
    ({| in_process_ref := in_process_ref e; entropy := tail (entropy e) |},
     Ok {| memo_key := ax_key ax; res_tree_hash := ax_tree ax; res_def_digest := ax_def ax; res_toolchain_digest := ax_toolchain ax;
           exit := 0%Z;
           artifacts := [{| Bisect.path := "check.out"; Bisect.digest := artifact_digest (artifact_content def ax (default [] (head (entropy e)))) |}];
           stdout_ref := "blob:" +:+ artifact_digest (as_bytes "stdout"); stderr_ref := "blob:" +:+ artifact_digest (as_bytes "stderr");
           duration_ms := 0; runner_ref := in_process_ref e; produced_at := 0 |}) |}.

Record LiveBoxRunnerExecutor (T : Type) := { box_host : string; box_client : option (RunnerConfig * T) }.
Arguments box_host {T}.
Arguments box_client {T}.
#[export] Instance live_box_executor `{LeaseJson} {T} `{RunnerTransport T} : RunnerExecutor (LiveBoxRunnerExecutor T) := {|
  executor_run e lease def ax :=
    match box_client e with
    | None => (e, Err (BoxNotWired (box_host e)))
    | Some (cfg, t) =>
        let '(t, outcome) := exec_and_collect cfg t lease def ax in
        ({| box_host := box_host e; box_client := Some (cfg, t) |}, o ← outcome; Ok (result_of o))
    end |}.

(** * Signatures *)

(** [ed25519_dalek] over base64 text: decoded keys and signatures, and the strict
    check. *)
Class Ed25519 := {
  vk_decode : string → option (list byte);
  sig_decode : string → option (list byte);
  verify_strict : list byte → list byte → list byte → bool;
}.

Section Attest.
Context `{Ed25519}.

Definition verify_result_binding_v2 (pubkey memo stdout stderr : string) (code : Z) (arts : list (string * string)) (sig : string) : bool :=
  match vk_decode pubkey, sig_decode sig with
  | Some vk, Some s => verify_strict vk (result_binding_preimage_v2 memo stdout stderr code arts) s
  | _, _ => false
  end.

Definition metrics_preimage (lease tenant : string) (m : RunnerJobMetrics) : list byte :=
  let t := r_tokens m in
  intent_metrics_preimage lease tenant (r_input t) (r_output t) (r_cache_read t) (r_cache_write t) (r_total t) (r_wall_ms m)
    (r_active_ms m) (r_tool_calls m) ((λ c, (r_tool c, r_count c)) <$> r_tool_breakdown m) (r_model_turns m) (r_cost_usd_micros m).
Definition verify_intent_metrics_sig (pubkey lease tenant : string) (m : RunnerJobMetrics) (sig : string) : bool :=
  match vk_decode pubkey, sig_decode sig with
  | Some vk, Some s => verify_strict vk (metrics_preimage lease tenant m) s
  | _, _ => false
  end.

Record KeyEntry := { key_id : string; pubkey_b64 : string; expires_ms : option N }.
Inductive KeySelectError := UnknownKeyId | KeyExpired.
Definition select_attestation_key (keys : list KeyEntry) (id : string) (now_ms : N) : result KeySelectError KeyEntry :=
  entry ← ok_or UnknownKeyId (List.find (λ k, bool_decide (key_id k = id)) keys);
  match expires_ms entry with
  | Some e => if e <=? now_ms then Err KeyExpired else Ok entry
  | None => Ok entry
  end.
Definition verify_with_keyset (keys : list KeyEntry) (id : string) (now_ms : N) (memo stdout stderr : string) (code : Z)
    (arts : list (string * string)) (sig : string) : result KeySelectError bool :=
  entry ← select_attestation_key keys id now_ms;
  Ok (verify_result_binding_v2 (pubkey_b64 entry) memo stdout stderr code arts sig).

Record FabricAttestConfig := { fabric_pubkey_b64 : string; fabric_tenant : string }.
Definition non_blank (v : option string) : option string :=
  match v with Some s => if decide (trim s = EmptyString) then None else Some s | None => None end.
(** The configuration the two environment variables give. *)
Definition fabric_from_env (pubkey tenant : option string) : option FabricAttestConfig :=
  p ← non_blank pubkey; t ← non_blank tenant; Some {| fabric_pubkey_b64 := p; fabric_tenant := t |}.
Definition has_pubkey (c : FabricAttestConfig) : bool := negb (bool_decide (trim (fabric_pubkey_b64 c) = EmptyString)).
Inductive UnattestedReason := NoPubkey | EmissionOff | SigInvalid.
Inductive CostAttestation := Attested | Unattested (why : UnattestedReason).
Definition is_attested (c : CostAttestation) : bool := match c with Attested => true | _ => false end.

Definition cost_attestation_verdict (config : option FabricAttestConfig) (o : DispatchOutcome) : CostAttestation :=
  match config with
  | None => Unattested NoPubkey
  | Some cfg =>
      if negb (has_pubkey cfg) then Unattested NoPubkey
      else match intent_metrics_sig o with
      | None => Unattested EmissionOff
      | Some sig =>
          if verify_intent_metrics_sig (fabric_pubkey_b64 cfg) (outcome_lease o) (fabric_tenant cfg) (into_runner_metrics (metrics_of o)) sig
          then Attested else Unattested SigInvalid
      end
  end.
End Attest.

(** * Re-execution *)

Record ReExecDemand := {
  demand_intent : string; demand_charter : string; ctx_start_ref : string; target_tree : string; demand_image : string;
  demand_net : string; demand_tmp : string; demand_expiry : N }.
Definition acquire_request (d : ReExecDemand) : AcquireLeaseRequest := {|
  image_digest := demand_image d; acq_net_policy := demand_net d; acq_tmp_root := demand_tmp d; expiry_ms := demand_expiry d |}.
Definition line_of (s : string) : string := s +:+ String newline EmptyString.
Definition reexec_def_digest `{Crypto} (d : ReExecDemand) : string :=
  digest_hex (as_bytes (line_of "hugit:reexec-def:v1" +:+ line_of (demand_charter d) +:+ ctx_start_ref d)).
Definition reexec_memo_key `{Crypto} (d : ReExecDemand) (def_digest : string) : string :=
  digest_hex (as_bytes (line_of "hugit:reexec-memo:v1" +:+ line_of (demand_intent d) +:+ line_of (target_tree d) +:+ def_digest)).

Inductive UnavailableReason := FabricUnreachable | UBoxNotWired | IngestNotWired | ULeaseNotHeld | ExecRefused.
Definition unavailable_code (r : UnavailableReason) : string :=
  match r with
  | FabricUnreachable => "fabric_unreachable" | UBoxNotWired => "box_not_wired" | IngestNotWired => "ingest_not_wired"
  | ULeaseNotHeld => "lease_not_held" | ExecRefused => "exec_refused"
  end.
Definition reason_of (e : RunnerExecError) : UnavailableReason :=
  match e with
  | ExecLease _ => FabricUnreachable | BoxNotWired _ => UBoxNotWired | NoEnvelopeIngest _ => IngestNotWired
  | ExecLeaseNotHeld _ => ULeaseNotHeld | ExecRunFailed _ => ExecRefused
  end.

(** An unavailable outcome keeps the error instead of its text. *)
Inductive ReExecOutcome :=
| ReExecuted (intent lease : string) (r : CheckResult) (m : IntentMetrics) (cost : CostAttestation) (succeeded : bool)
| Unavailable (intent : string) (reason : UnavailableReason) (detail : RunnerExecError).
Definition succeeded (o : ReExecOutcome) : bool := match o with ReExecuted _ _ _ _ _ b => b | _ => false end.
Definition cost_is_attested (o : ReExecOutcome) : bool := match o with ReExecuted _ _ _ _ Attested _ => true | _ => false end.

Definition reexecuted `{Ed25519} (d : ReExecDemand) (o : DispatchOutcome) (cfg : option FabricAttestConfig) : ReExecOutcome :=
  ReExecuted (demand_intent d) (outcome_lease o) (result_of o) (metrics_of o) (cost_attestation_verdict cfg o)
    (bool_decide (exit (result_of o) = 0%Z)).
Definition dispatch_reexec `{Crypto} `{Ed25519} `{LeaseJson} {T} `{RunnerTransport T} (cfg : RunnerConfig) (t : T) (d : ReExecDemand)
    (measured : IntentMetrics) (cost : option N) (exit_code : Z) (fabric : option FabricAttestConfig) : T * ReExecOutcome :=
  let dd := reexec_def_digest d in
  let '(t, res) := dispatch_attest_offbox cfg t (acquire_request d) measured
    {| ax_key := reexec_memo_key d dd; ax_tree := target_tree d; ax_def := dd; ax_toolchain := EmptyString |} cost exit_code in
  (t, match res with
      | Ok o => reexecuted d o fabric
      | Err e => Unavailable (demand_intent d) (reason_of e) e
      end).

(** * The requests of a dispatch *)

Inductive Call := PostCall (url bearer : string) (body : list byte) | GetCall (url bearer : string).
Definition call_url (c : Call) : string := match c with PostCall u _ _ => u | GetCall u _ => u end.
Definition call_bearer (c : Call) : string := match c with PostCall _ b _ => b | GetCall _ b => b end.
Definition perform {T} `{RunnerTransport T} (t : T) (c : Call) : T :=
  match c with PostCall u b body => (rt_post t u b body).1 | GetCall u b => (rt_get t u b).1 end.
Definition run_calls {T} `{RunnerTransport T} (t : T) (cs : list Call) : T := foldl perform t cs.

(** An id that can be a segment of a path: 1 to 128 letters, digits, dashes and
    underscores. *)
Definition valid_lease (id : string) : Prop := (1 ≤ String.length id ≤ 128)%nat ∧
  string_forall (λ c, is_ascii_alphanumeric c || bool_decide (c = "-"%char ∨ c = "_"%char)) id = true.
#[global] Instance valid_lease_dec id : Decision (valid_lease id).
Proof. unfold valid_lease. apply _. Defined.
Lemma valid_lease_iff id : validate_lease_id id = Ok tt ↔ valid_lease id.
Proof.
  unfold validate_lease_id, valid_lease. change (λ c, is_ascii_alphanumeric c || bool_decide (c = "-"%char ∨ c = "_"%char)) with lease_char.
  destruct (Nat.leb_spec 1 (String.length id)), (Nat.leb_spec (String.length id) 128), (string_forall lease_char id); cbn [andb];
    (split; [intros Hv|intros [? Hv]]); done || lia.
Qed.
Lemma validated_lease id : validate_lease_id id = Ok () → valid_lease id.
Proof. apply valid_lease_iff. Qed.
(** A request with the tenant's own token: to the leases, or below one lease whose
    id cannot leave its place in the path. *)
Definition pat_call (cfg : RunnerConfig) (c : Call) : Prop :=
  call_bearer c = runner_bearer cfg ∧
  (call_url c = base cfg +:+ "/v1/leases" ∨ ∃ id route, valid_lease id ∧ call_url c = lease_url cfg id route).
(** A request with the scoped token of a lease: to a path below the configured
    host. *)
Definition ingest_call (cfg : RunnerConfig) (i : EnvelopeIngest) (c : Call) : Prop :=
  call_bearer c = "Bearer " +:+ credential i ∧ call_url c = base cfg +:+ ingest_path i ∧
  starts_with (ingest_path i) "/" = true ∧ starts_with (ingest_path i) "//" = false.

(** Serializing the status of a close cannot fail. *)
Class LeaseJsonLaws `{LeaseJson} := { close_to_vec_total r : ∃ body, close_to_vec r = Ok body }.

Section Requests.
Context `{LeaseJsonLaws} {T : Type} `{RunnerTransport T} (cfg : RunnerConfig).

(** No request, or one that satisfies [P]. *)
Definition at_most_one (P : Call → Prop) (t t' : T) : Prop := ∃ cs, t' = run_calls t cs ∧ (length cs ≤ 1)%nat ∧ Forall P cs.
Lemma no_call P t : at_most_one P t t.
Proof. exists []. split_and!; [done|simpl; lia|constructor]. Qed.
Lemma one_call (P : Call → Prop) t c : P c → at_most_one P t (perform t c).
Proof. intros Hc. exists [c]. split_and!; [done|simpl; lia|by repeat constructor]. Qed.

Lemma acquire_calls t req : at_most_one (pat_call cfg) t (acquire cfg t req).1.
Proof.
  unfold acquire. destruct (map_err _ _) as [body|]; [|apply no_call].
  pose proof (one_call (pat_call cfg) t (PostCall (base cfg +:+ "/v1/leases") (runner_bearer cfg) body)) as Hone. cbn [perform] in Hone.
  destruct (rt_post t _ _ _) as [t1 ans]. apply Hone. split; [done|by left].
Qed.
Lemma exec_calls t id def : at_most_one (pat_call cfg) t (exec cfg t id def).1.
Proof.
  unfold exec. destruct (validate_lease_id id) as [[]|] eqn:Ev; cbn [mbind result_bind]; [|apply no_call].
  destruct (map_err _ _) as [body|]; [|apply no_call].
  pose proof (one_call (pat_call cfg) t (PostCall (lease_url cfg id "/exec") (runner_bearer cfg) body)) as Hone. cbn [perform] in Hone.
  destruct (rt_post t _ _ _) as [t1 ans]. apply Hone. split; [done|right; eauto using validated_lease].
Qed.
Lemma poll_meta_calls t id : at_most_one (pat_call cfg) t (poll_meta cfg t id).1.
Proof.
  unfold poll_meta. destruct (validate_lease_id id) as [[]|] eqn:Ev; [|apply no_call].
  pose proof (one_call (pat_call cfg) t (GetCall (lease_url cfg id "/envelope/meta") (runner_bearer cfg))) as Hone. cbn [perform] in Hone.
  destruct (rt_get t _ _) as [t1 ans]. apply Hone. split; [done|right; eauto using validated_lease].
Qed.
Lemma submit_calls t i events : at_most_one (ingest_call cfg i) t (submit_envelope cfg t (ingest_path i) (credential i) events).1.
Proof.
  unfold submit_envelope, validate_ingest_path.
  destruct (starts_with (ingest_path i) "/") eqn:E1, (starts_with (ingest_path i) "//") eqn:E2; cbn [negb andb mbind result_bind];
    try apply no_call. destruct (_ && _); cbn [mbind result_bind]; [|apply no_call].
  destruct (map_err _ _) as [body|]; [|apply no_call].
  pose proof (one_call (ingest_call cfg i) t (PostCall (base cfg +:+ ingest_path i) ("Bearer " +:+ credential i) body)) as Hone.
  cbn [perform] in Hone. destruct (rt_post t _ _ _) as [t1 ans]. apply Hone. done.
Qed.

Definition close_call (id : string) (st : CloseStatus) (cost : option N) (c : Call) : Prop := ∃ body,
  close_to_vec {| close_status := as_wire st; close_cost := cost |} = Ok body ∧
  c = PostCall (lease_url cfg id "/close") (runner_bearer cfg) body.
Lemma close_call_pat id st cost c : valid_lease id → close_call id st cost c → pat_call cfg c.
Proof. intros Hid (body & _ & ->). split; [done|right; eauto]. Qed.

Lemma close_calls t id st cost : ∃ cs, (close cfg t id st cost).1 = run_calls t cs ∧ Forall (pat_call cfg) cs ∧
  (valid_lease id → ∃ c, cs = [c] ∧ close_call id st cost c).
Proof.
  unfold close. destruct (validate_lease_id id) as [[]|] eqn:Ev; cbn [mbind result_bind].
  2: { exists []. split_and!; [done|constructor|]. intros Hv%valid_lease_iff. congruence. }
  destruct (close_to_vec_total {| close_status := as_wire st; close_cost := cost |}) as [body Hb]. rewrite Hb. cbn [map_err].
  exists [PostCall (lease_url cfg id "/close") (runner_bearer cfg) body]. split_and!.
  - cbn [run_calls foldl perform]. by destruct (rt_post t _ _ _).
  - constructor; [|constructor]. split; [done|right; eauto using validated_lease].
  - intros _. eexists. split; [done|]. by exists body.
Qed.

(** A close of a valid id is one request, and what it reports is the body of the
    200 that answers it. *)
Lemma close_valid t id st cost : valid_lease id → ∃ body,
  close_to_vec {| close_status := as_wire st; close_cost := cost |} = Ok body ∧
  let sent := rt_post t (lease_url cfg id "/close") (runner_bearer cfg) body in
  (close cfg t id st cost).1 = sent.1 ∧
  ∀ c, (close cfg t id st cost).2 = Ok c → ∃ resp, sent.2 = Ok (200, resp) ∧ close_from_slice resp = Ok c.
Proof.
  intros Hv%valid_lease_iff. unfold close. rewrite Hv. cbn [mbind result_bind].
  destruct (close_to_vec_total {| close_status := as_wire st; close_cost := cost |}) as [body Hb]. rewrite Hb. cbn [map_err].
  exists body. split; [done|]. cbv zeta. destruct (rt_post t _ _ _) as [t1 ans]. split; [done|]. intros c. cbn [fst snd].
  destruct ans as [[code resp]|]; cbn [mbind result_bind]; [|done]. case_decide as Hc; [|unfold refused; by case_decide].
  subst code. intros Hr. exists resp. split; [done|]. destruct (close_from_slice resp); [|done]. cbn [map_err] in Hr. congruence.
Qed.
(** A close of any other id is no request and an error. *)
Lemma close_invalid t id st cost : ¬ valid_lease id → ∃ e, close cfg t id st cost = (t, Err e).
Proof.
  intros Hv. unfold close. destruct (validate_lease_id id) as [[]|e] eqn:E; [by apply validated_lease in E|]. cbn [mbind result_bind]. by eexists.
Qed.

Lemma run_calls_app t cs cs' : run_calls t (cs ++ cs') = run_calls (run_calls t cs) cs'.
Proof. apply foldl_app. Qed.

(** ** Off the box *)

Lemma attest_calls t acq m ax code : at_most_one (λ c, ∃ i, envelope_ingest acq = Some i ∧ ingest_call cfg i c) t (attest_and_collect cfg t acq m ax code).1.
Proof.
  unfold attest_and_collect. case_decide; [apply no_call|]. destruct (envelope_ingest acq) as [i|]; [|apply no_call].
  destruct (submit_calls t i (project_intent_metrics m)) as (cs & Ht & Hl & Hcs).
  destruct (submit_envelope _ _ _ _ _) as [t1 sent]. cbn [fst] in Ht |- *. exists cs. split_and!; [done..|].
  eapply Forall_impl; [exact Hcs|]. eauto.
Qed.
Lemma attest_Ok t acq m ax code o : (attest_and_collect cfg t acq m ax code).2 = Ok o →
  exit (result_of o) = code ∧ memo_key (result_of o) = ax_key ax ∧ res_tree_hash (result_of o) = ax_tree ax ∧
  res_def_digest (result_of o) = ax_def ax ∧ res_toolchain_digest (result_of o) = ax_toolchain ax.
Proof.
  unfold attest_and_collect. case_decide; [done|]. destruct (envelope_ingest acq) as [i|]; [|done].
  destruct (submit_envelope _ _ _ _ _) as [t1 [[]|]]; cbn [snd mbind result_bind map_err]; [|done]. intros Ho. by injection Ho as <-.
Qed.

(** The token and the place of a request of an off-box dispatch. *)
Definition offbox_call (granted : result RunnerError AcquireResponse) (c : Call) : Prop :=
  pat_call cfg c ∨ ∃ acq i, granted = Ok acq ∧ envelope_ingest acq = Some i ∧ ingest_call cfg i c.

Lemma closed_status collected code : (∀ o, collected = Ok o → exit (result_of o) = code) →
  (verdict_status collected = Succeeded ↔ (∃ o, collected = Ok o) ∧ code = 0%Z).
Proof.
  intros Hexit. unfold verdict_status. destruct collected as [o|e]; [|split; [done|by intros [[? ?] _]]]. rewrite (Hexit o eq_refl).
  case_decide; split; try done; [by eauto|by intros [_ ?]].
Qed.

(** C25. Every request carries the tenant's token and goes to the leases of the
    configured host, or carries the scoped token of the lease that was granted and
    goes to a path of that host.  Without a lease the error is returned.  With one
    whose id can be a path segment ([valid_lease]), the last request closes it: as
    succeeded exactly when the trajectory was taken and the run's exit code is zero,
    with the cost given; and a result that is returned has that exit code, the key
    and axes asked for, and the metrics, signature and key of the answer to that
    very request.  A lease with any other id is not closed: no request follows the
    submission, and an error is returned.  (The documentation says a lease is always
    closed; that a close serializes is assumed.) *)
Theorem offbox_dispatch t req m ax cost code t' res : dispatch_attest_offbox cfg t req m ax cost code = (t', res) →
  let granted := (acquire cfg t req).2 in
  ∃ cs, t' = run_calls t cs ∧ Forall (offbox_call granted) cs ∧
  (∀ e, granted = Err e → res = Err (ExecLease e)) ∧
  ∀ acq, granted = Ok acq →
  let id := lease_id (acq_lease acq) in
  let collected := (attest_and_collect cfg (acquire cfg t req).1 acq m ax code).2 in
  (valid_lease id →
     ∃ cs0 st body, cs = cs0 ++ [PostCall (lease_url cfg id "/close") (runner_bearer cfg) body] ∧
       close_to_vec {| close_status := as_wire st; close_cost := cost |} = Ok body ∧
       (st = Succeeded ↔ (∃ o, collected = Ok o) ∧ code = 0%Z) ∧
       ∀ o, res = Ok o → outcome_lease o = id ∧ exit (result_of o) = code ∧
         memo_key (result_of o) = ax_key ax ∧ res_tree_hash (result_of o) = ax_tree ax ∧ res_def_digest (result_of o) = ax_def ax ∧
         res_toolchain_digest (result_of o) = ax_toolchain ax ∧
         ∃ answer c, (rt_post (run_calls t cs0) (lease_url cfg id "/close") (runner_bearer cfg) body).2 = Ok (200, answer) ∧
           close_from_slice answer = Ok c ∧ metrics_of o = into_intent_metrics (close_metrics c) ∧
           intent_metrics_sig o = close_sig c ∧ fabric_key_id o = close_key_id c) ∧
  (¬ valid_lease id → t' = (attest_and_collect cfg (acquire cfg t req).1 acq m ax code).1 ∧ ∃ e, res = Err e).
Proof.
  unfold dispatch_attest_offbox. cbv zeta. destruct (acquire_calls t req) as (cs1 & Ht1 & _ & Hcs1).
  destruct (acquire cfg t req) as [t1 [acq|e]]; cbn [fst snd] in *.
  2: { intros [= <- <-]. exists cs1. split_and!; [done| |by intros e' [= <-]|done]. eapply Forall_impl; [exact Hcs1|]. by left. }
  set (id := lease_id (acq_lease acq)). destruct (attest_calls t1 acq m ax code) as (cs2 & Ht2 & _ & Hcs2).
  pose proof (attest_Ok t1 acq m ax code) as Hout.
  destruct (attest_and_collect cfg t1 acq m ax code) as [t2 collected] eqn:Ea; cbn [fst snd] in *.
  pose proof (closed_status collected code) as Hst. set (st := verdict_status collected) in *.
  destruct (close_calls t2 id st cost) as (cs3 & Ht3 & Hcs3 & _).
  destruct (close cfg t2 id st cost) as [t3 closed] eqn:Ec; cbn [fst snd] in *. intros [= <- <-].
  assert (Forall (offbox_call (Ok acq)) (cs1 ++ cs2)) as Hsent.
  { rewrite !Forall_app. split; eapply Forall_impl; [exact Hcs1| |exact Hcs2|]; [by left|]. intros c (i & Hi & Hc). right. eauto. }
  destruct (decide (valid_lease id)) as [Hv|Hn].
  - destruct (close_valid t2 id st cost Hv) as (body & Hb & Hclose & Hans). rewrite Ec in Hclose, Hans. cbn [fst snd] in Hclose, Hans.
    set (c := PostCall (lease_url cfg id "/close") (runner_bearer cfg) body).
    exists ((cs1 ++ cs2) ++ [c]). split_and!; [by rewrite !run_calls_app, <- Ht1, <- Ht2| |done|].
    { rewrite Forall_app, Forall_singleton. split; [done|]. left. split; [done|right; eauto]. }
    intros acq' [= <-]. rewrite Ea. cbn [fst snd]. split; [intros _|by intros []].
    exists (cs1 ++ cs2), st, body. split_and!; [done..|apply Hst; intros o Ho; by apply Hout|].
    intros o Ho. destruct collected as [o'|]; cbn [mbind result_bind] in Ho; [|done].
    destruct closed as [cl|]; cbn [map_err mbind result_bind] in Ho; [|done]. injection Ho as <-. cbn.
    destruct (Hout o' eq_refl) as (? & ? & ? & ? & ?). split_and!; [done..|].
    destruct (Hans cl eq_refl) as (answer & Hr & Hd). exists answer, cl. by rewrite run_calls_app, <- Ht1, <- Ht2.
  - destruct (close_invalid t2 id st cost Hn) as [e He]. rewrite Ec in He. injection He as -> ->.
    exists (cs1 ++ cs2). split_and!; [by rewrite run_calls_app, <- Ht1|done|done|].
    intros acq' [= <-]. rewrite Ea. cbn [fst snd]. split; [done|]. intros _. split; [done|].
    destruct collected; cbn; by eexists.
Qed.

(** ** On the box *)

Lemma collect_calls t lease def ax : ∃ cs, (exec_and_collect cfg t lease def ax).1 = run_calls t cs ∧ Forall (pat_call cfg) cs.
Proof.
  unfold exec_and_collect. case_decide; [by exists []|]. destruct (exec_calls t (lease_id lease) def) as (cs1 & Ht1 & _ & Hcs1).
  destruct (exec cfg t _ _) as [t1 [ack|]]; cbn [fst] in *; [|by exists cs1]. destruct (negb (accepted ack)); [by exists cs1|].
  destruct (poll_meta_calls t1 (lease_id lease)) as (cs2 & Ht2 & _ & Hcs2). destruct (poll_meta cfg t1 _) as [t2 meta]. cbn [fst] in *.
  exists (cs1 ++ cs2). by rewrite run_calls_app, <- Ht1, Forall_app.
Qed.
Lemma collect_Ok t lease def ax o : (exec_and_collect cfg t lease def ax).2 = Ok o →
  memo_key (result_of o) = ax_key ax ∧ res_tree_hash (result_of o) = ax_tree ax ∧ res_def_digest (result_of o) = ax_def ax ∧
  res_toolchain_digest (result_of o) = ax_toolchain ax ∧ ∃ v env, envelope_from_value v = Ok env ∧ exit (result_of o) = env_exit env ∧
    artifacts (result_of o) = env_artifacts env ∧ metrics_of o = into_intent_metrics (env_metrics env).
Proof.
  unfold exec_and_collect. case_decide; [done|]. destruct (exec cfg t _ _) as [t1 [ack|]]; [|done]. destruct (negb (accepted ack)); [done|].
  destruct (poll_meta cfg t1 _) as [t2 [meta|]]; cbn [snd map_err mbind result_bind]; [|done].
  destruct (envelope_from_value meta) as [env|] eqn:Ee; cbn [map_err mbind result_bind]; [|done]. intros Ho. injection Ho as <-. cbn. eauto 10.
Qed.

(** A dispatched check sends every request with the tenant's token to the
    configured host, closes the lease it was granted last, as succeeded exactly
    when the runner reported a zero exit, and its result is what the runner
    reported, with the key and axes asked for. *)
Theorem check_dispatch t req def ax t' res : dispatch_check cfg t req def ax = (t', res) →
  ∃ cs, t' = run_calls t cs ∧ Forall (pat_call cfg) cs ∧
    (∀ acq, (acquire cfg t req).2 = Ok acq → valid_lease (lease_id (acq_lease acq)) →
       ∃ cs0 c st, cs = cs0 ++ [c] ∧ close_call (lease_id (acq_lease acq)) st None c ∧
         (∀ o, res = Ok o → st = (if decide (exit (result_of o) = 0%Z) then Succeeded else CloseFailed))) ∧
    (∀ o, res = Ok o → memo_key (result_of o) = ax_key ax ∧ res_tree_hash (result_of o) = ax_tree ax ∧ res_def_digest (result_of o) = ax_def ax ∧
       res_toolchain_digest (result_of o) = ax_toolchain ax ∧ ∃ v env, envelope_from_value v = Ok env ∧ exit (result_of o) = env_exit env ∧
         artifacts (result_of o) = env_artifacts env ∧ metrics_of o = into_intent_metrics (env_metrics env)).
Proof.
  unfold dispatch_check. destruct (acquire_calls t req) as (cs1 & Ht1 & _ & Hcs1).
  destruct (acquire cfg t req) as [t1 [acq|e]]; cbn [fst snd] in *; [|intros [= <- <-]; exists cs1; by split_and!].
  set (id := lease_id (acq_lease acq)). destruct (collect_calls t1 (acq_lease acq) def ax) as (cs2 & Ht2 & Hcs2).
  pose proof (collect_Ok t1 (acq_lease acq) def ax) as Hres.
  destruct (exec_and_collect cfg t1 (acq_lease acq) def ax) as [t2 outcome]; cbn [fst snd] in *.
  destruct (close_calls t2 id (verdict_status outcome) None) as (cs3 & Ht3 & Hcs3 & Hlast).
  destruct (close cfg t2 id (verdict_status outcome) None) as [t3 closed]; cbn [fst snd] in *. intros [= <- <-].
  exists (cs1 ++ cs2 ++ cs3). split_and!.
  - by rewrite !run_calls_app, <- Ht1, <- Ht2.
  - by rewrite !Forall_app.
  - intros acq' [= <-] Hv. destruct (Hlast Hv) as (c & -> & Hc). exists (cs1 ++ cs2), c, (verdict_status outcome).
    split_and!; [by rewrite <- (assoc_L (++))|done|]. intros o Ho. destruct outcome as [o'|]; [|done].
    destruct closed; cbn in Ho; [|done]. injection Ho as <-. done.
  - intros o Ho. apply Hres. destruct outcome as [o'|]; [|done]. destruct closed; cbn in Ho; [|done]. congruence.
Qed.
End Requests.

(** * Attested costs *)

Section Attested.
Context `{Ed25519}.

Definition metrics_fit (m : RunnerJobMetrics) : Prop :=
  Forall (λ n, n ≤ u64_max) [r_input (r_tokens m); r_output (r_tokens m); r_cache_read (r_tokens m); r_cache_write (r_tokens m);
    r_total (r_tokens m); r_wall_ms m; r_active_ms m; r_tool_calls m] ∧
  (fits_len (r_tool_breakdown m) ∧ Forall (λ c, fits (r_tool c) ∧ r_count c ≤ u64_max) (r_tool_breakdown m)) ∧
  r_model_turns m ≤ u64_max ∧ r_cost_usd_micros m ≤ u64_max.

Lemma breakdown_fits m : metrics_fit m →
  fits_len ((λ c, (r_tool c, r_count c)) <$> r_tool_breakdown m) ∧ Forall fits_count ((λ c, (r_tool c, r_count c)) <$> r_tool_breakdown m).
Proof.
  intros (_ & [Hl Hf] & _). split; [unfold fits_len in *; by rewrite length_fmap|]. apply Forall_fmap.
  eapply Forall_impl; [exact Hf|]. done.
Qed.
Lemma breakdown_inj (l l' : list RunnerToolCount) : (λ c, (r_tool c, r_count c)) <$> l = (λ c, (r_tool c, r_count c)) <$> l' → l = l'.
Proof.
  revert l'. induction l as [|[t n] l IH]; intros [|[t' n'] l'] Heq; try done. cbn in Heq. injection Heq as -> -> Heq.
  f_equal. by apply IH.
Qed.

Lemma metrics_preimage_inj l t m l' t' m' : fits l → fits t → metrics_fit m → fits l' → fits t' → metrics_fit m' →
  metrics_preimage l t m = metrics_preimage l' t' m' → l = l' ∧ t = t' ∧ m = m'.
Proof.
  intros Hl Ht Hm Hl' Ht' Hm' Heq. pose proof (breakdown_fits m Hm). pose proof (breakdown_fits m' Hm').
  destruct Hm as (Hu & _ & Hmt & Hc), Hm' as (Hu' & _ & Hmt' & Hc'). unfold metrics_preimage in Heq. cbv zeta in Heq.
  eapply intent_metrics_preimage_inj in Heq as (Hleq & Hteq & Hus & Htb & Hmteq & Hceq); [|reflexivity|reflexivity|assumption..].
  apply breakdown_inj in Htb. destruct m as [[]], m' as [[]]. cbn in *. by simplify_eq.
Qed.

(** What the fabric signs: the metrics of a lease for a tenant.  Whatever verifies
    under its key is such a message. *)
Context (pubkey : string) (vk : list byte) (signed : string → string → RunnerJobMetrics → Prop).
Definition signs_only : Prop := vk_decode pubkey = Some vk ∧
  ∀ msg s, verify_strict vk msg s = true → ∃ l t m, signed l t m ∧ fits l ∧ fits t ∧ metrics_fit m ∧ msg = metrics_preimage l t m.

(** A cost is attested only when the fabric signed those very metrics for that
    lease and that tenant. *)
Theorem attested_was_signed tenant o : signs_only → fits (outcome_lease o) → fits tenant → metrics_fit (into_runner_metrics (metrics_of o)) →
  cost_attestation_verdict (Some {| fabric_pubkey_b64 := pubkey; fabric_tenant := tenant |}) o = Attested →
  signed (outcome_lease o) tenant (into_runner_metrics (metrics_of o)).
Proof.
  intros [Hvk Hs] Hl Ht Hm. unfold cost_attestation_verdict. destruct (negb (has_pubkey _)); [done|].
  destruct (intent_metrics_sig o) as [sig|]; [|done]. cbn [fabric_pubkey_b64 fabric_tenant]. unfold verify_intent_metrics_sig. rewrite Hvk.
  destruct (sig_decode sig) as [sb|]; [|done]. destruct (verify_strict _ _ sb) eqn:Ev; [|done]. intros _.
  destruct (Hs _ _ Ev) as (l & t & m & Hsig & ? & ? & ? & Heq). apply metrics_preimage_inj in Heq as (-> & -> & ->); done.
Qed.
End Attested.

(** The conversion of metrics to the wire and back loses nothing. *)
Lemma runner_metrics_roundtrip m : into_runner_metrics (into_intent_metrics m) = m.
Proof.
  destruct m as [[] ? ? ? tb ? ?]. unfold into_runner_metrics, into_intent_metrics. cbn. f_equal. rewrite <- list_fmap_compose.
  rewrite (list_fmap_ext _ id) by (by intros ? [] _). apply list_fmap_id.
Qed.

Module LeaseExample.
Import Toy.

Definition metrics0 : RunnerJobMetrics := {|
  r_tokens := {| r_input := 1; r_output := 2; r_cache_read := 3; r_cache_write := 4; r_total := 10 |}; r_wall_ms := 5; r_active_ms := 4;
  r_tool_calls := 1; r_tool_breakdown := [{| r_tool := "Edit"; r_count := 1 |}]; r_model_turns := 2; r_cost_usd_micros := 77 |}.
Definition granted (id : string) : AcquireResponse := {|
  acq_lease := {| lease_id := id; lease_principals := []; path_set := []; expiry := 9; net_policy := "deny-all"; tmp_root := "/tmp"; state := Held |};
  exec_endpoint := EmptyString; envelope_ingest := Some {| ingest_path := "/v1/leases/l1/envelope/ingest"; credential := "scoped" |} |}.

(** The first byte of an answer tells which lease is granted. *)
#[export] Instance json : LeaseJson := {|
  acquire_to_vec _ := Ok []; acquire_from_slice b := Ok (granted (if decide (b = []) then "l1" else "a/b")); events_to_vec _ := Ok [];
  def_to_vec _ := Ok []; exec_ack_from_slice _ := Ok {| ack_lease := "l1"; accepted := true |}; value_from_slice _ := Ok Null;
  envelope_from_value _ := Ok {| env_exit := 0%Z; env_artifacts := []; env_stdout := EmptyString; env_stderr := EmptyString; env_duration := 1;
    env_runner := "box"; env_produced_at := 2; env_metrics := metrics0 |};
  metrics_from_value _ := Ok metrics0; close_to_vec r := Ok (as_bytes (close_status r));
  close_from_slice _ := Ok {| closed_lease := "l1"; released := true; capture_incomplete := false; close_metrics := metrics0;
    close_sig := Some "sig"; close_key_id := None |} |}.
#[export] Instance json_laws : LeaseJsonLaws.
Proof. split. intros r. by eexists. Qed.

(** A fabric that answers 200, with the body it is given, and keeps the calls. *)
Record Fabric := { body_of : list byte; calls : list Call }.
#[export] Instance fabric : RunnerTransport Fabric := {|
  rt_post f u b body := ({| body_of := body_of f; calls := calls f ++ [PostCall u b body] |}, Ok (200, body_of f));
  rt_get f u b := ({| body_of := body_of f; calls := calls f ++ [GetCall u b] |}, Ok (200, body_of f)) |}.
Definition cfg : RunnerConfig := {| host := "https://fabric/"; runner_pat := "pat" |}.
Definition req : AcquireLeaseRequest := {| image_digest := "i"; acq_net_policy := "deny-all"; acq_tmp_root := "/tmp"; expiry_ms := 1 |}.
Definition axes : Axes := {| ax_key := "k"; ax_tree := "t"; ax_def := "d"; ax_toolchain := EmptyString |}.
Definition idle : Fabric := {| body_of := []; calls := [] |}.

Lemma offbox_dispatch_witness : ∃ cs0 body, (dispatch_attest_offbox cfg idle req (into_intent_metrics metrics0) axes (Some 77) 0%Z).1 =
  run_calls idle (cs0 ++ [PostCall (lease_url cfg "l1" "/close") (runner_bearer cfg) body]).
Proof.
  destruct (offbox_dispatch cfg idle req (into_intent_metrics metrics0) axes (Some 77) 0%Z _ _ (surjective_pairing _)) as (cs & Ht & _ & _ & Hg).
  destruct (Hg (granted "l1") ltac:(reflexivity)) as [Hclose _].
  destruct Hclose as (cs0 & st & body & -> & _); [split; [vm_compute; lia|reflexivity]|]. by exists cs0, body.
Defined.

Lemma check_dispatch_witness : ∃ cs, (dispatch_check cfg idle req (Checks.ChecksExample.lint EmptyString) axes).1 = run_calls idle cs ∧ Forall (pat_call cfg) cs.
Proof.
  destruct (check_dispatch cfg idle req (Checks.ChecksExample.lint EmptyString) axes _ _ (surjective_pairing _)) as (cs & Ht & Hp & _). eauto.
Defined.

(** A lease whose id is refused by the client's own guard is never closed. *)
Example slashed_lease_leaks : calls (dispatch_check cfg {| body_of := [x00]; calls := [] |} req (Checks.ChecksExample.lint EmptyString) axes).1 =
  [PostCall "https://fabric/v1/leases" "Bearer pat" []].
Proof. vm_compute. reflexivity. Qed.

(** A signature that is the message itself, and one signed message. *)
#[export] Instance echo : Ed25519 := {|
  vk_decode _ := Some []; sig_decode _ := Some (metrics_preimage "l1" "acme" metrics0); verify_strict _ msg s := bool_decide (msg = s) && bool_decide (s = metrics_preimage "l1" "acme" metrics0) |}.
Definition one_signed (l t : string) (m : RunnerJobMetrics) : Prop := l = "l1" ∧ t = "acme" ∧ m = metrics0.
Definition outcome0 : DispatchOutcome := {|
  result_of := {| memo_key := "k"; res_tree_hash := "t"; res_def_digest := "d"; res_toolchain_digest := EmptyString; exit := 0%Z; artifacts := [];
    stdout_ref := EmptyString; stderr_ref := EmptyString; duration_ms := 0; runner_ref := EmptyString; produced_at := 0 |};
  metrics_of := into_intent_metrics metrics0; outcome_lease := "l1"; intent_metrics_sig := Some "sig"; fabric_key_id := None |}.

Lemma metrics0_fit : metrics_fit metrics0.
Proof. split_and!; repeat constructor; done. Qed.
Lemma attested_was_signed_witness : one_signed "l1" "acme" (into_runner_metrics (metrics_of outcome0)).
Proof.
  apply (attested_was_signed "key" [] one_signed "acme" outcome0).
  - split; [done|]. intros msg s [Hm Hs]%andb_true_iff. apply bool_decide_eq_true in Hm as ->. apply bool_decide_eq_true in Hs as ->.
    exists "l1", "acme", metrics0. split_and!; [done..|apply metrics0_fit|done].
  - done.
  - done.
  - apply metrics0_fit.
  - vm_compute. reflexivity.
Defined.

(** Line breaks in a charter and a context reference run together: two demands
    have one definition digest, whatever the hash. *)
Definition demand (charter ctx : string) : ReExecDemand := {|
  demand_intent := "i"; demand_charter := charter; ctx_start_ref := ctx; target_tree := "t"; demand_image := EmptyString;
  demand_net := EmptyString; demand_tmp := EmptyString; demand_expiry := 0 |}.
Example reexec_identity_shared `{Crypto} :
  reexec_def_digest (demand (line_of "a" +:+ "b") "c") = reexec_def_digest (demand "a" (line_of "b" +:+ "c")).
Proof. reflexivity. Qed.
End LeaseExample.
