(* ===== verification/Regen.v ===== *)
(** Regenerative rebase: the drivers that regenerate derived files
    ([crates/hugit-checks/src/regen/driver]) and the gate that lets a regenerated
    revision land ([crates/hugit-checks/src/regen/gate/mod.rs]).

    A process is started through the class [Spawn]; signing is the class [Signer]
    (the [ed25519_dalek] key with the base64 text of its signature).  The theorems
    state when the gate lands a revision and what it records of it, that its audit
    events continue the event log, and that the registry only regenerates the two
    lockfiles it knows and fails closed otherwise. *)

From S2P Require Import Prelude Text Scan Json JsonCodec Crypto Secret Scrub Log Tamper.

(** * Paths *)

Definition SLASH_CHAR : ascii := "/"%char.

(** The names [Path::components] yields; a current-directory component is dropped,
    which no caller here can tell. *)
Definition components (path : string) : list string :=
  filter (λ seg, seg ≠ EmptyString ∧ seg ≠ ".") (split_char SLASH_CHAR path).
Definition file_name (path : string) : option string :=
  match last (components path) with
  | Some name => if decide (name = "..") then None else Some name
  | None => None
  end.
(** [Path::join]. *)
Definition join (base path : string) : string :=
  if starts_with path "/" then path
  else if decide (base = EmptyString) then path
  else if ends_with base "/" then base +:+ path
  else base +:+ "/" +:+ path.

(** [str::to_lowercase] as far as comparisons with ASCII text see it: the only
    character outside ASCII whose lower case is ASCII text is the Kelvin sign
    (bytes e2 84 aa); every other one keeps a byte that is not ASCII. *)
Fixpoint lower_name (s : string) : string :=
  match s with
  | EmptyString => EmptyString
  | String a s' =>
      match s' with
      | String b (String c rest) =>
          if decide (nat_of_ascii a = 226%nat ∧ nat_of_ascii b = 132%nat ∧ nat_of_ascii c = 170%nat)
          then String "k" (lower_name rest)
          else String (ascii_lower a) (lower_name s')
      | _ => String (ascii_lower a) (lower_name s')
      end
  end.

(** * Derived files and their drivers *)

Inductive DerivedClass := Lockfile | Codegen | Snapshot.

Definition LOCKFILES : list string :=
  ["cargo.lock"; "pnpm-lock.yaml"; "package-lock.json"; "yarn.lock"; "poetry.lock"; "gemfile.lock"].
Definition SNAPSHOT_DIRS : list string := ["snapshots"; "__snapshots__"].
Definition SNAPSHOT_SUFFIXES : list string := [".snap"; ".snap.new"].
Definition CODEGEN_SUFFIXES : list string :=
  [".pb.rs"; ".pb.go"; "_generated.rs"; ".generated.ts"; ".schema.json"].

Definition classify (path : string) : option DerivedClass :=
  match file_name path with
  | None => None
  | Some name =>
      let name_lc := lower_name name in
      if decide (name_lc ∈ LOCKFILES) then Some Lockfile
      else if existsb (λ c, bool_decide (c ∈ SNAPSHOT_DIRS)) (components path) then Some Snapshot
      else if existsb (ends_with name_lc) SNAPSHOT_SUFFIXES then Some Snapshot
      else if existsb (ends_with name_lc) CODEGEN_SUFFIXES then Some Codegen
      else None
  end.

Inductive SpawnError := NotFound | OtherIo (what : string).
(** [Command::status]: the exit code of the process, if it has one. *)
Class Spawn (W : Type) := { run_status : W → list string → W * result SpawnError (option Z) }.
Definition success (code : option Z) : bool := bool_decide (code = Some 0%Z).

Inductive RegenError :=
| FailClosed (message : string) (exit_code : option Z)
| ToolNotFound (tool : string)
| Io (what : string).

Record RegenDriver (W : Type) := {
  driver_class : DerivedClass;
  owns : string → bool;
  regenerate : W → string → string → W * result RegenError string;
  tool_available : W → W * bool;
}.
#[global] Arguments driver_class {W}.
#[global] Arguments owns {W}.
#[global] Arguments regenerate {W}.
#[global] Arguments tool_available {W}.

Section Drivers.
Context {W : Type} `{Spawn W}.

Definition which_tool (w : W) (bin : string) : W * bool :=
  let '(w, r) := run_status w ["which"; bin] in
  (w, match r with Ok code => success code | Err _ => false end).

Definition named (name path : string) : bool :=
  match file_name path with
  | Some n => bool_decide (to_ascii_lowercase n = to_ascii_lowercase name)
  | None => false
  end.

(** What both drivers do with the status of their command. *)
Definition spawned (tool failure root path : string) (r : result SpawnError (option Z))
    : result RegenError string :=
  match r with
  | Err NotFound => Err (ToolNotFound tool)
  | Err (OtherIo e) => Err (Io e)
  | Ok code =>
      if success code then Ok (join root (default path (file_name path)))
      else Err (FailClosed failure code)
  end.

Record CargoLockDriver := { cargo_bin : option string }.
Definition cargo (d : CargoLockDriver) : string := default "cargo" (cargo_bin d).
Definition cargo_failure : string :=
  "cargo generate-lockfile failed — constraints unsatisfiable or registry unavailable; refusing to merge derived file".
Definition cargo_lock (d : CargoLockDriver) : RegenDriver W := {|
  driver_class := Lockfile;
  owns := named "Cargo.lock";
  regenerate w root path :=
    let manifest := join root "Cargo.toml" in
    let '(w, r) := run_status w [cargo d; "generate-lockfile"; "--manifest-path"; manifest] in
    (w, spawned "cargo" cargo_failure root path r);
  tool_available w := which_tool w (cargo d);
|}.

Record PnpmLockDriver := { pnpm_bin : option string }.
Definition PNPM_REGEN_ARGS : list string := ["install"; "--lockfile-only"; "--dir"].
Definition pnpm (d : PnpmLockDriver) : string := default "pnpm" (pnpm_bin d).
Definition pnpm_failure : string :=
  "pnpm install failed — constraints unsatisfiable or registry unavailable; refusing to merge derived file".
Definition pnpm_lock (d : PnpmLockDriver) : RegenDriver W := {|
  driver_class := Lockfile;
  owns := named "pnpm-lock.yaml";
  regenerate w root path :=
    let '(w, r) := run_status w (pnpm d :: PNPM_REGEN_ARGS ++ [root]) in
    (w, spawned "pnpm" pnpm_failure root path r);
  tool_available w := which_tool w (pnpm d);
|}.

Record DriverRegistry := { drivers : list (RegenDriver W) }.
Definition registry_empty : DriverRegistry := {| drivers := [] |}.
Definition register (r : DriverRegistry) (d : RegenDriver W) : DriverRegistry :=
  {| drivers := drivers r ++ [d] |}.
Definition default_v0 : DriverRegistry :=
  register (register registry_empty (cargo_lock {| cargo_bin := None |})) (pnpm_lock {| pnpm_bin := None |}).
Definition driver_for (r : DriverRegistry) (path : string) : option (RegenDriver W) :=
  find (λ d, owns d path) (drivers r).

Definition fail_closed_boundary (e : RegenError) : RegenError :=
  match e with
  | FailClosed m c => FailClosed m c
  | ToolNotFound tool => FailClosed
      ("regen tool `" +:+ tool +:+ "` not found — refusing to merge derived file (fail-closed)") None
  | Io e => FailClosed
      ("regen I/O error — refusing to merge derived file (fail-closed): " +:+ e) None
  end.

Definition registry_regenerate (r : DriverRegistry) (w : W) (root path : string)
    : W * result RegenError string :=
  match driver_for r path with
  | Some d =>
      let '(w, res) := regenerate d w root path in
      (w, match res with Ok p => Ok p | Err e => Err (fail_closed_boundary e) end)
  | None => (w, Err (FailClosed ("no driver registered for derived path `" +:+ path +:+ "`") None))
  end.
End Drivers.
#[global] Arguments DriverRegistry : clear implicits.

(** * The landing gate *)

Record RegenGate := { optin_scope : string; repass : bool; indep_verdict : string }.
Record AttestationChain := {
  att_tree : string; att_def : string; att_runner : string; att_model : string;
  att_principal : list string; att_sig : string }.
Inductive Verdict := Approve | FixFirst | Reject.
#[export] Instance Verdict_eq_dec : EqDecision Verdict.
Proof. solve_decision. Defined.
Record VerdictObject := {
  v_intent : string; v_tree : string; v_lens : string; v_model : string; v_prompt : string;
  v_verdict : Verdict; v_claims : list string; v_evidence : list string }.

Definition KIND_REGEN_LANDED : string := "regen.gate.landed".
Definition KIND_REGEN_BLOCKED : string := "regen.gate.blocked".

Inductive BlockReason :=
| NotOptedIn (requested scope : string)
| RepassFailed
| VerdictMissing
| VerdictNotApproved (got : Verdict)
| VerdictNotIndependent (detail : string)
| FalseDerivedDeclaration (path detail : string).
Definition block_code (r : BlockReason) : string :=
  match r with
  | NotOptedIn _ _ => "not_opted_in"
  | RepassFailed => "repass_failed"
  | VerdictMissing => "verdict_missing"
  | VerdictNotApproved _ => "verdict_not_approved"
  | VerdictNotIndependent _ => "verdict_not_independent"
  | FalseDerivedDeclaration _ _ => "false_derived_declaration"
  end.

Inductive GateDecision :=
| DecLand (attestation : AttestationChain) (audit : EventRecord)
| DecBlocked (reason : BlockReason) (audit : EventRecord).
Definition is_landed (d : GateDecision) : bool := match d with DecLand _ _ => true | _ => false end.
Definition decision_audit (d : GateDecision) : EventRecord :=
  match d with DecLand _ a => a | DecBlocked _ a => a end.

Record DerivedClaim := { claim_path : string; deterministically_reproduced : bool }.
Record RegenRequest := {
  requested_scope : string; regen_model : string; regen_tree : string;
  derived_claims : list DerivedClaim }.

(** A signing key and the base64 text of what it signs. *)
Class Signer (K : Type) := { sign_b64 : K → list byte → string }.

Section Gate.
Context `{Crypto} `{SerdeJson} {K : Type} `{Signer K}.

Definition is_opted_in (g : RegenGate) (scope : string) : bool :=
  bool_decide (optin_scope g = "*") || bool_decide (optin_scope g = scope).

Definition claim_defect (c : DerivedClaim) : option BlockReason :=
  match classify (claim_path c) with
  | None => Some (FalseDerivedDeclaration (claim_path c)
      "path does not classify into any derived class (not a lockfile/codegen/snapshot)")
  | Some _ =>
      if deterministically_reproduced c then None
      else Some (FalseDerivedDeclaration (claim_path c)
        "regeneration command does not deterministically reproduce the file from sources")
  end.
Fixpoint claims_defect (cs : list DerivedClaim) : option BlockReason :=
  match cs with
  | [] => None
  | c :: cs => match claim_defect c with Some r => Some r | None => claims_defect cs end
  end.
Definition anti_smuggling (req : RegenRequest) : option BlockReason :=
  match derived_claims req with
  | [] => Some (FalseDerivedDeclaration "<none>"
      "regen declared no derived files — an empty claim set cannot satisfy the anti-smuggling check (nothing is provably derived)")
  | cs => claims_defect cs
  end.

Definition independence_defect (g : RegenGate) (req : RegenRequest) (v : VerdictObject) : option string :=
  if decide (v_model v = regen_model req) then
    Some ("verdict produced by the same model as the regen (`" +:+ regen_model req +:+ "`): not independent")
  else if decide (v_tree v ≠ regen_tree req) then
    Some ("verdict judges tree `" +:+ v_tree v +:+ "` but the regen produced tree `" +:+ regen_tree req +:+ "`")
  else if decide (indep_verdict g ≠ v_tree v) then
    Some ("gate.indep_verdict ref `" +:+ indep_verdict g +:+ "` does not resolve to the supplied verdict (by tree_hash)")
  else None.

Definition canonical_payload (v : Value) : string :=
  let compact := to_string v in default compact (canonical_json compact).

Definition audit_event (seq : N) (prev kind : string) (pc : list string) (payload : string) (at_ : N)
    : EventRecord := {|
  seq := seq; prev_hash := prev; this_hash := compute_this_hash prev kind pc payload seq;
  kind := kind; principal_chain := pc; payload := payload; recorded_at := at_ |}.

Definition block (g : RegenGate) (reason : BlockReason) (seq at_ : N) (prev : string) : GateDecision :=
  let payload := canonical_payload
    (json_object [("reason", Str (block_code reason)); ("scope", Str (optin_scope g))]) in
  DecBlocked reason (audit_event seq prev KIND_REGEN_BLOCKED ["regen.gate"] payload at_).

Definition sign_attestation (key : K) (c : AttestationChain) : AttestationChain :=
  let preimage := attestation_sig_preimage (att_tree c) (att_def c) (att_runner c) (att_model c)
    (att_principal c) in
  {| att_tree := att_tree c; att_def := att_def c; att_runner := att_runner c;
     att_model := att_model c; att_principal := att_principal c; att_sig := sign_b64 key preimage |}.

Definition land (g : RegenGate) (req : RegenRequest) (seq at_ : N) (prev : string) (key : K)
    : GateDecision :=
  let verdict_ref := indep_verdict g in
  let unsigned := {|
    att_tree := regen_tree req; att_def := "regen.gate"; att_runner := "hugit-checks/regen/gate";
    att_model := regen_model req;
    att_principal := ["regen.gate"; "gate-verdict:" +:+ verdict_ref]; att_sig := EmptyString |} in
  let attestation := sign_attestation key unsigned in
  let payload := canonical_payload (json_object
    [("scope", Str (requested_scope req)); ("tree", Str (regen_tree req));
     ("verdict_ref", Str verdict_ref); ("verdict_outcome", Str "approve")]) in
  DecLand attestation (audit_event seq prev KIND_REGEN_LANDED ["regen.gate"] payload at_).

Definition decide_regen (g : RegenGate) (req : RegenRequest) (indep : option VerdictObject)
    (seq at_ : N) (prev : string) (key : K) : GateDecision :=
  let blocked reason := block g reason seq at_ prev in
  if negb (is_opted_in g (requested_scope req)) then
    blocked (NotOptedIn (requested_scope req) (optin_scope g))
  else match anti_smuggling req with
  | Some reason => blocked reason
  | None =>
  if negb (repass g) then blocked RepassFailed
  else match indep with
  | None => blocked VerdictMissing
  | Some v =>
  if decide (trim (indep_verdict g) = EmptyString) then blocked VerdictMissing
  else match independence_defect g req v with
  | Some detail => blocked (VerdictNotIndependent detail)
  | None =>
  if decide (v_verdict v ≠ Approve) then blocked (VerdictNotApproved (v_verdict v))
  else land g req seq at_ prev key
  end end end.
End Gate.

(** * Derived files, declaratively *)

Lemma ends_with_true s suffix : ends_with s suffix = true ↔ ∃ stem, s = stem +:+ suffix.
Proof.
  unfold ends_with. rewrite starts_with_true. split.
  - intros [t Ht]. exists (String.rev t). apply (f_equal String.rev) in Ht.
    by rewrite string_rev_app, !string_rev_rev in Ht.
  - intros [stem ->]. exists (String.rev stem). apply string_rev_app.
Qed.

Definition derived_name (name : string) : Prop :=
  lower_name name ∈ LOCKFILES ∨
  ∃ stem suffix, suffix ∈ SNAPSHOT_SUFFIXES ++ CODEGEN_SUFFIXES ∧ lower_name name = stem +:+ suffix.
Definition derived_path (path : string) : Prop := ∃ name, file_name path = Some name ∧
  (derived_name name ∨ ∃ dir, dir ∈ components path ∧ dir ∈ SNAPSHOT_DIRS).

Lemma existsb_suffix name l :
  existsb (ends_with name) l = true ↔ ∃ stem suffix, suffix ∈ l ∧ name = stem +:+ suffix.
Proof.
  rewrite existsb_exists. setoid_rewrite ends_with_true. setoid_rewrite <- list_elem_of_In. naive_solver.
Qed.

Lemma classify_iff path : is_Some (classify path) ↔ derived_path path.
Proof.
  unfold classify, derived_path, derived_name.
  destruct (file_name path) as [name|]; [|split; [by intros []|by intros (?&?&_)]].
  case_decide as Hl; [split; [eauto 6|done]|].
  destruct (existsb _ (components path)) eqn:Hd.
  { apply existsb_exists in Hd as (d & Hd%list_elem_of_In & Hs%bool_decide_eq_true). split; [eauto 8|done]. }
  destruct (existsb (ends_with _) SNAPSHOT_SUFFIXES) eqn:Hs.
  { apply existsb_suffix in Hs as (? & ? & ? & ?). split; [|done]. intros _. exists name. split; [done|].
    left; right. do 2 eexists. split; [apply elem_of_app; by left|done]. }
  destruct (existsb (ends_with _) CODEGEN_SUFFIXES) eqn:Hc.
  { apply existsb_suffix in Hc as (? & ? & ? & ?). split; [|done]. intros _. exists name. split; [done|].
    left; right. do 2 eexists. split; [apply elem_of_app; by right|done]. }
  split; [by intros []|]. intros (? & [= <-] & [[?|(stem & suf & [Hin|Hin]%elem_of_app & Heq)]|(d & Hin & Hdir)]); [done|..].
  - assert (existsb (ends_with (lower_name name)) SNAPSHOT_SUFFIXES = true) by (apply existsb_suffix; eauto). congruence.
  - assert (existsb (ends_with (lower_name name)) CODEGEN_SUFFIXES = true) by (apply existsb_suffix; eauto). congruence.
  - rewrite (proj2 (existsb_exists _ _)) in Hd; [done|]. exists d. rewrite <- list_elem_of_In, bool_decide_true; done.
Qed.

(** * The gate's decision *)

Section Decision.
Context `{Crypto} `{SerdeJson} {K : Type} `{Signer K}.
Implicit Types (g : RegenGate) (req : RegenRequest) (key : K).

Definition honoured (c : DerivedClaim) : Prop :=
  derived_path (claim_path c) ∧ deterministically_reproduced c = true.
Definition independent g req (v : VerdictObject) : Prop :=
  v_model v ≠ regen_model req ∧ v_tree v = regen_tree req ∧ indep_verdict g = v_tree v.

(** What a landing requires. *)
Definition permitted g req (indep : option VerdictObject) : Prop :=
  (optin_scope g = "*" ∨ optin_scope g = requested_scope req) ∧
  derived_claims req ≠ [] ∧ Forall honoured (derived_claims req) ∧
  repass g = true ∧ trim (indep_verdict g) ≠ EmptyString ∧
  ∃ v, indep = Some v ∧ independent g req v ∧ v_verdict v = Approve.

(** What each refusal says about the request. *)
Definition justified g req (indep : option VerdictObject) (r : BlockReason) : Prop :=
  match r with
  | NotOptedIn s o => s = requested_scope req ∧ o = optin_scope g ∧ o ≠ "*" ∧ o ≠ s
  | RepassFailed => repass g = false
  | VerdictMissing => indep = None ∨ trim (indep_verdict g) = EmptyString
  | VerdictNotApproved got => got ≠ Approve ∧ ∃ v, indep = Some v ∧ v_verdict v = got
  | VerdictNotIndependent _ => ∃ v, indep = Some v ∧ ¬ independent g req v
  | FalseDerivedDeclaration p _ =>
      derived_claims req = [] ∨ ∃ c, c ∈ derived_claims req ∧ claim_path c = p ∧ ¬ honoured c
  end.

Lemma claim_defect_none c : claim_defect c = None ↔ honoured c.
Proof.
  unfold claim_defect, honoured. rewrite <- classify_iff.
  destruct (classify _); [|split; [done|by intros [[] _]]].
  destruct (deterministically_reproduced c); split; try done. intros [_ ?]; done.
Qed.

Lemma claims_defect_spec cs : match claims_defect cs with
  | None => Forall honoured cs
  | Some r => ∃ c d, c ∈ cs ∧ ¬ honoured c ∧ r = FalseDerivedDeclaration (claim_path c) d
  end.
Proof.
  induction cs as [|c cs IH]; simpl; [done|]. destruct (claim_defect c) as [r|] eqn:Hc.
  - exists c. assert (¬ honoured c) by (rewrite <- claim_defect_none; congruence).
    unfold claim_defect in Hc. destruct (classify _); [destruct (deterministically_reproduced c); [done|]|];
      injection Hc as <-; eexists; (split; [left|done]).
  - apply claim_defect_none in Hc. destruct (claims_defect cs); [|by constructor].
    destruct IH as (c' & d & ? & ? & ->). exists c', d. split; [by right|done].
Qed.

Lemma anti_smuggling_spec req : match anti_smuggling req with
  | None => derived_claims req ≠ [] ∧ Forall honoured (derived_claims req)
  | Some r => ∃ p d, r = FalseDerivedDeclaration p d ∧
      (derived_claims req = [] ∨ ∃ c, c ∈ derived_claims req ∧ claim_path c = p ∧ ¬ honoured c)
  end.
Proof.
  unfold anti_smuggling. destruct (derived_claims req) as [|c cs]; [eauto|].
  pose proof (claims_defect_spec (c :: cs)) as Hs. destruct (claims_defect (c :: cs)); [|done].
  destruct Hs as (c' & d & ? & ? & ->). eexists _, _. split; [done|]. right. eauto.
Qed.

Lemma independence_defect_none g req v : independence_defect g req v = None ↔ independent g req v.
Proof.
  unfold independence_defect, independent. repeat case_decide; split; try done; naive_solver.
Qed.

(** The attestation a landing carries, with the verdict that authorised it. *)
Definition attested g req key (a : AttestationChain) : Prop :=
  att_tree a = regen_tree req ∧ att_def a = "regen.gate" ∧ att_runner a = "hugit-checks/regen/gate" ∧
  att_model a = regen_model req ∧
  att_principal a = ["regen.gate"; "gate-verdict:" +:+ indep_verdict g] ∧
  att_sig a = sign_b64 key (attestation_sig_preimage (att_tree a) (att_def a) (att_runner a)
    (att_model a) (att_principal a)).

(** The gate lands a regenerated revision exactly when it is permitted: in scope,
    every declared file derived and reproduced and at least one of them, acceptance
    passed again, and an approving verdict of another model on this very tree, the
    one the gate is bound to.  A landing carries a signed attestation naming that
    verdict; a refusal names a defect the request has. *)
Theorem regen_decided g req indep seq at_ prev key :
  match decide_regen g req indep seq at_ prev key with
  | DecLand a _ => permitted g req indep ∧ attested g req key a
  | DecBlocked r _ => ¬ permitted g req indep ∧ justified g req indep r
  end.
Proof.
  unfold decide_regen, permitted, is_opted_in. pose proof (anti_smuggling_spec req) as Hs.
  destruct (bool_decide (optin_scope g = "*") || _) eqn:Ho; simpl.
  2: { apply orb_false_iff in Ho as [?%bool_decide_eq_false ?%bool_decide_eq_false]. naive_solver. }
  apply orb_true_iff in Ho. rewrite !bool_decide_eq_true in Ho.
  destruct (anti_smuggling req) as [r|]; simpl.
  { destruct Hs as (p & d & -> & Hd). split; [|exact Hd]. intros (_ & Hne & Hall & _).
    destruct Hd as [?|(c & Hc & _ & Hn)]; [done|]. by apply Hn, (proj1 (Forall_forall _ _) Hall). }
  destruct Hs as [Hne Hall]. destruct (repass g) eqn:Hr; simpl; [|split; [naive_solver|done]].
  destruct indep as [v|]; simpl; [|split; [naive_solver|by left]].
  case_decide as Ht; simpl; [split; [naive_solver|by right]|].
  destruct (independence_defect g req v) as [d|] eqn:Hi; simpl.
  { assert (¬ independent g req v) by (rewrite <- independence_defect_none; congruence). naive_solver. }
  apply independence_defect_none in Hi. case_decide as Ha; simpl; [naive_solver|].
  destruct (decide (v_verdict v = Approve)); [|done]. split; [naive_solver|done].
Qed.

(** Every decision is an event of the log: at the head of an intact log, the audit
    event continues it, and the log stays intact. *)
Theorem regen_audited g req indep log at_ key : intact (records log) →
  intact (records log ++ [decision_audit
    (decide_regen g req indep (N.of_nat (log_len log)) at_ (head_hash log) key)]).
Proof.
  intros Hi.
  assert (∃ k p, k ≠ PROVENANCE_REDACTION_KIND ∧
    decision_audit (decide_regen g req indep (N.of_nat (log_len log)) at_ (head_hash log) key)
      = (append log k ["regen.gate"] p at_).2) as (k & p & Hk & ->).
  { unfold decide_regen. repeat case_match;
      first [exists KIND_REGEN_BLOCKED; eexists; split; [by_decision|reflexivity]
            |exists KIND_REGEN_LANDED; eexists; split; [by_decision|reflexivity]]. }
  by apply (intact_append log k ["regen.gate"] p at_).
Qed.

(** A signature stands for one landing: landings whose attestations have the same
    signed bytes are of the same tree and model and were authorised by the same
    verdict. *)
Theorem regen_attestation_binds g req g' req' key key' a a' :
  attested g req key a → attested g' req' key' a' →
  Forall fits [regen_tree req; regen_tree req'; regen_model req; regen_model req'] →
  fits ("gate-verdict:" +:+ indep_verdict g) → fits ("gate-verdict:" +:+ indep_verdict g') →
  attestation_sig_preimage (att_tree a) (att_def a) (att_runner a) (att_model a) (att_principal a) =
  attestation_sig_preimage (att_tree a') (att_def a') (att_runner a') (att_model a') (att_principal a') →
  regen_tree req = regen_tree req' ∧ regen_model req = regen_model req' ∧ indep_verdict g = indep_verdict g'.
Proof.
  intros (-> & -> & -> & -> & -> & _) (-> & -> & -> & -> & -> & _) Hf Hg Hg' Heq.
  rewrite !Forall_cons in Hf. destruct Hf as (?&?&?&?&_).
  assert (fits "regen.gate" ∧ fits "hugit-checks/regen/gate") as [] by (split; by_decision).
  apply attestation_sig_preimage_inj in Heq as (? & _ & _ & ? & [= Hv]); try done.
  all: split; [done|]; by repeat constructor.
Qed.
End Decision.

(** * The registry *)

(** A driver that finds its tool missing or cannot start it says so; the registry
    turns either into the failure a caller cannot mistake for something milder. *)
Definition closed {A} (r : result RegenError A) : Prop :=
  match r with Ok _ => True | Err (FailClosed _ _) => True | Err _ => False end.

Section Registry.
Context {W : Type} `{Spawn W}.
Implicit Types w : W.

Lemma registry_closed (r : DriverRegistry W) w root path : closed (registry_regenerate r w root path).2.
Proof.
  unfold registry_regenerate. destruct (driver_for r path) as [d|]; [|done].
  destruct (regenerate d w root path) as [w' [p|e]]; [done|]. by destruct e.
Qed.

Lemma lower_name_ascii s : string_forall (λ c, N_of_ascii c <? 128) s = true → lower_name s = to_ascii_lowercase s.
Proof.
  remember (String.length s) as n eqn:Hn. revert s Hn.
  induction (lt_wf n) as [n _ IH]. intros [|a s] Hn Hs; [done|].
  change (string_forall _ (String a s)) with ((N_of_ascii a <? 128) && string_forall (λ c, N_of_ascii c <? 128) s) in Hs.
  apply andb_true_iff in Hs as [Ha%N.ltb_lt Hs].
  assert (lower_name s = to_ascii_lowercase s) as IHs by (eapply IH; [|reflexivity|done]; subst n; simpl; lia).
  destruct s as [|b [|c s]]; cbn [lower_name to_ascii_lowercase]; [done|done|].
  rewrite decide_False; [exact (f_equal (String (ascii_lower a)) IHs)|].
  intros [Hn' _]. unfold nat_of_ascii in Hn'. lia.
Qed.

(** The commands of the two drivers, by the lower case of the file's name. *)
Definition lock_command (root name : string) : option (list string) :=
  if decide (to_ascii_lowercase name = "cargo.lock")
  then Some ["cargo"; "generate-lockfile"; "--manifest-path"; join root "Cargo.toml"]
  else if decide (to_ascii_lowercase name = "pnpm-lock.yaml")
  then Some ["pnpm"; "install"; "--lockfile-only"; "--dir"; root]
  else None.

Lemma ascii_lower_ascii c : (N_of_ascii (ascii_lower c) <? 128) = (N_of_ascii c <? 128).
Proof. by destruct c as [[] [] [] [] [] [] [] []]. Qed.
Lemma lower_forall_ascii s :
  string_forall (λ c, N_of_ascii c <? 128) (to_ascii_lowercase s) = string_forall (λ c, N_of_ascii c <? 128) s.
Proof. induction s as [|c s IH]; [done|]. cbn [to_ascii_lowercase string_forall]. by rewrite ascii_lower_ascii, IH. Qed.

Lemma lower_lockfile path name lock : file_name path = Some name → to_ascii_lowercase name = lock →
  string_forall (λ c, N_of_ascii c <? 128) lock = true → lock ∈ LOCKFILES → classify path = Some Lockfile.
Proof.
  intros Hn <- Ha Hin. unfold classify. rewrite Hn. rewrite lower_forall_ascii in Ha.
  by rewrite lower_name_ascii, decide_True.
Qed.

Lemma lock_command_derived path name root cmd : file_name path = Some name → lock_command root name = Some cmd →
  classify path = Some Lockfile.
Proof.
  unfold lock_command. intros Hn Hc. case_decide as H1; [eapply (lower_lockfile _ _ _ Hn H1); by_decision|].
  case_decide as H2; [eapply (lower_lockfile _ _ _ Hn H2); by_decision|done].
Qed.

Lemma spawned_ok tool failure root path name r p : file_name path = Some name →
  match spawned tool failure root path r with Ok p => Ok p | Err e => Err (fail_closed_boundary e) end = Ok p ↔
  r = Ok (Some 0%Z) ∧ p = join root name.
Proof.
  intros Hn. unfold spawned. rewrite Hn. destruct r as [code|[]]; cbn; try (split; [done|by intros [? _]]).
  unfold success. case_bool_decide; naive_solver.
Qed.

(** What the default registry does: for a name that is one of the two lockfiles
    up to the case of its letters it runs that lockfile's command, once, and
    returns the file exactly if the command exits with zero; for any other path it
    runs nothing.  Whatever else happens is the closed failure, and what is
    regenerated is classified as a lockfile. *)
Theorem registry_regenerates w root path :
  let '(w', res) := registry_regenerate default_v0 w root path in
  closed res ∧
  match file_name path ≫= λ name, (λ cmd, (name, cmd)) <$> lock_command root name with
  | Some (name, cmd) =>
      classify path = Some Lockfile ∧ w' = (run_status w cmd).1 ∧
      ∀ p, res = Ok p ↔ (run_status w cmd).2 = Ok (Some 0%Z) ∧ p = join root name
  | None => w' = w ∧ ∃ m, res = Err (FailClosed m None)
  end.
Proof.
  pose proof (registry_closed default_v0 w root path) as Hcl. revert Hcl.
  unfold registry_regenerate, driver_for. cbn [default_v0 register registry_empty drivers app find].
  cbn [owns cargo_lock pnpm_lock]. unfold named.
  destruct (file_name path) as [name|] eqn:Hn; cbn [mbind option_bind]; [|eauto].
  pose proof (λ cmd, lock_command_derived path name root cmd Hn) as Hd. revert Hd. unfold lock_command.
  change (to_ascii_lowercase "Cargo.lock") with "cargo.lock". change (to_ascii_lowercase "pnpm-lock.yaml") with "pnpm-lock.yaml".
  case_bool_decide as Hc; [rewrite decide_True by done|rewrite decide_False by done;
    case_bool_decide as Hp; [rewrite decide_True by done|rewrite decide_False by done; simpl; eauto]];
    intros Hd; specialize (Hd _ eq_refl); cbn; destruct (run_status w _) as [w' r]; cbn; intros Hcl;
    (split; [exact Hcl|]); (split; [exact Hd|]); (split; [reflexivity|]); intros p; by apply spawned_ok.
Qed.
End Registry.

Module RegenExample.
Import Toy TamperExample.
#[local] Existing Instance Codec.codec.

Definition gate : RegenGate := {| optin_scope := "acme"; repass := true; indep_verdict := "t1" |}.
Definition claim (path : string) : DerivedClaim := {| claim_path := path; deterministically_reproduced := true |}.
Definition request (scope : string) (paths : list string) : RegenRequest := {|
  requested_scope := scope; regen_model := "m1"; regen_tree := "t1"; derived_claims := claim <$> paths |}.
Definition approval : VerdictObject := {|
  v_intent := "i"; v_tree := "t1"; v_lens := "l"; v_model := "m2"; v_prompt := "p"; v_verdict := Approve;
  v_claims := []; v_evidence := [] |}.
#[export] Instance toy_signer : Signer unit := {| sign_b64 _ msg := digest_hex msg |}.
Definition decided (scope : string) (paths : list string) : GateDecision :=
  decide_regen gate (request scope paths) (Some approval) 0 0 GENESIS_PREV_HASH tt.

Example landed : is_landed (decided "acme" ["a/Cargo.lock"; "web/__snapshots__/x.txt"]) = true.
Proof. vm_compute. reflexivity. Qed.

Lemma regen_audited_witness : intact (records log1 ++ [decision_audit
  (decide_regen gate (request "acme" []) None (N.of_nat (log_len log1)) 0 (head_hash log1) tt)]).
Proof.
  apply regen_audited. split; [vm_compute; reflexivity|].
  assert (collect_redactions (records log1) = ∅) as He by (vm_compute; reflexivity).
  intros s. rewrite He, lookup_empty. by intros [? ?].
Defined.

Definition signed : AttestationChain := sign_attestation tt {|
  att_tree := "t1"; att_def := "regen.gate"; att_runner := "hugit-checks/regen/gate"; att_model := "m1";
  att_principal := ["regen.gate"; "gate-verdict:t1"]; att_sig := EmptyString |}.
Example signed_lands : ∃ r, decided "acme" ["Cargo.lock"] = DecLand signed r.
Proof. eexists. vm_compute. reflexivity. Qed.
Lemma regen_attestation_binds_witness : indep_verdict gate = indep_verdict gate.
Proof.
  assert (attested gate (request "acme" ["Cargo.lock"]) tt signed) as Ha by (split_and!; vm_compute; reflexivity).
  refine (proj2 (proj2 (regen_attestation_binds gate (request "acme" ["Cargo.lock"]) gate (request "acme" ["Cargo.lock"])
    tt tt signed signed Ha Ha _ _ _ eq_refl))); [repeat constructor; by_decision|by_decision..].
Defined.

(** The contract of the gate speaks of a scope that is a repository or an
    organisation; the comparison is with the requested scope only. *)
Example organisation_not_opted_in : is_landed (decided "acme/web" ["Cargo.lock"]) = false.
Proof. vm_compute. reflexivity. Qed.

(** A name with the Kelvin sign is a lockfile to the classification and to no
    driver. *)
Definition kelvin_lock : string :=
  "Cargo.loc" +:+ String (ascii_of_nat 226) (String (ascii_of_nat 132) (String (ascii_of_nat 170) "")).
#[export] Instance log_spawn : Spawn (list (list string)) := {| run_status w cmd := (w ++ [cmd], Ok (Some 0%Z)) |}.
Example kelvin_split : classify kelvin_lock = Some Lockfile ∧
  (registry_regenerate default_v0 ([] : list (list string)) "/w" kelvin_lock).1 = [].
Proof. split; vm_compute; reflexivity. Qed.
Example cargo_regenerated : registry_regenerate default_v0 ([] : list (list string)) "/w" "a/CARGO.lock" =
  ([["cargo"; "generate-lockfile"; "--manifest-path"; "/w/Cargo.toml"]], Ok "/w/CARGO.lock").
Proof. vm_compute. reflexivity. Qed.
End RegenExample.
