(* ===== verification/Experiment.v ===== *)
(** The promotion experiment ([crates/hugit-diag/src/experiment]).

    Waves contribute datapoints; a corpus is sealed by a digest of its evaluated
    members; a report is generated from a sealed corpus and bound by a digest of
    its own; the gate flips a feature only when a report and a corpus verify, and
    records every decision on the chain.  The theorems: what each attempt decides
    and records, and what an accepted attempt says about the corpus presented.

    A sealed corpus and a report have private fields: outside their modules they
    come from [seal], [with_member_removed], [generate] and [forged_pass] only,
    which [corpus_value] and [report_value] write down. *)

From S2P Require Import Prelude Float Json JsonCodec Crypto Log Tamper Regen.

(** * Datapoints *)

Inductive SourceOrigin := Hugit | CorelinkServer | OtherExcluded (label_ : string).
#[export] Instance SourceOrigin_eq_dec : EqDecision SourceOrigin.
Proof. solve_decision. Defined.
Definition is_focus_eligible (s : SourceOrigin) : bool := match s with Hugit => true | _ => false end.
Definition source_label (s : SourceOrigin) : string :=
  match s with Hugit => "hugit" | CorelinkServer => "corelink-server" | OtherExcluded l => l end.

Inductive RegenOutcome := Agree | Disagree.
#[export] Instance RegenOutcome_eq_dec : EqDecision RegenOutcome.
Proof. solve_decision. Defined.
Definition agrees (r : RegenOutcome) : bool := match r with Agree => true | Disagree => false end.

Record Datapoint := {
  wave_id : string; source : SourceOrigin; claims_disjoint : bool; regen : RegenOutcome; degraded : bool }.
Record WaveContribution := { datapoint : Datapoint }.
Definition from_wave (wave : string) (s : SourceOrigin) (disjoint : bool) (r : RegenOutcome) (d : bool)
    : WaveContribution :=
  {| datapoint := {| wave_id := wave; source := s; claims_disjoint := disjoint; regen := r; degraded := d |} |}.

(** * Audited events *)

Inductive ExperimentEvent := PromotionAuthorized | PromotionRefused | IngestionRejected | VerdictInvalidated.
Definition experiment_kind (e : ExperimentEvent) : string :=
  match e with
  | PromotionAuthorized => "experiment.promotion.authorized"
  | PromotionRefused => "experiment.promotion.refused"
  | IngestionRejected => "experiment.ingestion.rejected"
  | VerdictInvalidated => "experiment.verdict.invalidated"
  end.

Definition emit_event `{Crypto} (log : list EventRecord) (e : ExperimentEvent) (principal payload_ : string) (at_ : N)
    : list EventRecord * EventRecord :=
  let seq_ := N.of_nat (length log) in
  let prev := match last log with Some r => this_hash r | None => GENESIS_PREV_HASH end in
  let pc := [principal] in
  let record := {|
    seq := seq_; prev_hash := prev; this_hash := compute_this_hash prev (experiment_kind e) pc payload_ seq_;
    kind := experiment_kind e; principal_chain := pc; payload := payload_; recorded_at := at_ |} in
  (log ++ [record], record).

Inductive IngestError := IneligibleSource (label_ : string).
Definition dquote : string := String (ascii_of_nat 34) EmptyString.
(** A member of a payload built by [format!]: the value is not escaped. *)
Definition raw_member (key value : string) : string :=
  dquote +:+ key +:+ dquote +:+ ":" +:+ dquote +:+ value +:+ dquote.

Definition ingest `{Crypto} (buffer : list Datapoint) (log : list EventRecord) (c : WaveContribution) (now_ms : N)
    : list Datapoint * list EventRecord * result IngestError unit :=
  let dp := datapoint c in
  if negb (is_focus_eligible (source dp)) then
    let payload_ := "{" +:+ raw_member "wave_id" (wave_id dp) +:+ "," +:+ raw_member "source" (source_label (source dp))
      +:+ "," +:+ raw_member "reason" "focus-gate-ineligible" +:+ "}" in
    (buffer, (emit_event log IngestionRejected "experiment-harness" payload_ now_ms).1,
     Err (IneligibleSource (source_label (source dp))))
  else (buffer ++ [dp], log, Ok tt).

(** * The sealed corpus *)

Inductive CorpusError := SealBroken.
Record Corpus := { members : list Datapoint }.
Definition Corpus_new : Corpus := {| members := [] |}.
Definition corpus_add (c : Corpus) (dp : Datapoint) : Corpus := {| members := members c ++ [dp] |}.

Definition bool_byte (b : bool) : byte := byte_of_N (if b then 1 else 0).

(** What the seal reads of a member. *)
Definition facts (m : Datapoint) : (string * string) * (bool * bool * bool) :=
  ((wave_id m, source_label (source m)), (claims_disjoint m, agrees (regen m), degraded m)).
Definition flag_bytes (f : bool * bool * bool) : list byte :=
  [bool_byte f.1.1; bool_byte f.1.2; bool_byte f.2].
Definition push_member (buf : list byte) (m : Datapoint) : list byte :=
  let buf := foldl push_lp_field buf [wave_id m; source_label (source m)] in
  buf ++ flag_bytes (claims_disjoint m, agrees (regen m), degraded m).
Definition seal_preimage (ms : list Datapoint) : list byte :=
  foldl push_member (be_bytes 4 (as_u32 (N.of_nat (length ms)))) ms.
Definition seal_digest `{Crypto} (ms : list Datapoint) : string := digest_hex (seal_preimage ms).

Record SealedCorpus := { evaluated : list Datapoint; excluded : list Datapoint; corpus_digest : string }.

Definition seal `{Crypto} (c : Corpus) : SealedCorpus :=
  let ev := filter (λ d, degraded d = false) (members c) in
  {| evaluated := ev; excluded := filter (λ d, degraded d ≠ false) (members c); corpus_digest := seal_digest ev |}.
Definition corpus_verify `{Crypto} (c : SealedCorpus) : result CorpusError unit :=
  if decide (seal_digest (evaluated c) = corpus_digest c) then Ok tt else Err SealBroken.
Definition with_member_removed (c : SealedCorpus) (index : nat) : SealedCorpus :=
  {| evaluated := (if decide (index < length (evaluated c))%nat then delete index (evaluated c) else evaluated c);
     excluded := excluded c; corpus_digest := corpus_digest c |}.

(** * The dashboard *)

Record Dashboard := { d_n : nat; disjoint_count : nat; d_agree : nat; d_disagree : nat }.
Definition from_sealed (c : SealedCorpus) : Dashboard :=
  let ev := evaluated c in
  let n := length ev in
  let agree := length (filter (λ d, agrees (regen d) = true) ev) in
  {| d_n := n; disjoint_count := length (filter (λ d, claims_disjoint d = true) ev);
     d_agree := agree; d_disagree := n - agree |}.
Definition disjointness_pct (d : Dashboard) : spec_float :=
  if decide (d_n d = 0%nat) then f64_zero
  else f64_div (f64_mul (f64_of_N (N.of_nat (disjoint_count d))) (f64_of_N 100)) (f64_of_N (N.of_nat (d_n d))).

(** * The report *)

Definition MIN_SAMPLE_N : nat := 30.
Inductive ReportVerdict := Pass | Fail_ | Insufficient.
#[export] Instance ReportVerdict_eq_dec : EqDecision ReportVerdict.
Proof. solve_decision. Defined.
Inductive ReportError := Forged | ReportCorpusTampered.

Record GateReport := {
  verdict : ReportVerdict; report_n : nat; report_pct : spec_float; regen_agree : nat; regen_disagree : nat;
  corpus_seal : string; attestation : AttestationChain; body_digest : string }.

Definition verdict_tag (v : ReportVerdict) : N := match v with Pass => 1 | Fail_ => 2 | Insufficient => 3 end.
Definition body_preimage (r : GateReport) : list byte :=
  let buf := [byte_of_N (verdict_tag (verdict r))] in
  let buf := push_u64 buf (N.of_nat (report_n r)) in
  let buf := buf ++ be_bytes 8 (f64_bits (report_pct r)) in
  let buf := push_u64 buf (N.of_nat (regen_agree r)) in
  let buf := push_u64 buf (N.of_nat (regen_disagree r)) in
  foldl push_lp_field buf [corpus_seal r; att_sig (attestation r)].
Definition compute_body_digest `{Crypto} (r : GateReport) : string := digest_hex (body_preimage r).

Definition derive_verdict (d : Dashboard) : ReportVerdict :=
  if decide (d_n d < MIN_SAMPLE_N)%nat then Insufficient
  else if decide (disjoint_count d = d_n d ∧ d_disagree d = 0%nat) then Pass else Fail_.
Definition generate `{Crypto} (c : SealedCorpus) (att : AttestationChain) : GateReport :=
  let dash := from_sealed c in
  let report digest_ := {|
    verdict := derive_verdict dash; report_n := d_n dash; report_pct := disjointness_pct dash;
    regen_agree := d_agree dash; regen_disagree := d_disagree dash; corpus_seal := corpus_digest c;
    attestation := att; body_digest := digest_ |} in
  report (compute_body_digest (report EmptyString)).
Definition report_verify `{Crypto} (r : GateReport) (c : SealedCorpus) : result ReportError unit :=
  if decide (compute_body_digest r ≠ body_digest r) then Err Forged
  else if decide (corpus_seal r ≠ corpus_digest c) then Err ReportCorpusTampered
  else match corpus_verify c with Err _ => Err ReportCorpusTampered | Ok _ => Ok tt end.
Definition forged_pass (r : GateReport) : GateReport := {|
  verdict := Pass; report_n := MIN_SAMPLE_N `max` report_n r; report_pct := report_pct r;
  regen_agree := regen_agree r; regen_disagree := regen_disagree r; corpus_seal := corpus_seal r;
  attestation := attestation r; body_digest := body_digest r |}.

(** * The gate *)

Inductive FeatureState := ClaimsOracleAdvisoryOff | ClaimsOracleOn | RegenPromotionBlocked | RegenPromotionPromoted.
#[export] Instance FeatureState_eq_dec : EqDecision FeatureState.
Proof. solve_decision. Defined.
Inductive Promotion := PromoteClaimsOracle | PromoteRegen.
Definition promotion_label (p : Promotion) : string :=
  match p with PromoteClaimsOracle => "claims-as-oracle" | PromoteRegen => "regen-promotion" end.
Inductive EvaluatorHealth := Healthy | EvaluatorIsDegraded.
Inductive GateError := NotPass (v : ReportVerdict) | EvaluatorDegraded | ForgedReport | CorpusTampered.
Record GateVerdict := { state : FeatureState; event : EventRecord }.
Record PromotionAttempt := {
  promotion : Promotion; report : GateReport; corpus : SealedCorpus; evaluator : EvaluatorHealth; principal : string }.
Record ExperimentGate := { claims_oracle : FeatureState; regen_promotion : FeatureState }.

Definition ExperimentGate_new : ExperimentGate :=
  {| claims_oracle := ClaimsOracleAdvisoryOff; regen_promotion := RegenPromotionBlocked |}.
Definition is_claims_oracle_pinned (g : ExperimentGate) : bool := bool_decide (claims_oracle g = ClaimsOracleAdvisoryOff).
Definition is_regen_blocked (g : ExperimentGate) : bool := bool_decide (regen_promotion g = RegenPromotionBlocked).

Section Gate.
Context `{Crypto}.

Definition refuse (log : list EventRecord) (p : Promotion) (principal_ reason : string) (now_ms : N)
    : list EventRecord :=
  let payload_ := "{" +:+ raw_member "feature" (promotion_label p) +:+ "," +:+ raw_member "reason" reason
    +:+ "," +:+ raw_member "action" "refused" +:+ "}" in
  (emit_event log PromotionRefused principal_ payload_ now_ms).1.

Definition promote (g : ExperimentGate) (p : Promotion) : ExperimentGate * FeatureState :=
  match p with
  | PromoteClaimsOracle => ({| claims_oracle := ClaimsOracleOn; regen_promotion := regen_promotion g |}, ClaimsOracleOn)
  | PromoteRegen =>
      ({| claims_oracle := claims_oracle g; regen_promotion := RegenPromotionPromoted |}, RegenPromotionPromoted)
  end.

Definition attempt_promotion (g : ExperimentGate) (log : list EventRecord) (a : PromotionAttempt) (now_ms : N)
    : ExperimentGate * list EventRecord * result GateError GateVerdict :=
  let refused reason e := (g, refuse log (promotion a) (principal a) reason now_ms, Err e) in
  match evaluator a with
  | EvaluatorIsDegraded => refused "evaluator-degraded" EvaluatorDegraded
  | Healthy =>
  match report_verify (report a) (corpus a) with
  | Err Forged => refused "forged-report" ForgedReport
  | Err ReportCorpusTampered => refused "corpus-tampered" CorpusTampered
  | Ok _ =>
  let v := verdict (report a) in
  if decide (v ≠ Pass) then refused "not-pass" (NotPass v)
  else
    let (g, new_state) := promote g (promotion a) in
    let payload_ := "{" +:+ raw_member "feature" (promotion_label (promotion a)) +:+ ","
      +:+ raw_member "verdict" "PASS" +:+ "," +:+ raw_member "corpus_seal" (corpus_seal (report a)) +:+ ","
      +:+ dquote +:+ "n" +:+ dquote +:+ ":" +:+ decimal (N.of_nat (report_n (report a))) +:+ "}" in
    let (log, ev) := emit_event log PromotionAuthorized (principal a) payload_ now_ms in
    (g, log, Ok {| state := new_state; event := ev |})
  end
  end.

Definition apply_regen_promotion (g : ExperimentGate) (gate : RegenGate) : RegenGate :=
  if decide (regen_promotion g = RegenPromotionPromoted)
  then {| optin_scope := optin_scope gate; repass := true; indep_verdict := indep_verdict gate |}
  else {| optin_scope := optin_scope gate; repass := false; indep_verdict := indep_verdict gate |}.
End Gate.

(** * The values the private fields allow *)

Section Values.
Context `{Crypto}.

Inductive corpus_value : SealedCorpus → Prop :=
| value_sealed c : corpus_value (seal c)
| value_removed c i : corpus_value c → corpus_value (with_member_removed c i).

(** A report and the corpus it was generated from. *)
Inductive report_value : SealedCorpus → GateReport → Prop :=
| value_generated c att : corpus_value c → report_value c (generate c att)
| value_forged c r : report_value c r → report_value c (forged_pass r).
End Values.

(** * The seal *)

Definition member_bytes (f : (string * string) * (bool * bool * bool)) : list byte :=
  (lp f.1.1 ++ lp f.1.2) ++ flag_bytes f.2.
Lemma push_member_bytes buf m : push_member buf m = buf ++ member_bytes (facts m).
Proof. unfold push_member, member_bytes. cbn [foldl]. rewrite !push_lp_field_lp, <- !(assoc_L (++)). done. Qed.
Lemma seal_preimage_facts ms :
  seal_preimage ms
  = be_bytes 4 (as_u32 (N.of_nat (length (facts <$> ms)))) ++ ((facts <$> ms) ≫= member_bytes).
Proof.
  unfold seal_preimage. rewrite length_fmap.
  generalize (be_bytes 4 (as_u32 (N.of_nat (length ms)))). induction ms as [|m ms IH]; intros buf; cbn [foldl].
  - cbn. by rewrite app_nil_r.
  - rewrite IH, push_member_bytes, <- (assoc_L (++)). reflexivity.
Qed.

Lemma flag_bytes_prefix_code : prefix_code (λ _, True) flag_bytes.
Proof.
  apply (prefix_code_fixed _ _ 3); [intros; reflexivity|]. intros [[[] []] []] [[[] []] []] _ _ Heq; try done; vm_compute in Heq; discriminate.
Qed.
Lemma member_prefix_code : prefix_code (λ f, (fits f.1.1 ∧ fits f.1.2) ∧ True) member_bytes.
Proof.
  apply (prefix_code_pair (λ p : string * string, fits p.1 ∧ fits p.2) (λ _ : bool * bool * bool, True)
    (λ p, lp p.1 ++ lp p.2) flag_bytes); [|apply flag_bytes_prefix_code].
  apply (prefix_code_pair fits fits lp lp); apply lp_prefix_code.
Qed.

(** The members of a corpus whose sizes the length fields hold. *)
Definition corpus_fits (ms : list Datapoint) : Prop :=
  fits_len ms ∧ Forall (λ m, fits (wave_id m) ∧ fits (source_label (source m))) ms.
Lemma seal_preimage_inj ms ms' : corpus_fits ms → corpus_fits ms' →
  seal_preimage ms = seal_preimage ms' → facts <$> ms = facts <$> ms'.
Proof.
  assert (∀ l, corpus_fits l → fits_len (facts <$> l) ∧
            Forall (λ f : (string * string) * (bool * bool * bool), (fits f.1.1 ∧ fits f.1.2) ∧ True) (facts <$> l)) as Hf.
  { intros l [Hl Hm]. split; [unfold fits_len; by rewrite length_fmap|].
    apply Forall_fmap. eapply Forall_impl; [exact Hm|]. cbn. tauto. }
  rewrite !seal_preimage_facts. intros Hms%Hf Hms'%Hf Heq.
  refine (prefix_code_inj _ _ _ _ (counted_prefix_code _ _ member_prefix_code) _ _ _); done.
Qed.

(** * What the gate decides *)

Section Decisions.
Context `{Crypto} `{SerdeJson}.

Lemma emit_event_append log e who p at_ :
  emit_event log e who p at_
  = (records (append {| records := log |} (experiment_kind e) [who] p at_).1,
     (append {| records := log |} (experiment_kind e) [who] p at_).2).
Proof. reflexivity. Qed.

Lemma emit_intact log e who p at_ : intact log → intact (emit_event log e who p at_).1.
Proof.
  intros Hl. rewrite emit_event_append. apply (intact_append {| records := log |}); [by destruct e|done].
Qed.

(** Every attempt records exactly one event, by the principal who attempts, at
    the end of an intact chain that stays intact: an authorization when the
    feature flips, a refusal when nothing changes.  The attempt succeeds exactly
    when the evaluator is healthy, the report and the corpus verify, and the
    verdict of the report is [Pass]; then the feature named flips and the other
    one keeps its state. *)
Theorem promotion_decided g log a now_ms :
  let '(g', log', r) := attempt_promotion g log a now_ms in
  (∃ ev, log' = log ++ [ev] ∧ principal_chain ev = [principal a] ∧ recorded_at ev = now_ms ∧
     match r with
     | Ok v => kind ev = experiment_kind PromotionAuthorized ∧ event v = ev
     | Err _ => kind ev = experiment_kind PromotionRefused
     end) ∧
  (intact log → intact log') ∧
  ((∃ v, r = Ok v) ↔ evaluator a = Healthy ∧ report_verify (report a) (corpus a) = Ok tt ∧ verdict (report a) = Pass) ∧
  match r with
  | Err _ => g' = g
  | Ok v =>
      match promotion a with
      | PromoteClaimsOracle => g' = {| claims_oracle := ClaimsOracleOn; regen_promotion := regen_promotion g |}
          ∧ state v = ClaimsOracleOn
      | PromoteRegen => g' = {| claims_oracle := claims_oracle g; regen_promotion := RegenPromotionPromoted |}
          ∧ state v = RegenPromotionPromoted
      end
  end.
Proof.
  assert (∀ p who reason, (∃ ev, refuse log p who reason now_ms = log ++ [ev] ∧ principal_chain ev = [who]
            ∧ recorded_at ev = now_ms ∧ kind ev = experiment_kind PromotionRefused)
          ∧ (intact log → intact (refuse log p who reason now_ms))) as Hrefuse.
  { intros. split; [by eexists|]. apply emit_intact. }
  unfold attempt_promotion. destruct (evaluator a).
  2:{ destruct (Hrefuse (promotion a) (principal a) "evaluator-degraded") as [? ?]. split_and!; [done..| |done].
      split; [by intros [? ?]|by intros (? & _)]. }
  destruct (report_verify (report a) (corpus a)) as [[]|[]] eqn:Hv.
  - destruct (decide (verdict (report a) ≠ Pass)) as [Hp|Hp].
    + destruct (Hrefuse (promotion a) (principal a) "not-pass") as [? ?]. split_and!; [done..| |done].
      split; [by intros [? ?]|by intros (_ & _ & ?)].
    + apply dec_stable in Hp. destruct (promotion a); cbn [promote fst snd]; (split_and!;
        [by eexists|intros Hl; by apply (emit_intact _ PromotionAuthorized)|by split; [|intros _; eexists]|done..]).
  - destruct (Hrefuse (promotion a) (principal a) "forged-report") as [? ?]. split_and!; [done..| |done].
    split; [by intros [? ?]|by intros (_ & ? & _)].
  - destruct (Hrefuse (promotion a) (principal a) "corpus-tampered") as [? ?]. split_and!; [done..| |done].
    split; [by intros [? ?]|by intros (_ & ? & _)].
Qed.
End Decisions.

(** * What an accepted promotion says of the corpus *)

(** The bar of the experiment, on the members a corpus evaluates. *)
Definition clears_bar (c : SealedCorpus) : Prop :=
  (MIN_SAMPLE_N ≤ length (evaluated c))%nat ∧
  Forall (λ m, claims_disjoint m = true ∧ regen m = Agree ∧ degraded m = false) (evaluated c).

Section Genuine.
Context `{CryptoLaws}.

Lemma corpus_value_degraded c : corpus_value c → Forall (λ m, degraded m = false) (evaluated c).
Proof.
  induction 1 as [c|c i Hc IH]; cbn.
  - apply Forall_forall. intros m [? _]%list_elem_of_filter. done.
  - case_decide; [|done]. by apply Forall_delete.
Qed.

Lemma filter_all {A} (P : A → Prop) `{∀ x, Decision (P x)} (l : list A) :
  length (filter P l) = length l ↔ Forall P l.
Proof.
  induction l as [|x l IH]; [done|]. rewrite filter_cons, Forall_cons. case_decide as Hx; cbn.
  - rewrite <- IH. split; [intros [= ?]; done|intros [_ Heq]; by rewrite Heq].
  - pose proof (length_filter P l). split; [lia|tauto].
Qed.

Lemma derived_pass c : Forall (λ m, degraded m = false) (evaluated c) →
  derive_verdict (from_sealed c) = Pass ↔ clears_bar c.
Proof.
  intros Hd. unfold derive_verdict, clears_bar, from_sealed. cbn [d_n disjoint_count d_disagree].
  pose proof (length_filter (λ d, agrees (regen d) = true) (evaluated c)) as Hle.
  case_decide as Hn; [split; [done|intros [? _]; lia]|]. case_decide as Hp.
  - split; [intros _|done]. destruct Hp as [Hj%filter_all Ha]. split; [lia|].
    assert (length (filter (λ d, agrees (regen d) = true) (evaluated c)) = length (evaluated c)) as Ha' by lia.
    apply filter_all in Ha'. rewrite Forall_forall in *. intros m Hm. specialize (Ha' m Hm).
    split_and!; [by apply Hj|by destruct (regen m)|by apply Hd].
  - split; [done|]. intros [_ Hb]. exfalso. apply Hp. split.
    + apply filter_all. eapply Forall_impl; [exact Hb|]. by intros m (? & _).
    + assert (length (filter (λ d, agrees (regen d) = true) (evaluated c)) = length (evaluated c)) as ->; [|lia].
      apply filter_all. eapply Forall_impl; [exact Hb|]. by intros m (_ & -> & _).
Qed.

(** A report and the one it was generated as: a forgery changes the verdict and
    the size only, and keeps the digest. *)
Lemma report_value_origin c r : report_value c r →
  corpus_value c ∧
  body_digest r = digest_hex (body_preimage (generate c (attestation r))) ∧ corpus_seal r = corpus_digest c.
Proof.
  induction 1 as [c att Hc|c r Hr IH]; [by split_and!|]. destruct IH as (? & ? & ?). by split_and!.
Qed.

Lemma body_preimage_tag r r' : body_preimage r = body_preimage r' → verdict r = verdict r'.
Proof.
  unfold body_preimage, push_u64. cbn [foldl]. rewrite !push_lp_field_lp, <- !(assoc_L (++)). cbn [app].
  intros [= Hb _]. by destruct (verdict r), (verdict r').
Qed.

(** C26. An accepted promotion was earned, unless a hash collision is at hand: the
    corpus the report was generated from has [MIN_SAMPLE_N] members or more,
    every one disjoint, agreeing and not degraded, whether or not the report was
    forged afterwards; and if that corpus verifies, the corpus presented to the
    gate clears the same bar. *)
Theorem promotion_genuine g log a now_ms g' log' v c0 :
  report_value c0 (report a) → corpus_value (corpus a) →
  corpus_fits (evaluated c0) → corpus_fits (evaluated (corpus a)) →
  attempt_promotion g log a now_ms = (g', log', Ok v) →
  collision (body_preimage (report a)) (body_preimage (generate c0 (attestation (report a)))) ∨
  clears_bar c0 ∧ corpus_verify (corpus a) = Ok tt ∧
  (corpus_verify c0 = Ok tt →
     collision (seal_preimage (evaluated c0)) (seal_preimage (evaluated (corpus a))) ∨ clears_bar (corpus a)).
Proof.
  intros (Hc0 & Hbody & Hseal)%report_value_origin Hc Hf0 Hf. unfold attempt_promotion.
  destruct (evaluator a); [|done].
  destruct (report_verify (report a) (corpus a)) as [[]|[]] eqn:Hv; [|done..].
  case_decide as Hp; [done|]. try apply dec_stable in Hp. intros _. revert Hv. unfold report_verify.
  case_decide as Hd; [done|]. try apply dec_stable in Hd. case_decide as Hs; [done|]. try apply dec_stable in Hs.
  destruct (corpus_verify (corpus a)) as [[]|] eqn:Hcv; [|done]. intros _.
  unfold compute_body_digest in Hd. rewrite Hbody in Hd. apply digest_hex_eq in Hd as [Hd|Hd]; [right|by left].
  apply body_preimage_tag in Hd. rewrite Hp in Hd. symmetry in Hd. cbn in Hd.
  apply derived_pass in Hd; [|by apply corpus_value_degraded]. split_and!; [done|done|]. intros Hcv0.
  assert (∀ c, corpus_verify c = Ok tt → seal_digest (evaluated c) = corpus_digest c) as Hok
    by (intros c; unfold corpus_verify; by case_decide).
  assert (seal_digest (evaluated c0) = seal_digest (evaluated (corpus a))) as H1
    by (rewrite (Hok c0), (Hok (corpus a)) by done; congruence).
  apply digest_hex_eq in H1 as [H1|H1]; [right|by left].
  apply seal_preimage_inj in H1; [|done..]. destruct Hd as [Hn Hall]. split.
  - pose proof (f_equal length H1) as Hl. rewrite !length_fmap in Hl. lia.
  - assert (Forall (λ f : (string * string) * (bool * bool * bool), f.2 = (true, true, false)) (facts <$> evaluated c0)) as Hfa.
    { apply Forall_fmap. eapply Forall_impl; [exact Hall|]. intros m (Hj & Ha & Hg). cbn. by rewrite Hj, Ha, Hg. }
    rewrite H1 in Hfa. rewrite Forall_fmap in Hfa. eapply Forall_impl; [exact Hfa|].
    intros m Hm. cbn in Hm. injection Hm as Hj Ha Hg. by destruct (regen m).
Qed.

(** The premise on the report's corpus is needed: [generate] does not verify its
    corpus, so a report generated after a member was removed carries the seal of
    the whole corpus, and the gate accepts it with that corpus, whatever the
    member removed says. *)
Theorem removed_member_promotes ms i att g log who p now_ms :
  clears_bar (with_member_removed (seal {| members := ms |}) i) →
  let a := {| promotion := p; report := generate (with_member_removed (seal {| members := ms |}) i) att;
              corpus := seal {| members := ms |}; evaluator := Healthy; principal := who |} in
  ∃ v, (attempt_promotion g log a now_ms).2 = Ok v.
Proof.
  intros Hb a. assert (verdict (report a) = Pass) as Hp.
  { apply derived_pass; [|done]. apply corpus_value_degraded. by constructor; constructor. }
  assert (report_verify (report a) (corpus a) = Ok tt) as Hv.
  { unfold report_verify. rewrite decide_False by (intros Hn; by apply Hn). rewrite decide_False by (intros Hn; by apply Hn).
    unfold corpus_verify. by rewrite decide_True. }
  unfold attempt_promotion. rewrite Hv. cbn [evaluator a]. rewrite decide_False by (intros Hn; by apply Hn).
  destruct p; by eexists.
Qed.
End Genuine.

Module ExperimentExample.
Import Toy TamperExample.
#[local] Existing Instance Codec.codec.

Definition wave (r : RegenOutcome) (d : bool) : Datapoint := datapoint (from_wave "w" Hugit true r d).
Definition attested_by : AttestationChain := {|
  att_tree := "t"; att_def := "d"; att_runner := "r"; att_model := "m"; att_principal := []; att_sig := "s" |}.
Definition held : SealedCorpus := seal {| members := replicate 30 (wave Agree false) ++ [wave Disagree true] |}.
Definition attempt_with (r : GateReport) (c : SealedCorpus) : PromotionAttempt := {|
  promotion := PromoteRegen; report := r; corpus := c; evaluator := Healthy; principal := "user:a" |}.
Definition gate_on (r : GateReport) (c : SealedCorpus) : FeatureState * option GateError :=
  let '(g, _, res) := attempt_promotion ExperimentGate_new [] (attempt_with r c) 7 in
  (regen_promotion g, match res with Ok _ => None | Err e => Some e end).

(** A genuine pass; a forged one; a sample too small; a corpus that lost a member. *)
Example gate_decisions :
  let failed := seal {| members := replicate 29 (wave Agree false) ++ [wave Disagree false] |} in
  [gate_on (generate held attested_by) held;
   gate_on (forged_pass (generate failed attested_by)) failed;
   gate_on (generate (with_member_removed failed 29) attested_by) (with_member_removed failed 29);
   gate_on (generate held attested_by) (with_member_removed held 0);
   gate_on (generate failed attested_by) failed]
  = [(RegenPromotionPromoted, None); (RegenPromotionBlocked, Some ForgedReport);
     (RegenPromotionBlocked, Some CorpusTampered); (RegenPromotionBlocked, Some CorpusTampered);
     (RegenPromotionBlocked, Some (NotPass Fail_))].
Proof. vm_compute. reflexivity. Qed.

(** Thirty-one members, one of which disagrees: the report generated without it
    promotes the whole corpus. *)
Definition one_disagrees : list Datapoint := replicate 30 (wave Agree false) ++ [wave Disagree false].
Lemma removed_member_promotes_witness : ∃ v, (attempt_promotion ExperimentGate_new [] (attempt_with
  (generate (with_member_removed (seal {| members := one_disagrees |}) 30) attested_by)
  (seal {| members := one_disagrees |})) 7).2 = Ok v.
Proof.
  apply (removed_member_promotes one_disagrees 30). split; [vm_compute; lia|].
  assert (evaluated (with_member_removed (seal {| members := one_disagrees |}) 30) = replicate 30 (wave Agree false))
    as -> by (vm_compute; reflexivity).
  by apply Forall_replicate.
Defined.

Lemma promotion_genuine_witness : clears_bar held.
Proof.
  destruct (attempt_promotion ExperimentGate_new [] (attempt_with (generate held attested_by) held) 7)
    as [[g' log'] [v|e]] eqn:Ha; [|vm_compute in Ha; discriminate].
  assert (corpus_value (corpus (attempt_with (generate held attested_by) held))) as Hc
    by (cbn [attempt_with corpus]; apply value_sealed).
  assert (report_value held (report (attempt_with (generate held attested_by) held))) as Hr
    by (cbn [attempt_with report]; apply value_generated, value_sealed).
  assert (corpus_fits (evaluated held)) as Hf0.
  { split; [vm_compute; reflexivity|].
    assert (evaluated held = replicate 30 (wave Agree false)) as -> by (vm_compute; reflexivity).
    apply Forall_replicate. split; vm_compute; reflexivity. }
  assert (corpus_fits (evaluated (corpus (attempt_with (generate held attested_by) held)))) as Hf
    by (cbn [attempt_with corpus]; exact Hf0).
  destruct (promotion_genuine _ _ _ _ _ _ _ _ Hr Hc Hf0 Hf Ha) as [[Hne _]|[Hb _]]; [|exact Hb].
  exfalso. apply Hne. reflexivity.
Defined.
End ExperimentExample.
