(* ===== verification/Ledger.v ===== *)
(** The ledger: what was asked, done and proven, projected from the event log
    ([crates/hugit-ledger/src/ledger/mod.rs]), and the lines of the live display
    ([crates/hugit-ledger/src/watch/mod.rs]).

    The derived reader of a verdict is the class [VerdictJson].  The projection is
    related to the log record by record: each landing has its entry with its own
    fields, and the verdicts shown with it are those recorded for its intent; a
    rejection stands until the lens that gave it approves in a later record, and no
    text that looks like a secret is shown. *)

From S2P Require Import Prelude Text Scan Json JsonCodec Crypto Secret Credentials Log Regen.

(** * Verdicts by lens *)

Definition rejects (v : Verdict) : bool := match v with Approve => false | _ => true end.

(** [merge_lens_outcome]: within a record a rejection is not cleared. *)
Definition merge_lens_outcome (slot : gmap string Verdict) (lens : string) (incoming : Verdict) : gmap string Verdict :=
  match slot !! lens with
  | None => <[lens := incoming]> slot
  | Some existing =>
      if negb (rejects existing && bool_decide (incoming = Approve)) then <[lens := incoming]> slot else slot
  end.

Record VerdictView := { view_intent : string; view_lens : string; outcome : string; claims_checked : list string }.
Record LedgerEntry := {
  campaign : string; intent_id : string; charter : string; entry_seq : N; entry_at : N;
  deep_link_target : string; proven : bool; rejected : bool; verdict : option VerdictView }.

(** [{:?}] of a verdict. *)
Definition verdict_debug (v : Verdict) : string :=
  match v with Approve => "Approve" | FixFirst => "FixFirst" | Reject => "Reject" end.

(** The derived reader of a recorded verdict. *)
Class VerdictJson := { verdict_from_str : string → option VerdictObject }.

Section Ledger.
Context `{Libm} `{SerdeJson} `{VerdictJson}.

Definition from_verdict_object (v : VerdictObject) : VerdictView := {|
  view_intent := redact_apply (v_intent v); view_lens := redact_apply (v_lens v);
  outcome := verdict_debug (v_verdict v); claims_checked := redact_apply <$> v_claims v |}.

Definition landed_entry (r : EventRecord) (v : Value) : string * LedgerEntry :=
  let raw_intent_id := default EmptyString (field_str v "intent_id") in
  let raw_campaign := default "default" (field_str v "campaign") in
  let raw_charter := default EmptyString (field_str v "charter") in
  let raw_deep_link := default raw_intent_id (field_str v "deep_link_target") in
  (raw_intent_id, {|
    campaign := redact_apply raw_campaign; intent_id := redact_apply raw_intent_id;
    charter := redact_apply raw_charter; entry_seq := seq r; entry_at := recorded_at r;
    deep_link_target := redact_apply raw_deep_link; proven := false; rejected := false; verdict := None |}).

(** The first pass: the entries, and the index of each raw id. *)
Definition landing_pass (records : list EventRecord) : list LedgerEntry * gmap string nat :=
  foldl (λ '(entries, index) r,
    if decide (kind r = "intent.landed") then
      match from_str (payload r) with
      | Some v =>
          let '(id, e) := landed_entry r v in
          (entries ++ [e], <[id := length entries]> index)
      | None => (entries, index)
      end
    else (entries, index)) ([], ∅) records.

Definition claim_outcome (result : string) : Verdict :=
  if decide (result = "approve") then Approve
  else if decide (result = "fix_first") then FixFirst else Reject.
(** One record's resolution per lens. *)
Definition this_record (vo : VerdictObject) : gmap string Verdict :=
  let claims := omap (λ claim, split_once ":"%char claim) (v_claims vo) in
  match claims with
  | [] => merge_lens_outcome ∅ "panel" (v_verdict vo)
  | _ => foldl (λ slot '(lens, result), merge_lens_outcome slot lens (claim_outcome result)) ∅ claims
  end.

Definition set_verdict (view : VerdictView) (e : LedgerEntry) : LedgerEntry := {|
  campaign := campaign e; intent_id := intent_id e; charter := charter e; entry_seq := entry_seq e; entry_at := entry_at e;
  deep_link_target := deep_link_target e; proven := proven e; rejected := rejected e; verdict := Some view |}.

(** The second pass: the state per entry and lens, and the verdict shown. *)
Definition verdict_pass (index : gmap string nat) (records : list EventRecord)
    (st : gmap nat (gmap string Verdict) * list LedgerEntry) : gmap nat (gmap string Verdict) * list LedgerEntry :=
  foldl (λ '(lens_state, entries) r,
    if decide (kind r = "verdict.recorded") then
      match verdict_from_str (payload r) with
      | Some vo =>
          match index !! v_intent vo with
          | Some idx =>
              let per_lens := default ∅ (lens_state !! idx) in
              (<[idx := this_record vo ∪ per_lens]> lens_state, alter (set_verdict (from_verdict_object vo)) idx entries)
          | None => (lens_state, entries)
          end
      | None => (lens_state, entries)
      end
    else (lens_state, entries)) st records.

Definition any_verdict (p : Verdict → bool) (m : gmap string Verdict) : bool := existsb (λ kv, p kv.2) (map_to_list m).
Definition set_flags (per_lens : option (gmap string Verdict)) (e : LedgerEntry) : LedgerEntry :=
  match per_lens with
  | None => e
  | Some m =>
      let flags '(p, r) := {|
        campaign := campaign e; intent_id := intent_id e; charter := charter e; entry_seq := entry_seq e; entry_at := entry_at e;
        deep_link_target := deep_link_target e; proven := p; rejected := r; verdict := verdict e |} in
      if any_verdict rejects m then flags (false, true)
      else if any_verdict (λ v, negb (rejects v)) m then flags (true, false)
      else e
  end.

Definition from_records (records : list EventRecord) : list LedgerEntry :=
  let '(entries, index) := landing_pass records in
  let '(lens_state, entries) := verdict_pass index records (∅, entries) in
  imap (λ idx e, set_flags (lens_state !! idx) e) entries.

Definition by_campaign (key : string) (l : list LedgerEntry) : list LedgerEntry :=
  List.filter (λ e, bool_decide (campaign e = key)) l.
Definition asked (key : string) (l : list LedgerEntry) : nat := length (by_campaign key l).
Definition done_count (key : string) (l : list LedgerEntry) : nat := asked key l.
Definition proven_count (key : string) (l : list LedgerEntry) : nat := length (List.filter proven (by_campaign key l)).
Definition rejected_count (key : string) (l : list LedgerEntry) : nat := length (List.filter rejected (by_campaign key l)).

(** * The live display *)

Inductive EventClass := Landing | VerdictClass | PolicyChange | WsState | GitActivity | Other.
Definition classify_event (kind : string) : EventClass :=
  if decide (kind = "intent.landed") then Landing
  else if decide (kind = "verdict.recorded") then VerdictClass
  else if decide (kind = "policy.changed") then PolicyChange
  else if starts_with kind "ws.state" then WsState
  else if decide (kind = "ref.update" ∨ kind = "ref.delete") then GitActivity
  else Other.
Definition class_label (c : EventClass) : string :=
  match c with
  | Landing => "landing" | VerdictClass => "verdict" | PolicyChange => "policy-change"
  | WsState => "ws-state" | GitActivity => "git-activity" | Other => "other"
  end.
Definition render_record (r : EventRecord) : string :=
  "[seq=" +:+ decimal (seq r) +:+ " kind=" +:+ redact_apply (kind r) +:+ " at=" +:+ decimal (recorded_at r) +:+ "] "
  +:+ redact_apply (payload r).
End Ledger.

(** * Standing rejections *)

(** The outcomes a record gives, lens by lens; a record without claims of that
    form speaks for the panel. *)
Definition outcomes (vo : VerdictObject) : list (string * Verdict) :=
  match omap (λ claim, split_once ":"%char claim) (v_claims vo) with
  | [] => [("panel", v_verdict vo)]
  | claims => (λ c, (c.1, claim_outcome c.2)) <$> claims
  end.
(** A record claims a result for a lens: the text before the first colon of a claim
    is the lens, the rest the result. *)
Definition claims (vo : VerdictObject) (lens result : string) : Prop :=
  lens +:+ String ":" result ∈ v_claims vo ∧ has_char ":" lens = false.
(** A record speaks for a lens, and rejects for it: every result but [approve]
    rejects, and a record without such claims speaks for the panel. *)
Definition mentions (vo : VerdictObject) (lens : string) : Prop :=
  (∃ result, claims vo lens result) ∨ (¬ ∃ l r, claims vo l r) ∧ lens = "panel".
Definition blocks (vo : VerdictObject) (lens : string) : Prop :=
  (∃ result, claims vo lens result ∧ result ≠ "approve") ∨
  (¬ ∃ l r, claims vo l r) ∧ lens = "panel" ∧ v_verdict vo ≠ Approve.

(** A lens rejected, and no later record speaks for it again. *)
Definition standing_reject (vos : list VerdictObject) (lens : string) : Prop := ∃ pre vo post,
  vos = pre ++ vo :: post ∧ blocks vo lens ∧ Forall (λ vo', ¬ mentions vo' lens) post.

Definition resolve (slot : gmap string Verdict) (cs : list (string * Verdict)) : gmap string Verdict :=
  foldl (λ slot c, merge_lens_outcome slot c.1 c.2) slot cs.

Lemma this_record_resolve vo : this_record vo = resolve ∅ (outcomes vo).
Proof.
  unfold this_record, outcomes, resolve. destruct (omap _ (v_claims vo)) as [|c cs]; [done|].
  generalize (c :: cs). intros l. rewrite foldl_fmap. generalize (∅ : gmap string Verdict).
  induction l as [|[lens res] l IH]; intros m; [done|]. apply IH.
Qed.

Lemma claims_parsed vo lens result :
  (lens, result) ∈ omap (λ claim, split_once ":"%char claim) (v_claims vo) ↔ claims vo lens result.
Proof.
  unfold claims. rewrite list_elem_of_omap. split.
  - intros (claim & Hin & [-> Hc]%split_once_Some). done.
  - intros [Hin Hc]. eexists. split; [exact Hin|]. by apply split_once_Some.
Qed.
Lemma claim_outcome_rejects result : rejects (claim_outcome result) = true ↔ result ≠ "approve".
Proof. unfold claim_outcome. repeat case_decide; subst; split; done. Qed.
Lemma no_claims vo : omap (λ claim, split_once ":"%char claim) (v_claims vo) = [] ↔ ¬ ∃ l r, claims vo l r.
Proof.
  setoid_rewrite <- claims_parsed. destruct (omap _ (v_claims vo)) as [|[l r] cs]; split; try done.
  - intros _ (l & r & []%not_elem_of_nil).
  - intros Hn. destruct Hn. exists l, r. by left.
Qed.
Lemma mentions_outcomes vo lens : mentions vo lens ↔ ∃ o, (lens, o) ∈ outcomes vo.
Proof.
  unfold mentions, outcomes. rewrite <- no_claims. setoid_rewrite <- claims_parsed.
  destruct (omap _ (v_claims vo)) as [|c cs].
  - split; [|intros [o [[= -> ->]|[]%elem_of_nil]%elem_of_cons]; by right].
    intros [[r []%elem_of_nil]|[_ ->]]. exists (v_verdict vo). by left.
  - setoid_rewrite list_elem_of_fmap. split.
    + intros [[r Hr]|[? _]]; [|done]. exists (claim_outcome r), (lens, r). done.
    + intros (o & [l r] & [= -> ->] & Hin). left. by exists r.
Qed.
Lemma blocks_outcomes vo lens : blocks vo lens ↔ ∃ o, (lens, o) ∈ outcomes vo ∧ rejects o = true.
Proof.
  unfold blocks, outcomes. rewrite <- no_claims. setoid_rewrite <- claims_parsed. setoid_rewrite <- claim_outcome_rejects.
  destruct (omap _ (v_claims vo)) as [|c cs].
  - split.
    + intros [(r & []%elem_of_nil & _)|(_ & -> & Hv)]. exists (v_verdict vo). split; [by left|]. by destruct (v_verdict vo).
    + intros (o & [[= -> ->]|[]%elem_of_nil]%elem_of_cons & Hr). right. split_and!; [done..|]. intros Hv. by rewrite Hv in Hr.
  - setoid_rewrite list_elem_of_fmap. split.
    + intros [(r & Hr & Hj)|[? _]]; [|done]. exists (claim_outcome r). split; [by exists (lens, r)|done].
    + intros (o & ([l r] & [= -> ->] & Hin) & Hj). left. by exists r.
Qed.

(** The lenses with an outcome, and those that reject. *)
Definition spoken (m : gmap string Verdict) (L : string) : bool := bool_decide (is_Some (m !! L)).
Definition rejecting (m : gmap string Verdict) (L : string) : bool :=
  match m !! L with Some v => rejects v | None => false end.

Lemma merge_spoken m l o L : spoken (merge_lens_outcome m l o) L = spoken m L || bool_decide (l = L).
Proof.
  unfold spoken, merge_lens_outcome. apply eq_iff_eq_true. rewrite orb_true_iff, !bool_decide_eq_true.
  destruct (decide (l = L)) as [->|Hl].
  - split; [by right|]. intros _. repeat case_match; rewrite ?lookup_insert_eq; eauto.
  - repeat case_match; rewrite ?lookup_insert_ne by done; naive_solver.
Qed.
Lemma merge_rejecting m l o L :
  rejecting (merge_lens_outcome m l o) L = rejecting m L || (bool_decide (l = L) && rejects o).
Proof.
  unfold rejecting, merge_lens_outcome. destruct (decide (l = L)) as [->|Hl].
  - rewrite (bool_decide_true (L = L)) by done. destruct (m !! L) as [v|] eqn:Hm; [|by rewrite lookup_insert_eq].
    destruct v, o; simpl; rewrite ?lookup_insert_eq, ?Hm; done.
  - rewrite (bool_decide_false (l = L)) by done. rewrite orb_false_r. repeat case_match; rewrite ?lookup_insert_ne in * by done; by simplify_eq.
Qed.

Lemma resolve_spoken cs m L : spoken (resolve m cs) L = spoken m L || existsb (λ c, bool_decide (c.1 = L)) cs.
Proof.
  revert m. induction cs as [|c cs IH]; intros m; [by rewrite orb_false_r|].
  change (resolve m (c :: cs)) with (resolve (merge_lens_outcome m c.1 c.2) cs). rewrite IH, merge_spoken. simpl. by rewrite orb_assoc.
Qed.
Lemma resolve_rejecting cs m L :
  rejecting (resolve m cs) L = rejecting m L || existsb (λ c, bool_decide (c.1 = L) && rejects c.2) cs.
Proof.
  revert m. induction cs as [|c cs IH]; intros m; [by rewrite orb_false_r|].
  change (resolve m (c :: cs)) with (resolve (merge_lens_outcome m c.1 c.2) cs). rewrite IH, merge_rejecting. simpl. by rewrite orb_assoc.
Qed.

Lemma this_record_spoken vo L : spoken (this_record vo) L = true ↔ mentions vo L.
Proof.
  rewrite this_record_resolve, resolve_spoken. unfold spoken at 1. rewrite lookup_empty, bool_decide_false by by intros [].
  simpl. rewrite existsb_exists, mentions_outcomes. split.
  - intros ([l o] & Hin%list_elem_of_In & Hl%bool_decide_eq_true). simpl in Hl. subst. eauto.
  - intros [o Ho]. exists (L, o). rewrite <- list_elem_of_In. split; [done|]. by apply bool_decide_eq_true.
Qed.
Lemma this_record_rejecting vo L : rejecting (this_record vo) L = true ↔ blocks vo L.
Proof.
  rewrite this_record_resolve, resolve_rejecting. unfold rejecting at 1. rewrite lookup_empty. simpl. rewrite existsb_exists, blocks_outcomes. split.
  - intros ([l o] & Hin%list_elem_of_In & [Hl%bool_decide_eq_true Ho]%andb_true_iff). simpl in Hl. subst. eauto.
  - intros (o & Ho & Hr). exists (L, o). rewrite <- list_elem_of_In. split; [done|].
    rewrite andb_true_iff. split; [by apply bool_decide_eq_true|done].
Qed.

(** The state of the lenses after a sequence of records. *)
Definition state (vos : list VerdictObject) : gmap string Verdict := foldl (λ m vo, this_record vo ∪ m) ∅ vos.

Lemma union_spoken (m m' : gmap string Verdict) L : spoken (m ∪ m') L = spoken m L || spoken m' L.
Proof.
  unfold spoken. apply eq_iff_eq_true. rewrite orb_true_iff, !bool_decide_eq_true. rewrite lookup_union.
  destruct (m !! L), (m' !! L); naive_solver.
Qed.
Lemma union_rejecting (m m' : gmap string Verdict) L :
  rejecting (m ∪ m') L = if spoken m L then rejecting m L else rejecting m' L.
Proof.
  unfold spoken, rejecting. rewrite lookup_union. destruct (m !! L) as [v|].
  - rewrite bool_decide_true by eauto. by destruct (m' !! L).
  - rewrite bool_decide_false by by intros []. by destruct (m' !! L).
Qed.

Lemma standing_snoc vos vo L :
  standing_reject (vos ++ [vo]) L ↔ blocks vo L ∨ ¬ mentions vo L ∧ standing_reject vos L.
Proof.
  unfold standing_reject. split.
  - intros (pre & vo' & post & Heq & Hb & Hp). destruct post as [|x post _] using rev_ind.
    + apply app_inj_tail in Heq as [-> ->]. by left.
    + rewrite app_comm_cons, (assoc_L (++)) in Heq. apply app_inj_tail in Heq as [-> ->].
      apply Forall_app in Hp as [Hp [Hx _]%Forall_cons]. right. split; [done|]. by exists pre, vo', post.
  - intros [Hb|(Hm & pre & vo' & post & -> & Hb & Hp)].
    + exists vos, vo, []. by split_and!.
    + exists pre, vo', (post ++ [vo]). rewrite <- (assoc_L (++)). split_and!; [done..|]. apply Forall_app. split; [done|by apply Forall_singleton].
Qed.

Lemma state_rejecting vos L : rejecting (state vos) L = true ↔ standing_reject vos L.
Proof.
  induction vos as [|vo vos IH] using rev_ind.
  { split; [done|]. by intros ([|] & ? & ? & ? & _). }
  unfold state. rewrite foldl_snoc. fold (state vos). rewrite union_rejecting, standing_snoc, <- IH.
  rewrite <- this_record_rejecting, <- this_record_spoken. destruct (spoken (this_record vo) L) eqn:Hs; [naive_solver|].
  assert (rejecting (this_record vo) L = false) as ->; [|naive_solver].
  unfold spoken in Hs. apply bool_decide_eq_false in Hs. unfold rejecting. by destruct (this_record vo !! L); [destruct Hs|].
Qed.

Lemma outcomes_nonempty vo : ∃ L, mentions vo L.
Proof.
  setoid_rewrite mentions_outcomes. unfold outcomes. destruct (omap _ (v_claims vo)) as [|[l r] cs]; [exists "panel", (v_verdict vo); left|].
  exists l, (claim_outcome r). left.
Qed.
Lemma state_nonempty vos : vos ≠ [] → ∃ L v, state vos !! L = Some v.
Proof.
  destruct vos as [|vo vos _] using rev_ind; [done|]. intros _. destruct (outcomes_nonempty vo) as [L HL].
  assert (spoken (state (vos ++ [vo])) L = true) as Hs.
  { unfold state. rewrite foldl_snoc, union_spoken. apply orb_true_iff. left. by apply this_record_spoken. }
  unfold spoken in Hs. apply bool_decide_eq_true in Hs as [v Hv]. eauto.
Qed.

Lemma any_verdict_true p m : any_verdict p m = true ↔ ∃ L v, m !! L = Some v ∧ p v = true.
Proof.
  unfold any_verdict. rewrite existsb_exists. split.
  - intros ([L v] & Hin%list_elem_of_In%elem_of_map_to_list & Hp). eauto.
  - intros (L & v & Hv & Hp). exists (L, v). rewrite <- list_elem_of_In, elem_of_map_to_list. done.
Qed.

(** The flags an entry gets from its verdicts. *)
Lemma state_flags vos e : vos ≠ [] → proven e = false → rejected e = false →
  let e' := set_flags (Some (state vos)) e in
  (rejected e' = true ↔ ∃ L, standing_reject vos L) ∧ (proven e' = true ↔ ¬ ∃ L, standing_reject vos L) ∧
  verdict e' = verdict e.
Proof.
  intros Hne Hp Hr.
  assert ((∃ L, standing_reject vos L) ↔ ∃ L, rejecting (state vos) L = true) as Hst by (by setoid_rewrite state_rejecting).
  cbv zeta. rewrite Hst. clear Hst. unfold set_flags.
  destruct (any_verdict rejects (state vos)) eqn:Ha; simpl.
  - apply any_verdict_true in Ha as (L & v & Hv & Hrej). assert (rejecting (state vos) L = true) by (unfold rejecting; by rewrite Hv).
    split_and!; naive_solver.
  - assert (¬ ∃ L, rejecting (state vos) L = true) as Hn.
    { intros [L HL]. apply not_true_iff_false in Ha. destruct Ha. apply any_verdict_true. unfold rejecting in HL.
      destruct (state vos !! L) as [v|] eqn:Hv; [eauto|done]. }
    rewrite (proj2 (any_verdict_true _ _)); [simpl; naive_solver|].
    destruct (state_nonempty vos Hne) as (L & v & Hv). exists L, v. split; [done|]. apply negb_true_iff, not_true_iff_false.
    intros Hrej. apply Hn. exists L. unfold rejecting. by rewrite Hv.
Qed.

(** * The projection *)

Section Projection.
Context `{Libm} `{SerdeJson} `{VerdictJson}.
Implicit Types records : list EventRecord.

(** The landings of a log with the raw id of each. *)
Definition landing_of (r : EventRecord) : option (string * LedgerEntry) :=
  if decide (kind r = "intent.landed") then landed_entry r <$> from_str (payload r) else None.
Definition landings records : list (string * LedgerEntry) := omap landing_of records.

(** The verdicts recorded for the ids that [p] accepts. *)
Definition verdict_of (r : EventRecord) : option VerdictObject :=
  if decide (kind r = "verdict.recorded") then verdict_from_str (payload r) else None.
Definition verdicts_for (id : string) records : list VerdictObject :=
  List.filter (λ vo, bool_decide (v_intent vo = id)) (omap verdict_of records).

Lemma landing_pass_entries records : (landing_pass records).1 = (landings records).*2.
Proof.
  unfold landing_pass, landings. induction records as [|r records IH] using rev_ind; [done|].
  rewrite foldl_snoc, omap_app, fmap_app, <- IH. destruct (foldl _ _ records) as [entries index]. simpl. unfold landing_of.
  case_decide; [|by rewrite app_nil_r]. destruct (from_str (payload r)) as [v|]; simpl; [|by rewrite app_nil_r].
  by destruct (landed_entry r v).
Qed.

Definition latest (ids : list string) (i : nat) (id : string) : Prop :=
  ids !! i = Some id ∧ ∀ j, (i < j)%nat → ids !! j ≠ Some id.

Lemma latest_snoc ids x i id : latest (ids ++ [x]) i id ↔
  if decide (x = id) then i = length ids else latest ids i id.
Proof.
  unfold latest. case_decide as Hx; subst.
  - split.
    + intros [Hi Hl]. destruct (decide (i = length ids)) as [|Hne]; [done|].
      assert (i < length ids)%nat by (apply lookup_lt_Some in Hi; rewrite length_app in Hi; simpl in Hi; lia).
      destruct (Hl (length ids)); [done|]. by rewrite lookup_app_r, Nat.sub_diag.
    + intros ->. rewrite lookup_app_r, Nat.sub_diag by lia. split; [done|]. intros j Hj.
      rewrite lookup_ge_None_2; [done|]. rewrite length_app. simpl. lia.
  - split.
    + intros [Hi Hl]. apply lookup_app_Some in Hi as [Hi|[? Hi]].
      * split; [done|]. intros j Hj Hid. apply (Hl j Hj). by apply lookup_app_l_Some.
      * destruct (i - length ids)%nat; simpl in Hi; [by simplify_eq|done].
    + intros [Hi Hl]. split; [by apply lookup_app_l_Some|]. intros j Hj Hid. apply lookup_app_Some in Hid as [Hid|[? Hid]].
      * by apply (Hl j Hj).
      * destruct (j - length ids)%nat; simpl in Hid; [by simplify_eq|done].
Qed.

Lemma landing_pass_index records id i : (landing_pass records).2 !! id = Some i ↔ latest (landings records).*1 i id.
Proof.
  revert i. induction records as [|r records IH] using rev_ind; intros i.
  { split; [done|]. by intros [? _]. }
  pose proof (landing_pass_entries records) as He. unfold landing_pass, landings in *. rewrite foldl_snoc, omap_app, fmap_app.
  destruct (foldl _ _ records) as [entries index]. simpl in *. unfold landing_of.
  case_decide; [|rewrite app_nil_r; apply IH]. destruct (from_str (payload r)) as [v|]; simpl; [|rewrite app_nil_r; apply IH].
  destruct (landed_entry r v) as [x e]. simpl. rewrite latest_snoc. case_decide as Hx.
  - rewrite Hx, lookup_insert_eq, He, !length_fmap. naive_solver.
  - rewrite lookup_insert_ne by done. apply IH.
Qed.

(** What the second pass leaves at an index: the verdicts sent there, in order. *)
Lemma verdict_pass_at index records idx (e0 : list LedgerEntry) :
  let vos := List.filter (λ vo, bool_decide (index !! v_intent vo = Some idx)) (omap verdict_of records) in
  let '(st, es) := verdict_pass index records (∅, e0) in
  st !! idx = (if decide (vos = []) then None else Some (state vos)) ∧
  es !! idx = (λ e, match last vos with Some vo => set_verdict (from_verdict_object vo) e | None => e end) <$> e0 !! idx.
Proof.
  unfold verdict_pass. induction records as [|r records IH] using rev_ind.
  { simpl. split; [done|]. by rewrite option_fmap_id. }
  cbv zeta in *. rewrite foldl_snoc, omap_app, List.filter_app.
  change (omap verdict_of [r]) with (match verdict_of r with Some vo => [vo] | None => [] end).
  destruct (foldl _ _ records) as [st es]. destruct (verdict_of r) as [vo|] eqn:Hr; unfold verdict_of in Hr.
  2: { rewrite app_nil_r. case_decide; [|done]. by rewrite Hr. }
  case_decide; [|done]. rewrite Hr. cbn [List.filter].
  set (vos := List.filter _ _) in *. destruct IH as [IHs IHe].
  destruct (index !! v_intent vo) as [j|] eqn:Hj; [|rewrite bool_decide_false by done; by rewrite app_nil_r].
  destruct (decide (j = idx)) as [->|Hne].
  - rewrite bool_decide_true by done. rewrite decide_False by by destruct vos. rewrite last_snoc, lookup_insert_eq. split.
    + f_equal. unfold state. rewrite foldl_snoc. f_equal. rewrite IHs. by case_decide as Hv; [rewrite Hv|].
    + rewrite list_lookup_alter, decide_True by done. rewrite IHe. destruct (e0 !! idx) as [e|]; [|done].
      simpl. f_equal. by destruct (last vos).
  - rewrite bool_decide_false by congruence. rewrite app_nil_r, lookup_insert_ne by done.
    split; [done|]. by rewrite list_lookup_alter_ne.
Qed.

Lemma landings_fresh records i id e : landings records !! i = Some (id, e) →
  proven e = false ∧ rejected e = false ∧ verdict e = None.
Proof.
  intros Hi. apply list_elem_of_lookup_2 in Hi. unfold landings in Hi. apply list_elem_of_omap in Hi as (r & _ & Hr).
  unfold landing_of in Hr. case_decide; [|done]. destruct (from_str (payload r)); [|done]. by injection Hr as _ <-.
Qed.

(** The verdicts sent to an index are those of its id, or none. *)
Lemma verdicts_at records i id e0 : landings records !! i = Some (id, e0) →
  let at_ := List.filter (λ vo, bool_decide ((landing_pass records).2 !! v_intent vo = Some i)) (omap verdict_of records) in
  (latest (landings records).*1 i id → at_ = verdicts_for id records) ∧ (¬ latest (landings records).*1 i id → at_ = []).
Proof.
  intros Hi. assert ((landings records).*1 !! i = Some id) as Hid by (by rewrite list_lookup_fmap, Hi). cbv zeta. split.
  - intros Hl. unfold verdicts_for. apply filter_ext. intros vo. apply bool_decide_ext. rewrite landing_pass_index.
    split; [intros [Hv _]; congruence|by intros ->].
  - intros Hl. induction (omap verdict_of records) as [|vo vos IH]; [done|]. simpl. rewrite bool_decide_false; [done|].
    rewrite landing_pass_index. intros Hl'. assert (v_intent vo = id) as Hv by (destruct Hl'; congruence). by rewrite Hv in Hl'.
Qed.

(** The flags and the verdict of the entry at a landing. *)
Lemma entry_resolved records i e : from_records records !! i = Some e →
  ∃ id e0, landings records !! i = Some (id, e0) ∧
  let vos := verdicts_for id records in
  (latest (landings records).*1 i id →
     (rejected e = true ↔ ∃ lens, standing_reject vos lens) ∧
     (proven e = true ↔ vos ≠ [] ∧ ¬ ∃ lens, standing_reject vos lens) ∧
     verdict e = from_verdict_object <$> last vos) ∧
  (¬ latest (landings records).*1 i id → rejected e = false ∧ proven e = false ∧ verdict e = None).
Proof.
  unfold from_records. pose proof (landing_pass_entries records) as He.
  pose proof (verdict_pass_at (landing_pass records).2 records i (landing_pass records).1) as Hv. cbv zeta in Hv.
  destruct (landing_pass records) as [entries index] eqn:Hp. cbn [fst snd] in *.
  destruct (verdict_pass index records (∅, entries)) as [st es]. destruct Hv as [Hst Hes].
  rewrite list_lookup_imap, Hes, He, list_lookup_fmap.
  destruct (landings records !! i) as [[id e0]|] eqn:Hi; [|done]. cbn [fmap option_fmap option_map snd]. intros [= <-].
  exists id, e0. split; [done|]. cbv zeta. destruct (landings_fresh _ _ _ _ Hi) as (Hpr & Hrj & Hvd).
  pose proof (verdicts_at records i id e0 Hi) as [Hlat Hold]. rewrite Hp in Hlat, Hold. cbn [snd] in Hlat, Hold. split.
  - intros Hl. rewrite (Hlat Hl) in Hst |- *. set (vos := verdicts_for id records) in *. rewrite Hst.
    case_decide as Hn.
    + rewrite Hn. simpl. rewrite Hpr, Hrj, Hvd. split_and!; try done; try naive_solver.
      split; [done|]. by intros (? & [|] & ? & ? & ? & _).
    + set (e1 := match last vos with Some vo => _ | None => e0 end).
      assert (proven e1 = false ∧ rejected e1 = false ∧ verdict e1 = from_verdict_object <$> last vos) as (Hp1 & Hr1 & Hv1).
      { unfold e1. destruct vos as [|vo vos _] using rev_ind; [done|]. by rewrite last_snoc. }
      destruct (state_flags vos e1 Hn Hp1 Hr1) as (Ha & Hb & Hc). rewrite Hc, Hv1. naive_solver.
  - intros Hl. rewrite (Hold Hl) in Hst |- *. rewrite Hst. simpl. done.
Qed.

(** The landings of a log, read without the code: a record of that kind whose
    payload is a document, in order. *)
Definition landed_docs records : list (EventRecord * Value) :=
  omap (λ r, if decide (kind r = "intent.landed") then pair r <$> from_str (payload r) else None) records.
(** A text of a document, or what stands for it where it has none. *)
Definition text_of (v : Value) (key absent : string) : string := default absent (field_str v key).
Definition landed_id (v : Value) : string := text_of v "intent_id" EmptyString.

(** A text as the ledger shows it: replaced if it carries a credential. *)
Definition shown_as (raw t : string) : Prop := (¬ credential raw ∧ t = raw) ∨ (credential raw ∧ t = REDACTED).
(** What an entry says of its landing. *)
Definition entry_tells (r : EventRecord) (v : Value) (e : LedgerEntry) : Prop :=
  shown_as (landed_id v) (intent_id e) ∧ shown_as (text_of v "campaign" "default") (campaign e) ∧
  shown_as (text_of v "charter" EmptyString) (charter e) ∧
  shown_as (text_of v "deep_link_target" (landed_id v)) (deep_link_target e) ∧
  entry_seq e = seq r ∧ entry_at e = recorded_at r.
(** What the view of a verdict says of it. *)
Definition view_tells (vo : VerdictObject) (w : VerdictView) : Prop :=
  shown_as (v_intent vo) (view_intent w) ∧ shown_as (v_lens vo) (view_lens w) ∧ outcome w = verdict_debug (v_verdict vo) ∧
  Forall2 shown_as (v_claims vo) (claims_checked w).

Lemma redact_shown_as s : shown_as s (redact_apply s).
Proof.
  unfold shown_as, redact_apply. destruct (is_secret s) eqn:E; [right; by apply credential_iff in E|left; by apply not_credential_iff in E].
Qed.
Lemma verdict_view_tells vo : view_tells vo (from_verdict_object vo).
Proof.
  split_and!; try apply redact_shown_as; [done|]. cbn. apply Forall2_fmap_r, Forall_Forall2_diag, Forall_true, redact_shown_as.
Qed.

Lemma landings_docs records : landings records = (λ rv, landed_entry rv.1 rv.2) <$> landed_docs records.
Proof.
  unfold landings, landed_docs. induction records as [|r records IH]; [done|]. cbn [omap list_omap]. unfold landing_of at 1.
  case_decide; [|done]. destruct (from_str (payload r)); [|done]. cbn [fmap option_fmap option_map list_fmap]. f_equal. apply IH.
Qed.
Lemma set_flags_entry m e : let e' := set_flags m e in
  campaign e' = campaign e ∧ intent_id e' = intent_id e ∧ charter e' = charter e ∧
  deep_link_target e' = deep_link_target e ∧ verdict e' = verdict e ∧ entry_seq e' = entry_seq e ∧ entry_at e' = entry_at e.
Proof. unfold set_flags. by repeat case_match. Qed.

(** Every landing has its entry and every entry its landing, at the same place. *)
Lemma from_records_entries records :
  length (from_records records) = length (landed_docs records) ∧
  ∀ i r v, landed_docs records !! i = Some (r, v) → ∃ e, from_records records !! i = Some e ∧ entry_tells r v e.
Proof.
  unfold from_records. pose proof (landing_pass_entries records) as He.
  pose proof (verdict_pass_at (landing_pass records).2 records) as Hv. cbv zeta in Hv.
  destruct (landing_pass records) as [entries index]. cbn [fst snd] in *. specialize (λ i, Hv i entries).
  destruct (verdict_pass index records (∅, entries)) as [st es].
  rewrite landings_docs in He. rewrite <- list_fmap_compose in He.
  assert (∀ i, es !! i = (λ e, match last (List.filter (λ vo, bool_decide (index !! v_intent vo = Some i)) (omap verdict_of records)) with
    Some vo => set_verdict (from_verdict_object vo) e | None => e end) <$> entries !! i) as Hes by (intros i; apply Hv).
  split.
  - rewrite length_imap. apply (f_equal length) in He. rewrite length_fmap in He. rewrite <- He.
    apply Nat.le_antisymm; apply Nat.le_ngt; intros Hlt.
    + apply lookup_lt_is_Some_2 in Hlt as [e Hl]. rewrite Hes, lookup_ge_None_2 in Hl; done.
    + apply lookup_lt_is_Some_2 in Hlt as [e Hl]. specialize (Hes (length es)). rewrite Hl, lookup_ge_None_2 in Hes; done.
  - intros i r v Hl. rewrite list_lookup_imap, Hes, He, list_lookup_fmap, Hl. cbn [fmap option_fmap option_map compose snd fst].
    eexists. split; [done|]. unfold entry_tells.
    match goal with |- context [set_flags ?m ?e1] => destruct (set_flags_entry m e1) as (-> & -> & -> & -> & _ & -> & ->); set (x := e1) end.
    assert (x = (landed_entry r v).2 ∨ ∃ w, x = set_verdict w (landed_entry r v).2) as [->|[w ->]]
      by (subst x; destruct (last _); [right; by eexists|by left]);
      cbn; split_and!; try apply redact_shown_as; done.
Qed.

(** C32. The ledger has one entry for each landing of the log, in order: the entry at a
    landing says its intent, campaign, charter and link, replaced where they carry a
    credential, and the position and time of the record.  If no later landing is of
    the same intent, the entry is rejected exactly if some lens has a standing
    rejection, proven exactly if there is a verdict and no standing rejection, and
    shows the last verdict; the entry of an intent that landed again has no
    verdict. *)
Theorem ledger_resolved records :
  length (from_records records) = length (landed_docs records) ∧
  ∀ i r v, landed_docs records !! i = Some (r, v) →
  ∃ e, from_records records !! i = Some e ∧ entry_tells r v e ∧
  let vos := verdicts_for (landed_id v) records in
  let landed_again := ∃ j r' v', (i < j)%nat ∧ landed_docs records !! j = Some (r', v') ∧ landed_id v' = landed_id v in
  (¬ landed_again →
     (rejected e = true ↔ ∃ lens, standing_reject vos lens) ∧
     (proven e = true ↔ vos ≠ [] ∧ ¬ ∃ lens, standing_reject vos lens) ∧
     match last vos with Some vo => ∃ w, verdict e = Some w ∧ view_tells vo w | None => verdict e = None end) ∧
  (landed_again → rejected e = false ∧ proven e = false ∧ verdict e = None).
Proof.
  destruct (from_records_entries records) as [Hlen Hent]. split; [done|]. intros i r v Hl.
  destruct (Hent i r v Hl) as (e & He & Ht). exists e. split_and!; [done..|]. cbv zeta.
  destruct (entry_resolved records i e He) as (id & e0 & Hi & Hlat & Hold).
  rewrite landings_docs, list_lookup_fmap, Hl in Hi. injection Hi as <- _. split.
  - assert (∀ j, (landings records).*1 !! j = (λ rv, landed_id rv.2) <$> landed_docs records !! j) as Hids.
    { intros j. by rewrite landings_docs, !list_lookup_fmap, <- option_fmap_compose. }
    intros Hn. destruct Hlat as (Hr & Hp & Hv).
    { split; [by rewrite Hids, Hl|]. intros j Hj. rewrite Hids. destruct (landed_docs records !! j) as [[r' v']|] eqn:Ej; [|done].
      intros [= Heq]. apply Hn. by exists j, r', v'. }
    split_and!; [done..|]. rewrite Hv. change (default EmptyString (field_str v "intent_id")) with (landed_id v).
    destruct (last _) as [vo|]; [|done]. eexists. split; [done|]. apply verdict_view_tells.
  - intros (j & r' & v' & Hj & Ej & Heq). apply Hold. intros [_ Hn]. apply (Hn j Hj).
    rewrite landings_docs, list_lookup_fmap, list_lookup_fmap, Ej. cbn. f_equal. exact Heq.
Qed.

Lemma set_flags_texts m e : let e' := set_flags m e in
  campaign e' = campaign e ∧ intent_id e' = intent_id e ∧ charter e' = charter e ∧
  deep_link_target e' = deep_link_target e ∧ verdict e' = verdict e.
Proof. unfold set_flags. by repeat case_match. Qed.

(** The texts an entry shows. *)
Definition shown (e : LedgerEntry) : list string :=
  [campaign e; intent_id e; charter e; deep_link_target e] ++
  match verdict e with Some v => view_intent v :: view_lens v :: claims_checked v | None => [] end.

(** Nothing the ledger shows is a secret to the redaction engine, whatever was
    recorded. *)
Theorem ledger_redacted records e : e ∈ from_records records → Forall (λ s, is_secret s = false) (shown e).
Proof.
  intros [i Hi]%list_elem_of_lookup_1. revert Hi. unfold from_records. pose proof (landing_pass_entries records) as He.
  pose proof (verdict_pass_at (landing_pass records).2 records i (landing_pass records).1) as Hv. cbv zeta in Hv.
  destruct (landing_pass records) as [entries index]. cbn [fst snd] in *.
  destruct (verdict_pass index records (∅, entries)) as [st es]. destruct Hv as [_ Hes].
  rewrite list_lookup_imap, Hes, He, list_lookup_fmap.
  destruct (landings records !! i) as [[id e0]|] eqn:Hi; [|done]. cbn [fmap option_fmap option_map snd]. intros [= <-].
  set (vos := List.filter _ _). set (e1 := match last vos with Some vo => _ | None => e0 end).
  unfold shown. destruct (set_flags_texts (st !! i) e1) as (-> & -> & -> & -> & ->).
  apply Forall_app. split.
  - assert (Forall (λ s, is_secret s = false) [campaign e0; intent_id e0; charter e0; deep_link_target e0]) as Htx.
    { apply list_elem_of_lookup_2 in Hi. unfold landings in Hi. apply list_elem_of_omap in Hi as (r & _ & Hr).
      unfold landing_of in Hr. case_decide; [|done]. destruct (from_str (payload r)); [|done]. injection Hr as _ <-.
      repeat constructor; apply redact_apply_clean. }
    unfold e1. by destruct (last vos).
  - destruct (landings_fresh _ _ _ _ Hi) as (_ & _ & Hvd). unfold e1. destruct (last vos) as [vo|]; simpl; [|by rewrite Hvd].
    repeat constructor; try apply redact_apply_clean. apply Forall_fmap, Forall_true. intros s. apply redact_apply_clean.
Qed.
End Projection.

Module LedgerExample.
Import Toy Log2.
#[local] Existing Instance Codec.codec.

Definition entry (k : string) (p : string) : EventRecord := {|
  seq := 0; prev_hash := ""; this_hash := ""; kind := k; principal_chain := []; payload := p; recorded_at := 0 |}.
Definition landed (id : string) : EventRecord :=
  entry "intent.landed" (to_string (json_object [("intent_id", Str id); ("campaign", Str "c")])).
(** A reader for which the payload of a verdict is its claims, one a line. *)
#[export] Instance claim_lines : VerdictJson := {| verdict_from_str s := Some {|
  v_intent := "i1"; v_tree := ""; v_lens := "panel"; v_model := ""; v_prompt := ""; v_verdict := Approve;
  v_claims := lines s; v_evidence := [] |} |}.
Definition nl : string := String newline EmptyString.
Definition judged (claims : string) : EventRecord := entry "verdict.recorded" claims.

(** A rejection by one lens stands through another lens's approval and is cleared
    by its own; within one record it is not cleared. *)
Example laundering_refused :
  rejected <$> from_records [landed "i1"; judged "sec:reject"; judged "perf:approve"] = [true] ∧
  proven <$> from_records [landed "i1"; judged "sec:reject"; judged "sec:approve"] = [true] ∧
  rejected <$> from_records [landed "i1"; judged ("sec:reject" +:+ nl +:+ "sec:approve")] = [true].
Proof. split_and!; vm_compute; reflexivity. Qed.

(** The second intent lands with a token for a charter: it has its entry, with the
    charter replaced and the rejection of its lens. *)
Definition tokened : Value := json_object [("intent_id", Str "i1"); ("charter", Str "ghp_0123")].
Definition two_landed : list EventRecord :=
  [landed "i0"; entry "intent.landed" (to_string tokened); judged "sec:reject"].
Lemma ledger_resolved_witness : ∃ e, from_records two_landed !! 1%nat = Some e ∧ intent_id e = "i1" ∧ charter e = REDACTED ∧
  (rejected e = true ↔ ∃ lens, standing_reject (verdicts_for (landed_id tokened) two_landed) lens).
Proof.
  destruct (ledger_resolved two_landed) as [_ Hr].
  destruct (Hr 1%nat (entry "intent.landed" (to_string tokened)) tokened) as (e & He & (Hid & _ & Hch & _) & Hl & _).
  { vm_compute. reflexivity. }
  exists e. split; [exact He|]. split; [|split].
  - destruct Hid as [[_ Hi]|[Hc _]]; [exact Hi|]. exfalso. apply credential_iff in Hc. vm_compute in Hc. done.
  - destruct Hch as [[Hc _]|[_ Hi]]; [|exact Hi]. exfalso. apply Hc, credential_iff. vm_compute. reflexivity.
  - refine (proj1 (Hl _)). intros ([|[|j]] & r & v & Hj & Hd & _); [lia|lia|]. vm_compute in Hd. done.
Defined.

Lemma ledger_redacted_witness : ∃ e, e ∈ from_records [landed "ghp_0123"] ∧ Forall (λ s, is_secret s = false) (shown e).
Proof.
  destruct (from_records [landed "ghp_0123"]) as [|e l] eqn:He; [by vm_compute in He|].
  exists e. split; [left|]. apply (ledger_redacted [landed "ghp_0123"]). rewrite He. left.
Defined.

(** The merge table keeps the first of two rejecting outcomes; the code keeps the
    last. *)
Example last_rejection_kept : this_record {|
  v_intent := ""; v_tree := ""; v_lens := ""; v_model := ""; v_prompt := ""; v_verdict := Reject;
  v_claims := ["sec:reject"; "sec:fix_first"]; v_evidence := [] |} !! "sec" = Some FixFirst.
Proof. vm_compute. reflexivity. Qed.

(** A change of policy is recorded as [policy.change] and displayed as something
    else. *)
Example policy_change_is_other : classify_event "policy.change" = Other.
Proof. reflexivity. Qed.
End LedgerExample.
