(* ===== verification/Rollup.v ===== *)
(** The metric rollups: a pull request's record from its envelopes, and a
    campaign's from its pull requests ([crates/hugit-ledger/src/rollup.rs], with
    the derived shapes of [hugit-contracts/src/context_envelope.rs]).

    Money and tokens are [u64] sums that fail on overflow; counters saturate; the
    ratios are binary64 ([SpecFloat]).  The theorems: every captured attempt is
    counted once, as work or as waste; the total is the sum of its lines at both
    altitudes; the attempt that counts as work is the latest in a fixed order; an
    envelope of a subagent or of the wrong altitude is refused. *)

From S2P Require Import Prelude Float Secret Price Envelope Regen.

(** * Records *)

Inductive PrAuthorKind := AuthorOrchestrator | AuthorHuman.
Record PrAuthor := { pa_kind : PrAuthorKind; pa_model : option string; pa_run_id : option string; pa_principal : option string }.
Record WorkCost := { k_tokens : N; k_tool_calls : N; k_cost : N }.
Record VerificationCost := { f_tokens : N; verdict_panels : N; f_cost : N }.
Record CiCost := { cache_hit : N; ci_exec : N; ci_cost : N; ci_saved : N }.
Record TotalCost := { t_tokens : N; t_cost : N }.
Record CostDecomposition := {
  c_work : WorkCost; c_orchestration : OrchestrationCost; c_verification : VerificationCost; c_ci : CiCost;
  c_waste : WasteCost; c_total : TotalCost }.
Record PrTime := { pt_wall_span : N; pt_agent_sum : N; pt_queue_wait : N; human_touches : N; landed_at : N }.
Record Efficiency := {
  overhead_pct : spec_float; cache_savings_pct : spec_float; first_pass_yield : spec_float; cost_per_net_kloc : spec_float }.
Record PrRecord := {
  r_pr_id : string; r_author : PrAuthor; r_intent_ids : list string; r_intent_count : N; r_agent_count : N;
  r_models : list string; r_envelope_ref : string; r_cost : CostDecomposition; r_time : PrTime; r_efficiency : Efficiency }.
Record CampaignTime := { ct_wall_span : N; ct_agent_sum : N; ct_queue_wait : N }.
Record CampaignProgress := { p_landed : N; p_in_flight : N; p_blocked : N }.
Record CampaignRollup := {
  cr_campaign : string; cr_charter : string; cr_owner : string; cr_envelope_ref : string; cr_pr_ids : list string;
  cr_pr_count : N; cr_intent_count : N; cr_agent_count : N; cr_models : list string; cr_cost : CostDecomposition;
  cr_time : CampaignTime; cr_efficiency : Efficiency; cr_progress : CampaignProgress }.

Inductive RollupError :=
| WrongAltitude (expected found : Altitude) (intent_id : string)
| RollupSubagent (altitude : Altitude) (intent_id run_id agent_type : string)
| Overflow (field : string).

Record PrQueueInput := { queue_wait_ms : N; q_human_touches : N; q_landed_at : N }.
Inductive PrPhase := PhaseLanded | PhaseInFlight | PhaseBlocked.
Definition TOP_LEVEL_AGENT_TYPE : string := "main".

(** * Shared computation *)

Definition add (a b : N) (field : string) : result RollupError N :=
  if a + b <=? u64_max then Ok (a + b) else Err (Overflow field).

Definition decompose (work : WorkCost) (orch : OrchestrationCost) (verif : VerificationCost) (ci : CiCost) (waste : WasteCost)
    : result RollupError CostDecomposition :=
  t ← add (k_tokens work) (o_tokens orch) "total.tokens";
  tokens ← add t (f_tokens verif) "total.tokens";
  c ← add (k_cost work) (o_cost_usd_micros orch) "total.cost_usd_micros";
  c ← add c (f_cost verif) "total.cost_usd_micros";
  cost ← add c (ci_cost ci) "total.cost_usd_micros";
  Ok {| c_work := work; c_orchestration := orch; c_verification := verif; c_ci := ci; c_waste := waste;
        c_total := {| t_tokens := tokens; t_cost := cost |} |}.

Definition percent (num den : N) : spec_float := f64_mul (f64_div (f64_of_N num) (f64_of_N den)) (f64_of_N 100).

Definition efficiency_from (cost : CostDecomposition) (yield_ : spec_float) : Efficiency :=
  let orch := c_orchestration cost in
  let overhead :=
    if 0 <? t_cost (c_total cost) then percent (o_cost_usd_micros orch) (t_cost (c_total cost))
    else if 0 <? t_tokens (c_total cost) then percent (o_tokens orch) (t_tokens (c_total cost))
    else f64_zero in
  let would_be := u64_saturating_add (ci_saved (c_ci cost)) (ci_cost (c_ci cost)) in
  let savings := if 0 <? would_be then percent (ci_saved (c_ci cost)) would_be else f64_zero in
  {| overhead_pct := overhead; cache_savings_pct := savings; first_pass_yield := yield_; cost_per_net_kloc := f64_zero |}.

Definition ensure_altitude (env : ContextEnvelope) (expected : Altitude) : result RollupError unit :=
  if decide (altitude env = expected) then Ok tt else Err (WrongAltitude expected (altitude env) (Envelope.intent_id env)).
Definition ensure_top_level (env : ContextEnvelope) : result RollupError unit :=
  let a := authorship env in
  if decide (agent_type a ≠ TOP_LEVEL_AGENT_TYPE ∨ is_Some (parent_run_id (spawn a)))
  then Err (RollupSubagent (altitude env) (Envelope.intent_id env) (run_id (spawn a)) (agent_type a)) else Ok tt.
Definition pr_author (env : ContextEnvelope) : result RollupError PrAuthor :=
  _ ← ensure_top_level env;
  let a := authorship env in
  Ok (if decide (model a = EmptyString)
      then {| pa_kind := AuthorHuman; pa_model := None; pa_run_id := None; pa_principal := Some (operator a) |}
      else {| pa_kind := AuthorOrchestrator; pa_model := Some (model a); pa_run_id := Some (run_id (spawn a)); pa_principal := None |}).

(** * Attempts *)

(** [group_attempts]: attempts per intent id, ids in the order first seen. *)
Fixpoint push_attempt (groups : list (string * list ContextEnvelope)) (env : ContextEnvelope)
    : list (string * list ContextEnvelope) :=
  match groups with
  | [] => [(Envelope.intent_id env, [env])]
  | (id, g) :: rest =>
      if decide (id = Envelope.intent_id env) then (id, g ++ [env]) :: rest else (id, g) :: push_attempt rest env
  end.
Definition group_attempts (envs : list ContextEnvelope) : list (string * list ContextEnvelope) := foldl push_attempt [] envs.

(** [is_better] of a candidate against the best so far. *)
Definition is_better (cand best : ContextEnvelope) (later : bool) : bool :=
  let c := spawn (authorship cand) in let b := spawn (authorship best) in
  match N.compare (born_at c) (born_at b) with
  | Gt => true
  | Lt => false
  | Eq => match String.compare (run_id c) (run_id b) with Gt => true | Lt => false | Eq => later end
  end.
Definition final_attempt_idx (group : list ContextEnvelope) : nat :=
  foldl (λ best i,
    match group !! i, group !! best with
    | Some env, Some best_env => if is_better env best_env (best <? i)%nat then i else best
    | _, _ => best
    end) 0%nat (seq 0 (length group)).

Definition no_work : WorkCost := {| k_tokens := 0; k_tool_calls := 0; k_cost := 0 |}.
Definition no_waste : WasteCost := {| discarded_intents := 0; retried_agents := 0; tokens_not_landed := 0; w_cost_usd_micros := 0 |}.

Definition add_work (w : WorkCost) (env : ContextEnvelope) : result RollupError WorkCost :=
  t ← add (k_tokens w) (total (tokens (metrics env))) "work.tokens";
  c ← add (k_tool_calls w) (tool_calls (metrics env)) "work.tool_calls";
  m ← add (k_cost w) (cost_usd_micros (metrics env)) "work.cost_usd_micros";
  Ok {| k_tokens := t; k_tool_calls := c; k_cost := m |}.
Definition add_waste (w : WasteCost) (env : ContextEnvelope) : result RollupError WasteCost :=
  t ← add (tokens_not_landed w) (total (tokens (metrics env))) "waste.tokens_not_landed";
  m ← add (w_cost_usd_micros w) (cost_usd_micros (metrics env)) "waste.cost_usd_micros";
  Ok {| discarded_intents := discarded_intents w; retried_agents := retried_agents w; tokens_not_landed := t; w_cost_usd_micros := m |}.

(** The attempts of a landed intent: the final one is work, the others waste. *)
Fixpoint add_attempts (final i : nat) (group : list ContextEnvelope) (st : WorkCost * WasteCost)
    : result RollupError (WorkCost * WasteCost) :=
  match group with
  | [] => Ok st
  | env :: group =>
      st ← (if decide (i = final) then w ← add_work st.1 env; Ok (w, st.2) else w ← add_waste st.2 env; Ok (st.1, w));
      add_attempts final (S i) group st
  end.
Fixpoint add_discarded (group : list ContextEnvelope) (w : WasteCost) : result RollupError WasteCost :=
  match group with [] => Ok w | env :: group => w ← add_waste w env; add_discarded group w end.

Definition count_retried (w : WasteCost) (n : nat) : WasteCost := {|
  discarded_intents := discarded_intents w; retried_agents := u64_add (retried_agents w) (N.of_nat n - 1);
  tokens_not_landed := tokens_not_landed w; w_cost_usd_micros := w_cost_usd_micros w |}.
Definition count_discarded (w : WasteCost) : WasteCost := {|
  discarded_intents := u64_add (discarded_intents w) 1; retried_agents := retried_agents w;
  tokens_not_landed := tokens_not_landed w; w_cost_usd_micros := w_cost_usd_micros w |}.

(** The loop over the groups: work, waste and the ids landed at first pass. *)
Fixpoint spend_loop (landed : gset string) (groups : list (string * list ContextEnvelope))
    (st : WorkCost * WasteCost * N) : result RollupError (WorkCost * WasteCost * N) :=
  match groups with
  | [] => Ok st
  | (id, group) :: groups =>
      let '(work, waste, first) := st in
      let waste := count_retried waste (length group) in
      st ← (if decide (id ∈ landed) then
              ww ← add_attempts (final_attempt_idx group) 0 group (work, waste);
              Ok (ww, if (length group <=? 1)%nat then u64_add first 1 else first)
            else
              waste ← add_discarded group (count_discarded waste);
              Ok (work, waste, first));
      spend_loop landed groups st
  end.

Fixpoint ensure_intents (envs : list ContextEnvelope) : result RollupError unit :=
  match envs with [] => Ok tt | e :: envs => _ ← ensure_altitude e Intent; ensure_intents envs end.
Definition dedup_push (models : list string) (m : string) : list string :=
  if decide (m ≠ EmptyString ∧ m ∉ models) then models ++ [m] else models.
Definition ratio (num den : N) : spec_float := if den =? 0 then f64_zero else f64_div (f64_of_N num) (f64_of_N den).

(** * The record of a pull request *)

Definition pr_record (pr_env : ContextEnvelope) (pr_ref : string) (intents : list ContextEnvelope) (landed_ids : list string)
    (verdicts : list VerdictObject) (ci : CiCost) (queue : PrQueueInput) : result RollupError PrRecord :=
  _ ← ensure_altitude pr_env Pr;
  _ ← ensure_intents intents;
  author ← pr_author pr_env;
  let attempts := group_attempts intents in
  let landed : gset string := list_to_set landed_ids in
  let authored_ids : gset string := list_to_set attempts.*1 ∪ landed in
  '(work, waste, first) ← spend_loop landed attempts (no_work, no_waste, 0);
  let uncaptured := landed ∖ list_to_set attempts.*1 in
  let landed_first_pass := u64_add first (N.of_nat (size uncaptured)) in
  let m := metrics pr_env in
  let orchestration := {|
    o_tokens := total (tokens m); o_tool_calls := tool_calls m; o_turns := model_turns m; o_cost_usd_micros := cost_usd_micros m |} in
  let verification := {| f_tokens := 0; verdict_panels := N.of_nat (length verdicts); f_cost := 0 |} in
  cost ← decompose work orchestration verification ci waste;
  let sp e := spawn (authorship e) in
  let first_born := foldl N.min (born_at (sp pr_env)) ((λ e, born_at (sp e)) <$> intents) in
  let last_died := foldl N.max (died_at (sp pr_env)) ((λ e, died_at (sp e)) <$> intents) in
  let span_end := if 0 <? q_landed_at queue then q_landed_at queue else last_died in
  let agent_sum := foldl u64_saturating_add 0 ((λ e, active_ms (metrics e)) <$> intents) in
  let yield_ := ratio landed_first_pass (N.of_nat (size authored_ids)) in
  let runs : gset string := list_to_set ((λ e, run_id (sp e)) <$> intents) in
  Ok {| r_pr_id := Envelope.intent_id pr_env; r_author := author; r_intent_ids := landed_ids;
        r_intent_count := N.of_nat (length landed_ids); r_agent_count := N.of_nat (size runs);
        r_models := foldl dedup_push [] (model (authorship pr_env) :: ((λ e, model (authorship e)) <$> intents));
        r_envelope_ref := pr_ref; r_cost := cost;
        r_time := {| pt_wall_span := span_end - first_born; pt_agent_sum := agent_sum; pt_queue_wait := queue_wait_ms queue;
                     human_touches := q_human_touches queue; landed_at := q_landed_at queue |};
        r_efficiency := efficiency_from cost yield_ |}.

(** * The rollup of a campaign *)

Record Sums := {
  s_work : WorkCost; s_orch : OrchestrationCost; s_verif : VerificationCost; s_ci : CiCost; s_waste : WasteCost;
  s_ids : list string; s_intents : N; s_agents : N; s_models : list string; s_agent_ms : N; s_queue_ms : N;
  s_progress : CampaignProgress; s_last_landed : N; s_authored : spec_float; s_first_pass : spec_float }.
Definition Sums_start : Sums := {|
  s_work := no_work; s_orch := {| o_tokens := 0; o_tool_calls := 0; o_turns := 0; o_cost_usd_micros := 0 |};
  s_verif := {| f_tokens := 0; verdict_panels := 0; f_cost := 0 |};
  s_ci := {| cache_hit := 0; ci_exec := 0; ci_cost := 0; ci_saved := 0 |}; s_waste := no_waste; s_ids := [];
  s_intents := 0; s_agents := 0; s_models := []; s_agent_ms := 0; s_queue_ms := 0;
  s_progress := {| p_landed := 0; p_in_flight := 0; p_blocked := 0 |}; s_last_landed := 0;
  s_authored := f64_zero; s_first_pass := f64_zero |}.

Definition sum_work (a b : WorkCost) : result RollupError WorkCost :=
  t ← add (k_tokens a) (k_tokens b) "work.tokens";
  c ← add (k_tool_calls a) (k_tool_calls b) "work.tool_calls";
  m ← add (k_cost a) (k_cost b) "work.cost_usd_micros";
  Ok {| k_tokens := t; k_tool_calls := c; k_cost := m |}.
Definition sum_orch (a b : OrchestrationCost) : result RollupError OrchestrationCost :=
  t ← add (o_tokens a) (o_tokens b) "orchestration.tokens";
  c ← add (o_tool_calls a) (o_tool_calls b) "orchestration.tool_calls";
  n ← add (o_turns a) (o_turns b) "orchestration.turns";
  m ← add (o_cost_usd_micros a) (o_cost_usd_micros b) "orchestration.cost_usd_micros";
  Ok {| o_tokens := t; o_tool_calls := c; o_turns := n; o_cost_usd_micros := m |}.
Definition sum_verif (a b : VerificationCost) : result RollupError VerificationCost :=
  t ← add (f_tokens a) (f_tokens b) "verification.tokens";
  c ← add (verdict_panels a) (verdict_panels b) "verification.verdict_panels";
  m ← add (f_cost a) (f_cost b) "verification.cost_usd_micros";
  Ok {| f_tokens := t; verdict_panels := c; f_cost := m |}.
Definition sum_ci (a b : CiCost) : result RollupError CiCost :=
  h ← add (cache_hit a) (cache_hit b) "ci.cache_hit";
  e ← add (ci_exec a) (ci_exec b) "ci.exec";
  c ← add (ci_cost a) (ci_cost b) "ci.cost_usd_micros";
  s ← add (ci_saved a) (ci_saved b) "ci.saved_usd_micros";
  Ok {| cache_hit := h; ci_exec := e; ci_cost := c; ci_saved := s |}.
Definition sum_waste (a b : WasteCost) : result RollupError WasteCost :=
  t ← add (tokens_not_landed a) (tokens_not_landed b) "waste.tokens_not_landed";
  m ← add (w_cost_usd_micros a) (w_cost_usd_micros b) "waste.cost_usd_micros";
  Ok {| discarded_intents := u64_saturating_add (discarded_intents a) (discarded_intents b);
        retried_agents := u64_saturating_add (retried_agents a) (retried_agents b);
        tokens_not_landed := t; w_cost_usd_micros := m |}.
Definition step_progress (p : CampaignProgress) (ph : PrPhase) : CampaignProgress :=
  match ph with
  | PhaseLanded => {| p_landed := u64_add (p_landed p) 1; p_in_flight := p_in_flight p; p_blocked := p_blocked p |}
  | PhaseInFlight => {| p_landed := p_landed p; p_in_flight := u64_add (p_in_flight p) 1; p_blocked := p_blocked p |}
  | PhaseBlocked => {| p_landed := p_landed p; p_in_flight := p_in_flight p; p_blocked := u64_add (p_blocked p) 1 |}
  end.

Definition sum_pr (s : Sums) (pr : PrRecord) (ph : PrPhase) : result RollupError Sums :=
  let cost := r_cost pr in
  work ← sum_work (s_work s) (c_work cost);
  orch ← sum_orch (s_orch s) (c_orchestration cost);
  verif ← sum_verif (s_verif s) (c_verification cost);
  ci ← sum_ci (s_ci s) (c_ci cost);
  waste ← sum_waste (s_waste s) (c_waste cost);
  let authored := f64_of_N (u64_add (r_intent_count pr) (discarded_intents (c_waste cost))) in
  Ok {| s_work := work; s_orch := orch; s_verif := verif; s_ci := ci; s_waste := waste; s_ids := s_ids s ++ [r_pr_id pr];
        s_intents := u64_saturating_add (s_intents s) (r_intent_count pr);
        s_agents := u64_saturating_add (s_agents s) (r_agent_count pr);
        s_models := foldl dedup_push (s_models s) (r_models pr);
        s_agent_ms := u64_saturating_add (s_agent_ms s) (pt_agent_sum (r_time pr));
        s_queue_ms := u64_saturating_add (s_queue_ms s) (pt_queue_wait (r_time pr));
        s_progress := step_progress (s_progress s) ph;
        s_last_landed := match ph with PhaseLanded => N.max (s_last_landed s) (landed_at (r_time pr)) | _ => s_last_landed s end;
        s_authored := f64_add (s_authored s) authored;
        s_first_pass := f64_add (s_first_pass s) (f64_mul (first_pass_yield (r_efficiency pr)) authored) |}.
Fixpoint sum_prs (s : Sums) (prs : list (PrRecord * PrPhase)) : result RollupError Sums :=
  match prs with [] => Ok s | (pr, ph) :: prs => s ← sum_pr s pr ph; sum_prs s prs end.

Definition campaign_rollup (env : ContextEnvelope) (env_ref : string) (prs : list (PrRecord * PrPhase))
    : result RollupError CampaignRollup :=
  _ ← ensure_altitude env Campaign;
  _ ← ensure_top_level env;
  s ← sum_prs Sums_start prs;
  cost ← decompose (s_work s) (s_orch s) (s_verif s) (s_ci s) (s_waste s);
  let born := born_at (spawn (authorship env)) in
  let end_ := if 0 <? s_last_landed s then s_last_landed s else died_at (spawn (authorship env)) in
  let yield_ := if SFltb f64_zero (s_authored s) then f64_div (s_first_pass s) (s_authored s) else f64_zero in
  Ok {| cr_campaign := Envelope.intent_id env; cr_charter := charter env; cr_owner := operator (authorship env);
        cr_envelope_ref := env_ref; cr_pr_ids := s_ids s; cr_pr_count := N.of_nat (length (s_ids s));
        cr_intent_count := s_intents s; cr_agent_count := s_agents s; cr_models := s_models s; cr_cost := cost;
        cr_time := {| ct_wall_span := end_ - born; ct_agent_sum := s_agent_ms s; ct_queue_wait := s_queue_ms s |};
        cr_efficiency := efficiency_from cost yield_; cr_progress := s_progress s |}.

(** * The attempt that counts *)

Definition attempt_key (e : ContextEnvelope) : N * string := (born_at (spawn (authorship e)), run_id (spawn (authorship e))).
(** Later born, then the greater run id. *)
Definition key_le (a b : N * string) : Prop := a.1 < b.1 ∨ a.1 = b.1 ∧ String.le a.2 b.2.

Lemma string_compare_le a b : String.compare a b ≠ Gt ↔ String.le a b.
Proof. unfold String.le, String.leb. by destruct (String.compare a b). Qed.

Lemma string_compare_refl a : String.compare a a = Eq.
Proof. induction a as [|c a IH]; [done|]. simpl. unfold Ascii.compare. by rewrite N.compare_refl. Qed.

#[export] Instance key_le_trans : Transitive key_le.
Proof.
  intros a b c [?|[Hab ?]] [?|[Hbc ?]]; [left; lia|left; lia|left; lia|]. right. split; [congruence|]. by etrans.
Qed.
Lemma key_le_antisym a b : key_le a b → key_le b a → a = b.
Proof.
  destruct a as [a s], b as [b t]. unfold key_le. simpl. intros [?|[-> ?]] [?|[? ?]]; try lia. f_equal. by apply (anti_symm String.le).
Qed.

Lemma is_better_true c b later : is_better c b later = true →
  key_le (attempt_key b) (attempt_key c) ∧ (attempt_key c = attempt_key b → later = true).
Proof.
  unfold is_better, attempt_key, key_le. simpl. destruct (N.compare_spec (born_at (spawn (authorship c))) (born_at (spawn (authorship b)))) as [Hb|Hb|Hb];
    [|done|intros _; split; [by left|]; intros [= ? _]; lia].
  destruct (String.compare _ _) eqn:Hs; [|done|]; intros Hl.
  - split; [|done]. right. split; [done|]. apply String.compare_eq_iff in Hs. by rewrite Hs.
  - split; [|intros [= _ Hr]; rewrite Hr in Hs; by rewrite string_compare_refl in Hs].
    right. split; [done|]. apply string_compare_le. rewrite String.compare_antisym, Hs. done.
Qed.
Lemma is_better_false c b later : is_better c b later = false →
  key_le (attempt_key c) (attempt_key b) ∧ (attempt_key c = attempt_key b → later = false).
Proof.
  unfold is_better, attempt_key, key_le. simpl. destruct (N.compare_spec (born_at (spawn (authorship c))) (born_at (spawn (authorship b)))) as [Hb|Hb|Hb];
    [|intros _; split; [by left|]; intros [= ? _]; lia|done].
  destruct (String.compare _ _) eqn:Hs; [| |done]; intros Hl.
  - split; [|done]. right. split; [done|]. apply String.compare_eq_iff in Hs. by rewrite Hs.
  - split; [|intros [= _ Hr]; rewrite Hr in Hs; by rewrite string_compare_refl in Hs].
    right. split; [done|]. apply string_compare_le. by rewrite Hs.
Qed.

Lemma final_attempt_prefix g n : (0 < n ≤ length g)%nat → ∃ best b,
  foldl (λ best i,
    match g !! i, g !! best with
    | Some env, Some best_env => if is_better env best_env (best <? i)%nat then i else best
    | _, _ => best
    end) 0%nat (seq 0 n) = best ∧ (best < n)%nat ∧ g !! best = Some b ∧
  ∀ j e, (j < n)%nat → g !! j = Some e → key_le (attempt_key e) (attempt_key b) ∧ (attempt_key e = attempt_key b → (j ≤ best)%nat).
Proof.
  intros Hn. induction n as [|n IH]; [lia|]. rewrite seq_S, foldl_snoc. simpl.
  destruct (lookup_lt_is_Some_2 g n) as [c Hc]; [lia|]. rewrite Hc. destruct (decide (n = 0%nat)) as [->|Hn0].
  { simpl. rewrite Hc. assert (is_better c c false = false) as Hbf.
    { destruct (is_better c c false) eqn:Hb; [|done]. apply is_better_true in Hb as [_ Hbt]. by specialize (Hbt eq_refl). }
    change (0 <? 0)%nat with false. rewrite Hbf. exists 0%nat, c. split_and!; try done; try lia.
    intros j e Hj He. assert (j = 0%nat) as -> by lia. rewrite Hc in He. injection He as <-. split; [|lia]. right. done. }
  destruct IH as (best & b & -> & Hlt & Hb & Hmax); [lia|]. rewrite Hb. rewrite (proj2 (Nat.ltb_lt best n)) by lia.
  destruct (is_better c b true) eqn:Hbt.
  - apply is_better_true in Hbt as [Hk _]. exists n, c. split_and!; try done; try lia.
    intros j e Hj He. destruct (decide (j = n)) as [->|].
    + rewrite Hc in He. injection He as <-. split; [right; done|lia].
    + destruct (Hmax j e) as [Hle _]; [lia|done|]. split; [by etrans|lia].
  - apply is_better_false in Hbt as [Hk Hne]. exists best, b. split_and!; try done; try lia.
    intros j e Hj He. destruct (decide (j = n)) as [->|].
    + rewrite Hc in He. injection He as <-. split; [done|]. intros Heq. by specialize (Hne Heq).
    + apply Hmax; [lia|done].
Qed.

Lemma final_attempt_max g : g ≠ [] → ∃ b, g !! final_attempt_idx g = Some b ∧
  ∀ j e, g !! j = Some e → key_le (attempt_key e) (attempt_key b) ∧ (attempt_key e = attempt_key b → (j ≤ final_attempt_idx g)%nat).
Proof.
  intros Hne. destruct (final_attempt_prefix g (length g)) as (best & b & Heq & _ & Hb & Hmax).
  { destruct g; [done|]. simpl. lia. }
  unfold final_attempt_idx. rewrite Heq. exists b. split; [done|]. intros j e He. apply Hmax; [by eapply lookup_lt_Some|done].
Qed.

(** The attempt that counts as work is the latest by birth and then by run id, so
    it does not depend on the order in which the envelopes arrive, as long as no
    two attempts of an intent share both. *)
Theorem final_attempt_order g g' : g ≡ₚ g' → NoDup (attempt_key <$> g) →
  g !! final_attempt_idx g = g' !! final_attempt_idx g'.
Proof.
  intros Hp Hnd. destruct (decide (g = [])) as [->|Hne]; [by apply Permutation_nil_l in Hp as <-|].
  assert (g' ≠ []) as Hne' by (intros ->; by apply Permutation_nil_r in Hp).
  destruct (final_attempt_max g Hne) as (b & Hb & Hmax). destruct (final_attempt_max g' Hne') as (b' & Hb' & Hmax').
  rewrite Hb, Hb'. f_equal.
  assert (b ∈ g') as [j Hj]%list_elem_of_lookup_1 by (rewrite <- Hp; by eapply list_elem_of_lookup_2).
  assert (b' ∈ g) as [j' Hj']%list_elem_of_lookup_1 by (rewrite Hp; by eapply list_elem_of_lookup_2).
  assert (attempt_key b = attempt_key b') as Hk.
  { apply key_le_antisym; [by apply (Hmax' j b)|by apply (Hmax j' b')]. }
  assert (final_attempt_idx g = j') as Hi.
  { eapply (NoDup_lookup _ _ _ (attempt_key b) Hnd); rewrite list_lookup_fmap; [by rewrite Hb|by rewrite Hj', Hk]. }
  rewrite <- Hi in Hj'. congruence.
Qed.

(** * Accounts *)

Definition sum_of {A} (f : A → N) (l : list A) : N := foldr (λ x n, f x + n) 0 l.
Lemma sum_of_cons {A} (f : A → N) x l : sum_of f (x :: l) = f x + sum_of f l.
Proof. done. Qed.
Lemma sum_of_app {A} (f : A → N) l l' : sum_of f (l ++ l') = sum_of f l + sum_of f l'.
Proof. induction l as [|x l IH]; [done|]. simpl. lia. Qed.

Definition tok (e : ContextEnvelope) : N := total (tokens (metrics e)).
Definition calls (e : ContextEnvelope) : N := tool_calls (metrics e).
Definition money (e : ContextEnvelope) : N := cost_usd_micros (metrics e).

Lemma add_ok a b f c : add a b f = Ok c ↔ c = a + b ∧ a + b ≤ u64_max.
Proof. unfold add. destruct (N.leb_spec (a + b) u64_max); split; [intros [= <-]; done|by intros [-> _]|done|lia]. Qed.
Lemma add_total a b f : a + b ≤ u64_max → add a b f = Ok (a + b).
Proof. intros. by apply add_ok. Qed.

(** Take a chain of sums apart. *)
Ltac sums H :=
  repeat match type of H with
  | mbind _ ?e = Ok _ =>
      let E := fresh "Hsum" in destruct e eqn:E; cbn [mbind result_bind] in H; [|discriminate H]
  end;
  repeat match goal with E : add _ _ _ = Ok _ |- _ => apply add_ok in E as [-> ?] end.

(** How far a state accounts for a list of attempts: what it gained in all, and
    what of it is work. *)
Definition accounts (st st' : WorkCost * WasteCost) (all work : list ContextEnvelope) : Prop :=
  k_tokens st'.1 + tokens_not_landed st'.2 = k_tokens st.1 + tokens_not_landed st.2 + sum_of tok all ∧
  k_cost st'.1 + w_cost_usd_micros st'.2 = k_cost st.1 + w_cost_usd_micros st.2 + sum_of money all ∧
  k_tokens st'.1 = k_tokens st.1 + sum_of tok work ∧ k_cost st'.1 = k_cost st.1 + sum_of money work ∧
  k_tool_calls st'.1 = k_tool_calls st.1 + sum_of calls work.

Lemma accounts_refl st : accounts st st [] [].
Proof. unfold accounts. simpl. lia. Qed.
Lemma accounts_trans st st' st'' l l' w w' :
  accounts st st' l w → accounts st' st'' l' w' → accounts st st'' (l ++ l') (w ++ w').
Proof. unfold accounts. rewrite !sum_of_app. lia. Qed.

Lemma add_work_accounts w x w' e : add_work w e = Ok w' → accounts (w, x) (w', x) [e] [e].
Proof. unfold add_work. intros Ha. sums Ha. injection Ha as <-. unfold accounts, tok, money, calls. simpl. lia. Qed.
Lemma add_waste_accounts w x x' e : add_waste x e = Ok x' → accounts (w, x) (w, x') [e] [].
Proof. unfold add_waste. intros Ha. sums Ha. injection Ha as <-. unfold accounts, tok, money, calls. simpl. lia. Qed.

Lemma add_attempts_accounts final i g st st' : add_attempts final i g st = Ok st' →
  accounts st st' g (if decide (i ≤ final)%nat then option_list (g !! (final - i)%nat) else []).
Proof.
  revert i st. induction g as [|e g IH]; intros i [w x] Ha; cbn [add_attempts] in Ha.
  { injection Ha as <-. case_decide; apply accounts_refl. }
  destruct (decide (i = final)) as [->|Hi].
  - cbn [fst snd] in Ha. destruct (add_work w e) as [w1|] eqn:Hw; [|done]. cbn [mbind result_bind] in Ha. apply IH in Ha.
    rewrite decide_False in Ha by lia. rewrite decide_True, Nat.sub_diag by lia.
    apply (accounts_trans _ _ _ [e] g [e] [] (add_work_accounts _ _ _ _ Hw) Ha).
  - cbn [fst snd] in Ha. destruct (add_waste x e) as [x1|] eqn:Hx; [|done]. cbn [mbind result_bind] in Ha. apply IH in Ha.
    pose proof (accounts_trans _ _ _ [e] g [] _ (add_waste_accounts w _ _ _ Hx) Ha) as Hacc.
    repeat case_decide; try lia; [|done]. by replace (final - i)%nat with (S (final - S i)) by lia.
Qed.

Lemma add_discarded_accounts g w x x' : add_discarded g x = Ok x' → accounts (w, x) (w, x') g [].
Proof.
  revert x. induction g as [|e g IH]; intros x Ha; cbn [add_discarded] in Ha; [injection Ha as <-; apply accounts_refl|].
  destruct (add_waste x e) as [x1|] eqn:Hx; [|done]. cbn [mbind result_bind] in Ha.
  apply (accounts_trans _ _ _ [e] g [] [] (add_waste_accounts w _ _ _ Hx) (IH _ Ha)).
Qed.

(** What counts as work: the final attempt of each landed group. *)
Definition final_of (g : list ContextEnvelope) : list ContextEnvelope := option_list (g !! final_attempt_idx g).
Definition landed_work (landed : gset string) (groups : list (string * list ContextEnvelope)) : list ContextEnvelope :=
  mjoin ((λ g, if decide (g.1 ∈ landed) then final_of g.2 else []) <$> groups).

Lemma spend_loop_accounts landed groups st st' : spend_loop landed groups st = Ok st' →
  accounts st.1 st'.1 (mjoin groups.*2) (landed_work landed groups).
Proof.
  revert st. induction groups as [|[id g] groups IH]; intros [[w x] first] Hl; cbn [spend_loop] in Hl.
  { injection Hl as <-. apply accounts_refl. }
  unfold landed_work. cbn [fmap list_fmap mjoin list_join fst snd]. fold (landed_work landed groups).
  destruct (decide (id ∈ landed)).
  - destruct (add_attempts _ _ g _) as [st1|] eqn:Ha; [|done]. cbn [mbind result_bind] in Hl. apply IH in Hl. simpl in Hl.
    apply add_attempts_accounts in Ha. rewrite decide_True, Nat.sub_0_r in Ha by lia.
    exact (accounts_trans _ _ _ _ _ _ _ Ha Hl).
  - destruct (add_discarded g _) as [x1|] eqn:Ha; [|done]. cbn [mbind result_bind] in Hl. apply IH in Hl. simpl in Hl.
    apply (add_discarded_accounts g w) in Ha. exact (accounts_trans _ _ _ _ _ [] _ Ha Hl).
Qed.

Lemma push_attempt_sum f groups e : sum_of f (mjoin (push_attempt groups e).*2) = sum_of f (mjoin groups.*2) + f e.
Proof.
  induction groups as [|[id g] groups IH]; [simpl; lia|]. cbn [push_attempt].
  assert (∀ x (l : list (string * list ContextEnvelope)), sum_of f (mjoin (x :: l).*2) = sum_of f x.2 + sum_of f (mjoin l.*2)) as Hc.
  { intros x l. apply sum_of_app. }
  case_decide; rewrite !Hc; cbn [snd]; [rewrite sum_of_app; simpl; lia|]. rewrite IH. lia.
Qed.
Lemma group_attempts_sum f envs : sum_of f (mjoin (group_attempts envs).*2) = sum_of f envs.
Proof.
  unfold group_attempts. induction envs as [|e envs IH] using rev_ind; [done|].
  rewrite foldl_snoc, push_attempt_sum, IH, sum_of_app. simpl. lia.
Qed.

(** The total of a decomposition is the sum of its four lines. *)
Definition total_identity (c : CostDecomposition) : Prop :=
  t_tokens (c_total c) = k_tokens (c_work c) + o_tokens (c_orchestration c) + f_tokens (c_verification c) ∧
  t_cost (c_total c) = k_cost (c_work c) + o_cost_usd_micros (c_orchestration c) + f_cost (c_verification c) + ci_cost (c_ci c).

Lemma decompose_ok w o v ci x c : decompose w o v ci x = Ok c →
  total_identity c ∧ c_work c = w ∧ c_orchestration c = o ∧ c_verification c = v ∧ c_ci c = ci ∧ c_waste c = x.
Proof. unfold decompose. intros Hd. sums Hd. injection Hd as <-. unfold total_identity. simpl. split_and!; done. Qed.

(** The record of a pull request accounts for every captured attempt once: work
    and waste together are the spend of all of them, work is the spend of the
    final attempts of the landed intents, orchestration is the author's session,
    and the total is the sum of its lines. *)
Theorem pr_record_accounts env ref intents landed verdicts ci queue r :
  pr_record env ref intents landed verdicts ci queue = Ok r →
  let c := r_cost r in let final := landed_work (list_to_set landed) (group_attempts intents) in
  k_tokens (c_work c) + tokens_not_landed (c_waste c) = sum_of tok intents ∧
  k_cost (c_work c) + w_cost_usd_micros (c_waste c) = sum_of money intents ∧
  k_tokens (c_work c) = sum_of tok final ∧ k_cost (c_work c) = sum_of money final ∧
  k_tool_calls (c_work c) = sum_of calls final ∧
  o_tokens (c_orchestration c) = tok env ∧ o_cost_usd_micros (c_orchestration c) = money env ∧ c_ci c = ci ∧
  total_identity c.
Proof.
  unfold pr_record. destruct (ensure_altitude env Pr); [|done]. cbn [mbind result_bind].
  destruct (ensure_intents intents); [|done]. cbn [mbind result_bind]. destruct (pr_author env); [|done]. cbn [mbind result_bind].
  destruct (spend_loop _ _ _) as [[[work waste] first]|] eqn:Hs; [|done]. cbn [mbind result_bind].
  destruct (decompose _ _ _ _ _) as [c|] eqn:Hd; [|done]. cbn [mbind result_bind]. intros [= <-]. cbv zeta. cbn [r_cost].
  apply decompose_ok in Hd as (Ht & Hw & Ho & _ & Hci & Hx). apply spend_loop_accounts in Hs. unfold accounts in Hs.
  rewrite !group_attempts_sum in Hs. simpl in Hs. rewrite Hw, Hx, Ho, Hci. simpl. split_and!; try done; lia.
Qed.

(** * No refusal but for cause *)

Definition room (st : WorkCost * WasteCost) (l : list ContextEnvelope) : Prop :=
  k_tokens st.1 + tokens_not_landed st.2 + sum_of tok l ≤ u64_max ∧
  k_cost st.1 + w_cost_usd_micros st.2 + sum_of money l ≤ u64_max ∧ k_tool_calls st.1 + sum_of calls l ≤ u64_max.

Lemma room_work w x e l : room (w, x) (e :: l) → ∃ w', add_work w e = Ok w' ∧ room (w', x) l.
Proof.
  unfold room, add_work. rewrite !sum_of_cons. cbn [fst snd]. fold (tok e) (money e) (calls e). intros (Ht & Hm & Hc).
  rewrite !add_total by lia. cbn [mbind result_bind]. eexists. split; [done|].
  cbn [k_tokens k_cost k_tool_calls tokens_not_landed w_cost_usd_micros]. lia.
Qed.
Lemma room_waste w x e l : room (w, x) (e :: l) → ∃ x', add_waste x e = Ok x' ∧ room (w, x') l.
Proof.
  unfold room, add_waste. rewrite !sum_of_cons. cbn [fst snd]. fold (tok e) (money e) (calls e). intros (Ht & Hm & Hc).
  rewrite !add_total by lia. cbn [mbind result_bind]. eexists. split; [done|].
  cbn [k_tokens k_cost k_tool_calls tokens_not_landed w_cost_usd_micros]. lia.
Qed.

Lemma room_attempts final i g rest st : room st (g ++ rest) → ∃ st', add_attempts final i g st = Ok st' ∧ room st' rest.
Proof.
  revert i st. induction g as [|e g IH]; intros i [w x] Hr; cbn [add_attempts]; [eauto|]. simpl in Hr. cbn [fst snd]. case_decide.
  - destruct (room_work _ _ _ _ Hr) as (w' & -> & Hr'). by apply (IH (S i) (w', x)).
  - destruct (room_waste _ _ _ _ Hr) as (x' & -> & Hr'). by apply (IH (S i) (w, x')).
Qed.
Lemma room_discarded g rest w x : room (w, x) (g ++ rest) → ∃ x', add_discarded g x = Ok x' ∧ room (w, x') rest.
Proof.
  revert x. induction g as [|e g IH]; intros x Hr; cbn [add_discarded]; [eauto|].
  destruct (room_waste _ _ _ _ Hr) as (x' & -> & Hr'). by apply IH.
Qed.
Lemma room_loop landed groups st : room st.1 (mjoin groups.*2) → ∃ st', spend_loop landed groups st = Ok st'.
Proof.
  revert st. induction groups as [|[id g] groups IH]; intros [[w x] first] Hr; cbn [spend_loop]; [eauto|].
  change (mjoin ((id, g) :: groups).*2) with (g ++ mjoin groups.*2) in Hr. case_decide.
  - destruct (room_attempts (final_attempt_idx g) 0 g (mjoin groups.*2) (w, count_retried x (length g)) Hr) as (st' & -> & Hr').
    by apply IH.
  - destruct (room_discarded g (mjoin groups.*2) w (count_discarded (count_retried x (length g))) Hr) as (x' & -> & Hr').
    by apply (IH (w, x', first)).
Qed.

Definition top_level (env : ContextEnvelope) : Prop :=
  agent_type (authorship env) = TOP_LEVEL_AGENT_TYPE ∧ parent_run_id (spawn (authorship env)) = None.

(** A record is refused only for cause: with envelopes of the right altitudes, an
    author that is no subagent, and sums that fit the counters, there is one. *)
Theorem pr_record_total env ref intents landed verdicts ci queue :
  altitude env = Pr → Forall (λ e, altitude e = Intent) intents → top_level env →
  sum_of tok (env :: intents) ≤ u64_max → sum_of money (env :: intents) + ci_cost ci ≤ u64_max →
  sum_of calls intents ≤ u64_max →
  ∃ r, pr_record env ref intents landed verdicts ci queue = Ok r.
Proof.
  intros Ha Hi [Hm Hp] Ht Hc Hn. unfold pr_record, ensure_altitude. rewrite decide_True by done. cbn [mbind result_bind].
  assert (ensure_intents intents = Ok tt) as ->.
  { clear -Hi. induction Hi as [|e l He Hl IH]; [done|]. cbn [ensure_intents]. unfold ensure_altitude.
    rewrite decide_True by done. exact IH. }
  unfold pr_author, ensure_top_level. rewrite (decide_False (P := agent_type (authorship env) ≠ TOP_LEVEL_AGENT_TYPE ∨ is_Some (parent_run_id (spawn (authorship env)))))
    by (rewrite Hm, Hp; by intros [?|[]]). cbn [mbind result_bind].
  simpl in Ht, Hc. destruct (room_loop (list_to_set landed) (group_attempts intents) (no_work, no_waste, 0)) as [[[w x] first] Hs].
  { unfold room. simpl. rewrite !group_attempts_sum. lia. }
  rewrite Hs. cbn [mbind result_bind]. apply spend_loop_accounts in Hs. unfold accounts in Hs. rewrite !group_attempts_sum in Hs. simpl in Hs.
  unfold decompose. cbn [o_tokens o_cost_usd_micros f_tokens f_cost]. fold (tok env). fold (money env).
  repeat (rewrite !add_total by lia; cbn [mbind result_bind]). eauto.
Qed.

(** * Campaigns *)

Definition line (f : CostDecomposition → N) (prs : list (PrRecord * PrPhase)) : N := sum_of (λ p, f (r_cost p.1)) prs.

Lemma sum_pr_ok s pr ph s' : sum_pr s pr ph = Ok s' →
  let c := r_cost pr in
  k_tokens (s_work s') = k_tokens (s_work s) + k_tokens (c_work c) ∧
  k_cost (s_work s') = k_cost (s_work s) + k_cost (c_work c) ∧
  o_tokens (s_orch s') = o_tokens (s_orch s) + o_tokens (c_orchestration c) ∧
  o_cost_usd_micros (s_orch s') = o_cost_usd_micros (s_orch s) + o_cost_usd_micros (c_orchestration c) ∧
  f_tokens (s_verif s') = f_tokens (s_verif s) + f_tokens (c_verification c) ∧
  f_cost (s_verif s') = f_cost (s_verif s) + f_cost (c_verification c) ∧
  ci_cost (s_ci s') = ci_cost (s_ci s) + ci_cost (c_ci c) ∧
  tokens_not_landed (s_waste s') = tokens_not_landed (s_waste s) + tokens_not_landed (c_waste c) ∧
  w_cost_usd_micros (s_waste s') = w_cost_usd_micros (s_waste s) + w_cost_usd_micros (c_waste c) ∧
  s_ids s' = s_ids s ++ [r_pr_id pr] ∧ s_progress s' = step_progress (s_progress s) ph.
Proof.
  unfold sum_pr. intros Hs.
  destruct (sum_work _ _) as [w|] eqn:Hw; [|done]. cbn [mbind result_bind] in Hs.
  destruct (sum_orch _ _) as [o|] eqn:Ho; [|done]. cbn [mbind result_bind] in Hs.
  destruct (sum_verif _ _) as [v|] eqn:Hv; [|done]. cbn [mbind result_bind] in Hs.
  destruct (sum_ci _ _) as [c|] eqn:Hc; [|done]. cbn [mbind result_bind] in Hs.
  destruct (sum_waste _ _) as [x|] eqn:Hx; [|done]. cbn [mbind result_bind] in Hs. injection Hs as <-.
  unfold sum_work in Hw. sums Hw. injection Hw as <-. unfold sum_orch in Ho. sums Ho. injection Ho as <-.
  unfold sum_verif in Hv. sums Hv. injection Hv as <-. unfold sum_ci in Hc. sums Hc. injection Hc as <-.
  unfold sum_waste in Hx. sums Hx. injection Hx as <-. by split_and!.
Qed.

Definition in_phase (ph : PrPhase) (prs : list (PrRecord * PrPhase)) : N :=
  sum_of (λ p, match p.2, ph with
    | PhaseLanded, PhaseLanded | PhaseInFlight, PhaseInFlight | PhaseBlocked, PhaseBlocked => 1 | _, _ => 0 end) prs.

Lemma in_phase_cons ph pr q prs : in_phase ph ((pr, q) :: prs) = match q, ph with
    | PhaseLanded, PhaseLanded | PhaseInFlight, PhaseInFlight | PhaseBlocked, PhaseBlocked => 1 | _, _ => 0 end + in_phase ph prs.
Proof. done. Qed.
Lemma in_phase_length ph prs : in_phase ph prs ≤ N.of_nat (length prs).
Proof. unfold in_phase. induction prs as [|[pr q] prs IH]; [done|]. simpl. destruct q, ph; lia. Qed.

Lemma step_progress_ok p pr ph prs bound :
  p_landed p + in_phase PhaseLanded ((pr, ph) :: prs) ≤ bound → p_in_flight p + in_phase PhaseInFlight ((pr, ph) :: prs) ≤ bound →
  p_blocked p + in_phase PhaseBlocked ((pr, ph) :: prs) ≤ bound → bound ≤ u64_max →
  p_landed (step_progress p ph) + in_phase PhaseLanded prs = p_landed p + in_phase PhaseLanded ((pr, ph) :: prs) ∧
  p_in_flight (step_progress p ph) + in_phase PhaseInFlight prs = p_in_flight p + in_phase PhaseInFlight ((pr, ph) :: prs) ∧
  p_blocked (step_progress p ph) + in_phase PhaseBlocked prs = p_blocked p + in_phase PhaseBlocked ((pr, ph) :: prs).
Proof.
  rewrite !in_phase_cons. intros Hl Hf Hb Hmax. destruct ph; cbn [step_progress p_landed p_in_flight p_blocked snd] in *; unfold u64_add;
    rewrite N.mod_small by (unfold u64_max in Hmax; lia); lia.
Qed.

Lemma sum_prs_ok prs s s' : sum_prs s prs = Ok s' →
  p_landed (s_progress s) + in_phase PhaseLanded prs ≤ u64_max → p_in_flight (s_progress s) + in_phase PhaseInFlight prs ≤ u64_max →
  p_blocked (s_progress s) + in_phase PhaseBlocked prs ≤ u64_max →
  k_tokens (s_work s') = k_tokens (s_work s) + line (λ c, k_tokens (c_work c)) prs ∧
  k_cost (s_work s') = k_cost (s_work s) + line (λ c, k_cost (c_work c)) prs ∧
  o_tokens (s_orch s') = o_tokens (s_orch s) + line (λ c, o_tokens (c_orchestration c)) prs ∧
  o_cost_usd_micros (s_orch s') = o_cost_usd_micros (s_orch s) + line (λ c, o_cost_usd_micros (c_orchestration c)) prs ∧
  f_tokens (s_verif s') = f_tokens (s_verif s) + line (λ c, f_tokens (c_verification c)) prs ∧
  f_cost (s_verif s') = f_cost (s_verif s) + line (λ c, f_cost (c_verification c)) prs ∧
  ci_cost (s_ci s') = ci_cost (s_ci s) + line (λ c, ci_cost (c_ci c)) prs ∧
  tokens_not_landed (s_waste s') = tokens_not_landed (s_waste s) + line (λ c, tokens_not_landed (c_waste c)) prs ∧
  w_cost_usd_micros (s_waste s') = w_cost_usd_micros (s_waste s) + line (λ c, w_cost_usd_micros (c_waste c)) prs ∧
  s_ids s' = s_ids s ++ ((λ p, r_pr_id p.1) <$> prs) ∧
  p_landed (s_progress s') = p_landed (s_progress s) + in_phase PhaseLanded prs ∧
  p_in_flight (s_progress s') = p_in_flight (s_progress s) + in_phase PhaseInFlight prs ∧
  p_blocked (s_progress s') = p_blocked (s_progress s) + in_phase PhaseBlocked prs.
Proof.
  revert s. induction prs as [|[pr ph] prs IH]; intros s Hs Hl Hf Hb; cbn [sum_prs] in Hs.
  { injection Hs as <-. unfold line, in_phase. simpl. rewrite app_nil_r. split_and!; try done; lia. }
  destruct (sum_pr s pr ph) as [s1|] eqn:Hp; [|done]. cbn [mbind result_bind] in Hs.
  apply sum_pr_ok in Hp as (?&?&?&?&?&?&?&?&?&Hids&Hpr).
  destruct (step_progress_ok (s_progress s) pr ph prs u64_max) as (Ha & Hc & Hd); [lia..|]. rewrite <- Hpr in Ha, Hc, Hd.
  apply IH in Hs as (?&?&?&?&?&?&?&?&?&Hids'&?&?&?); [|lia..]. unfold line in *. rewrite !sum_of_cons. cbn [fst].
  split_and!; try lia. rewrite Hids', Hids, <- (assoc_L (++)). done.
Qed.

(** A campaign consolidates its pull requests: every line is the sum of theirs,
    the total is again the sum of the lines and so the sum of their totals, and
    each of them is counted in exactly one phase. *)
Theorem campaign_rollup_sums env ref prs r : campaign_rollup env ref prs = Ok r →
  Forall (λ p, total_identity (r_cost p.1)) prs → N.of_nat (length prs) ≤ u64_max →
  let c := cr_cost r in
  total_identity c ∧
  t_tokens (c_total c) = line (λ c, t_tokens (c_total c)) prs ∧ t_cost (c_total c) = line (λ c, t_cost (c_total c)) prs ∧
  k_cost (c_work c) = line (λ c, k_cost (c_work c)) prs ∧
  w_cost_usd_micros (c_waste c) = line (λ c, w_cost_usd_micros (c_waste c)) prs ∧
  cr_pr_ids r = (λ p, r_pr_id p.1) <$> prs ∧
  p_landed (cr_progress r) = in_phase PhaseLanded prs ∧ p_in_flight (cr_progress r) = in_phase PhaseInFlight prs ∧
  p_blocked (cr_progress r) = in_phase PhaseBlocked prs ∧
  p_landed (cr_progress r) + p_in_flight (cr_progress r) + p_blocked (cr_progress r) = N.of_nat (length prs).
Proof.
  intros Hr Hid Hlen. unfold campaign_rollup in Hr. destruct (ensure_altitude env Campaign); [|done]. cbn [mbind result_bind] in Hr.
  destruct (ensure_top_level env); [|done]. cbn [mbind result_bind] in Hr.
  destruct (sum_prs Sums_start prs) as [s|] eqn:Hs; [|done]. cbn [mbind result_bind] in Hr.
  destruct (decompose _ _ _ _ _) as [c|] eqn:Hd; [|done]. cbn [mbind result_bind] in Hr. injection Hr as <-. cbv zeta.
  cbn [cr_cost cr_pr_ids cr_progress]. apply decompose_ok in Hd as ((Ht & Hm) & Hw & Ho & Hv & Hci & Hx).
  pose proof (in_phase_length PhaseLanded prs). pose proof (in_phase_length PhaseInFlight prs). pose proof (in_phase_length PhaseBlocked prs).
  apply sum_prs_ok in Hs as (?&?&?&?&?&?&?&?&?&Hids&Hl&Hf&Hb); [|simpl; lia..]. simpl in *.
  assert (line (λ c, t_tokens (c_total c)) prs = line (λ c, k_tokens (c_work c)) prs + line (λ c, o_tokens (c_orchestration c)) prs
    + line (λ c, f_tokens (c_verification c)) prs ∧
    line (λ c, t_cost (c_total c)) prs = line (λ c, k_cost (c_work c)) prs + line (λ c, o_cost_usd_micros (c_orchestration c)) prs
    + line (λ c, f_cost (c_verification c)) prs + line (λ c, ci_cost (c_ci c)) prs) as [-> ->].
  { clear -Hid. unfold line. induction Hid as [|p l [Htk Htm] Hl IH]; [done|]. simpl. rewrite Htk, Htm. lia. }
  assert (in_phase PhaseLanded prs + in_phase PhaseInFlight prs + in_phase PhaseBlocked prs = N.of_nat (length prs)) as Hph.
  { clear. unfold in_phase. induction prs as [|[pr []] prs IH]; [done|..]; simpl; lia. }
  unfold total_identity. rewrite Hw, Ho, Hv, Hci, Hx in *. rewrite Hids, Hl, Hf, Hb. split_and!; try done; lia.
Qed.

Module RollupExample.

Definition attempt (alt : Altitude) (id run : string) (born n : N) : ContextEnvelope := {|
  schema_version := CONTEXT_ENVELOPE_SCHEMA_VERSION; altitude := alt; Envelope.intent_id := id; commit := ""; tree_hash := "";
  authorship := {| model := "m"; model_digest := ""; agent_type := "main";
    spawn := {| run_id := run; parent_run_id := None; born_at := born; died_at := born + 5 |}; operator := "user:o" |};
  charter := ""; Envelope.campaign := None; constraints := []; acceptance := []; parent_intents := [];
  trajectory := {| raw_transcript_ref := None; task_transcript_ref := None; summary := None; journal_ref := None; redaction_policy := "" |};
  snapshot := {| files_read := []; prompt_ref := None; env_manifest := "" |};
  metrics := {| tokens := {| input := n; Price.output := 0; cache_read := 0; cache_write := 0; total := n |}; wall_ms := 5; active_ms := 5;
    tool_calls := 1; tool_breakdown := []; model_turns := 1; cost_usd_micros := 10 * n |};
  verdicts_ref := None |}.

Definition pr : ContextEnvelope := attempt Pr "pr-1" "r0" 0 7.
Definition retried : list ContextEnvelope :=
  [attempt Intent "i1" "r1" 1 100; attempt Intent "i2" "r2" 2 30; attempt Intent "i1" "r3" 3 50].
Definition no_ci : CiCost := {| cache_hit := 0; ci_exec := 0; ci_cost := 3; ci_saved := 0 |}.
Definition no_queue : PrQueueInput := {| queue_wait_ms := 0; q_human_touches := 0; q_landed_at := 0 |}.
Definition recorded (landed : list string) : result RollupError PrRecord := pr_record pr "ref" retried landed [] no_ci no_queue.

(** The second attempt of [i1] is work, its first and the discarded [i2] are
    waste. *)
Example split_of_spend : (λ r, (k_tokens (c_work (r_cost r)), tokens_not_landed (c_waste (r_cost r)), t_tokens (c_total (r_cost r)))) <$> recorded ["i1"]
  = Ok (50, 130, 57).
Proof. vm_compute. reflexivity. Qed.

Definition the_record : PrRecord := match recorded ["i1"] with Ok r => r | Err _ => {|
  r_pr_id := ""; r_author := {| pa_kind := AuthorHuman; pa_model := None; pa_run_id := None; pa_principal := None |}; r_intent_ids := [];
  r_intent_count := 0; r_agent_count := 0; r_models := []; r_envelope_ref := ""; r_cost := {| c_work := no_work;
    c_orchestration := s_orch Sums_start; c_verification := s_verif Sums_start; c_ci := no_ci; c_waste := no_waste;
    c_total := {| t_tokens := 0; t_cost := 0 |} |};
  r_time := {| pt_wall_span := 0; pt_agent_sum := 0; pt_queue_wait := 0; human_touches := 0; landed_at := 0 |};
  r_efficiency := {| overhead_pct := f64_zero; cache_savings_pct := f64_zero; first_pass_yield := f64_zero; cost_per_net_kloc := f64_zero |} |} end.
Lemma recorded_ok : recorded ["i1"] = Ok the_record.
Proof. vm_compute. reflexivity. Qed.

Lemma pr_record_accounts_witness :
  k_tokens (c_work (r_cost the_record)) + tokens_not_landed (c_waste (r_cost the_record)) = sum_of tok retried.
Proof. exact (proj1 (pr_record_accounts pr "ref" retried ["i1"] [] no_ci no_queue the_record recorded_ok)). Defined.

Lemma pr_record_total_witness : ∃ r, recorded ["i1"] = Ok r.
Proof. apply pr_record_total; [reflexivity|repeat constructor|split; reflexivity|by_decision..]. Defined.

Lemma final_attempt_order_witness :
  [attempt Intent "i1" "r1" 1 100; attempt Intent "i1" "r3" 3 50] !! 1%nat =
  [attempt Intent "i1" "r3" 3 50; attempt Intent "i1" "r1" 1 100] !! 0%nat.
Proof.
  apply (final_attempt_order [attempt Intent "i1" "r1" 1 100; attempt Intent "i1" "r3" 3 50]
    [attempt Intent "i1" "r3" 3 50; attempt Intent "i1" "r1" 1 100]); [apply perm_swap|by_decision].
Defined.

Definition campaign_env : ContextEnvelope := attempt Campaign "c" "r9" 0 1.
Lemma campaign_rollup_sums_witness : ∃ r, campaign_rollup campaign_env "ref" [(the_record, PhaseInFlight)] = Ok r ∧
  p_landed (cr_progress r) + p_in_flight (cr_progress r) + p_blocked (cr_progress r) = 1.
Proof.
  destruct (campaign_rollup campaign_env "ref" [(the_record, PhaseInFlight)]) as [r|] eqn:Hr; [|by vm_compute in Hr].
  exists r. split; [done|].
  destruct (campaign_rollup_sums _ _ _ _ Hr) as (_ & _ & _ & _ & _ & _ & _ & _ & _ & Hn); [|done|exact Hn].
  constructor; [split; vm_compute; reflexivity|constructor].
Defined.

(** A landed id that is named twice is counted twice among the intents and once in
    the work. *)
Example landed_twice : (λ r, (r_intent_count r, k_tokens (c_work (r_cost r)))) <$> recorded ["i1"; "i1"] = Ok (2, 50).
Proof. vm_compute. reflexivity. Qed.
End RollupExample.
