(* ===== verification/Push.v ===== *)
(** The git write path: raw pushes as external changes, and their total order.
    [crates/hugit-proto/src/write/{mod,external,order,flag}.rs].

    The payload is written by the code's own encoder ([json_str]); what the JSON
    library reads from it are the laws of [JsonTextLaws].  The writer's mutex
    makes every push atomic, so concurrent pushes are the sequences of pushes in
    the order they take it ([push_all]); a poisoned mutex is recovered, so it
    changes nothing.

    The theorems: a push lands exactly when its expectation still holds, and
    then moves that ref and nothing else; the pushes that land on a ref form a
    chain in which each expected what the one before it wrote. *)

From S2P Require Import Prelude Json JsonCodec Crypto Log Tamper Replay.

(** * The encoder *)

Definition quote : ascii := ascii_of_nat 34.
Definition backslash : ascii := ascii_of_nat 92.
Definition hex_digit (n : N) : ascii := ascii_of_N (if n <? 10 then 48 + n else 87 + n).

(** Characters from 0x80 up are several bytes, all of them copied. *)
Definition escape_char (c : ascii) : string :=
  let n := N_of_ascii c in
  if n =? 34 then String backslash (String quote "")
  else if n =? 92 then String backslash (String backslash "")
  else if n =? 10 then String backslash "n"
  else if n =? 13 then String backslash "r"
  else if n =? 9 then String backslash "t"
  else if n <? 32 then
    String backslash ("u00" +:+ String (hex_digit (n / 16)) (String (hex_digit (n mod 16)) ""))
  else String c "".
Fixpoint escape (s : string) : string :=
  match s with
  | EmptyString => EmptyString
  | String c s => escape_char c +:+ escape s
  end.
Definition json_str (s : string) : string := String quote (escape s +:+ String quote "").

(** The two shapes of text the write path builds with [format!]. *)
Definition update_text (name target : string) : string :=
  "{" +:+ json_str "ref" +:+ ":" +:+ json_str name +:+ "," +:+ json_str "target" +:+ ":" +:+
    json_str target +:+ "}".
Definition delete_text (name : string) : string :=
  "{" +:+ json_str "ref" +:+ ":" +:+ json_str name +:+ "}".

(** The JSON library reads the encoded members back. *)
Class JsonTextLaws `{SerdeJson} := {
  from_str_update : ∀ n t,
    from_str (update_text n t) = Some (json_object [("ref", Str n); ("target", Str t)]);
  from_str_delete : ∀ n, from_str (delete_text n) = Some (json_object [("ref", Str n)]);
}.

(** * The alpha gate *)

Record FlagGate := { self_hosted_alpha : bool }.
Inductive WritePathDisabled := Disabled.
Definition FlagGate_new : FlagGate := {| self_hosted_alpha := false |}.
Definition FlagGate_self_hosted_alpha : FlagGate := {| self_hosted_alpha := true |}.
Definition write_path_enabled (g : FlagGate) : bool := self_hosted_alpha g.
Definition admit_write (g : FlagGate) : result WritePathDisabled unit :=
  if write_path_enabled g then Ok tt else Err Disabled.

(** * External changes *)

Definition REF_UPDATE_KIND : string := "ref.update".
Definition REF_DELETE_KIND : string := "ref.delete".

Inductive RawPush :=
| UpdatePush (ref_name target : string)
| DeletePush (ref_name : string).

Definition push_ref (p : RawPush) : string :=
  match p with UpdatePush n _ | DeletePush n => n end.
Definition push_kind (p : RawPush) : string :=
  match p with UpdatePush _ _ => REF_UPDATE_KIND | DeletePush _ => REF_DELETE_KIND end.
Definition external_kind (p : RawPush) : ExternalChangeKind :=
  match p with UpdatePush _ _ => RefUpdate | DeletePush _ => RefDelete end.
Definition push_payload (p : RawPush) : string :=
  match p with UpdatePush n t => update_text n t | DeletePush n => delete_text n end.

Record Attribution := {
  who : list string;
  at_ : N;
  which_ref : string;
  change_kind : string;
}.
Definition is_attributed (a : Attribution) : bool := bool_decide (who a ≠ []).

Inductive ExternalChangeError := MissingAttribution.

Definition record_external_change `{Crypto} (log : EventLog) (push : RawPush)
    (principal_chain : list string) (recorded_at : N)
    : EventLog * result ExternalChangeError (EventRecord * Attribution) :=
  if decide (principal_chain = []) then (log, Err MissingAttribution)
  else
    let '(log, record) :=
      append_external_change log (external_kind push) principal_chain (push_payload push) recorded_at in
    (log, Ok (record, {| who := Log.principal_chain record; at_ := Log.recorded_at record;
                         which_ref := push_ref push; change_kind := kind record |})).

(** * Ordered pushes *)

Record RefUpdate := {
  update_ref : string;
  expected : option string;
  update_target : string;
  update_chain : list string;
  update_at : N;
}.
Record StaleRef := { stale_ref : string; stale_expected : option string; stale_actual : option string }.

Inductive PushReject := PushMissingAttribution.
Inductive PushOutcome :=
| Landed (record : EventRecord) (attribution : Attribution) (landed_seq : N)
| Stale (s : StaleRef)
| Rejected (r : PushReject).

Definition outcome_seq (o : PushOutcome) : option N :=
  match o with Landed _ _ s => Some s | _ => None end.

(** [SerializedWriter::push]; [None] is the panic of its [expect]. *)
Definition push `{Crypto} `{SerdeJson} (log : EventLog) (u : RefUpdate)
    : option (EventLog * PushOutcome) :=
  if decide (update_chain u = []) then Some (log, Rejected PushMissingAttribution)
  else match replay log with
  | Err _ => None
  | Ok state =>
      let actual := ref_get state (update_ref u) in
      if decide (actual ≠ expected u) then
        Some (log, Stale {| stale_ref := update_ref u; stale_expected := expected u;
                            stale_actual := actual |})
      else
        match record_external_change log (UpdatePush (update_ref u) (update_target u))
                (update_chain u) (update_at u) with
        | (log, Ok (record, attribution)) => Some (log, Landed record attribution (seq record))
        | (log, Err MissingAttribution) => Some (log, Rejected PushMissingAttribution)
        end
  end.

Definition ref_view `{Crypto} `{SerdeJson} (log : EventLog) : option RefState :=
  match replay log with Ok st => Some st | Err _ => None end.

Fixpoint push_all `{Crypto} `{SerdeJson} (log : EventLog) (us : list RefUpdate)
    : option (EventLog * list PushOutcome) :=
  match us with
  | [] => Some (log, [])
  | u :: us =>
      '(log, o) ← push log u;
      '(log, os) ← push_all log us;
      Some (log, o :: os)
  end.

(** * What a push does *)

Section Pushes.
Context `{Crypto} `{SerdeJson} `{!JsonTextLaws}.

(** The record an accepted external change appends. *)
Lemma record_external_change_ok log p pc t log' r a :
  record_external_change log p pc t = (log', Ok (r, a)) →
  log' = (append log (push_kind p) pc (push_payload p) t).1 ∧
  r = (append log (push_kind p) pc (push_payload p) t).2 ∧
  a = {| who := pc; at_ := t; which_ref := push_ref p; change_kind := push_kind p |}.
Proof.
  unfold record_external_change, append_external_change. case_decide; [done|].
  assert (as_kind (external_kind p) = push_kind p) as -> by by destruct p.
  simpl. intros ?. by inv_eqs.
Qed.

(** A raw push projects to the move it asks for, and to nothing else. *)
Lemma push_effect log p pc t :
  effect (append log (push_kind p) pc (push_payload p) t).2 =
    match p with UpdatePush n v => SetRef n v | DeletePush n => DelRef n end.
Proof.
  unfold effect. destruct p as [n v|n]; simpl.
  - by rewrite from_str_update.
  - by rewrite from_str_delete.
Qed.

(** A log that is intact and projects. *)
Definition serves (log : EventLog) (st : RefState) : Prop :=
  intact (records log) ∧ replay_unchecked (records log) = Ok st.

Lemma serves_replay log st : serves log st → replay log = Ok st.
Proof. intros [[Hv _] Hr]. unfold replay. by rewrite Hv. Qed.

Lemma serves_append log st k pc p t :
  k ≠ PROVENANCE_REDACTION_KIND → serves log st →
  effect (append log k pc p t).2 ≠ BadInstruction →
  serves (append log k pc p t).1
    {| refs := apply_effect (effect (append log k pc p t).2) (refs st) |}.
Proof.
  intros Hk [Hi Hr] He. split; [by apply intact_append|].
  rewrite append_records, replay_unchecked_snoc, Hr. simpl. rewrite replay_step_effect.
  by destruct (effect _).
Qed.

Lemma push_outcome log st u :
  serves log st →
  ∃ log' o, push log u = Some (log', o) ∧
    match o with
    | Rejected _ => update_chain u = [] ∧ log' = log
    | Stale s =>
        update_chain u ≠ [] ∧ ref_get st (update_ref u) ≠ expected u ∧ log' = log ∧
        s = {| stale_ref := update_ref u; stale_expected := expected u;
               stale_actual := ref_get st (update_ref u) |}
    | Landed r a n =>
        update_chain u ≠ [] ∧ ref_get st (update_ref u) = expected u ∧
        records log' = records log ++ [r] ∧ n = N.of_nat (log_len log) ∧ seq r = n ∧
        kind r = "ref.update" ∧ who a = update_chain u ∧ which_ref a = update_ref u ∧
        serves log' {| refs := <[update_ref u := update_target u]> (refs st) |}
    end.
Proof.
  intros Hs. unfold push. case_decide as Hc; [by do 2 eexists|].
  rewrite (serves_replay _ _ Hs). cbv zeta.
  destruct (decide (ref_get st (update_ref u) = expected u)) as [He|He];
    [rewrite decide_False by (by intros [])|rewrite decide_True by done; by do 2 eexists].
  unfold record_external_change. rewrite decide_False by done. simpl. do 2 eexists. split; [done|].
  split_and!; [done..|].
  pose proof (push_effect log (UpdatePush (update_ref u) (update_target u)) (update_chain u) (update_at u))
    as Heff.
  pose proof (serves_append log st REF_UPDATE_KIND (update_chain u)
    (update_text (update_ref u) (update_target u)) (update_at u)) as Ha.
  simpl in Heff, Ha. rewrite Heff in Ha. by apply Ha.
Qed.

(** Compare and append: on a log that projects, a push is refused without
    attribution, refused as stale exactly when the ref is not where the pusher
    expects it, and otherwise lands as the next record, moving its ref and no
    other; refusals change nothing and the writer never panics. *)
Theorem push_compare_and_append log st u :
  serves log st →
  ∃ log' o, push log u = Some (log', o) ∧
    match o with
    | Rejected _ => update_chain u = [] ∧ log' = log
    | Stale s =>
        update_chain u ≠ [] ∧ ref_get st (update_ref u) ≠ expected u ∧ log' = log ∧
        s = {| stale_ref := update_ref u; stale_expected := expected u;
               stale_actual := ref_get st (update_ref u) |}
    | Landed r a n =>
        update_chain u ≠ [] ∧ ref_get st (update_ref u) = expected u ∧
        records log' = records log ++ [r] ∧ n = N.of_nat (log_len log) ∧ seq r = n ∧
        kind r = "ref.update" ∧ who a = update_chain u ∧ which_ref a = update_ref u ∧
        serves log' {| refs := <[update_ref u := update_target u]> (refs st) |}
    end.
Proof. apply push_outcome. Qed.

(** ** No lost update *)

(** The updates that landed on a ref, in order. *)
Fixpoint landed_on (n : string) (us : list RefUpdate) (os : list PushOutcome) : list RefUpdate :=
  match us, os with
  | u :: us, Landed _ _ _ :: os =>
      if decide (update_ref u = n) then u :: landed_on n us os else landed_on n us os
  | _ :: us, _ :: os => landed_on n us os
  | _, _ => []
  end.
(** Each expected what the one before it wrote. *)
Fixpoint chained (v : option string) (us : list RefUpdate) : Prop :=
  match us with
  | [] => True
  | u :: us => expected u = v ∧ chained (Some (update_target u)) us
  end.
Definition final_value (v : option string) (us : list RefUpdate) : option string :=
  match last us with Some u => Some (update_target u) | None => v end.

Lemma final_value_cons v u us : final_value v (u :: us) = final_value (Some (update_target u)) us.
Proof. unfold final_value. rewrite last_cons. by destruct (last us). Qed.

(** One push, as a step of the chains. *)
Lemma push_step log st u :
  serves log st →
  ∃ log' o st', push log u = Some (log', o) ∧ serves log' st' ∧
    match o with
    | Landed _ _ n =>
        n = N.of_nat (log_len log) ∧ log_len log' = S (log_len log) ∧
        expected u = ref_get st (update_ref u) ∧
        ∀ m, ref_get st' m = if decide (update_ref u = m) then Some (update_target u) else ref_get st m
    | _ => log' = log ∧ st' = st
    end.
Proof.
  intros Hs. destruct (push_outcome log st u Hs) as (log' & o & Hp & Ho).
  destruct o as [r a n|s|r].
  - destruct Ho as (_ & He & Hr & Hn & _ & _ & _ & _ & Hs').
    exists log', (Landed r a n), {| refs := <[update_ref u := update_target u]> (refs st) |}.
    split_and!; [done|exact Hs'|done| |done|].
    + unfold log_len. rewrite Hr, length_app. simpl. lia.
    + intros m. unfold ref_get. simpl. case_decide; [subst; by rewrite lookup_insert_eq|].
      by rewrite lookup_insert_ne.
  - destruct Ho as (_ & _ & -> & _). by exists log, (Stale s), st.
  - destruct Ho as (_ & ->). by exists log, (Rejected r), st.
Qed.

(** C10. Concurrent pushes, in the order the writer takes them: none of them panics,
    each landing has its own position, in increasing order, and on every ref the
    landed pushes form a chain from its initial value to its final one, so none
    of them overwrites a value its pusher had not seen. *)
Theorem pushes_never_lost log st us :
  serves log st →
  ∃ log' os st' k, push_all log us = Some (log', os) ∧ serves log' st' ∧ length os = length us ∧
    log_len log' = (log_len log + k)%nat ∧
    omap outcome_seq os = N.of_nat <$> List.seq (log_len log) k ∧
    ∀ n, chained (ref_get st n) (landed_on n us os) ∧
         ref_get st' n = final_value (ref_get st n) (landed_on n us os).
Proof.
  revert log st. induction us as [|u us IH]; intros log st Hs; simpl.
  { exists log, [], st, 0%nat. split_and!; [done|done|done|lia|done|done]. }
  destruct (push_step log st u Hs) as (log1 & o & st1 & -> & Hs1 & Ho). simpl.
  destruct (IH log1 st1 Hs1) as (log' & os & st' & k & -> & Hs' & Hlen & Hk & Hseq & Hn). simpl.
  destruct o as [r a m|s|r].
  - destruct Ho as (-> & Hl & He & Hst). rewrite Hl in Hk, Hseq.
    exists log', (Landed r a (N.of_nat (log_len log)) :: os), st', (S k).
    split_and!; [done|done|simpl; lia|lia|simpl; f_equal; exact Hseq|].
    intros n. simpl. specialize (Hn n). rewrite Hst in Hn. case_decide as Hu; [|done].
    subst n. rewrite final_value_cons. simpl. by destruct Hn.
  - destruct Ho as [-> ->]. exists log', (Stale s :: os), st', k. by split_and!; simpl; [..|lia|lia| |].
  - destruct Ho as [-> ->]. exists log', (Rejected r :: os), st', k.
    by split_and!; simpl; [..|lia|lia| |].
Qed.
End Pushes.

(** * A concrete library that reads both its own text and the encoder's *)

Module TextCodec.
Definition unhex (c : ascii) : N :=
  let n := N_of_ascii c in if n <? 58 then n - 48 else n - 87.
Definition unescaped (d : ascii) : ascii :=
  if decide (d = "n"%char) then ascii_of_nat 10
  else if decide (d = "r"%char) then ascii_of_nat 13
  else if decide (d = "t"%char) then ascii_of_nat 9
  else d.

(** The characters up to the closing quote, and what follows it. *)
Fixpoint unescape (s : string) : option (string * string) :=
  match s with
  | EmptyString => None
  | String c s1 =>
      if decide (c = quote) then Some (EmptyString, s1)
      else if decide (c = backslash) then
        match s1 with
        | String d s2 =>
            if decide (d = "u"%char) then
              match s2 with
              | String _ (String _ (String h (String l s3))) =>
                  '(t, r) ← unescape s3;
                  Some (String (ascii_of_N (unhex h * 16 + unhex l)) t, r)
              | _ => None
              end
            else '(t, r) ← unescape s2; Some (String (unescaped d) t, r)
        | EmptyString => None
        end
      else '(t, r) ← unescape s1; Some (String c t, r)
  end.

Lemma unescape_char c s :
  unescape (escape_char c +:+ s) = '(t, r) ← unescape s; Some (String c t, r).
Proof. by destruct c as [[] [] [] [] [] [] [] []]. Qed.

Lemma app_string_assoc a b c : (a +:+ b) +:+ c = a +:+ (b +:+ c).
Proof.
  induction a as [|x a IH]; [done|].
  change (String x ((a +:+ b) +:+ c) = String x (a +:+ (b +:+ c))). by rewrite IH.
Qed.

Lemma json_str_app s rest : json_str s +:+ rest = String quote (escape s +:+ String quote rest).
Proof.
  unfold json_str.
  change (String quote ((escape s +:+ String quote "") +:+ rest) = String quote (escape s +:+ String quote rest)).
  by rewrite app_string_assoc.
Qed.

Lemma unescape_escape s rest : unescape (escape s +:+ String quote rest) = Some (s, rest).
Proof.
  induction s as [|c s IH]; [done|]. cbn [escape].
  by rewrite app_string_assoc, unescape_char, IH.
Qed.

Definition parse_text (s : string) : option Value :=
  s ← strip_prefix ("{" +:+ json_str "ref" +:+ ":" +:+ String quote "") s;
  '(n, s) ← unescape s;
  if decide (s = "}") then Some (json_object [("ref", Str n)])
  else
    s ← strip_prefix ("," +:+ json_str "target" +:+ ":" +:+ String quote "") s;
    '(t, s) ← unescape s;
    if decide (s = "}") then Some (json_object [("ref", Str n); ("target", Str t)]) else None.

(** Its own text is marked. *)
Definition from_str (s : string) : option Value :=
  match s with
  | String "J" s => Codec.from_str s
  | s => parse_text s
  end.
#[export] Instance text_codec : SerdeJson := {|
  Json.from_str := from_str; Json.to_string := λ v, String "J" (Codec.to_string v)
|}.
#[export] Instance text_codec_laws : SerdeJsonLaws.
Proof. constructor. intros v Hv. by apply Codec.from_str_to_string. Qed.
#[export] Instance text_codec_text : JsonTextLaws.
Proof.
  constructor.
  - intros n t.
    change (parse_text (update_text n t) = Some (json_object [("ref", Str n); ("target", Str t)])).
    unfold parse_text.
    assert (strip_prefix ("{" +:+ json_str "ref" +:+ ":" +:+ String quote "") (update_text n t) =
      Some (escape n +:+ String quote ("," +:+ json_str "target" +:+ ":" +:+ json_str t +:+ "}"))) as ->.
    { apply strip_prefix_Some. unfold update_text. rewrite !app_string_assoc, (json_str_app n). done. }
    cbn [mbind option_bind]. rewrite unescape_escape. cbn [mbind option_bind].
    rewrite decide_False by done.
    assert (strip_prefix ("," +:+ json_str "target" +:+ ":" +:+ String quote "")
      ("," +:+ json_str "target" +:+ ":" +:+ json_str t +:+ "}") =
      Some (escape t +:+ String quote "}")) as ->.
    { apply strip_prefix_Some. rewrite !app_string_assoc, (json_str_app t). done. }
    cbn [mbind option_bind]. rewrite unescape_escape. done.
  - intros n. change (parse_text (delete_text n) = Some (json_object [("ref", Str n)])).
    unfold parse_text.
    assert (strip_prefix ("{" +:+ json_str "ref" +:+ ":" +:+ String quote "") (delete_text n) =
      Some (escape n +:+ String quote "}")) as ->.
    { apply strip_prefix_Some. unfold delete_text. rewrite !app_string_assoc, (json_str_app n). done. }
    cbn [mbind option_bind]. rewrite unescape_escape. done.
Qed.
End TextCodec.

Module PushExample.
#[local] Existing Instance Toy.toy.
#[local] Existing Instance TextCodec.text_codec.
#[local] Existing Instance TextCodec.text_codec_text.

Definition update (ref : string) (from : option string) (to who : string) : RefUpdate :=
  {| update_ref := ref; expected := from; update_target := to; update_chain := [who]; update_at := 1 |}.
(** Two pushers race on one ref, a third is on another. *)
Definition race : list RefUpdate :=
  [update "refs/heads/main" None "aa" "user:a"; update "refs/heads/main" None "bb" "user:b";
   update "refs/heads/x" None "cc" "user:c"; update "refs/heads/main" (Some "aa") "dd" "user:b"].

Lemma serves_empty : serves EventLog_new RefState_new.
Proof. split; [|done]. split; [done|]. intros s Hs. by destruct Hs. Qed.

Lemma push_compare_and_append_witness :
  ∃ log' o, push EventLog_new (update "refs/heads/main" (Some "zz") "aa" "user:a") = Some (log', o) ∧
    log' = EventLog_new.
Proof.
  destruct (push_compare_and_append EventLog_new RefState_new
    (update "refs/heads/main" (Some "zz") "aa" "user:a") serves_empty) as (log' & o & Hp & Ho).
  exists log', o. split; [exact Hp|]. destruct o as [r a n|s|r].
  - destruct Ho as (_ & He & _). discriminate He.
  - apply Ho.
  - apply Ho.
Defined.

Lemma pushes_never_lost_witness :
  ∃ log' os st' k, push_all EventLog_new race = Some (log', os) ∧ serves log' st' ∧ k = 3%nat ∧
    omap outcome_seq os = [0; 1; 2] ∧ ref_get st' "refs/heads/main" = Some "dd".
Proof.
  destruct (pushes_never_lost EventLog_new RefState_new race serves_empty)
    as (log' & os & st' & k & Hp & Hs & Hl & Hk & Hseq & Hn).
  exists log', os, st', k.
  assert (omap outcome_seq os = [0; 1; 2]) as H3.
  { revert Hp. vm_compute. by intros [= <- <-]. }
  split_and!; [exact Hp|exact Hs| |exact H3|].
  - rewrite H3 in Hseq. apply (f_equal length) in Hseq. rewrite length_fmap, length_seq in Hseq.
    simpl in Hseq. by rewrite Hseq.
  - destruct (Hn "refs/heads/main") as [_ ->]. clear Hn. revert Hp. vm_compute. by intros [= <- <-].
Defined.
End PushExample.
