(* ===== verification/Sync.v ===== *)
(** Forge-arbitrated synchronisation with GitHub:
    [crates/hugit-mirror/src/{refops,divergence}/mod.rs] and
    [crates/hugit-mirror/src/sync/{engine,reflect}.rs].

    The forge is the event log; its refs are the projection.  Every operation of
    the engine is a function on its state; the debug-only assertions are absent,
    as in a release build.  Errors carry the underlying error where the code
    carries its text.

    The theorems: whatever the engine is asked to do, the forge log stays intact
    and projects, the forge stays the authority for the protected branch, and
    that branch only ever holds what an authorized landing (or an outbound
    mirroring of that very branch) wrote; converging is quiet the second time; a
    reflect pass stays within its bound and never emits over a tip it does not
    know. *)

From S2P Require Import Prelude Json JsonCodec Crypto Log Authz Tamper Replay Push.

(** * Ref tips *)

Inductive RefOp :=
| OpUpdate (ref_name new_tip : string) (force : bool)
| OpDelete (ref_name : string)
| OpTagCreate (ref_name tip : string).

Record RefTips := { tips : gmap string string }.
#[global] Instance RefTips_eq_dec : EqDecision RefTips.
Proof. solve_decision. Defined.
Definition RefTips_new : RefTips := {| tips := ∅ |}.
Definition tips_set (t : RefTips) (name tip : string) : RefTips := {| tips := <[name := tip]> (tips t) |}.
Definition tips_remove (t : RefTips) (name : string) : RefTips := {| tips := delete name (tips t) |}.
Definition tips_contains (t : RefTips) (name : string) : bool := bool_decide (is_Some (tips t !! name)).
Definition tips_get (t : RefTips) (name : string) : option string := tips t !! name.

Definition apply (t : RefTips) (op : RefOp) : RefTips :=
  match op with
  | OpUpdate n tip _ => tips_set t n tip
  | OpTagCreate n tip => tips_set t n tip
  | OpDelete n => tips_remove t n
  end.
Definition apply_all (t : RefTips) (ops : list RefOp) : RefTips := foldl apply t ops.

(** [keys] of a [BTreeMap]. *)
Definition names (t : RefTips) : list string := merge_sort String.le (map_to_list (tips t)).*1.

Definition diff_ref_tips (forge mirror : RefTips) : list string :=
  let changed := filter (λ n, tips_get mirror n ≠ tips_get forge n) (names forge) in
  let extra := filter (λ n, tips_contains forge n = false) (names mirror) in
  dedup (merge_sort String.le (changed ++ extra)).
Definition tips_in_sync (forge mirror : RefTips) : bool := bool_decide (diff_ref_tips forge mirror = []).

(** * Divergence *)

Inductive MutationOrigin := Unobserved | ForgeSide | MirrorSide.
#[global] Instance MutationOrigin_eq_dec : EqDecision MutationOrigin.
Proof. solve_decision. Defined.

Record DivRefState := {
  div_ref : string;
  div_forge_tip : string;
  div_mirror_tip : string;
  undecidable : bool;
  origin : MutationOrigin;
}.
Definition with_observed_mutation (name forge mirror : string) (o : MutationOrigin) : DivRefState :=
  {| div_ref := name; div_forge_tip := forge; div_mirror_tip := mirror; undecidable := false; origin := o |}.

Inductive RefClass := Synced | Divergent | Degraded.
Definition is_divergent (c : RefClass) : bool := match c with Synced => false | _ => true end.
Definition classify_ref (s : DivRefState) : RefClass :=
  if undecidable s then Degraded
  else if decide (div_forge_tip s = div_mirror_tip s) then Synced else Divergent.

Inductive RepairStrategy := ForgeAuthoritative.
Inductive DivergenceReason := TipMismatch | DegradedReason.
Record Alarm := { alarm_ref : string; alarm_reason : DivergenceReason }.
Record Repair := { repair_ref : string; repair_tip : string; strategy : RepairStrategy }.
Record Incident := { incident_ref : string; detail : string; mirror_write : bool }.
Record DivergenceResolution := { alarm : Alarm; repair : Repair; incident : Incident }.

Definition reason_text (r : DivergenceReason) : string :=
  match r with
  | TipMismatch => "mirror tip differs from forge tip"
  | DegradedReason => "detector degraded (fail-closed to divergent)"
  end.

Definition resolve (s : DivRefState) : option DivergenceResolution :=
  let class := classify_ref s in
  if negb (is_divergent class) then None
  else
    let reason := match class with Degraded => DegradedReason | _ => TipMismatch end in
    Some {| alarm := {| alarm_ref := div_ref s; alarm_reason := reason |};
            repair := {| repair_ref := div_ref s; repair_tip := div_forge_tip s;
                         strategy := ForgeAuthoritative |};
            incident := {| incident_ref := div_ref s; detail := reason_text reason;
                           mirror_write := bool_decide (origin s = MirrorSide) |} |}.
Definition apply_repair (r : Repair) : string := repair_tip r.

(** * Reflecting *)

Record ReflectRef := {
  want_ref : string;
  want_tip : string;
  observed_github_tip : option string;
}.
Inductive RefReflect :=
| ReflectEmitted (ref_name tip : string)
| ReflectSkipped (ref_name : string)
| ReflectDeferred (ref_name : string).
Record ReflectHalt := { halt_ref : string; halt_forge_tip : string; halt_github_tip : string }.
Record ReflectReport := { results : list RefReflect; halted : option ReflectHalt }.
Definition is_emitted (r : RefReflect) : bool := match r with ReflectEmitted _ _ => true | _ => false end.
Definition emitted_in (rs : list RefReflect) : nat := length (filter (λ x, is_emitted x = true) rs).
#[global] Arguments emitted_in : simpl never.
Definition emitted_count (r : ReflectReport) : nat := emitted_in (results r).
Definition is_halted (r : ReflectReport) : bool := bool_decide (is_Some (halted r)).

(** * The engine *)

Definition INCIDENT_REF_PREFIX : string := "refs/hugit/incidents/".
Definition PROPOSED_REF_PREFIX : string := "refs/hugit/proposed/".
Definition incident_ref_name (branch github_tip : string) : string :=
  let leaf := default branch (strip_prefix "refs/heads/" branch) in
  INCIDENT_REF_PREFIX +:+ leaf +:+ "/" +:+ github_tip.
Definition proposed_ref_name (github_tip : string) : string :=
  PROPOSED_REF_PREFIX +:+ "main/" +:+ github_tip.

Inductive SyncError :=
| SyncMissingAttribution
| SyncReplay (e : ReplayError)
| LandDenied (reason : string).

Inductive AuthoritySide := Forge | GitHub.
#[global] Instance AuthoritySide_eq_dec : EqDecision AuthoritySide.
Proof. solve_decision. Defined.

Record AuthorityModel := {
  auth_protected : string;
  authority : gmap string AuthoritySide;
}.
Definition AuthorityModel_new (protected : string) : AuthorityModel :=
  {| auth_protected := protected; authority := {[ protected := Forge ]} |}.
Definition authority_for (a : AuthorityModel) (n : string) : AuthoritySide :=
  default Forge (authority a !! n).
Definition arbitrate (a : AuthorityModel) (n : string) : AuthorityModel :=
  {| auth_protected := auth_protected a; authority := <[n := Forge]> (authority a) |}.
Definition is_symmetric_for_main (a : AuthorityModel) : bool :=
  bool_decide (authority_for a (auth_protected a) = GitHub).

Record ProtectedReroute := { proposed_ref : string; attempted_tip : string }.
Inductive IngestOutcome :=
| BranchIngested (ref_name tip : string)
| Rerouted (r : ProtectedReroute).
Inductive ConvergeOutcome :=
| AlreadyConverged
| ConvergeEmitted (ref_name tip : string).
Record IncidentRef := { preserved_ref : string; preserved_tip : string }.

Record BidirSync := {
  sync_log : EventLog;
  protected : string;
  emitted_outbound : gmap string string;
  ingested_inbound : gmap string string;
  sync_authority : AuthorityModel;
}.

Definition with_protected (p : string) : BidirSync :=
  {| sync_log := EventLog_new; protected := p; emitted_outbound := ∅; ingested_inbound := ∅;
     sync_authority := AuthorityModel_new p |}.
Definition BidirSync_new : BidirSync := with_protected "refs/heads/main".

Definition set_log (l : EventLog) (s : BidirSync) : BidirSync :=
  {| sync_log := l; protected := protected s; emitted_outbound := emitted_outbound s;
     ingested_inbound := ingested_inbound s; sync_authority := sync_authority s |}.
Definition set_emitted (n tip : string) (s : BidirSync) : BidirSync :=
  {| sync_log := sync_log s; protected := protected s;
     emitted_outbound := <[n := tip]> (emitted_outbound s);
     ingested_inbound := ingested_inbound s; sync_authority := sync_authority s |}.
Definition set_ingested (n tip : string) (s : BidirSync) : BidirSync :=
  {| sync_log := sync_log s; protected := protected s; emitted_outbound := emitted_outbound s;
     ingested_inbound := <[n := tip]> (ingested_inbound s); sync_authority := sync_authority s |}.
Definition arbitrated (n : string) (s : BidirSync) : BidirSync :=
  {| sync_log := sync_log s; protected := protected s; emitted_outbound := emitted_outbound s;
     ingested_inbound := ingested_inbound s; sync_authority := arbitrate (sync_authority s) n |}.

Section Engine.
Context `{Crypto} `{SerdeJson}.

Definition verify_forge_chain (s : BidirSync) : result SyncError unit :=
  map_err (λ e, SyncReplay (ReplayTamper e)) (verify_chain (records (sync_log s))).
Definition forge_refs (s : BidirSync) : result SyncError RefState :=
  map_err SyncReplay (replay (sync_log s)).
Definition forge_tip (s : BidirSync) (n : string) : result SyncError (option string) :=
  st ← forge_refs s; Ok (ref_get st n).

Definition append_external_update (s : BidirSync) (n tip : string) (pc : list string) (t : N)
    : BidirSync * result SyncError unit :=
  match record_external_change (sync_log s) (UpdatePush n tip) pc t with
  | (log, Ok _) => (set_log log s, Ok tt)
  | (log, Err _) => (set_log log s, Err SyncMissingAttribution)
  end.

Definition ingest_github_push (s : BidirSync) (n tip : string) (pc : list string) (t : N)
    : BidirSync * result SyncError IngestOutcome :=
  if decide (pc = []) then (s, Err SyncMissingAttribution)
  else if decide (n = protected s) then
    let proposed := proposed_ref_name tip in
    match append_external_update s proposed tip pc t with
    | (s, Err e) => (s, Err e)
    | (s, Ok _) => (s, Ok (Rerouted {| proposed_ref := proposed; attempted_tip := tip |}))
    end
  else
    match append_external_update s n tip pc t with
    | (s, Err e) => (s, Err e)
    | (s, Ok _) => (set_ingested n tip s, Ok (BranchIngested n tip))
    end.
Definition ingest_github_branch := ingest_github_push.

Definition land_payload (s : BidirSync) (intent_id tip charter : string) : string :=
  let payload := to_string (json_object
    [("intent_id", Str intent_id); ("ref", Str (protected s)); ("target", Str tip);
     ("charter", Str charter)]) in
  default payload (canonical_json payload).

Definition land_via_queue (s : BidirSync) (intent_id tip charter : string) (pc : list string) (t : N)
    : BidirSync * result SyncError unit :=
  let canonical := land_payload s intent_id tip charter in
  let '(log, (decision, _)) := guard_authorize (sync_log s) pc Land t in
  let s := set_log log s in
  match decision with
  | Allow =>
      let class := default Worker (last pc ≫= classify) in
      match append_authorized (sync_log s) class Land INTENT_LANDED_KIND pc canonical t with
      | (log, Err denied) => (set_log log s, Err (LandDenied (reason_code (denied_reason denied))))
      | (log, Ok _) => let s := set_log log s in (arbitrated (protected s) s, Ok tt)
      end
  | Deny reason => (s, Err (LandDenied (reason_code reason)))
  end.

Definition mirror_out_forge_branch (s : BidirSync) (n tip : string) (pc : list string) (t : N)
    : BidirSync * result SyncError string :=
  match append_external_update s n tip pc t with
  | (s, Err e) => (s, Err e)
  | (s, Ok _) => (set_emitted n tip s, Ok tip)
  end.

Definition converge_outbound (s : BidirSync) (n : string) : BidirSync * result SyncError ConvergeOutcome :=
  match forge_tip s n with
  | Err e => (s, Err e)
  | Ok None => (s, Ok AlreadyConverged)
  | Ok (Some tip) =>
      if decide (emitted_outbound s !! n = Some tip) then (s, Ok AlreadyConverged)
      else (set_emitted n tip s, Ok (ConvergeEmitted n tip))
  end.

Definition converge_inbound (s : BidirSync) (n tip : string) (pc : list string) (t : N)
    : BidirSync * result SyncError ConvergeOutcome :=
  if decide (emitted_outbound s !! n = Some tip) then (s, Ok AlreadyConverged)
  else if decide (ingested_inbound s !! n = Some tip) then (s, Ok AlreadyConverged)
  else match ingest_github_branch s n tip pc t with
  | (s, Err e) => (s, Err e)
  | (s, Ok _) => (s, Ok (ConvergeEmitted n tip))
  end.

(** [None] is the panic of its [expect]. *)
Definition arbitrate_branch_divergence (s : BidirSync) (n ftip gtip : string) (pc : list string) (t : N)
    : option (BidirSync * result SyncError (DivergenceResolution * IncidentRef)) :=
  resolution ← resolve (with_observed_mutation n ftip gtip MirrorSide);
  let inc := {| preserved_ref := incident_ref_name n gtip; preserved_tip := gtip |} in
  match append_external_update s (preserved_ref inc) gtip pc t with
  | (s, Err e) => Some (s, Err e)
  | (s, Ok _) => Some (arbitrated n s, Ok (resolution, inc))
  end.
End Engine.

(** ** The bounded reflect pass *)

Definition last_emitted (s : BidirSync) (n : string) : option string := emitted_outbound s !! n.

(** The loop: the state, the halt so far and the number emitted so far. *)
Fixpoint reflect_pass (s : BidirSync) (halt : option ReflectHalt) (emitted bound : nat)
    (desired : list ReflectRef) : BidirSync * list RefReflect * option ReflectHalt :=
  match desired with
  | [] => (s, [], halt)
  | want :: desired =>
      let next s halt emitted r :=
        let '(s, rs, halt) := reflect_pass s halt emitted bound desired in (s, r :: rs, halt) in
      if bool_decide (is_Some halt) || (bound <=? emitted)%nat
      then next s halt emitted (ReflectDeferred (want_ref want))
      else
        let diverged :=
          gh ← observed_github_tip want;
          if decide (last_emitted s (want_ref want) ≠ Some gh ∧ gh ≠ want_tip want)
          then Some {| halt_ref := want_ref want; halt_forge_tip := want_tip want; halt_github_tip := gh |}
          else None in
        match diverged with
        | Some h => next s (Some h) emitted (ReflectDeferred (want_ref want))
        | None =>
            if decide (last_emitted s (want_ref want) = Some (want_tip want))
            then next s halt emitted (ReflectSkipped (want_ref want))
            else next (set_emitted (want_ref want) (want_tip want) s) halt (S emitted)
                   (ReflectEmitted (want_ref want) (want_tip want))
        end
  end.
Definition reflect_bounded (s : BidirSync) (desired : list ReflectRef) (bound : nat)
    : BidirSync * ReflectReport :=
  let '(s, rs, halt) := reflect_pass s None 0 bound desired in
  (s, {| results := rs; halted := halt |}).

Lemma reflect_pass_control s halt e bound desired :
  let '(s', _, _) := reflect_pass s halt e bound desired in
  sync_log s' = sync_log s ∧ protected s' = protected s ∧ sync_authority s' = sync_authority s ∧
  ingested_inbound s' = ingested_inbound s.
Proof.
  revert s halt e. induction desired as [|w desired IH]; intros s halt e; simpl; [done|].
  repeat case_match; simplify_eq;
    match goal with Hr : reflect_pass ?x ?y ?z _ _ = _ |- _ =>
      specialize (IH x y z); rewrite Hr in IH end; done.
Qed.

(** * The forge stays in charge *)

Inductive SyncOp :=
| IngestPush (n tip : string) (pc : list string) (t : N)
| LandOp (intent_id tip charter : string) (pc : list string) (t : N)
| MirrorOut (n tip : string) (pc : list string) (t : N)
| ConvergeOut (n : string)
| ConvergeIn (n tip : string) (pc : list string) (t : N)
| ArbitrateOp (n ftip gtip : string) (pc : list string) (t : N)
| ReflectOp (desired : list ReflectRef) (bound : nat).

Definition sync_step `{Crypto} `{SerdeJson} (s : BidirSync) (op : SyncOp) : option BidirSync :=
  match op with
  | IngestPush n tip pc t => Some (ingest_github_push s n tip pc t).1
  | LandOp id tip charter pc t => Some (land_via_queue s id tip charter pc t).1
  | MirrorOut n tip pc t => Some (mirror_out_forge_branch s n tip pc t).1
  | ConvergeOut n => Some (converge_outbound s n).1
  | ConvergeIn n tip pc t => Some (converge_inbound s n tip pc t).1
  | ArbitrateOp n f g pc t => fst <$> arbitrate_branch_divergence s n f g pc t
  | ReflectOp desired bound => Some (reflect_bounded s desired bound).1
  end.
Fixpoint sync_run `{Crypto} `{SerdeJson} (s : BidirSync) (ops : list SyncOp) : option BidirSync :=
  match ops with [] => Some s | op :: ops => s' ← sync_step s op; sync_run s' ops end.

(** Same bookkeeping apart from the log and the two memories. *)
Definition same_control (s s' : BidirSync) : Prop :=
  protected s' = protected s ∧ sync_authority s' = sync_authority s.

Section Invariant.
Context `{Crypto} `{!SerdeJson} `{!SerdeJsonLaws} `{!JsonTextLaws}.

Lemma external_update_spec s n tip pc t st :
  serves (sync_log s) st →
  let '(s', r) := append_external_update s n tip pc t in
  same_control s s' ∧
  ((pc = [] ∧ s' = s) ∨
   (pc ≠ [] ∧ r = Ok tt ∧ serves (sync_log s') {| refs := <[n := tip]> (refs st) |})).
Proof.
  intros Hs. unfold append_external_update, record_external_change.
  case_decide as Hp; simpl; [split; [done|]; left; by destruct s|]. split; [done|right].
  split_and!; [done|done|].
  pose proof (push_effect (sync_log s) (UpdatePush n tip) pc t) as Heff.
  pose proof (serves_append (sync_log s) st REF_UPDATE_KIND pc (update_text n tip) t) as Ha.
  simpl in Heff, Ha. rewrite Heff in Ha. by apply Ha.
Qed.

Lemma land_payload_parses s id tip charter :
  from_str (land_payload s id tip charter) = Some (json_object
    [("intent_id", Str id); ("ref", Str (protected s)); ("target", Str tip); ("charter", Str charter)]).
Proof.
  unfold land_payload, canonical_json. set (v := json_object _).
  rewrite from_str_to_string by done. change (from_str (to_string (canonicalize_value v)) = Some v).
  rewrite canonicalize_sorted_id by done. by apply from_str_to_string.
Qed.

Lemma land_via_queue_spec s id tip charter pc t st :
  serves (sync_log s) st →
  let '(s', r) := land_via_queue s id tip charter pc t in
  protected s' = protected s ∧
  (sync_authority s' = sync_authority s ∨
   sync_authority s' = arbitrate (sync_authority s) (protected s)) ∧
  ((¬ permitted pc Land ∧ serves (sync_log s') st) ∨
   (permitted pc Land ∧ r = Ok tt ∧
    serves (sync_log s') {| refs := <[protected s := tip]> (refs st) |})).
Proof.
  intros Hs. unfold land_via_queue, guard_authorize.
  destruct (authorize pc Land) as [|reason] eqn:Ea; simpl.
  - assert (permitted pc Land) as Hp by (by apply authorize_allow).
    pose proof Hp as (actor & class & Hl & Hc & ->). rewrite Hl. simpl. rewrite Hc. simpl.
    split_and!; [done|by right|]. right. split_and!; [done|done|].
    pose proof (serves_append (sync_log s) st INTENT_LANDED_KIND pc (land_payload s id tip charter) t)
      as Ha.
    assert (effect (append (sync_log s) INTENT_LANDED_KIND pc (land_payload s id tip charter) t).2
      = SetRef (protected s) tip) as Heff.
    { unfold effect. simpl. by rewrite land_payload_parses. }
    rewrite Heff in Ha. simpl in Ha. by apply Ha.
  - split_and!; [done|by left|]. left. split.
    + intros Hp%authorize_allow. congruence.
    + pose proof (serves_append (sync_log s) st AUTHZ_DENIED_KIND pc (denial_payload Land reason) t) as Ha.
      simpl in Ha. destruct st. by apply Ha.
Qed.

(** The tip of the protected branch after a step, by the step alone: an
    authorized landing sets it, and so does an attributed outbound mirroring of
    that very branch; nothing else does. *)
Definition protected_after (p : string) (v : option string) (op : SyncOp) : option string :=
  match op with
  | LandOp _ tip _ pc _ => match authorize pc Land with Allow => Some tip | Deny _ => v end
  | MirrorOut n tip pc _ => if decide (n = p ∧ pc ≠ []) then Some tip else v
  | _ => v
  end.

Lemma reserved_not_protected p rest : starts_with p "refs/hugit/" = false →
  "refs/hugit/" +:+ rest ≠ p.
Proof.
  intros Hp <-. assert (starts_with ("refs/hugit/" +:+ rest) "refs/hugit/" = true); [|congruence].
  apply starts_with_true. by exists rest.
Qed.

(** A step keeps the forge serving and the authority with the forge, and moves
    the protected branch as specified. *)
Definition step_ok (p : string) (op : SyncOp) (st : RefState) (s s' : BidirSync) : Prop :=
  protected s' = p ∧ (sync_authority s' = sync_authority s ∨
    ∃ n, sync_authority s' = arbitrate (sync_authority s) n) ∧
  ∃ st', serves (sync_log s') st' ∧ ref_get st' p = protected_after p (ref_get st p) op.

(** A step that appends one attributed update and keeps the rest. *)
Lemma step_ok_update p op st s s1 s' n tip (pc : list string) :
  same_control s s1 → protected s = p →
  (sync_authority s' = sync_authority s1 ∨ ∃ m, sync_authority s' = arbitrate (sync_authority s1) m) →
  protected s' = protected s1 → sync_log s' = sync_log s1 →
  serves (sync_log s) st →
  ((pc = [] ∧ s1 = s) ∨ (pc ≠ [] ∧ serves (sync_log s1) {| refs := <[n := tip]> (refs st) |})) →
  protected_after p (ref_get st p) op
    = (if decide (n = p ∧ pc ≠ []) then Some tip else ref_get st p) → step_ok p op st s s'.
Proof.
  intros [Hp Ha] <- Ha' Hp' Hl Hs Hcase Hw. split_and!; [congruence| |].
  - destruct Ha' as [->|[m ->]]; [by left|right]. exists m. congruence.
  - rewrite Hl, Hw. destruct Hcase as [[-> ->]|[Hpc Hs1]].
    { exists st. split; [done|]. by rewrite decide_False by naive_solver. }
    eexists. split; [exact Hs1|]. unfold ref_get. simpl. case_decide as Hd.
    + destruct Hd as [-> _]. by rewrite lookup_insert_eq.
    + by rewrite lookup_insert_ne by naive_solver.
Qed.

Lemma step_ok_quiet p op st s : protected s = p → serves (sync_log s) st →
  protected_after p (ref_get st p) op = ref_get st p → step_ok p op st s s.
Proof. intros Hp Hs Hq. split_and!; [done|by left|]. exists st. by rewrite Hq. Qed.

Lemma ingest_ok p op st s n tip pc t :
  starts_with p "refs/hugit/" = false → protected s = p → serves (sync_log s) st →
  (∀ v, protected_after p v op = v) →
  step_ok p op st s (ingest_github_push s n tip pc t).1.
Proof.
  intros Hres Hp Hs Hq. unfold ingest_github_push. case_decide; [by apply step_ok_quiet|].
  case_decide as Hn.
  - pose proof (external_update_spec s (proposed_ref_name tip) tip pc t st Hs) as Hu.
    destruct (append_external_update _ _ _ _ _) as [s1 [|]]; destruct Hu as [Hc Hu]; simpl;
      (eapply (step_ok_update p op st s s1 _ (proposed_ref_name tip) tip pc); [done|done|by left|done|done|done|naive_solver|]);
      rewrite Hq, decide_False; [done| |done|]; intros [Heq _]; by apply reserved_not_protected in Heq.
  - pose proof (external_update_spec s n tip pc t st Hs) as Hu.
    destruct (append_external_update _ _ _ _ _) as [s1 [|]]; destruct Hu as [Hc Hu]; simpl;
      (eapply (step_ok_update p op st s s1 _ n tip pc); [done|done|by left|done|done|done|naive_solver|]);
      rewrite Hq, decide_False; naive_solver.
Qed.

Lemma sync_step_ok s op s' st :
  starts_with (protected s) "refs/hugit/" = false → serves (sync_log s) st →
  sync_step s op = Some s' → step_ok (protected s) op st s s'.
Proof.
  intros Hres Hs. destruct op as [n tip pc t|id tip ch pc t|n tip pc t|n|n tip pc t|n f g pc t|d b]; simpl.
  - intros. inv_eqs. by apply ingest_ok.
  - intros. inv_eqs. pose proof (land_via_queue_spec s id tip ch pc t st Hs) as Hl.
    destruct (land_via_queue s id tip ch pc t) as [s1 r]. destruct Hl as (Hp & Ha & Hcase). simpl.
    split_and!; [done|naive_solver|]. simpl.
    rewrite <- authorize_allow in Hcase. destruct (authorize pc Land);
      destruct Hcase as [[Hperm Hs1]|(Hperm & _ & Hs1)]; try done; [|by exists st].
    eexists. split; [exact Hs1|]. unfold ref_get. simpl. by rewrite lookup_insert_eq.
  - intros. inv_eqs. unfold mirror_out_forge_branch.
    pose proof (external_update_spec s n tip pc t st Hs) as Hu.
    destruct (append_external_update _ _ _ _ _) as [s1 [|]]; destruct Hu as [Hc Hu]; simpl;
      (eapply (step_ok_update _ _ st s s1 _ n tip pc); [done|done|by left|done|done|done|naive_solver|done]).
  - intros. inv_eqs. unfold converge_outbound.
    destruct (forge_tip s n) as [[tip|]|]; [|by apply step_ok_quiet..].
    case_decide; [by apply step_ok_quiet|]. split_and!; [done|by left|]. by exists st.
  - intros. inv_eqs. unfold converge_inbound. repeat (case_decide; [by apply step_ok_quiet|]).
    pose proof (ingest_ok (protected s) (ConvergeIn n tip pc t) st s n tip pc t Hres eq_refl Hs) as Hi.
    unfold ingest_github_branch. destruct (ingest_github_push s n tip pc t) as [s1 [|]]; by apply Hi.
  - unfold arbitrate_branch_divergence. destruct (resolve _) as [res|]; simpl; [|done].
    pose proof (external_update_spec s (incident_ref_name n g) g pc t st Hs) as Hu.
    destruct (append_external_update _ _ _ _ _) as [s1 [|]]; destruct Hu as [Hc Hu]; simpl;
      intros [= <-]; (eapply (step_ok_update _ _ st s s1 _ (incident_ref_name n g) g pc); [done|done|simpl; eauto|done|done|done|naive_solver|]);
      simpl; rewrite decide_False; [done| |done|]; intros [Heq _]; by apply reserved_not_protected in Heq.
  - intros. inv_eqs. unfold reflect_bounded.
    pose proof (reflect_pass_control s None 0 b d) as Hr.
    destruct (reflect_pass s None 0 b d) as [[s1 rs] h]. destruct Hr as (Hl & Hp & Ha & _). simpl.
    split_and!; [done|by left|]. exists st. by rewrite Hl.
Qed.

(** The forge is the authority everywhere. *)
Definition forge_rules (a : AuthorityModel) : Prop := ∀ n, authority_for a n = Forge.
Lemma arbitrate_forge a n : forge_rules a → forge_rules (arbitrate a n).
Proof.
  intros Ha m. unfold authority_for, arbitrate. simpl. destruct (decide (n = m)) as [->|].
  - by rewrite lookup_insert_eq.
  - rewrite lookup_insert_ne by done. apply Ha.
Qed.
Lemma forge_rules_new p : forge_rules (AuthorityModel_new p).
Proof.
  intros m. unfold authority_for, AuthorityModel_new. simpl.
  destruct (decide (p = m)) as [->|]; [by rewrite lookup_singleton_eq|by rewrite lookup_singleton_ne].
Qed.

Lemma sync_run_ok p ops s st s' :
  starts_with p "refs/hugit/" = false → protected s = p → serves (sync_log s) st →
  forge_rules (sync_authority s) → sync_run s ops = Some s' →
  protected s' = p ∧ forge_rules (sync_authority s') ∧
  ∃ st', serves (sync_log s') st' ∧ ref_get st' p = foldl (protected_after p) (ref_get st p) ops.
Proof.
  intros Hres. revert s st. induction ops as [|op ops IH]; intros s st Hp Hs Ha Hrun; simpl in *.
  { inv_eqs. split_and!; [done|done|by exists st]. }
  destruct (sync_step s op) as [s1|] eqn:E; simpl in Hrun; [|done].
  rewrite <- Hp in Hres. destruct (sync_step_ok s op s1 st Hres Hs E) as (Hp1 & Ha1 & st1 & Hs1 & Hv).
  rewrite Hp in *. rewrite <- Hv. apply (IH s1); [done|done| |done].
  destruct Ha1 as [->|[n ->]]; [done|by apply arbitrate_forge].
Qed.

(** C9. Whatever sequence of pushes, landings, mirrorings, convergences,
    arbitrations and reflect passes the engine is taken through, the forge log
    verifies and projects, the forge is the authority for every ref and never
    symmetric for the protected branch, and the protected branch is exactly
    where the authorized landings (and any outbound mirroring of that very
    branch) put it: no push from GitHub and no arbitration ever moves it. *)
Theorem protected_only_by_landing p ops s :
  starts_with p "refs/hugit/" = false → sync_run (with_protected p) ops = Some s →
  verify_forge_chain s = Ok tt ∧ is_symmetric_for_main (sync_authority s) = false ∧
  (∀ n, authority_for (sync_authority s) n = Forge) ∧
  ∃ st, forge_refs s = Ok st ∧ ref_get st p = foldl (protected_after p) None ops.
Proof.
  intros Hres Hrun.
  destruct (sync_run_ok p ops (with_protected p) {| refs := ∅ |} s) as (Hp & Ha & st & Hs & Hv);
    [done|done|split; [apply intact_nil|done]|apply forge_rules_new|done|].
  split_and!.
  - unfold verify_forge_chain. destruct Hs as [[Hi _] _]. by rewrite Hi.
  - unfold is_symmetric_for_main. by rewrite Ha.
  - exact Ha.
  - exists st. split; [|exact Hv]. unfold forge_refs. by rewrite (serves_replay _ _ Hs).
Qed.
End Invariant.

(** * Converging is quiet *)

Section Converge.
Context `{Crypto} `{!SerdeJson}.

(** Once a branch has converged outbound, converging it again finds nothing to
    do, and the echo of the emitted tip coming back from GitHub is absorbed; a
    branch that was ingested absorbs the same push again.  None of these appends
    to the log or changes any other state. *)
Theorem converge_quiet s n :
  (∀ s1 out, converge_outbound s n = (s1, Ok out) →
    sync_log s1 = sync_log s ∧ converge_outbound s1 n = (s1, Ok AlreadyConverged) ∧
    ∀ m tip, out = ConvergeEmitted m tip →
      m = n ∧ forge_tip s n = Ok (Some tip) ∧
      ∀ pc t, converge_inbound s1 n tip pc t = (s1, Ok AlreadyConverged)) ∧
  (∀ tip pc t s1 out, n ≠ protected s → converge_inbound s n tip pc t = (s1, Ok out) →
    ∀ pc' t', converge_inbound s1 n tip pc' t' = (s1, Ok AlreadyConverged)).
Proof.
  split.
  - intros s1 out. unfold converge_outbound.
    destruct (forge_tip s n) as [[tip|]|e] eqn:Et; [case_decide as Hd| |done];
      intros [= <- <-]; rewrite ?Et.
    + by rewrite decide_True.
    + split_and!; [done| |].
      * change (forge_tip (set_emitted n tip s) n) with (forge_tip s n). rewrite Et.
        rewrite decide_True; [done|]. simpl. by rewrite lookup_insert_eq.
      * intros m tip' [= <- <-]. split_and!; [done|done|]. intros pc t. unfold converge_inbound.
        rewrite decide_True; [done|]. simpl. by rewrite lookup_insert_eq.
    + done.
  - intros tip pc t s1 out Hn. unfold converge_inbound.
    case_decide as H1; [intros [= <- <-] pc' t'; by rewrite decide_True|].
    case_decide as H2; [intros [= <- <-] pc' t'; rewrite decide_False by done; by rewrite decide_True|].
    unfold ingest_github_branch, ingest_github_push. case_decide; [done|]. rewrite decide_False by done.
    destruct (append_external_update s n tip pc t) as [s2 [|]] eqn:Eu; [|done].
    intros [= <- <-] pc' t'. case_decide; [done|]. rewrite decide_True; [done|].
    simpl. by rewrite lookup_insert_eq.
Qed.
End Converge.

(** * The bound of a reflect pass *)

(** The tips emitted once a result is in. *)
Definition emit (m : gmap string string) (r : RefReflect) : gmap string string :=
  match r with ReflectEmitted n tip => <[n := tip]> m | _ => m end.

(** What a result says of its ref, against the tips emitted before it. *)
Definition result_ok (m : gmap string string) (w : ReflectRef) (r : RefReflect) : Prop :=
  match r with
  | ReflectEmitted n tip =>
      n = want_ref w ∧ tip = want_tip w ∧ m !! n ≠ Some tip ∧
      ∀ gh, observed_github_tip w = Some gh → gh = tip ∨ m !! n = Some gh
  | ReflectSkipped n =>
      n = want_ref w ∧ m !! n = Some (want_tip w) ∧
      ∀ gh, observed_github_tip w = Some gh → gh = want_tip w
  | ReflectDeferred n => n = want_ref w
  end.
Fixpoint pass_ok (m : gmap string string) (desired : list ReflectRef) (rs : list RefReflect) : Prop :=
  match desired, rs with
  | [], [] => True
  | w :: desired, r :: rs => result_ok m w r ∧ pass_ok (emit m r) desired rs
  | _, _ => False
  end.
Definition deferred (r : RefReflect) : Prop := match r with ReflectDeferred _ => True | _ => False end.

(** A halt names the first ref that GitHub moved on its own, and everything from
    there on is deferred; with no halt, a ref is deferred only at the bound. *)
Definition halt_ok (m : gmap string string) (room : nat) (desired : list ReflectRef)
    (rs : list RefReflect) (halt : option ReflectHalt) : Prop :=
  match halt with
  | Some h =>
      ∃ before w after rs1 rs2, desired = before ++ w :: after ∧ rs = rs1 ++ rs2 ∧
        length rs1 = length before ∧ Forall (λ r, ¬ deferred r) rs1 ∧ Forall deferred rs2 ∧
        halt_ref h = want_ref w ∧ halt_forge_tip h = want_tip w ∧
        observed_github_tip w = Some (halt_github_tip h) ∧
        halt_github_tip h ≠ want_tip w ∧ foldl emit m rs1 !! want_ref w ≠ Some (halt_github_tip h)
  | None => Forall (λ r, ¬ deferred r) rs ∨ emitted_in rs = room
  end.

Lemma emitted_in_cons r rs : emitted_in (r :: rs) = ((if is_emitted r then 1 else 0) + emitted_in rs)%nat.
Proof. unfold emitted_in. rewrite filter_cons. by destruct (is_emitted r). Qed.

(** Halted, or at the bound, the rest is deferred. *)
Lemma reflect_pass_stopped s halt e bound desired :
  is_Some halt ∨ (bound ≤ e)%nat →
  reflect_pass s halt e bound desired = (s, ReflectDeferred ∘ want_ref <$> desired, halt).
Proof.
  intros Hstop. induction desired as [|w desired IH]; simpl; [done|].
  rewrite IH. destruct (bool_decide_reflect (is_Some halt)); simpl; [done|].
  destruct Hstop as [|Hle]; [done|]. by rewrite (proj2 (Nat.leb_le _ _) Hle).
Qed.

Lemma pass_ok_deferred m desired : pass_ok m desired (ReflectDeferred ∘ want_ref <$> desired).
Proof. induction desired; simpl; auto. Qed.
Lemma all_deferred desired : Forall deferred (ReflectDeferred ∘ want_ref <$> desired).
Proof. induction desired; constructor; simpl; auto. Qed.
Lemma deferred_emits_nothing m rs : Forall deferred rs →
  foldl emit m rs = m ∧ emitted_in rs = 0%nat.
Proof. induction 1 as [|r rs Hr _ [IH1 IH2]]; [done|]. rewrite emitted_in_cons. by destruct r. Qed.

Lemma halt_ok_cons m room desired rs halt w r :
  ¬ deferred r → ((if is_emitted r then 1 else 0) ≤ room)%nat →
  halt_ok (emit m r) (room - (if is_emitted r then 1 else 0)) desired rs halt →
  halt_ok m room (w :: desired) (r :: rs) halt.
Proof.
  intros Hr Hroom. unfold halt_ok. destruct halt as [h|].
  - intros (before & w' & after & rs1 & rs2 & -> & -> & Hl & H1 & H2 & Hh).
    exists (w :: before), w', after, (r :: rs1), rs2. split_and!; [done|done|simpl; lia|by constructor|done|
      apply Hh..].
  - intros [Hall|Hlen]; [left; by constructor|right]. rewrite emitted_in_cons. lia.
Qed.

Lemma reflect_pass_ok s e bound desired :
  (e ≤ bound)%nat →
  let '(s', rs, halt) := reflect_pass s None e bound desired in
  emitted_outbound s' = foldl emit (emitted_outbound s) rs ∧
  (e + emitted_in rs ≤ bound)%nat ∧
  pass_ok (emitted_outbound s) desired rs ∧
  halt_ok (emitted_outbound s) (bound - e) desired rs halt.
Proof.
  revert s e. induction desired as [|w desired IH]; intros s e He; simpl.
  { split_and!; [done|change (e + 0 ≤ bound)%nat; lia|done|by left]. }
  destruct (Nat.leb_spec bound e) as [Hb|Hb]; simpl.
  { rewrite reflect_pass_stopped by (by right). pose proof (all_deferred desired) as Hd.
    destruct (deferred_emits_nothing (emitted_outbound s) _ Hd) as [Hf Hl]. simpl.
    split_and!; [done|rewrite emitted_in_cons, Hl; simpl; lia|done|apply pass_ok_deferred|].
    right. rewrite emitted_in_cons, Hl. simpl. lia. }
  match goal with |- context [match ?d with Some h => _ | None => _ end] => destruct d as [h|] eqn:Ed end.
  { rewrite reflect_pass_stopped by (left; eauto). pose proof (all_deferred desired) as Hd.
    destruct (deferred_emits_nothing (emitted_outbound s) _ Hd) as [Hf Hl]. simpl.
    split_and!; [done|rewrite emitted_in_cons, Hl; simpl; lia|done|apply pass_ok_deferred|].
    destruct (observed_github_tip w) as [gh|] eqn:Eo; simpl in Ed; [|done]. case_decide as Hdv; [|done].
    injection Ed as <-.
    exists [], w, desired, [], (ReflectDeferred (want_ref w) :: (ReflectDeferred ∘ want_ref <$> desired)).
    destruct Hdv as [Hne Hg]. by split_and!; try done; constructor. }
  assert (∀ gh, observed_github_tip w = Some gh →
    gh = want_tip w ∨ emitted_outbound s !! want_ref w = Some gh) as Hg.
  { intros gh Hgh. rewrite Hgh in Ed. simpl in Ed. case_decide as Hd; [done|].
    destruct (decide (gh = want_tip w)); [by left|right]. apply dec_stable. naive_solver. }
  case_decide as Hl.
  - specialize (IH s e He). destruct (reflect_pass s None e bound desired) as [[s' rs] halt].
    destruct IH as (Hm & Hb' & Hp & Hh). split_and!; [done|by rewrite emitted_in_cons| |done|].
    + simpl. split_and!; [done|done|]. intros gh Hgh.
      destruct (Hg gh Hgh); [done|]. unfold last_emitted in Hl. congruence.
    + apply halt_ok_cons; [by intros []|simpl; lia|]. simpl. by rewrite Nat.sub_0_r.
  - specialize (IH (set_emitted (want_ref w) (want_tip w) s) (S e) ltac:(lia)).
    destruct (reflect_pass _ None (S e) bound desired) as [[s' rs] halt].
    destruct IH as (Hm & Hb' & Hp & Hh). split_and!; [done|rewrite emitted_in_cons; simpl; lia|done|done|].
    apply halt_ok_cons; [by intros []|simpl; lia|]. simpl.
    by replace (bound - e - 1)%nat with (bound - S e)%nat by lia.
Qed.

(** A reflect pass emits at most its bound, answers every desired ref in order
    (emitted, skipped because GitHub already has it, or deferred), never emits
    over a GitHub tip that hugit did not put there itself, halts at the first
    ref that GitHub moved on its own with everything from there on deferred, and
    with no halt defers only when the bound is used up.  The emission memory
    ends up with exactly the emitted tips added; the log is untouched. *)
Theorem reflect_bounded_correct s desired bound :
  let '(s', report) := reflect_bounded s desired bound in
  (emitted_count report ≤ bound)%nat ∧
  pass_ok (emitted_outbound s) desired (results report) ∧
  halt_ok (emitted_outbound s) bound desired (results report) (halted report) ∧
  emitted_outbound s' = foldl emit (emitted_outbound s) (results report) ∧
  sync_log s' = sync_log s ∧ ingested_inbound s' = ingested_inbound s.
Proof.
  unfold reflect_bounded, emitted_count. pose proof (reflect_pass_ok s 0 bound desired) as Hr.
  pose proof (reflect_pass_control s None 0 bound desired) as Hc.
  destruct (reflect_pass s None 0 bound desired) as [[s' rs] halt]. simpl.
  destruct Hr as (Hm & Hb & Hp & Hh); [lia|]. rewrite Nat.sub_0_r in Hh. destruct Hc as (Hl & _ & _ & Hi).
  by split_and!.
Qed.

(** * The divergence diff is exact *)

Lemma elem_of_names t n : n ∈ names t ↔ is_Some (tips_get t n).
Proof.
  unfold names, tips_get. rewrite merge_sort_Permutation, list_elem_of_fmap. split.
  - intros ([m v] & -> & Hin). apply elem_of_map_to_list in Hin. by exists v.
  - intros [v Hv]. exists (n, v). split; [done|]. by apply elem_of_map_to_list.
Qed.

Lemma elem_of_diff f m n : n ∈ diff_ref_tips f m ↔ tips_get f n ≠ tips_get m n.
Proof.
  unfold diff_ref_tips. cbv zeta.
  rewrite elem_of_dedup, merge_sort_Permutation, elem_of_app, !list_elem_of_filter, !elem_of_names.
  unfold tips_contains. rewrite bool_decide_eq_false. fold (tips_get f n).
  destruct (tips_get f n) as [a|], (tips_get m n) as [b|]; split.
  all: try (intros [[Hne Hs]|[Hne Hs]]; congruence || (by destruct Hs) || (by apply Hne)).
  all: try naive_solver.
Qed.

(** The diff lists each name whose tips disagree, and no other, once and in
    order; so the two sides are in sync exactly when all their tips agree. *)
Theorem diff_ref_tips_exact forge mirror :
  (∀ n, n ∈ diff_ref_tips forge mirror ↔ tips_get forge n ≠ tips_get mirror n) ∧
  NoDup (diff_ref_tips forge mirror) ∧
  (tips_in_sync forge mirror = true ↔ tips forge = tips mirror).
Proof.
  split_and!.
  - apply elem_of_diff.
  - apply dedup_NoDup, (StronglySorted_merge_sort _).
  - unfold tips_in_sync. rewrite bool_decide_eq_true. split.
    + intros Hd. apply map_eq. intros n. apply dec_stable. intros Hne.
      apply (elem_of_diff forge mirror n) in Hne. rewrite Hd in Hne. by apply not_elem_of_nil in Hne.
    + intros Heq. destruct (diff_ref_tips forge mirror) as [|n l] eqn:E; [done|].
      assert (tips_get forge n ≠ tips_get mirror n) as Hne
        by (apply elem_of_diff; rewrite E; apply list_elem_of_here).
      unfold tips_get in Hne. by rewrite Heq in Hne.
Qed.

Module SyncExample.
#[local] Existing Instance Toy.toy.
#[local] Existing Instance TextCodec.text_codec.
#[local] Existing Instance TextCodec.text_codec_laws.
#[local] Existing Instance TextCodec.text_codec_text.

Definition main : string := "refs/heads/main".
(** A GitHub push to main, an authorized and a refused landing, a branch push, a
    divergence on the branch, and a reflect pass. *)
Definition session : list SyncOp :=
  [IngestPush main "g1" ["user:eve"] 1; LandOp "i1" "f1" "c" ["orchestrator:q"] 2;
   LandOp "i2" "f2" "c" ["worker:w"] 3; IngestPush "refs/heads/x" "g2" ["user:eve"] 4;
   ArbitrateOp "refs/heads/x" "f3" "g3" ["user:eve"] 5; ConvergeOut main;
   ReflectOp [{| want_ref := main; want_tip := "f1"; observed_github_tip := Some "f1" |}] 1].

Lemma session_runs : is_Some (sync_run (with_protected main) session).
Proof. apply (bool_decide_eq_true_1 _). by vm_compute. Qed.

Lemma protected_only_by_landing_witness :
  ∃ s st, sync_run (with_protected main) session = Some s ∧ verify_forge_chain s = Ok tt ∧
    forge_refs s = Ok st ∧ ref_get st main = Some "f1".
Proof.
  destruct session_runs as [s Hs]. exists s.
  destruct (protected_only_by_landing main session s) as (Hv & _ & _ & st & Hst & Hm);
    [reflexivity|exact Hs|]. exists st. split_and!; [exact Hs|exact Hv|exact Hst|].
  rewrite Hm. reflexivity.
Defined.

Definition tip_of (s : BidirSync) (n : string) : option string :=
  match forge_tip s n with Ok v => v | Err _ => None end.

(** In a release build an outbound mirroring of the protected branch itself
    moves it, by a worker too: only a debug assertion stands in the way. *)
Example mirror_out_moves_main :
  tip_of (mirror_out_forge_branch (with_protected main) main "w1" ["worker:w"] 1).1 main = Some "w1".
Proof. by vm_compute. Qed.

(** The same push to the protected branch is taken in again on every delivery:
    a reroute is not remembered. *)
Example reroute_is_repeated :
  let '(s1, r1) := converge_inbound (with_protected main) main "g1" ["user:eve"] 1 in
  let '(s2, r2) := converge_inbound s1 main "g1" ["user:eve"] 2 in
  r1 = Ok (ConvergeEmitted main "g1") ∧ r2 = Ok (ConvergeEmitted main "g1") ∧
  log_len (sync_log s2) = 2%nat.
Proof. by vm_compute. Qed.

(** What came in from GitHub goes back out once: the outbound side looks at its
    own memory only. *)
Example ingested_tip_echoes :
  let s := (converge_inbound (with_protected main) "refs/heads/x" "g1" ["user:eve"] 1).1 in
  (converge_outbound s "refs/heads/x").2 = Ok (ConvergeEmitted "refs/heads/x" "g1").
Proof. by vm_compute. Qed.

(** A branch the engine has just taken in. *)
Definition taken_in : BidirSync :=
  (mirror_out_forge_branch (with_protected main) "refs/heads/x" "f1" ["orchestrator:q"] 1).1.
Lemma converge_quiet_witness :
  converge_outbound taken_in "refs/heads/x" = (taken_in, Ok AlreadyConverged) ∧
  let '(s1, _) := converge_inbound taken_in "refs/heads/x" "g2" ["user:eve"] 2 in
  converge_inbound s1 "refs/heads/x" "g2" ["user:eve"] 3 = (s1, Ok AlreadyConverged).
Proof.
  assert (converge_outbound taken_in "refs/heads/x" = (taken_in, Ok AlreadyConverged)) as Ho
    by (vm_compute; reflexivity).
  split.
  - exact (proj1 (proj2 (proj1 (converge_quiet taken_in "refs/heads/x") _ _ Ho))).
  - destruct (converge_inbound taken_in "refs/heads/x" "g2" ["user:eve"] 2) as [s1 [out|e]] eqn:E.
    + apply (proj2 (converge_quiet taken_in "refs/heads/x") "g2" ["user:eve"] 2 s1 out);
        [discriminate|exact E].
    + exfalso. revert E. vm_compute. discriminate.
Defined.

Lemma reflect_halts :
  (reflect_bounded (with_protected main)
    [{| want_ref := "a"; want_tip := "1"; observed_github_tip := None |};
     {| want_ref := "b"; want_tip := "2"; observed_github_tip := Some "9" |};
     {| want_ref := "c"; want_tip := "3"; observed_github_tip := None |}] 5).2 =
  {| results := [ReflectEmitted "a" "1"; ReflectDeferred "b"; ReflectDeferred "c"];
     halted := Some {| halt_ref := "b"; halt_forge_tip := "2"; halt_github_tip := "9" |} |}.
Proof. reflexivity. Qed.
End SyncExample.
