(* ===== verification/Delta.v ===== *)
(** Git binary deltas: [apply_delta] and [decode_delta_size] of
    [crates/hugit-proto/src/write/receive/mod.rs].

    The code walks the delta with an index; here the part of the delta from that
    index on is passed along.  [usize] is 64 bits wide, so its conversions and
    additions of a 32-bit offset and a 24-bit length cannot fail.

    The theorems: what a delta resolves to is put together from slices of the
    base and literals of the delta, has the declared size and stays within the
    ceiling; a delta written from any such pieces resolves to them; the size
    header reads back every [u64], and silently drops the bits of a longer
    one. *)

From S2P Require Import Prelude.

(** * Errors *)

(** [ReceiveError] of the whole receive path. *)
Inductive ReceiveError :=
| RecvWritePathDisabled
| OversizedPack (len max : N)
| DecompressionBomb (detail : string)
| MalformedPack (detail : string)
| RefUpdateTampered (ref_name target : string)
| UnreachableTarget (ref_name target : string)
| CasLookupBudgetExceeded (max : N)
| RecvStaleRef (ref_name : string) (expected actual : option string)
| RecvMissingAttribution
| RecvIo (detail : string).
#[global] Instance ReceiveError_eq_dec : EqDecision ReceiveError.
Proof. solve_decision. Defined.

(** * The size header *)

(** [x << s] on [u64], for [s < 64]. *)
Definition u64_shl (x s : N) : N := N.shiftl x s mod 18446744073709551616.

(** The loop of [decode_delta_size]; [shift] reaches 64 after ten groups. *)
Fixpoint delta_size_loop (fuel : nat) (size shift : N) (consumed : nat) (d : list byte)
    : result ReceiveError (N * nat) :=
  match fuel with
  | O => Err (MalformedPack "delta size varint overflows u64")
  | S fuel =>
      match d with
      | [] => Err (MalformedPack "truncated delta size varint")
      | b :: d =>
          let b := Byte.to_N b in
          let size := N.lor size (u64_shl (N.land b 127) shift) in
          if N.land b 128 =? 0 then Ok (size, S consumed)
          else
            let shift := shift + 7 in
            if 64 <=? shift then Err (MalformedPack "delta size varint overflows u64")
            else delta_size_loop fuel size shift (S consumed) d
      end
  end.
Definition decode_delta_size (d : list byte) (start : nat) : result ReceiveError (N * nat) :=
  delta_size_loop 10 0 0 0 (drop start d).

(** * Instructions *)

Definition malformed {A} (detail : string) : result ReceiveError A := Err (MalformedPack detail).

(** The bytes of a copy's offset or length: byte [i] is there when bit
    [first + i] of the command is set. *)
Fixpoint copy_field (cmd first : N) (n : nat) (i : N) (acc : N) (truncated : string) (d : list byte)
    : result ReceiveError (N * list byte) :=
  match n with
  | O => Ok (acc, d)
  | S n =>
      if negb (N.land cmd (N.shiftl 1 (first + i)) =? 0) then
        match d with
        | [] => malformed truncated
        | b :: d =>
            copy_field cmd first n (i + 1) (N.lor acc (N.shiftl (Byte.to_N b) (8 * i))) truncated d
        end
      else copy_field cmd first n (i + 1) acc truncated d
  end.

(** [slice.get(start..start + len)]. *)
Definition sub_slice {A} (l : list A) (start len : N) : option (list A) :=
  if start + len <=? N.of_nat (length l)
  then Some (take (N.to_nat len) (drop (N.to_nat start) l)) else None.

(** One command: the bytes it produces, and the delta after it. *)
Definition delta_command (base : list byte) (cmd : N) (d : list byte)
    : result ReceiveError (list byte * list byte) :=
  if negb (N.land cmd 128 =? 0) then
    '(copy_offset, d) ← copy_field cmd 0 4 0 0 "truncated copy offset" d;
    '(copy_size, d) ← copy_field cmd 4 3 0 0 "truncated copy size" d;
    let copy_size := if copy_size =? 0 then 65536 else copy_size in
    slice ← ok_or (MalformedPack "copy runs off the base object") (sub_slice base copy_offset copy_size);
    Ok (slice, d)
  else if negb (cmd =? 0) then
    slice ← ok_or (MalformedPack "truncated insert literal") (sub_slice d 0 cmd);
    Ok (slice, drop (N.to_nat cmd) d)
  else malformed "reserved delta command code 0x00".

(** The command loop; every round takes a byte off the delta. *)
Fixpoint delta_loop (fuel : nat) (base : list byte) (target_size : N) (out d : list byte)
    : result ReceiveError (list byte) :=
  match d with
  | [] =>
      if negb (N.of_nat (length out) =? target_size)
      then malformed "delta produced fewer bytes than declared" else Ok out
  | cmd :: d =>
      match fuel with
      | O => malformed "out of fuel"
      | S fuel =>
          '(slice, d) ← delta_command base (Byte.to_N cmd) d;
          let out := out ++ slice in
          if target_size <? N.of_nat (length out)
          then malformed "delta produced more bytes than declared"
          else delta_loop fuel base target_size out d
      end
  end.

Definition apply_delta (base delta : list byte) (max_inflated : N) : result ReceiveError (list byte) :=
  '(declared_base, n1) ← decode_delta_size delta 0;
  if negb (declared_base =? N.of_nat (length base))
  then malformed "delta base size does not match the base object"
  else
    '(target_size, n2) ← decode_delta_size delta n1;
    if max_inflated <? target_size
    then Err (DecompressionBomb ("delta resolves to " +:+ decimal target_size +:+
           " bytes, exceeds ceiling " +:+ decimal max_inflated +:+ " bytes"))
    else
      let d := drop (n1 + n2) delta in
      delta_loop (length d) base target_size [] d.

(** * What a delta means *)

Inductive Piece :=
| CopyPiece (offset len : N)
| InsertPiece (bytes : list byte).

Definition piece_ok (base : list byte) (p : Piece) : Prop :=
  match p with
  | CopyPiece offset len =>
      offset < 2 ^ 32 ∧ 0 < len < 2 ^ 24 ∧ offset + len ≤ N.of_nat (length base)
  | InsertPiece bs => (0 < length bs ≤ 127)%nat
  end.
#[global] Instance piece_ok_dec base p : Decision (piece_ok base p).
Proof. destruct p; simpl; apply _. Defined.
Definition piece_bytes (base : list byte) (p : Piece) : list byte :=
  match p with
  | CopyPiece offset len => take (N.to_nat len) (drop (N.to_nat offset) base)
  | InsertPiece bs => bs
  end.
Definition pieces_bytes (base : list byte) (ps : list Piece) : list byte := ps ≫= piece_bytes base.

(** ** Writing deltas *)

Fixpoint encode_size (fuel : nat) (n : N) : list byte :=
  match fuel with
  | O => []
  | S fuel =>
      if n <? 128 then [byte_of_N n]
      else byte_of_N (n mod 128 + 128) :: encode_size fuel (n / 128)
  end.

(** The [i]-th byte of a number, little end first. *)
Definition le_byte (v : N) (i : N) : N := N.shiftr v (8 * i) mod 256.
Definition present (v i : N) : bool := negb (le_byte v i =? 0).
Definition le_bytes (n : nat) (v : N) : list byte :=
  (λ i, byte_of_N (le_byte v (N.of_nat i))) <$> filter (λ i, present v (N.of_nat i) = true) (List.seq 0 n).

Definition encode_piece (p : Piece) : list byte :=
  match p with
  | CopyPiece offset len =>
      Byte.of_bits (present offset 0, (present offset 1, (present offset 2, (present offset 3,
        (present len 0, (present len 1, (present len 2, true))))))) :: le_bytes 4 offset ++ le_bytes 3 len
  | InsertPiece bs => byte_of_N (N.of_nat (length bs)) :: bs
  end.
Definition encode_delta (base : list byte) (ps : list Piece) : list byte :=
  encode_size 10 (N.of_nat (length base)) ++
  encode_size 10 (N.of_nat (length (pieces_bytes base ps))) ++ (ps ≫= encode_piece).

(** ** The size header reads back *)

Lemma lor_shiftl_split n s k :
  N.lor (N.shiftl (n mod 2 ^ k) s) (N.shiftl (n / 2 ^ k) (s + k)) = N.shiftl n s.
Proof. by rewrite (N.add_comm s k), <- N.shiftl_shiftl, <- N.shiftl_lor, lor_shift_split. Qed.

Lemma u64_shl_small x s : x * 2 ^ s < 18446744073709551616 → u64_shl x s = N.shiftl x s.
Proof. intros. unfold u64_shl. rewrite N.shiftl_mul_pow2. by apply N.mod_small. Qed.

Lemma group_last n : n < 128 →
  N.land (Byte.to_N (byte_of_N n)) 127 = n ∧ N.land (Byte.to_N (byte_of_N n)) 128 = 0.
Proof.
  intros Hn. rewrite to_N_byte_of_N, (N.mod_small n 256) by lia.
  change 127 with (N.ones 7). rewrite N.land_ones, N.mod_small by done. split; [done|].
  apply N.bits_inj_0. intros j. rewrite N.land_spec. change 128 with (2 ^ 7).
  destruct (decide (j = 7)) as [->|]; [|rewrite N.pow2_bits_false by lia; apply andb_false_r].
  rewrite (N.bits_above_log2 n 7); [done|]. destruct (decide (n = 0)) as [->|]; [done|].
  apply N.log2_lt_pow2; [lia|done].
Qed.

Lemma group_more n :
  N.land (Byte.to_N (byte_of_N (n mod 128 + 128))) 127 = n mod 128 ∧
  N.land (Byte.to_N (byte_of_N (n mod 128 + 128))) 128 ≠ 0.
Proof.
  pose proof (N.mod_lt n 128 ltac:(done)) as Hlt. generalize dependent (n mod 128). clear n.
  intros n Hn. rewrite to_N_byte_of_N, (N.mod_small (n + 128) 256) by lia.
  change 127 with (N.ones 7). rewrite N.land_ones. change (2 ^ 7) with 128. split.
  - rewrite <- (N.mul_1_l 128) at 1. by rewrite N.Div0.mod_add, N.mod_small.
  - intros Hz. apply (f_equal (λ x, N.testbit x 7)) in Hz. rewrite N.land_spec in Hz.
    change (N.testbit 128 7) with true in Hz. rewrite andb_true_r in Hz. simpl in Hz.
    rewrite N.testbit_eqb in Hz. change (2 ^ 7) with 128 in Hz.
    rewrite <- (N.mul_1_l 128), N.div_add, (N.div_small n) in Hz by lia. done.
Qed.

Lemma delta_size_loop_encode fuel size shift consumed n rest :
  n * 2 ^ shift < 18446744073709551616 → n < 128 ^ N.of_nat fuel → shift + 7 * N.of_nat fuel ≤ 70 →
  (0 < fuel)%nat →
  delta_size_loop fuel size shift consumed (encode_size fuel n ++ rest) =
    Ok (N.lor size (N.shiftl n shift), (consumed + length (encode_size fuel n))%nat).
Proof.
  revert size shift consumed n. induction fuel as [|fuel IH]; intros size shift consumed n Hw Hn Hs Hf; [lia|].
  cbn [encode_size]. destruct (N.ltb_spec n 128) as [Hlt|Hge].
  - cbn [app delta_size_loop]. destruct (group_last n Hlt) as [-> ->].
    rewrite N.eqb_refl, u64_shl_small by done. simpl. do 2 f_equal. lia.
  - cbn [app delta_size_loop]. destruct (group_more n) as [-> Hne]. apply N.eqb_neq in Hne. rewrite Hne.
    assert (n / 128 * 2 ^ (shift + 7) < 18446744073709551616) as Hw'.
    { rewrite N.pow_add_r. change (2 ^ 7) with 128. pose proof (N.Div0.mul_div_le n 128). nia. }
    assert (n mod 128 * 2 ^ shift < 18446744073709551616) as Hm.
    { pose proof (N.Div0.mod_le n 128). nia. }
    rewrite u64_shl_small by done.
    assert (n / 128 < 128 ^ N.of_nat fuel) as Hn'.
    { rewrite Nat2N.inj_succ, N.pow_succ_r' in Hn. by apply N.Div0.div_lt_upper_bound. }
    assert (1 ≤ n / 128) as H1 by (apply N.div_le_lower_bound; lia).
    destruct fuel as [|fuel]; [simpl in Hn'; lia|].
    destruct (N.leb_spec 64 (shift + 7)) as [H64|H64].
    { assert (2 ^ 64 ≤ 2 ^ (shift + 7)) as Hp by (apply N.pow_le_mono_r; lia).
      change (2 ^ 64) with 18446744073709551616 in Hp. nia. }
    rewrite IH by (done || lia). cbn [length]. f_equal. f_equal; [|lia].
    rewrite <- N.lor_assoc. f_equal. change 128 with (2 ^ 7). apply lor_shiftl_split.
Qed.

(** Every [u64] reads back from its header. *)
Lemma decode_encode_size d n rest start :
  n ≤ u64_max → drop start d = encode_size 10 n ++ rest →
  decode_delta_size d start = Ok (n, length (encode_size 10 n)).
Proof.
  intros Hn Hd. unfold decode_delta_size. unfold u64_max in Hn. rewrite Hd, delta_size_loop_encode.
  - by rewrite N.lor_0_l, N.shiftl_0_r.
  - simpl. lia.
  - change (128 ^ N.of_nat 10) with 1180591620717411303424. lia.
  - simpl. lia.
  - lia.
Qed.

(** ** The fields of a copy read back *)

Lemma land_bit_test a k : negb (N.land a (N.shiftl 1 k) =? 0) = N.testbit a k.
Proof.
  rewrite N.shiftl_1_l. destruct (N.eqb_spec (N.land a (2 ^ k)) 0) as [Hz|Hnz]; simpl.
  - apply (f_equal (λ x, N.testbit x k)) in Hz. rewrite N.land_spec, N.pow2_bits_true, andb_true_r in Hz.
    by rewrite Hz, N.bits_0.
  - destruct (N.testbit a k) eqn:E; [done|]. exfalso. apply Hnz. apply N.bits_inj_0. intros j.
    rewrite N.land_spec. destruct (decide (j = k)) as [->|]; [by rewrite E|].
    rewrite N.pow2_bits_false by done. apply andb_false_r.
Qed.

Definition le_bytes_from (i n : nat) (v : N) : list byte :=
  (λ i, byte_of_N (le_byte v (N.of_nat i))) <$> filter (λ i, present v (N.of_nat i) = true) (List.seq i n).

Lemma le_byte_split v i n :
  let x := N.shiftr v (8 * i) mod 2 ^ (8 * N.of_nat (S n)) in
  x mod 2 ^ 8 = le_byte v i ∧ x / 2 ^ 8 = N.shiftr v (8 * (i + 1)) mod 2 ^ (8 * N.of_nat n).
Proof.
  cbv zeta. replace (8 * N.of_nat (S n)) with (8 + 8 * N.of_nat n) by lia. rewrite N.pow_add_r.
  rewrite N.Div0.mod_mul_r. split.
  - unfold le_byte. rewrite (N.mul_comm (2 ^ 8)), N.Div0.mod_add, N.Div0.mod_mod. done.
  - rewrite (N.mul_comm (2 ^ 8)), N.div_add by done.
    rewrite (N.div_small (_ mod 2 ^ 8)) by (by apply N.mod_lt). rewrite N.add_0_l.
    replace (8 * (i + 1)) with (8 * i + 8) by lia. by rewrite <- N.shiftr_shiftr, (N.shiftr_div_pow2 _ 8).
Qed.

Lemma copy_field_le cmd first n i acc msg v rest :
  (∀ j, (i ≤ j < i + n)%nat → N.testbit cmd (first + N.of_nat j) = present v (N.of_nat j)) →
  copy_field cmd first n (N.of_nat i) acc msg (le_bytes_from i n v ++ rest) =
    Ok (N.lor acc (N.shiftl (N.shiftr v (8 * N.of_nat i) mod 2 ^ (8 * N.of_nat n)) (8 * N.of_nat i)), rest).
Proof.
  revert i acc. induction n as [|n IH]; intros i acc Hbits.
  { cbn. by rewrite N.mod_1_r, N.shiftl_0_l, N.lor_0_r. }
  cbn [copy_field]. rewrite land_bit_test, Hbits by lia.
  destruct (le_byte_split v (N.of_nat i) n) as [Hlo Hhi].
  pose proof (lor_shiftl_split (N.shiftr v (8 * N.of_nat i) mod 2 ^ (8 * N.of_nat (S n))) (8 * N.of_nat i) 8) as Hsp.
  rewrite Hlo, Hhi in Hsp. rewrite <- Hsp.
  replace (8 * N.of_nat i + 8) with (8 * (N.of_nat i + 1)) by lia.
  replace (N.of_nat i + 1) with (N.of_nat (S i)) by lia.
  unfold le_bytes_from. cbn [List.seq]. rewrite filter_cons.
  destruct (present v (N.of_nat i)) eqn:Ep.
  - rewrite decide_True by done. cbn [fmap list_fmap app].
    rewrite to_N_byte_of_N. unfold le_byte at 1. rewrite N.Div0.mod_mod. fold (le_byte v (N.of_nat i)).
    rewrite N.lor_assoc. apply IH. intros j Hj. apply Hbits. lia.
  - rewrite decide_False by done.
    assert (le_byte v (N.of_nat i) = 0) as ->.
    { unfold present in Ep. apply negb_false_iff, N.eqb_eq in Ep. done. }
    rewrite N.shiftl_0_l, N.lor_0_l. apply IH. intros j Hj. apply Hbits. lia.
Qed.

Lemma copy_field_all cmd first n msg v rest :
  (∀ j, (j < n)%nat → N.testbit cmd (first + N.of_nat j) = present v (N.of_nat j)) →
  v < 2 ^ (8 * N.of_nat n) →
  copy_field cmd first n 0 0 msg (le_bytes n v ++ rest) = Ok (v, rest).
Proof.
  intros Hb Hv. change (copy_field cmd first n (N.of_nat 0) 0 msg (le_bytes_from 0 n v ++ rest) = Ok (v, rest)).
  rewrite copy_field_le by (intros; apply Hb; lia).
  change (8 * N.of_nat 0) with 0. by rewrite N.lor_0_l, N.shiftl_0_r, N.shiftr_0_r, N.mod_small.
Qed.

Lemma sub_slice_0 {A} (l rest : list A) : sub_slice (l ++ rest) 0 (N.of_nat (length l)) = Some l.
Proof.
  unfold sub_slice. rewrite length_app. rewrite (proj2 (N.leb_le _ _)) by lia.
  change (N.to_nat 0) with 0%nat. by rewrite drop_0, Nat2N.id, take_app_length.
Qed.

(** ** A command produces its piece *)

Lemma of_bits_testbit (bits : bool * (bool * (bool * (bool * (bool * (bool * (bool * bool))))))) j :
  (j < 8)%nat →
  N.testbit (Byte.to_N (Byte.of_bits bits)) (N.of_nat j) =
    let '(b0, (b1, (b2, (b3, (b4, (b5, (b6, b7))))))) := bits in nth j [b0; b1; b2; b3; b4; b5; b6; b7] false.
Proof.
  intros Hj. destruct bits as (b0 & b1 & b2 & b3 & b4 & b5 & b6 & b7).
  do 8 (destruct j as [|j]; [by destruct b0, b1, b2, b3, b4, b5, b6, b7|]). lia.
Qed.

Lemma delta_command_encode base p rest :
  piece_ok base p →
  ∃ cmd d, encode_piece p ++ rest = cmd :: d ∧
    delta_command base (Byte.to_N cmd) d = Ok (piece_bytes base p, rest).
Proof.
  destruct p as [off len|bs]; cbn [encode_piece piece_ok piece_bytes app].
  - intros (Ho & Hl & Hr). do 2 eexists. split; [done|]. unfold delta_command.
    set (cmd := Byte.to_N _).
    assert (negb (N.land cmd 128 =? 0) = true ∧
      (∀ j, (j < 4)%nat → N.testbit cmd (0 + N.of_nat j) = present off (N.of_nat j)) ∧
      (∀ j, (j < 3)%nat → N.testbit cmd (4 + N.of_nat j) = present len (N.of_nat j))) as (H7 & Hb1 & Hb2).
    { subst cmd. split_and!.
      - change 128 with (N.shiftl 1 (N.of_nat 7)). by rewrite land_bit_test, of_bits_testbit by lia.
      - intros j Hj. rewrite N.add_0_l, of_bits_testbit by lia.
        do 4 (destruct j as [|j]; [reflexivity|]). lia.
      - intros j Hj. change 4 with (N.of_nat 4). rewrite <- Nat2N.inj_add, of_bits_testbit by lia.
        do 3 (destruct j as [|j]; [reflexivity|]). lia. }
    rewrite H7, <- (assoc_L (++)), copy_field_all by done. cbn [mbind result_bind].
    rewrite copy_field_all by (done || lia). cbn [mbind result_bind].
    rewrite (proj2 (N.eqb_neq len 0)) by lia. unfold sub_slice.
    by rewrite (proj2 (N.leb_le _ _)) by done.
  - intros Hl. do 2 eexists. split; [done|]. unfold delta_command.
    rewrite to_N_byte_of_N, N.mod_small by lia.
    assert (N.land (N.of_nat (length bs)) 128 = 0) as ->.
    { destruct (group_last (N.of_nat (length bs))) as [_ Hz]; [lia|].
      by rewrite to_N_byte_of_N, N.mod_small in Hz by lia. }
    rewrite (proj2 (N.eqb_neq (N.of_nat (length bs)) 0)) by lia. cbn [negb N.eqb].
    rewrite sub_slice_0. cbn [ok_or mbind result_bind]. by rewrite Nat2N.id, drop_app_length.
Qed.

Lemma pieces_cons base p ps : pieces_bytes base (p :: ps) = piece_bytes base p ++ pieces_bytes base ps.
Proof. done. Qed.

Lemma delta_loop_encode fuel base target out ps :
  Forall (piece_ok base) ps → (length (ps ≫= encode_piece) ≤ fuel)%nat →
  N.of_nat (length (out ++ pieces_bytes base ps)) = target →
  delta_loop fuel base target out (ps ≫= encode_piece) = Ok (out ++ pieces_bytes base ps).
Proof.
  intros Hok. revert fuel out. induction Hok as [|p ps Hp _ IH]; intros fuel out Hfuel Hlen.
  { change (pieces_bytes base []) with (@nil byte) in *. rewrite app_nil_r in *.
    destruct fuel; simpl; by rewrite Hlen, N.eqb_refl. }
  rewrite bind_cons in *. rewrite pieces_cons, (assoc_L (++)) in *.
  destruct (delta_command_encode base p (ps ≫= encode_piece) Hp) as (cmd & d & He & Hc).
  rewrite length_app in Hfuel. rewrite He. destruct fuel as [|fuel]; [destruct p; simpl in Hfuel; lia|].
  cbn [delta_loop]. rewrite Hc. cbn [mbind result_bind].
  destruct (N.ltb_spec target (N.of_nat (length (out ++ piece_bytes base p)))) as [Hlt|_].
  { rewrite length_app in Hlen. lia. }
  apply IH; [|done]. destruct p; simpl in Hfuel; lia.
Qed.

(** ** Soundness *)

Lemma lt_pow2_shiftr a k : a < 2 ^ k ↔ N.shiftr a k = 0.
Proof.
  rewrite N.shiftr_div_pow2. split.
  - apply N.div_small.
  - apply N.div_small_iff. by apply N.pow_nonzero.
Qed.

Lemma copy_field_bound cmd first n i acc msg d v d' :
  acc < 2 ^ (8 * i) → copy_field cmd first n i acc msg d = Ok (v, d') →
  v < 2 ^ (8 * (i + N.of_nat n)) ∧ (length d' ≤ length d)%nat.
Proof.
  revert i acc d. induction n as [|n IH]; intros i acc d Hacc; cbn [copy_field].
  { intros [= <- <-]. by rewrite N.add_0_r. }
  assert (2 ^ (8 * i) ≤ 2 ^ (8 * (i + 1))) as Hmono by (apply N.pow_le_mono_r; lia).
  replace (i + N.of_nat (S n)) with (i + 1 + N.of_nat n) by lia.
  destruct (negb _).
  - destruct d as [|b d]; [done|]. intros He. apply IH in He as [? ?]; [split; [done|cbn [length]; lia]|].
    apply lt_pow2_shiftr. rewrite N.shiftr_lor. apply N.lor_eq_0_iff. split.
    + apply lt_pow2_shiftr. lia.
    + apply lt_pow2_shiftr. rewrite N.shiftl_mul_pow2, N.mul_add_distr_l, N.pow_add_r.
      change (2 ^ (8 * 1)) with 256. pose proof (Byte.to_N_bounded b). nia.
  - intros He. apply IH in He; [done|lia].
Qed.

Lemma sub_slice_Some {A} (l : list A) start len s :
  sub_slice l start len = Some s →
  start + len ≤ N.of_nat (length l) ∧ s = take (N.to_nat len) (drop (N.to_nat start) l).
Proof. unfold sub_slice. destruct (N.leb_spec (start + len) (N.of_nat (length l))); [|done]. by intros [= <-]. Qed.

Lemma delta_command_sound base cmd d s d' :
  cmd < 256 → delta_command base cmd d = Ok (s, d') →
  (length d' ≤ length d)%nat ∧ ∃ p, piece_ok base p ∧ s = piece_bytes base p.
Proof.
  intros Hcmd. unfold delta_command. destruct (N.eqb_spec (N.land cmd 128) 0) as [Hz|]; cbn [negb mbind result_bind].
  - destruct (N.eqb_spec cmd 0) as [|Hne]; cbn [negb mbind result_bind ok_or]; [done|].
    destruct (sub_slice d 0 cmd) as [sl|] eqn:Es; cbn [negb mbind result_bind ok_or]; [|done]. intros ?. inv_eqs.
    apply sub_slice_Some in Es as [Hle ->]. rewrite drop_0. split; [rewrite length_drop; lia|].
    exists (InsertPiece (take (N.to_nat cmd) d)). split; [|done]. simpl. rewrite length_take.
    assert (cmd < 128); [|lia]. destruct (N.lt_ge_cases cmd 128) as [|Hge]; [done|]. exfalso.
    apply (f_equal (λ x, N.testbit x 7)) in Hz. rewrite N.land_spec in Hz.
    change (N.testbit 128 7) with true in Hz. rewrite andb_true_r, N.testbit_eqb in Hz.
    change (2 ^ 7) with 128 in Hz. rewrite N.bits_0 in Hz. apply N.eqb_neq in Hz. apply Hz.
    assert (cmd / 128 = 1) as ->; [|done]. symmetry; apply (N.div_unique cmd 128 1 (cmd - 128)); lia.
  - destruct (copy_field cmd 0 4 0 0 "truncated copy offset" d) as [[off d1]|] eqn:E1; cbn [negb mbind result_bind ok_or]; [|done].
    destruct (copy_field cmd 4 3 0 0 "truncated copy size" d1) as [[len d2]|] eqn:E2; cbn [negb mbind result_bind ok_or]; [|done].
    apply copy_field_bound in E1 as [Ho Hd1]; [|done]. apply copy_field_bound in E2 as [Hl Hd2]; [|done].
    set (len' := if len =? 0 then 65536 else len).
    destruct (sub_slice base off len') as [sl|] eqn:Es; cbn [negb mbind result_bind ok_or]; [|done]. intros ?. inv_eqs.
    apply sub_slice_Some in Es as [Hle ->]. split; [lia|]. exists (CopyPiece off len'). split; [|done].
    split_and!; [exact Ho|..]; subst len'; destruct (N.eqb_spec len 0); try done; try lia.
Qed.

Lemma delta_loop_sound fuel base target out d res :
  delta_loop fuel base target out d = Ok res →
  N.of_nat (length res) = target ∧
  ∃ ps, Forall (piece_ok base) ps ∧ res = out ++ pieces_bytes base ps.
Proof.
  revert out d. induction fuel as [|fuel IH]; intros out [|cmd d]; simpl; try done.
  1-2: destruct (N.eqb_spec (N.of_nat (length out)) target); simpl; [|done]; intros [= <-];
    (split; [done|]); exists []; by rewrite app_nil_r.
  destruct (delta_command base (Byte.to_N cmd) d) as [[s d']|] eqn:E; simpl; [|done].
  apply delta_command_sound in E as (_ & p & Hp & ->); [|pose proof (Byte.to_N_bounded cmd); lia].
  destruct (_ <? _); [done|]. intros (Ht & ps & Hps & ->)%IH. split; [done|].
  exists (p :: ps). split; [by constructor|]. unfold pieces_bytes. simpl. by rewrite (assoc_L (++)).
Qed.

(** ** The fuel is enough *)

Definition ran_out {A} (r : result ReceiveError A) : Prop := r = malformed "out of fuel".

Lemma copy_field_fuel cmd first n i acc msg d :
  msg ≠ "out of fuel" → ¬ ran_out (copy_field cmd first n i acc msg d).
Proof.
  intros Hm. unfold ran_out, malformed. revert i acc d. induction n as [|n IH]; intros i acc d; simpl; [done|].
  destruct (negb _); [destruct d; [by intros [=]|]|]; apply IH.
Qed.

Lemma delta_command_fuel base cmd d : ¬ ran_out (delta_command base cmd d).
Proof.
  unfold ran_out, delta_command, malformed. destruct (negb _).
  - pose proof (copy_field_fuel cmd 0 4 0 0 "truncated copy offset" d ltac:(done)) as H1.
    destruct (copy_field cmd 0 4 _ _ _ d) as [[off d1]|e]; cbn [mbind result_bind];
      [|intros [= ->]; by apply H1].
    pose proof (copy_field_fuel cmd 4 3 0 0 "truncated copy size" d1 ltac:(done)) as H2.
    destruct (copy_field cmd 4 3 _ _ _ d1) as [[len d2]|e]; cbn [mbind result_bind]; [|intros [= ->]; by apply H2].
    by destruct (sub_slice _ _ _).
  - destruct (negb _); [|done]. by destruct (sub_slice _ _ _).
Qed.

Lemma delta_loop_fuel fuel base target out d :
  (length d ≤ fuel)%nat → ¬ ran_out (delta_loop fuel base target out d).
Proof.
  unfold ran_out, malformed. revert out d. induction fuel as [|fuel IH]; intros out [|cmd d] Hle; simpl in *;
    try (by destruct (negb _)); [lia|].
  pose proof (delta_command_fuel base (Byte.to_N cmd) d) as Hc. unfold ran_out, malformed in Hc.
  destruct (delta_command base (Byte.to_N cmd) d) as [[s d']|e] eqn:E; simpl; [|intros [= ->]; by apply Hc].
  apply delta_command_sound in E as (Hd & _); [|pose proof (Byte.to_N_bounded cmd); lia].
  destruct (_ <? _); [done|]. apply IH. lia.
Qed.

Lemma delta_size_fuel fuel size shift c d : ¬ ran_out (delta_size_loop fuel size shift c d).
Proof.
  unfold ran_out, malformed. revert size shift c d. induction fuel as [|fuel IH]; intros size shift c [|b d]; simpl; try done.
  destruct (_ =? 0); [done|]. destruct (_ <=? _); [done|]. apply IH.
Qed.

(** Whatever the delta, what it resolves to stays within the ceiling, and is put
    together from slices of the base and literals; a malformed delta is an error
    of the code, never a loop that does not end. *)
Theorem apply_delta_sound base delta max_inflated :
  match apply_delta base delta max_inflated with
  | Ok out =>
      N.of_nat (length out) ≤ max_inflated ∧
      ∃ ps, Forall (piece_ok base) ps ∧ out = pieces_bytes base ps
  | Err e => e ≠ MalformedPack "out of fuel"
  end.
Proof.
  unfold apply_delta, decode_delta_size.
  pose proof (delta_size_fuel 10 0 0 0 (drop 0 delta)) as Hf1.
  destruct (delta_size_loop 10 0 0 0 (drop 0 delta)) as [[nb n1]|e]; cbn [mbind result_bind];
    [|intros ->; by apply Hf1].
  destruct (negb _); [done|].
  pose proof (delta_size_fuel 10 0 0 0 (drop n1 delta)) as Hf2.
  destruct (delta_size_loop 10 0 0 0 (drop n1 delta)) as [[nt n2]|e]; cbn [mbind result_bind]; [|intros ->; by apply Hf2].
  destruct (N.ltb_spec max_inflated nt) as [|Hle]; [done|].
  pose proof (delta_loop_fuel _ base nt [] (drop (n1 + n2) delta) (le_n _)) as Hfl.
  destruct (delta_loop _ base nt [] (drop (n1 + n2) delta)) as [out|e] eqn:E; [|intros ->; by apply Hfl].
  apply delta_loop_sound in E as (Hlen & ps & Hps & ->). split; [lia|]. by exists ps.
Qed.

(** C31. Round trip: a delta written from pieces of the base and literals resolves to
    exactly those pieces, as long as the result fits the ceiling. *)
Theorem apply_delta_encode base ps max_inflated :
  Forall (piece_ok base) ps → N.of_nat (length base) ≤ u64_max →
  N.of_nat (length (pieces_bytes base ps)) ≤ max_inflated → max_inflated ≤ u64_max →
  apply_delta base (encode_delta base ps) max_inflated = Ok (pieces_bytes base ps).
Proof.
  intros Hok Hb Hp Hm. unfold apply_delta, encode_delta.
  set (s1 := encode_size 10 _). set (s2 := encode_size 10 _). set (body := ps ≫= _).
  rewrite (decode_encode_size _ (N.of_nat (length base)) (s2 ++ body) 0) by done. cbn [mbind result_bind].
  fold s1. rewrite N.eqb_refl. simpl negb. cbv iota.
  rewrite (decode_encode_size _ (N.of_nat (length (pieces_bytes base ps))) body);
    [|lia|by rewrite drop_app_length].
  cbn [mbind result_bind]. rewrite (proj2 (N.ltb_ge _ _)) by lia. cbv zeta. fold s2.
  rewrite (assoc_L (++)), <- length_app, drop_app_length. by apply delta_loop_encode.
Qed.

Module DeltaExample.
Definition base : list byte := as_bytes "hello, world".
Definition pieces : list Piece :=
  [CopyPiece 7 5; InsertPiece (as_bytes ", "); CopyPiece 0 5].

Lemma apply_delta_encode_witness :
  apply_delta base (encode_delta base pieces) 100 = Ok (as_bytes "world, hello").
Proof.
  apply (apply_delta_encode base pieces 100); [by_decision|vm_compute; discriminate..].
Defined.

(** The tenth group of a size header has one bit left; the others are dropped,
    so a header that overflows reads as a small size. *)
Example size_header_drops_bits :
  decode_delta_size (replicate 9 x80 ++ [x7e]) 0 = Ok (0, 10%nat).
Proof. by vm_compute. Qed.
End DeltaExample.
