(* ===== verification/Receive.v ===== *)
(** Receiving a push: [crates/hugit-proto/src/write/receive/mod.rs] and
    [crates/hugit-proto/src/write/store/mod.rs] (the deltas are in [Delta.v]).

    The pack engine, the object parsers, the object hash and zlib are external
    crates: they are the operations of the class [GitEngine].  The object store
    is the trait [Cas] of the source, a class here, with [InMemoryCas] as its
    instance.  Hash maps are finite maps; none of them is iterated.

    The theorems: an unpacked pack holds every entry of the pack, each under the
    hash of its own content, within the declared bounds; the reachability walk
    ends and decides whether everything below the target is delivered or stored;
    a received push keeps every stored object valid, moves its ref exactly when
    the expected tip still stands, and a refused one changes nothing. *)

From S2P Require Import Prelude Scan Json JsonCodec Crypto Log Tamper Replay Push Delta.

(** * The object store *)

Record CasObject := { cas_oid : string; cas_bytes : list byte }.

Class Cas (C : Type) := {
  cas_put : C → CasObject → C;
  cas_get : C → string → option (list byte);
}.
Definition cas_contains `{Cas C} (c : C) (oid : string) : bool := bool_decide (is_Some (cas_get c oid)).

(** Storage is idempotent on the object id. *)
Class CasLaws C `{Cas C} := {
  cas_get_put c o oid :
    cas_get (cas_put c o) oid =
      if decide (oid = cas_oid o) then Some (default (cas_bytes o) (cas_get c oid)) else cas_get c oid;
}.

Record InMemoryCas := { mem_objects : gmap string (list byte) }.
Definition InMemoryCas_new : InMemoryCas := {| mem_objects := ∅ |}.
Definition mem_put (c : InMemoryCas) (o : CasObject) : InMemoryCas :=
  match mem_objects c !! cas_oid o with
  | Some _ => c
  | None => {| mem_objects := <[cas_oid o := cas_bytes o]> (mem_objects c) |}
  end.
Definition mem_get (c : InMemoryCas) (oid : string) : option (list byte) := mem_objects c !! oid.
#[export] Instance in_memory_cas : Cas InMemoryCas := {| cas_put := mem_put; cas_get := mem_get |}.
#[export] Instance in_memory_cas_laws : CasLaws InMemoryCas.
Proof.
  constructor. intros c o oid. simpl. unfold mem_put, mem_get.
  destruct (mem_objects c !! cas_oid o) as [b|] eqn:E; case_decide as Hd; subst; simpl.
  - by rewrite E.
  - done.
  - by rewrite lookup_insert_eq, E.
  - by rewrite lookup_insert_ne.
Qed.

Definition store_objects `{Cas C} (c : C) (objects : list CasObject) : C := foldl cas_put c objects.

Definition raw_push_payload (ref_name target_oid : string) : string := update_text ref_name target_oid.
Definition record_ref_update `{Crypto} (log : EventLog) (principal_chain : list string)
    (ref_name target_oid : string) (recorded_at : N) : EventLog * EventRecord :=
  append_external_change log Log.RefUpdate principal_chain (raw_push_payload ref_name target_oid) recorded_at.
Definition record_ref_delete `{Crypto} (log : EventLog) (principal_chain : list string)
    (ref_name : string) (recorded_at : N) : EventLog * EventRecord :=
  append_external_change log RefDelete principal_chain (delete_text ref_name) recorded_at.

(** * The git engine *)

Inductive Kind := KCommit | KTree | KBlob | KTag.
#[global] Instance Kind_eq_dec : EqDecision Kind.
Proof. solve_decision. Defined.

(** A pack entry's header; the base of a reference delta is its hex id. *)
Inductive PackHeader :=
| BaseHeader (k : Kind)
| OfsDelta (base_distance : N)
| RefDelta (base_id : string).
Definition header_kind (h : PackHeader) : option Kind :=
  match h with BaseHeader k => Some k | _ => None end.

(** An entry as the pack iterator yields it. *)
Record InputEntry := {
  in_header : PackHeader;
  in_offset : N;
  decompressed_size : N;
  compressed : option (list byte);
}.
Record TreeEntry := { entry_is_commit : bool; entry_oid : string }.
Inductive ZlibFailure := WriteFailed (e : string) | FinishFailed (e : string).

Class GitEngine := {
  (** [BytesToEntriesIter] in verifying mode. *)
  pack_entries : list byte → result string (list (result string InputEntry));
  (** [gix_object::compute_hash], in hex. *)
  compute_hash : Kind → list byte → result string string;
  loose_header : Kind → N → list byte;
  commit_tree_id : list byte → option string;
  commit_parent_ids : list byte → list string;
  tree_entries : list byte → option (list TreeEntry);
  tag_target_id : list byte → option string;
  (** [ZlibDecoder::read_to_end] and [ZlibEncoder::{write_all, finish}]. *)
  zlib_inflate : list byte → result string (list byte);
  zlib_deflate : list byte → result ZlibFailure (list byte);
}.

(** * Loose objects *)

Definition kind_token (k : Kind) : list byte :=
  as_bytes match k with KBlob => "blob" | KTree => "tree" | KCommit => "commit" | KTag => "tag" end.

Definition parse_kind (token : list byte) : option Kind :=
  if decide (token = kind_token KBlob) then Some KBlob
  else if decide (token = kind_token KTree) then Some KTree
  else if decide (token = kind_token KCommit) then Some KCommit
  else if decide (token = kind_token KTag) then Some KTag
  else None.

(** A length that is no UTF-8 has a byte that is no digit, so it does not parse
    either. *)
Definition parse_loose_framing (framing : list byte) : option (Kind * list byte) :=
  '(header, body) ← split_at_byte x00 framing;
  '(token, len) ← split_at_byte x20 header;
  kind ← parse_kind token;
  len ← parse_usize len;
  if decide (len ≠ N.of_nat (length body)) then None else Some (kind, body).

Section Framing.
Context `{GitEngine}.

Definition decode_cas_object (bytes : list byte) : result ReceiveError (Kind * list byte) :=
  match parse_loose_framing bytes with
  | Some decoded => Ok decoded
  | None =>
      inflated ← map_err (λ e, MalformedPack ("CAS thin-pack base inflate failed: " +:+ e)) (zlib_inflate bytes);
      ok_or (MalformedPack "CAS thin-pack base is not a valid git loose object") (parse_loose_framing inflated)
  end.

Definition inflate_entry (compressed : list byte) (expected_size : N) : result ReceiveError (list byte) :=
  out ← map_err (λ e, MalformedPack ("entry inflate failed: " +:+ e)) (zlib_inflate compressed);
  if decide (N.of_nat (length out) ≠ expected_size) then
    Err (MalformedPack ("entry inflated to " +:+ decimal (N.of_nat (length out)) +:+
           " bytes, header declared " +:+ decimal expected_size))
  else Ok out.

Definition encode_loose (kind : Kind) (body : list byte) : list byte :=
  loose_header kind (N.of_nat (length body)) ++ body.

Definition zlib_compress (framing : list byte) : result ReceiveError (list byte) :=
  map_err (λ e, match e with
    | WriteFailed e => RecvIo ("zlib compress loose object: " +:+ e)
    | FinishFailed e => RecvIo ("zlib finish loose object: " +:+ e)
    end) (zlib_deflate framing).
End Framing.

(** * Limits and requests *)

Record RecvLimits := {
  max_pack_bytes : N;
  max_inflated_bytes : N;
  max_objects : N;
  max_delta_passes : N;
  max_cas_lookups : N;
}.
Definition RecvLimits_default : RecvLimits := {|
  max_pack_bytes := 16 * 1024 * 1024; max_inflated_bytes := 32 * 1024 * 1024;
  max_objects := 1000000; max_delta_passes := 1024; max_cas_lookups := 4096
|}.

Record RecvUpdate := { recv_ref : string; recv_expected : option string; new_oid : string }.
Record ReceiveRequest := {
  pack : list byte;
  update : RecvUpdate;
  req_chain : list string;
  req_at : N;
}.
Record Receipt := { stored_oids : list string; event : EventRecord }.

(** [pack_header_object_count]. *)
Definition pack_header_object_count (pack : list byte) : result ReceiveError N :=
  if decide ((length pack < 12)%nat ∨ take 4 pack ≠ as_bytes "PACK") then
    Err (MalformedPack "pack too short or missing PACK signature")
  else
    let version := be_value (take 4 (drop 4 pack)) in
    if decide (version ≠ 2) then
      Err (MalformedPack ("unsupported pack version " +:+ decimal version +:+ " (only V2 is accepted)"))
    else Ok (be_value (take 4 (drop 8 pack))).

(** * Unpacking *)

Record UnpackedPack := {
  objects : list CasObject;
  by_oid : gmap string (Kind * list byte);
}.
Record RawEntry := { header : PackHeader; pack_offset : N; data : list byte }.

(** What the resolution of deltas threads through. *)
Record Unpacking := {
  resolved : list (option (Kind * list byte));
  oid_to_index : gmap string nat;
  unpacked : UnpackedPack;
  total_resolved : N;
}.

Section Unpack.
Context `{GitEngine} `{Cas C}.
Implicit Types (limits : RecvLimits) (st : Unpacking) (cas : C).

(** Phase 1: the entries, within the object and size ceilings. *)
Fixpoint read_entries limits (count total_inflated : N) (items : list (result string InputEntry))
    : result ReceiveError (list RawEntry) :=
  match items with
  | [] => Ok []
  | item :: items =>
      entry ← map_err (λ e, MalformedPack ("pack entry: " +:+ e)) item;
      let count := u64_add count 1 in
      if max_objects limits <? count then
        Err (DecompressionBomb ("unpacked object count " +:+ decimal count +:+ " exceeds ceiling " +:+
               decimal (max_objects limits)))
      else
        let total_inflated := u64_saturating_add total_inflated (decompressed_size entry) in
        if max_inflated_bytes limits <? total_inflated then
          Err (DecompressionBomb ("inflated total " +:+ decimal total_inflated +:+
                 " bytes exceeds ceiling " +:+ decimal (max_inflated_bytes limits) +:+ " bytes"))
        else
          compressed ← ok_or (MalformedPack "pack entry carried no compressed payload") (compressed entry);
          data ← inflate_entry compressed (decompressed_size entry);
          raws ← read_entries limits count total_inflated items;
          Ok ({| header := in_header entry; pack_offset := in_offset entry; data := data |} :: raws)
  end.

(** [finalize]: the object under its own hash, counted once. *)
Definition finalize (max_inflated : N) (kind : Kind) (data : list byte) (u : UnpackedPack) (total : N)
    : result ReceiveError (string * UnpackedPack * N) :=
  oid ← map_err (λ e, MalformedPack ("oid hashing failed: " +:+ e)) (compute_hash kind data);
  match by_oid u !! oid with
  | Some _ => Ok (oid, u, total)
  | None =>
      let total := u64_saturating_add total (N.of_nat (length data)) in
      if max_inflated <? total then
        Err (DecompressionBomb ("resolved object total " +:+ decimal total +:+
               " bytes exceeds ceiling " +:+ decimal max_inflated +:+ " bytes"))
      else
        bytes ← zlib_compress (encode_loose kind data);
        Ok (oid, {| objects := objects u ++ [{| cas_oid := oid; cas_bytes := bytes |}];
                    by_oid := <[oid := (kind, data)]> (by_oid u) |}, total)
  end.

(** Finalize entry [i] and note where it is. *)
Definition resolve_entry limits (i : nat) (kind : Kind) (data : list byte) st : result ReceiveError Unpacking :=
  '(oid, u, total) ← finalize (max_inflated_bytes limits) kind data (unpacked st) (total_resolved st);
  Ok {| resolved := <[i := Some (kind, data)]> (resolved st);
        oid_to_index := <[oid := i]> (oid_to_index st); unpacked := u; total_resolved := total |}.

(** The first pass: base objects. *)
Fixpoint resolve_bases limits (i : nat) (raws : list RawEntry) st : result ReceiveError Unpacking :=
  match raws with
  | [] => Ok st
  | raw :: raws =>
      st ← match header_kind (header raw) with
           | Some kind => resolve_entry limits i kind (data raw) st
           | None => Ok st
           end;
      resolve_bases limits (S i) raws st
  end.

(** [offset_to_index]: a later entry at the same offset replaces an earlier one. *)
Definition offset_to_index (raws : list RawEntry) : gmap N nat :=
  foldl (λ m ir, <[pack_offset ir.2 := ir.1]> m) ∅ (imap pair raws).

(** The entry a delta builds on; [None] when it is not known yet. *)
Definition base_index (raws : list RawEntry) st (raw : RawEntry) : result ReceiveError (option nat) :=
  match header raw with
  | OfsDelta base_distance =>
      if decide (base_distance ≤ pack_offset raw ∧ base_distance ≠ 0) then
        match offset_to_index raws !! (pack_offset raw - base_distance) with
        | Some bi => Ok (Some bi)
        | None => Err (MalformedPack "OFS_DELTA base offset not an entry boundary")
        end
      else Err (MalformedPack "OFS_DELTA base offset out of range")
  | RefDelta base_id => Ok (oid_to_index st !! base_id)
  | BaseHeader _ => Err (MalformedPack "non-delta entry left unresolved")
  end.

(** Apply entry [i] to the given base, within what is left of the ceiling. *)
Definition resolve_delta limits (i : nat) (base_kind : Kind) (base_data delta : list byte) st
    : result ReceiveError Unpacking :=
  data ← apply_delta base_data delta (max_inflated_bytes limits - total_resolved st);
  resolve_entry limits i base_kind data st.

(** One pass over the deltas that remain: the state, those still pending, and
    whether any was resolved. *)
Fixpoint delta_pass limits (raws : list RawEntry) (remaining : list nat) st
    : result ReceiveError (Unpacking * list nat * bool) :=
  match remaining with
  | [] => Ok (st, [], false)
  | i :: remaining =>
      raw ← ok_or (MalformedPack "index out of range") (raws !! i);
      bi ← base_index raws st raw;
      match b ← bi; mjoin (resolved st !! b) with
      | None =>
          '(st, pending, progressed) ← delta_pass limits raws remaining st;
          Ok (st, i :: pending, progressed)
      | Some (base_kind, base_data) =>
          st ← resolve_delta limits i base_kind base_data (data raw) st;
          '(st, pending, _) ← delta_pass limits raws remaining st;
          Ok (st, pending, true)
      end
  end.

(** The pass over the store, for deltas on objects the push left out. *)
Fixpoint cas_pass cas limits (raws : list RawEntry) (remaining : list nat) (cas_lookups : N) st
    : result ReceiveError (Unpacking * list nat * N * bool) :=
  match remaining with
  | [] => Ok (st, [], cas_lookups, false)
  | i :: remaining =>
      raw ← ok_or (MalformedPack "index out of range") (raws !! i);
      match header raw with
      | RefDelta base_oid =>
          let cas_lookups := as_u32 (cas_lookups + 1) in
          if max_cas_lookups limits <? cas_lookups then Err (CasLookupBudgetExceeded (max_cas_lookups limits))
          else match cas_get cas base_oid with
          | None =>
              '(st, thin, cas_lookups, progress) ← cas_pass cas limits raws remaining cas_lookups st;
              Ok (st, i :: thin, cas_lookups, progress)
          | Some raw_base =>
              '(base_kind, base_data) ← decode_cas_object raw_base;
              st ← resolve_delta limits i base_kind base_data (data raw) st;
              '(st, thin, cas_lookups, _) ← cas_pass cas limits raws remaining cas_lookups st;
              Ok (st, thin, cas_lookups, true)
          end
      | _ =>
          '(st, thin, cas_lookups, progress) ← cas_pass cas limits raws remaining cas_lookups st;
          Ok (st, i :: thin, cas_lookups, progress)
      end
  end.

(** The fixpoint; the passes left count down from the ceiling. *)
Fixpoint resolve_loop (passes : nat) cas limits (raws : list RawEntry) (remaining : list nat)
    (cas_lookups : N) st : result ReceiveError Unpacking :=
  match remaining with
  | [] => Ok st
  | _ =>
      match passes with
      | O => Err (DecompressionBomb ("delta resolution exceeded " +:+ decimal (max_delta_passes limits) +:+
               " passes with " +:+ decimal (N.of_nat (length remaining)) +:+
               " entries still unresolved — pathological (reverse-ordered) delta dependency graph, rejected fail-closed (algorithmic-complexity DoS guard)"))
      | S passes =>
          '(st, pending, progressed) ← delta_pass limits raws remaining st;
          if (progressed : bool) then resolve_loop passes cas limits raws pending cas_lookups st
          else
            '(st, thin, cas_lookups, cas_progress) ← cas_pass cas limits raws remaining cas_lookups st;
            if (cas_progress : bool) then resolve_loop passes cas limits raws thin cas_lookups st
            else Err (MalformedPack "thin pack: a delta's base object is in neither the pack nor the CAS")
      end
  end.

Definition unresolved st : list nat :=
  filter (λ i, mjoin (resolved st !! i) = None) (List.seq 0 (length (resolved st))).

Definition unpack_pack (pack : list byte) cas limits : result ReceiveError UnpackedPack :=
  _ ← pack_header_object_count pack;
  items ← map_err (λ e, MalformedPack ("pack header: " +:+ e)) (pack_entries pack);
  raws ← read_entries limits 0 0 items;
  st ← resolve_bases limits 0 raws
    {| resolved := replicate (length raws) None; oid_to_index := ∅;
       unpacked := {| objects := []; by_oid := ∅ |}; total_resolved := 0 |};
  st ← resolve_loop (N.to_nat (max_delta_passes limits)) cas limits raws (unresolved st) 0 st;
  Ok (unpacked st).
End Unpack.

(** * Reachability *)

Section Reach.
Context `{GitEngine} `{Cas C}.
Implicit Types (u : UnpackedPack) (cas : C).

(** The objects an object refers to, in the order they are pushed; [None] for an
    object that does not parse. *)
Definition object_refs (kind : Kind) (data : list byte) : option (list string) :=
  match kind with
  | KBlob => Some []
  | KCommit => (λ tree, tree :: commit_parent_ids data) <$> commit_tree_id data
  | KTree =>
      (λ entries : list TreeEntry, entry_oid <$> filter (λ e, entry_is_commit e = false) entries)
        <$> tree_entries data
  | KTag => (λ t, [t]) <$> tag_target_id data
  end.

(** The walk, its stack with the top first; [None] when the fuel is used up. *)
Fixpoint walk (fuel : nat) u cas (max_lookups : N) (stack : list string) (seen : gset string) (cas_lookups : N)
    : option (result ReceiveError bool) :=
  match stack with
  | [] => Some (Ok true)
  | oid :: stack =>
      match fuel with
      | O => None
      | S fuel =>
          if decide (oid ∈ seen) then walk fuel u cas max_lookups stack seen cas_lookups
          else
            let seen := {[ oid ]} ∪ seen in
            match by_oid u !! oid with
            | None =>
                let cas_lookups := as_u32 (cas_lookups + 1) in
                if max_lookups <? cas_lookups then Some (Err (CasLookupBudgetExceeded max_lookups))
                else if cas_contains cas oid then walk fuel u cas max_lookups stack seen cas_lookups
                else Some (Ok false)
            | Some (kind, data) =>
                match object_refs kind data with
                | None => Some (Ok false)
                | Some refs => walk fuel u cas max_lookups (reverse refs ++ stack) seen cas_lookups
                end
            end
      end
  end.

(** As many steps as there are references, and the target. *)
Definition ref_count (o : Kind * list byte) : nat := length (default [] (object_refs o.1 o.2)).
Definition walk_fuel u : nat := S (sum_list_with (ref_count ∘ snd) (map_to_list (by_oid u))).

Definition target_reachable u (target : string) cas (max_lookups : N) : result ReceiveError bool :=
  complete ← default (Ok false) (walk (walk_fuel u) u cas max_lookups [target] ∅ 0);
  Ok (complete && bool_decide (is_Some (by_oid u !! target))).
End Reach.

(** * Receiving *)

Section Receive.
Context `{Crypto} `{SerdeJson} `{GitEngine} `{Cas C}.

Definition receive_pack (gate : FlagGate) (req : ReceiveRequest) (cas : C) (log : EventLog)
    (current_refs : gmap string string) (limits : RecvLimits)
    : C * EventLog * result ReceiveError Receipt :=
  let refuse e := (cas, log, Err e) in
  match admit_write gate with
  | Err _ => refuse RecvWritePathDisabled
  | Ok _ =>
  if decide (req_chain req = []) then refuse RecvMissingAttribution
  else if max_pack_bytes limits <? N.of_nat (length (pack req)) then
    refuse (OversizedPack (N.of_nat (length (pack req))) (max_pack_bytes limits))
  else match pack_header_object_count (pack req) with
  | Err e => refuse e
  | Ok declared =>
  if max_objects limits <? declared then
    refuse (DecompressionBomb ("pack header declares " +:+ decimal declared +:+
              " objects, exceeds ceiling " +:+ decimal (max_objects limits)))
  else match unpack_pack (pack req) cas limits with
  | Err e => refuse e
  | Ok u =>
  let target := new_oid (update req) in
  let delivered := bool_decide (is_Some (by_oid u !! target)) in
  if negb delivered && negb (cas_contains cas target) then
    refuse (RefUpdateTampered (recv_ref (update req)) target)
  else match (if delivered then target_reachable u target cas (max_cas_lookups limits) else Ok true) with
  | Err e => refuse e
  | Ok false => refuse (UnreachableTarget (recv_ref (update req)) target)
  | Ok true =>
  let actual := current_refs !! recv_ref (update req) in
  if decide (actual ≠ recv_expected (update req)) then
    refuse (RecvStaleRef (recv_ref (update req)) (recv_expected (update req)) actual)
  else
    let cas := store_objects cas (objects u) in
    let stored := merge_sort String.le (cas_oid <$> objects u) in
    let '(log, event) := record_ref_update log (req_chain req) (recv_ref (update req)) target (req_at req) in
    (cas, log, Ok {| stored_oids := stored; event := event |})
  end end end end.

(** [SerializedReceiver::receive]; the text of a replay error is left out. *)
Record SerializedReceiver := {
  recv_cas : C;
  recv_log : EventLog;
  recv_gate : FlagGate;
  recv_limits : RecvLimits;
}.
Definition receive (r : SerializedReceiver) (req : ReceiveRequest)
    : SerializedReceiver * result ReceiveError Receipt :=
  match replay (recv_log r) with
  | Err _ => (r, Err (RecvIo "replay derived view"))
  | Ok state =>
      let '(cas, log, res) :=
        receive_pack (recv_gate r) req (recv_cas r) (recv_log r) (refs state) (recv_limits r) in
      ({| recv_cas := cas; recv_log := log; recv_gate := recv_gate r; recv_limits := recv_limits r |}, res)
  end.
End Receive.

(** * Loose objects read back *)

(** What is relied on of the engine: the loose header of git, and zlib streams
    that inflate to what was deflated and start with their own first byte. *)
Class GitEngineLaws `{GitEngine} := {
  loose_header_format k n : loose_header k n = kind_token k ++ [x20] ++ as_bytes (decimal n) ++ [x00];
  inflate_deflate x y : zlib_deflate x = Ok y → zlib_inflate y = Ok x;
  deflate_first_byte x y : zlib_deflate x = Ok y → head y = Some x78;
}.

Section LooseRoundTrip.
Context `{GitEngineLaws}.

Lemma parse_encode_loose k d :
  N.of_nat (length d) ≤ u64_max → parse_loose_framing (encode_loose k d) = Some (k, d).
Proof.
  intros Hlen. unfold parse_loose_framing, encode_loose. rewrite loose_header_format.
  pose proof (string_of_uint_digits (N.to_uint (N.of_nat (length d)))) as Hd.
  fold (decimal (N.of_nat (length d))) in Hd. set (len := as_bytes (decimal _)) in *.
  assert (x00 ∉ kind_token k ++ x20 :: len) as Hnul.
  { rewrite not_elem_of_app, not_elem_of_cons. split; [by destruct k; by_decision|]. split; [done|].
    intros Hin. rewrite Forall_forall in Hd. apply Hd in Hin. by destruct Hin. }
  replace ((kind_token k ++ [x20] ++ len ++ [x00]) ++ d) with ((kind_token k ++ x20 :: len) ++ x00 :: d)
    by (by rewrite <- !(assoc_L (++))).
  rewrite split_at_byte_app by done. cbn [mbind option_bind].
  rewrite split_at_byte_app by (by destruct k; by_decision). cbn [mbind option_bind].
  assert (parse_kind (kind_token k) = Some k) as -> by by destruct k. cbn [mbind option_bind].
  subst len. rewrite parse_usize_decimal by done. cbn [mbind option_bind].
  by rewrite decide_False by (by intros []).
Qed.

(** A zlib stream is no loose header. *)
Lemma parse_loose_first_byte bytes : head bytes = Some x78 → parse_loose_framing bytes = None.
Proof.
  intros Hh. unfold parse_loose_framing.
  destruct (split_at_byte x00 bytes) as [[hd body]|] eqn:E1; cbn [mbind option_bind]; [|done].
  destruct (split_at_byte x20 hd) as [[tok len]|] eqn:E2; cbn [mbind option_bind]; [|done].
  apply split_at_byte_Some in E1 as ->, E2 as ->.
  destruct (parse_kind tok) as [k|] eqn:E3; [|done]. exfalso.
  assert (tok = kind_token k) as -> by (unfold parse_kind in E3; repeat case_decide; by simplify_eq).
  by destruct k.
Qed.

(** What is stored for an object decodes to it. *)
Lemma decode_compressed k d bytes :
  N.of_nat (length d) ≤ u64_max → zlib_compress (encode_loose k d) = Ok bytes →
  decode_cas_object bytes = Ok (k, d).
Proof.
  intros Hlen. unfold zlib_compress. destruct (zlib_deflate (encode_loose k d)) as [y|] eqn:E; [|done].
  intros [= <-]. unfold decode_cas_object.
  rewrite parse_loose_first_byte by (by eapply deflate_first_byte).
  rewrite (inflate_deflate _ _ E). cbn [map_err mbind result_bind]. by rewrite parse_encode_loose.
Qed.
End LooseRoundTrip.

(** * What a pack holds *)

Definition body_bytes (m : gmap string (Kind * list byte)) : nat :=
  sum_list_with (λ p, length p.2.2) (map_to_list m).

Lemma body_bytes_insert m oid k d : m !! oid = None →
  body_bytes (<[oid := (k, d)]> m) = (length d + body_bytes m)%nat.
Proof. intros Hm. unfold body_bytes. by rewrite map_to_list_insert. Qed.

Section Contents.
Context `{GitEngine} `{Cas C}.
Implicit Types (u : UnpackedPack) (st : Unpacking) (cas : C) (limits : RecvLimits).

(** What entry [i] of a pack stands for: its own content, or its delta applied
    to an entry of the pack or to a stored object. *)
Inductive expands cas (raws : list RawEntry) : nat → Kind → list byte → Prop :=
| expands_base i raw k :
    raws !! i = Some raw → header raw = BaseHeader k → expands cas raws i k (data raw)
| expands_ofs i raw dist j base k bd limit d :
    raws !! i = Some raw → header raw = OfsDelta dist →
    raws !! j = Some base → pack_offset base = pack_offset raw - dist →
    expands cas raws j k bd → apply_delta bd (data raw) limit = Ok d → expands cas raws i k d
| expands_ref i raw b j k bd limit d :
    raws !! i = Some raw → header raw = RefDelta b →
    expands cas raws j k bd → compute_hash k bd = Ok b →
    apply_delta bd (data raw) limit = Ok d → expands cas raws i k d
| expands_cas i raw b bytes k bd limit d :
    raws !! i = Some raw → header raw = RefDelta b →
    cas_get cas b = Some bytes → decode_cas_object bytes = Ok (k, bd) →
    apply_delta bd (data raw) limit = Ok d → expands cas raws i k d.

(** The objects to store are the decoded ones, each once, under their hash. *)
Record pack_ok (max_inflated : N) u : Prop := {
  objects_once : NoDup (cas_oid <$> objects u);
  objects_decoded : ∀ o, o ∈ objects u → ∃ k d, by_oid u !! cas_oid o = Some (k, d) ∧
    zlib_compress (encode_loose k d) = Ok (cas_bytes o);
  decoded_stored : ∀ oid, is_Some (by_oid u !! oid) → oid ∈ cas_oid <$> objects u;
  decoded_hash : ∀ oid k d, by_oid u !! oid = Some (k, d) → compute_hash k d = Ok oid;
  decoded_size : N.of_nat (body_bytes (by_oid u)) ≤ max_inflated;
}.

Record unpacking_ok cas limits (raws : list RawEntry) st : Prop := {
  st_pack : pack_ok (max_inflated_bytes limits) (unpacked st);
  st_total : total_resolved st = N.of_nat (body_bytes (by_oid (unpacked st)));
  st_length : length (resolved st) = length raws;
  st_resolved : ∀ i k d, resolved st !! i = Some (Some (k, d)) → expands cas raws i k d ∧
    ∃ oid, compute_hash k d = Ok oid ∧ is_Some (by_oid (unpacked st) !! oid);
  st_index : ∀ oid i, oid_to_index st !! oid = Some i → ∃ k d, resolved st !! i = Some (Some (k, d)) ∧
    compute_hash k d = Ok oid;
  st_origin : ∀ oid k d, by_oid (unpacked st) !! oid = Some (k, d) → ∃ i, expands cas raws i k d;
}.

Lemma finalize_ok max_inflated kind data u total oid u' total' :
  max_inflated < u64_max → pack_ok max_inflated u → total = N.of_nat (body_bytes (by_oid u)) →
  finalize max_inflated kind data u total = Ok (oid, u', total') →
  pack_ok max_inflated u' ∧ total' = N.of_nat (body_bytes (by_oid u')) ∧ compute_hash kind data = Ok oid ∧
  is_Some (by_oid u' !! oid) ∧
  (by_oid u' = by_oid u ∨ by_oid u !! oid = None ∧ by_oid u' = <[oid := (kind, data)]> (by_oid u)).
Proof.
  intros Hmax Hok Htot. unfold finalize.
  destruct (compute_hash kind data) as [oid0|] eqn:Eh; cbn [map_err mbind result_bind]; [|done].
  destruct (by_oid u !! oid0) as [o|] eqn:Eo.
  { intros [= <- <- <-]. split_and!; eauto. }
  destruct (N.ltb_spec max_inflated (u64_saturating_add total (N.of_nat (length data)))) as [|Hle]; [done|].
  destruct (zlib_compress (encode_loose kind data)) as [bytes|] eqn:Ez; cbn [mbind result_bind]; [|done].
  intros [= <- <- <-]. simpl.
  assert (u64_saturating_add total (N.of_nat (length data)) = N.of_nat (body_bytes (<[oid0:=(kind, data)]> (by_oid u)))) as Ht.
  { rewrite body_bytes_insert by done. unfold u64_saturating_add in *. lia. }
  destruct Hok as [Hnd Hdec Hst Hh Hsz].
  assert (oid0 ∉ cas_oid <$> objects u) as Hnew.
  { intros (o & -> & Ho)%list_elem_of_fmap. destruct (Hdec o Ho) as (k & d & Hk & _). congruence. }
  split_and!; [|exact Ht|done|by rewrite lookup_insert_eq|by right].
  split; simpl.
  - rewrite fmap_app. simpl. apply NoDup_app. split_and!; [done| |apply NoDup_singleton].
    intros x Hx ->%list_elem_of_singleton. done.
  - intros o [Ho| ->%list_elem_of_singleton]%elem_of_app.
    + destruct (Hdec o Ho) as (k & d & Hk & Hz). exists k, d. split; [|done].
      rewrite lookup_insert_ne; [done|]. intros Heq. congruence.
    + exists kind, data. simpl. by rewrite lookup_insert_eq.
  - intros oid. rewrite fmap_app, elem_of_app. simpl. destruct (decide (oid0 = oid)) as [->|].
    + intros _. right. by apply list_elem_of_singleton.
    + rewrite lookup_insert_ne by done. intros Ho. left. by apply Hst.
  - intros oid k d. destruct (decide (oid0 = oid)) as [->|].
    + rewrite lookup_insert_eq. by intros [= <- <-].
    + rewrite lookup_insert_ne by done. apply Hh.
  - lia.
Qed.

Lemma resolve_entry_ok cas limits raws i kind data st st' :
  max_inflated_bytes limits < u64_max → unpacking_ok cas limits raws st →
  (i < length raws)%nat → mjoin (resolved st !! i) = None → expands cas raws i kind data →
  resolve_entry limits i kind data st = Ok st' →
  unpacking_ok cas limits raws st' ∧ resolved st' = <[i := Some (kind, data)]> (resolved st).
Proof.
  intros Hmax [Hp Ht Hl Hr Hi Hb] Hlt Hnone Hexp. unfold resolve_entry.
  destruct (finalize _ kind data (unpacked st) (total_resolved st)) as [[[oid u] total]|] eqn:E;
    cbn [mbind result_bind]; [|done].
  apply finalize_ok in E as (Hp' & Ht' & Hh & Hin & Hu); [|done..]. intros [= <-]. split; [|done].
  assert (∀ x, is_Some (by_oid (unpacked st) !! x) → is_Some (by_oid u !! x)) as Hmono.
  { intros x Hx. destruct Hu as [->|[Hn ->]]; [done|]. rewrite lookup_insert_ne; [done|].
    intros <-. rewrite Hn in Hx. by destruct Hx. }
  split; simpl; [done|done|by rewrite length_insert|..].
  - intros j k d. destruct (decide (i = j)) as [<-|Hne].
    + rewrite list_lookup_insert_eq by lia. intros [= <- <-]. split; [done|]. by exists oid.
    + rewrite list_lookup_insert_ne by done. intros (He & o & Ho & Hs)%Hr. split; [done|]. exists o. auto.
  - intros o j. destruct (decide (oid = o)) as [<-|Hne].
    + rewrite lookup_insert_eq. intros [= <-]. exists kind, data. by rewrite list_lookup_insert_eq by lia.
    + rewrite lookup_insert_ne by done. intros (k & d & Hj & Hd)%Hi. exists k, d. split; [|done].
      rewrite list_lookup_insert_ne; [done|]. intros <-. by rewrite Hj in Hnone.
  - intros o k d. destruct Hu as [->|[Hn ->]]; [apply Hb|]. destruct (decide (oid = o)) as [<-|Hne].
    + rewrite lookup_insert_eq. intros [= <- <-]. by exists i.
    + rewrite lookup_insert_ne by done. apply Hb.
Qed.

(** The entries still to resolve. *)
Definition open_at st (i : nat) : Prop := mjoin (resolved st !! i) = None.

(** A pass over some open entries closes those it does not return. *)
Definition passes cas limits (raws : list RawEntry) st (remaining : list nat) st' (pending : list nat) : Prop :=
  unpacking_ok cas limits raws st' ∧ sublist pending remaining ∧
  ∀ i, open_at st' i ↔ open_at st i ∧ (i ∉ remaining ∨ i ∈ pending).

Lemma passes_skip cas limits raws st i remaining st' pending :
  NoDup (i :: remaining) → passes cas limits raws st remaining st' pending →
  passes cas limits raws st (i :: remaining) st' (i :: pending).
Proof.
  intros [Hi Hnd]%NoDup_cons (Hok & Hsub & Hopen). split_and!; [done|by constructor|].
  intros j. rewrite Hopen, !elem_of_cons. destruct (decide (j = i)) as [->|]; naive_solver.
Qed.

Lemma passes_resolve cas limits raws st st1 i x remaining st' pending :
  NoDup (i :: remaining) → (i < length (resolved st))%nat →
  resolved st1 = <[i := Some x]> (resolved st) →
  passes cas limits raws st1 remaining st' pending →
  passes cas limits raws st (i :: remaining) st' pending.
Proof.
  intros [Hi Hnd]%NoDup_cons Hlt Hr (Hok & Hsub & Hopen). split_and!; [done|by constructor|].
  intros j. rewrite Hopen. unfold open_at. rewrite Hr. destruct (decide (i = j)) as [<-|Hne].
  - rewrite list_lookup_insert_eq by done. simpl. split; [by intros []|]. intros (_ & [Hx|Hx]).
    + exfalso. apply Hx, list_elem_of_here.
    + by apply (sublist_subseteq _ _ Hsub) in Hx.
  - rewrite list_lookup_insert_ne, not_elem_of_cons by done. naive_solver.
Qed.

Lemma offset_to_index_Some raws off i :
  offset_to_index raws !! off = Some i → ∃ raw, raws !! i = Some raw ∧ pack_offset raw = off.
Proof.
  unfold offset_to_index.
  assert (∀ (l : list (nat * RawEntry)) (m : gmap N nat),
    foldl (λ m ir, <[pack_offset ir.2 := ir.1]> m) m l !! off = Some i →
    m !! off = Some i ∨ ∃ raw, (i, raw) ∈ l ∧ pack_offset raw = off) as Hl.
  { induction l as [|[j raw] l IH]; intros m; simpl; [by left|]. intros [Hm|(raw' & Hin & Ho)]%IH.
    - destruct (decide (pack_offset raw = off)) as [<-|].
      + rewrite lookup_insert_eq in Hm. simplify_eq. right. exists raw. set_solver.
      + rewrite lookup_insert_ne in Hm by done. by left.
    - right. exists raw'. set_solver. }
  intros [Hm|(raw & Hin & Ho)]%Hl; [done|]. exists raw. split; [|done].
  apply list_elem_of_lookup in Hin as [j Hj]. rewrite list_lookup_imap in Hj.
  destruct (raws !! j) as [r|] eqn:E; simpl in Hj; by simplify_eq.
Qed.

(** A delta resolved against a known base is what its entry stands for. *)
Lemma base_index_expands cas limits raws st i raw b k bd d limit :
  unpacking_ok cas limits raws st → raws !! i = Some raw →
  base_index raws st raw = Ok (Some b) → resolved st !! b = Some (Some (k, bd)) →
  apply_delta bd (data raw) limit = Ok d → expands cas raws i k d.
Proof.
  intros Hok Hraw Hb Hres Hd. destruct (st_resolved _ _ _ _ Hok b k bd Hres) as [Hexp _].
  unfold base_index in Hb. destruct (header raw) as [k'|dist|base] eqn:Eh; [done| |].
  - case_decide; [|done]. destruct (offset_to_index raws !! _) as [b'|] eqn:Eo; [|done]. inv_eqs.
    apply offset_to_index_Some in Eo as (rb & Hrb & Ho). by eapply expands_ofs.
  - injection Hb as Hb. destruct (st_index _ _ _ _ Hok base b Hb) as (k' & d' & Hr' & Hh).
    rewrite Hr' in Hres. simplify_eq. by eapply expands_ref.
Qed.

Section Passes.
Context (cas : C) (limits : RecvLimits) (raws : list RawEntry).
Hypothesis Hmax : max_inflated_bytes limits < u64_max.

Lemma resolve_delta_ok i k bd delta st st' :
  unpacking_ok cas limits raws st → (i < length raws)%nat → open_at st i →
  (∀ d limit, apply_delta bd delta limit = Ok d → expands cas raws i k d) →
  resolve_delta limits i k bd delta st = Ok st' →
  unpacking_ok cas limits raws st' ∧ ∃ x, resolved st' = <[i := Some x]> (resolved st).
Proof.
  intros Hok Hi Ho Hexp. unfold resolve_delta.
  destruct (apply_delta bd delta _) as [d|] eqn:Ed; cbn [mbind result_bind]; [|done].
  intros He. apply (resolve_entry_ok cas limits raws) in He as [Hok' Hr]; [|done|done|done|done|by eapply Hexp].
  split; [done|]. by eexists.
Qed.

Lemma open_insert st st1 i x j : resolved st1 = <[i := Some x]> (resolved st) → i ≠ j →
  open_at st j → open_at st1 j.
Proof. unfold open_at. intros -> Hne. by rewrite list_lookup_insert_ne. Qed.

Lemma delta_pass_ok remaining st st' pending progressed :
  unpacking_ok cas limits raws st → NoDup remaining →
  (∀ i, i ∈ remaining → open_at st i ∧ (i < length raws)%nat) →
  delta_pass limits raws remaining st = Ok (st', pending, progressed) →
  passes cas limits raws st remaining st' pending ∧ (length pending + (if progressed then 1 else 0) ≤ length remaining)%nat
    ∧ (progressed = false → st' = st).
Proof.
  revert st pending progressed. induction remaining as [|i remaining IH]; intros st pending progressed Hok Hnd Hrem; simpl.
  { intros [= <- <- <-]. split_and!; [|done|done]. split_and!; [done|done|set_solver]. }
  destruct (Hrem i) as [Hoi Hli]; [set_solver|].
  destruct (lookup_lt_is_Some_2 raws i Hli) as [raw Hraw]. rewrite Hraw. cbn [ok_or mbind result_bind].
  destruct (base_index raws st raw) as [bi|] eqn:Eb; cbn [mbind result_bind]; [|done].
  destruct (bi ≫= λ b, mjoin (resolved st !! b)) as [[k bd]|] eqn:Er.
  - destruct bi as [b|]; [|done]. cbn [mbind option_bind] in Er.
    destruct (resolved st !! b) as [[[k' bd']|]|] eqn:Erb; try done. cbn in Er. simplify_eq.
    destruct (resolve_delta limits i k bd (data raw) st) as [st1|] eqn:E1; cbn [mbind result_bind]; [|done].
    apply resolve_delta_ok in E1 as [Hok1 [x Hr]]; [|done|done|done|intros; by eapply base_index_expands].
    destruct (delta_pass limits raws remaining st1) as [[[st2 pend] prog]|] eqn:Ep; cbn [mbind result_bind]; [|done].
    intros [= <- <- <-]. pose proof Hnd as Hnd'. apply NoDup_cons in Hnd' as [Hni Hnd'].
    apply IH in Ep as (Hp & Hlen & _); [|done|done|].
    + split_and!; [|simpl; destruct prog; lia|done]. eapply passes_resolve; [done| |done|done].
      by rewrite (st_length _ _ _ _ Hok).
    + intros j Hj. destruct (Hrem j) as [Hoj ?]; [set_solver|]. split; [|done].
      eapply open_insert; [done| |done]. by intros ->.
  - destruct (delta_pass limits raws remaining st) as [[[st2 pend] prog]|] eqn:Ep; cbn [mbind result_bind]; [|done].
    intros [= <- <- <-]. pose proof Hnd as Hnd'. apply NoDup_cons in Hnd' as [Hni Hnd'].
    apply IH in Ep as (Hp & Hlen & Hst); [|done|done|set_solver].
    split_and!; [by apply passes_skip|simpl; lia|done].
Qed.

Lemma cas_pass_ok remaining lookups st st' thin lookups' progress :
  unpacking_ok cas limits raws st → NoDup remaining →
  (∀ i, i ∈ remaining → open_at st i ∧ (i < length raws)%nat) →
  cas_pass cas limits raws remaining lookups st = Ok (st', thin, lookups', progress) →
  passes cas limits raws st remaining st' thin ∧ (length thin + (if progress then 1 else 0) ≤ length remaining)%nat.
Proof.
  revert st lookups thin progress. induction remaining as [|i remaining IH];
    intros st lookups thin progress Hok Hnd Hrem; simpl.
  { intros [= <- <- <- <-]. split; [|done]. split_and!; [done|done|set_solver]. }
  destruct (Hrem i) as [Hoi Hli]; [set_solver|].
  destruct (lookup_lt_is_Some_2 raws i Hli) as [raw Hraw]. rewrite Hraw. cbn [ok_or mbind result_bind].
  pose proof Hnd as Hnd'. apply NoDup_cons in Hnd' as [Hni Hnd'].
  assert (∀ l, (r ← cas_pass cas limits raws remaining l st; let '(st, thin, l, p) := r in Ok (st, i :: thin, l, p))
      = Ok (st', thin, lookups', progress) →
    passes cas limits raws st (i :: remaining) st' thin ∧
    (length thin + (if progress then 1 else 0) ≤ S (length remaining))%nat) as Hskip.
  { intros l. destruct (cas_pass cas limits raws remaining l st) as [[[[st2 th] l2] prog]|] eqn:Ep;
      cbn [mbind result_bind]; [|done].
    intros [= <- <- <- <-]. apply IH in Ep as (Hp & Hlen); [|done|done|set_solver].
    split; [by apply passes_skip|simpl; lia]. }
  destruct (header raw) as [k|dist|base] eqn:Eh; [apply Hskip|apply Hskip|].
  destruct (_ <? _); [done|]. destruct (cas_get cas base) as [bytes|] eqn:Eg; [|apply Hskip].
  destruct (decode_cas_object bytes) as [[k bd]|] eqn:Ed; cbn [mbind result_bind]; [|done].
  destruct (resolve_delta limits i k bd (data raw) st) as [st1|] eqn:E1; cbn [mbind result_bind]; [|done].
  apply resolve_delta_ok in E1 as [Hok1 [x Hr]]; [|done|done|done|intros; by eapply expands_cas].
  destruct (cas_pass cas limits raws remaining _ st1) as [[[[st2 th] l2] prog]|] eqn:Ep; cbn [mbind result_bind]; [|done].
  intros [= <- <- <- <-]. apply IH in Ep as (Hp & Hlen); [|done|done|].
  + split; [|simpl; destruct prog; lia]. eapply passes_resolve; [done| |done|done].
    by rewrite (st_length _ _ _ _ Hok).
  + intros j Hj. destruct (Hrem j) as [Hoj ?]; [set_solver|]. split; [|done].
    eapply open_insert; [done| |done]. by intros ->.
Qed.

Lemma resolve_loop_ok n remaining lookups st st' :
  unpacking_ok cas limits raws st → NoDup remaining →
  (∀ i, i ∈ remaining ↔ open_at st i ∧ (i < length raws)%nat) →
  resolve_loop n cas limits raws remaining lookups st = Ok st' →
  unpacking_ok cas limits raws st' ∧ ∀ i, (i < length raws)%nat → ¬ open_at st' i.
Proof.
  revert remaining lookups st. induction n as [|n IH]; intros remaining lookups st Hok Hnd Hrem.
  { destruct remaining; simpl; [|done]. intros [= <-]. split; [done|]. intros i Hi Ho.
    assert (i ∈ @nil nat) as Hn by (by apply Hrem). by apply not_elem_of_nil in Hn. }
  assert (∀ st1 pending lookups1, passes cas limits raws st remaining st1 pending →
    resolve_loop n cas limits raws pending lookups1 st1 = Ok st' →
    unpacking_ok cas limits raws st' ∧ ∀ i, (i < length raws)%nat → ¬ open_at st' i) as Hnext.
  { intros st1 pending l1 (Hok1 & Hsub & Hopen). apply IH; [done|by eapply sublist_NoDup|].
    intros i. rewrite Hopen. split.
    - intros Hi. pose proof (sublist_subseteq _ _ Hsub i Hi) as Hi'. apply Hrem in Hi' as [? ?]. auto.
    - intros [[Ho [Hn|Hp]] Hi]; [|done]. exfalso. apply Hn, Hrem. done. }
  destruct remaining as [|i0 remaining'] eqn:Er; [simpl; intros [= <-]; split; [done|]; intros i Hi Ho;
    assert (i ∈ @nil nat) as Hn by (by apply Hrem); by apply not_elem_of_nil in Hn|].
  rewrite <- Er in *. cbn [resolve_loop]. rewrite Er at 1. clear Er.
  destruct (delta_pass limits raws remaining st) as [[[st1 pending] prog]|] eqn:Ep; cbn [mbind result_bind]; [|done].
  apply delta_pass_ok in Ep as (Hp & _ & Hst); [|done|done|by intros i Hi; apply Hrem].
  destruct prog; [by apply Hnext|]. rewrite Hst in * by done.
  destruct (cas_pass cas limits raws remaining lookups st) as [[[[st2 thin] l2] prog]|] eqn:Ec;
    cbn [mbind result_bind]; [|done].
  apply cas_pass_ok in Ec as (Hc & _); [|done|done|by intros i Hi; apply Hrem].
  destruct prog; [by apply Hnext|done].
Qed.

Lemma resolve_bases_ok pre suf st st' :
  raws = pre ++ suf → unpacking_ok cas limits raws st →
  (∀ i, (length pre ≤ i)%nat → open_at st i) →
  resolve_bases limits (length pre) suf st = Ok st' → unpacking_ok cas limits raws st'.
Proof.
  revert pre st. induction suf as [|raw suf IH]; intros pre st Hraws Hok Hopen; simpl; [by intros [= <-]|].
  assert (raws !! length pre = Some raw) as Hraw by (by rewrite Hraws, list_lookup_middle).
  replace (S (length pre)) with (length (pre ++ [raw])) by (rewrite length_app; simpl; lia).
  assert (raws = (pre ++ [raw]) ++ suf) as Hraws' by (by rewrite <- (assoc_L (++))).
  destruct (header_kind (header raw)) as [k|] eqn:Eh.
  - assert (header raw = BaseHeader k) as Hh by (by destruct (header raw); simplify_eq/=).
    destruct (resolve_entry limits (length pre) k (data raw) st) as [st1|] eqn:E1; cbn [mbind result_bind]; [|done].
    apply (resolve_entry_ok cas limits raws) in E1 as [Hok1 Hr];
      [|done|done|by apply lookup_lt_Some in Hraw|by apply Hopen|by eapply expands_base].
    apply IH; [done|done|]. intros i. rewrite length_app. simpl. intros Hi.
    eapply open_insert; [done| |apply Hopen]; lia.
  - cbn [mbind result_bind]. apply IH; [done|done|]. intros i. rewrite length_app. simpl. intros Hi. apply Hopen. lia.
Qed.

Lemma unpacking_start : unpacking_ok cas limits raws
  {| resolved := replicate (length raws) None; oid_to_index := ∅;
     unpacked := {| objects := []; by_oid := ∅ |}; total_resolved := 0 |}.
Proof.
  split; simpl; [|done|by rewrite length_replicate|..].
  - split; simpl; [constructor|by intros o Ho%not_elem_of_nil|by intros oid [? ?]|done|].
    unfold body_bytes. rewrite map_to_list_empty. simpl. lia.
  - intros i k d Hi%lookup_replicate_1. by destruct Hi.
  - done.
  - done.
Qed.
End Passes.

(** An entry as it was read. *)
Definition entry_read (item : result string InputEntry) (raw : RawEntry) : Prop :=
  ∃ e z, item = Ok e ∧ header raw = in_header e ∧ pack_offset raw = in_offset e ∧
    compressed e = Some z ∧ zlib_inflate z = Ok (data raw) ∧
    N.of_nat (length (data raw)) = decompressed_size e.

Lemma read_entries_ok limits count total items raws :
  max_objects limits < u64_max → count ≤ max_objects limits →
  read_entries limits count total items = Ok raws →
  Forall2 entry_read items raws ∧ count + N.of_nat (length raws) ≤ max_objects limits.
Proof.
  intros Hmax. revert count total raws. induction items as [|item items IH]; intros count total raws Hc; simpl.
  { intros [= <-]. split; [constructor|simpl; lia]. }
  destruct item as [e|]; cbn [map_err mbind result_bind]; [|done].
  assert (u64_add count 1 = count + 1) as ->.
  { unfold u64_add, u64_max in *. apply N.mod_small. lia. }
  destruct (N.ltb_spec (max_objects limits) (count + 1)) as [|Hle]; [done|]. destruct (_ <? _); [done|].
  destruct (compressed e) as [z|] eqn:Ez; cbn [ok_or mbind result_bind]; [|done].
  unfold inflate_entry. destruct (zlib_inflate z) as [out|] eqn:Ei; cbn [map_err mbind result_bind]; [|done].
  case_decide as Hd; cbn [mbind result_bind]; [done|].
  destruct (read_entries limits _ _ items) as [rs|] eqn:Er; cbn [mbind result_bind]; [|done].
  intros [= <-]. apply IH in Er as [Hf Hlen]; [|done]. split; [|simpl length; lia].
  constructor; [|done]. exists e, z. simpl. split_and!; try done.
Qed.

Lemma unpack_pack_ok pack cas limits u :
  max_inflated_bytes limits < u64_max → max_objects limits < u64_max →
  unpack_pack pack cas limits = Ok u →
  ∃ items raws, pack_entries pack = Ok items ∧ Forall2 entry_read items raws ∧
    N.of_nat (length raws) ≤ max_objects limits ∧
    (∀ i, (i < length raws)%nat → ∃ k d oid, expands cas raws i k d ∧ compute_hash k d = Ok oid ∧
       is_Some (by_oid u !! oid)) ∧
    (∀ oid k d, by_oid u !! oid = Some (k, d) → ∃ i, expands cas raws i k d) ∧
    pack_ok (max_inflated_bytes limits) u.
Proof.
  intros Hmax Hobj. unfold unpack_pack.
  destruct (pack_header_object_count pack); cbn [mbind result_bind]; [|done].
  destruct (pack_entries pack) as [items|]; cbn [map_err mbind result_bind]; [|done].
  destruct (read_entries limits 0 0 items) as [raws|] eqn:Er; cbn [mbind result_bind]; [|done].
  apply read_entries_ok in Er as [Hf Hlen]; [|done|lia].
  destruct (resolve_bases limits 0 raws _) as [st1|] eqn:Eb; cbn [mbind result_bind]; [|done].
  apply (resolve_bases_ok cas limits raws Hmax []) in Eb; [|done|apply unpacking_start|].
  2: done.
  2: { intros i _. unfold open_at. simpl. destruct (replicate _ _ !! i) as [x|] eqn:E; [|done].
       by apply lookup_replicate in E as [-> _]. }
  destruct (resolve_loop _ cas limits raws (unresolved st1) 0 st1) as [st|] eqn:El; cbn [mbind result_bind]; [|done].
  apply (resolve_loop_ok cas limits raws Hmax) in El as [Hok Hall]; [|done| |].
  - intros [= <-]. exists items, raws. split_and!; [done|done|lia|..].
    + intros i Hi. specialize (Hall i Hi). unfold open_at in Hall.
      destruct (resolved st !! i) as [[[k d]|]|] eqn:E; try done.
      destruct (st_resolved _ _ _ _ Hok i k d E) as (He & oid & Hh & Hin). by exists k, d, oid.
    + apply (st_origin _ _ _ _ Hok).
    + apply (st_pack _ _ _ _ Hok).
  - unfold unresolved. apply NoDup_filter, NoDup_seq.
  - intros i. unfold unresolved. rewrite list_elem_of_filter, elem_of_seq, (st_length _ _ _ _ Eb).
    unfold open_at. split; intros [? ?]; split; try done; lia.
Qed.

(** C28. An unpacked pack: every entry of the pack was read and expanded, and its
    content is there under its own hash; nothing else is; what will be stored is
    the compressed form of exactly these objects, each once; and their number
    and total size are within the limits, deltas expanded. *)
Theorem unpack_pack_sound pack cas limits u :
  max_inflated_bytes limits < u64_max → max_objects limits < u64_max →
  unpack_pack pack cas limits = Ok u →
  ∃ items raws, pack_entries pack = Ok items ∧ Forall2 entry_read items raws ∧
    N.of_nat (length raws) ≤ max_objects limits ∧
    (∀ i, (i < length raws)%nat → ∃ k d oid, expands cas raws i k d ∧ compute_hash k d = Ok oid ∧
       is_Some (by_oid u !! oid)) ∧
    (∀ oid k d, by_oid u !! oid = Some (k, d) → ∃ i, expands cas raws i k d) ∧
    pack_ok (max_inflated_bytes limits) u.
Proof. apply unpack_pack_ok. Qed.
End Contents.

(** * The walk decides reachability *)

Section Walk.
Context `{GitEngine} `{Cas C} (u : UnpackedPack) (cas : C).

(** What lies below an object, as far as the pushed objects tell. *)
Inductive reaches (target : string) : string → Prop :=
| reaches_target : reaches target target
| reaches_ref o k d refs r :
    reaches target o → by_oid u !! o = Some (k, d) → object_refs k d = Some refs → r ∈ refs →
    reaches target r.

(** A pushed object that parses, or a stored one. *)
Definition satisfied (o : string) : Prop :=
  match by_oid u !! o with
  | Some (k, d) => is_Some (object_refs k d)
  | None => is_Some (cas_get cas o)
  end.

(** The references of the pushed objects not visited yet. *)
Definition unvisited (seen : gset string) : nat :=
  sum_list_with (λ p, if decide (p.1 ∈ seen) then 0%nat else ref_count p.2) (map_to_list (by_oid u)).

Lemma unvisited_visit seen o k d :
  o ∉ seen → by_oid u !! o = Some (k, d) →
  (ref_count (k, d) + unvisited ({[ o ]} ∪ seen) = unvisited seen)%nat.
Proof.
  intros Hseen Ho. unfold unvisited.
  rewrite <- (insert_delete_id (by_oid u) o (k, d) Ho).
  rewrite map_to_list_insert by apply lookup_delete_eq. simpl.
  rewrite decide_True by set_solver. rewrite decide_False by done. simpl.
  f_equal. set (l := map_to_list _).
  assert (∀ p, p ∈ l → p.1 ≠ o) as Hl.
  { intros [x v] Hp%elem_of_map_to_list. simpl. intros ->. by rewrite lookup_delete_eq in Hp. }
  clearbody l. induction l as [|p l IH]; simpl; [done|].
  rewrite IH by (intros q Hq; apply Hl; set_solver). f_equal.
  specialize (Hl p ltac:(set_solver)).
  destruct (decide (p.1 ∈ seen)); [rewrite decide_True by set_solver|rewrite decide_False by set_solver]; done.
Qed.

Lemma unvisited_skip seen o : by_oid u !! o = None → unvisited ({[ o ]} ∪ seen) = unvisited seen.
Proof.
  intros Ho. unfold unvisited. set (l := map_to_list _).
  assert (∀ p, p ∈ l → p.1 ≠ o) as Hl.
  { intros [x v] Hp%elem_of_map_to_list. simpl. intros ->. congruence. }
  clearbody l. induction l as [|p l IH]; simpl; [done|].
  rewrite IH by (intros q Hq; apply Hl; set_solver). f_equal.
  specialize (Hl p ltac:(set_solver)).
  destruct (decide (p.1 ∈ seen)); [rewrite decide_True by set_solver|rewrite decide_False by set_solver]; done.
Qed.

(** What the walk maintains: everything on the stack or seen lies below the
    target, which is among them; what was seen is satisfied, and what it refers
    to is seen or on the stack. *)
Record walk_inv (target : string) (stack : list string) (seen : gset string) (lookups : N) : Prop := {
  walk_below : ∀ o, o ∈ stack ∨ o ∈ seen → reaches target o;
  walk_target : target ∈ stack ∨ target ∈ seen;
  walk_satisfied : ∀ o, o ∈ seen → satisfied o;
  walk_closed : ∀ o k d refs r, o ∈ seen → by_oid u !! o = Some (k, d) → object_refs k d = Some refs →
    r ∈ refs → r ∈ stack ∨ r ∈ seen;
  walk_lookups : lookups ≤ N.of_nat (size (seen ∖ dom (by_oid u)));
}.

Lemma walk_inv_seen target o stack seen lookups :
  walk_inv target (o :: stack) seen lookups → o ∈ seen → walk_inv target stack seen lookups.
Proof. intros [Hb Ht Hs Hc Hl] Ho. split; [set_solver..|done]. Qed.

Lemma walk_inv_store target o stack seen lookups :
  walk_inv target (o :: stack) seen lookups → o ∉ seen → by_oid u !! o = None → is_Some (cas_get cas o) →
  walk_inv target stack ({[ o ]} ∪ seen) (as_u32 (lookups + 1)).
Proof.
  intros [Hb Ht Hs Hc Hl] Hseen Ho Hcas. split.
  - set_solver.
  - set_solver.
  - intros x [->%elem_of_singleton|Hx]%elem_of_union; [|by apply Hs]. unfold satisfied. by rewrite Ho.
  - intros x k d refs r [->%elem_of_singleton|Hx]%elem_of_union Hk Hr Hin; [congruence|]. set_solver.
  - assert (as_u32 (lookups + 1) ≤ lookups + 1) by (apply N.Div0.mod_le).
    rewrite difference_union_distr_l_L, size_union;
      [|apply not_elem_of_dom in Ho; set_solver].
    assert ({[o]} ∖ dom (by_oid u) = {[o]}) as -> by (apply not_elem_of_dom in Ho; set_solver).
    rewrite size_singleton. lia.
Qed.

Lemma walk_inv_push target o stack seen lookups k d refs :
  walk_inv target (o :: stack) seen lookups → by_oid u !! o = Some (k, d) → object_refs k d = Some refs →
  walk_inv target (reverse refs ++ stack) ({[ o ]} ∪ seen) lookups.
Proof.
  intros [Hb Ht Hs Hc Hl] Ho Hr. assert (reaches target o) as Hreach by (apply Hb; set_solver). split.
  - intros x Hx. rewrite elem_of_app, elem_of_reverse in Hx.
    destruct Hx as [[Hx|Hx]|Hx]; [by eapply reaches_ref|set_solver|set_solver].
  - set_solver.
  - intros x [->%elem_of_singleton|Hx]%elem_of_union; [|by apply Hs]. unfold satisfied. rewrite Ho. by eexists.
  - intros x k' d' refs' r Hx Hk Hrefs Hin. rewrite elem_of_app, elem_of_reverse.
    apply elem_of_union in Hx as [->%elem_of_singleton|Hx]; [simplify_eq; auto|].
    destruct (Hc x k' d' refs' r Hx Hk Hrefs Hin) as [[->|]%elem_of_cons|]; set_solver.
  - assert (dom (by_oid u) = {[o]} ∪ dom (by_oid u)) as Hd.
    { assert (o ∈ dom (by_oid u)) by (apply elem_of_dom; by eexists). set_solver. }
    replace (({[o]} ∪ seen) ∖ dom (by_oid u)) with (seen ∖ dom (by_oid u)); [done|].
    assert (o ∈ dom (by_oid u)) by (apply elem_of_dom; by eexists). set_solver.
Qed.

Definition walk_result (target : string) (max_lookups : N) (r : result ReceiveError bool) : Prop :=
  match r with
  | Ok true => ∀ o, reaches target o → satisfied o
  | Ok false => ∃ o, reaches target o ∧ ¬ satisfied o
  | Err e => e = CasLookupBudgetExceeded max_lookups ∧
      ∃ B : gset string, max_lookups < N.of_nat (size B) ∧
        ∀ o, o ∈ B → reaches target o ∧ by_oid u !! o = None
  end.

Lemma walk_spec fuel target max_lookups stack seen lookups :
  walk_inv target stack seen lookups → (length stack + unvisited seen ≤ fuel)%nat →
  ∃ r, walk fuel u cas max_lookups stack seen lookups = Some r ∧ walk_result target max_lookups r.
Proof.
  revert stack seen lookups. induction fuel as [|fuel IH]; intros [|o stack] seen lookups Hinv Hfuel; simpl in *; try lia.
  1-2: exists (Ok true); split; [done|]; intros x Hx;
    destruct Hinv as [Hb Ht Hs Hc Hl]; apply Hs; induction Hx; set_solver.
  destruct (decide (o ∈ seen)) as [Hseen|Hseen].
  { apply IH; [by eapply walk_inv_seen|lia]. }
  assert (reaches target o) as Hreach by (apply (walk_below _ _ _ _ Hinv); set_solver).
  destruct (by_oid u !! o) as [[k d]|] eqn:Eo.
  - destruct (object_refs k d) as [refs|] eqn:Er.
    + apply IH; [by eapply walk_inv_push|]. pose proof (unvisited_visit seen o k d Hseen Eo) as Hv.
      unfold ref_count in Hv. simpl in Hv. rewrite Er in Hv. simpl in Hv.
      rewrite length_app, length_reverse. lia.
    + exists (Ok false). split; [done|]. exists o. split; [done|]. unfold satisfied. rewrite Eo, Er. by intros [].
  - destruct (N.ltb_spec max_lookups (as_u32 (lookups + 1))) as [Hlt|_].
    { eexists. split; [done|]. split; [done|]. exists ({[o]} ∪ (seen ∖ dom (by_oid u))).
      rewrite size_union by set_solver. rewrite size_singleton. split.
      - pose proof (walk_lookups _ _ _ _ Hinv). assert (as_u32 (lookups + 1) ≤ lookups + 1) by (apply N.Div0.mod_le). lia.
      - intros x [->%elem_of_singleton|[Hx Hd]%elem_of_difference]%elem_of_union; [done|].
        split; [apply (walk_below _ _ _ _ Hinv); auto|]. by apply not_elem_of_dom. }
    unfold cas_contains. destruct (bool_decide_reflect (is_Some (cas_get cas o))) as [Hcas|Hcas].
    + apply IH; [by apply (walk_inv_store target o)|]. rewrite unvisited_skip by done. lia.
    + exists (Ok false). split; [done|]. exists o. split; [done|]. unfold satisfied. by rewrite Eo.
Qed.

Lemma target_reachable_ok target max_lookups :
  is_Some (walk (walk_fuel u) u cas max_lookups [target] ∅ 0) ∧
  match target_reachable u target cas max_lookups with
  | Ok b => b = true ↔ is_Some (by_oid u !! target) ∧ ∀ o, reaches target o → satisfied o
  | Err e => e = CasLookupBudgetExceeded max_lookups ∧
      ∃ B : gset string, max_lookups < N.of_nat (size B) ∧
        ∀ o, o ∈ B → reaches target o ∧ by_oid u !! o = None
  end.
Proof.
  destruct (walk_spec (walk_fuel u) target max_lookups [target] ∅ 0) as (r & Hw & Hr).
  - split; [|set_solver|set_solver|set_solver|lia]. intros o [->%list_elem_of_singleton|]; [constructor|set_solver].
  - unfold walk_fuel, unvisited. simpl. apply le_n_S. induction (map_to_list (by_oid u)) as [|p l IH]; simpl; [lia|].
    rewrite decide_False by set_solver. lia.
  - split; [by rewrite Hw|]. unfold target_reachable. rewrite Hw. simpl.
    destruct r as [[]|e]; simpl in *; [|split; [done|]|done].
    + rewrite bool_decide_eq_true. naive_solver.
    + intros [_ Hall]. destruct Hr as (o & Ho & Hn). by apply Hall in Ho.
Qed.

(** C29. The reachability walk always ends.  It answers yes exactly when the target
    was delivered and everything below it is delivered and well formed, or
    stored; and it gives up only after more than the allowed number of distinct
    objects had to be looked up. *)
Theorem target_reachable_correct target max_lookups :
  is_Some (walk (walk_fuel u) u cas max_lookups [target] ∅ 0) ∧
  match target_reachable u target cas max_lookups with
  | Ok b => b = true ↔ is_Some (by_oid u !! target) ∧ ∀ o, reaches target o → satisfied o
  | Err e => e = CasLookupBudgetExceeded max_lookups ∧
      ∃ B : gset string, max_lookups < N.of_nat (size B) ∧
        ∀ o, o ∈ B → reaches target o ∧ by_oid u !! o = None
  end.
Proof. apply target_reachable_ok. Qed.
End Walk.

(** * What receiving does *)

Section Effects.
Context `{Cas C} `{!CasLaws C}.

(** What a batch leaves at an object id: what was there, or the first object of
    the batch with that id. *)
Definition first_with (oid : string) (os : list CasObject) : option CasObject :=
  head (filter (λ o, cas_oid o = oid) os).

Lemma store_objects_get (c : C) os oid :
  cas_get (store_objects c os) oid =
    match cas_get c oid with Some b => Some b | None => cas_bytes <$> first_with oid os end.
Proof.
  revert c. induction os as [|o os IH]; intros c; simpl.
  { by destruct (cas_get c oid). }
  unfold store_objects in *. simpl. rewrite IH, cas_get_put. unfold first_with in *. rewrite filter_cons.
  case_decide as Hd.
  - rewrite decide_True by done. by destruct (cas_get c oid).
  - by rewrite decide_False by done.
Qed.

Lemma first_with_Some oid os o : first_with oid os = Some o → o ∈ os ∧ cas_oid o = oid.
Proof.
  unfold first_with. intros Hh. assert (o ∈ filter (λ o, cas_oid o = oid) os) as Hin.
  { destruct (filter _ os); simpl in Hh; simplify_eq. apply list_elem_of_here. }
  by apply list_elem_of_filter in Hin as [? ?].
Qed.
Lemma first_with_is_Some oid os : oid ∈ cas_oid <$> os → is_Some (first_with oid os).
Proof.
  intros (o & -> & Ho)%list_elem_of_fmap. unfold first_with.
  assert (o ∈ filter (λ o', cas_oid o' = cas_oid o) os) as Hin by (by apply list_elem_of_filter).
  destruct (filter _ os); [by apply not_elem_of_nil in Hin|by eexists].
Qed.

Lemma store_objects_mono (c : C) os oid : is_Some (cas_get c oid) →
  cas_get (store_objects c os) oid = cas_get c oid.
Proof. intros [b Hb]. by rewrite store_objects_get, Hb. Qed.
Lemma store_objects_stored (c : C) os oid : oid ∈ cas_oid <$> os → is_Some (cas_get (store_objects c os) oid).
Proof.
  intros [o Ho]%first_with_is_Some. rewrite store_objects_get, Ho. by destruct (cas_get c oid).
Qed.
End Effects.

Lemma body_bytes_le m oid k d : m !! oid = Some (k, d) → (length d ≤ body_bytes m)%nat.
Proof.
  intros Hm. rewrite <- (insert_delete_id m oid (k, d) Hm), body_bytes_insert by apply lookup_delete_eq. lia.
Qed.

Section Contract.
Context `{Crypto} `{!SerdeJson} `{!SerdeJsonLaws} `{!JsonTextLaws} `{GitEngine} `{!GitEngineLaws}
  `{Cas C} `{!CasLaws C}.
Implicit Types (cas : C) (limits : RecvLimits) (u : UnpackedPack).

(** Everything that has to hold for a push to be accepted. *)
Record acceptable (gate : FlagGate) (req : ReceiveRequest) cas (current_refs : gmap string string)
    limits u : Prop := {
  acc_gate : write_path_enabled gate = true;
  acc_chain : req_chain req ≠ [];
  acc_bytes : N.of_nat (length (pack req)) ≤ max_pack_bytes limits;
  acc_unpack : unpack_pack (pack req) cas limits = Ok u;
  acc_expected : current_refs !! recv_ref (update req) = recv_expected (update req);
  acc_target : is_Some (by_oid u !! new_oid (update req)) ∨
    is_Some (cas_get cas (new_oid (update req)));
  acc_below : is_Some (by_oid u !! new_oid (update req)) →
    ∀ o, reaches u (new_oid (update req)) o → satisfied u cas o;
}.

Lemma receive_pack_cases gate req cas log current_refs limits cas' log' r :
  receive_pack gate req cas log current_refs limits = (cas', log', r) →
  match r with
  | Err _ => cas' = cas ∧ log' = log
  | Ok receipt => ∃ u, acceptable gate req cas current_refs limits u ∧
      cas' = store_objects cas (objects u) ∧
      stored_oids receipt = merge_sort String.le (cas_oid <$> objects u) ∧
      (log', event receipt) =
        append log "ref.update" (req_chain req) (update_text (recv_ref (update req)) (new_oid (update req))) (req_at req)
  end.
Proof.
  unfold receive_pack, admit_write. destruct (write_path_enabled gate) eqn:Eg; [|by intros [= <- <- <-]].
  case_decide; [by intros [= <- <- <-]|].
  destruct (N.ltb_spec (max_pack_bytes limits) (N.of_nat (length (pack req)))); [by intros [= <- <- <-]|].
  destruct (pack_header_object_count (pack req)); [|by intros [= <- <- <-]].
  destruct (_ <? _); [by intros [= <- <- <-]|].
  destruct (unpack_pack (pack req) cas limits) as [u|] eqn:Eu; [|by intros [= <- <- <-]].
  cbv zeta. set (target := new_oid (update req)). unfold cas_contains.
  destruct (bool_decide_reflect (is_Some (by_oid u !! target))) as [Hdel|Hdel]; cbn [negb andb].
  - pose proof (target_reachable_ok u cas target (max_cas_lookups limits)) as [_ Hreach].
    destruct (target_reachable u target cas (max_cas_lookups limits)) as [[]|]; [|by intros [= <- <- <-]..].
    case_decide as Hexp; [by intros [= <- <- <-]|]. simpl.
    intros [= <- <- <-]. exists u. split_and!; [|done..]. split; try done; [by left|]. intros _. by apply (proj2 (proj1 Hreach eq_refl)).
  - destruct (bool_decide_reflect (is_Some (cas_get cas target))) as [Hcas|]; cbn [negb]; [|by intros [= <- <- <-]].
    case_decide as Hexp; [by intros [= <- <- <-]|]. simpl.
    intros [= <- <- <-]. exists u. split_and!; [|done..]. split; try done. by right.
Qed.

(** The contract of a receive: a refused push changes neither the store nor the
    log; an accepted one was enabled, attributed, within bounds and expected the
    tip that was there, appends exactly one external change that moves its ref
    and no other, keeps every stored object, adds the delivered ones, and leaves
    everything delivered below its target in the store. *)
Theorem receive_pack_contract gate req cas log st current_refs limits cas' log' r :
  serves log st → max_inflated_bytes limits < u64_max → max_objects limits < u64_max →
  receive_pack gate req cas log current_refs limits = (cas', log', r) →
  match r with
  | Err _ => cas' = cas ∧ log' = log
  | Ok receipt => ∃ u, acceptable gate req cas current_refs limits u ∧
      records log' = records log ++ [event receipt] ∧ kind (event receipt) = "ref.update" ∧
      principal_chain (event receipt) = req_chain req ∧
      serves log' {| refs := <[recv_ref (update req) := new_oid (update req)]> (refs st) |} ∧
      (∀ oid, is_Some (cas_get cas oid) → cas_get cas' oid = cas_get cas oid) ∧
      (∀ oid, oid ∈ stored_oids receipt ↔ is_Some (by_oid u !! oid)) ∧
      (∀ oid, is_Some (by_oid u !! oid) → is_Some (cas_get cas' oid)) ∧
      (is_Some (by_oid u !! new_oid (update req)) →
        ∀ o, reaches u (new_oid (update req)) o → is_Some (cas_get cas' o))
  end.
Proof.
  intros Hs Hmax Hobj Hrun. apply receive_pack_cases in Hrun. destruct r as [receipt|]; [|done].
  destruct Hrun as (u & Hacc & -> & Hst & Hlog). exists u. split; [done|].
  destruct (unpack_pack_ok _ _ _ _ Hmax Hobj (acc_unpack _ _ _ _ _ _ Hacc)) as (_ & _ & _ & _ & _ & _ & _ & Hok).
  assert (∀ oid, is_Some (by_oid u !! oid) → is_Some (cas_get (store_objects cas (objects u)) oid)) as Hstored.
  { intros oid Ho. by apply store_objects_stored, (decoded_stored _ _ Hok). }
  injection Hlog as Hl He. rewrite He, Hl. split_and!; try done.
  - pose proof (push_effect log (UpdatePush (recv_ref (update req)) (new_oid (update req))) (req_chain req) (req_at req)) as Heff.
    pose proof (serves_append log st REF_UPDATE_KIND (req_chain req)
      (update_text (recv_ref (update req)) (new_oid (update req))) (req_at req)) as Ha.
    simpl in Heff, Ha. rewrite Heff in Ha. by apply Ha.
  - intros oid Ho. by apply store_objects_mono.
  - intros oid. rewrite Hst, merge_sort_Permutation. split; [|apply (decoded_stored _ _ Hok)].
    intros (o & -> & Ho)%list_elem_of_fmap. destruct (objects_decoded _ _ Hok o Ho) as (k & d & Hk & _). by eexists.
  - intros Hdel o Ho. pose proof (acc_below _ _ _ _ _ _ Hacc Hdel o Ho) as Hsat. unfold satisfied in Hsat.
    destruct (by_oid u !! o) as [[k d]|] eqn:Eo; [apply Hstored; by rewrite Eo|].
    by rewrite store_objects_mono.
Qed.

(** Every stored object decodes to content whose hash is its id. *)
Definition store_valid cas : Prop := ∀ oid bytes, cas_get cas oid = Some bytes →
  ∃ k d, decode_cas_object bytes = Ok (k, d) ∧ compute_hash k d = Ok oid.

(** An object put by a batch, if it was not there. *)
Lemma stored_content max_inflated cas u oid bytes :
  pack_ok max_inflated u → max_inflated < u64_max → cas_get cas oid = None →
  cas_get (store_objects cas (objects u)) oid = Some bytes →
  ∃ k d, by_oid u !! oid = Some (k, d) ∧ decode_cas_object bytes = Ok (k, d).
Proof.
  intros Hok Hmax Hn. rewrite store_objects_get, Hn.
  destruct (first_with oid (objects u)) as [o|] eqn:Eo; simpl; [|done]. intros [= <-].
  apply first_with_Some in Eo as [Ho <-]. destruct (objects_decoded _ _ Hok o Ho) as (k & d & Hk & Hz).
  exists k, d. split; [done|]. apply decode_compressed; [|done].
  pose proof (body_bytes_le _ _ _ _ Hk). pose proof (decoded_size _ _ Hok). lia.
Qed.

(** C30. Receiving keeps the store valid: whatever is pushed, every object in the
    store is under the hash of the content it decodes to. *)
Theorem receive_keeps_store_valid gate req cas log current_refs limits cas' log' r :
  max_inflated_bytes limits < u64_max → max_objects limits < u64_max → store_valid cas →
  receive_pack gate req cas log current_refs limits = (cas', log', r) → store_valid cas'.
Proof.
  intros Hmax Hobj Hv Hrun. apply receive_pack_cases in Hrun. destruct r as [receipt|]; [|by destruct Hrun as [-> _]].
  destruct Hrun as (u & Hacc & -> & _).
  destruct (unpack_pack_ok _ _ _ _ Hmax Hobj (acc_unpack _ _ _ _ _ _ Hacc)) as (_ & _ & _ & _ & _ & _ & _ & Hok).
  intros oid bytes Hb. destruct (cas_get cas oid) as [old|] eqn:Eo.
  - rewrite store_objects_mono in Hb by (by rewrite Eo). apply Hv. by rewrite <- Hb, Eo.
  - destruct (stored_content _ _ _ _ _ Hok Hmax Eo Hb) as (k & d & Hk & Hd). exists k, d. split; [done|].
    by apply (decoded_hash _ _ Hok).
Qed.

(** ** Complete histories *)

Definition store_object cas (oid : string) : option (Kind * list byte) :=
  match cas_get cas oid with
  | Some bytes => match decode_cas_object bytes with Ok x => Some x | Err _ => None end
  | None => None
  end.
Inductive below cas (target : string) : string → Prop :=
| below_target : below cas target target
| below_ref o k d refs r :
    below cas target o → store_object cas o = Some (k, d) → object_refs k d = Some refs → r ∈ refs →
    below cas target r.
(** Everything below an object is stored and parses. *)
Definition complete cas (target : string) : Prop :=
  ∀ o, below cas target o → ∃ k d, store_object cas o = Some (k, d) ∧ is_Some (object_refs k d).

(** C13. A push into a store whose objects are all complete leaves its target
    complete: a clone of the moved ref finds every object. *)
Theorem receive_target_complete gate req cas log current_refs limits cas' log' receipt :
  max_inflated_bytes limits < u64_max → max_objects limits < u64_max →
  (∀ o, is_Some (cas_get cas o) → complete cas o) →
  receive_pack gate req cas log current_refs limits = (cas', log', Ok receipt) →
  complete cas' (new_oid (update req)).
Proof.
  intros Hmax Hobj Hclosed Hrun. apply receive_pack_cases in Hrun as (u & Hacc & -> & _).
  destruct (unpack_pack_ok _ _ _ _ Hmax Hobj (acc_unpack _ _ _ _ _ _ Hacc)) as (_ & _ & _ & _ & _ & _ & _ & Hok).
  set (target := new_oid (update req)). set (cas' := store_objects cas (objects u)).
  set (Q o := is_Some (cas_get cas o) ∨
    (cas_get cas o = None ∧ is_Some (by_oid u !! o) ∧ is_Some (by_oid u !! target) ∧ reaches u target o)).
  assert (∀ o, is_Some (by_oid u !! target) → reaches u target o → Q o) as HQ.
  { intros o Hdel Ho. pose proof (acc_below _ _ _ _ _ _ Hacc Hdel o Ho) as Hsat. unfold satisfied in Hsat. unfold Q.
    destruct (by_oid u !! o) as [[k d]|]; [|by left]. destruct (cas_get cas o); [left|right]; eauto. }
  assert (∀ o, Q o → ∃ k d refs, store_object cas' o = Some (k, d) ∧ object_refs k d = Some refs ∧
    ∀ r, r ∈ refs → Q r) as Hstep.
  { intros o [Hold|(Hnew & Hby & Hdel & Ho)].
    - destruct (Hclosed o Hold o (below_target _ _)) as (k & d & Hk & [refs Hr]). exists k, d, refs.
      split_and!; [|done|].
      + unfold store_object, cas'. by rewrite store_objects_mono.
      + intros r Hin. left. destruct (Hclosed o Hold r) as (k' & d' & Hk' & _).
        * eapply below_ref; [apply below_target|done..].
        * unfold store_object in Hk'. by destruct (cas_get cas r).
    - destruct (store_objects_stored cas (objects u) o) as [bytes Hb]; [by apply (decoded_stored _ _ Hok)|].
      destruct (stored_content _ _ _ _ _ Hok Hmax Hnew Hb) as (k & d & Hk & Hd).
      pose proof (acc_below _ _ _ _ _ _ Hacc Hdel o Ho) as Hsat. unfold satisfied in Hsat. rewrite Hk in Hsat.
      destruct Hsat as [refs Hr]. exists k, d, refs. split_and!; [|done|].
      + unfold store_object, cas'. by rewrite Hb, Hd.
      + intros r Hin. apply HQ; [done|]. by eapply reaches_ref. }
  intros o Ho. assert (Q o) as Hq.
  { induction Ho as [|o k d refs r _ IH Hk Hr Hin].
    - destruct (acc_target _ _ _ _ _ _ Hacc) as [Hdel|Hold]; [|by left]. apply HQ; [done|constructor].
    - destruct (Hstep o IH) as (k' & d' & refs' & Hk' & Hr' & Hall). simplify_eq. by apply Hall. }
  destruct (Hstep o Hq) as (k & d & refs & Hk & Hr & _). exists k, d. by rewrite Hr.
Qed.
End Contract.

(** * A small engine *)

(** Packs list kind, length and body of each entry; an object's id is its kind
    and body; a commit's body is the id of its tree, a tree's body the id of its
    one entry. *)
Module ToyGit.
Definition kind_letter (k : Kind) : string :=
  match k with KCommit => "c" | KTree => "t" | KBlob => "b" | KTag => "g" end.
Definition kind_of (b : byte) : Kind :=
  match b with x01 => KTree | x02 => KCommit | x03 => KTag | _ => KBlob end.
Fixpoint entries (fuel : nat) (offset : N) (l : list byte) : list (result string InputEntry) :=
  match fuel, l with
  | S fuel, k :: n :: l =>
      let n := N.to_nat (Byte.to_N n) in
      Ok {| in_header := BaseHeader (kind_of k); in_offset := offset; decompressed_size := N.of_nat n;
            compressed := Some (x78 :: take n l) |}
      :: entries fuel (offset + 2 + N.of_nat n) (drop n l)
  | _, _ => []
  end.
Definition text (d : list byte) : string := String.string_of_list_byte d.

#[export] Instance toy_git : GitEngine := {|
  pack_entries p := Ok (entries (length p) 12 (drop 12 p));
  compute_hash k d := Ok (kind_letter k +:+ text d);
  loose_header k n := kind_token k ++ [x20] ++ as_bytes (decimal n) ++ [x00];
  commit_tree_id d := Some (text d);
  commit_parent_ids d := [];
  tree_entries d := Some (match d with [] => [] | _ => [{| entry_is_commit := false; entry_oid := text d |}] end);
  tag_target_id d := Some (text d);
  zlib_inflate z := match z with x78 :: d => Ok d | _ => Err "not zlib" end;
  zlib_deflate d := Ok (x78 :: d);
|}.
#[export] Instance toy_git_laws : GitEngineLaws.
Proof.
  constructor.
  - done.
  - intros x y. simpl. by intros [= <-].
  - intros x y. simpl. by intros [= <-].
Qed.

(** A pack of the given objects. *)
Definition entry (k : byte) (body : string) : list byte :=
  k :: byte_of_N (N.of_nat (String.length body)) :: as_bytes body.
Definition make_pack (es : list (byte * string)) : list byte :=
  as_bytes "PACK" ++ be_bytes 4 2 ++ be_bytes 4 (N.of_nat (length es)) ++ (es ≫= λ e, entry e.1 e.2).
End ToyGit.

Module ReceiveExample.
#[local] Existing Instance Toy.toy.
#[local] Existing Instance TextCodec.text_codec.
#[local] Existing Instance TextCodec.text_codec_laws.
#[local] Existing Instance TextCodec.text_codec_text.
Import ToyGit.

Definition limits : RecvLimits := {|
  max_pack_bytes := 1000; max_inflated_bytes := 1000; max_objects := 10; max_delta_passes := 5;
  max_cas_lookups := 5 |}.
Definition request (es : list (byte * string)) (ref : string) (expected : option string) (oid : string)
    : ReceiveRequest := {|
  pack := make_pack es; update := {| recv_ref := ref; recv_expected := expected; new_oid := oid |};
  req_chain := ["user:alice"]; req_at := 1 |}.

(** A commit with its tree and blob, and a commit whose tree is missing. *)
Definition first_push : ReceiveRequest :=
  request [(x00, "hi"); (x01, "bhi"); (x02, "tbhi"); (x02, "tzz")] "refs/heads/main" None "ctbhi".
(** Nothing but a ref moved to the second of those commits. *)
Definition second_push : ReceiveRequest := request [] "refs/heads/x" None "ctzz".

Definition empty_store : InMemoryCas := InMemoryCas_new.
Definition received : InMemoryCas * EventLog * result ReceiveError Receipt :=
  receive_pack FlagGate_self_hosted_alpha first_push empty_store EventLog_new ∅ limits.

Lemma received_ok : ∃ receipt, received = (received.1.1, received.1.2, Ok receipt) ∧
  stored_oids receipt = ["bhi"; "ctbhi"; "ctzz"; "tbhi"].
Proof. eexists. split; [vm_compute; reflexivity|vm_compute; reflexivity]. Qed.

Lemma unpack_pack_sound_witness : ∃ u, unpack_pack (pack first_push) empty_store limits = Ok u ∧
  pack_ok 1000 u.
Proof.
  destruct (unpack_pack (pack first_push) empty_store limits) as [u|] eqn:E;
    [|exfalso; revert E; vm_compute; discriminate].
  exists u. split; [reflexivity|].
  destruct (unpack_pack_sound (pack first_push) empty_store limits u) as (items & raws & _ & _ & _ & _ & _ & Hok);
    [reflexivity|reflexivity|exact E|exact Hok].
Defined.

Lemma receive_pack_contract_witness :
  serves received.1.2 {| refs := {[ "refs/heads/main" := "ctbhi" ]} |}.
Proof.
  destruct received_ok as (receipt & Hr & _).
  destruct (receive_pack_contract FlagGate_self_hosted_alpha first_push empty_store EventLog_new RefState_new ∅
    limits received.1.1 received.1.2 (Ok receipt)) as (u & _ & _ & _ & _ & Hs & _);
    [split; [apply intact_nil|reflexivity]|reflexivity|reflexivity|exact Hr|exact Hs].
Defined.

Lemma receive_keeps_store_valid_witness : store_valid received.1.1.
Proof.
  destruct received_ok as (receipt & Hr & _).
  apply (receive_keeps_store_valid FlagGate_self_hosted_alpha first_push empty_store EventLog_new ∅
    limits received.1.1 received.1.2 (Ok receipt)); [reflexivity|reflexivity| |exact Hr].
  intros oid bytes. discriminate.
Defined.

Lemma receive_target_complete_witness : complete received.1.1 "ctbhi".
Proof.
  destruct received_ok as (receipt & Hr & _).
  apply (receive_target_complete FlagGate_self_hosted_alpha first_push empty_store EventLog_new ∅
    limits received.1.1 received.1.2 receipt); [reflexivity|reflexivity| |exact Hr].
  intros o [b Hb]. discriminate Hb.
Defined.

(** An object stored beside a good target is later taken as a good target
    itself: the ref ends on a commit whose tree is nowhere. *)
Example stray_object_becomes_tip :
  let start := {| recv_cas := empty_store; recv_log := EventLog_new;
                  recv_gate := FlagGate_self_hosted_alpha; recv_limits := limits |} in
  let '(r1, res1) := receive start first_push in
  let '(r2, res2) := receive r1 second_push in
  is_ok res1 = true ∧ is_ok res2 = true ∧
  (ref_view (recv_log r2) ≫= λ st, ref_get st "refs/heads/x") = Some "ctzz" ∧
  store_object (recv_cas r2) "ctzz" = Some (KCommit, as_bytes "tzz") ∧ cas_get (recv_cas r2) "tzz" = None.
Proof. by vm_compute. Qed.
End ReceiveExample.
