(* ===== verification/Serve.v ===== *)
(** Serving clones and fetches: [crates/hugit-proto/src/read/serve/mod.rs], with
    the object source and pack assembly of
    [crates/hugit-proto/src/read/pack/mod.rs] and the ref advertisement and
    requests of [crates/hugit-proto/src/read/negotiate/mod.rs].

    The object source is the trait [ObjectSource], a class here; an object id is
    its hex text, whose order is that of the id.  [prefetch] never changes what
    is read and is left out.  The clock is read where the code reads it: the
    [n]-th reading is past the deadline when [expired n].  A walk goes wave by
    wave; its fuel bounds the number of waves.

    The theorems: a walk over an acyclic object graph ends; a served pack holds
    exactly objects below the wants, each once and in order, and together with
    what lies below the haves it holds all of them, or nothing is served; a
    shallow pack is complete up to the boundary it announces. *)

From S2P Require Import Prelude Json JsonCodec Crypto Log Tamper Replay Push Delta Receive.

(** * Objects *)

Record GitObject := { obj_kind : Kind; obj_data : list byte }.

Inductive PackError :=
| MissingObject (oid : string)
| InvalidOid (text : string)
| AddressMismatch (stored actual : string)
| HashError (e : string)
| EncodeError (e : string)
| WriteError (e : string)
| SourceError (e : string)
| PackDeadline.

Class ObjectSource (Src : Type) := { src_get : Src → string → result PackError (option GitObject) }.

Definition try_oid `{GitEngine} (o : GitObject) : result PackError string :=
  map_err HashError (compute_hash (obj_kind o) (obj_data o)).

(** [CasObjectSource]. *)
Record CasObjectSource := { source_objects : gmap string GitObject }.
Definition CasObjectSource_new : CasObjectSource := {| source_objects := ∅ |}.
(** [insert]; [None] is the panic of [oid]. *)
Definition source_insert `{GitEngine} (s : CasObjectSource) (o : GitObject) : option (CasObjectSource * string) :=
  match try_oid o with
  | Ok oid => Some ({| source_objects := <[oid := o]> (source_objects s) |}, oid)
  | Err _ => None
  end.
Definition source_get `{GitEngine} (s : CasObjectSource) (oid : string) : result PackError (option GitObject) :=
  match source_objects s !! oid with
  | None => Ok None
  | Some obj =>
      actual ← try_oid obj;
      if decide (actual ≠ oid) then Err (AddressMismatch oid actual) else Ok (Some obj)
  end.
#[export] Instance cas_object_source `{GitEngine} : ObjectSource CasObjectSource := {| src_get := source_get |}.

(** * Pack assembly *)

(** The pack writer of the git library. *)
Class PackWriter := {
  PackEntry : Type;
  entry_from_data : string → Kind → list byte → result string PackEntry;
  write_entries : list PackEntry → result string (list byte);
}.
Record PackAssembly := { pack_bytes : list byte; object_ids : list string }.

Section Assemble.
Context `{PackWriter} `{ObjectSource Src}.

(** One entry per object, looking at the clock before each. *)
Fixpoint pack_inputs (expired : nat → bool) (source : Src) (oids : list string) (n : nat)
    : result PackError (list PackEntry) :=
  match oids with
  | [] => Ok []
  | oid :: oids =>
      if expired n then Err PackDeadline
      else
        found ← src_get source oid;
        obj ← ok_or (MissingObject oid) found;
        entry ← map_err EncodeError (entry_from_data oid (obj_kind obj) (obj_data obj));
        entries ← pack_inputs expired source oids (n + 1);
        Ok (entry :: entries)
  end.

(** [assemble_pack_until] with a deadline. *)
Definition assemble_pack_until (expired : nat → bool) (source : Src) (oids : list string) (n : nat)
    : result PackError PackAssembly :=
  entries ← pack_inputs expired source oids n;
  if 4294967295 <? N.of_nat (length entries) then Err (WriteError "too many objects for a single pack")
  else
    bytes ← map_err WriteError (write_entries entries);
    Ok {| pack_bytes := bytes; object_ids := oids |}.
End Assemble.

(** * Requests *)

Inductive NegotiationError :=
| NegIo (e : string)
| NegMalformed (e : string)
| BadOid (text : string).

Inductive ServeError :=
| ServeNegotiation (e : NegotiationError)
| ServePack (e : PackError)
| IncompleteClosure (oid : string)
| ServeDecode (oid : string)
| DeadlineExceeded.

(** The refs, by name. *)
Record RefAdvertisement := { adv_refs : list (string * string) }.
Definition by_name (a b : string * string) : Prop := String.le a.2 b.2.
#[global] Instance by_name_dec : RelDecision by_name.
Proof. unfold by_name. intros a b. apply _. Defined.
Definition from_view (view : list (string * string)) : RefAdvertisement :=
  {| adv_refs := merge_sort by_name ((λ no, (no.2, no.1)) <$> view) |}.

Record WantHave := { wants : list string; haves : list string; done_ : bool }.

Fixpoint parse_all (parse_oid : string → option string) (l : list (string * string))
    : result NegotiationError (list string) :=
  match l with
  | [] => Ok []
  | (oid, _) :: l => o ← ok_or (BadOid oid) (parse_oid oid); os ← parse_all parse_oid l; Ok (o :: os)
  end.
Definition tip_oids (parse_oid : string → option string) (adv : RefAdvertisement)
    : result NegotiationError (list string) := parse_all parse_oid (adv_refs adv).
Definition clone_all (parse_oid : string → option string) (adv : RefAdvertisement)
    : result NegotiationError WantHave :=
  tips ← tip_oids parse_oid adv; Ok {| wants := tips; haves := []; done_ := true |}.

(** * The walk *)

Section Walk.
Context `{GitEngine} `{ObjectSource Src} (expired : nat → bool) (source : Src).

(** [push_unseen]. *)
Definition push_unseen (excluded out : gset string) (next : list string) (oid : string) : list string :=
  if decide ((oid ∉ excluded) ∧ (oid ∉ out)) then next ++ [oid] else next.

(** The part of a frontier that is new, each once. *)
Fixpoint wave_batch (excluded out wave_seen : gset string) (frontier : list string) : list string :=
  match frontier with
  | [] => []
  | oid :: frontier =>
      if decide ((oid ∉ excluded) ∧ (oid ∉ out) ∧ (oid ∉ wave_seen))
      then oid :: wave_batch excluded out ({[ oid ]} ∪ wave_seen) frontier
      else wave_batch excluded out wave_seen frontier
  end.

(** Reading one wave: the readings so far, what is collected and the next
    frontier. *)
Fixpoint wave_reads (excluded : gset string) (strict : bool) (batch : list string)
    (n : nat) (out : gset string) (next : list string) : result ServeError (nat * gset string * list string) :=
  match batch with
  | [] => Ok (n, out, next)
  | oid :: batch =>
      if expired n then Err DeadlineExceeded
      else if decide (oid ∈ excluded ∨ oid ∈ out) then wave_reads excluded strict batch (n + 1) out next
      else
        found ← map_err ServePack (src_get source oid);
        match found with
        | None =>
            if strict then Err (IncompleteClosure oid)
            else wave_reads excluded strict batch (n + 1) out next
        | Some obj =>
            let out := {[ oid ]} ∪ out in
            refs ← ok_or (ServeDecode oid) (object_refs (obj_kind obj) (obj_data obj));
            wave_reads excluded strict batch (n + 1) out (foldl (push_unseen excluded out) next refs)
        end
  end.

Fixpoint collect_inner (fuel : nat) (excluded : gset string) (strict : bool) (n : nat) (out : gset string)
    (frontier : list string) : option (result ServeError (nat * gset string)) :=
  match frontier with
  | [] => Some (Ok (n, out))
  | _ =>
      match fuel with
      | O => None
      | S fuel =>
          if expired n then Some (Err DeadlineExceeded)
          else
            match wave_reads excluded strict (wave_batch excluded out ∅ frontier) (n + 1) out [] with
            | Err e => Some (Err e)
            | Ok (n, out, next) => collect_inner fuel excluded strict n out next
            end
      end
  end.

(** The roots one after the other, into one set. *)
Fixpoint collect_roots (fuel : nat) (excluded : gset string) (strict : bool) (n : nat) (out : gset string)
    (roots : list string) : option (result ServeError (nat * gset string)) :=
  match roots with
  | [] => Some (Ok (n, out))
  | root :: roots =>
      match collect_inner fuel excluded strict n out [root] with
      | None => None
      | Some (Err e) => Some (Err e)
      | Some (Ok (n, out)) => collect_roots fuel excluded strict n out roots
      end
  end.
End Walk.

Definition sorted_oids (s : gset string) : list string := merge_sort String.le (elements s).

Section Requests.
Context `{GitEngine} `{PackWriter} `{ObjectSource Src} (expired : nat → bool) (source : Src).

Definition assemble (n : nat) (oids : list string) : result ServeError PackAssembly :=
  map_err ServePack (assemble_pack_until expired source oids n).

(** [serve_request]. *)
Definition serve_request (fuel : nat) (request : WantHave) : option (result ServeError PackAssembly) :=
  match collect_roots expired source fuel ∅ false 0 ∅ (haves request) with
  | None => None
  | Some (Err e) => Some (Err e)
  | Some (Ok (n, excluded)) =>
      match collect_roots expired source fuel excluded true n ∅ (wants request) with
      | None => None
      | Some (Err e) => Some (Err e)
      | Some (Ok (n, included)) => Some (assemble n (sorted_oids included))
      end
  end.

Definition serve_clone (fuel : nat) (parse_oid : string → option string) (view : list (string * string))
    : option (result ServeError (RefAdvertisement * PackAssembly)) :=
  let adv := from_view view in
  match clone_all parse_oid adv with
  | Err e => Some (Err (ServeNegotiation e))
  | Ok request => (λ r, pack ← r; Ok (adv, pack)) <$> serve_request fuel request
  end.
End Requests.

(** * Shallow clones *)

(** What the first phase of a shallow walk gathers. *)
Record ShallowWalk := {
  commit_parents : gmap string (list string);
  commit_trees : list string;
  tag_objects : list string;
  extra_roots : list string;
}.
Definition ShallowWalk_new : ShallowWalk :=
  {| commit_parents := ∅; commit_trees := []; tag_objects := []; extra_roots := [] |}.
Definition visit_commit (w : ShallowWalk) (oid tree : string) (parents : list string) : ShallowWalk :=
  {| commit_parents := <[oid := parents]> (commit_parents w); commit_trees := commit_trees w ++ [tree];
     tag_objects := tag_objects w; extra_roots := extra_roots w |}.
Definition visit_tag (w : ShallowWalk) (oid : string) : ShallowWalk :=
  {| commit_parents := commit_parents w; commit_trees := commit_trees w;
     tag_objects := tag_objects w ++ [oid]; extra_roots := extra_roots w |}.
Definition visit_root (w : ShallowWalk) (oid : string) : ShallowWalk :=
  {| commit_parents := commit_parents w; commit_trees := commit_trees w;
     tag_objects := tag_objects w; extra_roots := extra_roots w ++ [oid] |}.

Section Shallow.
Context `{GitEngine} `{ObjectSource Src} (expired : nat → bool) (source : Src).

(** One wave of the commit walk.  The two walks of the code differ in when they
    go on to a commit's parents: up to a depth, or unless the commit is on the
    given boundary. *)
Fixpoint shallow_wave (follow : string → N → bool) (frontier : list (string * N)) (n : nat)
    (w : ShallowWalk) (next : list (string * N)) : result ServeError (nat * ShallowWalk * list (string * N)) :=
  match frontier with
  | [] => Ok (n, w, next)
  | (oid, d) :: frontier =>
      if expired n then Err DeadlineExceeded
      else
        found ← map_err ServePack (src_get source oid);
        match found with
        | None => Err (IncompleteClosure oid)
        | Some obj =>
            match obj_kind obj with
            | KCommit =>
                if decide (is_Some (commit_parents w !! oid))
                then shallow_wave follow frontier (n + 1) w next
                else
                  tree ← ok_or (ServeDecode oid) (commit_tree_id (obj_data obj));
                  let parents := commit_parent_ids (obj_data obj) in
                  shallow_wave follow frontier (n + 1) (visit_commit w oid tree parents)
                    (if follow oid d then next ++ ((λ p, (p, d + 1)) <$> parents) else next)
            | KTag =>
                target ← ok_or (ServeDecode oid) (tag_target_id (obj_data obj));
                shallow_wave follow frontier (n + 1) (visit_tag w oid) (next ++ [(target, d)])
            | KTree | KBlob => shallow_wave follow frontier (n + 1) (visit_root w oid) next
            end
        end
  end.

Fixpoint shallow_loop (fuel : nat) (follow : string → N → bool) (frontier : list (string * N)) (n : nat)
    (w : ShallowWalk) : option (result ServeError (nat * ShallowWalk)) :=
  match frontier with
  | [] => Some (Ok (n, w))
  | _ =>
      match fuel with
      | O => None
      | S fuel =>
          if expired n then Some (Err DeadlineExceeded)
          else match shallow_wave follow frontier (n + 1) w [] with
          | Err e => Some (Err e)
          | Ok (n, w, next) => shallow_loop fuel follow next n w
          end
      end
  end.

(** Both phases: the walk, and the closure of what it gathered. *)
Definition shallow_closure (fuel : nat) (follow : string → N → bool) (wants : list string)
    : option (result ServeError (nat * ShallowWalk * gset string)) :=
  match shallow_loop fuel follow ((λ w, (w, 1)) <$> wants) 0 ShallowWalk_new with
  | None => None
  | Some (Err e) => Some (Err e)
  | Some (Ok (n, w)) =>
      let included := dom (commit_parents w) ∪ list_to_set (tag_objects w) in
      match collect_roots expired source fuel ∅ true n included (commit_trees w ++ extra_roots w) with
      | None => None
      | Some (Err e) => Some (Err e)
      | Some (Ok (n, included)) => Some (Ok (n, w, included))
      end
  end.

(** An included commit with a parent that is not. *)
Definition cut_commits (w : ShallowWalk) : gset string :=
  dom (filter (λ cp, Exists (λ p, commit_parents w !! p = None) cp.2) (commit_parents w)).

Definition collect_shallow (fuel : nat) (wants : list string) (depth : N)
    : option (result ServeError (nat * list string * list string)) :=
  let depth := N.max depth 1 in
  (λ r, '(n, w, included) ← r; Ok (n, sorted_oids included, sorted_oids (cut_commits w)))
    <$> shallow_closure fuel (λ _ d, d <? depth) wants.

(** [collect_shallow_at]: the effective boundary is the part of the given one
    that was reached. *)
Definition collect_shallow_at (fuel : nat) (wants : list string) (boundary : gset string)
    : option (result ServeError (nat * list string * list string)) :=
  (λ r, '(n, w, included) ← r;
        Ok (n, sorted_oids included, sorted_oids (dom (commit_parents w) ∩ boundary)))
    <$> shallow_closure fuel (λ oid _, bool_decide (oid ∉ boundary)) wants.
End Shallow.

Definition serve_shallow `{GitEngine} `{PackWriter} `{ObjectSource Src} (expired : nat → bool) (source : Src)
    (fuel : nat) (wants : list string) (depth : N) : option (result ServeError (PackAssembly * list string)) :=
  (λ r, '(n, oids, boundary) ← r; pack ← assemble expired source n oids; Ok (pack, boundary))
    <$> collect_shallow expired source fuel wants depth.
Definition serve_shallow_at `{GitEngine} `{PackWriter} `{ObjectSource Src} (expired : nat → bool) (source : Src)
    (fuel : nat) (wants boundary : list string) : option (result ServeError (PackAssembly * list string)) :=
  (λ r, '(n, oids, boundary) ← r; pack ← assemble expired source n oids; Ok (pack, boundary))
    <$> collect_shallow_at expired source fuel wants (list_to_set boundary).

(** * What a walk collects *)

Section Collected.
Context `{GitEngine} `{ObjectSource Src} (expired : nat → bool) (source : Src).
(** What was there before, of which nothing is said. *)
Context (base : gset string).

(** [o] is there and refers to [r]. *)
Definition edge (o r : string) : Prop :=
  ∃ obj refs, src_get source o = Ok (Some obj) ∧ object_refs (obj_kind obj) (obj_data obj) = Some refs ∧ r ∈ refs.
Definition lies_below (root o : string) : Prop := rtc edge root o.

Lemma edge_refs o r obj refs :
  src_get source o = Ok (Some obj) → object_refs (obj_kind obj) (obj_data obj) = Some refs → edge o r → r ∈ refs.
Proof. intros Hg Hr (obj' & refs' & Hg' & Hr' & Hin). congruence. Qed.

(** What is collected can be read; what it refers to is excluded, collected or
    still to do, or (outside a strict walk) absent. *)
Definition covered (excluded : gset string) (strict : bool) (out : gset string) (todo : list string) : Prop :=
  ∀ o, o ∈ out → (o ∉ base) → ∃ obj refs, src_get source o = Ok (Some obj) ∧
    object_refs (obj_kind obj) (obj_data obj) = Some refs ∧
    ∀ r, r ∈ refs → r ∈ excluded ∨ r ∈ out ∨ r ∈ todo ∨ (strict = false ∧ src_get source r = Ok None).

Lemma elem_of_push_unseen excluded out next refs x :
  x ∈ foldl (push_unseen excluded out) next refs ↔ x ∈ next ∨ (x ∈ refs ∧ (x ∉ excluded) ∧ (x ∉ out)).
Proof.
  revert next. induction refs as [|r refs IH]; intros next; simpl; [set_solver|].
  rewrite IH, elem_of_cons. unfold push_unseen. case_decide; [rewrite elem_of_app, list_elem_of_singleton|]; naive_solver.
Qed.

Lemma wave_batch_spec excluded out seen frontier :
  (∀ o, o ∈ frontier → o ∈ excluded ∨ o ∈ out ∨ o ∈ seen ∨ o ∈ wave_batch excluded out seen frontier) ∧
  (∀ o, o ∈ wave_batch excluded out seen frontier → o ∈ frontier).
Proof.
  revert seen. induction frontier as [|f frontier IH]; intros seen; simpl; [set_solver|].
  case_decide as Hd.
  - destruct (IH ({[f]} ∪ seen)) as [H1 H2]. split.
    + intros o [->|Ho]%elem_of_cons; [set_solver|]. destruct (H1 o Ho) as [?|[?|[?|?]]]; set_solver.
    + set_solver.
  - destruct (IH seen) as [H1 H2]. split; [|set_solver].
    intros o [->|Ho]%elem_of_cons; [|auto]. destruct (decide (f ∈ excluded)); [auto|].
    destruct (decide (f ∈ out)); [auto|]. destruct (decide (f ∈ seen)); [auto|]. naive_solver.
Qed.

(** What one wave, or a whole walk, does to the collected set. *)
Record grows (excluded : gset string) (strict : bool) (out : gset string) (roots : list string)
    (out' : gset string) : Prop := {
  grows_mono : out ⊆ out';
  grows_roots : ∀ o, o ∈ roots → o ∈ excluded ∨ o ∈ out' ∨ (strict = false ∧ src_get source o = Ok None);
  grows_below : ∀ o, o ∈ out' → o ∈ out ∨ (o ∉ excluded) ∧ ∃ f, f ∈ roots ∧ lies_below f o;
}.

(** The next frontier is what the wave refers to. *)
Lemma wave_reads_next excluded strict batch n out next n' out' next' :
  wave_reads expired source excluded strict batch n out next = Ok (n', out', next') →
  ∀ x, x ∈ next' → x ∈ next ∨ ∃ o, o ∈ batch ∧ edge o x.
Proof.
  revert n out next. induction batch as [|b batch IH]; intros n out next; simpl; [intros [= <- <- <-]; auto|].
  destruct (expired n); [done|]. case_decide; [intros Hr x Hx; destruct (IH _ _ _ Hr x Hx); set_solver|].
  destruct (src_get source b) as [[obj|]|] eqn:Eg; cbn [map_err mbind result_bind]; [| |done].
  - destruct (object_refs (obj_kind obj) (obj_data obj)) as [refs|] eqn:Er; cbn [ok_or mbind result_bind]; [|done].
    intros Hr x Hx. destruct (IH _ _ _ Hr x Hx) as [Hp|(o & ? & ?)]; [|right; exists o; set_solver].
    apply elem_of_push_unseen in Hp as [?|(Hxr & _)]; [auto|right]. exists b. split; [apply list_elem_of_here|].
    by exists obj, refs.
  - destruct strict; [done|]. intros Hr x Hx. destruct (IH _ _ _ Hr x Hx); set_solver.
Qed.

Lemma wave_reads_spec excluded strict batch n out next n' out' next' :
  covered excluded strict out (batch ++ next) →
  wave_reads expired source excluded strict batch n out next = Ok (n', out', next') →
  covered excluded strict out' next' ∧ grows excluded strict out batch out'.
Proof.
  revert n out next. induction batch as [|b batch IH]; intros n out next Hcov; simpl.
  { intros [= <- <- <-]. split; [done|]. split; [done|by intros o Ho%not_elem_of_nil|by left]. }
  destruct (expired n); [done|]. destruct (decide (b ∈ excluded ∨ b ∈ out)) as [Hb|Hb].
  { intros Hr. apply IH in Hr as (Hc & [Hm Hro Hbe]).
    - split; [done|]. split; [done| |set_solver].
      intros o [->|Ho]%elem_of_cons; [|by apply Hro]. destruct Hb; [by left|right; left; set_solver].
    - intros o Ho Hbase. destruct (Hcov o Ho Hbase) as (obj & refs & Hg & Hrf & Hall). exists obj, refs. split_and!; [done..|].
      intros r Hr'. destruct (Hall r Hr') as [?|[?|[[->|?]%elem_of_cons|?]]]; set_solver. }
  destruct (src_get source b) as [[obj|]|] eqn:Eg; cbn [map_err mbind result_bind]; [| |done].
  - destruct (object_refs (obj_kind obj) (obj_data obj)) as [refs|] eqn:Er; cbn [ok_or mbind result_bind]; [|done].
    intros Hr. apply IH in Hr as (Hc & [Hm Hro Hbe]).
    + split; [done|]. split; [set_solver| |].
      * intros o [->|Ho]%elem_of_cons; [set_solver|by apply Hro].
      * intros o Ho. destruct (Hbe o Ho) as [[->%elem_of_singleton|?]%elem_of_union|(Hn & f & Hf & Hlb)]; [|by left|].
        -- right. split; [naive_solver|]. exists b. split; [apply list_elem_of_here|constructor].
        -- right. split; [done|]. exists f. split; [set_solver|done].
    + intros o [->%elem_of_singleton|Ho]%elem_of_union Hbase.
      * exists obj, refs. split_and!; [done..|]. intros r Hr'. rewrite elem_of_app, elem_of_push_unseen.
        destruct (decide (r ∈ excluded)); [auto|]. destruct (decide (r ∈ ({[b]} ∪ out : gset string))); [auto|].
        right; right; left. auto.
      * destruct (Hcov o Ho Hbase) as (obj' & refs' & Hg & Hrf & Hall). exists obj', refs'. split_and!; [done..|].
        intros r Hr'. rewrite elem_of_app, elem_of_push_unseen.
        destruct (Hall r Hr') as [?|[?|[Hin|?]]]; [auto|set_solver| |auto].
        rewrite elem_of_app, elem_of_cons in Hin. set_solver.
  - destruct strict; [done|]. intros Hr. apply IH in Hr as (Hc & [Hm Hro Hbe]).
    + split; [done|]. split; [done| |set_solver].
      intros o [->|Ho]%elem_of_cons; [auto|by apply Hro].
    + intros o Ho Hbase. destruct (Hcov o Ho Hbase) as (obj & refs & Hg & Hrf & Hall). exists obj, refs. split_and!; [done..|].
      intros r Hr'. destruct (Hall r Hr') as [?|[?|[[->|?]%elem_of_cons|?]]]; auto.
Qed.

Lemma collect_inner_spec fuel excluded strict n out frontier n' out' :
  covered excluded strict out frontier →
  collect_inner expired source fuel excluded strict n out frontier = Some (Ok (n', out')) →
  covered excluded strict out' [] ∧ grows excluded strict out frontier out'.
Proof.
  revert n out frontier. induction fuel as [|fuel IH]; intros n out [|f frontier] Hcov.
  1,3: intros [= <- <-]; split; [done|]; split; [done|by intros o Ho%not_elem_of_nil|by left].
  { done. }
  cbn [collect_inner]. remember (f :: frontier) as fr eqn:Efr. clear f frontier Efr.
  destruct (expired n); [done|]. destruct (wave_batch_spec excluded out ∅ fr) as [Hb1 Hb2].
  destruct (wave_reads expired source excluded strict _ _ _ _) as [[[n1 out1] next]|] eqn:Ew; [|done].
  pose proof (wave_reads_next _ _ _ _ _ _ _ _ _ Ew) as Hnx.
  apply wave_reads_spec in Ew as (Hc1 & [Hm1 Hro1 Hbe1]).
  - intros Hr. apply IH in Hr as (Hc & [Hm Hro Hbe]); [|done]. split; [done|]. split; [by etrans| |].
    + intros o Ho. destruct (Hb1 o Ho) as [?|[?|[?|Hin]]]; [auto|set_solver|set_solver|].
      destruct (Hro1 o Hin) as [?|[?|?]]; [auto|set_solver|auto].
    + intros o Ho. destruct (Hbe o Ho) as [Ho1|(Hn & g & Hg & Hlb)].
      * destruct (Hbe1 o Ho1) as [?|(Hn & g & Hg & Hlb)]; [by left|right; eauto].
      * right. split; [done|]. destruct (Hnx g Hg) as [Hx%not_elem_of_nil|(p & Hp & He)]; [done|].
        exists p. split; [by apply Hb2|]. by eapply rtc_l.
  - rewrite app_nil_r. intros o Ho Hbase. destruct (Hcov o Ho Hbase) as (obj & refs & Hg & Hrf & Hall). exists obj, refs.
    split_and!; [done..|]. intros r Hr. destruct (Hall r Hr) as [?|[?|[Hin|?]]]; auto.
    destruct (Hb1 r Hin) as [?|[?|[?|?]]]; auto. set_solver.
Qed.

Lemma collect_roots_spec fuel excluded strict n out roots n' out' :
  covered excluded strict out [] →
  collect_roots expired source fuel excluded strict n out roots = Some (Ok (n', out')) →
  covered excluded strict out' [] ∧ grows excluded strict out roots out'.
Proof.
  revert n out. induction roots as [|root roots IH]; intros n out Hcov; simpl.
  { intros [= <- <-]. split; [done|]. split; [done|by intros o Ho%not_elem_of_nil|by left]. }
  destruct (collect_inner expired source fuel excluded strict n out [root]) as [[[n1 out1]|]|] eqn:E; try done.
  apply collect_inner_spec in E as (Hc1 & [Hm1 Hro1 Hbe1]).
  - intros Hr. apply IH in Hr as (Hc & [Hm Hro Hbe]); [|done]. split; [done|]. split; [by etrans| |].
    + intros o [->|Ho]%elem_of_cons; [|by apply Hro].
      destruct (Hro1 root) as [?|[?|?]]; [apply list_elem_of_here|auto|set_solver|auto].
    + intros o Ho. destruct (Hbe o Ho) as [Ho1|(Hn & g & Hg & Hlb)]; [|right; split; [done|]; exists g; set_solver].
      destruct (Hbe1 o Ho1) as [?|(Hn & g & ->%list_elem_of_singleton & Hlb)]; [by left|right].
      split; [done|]. exists root. split; [apply list_elem_of_here|done].
  - intros o Ho Hbase. destruct (Hcov o Ho Hbase) as (obj & refs & Hg & Hrf & Hall). exists obj, refs. split_and!; [done..|].
    intros r Hr. destruct (Hall r Hr) as [?|[?|[Hx%not_elem_of_nil|?]]]; auto. done.
Qed.

(** ** Missing objects *)

Lemma wave_reads_missing excluded strict batch n out next o :
  wave_reads expired source excluded strict batch n out next = Err (IncompleteClosure o) →
  strict = true ∧ o ∈ batch ∧ src_get source o = Ok None.
Proof.
  revert n out next. induction batch as [|b batch IH]; intros n out next; simpl; [done|].
  destruct (expired n); [done|]. case_decide; [intros (? & ? & ?)%IH; set_solver|].
  destruct (src_get source b) as [[obj|]|] eqn:Eg; cbn [map_err mbind result_bind]; [| |done].
  - destruct (object_refs _ _); cbn [ok_or mbind result_bind]; [|done]. intros (? & ? & ?)%IH. set_solver.
  - destruct strict; [intros [= <-]; split_and!; [done|apply list_elem_of_here|done]|].
    intros (? & ? & ?)%IH. set_solver.
Qed.

Lemma collect_inner_missing fuel excluded strict n out frontier o :
  collect_inner expired source fuel excluded strict n out frontier = Some (Err (IncompleteClosure o)) →
  strict = true ∧ src_get source o = Ok None ∧ ∃ f, f ∈ frontier ∧ lies_below f o.
Proof.
  revert n out frontier. induction fuel as [|fuel IH]; intros n out [|f frontier]; [done..|].
  cbn [collect_inner]. remember (f :: frontier) as fr eqn:Efr. clear f frontier Efr.
  destruct (expired n); [done|]. destruct (wave_batch_spec excluded out ∅ fr) as [_ Hb].
  destruct (wave_reads expired source excluded strict _ _ _ _) as [[[n1 out1] next]|e] eqn:Ew.
  - intros (Hst & Hg & g & Hg' & Hlb)%IH. split_and!; [done..|].
    destruct (wave_reads_next _ _ _ _ _ _ _ _ _ Ew g Hg') as [Hx%not_elem_of_nil|(p & Hp & He)]; [done|].
    exists p. split; [by apply Hb|by eapply rtc_l].
  - intros [= ->]. apply wave_reads_missing in Ew as (? & Ho & ?). split_and!; [done..|].
    exists o. split; [by apply Hb|constructor].
Qed.

Lemma collect_roots_missing fuel excluded strict n out roots o :
  collect_roots expired source fuel excluded strict n out roots = Some (Err (IncompleteClosure o)) →
  strict = true ∧ src_get source o = Ok None ∧ ∃ f, f ∈ roots ∧ lies_below f o.
Proof.
  revert n out. induction roots as [|root roots IH]; intros n out; simpl; [done|].
  destruct (collect_inner expired source fuel excluded strict n out [root]) as [[[n1 out1]|e]|] eqn:E; [| |done].
  - intros (? & ? & f & Hf & ?)%IH. split_and!; [done..|]. exists f. set_solver.
  - intros [= ->]. apply collect_inner_missing in E as (? & ? & f & ->%list_elem_of_singleton & ?).
    split_and!; [done..|]. exists root. split; [apply list_elem_of_here|done].
Qed.

(** ** Termination *)

(** A graph without cycles: every reference goes down. *)
Definition acyclic (rank : string → nat) : Prop := ∀ o r, edge o r → (rank r < rank o)%nat.

Lemma collect_inner_ends rank fuel excluded strict n out frontier :
  acyclic rank → (∀ f, f ∈ frontier → (rank f < fuel)%nat) →
  is_Some (collect_inner expired source fuel excluded strict n out frontier).
Proof.
  intros Hac. revert n out frontier. induction fuel as [|fuel IH]; intros n out [|f frontier] Hrank;
    [by eexists|specialize (Hrank f ltac:(apply list_elem_of_here)); lia|by eexists|].
  cbn [collect_inner]. remember (f :: frontier) as fr eqn:Efr. clear f frontier Efr.
  destruct (expired n); [by eexists|].
  destruct (wave_reads expired source excluded strict _ _ _ _) as [[[n1 out1] next]|] eqn:Ew; [|by eexists].
  apply IH. intros x Hx. destruct (wave_batch_spec excluded out ∅ fr) as [_ Hb].
  destruct (wave_reads_next _ _ _ _ _ _ _ _ _ Ew x Hx) as [Hn%not_elem_of_nil|(o & Ho & He)]; [done|].
  apply Hb, Hrank in Ho. apply Hac in He. lia.
Qed.

Lemma collect_roots_ends rank fuel excluded strict n out roots :
  acyclic rank → (∀ f, f ∈ roots → (rank f < fuel)%nat) →
  is_Some (collect_roots expired source fuel excluded strict n out roots).
Proof.
  intros Hac. revert n out. induction roots as [|root roots IH]; intros n out Hrank; simpl; [by eexists|].
  destruct (collect_inner_ends rank fuel excluded strict n out [root] Hac) as [r ->].
  { intros f ->%list_elem_of_singleton. apply Hrank, list_elem_of_here. }
  destruct r as [[n1 out1]|]; [|by eexists]. apply IH. intros f Hf. apply Hrank. set_solver.
Qed.
End Collected.

(** * What is served *)

Section Served.
Context `{GitEngine} `{PackWriter} `{ObjectSource Src} (expired : nat → bool) (source : Src).

Lemma elem_of_sorted_oids o (s : gset string) : o ∈ sorted_oids s ↔ o ∈ s.
Proof. unfold sorted_oids. by rewrite merge_sort_Permutation, elem_of_elements. Qed.

Lemma sorted_oids_sorted (s : gset string) : NoDup (sorted_oids s) ∧ StronglySorted String.le (sorted_oids s).
Proof.
  unfold sorted_oids. split; [rewrite merge_sort_Permutation; apply NoDup_elements|].
  apply (StronglySorted_merge_sort _).
Qed.

Lemma assemble_ids n oids pack : assemble expired source n oids = Ok pack → object_ids pack = oids.
Proof.
  unfold assemble, assemble_pack_until. destruct (pack_inputs _ _ _ _); cbn [mbind result_bind]; [|done].
  destruct (_ <? _); [done|]. destruct (write_entries _); cbn; [|done]. by intros [= <-].
Qed.

(** Below a want: collected, or below something excluded. *)
Lemma want_covered excluded included w o :
  covered source ∅ excluded true included [] → w ∈ excluded ∨ w ∈ included → lies_below source w o →
  o ∈ included ∨ ∃ x, x ∈ excluded ∧ lies_below source x o.
Proof.
  intros Hcov Hw Hlb. revert Hw. induction Hlb as [w|w r o He Hrest IH]; intros Hw.
  - destruct Hw as [Hw|Hw]; [right|by left]. exists w. split; [done|constructor].
  - destruct Hw as [Hw|Hw]; [right; exists w; split; [done|by eapply rtc_l]|]. apply IH.
    destruct (Hcov w Hw ltac:(set_solver)) as (obj & refs & Hg & Hr & Hall). pose proof (edge_refs _ _ _ _ _ Hg Hr He) as Hin.
    destruct (Hall r Hin) as [?|[?|[Hx%not_elem_of_nil|[? _]]]]; auto; done.
Qed.

(** Below a have: excluded, unless it is not there. *)
Lemma have_covered excluded h o :
  covered source ∅ ∅ false excluded [] → h ∈ excluded ∨ src_get source h = Ok None → lies_below source h o →
  o ∈ excluded ∨ src_get source o = Ok None.
Proof.
  intros Hcov Hh Hlb. revert Hh. induction Hlb as [h|h r o He Hrest IH]; intros Hh; [done|]. apply IH.
  destruct Hh as [Hh|Hh]; [|destruct He as (obj & _ & Hg & _); congruence].
  destruct (Hcov h Hh ltac:(set_solver)) as (obj & refs & Hg & Hr & Hall). pose proof (edge_refs _ _ _ _ _ Hg Hr He) as Hin.
  destruct (Hall r Hin) as [Hx|[?|[Hx%not_elem_of_nil|[_ ?]]]]; auto; [set_solver|done].
Qed.

Lemma serve_request_spec rank fuel request :
  acyclic source rank →
  (∀ o, o ∈ wants request ∨ o ∈ haves request → (rank o < fuel)%nat) →
  ∃ r, serve_request expired source fuel request = Some r ∧
  match r with
  | Ok pack =>
      NoDup (object_ids pack) ∧ StronglySorted String.le (object_ids pack) ∧
      ∀ o, o ∈ object_ids pack ↔
        (∃ w, w ∈ wants request ∧ lies_below source w o) ∧
        ¬ (∃ h, h ∈ haves request ∧ lies_below source h o)
  | Err (IncompleteClosure o) =>
      src_get source o = Ok None ∧ ∃ w, w ∈ wants request ∧ lies_below source w o
  | Err _ => True
  end.
Proof.
  intros Hac Hfuel. unfold serve_request.
  destruct (collect_roots_ends expired source rank fuel ∅ false 0 ∅ (haves request) Hac) as [r1 E1]; [auto|].
  rewrite E1. destruct r1 as [[n1 excluded]|e].
  2: { eexists. split; [done|]. destruct e; try done. by apply collect_roots_missing in E1 as [? _]. }
  destruct (collect_roots_ends expired source rank fuel excluded true n1 ∅ (wants request) Hac) as [r2 E2]; [auto|].
  rewrite E2. destruct r2 as [[n2 included]|e].
  2: { eexists. split; [done|]. destruct e; try done. by apply collect_roots_missing in E2 as [_ ?]. }
  eexists. split; [done|]. destruct (assemble expired source n2 (sorted_oids included)) as [pack|e] eqn:Ea.
  2: { unfold assemble in Ea. destruct (assemble_pack_until _ _ _ _); simpl in Ea; by simplify_eq. }
  apply assemble_ids in Ea as ->. apply (collect_roots_spec _ _ ∅) in E1 as [Hc1 [_ Hr1 Hb1]]; [|set_solver].
  apply (collect_roots_spec _ _ ∅) in E2 as [Hc2 [_ Hr2 Hb2]]; [|set_solver].
  split_and!; [apply sorted_oids_sorted..|]. intros o. rewrite elem_of_sorted_oids. split.
  - intros Ho. destruct (Hb2 o Ho) as [?|(Hn & w & Hw & Hlb)]; [set_solver|]. split; [by exists w|].
    intros (h & Hh & Hbelow). destruct (Hc2 o Ho ltac:(set_solver)) as (obj & _ & Hg & _).
    destruct (have_covered excluded h o Hc1) as [?|?]; [|done|done|congruence].
    destruct (Hr1 h Hh) as [?|[?|[_ ?]]]; [set_solver|auto|auto].
  - intros ((w & Hw & Hlb) & Hnot). destruct (want_covered excluded included w o Hc2) as [?|(x & Hx & Hxo)]; [|done|done|].
    + destruct (Hr2 w Hw) as [?|[?|[? _]]]; auto. done.
    + exfalso. apply Hnot. destruct (Hb1 x Hx) as [?|(_ & h & Hh & Hhx)]; [set_solver|].
      exists h. split; [done|]. unfold lies_below in *. by etrans.
Qed.

(** C14. Serving a fetch from a store without reference cycles always ends.  A served
    pack holds exactly the objects below a want that are not below a have, each
    once and in order, so that a client with everything below its haves ends up
    with everything below its wants; and a pack is refused as incomplete only
    for an object below a want that the store does not have. *)
Theorem serve_request_exact rank fuel request :
  acyclic source rank →
  (∀ o, o ∈ wants request ∨ o ∈ haves request → (rank o < fuel)%nat) →
  ∃ r, serve_request expired source fuel request = Some r ∧
  match r with
  | Ok pack =>
      NoDup (object_ids pack) ∧ StronglySorted String.le (object_ids pack) ∧
      ∀ o, o ∈ object_ids pack ↔
        (∃ w, w ∈ wants request ∧ lies_below source w o) ∧
        ¬ (∃ h, h ∈ haves request ∧ lies_below source h o)
  | Err (IncompleteClosure o) =>
      src_get source o = Ok None ∧ ∃ w, w ∈ wants request ∧ lies_below source w o
  | Err _ => True
  end.
Proof. apply serve_request_spec. Qed.
End Served.

(** * Shallow packs are complete up to their boundary *)

Lemma fst_paired {A B} (d : B) (l : list A) : ((λ x, (x, d)) <$> l).*1 = l.
Proof. induction l as [|x l IH]; [done|]. rewrite !fmap_cons. by f_equal. Qed.

Section ShallowServed.
Context `{GitEngine} `{ObjectSource Src} (expired : nat → bool) (source : Src).
Context (follow : string → N → bool) (roots : list string).

Definition visited (w : ShallowWalk) (o : string) : Prop :=
  is_Some (commit_parents w !! o) ∨ o ∈ tag_objects w ∨ o ∈ extra_roots w.

Record shallow_inv (w : ShallowWalk) (todo : list string) : Prop := {
  inv_commit : ∀ c ps, commit_parents w !! c = Some ps → ∃ obj tree d,
    src_get source c = Ok (Some obj) ∧ obj_kind obj = KCommit ∧
    commit_tree_id (obj_data obj) = Some tree ∧ tree ∈ commit_trees w ∧ ps = commit_parent_ids (obj_data obj) ∧
    (follow c d = true → ∀ p, p ∈ ps → visited w p ∨ p ∈ todo);
  inv_tag : ∀ t, t ∈ tag_objects w → ∃ obj x, src_get source t = Ok (Some obj) ∧ obj_kind obj = KTag ∧
    tag_target_id (obj_data obj) = Some x ∧ (visited w x ∨ x ∈ todo);
  inv_roots : ∀ o, o ∈ roots → visited w o ∨ o ∈ todo;
  inv_below : ∀ o, visited w o ∨ o ∈ todo ∨ o ∈ commit_trees w → ∃ r, r ∈ roots ∧ lies_below source r o;
}.

Lemma visited_commit w c tree ps o : visited (visit_commit w c tree ps) o ↔ o = c ∨ visited w o.
Proof. unfold visited. simpl. rewrite lookup_insert_is_Some'. naive_solver. Qed.

Lemma visited_tag w t o : visited (visit_tag w t) o ↔ o = t ∨ visited w o.
Proof. unfold visited. simpl. rewrite elem_of_app, list_elem_of_singleton. tauto. Qed.

Lemma visited_root w t o : visited (visit_root w t) o ↔ o = t ∨ visited w o.
Proof. unfold visited. simpl. rewrite elem_of_app, list_elem_of_singleton. tauto. Qed.

Lemma below_edge w todo p o :
  shallow_inv w todo → visited w p ∨ p ∈ todo → edge source p o → ∃ r, r ∈ roots ∧ lies_below source r o.
Proof.
  intros Hinv Hp He. destruct (inv_below _ _ Hinv p) as (r & Hr & Hlb); [tauto|]. exists r. split; [done|].
  unfold lies_below in *. by eapply rtc_r.
Qed.

(** Moving to a walk that visits more, with the rest still to do. *)
Lemma shallow_inv_mono w w' todo todo' :
  shallow_inv w todo →
  (∀ o, visited w o ∨ o ∈ todo → visited w' o ∨ o ∈ todo') →
  (∀ t, t ∈ commit_trees w → t ∈ commit_trees w') →
  (∀ c ps, commit_parents w' !! c = Some ps → commit_parents w !! c = Some ps ∨ ∃ obj tree d,
    src_get source c = Ok (Some obj) ∧ obj_kind obj = KCommit ∧
    commit_tree_id (obj_data obj) = Some tree ∧ tree ∈ commit_trees w' ∧ ps = commit_parent_ids (obj_data obj) ∧
    (follow c d = true → ∀ p, p ∈ ps → visited w' p ∨ p ∈ todo')) →
  (∀ t, t ∈ tag_objects w' → t ∈ tag_objects w ∨ ∃ obj x, src_get source t = Ok (Some obj) ∧
    obj_kind obj = KTag ∧ tag_target_id (obj_data obj) = Some x ∧ (visited w' x ∨ x ∈ todo')) →
  (∀ o, visited w' o ∨ o ∈ todo' ∨ o ∈ commit_trees w' →
    visited w o ∨ o ∈ todo ∨ o ∈ commit_trees w ∨ ∃ p, (visited w p ∨ p ∈ todo) ∧ edge source p o) →
  shallow_inv w' todo'.
Proof.
  intros Hinv Hmono Htrees Hcommit Htag Hnew. pose proof Hinv as [Hc Ht Hr Hb]. split.
  - intros c ps Hps. destruct (Hcommit c ps Hps) as [Hold|Hdone]; [|done].
    destruct (Hc c ps Hold) as (obj & tree & d & ? & ? & ? & ? & ? & Hf). exists obj, tree, d. split_and!; eauto.
  - intros t Hin. destruct (Htag t Hin) as [Hold|Hdone]; [|done].
    destruct (Ht t Hold) as (obj & x & ? & ? & ? & ?). exists obj, x. split_and!; eauto.
  - eauto.
  - intros o Ho. destruct (Hnew o Ho) as [?|[?|[?|(p & Hp & He)]]]; [apply Hb; auto..|]. by eapply below_edge.
Qed.

Lemma commit_edge c obj tree x :
  src_get source c = Ok (Some obj) → obj_kind obj = KCommit → commit_tree_id (obj_data obj) = Some tree →
  x = tree ∨ x ∈ commit_parent_ids (obj_data obj) → edge source c x.
Proof.
  intros Hg Hk Ht Hx. exists obj, (tree :: commit_parent_ids (obj_data obj)). rewrite Hk. simpl. rewrite Ht.
  split_and!; [done..|]. by apply elem_of_cons.
Qed.

Lemma tag_edge t obj x :
  src_get source t = Ok (Some obj) → obj_kind obj = KTag → tag_target_id (obj_data obj) = Some x → edge source t x.
Proof.
  intros Hg Hk Ht. exists obj, [x]. rewrite Hk. simpl. rewrite Ht. split_and!; [done..|]. by apply list_elem_of_singleton.
Qed.

(** One object of a wave, by kind. *)
Lemma inv_again w c todo : shallow_inv w (c :: todo) → visited w c → shallow_inv w todo.
Proof.
  intros Hinv Hv. eapply shallow_inv_mono; [done|..]; [|auto..|].
  - intros o [?|[->|?]%elem_of_cons]; auto.
  - intros o. rewrite elem_of_cons. tauto.
Qed.

Lemma inv_visit_root w c todo : shallow_inv w (c :: todo) → shallow_inv (visit_root w c) todo.
Proof.
  intros Hinv. eapply shallow_inv_mono; [done|..]; [|auto..|].
  - intros o. rewrite visited_root, elem_of_cons. tauto.
  - intros o. rewrite visited_root, elem_of_cons. simpl. tauto.
Qed.

Lemma inv_visit_tag w t obj x todo todo' :
  shallow_inv w (t :: todo) →
  src_get source t = Ok (Some obj) → obj_kind obj = KTag → tag_target_id (obj_data obj) = Some x →
  (∀ y, y ∈ todo' ↔ y ∈ todo ∨ y = x) → shallow_inv (visit_tag w t) todo'.
Proof.
  intros Hinv Hg Hk Ht Htodo. eapply shallow_inv_mono; [done|..].
  - intros o. rewrite visited_tag, elem_of_cons, Htodo. tauto.
  - auto.
  - auto.
  - intros u. simpl. rewrite elem_of_app, list_elem_of_singleton. intros [?| ->]; [auto|right]. exists obj, x.
    split_and!; [done..|]. right. apply Htodo. auto.
  - intros o. rewrite visited_tag, elem_of_cons, Htodo. simpl. intros [[?|?]|[[?| ->]|?]]; [tauto..| |tauto].
    right; right; right. exists t. split; [right; apply list_elem_of_here|by eapply tag_edge].
Qed.

Lemma inv_visit_commit w c obj tree d todo todo' :
  let parents := commit_parent_ids (obj_data obj) in
  shallow_inv w (c :: todo) →
  src_get source c = Ok (Some obj) → obj_kind obj = KCommit → commit_tree_id (obj_data obj) = Some tree →
  (∀ y, y ∈ todo → y ∈ todo') → (∀ y, y ∈ todo' → y ∈ todo ∨ y ∈ parents) →
  (follow c d = true → ∀ p, p ∈ parents → p ∈ todo') →
  shallow_inv (visit_commit w c tree parents) todo'.
Proof.
  intros parents Hinv Hg Hk Ht Hto Hfrom Hfollow. eapply shallow_inv_mono; [done|..].
  - intros o. rewrite visited_commit, elem_of_cons. naive_solver.
  - intros t. simpl. rewrite elem_of_app. auto.
  - intros c' ps. simpl. destruct (decide (c = c')) as [<-|]; [|rewrite lookup_insert_ne by done; auto].
    rewrite lookup_insert_eq. intros [= <-]. right. exists obj, tree, d. split_and!; [done..| |done|].
    + rewrite elem_of_app, list_elem_of_singleton. auto.
    + auto.
  - auto.
  - assert (∀ o, edge source c o → ∃ p, (visited w p ∨ p ∈ c :: todo) ∧ edge source p o) as Hedge.
    { intros o He. exists c. split; [right; apply list_elem_of_here|done]. }
    intros o. rewrite visited_commit, elem_of_cons. simpl. rewrite elem_of_app, list_elem_of_singleton.
    intros [[?|?]|[Ho|[?| ->]]]; [tauto..| |tauto|right; right; right; apply Hedge; eapply commit_edge; eauto].
    destruct (Hfrom o Ho); [tauto|]. right; right; right. apply Hedge. eapply commit_edge; eauto.
Qed.

Lemma shallow_wave_inv frontier n w next n' w' next' :
  shallow_inv w (frontier.*1 ++ next.*1) →
  shallow_wave expired source follow frontier n w next = Ok (n', w', next') →
  shallow_inv w' next'.*1 ∧
  ∀ x, x ∈ next'.*1 → x ∈ next.*1 ∨ ∃ o, o ∈ frontier.*1 ∧ edge source o x.
Proof.
  revert n w next. induction frontier as [|[oid d] frontier IH]; intros n w next Hinv; simpl.
  { intros [= <- <- <-]. split; [done|auto]. }
  change (shallow_inv w (oid :: (frontier.*1 ++ next.*1))) in Hinv. destruct (expired n); [done|].
  destruct (src_get source oid) as [[obj|]|] eqn:Eg; cbn [map_err mbind result_bind]; [|done|done].
  assert (∀ w2 next2, shallow_inv w2 (frontier.*1 ++ next2.*1) →
    (∀ x, x ∈ next2.*1 → x ∈ next.*1 ∨ edge source oid x) →
    shallow_wave expired source follow frontier (n + 1) w2 next2 = Ok (n', w', next') →
    shallow_inv w' next'.*1 ∧
    ∀ x, x ∈ next'.*1 → x ∈ next.*1 ∨ ∃ o, o ∈ oid :: frontier.*1 ∧ edge source o x) as Hgo.
  { intros w2 next2 Hi2 Hn2 Hrun. apply IH in Hrun as [Hi Hx]; [|done]. split; [done|].
    intros x Hxin. destruct (Hx x Hxin) as [Hp|(o & ? & ?)].
    - destruct (Hn2 x Hp); [by left|right]. exists oid. split; [apply list_elem_of_here|done].
    - right. exists o. split; [by apply list_elem_of_further|done]. }
  destruct (obj_kind obj) eqn:Ek.
  - case_decide as Hv.
    { apply Hgo; [|auto]. eapply inv_again; [done|by left]. }
    destruct (commit_tree_id (obj_data obj)) as [tree|] eqn:Et; cbn [ok_or mbind result_bind]; [|done].
    assert (∀ x, x ∈ (if follow oid d then next ++ ((λ p, (p, d + 1)) <$> commit_parent_ids (obj_data obj)) else next).*1 ↔
      x ∈ next.*1 ∨ (follow oid d = true ∧ x ∈ commit_parent_ids (obj_data obj))) as Hnx.
    { intros x. destruct (follow oid d); [|naive_solver]. rewrite fmap_app, elem_of_app, fst_paired. naive_solver. }
    apply Hgo.
    + eapply (inv_visit_commit _ _ _ _ d); eauto; [| |intros Hf]; intros y; rewrite !elem_of_app, Hnx; tauto.
    + intros x Hx. apply Hnx in Hx as [?|[_ ?]]; [auto|right; eapply commit_edge; eauto].
  - apply Hgo; [by apply inv_visit_root|auto].
  - apply Hgo; [by apply inv_visit_root|auto].
  - destruct (tag_target_id (obj_data obj)) as [x|] eqn:Et; cbn [ok_or mbind result_bind]; [|done].
    assert (∀ y, y ∈ (next ++ [(x, d)]).*1 ↔ y ∈ next.*1 ∨ y = x) as Hnx.
    { intros y. rewrite fmap_app, elem_of_app. simpl. by rewrite list_elem_of_singleton. }
    apply Hgo.
    + eapply inv_visit_tag; eauto. intros y. rewrite !elem_of_app, Hnx. tauto.
    + intros y [?| ->]%Hnx; [auto|right; by eapply tag_edge].
Qed.

Lemma shallow_loop_inv fuel frontier n w n' w' :
  shallow_inv w frontier.*1 → shallow_loop expired source fuel follow frontier n w = Some (Ok (n', w')) →
  shallow_inv w' [].
Proof.
  revert frontier n w. induction fuel as [|fuel IH]; intros [|f frontier] n w Hinv.
  1,3: by intros [= <- <-].
  { done. }
  cbn [shallow_loop]. remember (f :: frontier) as fr eqn:Efr. clear f frontier Efr. destruct (expired n); [done|].
  destruct (shallow_wave expired source follow fr (n + 1) w []) as [[[n1 w1] next]|] eqn:Ew; [|done].
  apply shallow_wave_inv in Ew as [Hi _]; [|by rewrite app_nil_r]. by apply IH.
Qed.

Lemma shallow_loop_ends rank fuel frontier n w :
  acyclic source rank → shallow_inv w frontier.*1 → (∀ f, f ∈ frontier.*1 → (rank f < fuel)%nat) →
  is_Some (shallow_loop expired source fuel follow frontier n w).
Proof.
  intros Hac. revert frontier n w. induction fuel as [|fuel IH]; intros [|f frontier] n w Hinv Hrank.
  1,3: by eexists.
  { specialize (Hrank f.1 ltac:(apply list_elem_of_here)). lia. }
  cbn [shallow_loop]. remember (f :: frontier) as fr eqn:Efr. clear f frontier Efr. destruct (expired n); [by eexists|].
  destruct (shallow_wave expired source follow fr (n + 1) w []) as [[[n1 w1] next]|] eqn:Ew; [|by eexists].
  apply shallow_wave_inv in Ew as [Hi Hx]; [|by rewrite app_nil_r]. apply IH; [done|].
  intros x Hxin. destruct (Hx x Hxin) as [Hn%not_elem_of_nil|(o & Ho & He)]; [done|].
  apply Hrank in Ho. apply Hac in He. lia.
Qed.

Lemma shallow_inv_start : shallow_inv ShallowWalk_new ((λ w, (w, 1)) <$> roots).*1.
Proof.
  rewrite fst_paired. split; simpl.
  - intros c ps Hc. by rewrite lookup_empty in Hc.
  - by intros t Ht%not_elem_of_nil.
  - auto.
  - intros o Ho. exists o. split; [|constructor]. destruct Ho as [[[? Hs]|[Hx|Hx]]|[?|Hx]]; [|by apply not_elem_of_nil in Hx..|done|by apply not_elem_of_nil in Hx].
    unfold ShallowWalk_new in Hs. cbn [commit_parents] in Hs. by rewrite lookup_empty in Hs.
Qed.

Lemma below_rank rank o : acyclic source rank → (∃ r, r ∈ roots ∧ lies_below source r o) →
  ∃ r, r ∈ roots ∧ (rank o ≤ rank r)%nat.
Proof.
  intros Hac (r & Hr & Hlb). exists r. split; [done|]. clear Hr. induction Hlb as [|r x o He _ IH]; [done|].
  apply Hac in He. lia.
Qed.

Lemma shallow_closure_ends rank fuel :
  acyclic source rank → (∀ o, o ∈ roots → (rank o < fuel)%nat) →
  is_Some (shallow_closure expired source fuel follow roots).
Proof.
  intros Hac Hfuel. unfold shallow_closure.
  destruct (shallow_loop_ends rank fuel ((λ w, (w, 1)) <$> roots) 0 ShallowWalk_new Hac shallow_inv_start) as [r E].
  { by rewrite fst_paired. }
  rewrite E. destruct r as [[n w]|]; [|by eexists].
  apply (shallow_loop_inv _ _ _ _ _ _ shallow_inv_start) in E as Hinv.
  destruct (collect_roots_ends expired source rank fuel ∅ true n (dom (commit_parents w) ∪ list_to_set (tag_objects w))
    (commit_trees w ++ extra_roots w) Hac) as [r' ->]; [|destruct r' as [[??]|]; by eexists].
  intros f Hf. destruct (below_rank rank f Hac) as (r & Hr & Hle).
  - apply (inv_below _ _ Hinv). apply elem_of_app in Hf as [?|?]; [by right; right|left; right; by right].
  - specialize (Hfuel r Hr). lia.
Qed.

(** What both phases collect: the roots, only what lies below them, and with an
    object everything it refers to but the parents of a commit where the walk
    stopped. *)
Lemma shallow_closure_spec fuel n w included :
  shallow_closure expired source fuel follow roots = Some (Ok (n, w, included)) →
  (∀ o, o ∈ roots → o ∈ included) ∧
  (∀ o, o ∈ included → ∃ r, r ∈ roots ∧ lies_below source r o) ∧
  (∀ c, is_Some (commit_parents w !! c) → c ∈ included) ∧
  (∀ o r, o ∈ included → edge source o r → r ∈ included ∨
    ∃ ps d, commit_parents w !! o = Some ps ∧ r ∈ ps ∧ follow o d = false) ∧
  (∀ o, o ∈ included → ∃ obj, src_get source o = Ok (Some obj)).
Proof.
  unfold shallow_closure. destruct (shallow_loop expired source fuel follow _ 0 _) as [[[n1 w1]|]|] eqn:E; try done.
  apply (shallow_loop_inv _ _ _ _ _ _ shallow_inv_start) in E as Hinv. clear E. set (base := _ ∪ _).
  destruct (collect_roots expired source fuel ∅ true n1 base _) as [[[n2 inc]|]|] eqn:Ec; try done.
  intros [= <- <- <-]. apply (collect_roots_spec _ _ base) in Ec as [Hcov [Hm Hro Hbe]]; [|by intros o ?].
  assert (∀ o, o ∈ base ↔ is_Some (commit_parents w1 !! o) ∨ o ∈ tag_objects w1) as Hbase.
  { intros o. unfold base. by rewrite elem_of_union, elem_of_dom, elem_of_list_to_set. }
  assert (∀ o, o ∈ commit_trees w1 ++ extra_roots w1 → o ∈ inc) as Hroot.
  { intros o Ho. destruct (Hro o Ho) as [Hx%not_elem_of_empty|[?|[? _]]]; done. }
  assert (∀ o, visited w1 o → o ∈ inc) as Hvis.
  { intros o [Ho|[Ho|Ho]]; [apply Hm, Hbase; auto..|]. apply Hroot, elem_of_app. by right. }
  assert (∀ o, visited w1 o ∨ o ∈ [] → o ∈ inc) as Hvis'.
  { intros o [?|Hx%not_elem_of_nil]; [auto|done]. }
  split_and!.
  - intros o Ho. apply Hvis', (inv_roots _ _ Hinv o Ho).
  - intros o Ho. destruct (Hbe o Ho) as [Hb|(_ & f & Hf & Hlb)].
    + apply (inv_below _ _ Hinv). left. apply Hbase in Hb as [?|?]; [by left|right; by left].
    + destruct (inv_below _ _ Hinv f) as (r & Hr & Hrf).
      { apply elem_of_app in Hf as [?|?]; [by right; right|left; right; by right]. }
      exists r. split; [done|]. unfold lies_below in *. by etrans.
  - intros c Hc. apply Hvis. by left.
  - intros o r Ho He. destruct (decide (o ∈ base)) as [Hb|Hb].
    + apply Hbase in Hb as [[ps Hps]|Hb].
      * destruct (inv_commit _ _ Hinv o ps Hps) as (obj & tree & d & Hg & Hk & Ht & Hin & -> & Hf).
        assert (r = tree ∨ r ∈ commit_parent_ids (obj_data obj)) as [->|Hr].
        { apply elem_of_cons. eapply edge_refs; [done| |done]. rewrite Hk. simpl. by rewrite Ht. }
        { left. apply Hroot, elem_of_app. by left. }
        destruct (follow o d) eqn:Ef; [left; apply Hvis'; auto|right]. by exists (commit_parent_ids (obj_data obj)), d.
      * destruct (inv_tag _ _ Hinv o Hb) as (obj & x & Hg & Hk & Ht & Hx). left.
        assert (r ∈ [x]) as ->%list_elem_of_singleton; [|by apply Hvis'].
        eapply edge_refs; [done| |done]. rewrite Hk. simpl. by rewrite Ht.
    + left. destruct (Hcov o Ho Hb) as (obj & refs & Hg & Hr & Hall).
      destruct (Hall r (edge_refs _ _ _ _ _ Hg Hr He)) as [Hx%not_elem_of_empty|[?|[Hx%not_elem_of_nil|[? _]]]]; done.
  - intros o Ho. destruct (decide (o ∈ base)) as [Hb|Hb].
    + apply Hbase in Hb as [[ps Hps]|Hb]; [destruct (inv_commit _ _ Hinv o ps Hps) as (obj & _ & _ & Hg & _); eauto|].
      destruct (inv_tag _ _ Hinv o Hb) as (obj & _ & Hg & _); eauto.
    + destruct (Hcov o Ho Hb) as (obj & _ & Hg & _). eauto.
Qed.

Lemma shallow_closure_parents fuel n w included c ps p :
  shallow_closure expired source fuel follow roots = Some (Ok (n, w, included)) →
  commit_parents w !! c = Some ps → p ∈ ps →
  ∃ obj, src_get source c = Ok (Some obj) ∧ obj_kind obj = KCommit ∧ p ∈ commit_parent_ids (obj_data obj).
Proof.
  unfold shallow_closure. destruct (shallow_loop expired source fuel follow _ 0 _) as [[[n1 w1]|]|] eqn:E; try done.
  apply (shallow_loop_inv _ _ _ _ _ _ shallow_inv_start) in E as Hinv.
  destruct (collect_roots _ _ _ _ _ _ _ _) as [[[n2 inc]|]|]; try done. intros [= <- <- <-] Hps Hp.
  destruct (inv_commit _ _ Hinv c ps Hps) as (obj & _ & _ & Hg & Hk & _ & _ & -> & _). eauto.
Qed.
End ShallowServed.

(** ** The depth of a shallow clone *)

Section Depth.
Context `{GitEngine} `{ObjectSource Src} (expired : nat → bool) (source : Src).
Context (roots : list string) (depth : N).

Definition parent_of (c p : string) : Prop :=
  ∃ obj, src_get source c = Ok (Some obj) ∧ obj_kind obj = KCommit ∧ p ∈ commit_parent_ids (obj_data obj).
(** [x] is [k] parent steps from a root. *)
Definition level (k : nat) (x : string) : Prop := ∃ r, r ∈ roots ∧ nsteps parent_of k r x.
(** The roots and what is named as a parent are commits. *)
Definition commit_history : Prop :=
  ∀ c obj, src_get source c = Ok (Some obj) → c ∈ roots ∨ (∃ p, parent_of p c) → obj_kind obj = KCommit.

Lemma level_next k x p : level k x → parent_of x p → level (S k) p.
Proof. intros (r & Hr & Hn) Hp. exists r. split; [done|]. by eapply nsteps_r. Qed.

Lemma level_prev k p : level (S k) p → ∃ x, level k x ∧ parent_of x p.
Proof. intros (r & Hr & (x & Hx & Hp)%nsteps_inv_r). exists x. split; [by exists r|done]. Qed.

Lemma level_commit k x obj : commit_history → level k x → src_get source x = Ok (Some obj) → obj_kind obj = KCommit.
Proof.
  intros Hh Hl Hg. eapply Hh; [done|]. destruct k as [|k].
  - destruct Hl as (r & Hr & Hn). inversion Hn; subst. by left.
  - right. apply level_prev in Hl as (p & _ & Hp). by exists p.
Qed.

(** A wave of commits at one depth visits them all, and goes on to the parents
    of the new ones. *)
Lemma shallow_wave_commits d frontier n w next n' w' next' :
  (∀ x y, (x, y) ∈ frontier → y = d ∧ ∀ obj, src_get source x = Ok (Some obj) → obj_kind obj = KCommit) →
  shallow_wave expired source (λ _ d, d <? depth) frontier n w next = Ok (n', w', next') →
  (∀ x, is_Some (commit_parents w' !! x) ↔ is_Some (commit_parents w !! x) ∨ x ∈ frontier.*1) ∧
  (∀ x y, (x, y) ∈ next' → (x, y) ∈ next ∨ (y = d + 1 ∧ d < depth ∧ ∃ c, c ∈ frontier.*1 ∧ parent_of c x)) ∧
  (∀ x, x ∈ next.*1 → x ∈ next'.*1) ∧
  (∀ c p, c ∈ frontier.*1 → commit_parents w !! c = None → d < depth → parent_of c p → p ∈ next'.*1).
Proof.
  revert n w next. induction frontier as [|[oid d'] frontier IH]; intros n w next Hfr; cbn [shallow_wave].
  { intros [= <- <- <-]. simpl. setoid_rewrite elem_of_nil. naive_solver. }
  destruct (Hfr oid d') as [-> Hkind]; [apply list_elem_of_here|]. destruct (expired n); [done|].
  destruct (src_get source oid) as [[obj|]|] eqn:Eg; cbn [map_err mbind result_bind]; [|done|done].
  rewrite (Hkind obj eq_refl). change (((oid, d) :: frontier).*1) with (oid :: frontier.*1).
  assert (∀ x y, (x, y) ∈ frontier → y = d ∧ ∀ obj, src_get source x = Ok (Some obj) → obj_kind obj = KCommit) as Hfr'.
  { intros x y Hxy. apply Hfr. by apply list_elem_of_further. }
  case_decide as Hv.
  - intros Hr. apply IH in Hr as (H1 & H2 & H3 & H4); [|done]. split_and!; [| |done|].
    + intros x. rewrite H1, elem_of_cons. naive_solver.
    + intros x y Hxy. destruct (H2 x y Hxy) as [?|(? & ? & c & ? & ?)]; [auto|right]. split_and!; [done..|].
      exists c. split; [by apply list_elem_of_further|done].
    + intros c p [->|Hc]%elem_of_cons Hn; [by rewrite Hn in Hv; destruct Hv|eauto].
  - destruct (commit_tree_id (obj_data obj)) as [tree|]; cbn [ok_or mbind result_bind]; [|done].
    intros Hr. apply IH in Hr as (H1 & H2 & H3 & H4); [|done]. cbn [commit_parents visit_commit] in H1, H4.
    assert (∀ p, parent_of oid p → p ∈ commit_parent_ids (obj_data obj)) as Hpar by (intros p (obj' & ? & _ & ?); congruence).
    assert (∀ p, p ∈ commit_parent_ids (obj_data obj) → parent_of oid p) as Hpar' by (intros p ?; exists obj; auto).
    split_and!.
    + intros x. rewrite H1, elem_of_cons, lookup_insert_is_Some'. naive_solver.
    + intros x y Hxy. destruct (H2 x y Hxy) as [Hin|(? & ? & c & ? & ?)].
      * destruct (N.ltb_spec d depth); [|auto]. apply elem_of_app in Hin as [?|(p & [= -> ->] & Hp)%list_elem_of_fmap]; [auto|].
        right. split_and!; [done..|]. exists oid. split; [apply list_elem_of_here|auto].
      * right. split_and!; [done..|]. exists c. split; [by apply list_elem_of_further|done].
    + intros x Hx. apply H3. destruct (d <? depth); [|done]. rewrite fmap_app, elem_of_app. auto.
    + intros c p Hc Hn Hd Hp. apply N.ltb_lt in Hd as Hd'. destruct (decide (c = oid)) as [->|Hne].
      * apply H3. rewrite Hd', fmap_app, elem_of_app, fst_paired. auto.
      * apply elem_of_cons in Hc as [?|Hc]; [done|]. eapply H4; eauto. by rewrite lookup_insert_ne.
Qed.

(** Before wave [k]. *)
Record level_inv (k : nat) (w : ShallowWalk) (frontier : list (string * N)) : Prop := {
  frontier_level : ∀ x d, (x, d) ∈ frontier → d = N.of_nat k + 1 ∧ level k x ∧ N.of_nat k < depth;
  visited_level : ∀ x, is_Some (commit_parents w !! x) → ∃ j, (j < k)%nat ∧ level j x ∧ N.of_nat j < depth;
  level_covered : ∀ j x, (j ≤ k)%nat → N.of_nat j < depth → level j x →
    is_Some (commit_parents w !! x) ∨ x ∈ frontier.*1;
}.

Lemma level_inv_wave k frontier n w n' w' next' :
  commit_history → level_inv k w frontier →
  shallow_wave expired source (λ _ d, d <? depth) frontier n w [] = Ok (n', w', next') →
  level_inv (S k) w' next'.
Proof.
  intros Hh [Hf Hv Hc] Hw.
  apply (shallow_wave_commits (N.of_nat k + 1)) in Hw as (H1 & H2 & _ & H4).
  2: { intros x d Hxd. destruct (Hf x d Hxd) as (-> & Hl & _). split; [done|]. intros obj. by apply (level_commit k). }
  assert (∀ x, x ∈ frontier.*1 → level k x ∧ N.of_nat k < depth) as Hf'.
  { intros x ([x' d] & -> & Hin)%list_elem_of_fmap. destruct (Hf x' d Hin) as (_ & ? & ?). auto. }
  assert (∀ j x, (j ≤ k)%nat → N.of_nat j < depth → level j x → is_Some (commit_parents w' !! x)) as Hdone.
  { intros j x Hj Hd Hl. apply H1. destruct (Hc j x Hj Hd Hl); auto. }
  split.
  - intros x d Hxd. destruct (H2 x d Hxd) as [Hx%not_elem_of_nil|(-> & Hlt & c & Hin & Hp)]; [done|].
    split_and!; [lia| |lia]. eapply level_next; [by apply Hf'|done].
  - intros x [Hx|Hx]%H1.
    + destruct (Hv x Hx) as (j & ? & ? & ?). exists j. split_and!; [lia|done..].
    + exists k. destruct (Hf' x Hx). split_and!; [lia|done..].
  - intros j x Hj Hd Hl. destruct (decide (j = S k)) as [->|]; [|left; apply (Hdone j); [lia|done..]].
    apply level_prev in Hl as (y & Hy & Hp).
    destruct (Hc k y ltac:(lia) ltac:(lia) Hy) as [Hvis|Hin].
    + left. destruct (Hv y Hvis) as (i & Hi & Hly & _). apply (Hdone (S i)); [lia|lia|by eapply level_next].
    + destruct (commit_parents w !! y) eqn:Ey.
      * left. destruct (Hv y) as (i & Hi & Hly & _); [by eexists|]. apply (Hdone (S i)); [lia|lia|by eapply level_next].
      * right. apply (H4 y x); [done..|lia|done].
Qed.

Lemma level_inv_loop fuel k frontier n w n' w' :
  commit_history → level_inv k w frontier →
  shallow_loop expired source fuel (λ _ d, d <? depth) frontier n w = Some (Ok (n', w')) →
  ∃ k', level_inv k' w' [].
Proof.
  intros Hh. revert k frontier n w. induction fuel as [|fuel IH]; intros k [|f frontier] n w Hinv.
  1,3: intros [= <- <-]; by exists k.
  { done. }
  cbn [shallow_loop]. remember (f :: frontier) as fr eqn:Efr. clear f frontier Efr. destruct (expired n); [done|].
  destruct (shallow_wave expired source _ fr (n + 1) w []) as [[[n1 w1] next]|] eqn:Ew; [|done].
  eapply level_inv_wave in Ew; [|done..]. by eapply IH.
Qed.

(** At the end, the visited commits are those less than [depth] steps away. *)
Lemma level_inv_end k w : level_inv k w [] →
  (∀ j x, N.of_nat j < depth → level j x → is_Some (commit_parents w !! x)) ∧
  (∀ x, is_Some (commit_parents w !! x) → ∃ j, level j x ∧ N.of_nat j < depth).
Proof.
  intros [_ Hv Hc]. split; [|intros x Hx; destruct (Hv x Hx) as (j & _ & ? & ?); eauto].
  assert (∀ j x, (j ≤ k)%nat → N.of_nat j < depth → level j x → is_Some (commit_parents w !! x)) as Hc'.
  { intros j x Hj Hd Hl. destruct (Hc j x Hj Hd Hl) as [?|Hx%not_elem_of_nil]; done. }
  induction j as [|j IH]; intros x Hd Hl; [apply (Hc' 0%nat); [lia|done..]|].
  destruct (decide (S j ≤ k)%nat); [by apply (Hc' (S j))|].
  apply level_prev in Hl as (y & Hy & Hp). destruct (Hv y (IH y ltac:(lia) Hy)) as (i & Hi & Hly & _).
  apply (Hc' (S i)); [lia|lia|by eapply level_next].
Qed.

Lemma level_inv_start : 0 < depth → level_inv 0 ShallowWalk_new ((λ w, (w, 1)) <$> roots).
Proof.
  intros Hd. split.
  - intros x d (r & [= -> ->] & Hr)%list_elem_of_fmap. split_and!; [done| |done]. exists r. split; [done|constructor].
  - intros x [? Hx]. unfold ShallowWalk_new in Hx. cbn [commit_parents] in Hx. by rewrite lookup_empty in Hx.
  - intros j x Hj _ (r & Hr & Hn). right. rewrite fst_paired. assert (j = 0%nat) as -> by lia. by inversion Hn; subst.
Qed.
End Depth.

(** * The shallow theorems *)

(** A pack complete up to a boundary: the wants are in it, everything in it lies
    below a want, and what an object in it refers to is in it too, but for parents
    of commits on the boundary. *)
Record complete_to `{GitEngine} `{ObjectSource Src} (source : Src) (roots oids boundary : list string) : Prop := {
  complete_order : NoDup oids ∧ StronglySorted String.le oids ∧ NoDup boundary ∧ StronglySorted String.le boundary;
  complete_roots : ∀ o, o ∈ roots → o ∈ oids;
  complete_below : ∀ o, o ∈ oids → ∃ r, r ∈ roots ∧ lies_below source r o;
  complete_refs : ∀ o r, o ∈ oids → edge source o r → r ∈ oids ∨ (o ∈ boundary ∧ parent_of source o r);
  complete_boundary : ∀ o, o ∈ boundary → o ∈ oids;
}.

Section ShallowTheorems.
Context `{GitEngine} `{PackWriter} `{ObjectSource Src} (expired : nat → bool) (source : Src).

Lemma closure_complete fuel follow roots n w included boundary :
  shallow_closure expired source fuel follow roots = Some (Ok (n, w, included)) →
  (∀ o, o ∈ boundary → is_Some (commit_parents w !! o)) →
  (∀ o p ps d, commit_parents w !! o = Some ps → p ∈ ps → (p ∉ included) → follow o d = false → o ∈ boundary) →
  complete_to source roots (sorted_oids included) (sorted_oids boundary).
Proof.
  intros Hc Hsub Hcut. pose proof (λ c ps p, shallow_closure_parents _ _ _ _ _ _ _ _ c ps p Hc) as Hpar.
  apply shallow_closure_spec in Hc as (Hroots & Hbelow & Hcommits & Hrefs & _).
  destruct (sorted_oids_sorted included), (sorted_oids_sorted boundary). split.
  - auto.
  - intros o Ho. apply elem_of_sorted_oids. auto.
  - intros o Ho. apply elem_of_sorted_oids in Ho. auto.
  - intros o r Ho He. rewrite !elem_of_sorted_oids in *. destruct (decide (r ∈ included)) as [|Hn]; [auto|right].
    destruct (Hrefs o r Ho He) as [?|(ps & d & Hps & Hr & Hf)]; [done|]. split; [eauto|]. eapply Hpar; eauto.
  - intros o Ho. rewrite elem_of_sorted_oids in *. auto.
Qed.

Lemma elem_of_cut_commits w c :
  c ∈ cut_commits w ↔ ∃ ps p, commit_parents w !! c = Some ps ∧ p ∈ ps ∧ commit_parents w !! p = None.
Proof.
  unfold cut_commits. rewrite elem_of_dom. split.
  - intros [ps [Hps (p & Hp & Hn)%Exists_exists]%map_lookup_filter_Some]. eauto.
  - intros (ps & p & Hps & Hp & Hn). exists ps. apply map_lookup_filter_Some. split; [done|].
    apply Exists_exists. eauto.
Qed.

(** A shallow clone at a depth always ends, over a store without reference
    cycles, and a served pack is complete up to the boundary announced with it.
    When the wants are commits it is exact about the depth: a commit fewer than
    [depth] parent steps from a want is in the pack, and one on the boundary is
    [depth - 1] steps from one. *)
Theorem serve_shallow_complete rank fuel wants depth :
  acyclic source rank → (∀ o, o ∈ wants → (rank o < fuel)%nat) →
  ∃ r, serve_shallow expired source fuel wants depth = Some r ∧
  ∀ pack boundary, r = Ok (pack, boundary) →
    complete_to source wants (object_ids pack) boundary ∧
    (commit_history source wants →
      (∀ j c, N.of_nat j < N.max depth 1 → level source wants j c → c ∈ object_ids pack) ∧
      (∀ c, c ∈ boundary → ∃ j, level source wants j c ∧ N.of_nat j + 1 = N.max depth 1)).
Proof.
  intros Hac Hfuel. unfold serve_shallow, collect_shallow.
  destruct (shallow_closure_ends expired source (λ _ d, d <? N.max depth 1) wants rank fuel Hac Hfuel) as [r Er].
  rewrite Er. simpl. eexists. split; [done|]. intros pack boundary.
  destruct r as [[[n w] included]|]; cbn [mbind result_bind]; [|done].
  destruct (assemble expired source n (sorted_oids included)) as [pack'|] eqn:Ea; cbn [mbind result_bind]; [|done].
  intros [= <- <-]. rewrite (assemble_ids _ _ _ _ _ Ea). clear Ea. split.
  - eapply closure_complete; [done|..].
    + intros o (ps & p & Hps & _)%elem_of_cut_commits. by eexists.
    + intros o p ps d Hps Hp Hn _. apply elem_of_cut_commits. exists ps, p. split_and!; [done..|].
      apply eq_None_not_Some. intros Hs. apply Hn.
      apply shallow_closure_spec in Er as (_ & _ & Hcommits & _). auto.
  - intros Hh. pose proof (λ c ps p, shallow_closure_parents _ _ _ _ _ _ _ _ c ps p Er) as Hpar.
    destruct (shallow_closure_spec _ _ _ _ _ _ _ _ Er) as (_ & _ & Hcommits & _).
    assert (∃ k, level_inv source wants (N.max depth 1) k w []) as [k [Hin Hout]%level_inv_end].
    { unfold shallow_closure in Er. destruct (shallow_loop _ _ _ _ _ _ _) as [[[n1 w1]|]|] eqn:El; try done.
      destruct (collect_roots _ _ _ _ _ _ _ _) as [[[n2 inc]|]|]; try done. injection Er as -> -> ->.
      eapply level_inv_loop; [done| |done]. apply level_inv_start. lia. }
    split.
    + intros j c Hj Hl. apply elem_of_sorted_oids. eauto.
    + intros c Hc. apply elem_of_sorted_oids, elem_of_cut_commits in Hc as (ps & p & Hps & Hp & Hn).
      destruct (Hout c) as (j & Hl & Hj); [by eexists|]. exists j. split; [done|].
      destruct (decide (N.of_nat (S j) < N.max depth 1)) as [Hlt|]; [|lia].
      destruct (Hin (S j) p Hlt) as [x Hx]; [|congruence]. eapply level_next; [done|]. by eapply Hpar.
Qed.

(** Cutting at a boundary the client gave: the pack is complete up to the commits
    of that boundary that were reached, and these are the ones announced. *)
Theorem serve_shallow_at_complete rank fuel wants given :
  acyclic source rank → (∀ o, o ∈ wants → (rank o < fuel)%nat) →
  ∃ r, serve_shallow_at expired source fuel wants given = Some r ∧
  ∀ pack boundary, r = Ok (pack, boundary) →
    complete_to source wants (object_ids pack) boundary ∧ ∀ c, c ∈ boundary → c ∈ given.
Proof.
  intros Hac Hfuel. unfold serve_shallow_at, collect_shallow_at. set (bset := list_to_set given).
  destruct (shallow_closure_ends expired source (λ oid _, bool_decide (oid ∉ bset)) wants rank fuel Hac Hfuel) as [r Er].
  rewrite Er. simpl. eexists. split; [done|]. intros pack boundary.
  destruct r as [[[n w] included]|]; cbn [mbind result_bind]; [|done].
  destruct (assemble expired source n (sorted_oids included)) as [pack'|] eqn:Ea; cbn [mbind result_bind]; [|done].
  intros [= <- <-]. rewrite (assemble_ids _ _ _ _ _ Ea). clear Ea. split.
  - eapply closure_complete; [done|..].
    + intros o Ho. apply elem_of_intersection in Ho as [Ho _]. by apply elem_of_dom.
    + intros o p ps d Hps _ _ Hf. apply elem_of_intersection. split; [apply elem_of_dom; by eexists|].
      apply bool_decide_eq_false in Hf. by destruct (decide (o ∈ bset)).
  - intros c Hc. apply elem_of_sorted_oids, elem_of_intersection in Hc as [_ Hc]. by apply elem_of_list_to_set in Hc.
Qed.
End ShallowTheorems.

(** * Examples *)

(** A small object format: a commit is a letter and the id of its parent, its
    tree the empty tree; a tag is the id of its target.  Ids get longer along
    references, so there are no cycles. *)
Module ChainGit.
Import ToyGit.

#[export] Instance chain_git : GitEngine := {|
  pack_entries p := Ok [];
  compute_hash k d := Ok (kind_letter k +:+ text d);
  loose_header k n := kind_token k ++ [x20] ++ as_bytes (decimal n) ++ [x00];
  commit_tree_id d := match d with [] => None | _ => Some "t" end;
  commit_parent_ids d := match d with _ :: p :: ps => [text (p :: ps)] | _ => [] end;
  tree_entries d := Some (match d with [] => [] | _ => [{| entry_is_commit := false; entry_oid := text d |}] end);
  tag_target_id d := Some (text d);
  zlib_inflate z := Ok z;
  zlib_deflate d := Ok d;
|}.
#[export] Instance chain_writer : PackWriter := {|
  PackEntry := list byte;
  entry_from_data oid k d := Ok (as_bytes oid);
  write_entries es := Ok (mjoin es);
|}.

Lemma text_length d : String.length (text d) = length d.
Proof. induction d as [|b d IH]; simpl; [done|]. by f_equal. Qed.

Lemma id_length k d : String.length (kind_letter k +:+ text d) = S (length d).
Proof. destruct k; exact (f_equal S (text_length d)). Qed.

Lemma refs_shorter k d refs r :
  object_refs k d = Some refs → r ∈ refs → (String.length r < S (length d))%nat.
Proof.
  destruct k; simpl.
  - destruct d as [|b [|p ps]]; [done|..]; intros [= <-].
    + intros ->%list_elem_of_singleton. simpl. lia.
    + intros [->|[->|[]%not_elem_of_nil]%elem_of_cons]%elem_of_cons; [simpl; lia|].
      change (String (ascii_of_byte p) (text ps)) with (text (p :: ps)). rewrite text_length. simpl. lia.
  - destruct d as [|b d]; intros [= <-]; [by intros ?%not_elem_of_nil|]. simpl.
    intros ->%list_elem_of_singleton. change (String (ascii_of_byte b) (text d)) with (text (b :: d)).
    rewrite text_length. simpl. lia.
  - intros [= <-]. by intros ?%not_elem_of_nil.
  - intros [= <-] ->%list_elem_of_singleton. rewrite text_length. lia.
Qed.

Lemma chain_acyclic (s : CasObjectSource) : acyclic s String.length.
Proof.
  intros o r (obj & refs & Hg & Hr & Hin). simpl in Hg. unfold source_get in Hg.
  destruct (source_objects s !! o) as [stored|]; [|done]. cbn in Hg. case_decide as Hd; [done|]. injection Hg as ->.
  subst o. apply (refs_shorter _ _ _ _ Hr) in Hin.
  rewrite id_length. lia.
Qed.
End ChainGit.

Module ServeExample.
Import ToyGit ChainGit.

Definition commit (body : string) : GitObject := {| obj_kind := KCommit; obj_data := as_bytes body |}.
Definition tag (body : string) : GitObject := {| obj_kind := KTag; obj_data := as_bytes body |}.
Definition empty_tree : GitObject := {| obj_kind := KTree; obj_data := [] |}.
Definition store (objects : list GitObject) : CasObjectSource :=
  {| source_objects := list_to_map ((λ o, (kind_letter (obj_kind o) +:+ text (obj_data o), o)) <$> objects) |}.
(** A history of three commits, the second of them tagged. *)
Definition history : CasObjectSource :=
  store [empty_tree; commit "1"; commit "2c1"; commit "3c2c1"; tag "c2c1"].
Definition never : nat → bool := λ _, false.
Definition fetch : WantHave := {| wants := ["c3c2c1"; "gc2c1"]; haves := ["c1"]; done_ := true |}.

(** A fetch of the branch and the tag by a client that has the first commit. *)
Lemma serve_request_exact_witness :
  acyclic history String.length ∧ ∃ pack, serve_request never history 10 fetch = Some (Ok pack) ∧
  object_ids pack = ["c2c1"; "c3c2c1"; "gc2c1"] ∧
  ∀ o, o ∈ object_ids pack ↔
    (∃ w, w ∈ wants fetch ∧ lies_below history w o) ∧ ¬ (∃ h, h ∈ haves fetch ∧ lies_below history h o).
Proof.
  assert (∀ o, o ∈ wants fetch ∨ o ∈ haves fetch → (String.length o < 10)%nat) as Hfuel.
  { intros o. simpl. rewrite !elem_of_cons, elem_of_nil.
    intros [[->|[->|[]]]|[->|[]]]; simpl; lia. }
  destruct (serve_request_exact never history String.length 10 fetch (chain_acyclic history) Hfuel) as (r & Hr & Hspec).
  split; [apply chain_acyclic|].
  destruct r as [pack|]; [|by vm_compute in Hr]. exists pack. destruct Hspec as (_ & _ & Hspec). split_and!; [done| |done].
  vm_compute in Hr. by injection Hr as <-.
Defined.

(** The branch at depth two. *)
Lemma serve_shallow_complete_witness :
  ∃ pack, serve_shallow never history 10 ["c3c2c1"] 2 = Some (Ok (pack, ["c2c1"])) ∧
  complete_to history ["c3c2c1"] (object_ids pack) ["c2c1"].
Proof.
  assert (∀ o, o ∈ ["c3c2c1"] → (String.length o < 10)%nat) as Hfuel.
  { intros o ->%list_elem_of_singleton. simpl. lia. }
  destruct (serve_shallow_complete never history String.length 10 ["c3c2c1"] 2 (chain_acyclic history) Hfuel) as (r & Hr & Hspec).
  destruct r as [[pack boundary]|]; [|by vm_compute in Hr]. exists pack.
  destruct (Hspec pack boundary eq_refl) as [Hc _].
  assert (boundary = ["c2c1"]) as -> by (vm_compute in Hr; by injection Hr as _ <-). split; [exact Hr|exact Hc].
Defined.

(** The same cut, asked for by its boundary. *)
Lemma serve_shallow_at_complete_witness :
  ∃ pack, serve_shallow_at never history 10 ["c3c2c1"] ["c2c1"; "c9"] = Some (Ok (pack, ["c2c1"])) ∧
  complete_to history ["c3c2c1"] (object_ids pack) ["c2c1"].
Proof.
  assert (∀ o, o ∈ ["c3c2c1"] → (String.length o < 10)%nat) as Hfuel.
  { intros o ->%list_elem_of_singleton. simpl. lia. }
  destruct (serve_shallow_at_complete never history String.length 10 ["c3c2c1"] ["c2c1"; "c9"] (chain_acyclic history) Hfuel)
    as (r & Hr & Hspec).
  destruct r as [[pack boundary]|]; [|by vm_compute in Hr]. exists pack.
  destruct (Hspec pack boundary eq_refl) as [Hc _].
  assert (boundary = ["c2c1"]) as -> by (vm_compute in Hr; by injection Hr as _ <-). split; [exact Hr|exact Hc].
Defined.

(** A tag is peeled one wave later than the code counts: asked for alone at depth
    two, the tagged commit comes with its parent; asked for beside its child, it
    is met first as the child's parent, at depth two, and its parent is cut off. *)
Example tag_depth_lost :
  (∃ pack, serve_shallow never history 10 ["gc2c1"] 2 = Some (Ok (pack, [])) ∧ "c1" ∈ object_ids pack) ∧
  (∃ pack, serve_shallow never history 10 ["c3c2c1"; "gc2c1"] 2 = Some (Ok (pack, ["c2c1"])) ∧ ("c1" ∉ object_ids pack)).
Proof.
  split; eexists; (split; [vm_compute; reflexivity|]); vm_compute.
  - repeat (constructor; try done).
  - intros Hin. repeat (inversion Hin as [|? ? ? Hin']; subst; clear Hin; rename Hin' into Hin).
Qed.

(** A store that lacks a tree refuses to serve the commit. *)
Example missing_tree_refused :
  serve_request never (store [commit "1"]) 10 {| wants := ["c1"]; haves := []; done_ := true |} = Some (Err (IncompleteClosure "t")).
Proof. vm_compute. reflexivity. Qed.
End ServeExample.
