(* ===== verification/TreeDiff.v ===== *)
(** Paths and diffs of git trees: the second half of
    [crates/hugit-proto/src/read/pack/mod.rs].

    The tree decoder of the git library is a parameter (class [TreeDecoder]); a
    file name is its bytes.  The clock is read where the code reads it: the
    [n]-th reading is past the deadline when [deadline n].  Walking a subtree
    that is on one side only has no bound of its own in the code and takes fuel;
    [None] is running out of it.

    The theorems: a resolved path is the file there; the line counts come from a
    longest common subsequence; of complete trees a diff gives rows, never a wrong one,
    and without a deadline or a cap one for every changed file. *)

From S2P Require Import Prelude Text Json JsonCodec Crypto Log Tamper Replay Push Delta Receive Serve.

(** * Tree entries *)

Record DirEntry (M : Type) := { filename : string; mode : M; entry_id : string }.
Arguments filename {M}.
Arguments mode {M}.
Arguments entry_id {M}.

(** [TreeRefIter::entries] and the entry modes of the git library. *)
Class TreeDecoder := {
  EntryMode : Type;
  is_tree : EntryMode → bool;
  is_blob : EntryMode → bool;
  is_link : EntryMode → bool;
  is_commit : EntryMode → bool;
  decode_tree : list byte → result string (list (DirEntry EntryMode));
}.

Definition MAX_PATH_DEPTH : nat := 64.
Definition MAX_TREE_ENTRIES : nat := 2000.

(** One node of a directory listing. *)
Record ListedEntry := { listed_name : string; is_dir : bool }.

Definition slash : ascii := "/"%char.
(** A segment the walks refuse. *)
Definition unsafe_segment (s : string) : bool := bool_decide (s = "" ∨ s = "." ∨ s = "..").

Section Paths.
Context `{GitEngine} `{TreeDecoder} `{ObjectSource Src} (source : Src).

Definition find_entry (name : string) (es : list (DirEntry EntryMode)) : option (DirEntry EntryMode) :=
  snd <$> list_find (λ e, filename e = name) es.

(** [src.get(oid).ok()??], of a tree, with its entries. *)
Definition tree_at (oid : string) : option (list (DirEntry EntryMode)) :=
  match src_get source oid with
  | Ok (Some obj) =>
      if decide (obj_kind obj ≠ KTree) then None
      else match decode_tree (obj_data obj) with Ok es => Some es | Err _ => None end
  | _ => None
  end.

(** Down the parent segments. *)
Fixpoint walk_dirs (current : string) (segments : list string) : option string :=
  match segments with
  | [] => Some current
  | segment :: segments =>
      if unsafe_segment segment then None
      else
        es ← tree_at current;
        e ← find_entry segment es;
        if negb (is_tree (mode e)) then None else walk_dirs (entry_id e) segments
  end.

(** The listing loop, with its cap. *)
Fixpoint list_entries (es : list (DirEntry EntryMode)) (acc : list ListedEntry) : list ListedEntry :=
  match es with
  | [] => acc
  | e :: es =>
      if bool_decide (MAX_TREE_ENTRIES ≤ length acc)%nat then acc
      else if is_link (mode e) || is_commit (mode e) then list_entries es acc
      else list_entries es (acc ++ [{| listed_name := from_utf8_lossy (filename e); is_dir := is_tree (mode e) |}])
  end.

Definition list_tree_at_dir_inner (root_tree path : string) : option (list ListedEntry) :=
  let segments := split_char slash path in
  if bool_decide (MAX_PATH_DEPTH < length segments)%nat then None
  else
    current ← walk_dirs root_tree (take (length segments - 1) segments);
    es ← tree_at current;
    Some (list_entries es []).
Definition list_tree_at_dir (root_tree path : string) : list ListedEntry :=
  default [] (list_tree_at_dir_inner root_tree path).

Definition malformed_tree (tree e : string) : PackError := InvalidOid ("malformed tree " +:+ tree +:+ ": " +:+ e).

(** [resolve_blob_at_path]: the loop over the segments, the last of which is the
    file. *)
Fixpoint resolve_segments (current : string) (segments : list string)
    : result PackError (option (string * list byte)) :=
  match segments with
  | [] => Ok None
  | segment :: rest =>
      if unsafe_segment segment then Ok None
      else
        found ← src_get source current;
        match found with
        | None => Ok None
        | Some obj =>
            if decide (obj_kind obj ≠ KTree) then Ok None
            else
              es ← map_err (malformed_tree current) (decode_tree (obj_data obj));
              match find_entry segment es with
              | None => Ok None
              | Some e =>
                  match rest with
                  | [] =>
                      if negb (is_blob (mode e)) then Ok None
                      else
                        blob ← src_get source (entry_id e);
                        match blob with
                        | None => Ok None
                        | Some b => if decide (obj_kind b ≠ KBlob) then Ok None else Ok (Some (entry_id e, obj_data b))
                        end
                  | _ :: _ =>
                      if negb (is_tree (mode e)) then Ok None else resolve_segments (entry_id e) rest
                  end
              end
        end
  end.
Definition resolve_blob_at_path (root_tree path : string) : result PackError (option (string * list byte)) :=
  let segments := split_char slash path in
  if bool_decide (MAX_PATH_DEPTH < length segments)%nat then Ok None
  else resolve_segments root_tree segments.

(** The decoder's own text is not part of the message here. *)
Definition commit_root_tree (commit : string) : result PackError (option string) :=
  found ← src_get source commit;
  match found with
  | None => Ok None
  | Some obj =>
      if decide (obj_kind obj ≠ KCommit) then Ok None
      else
        tree ← ok_or (InvalidOid ("malformed commit " +:+ commit)) (commit_tree_id (obj_data obj));
        Ok (Some tree)
  end.
End Paths.

(** * Lines *)

(** [data.split(|b| *b == b'\n')]. *)
Fixpoint split_bytes (sep : byte) (l : list byte) : list (list byte) :=
  match l with
  | [] => [[]]
  | b :: l =>
      if decide (b = sep) then [] :: split_bytes sep l
      else match split_bytes sep l with
           | [] => [[b]]
           | x :: xs => (b :: x) :: xs
           end
  end.
Definition pop {A} (l : list A) : list A := take (length l - 1) l.
Definition split_lines (data : list byte) : list (list byte) :=
  match data with
  | [] => []
  | _ =>
      let lines := split_bytes x0a data in
      if decide (last data = Some x0a) then pop lines else lines
  end.
Definition count_lines (data : list byte) : N := as_u32 (N.of_nat (length (split_lines data))).

(** * The longest common subsequence *)

Section Lcs.
Context {A : Type} `{EqDecision A} (deadline : option (nat → bool)).

(** The inner loop: the cells of one row, [cur] being overwritten in place.  Both
    rows have a cell more than [b], so every index is in range. *)
Fixpoint lcs_cells (ai : A) (j : nat) (b : list A) (prev cur : list nat) : list nat :=
  match b with
  | [] => cur
  | bj :: b =>
      let cell := if decide (ai = bj) then (prev !!! j + 1)%nat else ((prev !!! (j + 1)%nat) `max` (cur !!! j))%nat in
      lcs_cells ai (j + 1) b prev (<[(j + 1)%nat := cell]> cur)
  end.

(** The rows; the clock is read at every 64th. *)
Fixpoint lcs_rows (i : nat) (a b : list A) (n : nat) (prev cur : list nat) : nat * option nat :=
  match a with
  | [] => (n, Some (prev !!! length b))
  | ai :: a =>
      match (if (i mod 64 =? 0)%nat then deadline else None) with
      | Some dl =>
          if dl n then ((n + 1)%nat, None)
          else lcs_rows (i + 1) a b (n + 1) (lcs_cells ai 0 b prev cur) prev
      | None => lcs_rows (i + 1) a b n (lcs_cells ai 0 b prev cur) prev
      end
  end.

Definition lcs_len (a b : list A) (n : nat) : nat * option nat :=
  if decide (a = [] ∨ b = []) then (n, Some 0%nat)
  else
    let '(a, b) := if decide (length b ≤ length a)%nat then (a, b) else (b, a) in
    lcs_rows 0 a b n (replicate (length b + 1) 0%nat) (replicate (length b + 1) 0%nat).
End Lcs.

(** * Diffs *)

Inductive FileChange := Added | Removed | Modified.
#[global] Instance FileChange_eq_dec : EqDecision FileChange.
Proof. solve_decision. Defined.

Record FileDiff := { path : string; change : FileChange; added : N; removed : N }.

(** The order of the rows. *)
Definition by_path (a b : FileDiff) : Prop := String.le (path a) (path b).
#[global] Instance by_path_dec : RelDecision by_path.
Proof. unfold by_path. intros a b. apply _. Defined.
#[global] Instance by_path_trans : Transitive by_path.
Proof. unfold by_path. intros a b c. apply transitivity. Qed.
#[global] Instance by_path_total : Total by_path.
Proof. unfold by_path. intros a b. apply total, _. Qed.

Definition MAX_DIFF_FILES : N := 2000.
Definition MAX_DIFF_BLOB_BYTES : N := 1024 * 1024.
Definition MAX_DIFF_BLOB_LINES : N := 8192.

(** A blob whose lines are not counted: too large, or binary. *)
Definition skipped (data : list byte) : bool :=
  (MAX_DIFF_BLOB_BYTES <? N.of_nat (length data)) || bool_decide (x00 ∈ data).
Definition newlines (data : list byte) : N := N.of_nat (length (filter (λ b, b = x0a) data)).

(** One step of a walk, and the next. *)
Definition and_then {A B} (m : option (result PackError A)) (f : A → option (result PackError B))
    : option (result PackError B) :=
  match m with
  | None => None
  | Some (Err e) => Some (Err e)
  | Some (Ok x) => f x
  end.

Section Diff.
Context `{TreeDecoder} `{ObjectSource Src} (deadline : nat → bool) (source : Src).

Abbreviation TreeEntries := (gmap string (string * EntryMode)).

(** Blobs and subtrees by name; of two entries with one name the later. *)
Definition insert_entry (m : TreeEntries) (e : DirEntry EntryMode) : TreeEntries :=
  if is_link (mode e) || is_commit (mode e) then m else <[filename e := (entry_id e, mode e)]> m.
Definition read_tree_entries (tree : string) : result PackError (option TreeEntries) :=
  found ← src_get source tree;
  match found with
  | None => Ok None
  | Some obj =>
      if decide (obj_kind obj ≠ KTree) then Ok None
      else
        es ← map_err (malformed_tree tree) (decode_tree (obj_data obj));
        Ok (Some (foldl insert_entry ∅ es))
  end.

Definition blob_line_count (oid : string) : result PackError N :=
  found ← src_get source oid;
  match found with
  | None => Ok 0
  | Some obj =>
      if bool_decide (obj_kind obj ≠ KBlob) || skipped (obj_data obj) then Ok 0
      else Ok (count_lines (obj_data obj))
  end.

Definition blob_numstat (old_oid new_oid : string) (n : nat) : result PackError (nat * option (N * N)) :=
  found ← src_get source old_oid;
  match found with
  | None => Ok (n, Some (0, 0))
  | Some old =>
      found ← src_get source new_oid;
      match found with
      | None => Ok (n, Some (0, 0))
      | Some new =>
          if skipped (obj_data old) || skipped (obj_data new) then Ok (n, Some (0, 0))
          else if (MAX_DIFF_BLOB_LINES <? newlines (obj_data old)) || (MAX_DIFF_BLOB_LINES <? newlines (obj_data new))
          then Ok (n, Some (0, 0))
          else
            let old_lines := split_lines (obj_data old) in
            let new_lines := split_lines (obj_data new) in
            match lcs_len (Some deadline) old_lines new_lines n with
            | (n, Some lcs) =>
                Ok (n, Some (as_u32 (N.of_nat (length new_lines - lcs)), as_u32 (N.of_nat (length old_lines - lcs))))
            | (n, None) => Ok (n, None)
            end
      end
  end.

Definition names_of (a b : TreeEntries) : list string := merge_sort String.le (elements (dom a ∪ dom b)).

(** The children of a one-sided subtree, in order of name. *)
Fixpoint one_side_children (visit : string → EntryMode → string → list FileDiff → option (result PackError (list FileDiff)))
    (entries : TreeEntries) (path : string) (names : list string) (out : list FileDiff)
    : option (result PackError (list FileDiff)) :=
  match names with
  | [] => Some (Ok out)
  | name :: names =>
      match entries !! name with
      | None => one_side_children visit entries path names out
      | Some (child_oid, child_mode) =>
          and_then (visit child_oid child_mode (path +:+ "/" +:+ from_utf8_lossy name) out)
            (one_side_children visit entries path names)
      end
  end.

Fixpoint diff_one_side (fuel : nat) (side : FileChange) (oid : string) (mode : EntryMode) (path : string)
    (out : list FileDiff) : option (result PackError (list FileDiff)) :=
  match fuel with
  | O => None
  | S fuel =>
      if MAX_DIFF_FILES <=? N.of_nat (length out) then Some (Ok out)
      else if is_tree mode then
        match read_tree_entries oid with
        | Err e => Some (Err e)
        | Ok None => Some (Ok out)
        | Ok (Some entries) =>
            one_side_children (diff_one_side fuel side) entries path (names_of entries ∅) out
        end
      else
        match blob_line_count oid with
        | Err e => Some (Err e)
        | Ok lines =>
            let '(a, r) := match side with Added => (lines, 0) | Removed => (0, lines) | Modified => (lines, lines) end in
            Some (Ok (out ++ [{| path := path; change := side; added := a; removed := r |}]))
        end
  end.

(** The clock readings so far, and the rows. *)
Abbreviation Diffing := (nat * list FileDiff)%type.

Definition child_path (prefix name : string) : string :=
  if decide (prefix = "") then from_utf8_lossy name else prefix +:+ "/" +:+ from_utf8_lossy name.

(** The body of the loop over the names of both sides, [rec] being the walk of a
    pair of subtrees: whether to go on, and with what. *)
Inductive Flow := Continue (st : Diffing) | Return (st : Diffing).

Definition diff_name (rec : string → string → string → Diffing → option (result PackError Diffing)) (fuel : nat)
    (old new : option (string * EntryMode)) (path : string) (n : nat) (out : list FileDiff)
    : option (result PackError Flow) :=
  let continue out := Some (Ok (Continue (n, out))) in
  match old, new with
  | Some (o_oid, o_mode), Some (n_oid, n_mode) =>
      if decide (o_oid = n_oid) then continue out
      else if is_tree o_mode && is_tree n_mode then
        and_then (rec o_oid n_oid path (n, out)) (λ st, Some (Ok (Continue st)))
      else if xorb (is_tree o_mode) (is_tree n_mode) then
        and_then (diff_one_side fuel Removed o_oid o_mode path out) (λ out,
        and_then (diff_one_side fuel Added n_oid n_mode path out) continue)
      else
        match blob_numstat o_oid n_oid n with
        | Err e => Some (Err e)
        | Ok (n, None) => Some (Ok (Return (n, out)))
        | Ok (n, Some (a, r)) =>
            Some (Ok (Continue (n, out ++ [{| path := path; change := Modified; added := a; removed := r |}])))
        end
  | Some (o_oid, o_mode), None => and_then (diff_one_side fuel Removed o_oid o_mode path out) continue
  | None, Some (n_oid, n_mode) => and_then (diff_one_side fuel Added n_oid n_mode path out) continue
  | None, None => None
  end.

Fixpoint diff_names (rec : string → string → string → Diffing → option (result PackError Diffing)) (fuel : nat)
    (old_entries new_entries : TreeEntries) (prefix : string) (names : list string) (st : Diffing)
    : option (result PackError Diffing) :=
  match names with
  | [] => Some (Ok st)
  | name :: names =>
      let '(n, out) := st in
      if MAX_DIFF_FILES <=? N.of_nat (length out) then Some (Ok (n, out))
      else if deadline n then Some (Ok ((n + 1)%nat, out))
      else
        and_then (diff_name rec fuel (old_entries !! name) (new_entries !! name) (child_path prefix name) (n + 1) out)
          (λ flow, match flow with
                   | Return st => Some (Ok st)
                   | Continue st => diff_names rec fuel old_entries new_entries prefix names st
                   end)
  end.

(** [room] is what is left of the depth: none when the depth is over
    [MAX_PATH_DEPTH]. *)
Fixpoint tree_diff_inner (room fuel : nat) (parent_tree new_tree prefix : string) (st : Diffing)
    : option (result PackError Diffing) :=
  let '(n, out) := st in
  if deadline n then Some (Ok ((n + 1)%nat, out))
  else if decide (parent_tree = new_tree) then Some (Ok ((n + 1)%nat, out))
  else match room with
  | O => Some (Ok ((n + 1)%nat, out))
  | S room =>
      match read_tree_entries parent_tree with
      | Err e => Some (Err e)
      | Ok old =>
          match read_tree_entries new_tree with
          | Err e => Some (Err e)
          | Ok new =>
              let old_entries := default ∅ old in
              let new_entries := default ∅ new in
              diff_names (tree_diff_inner room fuel) fuel old_entries new_entries prefix
                (names_of old_entries new_entries) ((n + 1)%nat, out)
          end
      end
  end.

(** [tree_diff_until]. *)
Definition tree_diff_until (fuel : nat) (parent_tree new_tree : string) : option (result PackError (list FileDiff)) :=
  and_then (tree_diff_inner (S MAX_PATH_DEPTH) fuel parent_tree new_tree "" (0%nat, []))
    (λ st, Some (Ok (merge_sort by_path st.2))).
End Diff.

(** * A longest common subsequence *)

Definition is_lcs {A} (a b : list A) (k : nat) : Prop :=
  (∃ c, c `sublist_of` a ∧ c `sublist_of` b ∧ length c = k) ∧
  ∀ c, c `sublist_of` a → c `sublist_of` b → (length c ≤ k)%nat.

Section LcsSpec.
Context {A : Type} `{EqDecision A}.
Implicit Types a b c : list A.

Lemma is_lcs_sym a b k : is_lcs a b k → is_lcs b a k.
Proof. intros [(c & ? & ? & ?) Hmax]. split; [by exists c|auto]. Qed.

Lemma is_lcs_nil_r a : is_lcs a [] 0.
Proof.
  split; [exists []; split_and!; [apply sublist_nil_l..|done]|]. intros c _ Hc. by apply sublist_nil_r in Hc as ->.
Qed.

Lemma sublist_snoc_r c a x : c `sublist_of` a ++ [x] ↔
  c `sublist_of` a ∨ ∃ c', c = c' ++ [x] ∧ c' `sublist_of` a.
Proof.
  rewrite sublist_app_r. split.
  - intros (c1 & c2 & -> & H1 & H2). apply sublist_cons_r in H2 as [H2|(c3 & -> & H2)]; apply sublist_nil_r in H2 as ->.
    + left. by rewrite app_nil_r.
    + right. by exists c1.
  - intros [Hc|(c' & -> & Hc)]; [exists c, []|exists c', [x]]; rewrite ?app_nil_r; split_and!; try done. apply sublist_nil_l.
Qed.

Lemma is_lcs_same a b x k : is_lcs a b k → is_lcs (a ++ [x]) (b ++ [x]) (k + 1).
Proof.
  intros [(c & Ha & Hb & Hlen) Hmax]. split.
  - exists (c ++ [x]). rewrite length_app, Hlen. split_and!; [by apply sublist_app..|done].
  - intros c' Hc1 Hc2. apply sublist_snoc_r in Hc1 as [Hc1|(c1 & -> & Hc1)], Hc2 as [Hc2|(c2 & Heq & Hc2)].
    + specialize (Hmax c' Hc1 Hc2). lia.
    + subst c'. specialize (Hmax c2). rewrite length_app. simpl.
      enough (length c2 ≤ k)%nat by lia. apply Hmax; [|done]. etrans; [|done]. by apply sublist_inserts_r.
    + rewrite length_app. simpl. enough (length c1 ≤ k)%nat by lia. apply Hmax; [done|].
      etrans; [|done]. by apply sublist_inserts_r.
    + apply app_inj_tail in Heq as [<- _]. rewrite length_app. specialize (Hmax c1 Hc1 Hc2). simpl. lia.
Qed.

Lemma is_lcs_differ a b x y k1 k2 : x ≠ y →
  is_lcs a (b ++ [y]) k1 → is_lcs (a ++ [x]) b k2 → is_lcs (a ++ [x]) (b ++ [y]) (k1 `max` k2).
Proof.
  intros Hne [(c1 & Ha1 & Hb1 & Hl1) Hmax1] [(c2 & Ha2 & Hb2 & Hl2) Hmax2]. split.
  - destruct (Nat.max_spec k1 k2) as [[_ ->]|[_ ->]].
    + exists c2. split_and!; [done|by apply sublist_inserts_r|done].
    + exists c1. split_and!; [by apply sublist_inserts_r|done..].
  - intros c Hc1 Hc2. pose proof Hc1 as Hc1'. apply sublist_snoc_r in Hc1 as [Hc1|(c' & -> & Hc1)].
    + specialize (Hmax1 c Hc1 Hc2). lia.
    + apply sublist_snoc_r in Hc2 as [Hc2|(c'' & Heq & _)].
      * specialize (Hmax2 _ Hc1' Hc2). lia.
      * by apply app_inj_tail in Heq as [_ ?].
Qed.

(** Row [a] of the table: cell [j] is for the first [j] of [b]. *)
Definition row_ok (a b : list A) (upto : nat) (row : list nat) : Prop :=
  length row = (length b + 1)%nat ∧ ∀ j, (j ≤ upto)%nat → is_lcs a (take j b) (row !!! j).

Lemma lcs_cells_ok a ai done_b todo_b prev cur :
  let b := done_b ++ todo_b in
  row_ok a b (length b) prev → row_ok (a ++ [ai]) b (length done_b) cur →
  row_ok (a ++ [ai]) b (length b) (lcs_cells ai (length done_b) todo_b prev cur).
Proof.
  revert done_b cur. induction todo_b as [|bj todo_b IH]; intros done_b cur b Hprev Hcur; cbn [lcs_cells].
  { unfold b in *. by rewrite app_nil_r in *. }
  assert (b = (done_b ++ [bj]) ++ todo_b) as Hb by (unfold b; by rewrite <- (assoc_L (++))).
  clearbody b. subst b. destruct Hprev as [Hlp Hp], Hcur as [Hlc Hc].
  assert ((length done_b + 1)%nat = length (done_b ++ [bj])) as Hlen by (rewrite length_app; simpl; lia). rewrite Hlen.
  apply IH; [done|]. rewrite <- Hlen. split; [by rewrite length_insert|]. intros j Hj.
  assert (length done_b + 1 < length cur)%nat as Hin by (rewrite Hlc, !length_app; simpl; lia).
  destruct (decide (j = (length done_b + 1)%nat)) as [->|Hne].
  - rewrite list_lookup_total_insert_eq by done.
    rewrite take_app_le by lia. rewrite (take_ge (done_b ++ [bj])) by lia.
    assert (take (length done_b) ((done_b ++ [bj]) ++ todo_b) = done_b) as Htake.
    { rewrite <- (assoc_L (++)), take_app_le, take_ge by lia. done. }
    pose proof (Hp (length done_b)) as Hp0. rewrite Htake in Hp0.
    pose proof (Hc (length done_b)) as Hc0. rewrite Htake in Hc0.
    case_decide as Heq.
    + subst bj. apply is_lcs_same, Hp0. rewrite !length_app. lia.
    + apply is_lcs_differ; [done| |by apply Hc0].
      specialize (Hp (length done_b + 1)%nat). rewrite take_app_le, take_ge in Hp by lia. apply Hp.
      rewrite !length_app. simpl. lia.
  - rewrite list_lookup_total_insert_ne by done. apply Hc. lia.
Qed.

Lemma lcs_row_ok a ai b prev cur :
  row_ok a b (length b) prev → length cur = (length b + 1)%nat → cur !!! 0%nat = 0%nat →
  row_ok (a ++ [ai]) b (length b) (lcs_cells ai 0 b prev cur).
Proof.
  intros Hprev Hlen H0. apply (lcs_cells_ok a ai [] b); [done|]. split; [done|].
  intros j Hj. simpl in Hj. assert (j = 0%nat) as -> by lia. rewrite take_0, H0. apply is_lcs_nil_r.
Qed.

Lemma row_ok_zero a b k row : row_ok a b k row → row !!! 0%nat = 0%nat.
Proof.
  intros [_ Hr]. specialize (Hr 0%nat ltac:(lia)). rewrite take_0 in Hr.
  destruct Hr as [(c & _ & Hc & <-) _]. by apply sublist_nil_r in Hc as ->.
Qed.

Lemma lcs_rows_ok deadline i pre a b n prev cur :
  row_ok pre b (length b) prev → length cur = (length b + 1)%nat → cur !!! 0%nat = 0%nat →
  match lcs_rows deadline i a b n prev cur with
  | (_, Some k) => is_lcs (pre ++ a) b k
  | (_, None) => ∃ dl m, deadline = Some dl ∧ dl m = true
  end.
Proof.
  revert pre i n prev cur. induction a as [|ai a IH]; intros pre i n prev cur Hprev Hlen H0; cbn [lcs_rows].
  { destruct Hprev as [_ Hp]. specialize (Hp (length b) ltac:(done)). rewrite take_ge in Hp by done. by rewrite app_nil_r. }
  assert (∀ n, match lcs_rows deadline (i + 1) a b n (lcs_cells ai 0 b prev cur) prev with
    | (_, Some k) => is_lcs (pre ++ ai :: a) b k
    | (_, None) => ∃ dl m, deadline = Some dl ∧ dl m = true
    end) as Hgo.
  { intros m. rewrite cons_middle, (assoc_L (++)). apply IH.
    - by apply lcs_row_ok.
    - apply Hprev.
    - by eapply row_ok_zero. }
  destruct ((i mod 64 =? 0)%nat); [|apply Hgo]. destruct deadline as [dl|]; [|apply Hgo].
  destruct (dl n) eqn:Edl; [by exists dl, n|]. apply Hgo.
Qed.
End LcsSpec.

Lemma lcs_len_ok {A} `{EqDecision A} deadline (a b : list A) n :
  match lcs_len deadline a b n with
  | (_, Some k) => is_lcs a b k
  | (_, None) => ∃ dl m, deadline = Some dl ∧ dl m = true
  end.
Proof.
  assert (∀ (a b : list A), match lcs_rows deadline 0 a b n (replicate (length b + 1) 0%nat) (replicate (length b + 1) 0%nat) with
    | (_, Some k) => is_lcs a b k
    | (_, None) => ∃ dl m, deadline = Some dl ∧ dl m = true
    end) as Hrows.
  { intros a' b'. apply (lcs_rows_ok deadline 0 [] a' b').
    - split; [by rewrite length_replicate|]. intros j Hj. rewrite lookup_total_replicate_2 by lia.
      apply is_lcs_sym, is_lcs_nil_r.
    - by rewrite length_replicate.
    - by rewrite lookup_total_replicate_2 by lia. }
  unfold lcs_len. case_decide as Hnil.
  { destruct Hnil as [-> | ->]; [apply is_lcs_sym|]; apply is_lcs_nil_r. }
  case_decide; [apply Hrows|]. specialize (Hrows b a).
  destruct (lcs_rows deadline 0 b a n _ _) as [m [k|]]; [by apply is_lcs_sym|done].
Qed.

(** The rolling two-row computation, with the lists swapped so that the rows are
    short, gives the length of a longest common subsequence; it gives up only
    when the deadline has passed. *)
Theorem lcs_len_correct {A} `{EqDecision A} deadline (a b : list A) n :
  match lcs_len deadline a b n with
  | (_, Some k) => is_lcs a b k
  | (_, None) => ∃ dl m, deadline = Some dl ∧ dl m = true
  end.
Proof. apply lcs_len_ok. Qed.

(** * What a path resolves to *)

Section Resolve.
Context `{GitEngine} `{TreeDecoder} `{ObjectSource Src} (source : Src).

(** The blob entry the names lead to. *)
Inductive leads_to : string → list string → string → Prop :=
| leads_here tree es name e :
    tree_at source tree = Some es → find_entry name es = Some e → is_blob (mode e) = true →
    leads_to tree [name] (entry_id e)
| leads_below tree es name e segments oid :
    tree_at source tree = Some es → find_entry name es = Some e → is_tree (mode e) = true →
    leads_to (entry_id e) segments oid →
    leads_to tree (name :: segments) oid.

Lemma leads_to_nonempty tree segments oid : leads_to tree segments oid → segments ≠ [].
Proof. by intros []. Qed.

Lemma tree_at_some tree es : tree_at source tree = Some es ↔
  ∃ obj, src_get source tree = Ok (Some obj) ∧ obj_kind obj = KTree ∧ decode_tree (obj_data obj) = Ok es.
Proof.
  unfold tree_at. split.
  - destruct (src_get source tree) as [[obj|]|]; [|done..]. case_decide as Hk; [done|].
    destruct (decode_tree (obj_data obj)) eqn:Ed; [|done]. intros [= ->]. exists obj. split_and!; [done| |done].
    by destruct (obj_kind obj).
  - intros (obj & -> & Hk & ->). by rewrite decide_False by (intros Hn; by apply Hn).
Qed.

Lemma leads_to_cons tree segment rest es e oid :
  tree_at source tree = Some es → find_entry segment es = Some e →
  leads_to tree (segment :: rest) oid ↔
  (rest = [] ∧ is_blob (mode e) = true ∧ oid = entry_id e) ∨ (is_tree (mode e) = true ∧ leads_to (entry_id e) rest oid).
Proof.
  intros Ht Hf. split.
  - intros Hl. inversion Hl; subst; simplify_eq; [left|right]; auto.
  - intros [(-> & ? & ->)|[? ?]]; [by eapply leads_here|by eapply leads_below].
Qed.

Lemma leads_to_found tree segment rest oid : leads_to tree (segment :: rest) oid →
  ∃ es e, tree_at source tree = Some es ∧ find_entry segment es = Some e.
Proof. intros Hl. inversion Hl; subst; eauto. Qed.

Lemma resolve_segments_iff tree segments oid data :
  resolve_segments source tree segments = Ok (Some (oid, data)) ↔
  Forall (λ s, unsafe_segment s = false) segments ∧ leads_to tree segments oid ∧
  ∃ blob, src_get source oid = Ok (Some blob) ∧ obj_kind blob = KBlob ∧ obj_data blob = data.
Proof.
  revert tree. induction segments as [|segment rest IH]; intros tree.
  { simpl. split; [done|]. intros (_ & Hl & _). by apply leads_to_nonempty in Hl. }
  cbn [resolve_segments]. rewrite Forall_cons. destruct (unsafe_segment segment); [naive_solver|].
  destruct (src_get source tree) as [[obj|]|] eqn:Eg; cbn [mbind result_bind].
  2,3: split; [done|]; intros (_ & (es1 & e1 & (obj1 & ? & _)%tree_at_some & _)%leads_to_found & _); congruence.
  case_decide as Hk.
  { split; [done|]. intros (_ & (es1 & e1 & (obj1 & ? & ? & _)%tree_at_some & _)%leads_to_found & _). congruence. }
  destruct (decode_tree (obj_data obj)) as [es|] eqn:Ed; cbn [map_err mbind result_bind].
  2: split; [done|]; intros (_ & (es1 & e1 & (obj1 & ? & ? & ?)%tree_at_some & _)%leads_to_found & _); congruence.
  assert (tree_at source tree = Some es) as Ht.
  { apply tree_at_some. exists obj. split_and!; [done| |done]. by destruct (obj_kind obj). }
  destruct (find_entry segment es) as [e|] eqn:Ef.
  2: { split; [done|]. intros (_ & (es1 & e1 & ? & ?)%leads_to_found & _). congruence. }
  destruct rest as [|next rest].
  - rewrite (leads_to_cons _ _ _ _ _ _ Ht Ef). destruct (is_blob (mode e)); simpl.
    + destruct (src_get source (entry_id e)) as [[blob|]|] eqn:Eb; cbn [mbind result_bind].
      * split.
        -- case_decide as Hb; [done|]. intros [= <- <-]. split_and!; [done|constructor|auto|].
           exists blob. split_and!; [done| |done]. by destruct (obj_kind blob).
        -- intros (_ & Hl & blob' & Hg & Hkb & <-).
           destruct Hl as [(_ & _ & ->)|[_ Hl%leads_to_nonempty]]; [|done]. rewrite Eb in Hg. injection Hg as ->.
           by rewrite decide_False by (intros Hn; by apply Hn).
      * split; [done|]. intros (_ & [(_ & _ & ->)|[_ Hl%leads_to_nonempty]] & blob' & Hg & _); [congruence|done].
      * split; [done|]. intros (_ & [(_ & _ & ->)|[_ Hl%leads_to_nonempty]] & blob' & Hg & _); [congruence|done].
    + split; [done|]. intros (_ & [(_ & ? & _)|[_ Hl%leads_to_nonempty]] & _); done.
  - rewrite (leads_to_cons _ _ _ _ _ _ Ht Ef). destruct (is_tree (mode e)); cbn [negb].
    + rewrite IH. naive_solver.
    + split; [done|]. intros (_ & [(? & _)|[? _]] & _); done.
Qed.

(** A path resolves to an id and bytes exactly when it is no deeper than allowed,
    none of its segments is empty, [.] or [..], and following its segments from
    the root leads through trees to a blob entry with that id, whose object is a
    blob with those bytes. *)
Theorem resolve_blob_at_path_iff root path oid data :
  resolve_blob_at_path source root path = Ok (Some (oid, data)) ↔
  (length (split_char slash path) ≤ MAX_PATH_DEPTH)%nat ∧
  Forall (λ s, unsafe_segment s = false) (split_char slash path) ∧
  leads_to root (split_char slash path) oid ∧
  ∃ blob, src_get source oid = Ok (Some blob) ∧ obj_kind blob = KBlob ∧ obj_data blob = data.
Proof.
  unfold resolve_blob_at_path. case_bool_decide as Hd; [split; [done|lia]|].
  rewrite resolve_segments_iff. split; [intros ?; split; [lia|done]|tauto].
Qed.
End Resolve.

(** * What a diff reports *)

(** ** Lines *)

Lemma split_bytes_nonempty sep l : split_bytes sep l ≠ [].
Proof. destruct l as [|b l]; simpl; [done|]. case_decide; [done|]. by destruct (split_bytes sep l). Qed.

Lemma length_split_bytes sep l : length (split_bytes sep l) = S (length (filter (λ b, b = sep) l)).
Proof.
  induction l as [|b l IH]; [done|]. cbn [split_bytes]. rewrite filter_cons. pose proof (split_bytes_nonempty sep l).
  case_decide; cbn [length]; [by rewrite IH|]. by destruct (split_bytes sep l).
Qed.

Lemma length_split_lines data : (length (split_lines data) ≤ S (length (filter (λ b, b = x0a) data)))%nat.
Proof.
  unfold split_lines. destruct data as [|b data]; [simpl; lia|]. rewrite <- length_split_bytes.
  case_decide; [|done]. unfold pop. rewrite length_take. lia.
Qed.

(** The number of lines: one for each newline, and one for what follows the last. *)
Definition line_count (data : list byte) : N :=
  match last data with
  | None => 0
  | Some b => newlines data + (if decide (b = x0a) then 0 else 1)
  end.

Lemma split_lines_count data : N.of_nat (length (split_lines data)) = line_count data.
Proof.
  unfold split_lines, line_count, newlines. destruct data as [|b data]; [done|].
  pose proof (length_split_bytes x0a (b :: data)) as Hl. destruct (last (b :: data)) as [c|] eqn:El; [|by apply last_None in El].
  case_decide as Hc; [injection Hc as ->; rewrite decide_True by done|rewrite decide_False by congruence; lia].
  unfold pop. rewrite length_take. lia.
Qed.

(** The lines with a newline between them, and one after them where there was. *)
Fixpoint join_lines (l : list (list byte)) : list byte :=
  match l with
  | [] => []
  | [x] => x
  | x :: l => x ++ x0a :: join_lines l
  end.

Lemma join_split_bytes l : join_lines (split_bytes x0a l) = l.
Proof.
  induction l as [|b l IH]; [done|]. cbn [split_bytes]. pose proof (split_bytes_nonempty x0a l).
  case_decide as Hb.
  - subst b. destruct (split_bytes x0a l) as [|x xs]; [done|]. cbn [join_lines app] in *. by rewrite IH.
  - destruct (split_bytes x0a l) as [|x [|y ys]]; [done|..]; cbn [join_lines app] in *; by rewrite <- IH.
Qed.

(** ** Files of a tree *)

Section Files.
Context `{TreeDecoder} `{ObjectSource Src} (source : Src).

(** The files under an entry: itself if it is no tree.  A tree the store does not
    have shows none; what a diff reports is claimed of complete trees only. *)
Inductive at_entry : string → bool → list string → string → Prop :=
| at_blob oid : at_entry oid false [] oid
| at_tree tree m name child child_mode segs oid :
    read_tree_entries source tree = Ok (Some m) → m !! name = Some (child, child_mode) →
    at_entry child (is_tree child_mode) segs oid → at_entry tree true (name :: segs) oid.

(** The files of an optional entry, and of the entries of a tree. *)
Definition has (e : option (string * EntryMode)) (segs : list string) (f : string) : Prop :=
  match e with Some (oid, m) => at_entry oid (is_tree m) segs f | None => False end.
Definition has_in (m : gmap string (string * EntryMode)) (segs : list string) (f : string) : Prop :=
  match segs with [] => False | name :: segs => has (m !! name) segs f end.

Lemma at_entry_tree tree m segs f : read_tree_entries source tree = Ok m →
  at_entry tree true segs f ↔ has_in (default ∅ m) segs f.
Proof.
  intros Hr. split.
  - intros Ha. inversion Ha as [|? m' name child cm segs' ? Hr' Hm Hc]; subst. rewrite Hr in Hr'. injection Hr' as ->.
    simpl. by rewrite Hm.
  - destruct segs as [|name segs]; [done|]. simpl. destruct m as [m|]; simpl; [|by rewrite lookup_empty].
    destruct (m !! name) as [[child cm]|] eqn:Em; [|done]. simpl. intros Hc. by eapply at_tree.
Qed.

Lemma at_blob_inv oid segs f : at_entry oid false segs f → segs = [] ∧ f = oid.
Proof. intros Ha. by inversion Ha. Qed.

Lemma at_tree_segs oid f : ¬ at_entry oid true [] f.
Proof. intros Ha. by inversion Ha. Qed.

(** The text of a path below a prefix. *)
Fixpoint render (prefix : string) (segs : list string) : string :=
  match segs with [] => prefix | name :: segs => render (child_path prefix name) segs end.

(** The line counts of a modified file. *)
Definition countable (o : GitObject) : bool :=
  negb (skipped (obj_data o)) && (newlines (obj_data o) <=? MAX_DIFF_BLOB_LINES).
Definition counts_ok (o w : GitObject) (a r : N) : Prop :=
  if countable o && countable w
  then ∃ k, is_lcs (split_lines (obj_data o)) (split_lines (obj_data w)) k ∧
         a = N.of_nat (length (split_lines (obj_data w)) - k) ∧ r = N.of_nat (length (split_lines (obj_data o)) - k)
  else a = 0 ∧ r = 0.
Definition numstat_ok (old_oid new_oid : string) (a r : N) : Prop :=
  match src_get source old_oid, src_get source new_oid with
  | Ok (Some o), Ok (Some w) => counts_ok o w a r
  | _, _ => a = 0 ∧ r = 0
  end.

Abbreviation Files := (list string → string → Prop).

(** How a file changed. *)
Definition changed (old new : Files) (segs : list string) (c : FileChange) : Prop :=
  match c with
  | Added => (∃ f, new segs f) ∧ ∀ f, ¬ old segs f
  | Removed => (∃ f, old segs f) ∧ ∀ f, ¬ new segs f
  | Modified => ∃ f g, old segs f ∧ new segs g ∧ f ≠ g
  end.
(** A row that is right about its file as far as the objects the store has tell; an
    object that is missing is taken for an empty one, as the code takes it. *)
Definition shown_row (old new : Files) (prefix : string) (r : FileDiff) : Prop :=
  ∃ segs, path r = render prefix segs ∧ changed old new segs (change r) ∧
  match change r with
  | Added => (∃ f, new segs f ∧ blob_line_count source f = Ok (added r)) ∧ removed r = 0
  | Removed => (∃ f, old segs f ∧ blob_line_count source f = Ok (removed r)) ∧ added r = 0
  | Modified => ∃ f g, old segs f ∧ new segs g ∧ numstat_ok f g (added r) (removed r)
  end.
(** Only such rows, and in the cases [full] a row for each change down to the
    given depth. *)
Definition covers (room : nat) (old new : Files) (prefix : string) (full : Prop) (rows : list FileDiff) : Prop :=
  Forall (shown_row old new prefix) rows ∧
  (full → ∀ segs c, (length segs ≤ room)%nat → changed old new segs c →
    ∃ r, r ∈ rows ∧ path r = render prefix segs ∧ change r = c).

Lemma covers_weaken room old new prefix (full full' : Prop) rows :
  (full' → full) → covers room old new prefix full rows → covers room old new prefix full' rows.
Proof. intros Hf [H1 H2]. split; [done|]. intros Hfull. by apply H2, Hf. Qed.

Lemma covers_same room (old new : Files) prefix full :
  (∀ segs f, old segs f ↔ new segs f) → (∀ segs f g, old segs f → old segs g → f = g) → covers room old new prefix full [].
Proof.
  intros Heq Hfun. split; [constructor|]. intros _ segs [] _ Hc; exfalso; simpl in Hc.
  - destruct Hc as ((f & ?%Heq) & Hn). by eapply Hn.
  - destruct Hc as ((f & ?%Heq) & Hn). by eapply Hn.
  - destruct Hc as (f & g & ? & ?%Heq & Hne). by eapply Hne, Hfun.
Qed.

Lemma covers_disjoint room (old new : Files) prefix full rows1 rows2 :
  covers room old (λ _ _, False) prefix full rows1 → covers room (λ _ _, False) new prefix full rows2 →
  (∀ segs f g, old segs f → ¬ new segs g) → covers room old new prefix full (rows1 ++ rows2).
Proof.
  intros [Hs1 Hc1] [Hs2 Hc2] Hd. split.
  - apply Forall_app. split; [eapply Forall_impl; [exact Hs1|]|eapply Forall_impl; [exact Hs2|]].
    + intros r (segs & Hp & Hc & Hrow). exists segs. destruct (change r); simpl in *; naive_solver.
    + intros r (segs & Hp & Hc & Hrow). exists segs. destruct (change r); simpl in *; naive_solver.
  - intros Hfull segs c Hlen Hc. destruct c; simpl in Hc.
    + destruct (Hc2 Hfull segs Added Hlen) as (r & ? & ?); [simpl; naive_solver|]. exists r. rewrite elem_of_app. auto.
    + destruct (Hc1 Hfull segs Removed Hlen) as (r & ? & ?); [simpl; naive_solver|]. exists r. rewrite elem_of_app. auto.
    + naive_solver.
Qed.
End Files.

Section DiffSpec.
Context `{TreeDecoder} `{ObjectSource Src} (deadline : nat → bool) (source : Src).
(** No entry without a name, and an id is a tree everywhere or nowhere. *)
Context (Hnamed : ∀ tree m, read_tree_entries source tree = Ok (Some m) → m !! "" = None).
Context (Hmodes : ∀ t1 m1 n1 t2 m2 n2 oid md1 md2,
  read_tree_entries source t1 = Ok (Some m1) → m1 !! n1 = Some (oid, md1) →
  read_tree_entries source t2 = Ok (Some m2) → m2 !! n2 = Some (oid, md2) → is_tree md1 = is_tree md2).

Lemma at_entry_fun oid b segs f g : at_entry source oid b segs f → at_entry source oid b segs g → f = g.
Proof.
  intros Hf. revert g. induction Hf as [|tree m name child cm segs f Hr Hm _ IH]; intros g Hg; inversion Hg; subst; [done|].
  apply IH. congruence.
Qed.

Lemma child_path_nonempty prefix name : name ≠ "" → child_path prefix name ≠ "".
Proof.
  intros Hn. unfold child_path. case_decide; [by apply from_utf8_lossy_nonempty|]. by destruct prefix.
Qed.

Lemma elem_of_names_of a b name : name ∈ names_of a b ↔ is_Some (a !! name) ∨ is_Some (b !! name).
Proof. unfold names_of. rewrite merge_sort_Permutation, elem_of_elements, elem_of_union, !elem_of_dom. done. Qed.

Definition below_cap (out : list FileDiff) : Prop := N.of_nat (length out) < MAX_DIFF_FILES.

Lemma below_cap_app out rows : below_cap (out ++ rows) → below_cap out.
Proof. unfold below_cap. rewrite length_app. lia. Qed.

(** The rows of one side. *)
Definition side_rows (side : FileChange) (files : list string → string → Prop) (prefix : string) (full : Prop)
    (rows : list FileDiff) : Prop :=
  Forall (λ r, ∃ segs f l, path r = render prefix segs ∧ files segs f ∧ blob_line_count source f = Ok l ∧ change r = side ∧
    (added r, removed r) = match side with Added => (l, 0) | Removed => (0, l) | Modified => (l, l) end) rows ∧
  (full → ∀ segs f, files segs f → ∃ r, r ∈ rows ∧ path r = render prefix segs ∧ change r = side).

Lemma one_side_children_spec visit side (m : gmap string (string * EntryMode)) prefix names out out' :
  (∀ name child cm pre out out', name ∈ names → m !! name = Some (child, cm) → pre ≠ "" →
    visit child cm pre out = Some (Ok out') →
    ∃ rows, out' = out ++ rows ∧ side_rows side (at_entry source child (is_tree cm)) pre (below_cap out') rows) →
  "" ∉ names → prefix ≠ "" →
  one_side_children visit m prefix names out = Some (Ok out') →
  ∃ rows, out' = out ++ rows ∧
    side_rows side (λ segs f, ∃ name rest, segs = name :: rest ∧ name ∈ names ∧ has source (m !! name) rest f) prefix (below_cap out') rows.
Proof.
  intros Hvisit Hne Hpre. revert out. induction names as [|name names IH]; intros out; cbn [one_side_children].
  { intros [= <-]. exists []. rewrite app_nil_r. split; [done|]. split; [constructor|].
    intros _ segs f (name & rest & _ & Hn%not_elem_of_nil & _). done. }
  apply not_elem_of_cons in Hne as [Hne Hnes].
  assert (∀ name child cm pre out out', name ∈ names → m !! name = Some (child, cm) → pre ≠ "" →
    visit child cm pre out = Some (Ok out') →
    ∃ rows, out' = out ++ rows ∧ side_rows side (at_entry source child (is_tree cm)) pre (below_cap out') rows) as Hvisit'.
  { intros name' child cm pre o o' Hin. apply Hvisit. by apply list_elem_of_further. }
  destruct (m !! name) as [[child cm]|] eqn:Em.
  - assert (prefix +:+ "/" +:+ from_utf8_lossy name = child_path prefix name) as ->.
    { unfold child_path. by rewrite decide_False. }
    destruct (visit child cm _ out) as [[out1|]|] eqn:Ev; cbn [and_then]; [|done..].
    apply (Hvisit name child cm) in Ev as (rows1 & -> & Hs1 & Hc1);
      [|apply list_elem_of_here|done|by apply child_path_nonempty].
    intros Hrest. apply (IH Hvisit' Hnes) in Hrest as (rows2 & -> & Hs2 & Hc2). exists (rows1 ++ rows2).
    rewrite (assoc_L (++)). split; [done|]. split.
    + apply Forall_app. split; [eapply Forall_impl; [exact Hs1|]|eapply Forall_impl; [exact Hs2|]].
      * intros r (segs & f & l & Hp & Hf & Hrow). exists (name :: segs), f, l. split; [done|]. split; [|done].
        exists name, segs. split_and!; [done|apply list_elem_of_here|]. by rewrite Em.
      * intros r (segs & f & l & Hp & (name' & rest & ? & ? & ?) & Hrow). exists segs, f, l. split; [done|]. split; [|done].
        exists name', rest. split_and!; [done|by apply list_elem_of_further|done].
    + intros Hcap segs f (name' & rest & -> & [->|Hin]%elem_of_cons & Hf).
      * rewrite Em in Hf. destruct (Hc1 (below_cap_app _ _ Hcap) rest f Hf) as (r & ? & ? & ?). exists r. rewrite elem_of_app. auto.
      * destruct (Hc2 Hcap (name' :: rest) f) as (r & ? & ? & ?); [eauto|]. exists r. rewrite elem_of_app. auto.
  - intros Hrest. apply (IH Hvisit' Hnes) in Hrest as (rows & -> & Hs & Hc). exists rows. split; [done|]. split.
    + eapply Forall_impl; [exact Hs|]. intros r (segs & f & l & Hp & (name' & rest & ? & ? & ?) & Hrow). exists segs, f, l.
      split; [done|]. split; [|done]. exists name', rest. split_and!; [done|by apply list_elem_of_further|done].
    + intros Hcap segs f (name' & rest & -> & [->|Hin]%elem_of_cons & Hf); [by rewrite Em in Hf|].
      apply (Hc Hcap (name' :: rest) f). eauto.
Qed.

Lemma diff_one_side_spec fuel side oid md prefix out out' :
  prefix ≠ "" → diff_one_side source fuel side oid md prefix out = Some (Ok out') →
  ∃ rows, out' = out ++ rows ∧ side_rows side (at_entry source oid (is_tree md)) prefix (below_cap out') rows.
Proof.
  revert oid md prefix out out'. induction fuel as [|fuel IH]; intros oid md prefix out out' Hpre; cbn [diff_one_side]; [done|].
  destruct (N.leb_spec MAX_DIFF_FILES (N.of_nat (length out))) as [Hcap|_].
  { intros [= <-]. exists []. rewrite app_nil_r. split; [done|]. split; [constructor|]. unfold below_cap. lia. }
  destruct (is_tree md) eqn:Et.
  - destruct (read_tree_entries source oid) as [[m|]|] eqn:Er; [| |done].
    + intros Hc. apply (one_side_children_spec _ side) in Hc as (rows & -> & Hs & Hcomp).
      * exists rows. split; [done|]. split.
        -- eapply Forall_impl; [exact Hs|]. intros r (segs & f & l & Hp & (name & rest & -> & _ & Hf) & Hrow).
           exists (name :: rest), f, l. split; [done|]. split; [|done]. by apply (at_entry_tree source oid (Some m)).
        -- intros Hcap segs f Hf. apply (at_entry_tree source oid (Some m)) in Hf; [|done].
           apply (Hcomp Hcap segs f). destruct segs as [|name rest]; [done|]. exists name, rest. split_and!; [done| |done].
           apply elem_of_names_of. left. simpl in Hf. destruct (m !! name); [by eexists|done].
      * intros name child cm pre o o' _ _ Hp'. by apply IH.
      * rewrite elem_of_names_of. intros [[? Hx]|[? Hx]]; [rewrite (Hnamed _ _ Er) in Hx|rewrite lookup_empty in Hx]; done.
      * done.
    + intros [= <-]. exists []. rewrite app_nil_r. split; [done|]. split; [constructor|].
      intros _ segs f Hf. apply (at_entry_tree source oid None) in Hf; [|done]. destruct segs; [done|].
      simpl in Hf. by rewrite lookup_empty in Hf.
  - destruct (blob_line_count source oid) as [l|] eqn:El; [|done].
    assert (∀ a r, (a, r) = match side with Added => (l, 0) | Removed => (0, l) | Modified => (l, l) end →
      side_rows side (at_entry source oid false) prefix (below_cap out')
        [{| path := prefix; change := side; added := a; removed := r |}]) as Hrow.
    { intros a r Har. split.
      - constructor; [|constructor]. exists [], oid, l. split_and!; try done. constructor.
      - intros _ segs f [-> ->]%at_blob_inv. eexists. split; [apply list_elem_of_here|done]. }
    destruct side; intros [= <-]; (eexists; split; [done|by apply Hrow]).
Qed.

Lemma removed_side fuel oid md prefix out out' room :
  prefix ≠ "" → diff_one_side source fuel Removed oid md prefix out = Some (Ok out') →
  ∃ rows, out' = out ++ rows ∧
    covers source room (at_entry source oid (is_tree md)) (λ _ _, False) prefix (below_cap out') rows.
Proof.
  intros Hpre Hd. apply diff_one_side_spec in Hd as (rows & -> & Hs & Hc); [|done]. exists rows. split; [done|]. split.
  - eapply Forall_impl; [exact Hs|]. intros r (segs & f & l & Hp & Hf & Hl & Hch & [= Ha Hr]). exists segs.
    rewrite Hch. simpl. split_and!; [done|by exists f|auto|by exists f; rewrite Hr|done].
  - intros Hcap segs [] _; simpl; [naive_solver| |naive_solver]. intros [(f & Hf) _]. by eapply Hc.
Qed.

Lemma added_side fuel oid md prefix out out' room :
  prefix ≠ "" → diff_one_side source fuel Added oid md prefix out = Some (Ok out') →
  ∃ rows, out' = out ++ rows ∧
    covers source room (λ _ _, False) (at_entry source oid (is_tree md)) prefix (below_cap out') rows.
Proof.
  intros Hpre Hd. apply diff_one_side_spec in Hd as (rows & -> & Hs & Hc); [|done]. exists rows. split; [done|]. split.
  - eapply Forall_impl; [exact Hs|]. intros r (segs & f & l & Hp & Hf & Hl & Hch & [= Ha Hr]). exists segs.
    rewrite Hch. simpl. split_and!; [done|by exists f|auto|by exists f; rewrite Ha|done].
  - intros Hcap segs [] _; simpl; [|naive_solver|naive_solver]. intros [(f & Hf) _]. by eapply Hc.
Qed.

Lemma blob_numstat_ok o w n n' a r :
  blob_numstat deadline source o w n = Ok (n', Some (a, r)) → numstat_ok source o w a r.
Proof.
  unfold blob_numstat, numstat_ok, counts_ok, countable.
  destruct (src_get source o) as [[old|]|]; cbn [mbind result_bind]; [| |done].
  2: by intros [= _ <- <-].
  destruct (src_get source w) as [[new|]|]; cbn [mbind result_bind]; [| |done].
  2: by intros [= _ <- <-].
  destruct (skipped (obj_data old)); [by intros [= _ <- <-]|].
  destruct (skipped (obj_data new)); [simpl; rewrite andb_false_r; by intros [= _ <- <-]|]. cbn [orb negb andb].
  rewrite !N.leb_antisym. destruct (MAX_DIFF_BLOB_LINES <? newlines (obj_data old)) eqn:E1; [by intros [= _ <- <-]|].
  destruct (MAX_DIFF_BLOB_LINES <? newlines (obj_data new)) eqn:E2; [by intros [= _ <- <-]|]. cbn [orb negb andb].
  apply N.ltb_ge in E1, E2. unfold newlines, MAX_DIFF_BLOB_LINES in *.
  pose proof (length_split_lines (obj_data old)). pose proof (length_split_lines (obj_data new)).
  pose proof (lcs_len_ok (Some deadline) (split_lines (obj_data old)) (split_lines (obj_data new)) n) as Hlcs.
  destruct (lcs_len _ _ _ n) as [m [k|]]; [|done]. intros [= _ <- <-]. exists k. split; [done|].
  unfold as_u32. rewrite !N.mod_small by lia. done.
Qed.

Lemma blob_numstat_stops o w n n' : blob_numstat deadline source o w n = Ok (n', None) → ∃ m, deadline m = true.
Proof.
  unfold blob_numstat. destruct (src_get source o) as [[old|]|]; cbn [mbind result_bind]; [|done..].
  destruct (src_get source w) as [[new|]|]; cbn [mbind result_bind]; [|done..].
  destruct (_ || _); [done|]. destruct (_ || _); [done|].
  pose proof (lcs_len_ok (Some deadline) (split_lines (obj_data old)) (split_lines (obj_data new)) n) as Hlcs.
  destruct (lcs_len _ _ _ n) as [m [k|]]; [done|]. intros _. destruct Hlcs as (dl & m' & [= <-] & ?). eauto.
Qed.

Definition never : Prop := ∀ n, deadline n = false.
Definition restrict (names : list string) (m : gmap string (string * EntryMode)) (segs : list string) (f : string) : Prop :=
  match segs with [] => False | name :: rest => name ∈ names ∧ has source (m !! name) rest f end.

Lemma changed_some (old new : list string → string → Prop) segs c : changed old new segs c → ∃ f, old segs f ∨ new segs f.
Proof. destruct c; simpl; [intros [[f ?] _]|intros [[f ?] _]|intros (f & _ & ? & _)]; eauto. Qed.

Lemma changed_restrict names old new segs c :
  changed (restrict names old) (restrict names new) segs c → ∃ name rest, segs = name :: rest ∧ name ∈ names.
Proof.
  intros [f Hf]%changed_some. destruct segs as [|name rest]; simpl in Hf; [tauto|]. exists name, rest. tauto.
Qed.

Lemma covers_name room old new prefix full name names rows1 rows2 :
  covers source room (has source (old !! name)) (has source (new !! name)) (child_path prefix name) full rows1 →
  covers source (S room) (restrict names old) (restrict names new) prefix full rows2 →
  covers source (S room) (restrict (name :: names) old) (restrict (name :: names) new) prefix full (rows1 ++ rows2).
Proof.
  assert (∀ m rest f, restrict (name :: names) m (name :: rest) f ↔ has source (m !! name) rest f) as Hhere.
  { intros m rest f. simpl. rewrite elem_of_cons. tauto. }
  assert (∀ m name' rest f, name' ∈ names → restrict (name :: names) m (name' :: rest) f ↔ restrict names m (name' :: rest) f) as Hrest.
  { intros m name' rest f Hin. simpl. rewrite elem_of_cons. tauto. }
  intros [Hs1 Hc1] [Hs2 Hc2]. split.
  - apply Forall_app. split; [eapply Forall_impl; [exact Hs1|]|eapply Forall_impl; [exact Hs2|]].
    + intros r (segs & Hp & Hc & Hrow). exists (name :: segs). split; [done|].
      destruct (change r); simpl changed in *; setoid_rewrite Hhere; done.
    + intros r (segs & Hp & Hc & Hrow). apply changed_restrict in Hc as Hseg. destruct Hseg as (name' & rest & -> & Hin).
      exists (name' :: rest). split; [done|].
      destruct (change r); cbn [changed] in *; setoid_rewrite (Hrest _ _ _ _ Hin); done.
  - intros Hfull segs c Hlen Hc. apply changed_restrict in Hc as Hseg. destruct Hseg as (name' & rest & -> & Hin'). simpl in Hlen.
    destruct (decide (name' = name)) as [->|Hne].
    + destruct (Hc1 Hfull rest c ltac:(lia)) as (r & ? & ? & ?); [|exists r; rewrite elem_of_app; auto].
      destruct c; cbn [changed] in *; setoid_rewrite Hhere in Hc; done.
    + assert (name' ∈ names) as Hin by (by apply elem_of_cons in Hin' as [?|?]).
      destruct (Hc2 Hfull (name' :: rest) c ltac:(simpl; lia)) as (r & ? & ? & ?); [|exists r; rewrite elem_of_app; auto].
      destruct c; cbn [changed] in *; setoid_rewrite (Hrest _ _ _ _ Hin) in Hc; done.
Qed.

(** The loop stopping early. *)
Lemma covers_stopped room old new prefix (full : Prop) : ¬ full → covers source room old new prefix full [].
Proof. intros Hn. split; [constructor|done]. Qed.

Lemma covers_same_entry room e prefix full : covers source room (has source e) (has source e) prefix full [].
Proof.
  apply covers_same; [done|]. intros segs f g. destruct e as [[oid md]|]; [apply at_entry_fun|done].
Qed.

Lemma covers_modified room o w om wm prefix full a r :
  is_tree om = false → is_tree wm = false → o ≠ w → numstat_ok source o w a r →
  covers source room (has source (Some (o, om))) (has source (Some (w, wm))) prefix full
    [{| path := prefix; change := Modified; added := a; removed := r |}].
Proof.
  intros Hom Hwm Hne Hok. unfold has. rewrite Hom, Hwm. split.
  - constructor; [|constructor]. exists []. simpl. split; [done|].
    split; exists o, w; split_and!; try done; constructor.
  - intros _ segs c _ Hc. eexists. split; [apply list_elem_of_here|]. simpl.
    destruct c; simpl in Hc.
    + destruct Hc as [[f [-> ->]%at_blob_inv] Hn]. exfalso. eapply Hn. constructor.
    + destruct Hc as [[f [-> ->]%at_blob_inv] Hn]. exfalso. eapply Hn. constructor.
    + destruct Hc as (f & g & [-> ->]%at_blob_inv & _). done.
Qed.

Lemma sides_disjoint o om w wm segs f g :
  xorb (is_tree om) (is_tree wm) = true → has source (Some (o, om)) segs f → ¬ has source (Some (w, wm)) segs g.
Proof.
  simpl. destruct (is_tree om), (is_tree wm); try done; intros _ Hf Hg.
  - apply at_blob_inv in Hg as [-> _]. by apply at_tree_segs in Hf.
  - apply at_blob_inv in Hf as [-> _]. by apply at_tree_segs in Hg.
Qed.

Lemma restrict_all names m segs f : (∀ name, is_Some (m !! name) → name ∈ names) → has_in source m segs f ↔ restrict names m segs f.
Proof.
  intros Hall. destruct segs as [|name rest]; [done|]. simpl. split; [|tauto]. intros Hf. split; [|done].
  apply Hall. destruct (m !! name); [by eexists|done].
Qed.

Lemma covers_ext room (old old' new new' : list string → string → Prop) prefix full rows :
  (∀ segs f, old segs f ↔ old' segs f) → (∀ segs f, new segs f ↔ new' segs f) →
  covers source room old' new' prefix full rows → covers source room old new prefix full rows.
Proof.
  intros Ho Hn [Hs Hc].
  assert (∀ segs c, changed old new segs c ↔ changed old' new' segs c) as Hch.
  { intros segs []; simpl; setoid_rewrite Ho; setoid_rewrite Hn; done. }
  split; [|intros Hfull segs c Hlen Hcc; by apply Hc, Hch].
  eapply Forall_impl; [exact Hs|]. intros r (segs & Hp & Hcc & Hrow). exists segs. split; [done|]. rewrite Hch. split; [done|].
  destruct (change r); try setoid_rewrite Ho; try setoid_rewrite Hn; done.
Qed.

(** The walk of a pair of subtrees, as the loop uses it. *)
Definition rec_ok (room : nat) (rec : string → string → string → nat * list FileDiff → option (result PackError (nat * list FileDiff))) : Prop :=
  ∀ o w pre st st', pre ≠ "" → rec o w pre st = Some (Ok st') →
    ∃ rows, st'.2 = st.2 ++ rows ∧
      covers source room (at_entry source o true) (at_entry source w true) pre (never ∧ below_cap st'.2) rows.

Definition flow_state (fl : Flow) : nat * list FileDiff := match fl with Continue st | Return st => st end.

Lemma diff_name_spec rec fuel room old new prefix n out fl :
  rec_ok room rec →
  (∀ oid md1 md2, old = Some (oid, md1) → new = Some (oid, md2) → is_tree md1 = is_tree md2) →
  prefix ≠ "" → diff_name deadline source rec fuel old new prefix n out = Some (Ok fl) →
  ∃ rows, (flow_state fl).2 = out ++ rows ∧
    covers source room (has source old) (has source new) prefix (never ∧ below_cap (flow_state fl).2) rows ∧
    (never → ∃ st, fl = Continue st).
Proof.
  intros Hrec Hsame Hpath. unfold diff_name.
  assert (∀ rows out' (full : Prop), out' = out ++ rows → covers source room (has source old) (has source new) prefix full rows →
    (never ∧ below_cap out' → full) → ∀ n1, ∃ rows, (flow_state (Continue (n1, out'))).2 = out ++ rows ∧
    covers source room (has source old) (has source new) prefix (never ∧ below_cap out') rows ∧
    (never → ∃ st, Continue (n1, out') = Continue st)) as Hgo.
  { intros rows out' full -> Hcov Hfull n1. exists rows. split_and!; [done|by eapply covers_weaken|eauto]. }
  destruct old as [[o om]|], new as [[w wm]|]; [| | |done].
  - case_decide as Hid.
    { subst w. intros [= <-]. apply (Hgo [] _ True); [by rewrite app_nil_r| |done].
      specialize (Hsame o om wm eq_refl eq_refl).
      apply covers_same; [intros; simpl; by rewrite Hsame|]. intros segs f g. apply at_entry_fun. }
    destruct (is_tree om && is_tree wm) eqn:Ett.
    { apply andb_true_iff in Ett as [Etom Etwm].
      destruct (rec o w _ _) as [[[n1 out1]|]|] eqn:Er; cbn [and_then]; [|done..]. intros [= <-].
      apply Hrec in Er as (rows1 & Hout & Hcov); [|done].
      apply (Hgo rows1 _ (never ∧ below_cap out1)); [done| |done]. unfold has. by rewrite Etom, Etwm. }
    destruct (xorb (is_tree om) (is_tree wm)) eqn:Ex.
    { destruct (diff_one_side source fuel Removed o om _ out) as [[out1|]|] eqn:E1; cbn [and_then]; [|done..].
      destruct (diff_one_side source fuel Added w wm _ out1) as [[out2|]|] eqn:E2; cbn [and_then]; [|done..].
      apply (removed_side _ _ _ _ _ _ room Hpath) in E1 as (rows1 & -> & Hcov1).
      apply (added_side _ _ _ _ _ _ room Hpath) in E2 as (rows2 & -> & Hcov2). intros [= <-].
      apply (Hgo (rows1 ++ rows2) _ (below_cap ((out ++ rows1) ++ rows2))); [by rewrite (assoc_L (++))| |tauto].
      apply covers_disjoint; [|done|intros segs f g; by apply sides_disjoint].
      eapply covers_weaken; [|done]. apply below_cap_app. }
    destruct (blob_numstat deadline source o w n) as [[n1 [[a r]|]]|] eqn:En; [| |done]; intros [= <-].
    + eapply (Hgo _ _ True); [done| |done]. apply blob_numstat_ok in En.
      apply covers_modified; [by destruct (is_tree om), (is_tree wm)..|done|done].
    + apply blob_numstat_stops in En as [m Hm]. assert (¬ never) as Hn by (intros Hn; by rewrite Hn in Hm).
      exists []. rewrite app_nil_r. split_and!; [done|apply covers_stopped; tauto|done].
  - destruct (diff_one_side source fuel Removed o om _ out) as [[out1|]|] eqn:E1; cbn [and_then]; [|done..]. intros [= <-].
    apply (removed_side _ _ _ _ _ _ room Hpath) in E1 as (rows1 & -> & Hcov1).
    apply (Hgo rows1 _ (below_cap (out ++ rows1))); [done|done|tauto].
  - destruct (diff_one_side source fuel Added w wm _ out) as [[out1|]|] eqn:E1; cbn [and_then]; [|done..]. intros [= <-].
    apply (added_side _ _ _ _ _ _ room Hpath) in E1 as (rows1 & -> & Hcov1).
    apply (Hgo rows1 _ (below_cap (out ++ rows1))); [done|done|tauto].
Qed.

Lemma diff_names_spec rec fuel room old new prefix names n out st' :
  rec_ok room rec →
  (∀ name oid md1 md2, old !! name = Some (oid, md1) → new !! name = Some (oid, md2) → is_tree md1 = is_tree md2) →
  "" ∉ names →
  diff_names deadline source rec fuel old new prefix names (n, out) = Some (Ok st') →
  ∃ rows, st'.2 = out ++ rows ∧
    covers source (S room) (restrict names old) (restrict names new) prefix (never ∧ below_cap st'.2) rows.
Proof.
  intros Hrec Hsame. revert n out. induction names as [|name names IH]; intros n out Hne; cbn [diff_names].
  { intros [= <-]. exists []. rewrite app_nil_r. split; [done|]. split; [constructor|].
    intros _ segs c _ (name & rest & _ & Hn%not_elem_of_nil)%changed_restrict. done. }
  apply not_elem_of_cons in Hne as [Hne Hnes].
  destruct (N.leb_spec MAX_DIFF_FILES (N.of_nat (length out))) as [Hc|_].
  { intros [= <-]. exists []. rewrite app_nil_r. split; [done|]. apply covers_stopped. unfold below_cap. simpl. lia. }
  destruct (deadline n) eqn:Edl.
  { intros [= <-]. exists []. rewrite app_nil_r. split; [done|]. apply covers_stopped. intros [Hn _]. by rewrite Hn in Edl. }
  destruct (diff_name deadline source rec fuel _ _ _ _ _) as [[fl|]|] eqn:Ed; cbn [and_then]; [|done..].
  eapply diff_name_spec in Ed as (rows1 & Hout & Hcov & Hgo); [|done|by apply Hsame|by apply child_path_nonempty].
  destruct fl as [[n1 out1]|st1]; simpl in Hout, Hcov.
  - subst out1. intros Hrun. apply IH in Hrun as (rows2 & Heq & Hcov2); [|done]. exists (rows1 ++ rows2).
    rewrite (assoc_L (++)). split; [done|]. apply covers_name; [|done]. eapply covers_weaken; [|done].
    rewrite Heq. intros [? ?%below_cap_app]. done.
  - intros [= <-]. exists (rows1 ++ []). rewrite app_nil_r at 1. split; [done|].
    assert (¬ (never ∧ below_cap st1.2)) as Hn by (intros [Hn _]; by destruct (Hgo Hn)).
    apply covers_name; [done|]. by apply covers_stopped.
Qed.

Lemma tree_diff_inner_spec room fuel p q prefix st st' :
  tree_diff_inner deadline source room fuel p q prefix st = Some (Ok st') →
  ∃ rows, st'.2 = st.2 ++ rows ∧
    covers source room (at_entry source p true) (at_entry source q true) prefix (never ∧ below_cap st'.2) rows.
Proof.
  revert p q prefix st st'. induction room as [|room IH]; intros p q prefix [n out] st'; cbn [tree_diff_inner].
  - destruct (deadline n) eqn:Edl; [|case_decide]; intros [= <-]; exists []; rewrite app_nil_r; (split; [done|]).
    1: by apply covers_stopped; intros [Hn _]; rewrite Hn in Edl.
    all: split; [constructor|]; intros _ [|] c Hlen [f [Hf|Hf]]%changed_some; simpl in *; try lia; by apply at_tree_segs in Hf.
  - destruct (deadline n) eqn:Edl; [|case_decide as Hpq].
    { intros [= <-]. exists []. rewrite app_nil_r. split; [done|]. apply covers_stopped. intros [Hn _]. by rewrite Hn in Edl. }
    { intros [= <-]. exists []. rewrite app_nil_r. split; [done|]. subst q. apply covers_same; [done|]. apply at_entry_fun. }
    destruct (read_tree_entries source p) as [old|] eqn:Ep; [|done].
    destruct (read_tree_entries source q) as [new|] eqn:Eq; [|done]. intros Hrun.
    apply (diff_names_spec _ _ room) in Hrun as (rows & Hout & Hcov).
    + exists rows. split; [done|]. eapply covers_ext; [..|done].
      * intros segs f. rewrite (at_entry_tree source p old) by done. apply restrict_all. intros name Hn.
        apply elem_of_names_of. auto.
      * intros segs f. rewrite (at_entry_tree source q new) by done. apply restrict_all. intros name Hn.
        apply elem_of_names_of. auto.
    + intros o w pre st1 st1' _. apply IH.
    + intros name oid md1 md2 Ho Hw. destruct old as [old|]; simpl in Ho; [|by rewrite lookup_empty in Ho].
      destruct new as [new|]; simpl in Hw; [|by rewrite lookup_empty in Hw]. by eapply (Hmodes p old name q new name).
    + rewrite elem_of_names_of. intros [[x Hx]|[x Hx]].
      * destruct old as [old|]; simpl in Hx; [rewrite (Hnamed _ _ Ep) in Hx|rewrite lookup_empty in Hx]; done.
      * destruct new as [new|]; simpl in Hx; [rewrite (Hnamed _ _ Eq) in Hx|rewrite lookup_empty in Hx]; done.
Qed.
End DiffSpec.

(** ** Complete trees *)

Section Complete.
Context `{TreeDecoder} `{ObjectSource Src} (source : Src).

(** What is found below an entry, itself included, and whether it is a tree. *)
Inductive reaches : string → bool → string → bool → Prop :=
| reaches_self oid b : reaches oid b oid b
| reaches_child tree m name child child_mode oid b :
    read_tree_entries source tree = Ok (Some m) → m !! name = Some (child, child_mode) →
    reaches child (is_tree child_mode) oid b → reaches tree true oid b.
(** An entry is in the store as what it is, a tree with entries that decode. *)
Definition readable (oid : string) (b : bool) : Prop :=
  if b then ∃ m, read_tree_entries source oid = Ok (Some m) else ∃ o, src_get source oid = Ok (Some o) ∧ obj_kind o = KBlob.
Definition complete (oid : string) (b : bool) : Prop := ∀ oid' b', reaches oid b oid' b' → readable oid' b'.

Lemma complete_child tree m name child cm : complete tree true →
  read_tree_entries source tree = Ok (Some m) → m !! name = Some (child, cm) → complete child (is_tree cm).
Proof. intros Hc Hr Hm oid b Hx. apply Hc. by eapply reaches_child. Qed.
Lemma complete_tree tree : complete tree true → ∃ m, read_tree_entries source tree = Ok (Some m).
Proof. intros Hc. apply (Hc tree true). constructor. Qed.
Lemma complete_blob oid : complete oid false → ∃ o, src_get source oid = Ok (Some o) ∧ obj_kind o = KBlob.
Proof. intros Hc. apply (Hc oid false). constructor. Qed.
Lemma complete_file oid b segs f : complete oid b → at_entry source oid b segs f → ∃ o, src_get source f = Ok (Some o) ∧ obj_kind o = KBlob.
Proof.
  intros Hc Ha. apply (Hc f false). clear Hc. induction Ha as [|tree m name child cm segs oid Hr Hm _ IH]; [constructor|by eapply reaches_child].
Qed.

(** The lines counted of a file on one side: none of a large or binary one. *)
Definition counted (o : GitObject) : N := if skipped (obj_data o) then 0 else line_count (obj_data o).

Lemma blob_line_count_counted f o : src_get source f = Ok (Some o) → obj_kind o = KBlob → blob_line_count source f = Ok (counted o).
Proof.
  intros Hg Hk. unfold blob_line_count, counted. rewrite Hg. cbn [mbind result_bind]. rewrite bool_decide_false by (by intros []). cbn [orb].
  destruct (skipped (obj_data o)) eqn:Es; [done|]. unfold count_lines, as_u32. rewrite split_lines_count, N.mod_small; [done|].
  apply orb_false_iff in Es as [Es _]. apply N.ltb_ge in Es. rewrite <- split_lines_count.
  pose proof (length_split_lines (obj_data o)). pose proof (length_filter (λ b, b = x0a) (obj_data o)). unfold MAX_DIFF_BLOB_BYTES in Es. lia.
Qed.

(** A row that is right about its file: the file was added, removed or modified as
    the row says, and the row has its lines, or the counts of a longest common
    subsequence. *)
Definition right_row (old new : list string → string → Prop) (r : FileDiff) : Prop :=
  ∃ segs, path r = render "" segs ∧ changed old new segs (change r) ∧
  match change r with
  | Added => removed r = 0 ∧ ∃ f o, new segs f ∧ src_get source f = Ok (Some o) ∧ added r = counted o
  | Removed => added r = 0 ∧ ∃ f o, old segs f ∧ src_get source f = Ok (Some o) ∧ removed r = counted o
  | Modified => ∃ f g o w, old segs f ∧ new segs g ∧ src_get source f = Ok (Some o) ∧ src_get source g = Ok (Some w) ∧
      counts_ok o w (added r) (removed r)
  end.

Lemma shown_right p q r : complete p true → complete q true →
  shown_row source (at_entry source p true) (at_entry source q true) "" r →
  right_row (at_entry source p true) (at_entry source q true) r.
Proof.
  intros Hp Hq (segs & Hpath & Hch & Hrow). exists segs. split_and!; [done..|]. destruct (change r).
  - destruct Hrow as [(f & Hf & Hl) Hz]. split; [done|]. destruct (complete_file _ _ _ _ Hq Hf) as (o & Ho & Hk). exists f, o.
    split_and!; [done..|]. rewrite (blob_line_count_counted f o) in Hl by done. congruence.
  - destruct Hrow as [(f & Hf & Hl) Hz]. split; [done|]. destruct (complete_file _ _ _ _ Hp Hf) as (o & Ho & Hk). exists f, o.
    split_and!; [done..|]. rewrite (blob_line_count_counted f o) in Hl by done. congruence.
  - destruct Hrow as (f & g & Hf & Hg & Hok). destruct (complete_file _ _ _ _ Hp Hf) as (o & Ho & _).
    destruct (complete_file _ _ _ _ Hq Hg) as (w & Hw & _). exists f, g, o, w. unfold numstat_ok in Hok. rewrite Ho, Hw in Hok. done.
Qed.
End Complete.

(** ** Termination *)

(** What git guarantees of its trees: entries have names, an id is a tree
    everywhere or nowhere, and there are no cycles. *)
Record trees_ok `{TreeDecoder} `{ObjectSource Src} (source : Src) (rank : string → nat) : Prop := {
  entries_named : ∀ tree m, read_tree_entries source tree = Ok (Some m) → m !! "" = None;
  modes_agree : ∀ t1 m1 n1 t2 m2 n2 oid md1 md2,
    read_tree_entries source t1 = Ok (Some m1) → m1 !! n1 = Some (oid, md1) →
    read_tree_entries source t2 = Ok (Some m2) → m2 !! n2 = Some (oid, md2) → is_tree md1 = is_tree md2;
  trees_descend : ∀ tree m name oid md,
    read_tree_entries source tree = Ok (Some m) → m !! name = Some (oid, md) → (rank oid < rank tree)%nat;
}.

(** A walk ends, and without an error where [ok]. *)
Definition ends {A} (ok : Prop) (m : option (result PackError A)) : Prop := ∃ r, m = Some r ∧ (ok → ∃ x, r = Ok x).

Section DiffEnds.
Context `{TreeDecoder} `{ObjectSource Src} (deadline : nat → bool) (source : Src) (rank : string → nat).
Context (Hok : trees_ok source rank).

Lemma ends_ok {A} ok (x : A) : ends ok (Some (Ok x)).
Proof. exists (Ok x). split; [done|]. intros _. by exists x. Qed.
Lemma ends_err {A} (ok : Prop) e : ¬ ok → ends ok (Some (Err e) : option (result PackError A)).
Proof. intros Hn. exists (Err e). done. Qed.
Lemma ends_weaken {A} (ok ok' : Prop) (m : option (result PackError A)) : ends ok m → (ok' → ok) → ends ok' m.
Proof. intros (r & Hm & Hr) Hw. exists r. split; [done|]. intros Hx. by apply Hr, Hw. Qed.
Lemma and_then_ends {A B} ok (m : option (result PackError A)) (f : A → option (result PackError B)) :
  ends ok m → (∀ x, m = Some (Ok x) → ends ok (f x)) → ends ok (and_then m f).
Proof.
  intros (r & -> & Hr) Hf. destruct r as [x|e]; simpl; [by apply Hf|]. apply ends_err. intros Hx. by destruct (Hr Hx).
Qed.

Lemma one_side_children_ends ok visit (m : gmap string (string * EntryMode)) prefix names out :
  (∀ name child cm pre out, m !! name = Some (child, cm) → ends ok (visit child cm pre out)) →
  ends ok (one_side_children visit m prefix names out).
Proof.
  intros Hv. revert out. induction names as [|name names IH]; intros out; cbn [one_side_children]; [apply ends_ok|].
  destruct (m !! name) as [[child cm]|] eqn:Em; [|apply IH]. apply and_then_ends; [by eapply Hv|intros x _; apply IH].
Qed.

Lemma diff_one_side_ends fuel side oid md prefix out :
  (rank oid < fuel)%nat → ends (complete source oid (is_tree md)) (diff_one_side source fuel side oid md prefix out).
Proof.
  revert oid md prefix out. induction fuel as [|fuel IH]; intros oid md prefix out Hr; [lia|]. cbn [diff_one_side].
  destruct (_ <=? _); [apply ends_ok|]. destruct (is_tree md).
  - destruct (read_tree_entries source oid) as [[m|]|] eqn:Em;
      [|apply ends_ok|apply ends_err; intros [? ?]%complete_tree; congruence].
    apply one_side_children_ends. intros name child cm pre o Hm. eapply ends_weaken; [apply IH|].
    + apply (trees_descend _ _ Hok _ _ _ _ _ Em) in Hm. lia.
    + intros Hc. by eapply complete_child.
  - destruct (blob_line_count source oid) eqn:El; [destruct side; apply ends_ok|]. apply ends_err.
    intros (o & Hg & Hk)%complete_blob. rewrite (blob_line_count_counted _ _ o) in El by done. done.
Qed.

Definition entry_below (fuel : nat) (e : option (string * EntryMode)) : Prop :=
  ∀ oid md, e = Some (oid, md) → (rank oid < fuel)%nat.
Definition entry_complete (e : option (string * EntryMode)) : Prop :=
  ∀ oid md, e = Some (oid, md) → complete source oid (is_tree md).
(** The walk of a pair of subtrees, as the loop uses it. *)
Definition rec_ends (fuel : nat) (rec : string → string → string → nat * list FileDiff → option (result PackError (nat * list FileDiff))) : Prop :=
  ∀ o w pre st, (rank o < fuel)%nat → (rank w < fuel)%nat → ends (complete source o true ∧ complete source w true) (rec o w pre st).

Lemma blob_numstat_ends o w n : complete source o false → complete source w false → ∃ x, blob_numstat deadline source o w n = Ok x.
Proof.
  intros (old & Ho & _)%complete_blob (new & Hw & _)%complete_blob. unfold blob_numstat. rewrite Ho, Hw. cbn [mbind result_bind].
  destruct (_ || _); [by eexists|]. destruct (_ || _); [by eexists|]. destruct (lcs_len _ _ _ _) as [? [|]]; by eexists.
Qed.

Lemma diff_name_ends rec fuel old new prefix n out : rec_ends fuel rec →
  entry_below fuel old → entry_below fuel new → is_Some old ∨ is_Some new →
  ends (entry_complete old ∧ entry_complete new) (diff_name deadline source rec fuel old new prefix n out).
Proof.
  intros Hrec Ho Hn Hsome. unfold diff_name. destruct old as [[o om]|], new as [[w wm]|]; [| | |by destruct Hsome as [[]|[]]].
  - specialize (Ho o om eq_refl). specialize (Hn w wm eq_refl). case_decide; [apply ends_ok|].
    destruct (is_tree om) eqn:Eo, (is_tree wm) eqn:Ew; cbn [andb xorb].
    + apply and_then_ends; [|intros; apply ends_ok]. eapply ends_weaken; [by apply Hrec|]. rewrite <- Eo at 1. rewrite <- Ew.
      intros [Hco Hcw]. split; [by apply (Hco o om)|by apply (Hcw w wm)].
    + repeat (apply and_then_ends; [eapply ends_weaken; [by apply diff_one_side_ends|naive_solver]|intros ? _]). apply ends_ok.
    + repeat (apply and_then_ends; [eapply ends_weaken; [by apply diff_one_side_ends|naive_solver]|intros ? _]). apply ends_ok.
    + destruct (blob_numstat deadline source o w n) as [[? [[??]|]]|] eqn:Eb; [apply ends_ok..|]. apply ends_err. intros [Hco Hcw].
      destruct (blob_numstat_ends o w n); [rewrite <- Eo; by apply (Hco o om)|rewrite <- Ew; by apply (Hcw w wm)|congruence].
  - apply and_then_ends; [|intros; apply ends_ok]. eapply ends_weaken; [apply diff_one_side_ends; by eapply Ho|naive_solver].
  - apply and_then_ends; [|intros; apply ends_ok]. eapply ends_weaken; [apply diff_one_side_ends; by eapply Hn|naive_solver].
Qed.

Lemma diff_names_ends ok rec fuel old new prefix names st : rec_ends fuel rec →
  (∀ name, entry_below fuel (old !! name) ∧ entry_below fuel (new !! name)) →
  (∀ name, ok → entry_complete (old !! name) ∧ entry_complete (new !! name)) →
  (∀ name, name ∈ names → is_Some (old !! name) ∨ is_Some (new !! name)) →
  ends ok (diff_names deadline source rec fuel old new prefix names st).
Proof.
  intros Hrec Hbelow Hcomp. revert st. induction names as [|name names IH]; intros [n out] Hin; cbn [diff_names]; [apply ends_ok|].
  destruct (_ <=? _); [apply ends_ok|]. destruct (deadline n); [apply ends_ok|].
  apply and_then_ends.
  - eapply ends_weaken; [|apply (Hcomp name)]. apply diff_name_ends; [done|apply Hbelow..|]. apply Hin, list_elem_of_here.
  - intros [st|st] _; [|apply ends_ok]. apply IH. intros name' Hn. apply Hin. by apply list_elem_of_further.
Qed.

(** The entries of a tree, none of a missing one. *)
Lemma entries_below tree old name fuel : read_tree_entries source tree = Ok old → (rank tree ≤ fuel)%nat →
  entry_below fuel (default ∅ old !! name).
Proof.
  intros Ep Hp oid md Hm. destruct old as [old|]; simpl in Hm; [|by rewrite lookup_empty in Hm].
  apply (trees_descend _ _ Hok _ _ _ _ _ Ep) in Hm. lia.
Qed.
Lemma entries_complete tree old name : read_tree_entries source tree = Ok old → complete source tree true →
  entry_complete (default ∅ old !! name).
Proof.
  intros Ep Hc oid md Hm. destruct old as [old|]; simpl in Hm; [|by rewrite lookup_empty in Hm]. by eapply complete_child.
Qed.

Lemma tree_diff_inner_ends room fuel p q prefix st :
  (rank p ≤ fuel)%nat → (rank q ≤ fuel)%nat →
  ends (complete source p true ∧ complete source q true) (tree_diff_inner deadline source room fuel p q prefix st).
Proof.
  revert p q prefix st. induction room as [|room IH]; intros p q prefix [n out] Hp Hq; cbn [tree_diff_inner];
    (destruct (deadline n); [apply ends_ok|]); (case_decide; [apply ends_ok|]); [apply ends_ok|].
  destruct (read_tree_entries source p) as [old|] eqn:Ep; [|apply ends_err; intros [[? ?]%complete_tree _]; congruence].
  destruct (read_tree_entries source q) as [new|] eqn:Eq; [|apply ends_err; intros [_ [? ?]%complete_tree]; congruence].
  apply diff_names_ends.
  - intros o w pre st Ho Hw. apply IH; lia.
  - intros name. split; by eapply entries_below.
  - intros name [Hcp Hcq]. split; by eapply entries_complete.
  - intros name Hn. by apply elem_of_names_of in Hn.
Qed.
End DiffEnds.

(** C15. Of a store whose trees are as git makes them (every entry has a name, an id
    is a tree everywhere or nowhere, no tree is below itself: [trees_ok]), a diff of
    two trees ends.  When both trees are complete, every object below them being
    there as what it is, it gives rows and no error; the rows are sorted by path and
    each is right: the file it names was added, removed or modified as the row
    says, with the lines of the file or the counts of a longest common subsequence;
    and when the deadline does not pass and the rows stay below their cap, every
    changed file whose path has no more than 65 segments has a row.  Of a store
    with a missing tree nothing is claimed but that the diff ends: the code reads it
    as an empty one, where the documentation promises an error. *)
Theorem tree_diff_exact `{TreeDecoder} `{ObjectSource Src} (deadline : nat → bool) (source : Src) (rank : string → nat) fuel p q :
  trees_ok source rank → (rank p ≤ fuel)%nat → (rank q ≤ fuel)%nat →
  is_Some (tree_diff_until deadline source fuel p q) ∧
  (complete source p true → complete source q true →
   ∃ rows, tree_diff_until deadline source fuel p q = Some (Ok rows) ∧
    StronglySorted by_path rows ∧
    Forall (right_row source (at_entry source p true) (at_entry source q true)) rows ∧
    ((∀ n, deadline n = false) → N.of_nat (length rows) < MAX_DIFF_FILES →
      ∀ segs c, (length segs ≤ S MAX_PATH_DEPTH)%nat →
        changed (at_entry source p true) (at_entry source q true) segs c →
        ∃ row, row ∈ rows ∧ path row = render "" segs ∧ change row = c)).
Proof.
  intros Hok Hp Hq. unfold tree_diff_until.
  destruct (tree_diff_inner_ends deadline source rank Hok (S MAX_PATH_DEPTH) fuel p q "" (0%nat, []) Hp Hq) as (r & Er & Hr).
  rewrite Er. split; [destruct r as [[n out]|e]; by eexists|]. intros Hcp Hcq. destruct (Hr (conj Hcp Hcq)) as [[n out] ->].
  cbn [and_then]. eexists. split; [done|]. destruct Hok as [Hnamed Hmodes Hrank].
  apply (tree_diff_inner_spec _ _ Hnamed Hmodes) in Er as (rows & Hout & Hs & Hc). simpl in Hout. subst out. cbn [snd].
  split_and!.
  - apply (StronglySorted_merge_sort _).
  - rewrite merge_sort_Permutation. eapply Forall_impl; [exact Hs|]. intros row. by apply shown_right.
  - intros Hnever Hcap segs c Hlen Hch. rewrite merge_sort_Permutation in Hcap.
    destruct (Hc (conj Hnever Hcap) segs c Hlen Hch) as (row & Hin & ? & ?).
    exists row. by rewrite merge_sort_Permutation.
Qed.

(** * Examples *)

Module TreeExample.
(** Entries separated by commas: a letter for the mode, a one-letter name, and the
    id. *)
Inductive Mode := MTree | MBlob | MLink | MCommit.
Definition mode_of (c : ascii) : Mode :=
  if decide (c = "d"%char) then MTree else if decide (c = "l"%char) then MLink
  else if decide (c = "m"%char) then MCommit else MBlob.
Definition entry_of (s : string) : list (DirEntry Mode) :=
  match s with
  | String c (String n id) => [{| filename := String n ""; mode := mode_of c; entry_id := id |}]
  | _ => []
  end.
#[local] Instance decoder : TreeDecoder := {|
  EntryMode := Mode;
  is_tree m := match m with MTree => true | _ => false end;
  is_blob m := match m with MBlob => true | _ => false end;
  is_link m := match m with MLink => true | _ => false end;
  is_commit m := match m with MCommit => true | _ => false end;
  decode_tree d := Ok (split_char ","%char (String.string_of_list_byte d) ≫= entry_of);
|}.

Record Store := { objects : gmap string GitObject }.
#[local] Instance store_source : ObjectSource Store := {| src_get s oid := Ok (objects s !! oid) |}.
Definition tree (s : string) : GitObject := {| obj_kind := KTree; obj_data := as_bytes s |}.
Definition blob (s : string) : GitObject := {| obj_kind := KBlob; obj_data := as_bytes s |}.
Definition nl : string := String (ascii_of_nat 10) "".

Definition contents : list (string * GitObject) :=
  [("t0", tree "fab1,dst1,fgb4"); ("t1", tree "fcb2,fdb1"); ("t2", tree "fcb2,feb4"); ("t3", tree "fab3,dst2,dgt1");
   ("b1", blob ("x" +:+ nl +:+ "y" +:+ nl)); ("b2", blob "z"); ("b3", blob ("y" +:+ nl +:+ "w" +:+ nl +:+ "v"));
   ("b4", blob "")].
Definition source : Store := {| objects := list_to_map contents |}.
Definition no_deadline : nat → bool := λ _, false.
Definition rank (oid : string) : nat :=
  if decide (oid = "t0" ∨ oid = "t3") then 2 else if decide (oid = "t1" ∨ oid = "t2") then 1 else 0.

(** The entries of the trees of the store. *)
Definition trees : list (string * list (string * (string * Mode))) :=
  [("t0", [("a", ("b1", MBlob)); ("s", ("t1", MTree)); ("g", ("b4", MBlob))]);
   ("t1", [("c", ("b2", MBlob)); ("d", ("b1", MBlob))]); ("t2", [("c", ("b2", MBlob)); ("e", ("b4", MBlob))]);
   ("t3", [("a", ("b3", MBlob)); ("s", ("t2", MTree)); ("g", ("t1", MTree))])].

Lemma source_read t m : read_tree_entries source t = Ok (Some m) → ∃ es, (t, es) ∈ trees ∧ m = list_to_map es.
Proof.
  unfold read_tree_entries. change (src_get source t) with (@Ok PackError _ (list_to_map (M := gmap string GitObject) contents !! t)).
  cbn [mbind result_bind]. destruct (list_to_map contents !! t) as [obj|] eqn:Eo; [|done].
  apply elem_of_list_to_map_2 in Eo. unfold contents in Eo. rewrite !elem_of_cons, elem_of_nil in Eo.
  destruct Eo as [[= -> ->]|[[= -> ->]|[[= -> ->]|[[= -> ->]|[[= -> ->]|[[= -> ->]|[[= -> ->]|[[= -> ->]|[]]]]]]]]]; try done;
    cbn [mbind result_bind decide]; intros Hm; vm_compute in Hm; injection Hm as <-;
    (eexists; split; [unfold trees; rewrite !elem_of_cons; eauto 10|by vm_compute]).
Qed.
Lemma source_entry t m name oid md : read_tree_entries source t = Ok (Some m) → m !! name = Some (oid, md) →
  name ≠ "" ∧ (rank oid < rank t)%nat ∧ is_tree md = bool_decide (oid ∈ ["t1"; "t2"]) ∧ oid ∈ ["t1"; "t2"; "b1"; "b2"; "b3"; "b4"].
Proof.
  intros (es & Hes & ->)%source_read Hm. apply elem_of_list_to_map_2 in Hm.
  unfold trees in Hes. rewrite !elem_of_cons, elem_of_nil in Hes.
  destruct Hes as [[= -> ->]|[[= -> ->]|[[= -> ->]|[[= -> ->]|[]]]]]; rewrite !elem_of_cons, elem_of_nil in Hm;
    repeat destruct Hm as [[= -> -> ->]|Hm]; try done; by_decision.
Qed.

Lemma source_ok : trees_ok source rank.
Proof.
  split.
  - intros t m Hr. destruct (m !! "") as [[oid md]|] eqn:E; [|done]. by destruct (source_entry _ _ _ _ _ Hr E).
  - intros t1 m1 n1 t2 m2 n2 oid md1 md2 Hr1 E1 Hr2 E2.
    destruct (source_entry _ _ _ _ _ Hr1 E1) as (_ & _ & -> & _). by destruct (source_entry _ _ _ _ _ Hr2 E2) as (_ & _ & -> & _).
  - intros t m name oid md Hr E. by destruct (source_entry _ _ _ _ _ Hr E) as (_ & ? & _).
Qed.

Lemma source_complete t : t ∈ ["t0"; "t3"] → complete source t true.
Proof.
  intros Ht oid b Hreach.
  assert (t ∈ ["t0"; "t3"; "t1"; "t2"]) as Hg by set_solver. clear Ht.
  enough (∀ x bx, reaches source x bx oid b → (if bx then x ∈ ["t0"; "t3"; "t1"; "t2"] else x ∈ ["b1"; "b2"; "b3"; "b4"]) → readable source oid b)
    as He by (by apply (He t true)).
  clear. induction 1 as [oid b|tree m name child cm oid b Hr Hm _ IH]; intros Hin.
  - destruct b; rewrite !elem_of_cons, elem_of_nil in Hin; repeat destruct Hin as [->|Hin]; try done;
      (eexists; vm_compute; try split; reflexivity).
  - apply IH. destruct (source_entry _ _ _ _ _ Hr Hm) as (_ & _ & -> & Hc). rewrite !elem_of_cons, elem_of_nil in Hc.
    repeat destruct Hc as [->|Hc]; try done; by_decision.
Qed.

Definition row (p : string) (c : FileChange) (a r : N) : FileDiff :=
  {| path := p; change := c; added := a; removed := r |}.

(** A modified file, a changed directory, and a file replaced by a directory. *)
Lemma tree_diff_exact_witness :
  ∃ rows, tree_diff_until no_deadline source 5 "t0" "t3" = Some (Ok rows) ∧
    rows = [row "a" Modified 2 1; row "g" Removed 0 0; row "g/c" Added 1 0; row "g/d" Added 2 0;
            row "s/d" Removed 0 2; row "s/e" Added 0 0] ∧
    Forall (right_row source (at_entry source "t0" true) (at_entry source "t3" true)) rows.
Proof.
  destruct (tree_diff_exact no_deadline source rank 5 "t0" "t3" source_ok) as (_ & Hc); [vm_compute; lia..|].
  destruct Hc as (rows & Hr & _ & Hs & _); [apply source_complete; set_solver..|]. exists rows.
  split; [exact Hr|]. split; [|exact Hs]. vm_compute in Hr. by injection Hr as <-.
Defined.

(** A tree the store does not have is diffed as if it were empty: every file of
    the other side is reported as removed, and no error is raised. *)
Example missing_tree_reads_as_empty :
  tree_diff_until no_deadline source 5 "t0" "absent" = Some (Ok
    [row "a" Removed 0 2; row "g" Removed 0 0; row "s/c" Removed 0 1; row "s/d" Removed 0 2]).
Proof. vm_compute. reflexivity. Qed.

(** A subtree on one side is walked to its end: past the deadline, which passes
    here at the third reading of the clock, and below the depth limit. *)
Definition level_name (k : nat) : string := "k" +:+ decimal (N.of_nat k).
Fixpoint chain (k : nat) : list (string * GitObject) :=
  match k with
  | O => [(level_name 0, tree "fab1")]
  | S k' => (level_name k, tree ("dx" +:+ level_name k')) :: chain k'
  end.
Definition deep : Store :=
  {| objects := list_to_map (("none", tree "") :: ("top", tree ("dx" +:+ level_name 69)) :: chain 69 ++ contents) |}.
Example one_side_unbounded :
  match tree_diff_until (λ n, (2 <=? n)%nat) deep 100 "none" "top" with
  | Some (Ok [r]) => length (split_char slash (path r)) = 71%nat
  | _ => False
  end.
Proof. vm_compute. reflexivity. Qed.

Lemma resolve_blob_at_path_iff_example :
  resolve_blob_at_path (Src := Store) source "t0" "s/c" = Ok (Some ("b2", as_bytes "z")) ∧
  resolve_blob_at_path (Src := Store) source "t0" "s/../a" = Ok None.
Proof. vm_compute. done. Qed.
End TreeExample.
