(* ===== verification/History.v ===== *)
(** Revisions of a path: [crates/hugit-proto/src/read/history.rs].

    The commit decoder of the git library is a parameter (class
    [CommitDecoder]).  The clock is read once per commit; the [n]-th reading is
    past the deadline when [late n].  The diffs of the index build read it too,
    each commit with readings of its own.

    The theorems: the walk that carries the parent's lookups along gives a prefix
    of what comparing every commit with its first parent gives, all of it up to
    the cap when the deadline does not pass; and the index holds for every path
    the newest entries of the commits whose diff names it. *)

From S2P Require Import Prelude Text Json JsonCodec Crypto Log Tamper Replay Push Delta Receive Serve TreeDiff.

Definition MAX_HISTORY_REVS : nat := 50.

Record BlobHistoryEntry := { commit_hex : string; entry_time_ms : N; entry_author : string; entry_summary : string }.
Record CommitInfo := {
  info_tree : string; info_parents : list string; author_time_ms : N; author : string; summary : string }.

(** [CommitRef] as the decoder gives it: the author is missing when its header is
    malformed, the time when that part of it is. *)
Record RawAuthor := { author_name : string; author_email : string; author_seconds : option Z }.
Record RawCommit := {
  raw_tree : string; raw_parents : list string; raw_author : option RawAuthor; raw_message : string }.
Class CommitDecoder := { decode_commit : list byte → option RawCommit }.

Definition u64_saturating_mul (a b : N) : N := N.min (a * b) u64_max.
Definition time_ms (seconds : option Z) : N :=
  match seconds with
  | Some s => u64_saturating_mul (Z.to_N (Z.max s 0)) 1000
  | None => 0
  end.

Lemma take_again {A} n (l k : list A) : take n (take n l ++ k) = take n (l ++ k).
Proof.
  destruct (decide (length l ≤ n)%nat); [by rewrite (take_ge l)|].
  rewrite (take_app_le (take _ l)) by (rewrite length_take; lia). rewrite take_take, Nat.min_id.
  by rewrite take_app_le by lia.
Qed.

Section History.
Context `{TreeDecoder} `{CommitDecoder} `{ObjectSource Src} (source : Src).

Definition load_commit (oid : string) : option CommitInfo :=
  match src_get source oid with
  | Ok (Some obj) =>
      if decide (obj_kind obj ≠ KCommit) then None
      else
        c ← decode_commit (obj_data obj);
        a ← raw_author c;
        Some {|
          info_tree := raw_tree c; info_parents := raw_parents c; author_time_ms := time_ms (author_seconds a);
          author := author_name a +:+ " <" +:+ author_email a +:+ ">";
          summary := from_utf8_lossy (default "" (head (split_char newline (raw_message c)))) |}
  | _ => None
  end.

(** The loop of [resolve_blob_oid]. *)
Fixpoint resolve_oid_segments (current : string) (segments : list string) : option string :=
  match segments with
  | [] => None
  | segment :: rest =>
      if unsafe_segment segment then None
      else
        es ← tree_at source current;
        e ← find_entry segment es;
        match rest with
        | [] => if negb (is_blob (mode e)) then None else Some (entry_id e)
        | _ :: _ => if negb (is_tree (mode e)) then None else resolve_oid_segments (entry_id e) rest
        end
  end.
Definition resolve_blob_oid (root_tree path : string) : option string :=
  let segments := split_char slash path in
  if bool_decide (MAX_PATH_DEPTH < length segments)%nat then None else resolve_oid_segments root_tree segments.

Definition history_entry (oid : string) (c : CommitInfo) : BlobHistoryEntry :=
  {| commit_hex := oid; entry_time_ms := author_time_ms c; entry_author := author c; entry_summary := summary c |}.

(** Whether the blob differs from the first parent's, and what to carry to the
    next round. *)
Definition compare_parent (path : string) (this_blob first_parent : option string)
    : bool * option (CommitInfo * option string) :=
  match first_parent with
  | None => (bool_decide (is_Some this_blob), None)
  | Some parent_oid =>
      match load_commit parent_oid with
      | Some parent =>
          let parent_blob := resolve_blob_oid (info_tree parent) path in
          (bool_decide (this_blob ≠ parent_blob), Some (parent, parent_blob))
      | None => (bool_decide (is_Some this_blob), None)
      end
  end.

(** The loop of [blob_history]; [None] is running out of fuel. *)
Fixpoint history_loop (fuel : nat) (late : nat → bool) (path : string) (max_revs : nat) (n : nat)
    (current : option string) (carried : option (CommitInfo * option string)) (out : list BlobHistoryEntry)
    : option (list BlobHistoryEntry) :=
  match current with
  | None => Some out
  | Some commit_oid =>
      match fuel with
      | O => None
      | S fuel =>
          if late n then Some out
          else if (max_revs <=? length out)%nat then Some out
          else
            let loaded := match carried with
              | Some both => Some both
              | None => commit ← load_commit commit_oid; Some (commit, resolve_blob_oid (info_tree commit) path)
              end in
            match loaded with
            | None => Some out
            | Some (commit, this_blob) =>
                let first_parent := head (info_parents commit) in
                let '(touched, carried) := compare_parent path this_blob first_parent in
                history_loop fuel late path max_revs (n + 1) first_parent carried
                  (if touched then out ++ [history_entry commit_oid commit] else out)
            end
      end
  end.
Definition blob_history (fuel : nat) (late : nat → bool) (head_commit path : string) (max_revs : nat)
    : option (list BlobHistoryEntry) :=
  history_loop fuel late path max_revs 0 (Some head_commit) None [].

(** One touched path of a commit. *)
Definition record_touch (entry : BlobHistoryEntry) (by_path : gmap string (list BlobHistoryEntry)) (file : FileDiff)
    : gmap string (list BlobHistoryEntry) :=
  let revs := default [] (by_path !! path file) in
  <[path file := if (length revs <? MAX_HISTORY_REVS)%nat then revs ++ [entry] else revs]> by_path.

(** The paths a commit touched against its first parent; [None] is running out
    of fuel in the diff. *)
Definition touched_rows `{GitEngine} (fuel : nat) (deadline : nat → bool) (empty_tree : string) (commit : CommitInfo)
    : option (list FileDiff) :=
  let parent_tree := match head (info_parents commit) with
    | Some p => match commit_root_tree source p with Ok (Some t) => t | _ => empty_tree end
    | None => empty_tree
    end in
  (λ r, match r with Ok rows => rows | Err _ => [] end) <$>
    tree_diff_until deadline source fuel parent_tree (info_tree commit).

(** The loop of [build_blob_history_index]. *)
Fixpoint index_loop `{GitEngine} (fuel : nat) (late : nat → bool) (deadline : nat → nat → bool) (diff_fuel : nat)
    (empty_tree : string) (max_commits walked : nat) (current : option string)
    (by_path : gmap string (list BlobHistoryEntry)) : option (gmap string (list BlobHistoryEntry)) :=
  match current with
  | None => Some by_path
  | Some commit_oid =>
      match fuel with
      | O => None
      | S fuel =>
          if (max_commits <=? walked)%nat || late walked then Some by_path
          else match load_commit commit_oid with
          | None => Some by_path
          | Some commit =>
              changed ← touched_rows diff_fuel (deadline walked) empty_tree commit;
              index_loop fuel late deadline diff_fuel empty_tree max_commits (walked + 1) (head (info_parents commit))
                (foldl (record_touch (history_entry commit_oid commit)) by_path changed)
          end
      end
  end.
Definition build_blob_history_index `{GitEngine} (fuel : nat) (late : nat → bool) (deadline : nat → nat → bool)
    (diff_fuel : nat) (empty_tree head_commit : string) (max_commits : nat)
    : option (gmap string (list BlobHistoryEntry)) :=
  index_loop fuel late deadline diff_fuel empty_tree max_commits 0 (Some head_commit) ∅.

(** * What the walks compute *)

(** The first-parent chain of a commit, down to a root or a commit that cannot be
    read. *)
Inductive ancestry : option string → list (string * CommitInfo) → Prop :=
| ancestry_none : ancestry None []
| ancestry_missing c : load_commit c = None → ancestry (Some c) []
| ancestry_step c info l : load_commit c = Some info → ancestry (head (info_parents info)) l →
    ancestry (Some c) ((c, info) :: l).

(** The blob of a path at a commit. *)
Definition blob_at (path c : string) : option string :=
  info ← load_commit c; resolve_blob_oid (info_tree info) path.
(** A commit touched a path when its blob is not that of the first parent. *)
Definition touches (path : string) (c : string * CommitInfo) : Prop :=
  blob_at path c.1 ≠ (head (info_parents c.2) ≫= blob_at path).
#[local] Instance touches_dec path c : Decision (touches path c).
Proof. unfold touches. apply _. Defined.
Definition log_of (path : string) (l : list (string * CommitInfo)) : list BlobHistoryEntry :=
  (λ c, history_entry c.1 c.2) <$> filter (touches path) l.

(** The carried pair is what loading the commit again would give. *)
Definition carries (path : string) (current : option string) (carried : option (CommitInfo * option string)) : Prop :=
  match carried with
  | None => True
  | Some (info, blob) => ∃ c, current = Some c ∧ load_commit c = Some info ∧ blob = resolve_blob_oid (info_tree info) path
  end.

Lemma compare_parent_spec path c info :
  ∃ carried, compare_parent path (blob_at path c) (head (info_parents info)) = (bool_decide (touches path (c, info)), carried) ∧
    carries path (head (info_parents info)) carried.
Proof.
  rewrite (bool_decide_ext (touches path (c, info)) (blob_at path c ≠ (head (info_parents info) ≫= blob_at path))) by done.
  unfold compare_parent. destruct (head (info_parents info)) as [p|]; simpl.
  - assert (blob_at path p = parent ← load_commit p; resolve_blob_oid (info_tree parent) path) as Hp by done.
    destruct (load_commit p) as [parent|] eqn:Ep; simpl in Hp; rewrite Hp.
    + eexists. split; [done|]. by exists p.
    + exists None. split; [f_equal; apply bool_decide_ext; by rewrite not_eq_None_Some|done].
  - exists None. split; [f_equal; apply bool_decide_ext; by rewrite not_eq_None_Some|done].
Qed.

Lemma history_loop_spec path max_revs late l fuel n current carried out :
  ancestry current l → (length l < fuel)%nat → carries path current carried → (length out ≤ max_revs)%nat →
  ∃ k, history_loop fuel late path max_revs n current carried out = Some (out ++ take k (log_of path l)) ∧
    ((∀ n, late n = false) → k = (max_revs - length out)%nat).
Proof.
  intros Hanc. revert fuel n carried out.
  induction Hanc as [|c Hload|c info l Hload Hanc IH]; intros fuel n carried out Hfuel Hcar Hcap; simpl in Hfuel.
  { exists (max_revs - length out)%nat. unfold log_of. simpl. rewrite take_nil, app_nil_r. by destruct fuel. }
  all: destruct fuel as [|fuel]; [lia|]; cbn [history_loop].
  all: destruct (late n) eqn:El; [exists 0%nat; rewrite app_nil_r; split; [done|intros Hn; by rewrite Hn in El]|].
  all: destruct (Nat.leb_spec max_revs (length out)) as [Hle|Hlt]; [exists 0%nat; rewrite app_nil_r; split; [done|lia]|].
  - exists (max_revs - length out)%nat. unfold log_of. simpl. rewrite take_nil, app_nil_r.
    destruct carried as [[i b]|]; [destruct Hcar as (c' & [= <-] & Hc & _); congruence|]. by rewrite Hload.
  - assert ((match carried with
      | Some both => Some both
      | None => commit ← load_commit c; Some (commit, resolve_blob_oid (info_tree commit) path)
      end) = Some (info, blob_at path c)) as ->.
    { unfold blob_at. destruct carried as [[i b]|]; [destruct Hcar as (c' & [= <-] & Hc & ->)|]; rewrite Hload in *; [|done].
      by injection Hc as ->. }
    destruct (compare_parent_spec path c info) as (carried' & -> & Hcar').
    destruct (decide (touches path (c, info))) as [Ht|Ht].
    + rewrite (bool_decide_eq_true_2 _ Ht).
      destruct (IH fuel (n + 1)%nat carried' (out ++ [history_entry c info])) as (k & -> & Hk);
        [lia|done|rewrite length_app; simpl; lia|].
      exists (S k). split.
      * unfold log_of. rewrite filter_cons_True by done. rewrite fmap_cons, <- (assoc_L (++)). done.
      * intros Hn. rewrite (Hk Hn), length_app. simpl. lia.
    + rewrite (bool_decide_eq_false_2 _ Ht). destruct (IH fuel (n + 1)%nat carried' out) as (k & -> & Hk); [lia|done|lia|].
      exists k. split; [|done]. unfold log_of. by rewrite filter_cons_False.
Qed.

(** The walk that reuses the parent's lookups finds what looking each commit up
    anew finds: on a finite first-parent chain it ends with an initial part of the
    commits whose blob at the path differs from their first parent's, newest
    first, and with all of them up to the cap when the deadline does not pass. *)
Theorem blob_history_reference head_commit path max_revs late l fuel :
  ancestry (Some head_commit) l → (length l < fuel)%nat →
  ∃ k, blob_history fuel late head_commit path max_revs = Some (take k (log_of path l)) ∧
    ((∀ n, late n = false) → k = max_revs).
Proof.
  intros Hanc Hfuel.
  destruct (history_loop_spec path max_revs late l fuel 0 (Some head_commit) None [] Hanc Hfuel I) as (k & Hrun & Hk); [simpl; lia|].
  exists k. split; [done|]. intros Hn. rewrite (Hk Hn). simpl. lia.
Qed.

(** ** The lookup without the bytes *)

Lemma resolve_oid_segments_iff tree segments oid :
  resolve_oid_segments tree segments = Some oid ↔
  Forall (λ s, unsafe_segment s = false) segments ∧ leads_to source tree segments oid.
Proof.
  revert tree. induction segments as [|segment rest IH]; intros tree.
  { simpl. split; [done|]. intros [_ Hl]. by apply leads_to_nonempty in Hl. }
  cbn [resolve_oid_segments]. rewrite Forall_cons. destruct (unsafe_segment segment) eqn:Es; [naive_solver|].
  destruct (tree_at source tree) as [es|] eqn:Et; simpl.
  2: { split; [done|]. intros [_ (es & e & ? & _)%leads_to_found]. congruence. }
  destruct (find_entry segment es) as [e|] eqn:Ef; simpl.
  2: { split; [done|]. intros [_ (es1 & e & ? & ?)%leads_to_found]. congruence. }
  rewrite (leads_to_cons _ _ _ _ _ _ _ Et Ef). destruct rest as [|next rest].
  - assert (¬ leads_to source (entry_id e) [] oid) as Hn by (by intros ?%leads_to_nonempty).
    destruct (is_blob (mode e)); simpl; naive_solver.
  - destruct (is_tree (mode e)); cbn [negb]; [rewrite IH|]; naive_solver.
Qed.

(** The lookup of a path's id alone agrees with the lookup that also reads the
    blob. *)
Theorem resolve_blob_oid_mirror root path oid data :
  resolve_blob_at_path source root path = Ok (Some (oid, data)) ↔
  resolve_blob_oid root path = Some oid ∧
  ∃ blob, src_get source oid = Ok (Some blob) ∧ obj_kind blob = KBlob ∧ obj_data blob = data.
Proof.
  unfold resolve_blob_at_path, resolve_blob_oid. case_bool_decide; [naive_solver|].
  rewrite resolve_segments_iff, resolve_oid_segments_iff. tauto.
Qed.

(** ** The index *)

Definition rows_of (rows : list FileDiff) (p : string) : nat := length (filter (λ f, path f = p) rows).

Lemma record_touches entry by_path rows p :
  (length (default [] (by_path !! p)) ≤ MAX_HISTORY_REVS)%nat →
  default [] (foldl (record_touch entry) by_path rows !! p) =
    take MAX_HISTORY_REVS (default [] (by_path !! p) ++ replicate (rows_of rows p) entry).
Proof.
  unfold rows_of. revert by_path. induction rows as [|r rows IH]; intros by_path Hlen.
  { simpl. rewrite app_nil_r. by rewrite take_ge. }
  cbn [foldl]. rewrite filter_cons. destruct (decide (path r = p)) as [<-|Hne].
  - assert (record_touch entry by_path r !! path r =
      Some (take MAX_HISTORY_REVS (default [] (by_path !! path r) ++ [entry]))) as Hr.
    { unfold record_touch. rewrite lookup_insert_eq. f_equal. set (revs := default [] (by_path !! path r)) in *.
      destruct (Nat.ltb_spec (length revs) MAX_HISTORY_REVS).
      - rewrite take_ge; [done|]. rewrite length_app. simpl. lia.
      - rewrite take_app_le, take_ge by lia. done. }
    rewrite IH; rewrite Hr; simpl default; [|rewrite length_take; lia].
    by rewrite take_again, <- (assoc_L (++)).
  - assert (record_touch entry by_path r !! p = by_path !! p) as Hr by (unfold record_touch; by rewrite lookup_insert_ne).
    rewrite IH; rewrite Hr; done.
Qed.

Context `{GitEngine}.

(** The entries one commit adds to a path: one for each row of its diff with that
    path. *)
Definition commit_entries (deadline : nat → nat → bool) (diff_fuel : nat) (empty_tree p : string) (i : nat)
    (c : string * CommitInfo) : list BlobHistoryEntry :=
  replicate (rows_of (default [] (touched_rows diff_fuel (deadline i) empty_tree c.2)) p) (history_entry c.1 c.2).

Fixpoint entries_from (deadline : nat → nat → bool) (diff_fuel : nat) (empty_tree p : string) (i : nat)
    (l : list (string * CommitInfo)) : list BlobHistoryEntry :=
  match l with
  | [] => []
  | c :: l => commit_entries deadline diff_fuel empty_tree p i c ++ entries_from deadline diff_fuel empty_tree p (i + 1) l
  end.

Lemma index_loop_spec deadline diff_fuel empty_tree late max_commits l fuel walked current by_path :
  ancestry current l → (length l < fuel)%nat →
  (∀ c i, c ∈ l → is_Some (touched_rows diff_fuel (deadline i) empty_tree c.2)) →
  (∀ p, (length (default [] (by_path !! p)) ≤ MAX_HISTORY_REVS)%nat) →
  ∃ k index, index_loop fuel late deadline diff_fuel empty_tree max_commits walked current by_path = Some index ∧
    ((∀ n, late n = false) → k = (max_commits - walked)%nat) ∧ (k ≤ max_commits - walked)%nat ∧
    ∀ p, default [] (index !! p) =
      take MAX_HISTORY_REVS (default [] (by_path !! p) ++ entries_from deadline diff_fuel empty_tree p walked (take k l)).
Proof.
  intros Hanc. revert fuel walked by_path.
  induction Hanc as [|c Hload|c info l Hload Hanc IH]; intros fuel walked by_path Hfuel Hdiff Hlen; simpl in Hfuel.
  { exists (max_commits - walked)%nat, by_path. rewrite take_nil. split_and!; [by destruct fuel|done|done|].
    intros p. simpl. by rewrite app_nil_r, take_ge. }
  all: destruct fuel as [|fuel]; [lia|]; cbn [index_loop].
  all: destruct (Nat.leb_spec max_commits walked) as [Hle|Hlt]; simpl.
  1,3: exists 0%nat, by_path; split_and!; [done|lia|lia|]; intros p; simpl; by rewrite app_nil_r, take_ge.
  all: destruct (late walked) eqn:El.
  1,3: exists 0%nat, by_path; split_and!; [done|intros Hn; by rewrite Hn in El|lia|]; intros p; simpl; by rewrite app_nil_r, take_ge.
  - rewrite Hload. exists (max_commits - walked)%nat, by_path. rewrite take_nil. split_and!; [done..|].
    intros p. simpl. by rewrite app_nil_r, take_ge.
  - rewrite Hload. destruct (Hdiff (c, info) walked) as [rows Hrows]; [apply list_elem_of_here|]. simpl in Hrows.
    rewrite Hrows. simpl. set (by_path' := foldl _ by_path rows).
    destruct (IH fuel (walked + 1)%nat by_path') as (k & index & -> & Hk & Hkle & Hspec); [lia| | |].
    + intros c' i Hc'. apply Hdiff. by apply list_elem_of_further.
    + intros p. unfold by_path'. rewrite record_touches by done. rewrite length_take. lia.
    + exists (S k), index. split_and!; [done|intros Hn; specialize (Hk Hn); lia|lia|].
      intros p. rewrite Hspec. unfold by_path'. rewrite record_touches by done. rewrite take_again, <- (assoc_L (++)).
      simpl. unfold commit_entries. simpl. by rewrite Hrows.
Qed.

(** The index of a finite first-parent chain: for every path the newest fifty
    entries of the commits walked, one for each row of a commit's diff that names
    the path; all the chain up to the cap is walked when the deadline does not
    pass. *)
Theorem index_reference deadline diff_fuel empty_tree late max_commits head_commit l fuel :
  ancestry (Some head_commit) l → (length l < fuel)%nat →
  (∀ c i, c ∈ l → is_Some (touched_rows diff_fuel (deadline i) empty_tree c.2)) →
  ∃ k index, build_blob_history_index fuel late deadline diff_fuel empty_tree head_commit max_commits = Some index ∧
    ((∀ n, late n = false) → k = max_commits) ∧ (k ≤ max_commits)%nat ∧
    ∀ p, default [] (index !! p) =
      take MAX_HISTORY_REVS (entries_from deadline diff_fuel empty_tree p 0 (take k l)).
Proof.
  intros Hanc Hfuel Hdiff.
  destruct (index_loop_spec deadline diff_fuel empty_tree late max_commits l fuel 0 (Some head_commit) ∅ Hanc Hfuel Hdiff)
    as (k & index & Hrun & Hk & Hkle & Hspec); [intros p; rewrite lookup_empty; simpl; lia|].
  exists k, index. rewrite Nat.sub_0_r in Hk, Hkle. split_and!; [done..|].
  intros p. rewrite Hspec, lookup_empty. done.
Qed.
End History.

(** * Examples *)

Module HistoryExample.
Import TreeExample ToyGit.
#[local] Existing Instance decoder.
#[local] Existing Instance store_source.

(** A commit is the two-letter id of its tree, then that of its parent. *)
#[local] Instance commits : CommitDecoder := {|
  decode_commit d := match d with
    | t1 :: t2 :: p => Some {|
        raw_tree := text [t1; t2]; raw_parents := match p with [] => [] | _ => [text p] end;
        raw_author := Some {| author_name := "ann"; author_email := "a@x"; author_seconds := Some 7%Z |};
        raw_message := "one" +:+ nl +:+ "two" |}
    | _ => None
    end |}.
#[local] Instance engine : GitEngine := {|
  pack_entries p := Ok [];
  compute_hash k d := Ok (text d);
  loose_header k n := [];
  commit_tree_id d := match d with t1 :: t2 :: _ => Some (text [t1; t2]) | _ => None end;
  commit_parent_ids d := match d with _ :: _ :: p :: ps => [text (p :: ps)] | _ => [] end;
  tree_entries d := Some [];
  tag_target_id d := None;
  zlib_inflate z := Ok z;
  zlib_deflate d := Ok d;
|}.

Definition commit (s : string) : GitObject := {| obj_kind := KCommit; obj_data := as_bytes s |}.
(** [c1] adds [s/c] and [s/d], [c2] changes nothing, [c3] replaces [s/d] by
    [s/e]; the parent of [c1] is missing. *)
Definition repo : Store :=
  {| objects := list_to_map (contents ++ [("c1", commit "t0c0"); ("c2", commit "t0c1"); ("c3", commit "t3c2")]) |}.

Definition info (t p : string) : CommitInfo :=
  {| info_tree := t; info_parents := [p]; author_time_ms := 7000; author := "ann <a@x>"; summary := "one" |}.
Definition walked : list (string * CommitInfo) := [("c3", info "t3" "c2"); ("c2", info "t0" "c1"); ("c1", info "t0" "c0")].

Lemma walked_ancestry : ancestry repo (Some "c3") walked.
Proof. repeat (eapply ancestry_step; [vm_compute; reflexivity|]). apply ancestry_missing. by vm_compute. Qed.

(** The file removed by [c3] was last touched there and in [c1]. *)
Lemma blob_history_reference_witness :
  ancestry repo (Some "c3") walked ∧ ∃ revs, blob_history repo 9 no_deadline "c3" "s/d" 50 = Some revs ∧
    (commit_hex <$> revs) = ["c3"; "c1"] ∧ revs = take 50 (log_of repo "s/d" walked).
Proof.
  split; [apply walked_ancestry|].
  destruct (blob_history_reference repo "c3" "s/d" 50 no_deadline walked 9 walked_ancestry) as (k & Hrun & Hk); [simpl; lia|].
  rewrite (Hk (λ _, eq_refl)) in Hrun. eexists. split; [exact Hrun|]. split; [by vm_compute|done].
Defined.

(** The index of the same history. *)
Lemma index_reference_witness :
  ∃ index, build_blob_history_index repo 9 no_deadline (λ _, no_deadline) 5 "e0" "c3" 100 = Some index ∧
    (commit_hex <$> default [] (index !! "s/d")) = ["c3"; "c1"] ∧
    ∀ p, default [] (index !! p) = take MAX_HISTORY_REVS (entries_from repo (λ _, no_deadline) 5 "e0" p 0 (take 100 walked)).
Proof.
  destruct (index_reference repo (λ _, no_deadline) 5 "e0" no_deadline 100 "c3" walked 9 walked_ancestry) as (k & index & Hrun & Hk & _ & Hspec).
  - simpl. lia.
  - intros c i Hc. unfold walked in Hc. rewrite !elem_of_cons, elem_of_nil in Hc.
    destruct Hc as [->|[->|[->|[]]]]; (eexists; vm_compute; reflexivity).
  - rewrite (Hk (λ _, eq_refl)) in Hspec. exists index. split; [exact Hrun|]. split; [|exact Hspec].
    rewrite (Hspec "s/d"). by vm_compute.
Defined.
End HistoryExample.
