(* ===== verification/Negotiate.v ===== *)
(** The wire format of clone and fetch requests:
    [crates/hugit-proto/src/read/negotiate/mod.rs], with the admission ceilings
    and the degradable clone of [crates/hugit-proto/src/read/limits/mod.rs].

    The pkt-line framing is that of the git library: a parameter (class
    [PktLine], laws [PktLineLaws]) with a concrete instance, [HexPkt].

    The theorems: a request written by a client is read back as it was; a clone
    request sent over the wire is answered with exactly what lies below the
    advertised refs; decoding a request always ends. *)

From S2P Require Import Prelude Text Scan Json JsonCodec Crypto Log Tamper Replay Push Delta Receive Serve.

(** * Lines *)

Inductive OwnedLine := Data (d : list byte) | Flush | Delimiter | ResponseEnd.
Inductive Stream := Complete (line : OwnedLine) (bytes_consumed : nat) | Incomplete (bytes_needed : N).

(** The pkt-line reader and writer of the git library; a text line carries its
    newline. *)
Class PktLine := {
  streaming : list byte → result string Stream;
  text_to_write : list byte → result string (list byte);
  flush_to_write : result string (list byte);
  delim_to_write : result string (list byte);
}.

Definition line_data (line : OwnedLine) : option (list byte) :=
  match line with Data d => Some d | Flush | Delimiter | ResponseEnd => None end.

(** [trim_end_matches('\n')]. *)
Fixpoint trim_newlines (s : string) : string :=
  match s with
  | EmptyString => EmptyString
  | String c s =>
      match trim_newlines s with
      | EmptyString => if decide (c = newline) then EmptyString else String c EmptyString
      | s' => String c s'
      end
  end.

(** [parse::<u32>]. *)
Definition parse_u32 (s : string) : option N :=
  n ← parse_usize (as_bytes s); if n <=? 4294967295 then Some n else None.

Section Wire.
Context `{PktLine} (parse_oid : string → option string).

Definition write_text (out : list byte) (text : string) : result NegotiationError (list byte) :=
  bytes ← map_err NegIo (text_to_write (as_bytes text)); Ok (out ++ bytes).
Definition write_flush (out : list byte) : result NegotiationError (list byte) :=
  bytes ← map_err NegIo flush_to_write; Ok (out ++ bytes).
Definition write_delim (out : list byte) : result NegotiationError (list byte) :=
  bytes ← map_err NegIo delim_to_write; Ok (out ++ bytes).
Fixpoint write_texts (out : list byte) (texts : list string) : result NegotiationError (list byte) :=
  match texts with
  | [] => Ok out
  | t :: texts => out ← write_text out t; write_texts out texts
  end.

(** [decode_lines]; every line takes a byte at least, so the length of the input
    is enough fuel, and [None] is running out of it. *)
Fixpoint decode_loop (fuel : nat) (bytes : list byte) (out : list OwnedLine)
    : option (result NegotiationError (list OwnedLine)) :=
  match bytes with
  | [] => Some (Ok out)
  | _ =>
      match fuel with
      | O => None
      | S fuel =>
          match streaming bytes with
          | Err e => Some (Err (NegMalformed e))
          | Ok (Complete line consumed) => decode_loop fuel (drop consumed bytes) (out ++ [line])
          | Ok (Incomplete needed) =>
              Some (Err (NegMalformed ("truncated pkt-line: " +:+ decimal needed +:+ " more bytes needed")))
          end
      end
  end.
Definition decode_lines (bytes : list byte) : option (result NegotiationError (list OwnedLine)) :=
  decode_loop (length bytes) bytes [].

(** ** Advertisements *)

Record Capabilities := { commands : list string; object_format : string }.
Definition Capabilities_default : Capabilities := {| commands := ["ls-refs"; "fetch"]; object_format := "sha1" |}.
Definition encode_capabilities (c : Capabilities) : result NegotiationError (list byte) :=
  out ← write_text [] "version 2";
  out ← write_texts out ((λ cmd, "command=" +:+ cmd) <$> commands c);
  out ← write_text out ("object-format=" +:+ object_format c);
  write_flush out.
Definition encode_advertisement (adv : RefAdvertisement) : result NegotiationError (list byte) :=
  out ← write_texts [] ((λ r, r.1 +:+ " " +:+ r.2) <$> adv_refs adv);
  write_flush out.

(** ** Requests *)

Definition WantHave_default : WantHave := {| wants := []; haves := []; done_ := false |}.

Definition encode_request (r : WantHave) : result NegotiationError (list byte) :=
  out ← write_text [] "command=fetch";
  out ← write_delim out;
  out ← write_texts out ((λ oid, "want " +:+ oid) <$> wants r);
  out ← write_texts out ((λ oid, "have " +:+ oid) <$> haves r);
  out ← (if done_ r then write_text out "done" else Ok out);
  write_flush out.

(** One line of a request. *)
Definition parse_line (wh : WantHave) (line : OwnedLine) : result NegotiationError WantHave :=
  match line_data line with
  | None => Ok wh
  | Some data =>
      text ← ok_or (NegMalformed "non-utf8 pkt-line") (from_utf8 data);
      let text := trim_newlines text in
      match strip_prefix "want " text with
      | Some oid =>
          o ← ok_or (BadOid oid) (parse_oid (trim oid));
          Ok {| wants := wants wh ++ [o]; haves := haves wh; done_ := done_ wh |}
      | None =>
          match strip_prefix "have " text with
          | Some oid =>
              o ← ok_or (BadOid oid) (parse_oid (trim oid));
              Ok {| wants := wants wh; haves := haves wh ++ [o]; done_ := done_ wh |}
          | None =>
              Ok (if decide (text = "done") then {| wants := wants wh; haves := haves wh; done_ := true |} else wh)
          end
      end
  end.
Fixpoint parse_lines (wh : WantHave) (lines : list OwnedLine) : result NegotiationError WantHave :=
  match lines with
  | [] => Ok wh
  | line :: lines => wh ← parse_line wh line; parse_lines wh lines
  end.
Definition parse_request (bytes : list byte) : option (result NegotiationError WantHave) :=
  match decode_lines bytes with
  | None => None
  | Some (Err e) => Some (Err e)
  | Some (Ok lines) => Some (parse_lines WantHave_default lines)
  end.

(** [from_utf8(data).unwrap_or("").trim_end_matches('\n')]. *)
Definition lenient_text (data : list byte) : string := trim_newlines (default "" (from_utf8 data)).

Fixpoint first_deepen (lines : list OwnedLine) : option N :=
  match lines with
  | [] => None
  | line :: lines =>
      match (data ← line_data line; n ← strip_prefix "deepen " (lenient_text data); parse_u32 (trim n)) with
      | Some depth => if 0 <? depth then Some depth else first_deepen lines
      | None => first_deepen lines
      end
  end.
Definition parse_deepen (bytes : list byte) : option (option N) :=
  match decode_lines bytes with
  | None => None
  | Some (Err _) => Some None
  | Some (Ok lines) => Some (first_deepen lines)
  end.

Definition shallow_line (line : OwnedLine) : option string :=
  data ← line_data line; oid ← strip_prefix "shallow " (lenient_text data); parse_oid (trim oid).
Definition parse_client_shallow (bytes : list byte) : option (list string) :=
  match decode_lines bytes with
  | None => None
  | Some (Err _) => Some []
  | Some (Ok lines) => Some (omap shallow_line lines)
  end.
End Wire.

(** * Ceilings and degradation *)

Inductive Dimension := RepoSizeBytes | RefCount | ConcurrentClients | PackSizeBytes.
Definition ceiling (d : Dimension) : N :=
  match d with
  | RepoSizeBytes => 50 * 1024 * 1024 * 1024
  | RefCount => 100000
  | ConcurrentClients => 256
  | PackSizeBytes => 2 * 1024 * 1024 * 1024
  end.
Inductive Admission := WithinCeiling | BeyondCeiling (dimension : Dimension) (limit observed : N).
Definition admit_request (d : Dimension) (observed : N) : Admission :=
  let limit := ceiling d in if observed <=? limit then WithinCeiling else BeyondCeiling d limit observed.

Inductive SmartLayers := Enabled | Disabled.
Record DegradedServe := { served_pack : PackAssembly; smart_capabilities : list string; smart_layer_ran : bool }.
Definition smart_layer_capabilities (view : list (string * string)) (pack : PackAssembly) : list string :=
  ["hugit-smart-refs=" +:+ decimal (N.of_nat (length view));
   "hugit-smart-objects=" +:+ decimal (N.of_nat (length (object_ids pack)))].
Definition serve_clone_degradable `{GitEngine} `{PackWriter} `{ObjectSource Src} (expired : nat → bool) (source : Src)
    (fuel : nat) (parse_oid : string → option string) (state : SmartLayers) (view : list (string * string))
    : option (result ServeError DegradedServe) :=
  (λ r, '(_, pack) ← r;
    Ok match state with
       | Enabled => {| served_pack := pack; smart_capabilities := smart_layer_capabilities view pack; smart_layer_ran := true |}
       | Disabled => {| served_pack := pack; smart_capabilities := []; smart_layer_ran := false |}
       end) <$> serve_clone expired source fuel parse_oid view.

(** * The round trip *)

(** What the git library promises of its framing. *)
Class PktLineLaws `{PktLine} := {
  streaming_text : ∀ t enc rest, text_to_write t = Ok enc →
    enc ≠ [] ∧ streaming (enc ++ rest) = Ok (Complete (Data (t ++ [x0a])) (length enc));
  streaming_flush : ∀ enc rest, flush_to_write = Ok enc →
    enc ≠ [] ∧ streaming (enc ++ rest) = Ok (Complete Flush (length enc));
  streaming_delim : ∀ enc rest, delim_to_write = Ok enc →
    enc ≠ [] ∧ streaming (enc ++ rest) = Ok (Complete Delimiter (length enc));
  streaming_progress : ∀ bytes line n, streaming bytes = Ok (Complete line n) → (0 < n)%nat;
}.

(** ** Text *)

Definition hex_char (c : ascii) : bool :=
  let n := N_of_ascii c in ((48 <=? n) && (n <=? 57)) || ((97 <=? n) && (n <=? 102)).
Definition plain_char (c : ascii) : bool := (32 <=? N_of_ascii c) && (N_of_ascii c <? 128).
Definition all_chars (p : ascii → bool) (s : string) : Prop := Forall (λ c, p c = true) (String.list_ascii_of_string s).

Lemma all_chars_app p s t : all_chars p s → all_chars p t → all_chars p (s +:+ t).
Proof.
  unfold all_chars. induction s as [|c s IH]; [done|]. intros [Hc Hs]%Forall_cons Ht. simpl.
  constructor; [done|]. by apply IH.
Qed.

Lemma hex_plain s : all_chars hex_char s → all_chars plain_char s.
Proof. intros Hs. eapply Forall_impl; [exact Hs|]. intros c. unfold hex_char, plain_char.
  rewrite orb_true_iff, !andb_true_iff, !N.leb_le, N.ltb_lt. lia.
Qed.

Lemma string_of_bytes_app a b :
  String.string_of_list_byte (a ++ b) = String.string_of_list_byte a +:+ String.string_of_list_byte b.
Proof.
  unfold String.string_of_list_byte. rewrite map_app. generalize (List.map ascii_of_byte b) as lb.
  generalize (List.map ascii_of_byte a) as la. induction la as [|x la IH]; intros lb; [done|]. simpl. by rewrite IH.
Qed.

Lemma trim_newlines_plain s : all_chars plain_char s → trim_newlines s = s ∧ trim_newlines (s +:+ String newline "") = s.
Proof.
  induction s as [|c s IH]; [done|]. intros [Hc Hs]%Forall_cons. destruct (IH Hs) as [IH1 IH2].
  change (String c s +:+ String newline "") with (String c (s +:+ String newline "")). cbn [trim_newlines]. rewrite IH1, IH2.
  assert (c ≠ newline) by (intros ->; done). destruct s; [by rewrite decide_False|done].
Qed.

Lemma from_utf8_line s : all_chars plain_char s →
  from_utf8 (as_bytes s ++ [x0a]) = Some (s +:+ String newline "").
Proof.
  intros Hs. unfold from_utf8. rewrite string_of_bytes_app, String.string_of_list_byte_of_string.
  change (String.string_of_list_byte [x0a]) with (String newline ""). rewrite decide_True; [done|].
  apply from_utf8_lossy_ascii. eapply (Forall_impl (λ c, plain_char c = true ∨ c = newline)).
  - clear -Hs. induction s as [|c s IH]; simpl.
    + constructor; [auto|constructor].
    + apply Forall_cons in Hs as [? ?]. constructor; auto.
  - intros c [Hc| ->]; [|done]. unfold plain_char in Hc. rewrite andb_true_iff, N.ltb_lt in Hc. lia.
Qed.

(** The text of a data line, as the parsers see it. *)
Lemma line_text s : all_chars plain_char s →
  ∃ text, from_utf8 (as_bytes s ++ [x0a]) = Some text ∧ trim_newlines text = s.
Proof. intros Hs. eexists. split; [by apply from_utf8_line|]. by apply trim_newlines_plain. Qed.

Lemma trim_front_stops ws fuel s :
  (∀ w, w ∈ ws → strip_prefix w s = None) → trim_front ws fuel s = s.
Proof.
  intros Hw. destruct fuel as [|fuel]; [done|]. simpl.
  assert (omap (λ w, strip_prefix w s) ws = []) as ->; [|done].
  induction ws as [|w ws IH]; [done|]. simpl. rewrite Hw by apply list_elem_of_here. apply IH.
  intros w' Hin. apply Hw. by apply list_elem_of_further.
Qed.

Definition starts_other (p : ascii → bool) (w : string) : bool :=
  match w with EmptyString => false | String c _ => negb (p c) end.

Lemma strip_prefix_other p w s : starts_other p w = true → all_chars p s → strip_prefix w s = None.
Proof.
  destruct w as [|c w]; [done|]. intros Hc Hs. destruct s as [|d s]; [done|]. simpl.
  apply Forall_cons in Hs as [Hd _]. rewrite decide_False; [done|]. intros ->. simpl in Hc. by rewrite Hd in Hc.
Qed.

Lemma rev_rev s : String.rev (String.rev s) = s.
Proof.
  assert (∀ s acc t, String.rev_app (String.rev_app s acc) t = String.rev_app acc (s +:+ t)) as Happ.
  { clear s. induction s as [|c s IH]; intros acc t; [done|]. simpl. by rewrite IH. }
  unfold String.rev. rewrite Happ. cbn [String.rev_app]. induction s as [|c s IH]; [done|].
  change (String c s +:+ "") with (String c (s +:+ "")). by rewrite IH.
Qed.

Lemma all_chars_rev p s : all_chars p s → all_chars p (String.rev s).
Proof.
  unfold all_chars. assert (∀ s acc, Forall (λ c, p c = true) (String.list_ascii_of_string s) →
    Forall (λ c, p c = true) (String.list_ascii_of_string acc) →
    Forall (λ c, p c = true) (String.list_ascii_of_string (String.rev_app s acc))) as Hrev.
  { clear s. induction s as [|c s IH]; intros acc Hs Hacc; simpl; [done|]. apply Forall_cons in Hs as [? ?].
    apply IH; [done|by constructor]. }
  intros Hs. by apply Hrev.
Qed.

Lemma trim_hex s : all_chars hex_char s → trim s = s.
Proof.
  intros Hs. unfold trim, trim_start, trim_end.
  assert (∀ ws fuel t, forallb (starts_other hex_char) ws = true → all_chars hex_char t → trim_front ws fuel t = t) as Hgo.
  { intros ws fuel t Hws Ht. apply trim_front_stops. intros w Hw. apply (strip_prefix_other hex_char); [|done].
    rewrite forallb_forall in Hws. by apply Hws, list_elem_of_In. }
  rewrite (Hgo white_space _ s) by done.
  rewrite (Hgo (String.rev <$> white_space) _ (String.rev s)); [apply rev_rev|done|by apply all_chars_rev].
Qed.

(** ** Frames *)

Section RoundTrip.
Context `{PktLineLaws} (parse_oid : string → option string).

(** Bytes that read as a line, whatever follows. *)
Definition framed (f : list byte * OwnedLine) : Prop :=
  f.1 ≠ [] ∧ ∀ rest, streaming (f.1 ++ rest) = Ok (Complete f.2 (length f.1)).

Lemma decode_frames fs fuel out :
  Forall framed fs → (length (mjoin fs.*1) ≤ fuel)%nat → decode_loop fuel (mjoin fs.*1) out = Some (Ok (out ++ fs.*2)).
Proof.
  revert fuel out. induction fs as [|[enc line] fs IH]; intros fuel out Hfs Hfuel.
  { simpl. rewrite app_nil_r. by destruct fuel. }
  apply Forall_cons in Hfs as [[Hne Hs] Hfs]. simpl in Hne, Hs.
  change (mjoin ((enc, line) :: fs).*1) with (enc ++ mjoin fs.*1) in *.
  rewrite length_app in Hfuel. destruct enc as [|b enc]; [done|]. destruct fuel as [|fuel]; [simpl in Hfuel; lia|].
  cbn [app decode_loop]. change (b :: enc ++ mjoin fs.*1) with ((b :: enc) ++ mjoin fs.*1). rewrite Hs, drop_app_length.
  rewrite IH; [|done|simpl in Hfuel; lia]. by rewrite <- (assoc_L (++)).
Qed.

Lemma decode_lines_frames fs : Forall framed fs → decode_lines (mjoin fs.*1) = Some (Ok fs.*2).
Proof. intros Hfs. unfold decode_lines. by rewrite decode_frames. Qed.

Definition text_frame (t : string) : OwnedLine := Data (as_bytes t ++ [x0a]).

(** A buffer that holds exactly the given lines. *)
Definition holds (out : list byte) (lines : list OwnedLine) : Prop :=
  ∃ fs, Forall framed fs ∧ out = mjoin fs.*1 ∧ fs.*2 = lines.

Lemma holds_nil : holds [] [].
Proof. by exists []. Qed.

Lemma holds_snoc out lines enc line : holds out lines → framed (enc, line) → holds (out ++ enc) (lines ++ [line]).
Proof.
  intros (fs & Hfs & -> & <-) Hf. exists (fs ++ [(enc, line)]). split_and!.
  - apply Forall_app. split; [done|by constructor].
  - rewrite fmap_app, join_app. simpl. by rewrite app_nil_r.
  - by rewrite fmap_app.
Qed.

Lemma write_text_holds out lines t out' :
  holds out lines → write_text out t = Ok out' → holds out' (lines ++ [text_frame t]).
Proof.
  intros Hh. unfold write_text. destruct (text_to_write (as_bytes t)) as [enc|] eqn:E; cbn [map_err mbind result_bind]; [|done].
  intros [= <-]. apply holds_snoc; [done|].
  split; [apply (streaming_text _ _ [] E)|intros rest; apply (streaming_text _ _ rest E)].
Qed.

Lemma write_texts_holds ts out lines out' :
  holds out lines → write_texts out ts = Ok out' → holds out' (lines ++ (text_frame <$> ts)).
Proof.
  revert out lines. induction ts as [|t ts IH]; intros out lines Hh; cbn [write_texts].
  { intros [= <-]. by rewrite app_nil_r. }
  destruct (write_text out t) as [out1|] eqn:E; cbn [mbind result_bind]; [|done]. intros Hrest.
  apply (write_text_holds _ lines) in E; [|done]. apply (IH _ _ E) in Hrest.
  by rewrite <- (assoc_L (++)) in Hrest.
Qed.

Lemma write_flush_holds out lines out' : holds out lines → write_flush out = Ok out' → holds out' (lines ++ [Flush]).
Proof.
  intros Hh. unfold write_flush. destruct flush_to_write as [enc|] eqn:E; cbn [map_err mbind result_bind]; [|done].
  intros [= <-]. apply holds_snoc; [done|].
  split; [apply (streaming_flush _ [] E)|intros rest; apply (streaming_flush _ rest E)].
Qed.

Lemma write_delim_holds out lines out' : holds out lines → write_delim out = Ok out' → holds out' (lines ++ [Delimiter]).
Proof.
  intros Hh. unfold write_delim. destruct delim_to_write as [enc|] eqn:E; cbn [map_err mbind result_bind]; [|done].
  intros [= <-]. apply holds_snoc; [done|].
  split; [apply (streaming_delim _ [] E)|intros rest; apply (streaming_delim _ rest E)].
Qed.

Definition request_lines (r : WantHave) : list OwnedLine :=
  [text_frame "command=fetch"; Delimiter] ++ (text_frame <$> ((λ oid, "want " +:+ oid) <$> wants r)) ++
  (text_frame <$> ((λ oid, "have " +:+ oid) <$> haves r)) ++ (if done_ r then [text_frame "done"] else []) ++ [Flush].

Lemma encode_request_holds r bytes : encode_request r = Ok bytes → holds bytes (request_lines r).
Proof.
  unfold encode_request, request_lines.
  destruct (write_text [] "command=fetch") as [o1|] eqn:E1; cbn [mbind result_bind]; [|done].
  apply (write_text_holds _ [] _ _ holds_nil) in E1.
  destruct (write_delim o1) as [o2|] eqn:E2; cbn [mbind result_bind]; [|done].
  apply (write_delim_holds _ _ _ E1) in E2.
  destruct (write_texts o2 _) as [o3|] eqn:E3; cbn [mbind result_bind]; [|done].
  apply (write_texts_holds _ _ _ _ E2) in E3.
  destruct (write_texts o3 _) as [o4|] eqn:E4; cbn [mbind result_bind]; [|done].
  apply (write_texts_holds _ _ _ _ E3) in E4. rewrite <- !(assoc_L (++)) in E4.
  destruct (done_ r); cbn [mbind result_bind].
  - destruct (write_text o4 "done") as [o5|] eqn:E5; cbn [mbind result_bind]; [|done].
    apply (write_text_holds _ _ _ _ E4) in E5. intros E6. apply (write_flush_holds _ _ _ E5) in E6.
    by rewrite <- !(assoc_L (++)) in E6.
  - intros E6. apply (write_flush_holds _ _ _ E4) in E6. by rewrite <- !(assoc_L (++)) in E6.
Qed.

(** An id as it is written: hex digits, which the id parser reads back. *)
Definition wire_oid (o : string) : Prop := all_chars hex_char o ∧ parse_oid o = Some o.

Lemma parse_want o wh : wire_oid o →
  parse_line parse_oid wh (text_frame ("want " +:+ o)) = Ok {| wants := wants wh ++ [o]; haves := haves wh; done_ := done_ wh |}.
Proof.
  intros [Ho Hp]. unfold parse_line, text_frame. cbn [line_data].
  destruct (line_text ("want " +:+ o)) as (text & -> & Ht).
  { apply all_chars_app; [by repeat constructor|by apply hex_plain]. }
  cbn [ok_or mbind result_bind]. rewrite Ht. change (strip_prefix "want " ("want " +:+ o)) with (Some o).
  cbv beta iota. rewrite (trim_hex _ Ho), Hp. done.
Qed.

Lemma parse_have o wh : wire_oid o →
  parse_line parse_oid wh (text_frame ("have " +:+ o)) = Ok {| wants := wants wh; haves := haves wh ++ [o]; done_ := done_ wh |}.
Proof.
  intros [Ho Hp]. unfold parse_line, text_frame. cbn [line_data].
  destruct (line_text ("have " +:+ o)) as (text & -> & Ht).
  { apply all_chars_app; [by repeat constructor|by apply hex_plain]. }
  cbn [ok_or mbind result_bind]. rewrite Ht. change (strip_prefix "want " ("have " +:+ o)) with (@None string).
  change (strip_prefix "have " ("have " +:+ o)) with (Some o).
  cbv beta iota. rewrite (trim_hex _ Ho), Hp. done.
Qed.

Lemma parse_lines_app wh l1 l2 :
  parse_lines parse_oid wh (l1 ++ l2) = wh ← parse_lines parse_oid wh l1; parse_lines parse_oid wh l2.
Proof.
  revert wh. induction l1 as [|l l1 IH]; intros wh; [done|]. cbn [app parse_lines].
  destruct (parse_line parse_oid wh l); cbn [mbind result_bind]; [apply IH|done].
Qed.

Lemma parse_wants os wh : Forall wire_oid os →
  parse_lines parse_oid wh (text_frame <$> ((λ oid, "want " +:+ oid) <$> os)) =
    Ok {| wants := wants wh ++ os; haves := haves wh; done_ := done_ wh |}.
Proof.
  revert wh. induction os as [|o os IH]; intros wh Hos; [simpl; rewrite app_nil_r; by destruct wh|].
  apply Forall_cons in Hos as [Ho Hos]. rewrite !fmap_cons. cbn [parse_lines]. rewrite parse_want by done.
  cbn [mbind result_bind]. rewrite IH by done. simpl. by rewrite <- (assoc_L (++)).
Qed.

Lemma parse_haves os wh : Forall wire_oid os →
  parse_lines parse_oid wh (text_frame <$> ((λ oid, "have " +:+ oid) <$> os)) =
    Ok {| wants := wants wh; haves := haves wh ++ os; done_ := done_ wh |}.
Proof.
  revert wh. induction os as [|o os IH]; intros wh Hos; [simpl; rewrite app_nil_r; by destruct wh|].
  apply Forall_cons in Hos as [Ho Hos]. rewrite !fmap_cons. cbn [parse_lines]. rewrite parse_have by done.
  cbn [mbind result_bind]. rewrite IH by done. simpl. by rewrite <- (assoc_L (++)).
Qed.

Lemma parse_encoded r bytes :
  Forall wire_oid (wants r) → Forall wire_oid (haves r) → encode_request r = Ok bytes →
  parse_request parse_oid bytes = Some (Ok r).
Proof.
  intros Hw Hh (fs & Hfs & -> & Hlines)%encode_request_holds. unfold parse_request.
  rewrite decode_lines_frames by done. rewrite Hlines. f_equal. unfold request_lines.
  rewrite parse_lines_app. change (parse_lines parse_oid WantHave_default [text_frame "command=fetch"; Delimiter])
    with (@Ok NegotiationError _ WantHave_default). cbn [mbind result_bind].
  rewrite parse_lines_app, parse_wants by done. cbn [mbind result_bind].
  rewrite parse_lines_app, parse_haves by done. cbn [mbind result_bind].
  destruct r as [w h []]; reflexivity.
Qed.

(** A request read back from what a client wrote is the request. *)
Theorem request_roundtrip r bytes :
  Forall wire_oid (wants r) → Forall wire_oid (haves r) → encode_request r = Ok bytes →
  parse_request parse_oid bytes = Some (Ok r).
Proof. apply parse_encoded. Qed.

(** ** Decoding ends *)

Lemma decode_loop_ends fuel bytes out : (length bytes ≤ fuel)%nat → is_Some (decode_loop fuel bytes out).
Proof.
  revert bytes out. induction fuel as [|fuel IH]; intros [|b bytes] out Hlen; simpl in Hlen; [by eexists|lia|by eexists|].
  cbn [decode_loop]. destruct (streaming (b :: bytes)) as [[line n|n]|] eqn:E; [|by eexists..].
  apply IH. apply streaming_progress in E. rewrite length_drop. simpl. lia.
Qed.

(** Reading a request ends on any bytes. *)
Theorem parsing_ends bytes :
  is_Some (parse_request parse_oid bytes) ∧ is_Some (parse_deepen bytes) ∧ is_Some (parse_client_shallow parse_oid bytes).
Proof.
  destruct (decode_loop_ends (length bytes) bytes [] ltac:(done)) as [r Hr].
  unfold parse_request, parse_deepen, parse_client_shallow, decode_lines. rewrite Hr. destruct r; split_and!; by eexists.
Qed.
End RoundTrip.

(** * A clone over the wire *)

Section Clone.
Context `{PktLineLaws} `{GitEngine} `{PackWriter} `{ObjectSource Src} (parse_oid : string → option string)
  (expired : nat → bool) (source : Src).

Lemma parse_all_wire (l : list (string * string)) : Forall (λ r, wire_oid parse_oid r.1) l → parse_all parse_oid l = Ok l.*1.
Proof.
  induction 1 as [|[oid name] l [_ Hp] _ IH]; [done|]. simpl in *. rewrite Hp. cbn [ok_or mbind result_bind].
  by rewrite IH.
Qed.

Lemma elem_of_tips (view : list (string * string)) o : o ∈ (adv_refs (from_view view)).*1 ↔ o ∈ view.*2.
Proof.
  unfold from_view. simpl. rewrite merge_sort_Permutation, <- list_fmap_compose. done.
Qed.

(** C16. A client that asks, over the wire, for every advertised ref of a store
    without reference cycles gets an answer, and a pack it gets holds exactly
    the objects below the refs. *)
Theorem clone_over_the_wire view rank fuel :
  Forall (λ r, wire_oid parse_oid r.2) view → acyclic source rank → (∀ r, r ∈ view → (rank r.2 < fuel)%nat) →
  ∃ request, clone_all parse_oid (from_view view) = Ok request ∧
  ∀ bytes, encode_request request = Ok bytes →
    parse_request parse_oid bytes = Some (Ok request) ∧
    ∃ r, serve_request expired source fuel request = Some r ∧
    ∀ pack, r = Ok pack → ∀ o, o ∈ object_ids pack ↔ ∃ ref, ref ∈ view ∧ lies_below source ref.2 o.
Proof.
  intros Hwire Hac Hfuel. unfold clone_all, tip_oids.
  assert (∀ o, o ∈ (adv_refs (from_view view)).*1 ↔ ∃ r, r ∈ view ∧ o = r.2) as Htips.
  { intros o. rewrite elem_of_tips, list_elem_of_fmap. naive_solver. }
  assert (Forall (wire_oid parse_oid) (adv_refs (from_view view)).*1) as Hall.
  { apply Forall_forall. intros o (r & Hr & ->)%Htips. rewrite Forall_forall in Hwire. by apply Hwire. }
  rewrite parse_all_wire by (apply (Forall_fmap fst) in Hall; exact Hall). cbn [mbind result_bind].
  eexists. split; [done|]. intros bytes Henc. split; [apply parse_encoded; [done|constructor|done]|].
  edestruct (serve_request_spec expired source rank fuel) as (r & Hr & Hspec); [done| |].
  2: { exists r. split; [exact Hr|]. intros pack ->. destruct Hspec as (_ & _ & Hspec). intros o. rewrite Hspec. simpl.
    split.
    - intros [(w & (ref & Href & ->)%Htips & Hlb) _]. eauto.
    - intros (ref & Href & Hlb). split; [exists ref.2; split; [apply Htips; eauto|done]|].
      intros (h & Hh%not_elem_of_nil & _). done. }
  simpl. intros o [(ref & Href & ->)%Htips|Hn%not_elem_of_nil]; [by apply Hfuel|done].
Qed.
End Clone.

(** * A concrete framing *)

(** Four hex digits for the length of the line with them, or one of the special
    lines. *)
Module HexPkt.
Definition digit (n : N) : byte :=
  match n with
  | 0 => "0" | 1 => "1" | 2 => "2" | 3 => "3" | 4 => "4" | 5 => "5" | 6 => "6" | 7 => "7"
  | 8 => "8" | 9 => "9" | 10 => "a" | 11 => "b" | 12 => "c" | 13 => "d" | 14 => "e" | _ => "f"
  end%byte.
Definition value (b : byte) : option N :=
  let n := Byte.to_N b in
  if (48 <=? n) && (n <=? 57) then Some (n - 48)
  else if (97 <=? n) && (n <=? 102) then Some (n - 87) else None.
Definition hex4 (n : N) : list byte :=
  [digit (n / 4096 mod 16); digit (n / 256 mod 16); digit (n / 16 mod 16); digit (n mod 16)].
Definition value4 (a b c d : byte) : option N :=
  a ← value a; b ← value b; c ← value c; d ← value d; Some (a * 4096 + b * 256 + c * 16 + d).

Lemma value_digit n : n < 16 → value (digit n) = Some n.
Proof.
  intros Hn. assert (n = 0 ∨ n = 1 ∨ n = 2 ∨ n = 3 ∨ n = 4 ∨ n = 5 ∨ n = 6 ∨ n = 7 ∨ n = 8 ∨ n = 9 ∨ n = 10 ∨
    n = 11 ∨ n = 12 ∨ n = 13 ∨ n = 14 ∨ n = 15) as Hin by lia.
  repeat destruct Hin as [->|Hin]; subst; done.
Qed.

Lemma value4_hex4 n : n < 65536 →
  value4 (digit (n / 4096 mod 16)) (digit (n / 256 mod 16)) (digit (n / 16 mod 16)) (digit (n mod 16)) = Some n.
Proof.
  intros Hn. unfold value4. rewrite !value_digit by (by apply N.mod_lt). simpl. f_equal.
  assert (n / 256 = n / 16 / 16) as E1 by (by rewrite N.Div0.div_div).
  assert (n / 4096 = n / 16 / 16 / 16) as E2 by (by rewrite !N.Div0.div_div).
  rewrite E1, E2. pose proof (N.div_mod' n 16). pose proof (N.div_mod' (n / 16) 16). pose proof (N.div_mod' (n / 16 / 16) 16).
  assert (n / 16 / 16 / 16 < 16) by (rewrite <- E2; apply N.Div0.div_lt_upper_bound; lia).
  rewrite (N.mod_small (n / 16 / 16 / 16)) by done. lia.
Qed.

Definition read_pkt (bytes : list byte) : result string Stream :=
  match bytes with
  | a :: b :: c :: d :: rest =>
      match value4 a b c d with
      | None => Err "bad length"
      | Some n =>
          if n =? 0 then Ok (Complete Flush 4)
          else if n =? 1 then Ok (Complete Delimiter 4)
          else if n =? 2 then Ok (Complete ResponseEnd 4)
          else if n <=? 4 then Err "bad length"
          else if N.of_nat (length bytes) <? n then Ok (Incomplete (n - N.of_nat (length bytes)))
          else Ok (Complete (Data (take (N.to_nat n - 4) rest)) (N.to_nat n))
      end
  | _ => Ok (Incomplete (4 - N.of_nat (length bytes)))
  end.
Definition write_pkt (t : list byte) : result string (list byte) :=
  if decide (t = []) then Err "empty line"
  else if 65515 <? N.of_nat (length t) then Err "line too long"
  else Ok (hex4 (N.of_nat (length t) + 5) ++ t ++ [x0a]).

#[export] Instance hex_pkt : PktLine := {|
  streaming := read_pkt; text_to_write := write_pkt;
  flush_to_write := Ok (as_bytes "0000"); delim_to_write := Ok (as_bytes "0001") |}.

#[export] Instance hex_pkt_laws : PktLineLaws.
Proof.
  constructor.
  - intros t enc rest. simpl. unfold write_pkt. case_decide; [done|].
    destruct (N.ltb_spec 65515 (N.of_nat (length t))); [done|]. intros [= <-]. split; [done|].
    set (n := N.of_nat (length t) + 5). unfold read_pkt, hex4. cbn [app]. rewrite value4_hex4 by lia.
    destruct (N.eqb_spec n 0), (N.eqb_spec n 1), (N.eqb_spec n 2); try lia.
    destruct (N.leb_spec n 4); [lia|]. cbn [length]. rewrite <- (assoc_L (++)), !length_app. cbn [length].
    destruct (N.ltb_spec (N.of_nat (S (S (S (S (length t + (1 + length rest))))))) n); [simpl in *; lia|].
    assert (N.to_nat n - 4 = length (t ++ [x0a]))%nat as -> by (rewrite length_app; simpl; lia).
    rewrite (assoc_L (++)), take_app_length. do 2 f_equal. lia.
  - intros enc rest. simpl. by intros [= <-].
  - intros enc rest. simpl. by intros [= <-].
  - intros bytes line n. simpl. unfold read_pkt.
    destruct bytes as [|a [|b [|c [|d rest]]]]; [done..|]. destruct (value4 a b c d) as [m|]; [|done].
    destruct (N.eqb_spec m 0); [intros [= _ <-]; lia|]. destruct (N.eqb_spec m 1); [intros [= _ <-]; lia|].
    destruct (N.eqb_spec m 2); [intros [= _ <-]; lia|]. destruct (N.leb_spec m 4); [done|].
    destruct (_ <? _); [done|]. intros [= _ <-]. lia.
Qed.
End HexPkt.

Module NegotiateExample.
Import HexPkt ChainGit ServeExample.

(** Ids of one to six hex digits. *)
Definition parse_oid (s : string) : option string :=
  if decide (s ≠ "" ∧ (String.length s ≤ 6)%nat ∧ forallb hex_char (String.list_ascii_of_string s) = true) then Some s else None.
Definition request : WantHave := {| wants := ["c0ffee"; "a1"]; haves := ["beef"]; done_ := true |}.

Lemma request_roundtrip_witness :
  ∃ bytes, encode_request request = Ok bytes ∧ parse_request parse_oid bytes = Some (Ok request).
Proof.
  eexists. split; [vm_compute; reflexivity|]. apply request_roundtrip; [|  |vm_compute; reflexivity].
  - repeat constructor.
  - repeat constructor.
Defined.

Lemma parsing_ends_witness : is_Some (parse_request parse_oid (as_bytes "0009done0000")).
Proof. apply (parsing_ends parse_oid). Defined.

Example request_bytes : encode_request request = Ok (as_bytes ("0012command=fetch" +:+ String newline "" +:+ "0001" +:+
  "0010want c0ffee" +:+ String newline "" +:+ "000cwant a1" +:+ String newline "" +:+
  "000ehave beef" +:+ String newline "" +:+ "0009done" +:+ String newline "" +:+ "0000")).
Proof. vm_compute. reflexivity. Qed.

(** The depth of a shallow clone; a zero is passed over. *)
Example deepen_read :
  parse_deepen (as_bytes ("000ddeepen 0" +:+ String newline "" +:+ "000ddeepen 3" +:+ String newline "" +:+ "0000")) = Some (Some 3).
Proof. vm_compute. reflexivity. Qed.

(** Refs to the commits of the chain format, whose ids are hex digits here. *)
Definition refs : list (string * string) := [("refs/heads/main", "c2c1"); ("refs/tags/old", "c1")].
Lemma clone_over_the_wire_witness :
  Forall (λ r, wire_oid parse_oid r.2) refs ∧ acyclic history String.length ∧
  ∃ request bytes pack, clone_all parse_oid (from_view refs) = Ok request ∧ encode_request request = Ok bytes ∧
    serve_request never history 10 request = Some (Ok pack) ∧
    ∀ o, o ∈ object_ids pack ↔ ∃ ref, ref ∈ refs ∧ lies_below history ref.2 o.
Proof.
  assert (Forall (λ r, wire_oid parse_oid r.2) refs) as Hw by (repeat constructor).
  split; [done|]. split; [apply chain_acyclic|].
  destruct (clone_over_the_wire parse_oid never history refs String.length 10 Hw (chain_acyclic history)) as (req & Hreq & Hall).
  { unfold refs. intros r. rewrite !elem_of_cons, elem_of_nil. intros [->|[->|[]]]; simpl; lia. }
  pose proof Hreq as Hreq'. vm_compute in Hreq'. injection Hreq' as Hval.
  eassert (encode_request req = Ok _) as Henc by (rewrite <- Hval; vm_compute; reflexivity).
  destruct (Hall _ Henc) as (_ & r & Hr & Hpack).
  destruct r as [pack|]; [|exfalso; rewrite <- Hval in Hr; by vm_compute in Hr].
  exists req. eexists. exists pack. split; [exact Hreq|]. split; [exact Henc|]. split; [exact Hr|]. by apply Hpack.
Defined.
End NegotiateExample.
