(* ===== verification/Mirror.v ===== *)
(** The outbound mirror: [crates/hugit-mirror/src/queue/mod.rs],
    [verify/mod.rs], [outbound/writer.rs], [outage/mod.rs],
    [status/backoff.rs], [poll/mod.rs], [bootstrap/mod.rs] and [dr/mod.rs].

    The push target and the seed transport are traits of the code, classes here,
    with the fixtures as instances.  The queue's snapshot and restore are derived
    serialization code and left out, as are the floating-point delays of the
    backoff schedules.

    The theorems: the outage queue is a bounded first-in first-out queue that
    never loses an accepted entry; draining it reports every entry in order and
    calls a push verified only when the mirror reported its hash; retrying ends
    at the first success or in a terminal failure; polling keeps to its interval;
    a completed seed, however often it was interrupted, left every ref of the
    source on the mirror. *)

From S2P Require Import Prelude Text Scan Json JsonCodec Crypto Log Tamper.

(** * The outage queue *)

Module Fifo.
Definition QUEUE_CAPACITY : nat := 4096.
Record QueueEntry := { entry_seq : N; entry_ref : string; entry_oid : string }.
Record Incident := { kind : string; at_capacity : nat; rejected_seq : N; detail : string }.
Inductive EnqueueError := Backpressure (incident : Incident).

Record OutageQueue := { capacity : nat; entries : list QueueEntry }.
Definition with_capacity (capacity : nat) : OutageQueue := {| capacity := capacity; entries := [] |}.
Definition OutageQueue_new : OutageQueue := with_capacity QUEUE_CAPACITY.
Definition is_full (q : OutageQueue) : bool := (capacity q <=? length (entries q))%nat.

Definition enqueue (q : OutageQueue) (entry : QueueEntry) : OutageQueue * result EnqueueError unit :=
  if is_full q then
    (q, Err (Backpressure {|
      kind := "queue_overflow_backpressure"; at_capacity := capacity q; rejected_seq := entry_seq entry;
      detail := "outage queue at capacity bound " +:+ decimal (N.of_nat (capacity q)) +:+ "; entry seq " +:+
        decimal (entry_seq entry) +:+ " held back (producer must apply backpressure and retry)" |}))
  else ({| capacity := capacity q; entries := entries q ++ [entry] |}, Ok tt).
Definition dequeue (q : OutageQueue) : OutageQueue * option QueueEntry :=
  match entries q with
  | [] => (q, None)
  | e :: es => ({| capacity := capacity q; entries := es |}, Some e)
  end.
Definition peek (q : OutageQueue) : option QueueEntry := head (entries q).
End Fifo.
Import Fifo.

(** * Verification of a push *)

(** [ContentHash]. *)
Record ContentHash := { hash_text : string }.
Definition ContentHash_new (hex : string) : ContentHash := {| hash_text := to_ascii_lowercase hex |}.
#[global] Instance ContentHash_eq_dec : EqDecision ContentHash.
Proof. solve_decision. Defined.

Record DivergenceSignal := { div_ref : string; div_expected : ContentHash; div_observed : ContentHash; div_detail : string }.
Inductive VerifyOutcome :=
| Verified (ref_name : string) (hash : ContentHash)
| Diverged (signal : DivergenceSignal).
Definition is_verified (o : VerifyOutcome) : bool := match o with Verified _ _ => true | Diverged _ => false end.
Definition divergence (o : VerifyOutcome) : option DivergenceSignal :=
  match o with Diverged d => Some d | Verified _ _ => None end.

Definition verify_push (ref_name : string) (expected observed : ContentHash) : VerifyOutcome :=
  if decide (expected = observed) then Verified ref_name expected
  else Diverged {|
    div_ref := ref_name; div_expected := expected; div_observed := observed;
    div_detail := "post-push content-hash mismatch on " +:+ ref_name +:+ ": expected " +:+ hash_text expected +:+
      ", mirror observed " +:+ hash_text observed +:+ " (fail-CLOSED, not marked synced)" |}.

(** * The writer *)

Definition SLA_BOUND_MS : N := 60000.

Inductive PushError := PushRejected (ref_name detail : string).
Class MirrorPushTarget (T : Type) := { push_ref : T → string → ContentHash → T * result PushError ContentHash }.

Record PushReport := { report_ref : string; report_seq : N; verify : VerifyOutcome; latency_ms : N }.
Definition verified_within_sla (r : PushReport) : bool := is_verified (verify r) && (latency_ms r <=? SLA_BOUND_MS).

(** The test fixture. *)
Record FixtureMirror := {
  corrupt_ref : option (string * ContentHash); reject_ref : option string; pushed : list (string * ContentHash) }.
#[export] Instance fixture_target : MirrorPushTarget FixtureMirror := {|
  push_ref t ref_name oid :=
    if decide (reject_ref t = Some ref_name) then (t, Err (PushRejected ref_name "fixture: configured rejection"))
    else
      let t' := {| corrupt_ref := corrupt_ref t; reject_ref := reject_ref t; pushed := pushed t ++ [(ref_name, oid)] |} in
      (t', Ok match corrupt_ref t with
              | Some (r, observed) => if decide (r = ref_name) then observed else oid
              | None => oid
              end) |}.

Section Writer.
Context `{MirrorPushTarget T}.

(** [as_millis] of an elapsed time, at 64 bits. *)
Definition millis_u64 (ms : N) : N := N.min ms u64_max.

Definition replicate_entry (target : T) (entry : QueueEntry) (elapsed_ms : N) : T * PushReport :=
  let expected := ContentHash_new (entry_oid entry) in
  match push_ref target (entry_ref entry) expected with
  | (target, Ok observed) =>
      (target, {| report_ref := entry_ref entry; report_seq := entry_seq entry;
                  verify := verify_push (entry_ref entry) expected observed; latency_ms := millis_u64 elapsed_ms |})
  | (target, Err (PushRejected ref_name detail)) =>
      (target, {| report_ref := ref_name; report_seq := entry_seq entry;
                  verify := Diverged {| div_ref := ref_name; div_expected := expected; div_observed := ContentHash_new "";
                                        div_detail := "push rejected (fail-CLOSED, not synced): " +:+ detail |};
                  latency_ms := millis_u64 elapsed_ms |})
  end.

(** [drain]: the loop over [dequeue], on as many entries as there are. *)
Fixpoint drain_loop (n : nat) (target : T) (queue : OutageQueue) (latency_for : QueueEntry → N) (reports : list PushReport)
    : T * OutageQueue * list PushReport :=
  match n with
  | O => (target, queue, reports)
  | S n =>
      match dequeue queue with
      | (queue, None) => (target, queue, reports)
      | (queue, Some entry) =>
          let '(target, report) := replicate_entry target entry (latency_for entry) in
          drain_loop n target queue latency_for (reports ++ [report])
      end
  end.
Definition drain_queue (target : T) (queue : OutageQueue) (latency_for : QueueEntry → N) : T * OutageQueue * list PushReport :=
  drain_loop (S (length (entries queue))) target queue latency_for [].
End Writer.

Record SoakSummary := { total : nat; soak_verified : nat; diverged : nat }.
Definition from_reports (reports : list PushReport) : SoakSummary := {|
  total := length reports;
  soak_verified := length (filter (λ r, verified_within_sla r = true) reports);
  diverged := length (filter (λ r, is_Some (divergence (verify r))) reports) |}.
Definition all_verified (s : SoakSummary) : bool :=
  (diverged s =? 0)%nat && (0 <? total s)%nat && (soak_verified s =? total s)%nat.

(** * Outages *)

Module Outage.
Record QueuedWrite := { write_seq : N; write_ref : string; forge_tip : string }.
Inductive OutageSignal := RateLimited | ServerError | Recovered.
Record DurableQueue := { items : list QueuedWrite; limit : nat }.
Inductive EnqueueResult := Accepted | Overflow.
Definition hold (q : DurableQueue) (w : QueuedWrite) : DurableQueue * EnqueueResult :=
  if (limit q <=? length (items q))%nat then (q, Overflow)
  else ({| items := items q ++ [w]; limit := limit q |}, Accepted).
Record GapIncident := { from_seq : N; to_seq : N; held_count : nat }.
Record DrainOutcome := { drained : list QueuedWrite; verified : bool; gap_incident : option GapIncident }.
Definition drain_to_verified (q : DurableQueue) : DurableQueue * DrainOutcome :=
  let drained := items q in
  let gap_incident := match head drained, last drained with
    | Some first, Some last => Some {| from_seq := write_seq first; to_seq := write_seq last; held_count := length drained |}
    | _, _ => None
    end in
  ({| items := []; limit := limit q |}, {| drained := drained; verified := true; gap_incident := gap_incident |}).
Definition is_outage (s : OutageSignal) : bool := match s with RateLimited | ServerError => true | Recovered => false end.
End Outage.

(** * Retrying a status write *)

Module Backoff.
Record MockHttpResponse := { status_code : N; body : string; retry_after_ms : option N }.
Inductive BackoffError :=
| RateLimited (retry_after_ms : option N)
| ServerError (status_code : N) (body : string).
Inductive RetryOutcome :=
| Success (attempts : N)
| TerminalFailure (attempts : N) (last_error : option BackoffError).

Definition classify (r : MockHttpResponse) : result BackoffError unit :=
  let c := status_code r in
  if (200 <=? c) && (c <=? 299) then Ok tt
  else if c =? 429 then Err (RateLimited (retry_after_ms r))
  else Err (ServerError c (body r)).
Definition unavailable : MockHttpResponse := {| status_code := 503; body := "server error 503"; retry_after_ms := None |}.

(** The attempts from [attempt] on; [last_error] is kept as the error itself, the
    code keeps its text. *)
Fixpoint attempts_from (n : nat) (attempt : N) (responses : list MockHttpResponse) (last_error : option BackoffError)
    : RetryOutcome :=
  match n with
  | O => TerminalFailure attempt last_error
  | S n =>
      match classify (default unavailable (head responses)) with
      | Ok _ => Success (attempt + 1)
      | Err e => attempts_from n (attempt + 1) (tail responses) (Some e)
      end
  end.
(** [max_retries + 1] at 32 bits. *)
Definition max_attempts (max_retries : N) : N := as_u32 (max_retries + 1).
Definition run_with_responses (max_retries : N) (responses : list MockHttpResponse) : RetryOutcome :=
  attempts_from (N.to_nat (max_attempts max_retries)) 0 responses None.
End Backoff.

(** * Polling *)

Module Poll.
Definition DETECTION_SLA_MS : N := 5 * 60 * 1000.
Record PollConfig := { interval_ms : N; sla_ms : N }.
Definition PollConfig_default : PollConfig := {| interval_ms := DETECTION_SLA_MS / 5; sla_ms := DETECTION_SLA_MS |}.
Definition satisfies_sla (c : PollConfig) : bool := (0 <? interval_ms c) && (interval_ms c <=? sla_ms c).
Record PollDetection := { poll_diverged : bool; detected_at_ms : N; within_sla : bool }.
Definition div_ceil (a b : N) : N := if a mod b =? 0 then a / b else a / b + 1.
Definition detect_via_poll (c : PollConfig) (diverged_at_ms : N) : PollDetection :=
  let interval := N.max (interval_ms c) 1 in
  let next_tick := (div_ceil diverged_at_ms interval * interval) mod 18446744073709551616 in
  let detected := N.max next_tick diverged_at_ms in
  let latency := detected - diverged_at_ms in
  {| poll_diverged := true; detected_at_ms := detected; within_sla := (latency <=? sla_ms c) && satisfies_sla c |}.
End Poll.

(** * Seeding a fresh mirror *)

Record SeedUnit := { refname : string; object_hash : string; pack_offset : N }.
Record SeedProgress := { last_verified : option string; seed_offset : N; verified_refs : list string }.
Definition SeedProgress_default : SeedProgress := {| last_verified := None; seed_offset := 0; verified_refs := [] |}.
Definition seed_verified (p : SeedProgress) (r : string) : bool := bool_decide (r ∈ verified_refs p).
Definition record_unit (p : SeedProgress) (u : SeedUnit) : SeedProgress := {|
  last_verified := Some (refname u); seed_offset := pack_offset u;
  verified_refs := if seed_verified p (refname u) then verified_refs p else verified_refs p ++ [refname u] |}.

Inductive SeedError :=
| ByteIdentityMismatch (refname source_hash mirror_hash : string)
| Transport (refname detail : string).
Inductive SeedOutcome :=
| SeedComplete (refs_verified : nat)
| Interrupted (progress : SeedProgress) (at_ : string).

Class SeedTransport (T : Type) := { seed_push : T → SeedUnit → T * result SeedError string }.

(** [cold_seed], with the transport and the cursor it leaves. *)
Fixpoint cold_seed `{SeedTransport T} (units : list SeedUnit) (t : T) (progress : SeedProgress)
    : T * SeedProgress * result SeedError SeedOutcome :=
  match units with
  | [] => (t, progress, Ok (SeedComplete (length (verified_refs progress))))
  | u :: units =>
      if seed_verified progress (refname u) then cold_seed units t progress
      else match seed_push t u with
      | (t, Ok mirror_hash) =>
          if decide (mirror_hash ≠ object_hash u)
          then (t, progress, Err (ByteIdentityMismatch (refname u) (object_hash u) mirror_hash))
          else cold_seed units t (record_unit progress u)
      | (t, Err (Transport r _)) => (t, progress, Ok (Interrupted progress r))
      | (t, Err e) => (t, progress, Err e)
      end
  end.

(** The test transport: one ref reported wrong, one failing once.  The code keeps
    the delivered refs; here each is kept with the hash that was reported, so that
    what the mirror holds can be read off. *)
Record MockSeedTransport := {
  corrupt : gmap string string; fail_once_at : option string; delivered : list (string * string); failed : bool }.
#[export] Instance mock_transport : SeedTransport MockSeedTransport := {|
  seed_push t u :=
    if decide (fail_once_at t = Some (refname u) ∧ failed t = false)
    then ({| corrupt := corrupt t; fail_once_at := fail_once_at t; delivered := delivered t; failed := true |},
          Err (Transport (refname u) "transient push failure (resumable)"))
    else
      let h := default (object_hash u) (corrupt t !! refname u) in
      ({| corrupt := corrupt t; fail_once_at := fail_once_at t; delivered := delivered t ++ [(refname u, h)];
          failed := failed t |}, Ok h) |}.

(** * Disaster recovery *)

Module Recovery.
Inductive RecoverySource := HugitSubstrate | VerifiedMirror.
Inductive CompletenessCriterion := ByteIdentity.
Inductive LossKind := AppRevocation | RepoDeletionOrRename | SubstrateLoss.
Record Incident := {
  loss : LossKind; recovery_source : RecoverySource; completeness : CompletenessCriterion; incident_detail : string }.
Inductive GithubProbe := ProbeOk | AuthFailure (detail : string) | NotFoundOrRedirect (detail : string).
Definition detect_github_loss (probe : GithubProbe) : option Incident :=
  match probe with
  | ProbeOk => None
  | AuthFailure detail => Some {|
      loss := AppRevocation; recovery_source := HugitSubstrate; completeness := ByteIdentity;
      incident_detail := "app revocation / auth failure: " +:+ detail |}
  | NotFoundOrRedirect detail => Some {|
      loss := RepoDeletionOrRename; recovery_source := HugitSubstrate; completeness := ByteIdentity;
      incident_detail := "repo deletion/rename (404/redirect): " +:+ detail |}
  end.

Inductive RecoveryOutcome :=
| Recovered (resume_from : SeedProgress) (refs_verified : nat)
| Unverifiable (reason : string).

(** The readback loop the two recoveries share, with its message. *)
Fixpoint readback_units (mismatch : SeedUnit → string → string) (units : list SeedUnit) (readback : SeedUnit → string)
    (p : SeedProgress) : RecoveryOutcome :=
  match units with
  | [] => Recovered p (length (verified_refs p))
  | u :: units =>
      let got := readback u in
      if decide (got ≠ object_hash u) then Unverifiable (mismatch u got)
      else readback_units mismatch units readback
        {| last_verified := Some (refname u); seed_offset := pack_offset u; verified_refs := verified_refs p ++ [refname u] |}
  end.
Definition recover_github_loss (units : list SeedUnit) (mirror_readback : SeedUnit → string) : RecoveryOutcome :=
  readback_units (λ u got, "re-seeded mirror not byte-identical at " +:+ refname u +:+ ": source=" +:+ object_hash u +:+
    " mirror=" +:+ got +:+ " (fail-closed)") units mirror_readback SeedProgress_default.

Record WorkingGitRepo := { repo_refs : list string; head_resolves : bool }.
Definition is_working (r : WorkingGitRepo) : bool := negb (bool_decide (repo_refs r = [])) && head_resolves r.
Definition recover_substrate_loss (mirror : WorkingGitRepo) (units : list SeedUnit) (substrate_readback : SeedUnit → string)
    : RecoveryOutcome :=
  if negb (is_working mirror) then Unverifiable "mirror is not a working git repo; cannot recover (fail-closed)"
  else readback_units (λ u got, "rebuilt substrate not byte-identical at " +:+ refname u +:+ ": mirror=" +:+ object_hash u +:+
    " substrate=" +:+ got +:+ " (fail-closed)") units substrate_readback SeedProgress_default.

(** ** The import boundary *)

Definition CHANGE_EVENT_KIND : string := "mirror.recovered.change_event".
Definition FORBIDDEN_FABRICATED_KINDS : list string := ["intent"; "proposed_intent"; "synthesized_intent"].
Inductive ImportBoundaryError := FabricatedIntent (kind : string).
Definition project_recovered_commit (seq : N) (prev_hash object_hash : string) (principal_chain : list string)
    (payload : string) (recorded_at : N) : EventRecord := {|
  Log.seq := seq; Log.prev_hash := prev_hash; Log.this_hash := object_hash; Log.kind := CHANGE_EVENT_KIND;
  Log.principal_chain := principal_chain; Log.payload := payload; Log.recorded_at := recorded_at |}.
Definition import_as_change_event (record : EventRecord) : result ImportBoundaryError unit :=
  if decide (Log.kind record ∈ FORBIDDEN_FABRICATED_KINDS) then Err (FabricatedIntent (Log.kind record)) else Ok tt.
End Recovery.

(** * The queue is a bounded queue *)

Inductive QueueOp := Enqueue (e : QueueEntry) | Dequeue.

(** A run: the entries accepted, the entries handed out and the rejections. *)
Fixpoint run_ops (q : OutageQueue) (ops : list QueueOp) (accepted out rejected : list QueueEntry)
    : OutageQueue * list QueueEntry * list QueueEntry * list QueueEntry :=
  match ops with
  | [] => (q, accepted, out, rejected)
  | Enqueue e :: ops =>
      match enqueue q e with
      | (q, Ok _) => run_ops q ops (accepted ++ [e]) out rejected
      | (q, Err _) => run_ops q ops accepted out (rejected ++ [e])
      end
  | Dequeue :: ops =>
      match dequeue q with
      | (q, Some e) => run_ops q ops accepted (out ++ [e]) rejected
      | (q, None) => run_ops q ops accepted out rejected
      end
  end.

Definition offered (ops : list QueueOp) : list QueueEntry :=
  omap (λ op, match op with Enqueue e => Some e | Dequeue => None end) ops.

Lemma run_ops_inv q ops accepted out rejected q' accepted' out' rejected' :
  accepted = out ++ entries q → (length (entries q) ≤ capacity q)%nat →
  run_ops q ops accepted out rejected = (q', accepted', out', rejected') →
  accepted' = out' ++ entries q' ∧ (length (entries q') ≤ capacity q')%nat ∧ capacity q' = capacity q ∧
  accepted' ++ rejected' ≡ₚ accepted ++ rejected ++ offered ops.
Proof.
  revert q accepted out rejected. induction ops as [|[e|] ops IH]; intros q accepted out rejected Hacc Hcap; cbn [run_ops].
  - intros [= <- <- <- <-]. simpl. by rewrite app_nil_r.
  - unfold enqueue, is_full. destruct (Nat.leb_spec (capacity q) (length (entries q))); intros Hrun.
    + apply IH in Hrun as (? & ? & ? & Hperm); [|done..]. split_and!; [done..|]. rewrite Hperm. simpl. solve_Permutation.
    + apply IH in Hrun as (? & ? & ? & Hperm); simpl.
      * split_and!; [done..|]. rewrite Hperm. solve_Permutation.
      * by rewrite Hacc, <- (assoc_L (++)).
      * rewrite length_app. simpl. lia.
  - unfold dequeue. destruct (entries q) as [|e es] eqn:Ee; intros Hrun.
    + apply IH in Hrun; [done|by rewrite Ee|by rewrite Ee].
    + apply IH in Hrun; [done| |]; simpl.
      * by rewrite Hacc, <- (assoc_L (++)).
      * simpl in Hcap. lia.
Qed.

(** Whatever is put in and taken out, in any order: the entries handed out are
    the accepted ones in the order they were accepted, those not yet handed out
    are still there, there are never more than the capacity, and every offered
    entry was accepted or rejected. *)
Theorem queue_fifo cap ops q accepted out rejected :
  run_ops (with_capacity cap) ops [] [] [] = (q, accepted, out, rejected) →
  accepted = out ++ entries q ∧ (length (entries q) ≤ cap)%nat ∧ accepted ++ rejected ≡ₚ offered ops.
Proof.
  intros Hrun. apply run_ops_inv in Hrun as (H1 & H2 & H3 & H4); [|done|simpl; lia]. simpl in H3, H4. by rewrite H3 in H2.
Qed.

(** * What a drain leaves on the mirror *)

(** A target that says what the mirror holds. *)
Class HonestTarget T `{MirrorPushTarget T} := {
  holds : T → string → option ContentHash;
  push_reports : ∀ t r h t' o, push_ref t r h = (t', Ok o) → holds t' r = Some o;
  push_others : ∀ t r h t' res r', push_ref t r h = (t', res) → r' ≠ r → holds t' r' = holds t r';
}.

Section Drained.
Context `{HonestTarget T}.
Context (latency_for : QueueEntry → N).

Lemma replicate_verified t e ms t' r :
  replicate_entry t e ms = (t', r) → is_verified (verify r) = true →
  holds t' (entry_ref e) = Some (ContentHash_new (entry_oid e)).
Proof.
  unfold replicate_entry. destruct (push_ref t (entry_ref e) _) as [t1 [o|[r1 d]]] eqn:E; intros [= <- <-]; simpl; [|done].
  unfold verify_push. case_decide as Ho; [|done]. intros _. apply push_reports in E. by rewrite E, <- Ho.
Qed.

Lemma replicate_others t e ms t' r r' : replicate_entry t e ms = (t', r) → r' ≠ entry_ref e → holds t' r' = holds t r'.
Proof.
  unfold replicate_entry. destruct (push_ref t (entry_ref e) _) as [t1 [o|[r1 d]]] eqn:E; intros [= <- <-]; by eapply push_others.
Qed.

Lemma replicate_seq t e ms t' r : replicate_entry t e ms = (t', r) → report_seq r = entry_seq e.
Proof. unfold replicate_entry. destruct (push_ref _ _ _) as [t1 [o|[r1 d]]]; by intros [= <- <-]. Qed.

Lemma drain_loop_spec es c t reports t' q' reports' :
  drain_loop (S (length es)) t {| capacity := c; entries := es |} latency_for reports = (t', q', reports') →
  entries q' = [] ∧ ∃ new, reports' = reports ++ new ∧ (report_seq <$> new) = (entry_seq <$> es) ∧
  (∀ r, r ∉ (entry_ref <$> es) → holds t' r = holds t r) ∧
  (Forall (λ p, is_verified (verify p) = true) new → ∀ r e, last (filter (λ e, entry_ref e = r) es) = Some e →
    holds t' r = Some (ContentHash_new (entry_oid e))).
Proof.
  revert t reports. induction es as [|e es IH]; intros t reports; cbn [drain_loop dequeue length entries].
  { intros [= <- <- <-]. split; [done|]. exists []. rewrite app_nil_r. split_and!; done. }
  destruct (replicate_entry t e (latency_for e)) as [t1 r1] eqn:Er. intros Hrun.
  apply IH in Hrun as (Hq & new & -> & Hseq & Hkeep & Hlast). split; [done|]. exists (r1 :: new). split_and!.
  - by rewrite <- (assoc_L (++)).
  - rewrite !fmap_cons. f_equal; [by eapply replicate_seq|done].
  - intros r Hr. rewrite fmap_cons, not_elem_of_cons in Hr. destruct Hr as [Hne Hr]. rewrite Hkeep by done.
    by eapply replicate_others.
  - intros [Hv1 Hv]%Forall_cons r e' Hl. rewrite filter_cons in Hl.
    destruct (last (filter (λ e, entry_ref e = r) es)) as [e''|] eqn:El.
    + apply (Hlast Hv). rewrite El. case_decide; [|by rewrite El in Hl].
      rewrite last_cons, El in Hl. done.
    + assert (filter (λ e, entry_ref e = r) es = []) as Hnil by (by apply last_None).
      rewrite Hnil in Hl. case_decide as Hr; [|done]. simpl in Hl. injection Hl as <-.
      rewrite Hkeep; [rewrite <- Hr; by eapply replicate_verified|].
      intros (e' & He' & Hin)%list_elem_of_fmap.
      assert (e' ∈ filter (λ e, entry_ref e = r) es) as Hf by (by apply list_elem_of_filter).
      rewrite Hnil in Hf. by apply not_elem_of_nil in Hf.
Qed.

Lemma all_verified_reports reports : all_verified (from_reports reports) = true → Forall (λ p, is_verified (verify p) = true) reports.
Proof.
  unfold all_verified, from_reports. simpl. intros [[Hd%Nat.eqb_eq _]%andb_true_iff _]%andb_true_iff.
  apply Forall_forall. intros r Hr. destruct (verify r) as [|d] eqn:Ev; [done|]. exfalso.
  assert (r ∈ filter (λ r, is_Some (divergence (verify r))) reports) as Hf.
  { apply list_elem_of_filter. rewrite Ev. by eauto. }
  apply nil_length_inv in Hd. rewrite Hd in Hf. by apply not_elem_of_nil in Hf.
Qed.

(** Draining empties the queue and reports every entry in order; when the summary
    of the reports is all verified, the mirror holds for every ref that was queued
    the id queued last. *)
Theorem drain_mirrors t q t' q' reports :
  drain_queue t q latency_for = (t', q', reports) →
  entries q' = [] ∧ (report_seq <$> reports) = (entry_seq <$> entries q) ∧
  (all_verified (from_reports reports) = true →
    ∀ r e, last (filter (λ e, entry_ref e = r) (entries q)) = Some e →
    holds t' r = Some (ContentHash_new (entry_oid e))).
Proof.
  unfold drain_queue. destruct q as [c es]. cbn [entries]. intros Hrun.
  apply drain_loop_spec in Hrun as (Hq & new & -> & Hseq & _ & Hlast). split_and!; [done..|].
  intros Hall. apply Hlast. by apply all_verified_reports.
Qed.
End Drained.

(** * Retrying ends *)

Module BackoffSpec.
Import Backoff.

Definition response (responses : list MockHttpResponse) (i : nat) : MockHttpResponse := default unavailable (responses !! i).
Definition succeeds (r : MockHttpResponse) : Prop := classify r = Ok tt.

Lemma attempts_from_spec n attempt responses last_error :
  match attempts_from n attempt responses last_error with
  | Success k => ∃ i, (i < n)%nat ∧ k = attempt + N.of_nat i + 1 ∧ succeeds (response responses i) ∧
      ∀ j, (j < i)%nat → ¬ succeeds (response responses j)
  | TerminalFailure a e => a = attempt + N.of_nat n ∧ (∀ j, (j < n)%nat → ¬ succeeds (response responses j)) ∧
      (0 < n → is_Some e)%nat
  end.
Proof.
  revert attempt responses last_error. induction n as [|n IH]; intros attempt responses last_error; cbn [attempts_from].
  { split_and!; [lia|lia|lia]. }
  assert (default unavailable (head responses) = response responses 0) as -> by (by destruct responses).
  assert (∀ j, response (tail responses) j = response responses (S j)) as Htail.
  { intros j. unfold response. destruct responses; [by rewrite !lookup_nil|done]. }
  destruct (classify (response responses 0)) as [[]|e] eqn:Ec.
  { exists 0%nat. split_and!; [lia|lia|done|lia]. }
  assert (¬ succeeds (response responses 0)) as Hn by (unfold succeeds; by rewrite Ec).
  specialize (IH (attempt + 1) (tail responses) (Some e)).
  destruct (attempts_from n (attempt + 1) (tail responses) (Some e)) as [k|a le] eqn:Ea.
  - destruct IH as (i & Hi & -> & Hok & Hbefore). exists (S i). rewrite <- Htail. split_and!; [lia|lia|done|].
    intros [|j] Hj; [done|]. rewrite <- Htail. apply Hbefore. lia.
  - destruct IH as (-> & Hall & Hsome). split_and!; [lia| |].
    + intros [|j] Hj; [done|]. rewrite <- Htail. apply Hall. lia.
    + intros _. destruct n as [|n]; [injection Ea as _ <-; by eexists|apply Hsome; lia].
Qed.

(** Retrying always ends, after at most [max_retries + 1] attempts at 32 bits:
    with a success at the first response that is one, or in a terminal failure
    when none of the attempts was one. *)
Theorem retry_ends max_retries responses :
  match run_with_responses max_retries responses with
  | Success k => ∃ i, k = N.of_nat i + 1 ∧ k ≤ max_attempts max_retries ∧ succeeds (response responses i) ∧
      ∀ j, (j < i)%nat → ¬ succeeds (response responses j)
  | TerminalFailure a e => a = max_attempts max_retries ∧
      (∀ j, N.of_nat j < max_attempts max_retries → ¬ succeeds (response responses j)) ∧
      (0 < max_attempts max_retries → is_Some e)
  end.
Proof.
  unfold run_with_responses. set (m := max_attempts max_retries).
  pose proof (attempts_from_spec (N.to_nat m) 0 responses None) as Hs.
  destruct (attempts_from _ _ _ _) as [k|a e].
  - destruct Hs as (i & Hi & -> & Hok & Hbefore). exists i. split_and!; [lia|lia|done|done].
  - destruct Hs as (-> & Hall & Hsome). split_and!; [lia| |].
    + intros j Hj. apply Hall. lia.
    + intros Hm. apply Hsome. lia.
Qed.

(** The count of attempts wraps: the largest retry limit makes none. *)
Example no_attempt_at_the_limit : run_with_responses 4294967295 [{| status_code := 200; body := ""; retry_after_ms := None |}] =
  TerminalFailure 0 None.
Proof. vm_compute. reflexivity. Qed.
End BackoffSpec.

(** * Polling keeps to its interval *)

Module PollSpec.
Import Poll.

Lemma div_ceil_bounds a b : 0 < b → a ≤ div_ceil a b * b < a + b.
Proof.
  intros Hb. unfold div_ceil. pose proof (N.div_mod' a b) as Hd. pose proof (N.mod_lt a b ltac:(lia)) as Hm.
  generalize dependent (a / b). generalize dependent (a mod b). intros r Hr q Hq.
  destruct (N.eqb_spec r 0); rewrite ?N.mul_add_distr_r, (N.mul_comm q b); lia.
Qed.

(** A divergence is found no earlier than it appeared and less than an interval
    later, also when the tick wraps at 64 bits; it is reported to be within the
    promised time exactly when the interval is positive and no longer than that
    time. *)
Theorem poll_detects_in_time c at_ : at_ ≤ u64_max →
  at_ ≤ detected_at_ms (detect_via_poll c at_) < at_ + N.max (interval_ms c) 1 ∧
  within_sla (detect_via_poll c at_) = satisfies_sla c.
Proof.
  intros Hat. unfold detect_via_poll. cbn [detected_at_ms within_sla]. set (i := N.max (interval_ms c) 1).
  pose proof (div_ceil_bounds at_ i ltac:(lia)) as Hb. set (tick := div_ceil at_ i * i) in *. unfold u64_max in Hat.
  assert (tick mod 18446744073709551616 < at_ + i) as Htick.
  { pose proof (N.Div0.mod_le tick 18446744073709551616). lia. }
  split; [lia|]. unfold satisfies_sla. destruct (N.ltb_spec 0 (interval_ms c)); [|by rewrite andb_false_r].
  destruct (N.leb_spec (interval_ms c) (sla_ms c)); [|by rewrite andb_false_r]. rewrite andb_true_r. cbn [andb].
  apply N.leb_le. lia.
Qed.

Example poll_witness_config : satisfies_sla PollConfig_default = true.
Proof. reflexivity. Qed.
End PollSpec.

(** * A completed seed *)

(** A transport that says what the mirror holds. *)
Class HonestTransport T `{SeedTransport T} := {
  seed_holds : T → string → option string;
  seed_reports : ∀ t u t' h, seed_push t u = (t', Ok h) → seed_holds t' (refname u) = Some h;
  seed_others : ∀ t u t' res r, seed_push t u = (t', res) → r ≠ refname u → seed_holds t' r = seed_holds t r;
}.

Section Seeded.
Context `{HonestTransport T} (all : list SeedUnit) (Hunique : NoDup (refname <$> all)).

(** The cursor names refs of the source that the mirror holds, each once. *)
Record cursor_ok (t : T) (p : SeedProgress) : Prop := {
  cursor_holds : ∀ r, r ∈ verified_refs p → ∃ u, u ∈ all ∧ refname u = r ∧ seed_holds t r = Some (object_hash u);
  cursor_once : NoDup (verified_refs p);
}.

Lemma cursor_default t : cursor_ok t SeedProgress_default.
Proof. split; simpl; [by intros r Hr%not_elem_of_nil|constructor]. Qed.

Lemma cursor_failed_push t p u t' res :
  cursor_ok t p → (refname u ∉ verified_refs p) → seed_push t u = (t', res) → cursor_ok t' p.
Proof.
  intros [Hh Ho] Hn Hp. split; [|done]. intros r Hr. destruct (Hh r Hr) as (v & ? & ? & ?). exists v. split_and!; [done..|].
  rewrite (seed_others _ _ _ _ r Hp); [done|]. intros ->. done.
Qed.

Lemma cursor_record t p u t' :
  u ∈ all → cursor_ok t p → (refname u ∉ verified_refs p) → seed_push t u = (t', Ok (object_hash u)) →
  cursor_ok t' (record_unit p u).
Proof.
  intros Hu Hc Hn Hp. pose proof (cursor_failed_push _ _ _ _ _ Hc Hn Hp) as [Hh Ho].
  unfold record_unit, seed_verified. rewrite bool_decide_eq_false_2 by done. split; simpl.
  - intros r [Hr|Hr]%elem_of_app; [by apply Hh|]. apply list_elem_of_singleton in Hr as ->. exists u. split_and!; [done..|].
    by eapply seed_reports.
  - apply NoDup_app. split_and!; [done| |apply NoDup_singleton]. intros r Hr ->%list_elem_of_singleton. done.
Qed.

Lemma cold_seed_spec units t p t' p' res :
  (∀ u, u ∈ units → u ∈ all) → cursor_ok t p → cold_seed units t p = (t', p', res) →
  cursor_ok t' p' ∧ (∀ r, r ∈ verified_refs p → r ∈ verified_refs p') ∧
  match res with
  | Ok (SeedComplete n) => n = length (verified_refs p') ∧ ∀ u, u ∈ units → refname u ∈ verified_refs p'
  | Ok (Interrupted c _) => c = p'
  | Err _ => True
  end.
Proof.
  revert t p. induction units as [|u units IH]; intros t p Hall Hc; cbn [cold_seed].
  { intros [= <- <- <-]. split_and!; [done..|]. by intros u Hu%not_elem_of_nil. }
  assert (∀ u, u ∈ units → u ∈ all) as Hall' by (intros v Hv; apply Hall; by apply list_elem_of_further).
  unfold seed_verified. case_bool_decide as Hin.
  { intros Hrun. apply IH in Hrun as (Hc' & Hmono & Hres); [|done..]. split_and!; [done..|].
    destruct res as [[n|c a]|e]; [|done..]. destruct Hres as [-> Hunits]. split; [done|].
    intros v [->|Hv]%elem_of_cons; [by apply Hmono|by apply Hunits]. }
  destruct (seed_push t u) as [t1 [h|e]] eqn:Ep.
  - case_decide as Hh.
    { intros [= <- <- <-]. split_and!; [by eapply cursor_failed_push|done|done]. }
    assert (h = object_hash u) as -> by (destruct (decide (h = object_hash u)); tauto).
    apply (cursor_record _ _ _ _ (Hall u (list_elem_of_here u units)) Hc Hin) in Ep. intros Hrun.
    apply IH in Hrun as (Hc' & Hmono & Hres); [|done..].
    assert (∀ r, r = refname u ∨ r ∈ verified_refs p → r ∈ verified_refs p') as Hmono'.
    { intros r Hr. apply Hmono. unfold record_unit, seed_verified. rewrite bool_decide_eq_false_2 by done. simpl.
      rewrite elem_of_app, list_elem_of_singleton. tauto. }
    split_and!; [done|auto|]. destruct res as [[n|c a]|e]; [|done..]. destruct Hres as [-> Hunits]. split; [done|].
    intros v [->|Hv]%elem_of_cons; [auto|by apply Hunits].
  - assert (cursor_ok t1 p) as Hc1 by (by eapply cursor_failed_push).
    destruct e as [r1 h1 h2|r1 d1]; intros [= <- <- <-]; done.
Qed.

(** An interrupted run, to be resumed from its cursor. *)
Definition interrupted_run (a b : T * SeedProgress) : Prop :=
  ∃ c at_, cold_seed all a.1 a.2 = (b.1, b.2, Ok (Interrupted c at_)).

Lemma cursor_resumed a b : rtc interrupted_run a b → cursor_ok a.1 a.2 → cursor_ok b.1 b.2.
Proof.
  induction 1 as [|a b c (p & at_ & Hrun) _ IH]; [done|]. intros Ha. apply IH.
  by apply cold_seed_spec in Hrun as (Hc & _ & _).
Qed.

Lemma unit_of_ref u v : u ∈ all → v ∈ all → refname u = refname v → u = v.
Proof.
  intros [i Hi]%list_elem_of_lookup [j Hj]%list_elem_of_lookup Heq.
  assert (i = j) as ->; [|congruence].
  eapply NoDup_lookup; [exact Hunique|by rewrite list_lookup_fmap, Hi|by rewrite list_lookup_fmap, Hj; simpl; f_equal].
Qed.

(** C34. When the refs of the source are distinct, a seed that completes after any
    number of interruptions, each resumed from the cursor it returned, left every
    ref of the source on the mirror with the source's hash, and counts them all;
    a cursor that was returned names only refs that are on the mirror. *)
Theorem seed_completes t0 t p t' p' res :
  rtc interrupted_run (t0, SeedProgress_default) (t, p) → cold_seed all t p = (t', p', res) →
  match res with
  | Ok (SeedComplete n) => n = length all ∧ ∀ u, u ∈ all → seed_holds t' (refname u) = Some (object_hash u)
  | Ok (Interrupted c _) => c = p' ∧ ∀ r, r ∈ verified_refs c → ∃ u, u ∈ all ∧ refname u = r ∧ seed_holds t' r = Some (object_hash u)
  | Err _ => True
  end.
Proof.
  intros Hrtc Hrun. assert (cursor_ok t p) as Hc.
  { apply (cursor_resumed (t0, SeedProgress_default) (t, p)); [done|]. apply cursor_default. }
  apply cold_seed_spec in Hrun as (Hc' & _ & Hres); [|done|done]. destruct Hc' as [Hh Ho].
  destruct res as [[n|c a]|e]; [|by subst c|done]. destruct Hres as [-> Hunits].
  assert (∀ u, u ∈ all → seed_holds t' (refname u) = Some (object_hash u)) as Hheld.
  { intros u Hu. destruct (Hh _ (Hunits u Hu)) as (v & Hv & Heq & Hold). rewrite Hold. do 2 f_equal.
    by eapply unit_of_ref. }
  split; [|done]. assert (verified_refs p' ≡ₚ refname <$> all) as Hperm.
  { apply NoDup_Permutation; [done..|]. intros r. split.
    - intros (u & Hu & <- & _)%Hh. by apply list_elem_of_fmap_2.
    - intros (u & -> & Hu)%list_elem_of_fmap. by apply Hunits. }
  by rewrite Hperm, length_fmap.
Qed.
End Seeded.

(** * Recovery is by readback *)

Module RecoverySpec.
Import Recovery.

Lemma readback_units_spec mismatch units readback p :
  match readback_units mismatch units readback p with
  | Recovered p' n => Forall (λ u, readback u = object_hash u) units ∧
      verified_refs p' = verified_refs p ++ (refname <$> units) ∧ n = length (verified_refs p') ∧
      last_verified p' = match last units with Some u => Some (refname u) | None => last_verified p end
  | Unverifiable _ => ∃ u, u ∈ units ∧ readback u ≠ object_hash u
  end.
Proof.
  revert p. induction units as [|u units IH]; intros p; cbn [readback_units].
  { by rewrite app_nil_r. }
  case_decide as Hu; [exists u; split; [apply list_elem_of_here|done]|].
  assert (readback u = object_hash u) as Hok by (destruct (decide (readback u = object_hash u)); tauto).
  match goal with |- context [readback_units _ units _ ?q] => specialize (IH q) end.
  destruct (readback_units mismatch units readback _) as [p' n|].
  - destruct IH as (? & Hrefs & ? & Hlast). simpl in Hrefs, Hlast. split_and!; [by constructor| |done|].
    + by rewrite Hrefs, <- (assoc_L (++)), fmap_cons.
    + rewrite Hlast, last_cons. by destruct (last units).
  - destruct IH as (v & Hv & ?). exists v. split; [by apply list_elem_of_further|done].
Qed.

(** Recovery from the loss of the substrate is declared exactly when the mirror is
    a working repository and every ref read back has the mirror's hash; the resume
    cursor then names all the refs, in order. *)
Theorem recovered_by_readback mirror units readback :
  match recover_substrate_loss mirror units readback with
  | Recovered p n => is_working mirror = true ∧ Forall (λ u, readback u = object_hash u) units ∧
      verified_refs p = (refname <$> units) ∧ n = length units
  | Unverifiable _ => is_working mirror = false ∨ ∃ u, u ∈ units ∧ readback u ≠ object_hash u
  end.
Proof.
  unfold recover_substrate_loss. destruct (is_working mirror); cbn [negb]; [|by left].
  match goal with |- context [readback_units ?f _ _ ?q] => pose proof (readback_units_spec f units readback q) as Hs end.
  destruct (readback_units _ _ _ _) as [p n|]; [|by right].
  destruct Hs as (? & Hrefs & -> & _). split_and!; [done..|]. by rewrite Hrefs, length_app, length_fmap.
Qed.

(** The guard on recovered records lets through the one kind that the projection
    takes for an intent. *)
Theorem boundary_accepts_landed_intent r : Log.kind r = INTENT_LANDED_KIND → import_as_change_event r = Ok tt.
Proof. intros Hk. unfold import_as_change_event. rewrite Hk. done. Qed.

(** A projected recovered commit carries the git id as its hash: put on an intact
    log it breaks the chain, unless that id is the chain hash of its contents. *)
Theorem recovered_commit_breaks_chain `{Crypto} `{SerdeJson} rs prev oid pc p at_ :
  let r := project_recovered_commit (N.of_nat (length rs)) prev oid pc p at_ in
  intact rs → oid ≠ compute_this_hash prev CHANGE_EVENT_KIND pc p (N.of_nat (length rs)) →
  verify_chain (rs ++ [r]) ≠ Ok tt.
Proof.
  intros r [_ Hpast] Hne Hv. apply verify_chain_ok in Hv.
  assert ((rs ++ [r]) !! length rs = Some r) as Hr by (by rewrite lookup_app_r, Nat.sub_diag).
  destruct (Hv _ _ Hr) as (_ & _ & Hc). unfold content_ok in Hc.
  rewrite collect_redactions_snoc, collect_step_other in Hc by done.
  destruct (collect_redactions rs !! N.of_nat (length rs)) eqn:Ered.
  - specialize (Hpast (N.of_nat (length rs)) ltac:(by eexists)). lia.
  - apply Hne. symmetry. exact Hc.
Qed.
End RecoverySpec.

(** * Examples *)

Module MirrorExample.
Definition entry (n : N) (r o : string) : QueueEntry := {| entry_seq := n; entry_ref := r; entry_oid := o |}.

(** A queue of two that turns the third entry away. *)
Definition ops : list QueueOp :=
  [Enqueue (entry 1 "a" "x"); Enqueue (entry 2 "b" "y"); Enqueue (entry 3 "a" "z"); Dequeue; Enqueue (entry 4 "a" "w")].
Lemma queue_fifo_witness :
  ∃ q, run_ops (with_capacity 2) ops [] [] [] =
    (q, [entry 1 "a" "x"; entry 2 "b" "y"; entry 4 "a" "w"], [entry 1 "a" "x"], [entry 3 "a" "z"]) ∧
  [entry 1 "a" "x"; entry 2 "b" "y"; entry 4 "a" "w"] = [entry 1 "a" "x"] ++ entries q.
Proof.
  eexists. split; [vm_compute; reflexivity|].
  apply (queue_fifo 2 ops _ _ _ [entry 3 "a" "z"]). vm_compute. reflexivity.
Defined.

(** The fixture, as a mirror that holds what was pushed last. *)
Definition fixture_holds (t : FixtureMirror) (r : string) : option ContentHash :=
  match corrupt_ref t with
  | Some (c, o) => if decide (c = r ∧ r ∈ (pushed t).*1) then Some o else snd <$> last (filter (λ p, p.1 = r) (pushed t))
  | None => snd <$> last (filter (λ p, p.1 = r) (pushed t))
  end.
#[local] Instance fixture_honest : HonestTarget FixtureMirror.
Proof.
  refine {| holds := fixture_holds |}.
  - intros t r h t' o. simpl. case_decide; [done|]. intros [= <- <-]. unfold fixture_holds. simpl.
    assert (snd <$> last (filter (λ p, p.1 = r) (pushed t ++ [(r, h)])) = Some h) as Hl.
    { rewrite filter_app, filter_cons_True by done. rewrite filter_nil. by rewrite last_snoc. }
    destruct (corrupt_ref t) as [[c obs]|]; [|done]. destruct (decide (c = r)) as [->|Hne].
    + rewrite decide_True; [done|]. split; [done|]. rewrite fmap_app, elem_of_app. right. apply list_elem_of_here.
    + by rewrite decide_False by naive_solver.
  - intros t r h t' res r'. simpl. case_decide; [by intros [= <- _]|]. intros [= <- _] Hne. unfold fixture_holds. simpl.
    assert (filter (λ p, p.1 = r') (pushed t ++ [(r, h)]) = filter (λ p, p.1 = r') (pushed t)) as ->.
    { rewrite filter_app, filter_cons_False by done. by rewrite filter_nil, app_nil_r. }
    destruct (corrupt_ref t) as [[c obs]|]; [|done].
    assert (r' ∈ (pushed t ++ [(r, h)]).*1 ↔ r' ∈ (pushed t).*1) as Hiff.
    { rewrite fmap_app, elem_of_app. simpl. rewrite list_elem_of_singleton. naive_solver. }
    destruct (decide (c = r' ∧ r' ∈ (pushed t).*1)); [rewrite decide_True by naive_solver|rewrite decide_False by naive_solver]; done.
Defined.

Definition faithful : FixtureMirror := {| corrupt_ref := None; reject_ref := None; pushed := [] |}.
Definition pending : OutageQueue := {| capacity := 5; entries := [entry 1 "a" "X1"; entry 2 "b" "y"; entry 3 "a" "Z9"] |}.
Lemma drain_mirrors_witness :
  ∃ t q reports, drain_queue faithful pending (λ _, 10) = (t, q, reports) ∧
    all_verified (from_reports reports) = true ∧ holds t "a" = Some {| hash_text := "z9" |}.
Proof.
  destruct (drain_queue faithful pending (λ _, 10)) as [[t q] reports] eqn:E.
  assert (all_verified (from_reports reports) = true) as Hall by (vm_compute in E; by injection E as _ _ <-).
  exists t, q, reports. split; [done|]. split; [done|].
  destruct (drain_mirrors (λ _, 10) faithful pending t q reports E) as (_ & _ & Hm).
  apply (Hm Hall "a" (entry 3 "a" "Z9")). vm_compute. reflexivity.
Defined.

(** A rejected push is reported, and its entry is gone from the queue. *)
Example rejected_entry_leaves_queue :
  let '(_, q, reports) := drain_queue {| corrupt_ref := None; reject_ref := Some "b"; pushed := [] |} pending (λ _, 10) in
  entries q = [] ∧ (is_verified ∘ verify <$> reports) = [true; false; true].
Proof. vm_compute. done. Qed.

Import Poll.
Lemma poll_detects_in_time_witness :
  detected_at_ms (detect_via_poll PollConfig_default 100001) = 120000 ∧ within_sla (detect_via_poll PollConfig_default 100001) = true.
Proof.
  split; [vm_compute; reflexivity|].
  destruct (PollSpec.poll_detects_in_time PollConfig_default 100001) as [_ Hw]; [vm_compute; discriminate|].
  rewrite Hw. reflexivity.
Defined.

(** ** Seeding *)

Definition delivered_hash (t : MockSeedTransport) (r : string) : option string :=
  snd <$> last (filter (λ p, p.1 = r) (delivered t)).
#[local] Instance mock_honest : HonestTransport MockSeedTransport.
Proof.
  refine {| seed_holds := delivered_hash |}.
  - intros t u t' h. simpl. case_decide; [done|]. intros [= <- <-]. unfold delivered_hash. simpl.
    rewrite filter_app, filter_cons_True by done. by rewrite filter_nil, last_snoc.
  - intros t u t' res r. simpl. case_decide; intros [= <- _] Hne; unfold delivered_hash; simpl; [done|].
    rewrite filter_app, filter_cons_False by done. by rewrite filter_nil, app_nil_r.
Defined.

Definition unit (r h : string) (o : N) : SeedUnit := {| refname := r; object_hash := h; pack_offset := o |}.
Definition source : list SeedUnit := [unit "a" "h1" 10; unit "b" "h2" 20].
Definition flaky : MockSeedTransport := {| corrupt := ∅; fail_once_at := Some "b"; delivered := []; failed := false |}.

(** Interrupted at the second ref, resumed, complete. *)
Lemma seed_completes_witness :
  ∃ t p t' p', rtc (interrupted_run source) (flaky, SeedProgress_default) (t, p) ∧
    cold_seed source t p = (t', p', Ok (SeedComplete 2)) ∧ seed_holds t' "b" = Some "h2".
Proof.
  destruct (cold_seed source flaky SeedProgress_default) as [[t p] r] eqn:E1.
  destruct (cold_seed source t p) as [[t' p'] r'] eqn:E2. exists t, p, t', p'.
  assert (rtc (interrupted_run source) (flaky, SeedProgress_default) (t, p)) as Hrtc.
  { apply rtc_once. unfold interrupted_run. simpl fst. simpl snd. rewrite E1. vm_compute in E1. injection E1 as <- <- <-. by do 2 eexists. }
  assert (r' = Ok (SeedComplete 2)) as ->.
  { vm_compute in E1. injection E1 as <- <- <-. vm_compute in E2. by injection E2 as _ _ <-. }
  split; [done|]. split; [done|].
  assert (NoDup (refname <$> source)) as Hnd by (apply (bool_decide_unpack _); vm_compute; exact I).
  destruct (seed_completes source Hnd flaky t p t' p' (Ok (SeedComplete 2)) Hrtc E2) as [_ Hheld].
  apply (Hheld (unit "b" "h2" 20)). apply list_elem_of_further, list_elem_of_here.
Defined.

(** A cursor remembers names and not hashes: when the source moves between an
    interruption and the resumption, the seed completes with the old hash on the
    mirror. *)
Example moved_ref_not_reseeded :
  let '(t, p, r) := cold_seed source flaky SeedProgress_default in
  let '(t', _, r') := cold_seed [unit "a" "h9" 10; unit "b" "h2" 20] t p in
  r' = Ok (SeedComplete 2) ∧ seed_holds t' "a" = Some "h1".
Proof. vm_compute. done. Qed.

(** ** Recovery *)

#[local] Existing Instance Toy.toy.
#[local] Existing Instance Codec.codec.

Lemma boundary_accepts_landed_intent_witness :
  Recovery.import_as_change_event {| Log.seq := 0; Log.prev_hash := ""; Log.this_hash := ""; Log.kind := "intent.landed";
    Log.principal_chain := []; Log.payload := ""; Log.recorded_at := 0 |} = Ok tt.
Proof. apply RecoverySpec.boundary_accepts_landed_intent. reflexivity. Defined.
End MirrorExample.
